(* ===== verification/_CoqProject ===== *)
-Q . S2P
Prelude.v
Words.v
DriverConstants.v
NtStatus.v
FrameParse.v
Forwarding.v
BufferPool.v
Selection.v
FrameQueue.v
Ring.v
HardwareId.v
Effects.v
Conc.v
Lease.v
WaitRecord.v
WaitProtocol.v
WaitSafety.v
WaitTheorems.v
BusWire.v
Bus.v
BusSpec.v
BusTheorems.v
Completion.v
Arguments.v
Kernel.v
Runtime.v
RuntimeLoop.v
RuntimeStart.v
RuntimeShape.v
RuntimeSpec.v
RuntimeOps.v
RuntimeRun.v
RuntimeWaits.v
RuntimeShutdown.v
RuntimeLife.v
RuntimeErrors.v
RuntimeTheorems.v
Datapath.v
DatapathPaths.v
DatapathSpec.v
DatapathRequests.v
DatapathRings.v
DatapathReceive.v
DatapathTransmit.v
DatapathTheorems.v
DatapathDirections.v
Lifecycle.v
LifecycleSpec.v
LifecycleHandlers.v
LifecyclePower.v
LifecycleTheorems.v
BringUp.v
BringUpSpec.v
BringUpFailures.v
BringUpTheorems.v
Bootstrap.v
BootstrapSafety.v
BootstrapTheorems.v
LifecycleEnable.v
ControlProtocol.v
Relay.v
ReadRace.v
ReadCancel.v
