(* ===== verification/Prelude.v ===== *)
(** * WinTapNetAdapterCx: a verification development

    The repository is a virtual Ethernet adapter for Windows and a user-mode
    switch that connects two of them:
    - a bus driver ([src/crates/wintap-bus-driver/src/lib.rs]) keeps a registry
      of virtual adapters, serves a manager protocol and creates a child device
      for each adapter;
    - a packet driver ([src/crates/wintap-netadaptercx-driver/src/]: [lib.rs],
      [frame_queue.rs], [ring.rs]) binds to such a child, exchanges frames with
      the network stack through NetAdapterCx rings and with a user-mode owner
      through reads, writes and an adaptive wait request;
    - a switch library ([src/crates/wintap-switch-core/src/lib.rs]) parses and
      forwards frames and keeps the life cycle of buffer slots;
    - a switch program ([src/crates/wintap-switch/src/main.rs]) opens two packet
      drivers, keeps reads in flight on an I/O ring, forwards each frame to the
      other endpoint, and shuts down cleanly;
    - a build-time bootstrap ([src/crates/wintap-wdk-bootstrap/src/lib.rs]) finds
      or restores the driver kit, under a lock that build scripts share.

    The bus driver and the packet driver meet in the hardware identifiers of a
    child ([HardwareId]); the switch program uses the library's [Switch] and
    [BufferPool], and the packet driver through the operating system only:
    [ControlProtocol] puts the two sides of their requests together, [Relay] a
    frame's way from one packet driver through the switch to the other.

    ** How code is modelled

    An integer is a [Z]; a definition writes out the wrap-around, the check or
    the panic of the source's operation, and theorems carry [fits w x] for a
    value of [w] bits.  A [Result] is [result], a panic or undefined behaviour is
    [None].  Three styles are used:
    - pure Rust code is a function; a method that takes [&mut self] returns the
      new value ([FrameParse], [Forwarding], [BufferPool], [Selection],
      [FrameQueue], [Ring], [HardwareId], [Completion], [Arguments]);
    - code that calls a framework or the operating system is a state-passing
      program of [Effects]: every call is answered by an environment that sees
      all earlier calls, and may change shared memory while the call runs.  What
      it may do is a relation, the contract; theorems quantify over every
      environment that respects it ([Bus], [Datapath], [Lifecycle], [BringUp],
      [Runtime], [RuntimeLoop], [RuntimeStart]), and a concrete environment shows
      it can be met;
    - lock-free code is a program of [Conc], one atomic action per access of the
      source, and theorems quantify over every interleaving of any number of
      threads ([Lease], [WaitProtocol], [Bootstrap]).

    ** Files

    Shared: [Prelude] (results, indexing, record update, runs of a relation),
    [Words] (machine words), [Effects] (programs with calls, weakest
    preconditions), [Conc] (interleavings, roles, invariants), [DriverConstants]
    (constants the parts of the packet driver share), [NtStatus] (the status
    classes of [wdk-sys/src/lib.rs]).

    Switch library, [wintap-switch-core/src/lib.rs]:
    - [FrameParse]: [parse_frame], [parse_vlan], the class of an address.
    - [Forwarding]: [ForwardingDatabase], [EndpointSet], [Switch]; the [HashMap]
      is a [gmap].
    - [BufferPool]: slots, generations and every operation of the pool.
    - [Selection]: [select_adaptive_polling], [select_io_ring_version].

    Packet driver, [wintap-netadaptercx-driver/src/]:
    - [FrameQueue] ([frame_queue.rs]): frames, their memory, the ring buffer.
    - [Ring] ([ring.rs]): index arithmetic and element addresses.
    - [Lease] ([lib.rs] 145-155, 304-432): datapath leases and quiesce scopes.
    - [WaitRecord], [WaitProtocol] ([lib.rs] 121-144, 434-540, 3147-3322,
      3808-4207): the wait record word and the programs that move it;
      [WaitSafety] has the invariant, [WaitTheorems] the theorems.
    - [HardwareId]: the printers of the bus driver and the parsers of the packet
      driver.
    - [Datapath] ([lib.rs] 3487-3601, 3654-3806, 4209-4283): the shared instance
      state, admission counters, locks, requests and both frame queues, each
      queue a [FrameQueue] touched under its spin lock only; [DatapathPaths]
      ([lib.rs] 1550-2197, 3324-3453, 3603-3652): the packet callbacks, the read
      and write handlers, the passive worker.  [DatapathSpec] has the contract and
      what each primitive does, [DatapathRequests] the request handlers,
      [DatapathRings] the rings and what they refer to, [DatapathReceive] and
      [DatapathTransmit] the packet callbacks, [DatapathTheorems] the accounts and
      the theorems, [DatapathDirections] which calls a packet callback makes.
    - [Lifecycle] ([lib.rs] 576-617, 1238-1548, 2199-2580, 2898-3145, 3455-3485,
      3545-3575): what opens and closes the data path, over the state and calls
      of [Datapath]: power and hardware callbacks, the adapter's configuration,
      packet queues, the receive filter, the owner's file and control requests.
      [LifecycleSpec] has the outcomes of each callback and the rules of its
      primitives, [LifecycleHandlers] shows that the handlers have them,
      [LifecyclePower] the phases of the device and what each callback does to
      them while the data path runs, [LifecycleTheorems] the theorems.
      [LifecycleEnable] says when adaptive polling is granted, [ReadRace] has an
      interleaving of a read with a transmitted packet, [ReadCancel] sequences of
      reads that arrive and reads that are cancelled while they wait, with the
      manual queue as [BringUp] configures it.
    - [BringUp] ([lib.rs] 513-574, 706-757, 763-939, 1151-1236, 2582-2896): driver
      entry, device add, the creation of every object, the look-up of the instance
      from an object and its clean-up, over a heap of instances and the
      framework's live objects.  [BringUpSpec] has the framework's contract, what
      a half-built device owns and the rules of each step, [BringUpFailures] shows
      that a device add fails only after a call that failed, [BringUpTheorems] has
      the theorems, which connect it to [HardwareId], [Lease], [WaitProtocol],
      [Datapath] and [LifecyclePower].

    Bus driver: [BusWire] (the manager's structures as bytes), [Bus] (the
    registry on a heap, the manager operations, the callbacks), [BusSpec] (the
    invariant, the contract of the framework and the other threads, the
    operations' specifications), [BusTheorems].

    Switch program, [wintap-switch/src/main.rs]:
    - [Completion]: completion identities, status classes, retry delays.
    - [Arguments]: GUIDs, endpoints, the command line.
    - [Kernel]: the calls and the state of the kernel the program relies on.
    - [Runtime]: [post_read], [submit_pending_operations], [process_completion],
      [retry_busy_operation]; [RuntimeLoop]: both main loops, the adaptive waits,
      [shutdown], the drops; [RuntimeStart]: [Runtime::start], [run], [main].
    - [RuntimeShape] relates the tables of operations to the entries the kernel
      holds, [RuntimeSpec] has the invariant; [RuntimeOps], [RuntimeRun],
      [RuntimeWaits], [RuntimeShutdown] and [RuntimeLife] show that each group
      of operations keeps it; [RuntimeErrors] traces every error to the call that
      failed or the option that was rejected; [RuntimeTheorems] has the theorems.

    Both sides of the device interface:
    - [ControlProtocol]: the structures of the protocol as bytes, the negotiation
      and the wait requests of the switch against the handlers of the driver, the
      status codes of reads and writes as the switch sees them.
    - [Relay]: a read answered by any callback of one driver, its completion in
      the switch, the write it leads to, the handler of the other driver.

    Bootstrap, [wintap-wdk-bootstrap/src/lib.rs]: [Bootstrap] (the file system,
    the lock file, the search for packages, [configure]), [BootstrapSafety] (the
    invariant of all interleavings), [BootstrapTheorems].

    ** What the theorems show

    - Forwarding refines an abstract switch, a function of the frames seen so
      far; frames are never echoed and the table is bounded; parsing never
      panics and has exactly its documented errors.
    - The buffer pool performs exactly the transitions of a slot's life cycle;
      tokens are unique, and late completions are refused for ever.
    - The frame queue is a bounded FIFO that conserves frames; ring addresses
      stay inside the ring; hardware identifiers round-trip between the drivers.
    - Leases exclude callbacks from quiesce scopes and balance, as long as the
      scopes of one closer come one after another; an overlap of two owner cleanups
      breaks the promise of the comment on the closer bits.
    - The adaptive wait calls WDF only as WDF allows, completes each request at
      most once, strands none, and loses no wake-up while adaptive polling stays on
      for the time of the wait.
    - On the data path every read and write is answered exactly once, frames are
      conserved handler by handler, receive and transmit move exactly the bytes of
      frames and packets in order, a cancelled packet queue is returned whole, and
      no callback reads or writes outside a buffer.  Reads that are cancelled
      while they wait keep their admissions, since the manual queue has no
      cancellation callback, and use up the read limit ([ReadCancel]).
    - A packet callback acquires no lock that the other direction can hold, waits
      for none of the sleeping locks, and leaves requests alone above passive
      level ([directions_isolated]).  Legacy reads have a lost wake-up: a read can
      be left waiting beside a queued frame ([read_waits_beside_frame]).
    - The life cycle refines a power state machine, when its callbacks run one
      after another ([undisturbed]): the device takes requests, with open queues
      and admitted callbacks, exactly while it works.  Every
      callback is balanced under every environment: locks, guards, closers and
      frames, on early returns too.  There is one owner, polling excludes waiting
      reads, the receive filter is stored within bounds, control requests are
      answered once.  Callbacks that overlap break it: a clean-up overtaken by a
      power cycle leaves the device open with closed queues.  A released device
      cannot restart.
    - Device add is all or nothing, and hands over an instance in which every
      other component of the packet driver is in its initial state; a child that
      the bus driver publishes is added unless a call of the framework fails, and
      becomes a device that works, under the same conditions as the refinement;
      clean-up frees an instance and its frames once.
    - The bus driver answers every manager request exactly once, with the outcome
      for the request in its buffer: refused for its reason, or served with a reply
      and a registry that follow from the request ([refused], [served]).  It keeps
      its registry sound under any interference the lock allows; bring-up is all or
      nothing and clean-up frees everything once.
    - The switch program never reaches undefined behaviour: it neither reads
      memory the kernel may write nor frees memory the kernel may use, from
      [main] to exit, under every kernel within the contract.  Every error it
      reports goes back to a rejected option, a call that failed or a buffer read
      too often ([errors_are_external]); its checks against its own mistakes never
      fail, a failed start releases everything,
      each completion has exactly its documented consequence, and under a prompt
      kernel shutdown ends.
    - The switch and the drivers agree: adaptive polling is used exactly when both
      drivers accepted it, no driver is taken for incompatible, status codes and
      wait requests mean the same on both sides; a frame reaches the other driver
      byte for byte, or is dropped with an error ([frame_relayed]).
    - Build scripts exclude each other while one restores the kit, whatever the
      interleaving; a restore that stopped between two packages is never
      repaired.

    The requirements in [src/specs/requirements.md] that theorems answer to:
    REQ-002 [read_answered_once], [write_answered_once], [frame_relayed];
    REQ-013 [receive_filter_set]; REQ-016 [handlers_conserve_frames],
    [receive_in_order], [transmit_in_order]; REQ-017 [forward_refines_spec];
    REQ-018 [pool_refines_life_cycle], [completion_outcome], [shutdown_returns],
    [completion_round_trip]; REQ-024 [directions_isolated] (no request above
    passive level), [transmit_in_order]; REQ-027, REQ-028
    [manager_request_answered_once]; REQ-031 [device_add_complete]; REQ-046
    [published_device_works]; REQ-047 [negotiation_agrees],
    [wait_requests_respected], [wait_never_stranded], [no_lost_wakeup]; REQ-050
    [directions_isolated], [quiesced_excludes_callbacks], [teardown_balanced].

    ** Bounds and fuel

    A loop whose end is proved takes fuel that is shown to be enough: the inner
    completion loop one more than the number of slots ([drain_fuel]), since each
    round takes an entry from the kernel and adds none; [shutdown] twice the
    number of slots plus one under a prompt kernel ([shutdown_returns]);
    [clear_frames] one more than the queue's length.  The main loops and the
    wait for events need not end: they return [Running] when the fuel is used
    up, and theorems about them hold for every fuel.  Packet callbacks run one
    more round than the packet ring has elements ([ring_fuel]); a handler's
    admission loop returns at once when no compare-exchange is disturbed, and the
    passive worker after one round more than there are reads.  In [Conc] a thread
    that is out of fuel stops where it is, so invariants of all reachable
    configurations at all fuels are invariants of the real loops.

    ** Assumptions

    - [os_contract] ([Kernel], [Runtime]): the documented effects of the I/O
      ring, overlapped I/O and handle calls; the kernel writes only buffers and
      responses of operations it holds; results and statuses are arbitrary.
      [prompt] is assumed for termination only: submissions succeed, a taken
      entry is eventually reported, a cancellation after its operation.
    - [bus_contract] ([BusSpec]): WDF hands out live contexts, serialises as
      documented, and other threads change the registry only under its lock.
    - [boot_contract] ([BringUpSpec]): a created object has a new handle and
      perhaps a zeroed context; deleting an object runs its clean-up callback and
      deletes its children; failed creations change nothing.  A failed device add
      ends with the framework deleting the device, if the driver has not.
    - [dp_contract] ([DatapathSpec]): requests handed out are new, buffers are as
      long as reported, and other threads change a frame queue only while this
      thread does not hold its lock; [rings_ok]: NetAdapterCx's rings are powers
      of two with their elements and buffers mapped.  A request that a handler owns
      is completed by that handler only: the contract leaves out that
      [evt_io_stop], on another thread, completes a request the worker took.  WDF
      calls [EvtIoStop] when it stops a queue it manages with the device's power,
      and the driver's queues are not such queues ([PowerManaged] is [WdfFalse] in
      their configurations).
    - [undisturbed] ([LifecyclePower]), for theorems about phases
      ([power_refinement], [published_device_works]): while a life-cycle callback
      runs no other one does, owner callbacks included, so the life cycle, the
      owner, the adaptive flag, the queues' states and the closers change by its
      own steps only, and no wait for a lock fails.  The framework serialises power
      callbacks with each other but not with file callbacks, so this is a
      restriction; the data path's threads may run.
    - [lease_system] ([Lease]) has one thread for each closer, so two quiesce
      scopes of one closer do not overlap; overlapping file clean-ups are in
      [overlapping_owner_cleanups_readmit].
    - [alone], [listening] ([ReadCancel]): no other thread touches the instance,
      which is open, in legacy mode and without captured frames.  [still], for
      [polling_exclusive]: other threads leave the instance alone.
      [filter_complete]: the address list has as many entries of 32 bytes as its
      count says.  [locks_distinct]: the instance's locks are different objects.
    - [served] ([ControlProtocol]): the I/O manager hands the switch's request to
      the driver and its reply back.  [ring_completes] ([Relay]): the I/O ring
      reports a read's status and length, and its bytes are in its buffer.
    - WDF's states of a cancelable request ([WaitProtocol]).

    ** Not modelled

    - The text of messages and of the help; floating-point averages that are only
      printed; the layouts of operating-system structures.
    - How [main] gets and prints text: it starts with its arguments decoded, so the
      panic of [std::env::args] on an argument that is not Unicode is not
      modelled, and neither are panics of printing to a closed stream.
    - The crates [wdk-sys] and [netadaptercx-sys] but for the status classes:
      Microsoft's bindings with their table of status codes and the script that
      generates them, and a generated binding; they carry no logic of this
      program.
    - Unit tests.
    - What PowerShell does in a restore: it is an action of the bootstrap's
      environment that installs packages one by one and may stop.

    Nothing else of the program's own logic is left out.  Not proved is that the
    readiness a wait reports always lies within the interest it was made with:
    the registration sequence in the wait word has 48 bits and may wrap. *)

From stdpp Require Export base tactics option list gmap strings.
From Stdlib Require Export ZArith Lia.

#[global] Open Scope Z_scope.

#[global] Arguments orb : simpl nomatch.
#[global] Arguments andb : simpl nomatch.
#[global] Arguments negb : simpl nomatch.

(** ** Results

    Rust's [Result<T, E>].  A computation that can panic or reach undefined
    behaviour additionally returns an [option], [None] being the panic. *)

Inductive result (A E : Type) : Type :=
  | Ok (a : A)
  | Err (e : E).
Arguments Ok {A E} a.
Arguments Err {A E} e.

#[export] Instance result_eq_dec {A E} `{EqDecision A} `{EqDecision E} :
  EqDecision (result A E).
Proof. solve_decision. Defined.

Definition map_err {A E F} (f : E → F) (r : result A E) : result A F :=
  match r with Ok a => Ok a | Err e => Err (f e) end.

Definition ok {A E} (r : result A E) : option A :=
  match r with Ok a => Some a | Err _ => None end.

Definition is_ok {A E} (r : result A E) : bool :=
  match r with Ok _ => true | Err _ => false end.

Definition ok_or {A E} (o : option A) (e : E) : result A E :=
  match o with Some a => Ok a | None => Err e end.

Declare Scope rust_scope.
Delimit Scope rust_scope with rust.

(** [let? x := e in k] is Rust's [let x = e?; k]. *)
Notation "'let?' x := e 'in' k" :=
  (match e with Ok x => k | Err er => Err er end)
  (at level 10, x pattern, e at level 200, k at level 200,
   format "'let?'  x  :=  e  'in' '//' k") : rust_scope.

(** ** Record update

    [r <| f := v |>] assigns one field of a struct.  A record that is updated
    this way declares its eta expansion once; the setter of a field is found
    by replacing that field's projection in it. *)

Class Eta (R : Type) := eta : R → R.

Class Setter {R T : Type} (proj : R → T) := set_to : T → R → R.
Arguments set_to {R T} proj {_} v r.

Ltac build_setter proj :=
  match type of proj with
  | ?R → ?T =>
    exact (fun (v : T) (r : R) => ltac:(
      let b := eval hnf in (eta r) in
      match b with
      | context C [proj r] => let b' := context C [v] in exact b'
      end))
  end.

#[export] Hint Extern 1 (Setter ?proj) => build_setter proj : typeclass_instances.

Notation "r <| p := v |>" := (set_to p v r)
  (at level 1, left associativity, p constr at level 1, v constr at level 99,
   format "r <| p  :=  v |>") : rust_scope.

#[global] Open Scope rust_scope.

(** ** Automation *)

(** Split boolean connectives and reflect the comparisons the code makes. *)
Ltac bool_reflect :=
  repeat match goal with
  | H : _ && _ = true |- _ => apply andb_true_iff in H as [? ?]
  | H : _ && _ = false |- _ => apply andb_false_iff in H
  | H : _ || _ = false |- _ => apply orb_false_iff in H as [? ?]
  | H : _ || _ = true |- _ => apply orb_true_iff in H
  | H : negb _ = true |- _ => apply negb_true_iff in H
  | H : negb _ = false |- _ => apply negb_false_iff in H
  | H : (_ =? _) = true |- _ => apply Z.eqb_eq in H
  | H : (_ =? _) = false |- _ => apply Z.eqb_neq in H
  | H : (_ <=? _) = true |- _ => apply Z.leb_le in H
  | H : (_ <=? _) = false |- _ => apply Z.leb_gt in H
  | H : (_ <? _) = true |- _ => apply Z.ltb_lt in H
  | H : (_ <? _) = false |- _ => apply Z.ltb_ge in H
  | H : bool_decide _ = true |- _ => apply bool_decide_eq_true in H
  | H : bool_decide _ = false |- _ => apply bool_decide_eq_false in H
  end.

(** Case analysis on the test the goal (or a hypothesis) is stuck on. *)
Ltac split_if :=
  match goal with
  | |- context [if ?b then _ else _] => destruct b eqn:?
  end.
Ltac split_if_in H :=
  match type of H with
  | context [if ?b then _ else _] => destruct b eqn:?
  end.

(** Case analysis on the scrutinee of a [match] in a hypothesis. *)
Ltac split_match_in H :=
  match type of H with
  | context [match ?x with _ => _ end] => destruct x eqn:?
  end.

(** Evaluate every branch of a hypothesis [f x = y] and substitute. *)
Ltac crush_in H := repeat split_match_in H; simplify_eq/=.

(** Evaluate [Z.to_nat] at literals. *)
Ltac closed_nat n :=
  match n with O => idtac | S ?m => closed_nat m end.
Ltac eval_to_nat :=
  repeat match goal with
  | |- context [Z.to_nat ?z] =>
      let n := eval vm_compute in (Z.to_nat z) in
      closed_nat n; change (Z.to_nat z) with n
  end.

(** ** Lists *)

(** Rust's [slice\[a..b\]]; out-of-range bounds panic. *)
Definition slice {A} (l : list A) (a b : Z) : option (list A) :=
  if (0 <=? a) && (a <=? b) && (b <=? Z.of_nat (length l))
  then Some (take (Z.to_nat (b - a)) (drop (Z.to_nat a) l))
  else None.

(** Rust's [slice\[i\]]; an index out of range panics. *)
Definition at_index {A} (l : list A) (i : Z) : option A :=
  if 0 <=? i then l !! Z.to_nat i else None.

Definition len {A} (l : list A) : Z := Z.of_nat (length l).

#[global] Arguments slice : simpl never.
#[global] Arguments at_index : simpl never.
#[global] Arguments len : simpl never.

Lemma len_nonneg {A} (l : list A) : 0 ≤ len l.
Proof. unfold len. lia. Qed.

Lemma len_app {A} (l k : list A) : len (l ++ k) = len l + len k.
Proof. unfold len. rewrite length_app. lia. Qed.

Lemma len_cons {A} (x : A) (l : list A) : len (x :: l) = 1 + len l.
Proof. unfold len. cbn. lia. Qed.

Lemma at_index_is_Some {A} (l : list A) (i : Z) :
  0 ≤ i < len l → is_Some (at_index l i).
Proof.
  unfold at_index, len. intros [Hi Hl].
  destruct (Z.leb_spec 0 i); [|lia]. apply lookup_lt_is_Some. lia.
Qed.

Lemma at_index_lookup {A} (l : list A) (i : Z) :
  0 ≤ i → at_index l i = l !! Z.to_nat i.
Proof. intros Hi. unfold at_index. destruct (Z.leb_spec 0 i); [done|lia]. Qed.

Lemma slice_spec {A} (l : list A) (a b : Z) :
  0 ≤ a → a ≤ b → b ≤ len l →
  slice l a b = Some (take (Z.to_nat (b - a)) (drop (Z.to_nat a) l)).
Proof.
  unfold slice, len. intros.
  by rewrite (proj2 (Z.leb_le 0 a)), (proj2 (Z.leb_le a b)),
    (proj2 (Z.leb_le b (Z.of_nat (length l)))) by lia.
Qed.

Lemma slice_length {A} (l s : list A) (a b : Z) :
  slice l a b = Some s → len s = b - a.
Proof.
  unfold slice, len. intros H. split_if_in H; [|done].
  bool_reflect. simplify_eq. rewrite length_take, length_drop. lia.
Qed.

(** Appending to a list does not change an in-range slice of it. *)
Lemma slice_app {A} (l k s : list A) (a b : Z) :
  slice l a b = Some s → slice (l ++ k) a b = Some s.
Proof.
  unfold slice. intros H. split_if_in H; [|done]. bool_reflect. simplify_eq.
  rewrite length_app, Nat2Z.inj_add.
  rewrite (proj2 (Z.leb_le 0 a)), (proj2 (Z.leb_le a b)),
    (proj2 (Z.leb_le b _)) by lia. cbn [andb].
  f_equal. rewrite drop_app_le by lia. rewrite take_app_le; [done|].
  rewrite length_drop. lia.
Qed.

Lemma at_index_app {A} (l k : list A) (x : A) (i : Z) :
  at_index l i = Some x → at_index (l ++ k) i = Some x.
Proof.
  unfold at_index. intros H. split_if_in H; [|done]. by apply lookup_app_l_Some.
Qed.

(** ** Reachability of a step relation *)

Inductive star {S : Type} (step : S → S → Prop) : S → S → Prop :=
  | star_nil s : star step s s
  | star_snoc s t u : star step s t → step t u → star step s u.
#[export] Hint Constructors star : core.

Lemma star_invariant {S} (step : S → S → Prop) (I : S → Prop) s t :
  (∀ x y, I x → step x y → I y) → I s → star step s t → I t.
Proof. intros Hstep Hs Hst. induction Hst; eauto. Qed.

Lemma star_trans {S} (step : S → S → Prop) s t u :
  star step s t → star step t u → star step s u.
Proof. intros Hst Htu. induction Htu; eauto. Qed.
