(* ===== verification/Words.v ===== *)
(** * Machine words

    Fixed-width unsigned integers as [Z] with their wrap-around written out,
    the signed reading of a 32-bit word (NTSTATUS, HRESULT), little-endian
    byte encodings, and the bit-level lemmas the packed words of the driver
    and of the switch rely on. *)

From S2P Require Import Prelude.

(** A value that fits an unsigned [w]-bit integer. *)
Definition fits (w x : Z) : Prop := 0 ≤ x < 2 ^ w.

#[export] Instance fits_dec w x : Decision (fits w x).
Proof. unfold fits. apply _. Defined.

(** Rust's [as uN] and wrapping arithmetic. *)
Definition wrap (w x : Z) : Z := x mod 2 ^ w.

(** Rust's [!x] on a [w]-bit unsigned integer. *)
Definition not_w (w x : Z) : Z := Z.lxor x (Z.ones w).

(** [x as i32] for an unsigned 32-bit [x]. *)
Definition as_i32 (x : Z) : Z := if x <? 2 ^ 31 then x else x - 2 ^ 32.

(** [x as u32] for a signed 32-bit [x]. *)
Definition i32_as_u32 (x : Z) : Z := x mod 2 ^ 32.

Definition usize_bits : Z := 64.
Definition usize_max : Z := 2 ^ 64 - 1.
Definition u32_max : Z := 2 ^ 32 - 1.
Definition u64_max : Z := 2 ^ 64 - 1.

Definition checked_sub (x y : Z) : option Z :=
  if x <? y then None else Some (x - y).
Definition checked_add (w x y : Z) : option Z :=
  if x + y <? 2 ^ w then Some (x + y) else None.
Definition checked_mul (w x y : Z) : option Z :=
  if x * y <? 2 ^ w then Some (x * y) else None.
Definition saturating_add (w x y : Z) : Z := Z.min (x + y) (2 ^ w - 1).
Definition saturating_sub (x y : Z) : Z := Z.max (x - y) 0.

#[global] Arguments fits : simpl never.
#[global] Arguments wrap : simpl never.
#[global] Arguments not_w : simpl never.
#[global] Arguments checked_sub : simpl never.
#[global] Arguments checked_add : simpl never.
#[global] Arguments checked_mul : simpl never.

Lemma wrap_small w x : fits w x → wrap w x = x.
Proof. unfold fits, wrap. intros. by apply Z.mod_small. Qed.

Lemma wrap_fits w x : 0 ≤ w → fits w (wrap w x).
Proof. intros. unfold fits, wrap. apply Z.mod_pos_bound. lia. Qed.

Lemma as_i32_inj x y : fits 32 x → fits 32 y → as_i32 x = as_i32 y → x = y.
Proof. unfold fits, as_i32. intros. repeat split_if_in H1; bool_reflect; lia. Qed.

Lemma i32_round_trip x : fits 32 x → i32_as_u32 (as_i32 x) = x.
Proof.
  unfold fits, as_i32, i32_as_u32. intros. split_if; bool_reflect.
  - apply Z.mod_small. lia.
  - rewrite <- (Z.mod_add _ 1) by lia. rewrite Z.mod_small; lia.
Qed.

(** ** Bits *)

Lemma testbit_fits w x i : fits w x → w ≤ i → Z.testbit x i = false.
Proof.
  intros [Hx0 Hx] Hi. destruct (Z.ltb_spec w 0) as [Hw|Hw].
  - rewrite Z.pow_neg_r in Hx by done. lia.
  - rewrite <- (Z.mod_small x (2 ^ w)) by lia.
    apply Z.mod_pow2_bits_high. lia.
Qed.

Lemma fits_testbit w x :
  0 ≤ w → 0 ≤ x → (∀ i, w ≤ i → Z.testbit x i = false) → fits w x.
Proof.
  intros Hw Hx Hbits. split; [done|].
  destruct (decide (x = 0)) as [->|Hnz]; [apply Z.pow_pos_nonneg; lia|].
  apply Z.log2_lt_pow2; [lia|].
  destruct (Z.ltb_spec (Z.log2 x) w) as [?|Hge]; [done|].
  specialize (Hbits (Z.log2 x) Hge). rewrite Z.bit_log2 in Hbits by lia. done.
Qed.

Lemma fits_lor w x y : 0 ≤ w → fits w x → fits w y → fits w (Z.lor x y).
Proof.
  intros Hw Hx Hy. apply fits_testbit; [done| |].
  - apply Z.lor_nonneg. unfold fits in *. lia.
  - intros i Hi. by rewrite Z.lor_spec, (testbit_fits w x), (testbit_fits w y).
Qed.

Lemma fits_land_l w x y : 0 ≤ w → 0 ≤ y → fits w x → fits w (Z.land x y).
Proof.
  intros Hw Hy Hx. apply fits_testbit; [done| |].
  - apply Z.land_nonneg. unfold fits in *. lia.
  - intros i Hi. by rewrite Z.land_spec, (testbit_fits w x).
Qed.

Lemma fits_land_r w x y : 0 ≤ w → 0 ≤ x → fits w y → fits w (Z.land x y).
Proof. rewrite Z.land_comm. by intros; apply fits_land_l. Qed.

Lemma land_le_r x y : 0 ≤ x → 0 ≤ y → Z.land x y ≤ y.
Proof.
  intros Hx Hy. rewrite <- (Z2N.id x Hx), <- (Z2N.id y Hy).
  rewrite <- N2Z.inj_land. apply N2Z.inj_le, N.land_le_r.
Qed.

Lemma fits_shiftl w x n : 0 ≤ n → n ≤ w → fits (w - n) x → fits w (Z.shiftl x n).
Proof.
  unfold fits. intros Hn Hw [Hx0 Hx]. rewrite Z.shiftl_mul_pow2 by lia.
  replace (2 ^ w) with (2 ^ (w - n) * 2 ^ n)
    by (rewrite <- Z.pow_add_r by lia; f_equal; lia).
  assert (0 < 2 ^ n) by (apply Z.pow_pos_nonneg; lia). nia.
Qed.

Lemma fits_weaken w w' x : w ≤ w' → fits w x → fits w' x.
Proof.
  unfold fits. intros Hw [Hx0 Hx]. split; [done|].
  destruct (Z.ltb_spec w 0); [rewrite Z.pow_neg_r in Hx by done; lia|].
  assert (2 ^ w ≤ 2 ^ w') by (apply Z.pow_le_mono_r; lia). lia.
Qed.

(** Disjoint bit fields add up. *)
Lemma lor_shiftl_add x y n :
  fits n x → 0 ≤ n → 0 ≤ y → Z.lor x (Z.shiftl y n) = x + y * 2 ^ n.
Proof.
  intros Hx Hn Hy. rewrite <- Z.shiftl_mul_pow2 by done.
  rewrite Z.add_nocarry_lxor, Z.lxor_lor; try done;
    apply Z.bits_inj'; intros i Hi; rewrite Z.land_spec, Z.bits_0;
    (destruct (Z.ltb_spec i n);
     [rewrite Z.shiftl_spec_low by lia; apply andb_false_r
     |rewrite (testbit_fits n x) by done; done]).
Qed.

Lemma land_ones_low x n : 0 ≤ n → fits n x → Z.land x (Z.ones n) = x.
Proof. intros. rewrite Z.land_ones by done. by apply Z.mod_small. Qed.

(** Masking with the complement keeps exactly the bits outside the mask. *)
Lemma not_w_spec w x i :
  0 ≤ i < w → Z.testbit (not_w w x) i = negb (Z.testbit x i).
Proof.
  intros Hi. unfold not_w. rewrite Z.lxor_spec, Z.ones_spec_low by lia.
  by destruct (Z.testbit x i).
Qed.

Lemma not_w_high w x i : 0 ≤ w → w ≤ i → Z.testbit (not_w w x) i = Z.testbit x i.
Proof.
  intros Hw Hi. unfold not_w. rewrite Z.lxor_spec, Z.ones_spec_high by lia.
  by rewrite xorb_false_r.
Qed.

Lemma not_w_fits w x : 0 ≤ w → fits w x → fits w (not_w w x).
Proof.
  intros Hw Hx. apply fits_testbit; [done| |].
  - unfold not_w. apply Z.lxor_nonneg. rewrite Z.ones_equiv.
    unfold fits in Hx. lia.
  - intros i Hi. rewrite not_w_high by done. by apply (testbit_fits w).
Qed.

(** [x & !m == 0] says that every bit of [x] is in [m]. *)
Lemma land_not_w_0 w x m :
  0 ≤ w → fits w x → fits w m →
  Z.land x (not_w w m) = 0 ↔ Z.land x m = x.
Proof.
  intros Hw Hx Hm. split; intros H; apply Z.bits_inj'; intros i Hi.
  - apply (f_equal (λ z, Z.testbit z i)) in H.
    rewrite Z.land_spec, Z.bits_0 in H. rewrite Z.land_spec.
    destruct (Z.ltb_spec i w).
    + rewrite not_w_spec in H by lia.
      by destruct (Z.testbit x i), (Z.testbit m i).
    + by rewrite (testbit_fits w x).
  - rewrite Z.land_spec, Z.bits_0.
    apply (f_equal (λ z, Z.testbit z i)) in H. rewrite Z.land_spec in H.
    destruct (Z.ltb_spec i w).
    + rewrite not_w_spec by lia. by destruct (Z.testbit x i), (Z.testbit m i).
    + by rewrite (testbit_fits w x).
Qed.

(** ** Little-endian encodings *)

(** The [n] bytes of [x], least significant first. *)
Fixpoint le_bytes (n : nat) (x : Z) : list Z :=
  match n with
  | O => []
  | S n => x mod 256 :: le_bytes n (x / 256)
  end.

Fixpoint le_value (bs : list Z) : Z :=
  match bs with
  | [] => 0
  | b :: bs => b + 256 * le_value bs
  end.

Definition is_byte (b : Z) : Prop := fits 8 b.

Lemma le_bytes_length n x : length (le_bytes n x) = n.
Proof. revert x. induction n; intros; cbn; auto. Qed.

Lemma le_bytes_are_bytes n x : Forall is_byte (le_bytes n x).
Proof.
  revert x. induction n; intros x; cbn; constructor; [|done].
  unfold is_byte, fits. change (2 ^ 8) with 256. apply Z.mod_pos_bound. lia.
Qed.

Lemma le_value_bytes n x :
  0 ≤ x < 256 ^ Z.of_nat n → le_value (le_bytes n x) = x.
Proof.
  revert x. induction n as [|n IH]; intros x Hx.
  - change (256 ^ Z.of_nat 0) with 1 in Hx. cbn. lia.
  - cbn [le_bytes le_value].
    rewrite Nat2Z.inj_succ, Z.pow_succ_r in Hx by lia.
    rewrite IH.
    + pose proof (Z_div_mod_eq_full x 256). lia.
    + split; [apply Z.div_pos; lia|]. apply Z.div_lt_upper_bound; lia.
Qed.

(** Read the [n]-byte little-endian field at byte offset [off]. *)
Definition read_le (bs : list Z) (off n : nat) : Z := le_value (take n (drop off bs)).

Lemma read_le_app_l pre x post n :
  0 ≤ x < 256 ^ Z.of_nat n →
  read_le (pre ++ le_bytes n x ++ post) (length pre) n = x.
Proof.
  intros Hx. unfold read_le. rewrite drop_app_length.
  rewrite take_app_length'; [by apply le_value_bytes|by rewrite le_bytes_length].
Qed.
