(* ===== verification/DriverConstants.v ===== *)
(** * Constants of the packet driver

    The constants of lib.rs that several of its components use. *)

From S2P Require Import Prelude Words.

(** NTSTATUS codes.  The driver defines its own, but for [STATUS_DEVICE_BUSY],
    which it takes from wdk-sys. *)
Definition STATUS_SUCCESS : Z := 0.
Definition STATUS_DEVICE_NOT_READY : Z := as_i32 0xC00000A3.
Definition STATUS_INSUFFICIENT_RESOURCES : Z := as_i32 0xC000009A.
Definition STATUS_INVALID_PARAMETER : Z := as_i32 0xC000000D.
Definition STATUS_INVALID_BUFFER_SIZE : Z := as_i32 0xC0000206.
Definition STATUS_BUFFER_TOO_SMALL : Z := as_i32 0xC0000023.
Definition STATUS_NOT_SUPPORTED : Z := as_i32 0xC00000BB.
Definition STATUS_NO_MORE_ENTRIES : Z := as_i32 0x8000001A.
Definition STATUS_DEVICE_BUSY : Z := as_i32 0x80000011.
Definition STATUS_CANCELLED : Z := as_i32 0xC0000120.
Definition STATUS_INVALID_DEVICE_REQUEST : Z := as_i32 0xC0000010.

(** The life cycle of the instance. *)
Definition INSTANCE_OPEN : Z := 0.
Definition INSTANCE_SUSPENDED : Z := 1.
Definition INSTANCE_CLOSING : Z := 2.
Definition INSTANCE_CLOSED : Z := 3.
Definition INSTANCE_OWNER_CLOSING : Z := 4.

(** Limits. *)
Definition PENDING_READ_LIMIT : Z := 256.
Definition PENDING_WRITE_LIMIT : Z := 256.
Definition FRAME_QUEUE_LIMIT : Z := 256.

(** The closer bits of the callback leases. *)
Definition DATAPATH_CLOSED_POWER : Z := Z.shiftl 1 63.
Definition DATAPATH_CLOSED_HARDWARE : Z := Z.shiftl 1 62.
Definition DATAPATH_CLOSED_OWNER : Z := Z.shiftl 1 61.

(** The control protocol.  Its structures are two words long, and the response
    to a wait one. *)
Definition ADAPTIVE_INTEREST_READABLE : Z := 1.
Definition ADAPTIVE_INTEREST_WRITABLE : Z := 2.
Definition TAP_IOCTL_ENABLE_ADAPTIVE_POLLING : Z := 0x222400.
Definition TAP_IOCTL_WAIT_FOR_CHANGE : Z := 0x222404.
Definition ADAPTIVE_POLLING_PROTOCOL_VERSION : Z := 1.
Definition ADAPTIVE_INTEREST_SUPPORTED : Z :=
  Z.lor ADAPTIVE_INTEREST_READABLE ADAPTIVE_INTEREST_WRITABLE.
Definition size_of_AdaptiveEnableRequest : Z := 8.
Definition size_of_AdaptiveEnableResponse : Z := 8.
Definition size_of_AdaptiveWaitRequest : Z := 8.
Definition size_of_AdaptiveWaitResponse : Z := 4.
