(* ===== verification/NtStatus.v ===== *)
(** * The classes of NTSTATUS values ([wdk-sys/src/lib.rs])

    The helpers of ntdef.h that the drivers' bindings define by hand; the rest
    of wdk-sys is generated from the headers of the kit. *)

From S2P Require Import Prelude Words DriverConstants.

(** The two bits of severity of an [i32]. *)
Definition severity (nt_status : Z) : Z := Z.shiftr (i32_as_u32 nt_status) 30.

Definition NT_SUCCESS (nt_status : Z) : bool := 0 <=? nt_status.
Definition NT_INFORMATION (nt_status : Z) : bool := severity nt_status =? 1.
Definition NT_WARNING (nt_status : Z) : bool := severity nt_status =? 2.
Definition NT_ERROR (nt_status : Z) : bool := severity nt_status =? 3.

(** The range of an [i32]. *)
Definition is_i32 (x : Z) : Prop := - 2 ^ 31 ≤ x < 2 ^ 31.

Lemma severity_value x : is_i32 x →
  severity x = if x <? - 2 ^ 30 then 2 else if x <? 0 then 3 else if x <? 2 ^ 30 then 0 else 1.
Proof.
  unfold is_i32, severity, i32_as_u32. intros H. rewrite Z.shiftr_div_pow2 by lia. change (2 ^ 32) with (4 * 2 ^ 30).
  destruct (Z.ltb_spec x 0).
  - rewrite <- (Z_mod_plus_full x 1), (Z.mod_small (x + 1 * (4 * 2 ^ 30))) by lia.
    destruct (Z.ltb_spec x (- 2 ^ 30)); symmetry; apply Z.div_unique with (x + 1 * (4 * 2 ^ 30) - (if x <? - 2 ^ 30 then 2 else 3) * 2 ^ 30);
      destruct (Z.ltb_spec x (- 2 ^ 30)); lia.
  - rewrite (Z.mod_small x) by lia. destruct (Z.ltb_spec x (- 2 ^ 30)); [lia|].
    destruct (Z.ltb_spec x (2 ^ 30)); symmetry; [apply Z.div_unique with x|apply Z.div_unique with (x - 2 ^ 30)]; lia.
Qed.

(** Every status is a success, a warning or an error, and only one of them; the
    ranges are those the comments of the helpers give. *)
Theorem status_classes x : is_i32 x →
  (NT_SUCCESS x = negb (NT_WARNING x || NT_ERROR x)) ∧ NT_WARNING x && NT_ERROR x = false ∧
  (NT_INFORMATION x = true ↔ 0x40000000 ≤ i32_as_u32 x ≤ 0x7FFFFFFF) ∧
  (NT_WARNING x = true ↔ 0x80000000 ≤ i32_as_u32 x ≤ 0xBFFFFFFF) ∧
  (NT_ERROR x = true ↔ 0xC0000000 ≤ i32_as_u32 x ≤ 0xFFFFFFFF).
Proof.
  intros H. unfold NT_SUCCESS, NT_WARNING, NT_ERROR, NT_INFORMATION. rewrite (severity_value x H).
  assert (i32_as_u32 x = if x <? 0 then x + 2 ^ 32 else x) as ->.
  { unfold is_i32, i32_as_u32 in *. destruct (Z.ltb_spec x 0); [|apply Z.mod_small; lia].
    rewrite <- (Z_mod_plus_full x 1), Z.mod_small by lia. lia. }
  unfold is_i32 in H. rewrite !Z.eqb_eq.
  destruct (Z.ltb_spec x (- 2 ^ 30)), (Z.ltb_spec x 0), (Z.ltb_spec x (2 ^ 30)), (Z.leb_spec 0 x);
    split_and!; try done; try lia; cbn; split; lia.
Qed.

(** The driver's statuses: a success, two warnings, errors. *)
Example driver_classes :
  NT_SUCCESS STATUS_SUCCESS = true ∧ NT_WARNING STATUS_DEVICE_BUSY = true ∧
  NT_WARNING STATUS_NO_MORE_ENTRIES = true ∧
  forallb NT_ERROR [STATUS_DEVICE_NOT_READY; STATUS_INSUFFICIENT_RESOURCES; STATUS_INVALID_PARAMETER;
    STATUS_INVALID_BUFFER_SIZE; STATUS_BUFFER_TOO_SMALL; STATUS_NOT_SUPPORTED; STATUS_CANCELLED;
    STATUS_INVALID_DEVICE_REQUEST] = true.
Proof. by vm_compute. Qed.
