(* ===== verification/FrameParse.v ===== *)
(** * Ethernet frame parsing ([wintap-switch-core/src/lib.rs], [parse_frame])

    The byte-level parser the user-mode switch runs on every frame a TAP
    endpoint delivers.  Indexing and slicing are the panicking Rust
    operations, so [parse_frame] returns [None] exactly when the Rust code
    would panic; it is proved that it never does, what it returns on every
    input, and that it reads back the fields of a frame that was built from
    them. *)

From S2P Require Import Prelude Words.

Definition FRAME_MINIMUM : Z := 14.
Definition FRAME_MAXIMUM : Z := 65535.

(** [\[u8; 6\]] *)
Definition mac := list Z.

Inductive FrameClass := Unicast | Broadcast | Multicast.

#[export] Instance FrameClass_eq_dec : EqDecision FrameClass.
Proof. solve_decision. Defined.

Record ParsedFrame := {
  source : mac;
  destination : mac;
  vlan : option Z;
  class : FrameClass;
}.

Inductive FrameError := InvalidLength | InvalidVlan.

(** [u16::from_be_bytes(\[a, b\])] *)
Definition u16_from_be_bytes (a b : Z) : Z := Z.lor (Z.shiftl a 8) b.

(** The body after the length check: the tag, the two addresses, the class. *)
Definition frame_class (destination : mac) (first : Z) : FrameClass :=
  if bool_decide (destination = replicate 6 255) then Broadcast
  else if negb (Z.land first 1 =? 0) then Multicast
  else Unicast.

Definition parse_vlan (frame : list Z) : option (result (option Z) FrameError) :=
  b12 ← at_index frame 12;
  b13 ← at_index frame 13;
  let ether_type := u16_from_be_bytes b12 b13 in
  if (ether_type =? 0x8100) || (ether_type =? 0x88a8) then
    if len frame <? 18 then Some (Err InvalidVlan)
    else
      b14 ← at_index frame 14;
      b15 ← at_index frame 15;
      Some (Ok (Some (Z.land (u16_from_be_bytes b14 b15) 0x0fff)))
  else Some (Ok None).

Definition parse_frame (frame : list Z) : option (result ParsedFrame FrameError) :=
  if negb ((FRAME_MINIMUM <=? len frame) && (len frame <=? FRAME_MAXIMUM))
  then Some (Err InvalidLength)
  else
    v ← parse_vlan frame;
    match v with
    | Err e => Some (Err e)
    | Ok vlan =>
        destination ← slice frame 0 6;
        source ← slice frame 6 12;
        first ← at_index destination 0;
        Some (Ok {| source := source; destination := destination; vlan := vlan;
                    class := frame_class destination first |})
    end.

#[global] Arguments u16_from_be_bytes : simpl never.
#[global] Arguments frame_class : simpl never.

(** ** Helper lemmas *)

Lemma u16_from_be_bytes_value a b :
  is_byte a → is_byte b → u16_from_be_bytes a b = a * 256 + b.
Proof.
  intros Ha Hb. unfold u16_from_be_bytes. rewrite Z.lor_comm.
  rewrite lor_shiftl_add; [change (2 ^ 8) with 256; lia|done|lia|].
  unfold is_byte, fits in Ha. lia.
Qed.

Lemma vlan_mask_bound x : 0 ≤ Z.land x 0x0fff < 4096.
Proof.
  change 0x0fff with (Z.ones 12). rewrite Z.land_ones by lia.
  apply Z.mod_pos_bound. lia.
Qed.

(** Two readings of one VLAN tag control word agree. *)
Lemma vlan_mask_mod x : Z.land x 0x0fff = x mod 4096.
Proof. change 0x0fff with (Z.ones 12). by rewrite Z.land_ones by lia. Qed.

Lemma parse_vlan_no_panic frame :
  14 ≤ len frame → is_Some (parse_vlan frame).
Proof.
  intros Hl. unfold parse_vlan.
  destruct (at_index_is_Some frame 12) as [b12 ->]; [lia|].
  destruct (at_index_is_Some frame 13) as [b13 ->]; [lia|]. cbn.
  split_if; [|by eexists]. destruct (Z.ltb_spec (len frame) 18); [by eexists|].
  destruct (at_index_is_Some frame 14) as [b14 ->]; [lia|].
  destruct (at_index_is_Some frame 15) as [b15 ->]; [lia|]. by eexists.
Qed.

Lemma parse_vlan_app frame suffix v :
  18 ≤ len frame →
  parse_vlan frame = Some v → parse_vlan (frame ++ suffix) = Some v.
Proof.
  intros Hl. unfold parse_vlan.
  destruct (at_index frame 12) as [b12|] eqn:E12; [|done].
  destruct (at_index frame 13) as [b13|] eqn:E13; [|done].
  rewrite (at_index_app _ _ _ _ E12), (at_index_app _ _ _ _ E13). cbn.
  split_if; [|done]. rewrite len_app. pose proof (len_nonneg suffix).
  destruct (Z.ltb_spec (len frame) 18), (Z.ltb_spec (len frame + len suffix) 18);
    [lia|lia|lia|].
  destruct (at_index frame 14) as [b14|] eqn:E14; [|done].
  destruct (at_index frame 15) as [b15|] eqn:E15; [|done].
  by rewrite (at_index_app _ _ _ _ E14), (at_index_app _ _ _ _ E15).
Qed.

Lemma slice_app_eq {A} (l k : list A) a b :
  0 ≤ a ≤ b → b ≤ len l → slice (l ++ k) a b = slice l a b.
Proof.
  intros Ha Hb. rewrite (slice_spec l) by lia. apply slice_app.
  apply slice_spec; lia.
Qed.

(** What a successful parse says about the frame. *)
Lemma parse_frame_Ok frame p :
  parse_frame frame = Some (Ok p) →
  14 ≤ len frame ≤ 65535 ∧
  slice frame 0 6 = Some (destination p) ∧
  slice frame 6 12 = Some (source p) ∧
  parse_vlan frame = Some (Ok (vlan p)) ∧
  ∃ first, destination p !! 0%nat = Some first ∧
           class p = frame_class (destination p) first.
Proof.
  unfold parse_frame, FRAME_MINIMUM, FRAME_MAXIMUM. intros H.
  split_if_in H; [done|]. bool_reflect.
  destruct (parse_vlan frame) as [[v|e]|] eqn:Ev; simplify_eq/=.
  destruct (slice frame 0 6) as [d|] eqn:Ed; simplify_eq/=.
  destruct (slice frame 6 12) as [s|] eqn:Es; simplify_eq/=.
  destruct (at_index d 0) as [first|] eqn:Ef; simplify_eq/=.
  repeat split; eauto; lia.
Qed.

(** The class of an address is decided by its first byte and by whether it
    is the broadcast address. *)
Lemma frame_class_spec d first :
  (frame_class d first = Broadcast ↔ d = replicate 6 255) ∧
  (frame_class d first = Multicast ↔ d ≠ replicate 6 255 ∧ Z.odd first = true) ∧
  (frame_class d first = Unicast ↔ d ≠ replicate 6 255 ∧ Z.odd first = false).
Proof.
  unfold frame_class.
  assert (Hodd : Z.odd first = negb (Z.land first 1 =? 0)).
  { rewrite <- Z.bit0_odd. change 1 with (Z.ones 1). rewrite Z.land_ones by lia.
    rewrite Z.bit0_odd, Zmod_odd. by destruct (Z.odd first). }
  clear -Hodd. rewrite Hodd.
  case_bool_decide; destruct (Z.land first 1 =? 0); cbn; intuition congruence.
Qed.

(** A reference frame builder: addresses, an optional 802.1Q/802.1ad tag
    (tag protocol and control word), the EtherType and the payload. *)
Definition be16 (x : Z) : list Z := [x / 256; x mod 256].

Definition build_frame (dst src : mac) (tag : option (Z * Z)) (ethertype : Z)
    (payload : list Z) : list Z :=
  dst ++ src ++
  match tag with Some (tpid, tci) => be16 tpid ++ be16 tci | None => [] end ++
  be16 ethertype ++ payload.

Lemma be16_byte x : fits 16 x → is_byte (x / 256) ∧ is_byte (x mod 256).
Proof.
  unfold fits, is_byte, fits. change (2 ^ 16) with 65536. change (2 ^ 8) with 256.
  intros Hx. split; [|apply Z.mod_pos_bound; lia].
  split; [apply Z.div_pos; lia|apply Z.div_lt_upper_bound; lia].
Qed.

Lemma u16_be16 x : fits 16 x → u16_from_be_bytes (x / 256) (x mod 256) = x.
Proof.
  intros Hx. destruct (be16_byte x Hx). rewrite u16_from_be_bytes_value by done.
  pose proof (Z_div_mod_eq_full x 256). lia.
Qed.

(** ** Properties *)

Lemma parse_frame_total frame : is_Some (parse_frame frame).
Proof.
  unfold parse_frame. split_if; [by eexists|].
  unfold FRAME_MINIMUM, FRAME_MAXIMUM in *. bool_reflect.
  destruct (parse_vlan_no_panic frame) as [v ->]; [lia|]. cbn.
  destruct v as [v|e]; [|by eexists].
  rewrite !slice_spec by lia. cbn.
  destruct (at_index_is_Some (take (Z.to_nat (6 - 0)) (drop 0 frame)) 0) as [f Hf].
  - unfold len in *. rewrite length_take, length_drop. lia.
  - change (Z.to_nat 0) with 0%nat. rewrite Hf. by eexists.
Qed.

(** The frame carries a VLAN tag protocol where its EtherType would be. *)
Definition tagged (frame : list Z) : Prop :=
  ∃ a b, frame !! 12%nat = Some a ∧ frame !! 13%nat = Some b ∧
         (u16_from_be_bytes a b = 0x8100 ∨ u16_from_be_bytes a b = 0x88a8).

Lemma parse_vlan_error frame e :
  14 ≤ len frame →
  parse_vlan frame = Some (Err e) ↔ tagged frame ∧ len frame < 18 ∧ e = InvalidVlan.
Proof.
  intros Hl. unfold parse_vlan, tagged.
  rewrite !at_index_lookup by lia. eval_to_nat.
  destruct (lookup_lt_is_Some_2 frame 12) as [a Ha]; [unfold len in Hl; lia|].
  destruct (lookup_lt_is_Some_2 frame 13) as [b Hb]; [unfold len in Hl; lia|].
  rewrite Ha, Hb. cbn.
  destruct (decide (u16_from_be_bytes a b = 0x8100 ∨ u16_from_be_bytes a b = 0x88a8))
    as [Ht|Ht].
  - rewrite (proj2 (orb_true_iff _ _)) by (rewrite !Z.eqb_eq; done).
    destruct (Z.ltb_spec (len frame) 18) as [Hs|Hs].
    + split; [intros [= <-]|intros (_ & _ & ->); done].
      split; [by exists a, b|done].
    + destruct (lookup_lt_is_Some_2 frame 14) as [c ->]; [unfold len in Hs; lia|].
      destruct (lookup_lt_is_Some_2 frame 15) as [d ->]; [unfold len in Hs; lia|].
      cbn. split; [done|]. intros (_ & ? & _). lia.
  - rewrite (proj2 (orb_false_iff _ _)) by (rewrite !Z.eqb_neq; tauto).
    split; [done|]. intros ((a' & b' & ? & ? & Ht') & _). simplify_eq. by destruct Ht.
Qed.

(** The parser returns on every input, and its errors are exact: it never
    panics (every index and slice it takes is in range), it answers
    [InvalidLength] exactly outside 14..65,535 bytes and [InvalidVlan] exactly
    for a tag protocol in a frame too short to hold the tag. *)
Theorem parse_frame_errors (frame : list Z) :
  ∃ r, parse_frame frame = Some r ∧
    (r = Err InvalidLength ↔ ¬ (14 ≤ len frame ≤ 65535)) ∧
    (r = Err InvalidVlan ↔ 14 ≤ len frame < 18 ∧ tagged frame).
Proof.
  destruct (parse_frame_total frame) as [r Hr]. exists r. split; [done|].
  unfold parse_frame, FRAME_MINIMUM, FRAME_MAXIMUM in Hr.
  destruct (decide (14 ≤ len frame ≤ 65535)) as [Hl|Hl].
  - rewrite (proj2 (andb_true_iff _ _)) in Hr by (rewrite !Z.leb_le; done).
    pose proof (parse_vlan_error frame InvalidVlan (proj1 Hl)) as Hv.
    cbn in Hr. destruct (parse_vlan frame) as [[v|e]|] eqn:Ev; [..|done]; cbn in Hr.
    + assert (∃ p, r = Ok p) as [p ->] by (simplify_option_eq; by eexists).
      split; [by split|]. split; [done|]. intros [? ?].
      destruct Hv as [_ Hv]. exfalso. discriminate Hv.
      split_and!; [done|lia|done].
    + simplify_eq. apply parse_vlan_error in Ev as (? & ? & ->); [|lia].
      split; [by split|]. split; [|done]. intros _. split; [lia|done].
  - assert (negb ((14 <=? len frame) && (len frame <=? 65535)) = true) as Hn.
    { apply negb_true_iff, not_true_iff_false. by rewrite andb_true_iff, !Z.leb_le. }
    rewrite Hn in Hr. simplify_eq. split; [done|]. split; [done|]. lia.
Qed.

Lemma length_6 {A} (l : list A) :
  length l = 6%nat → ∃ a b c d e f, l = [a; b; c; d; e; f].
Proof.
  intros H. do 6 (destruct l as [|? l]; [done|]). destruct l; [|done].
  by repeat eexists.
Qed.

(** Parsing reads back the fields of a frame: for any two addresses, any
    VLAN tag (802.1Q or 802.1ad) or none, any EtherType that is not itself a tag
    protocol and any payload that keeps the frame within 65,535 bytes, the
    parser returns those addresses, the low 12 bits of the tag's control word
    as the VLAN, and the class of the destination. *)
Theorem parse_build_frame dst src tag ethertype payload first :
  length dst = 6%nat → length src = 6%nat → dst !! 0%nat = Some first →
  fits 16 ethertype →
  match tag with
  | Some (tpid, tci) => (tpid = 0x8100 ∨ tpid = 0x88a8) ∧ fits 16 tci
  | None => ethertype ≠ 0x8100 ∧ ethertype ≠ 0x88a8
  end →
  len (build_frame dst src tag ethertype payload) ≤ FRAME_MAXIMUM →
  parse_frame (build_frame dst src tag ethertype payload) =
    Some (Ok {| source := src; destination := dst;
                vlan := (λ t : Z * Z, t.2 mod 4096) <$> tag;
                class := frame_class dst first |}).
Proof.
  intros (d0 & d1 & d2 & d3 & d4 & d5 & ->)%length_6
    (s0 & s1 & s2 & s3 & s4 & s5 & ->)%length_6 Hfirst Het Htag Hmax.
  injection Hfirst as ->. unfold parse_frame, build_frame, be16 in *.
  destruct tag as [[tpid tci]|]; cbn [app] in *; rewrite !len_cons in *;
    pose proof (len_nonneg payload);
    (rewrite (proj2 (andb_true_iff _ _)) by
       (unfold FRAME_MINIMUM; rewrite !Z.leb_le; lia)); cbn [negb].
  - destruct Htag as [Htpid Htci].
    rewrite !slice_spec by (rewrite ?len_cons; lia).
    unfold parse_vlan, at_index; rewrite !len_cons; eval_to_nat; cbn.
    assert (fits 16 tpid) by (unfold fits; lia).
    rewrite !u16_be16 by done.
    rewrite (proj2 (orb_true_iff _ _)) by (rewrite !Z.eqb_eq; naive_solver).
    rewrite (proj2 (Z.ltb_ge _ _)) by lia.
    cbn. by rewrite vlan_mask_mod.
  - destruct Htag as [H1 H2].
    rewrite !slice_spec by (rewrite ?len_cons; lia).
    unfold parse_vlan, at_index; eval_to_nat; cbn.
    rewrite !u16_be16 by done.
    rewrite (proj2 (orb_false_iff _ _)) by (rewrite !Z.eqb_neq; naive_solver).
    done.
Qed.

Lemma parse_build_frame_witness :
  parse_frame (build_frame [255;255;255;255;255;255] [2;0;0;0;0;1]
                 (Some (0x8100, 0x2064)) 0x0800 [1;2;3]) =
  Some (Ok {| source := [2;0;0;0;0;1]; destination := [255;255;255;255;255;255];
              vlan := Some 100; class := Broadcast |}).
Proof.
  apply (parse_build_frame [255;255;255;255;255;255] [2;0;0;0;0;1]
           (Some (0x8100, 0x2064)) 0x0800 [1;2;3] 255);
    try reflexivity; vm_compute; intuition congruence.
Defined.

(** Only the header matters: once a frame of at least 18 bytes parses,
    extending its payload (within the length limit) gives the same result. *)
Theorem parse_frame_payload_irrelevant frame payload :
  18 ≤ len frame → len (frame ++ payload) ≤ FRAME_MAXIMUM →
  parse_frame (frame ++ payload) = parse_frame frame.
Proof.
  intros Hmin Hmax. unfold parse_frame, FRAME_MINIMUM, FRAME_MAXIMUM in *.
  pose proof (len_nonneg payload). rewrite len_app in *.
  rewrite !(proj2 (andb_true_iff _ _)) by (rewrite !Z.leb_le; lia). cbn [negb].
  destruct (parse_vlan_no_panic frame) as [v Hv]; [lia|].
  rewrite (parse_vlan_app _ _ _ Hmin Hv), Hv. cbn. destruct v; [|done].
  by rewrite !slice_app_eq by lia.
Qed.

Lemma parse_frame_payload_irrelevant_witness :
  parse_frame (replicate 18 0 ++ replicate 2 7) = parse_frame (replicate 18 0).
Proof. apply (parse_frame_payload_irrelevant (replicate 18 0) (replicate 2 7)); vm_compute; congruence. Defined.
