(* ===== verification/Forwarding.v ===== *)
(** * The learning switch ([wintap-switch-core/src/lib.rs], [Switch])

    The bounded MAC/VLAN forwarding database, the endpoint set and the
    per-frame forwarding decision.  The Rust [HashMap] is a [gmap]; a method
    that takes [&mut self] returns the new value.  The abstract specification
    is a function of the frames seen so far: the forwarding table is the last
    endpoint seen for each of the first 4,096 distinct (source, VLAN) keys. *)

From S2P Require Import Prelude Words FrameParse.

Definition FDB_CAPACITY : Z := 4096.

Record EndpointId := EndpointId_new { endpoint_value : Z }.

#[export] Instance EndpointId_eq_dec : EqDecision EndpointId.
Proof. solve_decision. Defined.

Record FdbKey := { key_mac : mac; key_vlan : option Z }.

#[export] Instance FdbKey_eq_dec : EqDecision FdbKey.
Proof. solve_decision. Defined.

#[export] Instance FdbKey_countable : Countable FdbKey.
Proof.
  refine (inj_countable' (λ k, (key_mac k, key_vlan k))
            (λ p, {| key_mac := p.1; key_vlan := p.2 |}) _).
  by intros [].
Defined.

Inductive ForwardingError :=
  | InvalidFrame (e : FrameError)
  | UnknownEndpoint.

Record ForwardingDatabase := {
  entries : gmap FdbKey EndpointId;
  capacity : Z;
}.

Definition ForwardingDatabase_new : ForwardingDatabase :=
  {| entries := ∅; capacity := FDB_CAPACITY |}.

Definition source_key (parsed : ParsedFrame) : FdbKey :=
  {| key_mac := source parsed; key_vlan := vlan parsed |}.

Definition destination_key (parsed : ParsedFrame) : FdbKey :=
  {| key_mac := destination parsed; key_vlan := vlan parsed |}.

Definition fdb_len (fdb : ForwardingDatabase) : Z := Z.of_nat (size (entries fdb)).

Definition learn (fdb : ForwardingDatabase) (parsed : ParsedFrame)
    (endpoint : EndpointId) : ForwardingDatabase :=
  let key := source_key parsed in
  match entries fdb !! key with
  | Some _ =>
      {| entries := <[key := endpoint]> (entries fdb); capacity := capacity fdb |}
  | None =>
      if fdb_len fdb <? capacity fdb
      then {| entries := <[key := endpoint]> (entries fdb); capacity := capacity fdb |}
      else fdb
  end.

Definition lookup_destination (fdb : ForwardingDatabase) (parsed : ParsedFrame) :
    option EndpointId :=
  entries fdb !! destination_key parsed.

#[global] Arguments learn : simpl never.
#[global] Arguments lookup_destination : simpl never.
#[global] Arguments source_key : simpl never.
#[global] Arguments destination_key : simpl never.

Record EndpointSet := { endpoints : list EndpointId }.

Definition from_ids (ids : list EndpointId) : result EndpointSet ForwardingError :=
  match ids with
  | [] => Err UnknownEndpoint
  | _ => Ok {| endpoints := ids |}
  end.

Definition contains (set : EndpointSet) (endpoint : EndpointId) : bool :=
  bool_decide (endpoint ∈ endpoints set).

Definition peers (set : EndpointSet) (source : EndpointId) : list EndpointId :=
  filter (λ endpoint, endpoint ≠ source) (endpoints set).

Record Switch := { switch_endpoints : EndpointSet; fdb : ForwardingDatabase }.

Definition from_endpoints (ids : list EndpointId) : result Switch ForwardingError :=
  let? set := from_ids ids in
  Ok {| switch_endpoints := set; fdb := ForwardingDatabase_new |}.

(** [None]: the call panics.  Otherwise the switch after the call and what it
    returned. *)
Definition forward (sw : Switch) (source_endpoint : EndpointId) (frame : list Z) :
    option (Switch * result (list EndpointId) ForwardingError) :=
  if negb (contains (switch_endpoints sw) source_endpoint)
  then Some (sw, Err UnknownEndpoint)
  else
    r ← parse_frame frame;
    match r with
    | Err e => Some (sw, Err (InvalidFrame e))
    | Ok parsed =>
        let sw' := {| switch_endpoints := switch_endpoints sw;
                      fdb := learn (fdb sw) parsed source_endpoint |} in
        let flood := peers (switch_endpoints sw) source_endpoint in
        if bool_decide (class parsed = Unicast) then
          match lookup_destination (fdb sw') parsed with
          | Some destination =>
              if negb (bool_decide (destination = source_endpoint))
                 && contains (switch_endpoints sw) destination
              then Some (sw', Ok [destination])
              else Some (sw', Ok [])
          | None => Some (sw', Ok flood)
          end
        else Some (sw', Ok flood)
    end.

Definition switch_fdb_len (sw : Switch) : Z := fdb_len (fdb sw).

(** ** The abstract specification *)

(** A learning event: a frame with this source key arrived from here. *)
Definition event : Type := FdbKey * EndpointId.

Definition distinct_keys (h : list event) : list FdbKey :=
  foldl (λ ks e, if decide (e.1 ∈ ks) then ks else ks ++ [e.1]) [] h.

Definition last_seen (h : list event) (k : FdbKey) : option EndpointId :=
  foldl (λ o e, if decide (e.1 = k) then Some e.2 else o) None h.

(** The table a switch with room for [cap] keys should hold after [h]. *)
Definition spec_table (cap : Z) (h : list event) (k : FdbKey) : option EndpointId :=
  if decide (k ∈ take (Z.to_nat cap) (distinct_keys h)) then last_seen h k else None.

Definition spec_recipients (set : EndpointSet) (h : list event)
    (src : EndpointId) (p : ParsedFrame) : list EndpointId :=
  let flood := filter (λ e, e ≠ src) (endpoints set) in
  match class p with
  | Unicast =>
      match spec_table FDB_CAPACITY h (destination_key p) with
      | Some d => if decide (d ≠ src ∧ d ∈ endpoints set) then [d] else []
      | None => flood
      end
  | _ => flood
  end.

(** The learning events of a sequence of (endpoint, frame) arrivals. *)
Definition arrival_event (set : EndpointSet) (a : EndpointId * list Z) : option event :=
  if decide (a.1 ∈ endpoints set) then
    match parse_frame a.2 with
    | Some (Ok p) => Some (source_key p, a.1)
    | _ => None
    end
  else None.

Definition arrival_events (set : EndpointSet) (h : list (EndpointId * list Z)) :
    list event := omap (arrival_event set) h.

(** Feed a sequence of arrivals to the switch. *)
Fixpoint forward_all (sw : Switch) (h : list (EndpointId * list Z)) : option Switch :=
  match h with
  | [] => Some sw
  | (e, f) :: h => r ← forward sw e f; forward_all r.1 h
  end.

(** ** The forwarding database *)

Lemma distinct_keys_snoc h e :
  distinct_keys (h ++ [e]) =
  if decide (e.1 ∈ distinct_keys h) then distinct_keys h else distinct_keys h ++ [e.1].
Proof. unfold distinct_keys. by rewrite foldl_app. Qed.

Lemma last_seen_snoc h e k :
  last_seen (h ++ [e]) k = if decide (e.1 = k) then Some e.2 else last_seen h k.
Proof. unfold last_seen. by rewrite foldl_app. Qed.

Lemma distinct_keys_NoDup h : NoDup (distinct_keys h).
Proof.
  induction h as [|e h IH] using rev_ind; [constructor|].
  rewrite distinct_keys_snoc. case_decide as Hin; [done|].
  apply NoDup_app. split_and!; [done| |apply NoDup_singleton].
  intros x Hx ->%list_elem_of_singleton. done.
Qed.

Lemma last_seen_is_Some h k : k ∈ distinct_keys h → is_Some (last_seen h k).
Proof.
  induction h as [|e h IH] using rev_ind; [by intros ?%not_elem_of_nil|].
  rewrite distinct_keys_snoc, last_seen_snoc. intros Hk.
  destruct (decide (e.1 = k)) as [Hek|Hek]; [by eexists|].
  destruct (decide (e.1 ∈ distinct_keys h)) as [Hin|Hin]; [by apply IH|].
  apply elem_of_app in Hk as [Hk|Hk%list_elem_of_singleton]; [by apply IH|].
  by destruct Hek.
Qed.

(** The table as a set of keys, whatever the database is. *)
Record fdb_ok (h : list event) (db : ForwardingDatabase) : Prop := {
  fdb_ok_lookup : ∀ k, entries db !! k = spec_table (capacity db) h k;
  fdb_ok_capacity : 0 ≤ capacity db;
}.

Lemma fdb_ok_dom h db :
  fdb_ok h db →
  dom (entries db) = list_to_set (take (Z.to_nat (capacity db)) (distinct_keys h)).
Proof.
  intros [Hl _]. apply set_eq. intros k.
  rewrite elem_of_dom, Hl, elem_of_list_to_set. unfold spec_table. split.
  - intros [x Hx]. case_decide; done.
  - intros Hk. rewrite decide_True by done. apply last_seen_is_Some.
    by apply subseteq_take in Hk.
Qed.

Lemma fdb_ok_size h db :
  fdb_ok h db →
  size (entries db) = Nat.min (Z.to_nat (capacity db)) (length (distinct_keys h)).
Proof.
  intros Hok. rewrite <- size_dom, (fdb_ok_dom h db Hok).
  rewrite size_list_to_set; [by rewrite length_take|].
  eapply sublist_NoDup; [apply distinct_keys_NoDup|apply sublist_take].
Qed.

Lemma fdb_ok_len_le h db : fdb_ok h db → fdb_len db ≤ capacity db.
Proof.
  intros Hok. unfold fdb_len. rewrite (fdb_ok_size h db Hok).
  pose proof (fdb_ok_capacity h db Hok). lia.
Qed.

Lemma learn_capacity db p e : capacity (learn db p e) = capacity db.
Proof. unfold learn. by repeat case_match. Qed.

Lemma lookup_learn_insert db p e k :
  is_Some (entries db !! source_key p) ∨ fdb_len db < capacity db →
  entries (learn db p e) !! k = if decide (source_key p = k) then Some e else entries db !! k.
Proof.
  intros Hroom. unfold learn.
  destruct (entries db !! source_key p) as [x|] eqn:Hx; cbn.
  - by rewrite lookup_insert.
  - destruct Hroom as [[? ?]|Hroom]; [done|].
    destruct (Z.ltb_spec (fdb_len db) (capacity db)); [cbn|lia].
    by rewrite lookup_insert.
Qed.

Lemma learn_full db p e :
  entries db !! source_key p = None → capacity db ≤ fdb_len db → learn db p e = db.
Proof.
  intros Hx Hfull. unfold learn. rewrite Hx.
  by destruct (Z.ltb_spec (fdb_len db) (capacity db)); [lia|].
Qed.

(** One learning step keeps the database equal to the specification. *)
Lemma learn_ok h db p e :
  fdb_ok h db → fdb_ok (h ++ [(source_key p, e)]) (learn db p e).
Proof.
  intros Hok. pose proof (fdb_ok_size h db Hok) as Hsize.
  pose proof (fdb_ok_capacity h db Hok) as Hcap.
  pose proof (fdb_ok_lookup h db Hok) as Hl.
  split; [intros k|by rewrite learn_capacity].
  rewrite learn_capacity. unfold spec_table in *.
  rewrite last_seen_snoc, distinct_keys_snoc; cbn.
  set (n := Z.to_nat (capacity db)) in *. set (ks := distinct_keys h) in *.
  destruct (decide (source_key p ∈ ks)) as [Hin|Hin].
  - (* a key seen before *)
    destruct (decide (source_key p ∈ take n ks)) as [Ht|Ht].
    + rewrite lookup_learn_insert.
      * destruct (decide (source_key p = k)) as [<-|Hk]; [by rewrite decide_True|apply Hl].
      * left. rewrite Hl, decide_True by done. by apply last_seen_is_Some.
    + assert (n < length ks)%nat.
      { destruct (Nat.lt_ge_cases n (length ks)) as [|Hge]; [done|].
        by rewrite take_ge in Ht by done. }
      rewrite learn_full; [|by rewrite Hl, decide_False|unfold fdb_len; lia].
      rewrite Hl. destruct (decide (source_key p = k)) as [<-|Hk]; [|done].
      by rewrite !decide_False.
  - (* a new key *)
    assert (entries db !! source_key p = None) as Hnone.
    { rewrite Hl, decide_False; [done|]. intros Ht. by apply Hin, (subseteq_take n). }
    destruct (Nat.lt_ge_cases (length ks) n) as [Hlt|Hge].
    + rewrite lookup_learn_insert by (right; unfold fdb_len; lia).
      rewrite (take_ge (ks ++ _)) by (rewrite length_app; cbn; lia).
      destruct (decide (source_key p = k)) as [<-|Hk].
      * rewrite decide_True; [done|]. apply elem_of_app. right. by left.
      * rewrite Hl, take_ge by lia. apply decide_ext.
        rewrite elem_of_app, list_elem_of_singleton.
        split; [by left|]. intros [?|Heq]; [done|by destruct Hk].
    + rewrite learn_full by (done || (unfold fdb_len; lia)).
      rewrite take_app_le by done. rewrite Hl.
      destruct (decide (source_key p = k)) as [<-|Hk]; [|done].
      rewrite !decide_False; [done|..]; intros Ht; by apply Hin, (subseteq_take n).
Qed.

Lemma new_ok : fdb_ok [] ForwardingDatabase_new.
Proof.
  split; [|done]. intros k. unfold spec_table. cbn. rewrite decide_False.
  - apply lookup_empty.
  - rewrite take_nil. apply not_elem_of_nil.
Qed.

(** ** The switch *)

(** A switch built from [ids] after the arrivals [h]. *)
Definition reaches (ids : list EndpointId) (h : list (EndpointId * list Z))
    (sw : Switch) : Prop :=
  ∃ sw0, from_endpoints ids = Ok sw0 ∧ forward_all sw0 h = Some sw.

Lemma from_endpoints_Ok ids sw :
  from_endpoints ids = Ok sw →
  ids ≠ [] ∧ endpoints (switch_endpoints sw) = ids ∧ fdb sw = ForwardingDatabase_new.
Proof. destruct ids; [done|]. intros [= <-]. done. Qed.

Lemma contains_spec set e : contains set e = bool_decide (e ∈ endpoints set).
Proof. done. Qed.

(** [forward] keeps the endpoints, and its database records the arrival. *)
Lemma forward_state sw sw' e f r :
  forward sw e f = Some (sw', r) →
  switch_endpoints sw' = switch_endpoints sw ∧
  fdb sw' = match arrival_event (switch_endpoints sw) (e, f), parse_frame f with
            | Some _, Some (Ok p) => learn (fdb sw) p e
            | _, _ => fdb sw
            end.
Proof.
  unfold forward, arrival_event. rewrite contains_spec. cbn [fst snd]. intros H.
  case_decide as Hin; [rewrite bool_decide_true in H by done
                      |rewrite bool_decide_false in H by done]; cbn [negb] in H.
  - destruct (parse_frame f) as [[p|x]|]; cbn in H; [|by simplify_eq|done].
    crush_in H; done.
  - by simplify_eq.
Qed.

Lemma forward_Ok sw sw' e f out :
  forward sw e f = Some (sw', Ok out) →
  ∃ p, parse_frame f = Some (Ok p) ∧ e ∈ endpoints (switch_endpoints sw) ∧
       arrival_event (switch_endpoints sw) (e, f) = Some (source_key p, e) ∧
       fdb sw' = learn (fdb sw) p e.
Proof.
  intros H. pose proof (forward_state _ _ _ _ _ H) as [_ Hf].
  unfold forward in H. rewrite contains_spec in H.
  split_if_in H; [done|]. bool_reflect.
  destruct (parse_frame f) as [[p|x]|] eqn:Hp; cbn in H; [|done|done].
  assert (arrival_event (switch_endpoints sw) (e, f) = Some (source_key p, e)) as Ha.
  { unfold arrival_event. cbn. by rewrite decide_True, Hp by done. }
  exists p. rewrite Ha in Hf. done.
Qed.

(** The state of a reachable switch is the one the specification describes. *)
Lemma forward_all_ok sw h sw' g :
  forward_all sw h = Some sw' → fdb_ok g (fdb sw) →
  switch_endpoints sw' = switch_endpoints sw ∧
  fdb_ok (g ++ arrival_events (switch_endpoints sw) h) (fdb sw') ∧
  capacity (fdb sw') = capacity (fdb sw).
Proof.
  revert sw g. induction h as [|[e f] h IH]; intros sw g H Hok; cbn in H.
  - simplify_eq. by rewrite app_nil_r.
  - destruct (forward sw e f) as [[sw1 r]|] eqn:Hf; [cbn in H|done].
    pose proof (forward_state _ _ _ _ _ Hf) as [He Hd].
    unfold arrival_events. cbn [omap list_omap]. fold arrival_events.
    destruct (arrival_event (switch_endpoints sw) (e, f)) as [ev|] eqn:Ha.
    + pose proof Ha as Ha'. unfold arrival_event in Ha. cbn in Ha.
      case_decide; [|done]. destruct (parse_frame f) as [[p|x]|]; simplify_eq.
      destruct (IH sw1 (g ++ [(source_key p, e)]) H) as (Hs & Hfdb & Hcap).
      { rewrite Hd. by apply learn_ok. }
      rewrite He in Hs, Hfdb. rewrite Hd, learn_capacity in Hcap.
      rewrite <- app_assoc in Hfdb. done.
    + destruct (IH sw1 g H) as (Hs & Hfdb & Hcap); [by rewrite Hd|].
      rewrite He in Hs, Hfdb. rewrite Hd in Hcap. done.
Qed.

Lemma reaches_ok ids h sw :
  reaches ids h sw →
  endpoints (switch_endpoints sw) = ids ∧ capacity (fdb sw) = FDB_CAPACITY ∧
  fdb_ok (arrival_events (switch_endpoints sw) h) (fdb sw).
Proof.
  intros (sw0 & H0 & Hall). apply from_endpoints_Ok in H0 as (_ & He & Hd).
  destruct (forward_all_ok sw0 h sw [] Hall) as (Hs & Hok & Hc).
  { rewrite Hd. apply new_ok. }
  rewrite Hs. rewrite Hd in Hc. done.
Qed.

Lemma forward_all_app sw h k :
  forward_all sw (h ++ k) = sw' ← forward_all sw h; forward_all sw' k.
Proof.
  revert sw. induction h as [|[e f] h IH]; intros sw; [done|]. cbn.
  destruct (forward sw e f) as [[sw1 r]|]; [apply IH|done].
Qed.

Lemma reaches_forward ids h sw e f sw' r :
  reaches ids h sw → forward sw e f = Some (sw', r) → reaches ids (h ++ [(e, f)]) sw'.
Proof.
  intros (sw0 & H0 & Hall) Hf. exists sw0. split; [done|].
  rewrite forward_all_app, Hall. cbn. by rewrite Hf.
Qed.

(** The recipients [forward] returns, in terms of the table it leaves. *)
Lemma forward_recipients sw sw' e f p out :
  parse_frame f = Some (Ok p) → forward sw e f = Some (sw', Ok out) →
  out =
  let flood := filter (λ x, x ≠ e) (endpoints (switch_endpoints sw)) in
  match class p with
  | Unicast =>
      match entries (fdb sw') !! destination_key p with
      | Some d => if decide (d ≠ e ∧ d ∈ endpoints (switch_endpoints sw)) then [d] else []
      | None => flood
      end
  | _ => flood
  end.
Proof.
  intros Hp H. unfold forward in H. split_if_in H; [done|].
  rewrite Hp in H; cbn in H.
  destruct (class p);
    [rewrite bool_decide_true in H by done
    |rewrite bool_decide_false in H by done; by simplify_eq..].
  unfold lookup_destination in H; cbn [fdb] in H.
  destruct (entries (learn (fdb sw) p e) !! destination_key p) as [d|] eqn:Hd.
  - split_if_in H; simplify_eq; cbn; rewrite Hd; rewrite ?contains_spec in *;
      bool_reflect.
    + by rewrite decide_True.
    + rewrite decide_False; [done|]. intros [? ?].
      match goal with H : _ ∨ _ |- _ => destruct H end; bool_reflect; done.
  - simplify_eq; cbn. by rewrite Hd.
Qed.

(** C1: the switch refines its specification.  Whatever frames arrived before
    (valid or not, from members or not), an accepted frame is delivered exactly
    to [spec_recipients] of the history including this frame: the endpoint last
    seen behind the destination key when that key is among the first 4,096
    distinct source keys, nobody when that endpoint is the sender, every other
    member otherwise. *)
Theorem forward_refines_spec (ids : list EndpointId)
    (h : list (EndpointId * list Z)) (sw sw' : Switch) (e : EndpointId)
    (frame : list Z) (p : ParsedFrame) (out : list EndpointId)
    (Hreach : reaches ids h sw)
    (Hframe : parse_frame frame = Some (Ok p))
    (Hfwd : forward sw e frame = Some (sw', Ok out)) :
  out = spec_recipients {| endpoints := ids |}
          (arrival_events {| endpoints := ids |} (h ++ [(e, frame)])) e p.
Proof.
  pose proof (reaches_forward _ _ _ _ _ _ _ Hreach Hfwd) as Hreach'.
  destruct (reaches_ok _ _ _ Hreach) as (He & _ & _).
  destruct (reaches_ok _ _ _ Hreach') as (He' & Hcap & [Hl _]).
  rewrite (forward_recipients _ _ _ _ _ _ Hframe Hfwd).
  assert (∀ s, endpoints s = ids → s = {| endpoints := ids |}) as Heta.
  { by intros [] [= ->]. }
  rewrite (Heta _ He') in Hl. rewrite He. unfold spec_recipients.
  rewrite Hl, Hcap. done.
Qed.

(** A frame from station [s] to station [d] without a VLAN tag. *)
Definition station (n : Z) : mac := [2; 0; 0; 0; 0; n].
Definition plain_frame (d s : Z) : list Z := station d ++ station s ++ [8; 0].
Definition three : list EndpointId := EndpointId_new <$> [1; 2; 3].

(** The three-endpoint switch once station 9 was seen behind endpoint 2. *)
Definition after_9 : Switch :=
  {| switch_endpoints := {| endpoints := three |};
     fdb := learn ForwardingDatabase_new
              {| source := station 9; destination := station 8; vlan := None;
                 class := Unicast |} (EndpointId_new 2) |}.

(** Station 9 is learned behind endpoint 2, so a frame for it goes there only. *)
Lemma forward_refines_spec_witness :
  ∃ sw' p,
    forward after_9 (EndpointId_new 1) (plain_frame 9 7) = Some (sw', Ok [EndpointId_new 2]) ∧
    [EndpointId_new 2] =
      spec_recipients {| endpoints := three |}
        (arrival_events {| endpoints := three |}
           ([(EndpointId_new 2, plain_frame 8 9)] ++ [(EndpointId_new 1, plain_frame 9 7)]))
        (EndpointId_new 1) p.
Proof.
  eexists _, {| source := station 7; destination := station 9; vlan := None; class := Unicast |}.
  split; [vm_compute; reflexivity|].
  eapply (forward_refines_spec three [(EndpointId_new 2, plain_frame 8 9)] after_9).
  - exists {| switch_endpoints := {| endpoints := three |}; fdb := ForwardingDatabase_new |}.
    split; [reflexivity|vm_compute; reflexivity].
  - vm_compute; reflexivity.
  - vm_compute; reflexivity.
Defined.

(** Recipients are members other than the sender. *)
Lemma forward_members sw sw' e f out d :
  forward sw e f = Some (sw', Ok out) → d ∈ out → d ≠ e ∧ d ∈ endpoints (switch_endpoints sw).
Proof.
  intros Hf Hd. destruct (forward_Ok _ _ _ _ _ Hf) as (p & Hp & _ & _).
  rewrite (forward_recipients _ _ _ _ _ _ Hp Hf) in Hd. cbn zeta in Hd.
  assert (Hflood : d ∈ filter (λ x, x ≠ e) (endpoints (switch_endpoints sw)) →
    d ≠ e ∧ d ∈ endpoints (switch_endpoints sw)) by (by rewrite list_elem_of_filter).
  destruct (class p); [|by apply Hflood..]. destruct (entries _ !! _) as [x|]; [|by apply Hflood].
  case_decide; [by apply list_elem_of_singleton in Hd as ->|by apply not_elem_of_nil in Hd].
Qed.

(** A frame from a member is not refused for its sender. *)
Lemma forward_known sw sw' e f : e ∈ endpoints (switch_endpoints sw) →
  forward sw e f ≠ Some (sw', Err UnknownEndpoint).
Proof.
  intros He Hf. unfold forward in Hf. rewrite contains_spec, bool_decide_true in Hf by done.
  cbn in Hf. destruct (parse_frame f) as [[p|x]|]; cbn in Hf; [crush_in Hf|congruence|done].
Qed.

Lemma forward_total sw e f : is_Some (forward sw e f).
Proof.
  unfold forward. destruct (negb _); [by eexists|].
  destruct (parse_frame_total f) as [[p|x] ->]; cbn; [|by eexists].
  repeat case_match; by eexists.
Qed.

(** The forwarding table is bounded.  After any sequence of arrivals it
    holds exactly one entry per distinct accepted (source, VLAN) key, up to
    4,096, and feeding the switch never panics. *)
Theorem forward_table_bounded (ids : list EndpointId)
    (h : list (EndpointId * list Z)) (sw0 : Switch)
    (Hnew : from_endpoints ids = Ok sw0) :
  ∃ sw, forward_all sw0 h = Some sw ∧
    switch_fdb_len sw =
      Z.min FDB_CAPACITY
        (len (distinct_keys (arrival_events (switch_endpoints sw0) h))).
Proof.
  assert (∀ sw, is_Some (forward_all sw h)) as Htotal.
  { clear. induction h as [|[e f] h IH]; intros sw; [by eexists|]. cbn.
    destruct (forward_total sw e f) as [r ->]. apply IH. }
  destruct (Htotal sw0) as [sw Hsw]. exists sw. split; [done|].
  pose proof (from_endpoints_Ok _ _ Hnew) as (_ & _ & Hd).
  destruct (forward_all_ok sw0 h sw [] Hsw) as (_ & Hok & Hcap).
  { rewrite Hd. apply new_ok. }
  unfold switch_fdb_len, fdb_len, len.
  rewrite (fdb_ok_size _ _ Hok), Hcap, Hd. cbn [capacity ForwardingDatabase_new app].
  unfold FDB_CAPACITY. lia.
Qed.

Lemma forward_table_bounded_witness :
  ∃ sw0 sw, from_endpoints three = Ok sw0 ∧
    forward_all sw0 [(EndpointId_new 2, plain_frame 8 9)] = Some sw ∧
    switch_fdb_len sw = 1.
Proof.
  eexists.
  destruct (forward_table_bounded three [(EndpointId_new 2, plain_frame 8 9)] _ eq_refl)
    as (sw & Hsw & Hlen).
  exists sw. split; [reflexivity|]. split; [exact Hsw|]. rewrite Hlen. vm_compute. reflexivity.
Defined.

(** A frame is never echoed and never leaves the switch.  The call returns
    on every input; it fails exactly when the sender is not a member or the
    frame does not parse, and then the switch is unchanged; otherwise every
    recipient is a member other than the sender, each member of a duplicate
    free set at most once, and a broadcast or multicast frame reaches all of
    them. *)
Theorem forward_safe (sw : Switch) (e : EndpointId) (frame : list Z) :
  ∃ sw' r, forward sw e frame = Some (sw', r) ∧
    match r with
    | Err UnknownEndpoint => ¬ e ∈ endpoints (switch_endpoints sw) ∧ sw' = sw
    | Err (InvalidFrame x) =>
        e ∈ endpoints (switch_endpoints sw) ∧ parse_frame frame = Some (Err x) ∧ sw' = sw
    | Ok out =>
        e ∈ endpoints (switch_endpoints sw) ∧
        (∀ d, d ∈ out → d ≠ e ∧ d ∈ endpoints (switch_endpoints sw)) ∧
        (NoDup (endpoints (switch_endpoints sw)) → NoDup out) ∧
        ∃ p, parse_frame frame = Some (Ok p) ∧
          (class p ≠ Unicast → ∀ d, d ≠ e → d ∈ endpoints (switch_endpoints sw) → d ∈ out)
    end.
Proof.
  destruct (forward_total sw e frame) as [[sw' r] Hf]. exists sw', r. split; [done|].
  destruct r as [out|err].
  - destruct (forward_Ok _ _ _ _ _ Hf) as (p & Hp & Hin & _).
    pose proof (forward_recipients _ _ _ _ _ _ Hp Hf) as Hout; cbn zeta in Hout.
    set (flood := filter (λ x, x ≠ e) _) in Hout.
    assert (∀ d, d ∈ flood ↔ d ≠ e ∧ d ∈ endpoints (switch_endpoints sw)) as Hflood.
    { intros d. unfold flood. by rewrite list_elem_of_filter. }
    assert (out = flood ∨ (class p = Unicast ∧ (out = [] ∨ ∃ d, out = [d] ∧ d ∈ flood))) as Hcases.
    { destruct (class p); [|by left..].
      destruct (entries _ !! _) as [d|]; [|by left]. right. split; [done|].
      case_decide as Hd; [right|by left]. exists d. split; [done|by apply Hflood]. }
    split; [done|]. split; [|split; [|exists p; split; [done|]]].
    + intros d. by apply (forward_members _ _ _ _ _ _ Hf).
    + intros Hnd.
      destruct Hcases as [-> | [_ [-> | (x & -> & Hx)]]];
        [by apply NoDup_filter|constructor|apply NoDup_singleton].
    + intros Hc d Hde Hd. destruct Hcases as [-> | [Hu _]]; [by apply Hflood|by destruct Hc].
  - unfold forward in Hf. rewrite contains_spec in Hf. split_if_in Hf; bool_reflect.
    + by simplify_eq.
    + destruct (parse_frame frame) as [[p|x]|]; cbn in Hf; [crush_in Hf|by simplify_eq|done].
Qed.
