(* ===== verification/BufferPool.v ===== *)
(** * The buffer slot pool ([wintap-switch-core/src/lib.rs], [BufferPool])

    Each registered buffer of the switch is a slot: free, owned by a pending
    read, being dispatched, or owned by a number of pending writes.  A slot's
    generation increases at every read, so a completion that arrives late
    names a generation that is gone.  A method that takes [&mut self] returns
    the new pool; errors are values. *)

From S2P Require Import Prelude Words.

Inductive SlotState :=
  | Free
  | ReadPending
  | Dispatching
  | WritePending (remaining : Z).

#[export] Instance SlotState_eq_dec : EqDecision SlotState.
Proof. solve_decision. Defined.

Record SlotCompletion := { slot : Z; completion_generation : Z }.

#[export] Instance SlotCompletion_eq_dec : EqDecision SlotCompletion.
Proof. solve_decision. Defined.

Inductive SlotError :=
  | InvalidSlot
  | NotFree
  | StaleCompletion
  | InvalidTransition
  | GenerationExhausted
  | AllocationFailed.

Record BufferSlot := { generation : Z; state : SlotState }.

Record BufferPool := { slots : list BufferSlot }.

(** [alloc] is the allocator's answer to [try_reserve_exact]. *)
Definition try_new (alloc : Z → bool) (count : Z) : result BufferPool SlotError :=
  if alloc count
  then Ok {| slots := replicate (Z.to_nat count) {| generation := 0; state := Free |} |}
  else Err AllocationFailed.

(** [new] panics when the allocation fails. *)
Definition BufferPool_new (alloc : Z → bool) (count : Z) : option BufferPool :=
  ok (try_new alloc count).

(** Assignment through the [&mut BufferSlot] that [get_mut] returned. *)
Definition set_slot (pool : BufferPool) (i : Z) (s : BufferSlot) : BufferPool :=
  {| slots := <[Z.to_nat i := s]> (slots pool) |}.

Definition current (pool : BufferPool) (c : SlotCompletion) :
    result BufferSlot SlotError :=
  let? s := ok_or (at_index (slots pool) (slot c)) InvalidSlot in
  if negb (generation s =? completion_generation c)
  then Err StaleCompletion
  else Ok s.

Definition begin_read (pool : BufferPool) (i : Z) :
    BufferPool * result SlotCompletion SlotError :=
  match ok_or (at_index (slots pool) i) InvalidSlot with
  | Err e => (pool, Err e)
  | Ok slot_ref =>
      if negb (bool_decide (state slot_ref = Free)) then (pool, Err NotFree)
      else
        let next :=
          g ← checked_add 64 (generation slot_ref) 1;
          if g <=? u32_max then Some g else None in
        match ok_or next GenerationExhausted with
        | Err e => (pool, Err e)
        | Ok g =>
            (set_slot pool i {| generation := g; state := ReadPending |},
             Ok {| slot := i; completion_generation := g |})
        end
  end.

(** A method that looks its completion up, checks the state and assigns it. *)
Definition with_current (pool : BufferPool) (c : SlotCompletion)
    (next : SlotState → option SlotState) : BufferPool * result unit SlotError :=
  match current pool c with
  | Err e => (pool, Err e)
  | Ok s =>
      match next (state s) with
      | None => (pool, Err InvalidTransition)
      | Some st => (set_slot pool (slot c) {| generation := generation s; state := st |}, Ok tt)
      end
  end.

Definition begin_dispatch (pool : BufferPool) (c : SlotCompletion) :=
  with_current pool c (λ s,
    if negb (bool_decide (s = ReadPending)) then None else Some Dispatching).

Definition begin_writes (pool : BufferPool) (c : SlotCompletion) (count : Z) :=
  with_current pool c (λ s,
    if negb (bool_decide (s = Dispatching)) || (count =? 0) then None
    else Some (WritePending count)).

Definition complete_dispatch (pool : BufferPool) (c : SlotCompletion) :=
  with_current pool c (λ s,
    if negb (bool_decide (s = Dispatching)) then None else Some Free).

Definition complete_write (pool : BufferPool) (c : SlotCompletion) :=
  with_current pool c (λ s,
    match s with
    | WritePending remaining =>
        if remaining >? 1 then Some (WritePending (remaining - 1))
        else if remaining =? 1 then Some Free
        else None
    | _ => None
    end).

Definition cancel (pool : BufferPool) (c : SlotCompletion) :=
  with_current pool c (λ s, if bool_decide (s = Free) then None else Some Free).

#[global] Arguments current : simpl never.
#[global] Arguments set_slot : simpl never.
#[global] Arguments with_current : simpl never.
#[global] Arguments begin_read : simpl never.

(** ** The abstract specification

    A slot is idle, or leased to one token: the completion its read was
    started with.  Operations carry the token they were given. *)

Inductive op :=
  | OpRead (i : Z)
  | OpDispatch (c : SlotCompletion)
  | OpWrites (c : SlotCompletion) (count : Z)
  | OpDone (c : SlotCompletion)
  | OpWritten (c : SlotCompletion)
  | OpCancel (c : SlotCompletion).

(** The completion an operation presents; a read presents none. *)
Definition presented (o : op) : option SlotCompletion :=
  match o with
  | OpRead _ => None
  | OpDispatch c | OpWrites c _ | OpDone c | OpWritten c | OpCancel c => Some c
  end.

(** The life cycle of one slot, as a relation. *)
Inductive slot_step : SlotState → op → SlotState → Prop :=
  | step_read i : slot_step Free (OpRead i) ReadPending
  | step_dispatch c : slot_step ReadPending (OpDispatch c) Dispatching
  | step_writes c n : n ≠ 0 → slot_step Dispatching (OpWrites c n) (WritePending n)
  | step_done c : slot_step Dispatching (OpDone c) Free
  | step_written c n : 1 < n → slot_step (WritePending n) (OpWritten c) (WritePending (n - 1))
  | step_last_written c : slot_step (WritePending 1) (OpWritten c) Free
  | step_cancel s c : s ≠ Free → slot_step s (OpCancel c) Free.

Definition unit_result (r : BufferPool * result unit SlotError) :
    BufferPool * result (option SlotCompletion) SlotError :=
  (r.1, match r.2 with Ok _ => Ok None | Err e => Err e end).

(** One call: the pool after it, the token it issued or its error. *)
Definition apply_op (pool : BufferPool) (o : op) :
    BufferPool * result (option SlotCompletion) SlotError :=
  match o with
  | OpRead i =>
      let '(pool', r) := begin_read pool i in
      (pool', match r with Ok c => Ok (Some c) | Err e => Err e end)
  | OpDispatch c => unit_result (begin_dispatch pool c)
  | OpWrites c n => unit_result (begin_writes pool c n)
  | OpDone c => unit_result (complete_dispatch pool c)
  | OpWritten c => unit_result (complete_write pool c)
  | OpCancel c => unit_result (cancel pool c)
  end.

(** A run: the tokens issued, in order, and the final pool. *)
Fixpoint run (pool : BufferPool) (ops : list op) : BufferPool * list SlotCompletion :=
  match ops with
  | [] => (pool, [])
  | o :: ops =>
      let '(pool', r) := apply_op pool o in
      let '(final, issued) := run pool' ops in
      (final, match r with Ok (Some c) => c :: issued | _ => issued end)
  end.

(** ** Helper lemmas *)

(** The slot an operation addresses. *)
Definition target (o : op) : Z :=
  match o with
  | OpRead i => i
  | OpDispatch c | OpWrites c _ | OpDone c | OpWritten c | OpCancel c => slot c
  end.

Definition gen_of (pool : BufferPool) (i : Z) : Z :=
  match at_index (slots pool) i with Some s => generation s | None => 0 end.

Lemma at_index_set_slot pool i j s s0 :
  at_index (slots pool) i = Some s0 →
  at_index (slots (set_slot pool i s)) j =
    if decide (i = j) then Some s else at_index (slots pool) j.
Proof.
  unfold at_index, set_slot. cbn. intros Hi. split_if_in Hi; [|done]. bool_reflect.
  destruct (Z.leb_spec 0 j).
  - destruct (decide (i = j)) as [<-|Hij].
    + apply list_lookup_insert_eq. by eapply lookup_lt_Some.
    + apply list_lookup_insert_ne. lia.
  - destruct (decide (i = j)); [lia|done].
Qed.

Lemma current_Ok pool c s :
  current pool c = Ok s ↔
  at_index (slots pool) (slot c) = Some s ∧ generation s = completion_generation c.
Proof.
  unfold current. destruct (at_index _ _) as [s'|]; cbn; [|naive_solver].
  destruct (Z.eqb_spec (generation s') (completion_generation c)); cbn; naive_solver.
Qed.

Lemma with_current_Ok pool c next pool' :
  with_current pool c next = (pool', Ok tt) ↔
  ∃ s st, at_index (slots pool) (slot c) = Some s ∧
    generation s = completion_generation c ∧ next (state s) = Some st ∧
    pool' = set_slot pool (slot c) {| generation := generation s; state := st |}.
Proof.
  unfold with_current. split.
  - destruct (current pool c) as [s|] eqn:Hc; [|done].
    apply current_Ok in Hc as [? ?].
    destruct (next (state s)) as [st|] eqn:?; [|done]. intros [= <-].
    by exists s, st.
  - intros (s & st & ? & ? & Hn & ->).
    rewrite (proj2 (current_Ok pool c s)) by done. by rewrite Hn.
Qed.

Lemma with_current_Err pool c next pool' e :
  with_current pool c next = (pool', Err e) → pool' = pool.
Proof. unfold with_current. intros H. crush_in H; done. Qed.

Lemma begin_read_Ok pool i pool' c :
  begin_read pool i = (pool', Ok c) ↔
  ∃ s, at_index (slots pool) i = Some s ∧ state s = Free ∧
    generation s + 1 ≤ u32_max ∧
    c = {| slot := i; completion_generation := generation s + 1 |} ∧
    pool' = set_slot pool i {| generation := generation s + 1; state := ReadPending |}.
Proof.
  unfold begin_read. destruct (at_index (slots pool) i) as [s|]; cbn; [|naive_solver].
  case_bool_decide as Hfree; cbn; [|naive_solver].
  assert ((g ← checked_add 64 (generation s) 1; if g <=? u32_max then Some g else None)
          = if generation s + 1 <=? u32_max then Some (generation s + 1) else None) as ->.
  { unfold checked_add, u32_max.
    destruct (Z.ltb_spec (generation s + 1) (2 ^ 64)); cbn; [done|].
    destruct (Z.leb_spec (generation s + 1) (2 ^ 32 - 1)); [lia|done]. }
  destruct (Z.leb_spec (generation s + 1) u32_max); cbn; split.
  - intros [= <- <-]. by exists s.
  - intros (? & [= <-] & _ & _ & -> & ->). done.
  - done.
  - intros (? & [= <-] & _ & ? & _). lia.
Qed.

Lemma begin_read_Err pool i pool' e : begin_read pool i = (pool', Err e) → pool' = pool.
Proof. unfold begin_read. intros H. crush_in H; done. Qed.

(** The transition function of each completion-carrying operation. *)
Definition op_next (o : op) (s : SlotState) : option SlotState :=
  match o with
  | OpRead _ => None
  | OpDispatch _ => if negb (bool_decide (s = ReadPending)) then None else Some Dispatching
  | OpWrites _ n =>
      if negb (bool_decide (s = Dispatching)) || (n =? 0) then None else Some (WritePending n)
  | OpDone _ => if negb (bool_decide (s = Dispatching)) then None else Some Free
  | OpWritten _ =>
      match s with
      | WritePending n =>
          if n >? 1 then Some (WritePending (n - 1)) else if n =? 1 then Some Free else None
      | _ => None
      end
  | OpCancel _ => if bool_decide (s = Free) then None else Some Free
  end.

Lemma op_next_step o s st :
  is_Some (presented o) → op_next o s = Some st ↔ slot_step s o st.
Proof.
  intros Hp. split.
  - destruct o as [i|c|c n|c|c|c]; cbn in *; [by destruct Hp|..]; intros H.
    + case_bool_decide; simplify_eq/=; constructor.
    + case_bool_decide; simplify_eq/=. destruct (Z.eqb_spec n 0); simplify_eq/=. by constructor.
    + case_bool_decide; simplify_eq/=; constructor.
    + destruct s as [| | |n]; [done..|]. rewrite Z.gtb_ltb in H.
      destruct (Z.ltb_spec 1 n); simplify_eq; [by constructor|].
      destruct (Z.eqb_spec n 1); simplify_eq; constructor.
    + case_bool_decide; simplify_eq/=; by constructor.
  - destruct 1; cbn in *; rewrite ?bool_decide_true by done; cbn; try done.
    + by destruct (Z.eqb_spec n 0).
    + rewrite Z.gtb_ltb. by destruct (Z.ltb_spec 1 n); [|lia].
    + by rewrite bool_decide_false.
Qed.

Lemma apply_op_with_current pool o c :
  presented o = Some c → apply_op pool o = unit_result (with_current pool c (op_next o)).
Proof. by destruct o; intros [= <-]. Qed.

(** The step of the abstract life cycle an operation performs on a pool. *)
Definition op_allowed (pool : BufferPool) (o : op) (s : BufferSlot) (st : SlotState) : Prop :=
  at_index (slots pool) (target o) = Some s ∧ slot_step (state s) o st ∧
  match presented o with
  | Some c => generation s = completion_generation c
  | None => generation s + 1 ≤ u32_max
  end.

Definition op_outcome (pool : BufferPool) (o : op) (s : BufferSlot) (st : SlotState) :
    BufferPool * result (option SlotCompletion) SlotError :=
  match presented o with
  | Some _ =>
      (set_slot pool (target o) {| generation := generation s; state := st |}, Ok None)
  | None =>
      (set_slot pool (target o) {| generation := generation s + 1; state := st |},
       Ok (Some {| slot := target o; completion_generation := generation s + 1 |}))
  end.

Lemma presented_target o c : presented o = Some c → target o = slot c.
Proof. by destruct o; intros [= <-]. Qed.

Lemma apply_op_allowed pool o s st :
  op_allowed pool o s st → apply_op pool o = op_outcome pool o s st.
Proof.
  intros (Hs & Hstep & Hp). unfold op_outcome.
  destruct (presented o) as [c|] eqn:Ho.
  - rewrite (apply_op_with_current _ _ _ Ho), (presented_target _ _ Ho) in *.
    erewrite (proj2 (with_current_Ok pool c (op_next o) _)); [done|].
    exists s, st. split_and!; try done. by apply op_next_step; [rewrite Ho|].
  - destruct o; [|done..]. cbn in *. inversion Hstep; subst.
    erewrite (proj2 (begin_read_Ok pool i _ _)); [done|]. by exists s.
Qed.

Lemma apply_op_Ok pool o pool' r :
  apply_op pool o = (pool', Ok r) → ∃ s st, op_allowed pool o s st.
Proof.
  intros H. unfold op_allowed. destruct (presented o) as [c|] eqn:Ho.
  - rewrite (apply_op_with_current _ _ _ Ho) in H. rewrite (presented_target _ _ Ho).
    destruct (with_current pool c (op_next o)) as [p [[]|e]] eqn:Hw; [|done].
    apply with_current_Ok in Hw as (s & st & ? & ? & Hn & _).
    exists s, st. split_and!; try done. by apply op_next_step in Hn; [|rewrite Ho].
  - destruct o; [|done..]. cbn in *.
    destruct (begin_read pool i) as [p [c|e]] eqn:Hr; [|done].
    apply begin_read_Ok in Hr as (s & ? & Hf & ? & _). exists s, ReadPending.
    split_and!; try done. rewrite Hf. constructor.
Qed.

Lemma apply_op_Err pool o pool' e : apply_op pool o = (pool', Err e) → pool' = pool.
Proof.
  intros H. destruct (presented o) as [c|] eqn:Ho.
  - rewrite (apply_op_with_current _ _ _ Ho) in H.
    destruct (with_current pool c (op_next o)) as [p [[]|e']] eqn:Hw; [done|].
    injection H as <- _. exact (with_current_Err _ _ _ _ _ Hw).
  - destruct o; [|done..]. cbn in *.
    destruct (begin_read pool i) as [p [c|e']] eqn:Hr; [done|].
    injection H as <- _. exact (begin_read_Err _ _ _ _ Hr).
Qed.

(** C18: every operation of the pool performs exactly the allowed transition of
    the slot life cycle.  When the addressed slot exists, the completion's
    generation is current (for a read: the next generation still fits 32 bits)
    and the life cycle has a step, the call makes that step and touches no
    other slot; in every other case it returns an error and the pool is
    unchanged. *)
Theorem pool_refines_life_cycle (pool pool' : BufferPool) (o : op)
    (r : result (option SlotCompletion) SlotError)
    (Hcall : apply_op pool o = (pool', r)) :
  (∀ s st, op_allowed pool o s st → (pool', r) = op_outcome pool o s st) ∧
  ((∀ s st, ¬ op_allowed pool o s st) → pool' = pool ∧ is_ok r = false).
Proof.
  split.
  - intros s st Hok. rewrite <- Hcall. by apply apply_op_allowed.
  - intros Hno. destruct r as [t|e].
    + destruct (apply_op_Ok _ _ _ _ Hcall) as (s & st & Hok). by destruct (Hno s st).
    + split; [by eapply apply_op_Err|done].
Qed.

Definition example_pool : BufferPool :=
  {| slots := replicate 2 {| generation := 0; state := Free |} |}.

Lemma pool_refines_life_cycle_witness :
  (∀ s st, op_allowed example_pool (OpRead 1) s st →
     apply_op example_pool (OpRead 1) = op_outcome example_pool (OpRead 1) s st) ∧
  op_allowed example_pool (OpRead 1) {| generation := 0; state := Free |} ReadPending.
Proof.
  split.
  - intros s st. rewrite (surjective_pairing (apply_op example_pool (OpRead 1))).
    apply (pool_refines_life_cycle example_pool _ (OpRead 1) _ (surjective_pairing _)).
  - split_and!; [reflexivity|constructor|vm_compute; congruence].
Defined.

(** ** Generations along a run *)

Lemma op_outcome_gen pool o s st i :
  op_allowed pool o s st →
  gen_of (op_outcome pool o s st).1 i =
    if decide (presented o = None ∧ i = target o) then gen_of pool i + 1 else gen_of pool i.
Proof.
  intros (Hs & _ & _). unfold op_outcome, gen_of.
  destruct (presented o) as [c|]; cbn [fst]; rewrite (at_index_set_slot _ _ _ _ _ Hs).
  - rewrite (decide_False (P := Some c = None ∧ _)) by (by intros [? _]).
    destruct (decide (target o = i)) as [<-|]; [by rewrite Hs|done].
  - destruct (decide (target o = i)) as [<-|Hne].
    + by rewrite decide_True, Hs by done.
    + rewrite decide_False; [done|]. intros [_ ->]. done.
Qed.

(** One call: generations never decrease; an issued token is the new, strictly
    larger generation of its slot, and fits 32 bits. *)
Lemma apply_op_gen pool o pool' r :
  apply_op pool o = (pool', r) →
  (∀ i, gen_of pool i ≤ gen_of pool' i) ∧
  match r with
  | Ok (Some c) =>
      gen_of pool (slot c) < completion_generation c ∧
      completion_generation c = gen_of pool' (slot c) ∧
      completion_generation c ≤ u32_max
  | _ => True
  end.
Proof.
  intros H. destruct r as [t|e]; [|by rewrite (apply_op_Err _ _ _ _ H)].
  destruct (apply_op_Ok _ _ _ _ H) as (s & st & Hok).
  rewrite (apply_op_allowed _ _ _ _ Hok) in H.
  pose proof (λ i, op_outcome_gen _ _ _ _ i Hok) as Hg. rewrite H in Hg; cbn [fst] in Hg.
  split; [intros i; rewrite Hg; destruct (decide _); lia|].
  destruct Hok as (Hs & _ & Hb). unfold op_outcome in H.
  destruct (presented o) as [c|]; injection H as <- <-; [done|]. cbn.
  rewrite Hg, decide_True by done. unfold gen_of. rewrite Hs. lia.
Qed.

(** Along a run: generations grow, and every issued token lies between. *)
Lemma run_gen ops : ∀ pool final issued,
  run pool ops = (final, issued) →
  (∀ i, gen_of pool i ≤ gen_of final i) ∧
  (∀ c, c ∈ issued → gen_of pool (slot c) < completion_generation c ≤ gen_of final (slot c)) ∧
  Forall (λ c, completion_generation c ≤ u32_max) issued ∧
  (∀ l1 c l2 d, issued = l1 ++ c :: l2 → d ∈ l2 → slot d = slot c →
     completion_generation c < completion_generation d).
Proof.
  induction ops as [|o ops IH]; intros pool final issued H; cbn in H.
  { simplify_eq. split_and!; [done|by intros ? ?%not_elem_of_nil|constructor|].
    by intros [|??] ??? [=]. }
  destruct (apply_op pool o) as [p r] eqn:Ho.
  destruct (run p ops) as [f rest] eqn:Hr. injection H as <- <-.
  destruct (apply_op_gen _ _ _ _ Ho) as [Hmono Htok].
  destruct (IH _ _ _ Hr) as (Hm & Hi & Hb & Hlt).
  assert (∀ i, gen_of pool i ≤ gen_of f i) as Hm'.
  { intros i. specialize (Hmono i). specialize (Hm i). lia. }
  assert (∀ c, c ∈ rest → gen_of pool (slot c) < completion_generation c ≤ gen_of f (slot c))
    as Hi'.
  { intros c Hc. specialize (Hi c Hc). specialize (Hmono (slot c)). lia. }
  destruct r as [[c|]|e]; [|done..].
  destruct Htok as (Hnew & Heq & Hbound). split; [done|]. split; [|split; [by constructor|]].
  - intros d [->|Hd]%elem_of_cons; [|by apply Hi']. specialize (Hm (slot c)). lia.
  - intros [|x l1] c' l2 d [= <- Heq'] Hd Hslot.
    + subst rest. destruct (Hi d Hd) as [Hd1 _]. rewrite Hslot in Hd1. lia.
    + by eapply Hlt.
Qed.

(** Completion tokens are unique.  Whatever sequence of operations is
    applied to a pool, with valid or invalid arguments, no token is ever issued
    twice, and every generation issued is between 1 and [u32::MAX], so the pair
    fits the 63-bit completion identifier of the switch. *)
Theorem tokens_unique (alloc : Z → bool) (count : Z) (pool final : BufferPool)
    (ops : list op) (issued : list SlotCompletion)
    (Hnew : try_new alloc count = Ok pool) (Hrun : run pool ops = (final, issued)) :
  NoDup issued ∧ Forall (λ c, 1 ≤ completion_generation c ≤ u32_max) issued.
Proof.
  destruct (run_gen _ _ _ _ Hrun) as (_ & Hi & Hb & Hlt). split.
  - clear Hi Hb Hrun. induction issued as [|c issued IH]; constructor.
    + intros Hc. specialize (Hlt [] c issued c eq_refl Hc eq_refl). lia.
    + apply IH. intros l1 c' l2 d ->. by apply (Hlt (c :: l1) c' l2 d).
  - apply Forall_forall. intros c Hc. split; [|by eapply Forall_forall in Hb].
    apply Hi in Hc as [Hc _]. unfold try_new in Hnew. split_if_in Hnew; [|done].
    injection Hnew as <-. unfold gen_of, at_index in Hc. cbn in Hc.
    destruct (0 <=? slot c); [|lia].
    destruct (replicate _ _ !! _) eqn:Hl; [|lia].
    apply lookup_replicate in Hl as [-> _]. cbn in Hc. lia.
Qed.

Lemma tokens_unique_witness :
  NoDup [{| slot := 0; completion_generation := 1 |};
         {| slot := 0; completion_generation := 2 |}] ∧
  Forall (λ c, 1 ≤ completion_generation c ≤ u32_max)
        [{| slot := 0; completion_generation := 1 |};
         {| slot := 0; completion_generation := 2 |}].
Proof.
  eapply (tokens_unique (λ _, true) 2 example_pool _
    [OpRead 0; OpCancel {| slot := 0; completion_generation := 1 |}; OpRead 0; OpRead 0]);
    vm_compute; reflexivity.
Defined.

(** A late completion is rejected for ever.  Once a slot has been reissued
    under a later token, any operation that presents the earlier one fails with
    [StaleCompletion] and leaves the pool unchanged. *)
Theorem late_completion_rejected (pool final : BufferPool) (ops : list op)
    (l1 l2 l3 : list SlotCompletion) (old new : SlotCompletion) (o : op)
    (Hrun : run pool ops = (final, l1 ++ old :: l2 ++ new :: l3))
    (Hslot : slot new = slot old) (Ho : presented o = Some old)
    (Hvalid : is_Some (at_index (slots final) (slot old))) :
  apply_op final o = (final, Err StaleCompletion).
Proof.
  destruct (run_gen _ _ _ _ Hrun) as (_ & Hi & _ & Hlt).
  assert (completion_generation old < completion_generation new).
  { eapply Hlt; [done| |done]. apply elem_of_app. right. by left. }
  assert (new ∈ l1 ++ old :: l2 ++ new :: l3) as Hin.
  { apply elem_of_app. right. right. apply elem_of_app. right. by left. }
  apply Hi in Hin as [_ Hin]. rewrite Hslot in Hin.
  rewrite (apply_op_with_current _ _ _ Ho). unfold with_current, current.
  destruct Hvalid as [s Hs]. unfold gen_of in Hin. rewrite Hs in *. cbn.
  by destruct (Z.eqb_spec (generation s) (completion_generation old)); [lia|].
Qed.

Lemma late_completion_rejected_witness :
  ∃ final,
    apply_op final (OpWritten {| slot := 0; completion_generation := 1 |}) =
      (final, Err StaleCompletion).
Proof.
  eexists.
  eapply (late_completion_rejected example_pool _
    [OpRead 0; OpCancel {| slot := 0; completion_generation := 1 |}; OpRead 0] [] [] []
    {| slot := 0; completion_generation := 1 |} {| slot := 0; completion_generation := 2 |});
    [vm_compute; reflexivity|reflexivity|reflexivity|vm_compute; eexists; reflexivity].
Defined.

(** The pool after [k] calls of [complete_write] that succeeded. *)
Fixpoint complete_writes (pool : BufferPool) (c : SlotCompletion) (k : nat) :
    option BufferPool :=
  match k with
  | O => Some pool
  | S k => match complete_write pool c with
           | (pool', Ok _) => complete_writes pool' c k
           | (_, Err _) => None
           end
  end.

(** A slot with [n] writes outstanding: free once there are none. *)
Definition outstanding (n : Z) : SlotState := if n =? 0 then Free else WritePending n.

Lemma complete_write_outstanding pool c n :
  at_index (slots pool) (slot c) =
    Some {| generation := completion_generation c; state := outstanding n |} →
  0 < n →
  complete_write pool c =
    (set_slot pool (slot c)
       {| generation := completion_generation c; state := outstanding (n - 1) |}, Ok tt).
Proof.
  intros Hs Hn. apply with_current_Ok. eexists _, _. split; [done|]. split; [done|].
  split; [|done]. unfold outstanding. cbn.
  destruct (Z.eqb_spec n 0); [lia|]. rewrite Z.gtb_ltb.
  destruct (Z.ltb_spec 1 n), (Z.eqb_spec n 1), (Z.eqb_spec (n - 1) 0); done || lia.
Qed.

Lemma complete_writes_outstanding c (k : nat) : ∀ pool n,
  at_index (slots pool) (slot c) =
    Some {| generation := completion_generation c; state := outstanding n |} →
  Z.of_nat k ≤ n →
  ∃ pool', complete_writes pool c k = Some pool' ∧
    ∀ i, at_index (slots pool') i =
      if decide (i = slot c)
      then Some {| generation := completion_generation c; state := outstanding (n - Z.of_nat k) |}
      else at_index (slots pool) i.
Proof.
  induction k as [|k IH]; intros pool n Hs Hn.
  - exists pool. split; [done|]. intros i. rewrite Z.sub_0_r.
    by destruct (decide (i = slot c)) as [->|].
  - cbn [complete_writes]. rewrite (complete_write_outstanding _ _ n) by (done || lia).
    destruct (IH (set_slot pool (slot c) {| generation := completion_generation c;
      state := outstanding (n - 1) |}) (n - 1)) as (p & -> & Hp).
    { rewrite (at_index_set_slot _ _ _ _ _ Hs). by rewrite decide_True. }
    { lia. }
    exists p. split; [done|]. intros i. rewrite Hp.
    destruct (decide (i = slot c)) as [->|Hne]; [do 3 f_equal; lia|].
    rewrite (at_index_set_slot _ _ _ _ _ Hs). by rewrite decide_False.
Qed.

(** A buffer is released by its last write and not before.  After
    [begin_writes c n] succeeded, the first [n] calls of [complete_write c] all
    succeed; before the last one the slot is still owned by the remaining
    writes, after it the slot is free; one more call fails; and no other slot
    is touched. *)
Theorem last_write_frees (pool started : BufferPool) (c : SlotCompletion) (n : Z) (k : nat)
    (Hbegin : begin_writes pool c n = (started, Ok tt))
    (Hcount : fits 16 n) (Hk : Z.of_nat k ≤ n) :
  ∃ pool', complete_writes started c k = Some pool' ∧
    (∀ i, i ≠ slot c → at_index (slots pool') i = at_index (slots pool) i) ∧
    at_index (slots pool') (slot c) =
      Some {| generation := completion_generation c;
              state := if Z.of_nat k =? n then Free else WritePending (n - Z.of_nat k) |} ∧
    (Z.of_nat k = n → complete_write pool' c = (pool', Err InvalidTransition)).
Proof.
  apply with_current_Ok in Hbegin as (s & st & Hs & Hg & Hst & ->).
  case_bool_decide; simplify_eq/=. destruct (Z.eqb_spec n 0); simplify_eq/=.
  unfold fits in Hcount.
  destruct (complete_writes_outstanding c k
    (set_slot pool (slot c) {| generation := generation s; state := WritePending n |}) n)
    as (p & Hp & Hat); [|done|].
  { rewrite (at_index_set_slot _ _ _ _ _ Hs), decide_True, Hg by done.
    unfold outstanding. by destruct (Z.eqb_spec n 0). }
  exists p. split; [done|]. assert (at_index (slots p) (slot c) =
      Some {| generation := completion_generation c;
              state := if Z.of_nat k =? n then Free else WritePending (n - Z.of_nat k) |}) as Hc.
  { rewrite Hat, decide_True by done. unfold outstanding.
    destruct (Z.eqb_spec (n - Z.of_nat k) 0), (Z.eqb_spec (Z.of_nat k) n); done || lia. }
  split; [|split; [done|]].
  - intros i Hi. rewrite Hat, decide_False by done.
    by rewrite (at_index_set_slot _ _ _ _ _ Hs), decide_False.
  - intros Hn. unfold complete_write, with_current, current. rewrite Hc. cbn.
    by rewrite Z.eqb_refl, (proj2 (Z.eqb_eq _ _) Hn).
Qed.

Lemma last_write_frees_witness :
  ∃ started pool',
    begin_writes {| slots := [{| generation := 5; state := Dispatching |}] |}
      {| slot := 0; completion_generation := 5 |} 3 = (started, Ok tt) ∧
    complete_writes started {| slot := 0; completion_generation := 5 |} 3 = Some pool' ∧
    at_index (slots pool') 0 = Some {| generation := 5; state := Free |}.
Proof.
  eexists.
  destruct (last_write_frees {| slots := [{| generation := 5; state := Dispatching |}] |} _
    {| slot := 0; completion_generation := 5 |} 3 3 eq_refl) as (p & Hp & _ & Hs & _);
    [vm_compute; intuition congruence|vm_compute; congruence|].
  exists p. split; [reflexivity|]. split; [exact Hp|exact Hs].
Defined.
