(* ===== verification/Selection.v ===== *)
(** * Feature selection ([wintap-switch-core/src/lib.rs])

    The two pure decisions the switch takes at start: whether every endpoint
    agreed on adaptive polling, and which I/O ring version to create. *)

From S2P Require Import Prelude Words.

Definition ADAPTIVE_INTEREST_READABLE : Z := 1.
Definition ADAPTIVE_INTEREST_WRITABLE : Z := 2.
Definition ADAPTIVE_INTEREST_ALL : Z :=
  Z.lor ADAPTIVE_INTEREST_READABLE ADAPTIVE_INTEREST_WRITABLE.
Definition IO_RING_BASELINE_VERSION : Z := 300.

Inductive AdaptiveEndpointCapability :=
  | Unsupported
  | Incompatible
  | Supported (version accepted_flags : Z).

#[export] Instance AdaptiveEndpointCapability_eq_dec :
  EqDecision AdaptiveEndpointCapability.
Proof. solve_decision. Defined.

Definition select_adaptive_polling (endpoints : list AdaptiveEndpointCapability) :
    option (Z * Z) :=
  first ← head endpoints;
  match first with
  | Supported version accepted_flags =>
      if negb (accepted_flags =? ADAPTIVE_INTEREST_ALL) then None
      else if forallb (λ endpoint,
                match endpoint with
                | Supported endpoint_version endpoint_flags =>
                    (endpoint_version =? version) && (endpoint_flags =? accepted_flags)
                | _ => false
                end) endpoints
      then Some (version, accepted_flags)
      else None
  | _ => None
  end.

Record IoRingCapabilities := {
  maximum_version : Z;
  supports_read : bool;
  supports_write : bool;
  supports_read_scatter : bool;
  supports_write_gather : bool;
}.

Inductive IoRingVersion := V3 | V4.

Inductive IoRingSelectionError :=
  | RequiredOperationsUnavailable
  | UnsupportedVersion.

Definition select_io_ring_version (capabilities : IoRingCapabilities) :
    result IoRingVersion IoRingSelectionError :=
  if negb (supports_read capabilities) || negb (supports_write capabilities)
  then Err RequiredOperationsUnavailable
  else if maximum_version capabilities <? IO_RING_BASELINE_VERSION
  then Err UnsupportedVersion
  else if (400 <=? maximum_version capabilities)
          && supports_read_scatter capabilities
          && supports_write_gather capabilities
  then Ok V4
  else Ok V3.

(** Adaptive polling is chosen exactly by unanimous agreement: the result
    is [Some (v, f)] when there is at least one endpoint, [f] is the full
    interest mask and every endpoint supports version [v] with those flags;
    the order and the multiplicity of the endpoints do not matter. *)
Theorem adaptive_selection_unanimous (endpoints : list AdaptiveEndpointCapability)
    (v f : Z) :
  select_adaptive_polling endpoints = Some (v, f) ↔
  endpoints ≠ [] ∧ f = 3 ∧ Forall (λ e, e = Supported v 3) endpoints.
Proof.
  unfold select_adaptive_polling. change ADAPTIVE_INTEREST_ALL with 3.
  destruct endpoints as [|e rest]; cbn [head mbind option_bind]; [naive_solver|].
  destruct e as [| |v' f']; [split; [done|]; intros (_ & _ & H);
    by apply Forall_cons in H as [[=] _]..|].
  destruct (Z.eqb_spec f' 3) as [->|Hf]; cbn [negb].
  - set (same := λ endpoint, match endpoint with
      Supported ev ef => (ev =? v') && (ef =? 3) | _ => false end).
    assert (∀ e, same e = true ↔ e = Supported v' 3) as Hsame.
    { intros [| |ev ef]; [done..|]. cbn. rewrite andb_true_iff, !Z.eqb_eq. naive_solver. }
    destruct (forallb same _) eqn:Hall; split.
    + intros [= <- <-]. split; [done|]. split; [done|]. apply Forall_forall. intros e He.
      apply Hsame. rewrite forallb_forall in Hall. by apply Hall, list_elem_of_In.
    + intros (_ & -> & H). by apply Forall_cons in H as [[= ->] _].
    + done.
    + intros (_ & -> & H). exfalso. apply not_true_iff_false in Hall. apply Hall.
      pose proof H as H'. apply Forall_cons in H' as [[= <-] _].
      apply forallb_forall. intros e He%list_elem_of_In. apply Hsame.
      by eapply Forall_forall in H.
  - split; [done|]. intros (_ & _ & H). by apply Forall_cons in H as [[=] _].
Qed.

(** The I/O ring version is chosen exactly as documented: the ring is
    refused without both required operations or below version 300, version 4 is
    used exactly when version 400 and both vectored operations are available,
    and version 3 otherwise. *)
Theorem io_ring_selection (c : IoRingCapabilities) :
  (select_io_ring_version c = Ok V4 ↔
     supports_read c = true ∧ supports_write c = true ∧ 400 ≤ maximum_version c ∧
     supports_read_scatter c = true ∧ supports_write_gather c = true) ∧
  (is_ok (select_io_ring_version c) = true ↔
     supports_read c = true ∧ supports_write c = true ∧ 300 ≤ maximum_version c) ∧
  (select_io_ring_version c = Err UnsupportedVersion ↔
     supports_read c = true ∧ supports_write c = true ∧ maximum_version c < 300).
Proof.
  unfold select_io_ring_version, IO_RING_BASELINE_VERSION.
  destruct c as [m r w rs wg]; cbn.
  destruct r, w; cbn; [|naive_solver..].
  destruct (Z.ltb_spec m 300), (Z.leb_spec 400 m), rs, wg; cbn;
    intuition (congruence || lia).
Qed.
