(* ===== verification/FrameQueue.v ===== *)
(** * Frames and the bounded frame queue ([wintap-netadaptercx-driver/src/frame_queue.rs])

    A [Frame] owns one lookaside allocation; a [FrameQueue] is a ring of
    possibly uninitialised frames with a frame limit and a byte limit.  Reading
    an uninitialised slot, a panicking slice, a division by zero and an integer
    overflow are all [None]; the theorems show that none of them happens.  The
    framework's memory calls are a record of functions, [wdf_memory]; the calls
    a function makes are returned as a list.  A frame that goes out of scope is
    returned in the list of dropped frames. *)

From S2P Require Import Prelude Words.

Definition FRAME_MINIMUM : Z := 14.
Definition FRAME_MAXIMUM : Z := 65535.
(** [size_of::<FrameStorage>()]: a [usize] and the bytes, 8-byte aligned. *)
Definition FRAME_STORAGE_SIZE : Z := 65544.

Inductive QueueError := InvalidFrameLength | Full | Closed | InsufficientResources.

#[export] Instance QueueError_eq_dec : EqDecision QueueError.
Proof. solve_decision. Defined.

Inductive QueueState := QOpen | QClosing | QClosed.

#[export] Instance QueueState_eq_dec : EqDecision QueueState.
Proof. solve_decision. Defined.

(** A frame: its memory handle and the [FrameStorage] behind it. *)
Record Frame := { memory : Z; length : Z; data : list Z }.

#[export] Instance Frame_eta : Eta Frame :=
  λ f, Build_Frame (memory f) (length f) (data f).

(** The framework: the status and handle of [WdfMemoryCreateFromLookaside],
    the address and size [WdfMemoryGetBuffer] reports, and the bytes the
    allocation holds before it is written. *)
Record wdf_memory := {
  create_from_lookaside : Z → Z * Z;
  get_buffer : Z → Z * Z;
  stale_bytes : Z → list Z;
}.

Inductive wdf_call :=
  | WdfMemoryCreateFromLookaside (pool : Z)
  | WdfMemoryGetBuffer (memory : Z)
  | WdfObjectDelete (memory : Z).

Definition Frame_new (api : wdf_memory) (pool : Z) :
    list wdf_call * result Frame QueueError :=
  if pool =? 0 then ([], Err Closed)
  else
    let '(status, memory) := create_from_lookaside api pool in
    let created := [WdfMemoryCreateFromLookaside pool] in
    if negb (status =? 0) || (memory =? 0) then (created, Err InsufficientResources)
    else
      let '(storage, size) := get_buffer api memory in
      let queried := created ++ [WdfMemoryGetBuffer memory] in
      if (storage =? 0) || (size <? FRAME_STORAGE_SIZE)
      then (queried ++ [WdfObjectDelete memory], Err InsufficientResources)
      else (queried, Ok {| memory := memory; length := 0; data := stale_bytes api storage |}).

Definition as_bytes (f : Frame) : option (list Z) := slice (data f) 0 (length f).

(** Overwrite the bytes from [offset] on. *)
Definition splice (l : list Z) (offset : Z) (bytes : list Z) : list Z :=
  take (Z.to_nat offset) l ++ bytes ++ drop (Z.to_nat (offset + len bytes)) l.

Definition copy_from_slice (f : Frame) (offset : Z) (bytes : list Z) :
    option (Frame * result unit QueueError) :=
  if (FRAME_MAXIMUM <? offset) || (FRAME_MAXIMUM - offset <? len bytes)
  then Some (f, Err InvalidFrameLength)
  else
    _ ← slice (data f) offset (offset + len bytes);
    Some (f <| data := splice (data f) offset bytes |>, Ok tt).

Definition set_length (f : Frame) (n : Z) : Frame := f <| length := n |>.

(** Dropping a frame: the storage it leaves behind and the calls it makes. *)
Definition Frame_drop (f : Frame) : option (list Z * list wdf_call) :=
  if memory f =? 0 then Some (data f, [])
  else
    _ ← slice (data f) 0 (length f);
    Some (splice (data f) 0 (replicate (Z.to_nat (length f)) 0),
          [WdfObjectDelete (memory f)]).

(** The frame is returned, or dropped where [?] leaves the function. *)
Definition from_bytes (api : wdf_memory) (pool : Z) (bytes : list Z) :
    option (list wdf_call * result Frame QueueError) :=
  if negb ((FRAME_MINIMUM <=? len bytes) && (len bytes <=? FRAME_MAXIMUM))
  then Some ([], Err InvalidFrameLength)
  else
    let '(calls, r) := Frame_new api pool in
    match r with
    | Err e => Some (calls, Err e)
    | Ok frame =>
        copied ← copy_from_slice frame 0 bytes;
        match copied with
        | (frame, Ok _) => Some (calls, Ok (set_length frame (len bytes)))
        | (frame, Err e) => dropped ← Frame_drop frame; Some (calls ++ dropped.2, Err e)
        end
    end.

Record FrameQueue := {
  frames : list (option Frame);
  head : Z;
  qlength : Z;
  limit : Z;
  byte_limit : Z;
  bytes : Z;
  qstate : QueueState;
}.

#[export] Instance FrameQueue_eta : Eta FrameQueue := λ q,
  Build_FrameQueue (frames q) (head q) (qlength q) (limit q) (byte_limit q) (bytes q) (qstate q).

(** [try_reserve_exact] fails above [isize::MAX] bytes (a [Frame] is 16 bytes)
    and when the allocator, [alloc], refuses. *)
Definition FrameQueue_try_new (alloc : Z → bool) (limit byte_limit : Z) :
    result FrameQueue QueueError :=
  if (limit * 16 <? 2 ^ 63) && alloc limit then
    Ok {| frames := replicate (Z.to_nat limit) None; head := 0; qlength := 0;
          limit := limit; byte_limit := byte_limit; bytes := 0; qstate := QOpen |}
  else Err InsufficientResources.

Definition check_capacity (q : FrameQueue) (frame_length : Z) : result unit QueueError :=
  if negb (bool_decide (qstate q = QOpen)) then Err Closed
  else
    let? remaining_bytes := ok_or (checked_sub (byte_limit q) (bytes q)) Full in
    if (limit q <=? qlength q) || (remaining_bytes <? frame_length)
    then Err Full
    else Ok tt.

(** [%] panics on a zero divisor. *)
Definition rem_usize (x y : Z) : option Z := if y =? 0 then None else Some (x mod y).

(** [None] is a panic; the list holds the frames dropped by the call. *)
Definition enqueue (q : FrameQueue) (frame : Frame) :
    option (FrameQueue * result unit QueueError * list Frame) :=
  if negb (bool_decide (qstate q = QOpen)) then Some (q, Err Closed, [frame])
  else
    content ← as_bytes frame;
    let frame_length := len content in
    match check_capacity q frame_length with
    | Err e => Some (q, Err e, [frame])
    | Ok _ =>
        next ← checked_add usize_bits (head q) (qlength q);
        index ← rem_usize next (limit q);
        _ ← at_index (frames q) index;
        length' ← checked_add usize_bits (qlength q) 1;
        bytes' ← checked_add usize_bits (bytes q) frame_length;
        Some (q <| frames := <[Z.to_nat index := Some frame]> (frames q) |>
                <| qlength := length' |> <| bytes := bytes' |>, Ok tt, [])
    end.

(** [assume_init_read] moves the frame out; the slot counts as uninitialised
    afterwards, and reading an uninitialised slot is undefined ([None]). *)
Definition dequeue (q : FrameQueue) : option (FrameQueue * option Frame) :=
  if qlength q =? 0 then Some (q, None)
  else
    cell ← at_index (frames q) (head q);
    frame ← cell;
    next ← checked_add usize_bits (head q) 1;
    head' ← rem_usize next (limit q);
    length' ← checked_sub (qlength q) 1;
    content ← as_bytes frame;
    bytes' ← checked_sub (bytes q) (len content);
    Some (q <| frames := <[Z.to_nat (head q) := None]> (frames q) |>
            <| head := head' |> <| qlength := length' |> <| bytes := bytes' |>,
          Some frame).

(** [while self.dequeue().is_some() {}]; the fuel is the number of iterations
    allowed, and running out of it is [None]. *)
Fixpoint clear_loop (fuel : nat) (q : FrameQueue) : option (FrameQueue * list Frame) :=
  match fuel with
  | O => None
  | S fuel =>
      d ← dequeue q;
      match d with
      | (q', None) => Some (q', [])
      | (q', Some frame) =>
          rest ← clear_loop fuel q';
          Some (rest.1, frame :: rest.2)
      end
  end.

Definition clear_frames (q : FrameQueue) : option (FrameQueue * list Frame) :=
  clear_loop (S (Z.to_nat (qlength q))) q.

Definition begin_close (q : FrameQueue) : FrameQueue :=
  if bool_decide (qstate q = QOpen) then q <| qstate := QClosing |> else q.

Definition close (q : FrameQueue) : option (FrameQueue * list Frame) :=
  cleared ← clear_frames q;
  Some (cleared.1 <| qstate := QClosed |>, cleared.2).

Definition reopen (q : FrameQueue) : option (FrameQueue * list Frame) :=
  cleared ← clear_frames q;
  Some (cleared.1 <| qstate := QOpen |>, cleared.2).

Definition queue_len (q : FrameQueue) : Z := qlength q.
Definition queue_is_empty (q : FrameQueue) : bool := qlength q =? 0.
Definition queue_state (q : FrameQueue) : QueueState := qstate q.

(** Dropping the queue drops what it holds. *)
Definition FrameQueue_drop (q : FrameQueue) : option (list Frame) :=
  snd <$> clear_frames q.

#[global] Arguments as_bytes : simpl never.
#[global] Arguments check_capacity : simpl never.
#[global] Arguments rem_usize : simpl never.

(** ** The abstract specification: a bounded FIFO of frames *)

Record spec_queue := { sq_frames : list Frame; sq_state : QueueState }.

Inductive queue_op :=
  | QEnqueue (frame : Frame)
  | QDequeue
  | QBeginClose
  | QClose
  | QReopen.

(** What a call returns: its answer, the frame it hands out, those it drops. *)
Record queue_out := {
  answer : result unit QueueError;
  handed_out : option Frame;
  dropped : list Frame;
}.

Definition queue_step (q : FrameQueue) (o : queue_op) : option (FrameQueue * queue_out) :=
  match o with
  | QEnqueue f =>
      r ← enqueue q f;
      Some (r.1.1, {| answer := r.1.2; handed_out := None; dropped := r.2 |})
  | QDequeue =>
      r ← dequeue q; Some (r.1, {| answer := Ok tt; handed_out := r.2; dropped := [] |})
  | QBeginClose => Some (begin_close q, {| answer := Ok tt; handed_out := None; dropped := [] |})
  | QClose =>
      r ← close q; Some (r.1, {| answer := Ok tt; handed_out := None; dropped := r.2 |})
  | QReopen =>
      r ← reopen q; Some (r.1, {| answer := Ok tt; handed_out := None; dropped := r.2 |})
  end.

Fixpoint total (fs : list Frame) : Z :=
  match fs with [] => 0 | f :: fs => length f + total fs end.

Definition spec_accepts (limit byte_limit : Z) (s : spec_queue) (f : Frame) : option QueueError :=
  if decide (sq_state s ≠ QOpen) then Some Closed
  else if decide (limit ≤ len (sq_frames s) ∨ byte_limit < total (sq_frames s) + length f)
  then Some Full
  else None.

Definition spec_step (limit byte_limit : Z) (s : spec_queue) (o : queue_op) :
    spec_queue * queue_out :=
  match o with
  | QEnqueue f =>
      match spec_accepts limit byte_limit s f with
      | Some e => (s, {| answer := Err e; handed_out := None; dropped := [f] |})
      | None =>
          ({| sq_frames := sq_frames s ++ [f]; sq_state := sq_state s |},
           {| answer := Ok tt; handed_out := None; dropped := [] |})
      end
  | QDequeue =>
      ({| sq_frames := tail (sq_frames s); sq_state := sq_state s |},
       {| answer := Ok tt; handed_out := list.head (sq_frames s); dropped := [] |})
  | QBeginClose =>
      ({| sq_frames := sq_frames s;
          sq_state := if decide (sq_state s = QOpen) then QClosing else sq_state s |},
       {| answer := Ok tt; handed_out := None; dropped := [] |})
  | QClose =>
      ({| sq_frames := []; sq_state := QClosed |},
       {| answer := Ok tt; handed_out := None; dropped := sq_frames s |})
  | QReopen =>
      ({| sq_frames := []; sq_state := QOpen |},
       {| answer := Ok tt; handed_out := None; dropped := sq_frames s |})
  end.

(** Runs of the code and of the specification. *)
Fixpoint queue_run (q : FrameQueue) (ops : list queue_op) :
    option (FrameQueue * list queue_out) :=
  match ops with
  | [] => Some (q, [])
  | o :: ops =>
      r ← queue_step q o; rest ← queue_run r.1 ops; Some (rest.1, r.2 :: rest.2)
  end.

Fixpoint spec_run (limit byte_limit : Z) (s : spec_queue) (ops : list queue_op) :
    spec_queue * list queue_out :=
  match ops with
  | [] => (s, [])
  | o :: ops =>
      let r := spec_step limit byte_limit s o in
      let rest := spec_run limit byte_limit r.1 ops in
      (rest.1, r.2 :: rest.2)
  end.

(** ** The representation invariant *)

Definition frame_ok (f : Frame) : Prop :=
  0 ≤ length f ≤ FRAME_MAXIMUM ∧ len (data f) = FRAME_MAXIMUM.

(** Cell [k] holds the frame at distance [k - head] from the head, and is
    uninitialised when there is none at that distance. *)
Record repr (q : FrameQueue) (s : spec_queue) : Prop := {
  repr_cells : ∀ k, 0 ≤ k < limit q →
    frames q !! Z.to_nat k = Some (sq_frames s !! Z.to_nat ((k - head q) mod limit q));
  repr_capacity : len (frames q) = limit q;
  repr_head : 0 ≤ head q ∧ (limit q ≠ 0 → head q < limit q);
  repr_length : qlength q = len (sq_frames s) ∧ len (sq_frames s) ≤ limit q;
  repr_bytes : bytes q = total (sq_frames s) ∧ total (sq_frames s) ≤ byte_limit q;
  repr_state : qstate q = sq_state s;
  repr_frames : Forall frame_ok (sq_frames s);
  repr_limits : 0 ≤ limit q < 2 ^ 59 ∧ byte_limit q < 2 ^ 64;
}.

Lemma total_app fs gs : total (fs ++ gs) = total fs + total gs.
Proof. induction fs as [|f fs IH]; cbn; lia. Qed.

Lemma total_nonneg fs : Forall frame_ok fs → 0 ≤ total fs.
Proof. induction 1 as [|f fs [? _] _ IH]; cbn; lia. Qed.

Lemma as_bytes_ok f : frame_ok f → ∃ b, as_bytes f = Some b ∧ len b = length f.
Proof.
  intros [Hl Hd]. unfold as_bytes. rewrite slice_spec by lia.
  eexists. split; [done|]. unfold len in *. rewrite length_take, length_drop. lia.
Qed.

Lemma mod_shift k h n : 0 < n → 0 ≤ (k - h) mod n < n.
Proof. intros. apply Z.mod_pos_bound. lia. Qed.

(** The cell enqueue writes is the one right after the last frame. *)
Lemma tail_distance h l n : 0 ≤ l < n → ((h + l) mod n - h) mod n = l.
Proof.
  intros. rewrite Zminus_mod_idemp_l. replace (h + l - h) with l by lia.
  by apply Z.mod_small.
Qed.

Lemma distance_inj k h l n :
  0 ≤ k < n → 0 ≤ l < n → (k - h) mod n = l → k = (h + l) mod n.
Proof.
  intros Hk Hl <-. rewrite Zplus_mod_idemp_r. replace (h + (k - h)) with k by lia.
  symmetry. by apply Z.mod_small.
Qed.

(** Moving the head by one brings every cell one closer, cyclically. *)
Lemma distance_succ k h n :
  0 < n → (k - (h + 1) mod n) mod n = if decide ((k - h) mod n = 0) then n - 1 else (k - h) mod n - 1.
Proof.
  intros Hn. rewrite Zminus_mod_idemp_r. replace (k - (h + 1)) with (k - h - 1) by lia.
  rewrite <- Zminus_mod_idemp_l. pose proof (mod_shift k h n Hn).
  case_decide as H0.
  - rewrite H0. symmetry. apply Zmod_unique with (-1); [lia|ring].
  - apply Z.mod_small. lia.
Qed.

(** ** Each operation implements its specification *)

Lemma check_capacity_spec q s f :
  repr q s → frame_ok f →
  check_capacity q (length f) =
    match spec_accepts (limit q) (byte_limit q) s f with Some e => Err e | None => Ok tt end.
Proof.
  intros Hr [Hf _]. pose proof (repr_length _ _ Hr) as [Hl Hl'].
  pose proof (repr_bytes _ _ Hr) as [Hb Hb'].
  unfold check_capacity, spec_accepts. rewrite (repr_state _ _ Hr), Hl, Hb.
  case_bool_decide; cbn; [rewrite decide_False by tauto|by rewrite decide_True].
  unfold checked_sub. rewrite (proj2 (Z.ltb_ge _ _)) by lia. cbn.
  case_decide as Hd.
  - rewrite (proj2 (orb_true_iff _ _)); [done|]. rewrite Z.leb_le, Z.ltb_lt. lia.
  - rewrite (proj2 (orb_false_iff _ _)); [done|]. rewrite Z.leb_gt, Z.ltb_ge. lia.
Qed.

(** The cells after writing the one behind the last frame. *)
Lemma repr_push q s f :
  repr q s → frame_ok f → len (sq_frames s) < limit q →
  total (sq_frames s) + length f ≤ byte_limit q →
  repr (q <| frames := <[Z.to_nat ((head q + qlength q) mod limit q) := Some f]> (frames q) |>
          <| qlength := qlength q + 1 |> <| bytes := bytes q + length f |>)
       {| sq_frames := sq_frames s ++ [f]; sq_state := sq_state s |}.
Proof.
  intros Hr Hf Hroom Hbytes. destruct Hr as [Hc Hcap Hh [Hl Hl'] [Hb Hb'] Hst Hfs Hlim].
  pose proof (len_nonneg (sq_frames s)) as Hn.
  rewrite Hl, Hb. set (n := len (sq_frames s)) in *.
  assert (0 ≤ (head q + n) mod limit q < limit q) as Hidx by (apply Z.mod_pos_bound; lia).
  constructor; cbn; rewrite ?len_app, ?total_app; try done; try (cbn; lia).
  - intros k Hk. destruct (decide (k = (head q + n) mod limit q)) as [->|Hne].
    + rewrite list_lookup_insert_eq by (unfold len in Hcap; lia). f_equal.
      rewrite tail_distance by lia. unfold n, len.
      rewrite Nat2Z.id. by rewrite list_lookup_middle.
    + rewrite list_lookup_insert_ne by lia. rewrite Hc by done. f_equal.
      assert ((k - head q) mod limit q ≠ n) as Hd.
      { intros Heq. apply Hne. apply distance_inj; lia || done. }
      pose proof (mod_shift k (head q) (limit q)).
      destruct (decide ((k - head q) mod limit q < n)) as [Hlt|Hge].
      * by rewrite lookup_app_l by (unfold n, len in *; lia).
      * rewrite !lookup_ge_None_2; [done|..]; rewrite ?length_app; unfold n, len in *; cbn; lia.
  - unfold len in *. by rewrite length_insert.
  - change (len [f]) with 1. lia.
  - rewrite Forall_app, Forall_singleton. done.
Qed.

Lemma enqueue_spec q s f :
  repr q s → frame_ok f →
  ∃ q', enqueue q f =
    Some (q', match spec_accepts (limit q) (byte_limit q) s f with Some e => Err e | None => Ok tt end,
          match spec_accepts (limit q) (byte_limit q) s f with Some _ => [f] | None => [] end) ∧
    repr q' (spec_step (limit q) (byte_limit q) s (QEnqueue f)).1 ∧
    limit q' = limit q ∧ byte_limit q' = byte_limit q.
Proof.
  intros Hr Hf. cbn [spec_step]. pose proof (check_capacity_spec q s f Hr Hf) as Hcheck.
  destruct (as_bytes_ok f Hf) as (b & Hb & Hlen).
  unfold enqueue. destruct (bool_decide (qstate q = QOpen)) eqn:Hst; bool_reflect; cbn [negb].
  - rewrite Hb. cbn [mbind option_bind]. rewrite Hlen, Hcheck.
    destruct (spec_accepts _ _ s f) as [e|] eqn:Hacc; [by exists q|].
    unfold spec_accepts in Hacc. rewrite (repr_state _ _ Hr) in Hst.
    rewrite decide_False in Hacc by tauto. case_decide as Hfull; [done|].
    pose proof (repr_length _ _ Hr) as [Hl Hl']. pose proof (repr_bytes _ _ Hr) as [Hbs Hbs'].
    pose proof (repr_limits _ _ Hr) as [Hlim Hblim]. pose proof (repr_head _ _ Hr) as Hh.
    pose proof (repr_capacity _ _ Hr) as Hcap. pose proof (len_nonneg (sq_frames s)).
    destruct Hf as [Hf1 Hf2]. pose proof (total_nonneg _ (repr_frames _ _ Hr)).
    unfold checked_add, rem_usize, usize_bits.
    rewrite (proj2 (Z.ltb_lt (head q + qlength q) _)) by lia. cbn [mbind option_bind].
    rewrite (proj2 (Z.eqb_neq (limit q) 0)) by lia. cbn [mbind option_bind].
    destruct (at_index_is_Some (frames q) ((head q + qlength q) mod limit q)) as [c ->].
    { rewrite Hcap. apply Z.mod_pos_bound. lia. }
    cbn [mbind option_bind].
    rewrite (proj2 (Z.ltb_lt (qlength q + 1) _)) by lia. cbn [mbind option_bind].
    rewrite (proj2 (Z.ltb_lt (bytes q + length f) _)) by lia. cbn [mbind option_bind].
    eexists. split; [done|]. split; [|done]. apply repr_push; [done|by split|lia..].
  - rewrite (repr_state _ _ Hr) in Hst.
    assert (spec_accepts (limit q) (byte_limit q) s f = Some Closed) as ->.
    { unfold spec_accepts. by rewrite decide_True. }
    by exists q.
Qed.

Lemma repr_pop q s f fs :
  repr q s → sq_frames s = f :: fs →
  repr (q <| frames := <[Z.to_nat (head q) := None]> (frames q) |>
          <| head := (head q + 1) mod limit q |>
          <| qlength := qlength q - 1 |> <| bytes := bytes q - length f |>)
       {| sq_frames := fs; sq_state := sq_state s |}.
Proof.
  intros [Hc Hcap Hh [Hl Hl'] [Hb Hb'] Hst Hfs Hlim] Heq. rewrite Heq in *.
  rewrite len_cons in *. pose proof (len_nonneg fs) as Hn. cbn [total] in *.
  apply Forall_cons in Hfs as [Hf Hfs]. pose proof (proj1 Hf).
  constructor; cbn; rewrite ?Hl, ?Hb; try done; try lia.
  - intros k Hk. rewrite distance_succ by lia.
    pose proof (mod_shift k (head q) (limit q)) as Hs.
    case_decide as H0.
    + assert (k = head q) as ->.
      { rewrite (distance_inj k (head q) 0 (limit q)) by (done || lia).
        rewrite Z.add_0_r. apply Z.mod_small. lia. }
      rewrite list_lookup_insert_eq by (unfold len in Hcap; lia). f_equal.
      symmetry. apply lookup_ge_None_2. unfold len in *. lia.
    + rewrite list_lookup_insert_ne.
      * rewrite Hc by done. f_equal.
        replace (Z.to_nat ((k - head q) mod limit q))
          with (S (Z.to_nat ((k - head q) mod limit q - 1))) by lia.
        done.
      * intros Hk'. apply H0. replace (k - head q) with 0 by lia. apply Z.mod_0_l. lia.
  - unfold len in *. by rewrite length_insert.
  - split; [apply Z.mod_pos_bound; lia|]. intros _. apply Z.mod_pos_bound. lia.
Qed.

Lemma dequeue_spec q s :
  repr q s →
  ∃ q', dequeue q = Some (q', list.head (sq_frames s)) ∧
    repr q' {| sq_frames := tail (sq_frames s); sq_state := sq_state s |} ∧
    limit q' = limit q ∧ byte_limit q' = byte_limit q ∧
    qlength q' = Z.max 0 (qlength q - 1).
Proof.
  intros Hr. pose proof (repr_length _ _ Hr) as [Hl Hl']. unfold dequeue.
  destruct (sq_frames s) as [|f fs] eqn:Hfs.
  - rewrite Hl. cbn. exists q. split; [done|]. split; [|split_and!; try done; rewrite Hl; done].
    destruct s as [sf ss]; cbn in *; by subst.
  - rewrite len_cons in *. pose proof (len_nonneg fs) as Hn.
    pose proof (repr_limits _ _ Hr) as [Hlim _]. pose proof (repr_head _ _ Hr) as Hh.
    rewrite (proj2 (Z.eqb_neq (qlength q) 0)) by lia.
    rewrite at_index_lookup, (repr_cells _ _ Hr), Hfs by lia.
    rewrite Z.sub_diag, Z.mod_0_l by lia. cbn [mbind option_bind].
    change ((f :: fs) !! Z.to_nat 0) with (Some f). cbn [mbind option_bind].
    unfold checked_add, checked_sub, rem_usize, usize_bits.
    rewrite (proj2 (Z.ltb_lt (head q + 1) _)) by lia. cbn [mbind option_bind].
    rewrite (proj2 (Z.eqb_neq (limit q) 0)) by lia. cbn [mbind option_bind].
    rewrite (proj2 (Z.ltb_ge (qlength q) 1)) by lia. cbn [mbind option_bind].
    pose proof (repr_frames _ _ Hr) as Hok. pose proof (repr_bytes _ _ Hr) as [Hb _].
    rewrite Hfs in Hok, Hb. apply Forall_cons in Hok as [Hf Hok].
    destruct (as_bytes_ok f Hf) as (b & Hb1 & Hb2). rewrite Hb1.
    cbn [mbind option_bind]. rewrite Hb2.
    pose proof (total_nonneg fs Hok). cbn [total] in Hb.
    rewrite (proj2 (Z.ltb_ge (bytes q) (length f))) by lia. cbn [mbind option_bind].
    eexists. split; [done|]. split; [by apply repr_pop|]. cbn. lia.
Qed.

Lemma clear_loop_spec fuel : ∀ q s,
  repr q s → qlength q < Z.of_nat fuel →
  ∃ q', clear_loop fuel q = Some (q', sq_frames s) ∧
    repr q' {| sq_frames := []; sq_state := sq_state s |} ∧
    limit q' = limit q ∧ byte_limit q' = byte_limit q.
Proof.
  induction fuel as [|fuel IH]; intros q s Hr Hfuel.
  - pose proof (repr_length _ _ Hr) as [Hl _]. pose proof (len_nonneg (sq_frames s)). lia.
  - cbn [clear_loop]. destruct (dequeue_spec q s Hr) as (q1 & -> & Hr1 & Hl1 & Hb1 & Hlen).
    cbn [mbind option_bind]. destruct (sq_frames s) as [|f fs] eqn:Hfs; cbn in Hr1 |- *.
    + by exists q1.
    + pose proof (repr_length _ _ Hr) as [Hl _]. rewrite Hfs, len_cons in Hl.
      pose proof (len_nonneg fs).
      destruct (IH q1 _ Hr1) as (q2 & -> & Hr2 & Hl2 & Hb2); [lia|].
      cbn. exists q2. split; [done|]. split; [done|]. by rewrite Hl2, Hb2.
Qed.

Lemma clear_frames_spec q s :
  repr q s →
  ∃ q', clear_frames q = Some (q', sq_frames s) ∧
    repr q' {| sq_frames := []; sq_state := sq_state s |} ∧
    limit q' = limit q ∧ byte_limit q' = byte_limit q.
Proof.
  intros Hr. pose proof (repr_length _ _ Hr) as [Hl _].
  pose proof (len_nonneg (sq_frames s)). apply clear_loop_spec; [done|lia].
Qed.

Lemma repr_set_state q s st :
  repr q s → repr (q <| qstate := st |>) {| sq_frames := sq_frames s; sq_state := st |}.
Proof. intros [???????]. by constructor. Qed.

Definition op_frames_ok (o : queue_op) : Prop :=
  match o with QEnqueue f => frame_ok f | _ => True end.

(** One call of the code is one step of the specification. *)
Lemma queue_step_spec q s o :
  repr q s → op_frames_ok o →
  ∃ q', queue_step q o = Some (q', (spec_step (limit q) (byte_limit q) s o).2) ∧
    repr q' (spec_step (limit q) (byte_limit q) s o).1 ∧
    limit q' = limit q ∧ byte_limit q' = byte_limit q.
Proof.
  intros Hr Hf. destruct o as [f| | | |]; cbn [queue_step].
  - destruct (enqueue_spec q s f Hr Hf) as (q' & -> & Hr' & ? & ?). cbn in *.
    exists q'. destruct (spec_accepts _ _ s f); done.
  - destruct (dequeue_spec q s Hr) as (q' & -> & ? & ? & ? & _). by exists q'.
  - eexists. split; [done|]. cbn. unfold begin_close. rewrite (repr_state _ _ Hr).
    case_bool_decide as Hs; [rewrite decide_True by done|rewrite decide_False by done].
    + split; [by apply repr_set_state|done].
    + split; [|done]. by destruct s.
  - destruct (clear_frames_spec q s Hr) as (q' & Hc & Hr' & Hl & Hb). unfold close.
    rewrite Hc. eexists. split; [done|]. split; [|done].
    by apply (repr_set_state q' _ QClosed Hr').
  - destruct (clear_frames_spec q s Hr) as (q' & Hc & Hr' & Hl & Hb). unfold reopen.
    rewrite Hc. eexists. split; [done|]. split; [|done].
    by apply (repr_set_state q' _ QOpen Hr').
Qed.

Lemma queue_run_spec ops : ∀ q s,
  repr q s → Forall op_frames_ok ops →
  ∃ q', queue_run q ops = Some (q', (spec_run (limit q) (byte_limit q) s ops).2) ∧
    repr q' (spec_run (limit q) (byte_limit q) s ops).1 ∧
    limit q' = limit q ∧ byte_limit q' = byte_limit q.
Proof.
  induction ops as [|o ops IH]; intros q s Hr Hok; [by exists q|].
  apply Forall_cons in Hok as [Ho Hok]. cbn.
  destruct (queue_step_spec q s o Hr Ho) as (q1 & -> & Hr1 & Hl & Hb). cbn.
  destruct (IH q1 _ Hr1 Hok) as (q2 & -> & Hr2 & Hl2 & Hb2).
  rewrite Hl, Hb in *. by exists q2.
Qed.

Lemma try_new_repr alloc lim blim q :
  FrameQueue_try_new alloc lim blim = Ok q → 0 ≤ lim → 0 ≤ blim < 2 ^ 64 →
  repr q {| sq_frames := []; sq_state := QOpen |} ∧ limit q = lim ∧ byte_limit q = blim.
Proof.
  unfold FrameQueue_try_new. intros H Hlim Hblim. split_if_in H; [|done].
  bool_reflect. injection H as <-. split; [|done].
  constructor; cbn; try done; try lia.
  - intros k Hk. by rewrite lookup_replicate_2 by lia.
  - unfold len. rewrite length_replicate. lia.
Qed.

(** C28: the frame queue is a bounded FIFO.  Starting from a new queue, every
    sequence of enqueues, dequeues, closes and reopens runs without a panic, an
    overflow, an uninitialised read or an endless loop, and every call returns
    exactly what the specification returns: [Closed] unless open, [Full] exactly
    when the frame limit or the byte limit would be exceeded, frames handed out
    in order, everything held dropped once on close and reopen. *)
Theorem queue_refines_fifo (alloc : Z → bool) (lim blim : Z) (q : FrameQueue)
    (ops : list queue_op)
    (Hnew : FrameQueue_try_new alloc lim blim = Ok q)
    (Hlim : 0 ≤ lim) (Hblim : 0 ≤ blim < 2 ^ 64) (Hok : Forall op_frames_ok ops) :
  ∃ q', queue_run q ops =
    Some (q', (spec_run lim blim {| sq_frames := []; sq_state := QOpen |} ops).2).
Proof.
  destruct (try_new_repr _ _ _ _ Hnew Hlim Hblim) as (Hr & Hl & Hb).
  destruct (queue_run_spec ops q _ Hr Hok) as (q' & Hrun & _).
  rewrite Hl, Hb in Hrun. by exists q'.
Qed.

(** Small frames for the witnesses. *)
Definition example_frame (n : Z) : Frame :=
  {| memory := n; length := 14; data := replicate (Z.to_nat FRAME_MAXIMUM) n |}.

Lemma example_frame_ok n : frame_ok (example_frame n).
Proof.
  split; [done|]. unfold len, example_frame, data. rewrite length_replicate. done.
Qed.

Lemma queue_refines_fifo_witness :
  ∃ q q' out,
    FrameQueue_try_new (λ _, true) 2 100 = Ok q ∧
    queue_run q [QEnqueue (example_frame 1); QEnqueue (example_frame 2);
                 QEnqueue (example_frame 3); QDequeue; QClose] = Some (q', out) ∧
    handed_out <$> out !! 3%nat = Some (Some (example_frame 1)).
Proof.
  eexists.
  destruct (queue_refines_fifo (λ _, true) 2 100 _
    [QEnqueue (example_frame 1); QEnqueue (example_frame 2);
     QEnqueue (example_frame 3); QDequeue; QClose] eq_refl) as [q' Hq'];
    [lia|lia|repeat constructor; apply example_frame_ok|].
  exists q'. eexists. split; [reflexivity|]. split; [exact Hq'|reflexivity].
Defined.

(** ** Conservation of frames *)

(** The frames a run accepted, and those it gave back, in order. *)
Definition accepted_by (o : queue_op) (out : queue_out) : list Frame :=
  match o with QEnqueue f => if is_ok (answer out) then [f] else [] | _ => [] end.

Definition released_by (o : queue_op) (out : queue_out) : list Frame :=
  match o with
  | QEnqueue _ => []
  | _ => option_list (handed_out out) ++ dropped out
  end.

Fixpoint accepted (ops : list queue_op) (outs : list queue_out) : list Frame :=
  match ops, outs with
  | o :: ops, out :: outs => accepted_by o out ++ accepted ops outs
  | _, _ => []
  end.

Fixpoint released (ops : list queue_op) (outs : list queue_out) : list Frame :=
  match ops, outs with
  | o :: ops, out :: outs => released_by o out ++ released ops outs
  | _, _ => []
  end.

Lemma spec_step_conserves lim blim s o :
  sq_frames s ++ accepted_by o (spec_step lim blim s o).2 =
  released_by o (spec_step lim blim s o).2 ++ sq_frames (spec_step lim blim s o).1.
Proof.
  destruct o as [f| | | |]; cbn.
  - destruct (spec_accepts lim blim s f); cbn; by rewrite ?app_nil_r.
  - rewrite app_nil_r. by destruct (sq_frames s).
  - by rewrite app_nil_r.
  - by rewrite !app_nil_r.
  - by rewrite !app_nil_r.
Qed.

Lemma spec_run_conserves lim blim ops : ∀ s,
  sq_frames s ++ accepted ops (spec_run lim blim s ops).2 =
  released ops (spec_run lim blim s ops).2 ++ sq_frames (spec_run lim blim s ops).1.
Proof.
  induction ops as [|o ops IH]; intros s; cbn; [by rewrite app_nil_r|].
  rewrite app_assoc, spec_step_conserves, <- !app_assoc. by rewrite IH.
Qed.

(** No accepted frame is lost, duplicated or reordered, across closing and
    reopening: at every point of every run the frames released so far, in order
    of release, followed by what a final close drops, are exactly the accepted
    frames in order of acceptance; and the queue never holds more than its frame
    limit nor more bytes than its byte limit. *)
Theorem frames_conserved (alloc : Z → bool) (lim blim : Z) (q q' : FrameQueue)
    (ops : list queue_op) (outs : list queue_out)
    (Hnew : FrameQueue_try_new alloc lim blim = Ok q)
    (Hlim : 0 ≤ lim) (Hblim : 0 ≤ blim < 2 ^ 64) (Hok : Forall op_frames_ok ops)
    (Hrun : queue_run q ops = Some (q', outs)) :
  ∃ held, FrameQueue_drop q' = Some held ∧
    accepted ops outs = released ops outs ++ held ∧
    queue_len q' = len held ∧ len held ≤ lim ∧ bytes q' = total held ∧ total held ≤ blim.
Proof.
  destruct (try_new_repr _ _ _ _ Hnew Hlim Hblim) as (Hr & Hl & Hb).
  destruct (queue_run_spec ops q _ Hr Hok) as (q1 & Hrun' & Hr' & Hl' & Hb').
  rewrite Hrun in Hrun'. injection Hrun' as <- ->. rewrite Hl, Hb in *.
  set (s' := (spec_run lim blim _ ops).1) in *.
  destruct (clear_frames_spec q' s' Hr') as (q2 & Hclear & _).
  exists (sq_frames s'). unfold FrameQueue_drop. rewrite Hclear.
  split; [done|]. split; [apply (spec_run_conserves lim blim ops {| sq_frames := []; sq_state := QOpen |})|].
  destruct (repr_length _ _ Hr') as [? ?]. destruct (repr_bytes _ _ Hr') as [? ?].
  rewrite Hl', Hb' in *. done.
Qed.

Definition example_queue : FrameQueue :=
  {| frames := [None; None]; head := 0; qlength := 0; limit := 2; byte_limit := 100;
     bytes := 0; qstate := QOpen |}.

Definition example_ops : list queue_op :=
  [QEnqueue (example_frame 1); QEnqueue (example_frame 2); QDequeue].

Lemma frames_conserved_witness :
  ∃ q' outs held,
    queue_run example_queue example_ops = Some (q', outs) ∧
    FrameQueue_drop q' = Some held ∧ accepted example_ops outs = released example_ops outs ++ held.
Proof.
  assert (Forall op_frames_ok example_ops) as Hok
    by (repeat constructor; apply example_frame_ok).
  destruct (try_new_repr (λ _, true) 2 100 example_queue eq_refl) as [Hr _]; [lia|lia|].
  destruct (queue_run_spec example_ops example_queue _ Hr Hok) as (q' & Hrun & _).
  set (outs := snd _) in Hrun.
  destruct (frames_conserved (λ _, true) 2 100 example_queue q' example_ops outs)
    as (held & Hdrop & Heq & _);
    [reflexivity|lia|lia|exact Hok|exact Hrun|].
  exists q', outs, held. split; [exact Hrun|]. split; [exact Hdrop|exact Heq].
Defined.

(** ** The life of one frame *)

(** The documented behaviour of the lookaside memory: a buffer reported large
    enough holds a whole [FrameStorage]. *)
Definition buffers_are_whole (api : wdf_memory) : Prop :=
  ∀ memory storage size, get_buffer api memory = (storage, size) →
    FRAME_STORAGE_SIZE ≤ size → len (stale_bytes api storage) = FRAME_MAXIMUM.

Lemma len_splice (l : list Z) offset (b : list Z) :
  0 ≤ offset → offset + len b ≤ len l → len (splice l offset b) = len l.
Proof.
  intros. unfold splice. rewrite !len_app. unfold len in *.
  rewrite length_take, length_drop. lia.
Qed.

Lemma slice_splice (l b : list Z) :
  len b ≤ len l → slice (splice l 0 b) 0 (len b) = Some b.
Proof.
  intros. pose proof (len_nonneg b). rewrite slice_spec by (rewrite ?len_splice; lia).
  unfold splice. rewrite Z.sub_0_r. unfold len at 1. rewrite Nat2Z.id.
  change (Z.to_nat 0) with 0%nat. rewrite drop_0, take_0, app_nil_l.
  by rewrite take_app_length.
Qed.

Lemma Frame_new_Ok api pool calls f :
  Frame_new api pool = (calls, Ok f) →
  buffers_are_whole api →
  create_from_lookaside api pool = (0, memory f) ∧ memory f ≠ 0 ∧
  calls = [WdfMemoryCreateFromLookaside pool; WdfMemoryGetBuffer (memory f)] ∧
  length f = 0 ∧ len (data f) = FRAME_MAXIMUM.
Proof.
  unfold Frame_new. intros H Hwhole. split_if_in H; [done|].
  destruct (create_from_lookaside api pool) as [st m] eqn:Hc.
  split_if_in H; [done|]. destruct (get_buffer api m) as [p sz] eqn:Hg.
  split_if_in H; [done|]. injection H as <- <-. bool_reflect. cbn. subst.
  split_and!; try done. by eapply Hwhole.
Qed.

(** A received frame is copied exactly and never leaks.  For data of legal
    length, [from_bytes] either fails after having deleted any memory it
    created, or returns a frame whose bytes are the data and whose single
    memory object is still alive; dropping that frame overwrites the data with
    zeros and deletes the memory once.  Nothing panics. *)
Theorem frame_from_bytes_round_trip (api : wdf_memory) (pool : Z) (input : list Z)
    (Hwhole : buffers_are_whole api)
    (Hlen : FRAME_MINIMUM ≤ len input ≤ FRAME_MAXIMUM) :
  ∃ calls r, from_bytes api pool input = Some (calls, r) ∧
    match r with
    | Ok f =>
        as_bytes f = Some input ∧ frame_ok f ∧
        create_from_lookaside api pool = (0, memory f) ∧
        calls = [WdfMemoryCreateFromLookaside pool; WdfMemoryGetBuffer (memory f)] ∧
        ∃ storage, Frame_drop f = Some (storage, [WdfObjectDelete (memory f)]) ∧
          take (List.length input) storage = replicate (List.length input) 0
    | Err e =>
        e ≠ InvalidFrameLength ∧
        ∀ m, m ≠ 0 → create_from_lookaside api pool = (0, m) → pool ≠ 0 →
          WdfObjectDelete m ∈ calls
    end.
Proof.
  unfold from_bytes. rewrite (proj2 (andb_true_iff _ _)) by (rewrite !Z.leb_le; lia).
  cbn [negb]. destruct (Frame_new api pool) as [calls [f|e]] eqn:Hnew.
  - destruct (Frame_new_Ok _ _ _ _ Hnew Hwhole) as (Hc & Hm & Hcalls & Hl0 & Hd).
    unfold FRAME_MINIMUM, FRAME_MAXIMUM in *. unfold copy_from_slice.
    rewrite (proj2 (orb_false_iff _ _)) by (rewrite !Z.ltb_ge; unfold FRAME_MAXIMUM; lia).
    rewrite slice_spec by lia. cbn [mbind option_bind].
    eexists _, _. split; [done|]. cbn.
    assert (as_bytes (set_length (f <| data := splice (data f) 0 input |>) (len input))
            = Some input) as Hbytes by (unfold as_bytes; cbn; apply slice_splice; lia).
    split; [done|]. split; [|split; [done|split; [done|]]].
    { split; cbn; [unfold FRAME_MAXIMUM; lia|]. rewrite len_splice by lia. done. }
    unfold Frame_drop. unfold as_bytes in Hbytes. rewrite Hbytes. cbn.
    rewrite (proj2 (Z.eqb_neq _ 0)) by done. eexists. split; [done|].
    unfold len. rewrite Nat2Z.id. unfold splice at 1.
    change (Z.to_nat 0) with 0%nat. rewrite take_0, app_nil_l.
    by rewrite take_app_length' by (by rewrite length_replicate).
  - eexists _, _. split; [done|]. cbn. unfold Frame_new in Hnew.
    destruct (Z.eqb_spec pool 0) as [->|Hp]; [by injection Hnew as <- <-|].
    destruct (create_from_lookaside api pool) as [st m] eqn:Hc.
    destruct (negb (st =? 0) || (m =? 0)) eqn:Hbad.
    + injection Hnew as <- <-. split; [done|]. intros m' Hm' [= -> ->] _.
      bool_reflect. destruct Hbad; bool_reflect; done.
    + destruct (get_buffer api m) as [p sz]. split_if_in Hnew; [|done].
      injection Hnew as <- <-. split; [done|]. intros m' _ [= _ ->] _. set_solver.
Qed.

Definition example_api : wdf_memory := {|
  create_from_lookaside := λ _, (0, 7);
  get_buffer := λ _, (4096, FRAME_STORAGE_SIZE);
  stale_bytes := λ _, replicate (Z.to_nat FRAME_MAXIMUM) 0xcc;
|}.

Lemma frame_from_bytes_round_trip_witness :
  ∃ calls f, from_bytes example_api 1 (replicate 14 9) = Some (calls, Ok f) ∧
    as_bytes f = Some (replicate 14 9).
Proof.
  destruct (frame_from_bytes_round_trip example_api 1 (replicate 14 9))
    as (calls & r & Hr & Hout).
  - intros m p size [= <- <-] _. unfold len, example_api, stale_bytes.
    rewrite length_replicate. reflexivity.
  - vm_compute. split; congruence.
  - destruct r as [f|e].
    + exists calls, f. split; [exact Hr|exact (proj1 Hout)].
    + exfalso.
      assert (match from_bytes example_api 1 (replicate 14 9) with Some (_, Ok _) => true | _ => false end = true)
        as Hok by (vm_compute; reflexivity).
      rewrite Hr in Hok. discriminate.
Defined.
