(* ===== verification/Ring.v ===== *)
(** * Net ring indexing ([wintap-netadaptercx-driver/src/ring.rs])

    The driver walks the packet and fragment rings that NetAdapterCx shares with
    it: index arithmetic modulo the ring size through a mask, and the address
    computation of ring elements and extensions.  A ring is the fields the code
    reads, as 32-bit (stride: 16-bit) words; addresses are numbers. *)

From S2P Require Import Prelude Words.

Record NET_RING := {
  ElementStride : Z;
  NumberOfElements : Z;
  ElementIndexMask : Z;
  BeginIndex : Z;
  EndIndex : Z;
  Buffer : Z;
}.

Record NET_EXTENSION := {
  Enabled : Z;
  Reserved0 : Z;
  Reserved1 : Z;
}.

Definition PACKET_RING_INDEX : Z := 0.
Definition FRAGMENT_RING_INDEX : Z := 1.

Definition ring_is_valid (ring : NET_RING) : bool :=
  negb (NumberOfElements ring =? 0)
  && (ElementIndexMask ring =? NumberOfElements ring - 1)
  && negb (ElementStride ring =? 0).

Definition index_in_mask (ring : NET_RING) (index : Z) : bool :=
  Z.land index (not_w 32 (ElementIndexMask ring)) =? 0.

(** The outer [option]: the [u32] addition overflows. *)
Definition increment_index (ring : NET_RING) (index : Z) : option (option Z) :=
  if negb (ring_is_valid ring) || negb (index_in_mask ring index)
  then Some None
  else next ← checked_add 32 index 1; Some (Some (Z.land next (ElementIndexMask ring))).

Definition advance_index (ring : NET_RING) (index count : Z) : option Z :=
  if negb (ring_is_valid ring) || negb (index_in_mask ring index)
  then None
  else Some (Z.land (wrap 32 (index + count)) (ElementIndexMask ring)).

(** [ring] is [None] for a null pointer. *)
Definition element_at (ring : option NET_RING) (index minimum_size : Z) : option Z :=
  ring ← ring;
  if negb (ring_is_valid ring)
     || (ElementStride ring <? minimum_size)
     || negb (index_in_mask ring index)
  then None
  else
    let slot := Z.land index (ElementIndexMask ring) in
    offset ← checked_mul usize_bits slot (ElementStride ring);
    Some (Buffer ring + offset).

Definition packet_at (size_of_NET_PACKET : Z) (ring : option NET_RING) (index : Z) :=
  element_at ring index size_of_NET_PACKET.

Definition fragment_at (size_of_NET_FRAGMENT : Z) (ring : option NET_RING) (index : Z) :=
  element_at ring index size_of_NET_FRAGMENT.

Definition fragment_virtual_address (extension : NET_EXTENSION) (index : Z) : option Z :=
  if Enabled extension =? 0 then None
  else if Reserved0 extension =? 0 then None
  else
    offset ← checked_mul usize_bits index (Reserved1 extension);
    Some (Reserved0 extension + offset).

(** ** Helper lemmas *)

(** The words of a ring header. *)
Definition ring_words (ring : NET_RING) : Prop :=
  fits 16 (ElementStride ring) ∧ fits 32 (NumberOfElements ring) ∧
  fits 32 (ElementIndexMask ring).

Lemma ring_valid_spec ring :
  ring_is_valid ring = true ↔
  NumberOfElements ring ≠ 0 ∧ ElementIndexMask ring = NumberOfElements ring - 1 ∧
  ElementStride ring ≠ 0.
Proof.
  unfold ring_is_valid. rewrite !andb_true_iff, !negb_true_iff, !Z.eqb_neq, Z.eqb_eq. tauto.
Qed.

(** An index without bits outside the mask is at most the mask. *)
Lemma index_in_mask_le ring index :
  ring_words ring → fits 32 index → index_in_mask ring index = true →
  index = Z.land index (ElementIndexMask ring) ∧ index ≤ ElementIndexMask ring.
Proof.
  intros (_ & _ & Hm) Hi H. unfold index_in_mask in H. bool_reflect.
  apply land_not_w_0 in H; [|lia|done|done]. split; [done|].
  rewrite <- H. unfold fits in Hi, Hm. apply land_le_r; lia.
Qed.

Lemma index_in_mask_pow2 ring index k :
  ring_words ring → NumberOfElements ring = 2 ^ k → 0 ≤ k →
  ElementIndexMask ring = NumberOfElements ring - 1 →
  0 ≤ index < NumberOfElements ring → index_in_mask ring index = true.
Proof.
  intros (_ & Hn & Hm) Hpow Hk Hmask Hi. unfold index_in_mask. apply Z.eqb_eq.
  unfold fits in Hn. apply land_not_w_0; [lia|unfold fits; lia|done|].
  rewrite Hmask, Hpow, Z.sub_1_r, <- Z.ones_equiv.
  apply land_ones_low; [done|]. unfold fits. lia.
Qed.

Lemma land_mask_pow2 ring x k :
  NumberOfElements ring = 2 ^ k → 0 ≤ k →
  ElementIndexMask ring = NumberOfElements ring - 1 →
  Z.land x (ElementIndexMask ring) = x mod NumberOfElements ring.
Proof.
  intros Hpow Hk Hmask. rewrite Hmask, Hpow, Z.sub_1_r, <- Z.ones_equiv.
  by rewrite Z.land_ones.
Qed.

(** The address of an element, and when there is none. *)
Lemma element_at_value (ring : NET_RING) (index minimum_size : Z) :
  ring_words ring → fits 32 index →
  element_at (Some ring) index minimum_size =
    (if ring_is_valid ring && (minimum_size <=? ElementStride ring) && index_in_mask ring index
     then Some (Buffer ring + index * ElementStride ring) else None).
Proof.
  intros Hwords Hindex.
  unfold element_at. cbn [mbind option_bind]. rewrite Z.ltb_antisym.
  destruct (ring_is_valid ring) eqn:Hv; [|done].
  destruct (minimum_size <=? ElementStride ring); [|done].
  destruct (index_in_mask ring index) eqn:Hi; [|done]. cbn.
  destruct (index_in_mask_le _ _ Hwords Hindex Hi) as [<- Hle].
  destruct Hwords as ((? & Hs) & (? & Hn) & _). destruct Hindex as [Hi0 Hi32].
  change (2 ^ 16) with 65536 in Hs. change (2 ^ 32) with 4294967296 in *.
  unfold checked_mul, usize_bits. rewrite (proj2 (Z.ltb_lt _ _)); [done|].
  change (2 ^ 64) with (4294967296 * 4294967296). nia.
Qed.

(** An element pointer stays inside the ring.  Whatever the header words
    and the index are, [element_at] returns an address only if [minimum_size]
    bytes from it lie within the ring's element array; on a valid ring with a
    large enough stride it answers exactly for the indices below the element
    count that the mask allows, at [index * stride], and the [usize]
    multiplication cannot overflow. *)
Theorem element_at_in_bounds (ring : NET_RING) (index minimum_size : Z)
    (Hwords : ring_words ring) (Hindex : fits 32 index) (Hmin : 0 ≤ minimum_size) :
  element_at (Some ring) index minimum_size =
    (if ring_is_valid ring && (minimum_size <=? ElementStride ring) && index_in_mask ring index
     then Some (Buffer ring + index * ElementStride ring) else None) ∧
  (∀ address, element_at (Some ring) index minimum_size = Some address →
     Buffer ring ≤ address ∧
     address + minimum_size ≤ Buffer ring + NumberOfElements ring * ElementStride ring).
Proof.
  pose proof (element_at_value ring index minimum_size Hwords Hindex) as Heq.
  split; [done|]. intros address. rewrite Heq. intros H. split_if_in H; [|done].
  injection H as <-. bool_reflect.
  match goal with Hv : ring_is_valid ring = true |- _ =>
    apply ring_valid_spec in Hv as (_ & Hmask & _) end.
  destruct (index_in_mask_le ring index) as [_ Hle]; [done..|].
  destruct Hindex as [Hi0 _]. nia.
Qed.

Definition example_ring : NET_RING :=
  {| ElementStride := 64; NumberOfElements := 8; ElementIndexMask := 7;
     BeginIndex := 6; EndIndex := 2; Buffer := 4096 |}.

Lemma element_at_in_bounds_witness :
  element_at (Some example_ring) 7 40 = Some 4544 ∧
  4096 ≤ 4544 ∧ 4544 + 40 ≤ 4096 + 8 * 64.
Proof.
  split; [reflexivity|].
  apply (element_at_in_bounds example_ring 7 40); [|vm_compute; intuition congruence|lia|reflexivity].
  split_and!; vm_compute; intuition congruence.
Defined.

(** Ring indices move modulo the ring size.  On a ring of 2^k elements,
    from any index in range, incrementing and advancing by any 32-bit count
    (also when the [u32] sum wraps) give the index modulo the element count, in
    range again, and never fail. *)
Theorem ring_indices_wrap (ring : NET_RING) (k index count : Z)
    (Hwords : ring_words ring) (Hvalid : ring_is_valid ring = true)
    (Hpow : NumberOfElements ring = 2 ^ k) (Hk : 0 ≤ k)
    (Hindex : 0 ≤ index < NumberOfElements ring) (Hcount : fits 32 count) :
  increment_index ring index = Some (Some ((index + 1) mod NumberOfElements ring)) ∧
  advance_index ring index count = Some ((index + count) mod NumberOfElements ring).
Proof.
  pose proof Hvalid as Hv. apply ring_valid_spec in Hv as (_ & Hmask & _).
  pose proof (index_in_mask_pow2 _ _ _ Hwords Hpow Hk Hmask Hindex) as Hin.
  destruct Hwords as (_ & Hn & _). unfold fits in Hn.
  assert (k < 32) as Hk32.
  { apply (Z.pow_lt_mono_r_iff 2); lia. }
  unfold increment_index, advance_index. rewrite Hvalid, Hin. cbn.
  unfold checked_add, wrap.
  rewrite (proj2 (Z.ltb_lt (index + 1) _)) by lia. cbn.
  rewrite !(land_mask_pow2 _ _ _ Hpow Hk Hmask). split; [done|]. f_equal.
  rewrite Hpow. apply Z.mod_mod_divide.
  exists (2 ^ (32 - k)). rewrite <- Z.pow_add_r by lia. f_equal. lia.
Qed.

Lemma ring_indices_wrap_witness :
  increment_index example_ring 7 = Some (Some 0) ∧
  advance_index example_ring 7 4294967295 = Some 6.
Proof.
  apply (ring_indices_wrap example_ring 3 7 4294967295);
    [split_and!; vm_compute; intuition congruence|reflexivity|reflexivity|lia|vm_compute; intuition congruence|
     vm_compute; intuition congruence].
Defined.
