(* ===== verification/HardwareId.v ===== *)
(** * Child hardware identifiers

    The bus driver publishes a child's GUID and MTU as hardware-id strings
    ([wintap-bus-driver/src/lib.rs], the printers); the adapter driver reads
    them back from the device's hardware-id list
    ([wintap-netadaptercx-driver/src/lib.rs], the parsers).  A [[u16; N]] is a
    list of N words; an index out of range is [None]. *)

From S2P Require Import Prelude Words.

(** [b'c' as u16] for every character of a literal. *)
Definition u16s (s : string) : list Z :=
  (λ a, Z.of_N (Ascii.N_of_ascii a)) <$> String.list_ascii_of_string s.

Record GUID := { Data1 : Z; Data2 : Z; Data3 : Z; Data4 : list Z }.

#[export] Instance GUID_eq_dec : EqDecision GUID.
Proof. solve_decision. Defined.

Definition guid_equal (left right : GUID) : bool :=
  (Data1 left =? Data1 right) && (Data2 left =? Data2 right)
  && (Data3 left =? Data3 right) && bool_decide (Data4 left = Data4 right).

Definition valid_guid (guid : GUID) : bool :=
  negb (Data1 guid =? 0) || negb (Data2 guid =? 0) || negb (Data3 guid =? 0)
  || existsb (λ byte, negb (byte =? 0)) (Data4 guid).

(** The words of a [GUID] value. *)
Definition guid_words (g : GUID) : Prop :=
  fits 32 (Data1 g) ∧ fits 16 (Data2 g) ∧ fits 16 (Data3 g) ∧
  length (Data4 g) = 8%nat ∧ Forall is_byte (Data4 g).

(** ** The printers of the bus driver *)

Module Printer.

(** A fixed array being filled, and the offset of the next character. *)
Definition cursor : Type := list Z * Z.

Definition push (t : cursor) (c : Z) : option cursor :=
  _ ← at_index t.1 t.2; Some (<[Z.to_nat t.2 := c]> t.1, t.2 + 1).

Definition hex (value : Z) : Z := if value <=? 9 then 48 + value else 65 + (value - 10).

(** [for character in prefix { if *character == 0 { break; } ... }] *)
Fixpoint push_prefix (prefix : list Z) (t : cursor) : option cursor :=
  match prefix with
  | [] => Some t
  | c :: prefix => if c =? 0 then Some t else t ← push t c; push_prefix prefix t
  end.

Definition nibble (x s : Z) : Z := Z.land (Z.shiftr x s) 0xf.

Definition guid_values (guid : GUID) : list Z :=
  [nibble (Data1 guid) 28; nibble (Data1 guid) 24; nibble (Data1 guid) 20;
   nibble (Data1 guid) 16; nibble (Data1 guid) 12; nibble (Data1 guid) 8;
   nibble (Data1 guid) 4; Z.land (Data1 guid) 0xf;
   nibble (Data2 guid) 12; nibble (Data2 guid) 8; nibble (Data2 guid) 4;
   Z.land (Data2 guid) 0xf;
   nibble (Data3 guid) 12; nibble (Data3 guid) 8; nibble (Data3 guid) 4;
   Z.land (Data3 guid) 0xf].

Fixpoint push_values (index : Z) (values : list Z) (t : cursor) : option cursor :=
  match values with
  | [] => Some t
  | value :: values =>
      t ← push t (hex value);
      t ← (if (index =? 7) || (index =? 11) || (index =? 15) then push t 45 else Some t);
      push_values (index + 1) values t
  end.

Fixpoint push_bytes (index : Z) (bytes : list Z) (t : cursor) : option cursor :=
  match bytes with
  | [] => Some t
  | byte :: bytes =>
      t ← push t (hex (Z.shiftr byte 4));
      t ← push t (hex (Z.land byte 0xf));
      t ← (if index =? 1 then push t 45 else Some t);
      push_bytes (index + 1) bytes t
  end.

Definition guid_text (guid : GUID) (prefix : list Z) : option (list Z) :=
  t ← push_prefix prefix (replicate 64 0, 0);
  t ← push t 123;
  t ← push_values 0 (guid_values guid) t;
  t ← push_bytes 0 (Data4 guid) t;
  t ← push t 125;
  t ← push t 0;
  Some t.1.

Definition child_device_id (guid : GUID) : option (list Z) :=
  guid_text guid (u16s "WINTAPBUS\" ++ [0]).

(** The digits of [value], least significant first: at most 10 of a [u32]. *)
Fixpoint mtu_digits (fuel : nat) (value : Z) : option (list Z) :=
  match fuel with
  | O => None
  | S fuel =>
      let digit := 48 + value mod 10 in
      if value / 10 =? 0 then Some [digit]
      else rest ← mtu_digits fuel (value / 10); Some (digit :: rest)
  end.

Fixpoint push_all (cs : list Z) (t : cursor) : option cursor :=
  match cs with
  | [] => Some t
  | c :: cs => t ← push t c; push_all cs t
  end.

(** [digits] has ten cells, so the loop runs at most ten times ([None] past
    them is the index out of range). *)
Definition child_mtu_hardware_id (mtu : Z) : option (list Z) :=
  t ← push_prefix (u16s "WINTAPBUSMTU\" ++ [0]) (replicate 32 0, 0);
  digits ← mtu_digits 10 mtu;
  t ← push_all (reverse digits) t;
  t ← push t 0;
  Some t.1.

Definition CHILD_COMPATIBLE_ID : list Z := u16s "WINTAPBUS\WinTapChild" ++ [0].

(** [iter().position(|c| *c == 0)] *)
Fixpoint position_zero (l : list Z) : option Z :=
  match l with
  | [] => None
  | c :: l => if c =? 0 then Some 0 else n ← position_zero l; Some (n + 1)
  end.

(** The string a [UNICODE_STRING] names: [Length] is a 16-bit byte count. *)
Record UNICODE_STRING := { Length : Z; MaximumLength : Z; SBuffer : list Z }.

Definition unicode_string (buffer : list Z) : UNICODE_STRING :=
  let length := default (len buffer) (position_zero buffer) in
  let byte_length := length * 2 in
  {| Length := wrap 16 byte_length; MaximumLength := wrap 16 (byte_length + 2);
     SBuffer := buffer |}.

Definition unicode_chars (s : UNICODE_STRING) : list Z :=
  take (Z.to_nat (Length s / 2)) (SBuffer s).

End Printer.

(** ** The parsers of the adapter driver *)

Module Parser.

Definition DEFAULT_MTU : Z := 1500.
Definition MAXIMUM_MTU : Z := 65521.

Definition STATUS_SUCCESS : Z := 0.
Definition STATUS_INVALID_PARAMETER : Z := as_i32 0xC000000D.

Definition mac_address_from_guid (guid : GUID) : option (list Z) :=
  b0 ← at_index (Data4 guid) 0; b1 ← at_index (Data4 guid) 1;
  b2 ← at_index (Data4 guid) 2; b3 ← at_index (Data4 guid) 3;
  b4 ← at_index (Data4 guid) 4;
  Some [0x02; b0; b1; b2; b3; b4].

Definition hex_nibble (c : Z) : option Z :=
  if (48 <=? c) && (c <=? 57) then Some (c - 48)
  else if (97 <=? c) && (c <=? 102) then Some (c - 97 + 10)
  else if (65 <=? c) && (c <=? 70) then Some (c - 65 + 10)
  else None.

Definition starts_with (l prefix : list Z) : bool :=
  bool_decide (take (length prefix) l = prefix).

(** [(digits[index] << 4) | digits[index + 1]] on [u8]s. *)
Definition byte_of (digits : list Z) (index : Z) : option Z :=
  hi ← at_index digits index;
  lo ← at_index digits (index + 1);
  Some (Z.lor (wrap 8 (Z.shiftl hi 4)) lo).

Definition guid_of_digits (digits : list Z) : option GUID :=
  let byte := byte_of digits in
  b0 ← byte 0; b2 ← byte 2; b4 ← byte 4; b6 ← byte 6;
  b8 ← byte 8; b10 ← byte 10; b12 ← byte 12; b14 ← byte 14;
  b16 ← byte 16; b18 ← byte 18; b20 ← byte 20; b22 ← byte 22;
  b24 ← byte 24; b26 ← byte 26; b28 ← byte 28; b30 ← byte 30;
  Some {| Data1 := Z.lor (Z.lor (Z.lor (Z.shiftl b0 24) (Z.shiftl b2 16)) (Z.shiftl b4 8)) b6;
          Data2 := Z.lor (Z.shiftl b8 8) b10;
          Data3 := Z.lor (Z.shiftl b12 8) b14;
          Data4 := [b16; b18; b20; b22; b24; b26; b28; b30] |}.

(** The loop over the characters; the outer [option] is a panic. *)
Fixpoint parse_guid_loop (chars digits : list Z) (digit_count : Z) :
    option (option GUID) :=
  match chars with
  | [] => Some None
  | c :: chars =>
      if c =? 125 then
        if negb (digit_count =? len digits) then Some None
        else guid ← guid_of_digits digits; Some (Some guid)
      else if c =? 45 then parse_guid_loop chars digits digit_count
      else
        match hex_nibble c with
        | None => Some None
        | Some value =>
            if digit_count =? len digits then Some None
            else
              _ ← at_index digits digit_count;
              parse_guid_loop chars (<[Z.to_nat digit_count := value]> digits) (digit_count + 1)
        end
  end.

Definition parse_child_guid_from_hardware_id (hardware_id : list Z) :
    option (option GUID) :=
  if negb (starts_with hardware_id (u16s "WINTAPBUS\{")) then Some None
  else
    rest ← slice hardware_id 11 (len hardware_id);
    parse_guid_loop rest (replicate 32 0) 0.

Fixpoint parse_mtu_loop (chars : list Z) (value : Z) : option Z :=
  match chars with
  | [] => Some value
  | c :: chars =>
      if c =? 0 then Some value
      else if negb ((48 <=? c) && (c <=? 57)) then None
      else
        tens ← checked_mul usize_bits value 10;
        value ← checked_add usize_bits tens (c - 48);
        parse_mtu_loop chars value
  end.

Definition parse_child_mtu_from_hardware_id (hardware_id : list Z) : option (option Z) :=
  if negb (starts_with hardware_id (u16s "WINTAPBUSMTU\")) then Some None
  else
    rest ← slice hardware_id 13 (len hardware_id);
    Some (value ← parse_mtu_loop rest 0;
          if (DEFAULT_MTU <=? value) && (value <=? MAXIMUM_MTU) then Some value else None).

(** The scan of the hardware-id list.  The fuel bounds the iterations; running
    out of it, like a panic, is [None]. *)
Fixpoint scan_ids (fuel : nat) (ids : list Z) (character_count offset : Z)
    (guid : option GUID) (mtu : option Z) :
    option (result (option GUID * option Z) Z) :=
  match fuel with
  | O => None
  | S fuel =>
      if negb (offset <? character_count) then Some (Ok (guid, mtu))
      else
        rest ← slice ids offset character_count;
        match Printer.position_zero rest with
        | None => Some (Err STATUS_INVALID_PARAMETER)
        | Some length =>
            if length =? 0 then Some (Ok (guid, mtu))
            else
              hardware_id ← slice ids offset (offset + length);
              parsed ← parse_child_guid_from_hardware_id hardware_id;
              let guid := match parsed with Some g => Some g | None => guid end in
              if starts_with hardware_id (u16s "WINTAPBUSMTU\") then
                value ← parse_child_mtu_from_hardware_id hardware_id;
                match value with
                | None => Some (Err STATUS_INVALID_PARAMETER)
                | Some value =>
                    scan_ids fuel ids character_count (offset + length + 1) guid (Some value)
                end
              else scan_ids fuel ids character_count (offset + length + 1) guid mtu
        end
  end.

(** [WdfDeviceQueryProperty] for the hardware-id property, given the buffer's
    size in bytes: its status, the buffer after the call and the length. *)
Definition child_properties_from_hardware_id (query : Z → Z * list Z * Z) :
    option (result (GUID * Z) Z) :=
  let '(status, hardware_ids, result_length) := query (128 * 2) in
  if negb (status =? STATUS_SUCCESS) then Some (Err status)
  else if negb (result_length mod 2 =? 0) then Some (Err STATUS_INVALID_PARAMETER)
  else
    let character_count := Z.min (result_length / 2) (len hardware_ids) in
    scanned ← scan_ids 129 hardware_ids character_count 0 None None;
    match scanned with
    | Err e => Some (Err e)
    | Ok (Some guid, Some mtu) => Some (Ok (guid, mtu))
    | Ok (Some guid, None) => Some (Ok (guid, DEFAULT_MTU))
    | Ok _ => Some (Err STATUS_INVALID_PARAMETER)
    end.

End Parser.

#[global] Arguments Printer.hex : simpl never.
#[global] Arguments Printer.nibble : simpl never.
#[global] Arguments Printer.push : simpl never.
#[global] Arguments Parser.hex_nibble : simpl never.

(** ** What the printers write *)

(** An array of [cap] words of which [ws] have been written. *)
Definition written (cap : Z) (ws : list Z) : Printer.cursor :=
  (ws ++ replicate (Z.to_nat (cap - len ws)) 0, len ws).

Lemma push_written cap ws c :
  len ws < cap → Printer.push (written cap ws) c = Some (written cap (ws ++ [c])).
Proof.
  intros Hlt. pose proof (len_nonneg ws). unfold Printer.push, written. cbn [fst snd].
  destruct (at_index_is_Some (ws ++ replicate (Z.to_nat (cap - len ws)) 0) (len ws)) as [x Hx].
  { rewrite len_app. unfold len. rewrite length_replicate. unfold len in Hlt. lia. }
  rewrite Hx. cbn [mbind option_bind]. rewrite len_app. change (len [c]) with 1.
  replace (Z.to_nat (cap - len ws)) with (S (Z.to_nat (cap - (len ws + 1)))) by lia.
  cbn [replicate]. unfold len at 1. rewrite Nat2Z.id. rewrite insert_app_r_alt by lia.
  rewrite Nat.sub_diag. cbn. by rewrite <- app_assoc.
Qed.

Lemma written_len cap ws : len ws ≤ cap → len (written cap ws).1 = cap.
Proof.
  intros. unfold written. cbn. rewrite len_app. unfold len.
  rewrite length_replicate. unfold len in *. lia.
Qed.

Lemma written_full ws : (written (len ws) ws).1 = ws.
Proof. unfold written. cbn. rewrite Z.sub_diag. by rewrite app_nil_r. Qed.

Lemma push_prefix_written cap p : ∀ ws,
  Forall (λ c, c ≠ 0) p → len ws + len p ≤ cap →
  Printer.push_prefix (p ++ [0]) (written cap ws) = Some (written cap (ws ++ p)).
Proof.
  induction p as [|c p IH]; intros ws Hp Hcap; [by rewrite app_nil_r|].
  apply Forall_cons in Hp as [Hc Hp]. rewrite len_cons in Hcap. pose proof (len_nonneg p).
  cbn. rewrite (proj2 (Z.eqb_neq c 0)) by done. rewrite push_written by lia. cbn.
  rewrite IH; [by rewrite <- app_assoc|done|]. rewrite len_app. change (len [c]) with 1. lia.
Qed.

Lemma push_all_written cap cs : ∀ ws,
  len ws + len cs ≤ cap →
  Printer.push_all cs (written cap ws) = Some (written cap (ws ++ cs)).
Proof.
  induction cs as [|c cs IH]; intros ws Hcap; [by rewrite app_nil_r|].
  rewrite len_cons in Hcap. pose proof (len_nonneg cs).
  cbn. rewrite push_written by lia. cbn.
  rewrite IH; [by rewrite <- app_assoc|]. rewrite len_app. change (len [c]) with 1. lia.
Qed.

Definition dash_after (b : bool) : list Z := if b then [45] else [].

(** The characters of the first three groups, and of the byte groups. *)
Fixpoint values_text (index : Z) (values : list Z) : list Z :=
  match values with
  | [] => []
  | v :: values =>
      Printer.hex v :: dash_after ((index =? 7) || (index =? 11) || (index =? 15))
        ++ values_text (index + 1) values
  end.

Fixpoint bytes_text (index : Z) (bytes : list Z) : list Z :=
  match bytes with
  | [] => []
  | b :: bytes =>
      Printer.hex (Z.shiftr b 4) :: Printer.hex (Z.land b 0xf) ::
        dash_after (index =? 1) ++ bytes_text (index + 1) bytes
  end.

Lemma push_dash cap ws (b : bool) :
  len ws + len (dash_after b) ≤ cap →
  (if b then Printer.push (written cap ws) 45 else Some (written cap ws)) =
    Some (written cap (ws ++ dash_after b)).
Proof.
  destruct b; cbn; intros H; [apply push_written|by rewrite app_nil_r].
  change (len [45]) with 1 in H. lia.
Qed.

Lemma push_values_written cap vs : ∀ ws index,
  len ws + len (values_text index vs) ≤ cap →
  Printer.push_values index vs (written cap ws) =
    Some (written cap (ws ++ values_text index vs)).
Proof.
  induction vs as [|v vs IH]; intros ws index Hcap; [by rewrite app_nil_r|].
  cbn [values_text] in Hcap. rewrite len_cons, len_app in Hcap.
  pose proof (len_nonneg (values_text (index + 1) vs)).
  cbn [Printer.push_values].
  set (b := (index =? 7) || (index =? 11) || (index =? 15)) in *.
  pose proof (len_nonneg (dash_after b)).
  rewrite push_written by lia. cbn [mbind option_bind].
  rewrite push_dash by (rewrite len_app; change (len [_]) with 1; lia).
  cbn [mbind option_bind].
  rewrite IH by (rewrite !len_app; change (len [_]) with 1; lia).
  cbn [values_text]. fold b. by rewrite <- !app_assoc.
Qed.

Lemma push_bytes_written cap bs : ∀ ws index,
  len ws + len (bytes_text index bs) ≤ cap →
  Printer.push_bytes index bs (written cap ws) =
    Some (written cap (ws ++ bytes_text index bs)).
Proof.
  induction bs as [|v bs IH]; intros ws index Hcap; [by rewrite app_nil_r|].
  cbn [bytes_text] in Hcap. rewrite !len_cons, len_app in Hcap.
  pose proof (len_nonneg (bytes_text (index + 1) bs)).
  cbn [Printer.push_bytes]. set (b := index =? 1) in *.
  pose proof (len_nonneg (dash_after b)).
  rewrite push_written by lia. cbn [mbind option_bind].
  rewrite push_written by (rewrite len_app; change (len [_]) with 1; lia).
  cbn [mbind option_bind].
  rewrite push_dash by (rewrite !len_app; change (len [_]) with 1; lia).
  cbn [mbind option_bind].
  rewrite IH by (rewrite !len_app; change (len [_]) with 1; lia).
  cbn [bytes_text]. fold b. by rewrite <- !app_assoc.
Qed.

(** The text of a GUID between its braces. *)
Definition guid_body (g : GUID) : list Z :=
  values_text 0 (Printer.guid_values g) ++ bytes_text 0 (Data4 g).

Lemma length_8 {A} (l : list A) :
  length l = 8%nat → ∃ a b c d e f g h, l = [a; b; c; d; e; f; g; h].
Proof.
  intros H. do 8 (destruct l as [|? l]; [done|]). destruct l; [|done].
  by repeat eexists.
Qed.

Lemma guid_body_len g : length (Data4 g) = 8%nat → len (guid_body g) = 36.
Proof.
  destruct g as [d1 d2 d3 d4]. cbn. intros (?&?&?&?&?&?&?&?&->)%length_8. reflexivity.
Qed.

Definition device_id_chars (g : GUID) : list Z :=
  u16s "WINTAPBUS\{" ++ guid_body g ++ [125].

Lemma child_device_id_text g :
  guid_words g → Printer.child_device_id g = Some (written 64 (device_id_chars g ++ [0])).1.
Proof.
  intros (_ & _ & _ & Hd & _). pose proof (guid_body_len g Hd) as Hl.
  unfold Printer.child_device_id, Printer.guid_text.
  change (replicate 64 0, 0) with (written 64 []).
  rewrite push_prefix_written; [|by repeat constructor|by vm_compute].
  cbn [mbind option_bind]. rewrite app_nil_l.
  rewrite push_written by (by vm_compute). cbn [mbind option_bind].
  unfold guid_body in Hl. rewrite len_app in Hl.
  pose proof (len_nonneg (bytes_text 0 (Data4 g))).
  rewrite push_values_written by (rewrite len_app; change (len [123]) with 1;
    change (len (u16s "WINTAPBUS\")) with 10; lia).
  cbn [mbind option_bind].
  rewrite push_bytes_written by (rewrite !len_app; change (len [123]) with 1;
    change (len (u16s "WINTAPBUS\")) with 10; lia).
  cbn [mbind option_bind].
  rewrite push_written by (rewrite !len_app; change (len [123]) with 1;
    change (len (u16s "WINTAPBUS\")) with 10; lia).
  cbn [mbind option_bind].
  rewrite push_written by (rewrite !len_app; change (len [123]) with 1;
    change (len [125]) with 1; change (len (u16s "WINTAPBUS\")) with 10; lia).
  cbn [mbind option_bind]. unfold device_id_chars, guid_body.
  change (u16s "WINTAPBUS\{") with (u16s "WINTAPBUS\" ++ [123]).
  by rewrite <- !app_assoc.
Qed.

(** ** What the parsers read *)

Definition is_nibble (v : Z) : Prop := 0 ≤ v < 16.

Lemma hex_nibble_hex v :
  is_nibble v →
  Parser.hex_nibble (Printer.hex v) = Some v ∧
  Printer.hex v ≠ 125 ∧ Printer.hex v ≠ 45 ∧ Printer.hex v ≠ 0.
Proof.
  unfold is_nibble, Parser.hex_nibble, Printer.hex. intros Hv.
  destruct (Z.leb_spec v 9).
  - rewrite (proj2 (andb_true_iff _ _)) by (rewrite !Z.leb_le; lia).
    split_and!; [f_equal; lia|lia..].
  - rewrite (proj2 (andb_false_iff (48 <=? _) _)) by (rewrite !Z.leb_gt; lia).
    rewrite (proj2 (andb_false_iff (97 <=? _) _)) by (rewrite !Z.leb_gt; lia).
    rewrite (proj2 (andb_true_iff _ _)) by (rewrite !Z.leb_le; lia).
    split_and!; [f_equal; lia|lia..].
Qed.

Lemma nibble_is_nibble x s : is_nibble (Printer.nibble x s).
Proof.
  unfold is_nibble, Printer.nibble. change 0xf with (Z.ones 4).
  rewrite Z.land_ones by lia. apply Z.mod_pos_bound. lia.
Qed.

(** One digit is stored at the next position. *)
Lemma parse_guid_digit cs ds v :
  is_nibble v → len ds < 32 →
  Parser.parse_guid_loop (Printer.hex v :: cs) (written 32 ds).1 (len ds) =
  Parser.parse_guid_loop cs (written 32 (ds ++ [v])).1 (len (ds ++ [v])).
Proof.
  intros Hv Hl. destruct (hex_nibble_hex v Hv) as (Hh & H1 & H2 & _).
  cbn [Parser.parse_guid_loop].
  rewrite (proj2 (Z.eqb_neq _ 125)), (proj2 (Z.eqb_neq _ 45)) by done.
  rewrite Hh, written_len by lia. rewrite (proj2 (Z.eqb_neq (len ds) 32)) by lia.
  pose proof (push_written 32 ds v Hl) as Hpush. unfold Printer.push in Hpush.
  change ((written 32 ds).2) with (len ds) in Hpush.
  destruct (at_index (written 32 ds).1 (len ds)) as [x|]; [|done].
  cbn [mbind option_bind] in *. injection Hpush as H3 H4.
  rewrite len_app. change (len [v]) with 1. f_equal. unfold written. cbn [fst]. done.
Qed.

Lemma parse_guid_dash b cs ds n :
  Parser.parse_guid_loop (dash_after b ++ cs) ds n = Parser.parse_guid_loop cs ds n.
Proof. by destruct b. Qed.

Lemma parse_guid_values vs : ∀ index cs ds,
  Forall is_nibble vs → len ds + len vs ≤ 32 →
  Parser.parse_guid_loop (values_text index vs ++ cs) (written 32 ds).1 (len ds) =
  Parser.parse_guid_loop cs (written 32 (ds ++ vs)).1 (len (ds ++ vs)).
Proof.
  induction vs as [|v vs IH]; intros index cs ds Hvs Hl; [by rewrite app_nil_r|].
  apply Forall_cons in Hvs as [Hv Hvs]. rewrite len_cons in Hl. pose proof (len_nonneg vs).
  cbn [values_text app]. rewrite parse_guid_digit by (done || lia).
  rewrite <- app_assoc, parse_guid_dash, IH; [by rewrite <- app_assoc|done|].
  rewrite len_app. change (len [v]) with 1. lia.
Qed.

Definition byte_digits (bs : list Z) : list Z :=
  concat ((λ b, [Z.shiftr b 4; Z.land b 0xf]) <$> bs).

Lemma byte_nibbles b : is_byte b → is_nibble (Z.shiftr b 4) ∧ is_nibble (Z.land b 0xf).
Proof.
  unfold is_byte, fits, is_nibble. intros Hb. change 0xf with (Z.ones 4).
  rewrite Z.land_ones, Z.shiftr_div_pow2 by lia. split; [|apply Z.mod_pos_bound; lia].
  change (2 ^ 8) with 256 in Hb. change (2 ^ 4) with 16.
  split; [apply Z.div_pos; lia|apply Z.div_lt_upper_bound; lia].
Qed.

Lemma parse_guid_bytes bs : ∀ index cs ds,
  Forall is_byte bs → len ds + 2 * len bs ≤ 32 →
  Parser.parse_guid_loop (bytes_text index bs ++ cs) (written 32 ds).1 (len ds) =
  Parser.parse_guid_loop cs (written 32 (ds ++ byte_digits bs)).1 (len (ds ++ byte_digits bs)).
Proof.
  induction bs as [|b bs IH]; intros index cs ds Hbs Hl; [by rewrite app_nil_r|].
  apply Forall_cons in Hbs as [Hb Hbs]. rewrite len_cons in Hl. pose proof (len_nonneg bs).
  destruct (byte_nibbles b Hb) as [Hhi Hlo]. cbn [bytes_text app].
  rewrite parse_guid_digit by (done || lia).
  rewrite parse_guid_digit by (done || (rewrite len_app; change (len [_]) with 1; lia)).
  rewrite <- app_assoc, parse_guid_dash, IH; [by rewrite <- !app_assoc|done|].
  rewrite !len_app. change (len [_]) with 1. lia.
Qed.

(** The eight bits of [x] from bit [s] on. *)
Definition byte_at (x s : Z) : Z := Z.land (Z.shiftr x s) 0xff.

Lemma byte_at_bit x s n :
  0 ≤ s → 0 ≤ n → Z.testbit (byte_at x s) n = (n <? 8) && Z.testbit x (n + s).
Proof.
  intros. unfold byte_at. change 0xff with (Z.ones 8).
  rewrite Z.land_spec, Z.shiftr_spec, Z.testbit_ones_nonneg by lia. apply andb_comm.
Qed.

Lemma nibble_bit x s n :
  0 ≤ s → 0 ≤ n → Z.testbit (Printer.nibble x s) n = (n <? 4) && Z.testbit x (n + s).
Proof.
  intros. unfold Printer.nibble. change 0xf with (Z.ones 4).
  rewrite Z.land_spec, Z.shiftr_spec, Z.testbit_ones_nonneg by lia. apply andb_comm.
Qed.

(** Two nibbles joined by the parser are the byte they came from. *)
Lemma join_nibbles x s t :
  0 ≤ s → t = s + 4 →
  Z.lor (wrap 8 (Z.shiftl (Printer.nibble x t) 4)) (Printer.nibble x s) = byte_at x s.
Proof.
  intros Hs ->.
  assert (fits 8 (Z.shiftl (Printer.nibble x (s + 4)) 4)) as Hfit.
  { apply fits_shiftl; [lia|lia|]. pose proof (nibble_is_nibble x (s + 4)) as Hn.
    unfold is_nibble in Hn. unfold fits. change (2 ^ (8 - 4)) with 16. lia. }
  rewrite wrap_small by done. apply Z.bits_inj'. intros n Hn.
  rewrite Z.lor_spec, byte_at_bit, nibble_bit by lia.
  destruct (Z.ltb_spec n 4).
  - rewrite Z.shiftl_spec_low by lia. by rewrite (proj2 (Z.ltb_lt n 8)) by lia.
  - rewrite Z.shiftl_spec by lia. rewrite nibble_bit by lia.
    replace (n - 4 + (s + 4)) with (n + s) by lia. cbn. rewrite orb_false_r. f_equal.
    destruct (Z.ltb_spec (n - 4) 4), (Z.ltb_spec n 8); done || lia.
Qed.

Lemma shifted_byte_bit x s n :
  0 ≤ s → 0 ≤ n →
  Z.testbit (Z.shiftl (byte_at x s) s) n = (s <=? n) && (n <? s + 8) && Z.testbit x n.
Proof.
  intros. destruct (Z.leb_spec s n); [|by rewrite Z.shiftl_spec_low by lia].
  rewrite Z.shiftl_spec by lia. rewrite byte_at_bit by lia.
  replace (n - s + s) with n by lia. f_equal.
  destruct (Z.ltb_spec (n - s) 8), (Z.ltb_spec n (s + 8)); done || lia.
Qed.

Ltac decide_ltb :=
  repeat match goal with
  | |- context [?a <? ?b] => destruct (Z.ltb_spec a b); [|]; try lia
  | |- context [?a <=? ?b] => destruct (Z.leb_spec a b); [|]; try lia
  end.

Lemma join_bytes32 x :
  fits 32 x →
  Z.lor (Z.lor (Z.lor (Z.shiftl (byte_at x 24) 24) (Z.shiftl (byte_at x 16) 16))
           (Z.shiftl (byte_at x 8) 8)) (byte_at x 0) = x.
Proof.
  intros Hx. apply Z.bits_inj'. intros n Hn.
  rewrite !Z.lor_spec, !shifted_byte_bit, byte_at_bit, Z.add_0_r by lia.
  destruct (Z.leb_spec 32 n); [rewrite (testbit_fits 32 x n) by done; by rewrite !andb_false_r|].
  decide_ltb; destruct (Z.testbit x n); done.
Qed.

Lemma join_bytes16 x :
  fits 16 x → Z.lor (Z.shiftl (byte_at x 8) 8) (byte_at x 0) = x.
Proof.
  intros Hx. apply Z.bits_inj'. intros n Hn.
  rewrite !Z.lor_spec, !shifted_byte_bit, byte_at_bit, Z.add_0_r by lia.
  destruct (Z.leb_spec 16 n); [rewrite (testbit_fits 16 x n) by done; by rewrite !andb_false_r|].
  decide_ltb; destruct (Z.testbit x n); done.
Qed.

Lemma nibble_0 x : Z.land x 0xf = Printer.nibble x 0.
Proof. unfold Printer.nibble. by rewrite Z.shiftr_0_r. Qed.

Lemma byte_high_nibble b : is_byte b → Z.shiftr b 4 = Printer.nibble b 4.
Proof.
  intros Hb. destruct (byte_nibbles b Hb) as [Hn _]. unfold Printer.nibble.
  change 0xf with (Z.ones 4). rewrite land_ones_low; [done|lia|].
  unfold is_nibble in Hn. unfold fits. change (2 ^ 4) with 16. lia.
Qed.

Lemma byte_at_0 b : is_byte b → byte_at b 0 = b.
Proof.
  intros Hb. unfold byte_at. rewrite Z.shiftr_0_r. change 0xff with (Z.ones 8).
  by apply land_ones_low.
Qed.

Definition guid_digits (g : GUID) : list Z := Printer.guid_values g ++ byte_digits (Data4 g).

(** The parser's digits, read back, are the GUID. *)
Lemma guid_of_guid_digits g :
  guid_words g → Parser.guid_of_digits (guid_digits g) = Some g.
Proof.
  destruct g as [d1 d2 d3 d4]. intros (H1 & H2 & H3 & Hl & Hb). cbn in H1, H2, H3, Hl, Hb.
  apply length_8 in Hl as (b0 & b1 & b2 & b3 & b4 & b5 & b6 & b7 & ->).
  rewrite !Forall_cons in Hb. destruct_and! Hb.
  unfold guid_digits, Printer.guid_values, byte_digits. cbn [Data1 Data2 Data3 Data4 fmap list_fmap concat app].
  rewrite !byte_high_nibble, !nibble_0 by done.
  unfold Parser.guid_of_digits, Parser.byte_of. rewrite !at_index_lookup by lia.
  eval_to_nat. cbn [lookup list_lookup mbind option_bind].
  rewrite (join_nibbles d1 24 28), (join_nibbles d1 16 20), !(join_nibbles _ 8 12),
    !(join_nibbles _ 0 4) by lia.
  by rewrite join_bytes32, !join_bytes16, !byte_at_0.
Qed.

Lemma starts_with_app p l : Parser.starts_with (p ++ l) p = true.
Proof. unfold Parser.starts_with. by rewrite take_app_length, bool_decide_true. Qed.

Lemma slice_tail (p l : list Z) : slice (p ++ l) (len p) (len (p ++ l)) = Some l.
Proof.
  pose proof (len_nonneg p). pose proof (len_nonneg l).
  rewrite slice_spec by (rewrite ?len_app; lia). rewrite len_app.
  replace (len p + len l - len p) with (len l) by lia. unfold len. rewrite !Nat2Z.id.
  by rewrite drop_app_length, firstn_all.
Qed.

Lemma guid_values_nibbles g : Forall is_nibble (Printer.guid_values g).
Proof.
  unfold Printer.guid_values. rewrite !nibble_0.
  repeat constructor; apply nibble_is_nibble.
Qed.

Lemma parse_device_id g :
  guid_words g →
  Parser.parse_child_guid_from_hardware_id (device_id_chars g) = Some (Some g).
Proof.
  intros Hg. pose proof Hg as (_ & _ & _ & Hl & Hb).
  unfold Parser.parse_child_guid_from_hardware_id, device_id_chars.
  rewrite starts_with_app. cbn [negb].
  change 11 with (len (u16s "WINTAPBUS\{")). rewrite slice_tail. cbn [mbind option_bind].
  unfold guid_body. rewrite <- app_assoc.
  change (replicate 32 0) with (written 32 []).1. change 0 with (len (@nil Z)) at 2.
  rewrite parse_guid_values; [|apply guid_values_nibbles|done].
  rewrite parse_guid_bytes; [|done|unfold len; rewrite Hl; done].
  rewrite app_nil_l. fold (guid_digits g).
  assert (len (guid_digits g) = 32) as H32.
  { destruct g as [d1 d2 d3 d4]. cbn in Hl.
    apply length_8 in Hl as (?&?&?&?&?&?&?&?&->). reflexivity. }
  assert ((written 32 (guid_digits g)).1 = guid_digits g) as ->
    by (rewrite <- H32 at 1; apply written_full).
  cbn [Parser.parse_guid_loop Z.eqb Pos.eqb]. rewrite Z.eqb_refl. cbn [negb].
  by rewrite guid_of_guid_digits.
Qed.

(** *** The MTU *)

Definition is_digit (c : Z) : Prop := 48 ≤ c ≤ 57.

Lemma mtu_digits_are_digits fuel : ∀ v ds,
  0 ≤ v → Printer.mtu_digits fuel v = Some ds → Forall is_digit ds ∧ ds ≠ [].
Proof.
  induction fuel as [|fuel IH]; intros v ds Hv H; cbn in H; [done|].
  assert (is_digit (48 + v mod 10)) as Hd
    by (pose proof (Z.mod_pos_bound v 10); unfold is_digit; lia).
  split_if_in H; [injection H as <-; by rewrite Forall_singleton|].
  destruct (Printer.mtu_digits fuel (v / 10)) as [rest|] eqn:Hr; [|done].
  injection H as <-. apply IH in Hr as [Hr _]; [|apply Z.div_pos; lia].
  by rewrite Forall_cons.
Qed.

Lemma mtu_digits_total fuel : ∀ v,
  0 ≤ v < 10 ^ Z.of_nat fuel → fuel ≠ O → ∃ ds, Printer.mtu_digits fuel v = Some ds ∧
    (length ds ≤ fuel)%nat.
Proof.
  induction fuel as [|fuel IH]; intros v Hv Hf; [done|]. cbn [Printer.mtu_digits].
  rewrite Nat2Z.inj_succ, Z.pow_succ_r in Hv by lia.
  destruct (Z.eqb_spec (v / 10) 0) as [|Hne]; [eexists; split; [done|cbn; lia]|].
  assert (v / 10 < 10 ^ Z.of_nat fuel) by (apply Z.div_lt_upper_bound; lia).
  assert (0 ≤ v / 10) by (apply Z.div_pos; lia).
  destruct (IH (v / 10)) as (ds & -> & ?); [lia| |].
  - intros ->. change (10 ^ Z.of_nat 0) with 1 in *. lia.
  - eexists. split; [done|cbn; lia].
Qed.

(** Reading the printed digits, most significant first, gives the value. *)
Lemma parse_mtu_digits fuel : ∀ v ds cs,
  0 ≤ v < 2 ^ 64 → Printer.mtu_digits fuel v = Some ds →
  Parser.parse_mtu_loop (reverse ds ++ cs) 0 = Parser.parse_mtu_loop cs v.
Proof.
  induction fuel as [|fuel IH]; intros v ds cs Hv H; cbn [Printer.mtu_digits] in H; [done|].
  pose proof (Z.mod_pos_bound v 10 ltac:(lia)) as Hmod.
  pose proof (Z_div_mod_eq_full v 10) as Hdiv.
  assert (∀ hi, 10 * hi + v mod 10 = v → 0 ≤ hi →
    Parser.parse_mtu_loop ((48 + v mod 10) :: cs) hi = Parser.parse_mtu_loop cs v) as Hstep.
  { intros hi Hhi ?. cbn [Parser.parse_mtu_loop].
    rewrite (proj2 (Z.eqb_neq _ 0)) by lia.
    rewrite (proj2 (andb_true_iff _ _)) by (rewrite !Z.leb_le; lia). cbn [negb].
    unfold checked_mul, checked_add, usize_bits.
    rewrite (proj2 (Z.ltb_lt (hi * 10) _)) by lia. cbn [mbind option_bind].
    rewrite (proj2 (Z.ltb_lt (hi * 10 + _) _)) by lia. cbn [mbind option_bind].
    f_equal. lia. }
  destruct (Z.eqb_spec (v / 10) 0) as [H0|H0].
  - injection H as <-. cbn [reverse rev_append app]. apply Hstep; lia.
  - destruct (Printer.mtu_digits fuel (v / 10)) as [rest|] eqn:Hr; [|done].
    injection H as <-. rewrite reverse_cons, <- app_assoc.
    rewrite (IH (v / 10)); [|lia|done]. apply Hstep; lia.
Qed.

Definition mtu_id_chars (ds : list Z) : list Z := u16s "WINTAPBUSMTU\" ++ reverse ds.

Lemma child_mtu_hardware_id_text mtu :
  fits 32 mtu →
  ∃ ds, Printer.mtu_digits 10 mtu = Some ds ∧ (length ds ≤ 10)%nat ∧
    Printer.child_mtu_hardware_id mtu = Some (written 32 (mtu_id_chars ds ++ [0])).1.
Proof.
  intros [H0 Hm]. change (2 ^ 32) with 4294967296 in Hm.
  destruct (mtu_digits_total 10 mtu) as (ds & Hds & Hlen);
    [change (10 ^ Z.of_nat 10) with 10000000000; lia|done|].
  exists ds. split; [done|]. split; [done|]. unfold Printer.child_mtu_hardware_id.
  change (replicate 32 0, 0) with (written 32 []).
  rewrite push_prefix_written; [|by repeat constructor|by vm_compute].
  rewrite Hds. cbn [mbind option_bind]. rewrite app_nil_l.
  assert (len (reverse ds) ≤ 10) by (unfold len; rewrite length_reverse; lia).
  rewrite push_all_written by (change (len (u16s "WINTAPBUSMTU\")) with 13; lia).
  cbn [mbind option_bind].
  rewrite push_written by (rewrite len_app; change (len (u16s "WINTAPBUSMTU\")) with 13; lia).
  done.
Qed.

Lemma parse_mtu_id mtu ds :
  Parser.DEFAULT_MTU ≤ mtu ≤ Parser.MAXIMUM_MTU → Printer.mtu_digits 10 mtu = Some ds →
  Parser.parse_child_mtu_from_hardware_id (mtu_id_chars ds) = Some (Some mtu).
Proof.
  unfold Parser.DEFAULT_MTU, Parser.MAXIMUM_MTU. intros Hm Hds.
  unfold Parser.parse_child_mtu_from_hardware_id, mtu_id_chars.
  rewrite starts_with_app. cbn [negb].
  change 13 with (len (u16s "WINTAPBUSMTU\")). rewrite slice_tail. cbn [mbind option_bind].
  rewrite <- (app_nil_r (reverse ds)), (parse_mtu_digits 10 mtu); [|lia|done].
  cbn [Parser.parse_mtu_loop mbind option_bind].
  unfold Parser.DEFAULT_MTU, Parser.MAXIMUM_MTU.
  by rewrite (proj2 (andb_true_iff _ _)) by (rewrite !Z.leb_le; lia).
Qed.

(** *** The hardware-id list *)

Definition no_zero (s : list Z) : Prop := Forall (λ c, c ≠ 0) s.

Lemma position_zero_app s post :
  no_zero s → Printer.position_zero (s ++ 0 :: post) = Some (len s).
Proof.
  induction 1 as [|c s Hc _ IH]; [done|]. cbn [app Printer.position_zero].
  rewrite (proj2 (Z.eqb_neq c 0)) by done. rewrite IH. cbn. f_equal. rewrite len_cons. lia.
Qed.

Lemma slice_middle (pre s post : list Z) n :
  n = len pre + len s → slice (pre ++ s ++ post) (len pre) n = Some s.
Proof.
  intros ->. pose proof (len_nonneg pre). pose proof (len_nonneg s). pose proof (len_nonneg post).
  rewrite slice_spec by (rewrite ?len_app; lia).
  replace (len pre + len s - len pre) with (len s) by lia. unfold len. rewrite !Nat2Z.id.
  by rewrite drop_app_length, take_app_length.
Qed.

(** Handle one NUL-terminated identifier of the list. *)
Definition scan_one (hardware_id : list Z) (guid : option GUID) (mtu : option Z) :
    option (result (option GUID * option Z) Z) :=
  parsed ← Parser.parse_child_guid_from_hardware_id hardware_id;
  let guid := match parsed with Some g => Some g | None => guid end in
  if Parser.starts_with hardware_id (u16s "WINTAPBUSMTU\") then
    value ← Parser.parse_child_mtu_from_hardware_id hardware_id;
    Some (match value with
          | None => Err Parser.STATUS_INVALID_PARAMETER
          | Some value => Ok (guid, Some value)
          end)
  else Some (Ok (guid, mtu)).

Lemma scan_ids_step fuel pre s post tl cc guid mtu :
  no_zero s → s ≠ [] → cc = len (pre ++ s ++ 0 :: post) →
  Parser.scan_ids (S fuel) (pre ++ s ++ 0 :: post ++ tl) cc (len pre) guid mtu =
  r ← scan_one s guid mtu;
  match r with
  | Err e => Some (Err e)
  | Ok (guid, mtu) =>
      Parser.scan_ids fuel ((pre ++ s ++ [0]) ++ post ++ tl) cc (len (pre ++ s ++ [0])) guid mtu
  end.
Proof.
  intros Hs Hne ->. rewrite !len_app, len_cons.
  pose proof (len_nonneg pre). pose proof (len_nonneg post).
  assert (0 < len s) by (destruct s; [done|rewrite len_cons; pose proof (len_nonneg s); lia]).
  cbn [Parser.scan_ids]. rewrite (proj2 (Z.ltb_lt (len pre) _)) by lia. cbn [negb].
  assert (slice (pre ++ s ++ 0 :: post ++ tl) (len pre) (len pre + (len s + (1 + len post))) =
          Some (s ++ 0 :: post)) as ->.
  { replace (pre ++ s ++ 0 :: post ++ tl) with (pre ++ (s ++ 0 :: post) ++ tl)
      by (by rewrite <- app_assoc). apply slice_middle. rewrite len_app, len_cons. lia. }
  cbn [mbind option_bind]. rewrite position_zero_app by done.
  rewrite (proj2 (Z.eqb_neq (len s) 0)) by lia.
  rewrite slice_middle by done. cbn [mbind option_bind].
  unfold scan_one. change (len [0]) with 1.
  replace ((pre ++ s ++ [0]) ++ post ++ tl) with (pre ++ s ++ 0 :: post ++ tl)
    by (by rewrite <- !app_assoc).
  replace (len pre + (len s + 1)) with (len pre + len s + 1) by lia.
  destruct (Parser.parse_child_guid_from_hardware_id s) as [parsed|]; [|done].
  cbn [mbind option_bind]. destruct (Parser.starts_with s _); [|done].
  destruct (Parser.parse_child_mtu_from_hardware_id s) as [[v|]|]; done.
Qed.

Lemma scan_ids_end fuel pre tl guid mtu :
  Parser.scan_ids (S fuel) (pre ++ 0 :: tl) (len (pre ++ [0])) (len pre) guid mtu =
  Some (Ok (guid, mtu)).
Proof.
  pose proof (len_nonneg pre). rewrite len_app. change (len [0]) with 1.
  cbn [Parser.scan_ids]. rewrite (proj2 (Z.ltb_lt (len pre) _)) by lia. cbn [negb].
  change (0 :: tl) with ([0] ++ tl). rewrite slice_middle by done. done.
Qed.

(** *** The list the bus publishes *)

(** The identifiers [evt_child_list_create_device] adds, in order, as the
    NUL-separated, doubly terminated list the device property returns. *)
Definition published_ids (g : GUID) (mtu : Z) : option (list Z) :=
  device_id ← Printer.child_device_id g;
  mtu_id ← Printer.child_mtu_hardware_id mtu;
  let chars t := Printer.unicode_chars (Printer.unicode_string t) in
  Some (chars device_id ++ [0] ++ chars mtu_id ++ [0]
        ++ chars Printer.CHILD_COMPATIBLE_ID ++ [0; 0]).

Lemma unicode_chars_text s post :
  no_zero s → len s < 1000 →
  Printer.unicode_chars (Printer.unicode_string (s ++ 0 :: post)) = s.
Proof.
  intros Hs Hl. pose proof (len_nonneg s).
  unfold Printer.unicode_string, Printer.unicode_chars. rewrite position_zero_app by done.
  cbn [default from_option id Printer.Length Printer.SBuffer].
  rewrite wrap_small by (unfold fits; change (2 ^ 16) with 65536; lia).
  rewrite Z.div_mul by lia. unfold len. rewrite Nat2Z.id. apply take_app_length.
Qed.

Lemma values_text_no_zero vs : ∀ i, Forall is_nibble vs → no_zero (values_text i vs).
Proof.
  unfold no_zero. induction vs as [|v vs IH]; intros i Hvs; [constructor|].
  apply Forall_cons in Hvs as [Hv Hvs]. cbn. constructor; [by apply hex_nibble_hex|].
  apply Forall_app. split; [destruct (_ || _); by repeat constructor|by apply IH].
Qed.

Lemma bytes_text_no_zero bs : ∀ i, Forall is_byte bs → no_zero (bytes_text i bs).
Proof.
  unfold no_zero. induction bs as [|b bs IH]; intros i Hbs; [constructor|].
  apply Forall_cons in Hbs as [Hb Hbs]. destruct (byte_nibbles b Hb) as [Hhi Hlo].
  cbn [bytes_text]. constructor; [by apply hex_nibble_hex|].
  constructor; [by apply hex_nibble_hex|].
  apply Forall_app. split; [destruct (_ =? _); by repeat constructor|by apply IH].
Qed.

Lemma device_id_no_zero g : guid_words g → no_zero (device_id_chars g).
Proof.
  intros (_ & _ & _ & _ & Hb). unfold device_id_chars, guid_body, no_zero.
  rewrite !Forall_app. split_and!; [by repeat constructor|..|by repeat constructor].
  - apply values_text_no_zero, guid_values_nibbles.
  - by apply bytes_text_no_zero.
Qed.

Lemma mtu_id_no_zero mtu ds :
  0 ≤ mtu → Printer.mtu_digits 10 mtu = Some ds → no_zero (mtu_id_chars ds).
Proof.
  intros H0 Hds. apply mtu_digits_are_digits in Hds as [Hds _]; [|done].
  unfold mtu_id_chars, no_zero. rewrite Forall_app, Forall_reverse.
  split; [by repeat constructor|]. eapply Forall_impl; [exact Hds|].
  unfold is_digit. lia.
Qed.

Definition compatible_chars : list Z := u16s "WINTAPBUS\WinTapChild".

Lemma published_ids_text g mtu :
  guid_words g → fits 32 mtu →
  ∃ ds, Printer.mtu_digits 10 mtu = Some ds ∧ (length ds ≤ 10)%nat ∧
    published_ids g mtu =
      Some (device_id_chars g ++ [0] ++ mtu_id_chars ds ++ [0] ++ compatible_chars ++ [0; 0]).
Proof.
  intros Hg Hm. destruct (child_mtu_hardware_id_text mtu Hm) as (ds & Hds & Hlen & Hid).
  exists ds. split; [done|]. split; [done|].
  unfold published_ids. rewrite (child_device_id_text g Hg), Hid. cbn [mbind option_bind].
  unfold written. cbn [fst]. rewrite <- !app_assoc. cbn [app].
  pose proof Hg as (_ & _ & _ & Hl & _).
  rewrite unicode_chars_text.
  - rewrite unicode_chars_text.
    + done.
    + eapply mtu_id_no_zero; [apply Hm|done].
    + unfold mtu_id_chars. rewrite len_app. change (len (u16s "WINTAPBUSMTU\")) with 13.
      unfold len. rewrite length_reverse. lia.
  - by apply device_id_no_zero.
  - unfold device_id_chars. rewrite !len_app, guid_body_len by done. done.
Qed.

Lemma device_id_len g : guid_words g → len (device_id_chars g) = 48.
Proof.
  intros (_ & _ & _ & Hl & _). unfold device_id_chars. rewrite !len_app.
  by rewrite guid_body_len.
Qed.

Lemma mtu_id_len ds : (length ds ≤ 10)%nat → 13 ≤ len (mtu_id_chars ds) ≤ 23.
Proof.
  intros. unfold mtu_id_chars. rewrite len_app. change (len (u16s "WINTAPBUSMTU\")) with 13.
  unfold len. rewrite length_reverse. lia.
Qed.

(** The whole list, scanned from its start. *)
Lemma scan_published fuel g mtu ds rest :
  guid_words g → Parser.DEFAULT_MTU ≤ mtu ≤ Parser.MAXIMUM_MTU →
  Printer.mtu_digits 10 mtu = Some ds →
  let ids := device_id_chars g ++ [0] ++ mtu_id_chars ds ++ [0] ++ compatible_chars ++ [0; 0] in
  Parser.scan_ids (4 + fuel) (ids ++ rest) (len ids) (len (@nil Z)) None None = Some (Ok (Some g, Some mtu)).
Proof.
  intros Hg Hm Hds ids. unfold ids.
  assert (0 ≤ mtu) as Hm0 by (unfold Parser.DEFAULT_MTU in Hm; lia).
  pose proof (device_id_no_zero g Hg) as Hz1.
  pose proof (mtu_id_no_zero mtu ds Hm0 Hds) as Hz2.
  pose proof (device_id_len g Hg) as Hl1.
  assert (scan_one (device_id_chars g) None None = Some (Ok (Some g, None))) as Hone1.
  { unfold scan_one. rewrite (parse_device_id g Hg). cbn [mbind option_bind].
    assert (Parser.starts_with (device_id_chars g) (u16s "WINTAPBUSMTU\") = false) as ->; [|done].
    unfold Parser.starts_with, device_id_chars. apply bool_decide_eq_false. done. }
  assert (scan_one (mtu_id_chars ds) (Some g) None = Some (Ok (Some g, Some mtu))) as Hone2.
  { unfold scan_one. rewrite (parse_mtu_id mtu ds Hm Hds).
    assert (Parser.parse_child_guid_from_hardware_id (mtu_id_chars ds) = Some None) as ->.
    { unfold Parser.parse_child_guid_from_hardware_id.
      assert (Parser.starts_with (mtu_id_chars ds) (u16s "WINTAPBUS\{") = false) as ->; [|done].
      apply bool_decide_eq_false. done. }
    cbn [mbind option_bind]. unfold mtu_id_chars. by rewrite starts_with_app. }
  assert (scan_one compatible_chars (Some g) (Some mtu) = Some (Ok (Some g, Some mtu)))
    as Hone3 by (by vm_compute).
  set (p1 := device_id_chars g) in *. set (p2 := mtu_id_chars ds) in *.
  set (p3 := compatible_chars) in *.
  assert (p1 ≠ []) as Hne1 by (intros ->; done).
  assert (p2 ≠ []) as Hne2 by done. assert (p3 ≠ []) as Hne3 by done.
  assert (no_zero p3) as Hz3 by (by repeat constructor).
  change (4 + fuel)%nat with (S (S (S (S fuel)))).
  set (cc := len (p1 ++ [0] ++ p2 ++ [0] ++ p3 ++ [0; 0])).
  replace ((p1 ++ [0] ++ p2 ++ [0] ++ p3 ++ [0; 0]) ++ rest)
    with ([] ++ p1 ++ 0 :: (p2 ++ [0] ++ p3 ++ [0; 0]) ++ rest)
    by (by rewrite <- !app_assoc).
  rewrite scan_ids_step by done. rewrite Hone1. cbn [mbind option_bind]. rewrite app_nil_l.
  replace ((p2 ++ [0] ++ p3 ++ [0; 0]) ++ rest) with (p2 ++ 0 :: (p3 ++ [0; 0]) ++ rest)
    by (by rewrite <- !app_assoc).
  rewrite scan_ids_step; [|done..|by unfold cc; rewrite <- !app_assoc].
  rewrite Hone2. cbn [mbind option_bind].
  replace ((p3 ++ [0; 0]) ++ rest) with (p3 ++ 0 :: [0] ++ rest)
    by (by rewrite <- !app_assoc).
  rewrite scan_ids_step; [|done..|by unfold cc; rewrite <- !app_assoc].
  rewrite Hone3. cbn [mbind option_bind app].
  replace cc with (len (((p1 ++ [0]) ++ p2 ++ [0]) ++ p3 ++ [0] ++ [0]))
    by (unfold cc; by rewrite <- !app_assoc).
  set (pre := ((p1 ++ [0]) ++ p2 ++ [0]) ++ p3 ++ [0]).
  replace (((p1 ++ [0]) ++ p2 ++ [0]) ++ p3 ++ [0] ++ [0]) with (pre ++ [0])
    by (unfold pre; by rewrite <- !app_assoc).
  apply scan_ids_end.
Qed.

(** What the bus published, read back. *)
Lemma published_read_back (g : GUID) (mtu : Z)
    (Hg : guid_words g) (Hmtu : Parser.DEFAULT_MTU ≤ mtu ≤ Parser.MAXIMUM_MTU) :
  ∃ ids, published_ids g mtu = Some ids ∧ len ids ≤ 128 ∧
    ∀ query rest, len (ids ++ rest) = 128 → query 256 = (0, ids ++ rest, 2 * len ids) →
      Parser.child_properties_from_hardware_id query = Some (Ok (g, mtu)).
Proof.
  unfold Parser.DEFAULT_MTU, Parser.MAXIMUM_MTU in Hmtu.
  assert (fits 32 mtu) as Hm by (unfold fits; change (2 ^ 32) with 4294967296; lia).
  destruct (published_ids_text g mtu Hg Hm) as (ds & Hds & Hlen & ->).
  eexists. split; [done|]. split.
  { rewrite !len_app, device_id_len by done. pose proof (mtu_id_len ds Hlen).
    change (len compatible_chars) with 21. change (len [0]) with 1. change (len [0; 0]) with 2. lia. }
  intros query rest Hrest Hq. unfold Parser.child_properties_from_hardware_id.
  change (128 * 2) with 256. rewrite Hq.
  set (ids := device_id_chars g ++ _) in *. unfold Parser.STATUS_SUCCESS. cbn [Z.eqb negb].
  rewrite Z.mul_comm, Z.mod_mul, Z.div_mul by done. cbn [Z.eqb negb].
  rewrite Z.min_l by (rewrite len_app; pose proof (len_nonneg rest); lia).
  change 129%nat with (4 + 125)%nat. 
  pose proof (scan_published 125 g mtu ds rest Hg Hmtu Hds) as Hscan.
  change (len []) with 0 in Hscan. unfold ids. by rewrite Hscan.
Qed.

(** The adapter driver reads back exactly the identity the bus driver
    published.  For every GUID and every MTU the bus accepts, the three
    identifiers it formats fit their arrays and, as the device's hardware-id
    list, fit the 128 characters the adapter asks for; from that property value,
    whatever follows it in the buffer, the adapter recovers the same GUID and
    the same MTU. *)
Theorem child_identity_round_trip (g : GUID) (mtu : Z)
    (Hg : guid_words g) (Hmtu : Parser.DEFAULT_MTU ≤ mtu ≤ Parser.MAXIMUM_MTU) :
  ∃ ids, published_ids g mtu = Some ids ∧ len ids ≤ 128 ∧
    ∀ query rest, len (ids ++ rest) = 128 → query 256 = (0, ids ++ rest, 2 * len ids) →
      Parser.child_properties_from_hardware_id query = Some (Ok (g, mtu)).
Proof. exact (published_read_back g mtu Hg Hmtu). Qed.

Definition example_guid : GUID :=
  {| Data1 := 0x12345678; Data2 := 0x9abc; Data3 := 0xdef0;
     Data4 := [1; 2; 3; 4; 5; 6; 7; 255] |}.

Lemma child_identity_round_trip_witness :
  ∃ ids, published_ids example_guid 9000 = Some ids ∧
    Parser.child_properties_from_hardware_id
      (λ _, (0, ids ++ replicate (Z.to_nat (128 - len ids)) 0, 2 * len ids)) =
    Some (Ok (example_guid, 9000)).
Proof.
  destruct (child_identity_round_trip example_guid 9000) as (ids & Hids & Hlen & Hread).
  - unfold guid_words, is_byte, fits. cbn. split_and!; try lia. repeat constructor; cbn; lia.
  - unfold Parser.DEFAULT_MTU, Parser.MAXIMUM_MTU. lia.
  - exists ids. split; [exact Hids|]. eapply Hread; [|reflexivity].
    rewrite len_app. unfold len at 2. rewrite length_replicate. lia.
Defined.

(** ** The parsers never panic *)

Lemma guid_of_digits_total ds : length ds = 32%nat → is_Some (Parser.guid_of_digits ds).
Proof.
  intros Hl. unfold Parser.guid_of_digits.
  assert (∀ i, 0 ≤ i ≤ 30 → is_Some (Parser.byte_of ds i)) as Hb.
  { intros i Hi. unfold Parser.byte_of.
    destruct (at_index_is_Some ds i) as [x ->]; [unfold len; lia|].
    destruct (at_index_is_Some ds (i + 1)) as [y ->]; [unfold len; lia|]. by eexists. }
  repeat match goal with
  | |- context [Parser.byte_of ds ?i] =>
      destruct (Hb i) as [? ->]; [lia|]; cbn [mbind option_bind]
  end.
  by eexists.
Qed.

Lemma parse_guid_loop_total cs : ∀ ds n,
  length ds = 32%nat → 0 ≤ n ≤ 32 → is_Some (Parser.parse_guid_loop cs ds n).
Proof.
  induction cs as [|c cs IH]; intros ds n Hl Hn; [by eexists|]. cbn [Parser.parse_guid_loop].
  destruct (c =? 125).
  { destruct (negb _); [by eexists|]. destruct (guid_of_digits_total ds Hl) as [g ->]. by eexists. }
  destruct (c =? 45); [by apply IH|]. destruct (Parser.hex_nibble c) as [v|]; [|by eexists].
  destruct (Z.eqb_spec n (len ds)) as [|Hne]; [by eexists|].
  assert (0 ≤ n < len ds) as Hr by (unfold len in *; lia).
  destruct (at_index_is_Some ds n Hr) as [x ->]. cbn [mbind option_bind].
  apply IH; [by rewrite length_insert|unfold len in *; lia].
Qed.

Lemma starts_with_len l p : Parser.starts_with l p = true → len p ≤ len l.
Proof.
  unfold Parser.starts_with, len. intros H. apply bool_decide_eq_true in H.
  rewrite <- H at 1. rewrite length_take. lia.
Qed.

Lemma parse_child_guid_total s : is_Some (Parser.parse_child_guid_from_hardware_id s).
Proof.
  unfold Parser.parse_child_guid_from_hardware_id.
  destruct (Parser.starts_with _ _) eqn:Hs; cbn [negb]; [|by eexists].
  apply starts_with_len in Hs. change (len (u16s "WINTAPBUS\{")) with 11 in Hs.
  rewrite slice_spec by lia. cbn [mbind option_bind].
  apply parse_guid_loop_total; [done|lia].
Qed.

Lemma parse_child_mtu_total s : is_Some (Parser.parse_child_mtu_from_hardware_id s).
Proof.
  unfold Parser.parse_child_mtu_from_hardware_id.
  destruct (Parser.starts_with _ _) eqn:Hs; cbn [negb]; [|by eexists].
  apply starts_with_len in Hs. change (len (u16s "WINTAPBUSMTU\")) with 13 in Hs.
  rewrite slice_spec by lia. by eexists.
Qed.

Lemma position_zero_bound l n : Printer.position_zero l = Some n → 0 ≤ n < len l.
Proof.
  revert n. induction l as [|c l IH]; intros n H; cbn in H; [done|].
  rewrite len_cons. pose proof (len_nonneg l).
  split_if_in H; [injection H as <-; lia|].
  destruct (Printer.position_zero l) as [m|]; [|done]. cbn in H. injection H as <-.
  specialize (IH m eq_refl). lia.
Qed.

Definition mtu_ok (mtu : option Z) : Prop :=
  match mtu with
  | Some v => Parser.DEFAULT_MTU ≤ v ≤ Parser.MAXIMUM_MTU
  | None => True
  end.

Lemma parse_child_mtu_bounds s v :
  Parser.parse_child_mtu_from_hardware_id s = Some (Some v) → mtu_ok (Some v).
Proof.
  unfold Parser.parse_child_mtu_from_hardware_id. intros H. split_if_in H; [done|].
  destruct (slice s 13 (len s)) as [rest|]; [|done]. cbn [mbind option_bind] in H.
  injection H as H. destruct (Parser.parse_mtu_loop rest 0) as [x|]; [|done].
  cbn [mbind option_bind] in H. split_if_in H; [|done]. injection H as <-.
  bool_reflect. cbn. lia.
Qed.

Lemma scan_ids_total fuel : ∀ ids cc offset guid mtu,
  0 ≤ offset → cc ≤ len ids → cc - offset < Z.of_nat fuel → mtu_ok mtu → fuel ≠ O →
  ∃ r, Parser.scan_ids fuel ids cc offset guid mtu = Some r ∧
    match r with Ok (_, m) => mtu_ok m | Err _ => True end.
Proof.
  induction fuel as [|fuel IH]; intros ids cc offset guid mtu H0 Hcc Hf Hm Hne; [done|].
  cbn [Parser.scan_ids]. destruct (Z.ltb_spec offset cc); cbn [negb]; [|by eexists].
  rewrite slice_spec by lia. cbn [mbind option_bind].
  destruct (Printer.position_zero _) as [n|] eqn:Hn; [|by eexists].
  apply position_zero_bound in Hn. unfold len in Hn. rewrite length_take, length_drop in Hn.
  destruct (n =? 0); [by eexists|].
  rewrite slice_spec by (unfold len in *; lia). cbn [mbind option_bind].
  set (id := take _ _). destruct (parse_child_guid_total id) as [parsed ->].
  cbn [mbind option_bind].
  destruct (Parser.starts_with _ _); [|apply IH; lia || done].
  destruct (parse_child_mtu_total id) as [[v|] Hv]; rewrite Hv; cbn [mbind option_bind];
    [|by eexists].
  apply IH; [lia..|by eapply parse_child_mtu_bounds|lia].
Qed.

(** Reading the hardware identifiers never panics and always terminates:
    whatever 128 characters, length and status the framework returns (missing
    terminators, odd lengths, lengths beyond the buffer, malformed digits), the
    adapter returns a value, and an accepted MTU is between 1,500 and 65,521. *)
Theorem child_properties_total (query : Z → Z * list Z * Z)
    (Hbuffer : ∀ status ids n, query 256 = (status, ids, n) → len ids = 128 ∧ 0 ≤ n) :
  ∃ r, Parser.child_properties_from_hardware_id query = Some r ∧
    ∀ g mtu, r = Ok (g, mtu) → 1500 ≤ mtu ≤ 65521.
Proof.
  unfold Parser.child_properties_from_hardware_id. change (128 * 2) with 256.
  destruct (query 256) as [[st ids] n] eqn:Hq. destruct (Hbuffer _ _ _ eq_refl) as [Hl Hn].
  destruct (negb _); [by eexists|]. destruct (negb _); [by eexists|].
  destruct (scan_ids_total 129 ids (Z.min (n / 2) (len ids)) 0 None None)
    as (r & -> & Hr); [lia|lia|lia|done|done|].
  cbn [mbind option_bind].
  destruct r as [[[g|] [m|]]|e]; eexists; (split; [done|]); intros g' mtu' [= <- <-].
  - exact Hr.
  - done.
Qed.

Lemma child_properties_total_witness :
  ∃ r, Parser.child_properties_from_hardware_id (λ _, (0, replicate 128 87, 256)) = Some r.
Proof.
  destruct (child_properties_total (λ _, (0, replicate 128 87, 256))) as (r & Hr & _).
  - intros st ids n [= <- <- <-]. split; [reflexivity|lia].
  - exists r. exact Hr.
Defined.
