(* ===== verification/Effects.v ===== *)
(** * Effects: state, calls to the framework, and undefined behaviour

    A driver handler reads and writes the driver's memory and calls the
    framework (WDF, the pool allocator, other threads running in between).  It
    is modelled as a state-passing function over
    - the driver's memory, of a type [S] each component chooses;
    - an environment that answers every call, knowing all earlier calls and
      answers, and that may change the memory while the call runs (a callback,
      another thread);
    - the world, the list of calls made so far with their answers, the most
      recent first.
    [None] is undefined behaviour, a panic, or a loop that ran out of fuel.

    What an environment may do is a relation, the contract of the component.
    [wp] states that a handler runs to its end without undefined behaviour and
    what holds then; since the environment is universally quantified in every
    theorem, a [wp] covers all answers and all interleavings the contract
    allows. *)

From S2P Require Import Prelude.

Section effects.
Context {S call : Type} {ret : call → Type}.

Definition event : Type := sigT ret.
Definition world : Type := list event.
Definition env : Type := world → ∀ c : call, S → ret c * S.

Definition M (A : Type) : Type := env → S → world → option (A * S * world).

#[export] Instance M_ret : MRet M := λ A a e s w, Some (a, s, w).

#[export] Instance M_bind : MBind M := λ A B f m e s w,
  match m e s w with
  | Some (a, s', w') => f a e s' w'
  | None => None
  end.

Definition do_call (c : call) : M (ret c) := λ e s w,
  let r := e w c s in Some (r.1, r.2, existT c r.1 :: w).

Definition get : M S := λ e s w, Some (s, s, w).
Definition put (s' : S) : M unit := λ e s w, Some (tt, s', w).
Definition undefined {A} : M A := λ e s w, None.

Definition from_option {A} (o : option A) : M A :=
  match o with Some a => mret a | None => undefined end.

(** ** Errors as values, loops

    [x ←? m; k] is Rust's [let x = m?; k] for a handler that returns a
    [Result].  [loop_total] is a loop whose body says whether to go on; running
    out of fuel is undefined, so a [wp] proves the fuel enough. *)

Definition bind_ok {A B E} (f : A → M (result B E)) (m : M (result A E)) : M (result B E) :=
  r ← m;
  match r with
  | Ok a => f a
  | Err x => mret (Err x)
  end.

Fixpoint loop_total {A B} (fuel : nat) (body : A → M (A + B)) (a : A) : M B :=
  match fuel with
  | O => undefined
  | Datatypes.S fuel =>
      r ← body a;
      match r with
      | inl a => loop_total fuel body a
      | inr b => mret b
      end
  end.

(** [for x in l { body }], left by the first error. *)
Fixpoint for_each {A E} (l : list A) (body : A → M (result unit E)) : M (result unit E) :=
  match l with
  | [] => mret (Ok tt)
  | x :: l => bind_ok (λ _, for_each l body) (body x)
  end.

(** ** Contracts and weakest preconditions *)

Definition contract : Type := world → ∀ c : call, S → ret c → S → Prop.

Definition respects (K : contract) (e : env) : Prop :=
  ∀ w c s, K w c s (e w c s).1 (e w c s).2.

Definition wp {A} (e : env) (m : M A) (Q : A → S → world → Prop) (s : S) (w : world) : Prop :=
  ∃ a s' w', m e s w = Some (a, s', w') ∧ Q a s' w'.

Lemma wp_ret {A} e (a : A) Q s w : Q a s w → wp e (mret a) Q s w.
Proof. by exists a, s, w. Qed.

Lemma wp_bind {A B} e (m : M A) (f : A → M B) Q s w :
  wp e m (λ a s' w', wp e (f a) Q s' w') s w → wp e (m ≫= f) Q s w.
Proof.
  intros (a & s' & w' & Hm & b & s2 & w2 & Hf & HQ).
  exists b, s2, w2. split; [|done]. unfold mbind, M_bind. by rewrite Hm.
Qed.

Lemma wp_assoc {A B C} e (m : M A) (f : A → M B) (g : B → M C) Q s w :
  wp e ((m ≫= f) ≫= g) Q s w → wp e (m ≫= λ a, f a ≫= g) Q s w.
Proof.
  intros (c & s' & w' & H & HQ). exists c, s', w'. split; [|done]. revert H. unfold mbind, M_bind.
  by destruct (m e s w) as [[[a s1] w1]|].
Qed.

Lemma wp_regroup {A B C} e (m : M A) (f : A → M B) (g : B → M C) Q s w :
  wp e (m ≫= λ a, f a ≫= g) Q s w → wp e ((m ≫= f) ≫= g) Q s w.
Proof.
  intros (c & s' & w' & H & HQ). exists c, s', w'. split; [|done]. revert H. unfold mbind, M_bind.
  by destruct (m e s w) as [[[a s1] w1]|].
Qed.

Lemma wp_mono {A} e (m : M A) (P Q : A → S → world → Prop) s w :
  wp e m P s w → (∀ a s' w', P a s' w' → Q a s' w') → wp e m Q s w.
Proof. intros (a & s' & w' & Hm & HP) HPQ. exists a, s', w'. auto. Qed.

(** A run has one result. *)
Lemma wp_and {A} e (m : M A) (P Q : A → S → world → Prop) (H : Prop) s w :
  wp e m P s w → (H → wp e m Q s w) → wp e m (λ a s' w', P a s' w' ∧ (H → Q a s' w')) s w.
Proof.
  intros (a & s' & w' & Hm & HP) HQ. exists a, s', w'. split; [done|]. split; [done|].
  intros Hh. destruct (HQ Hh) as (a2 & s2 & w2 & Hm2 & HQ2). rewrite Hm in Hm2. by simplify_eq.
Qed.

Lemma wp_get e Q s w : Q s s w → wp e get Q s w.
Proof. by exists s, s, w. Qed.

Lemma wp_put e s' Q s w : Q tt s' w → wp e (put s') Q s w.
Proof. by exists tt, s', w. Qed.

Lemma wp_from_option {A} e (o : option A) Q s w :
  (∃ a, o = Some a ∧ Q a s w) → wp e (from_option o) Q s w.
Proof. intros (a & -> & HQ). by apply wp_ret. Qed.

Lemma wp_call (K : contract) e c Q s w :
  respects K e →
  (∀ r s', K w c s r s' → Q r s' (existT c r :: w)) → wp e (do_call c) Q s w.
Proof.
  intros He HQ. exists (e w c s).1, (e w c s).2, (existT c (e w c s).1 :: w).
  split; [done|]. apply HQ, He.
Qed.

Lemma wp_bind_ok {A B E} e (m : M (result A E)) (f : A → M (result B E)) Q s w :
  wp e m (λ r s' w', match r with
                     | Ok a => wp e (f a) Q s' w'
                     | Err x => Q (Err x) s' w'
                     end) s w →
  wp e (bind_ok f m) Q s w.
Proof.
  intros Hm. apply wp_bind. apply (wp_mono _ _ _ _ _ _ Hm). intros [a|x] s' w' H; [done|].
  by apply wp_ret.
Qed.

(** A loop under an invariant with a decreasing measure. *)
Lemma wp_loop_total {A B} e (body : A → M (A + B)) (I : A → S → world → nat → Prop) Q :
  (∀ a s w n, I a s w n → wp e (body a) (λ r s' w',
     match r with inl a' => ∃ n', (n' < n)%nat ∧ I a' s' w' n' | inr b => Q b s' w' end) s w) →
  ∀ fuel a s w n, (n < fuel)%nat → I a s w n → wp e (loop_total fuel body a) Q s w.
Proof.
  intros Hbody. induction fuel as [|fuel IH]; intros a s w n Hn HI; [lia|]. cbn.
  apply wp_bind. apply (wp_mono _ _ _ _ _ _ (Hbody a s w n HI)).
  intros [a'|b] s' w' H; [|by apply wp_ret].
  destruct H as (n' & Hlt & HI'). apply (IH a' s' w' n'); [lia|done].
Qed.

Lemma wp_for_each {A E} e (l : list A) (body : A → M (result unit E))
    (I : list A → S → world → Prop) (Q : result unit E → S → world → Prop) s w :
  (∀ x l' s w, I (x :: l') s w → wp e (body x) (λ r s' w',
     match r with Ok _ => I l' s' w' | Err x => Q (Err x) s' w' end) s w) →
  (∀ s w, I [] s w → Q (Ok tt) s w) →
  I l s w → wp e (for_each l body) Q s w.
Proof.
  intros Hbody Hend. revert s w. induction l as [|x l IH]; intros s w HI; cbn.
  - apply wp_ret, Hend, HI.
  - apply wp_bind_ok. apply (wp_mono _ _ _ _ _ _ (Hbody x l s w HI)).
    intros [[]|err] s' w' H; [by apply IH|done].
Qed.

End effects.

Notation "x ←? m ; k" := (bind_ok (λ x, k) m)
  (at level 20, m at level 100, k at level 200, right associativity,
   format "x  ←?  m ;  '//' k") : rust_scope.
Notation "' x ←? m ; k" := (bind_ok (λ y, match y with x => k end) m)
  (at level 20, x pattern, m at level 100, k at level 200, right associativity,
   format "' x  ←?  m ;  '//' k") : rust_scope.

Arguments event {call} ret.
Arguments world {call} ret.
Arguments env S {call} ret.
Arguments M S {call} ret A.
Arguments contract S {call} ret.
Arguments wp {S call ret A} e m Q s w : simpl never.

(** One step through a handler: the next primitive of a [wp] goal. *)
Ltac wp_bind := apply wp_bind.
Ltac wp_get := apply wp_bind, wp_get.
Ltac wp_put := apply wp_bind, wp_put.
Ltac wp_ret := first [apply wp_ret | apply wp_bind, wp_ret].
Ltac wp_opt x := apply wp_bind, wp_from_option; exists x; split.
Ltac wp_do K H :=
  lazymatch goal with
  | |- wp ?e (do_call ?c) ?Q ?s ?w => refine (wp_call K e c Q s w H _)
  end.
