(* ===== verification/Conc.v ===== *)
(** * Concurrent programs over shared memory

    The driver's lock-free code (callback leases, the adaptive wait) runs on
    several threads that share atomics.  Here such a thread is a program: a
    tree of atomic actions, each continued by its answer.  A configuration is
    the shared memory with a pool of programs; a step runs one atomic action
    of one thread, lets the framework change the memory, or starts a thread,
    so a sequence of steps is an arbitrary interleaving.

    A compare-and-swap or polling loop is written with fuel; a thread out of
    fuel is [Diverge] and takes no more steps.  Every finite run of the real
    loop is a run of the model with enough fuel, so a property of all
    reachable configurations at all fuels is a property of the real loop.

    Programs are verified one at a time.  Every thread has a ghost role; the
    invariant of a component relates the memory to the roles of all threads;
    [safe p Q r] says that every action of [p] is one its role allows and,
    begun in role [r], keeps the invariant whatever the roles of the other
    threads are, and that [p] ends in a role [Q] accepts.  [pool_invariant] turns this into an invariant of
    all reachable configurations. *)

From S2P Require Import Prelude.

Section conc.
Context {S act : Type} {ret : act → Type}.

Inductive prog (A : Type) : Type :=
  | Ret (a : A)
  | Act (c : act) (k : ret c → prog A)
  | Diverge.
Arguments Ret {A} a.
Arguments Act {A} c k.
Arguments Diverge {A}.

#[export] Instance prog_ret : MRet prog := @Ret.

#[export] Instance prog_bind : MBind prog :=
  fix go A B f p {struct p} :=
    match p with
    | Ret a => f a
    | Act c k => Act c (λ r, @go A B f (k r))
    | Diverge => Diverge
    end.

Definition act1 (c : act) : prog (ret c) := Act c Ret.

(** [exec s c] lists the possible outcomes of the atomic action [c]; [env]
    is what the framework and unmodelled code may do to the memory; [spawn]
    lists the threads that may start. *)
Variable exec : S → ∀ c : act, list (ret c * S).
Variable env : S → S → Prop.
Variable spawn : S → prog unit → S → Prop.

Definition config : Type := S * list (prog unit).

Inductive step : config → config → Prop :=
  | step_thread s s' P i c k r :
      P !! i = Some (Act c k) → (r, s') ∈ exec s c → step (s, P) (s', <[i := k r]> P)
  | step_env s s' P : env s s' → step (s, P) (s', P)
  | step_spawn s s' P p : spawn s p s' → step (s, P) (s', P ++ [p]).

(** ** Verification of one thread *)

Context {role : Type}.
Variable Inv : S → list role → Prop.
(** The actions a thread may be about to run in a role. *)
Variable allowed : act → role → Prop.

Fixpoint safe {A} (p : prog A) (Q : A → role → Prop) (x : role) : Prop :=
  match p with
  | Ret a => Q a x
  | Act c k => allowed c x ∧ ∀ s R i, R !! i = Some x → Inv s R →
      ∀ r s', (r, s') ∈ exec s c →
      ∃ y, Inv s' (<[i := y]> R) ∧ safe (k r) Q y
  | Diverge => True
  end.

Lemma safe_ret {A} (a : A) (Q : A → role → Prop) x : Q a x → safe (mret a) Q x.
Proof. done. Qed.

Lemma safe_mono {A} (p : prog A) (Q Q' : A → role → Prop) x :
  safe p Q x → (∀ a y, Q a y → Q' a y) → safe p Q' x.
Proof.
  intros Hp HQ. revert x Hp. induction p as [a|c k IH|]; cbn; intros x Hp; [by auto| |done].
  destruct Hp as [Ha Hp]. split; [done|].
  intros s R i Hi HI r s' Hr. destruct (Hp s R i Hi HI r s' Hr) as (y & HI' & Hk). eauto.
Qed.

Lemma safe_bind {A B} (p : prog A) (f : A → prog B) (Q : B → role → Prop) x :
  safe p (λ a y, safe (f a) Q y) x → safe (p ≫= f) Q x.
Proof.
  revert x. induction p as [a|c k IH|]; cbn; intros x Hp; [done| |done].
  destruct Hp as [Ha Hp]. split; [done|].
  intros s R i Hi HI r s' Hr. destruct (Hp s R i Hi HI r s' Hr) as (y & HI' & Hk).
  exists y. split; [done|]. by apply (IH r).
Qed.

Lemma safe_act (c : act) (Q : ret c → role → Prop) x :
  allowed c x →
  (∀ s R i, R !! i = Some x → Inv s R → ∀ r s', (r, s') ∈ exec s c →
     ∃ y, Inv s' (<[i := y]> R) ∧ Q r y) →
  safe (act1 c) Q x.
Proof. done. Qed.

(** ** The invariant of the pool *)

Variable final : role → Prop.

Definition pool_ok (C : config) (R : list role) : Prop :=
  Inv C.1 R ∧ Forall2 (λ p x, safe p (λ _, final) x) C.2 R.

Hypothesis env_ok : ∀ s s' R, Inv s R → env s s' → Inv s' R.
Hypothesis spawn_ok : ∀ s s' p R, Inv s R → spawn s p s' →
  ∃ x, Inv s' (R ++ [x]) ∧ safe p (λ _, final) x.

Lemma pool_step C C' R : pool_ok C R → step C C' → ∃ R', pool_ok C' R'.
Proof.
  intros [HI HP] Hstep. destruct Hstep as [s s' P i c k r Hi Hr|s s' P He|s s' P p Hs]; cbn in *.
  - destruct (Forall2_lookup_l _ _ _ _ _ HP Hi) as (x & Hx & Hsafe). cbn in Hsafe.
    destruct Hsafe as [_ Hsafe]. destruct (Hsafe s R i Hx HI r s' Hr) as (y & HI' & Hk).
    exists (<[i := y]> R). split; [done|]. by apply Forall2_insert.
  - exists R. split; [by eapply env_ok|done].
  - destruct (spawn_ok _ _ _ _ HI Hs) as (x & HI' & Hp). exists (R ++ [x]).
    split; [done|]. apply Forall2_app; [done|]. by constructor.
Qed.

Lemma pool_invariant C C' R : pool_ok C R → star step C C' → ∃ R', pool_ok C' R'.
Proof.
  intros HC Hstar. induction Hstar as [|a b c Hab IH Hbc]; [by exists R|].
  destruct (IH HC) as [R1 HR1]. by eapply pool_step.
Qed.

(** Every thread is only about to run what its role allows. *)
Lemma pool_allowed C R i c k :
  pool_ok C R → C.2 !! i = Some (Act c k) → ∃ x, R !! i = Some x ∧ allowed c x.
Proof.
  intros [_ HP] Hi. destruct (Forall2_lookup_l _ _ _ _ _ HP Hi) as (x & Hx & [Ha _]). eauto.
Qed.

(** ** Running a schedule *)

(** One thread's next action with a chosen outcome. *)
Definition run_thread (C : config) (i n : nat) : option config :=
  match C.2 !! i with
  | Some (Act c k) =>
      match exec C.1 c !! n with
      | Some (r, s') => Some (s', <[i := k r]> C.2)
      | None => None
      end
  | _ => None
  end.

Fixpoint run_schedule (C : config) (l : list (nat * nat)) : option config :=
  match l with
  | [] => Some C
  | (i, n) :: l =>
      match run_thread C i n with
      | Some C' => run_schedule C' l
      | None => None
      end
  end.

Lemma run_thread_step C C' i n : run_thread C i n = Some C' → step C C'.
Proof.
  unfold run_thread. destruct C as [s P]. cbn.
  destruct (P !! i) as [[|c k|]|] eqn:Hi; try done.
  destruct (exec s c !! n) as [[r s']|] eqn:Hn; [|done].
  intros [= <-]. econstructor; [done|]. by eapply list_elem_of_lookup_2.
Qed.

Lemma run_schedule_star C C' l : run_schedule C l = Some C' → star step C C'.
Proof.
  intros H. enough (Hg : ∀ C0, star step C0 C → star step C0 C') by (apply Hg; constructor).
  revert C H. induction l as [|[i n] l IH]; cbn; intros C H C0 H0.
  - by simplify_eq.
  - destruct (run_thread C i n) as [C1|] eqn:H1; [|done]. apply (IH C1); [done|].
    econstructor; [done|]. by eapply run_thread_step.
Qed.

(** The configuration a schedule leads to. *)
Definition scheduled (C : config) (l : list (nat * nat)) : config :=
  default C (run_schedule C l).

Definition runs (C : config) (l : list (nat * nat)) : bool :=
  match run_schedule C l with Some _ => true | None => false end.

Lemma scheduled_star C l : runs C l = true → star step C (scheduled C l).
Proof.
  unfold runs, scheduled. destruct (run_schedule C l) eqn:H; [|done]. intros _.
  by eapply run_schedule_star.
Qed.

(** What a thread is about to do. *)
Definition next_action (C : config) (i : nat) : option act :=
  match C.2 !! i with Some (Act c _) => Some c | _ => None end.

Lemma next_allowed C R i c :
  pool_ok C R → next_action C i = Some c → ∃ x, R !! i = Some x ∧ allowed c x.
Proof.
  unfold next_action. intros HC H.
  destruct (C.2 !! i) as [[|c' k|]|] eqn:Hi; simplify_eq. by eapply pool_allowed.
Qed.

Definition finished (p : prog unit) : Prop := match p with Ret _ => True | _ => False end.

Lemma pool_finished C R : pool_ok C R → Forall finished C.2 → Forall final R.
Proof.
  intros [_ HP] Hf. induction HP as [|p x P R Hp HP IH]; [constructor|].
  inversion Hf; subst. constructor; [|auto]. by destruct p.
Qed.

End conc.

Arguments prog {act} ret A.
Arguments Ret {act ret A} a.
Arguments Act {act ret A} c k.
Arguments Diverge {act ret A}.
Arguments config S {act} ret.
Arguments finished {act ret} p.
Arguments next_action {S act ret} C i.
Arguments act1 : simpl never.

(** The next action of a [safe] goal. *)
Ltac safe_next :=
  lazymatch goal with
  | |- safe ?E ?I ?W (@mbind _ _ _ _ ?f ?p) ?Q ?x => refine (safe_bind E I W p f Q x _)
  end.
