(* ===== verification/Lease.v ===== *)
(** * Callback leases

    [DatapathLease] and the quiesce scopes of the packet driver (lib.rs
    145-155, 304-432).  Each direction has one atomic word: three closer bits
    and a 61-bit count of outstanding leases.  A packet callback takes a lease
    by compare-and-swap and gives it back; a teardown scope sets its closer
    bit in both words, waits for both counts to drain, works, and clears its
    bit again.

    The code is written as programs of [Conc], one atomic action per atomic
    access of the source, so the theorems hold for every interleaving of any
    number of callbacks with one serial thread of scopes per closer.  Scopes of
    one closer that overlap are outside that system; for the owner's closer they
    can, and what then goes wrong is shown on its own
    ([overlapping_owner_cleanups_readmit]). *)

From S2P Require Import Prelude Words DriverConstants Conc.

(** ** The word *)

Definition DATAPATH_CLOSED_ANY : Z :=
  Z.lor (Z.lor DATAPATH_CLOSED_POWER DATAPATH_CLOSED_HARDWARE) DATAPATH_CLOSED_OWNER.
Definition DATAPATH_LEASE_COUNT : Z := not_w 64 DATAPATH_CLOSED_ANY.

Inductive direction := Rx | Tx.
#[export] Instance direction_eq_dec : EqDecision direction.
Proof. solve_decision. Defined.

Record leases := { rx_callback_leases : Z; tx_callback_leases : Z }.

Definition word (s : leases) (d : direction) : Z :=
  match d with Rx => rx_callback_leases s | Tx => tx_callback_leases s end.

Definition set_word (s : leases) (d : direction) (w : Z) : leases :=
  match d with
  | Rx => {| rx_callback_leases := w; tx_callback_leases := tx_callback_leases s |}
  | Tx => {| rx_callback_leases := rx_callback_leases s; tx_callback_leases := w |}
  end.

(** [InstanceState::new] starts with the hardware closer set. *)
Definition initial_leases : leases :=
  {| rx_callback_leases := DATAPATH_CLOSED_HARDWARE;
     tx_callback_leases := DATAPATH_CLOSED_HARDWARE |}.

(** ** Atomic actions *)

Inductive lease_act :=
  | Load (d : direction)
  | CompareExchangeWeak (d : direction) (current new : Z)
  | FetchSub (d : direction) (n : Z)
  | FetchOr (d : direction) (mask : Z)
  | FetchAnd (d : direction) (mask : Z)
  | AtPassiveLevel
  | KeDelayExecutionThread
  | KeStallExecutionProcessor
  | CallbackBody (d : direction)     (* the packet callback's own work *)
  | TeardownWork (closer : Z).       (* the quiesce scope's own work *)

Definition lease_ret (a : lease_act) : Type :=
  match a with
  | Load _ | FetchSub _ _ | FetchOr _ _ | FetchAnd _ _ => Z
  | CompareExchangeWeak _ _ _ => result Z Z
  | AtPassiveLevel => bool
  | _ => unit
  end.

(** A weak compare-and-swap may fail spuriously. *)
Definition lease_exec (s : leases) (a : lease_act) : list (lease_ret a * leases) :=
  match a with
  | Load d => [(word s d, s)]
  | CompareExchangeWeak d current new =>
      if word s d =? current
      then [(Ok current, set_word s d new); (Err (word s d), s)]
      else [(Err (word s d), s)]
  | FetchSub d n => [(word s d, set_word s d (wrap 64 (word s d - n)))]
  | FetchOr d mask => [(word s d, set_word s d (Z.lor (word s d) mask))]
  | FetchAnd d mask => [(word s d, set_word s d (Z.land (word s d) mask))]
  | AtPassiveLevel => [(true, s); (false, s)]
  | KeDelayExecutionThread | KeStallExecutionProcessor
  | CallbackBody _ | TeardownWork _ => [(tt, s)]
  end.

Abbreviation thread := (prog lease_ret).

(** ** The code *)

(** The test of the acquisition loop: the word to swap in, or a refusal. *)
Definition acquire_next (observed : Z) : option Z :=
  if negb (Z.land observed DATAPATH_CLOSED_ANY =? 0)
     || (Z.land observed DATAPATH_LEASE_COUNT =? DATAPATH_LEASE_COUNT)
  then None
  else Some (observed + 1).

Fixpoint acquire_loop (fuel : nat) (d : direction) (observed : Z) : thread bool :=
  match fuel with
  | O => Diverge
  | S fuel =>
      match acquire_next observed with
      | None => mret false
      | Some next =>
          r ← act1 (CompareExchangeWeak d observed next);
          match r with
          | Ok _ => mret true
          | Err current => acquire_loop fuel d current
          end
      end
  end.

Definition DatapathLease_acquire (fuel : nat) (d : direction) : thread bool :=
  observed ← act1 (Load d);
  acquire_loop fuel d observed.

Definition DatapathLease_drop (d : direction) : thread unit :=
  _ ← act1 (FetchSub d 1);
  mret tt.

(** [state] is the instance pointer; a null instance grants no lease. *)
Definition acquire_receive_lease (fuel : nat) (state : Z) : thread bool :=
  if state =? 0 then mret false else DatapathLease_acquire fuel Rx.

Definition acquire_capture_lease (fuel : nat) (state : Z) : thread bool :=
  if state =? 0 then mret false else DatapathLease_acquire fuel Tx.

Fixpoint drain_datapath_leases (fuel : nat) (d : direction) : thread unit :=
  match fuel with
  | O => Diverge
  | S fuel =>
      w ← act1 (Load d);
      if negb (Z.land w DATAPATH_LEASE_COUNT =? 0)
      then
        passive ← act1 AtPassiveLevel;
        _ ← (if passive : bool then act1 KeDelayExecutionThread
             else act1 KeStallExecutionProcessor);
        drain_datapath_leases fuel d
      else mret tt
  end.

Definition quiesce_datapath_callbacks (fuel : nat) (state closer : Z) : thread unit :=
  if state =? 0 then mret tt
  else
    _ ← act1 (FetchOr Rx closer);
    _ ← act1 (FetchOr Tx closer);
    _ ← drain_datapath_leases fuel Rx;
    drain_datapath_leases fuel Tx.

Definition resume_datapath_callbacks (state closer : Z) : thread unit :=
  if state =? 0 then mret tt
  else
    _ ← act1 (FetchAnd Rx (not_w 64 closer));
    _ ← act1 (FetchAnd Tx (not_w 64 closer));
    mret tt.

(** [DatapathQuiesceGuard]: the scope quiesces, works and, whichever way it
    ends, resumes. *)
Definition with_quiesce_guard (fuel : nat) (state closer : Z) (work : thread unit) : thread unit :=
  _ ← quiesce_datapath_callbacks fuel state closer;
  _ ← work;
  resume_datapath_callbacks state closer.

(** ** The threads of the driver *)

Fixpoint bodies (n : nat) (d : direction) : thread unit :=
  match n with
  | O => mret tt
  | S n => _ ← act1 (CallbackBody d); bodies n d
  end.

(** A packet callback, or a passive read path: its work in [n] steps runs
    under a lease or not at all. *)
Definition leased_callback (fuel : nat) (state : Z) (d : direction) (n : nat) : thread unit :=
  granted ← match d with
            | Rx => acquire_receive_lease fuel state
            | Tx => acquire_capture_lease fuel state
            end;
  if granted : bool
  then _ ← bodies n d; DatapathLease_drop d
  else mret tt.

(** What the scopes of one closer do, one after another, in any order.  The
    framework calls D0 entry and exit, and prepare and release hardware, one
    after another.  For the owner's closer it is an assumption: the cleanup of a
    file and the cleanup of the next file may overlap. *)
Inductive scope_op := Quiesce | Work | Resume | Guarded (n : nat).

Fixpoint works (n : nat) (closer : Z) : thread unit :=
  match n with
  | O => mret tt
  | S n => _ ← act1 (TeardownWork closer); works n closer
  end.

(** [quiesced] records that the last operation on this closer quiesced; work
    that relies on quiescence is only done then. *)
Fixpoint scope_thread (fuel : nat) (state closer : Z) (quiesced : bool) (ops : list scope_op) :
    thread unit :=
  match ops with
  | [] => mret tt
  | Quiesce :: ops =>
      _ ← quiesce_datapath_callbacks fuel state closer;
      scope_thread fuel state closer true ops
  | Work :: ops =>
      _ ← (if quiesced then act1 (TeardownWork closer) else mret tt);
      scope_thread fuel state closer quiesced ops
  | Resume :: ops =>
      _ ← resume_datapath_callbacks state closer;
      scope_thread fuel state closer false ops
  | Guarded n :: ops =>
      _ ← with_quiesce_guard fuel state closer (works n closer);
      scope_thread fuel state closer false ops
  end.

Definition lease_spawn (s : leases) (p : thread unit) (s' : leases) : Prop :=
  s' = s ∧ ∃ fuel state d n, p = leased_callback fuel state d n.

Definition lease_step : config leases lease_ret → config leases lease_ret → Prop :=
  step lease_exec (λ _ _, False) lease_spawn.

(** The driver with its three closers, one serial thread each; callbacks start at
    any time.  The
    hardware closer starts set, which [InstanceState::new] arranges. *)
Definition lease_system (fuel : nat) (state : Z) (owner hardware power : list scope_op) :
    config leases lease_ret :=
  (initial_leases,
   [scope_thread fuel state DATAPATH_CLOSED_OWNER false owner;
    scope_thread fuel state DATAPATH_CLOSED_HARDWARE true hardware;
    scope_thread fuel state DATAPATH_CLOSED_POWER false power]).

(** ** The word as closers and count *)

(** [k] holds the three closer bits (owner 1, hardware 2, power 4). *)
Definition packed (k n : Z) : Z := n + k * 2 ^ 61.

Lemma packed_lor k n : fits 61 n → 0 ≤ k → packed k n = Z.lor n (Z.shiftl k 61).
Proof. intros. unfold packed. by rewrite lor_shiftl_add. Qed.

Lemma closed_any_mask : DATAPATH_CLOSED_ANY = Z.shiftl 7 61.
Proof. reflexivity. Qed.

Lemma lease_count_mask : DATAPATH_LEASE_COUNT = Z.ones 61.
Proof. reflexivity. Qed.

Lemma low_high_0 n k : fits 61 n → Z.land n (Z.shiftl k 61) = 0.
Proof.
  intros Hn. apply Z.bits_inj'. intros i Hi. rewrite Z.land_spec, Z.bits_0.
  destruct (Z.ltb_spec i 61).
  - rewrite Z.shiftl_spec_low by done. apply andb_false_r.
  - by rewrite (testbit_fits 61 n) by done.
Qed.

Lemma packed_closed k n : fits 61 n → 0 ≤ k < 8 →
  Z.land (packed k n) DATAPATH_CLOSED_ANY = packed k 0.
Proof.
  intros Hn Hk. rewrite !packed_lor, closed_any_mask by (first [done|lia]).
  rewrite Z.land_lor_distr_l, low_high_0, !Z.lor_0_l, <- Z.shiftl_land by done.
  f_equal. change 7 with (Z.ones 3). apply land_ones_low; [done|].
  unfold fits. by change (2 ^ 3) with 8.
Qed.

Lemma packed_count k n : fits 61 n → 0 ≤ k → Z.land (packed k n) DATAPATH_LEASE_COUNT = n.
Proof.
  intros Hn Hk. rewrite lease_count_mask, Z.land_ones by done. unfold packed.
  rewrite Z.mod_add by done. by apply Z.mod_small.
Qed.

Lemma packed_or k n j : fits 61 n → 0 ≤ k → 0 ≤ j →
  Z.lor (packed k n) (Z.shiftl j 61) = packed (Z.lor k j) n.
Proof.
  intros Hn Hk Hj. rewrite !packed_lor by (first [done|lia|by apply Z.lor_nonneg]).
  by rewrite <- Z.lor_assoc, Z.shiftl_lor.
Qed.

Lemma packed_and_not k n j : fits 61 n → 0 ≤ k < 8 → 0 ≤ j < 8 →
  Z.land (packed k n) (not_w 64 (Z.shiftl j 61)) = packed (Z.land k (not_w 3 j)) n.
Proof.
  intros Hn Hk Hj.
  assert (Hk3 : fits 3 k) by (unfold fits; by change (2 ^ 3) with 8).
  assert (Hj3 : fits 3 j) by (unfold fits; by change (2 ^ 3) with 8).
  assert (0 ≤ Z.land k (not_w 3 j)) by (apply Z.land_nonneg; lia).
  rewrite !packed_lor by (first [done|lia]).
  apply Z.bits_inj'. intros i Hi.
  rewrite !Z.land_spec, !Z.lor_spec, !Z.shiftl_spec by done. rewrite Z.land_spec.
  destruct (Z.ltb_spec i 61); [|destruct (Z.ltb_spec i 64)].
  - rewrite not_w_spec by lia. rewrite Z.shiftl_spec by done.
    rewrite !(Z.testbit_neg_r _ (i - 61)) by lia.
    by destruct (Z.testbit n i).
  - rewrite not_w_spec, Z.shiftl_spec, (testbit_fits 61 n) by (first [done|lia]).
    rewrite not_w_spec by lia. done.
  - rewrite (testbit_fits 61 n), (testbit_fits 3 k) by (first [done|lia]). done.
Qed.

Lemma packed_fits k n : fits 61 n → 0 ≤ k < 8 → fits 64 (packed k n).
Proof.
  unfold fits, packed. change (2 ^ 61) with 2305843009213693952.
  change (2 ^ 64) with 18446744073709551616. lia.
Qed.

Lemma packed_inj k n k' n' : fits 61 n → fits 61 n' →
  packed k n = packed k' n' → k = k' ∧ n = n'.
Proof.
  unfold fits, packed. change (2 ^ 61) with 2305843009213693952. lia.
Qed.

(** The acquisition test, on the fields. *)
Lemma acquire_next_packed k n : fits 61 n → 0 ≤ k < 8 →
  acquire_next (packed k n)
  = if (k =? 0) && (n + 1 <? 2 ^ 61) then Some (packed 0 (n + 1)) else None.
Proof.
  intros Hn Hk. unfold acquire_next. rewrite packed_closed, packed_count by (first [done|lia]).
  rewrite lease_count_mask. unfold fits in Hn. unfold packed.
  change (Z.ones 61) with 2305843009213693951.
  change (2 ^ 61) with 2305843009213693952 in *.
  destruct (Z.eqb_spec k 0), (Z.ltb_spec (n + 1) 2305843009213693952),
    (Z.eqb_spec (0 + k * 2305843009213693952) 0), (Z.eqb_spec n 2305843009213693951);
    cbn; first [lia | f_equal; lia | done].
Qed.

(** ** Roles and the invariant *)

(** Per direction: the closer's bit is set; the count was seen drained since. *)
Record scope_state := { closed : direction → bool; drained : direction → bool }.

Inductive role :=
  | Idle
  | Leaseholder (d : direction)
  | Closer (i : nat) (c : scope_state).

Definition closer (i : nat) : Z := Z.shiftl (2 ^ Z.of_nat i) 61.

Definition closed_by (R : list role) (i : nat) (d : direction) : bool :=
  match R !! i with Some (Closer _ c) => closed c d | _ => false end.

Definition closers (R : list role) (d : direction) : Z :=
  Z.b2z (closed_by R 0 d) + 2 * Z.b2z (closed_by R 1 d) + 4 * Z.b2z (closed_by R 2 d).

Definition holds (d : direction) (x : role) : Z :=
  match x with Leaseholder d' => if decide (d' = d) then 1 else 0 | _ => 0 end.

Fixpoint holders (d : direction) (R : list role) : Z :=
  match R with [] => 0 | x :: R => holds d x + holders d R end.

Record lease_inv (s : leases) (R : list role) : Prop := {
  inv_scopes i : (i < 3)%nat → ∃ c, R !! i = Some (Closer i c);
  inv_callbacks i j c : R !! i = Some (Closer j c) → j = i ∧ (i < 3)%nat;
  inv_word d : word s d = packed (closers R d) (holders d R);
  inv_count d : fits 61 (holders d R);
  inv_drained i c d : R !! i = Some (Closer i c) → drained c d = true →
    closed c d = true ∧ holders d R = 0;
}.

Lemma closers_bound R d : 0 ≤ closers R d < 8.
Proof.
  unfold closers.
  destruct (closed_by R 0 d), (closed_by R 1 d), (closed_by R 2 d); cbn [Z.b2z]; lia.
Qed.
#[local] Hint Resolve closers_bound : core.

Lemma closers_0 R d i : closers R d = 0 → (i < 3)%nat → closed_by R i d = false.
Proof.
  unfold closers. intros H Hi. destruct i as [|[|[|i]]]; [| | |lia];
  destruct (closed_by R 0 d), (closed_by R 1 d), (closed_by R 2 d); cbn [Z.b2z] in *;
    first [done|lia].
Qed.

Lemma holders_insert d R i x y : R !! i = Some x →
  holders d (<[i := y]> R) = holders d R - holds d x + holds d y.
Proof.
  revert i. induction R as [|z R IH]; intros [|i] Hi; cbn in *; simplify_eq; [lia|].
  rewrite IH by done. lia.
Qed.

Lemma holders_app d R R' : holders d (R ++ R') = holders d R + holders d R'.
Proof. induction R; cbn; lia. Qed.

Lemma holders_nonneg d R : 0 ≤ holders d R.
Proof. induction R as [|x R IH]; cbn; [lia|]. unfold holds. destruct x; try case_decide; lia. Qed.

Lemma holders_pos d R i : R !! i = Some (Leaseholder d) → 1 ≤ holders d R.
Proof.
  intros Hi. rewrite <- (take_drop_middle R i (Leaseholder d)), holders_app by done. cbn.
  pose proof (holders_nonneg d (take i R)). pose proof (holders_nonneg d (drop (S i) R)).
  rewrite decide_True by done. lia.
Qed.

Lemma closed_by_insert R i j x y d : R !! i = Some x →
  closed_by (<[i := y]> R) j d
  = if decide (i = j) then match y with Closer _ c => closed c d | _ => false end
    else closed_by R j d.
Proof.
  intros Hi. unfold closed_by. destruct (decide (i = j)) as [<-|Hne].
  - rewrite list_lookup_insert_eq by (by eapply lookup_lt_Some). done.
  - by rewrite list_lookup_insert_ne.
Qed.

(** A callback's change of role leaves the closers alone. *)
Definition callback_role (x : role) : Prop := match x with Closer _ _ => False | _ => True end.

Lemma closers_callback R i x y d : R !! i = Some x → callback_role x → callback_role y →
  closers (<[i := y]> R) d = closers R d.
Proof.
  intros Hi Hx Hy. unfold closers. rewrite !(closed_by_insert _ _ _ _ _ _ Hi).
  assert (Hc : ∀ j, i = j → closed_by R j d = false).
  { intros j <-. unfold closed_by. rewrite Hi. by destruct x. }
  assert (Hn : match y with Closer _ c => closed c d | _ => false end = false)
    by (by destruct y).
  rewrite Hn.
  destruct (decide (i = 0%nat)) as [H0|_]; [rewrite (Hc 0%nat H0)|];
  (destruct (decide (i = 1%nat)) as [H1|_]; [rewrite (Hc 1%nat H1)|]);
  (destruct (decide (i = 2%nat)) as [H2|_]; [rewrite (Hc 2%nat H2)|]); done.
Qed.

Lemma word_set s d w d' : word (set_word s d w) d' = if decide (d = d') then w else word s d'.
Proof. by destruct d, d'. Qed.

(** A step of a callback: one word's count follows the role. *)
Lemma callback_step s R i x y d n :
  lease_inv s R → R !! i = Some x → callback_role x → callback_role y →
  (∀ d', d' ≠ d → holds d' x = holds d' y) →
  n = holders d R - holds d x + holds d y → fits 61 n →
  (holds d x < holds d y → closers R d = 0) →
  lease_inv (set_word s d (packed (closers R d) n)) (<[i := y]> R).
Proof.
  intros HI Hi Hx Hy Hother -> Hn Hopen.
  assert (Hl : (i < length R)%nat) by (by eapply lookup_lt_Some).
  assert (Hi3 : ∀ j c, i = j → R !! j ≠ Some (Closer j c)) by (intros j c <- Hc; by simplify_eq).
  split.
  - intros j Hj. destruct (inv_scopes _ _ HI j Hj) as [c Hc]. exists c.
    rewrite list_lookup_insert_ne; [done|]. intros ->. by eapply Hi3.
  - intros j k c. destruct (decide (i = j)) as [<-|Hne].
    + rewrite list_lookup_insert_eq by done. intros [= ->]. done.
    + rewrite list_lookup_insert_ne by done. apply (inv_callbacks _ _ HI).
  - intros d'. rewrite word_set, (closers_callback _ _ x) by done.
    rewrite (holders_insert _ _ _ x) by done. destruct (decide (d = d')) as [<-|Hne]; [done|].
    rewrite (inv_word _ _ HI), (Hother d') by done. f_equal. lia.
  - intros d'. rewrite (holders_insert _ _ _ x) by done.
    destruct (decide (d' = d)) as [->|Hne]; [done|]. rewrite (Hother d') by done.
    rewrite Z.sub_add. apply (inv_count _ _ HI).
  - intros j c d'. destruct (decide (i = j)) as [<-|Hne].
    + rewrite list_lookup_insert_eq by done. intros [= ->]. done.
    + rewrite list_lookup_insert_ne by done. intros Hj Hd.
      destruct (inv_drained _ _ HI j c d' Hj Hd) as [Hc H0]. split; [done|].
      rewrite (holders_insert _ _ _ x) by done.
      destruct (decide (d' = d)) as [->|Hd']; [|rewrite (Hother d') by done; lia].
      destruct (Z.ltb_spec (holds d x) (holds d y)) as [Hlt|Hle].
      * exfalso. specialize (Hopen Hlt). apply (closers_0 _ _ j) in Hopen.
        -- unfold closed_by in Hopen. rewrite Hj in Hopen. by rewrite Hc in Hopen.
        -- by destruct (inv_callbacks _ _ HI _ _ _ Hj).
      * pose proof (proj1 Hn). lia.
Qed.

(** A step of a scope: its own bit follows the role, the count stays. *)
Lemma scope_step s R i c c' d :
  lease_inv s R → R !! i = Some (Closer i c) →
  (∀ d', d' ≠ d → closed c' d' = closed c d' ∧ drained c' d' = drained c d') →
  (drained c' d = true → closed c' d = true ∧ holders d R = 0) →
  lease_inv (set_word s d (packed (closers (<[i := Closer i c']> R) d) (holders d R)))
    (<[i := Closer i c']> R).
Proof.
  intros HI Hi Hother Hdr.
  assert (Hl : (i < length R)%nat) by (by eapply lookup_lt_Some).
  assert (Hh : ∀ d', holders d' (<[i := Closer i c']> R) = holders d' R).
  { intros d'. rewrite (holders_insert _ _ _ (Closer i c)) by done. cbn. lia. }
  split.
  - intros j Hj. destruct (decide (i = j)) as [<-|Hne].
    + rewrite list_lookup_insert_eq by done. by eexists.
    + rewrite list_lookup_insert_ne by done. apply (inv_scopes _ _ HI j Hj).
  - intros j k c0. destruct (decide (i = j)) as [<-|Hne].
    + rewrite list_lookup_insert_eq by done. intros [= <- _].
      by destruct (inv_callbacks _ _ HI _ _ _ Hi).
    + rewrite list_lookup_insert_ne by done. apply (inv_callbacks _ _ HI).
  - intros d'. rewrite word_set, Hh. destruct (decide (d = d')) as [<-|Hne]; [done|].
    rewrite (inv_word _ _ HI). f_equal. unfold closers.
    rewrite !(closed_by_insert _ _ _ _ _ _ Hi). unfold closed_by.
    destruct (Hother d') as [-> _]; [done|].
    destruct i as [|[|[|i]]]; rewrite ?Hi; reflexivity.
  - intros d'. rewrite Hh. apply (inv_count _ _ HI).
  - intros j c0 d'. rewrite Hh. destruct (decide (i = j)) as [<-|Hne].
    + rewrite list_lookup_insert_eq by done. intros [= <-].
      destruct (decide (d' = d)) as [->|Hd]; [by apply Hdr|].
      destruct (Hother d' Hd) as [-> ->]. apply (inv_drained _ _ HI i c d' Hi).
    + rewrite list_lookup_insert_ne by done. apply (inv_drained _ _ HI).
Qed.

Definition update (f : direction → bool) (d : direction) (b : bool) : direction → bool :=
  λ d', if decide (d' = d) then b else f d'.

Definition scope_set (c : scope_state) (d : direction) : scope_state :=
  {| closed := update (closed c) d true; drained := drained c |}.
Definition scope_drain (c : scope_state) (d : direction) : scope_state :=
  {| closed := closed c; drained := update (drained c) d true |}.
Definition scope_clear (c : scope_state) (d : direction) : scope_state :=
  {| closed := update (closed c) d false; drained := update (drained c) d false |}.

Lemma update_eq f d b : update f d b d = b.
Proof. unfold update. by rewrite decide_True. Qed.
Lemma update_ne f d b d' : d' ≠ d → update f d b d' = f d'.
Proof. intros. unfold update. by rewrite decide_False. Qed.

Lemma closers_set R i c c' d : R !! i = Some (Closer i c) → (i < 3)%nat → closed c' d = true →
  closers (<[i := Closer i c']> R) d = Z.lor (closers R d) (2 ^ Z.of_nat i).
Proof.
  intros Hi H3 Hc. unfold closers. rewrite !(closed_by_insert _ _ _ _ _ _ Hi). rewrite Hc.
  destruct i as [|[|[|i]]]; [| | |lia];
  destruct (closed_by R 0 d), (closed_by R 1 d), (closed_by R 2 d); reflexivity.
Qed.

Lemma closers_clear R i c c' d : R !! i = Some (Closer i c) → (i < 3)%nat → closed c' d = false →
  closers (<[i := Closer i c']> R) d = Z.land (closers R d) (not_w 3 (2 ^ Z.of_nat i)).
Proof.
  intros Hi H3 Hc. unfold closers. rewrite !(closed_by_insert _ _ _ _ _ _ Hi). rewrite Hc.
  destruct i as [|[|[|i]]]; [| | |lia];
  destruct (closed_by R 0 d), (closed_by R 1 d), (closed_by R 2 d); reflexivity.
Qed.

Lemma closer_small i : (i < 3)%nat → 0 ≤ 2 ^ Z.of_nat i < 8.
Proof. destruct i as [|[|[|i]]]; [done..|lia]. Qed.

(** ** Each atomic action keeps the invariant *)

(** The callback's work needs a lease; a scope's work needs quiescence. *)
Definition settled (i : nat) (b : bool) (y : role) : Prop :=
  ∃ c, y = Closer i c ∧ (∀ d, closed c d = b) ∧ (b = true → ∀ d, drained c d = true).
Definition quiet (i : nat) (y : role) : Prop := settled i true y.

Definition lease_allowed (a : lease_act) (x : role) : Prop :=
  match a with
  | CallbackBody d => x = Leaseholder d
  | TeardownWork j => ∃ i, quiet i x
  | _ => True
  end.

Abbreviation lsafe := (safe lease_exec lease_inv lease_allowed).

Lemma set_word_same s d : set_word s d (word s d) = s.
Proof. by destruct s, d. Qed.

Ltac pick_outcome H := repeat (apply elem_of_cons in H as [H|H]); [..|by apply not_elem_of_nil in H].

(** Actions that do not touch the words. *)
Lemma safe_pure (a : lease_act) (Q : lease_ret a → role → Prop) x :
  (∀ s r s', (r, s') ∈ lease_exec s a → s' = s) →
  lease_allowed a x → (∀ r, Q r x) → lsafe (act1 a) Q x.
Proof.
  intros Ha Hw Hk. apply safe_act; [done|]. intros s R i Hi HI r s' Hr.
  apply Ha in Hr as ->. exists x. split; [by rewrite list_insert_id|]. apply Hk.
Qed.

Ltac safe_pure_step :=
  lazymatch goal with
  | |- safe _ _ _ (act1 ?a) ?Q ?x =>
      refine (safe_pure a Q x _ _ _);
      [let s := fresh in let r := fresh in let s' := fresh in let Hr := fresh in
       intros s r s' Hr; cbn in Hr; by pick_outcome Hr; simplify_eq|cbn; eauto|]
  end.

Lemma safe_acquire_loop fuel d observed :
  lsafe (acquire_loop fuel d observed)
    (λ b y, y = if b : bool then Leaseholder d else Idle) Idle.
Proof.
  revert observed. induction fuel as [|fuel IH]; intros observed; [done|]. cbn [acquire_loop].
  destruct (acquire_next observed) as [next|] eqn:Hnext; [|done].
  safe_next. apply safe_act; [done|]. intros s R i Hi HI r s' Hr. cbn in Hr.
  destruct (Z.eqb_spec (word s d) observed) as [Hw|Hw]; pick_outcome Hr; simplify_eq/=;
    [|exists Idle; split; [by rewrite list_insert_id|apply IH]..].
  pose proof (inv_count _ _ HI d) as Hc.
  rewrite (inv_word _ _ HI), acquire_next_packed in Hnext by done.
  split_if_in Hnext; [|done]. bool_reflect. simplify_eq.
  exists (Leaseholder d). split; [|done].
  replace (packed 0 (holders d R + 1)) with (packed (closers R d) (holders d R + 1)) by congruence.
  apply callback_step with Idle; try done.
  - intros d' Hd. cbn. by rewrite decide_False.
  - cbn. rewrite decide_True by done. lia.
  - unfold fits in *. lia.
Qed.

Lemma safe_acquire fuel d :
  lsafe (DatapathLease_acquire fuel d)
    (λ b y, y = if b : bool then Leaseholder d else Idle) Idle.
Proof.
  unfold DatapathLease_acquire. safe_next. safe_pure_step.
  intros. apply safe_acquire_loop.
Qed.

Lemma safe_drop d : lsafe (DatapathLease_drop d) (λ _ y, y = Idle) (Leaseholder d).
Proof.
  unfold DatapathLease_drop. safe_next.
  apply safe_act; [done|]. intros s R i Hi HI r s' Hr. cbn in Hr. pick_outcome Hr; simplify_eq.
  exists Idle. split; [|done].
  pose proof (holders_pos d R i Hi) as Hpos. pose proof (inv_count _ _ HI d) as Hc.
  rewrite (inv_word _ _ HI). unfold fits in Hc.
  rewrite wrap_small.
  - replace (packed (closers R d) (holders d R) - 1)
      with (packed (closers R d) (holders d R - 1)) by (unfold packed; lia).
    apply callback_step with (Leaseholder d); try done; cbn.
    + intros d' Hd. by rewrite decide_False.
    + rewrite decide_True by done. lia.
    + unfold fits. lia.
    + rewrite decide_True by done. lia.
  - pose proof (packed_fits (closers R d) (holders d R) Hc (closers_bound R d)) as Hf.
    unfold fits in *. unfold packed in *. pose proof (closers_bound R d). lia.
Qed.

(** ** Scopes *)

Lemma safe_fetch_or i c d : (i < 3)%nat →
  lsafe (act1 (FetchOr d (closer i))) (λ _ y, y = Closer i (scope_set c d)) (Closer i c).
Proof.
  intros H3. apply safe_act; [done|]. intros s R j Hj HI r s' Hr. cbn in Hr. pick_outcome Hr; simplify_eq.
  destruct (inv_callbacks _ _ HI _ _ _ Hj) as [<- _].
  exists (Closer i (scope_set c d)). split; [|done].
  pose proof (closer_small i H3). pose proof (inv_count _ _ HI d).
  rewrite (inv_word _ _ HI). unfold closer. rewrite packed_or by (first [done|apply closers_bound|lia]).
  rewrite <- (closers_set R i c (scope_set c d)) by (first [done|apply update_eq]).
  apply scope_step with c; try done.
  - intros d' Hd. cbn. by rewrite update_ne.
  - cbn. rewrite update_eq. intros Hd. by destruct (inv_drained _ _ HI i c d Hj Hd).
Qed.

Lemma safe_fetch_and i c d : (i < 3)%nat →
  lsafe (act1 (FetchAnd d (not_w 64 (closer i)))) (λ _ y, y = Closer i (scope_clear c d))
    (Closer i c).
Proof.
  intros H3. apply safe_act; [done|]. intros s R j Hj HI r s' Hr. cbn in Hr. pick_outcome Hr; simplify_eq.
  destruct (inv_callbacks _ _ HI _ _ _ Hj) as [<- _].
  exists (Closer i (scope_clear c d)). split; [|done].
  pose proof (closer_small i H3). pose proof (inv_count _ _ HI d).
  rewrite (inv_word _ _ HI). unfold closer. rewrite packed_and_not by done.
  rewrite <- (closers_clear R i c (scope_clear c d)) by (first [done|apply update_eq]).
  apply scope_step with c; try done; cbn.
  - intros d' Hd. by rewrite !update_ne.
  - by rewrite update_eq.
Qed.

Lemma safe_drain i c d fuel : (i < 3)%nat → closed c d = true →
  lsafe (drain_datapath_leases fuel d) (λ _ y, y = Closer i (scope_drain c d)) (Closer i c).
Proof.
  intros H3 Hc. induction fuel as [|fuel IH]; [done|]. cbn [drain_datapath_leases].
  safe_next. apply safe_act; [done|]. intros s R j Hj HI w s' Hr. cbn in Hr. pick_outcome Hr; simplify_eq.
  destruct (inv_callbacks _ _ HI _ _ _ Hj) as [<- _].
  pose proof (inv_count _ _ HI d) as Hn.
  rewrite (inv_word _ _ HI), packed_count by (first [done|apply closers_bound]).
  destruct (Z.eqb_spec (holders d R) 0) as [H0|H0]; cbn [negb].
  - exists (Closer i (scope_drain c d)). split; [|done].
    rewrite <- (set_word_same s d), (inv_word _ _ HI).
    assert (Hk : closers R d = closers (<[i := Closer i (scope_drain c d)]> R) d).
    { unfold closers. rewrite !(closed_by_insert _ _ _ _ _ _ Hj). cbn. unfold closed_by.
      destruct i as [|[|[|i]]]; rewrite ?Hj; reflexivity. }
    rewrite Hk. apply scope_step with c; try done; cbn.
    + intros d' Hd. by rewrite update_ne.
  - exists (Closer i c). split; [by rewrite list_insert_id|].
    safe_next. safe_pure_step. intros passive. safe_next.
    destruct passive; safe_pure_step; intros _; apply IH.
Qed.


Lemma safe_quiesce i c fuel state : (i < 3)%nat → state ≠ 0 →
  lsafe (quiesce_datapath_callbacks fuel state (closer i)) (λ _, quiet i) (Closer i c).
Proof.
  intros H3 Hs. unfold quiesce_datapath_callbacks. destruct (Z.eqb_spec state 0); [done|].
  safe_next. eapply safe_mono; [by apply safe_fetch_or|]. intros ? ? ->.
  safe_next. eapply safe_mono; [by apply safe_fetch_or|]. intros ? ? ->.
  safe_next. eapply safe_mono; [apply safe_drain; [done|reflexivity]|]. intros ? ? ->.
  eapply safe_mono; [apply safe_drain; [done|reflexivity]|]. intros ? ? ->.
  eexists. split_and!; [done|by intros []|by intros _ []].
Qed.

Lemma safe_resume i c state : (i < 3)%nat → state ≠ 0 →
  lsafe (resume_datapath_callbacks state (closer i)) (λ _, settled i false) (Closer i c).
Proof.
  intros H3 Hs. unfold resume_datapath_callbacks. destruct (Z.eqb_spec state 0); [done|].
  safe_next. eapply safe_mono; [by apply safe_fetch_and|]. intros ? ? ->.
  safe_next. eapply safe_mono; [by apply safe_fetch_and|]. intros ? ? ->.
  eexists. split_and!; [done|by intros []|done].
Qed.

Lemma safe_work i y : quiet i y → lsafe (act1 (TeardownWork (closer i))) (λ _, quiet i) y.
Proof.
  intros Hy. by safe_pure_step.
Qed.

Lemma safe_works n i y : quiet i y → lsafe (works n (closer i)) (λ _, quiet i) y.
Proof.
  revert y. induction n as [|n IH]; intros y Hy; [done|]. cbn [works].
  safe_next. eapply safe_mono; [by apply safe_work|]. intros ? y' Hy'. apply IH; auto; done.
Qed.

(** Whether a scope's operations leave its closer set. *)
Definition scope_closes (quiesced : bool) (ops : list scope_op) : bool :=
  foldl (λ b op, match op with Quiesce => true | Work => b | _ => false end) quiesced ops.

Lemma safe_scope fuel state i quiesced ops y : (i < 3)%nat → state ≠ 0 → settled i quiesced y →
  lsafe (scope_thread fuel state (closer i) quiesced ops)
    (λ _, settled i (scope_closes quiesced ops)) y.
Proof.
  intros H3 Hs. revert quiesced y. induction ops as [|op ops IH]; intros quiesced y Hy; [done|].
  pose proof Hy as (c & Hc & _). destruct op; cbn [scope_thread scope_closes foldl]; safe_next.
  - subst y. eapply safe_mono; [by apply safe_quiesce|]. intros ? y' Hy'. by apply IH.
  - destruct quiesced; [|by apply safe_ret, IH].
    eapply safe_mono; [by apply safe_work|]. intros ? y' Hy'. by apply IH.
  - subst y. eapply safe_mono; [by apply safe_resume|]. intros ? y' Hy'. by apply IH.
  - subst y. unfold with_quiesce_guard. safe_next. eapply safe_mono; [by apply safe_quiesce|].
    intros ? y1 Hy1. safe_next. eapply safe_mono; [by apply safe_works|].
    intros ? ? (c2 & -> & _). eapply safe_mono; [by apply safe_resume|]. intros ? y' Hy'. by apply IH.
Qed.

Lemma safe_callback fuel state d n :
  lsafe (leased_callback fuel state d n) (λ _ y, y = Idle) Idle.
Proof.
  assert (Hb : ∀ n, lsafe (bodies n d) (λ _ y, y = Leaseholder d) (Leaseholder d)).
  { clear n. induction n as [|n IH]; [done|]. cbn [bodies]. safe_next. by safe_pure_step. }
  unfold leased_callback. safe_next.
  eapply safe_mono with (Q := λ (b : bool) y, y = if b then Leaseholder d else Idle).
  - unfold acquire_receive_lease, acquire_capture_lease.
    destruct d, (state =? 0); try done; apply safe_acquire.
  - intros [] y ->; [|done]. safe_next. eapply safe_mono; [apply Hb|]. intros ? y ->.
    apply safe_drop.
Qed.

(** ** The system *)

Definition open_scope : scope_state := {| closed := λ _, false; drained := λ _, false |}.
Definition quiet_scope : scope_state := {| closed := λ _, true; drained := λ _, true |}.

Definition initial_roles : list role :=
  [Closer 0 open_scope; Closer 1 quiet_scope; Closer 2 open_scope].

Lemma initial_inv : lease_inv initial_leases initial_roles.
Proof.
  split.
  - intros [|[|[|i]]] Hi; [by eexists..|lia].
  - intros [|[|[|i]]] j c; cbn; intros [= <- _]; (split; [done|lia]).
  - by intros [].
  - by intros [].
  - intros [|[|[|i]]] c d; cbn; by intros [= <-].
Qed.

(** The roles in which the threads end. *)
Definition lease_final (owner hardware power : bool) (x : role) : Prop :=
  match x with
  | Idle => True
  | Leaseholder _ => False
  | Closer i c => ∀ d, closed c d = match i with O => owner | 1%nat => hardware | _ => power end
  end.

Abbreviation lease_pool o h p := (pool_ok lease_exec lease_inv lease_allowed (lease_final o h p)).

Section system.
Context (fuel : nat) (state : Z) (owner hardware power : list scope_op) (Hs : state ≠ 0).

Definition lease_system_pool : config leases lease_ret → list role → Prop :=
  lease_pool (scope_closes false owner) (scope_closes true hardware) (scope_closes false power).

Lemma lease_system_ok :
  lease_system_pool (lease_system fuel state owner hardware power) initial_roles.
Proof.
  split; [apply initial_inv|]. cbn.
  repeat constructor; (eapply safe_mono;
    [first [apply (safe_scope _ _ 0%nat) | apply (safe_scope _ _ 1%nat) | apply (safe_scope _ _ 2%nat)];
       [lia|done|by eexists]|]); by intros ? ? (c & -> & Hc & _).
Qed.

Lemma spawned_inv s R : lease_inv s R → lease_inv s (R ++ [Idle]).
Proof.
  intros HI.
  assert (Hl : (3 ≤ length R)%nat).
  { destruct (inv_scopes _ _ HI 2%nat) as [c Hc]; [lia|]. apply lookup_lt_Some in Hc. lia. }
  assert (Hin : ∀ i c j, (R ++ [Idle]) !! i = Some (Closer j c) → R !! i = Some (Closer j c)).
  { intros i c j [?|[Hge Hi]]%lookup_app_Some; [done|]. by apply list_lookup_singleton_Some in Hi as []. }
  assert (Hh : ∀ d, holders d (R ++ [Idle]) = holders d R).
  { intros d. rewrite holders_app. cbn. lia. }
  split.
  - intros i Hi. destruct (inv_scopes _ _ HI i Hi) as [c Hc]. exists c.
    by apply lookup_app_l_Some.
  - intros i j c Hi. by apply (inv_callbacks _ _ HI i j c), Hin.
  - intros d. rewrite Hh, (inv_word _ _ HI). f_equal. unfold closers, closed_by.
    by rewrite !lookup_app_l by lia.
  - intros d. rewrite Hh. apply (inv_count _ _ HI).
  - intros i c d Hi. rewrite Hh. apply Hin in Hi. by apply (inv_drained _ _ HI i c d).
Qed.

Lemma lease_reachable C :
  star lease_step (lease_system fuel state owner hardware power) C →
  ∃ R, lease_system_pool C R.
Proof.
  intros Hstar. eapply pool_invariant; [..|exact Hstar].
  - done.
  - intros s s' p R HI (-> & f & st & d & n & ->). exists Idle.
    split; [by apply spawned_inv|]. eapply safe_mono; [apply safe_callback|]. by intros ? ? ->.
  - apply lease_system_ok.
Qed.

End system.

Lemma quiet_no_lease s R i j x d : lease_inv s R → R !! i = Some x → quiet j x →
  ∀ k, R !! k ≠ Some (Leaseholder d).
Proof.
  intros HI Hi (c & -> & _ & Hd) k Hk. destruct (inv_callbacks _ _ HI _ _ _ Hi) as [-> _].
  destruct (inv_drained _ _ HI i c d Hi (Hd eq_refl d)) as [_ H0]. apply holders_pos in Hk. lia.
Qed.

Lemma final_holders o h p d R : Forall (lease_final o h p) R → holders d R = 0.
Proof. induction 1 as [|x R Hx HR IH]; cbn; [done|]. destruct x; cbn in *; [lia|done|lia]. Qed.

(** * Theorems *)

(** C15: Quiescence excludes packet callbacks, as long as the scopes of one
    closer come one after another.  With any number of receive and transmit
    callbacks starting at any time, and one thread for each of the three closers
    whose scopes quiesce, work and resume in any order, interleaving and nesting
    with those of the other two closers, no interleaving reaches a state in which
    a scope that has quiesced is about to do its work (clearing, reopening or
    invalidating the queues) while a leased callback of either direction is about
    to run.  Two scopes of the same closer that overlap are excluded, and must be:
    [overlapping_owner_cleanups_readmit]. *)
Theorem quiesced_excludes_callbacks (fuel : nat) (state : Z)
    (owner hardware power : list scope_op) (C : config leases lease_ret)
    (i j : nat) (c : Z) (d : direction) :
  state ≠ 0 →
  star lease_step (lease_system fuel state owner hardware power) C →
  next_action C i = Some (TeardownWork c) → next_action C j ≠ Some (CallbackBody d).
Proof.
  intros Hs Hstar Hi Hj. destruct (lease_reachable _ _ _ _ _ Hs _ Hstar) as [R HR].
  destruct (next_allowed _ _ _ _ _ _ _ _ HR Hi) as (x & Hx & [n Hquiet]).
  destruct (next_allowed _ _ _ _ _ _ _ _ HR Hj) as (y & Hy & ->).
  destruct HR as [HI _]. by eapply (quiet_no_lease _ _ _ _ _ d HI Hx Hquiet).
Qed.

(** A system whose owner scope has quiesced and is about to work. *)
Definition example_system : config leases lease_ret :=
  lease_system 4 1 [Quiesce; Work] [Resume] [].

Definition to_work : list (nat * nat) := [(1, 0); (1, 0); (0, 0); (0, 0); (0, 0); (0, 0)]%nat.
Definition example_at_work : config leases lease_ret :=
  scheduled lease_exec example_system to_work.

Lemma quiesced_excludes_callbacks_witness :
  next_action example_at_work 0 = Some (TeardownWork DATAPATH_CLOSED_OWNER) ∧
  next_action example_at_work 1 ≠ Some (CallbackBody Rx).
Proof.
  split; [vm_compute; reflexivity|].
  apply (quiesced_excludes_callbacks 4 1 [Quiesce; Work] [Resume] [] example_at_work 0 1
           DATAPATH_CLOSED_OWNER Rx); [done| |vm_compute; reflexivity].
  apply scheduled_star. vm_compute. reflexivity.
Defined.

(** No lease and no closer is lost.  Once every callback and every scope
    of a run has finished, both words hold no lease, and exactly the closer
    bits of the scopes whose last operation quiesced: nested scopes readmit
    independently, and no scope clears or keeps another's bit. *)
Theorem leases_balanced (fuel : nat) (state : Z) (owner hardware power : list scope_op)
    (C : config leases lease_ret) (d : direction) :
  state ≠ 0 →
  star lease_step (lease_system fuel state owner hardware power) C →
  Forall finished C.2 →
  word C.1 d = (if scope_closes false owner then DATAPATH_CLOSED_OWNER else 0)
    + (if scope_closes true hardware then DATAPATH_CLOSED_HARDWARE else 0)
    + (if scope_closes false power then DATAPATH_CLOSED_POWER else 0).
Proof.
  intros Hs Hstar Hf. destruct (lease_reachable _ _ _ _ _ Hs _ Hstar) as [R HR].
  pose proof (pool_finished _ _ _ _ _ _ HR Hf) as Hfin. destruct HR as [HI _].
  rewrite (inv_word _ _ HI), (final_holders _ _ _ d _ Hfin). unfold closers, closed_by.
  destruct (inv_scopes _ _ HI 0%nat) as [c0 H0]; [lia|].
  destruct (inv_scopes _ _ HI 1%nat) as [c1 H1]; [lia|].
  destruct (inv_scopes _ _ HI 2%nat) as [c2 H2]; [lia|].
  rewrite H0, H1, H2.
  rewrite Forall_lookup in Hfin.
  rewrite (Hfin _ _ H0 d), (Hfin _ _ H1 d), (Hfin _ _ H2 d).
  by destruct (scope_closes false owner), (scope_closes true hardware), (scope_closes false power).
Qed.

Definition to_end : list (nat * nat) := to_work ++ [(0, 0)]%nat.
Definition example_finished : config leases lease_ret :=
  scheduled lease_exec example_system to_end.

Lemma leases_balanced_witness :
  Forall finished example_finished.2 ∧
  word example_finished.1 Tx = DATAPATH_CLOSED_OWNER.
Proof.
  split; [by repeat constructor|].
  rewrite (leases_balanced 4 1 [Quiesce; Work] [Resume] [] example_finished Tx); [done|done| |].
  - apply scheduled_star. vm_compute. reflexivity.
  - by repeat constructor.
Defined.

(** ** Overlapping cleanups of two owners

    [evt_file_cleanup] stores [control_open = false] before it releases its
    quiesce guard, so a second file can be opened and cleaned up while the
    first cleanup still runs; both then use the owner closer. *)

Definition overlapping_cleanups : config leases lease_ret :=
  ({| rx_callback_leases := 0; tx_callback_leases := 0 |},
   [scope_thread 4 1 DATAPATH_CLOSED_OWNER false [Guarded 1];
    scope_thread 4 1 DATAPATH_CLOSED_OWNER false [Guarded 1];
    leased_callback 4 1 Rx 1]).

Definition overlap : list (nat * nat) :=
  [(0, 0); (0, 0); (0, 0); (0, 0); (0, 0);                  (* first: quiesce and work *)
   (1, 0); (1, 0); (1, 0); (1, 0);                          (* second: quiesce *)
   (0, 0); (0, 0);                                          (* first: resume *)
   (2, 0); (2, 0)]%nat.                                     (* a callback takes a lease *)

(** C37: One closer bit does not serve two overlapping owner cleanups.  When a
    second cleanup quiesces while the first still holds its guard, the first
    guard's release clears the shared owner bit, a receive callback takes a
    lease, and the second cleanup does its work (clearing the queues) while
    that callback runs. *)
Theorem overlapping_owner_cleanups_readmit :
  ∃ C, star lease_step overlapping_cleanups C ∧
    next_action C 1 = Some (TeardownWork DATAPATH_CLOSED_OWNER) ∧
    next_action C 2 = Some (CallbackBody Rx).
Proof.
  exists (scheduled lease_exec overlapping_cleanups overlap).
  split; [apply scheduled_star|split]; vm_compute; reflexivity.
Qed.

(** Acquisition is exact.  Alone on its word, an acquisition is refused
    exactly when a closer bit is set or the count is saturated, and then
    leaves the word as it is; otherwise it adds one to the count, which
    neither carries into the closer bits nor overflows.  It ends within one
    iteration. *)
Theorem acquire_alone (d : direction) (s : leases) (k n : Z) (fuel : nat) :
  word s d = packed k n → fits 61 n → 0 ≤ k < 8 → (0 < fuel)%nat →
  ∃ C, run_schedule lease_exec (s, [_ ← DatapathLease_acquire fuel d; mret tt])
         (if (k =? 0) && (n + 1 <? 2 ^ 61) then [(0, 0); (0, 0)]%nat else [(0, 0)]%nat) = Some C ∧
    C.2 = [Ret tt] ∧
    C.1 = (if (k =? 0) && (n + 1 <? 2 ^ 61) then set_word s d (packed 0 (n + 1)) else s) ∧
    fits 64 (word C.1 d).
Proof.
  intros Hw Hn Hk Hf. destruct fuel as [|fuel]; [lia|]. pose proof (packed_fits k n Hn Hk).
  destruct ((k =? 0) && (n + 1 <? 2 ^ 61)) eqn:Hb.
  - eexists. split.
    + unfold DatapathLease_acquire, act1. cbn. unfold run_thread. cbn.
      rewrite Hw, acquire_next_packed, Hb by done. unfold act1. cbn.
      rewrite Hw, Z.eqb_refl. done.
    + cbn. split_and!; [done|done|]. rewrite word_set, decide_True by done.
      bool_reflect. apply packed_fits; [|lia]. unfold fits in *. lia.
  - eexists. split.
    + unfold DatapathLease_acquire, act1. cbn. unfold run_thread. cbn.
      rewrite Hw, acquire_next_packed, Hb by done. done.
    + cbn. by rewrite Hw.
Qed.

Lemma acquire_alone_witness :
  ∃ C, run_schedule lease_exec (initial_leases, [_ ← DatapathLease_acquire 1 Rx; mret tt])
         [(0, 0)]%nat = Some C ∧ C.2 = [Ret tt] ∧ C.1 = initial_leases ∧ fits 64 (word C.1 Rx).
Proof. apply (acquire_alone Rx initial_leases 2 0 1); [done|done|lia|lia]. Defined.
