(* ===== verification/WaitRecord.v ===== *)
(** * The adaptive-wait record word

    The packed 64-bit word of lib.rs 121-144 and 442-458: registration
    sequence (bits 16-63), satisfied mask (bits 8-15), state (bits 0-7).  The
    programs that move it are in [WaitProtocol]. *)

From S2P Require Import Prelude Words.

Definition WAIT_FREE : Z := 0.
Definition WAIT_REGISTERING : Z := 1.
Definition WAIT_PENDING : Z := 2.
Definition WAIT_SCHEDULED : Z := 3.
Definition WAIT_UNMARKING : Z := 4.
Definition WAIT_TEARDOWN : Z := 5.
Definition WAIT_CANCELLED : Z := 6.

Definition WAIT_HANDOFF_NONE : Z := 0.
Definition WAIT_HANDOFF_CANCEL_ARRIVED : Z := 1.
Definition WAIT_HANDOFF_UNMARK_CANCELLED : Z := 2.

Definition WAIT_RECORD_STATE_MASK : Z := 0xFF.
Definition WAIT_RECORD_SATISFIED_SHIFT : Z := 8.
Definition WAIT_RECORD_SATISFIED_MASK : Z := Z.shiftl 0xFF WAIT_RECORD_SATISFIED_SHIFT.
Definition WAIT_RECORD_SEQUENCE_SHIFT : Z := 16.

Definition wait_record_state (word : Z) : Z := Z.land word WAIT_RECORD_STATE_MASK.

Definition wait_record_satisfied (word : Z) : Z :=
  Z.shiftr (Z.land word WAIT_RECORD_SATISFIED_MASK) WAIT_RECORD_SATISFIED_SHIFT.

Definition wait_record_sequence (word : Z) : Z := Z.shiftr word WAIT_RECORD_SEQUENCE_SHIFT.

(** Shifting a [u64] left drops the bits shifted out. *)
Definition wait_record_word (sequence satisfied state : Z) : Z :=
  Z.lor
    (Z.lor (wrap 64 (Z.shiftl sequence WAIT_RECORD_SEQUENCE_SHIFT))
       (Z.land (wrap 64 (Z.shiftl satisfied WAIT_RECORD_SATISFIED_SHIFT)) WAIT_RECORD_SATISFIED_MASK))
    state.

#[global] Arguments wait_record_state : simpl never.
#[global] Arguments wait_record_satisfied : simpl never.
#[global] Arguments wait_record_sequence : simpl never.
#[global] Arguments wait_record_word : simpl never.

(** ** The fields, by their bits *)

Lemma testbit_0xff i : 0 ≤ i → Z.testbit 0xFF i = (i <? 8).
Proof.
  intros Hi. change 0xFF with (Z.ones 8). destruct (Z.ltb_spec i 8).
  - by apply Z.ones_spec_low.
  - by apply Z.ones_spec_high.
Qed.

Lemma testbit_word q m st i : 0 ≤ i →
  Z.testbit (wait_record_word q m st) i
  = ((16 <=? i) && (i <? 64) && Z.testbit q (i - 16))
    || ((8 <=? i) && (i <? 16) && Z.testbit m (i - 8))
    || Z.testbit st i.
Proof.
  intros Hi. unfold wait_record_word, wrap, WAIT_RECORD_SATISFIED_MASK,
    WAIT_RECORD_SATISFIED_SHIFT, WAIT_RECORD_SEQUENCE_SHIFT.
  rewrite !Z.lor_spec, Z.land_spec. f_equal. f_equal.
  - destruct (Z.ltb_spec i 64).
    + rewrite Z.mod_pow2_bits_low, Z.shiftl_spec by lia.
      destruct (Z.leb_spec 16 i); [done|]. by rewrite Z.testbit_neg_r by lia.
    + rewrite Z.mod_pow2_bits_high by lia. by rewrite andb_false_r.
  - rewrite (Z.shiftl_spec 0xFF) by lia. destruct (Z.leb_spec 8 i) as [H8|H8].
    2: { rewrite (Z.testbit_neg_r 0xFF) by lia. by rewrite andb_false_r. }
    rewrite testbit_0xff by lia. destruct (Z.ltb_spec (i - 8) 8), (Z.ltb_spec i 16); try lia.
    rewrite Z.mod_pow2_bits_low, Z.shiftl_spec by lia. by rewrite andb_true_r.
Qed.

Lemma word_state q m st : fits 8 st → wait_record_state (wait_record_word q m st) = st.
Proof.
  intros Hst. unfold wait_record_state, WAIT_RECORD_STATE_MASK. apply Z.bits_inj'. intros i Hi.
  rewrite Z.land_spec, testbit_word, testbit_0xff by lia. destruct (Z.ltb_spec i 8).
  - rewrite (proj2 (Z.leb_gt 16 i)), (proj2 (Z.leb_gt 8 i)) by lia. by rewrite andb_true_r.
  - rewrite andb_false_r. by rewrite (testbit_fits 8 st) by done.
Qed.

Lemma word_satisfied q m st : fits 8 st → fits 8 m →
  wait_record_satisfied (wait_record_word q m st) = m.
Proof.
  intros Hst Hm. unfold wait_record_satisfied, WAIT_RECORD_SATISFIED_MASK,
    WAIT_RECORD_SATISFIED_SHIFT. apply Z.bits_inj'. intros i Hi.
  rewrite Z.shiftr_spec, Z.land_spec, testbit_word, Z.shiftl_spec by lia.
  rewrite Z.add_simpl_r, testbit_0xff by lia.
  rewrite (testbit_fits 8 st) by (first [done|lia]). rewrite orb_false_r.
  destruct (Z.ltb_spec i 8).
  - rewrite (proj2 (Z.leb_gt 16 (i + 8))), (proj2 (Z.leb_le 8 (i + 8))),
      (proj2 (Z.ltb_lt (i + 8) 16)) by lia. by rewrite andb_true_r.
  - rewrite andb_false_r. by rewrite (testbit_fits 8 m) by done.
Qed.

Lemma word_sequence q m st : fits 8 st → 0 ≤ q →
  wait_record_sequence (wait_record_word q m st) = wrap 48 q.
Proof.
  intros Hst Hq. unfold wait_record_sequence, WAIT_RECORD_SEQUENCE_SHIFT, wrap.
  apply Z.bits_inj'. intros i Hi.
  rewrite Z.shiftr_spec, testbit_word by lia.
  rewrite (testbit_fits 8 st) by (first [done|lia]). rewrite orb_false_r.
  rewrite (proj2 (Z.ltb_ge (i + 16) 16)), andb_false_r by lia. cbn [andb]. rewrite orb_false_r.
  rewrite (proj2 (Z.leb_le 16 (i + 16))), Z.add_simpl_r by lia. cbn [andb].
  destruct (Z.ltb_spec i 48).
  - rewrite (proj2 (Z.ltb_lt (i + 16) 64)), Z.mod_pow2_bits_low by lia. done.
  - rewrite (proj2 (Z.ltb_ge (i + 16) 64)), Z.mod_pow2_bits_high by lia. done.
Qed.

Lemma word_fits q m st : fits 8 st → fits 64 (wait_record_word q m st).
Proof.
  intros Hst. apply fits_testbit; [done| |].
  - unfold wait_record_word. apply Z.lor_nonneg. split; [|unfold fits in Hst; lia].
    apply Z.lor_nonneg. split; [apply wrap_fits; done|].
    apply Z.land_nonneg. right. done.
  - intros i Hi. rewrite testbit_word, (testbit_fits 8 st) by (first [done|lia]).
    rewrite (proj2 (Z.ltb_ge i 64)), (proj2 (Z.ltb_ge i 16)) by lia.
    by rewrite !andb_false_r.
Qed.

Lemma sequence_fits word : fits 64 word → fits 48 (wait_record_sequence word).
Proof.
  intros Hw. unfold wait_record_sequence, WAIT_RECORD_SEQUENCE_SHIFT. apply fits_testbit; [done| |].
  - apply Z.shiftr_nonneg. unfold fits in Hw. lia.
  - intros i Hi. rewrite Z.shiftr_spec by lia. apply (testbit_fits 64); [done|lia].
Qed.

Lemma satisfied_fits word : 0 ≤ word → fits 8 (wait_record_satisfied word).
Proof.
  intros Hw. unfold wait_record_satisfied, WAIT_RECORD_SATISFIED_MASK, WAIT_RECORD_SATISFIED_SHIFT.
  apply fits_testbit; [done| |].
  - apply Z.shiftr_nonneg, Z.land_nonneg. by left.
  - intros i Hi. rewrite Z.shiftr_spec, Z.land_spec, Z.shiftl_spec by lia.
    rewrite Z.add_simpl_r, testbit_0xff by lia.
    rewrite (proj2 (Z.ltb_ge i 8)) by lia. apply andb_false_r.
Qed.

(** The fields determine the word. *)
Lemma word_eta word : fits 64 word →
  word = wait_record_word (wait_record_sequence word) (wait_record_satisfied word)
           (wait_record_state word).
Proof.
  intros Hw. apply Z.bits_inj'. intros i Hi. rewrite testbit_word by done.
  unfold wait_record_sequence, wait_record_satisfied, wait_record_state,
    WAIT_RECORD_SATISFIED_MASK, WAIT_RECORD_STATE_MASK, WAIT_RECORD_SEQUENCE_SHIFT,
    WAIT_RECORD_SATISFIED_SHIFT.
  rewrite (Z.land_spec word 0xFF), testbit_0xff by done.
  destruct (Z.leb_spec 16 i), (Z.ltb_spec i 64), (Z.leb_spec 8 i), (Z.ltb_spec i 16),
    (Z.ltb_spec i 8); try lia; cbn [andb orb];
    rewrite ?andb_false_r, ?andb_true_r, ?orb_false_r.
  - rewrite Z.shiftr_spec by lia. f_equal. lia.
  - by rewrite (testbit_fits 64 word) by done.
  - rewrite Z.shiftr_spec by lia. rewrite Z.sub_add, Z.land_spec, Z.shiftl_spec by lia.
    rewrite testbit_0xff, (proj2 (Z.ltb_lt (i - 8) 8)) by lia. by rewrite andb_true_r.
  - done.
Qed.
