(* ===== verification/WaitProtocol.v ===== *)
(** * The adaptive wait

    The wait-for-change protocol of the packet driver (lib.rs 3147-3322 and
    3808-4207): a control request registers, is marked cancelable and is
    published in the record word; a queue transition claims it for the passive
    worker; stop, power and owner teardown, and WDF's own cancellation, race
    to retire it.  Every function is a program of [Conc] with one action per
    atomic access, lock-protected read or framework call of the source.

    WDF's side of a request is part of the memory: delivered, cancelable, or
    cancellation dispatched.  A framework call that WDF does not allow in the
    request's state has no outcome. *)

From S2P Require Import Prelude Words DriverConstants Conc WaitRecord.

(** ** Memory *)

(** WDF's side of a request the driver holds. *)
Inductive request_state :=
  | Delivered (cancel_requested : bool)   (* not cancelable *)
  | Cancelable                            (* marked; no cancellation yet *)
  | CancelDispatched.                     (* WDF calls, or called, the cancel callback *)

(** What the framework answers next; it may change at any time. *)
Record answers := {
  mark_error : Z;
  unmark_error : Z;
  output_answer : Z * Z;                  (* status and length of an output buffer *)
  serves_read : bool;                     (* the worker finds a read and a frame *)
}.

Record wait_memory := {
  wait_state : Z;
  wait_request : Z;
  wait_cancel_handoff : Z;
  wait_interest : Z;
  wait_registration_capture_generation : Z;
  wait_registration_injection_generation : Z;
  readable : bool;                        (* the capture queue is not empty *)
  writable : bool;                        (* the injection queue is open and not full *)
  capture_generation : Z;
  injection_generation : Z;
  adaptive_enabled : bool;
  adaptive_interrupted : bool;            (* history: [adaptive_enabled] was false at some time
                                             since the record was last free *)
  lifecycle : Z;
  tx_queue_started : bool;
  rx_queue_started : bool;
  requests : gmap Z request_state;        (* the requests not completed yet *)
  work_queued : bool;                     (* the read work item is queued *)
  framework : answers;
}.

#[export] Instance wait_memory_eta : Eta wait_memory := λ s,
  Build_wait_memory (wait_state s) (wait_request s) (wait_cancel_handoff s) (wait_interest s)
    (wait_registration_capture_generation s) (wait_registration_injection_generation s)
    (readable s) (writable s) (capture_generation s) (injection_generation s)
    (adaptive_enabled s) (adaptive_interrupted s) (lifecycle s) (tx_queue_started s)
    (rx_queue_started s) (requests s) (work_queued s) (framework s).

(** The handles of an instance that do not change: null is 0. *)
Record instance := {
  self : Z;
  capture_lock : Z;
  injection_lock : Z;
  read_work_item : Z;
}.

Definition is_null (state : instance) : bool := self state =? 0.

(** ** Atomic actions *)

Inductive wait_act :=
  | LoadState
  | CompareExchangeWeakState (current new : Z)
  | StoreState (word : Z)
  | LoadRequest
  | CompareExchangeRequest (current new : Z)
  | StoreRequest (request : Z)
  | StoreHandoff (value : Z)
  | SwapHandoff (value : Z)
  | LoadInterest
  | StoreInterest (interest : Z)
  | StoreRegistrationCapture (generation : Z)
  | StoreRegistrationInjection (generation : Z)
  | LoadRegistrationCapture
  | LoadRegistrationInjection
  | LoadCaptureGeneration
  | LoadInjectionGeneration
  | CaptureNonempty                       (* under the capture lock *)
  | InjectionHasRoom                      (* under the injection lock *)
  | LoadAdaptive
  | LoadLifecycle
  | LoadTxStarted
  | LoadRxStarted
  | WdfRequestMarkCancelableEx (request : Z)
  | WdfRequestUnmarkCancelable (request : Z)
  | WdfRequestComplete (request status : Z)
  | WdfRequestCompleteWithInformation (request status information : Z)
  | WdfRequestRetrieveOutputBuffer (request minimum : Z)
  | WriteResponse (request satisfied : Z)
  | WdfWorkItemEnqueue (work_item : Z)
  | BecomeReady (condition : Z)           (* a queue transition, under its lock *)
  | ServeRead.                            (* the worker's turn to serve a read *)

Definition wait_ret (a : wait_act) : Type :=
  match a with
  | CompareExchangeWeakState _ _ | CompareExchangeRequest _ _ => result Z Z
  | StoreState _ | StoreRequest _ | StoreHandoff _ | StoreInterest _
  | StoreRegistrationCapture _ | StoreRegistrationInjection _
  | WdfRequestComplete _ _ | WdfRequestCompleteWithInformation _ _ _ | WriteResponse _ _
  | WdfWorkItemEnqueue _ => unit
  | CaptureNonempty | InjectionHasRoom | LoadAdaptive | LoadTxStarted | LoadRxStarted
  | BecomeReady _ | ServeRead => bool
  | WdfRequestRetrieveOutputBuffer _ _ => Z * Z
  | _ => Z
  end.

(** A status that is neither success nor cancelled. *)
Definition other_status (status : Z) : Z :=
  if (status =? STATUS_SUCCESS) || (status =? STATUS_CANCELLED)
  then STATUS_INVALID_DEVICE_REQUEST else status.

(** WDF's answers about a request in the given state: status and next state. *)
Definition mark_outcomes (s : wait_memory) (q : option request_state) :
    list (Z * request_state) :=
  match q with
  | Some (Delivered true) => [(STATUS_CANCELLED, Delivered true)]
  | Some (Delivered false) =>
      [(STATUS_SUCCESS, Cancelable); (other_status (mark_error (framework s)), Delivered false)]
  | _ => []
  end.

Definition unmark_outcomes (s : wait_memory) (q : option request_state) :
    list (Z * request_state) :=
  match q with
  | Some Cancelable =>
      [(STATUS_SUCCESS, Delivered false); (other_status (unmark_error (framework s)), Delivered false)]
  | Some CancelDispatched => [(STATUS_CANCELLED, CancelDispatched)]
  | _ => []
  end.

(** A request may be completed unless it is still marked cancelable. *)
Definition complete_outcomes (s : wait_memory) (request : Z) : list (unit * wait_memory) :=
  match requests s !! request with
  | Some (Delivered _) | Some CancelDispatched =>
      [(tt, s <| requests := delete request (requests s) |>)]
  | _ => []
  end.

Definition set_request (s : wait_memory) (request : Z) (q : request_state) : wait_memory :=
  s <| requests := <[request := q]> (requests s) |>.

Definition wait_exec (s : wait_memory) (a : wait_act) : list (wait_ret a * wait_memory) :=
  match a with
  | LoadState => [(wait_state s, s)]
  | CompareExchangeWeakState current new =>
      if wait_state s =? current
      then [(Ok current, s <| wait_state := new |>); (Err (wait_state s), s)]
      else [(Err (wait_state s), s)]
  | StoreState word =>                    (* frees the record: the history starts again *)
      [(tt, s <| wait_state := word |> <| adaptive_interrupted := negb (adaptive_enabled s) |>)]
  | LoadRequest => [(wait_request s, s)]
  | CompareExchangeRequest current new =>
      if wait_request s =? current
      then [(Ok current, s <| wait_request := new |>)]
      else [(Err (wait_request s), s)]
  | StoreRequest request => [(tt, s <| wait_request := request |>)]
  | StoreHandoff value => [(tt, s <| wait_cancel_handoff := value |>)]
  | SwapHandoff value => [(wait_cancel_handoff s, s <| wait_cancel_handoff := value |>)]
  | LoadInterest => [(wait_interest s, s)]
  | StoreInterest interest => [(tt, s <| wait_interest := interest |>)]
  | StoreRegistrationCapture g => [(tt, s <| wait_registration_capture_generation := g |>)]
  | StoreRegistrationInjection g => [(tt, s <| wait_registration_injection_generation := g |>)]
  | LoadRegistrationCapture => [(wait_registration_capture_generation s, s)]
  | LoadRegistrationInjection => [(wait_registration_injection_generation s, s)]
  | LoadCaptureGeneration => [(capture_generation s, s)]
  | LoadInjectionGeneration => [(injection_generation s, s)]
  | CaptureNonempty => [(readable s, s)]
  | InjectionHasRoom => [(writable s, s)]
  | LoadAdaptive => [(adaptive_enabled s, s)]
  | LoadLifecycle => [(lifecycle s, s)]
  | LoadTxStarted => [(tx_queue_started s, s)]
  | LoadRxStarted => [(rx_queue_started s, s)]
  | WdfRequestMarkCancelableEx r =>
      map (λ o, (o.1, set_request s r o.2)) (mark_outcomes s (requests s !! r))
  | WdfRequestUnmarkCancelable r =>
      map (λ o, (o.1, set_request s r o.2)) (unmark_outcomes s (requests s !! r))
  | WdfRequestComplete r _ => complete_outcomes s r
  | WdfRequestCompleteWithInformation r _ _ => complete_outcomes s r
  | WdfRequestRetrieveOutputBuffer _ _ => [(output_answer (framework s), s)]
  | WriteResponse _ _ => [(tt, s)]
  | WdfWorkItemEnqueue _ => [(tt, s <| work_queued := true |>)]
  | BecomeReady condition =>
      if condition =? ADAPTIVE_INTEREST_READABLE
      then [(negb (readable s), s <| readable := true |>)]
      else [(negb (writable s), s <| writable := true |>)]
  | ServeRead => [(serves_read (framework s), s)]
  end.

Abbreviation thread := (prog wait_ret).
Abbreviation wact a := (act1 (ret:=wait_ret) a).

(** ** Requests *)

Definition complete_request (request status : Z) : thread unit :=
  wact (WdfRequestComplete request status).

Definition complete_request_with_information (request status information : Z) : thread unit :=
  wact (WdfRequestCompleteWithInformation request status information).

Definition enqueue_work_item (work_item : Z) : thread unit :=
  if negb (work_item =? 0) then wact (WdfWorkItemEnqueue work_item) else mret tt.

(** ** The record *)

Definition load_wait_record (state : instance) : thread Z :=
  if is_null state then mret (wait_record_word 0 0 WAIT_FREE) else wact LoadState.

Fixpoint transition_loop (fuel : nat) (from to : Z) : thread (result Z Z) :=
  match fuel with
  | O => Diverge
  | S fuel =>
      observed ← wact LoadState;
      if negb (wait_record_state observed =? from) then mret (Err observed)
      else
        let next := wait_record_word (wait_record_sequence observed)
                      (wait_record_satisfied observed) to in
        r ← wact (CompareExchangeWeakState observed next);
        match r with
        | Ok _ => mret (Ok next)
        | Err _ => transition_loop fuel from to
        end
  end.

Definition transition_wait_record (fuel : nat) (state : instance) (from to : Z) :
    thread (result Z Z) :=
  if is_null state then mret (Err (wait_record_word 0 0 WAIT_FREE))
  else transition_loop fuel from to.

Fixpoint begin_loop (fuel : nat) : thread bool :=
  match fuel with
  | O => Diverge
  | S fuel =>
      observed ← wact LoadState;
      if negb (wait_record_state observed =? WAIT_FREE) then mret false
      else
        let registering := wait_record_word (wait_record_sequence observed + 1) 0 WAIT_REGISTERING in
        r ← wact (CompareExchangeWeakState observed registering);
        match r with
        | Ok _ => mret true
        | Err _ => begin_loop fuel
        end
  end.

Definition begin_wait_record (fuel : nat) (state : instance) : thread bool :=
  if is_null state then mret false else begin_loop fuel.

Definition finish_wait (state : instance) : thread unit :=
  if is_null state then mret tt
  else
    _ ← wact (StoreInterest 0);
    _ ← wact (StoreRegistrationCapture 0);
    _ ← wact (StoreRegistrationInjection 0);
    _ ← wact (StoreHandoff WAIT_HANDOFF_NONE);
    _ ← wact (StoreRequest 0);
    observed ← wact LoadState;
    wact (StoreState (wait_record_word (wait_record_sequence observed + 1) 0 WAIT_FREE)).

Definition wait_request_slot (state : instance) : thread Z :=
  if is_null state then mret 0 else wact LoadRequest.

Definition wait_request_is_active (state : instance) (request : Z) : thread bool :=
  if request =? 0 then mret false
  else
    slot ← wait_request_slot state;
    mret (slot =? request).

(** ** Readiness *)

Definition readiness_snapshot (state : instance) : thread (Z * Z * Z) :=
  if is_null state then mret (0, 0, 0)
  else
    capture ← wact LoadCaptureGeneration;
    injection ← wact LoadInjectionGeneration;
    nonempty ← (if negb (capture_lock state =? 0) then wact CaptureNonempty else mret false);
    room ← (if negb (injection_lock state =? 0) then wact InjectionHasRoom else mret false);
    mret (Z.lor (if nonempty : bool then ADAPTIVE_INTEREST_READABLE else 0)
            (if room : bool then ADAPTIVE_INTEREST_WRITABLE else 0), capture, injection).

(** [||] and [&&] do not evaluate their second operand needlessly. *)
Definition wait_interest_queues_started (state : instance) (interest : Z) : thread bool :=
  if is_null state then mret false
  else
    readable_started ← (if Z.land interest ADAPTIVE_INTEREST_READABLE =? 0
                        then mret true else wact LoadTxStarted);
    writable_started ← (if Z.land interest ADAPTIVE_INTEREST_WRITABLE =? 0
                        then mret true else wact LoadRxStarted);
    mret ((readable_started : bool) && (writable_started : bool)).

(** ** Claims by queue transitions *)

Fixpoint claim_loop (fuel : nat) (state : instance) (condition expected_request : Z) : thread bool :=
  match fuel with
  | O => Diverge
  | S fuel =>
      observed ← wact LoadState;
      let observed_state := wait_record_state observed in
      if negb (observed_state =? WAIT_PENDING) && negb (observed_state =? WAIT_SCHEDULED)
      then mret false
      else
        request ← wait_request_slot state;
        if (request =? 0)
           || (negb (expected_request =? 0) && negb (request =? expected_request))
        then mret false
        else
          interest ← wact LoadInterest;
          let satisfied := Z.land interest condition in
          if satisfied =? 0 then mret false
          else
            let next := wait_record_word (wait_record_sequence observed)
                          (Z.lor (wait_record_satisfied observed) satisfied) WAIT_SCHEDULED in
            if next =? observed then mret false
            else
              r ← wact (CompareExchangeWeakState observed next);
              match r with
              | Err _ => claim_loop fuel state condition expected_request
              | Ok _ =>
                  if observed_state =? WAIT_PENDING
                  then _ ← enqueue_work_item (read_work_item state); mret true
                  else mret false
              end
  end.

Definition claim_wait_for_passive_completion (fuel : nat) (state : instance)
    (condition expected_request : Z) : thread bool :=
  if is_null state || (condition =? 0) then mret false
  else
    enabled ← wact LoadAdaptive;
    if negb (enabled : bool) then mret false
    else claim_loop fuel state condition expected_request.

(** ** Completion *)

Definition complete_wait_response (request status satisfied : Z) : thread unit :=
  if negb (status =? STATUS_SUCCESS) then complete_request request status
  else
    output ← wact (WdfRequestRetrieveOutputBuffer request size_of_AdaptiveWaitResponse);
    let '(output_status, output_length) := output in
    if negb (output_status =? STATUS_SUCCESS) || (output_length <? size_of_AdaptiveWaitResponse)
    then complete_request request
           (if output_status =? STATUS_SUCCESS then STATUS_BUFFER_TOO_SMALL else output_status)
    else
      _ ← wact (WriteResponse request satisfied);
      complete_request_with_information request STATUS_SUCCESS size_of_AdaptiveWaitResponse.

Definition unmark_and_complete_wait (state : instance)
    (request terminal_status satisfied : Z) : thread unit :=
  status ← wact (WdfRequestUnmarkCancelable request);
  if status =? STATUS_SUCCESS then
    _ ← finish_wait state;
    complete_wait_response request terminal_status satisfied
  else if status =? STATUS_CANCELLED then
    previous ← wact (SwapHandoff WAIT_HANDOFF_UNMARK_CANCELLED);
    if previous =? WAIT_HANDOFF_CANCEL_ARRIVED then
      _ ← finish_wait state;
      complete_request request STATUS_CANCELLED
    else mret tt
  else
    _ ← finish_wait state;
    complete_request request status.

(** ** Teardown *)

Fixpoint cancel_wait_request_for_teardown (fuel : nat) (state : instance)
    (expected_request : Z) : thread bool :=
  match fuel with
  | O => Diverge
  | S fuel' =>
      if is_null state then mret false
      else
        record ← load_wait_record state;
        let observed := wait_record_state record in
        if observed =? WAIT_REGISTERING then
          published ← wait_request_slot state;
          if negb (expected_request =? 0) && negb (published =? expected_request)
          then mret false
          else
            r ← transition_wait_record fuel' state WAIT_REGISTERING WAIT_TEARDOWN;
            match r with
            | Ok _ => mret false
            | Err _ => cancel_wait_request_for_teardown fuel' state expected_request
            end
        else if (observed =? WAIT_PENDING) || (observed =? WAIT_SCHEDULED) then
          published ← wait_request_slot state;
          if (published =? 0)
             || (negb (expected_request =? 0) && negb (published =? expected_request))
          then mret false
          else
            r ← transition_wait_record fuel' state observed WAIT_UNMARKING;
            match r with
            | Ok _ =>
                request ← wait_request_slot state;
                if request =? 0 then _ ← finish_wait state; mret false
                else
                  _ ← unmark_and_complete_wait state request STATUS_CANCELLED 0;
                  mret ((expected_request =? 0) || (request =? expected_request))
            | Err _ => cancel_wait_request_for_teardown fuel' state expected_request
            end
        else mret false
  end.

Definition cancel_wait_for_teardown (fuel : nat) (state : instance) : thread bool :=
  cancel_wait_request_for_teardown fuel state 0.

(** The control-queue part of [evt_io_stop]. *)
Definition evt_io_stop (fuel : nat) (state : instance) (request : Z) : thread unit :=
  active ← wait_request_is_active state request;
  if active : bool
  then _ ← cancel_wait_request_for_teardown fuel state request; mret tt
  else mret tt.

(** ** Cancellation by WDF *)

Fixpoint cancel_loop (fuel : nat) (state : instance) (request : Z) : thread unit :=
  match fuel with
  | O => Diverge
  | S fuel =>
      record ← load_wait_record state;
      let observed := wait_record_state record in
      if (observed =? WAIT_REGISTERING) || (observed =? WAIT_TEARDOWN) then
        r ← transition_wait_record fuel state observed WAIT_CANCELLED;
        match r with
        | Ok _ => complete_request request STATUS_CANCELLED
        | Err _ => cancel_loop fuel state request
        end
      else if (observed =? WAIT_PENDING) || (observed =? WAIT_SCHEDULED) then
        r ← transition_wait_record fuel state observed WAIT_CANCELLED;
        match r with
        | Ok _ =>
            _ ← finish_wait state;
            complete_request request STATUS_CANCELLED
        | Err _ => cancel_loop fuel state request
        end
      else if observed =? WAIT_UNMARKING then
        previous ← wact (SwapHandoff WAIT_HANDOFF_CANCEL_ARRIVED);
        if previous =? WAIT_HANDOFF_UNMARK_CANCELLED then
          _ ← finish_wait state;
          complete_request request STATUS_CANCELLED
        else mret tt
      else mret tt
  end.

Definition cancel_wait_from_wdf (fuel : nat) (state : instance) (request : Z) : thread unit :=
  active ← wait_request_is_active state request;
  if negb (active : bool) then complete_request request STATUS_CANCELLED
  else cancel_loop fuel state request.

(** [state] is what [instance_from_io_queue] found for the request's queue. *)
Definition evt_wait_for_change_cancel (fuel : nat) (state : option instance) (request : Z) :
    thread unit :=
  match state with
  | Some state => cancel_wait_from_wdf fuel state request
  | None => complete_request request STATUS_CANCELLED
  end.

(** ** The passive worker *)

Definition take_scheduled_wait (fuel : nat) (state : instance) : thread (option (Z * Z)) :=
  if is_null state then mret None
  else
    claimed ← transition_wait_record fuel state WAIT_SCHEDULED WAIT_UNMARKING;
    match claimed with
    | Err _ => mret None
    | Ok claimed =>
        request ← wait_request_slot state;
        if request =? 0 then _ ← finish_wait state; mret None
        else
          interest ← wact LoadInterest;
          let recorded := wait_record_satisfied claimed in
          snapshot ← readiness_snapshot state;
          let '(ready, _, _) := snapshot in
          mret (Some (request, Z.lor recorded (Z.land ready interest)))
    end.

Definition complete_scheduled_wait_at_passive (state : instance) (request satisfied : Z) :
    thread unit :=
  if is_null state then complete_request request STATUS_CANCELLED
  else
    interest ← wact LoadInterest;
    current ← wact LoadLifecycle;
    cancelled ← (if negb (current =? INSTANCE_OPEN) then mret true
                 else started ← wait_interest_queues_started state interest;
                      mret (negb (started : bool)));
    if cancelled : bool
    then unmark_and_complete_wait state request STATUS_CANCELLED 0
    else unmark_and_complete_wait state request STATUS_SUCCESS satisfied.

(** The loop of [evt_read_completion_work_item]: waits first, then one read;
    the worker returns when there is no read to serve. *)
Fixpoint read_completion_loop (fuel : nat) (state : instance) : thread unit :=
  match fuel with
  | O => Diverge
  | S fuel =>
      scheduled ← take_scheduled_wait fuel state;
      match scheduled with
      | Some (request, satisfied) =>
          _ ← complete_scheduled_wait_at_passive state request satisfied;
          read_completion_loop fuel state
      | None =>
          served ← wact ServeRead;
          if served : bool then read_completion_loop fuel state else mret tt
      end
  end.

(** ** Registration *)

(** The control request's buffers: what [WdfRequestRetrieveInputBuffer]
    answers, and the two words of [AdaptiveWaitRequest]. *)
Record wait_input := {
  input_status : Z;
  actual_input_length : Z;
  version : Z;
  interest : Z;
}.

(** After the transition to [WAIT_PENDING]: readiness that appeared while the
    wait was not claimable is claimed here. *)
Definition recheck_wait (fuel : nat) (state : instance) (wait : wait_input) (request : Z) :
    thread unit :=
  snapshot ← readiness_snapshot state;
  let '(ready, observed_capture, observed_injection) := snapshot in
  registration_capture ← wact LoadRegistrationCapture;
  registration_injection ← wact LoadRegistrationInjection;
  if negb (Z.land ready (interest wait) =? 0)
     || negb (observed_capture =? registration_capture)
     || negb (observed_injection =? registration_injection)
  then
    _ ← claim_wait_for_passive_completion fuel state (Z.land ready (interest wait)) request;
    mret tt
  else mret tt.

(** After WDF accepted the cancellation routine. *)
Definition publish_wait (fuel : nat) (state : instance) (wait : wait_input) (request : Z) :
    thread unit :=
  r ← transition_wait_record fuel state WAIT_REGISTERING WAIT_PENDING;
  match r with
  | Ok _ => recheck_wait fuel state wait request
  | Err observed =>
      if wait_record_state observed =? WAIT_TEARDOWN then
        r2 ← transition_wait_record fuel state WAIT_TEARDOWN WAIT_UNMARKING;
        match r2 with
        | Ok _ => unmark_and_complete_wait state request STATUS_CANCELLED 0
        | Err _ => finish_wait state
        end
      else finish_wait state
  end.

Definition fail_wait (state : instance) (request status : Z) : thread unit :=
  _ ← finish_wait state;
  complete_request request status.

(** From [begin_wait_record] on. *)
Definition register_wait (fuel : nat) (state : instance) (wait : wait_input) (request : Z) :
    thread unit :=
  begun ← begin_wait_record fuel state;
  if negb (begun : bool) then complete_request request STATUS_DEVICE_BUSY
  else
    slot ← wact (CompareExchangeRequest 0 request);
    match slot with
    | Err _ => fail_wait state request STATUS_DEVICE_BUSY
    | Ok _ =>
        snapshot ← readiness_snapshot state;
        let '(_, capture, injection) := snapshot in
        _ ← wact (StoreInterest (interest wait));
        _ ← wact (StoreRegistrationCapture capture);
        _ ← wact (StoreRegistrationInjection injection);
        _ ← wact (StoreHandoff WAIT_HANDOFF_NONE);
        current ← wact LoadLifecycle;
        proceed ← (if negb (current =? INSTANCE_OPEN) then mret false
                   else
                     enabled ← wact LoadAdaptive;
                     if negb (enabled : bool) then mret false
                     else wait_interest_queues_started state (interest wait));
        if negb (proceed : bool) then fail_wait state request STATUS_CANCELLED
        else
          status ← wact (WdfRequestMarkCancelableEx request);
          if status =? STATUS_CANCELLED then fail_wait state request STATUS_CANCELLED
          else if negb (status =? STATUS_SUCCESS) then fail_wait state request status
          else publish_wait fuel state wait request
    end.

Definition handle_wait_for_change (fuel : nat) (state : instance) (request : Z)
    (output_length input_length : Z) (wait : wait_input) : thread unit :=
  if negb (input_length =? size_of_AdaptiveWaitRequest)
     || negb (output_length =? size_of_AdaptiveWaitResponse)
  then complete_request request STATUS_INVALID_BUFFER_SIZE
  else if negb (input_status wait =? STATUS_SUCCESS)
          || negb (actual_input_length wait =? size_of_AdaptiveWaitRequest)
  then complete_request request
         (if input_status wait =? STATUS_SUCCESS then STATUS_INVALID_BUFFER_SIZE
          else input_status wait)
  else if negb (version wait =? ADAPTIVE_POLLING_PROTOCOL_VERSION)
          || (interest wait =? 0)
          || negb (Z.land (interest wait) (not_w 32 ADAPTIVE_INTEREST_SUPPORTED) =? 0)
  then complete_request request STATUS_NOT_SUPPORTED
  else
    current ← wact LoadLifecycle;
    ready ← (if negb (current =? INSTANCE_OPEN) then mret false
             else wait_interest_queues_started state (interest wait));
    if negb (ready : bool) then complete_request request STATUS_DEVICE_NOT_READY
    else
      enabled ← wact LoadAdaptive;
      if negb (enabled : bool) then complete_request request STATUS_INVALID_DEVICE_REQUEST
      else register_wait fuel state wait request.

(** ** The threads *)

(** A queue transition: make a direction ready and, if it was not ready
    before, claim the wait. *)
Definition queue_transition (fuel : nat) (state : instance) (condition : Z) : thread unit :=
  changed ← wact (BecomeReady condition);
  if changed : bool
  then _ ← claim_wait_for_passive_completion fuel state condition 0; mret tt
  else mret tt.

Section system.
Context (state : instance).

(** What starts: a control request the driver does not hold yet; a queue
    transition; the worker, once its item is queued; teardown and stop; and
    WDF's cancellation of a request that is marked cancelable. *)
Inductive wait_spawn (s : wait_memory) : thread unit → wait_memory → Prop :=
  | spawn_wait fuel request output_length input_length wait :
      request ≠ 0 → requests s !! request = None → fits 32 (interest wait) →
      wait_spawn s (handle_wait_for_change fuel state request output_length input_length wait)
        (set_request s request (Delivered false))
  | spawn_transition fuel condition :
      condition = ADAPTIVE_INTEREST_READABLE ∨ condition = ADAPTIVE_INTEREST_WRITABLE →
      wait_spawn s (queue_transition fuel state condition) s
  | spawn_worker fuel :
      work_queued s = true →
      wait_spawn s (read_completion_loop fuel state) (s <| work_queued := false |>)
  | spawn_teardown fuel :
      wait_spawn s (_ ← cancel_wait_for_teardown fuel state; mret tt) s
  | spawn_stop fuel request :
      wait_spawn s (evt_io_stop fuel state request) s
  | spawn_cancel fuel request :
      requests s !! request = Some Cancelable →
      wait_spawn s (evt_wait_for_change_cancel fuel (Some state) request)
        (set_request s request CancelDispatched).

(** What else may happen at any time: a cancellation request before the
    request is marked, a queue drained or filled, other handlers moving the
    lifecycle and the queue flags, adaptive mode switched, and any change of
    the framework's next answers. *)
Inductive wait_env (s : wait_memory) : wait_memory → Prop :=
  | env_cancel request :
      requests s !! request = Some (Delivered false) →
      wait_env s (set_request s request (Delivered true))
  | env_drained : wait_env s (s <| readable := false |>)
  | env_filled : wait_env s (s <| writable := false |>)
  | env_generations c i :
      wait_env s (s <| capture_generation := c |> <| injection_generation := i |>)
  | env_adaptive b :
      wait_env s (s <| adaptive_enabled := b |>
                    <| adaptive_interrupted := negb b || (adaptive_interrupted s &&
                         negb (wait_record_state (wait_state s) =? WAIT_FREE)) |>)
  | env_lifecycle l tx rx :
      wait_env s (s <| lifecycle := l |> <| tx_queue_started := tx |> <| rx_queue_started := rx |>)
  | env_answers f : wait_env s (s <| framework := f |>).

Definition wait_step : config wait_memory wait_ret → config wait_memory wait_ret → Prop :=
  step wait_exec wait_env wait_spawn.

End system.

(** [InstanceState::new], with adaptive mode enabled for the owner. *)
Definition initial_wait_memory (f : answers) : wait_memory := {|
  wait_state := wait_record_word 0 0 WAIT_FREE;
  wait_request := 0;
  wait_cancel_handoff := WAIT_HANDOFF_NONE;
  wait_interest := 0;
  wait_registration_capture_generation := 0;
  wait_registration_injection_generation := 0;
  readable := false;
  writable := false;
  capture_generation := 0;
  injection_generation := 0;
  adaptive_enabled := true;
  adaptive_interrupted := false;
  lifecycle := INSTANCE_OPEN;
  tx_queue_started := true;
  rx_queue_started := true;
  requests := ∅;
  work_queued := false;
  framework := f;
|}.
