(* ===== verification/WaitSafety.v ===== *)
(** * The invariant of the adaptive wait

    The roles of the threads of [WaitProtocol], the situations the protocol
    can be in, the invariant that relates them to the memory, and the proof
    that every program keeps it.  The theorems are in [WaitTheorems]. *)

From S2P Require Import Prelude Words DriverConstants Conc WaitRecord WaitProtocol.

#[local] Opaque wait_record_word wait_record_state wait_record_sequence wait_record_satisfied.

(** ** Roles *)

Inductive phase :=
  | Begun            (* the record is claimed, the slot still null *)
  | Published        (* the slot holds the request *)
  | Stored           (* the interest is stored *)
  | Ready            (* the handoff is reset *)
  | Marked           (* WDF accepted the cancellation routine *)
  | TornDown         (* teardown was seen to have claimed the record *)
  | Gone.            (* the cancel callback was seen to have taken the request *)

Inductive role :=
  | Idle
  | Fresh (r : Z)                              (* was given [r], not marked *)
  | Owner (r : Z)                              (* must complete [r] *)
  | Registrant (r : Z) (p : phase) (i : Z)     (* registering [r] with interest [i] *)
  | Unmarker (known : option Z)                (* moved the record to [WAIT_UNMARKING] *)
  | Unmarked (r : Z)                           (* was told that [r] is being cancelled *)
  | Retirer (exclusive cleared : bool) (o : option Z)  (* inside [finish_wait]; owns [o] *)
  | Canceller (r : Z) (u : bool)               (* the cancel callback; [u]: saw the unmarking *)
  | Producer (c : Z)                           (* made [c] ready and will claim *)
  | Rechecker (r : Z) (c : Z)                  (* published [r]; will claim [c] *)
  | Enqueuer                                   (* scheduled the wait; will queue the worker *)
  | Worker.                                    (* will look for a scheduled wait *)

Definition special (x : role) : bool :=
  match x with
  | Registrant _ _ _ | Unmarker _ | Unmarked _ | Retirer _ _ _ | Canceller _ _ => true
  | _ => false
  end.

Definition owned_of (x : role) : list Z :=
  match x with
  | Fresh r | Owner r => [r]
  | Registrant r (Begun | Published | Stored | Ready) _ => [r]
  | Retirer _ _ (Some r) => [r]
  | _ => []
  end.

Fixpoint specials (R : list role) : list role :=
  match R with
  | [] => []
  | x :: R => if special x then x :: specials R else specials R
  end.

Fixpoint owned (R : list role) : list Z :=
  match R with [] => [] | x :: R => owned_of x ++ owned R end.

(** ** Situations *)

Inductive situation :=
  | SFree
  | SBegun (r : Z)
  | SPublished (r : Z)
  | SStored (r i : Z)
  | SReady (r i : Z)
  | SMarked (r i : Z) (t c : bool)        (* [c]: cancellation dispatched *)
  | SGone (r : Z) (p : phase) (i : Z)
  | SPending (r : Z) (c : bool)
  | SUnmarking (r : Z) (k c u : bool)
  | SArrived (r : Z) (k : bool)           (* the callback came before the unmark *)
  | SUnmarked (r : Z) (u : bool)
  | SUnmarkedArrived (r : Z)
  | SGaveUp (r : Z) (u : bool)            (* completion handed to the callback *)
  | SRetiring (exclusive cleared : bool) (o : option Z).

Definition known (r : Z) (k : bool) : option Z := if k then Some r else None.

Definition sit_roles (t : situation) : list role :=
  match t with
  | SFree => []
  | SBegun r => [Registrant r Begun 0]
  | SPublished r => [Registrant r Published 0]
  | SStored r i => [Registrant r Stored i]
  | SReady r i => [Registrant r Ready i]
  | SMarked r i t c =>
      Registrant r (if t then TornDown else Marked) i :: (if c then [Canceller r false] else [])
  | SGone r p i => [Registrant r p i]
  | SPending r c => if c then [Canceller r false] else []
  | SUnmarking r k c u => Unmarker (known r k) :: (if c then [Canceller r u] else [])
  | SArrived r k => [Unmarker (known r k)]
  | SUnmarked r u => [Unmarked r; Canceller r u]
  | SUnmarkedArrived r => [Unmarked r]
  | SGaveUp r u => [Canceller r u]
  | SRetiring e z o => [Retirer e z o]
  end.

(** The request WDF may still hold cancelable. *)
Definition pub (t : situation) : list Z :=
  match t with
  | SMarked r _ _ _ | SPending r _ | SUnmarking r _ _ _ | SArrived r _
  | SUnmarked r _ | SUnmarkedArrived r | SGaveUp r _ => [r]
  | _ => []
  end.

Definition record (s : wait_memory) : Z := wait_record_state (wait_state s).

Definition registering (s : wait_memory) : Prop :=
  record s = WAIT_REGISTERING ∨ record s = WAIT_TEARDOWN.
Definition pending (s : wait_memory) : Prop :=
  record s = WAIT_PENDING ∨ record s = WAIT_SCHEDULED.
Definition retired (s : wait_memory) : Prop :=
  record s = WAIT_UNMARKING ∨ record s = WAIT_CANCELLED.

Definition delivered (s : wait_memory) (r : Z) : Prop := ∃ b, requests s !! r = Some (Delivered b).
Definition dispatched (c : bool) : request_state := if c then CancelDispatched else Cancelable.

(** The slot, the handoff and WDF's state of the published request. *)
Definition held (s : wait_memory) (r h : Z) (c : bool) : Prop :=
  wait_request s = r ∧ wait_cancel_handoff s = h ∧ requests s !! r = Some (dispatched c).

Definition sit_ok (s : wait_memory) (t : situation) : Prop :=
  match t with
  | SFree => record s = WAIT_FREE ∧ wait_request s = 0
  | SBegun r => registering s ∧ wait_request s = 0 ∧ delivered s r
  | SPublished r => registering s ∧ wait_request s = r ∧ delivered s r
  | SStored r i => registering s ∧ wait_request s = r ∧ delivered s r ∧ wait_interest s = i
  | SReady r i => registering s ∧ wait_request s = r ∧ delivered s r ∧ wait_interest s = i ∧
      wait_cancel_handoff s = WAIT_HANDOFF_NONE
  | SMarked r i t c => (if t then record s = WAIT_TEARDOWN else registering s) ∧
      held s r WAIT_HANDOFF_NONE c ∧ wait_interest s = i
  | SGone r p i => record s = WAIT_CANCELLED ∧ (p = Marked ∨ p = TornDown ∨ p = Gone)
  | SPending r c => pending s ∧ held s r WAIT_HANDOFF_NONE c
  | SUnmarking r k c u => record s = WAIT_UNMARKING ∧ held s r WAIT_HANDOFF_NONE c
  | SArrived r k => record s = WAIT_UNMARKING ∧ held s r WAIT_HANDOFF_CANCEL_ARRIVED true
  | SUnmarked r u => record s = WAIT_UNMARKING ∧ held s r WAIT_HANDOFF_NONE true
  | SUnmarkedArrived r => record s = WAIT_UNMARKING ∧ held s r WAIT_HANDOFF_CANCEL_ARRIVED true
  | SGaveUp r u => record s = WAIT_UNMARKING ∧ held s r WAIT_HANDOFF_UNMARK_CANCELLED true
  | SRetiring e z o => (if e then retired s else registering s) ∧
      (z = true → wait_request s = 0)
  end.

(** ** The invariant *)

(** The driver may complete a request in this state. *)
Definition ownable (q : option request_state) : Prop :=
  match q with Some (Delivered _) | Some CancelDispatched => True | _ => False end.

Record proto (s : wait_memory) (R : list role) (t : situation) : Prop := {
  p_ok : sit_ok s t;
  p_roles : specials R ≡ₚ sit_roles t;
  p_nodup : NoDup (pub t ++ owned R);
  p_live r : is_Some (requests s !! r) ↔ r ∈ pub t ++ owned R;
  p_owned r : r ∈ owned R → ownable (requests s !! r);
  p_null : requests s !! 0 = None;
  p_fresh r : Fresh r ∈ R → delivered s r;
}.

(** A scheduled wait has a worker coming. *)
Definition served (s : wait_memory) (R : list role) : Prop :=
  record s = WAIT_SCHEDULED → work_queued s = true ∨ Enqueuer ∈ R ∨ Worker ∈ R.

Definition is_ready (s : wait_memory) (b : Z) : Prop :=
  (b = ADAPTIVE_INTEREST_READABLE ∧ readable s = true) ∨
  (b = ADAPTIVE_INTEREST_WRITABLE ∧ writable s = true).

(** A pending wait whose interest is ready without having been claimed. *)
Definition unclaimed (s : wait_memory) (r b : Z) : Prop :=
  record s = WAIT_PENDING ∧ wait_request s = r ∧ is_ready s b ∧ Z.land (wait_interest s) b ≠ 0 ∧
  adaptive_interrupted s = false.

(** The roles that will claim it. *)
Definition covers (x : role) (r b : Z) : Prop :=
  match x with
  | Producer c => c = b
  | Rechecker r' c => r' = r ∧ Z.land c b ≠ 0
  | _ => False
  end.

Definition covered (s : wait_memory) (R : list role) : Prop :=
  ∀ r b, unclaimed s r b → ∃ x, x ∈ R ∧ covers x r b.

Definition interest_ok (i : Z) : Prop := 0 ≤ i ≤ 3.

Record data_ok (s : wait_memory) : Prop := {
  d_word : fits 64 (wait_state s);
  d_satisfied : interest_ok (wait_record_satisfied (wait_state s));
  d_scheduled : record s = WAIT_SCHEDULED → wait_record_satisfied (wait_state s) ≠ 0;
  d_interest : interest_ok (wait_interest s);
  d_adaptive : adaptive_enabled s = false → adaptive_interrupted s = true;
}.

Record wait_inv (s : wait_memory) (R : list role) : Prop := {
  i_proto : ∃ t, proto s R t;
  i_served : served s R;
  i_covered : covered s R;
  i_data : data_ok s;
}.

(** ** Permutations and frames *)

#[export] Instance specials_perm : Proper ((≡ₚ) ==> (≡ₚ)) specials.
Proof.
  intros R R' H. induction H as [|x R R' H IH|x y R|R R' R'' H1 IH1 H2 IH2]; cbn.
  - done.
  - destruct (special x); [by constructor|done].
  - destruct (special x), (special y); try done. by constructor.
  - by transitivity (specials R').
Qed.

#[export] Instance owned_perm : Proper ((≡ₚ) ==> (≡ₚ)) owned.
Proof.
  intros R R' H. induction H as [|x R R' H IH|x y R|R R' R'' H1 IH1 H2 IH2]; cbn.
  - done.
  - by rewrite IH.
  - rewrite !(assoc_L (++)). by rewrite (Permutation_app_comm (owned_of x)).
  - by transitivity (owned R').
Qed.

Lemma wait_inv_perm s R R' : R ≡ₚ R' → wait_inv s R → wait_inv s R'.
Proof.
  intros HP [[t [? Hr Hn Hl Ho ? Hf]] Hs Hc ?]. split; [|..|done].
  - exists t. split; [done| | | |intros r; rewrite <- HP; apply Ho|done|intros r; rewrite <- HP; apply Hf].
    + by rewrite <- HP.
    + by rewrite <- HP.
    + intros r. by rewrite <- HP.
  - intros Hsch. destruct (Hs Hsch) as [?|[?|?]]; [by left|right; left|right; right]; by rewrite <- HP.
  - intros r b Hu. destruct (Hc r b Hu) as (x & Hx & ?). exists x. by rewrite <- HP.
Qed.

(** One thread's role and the others'. *)
Lemma role_frame (R : list role) i x : R !! i = Some x →
  ∃ F, R ≡ₚ x :: F ∧ ∀ y, <[i := y]> R ≡ₚ y :: F.
Proof.
  intros Hi. exists (take i R ++ drop (S i) R). split.
  - rewrite <- (take_drop_middle R i x) at 1 by done. by rewrite Permutation_middle.
  - intros y. rewrite insert_take_drop by (by eapply lookup_lt_Some).
    by rewrite Permutation_middle.
Qed.

Lemma perm_1 {A} (x a : A) L : x :: L ≡ₚ [a] → a = x ∧ L = [].
Proof. intros H%Permutation_singleton_r. by simplify_eq. Qed.

Lemma perm_2 {A} (x a b : A) L : x :: L ≡ₚ [a; b] → (a = x ∧ L = [b]) ∨ (b = x ∧ L = [a]).
Proof.
  intros H. assert (Hx : x ∈ [a; b]) by (rewrite <- H; by left).
  apply elem_of_cons in Hx as [->|Hx%list_elem_of_singleton].
  - left. split; [done|]. apply Permutation_cons_inv in H. by apply Permutation_singleton_r in H.
  - subst x. right. split; [done|].
    assert (H' : b :: L ≡ₚ [b; a]) by (rewrite H; apply Permutation_swap).
    apply Permutation_cons_inv in H'. by apply Permutation_singleton_r in H'.
Qed.

Lemma perm_0 {A} (x : A) L : x :: L ≡ₚ [] → False.
Proof. intros H%Permutation_nil_r. done. Qed.

(** ** Rules *)

Definition wait_allowed (a : wait_act) (x : role) : Prop :=
  match a with
  | WdfRequestComplete r _ => x = Owner r ∨ x = Fresh r
  | WdfRequestCompleteWithInformation r _ _ | WdfRequestRetrieveOutputBuffer r _ => x = Owner r
  | WriteResponse r satisfied => x = Owner r ∧ 0 < satisfied ≤ 3
  | WdfRequestUnmarkCancelable r => x = Unmarker (Some r)
  | WdfRequestMarkCancelableEx r => ∃ i, x = Registrant r Ready i
  | _ => True
  end.

Abbreviation wsafe := (safe wait_exec wait_inv wait_allowed).

Lemma wsafe_act (c : wait_act) (Q : wait_ret c → role → Prop) x :
  wait_allowed c x →
  (∀ s F, wait_inv s (x :: F) → ∀ r s', (r, s') ∈ wait_exec s c →
     ∃ y, wait_inv s' (y :: F) ∧ Q r y) →
  wsafe (wact c) Q x.
Proof.
  intros Ha H. apply safe_act; [done|]. intros s R i Hi HI r s' Hr.
  destruct (role_frame R i x Hi) as (F & HF & Hy).
  destruct (H s F (wait_inv_perm _ _ _ HF HI) r s' Hr) as (y & HI' & HQ).
  exists y. split; [|done]. eapply wait_inv_perm; [|exact HI']. by rewrite Hy.
Qed.

Ltac outcome Hr := repeat (apply elem_of_cons in Hr as [Hr|Hr]); [..|by apply not_elem_of_nil in Hr].

Ltac act_step :=
  lazymatch goal with
  | |- safe _ _ _ (act1 ?c) ?Q ?x =>
      refine (wsafe_act c Q x _ _);
      [cbn; eauto|let s := fresh "s" in let F := fresh "F" in let HI := fresh "HI" in
       let a := fresh "a" in let s' := fresh "s'" in let Hr := fresh "Hr" in
       intros s F HI a s' Hr; cbn in Hr]
  end.

(** An action with one outcome. *)
Ltac one_outcome :=
  match goal with
  | Hr : (?a, ?s') ∈ [_] |- _ => apply list_elem_of_singleton in Hr; injection Hr as -> ->
  end.

(** A load leaves memory and role as they are. *)
Ltac load_step := act_step; one_outcome; eexists; split; [eassumption|].

Lemma proto_step s R t s' R' t' :
  proto s R t → sit_ok s' t' → specials R' ≡ₚ sit_roles t' →
  pub t' ++ owned R' ≡ₚ pub t ++ owned R →
  (∀ r, is_Some (requests s' !! r) ↔ is_Some (requests s !! r)) →
  (∀ r, r ∈ owned R' → ownable (requests s' !! r)) →
  (∀ r, Fresh r ∈ R' → delivered s' r) → proto s' R' t'.
Proof.
  intros [Hok Hr Hn Hl Ho H0 Hf] Hok' Hr' Hperm Hdom Ho' Hf'. split; try done.
  - by rewrite Hperm.
  - intros r. by rewrite Hdom, Hperm.
  - apply eq_None_not_Some. rewrite Hdom. rewrite H0. by intros [? ?].
Qed.

(** The other threads' fresh requests, when no request changed. *)
Ltac keep_fresh Hp :=
  let r := fresh in let H := fresh in
  intros r [H|H]%elem_of_cons; [try discriminate H; case_match; discriminate H|];
  exact (p_fresh _ _ _ Hp r (list_elem_of_further _ _ _ H)).

Ltac step_proto Hp := eapply proto_step; [exact Hp|..|keep_fresh Hp].

Lemma served_not s R : record s ≠ WAIT_SCHEDULED → served s R.
Proof. by intros ? ?. Qed.

Lemma served_keep s s' x y F :
  served s (x :: F) → (record s' = WAIT_SCHEDULED → record s = WAIT_SCHEDULED) →
  work_queued s' = work_queued s → (x = y ∨ (x ≠ Enqueuer ∧ x ≠ Worker)) → served s' (y :: F).
Proof.
  intros Hs Hrec Hq Hxy Hsch. rewrite Hq.
  destruct (Hs (Hrec Hsch)) as [?|[Hin|Hin]]; [by left|right; left|right; right];
    destruct Hxy as [<-|[? ?]]; try done;
    apply elem_of_cons in Hin as [<-|Hin]; try done; by right.
Qed.

Lemma covered_not s R : record s ≠ WAIT_PENDING → covered s R.
Proof. by intros ? r b [? _]. Qed.

Lemma covered_keep s s' x y F :
  covered s (x :: F) → (∀ r b, unclaimed s' r b → unclaimed s r b) →
  (∀ r b, unclaimed s' r b → covers x r b → covers y r b) → covered s' (y :: F).
Proof.
  intros Hc Hu Hxy r b H. destruct (Hc r b (Hu r b H)) as (z & [->|Hz]%elem_of_cons & Hcz).
  - exists y. split; [by left|]. by apply Hxy.
  - exists z. split; [by right|done].
Qed.

(** Dropping a role that covers nothing now. *)
Lemma covered_drop s x y F :
  covered s (x :: F) → (∀ r b, unclaimed s r b → ¬ covers x r b) → covered s (y :: F).
Proof. intros Hc Hx. apply covered_keep with s x; try done. intros r b Hu ?. by destruct (Hx r b Hu). Qed.

(** ** The record word *)

Definition small_state (st : Z) : Prop := 0 ≤ st ≤ 6.
Lemma small_fits st : small_state st → fits 8 st.
Proof. unfold small_state, fits. change (2 ^ 8) with 256. lia. Qed.
Lemma interest_fits m : interest_ok m → fits 8 m.
Proof. unfold interest_ok, fits. change (2 ^ 8) with 256. lia. Qed.

Lemma record_set s q m st : small_state st →
  record (s <| wait_state := wait_record_word q m st |>) = st.
Proof. intros. unfold record. cbn. apply word_state. by apply small_fits. Qed.

Lemma data_set s q m st :
  data_ok s → small_state st → interest_ok m → (st = WAIT_SCHEDULED → m ≠ 0) →
  data_ok (s <| wait_state := wait_record_word q m st |>).
Proof.
  intros [Hw Hs Hsch Hi Ha] Hst Hm Hnz.
  pose proof (small_fits st Hst) as Hf. pose proof (interest_fits m Hm) as Hmf.
  assert (Hsat : wait_record_satisfied (wait_record_word q m st) = m) by (by apply word_satisfied).
  split; [by apply word_fits|cbn; rewrite Hsat; exact Hm| |exact Hi|exact Ha].
  rewrite record_set by exact Hst. cbn. rewrite Hsat. exact Hnz.
Qed.

(** The word a transition writes. *)
Definition moved (s : wait_memory) (to : Z) : Z :=
  wait_record_word (wait_record_sequence (wait_state s)) (wait_record_satisfied (wait_state s)) to.

Lemma data_moved s to : data_ok s → small_state to → to ≠ WAIT_SCHEDULED →
  data_ok (s <| wait_state := moved s to |>).
Proof. unfold moved. intros Hd Ht Hns. apply data_set; [exact Hd|exact Ht|apply Hd|by intros ->]. Qed.

(** ** Case analysis on the situation *)

Ltac split_sit :=
  repeat match goal with
  | H : context [known _ ?k] |- _ => is_var k; destruct k
  | H : context [if ?c then _ else _] |- _ => is_var c; destruct c
  | H : _ :: _ ≡ₚ [] |- _ => by apply perm_0 in H
  | H : _ :: _ ≡ₚ [_] |- _ => apply perm_1 in H as [? ?]
  | H : _ :: _ ≡ₚ [_; _] |- _ => apply perm_2 in H as [[? ?]|[? ?]]
  end; unfold known in *; simplify_eq.

(** Expose the invariant and split on the situation, keeping the cases the
    role allows. *)
Ltac sit_cases HI :=
  let t := fresh "t" in let Hp := fresh "Hp" in
  destruct HI as [[t Hp] Hserved Hcov Hdata];
  let Hok := fresh "Hok" in let Hroles := fresh "Hroles" in
  pose proof (p_ok _ _ _ Hp) as Hok; pose proof (p_roles _ _ _ Hp) as Hroles;
  destruct t; cbn [specials special sit_roles] in Hroles; cbn [sit_ok] in Hok;
  split_sit.

Ltac split_ok :=
  repeat match goal with
  | H : _ ∧ _ |- _ => destruct H
  | H : held _ _ _ _ |- _ => destruct H as (? & ? & ?)
  | H : delivered _ _ |- _ => destruct H as [? ?]
  | H : @eq phase _ _ ∨ _ |- _ => destruct H as [H|H]
  | H : @eq phase _ _ |- _ => first [discriminate H | subst]
  end.

Definition states := (WAIT_FREE, WAIT_REGISTERING, WAIT_PENDING, WAIT_SCHEDULED, WAIT_UNMARKING,
  WAIT_TEARDOWN, WAIT_CANCELLED).

Ltac name_facts :=
  try match goal with H : specials _ = _ |- _ => rename H into HF end;
  try match goal with H : requests _ !! _ = Some _ |- _ => rename H into Hreq end;
  try match goal with H : wait_request _ = _ |- _ => rename H into Hslot end;
  try match goal with H : wait_cancel_handoff _ = _ |- _ => rename H into Hhand end;
  try match goal with H : record _ = _ |- _ => rename H into Hrec end.

(** The record state of a situation excludes the others. *)
Ltac state_clash :=
  exfalso; unfold registering, pending, retired in *; split_ok;
  repeat match goal with
  | H : _ ∨ _ |- _ => destruct H
  end;
  repeat match goal with
  | H1 : record ?s = ?a, H2 : record ?s = ?b |- _ => rewrite H1 in H2; clear H1
  end; done.

(** ** Retirement *)

(** The roles that may retire the record, and what they own afterwards. *)
Inductive retires : role → bool → option Z → Prop :=
  | retires_registrant r p i :
      p = Begun ∨ p = Published ∨ p = Stored ∨ p = Ready →
      retires (Registrant r p i) false (Some r)
  | retires_gone r i : retires (Registrant r Gone i) true None
  | retires_again e z o : retires (Retirer e z o) e o.

(** What the other threads see of a retiring record. *)
Lemma retiring_inv s s' x F e z o :
  retires x e o → (z = true → wait_request s' = 0) → wait_inv s (x :: F) →
  record s' = record s → requests s' = requests s →
  (data_ok s → data_ok s') →
  wait_inv s' (Retirer e z o :: F).
Proof.
  intros Hx Hz HI Hrec Hreq Hd'.
  assert (Hs : (if e then retired s else registering s) ∧ specials F = [] ∧
             ∃ t, proto s (x :: F) t ∧ pub t = [] ∧ owned_of x = owned_of (Retirer e z o)).
  { destruct HI as [[t Hp] _ _ _]. pose proof (p_ok _ _ _ Hp) as Hok.
    pose proof (p_roles _ _ _ Hp) as Hroles.
    destruct Hx as [r p i Hph|r i|e z0 o].
    - destruct Hph as [-> |[-> |[-> | ->]]]; destruct t; cbn in Hroles, Hok; split_sit; split_ok;
        (split_and!; [done|done|eexists; split_and!; [exact Hp|done|done]]).
    - destruct t; cbn in Hroles, Hok; split_sit; split_ok;
        (split_and!; [by right|done|eexists; split_and!; [exact Hp|done|done]]).
    - destruct t; cbn in Hroles, Hok; split_sit; split_ok;
        (split_and!; [done|done|eexists; split_and!; [exact Hp|done|done]]). }
  destruct Hs as (Hst & HF & t & Hp & Hpub & Hown).
  assert (Hst' : if e then retired s' else registering s').
  { destruct e; unfold retired, registering in *; by rewrite Hrec. }
  assert (Hnp : record s' ≠ WAIT_PENDING ∧ record s' ≠ WAIT_SCHEDULED).
  { destruct e; destruct Hst' as [-> | ->]; done. }
  destruct Hnp as [Hnp Hns]. split.
  - exists (SRetiring e z o). eapply proto_step; [exact Hp|done|..].
    + cbn. by rewrite HF.
    + cbn [owned]. rewrite Hpub, Hown. done.
    + intros r. by rewrite Hreq.
    + intros r. cbn [owned]. rewrite <- Hown, Hreq. apply (p_owned _ _ _ Hp).
    + intros r [?|Hr]%elem_of_cons; [done|]. unfold delivered. rewrite Hreq.
      apply (p_fresh _ _ _ Hp). by right.
  - by apply served_not.
  - by apply covered_not.
  - apply Hd', HI.
Qed.

Lemma data_same s s' : data_ok s → wait_state s' = wait_state s → interest_ok (wait_interest s') →
  adaptive_enabled s' = adaptive_enabled s → adaptive_interrupted s' = adaptive_interrupted s →
  data_ok s'.
Proof.
  intros [Hw Hs Hsch Hi Ha] H1 H2 H3 H4. unfold record in Hsch.
  split; unfold record; rewrite ?H1, ?H3, ?H4; done.
Qed.

(** The last store frees the record, and the history starts again. *)
Lemma freed_data s q : data_ok s →
  data_ok (s <| wait_state := wait_record_word q 0 WAIT_FREE |>
             <| adaptive_interrupted := negb (adaptive_enabled s) |>).
Proof.
  intros Hd. destruct (data_set s q 0 WAIT_FREE Hd) as [D1 D2 D3 D4 _]; [done..|].
  split; [exact D1|exact D2|exact D3|exact D4|]. cbn. by intros ->.
Qed.

Lemma freed_inv s q F e o :
  wait_inv s (Retirer e true o :: F) →
  wait_inv (s <| wait_state := wait_record_word q 0 WAIT_FREE |>
              <| adaptive_interrupted := negb (adaptive_enabled s) |>)
    (match o with Some r => Owner r | None => Idle end :: F).
Proof.
  intros HI. destruct HI as [[t Hp] Hserved Hcov Hdata].
  pose proof (p_ok _ _ _ Hp) as Hok. pose proof (p_roles _ _ _ Hp) as Hroles.
  assert (Hrec : record (s <| wait_state := wait_record_word q 0 WAIT_FREE |>
                           <| adaptive_interrupted := negb (adaptive_enabled s) |>) = WAIT_FREE)
    by (by apply (record_set s)).
  destruct t; cbn in Hroles, Hok; split_sit;
  (split;
  [|apply served_not; by rewrite Hrec|apply covered_not; by rewrite Hrec|by apply freed_data]);
  match goal with HF : specials _ = [] |- _ => rename HF into HF0 end;
  (exists SFree; step_proto Hp;
   [split; [done|by apply Hok]|case_match; cbn; by rewrite HF0|by case_match|done|]);
  intros r Hr; apply (p_owned _ _ _ Hp); by case_match.
Qed.

Definition released (o : option Z) : role := match o with Some r => Owner r | None => Idle end.

Section programs.
Context (state : instance) (Hnull : is_null state = false).

Lemma safe_finish x e o : retires x e o →
  wsafe (finish_wait state) (λ _ y, y = released o) x.
Proof.
  intros Hx. unfold finish_wait. rewrite Hnull.
  (* the interest, the generations and the handoff *)
  safe_next. act_step. one_outcome. exists (Retirer e false o). split.
  { eapply retiring_inv; [exact Hx|done|exact HI|done|done|].
    intros Hd. by apply data_same with s. }
  clear x Hx HI s F. safe_next. act_step. one_outcome. exists (Retirer e false o). split.
  { eapply retiring_inv; [constructor|done|exact HI|done|done|].
    intros Hd. apply data_same with s; try done. apply Hd. }
  safe_next. act_step. one_outcome. exists (Retirer e false o). split.
  { eapply retiring_inv; [constructor|done|exact HI0|done|done|].
    intros Hd. apply data_same with s0; try done. apply Hd. }
  safe_next. act_step. one_outcome. exists (Retirer e false o). split.
  { eapply retiring_inv; [constructor|done|exact HI1|done|done|].
    intros Hd. apply data_same with s1; try done. apply Hd. }
  safe_next. act_step. one_outcome. exists (Retirer e true o). split.
  { eapply retiring_inv; [constructor|done|exact HI2|done|done|].
    intros Hd. apply data_same with s2; try done. apply Hd. }
  safe_next. load_step. act_step. one_outcome. exists (released o).
  split; [|done]. by apply freed_inv with e.
Qed.

(** ** Completion of an owned request *)

Definition completes (x : role) (r : Z) : Prop := x = Owner r ∨ x = Fresh r.

Lemma owned_frame s x r F t : completes x r → proto s (x :: F) t → r ∉ pub t ++ owned F.
Proof.
  intros Hx Hp. pose proof (p_nodup _ _ _ Hp) as Hnd. cbn in Hnd.
  assert (Hx' : owned_of x = [r]) by (by destruct Hx as [-> | ->]). rewrite Hx' in Hnd. cbn in Hnd.
  rewrite <- Permutation_middle in Hnd. by apply NoDup_cons in Hnd as [? _].
Qed.

(** A situation does not speak of a request another thread owns. *)
Lemma sit_ok_delete s x r t F : completes x r → proto s (x :: F) t →
  sit_ok (s <| requests := delete r (requests s) |>) t.
Proof.
  intros Hx Hp. pose proof (p_ok _ _ _ Hp) as Hok. pose proof (p_roles _ _ _ Hp) as Hroles.
  pose proof (owned_frame _ _ _ _ _ Hx Hp) as Hr.
  assert (Hroles' : specials F ≡ₚ sit_roles t) by (by destruct Hx as [-> | ->]).
  clear Hroles. rename Hroles' into Hroles.
  assert (Hown : ∀ x r', x ∈ sit_roles t → r' ∈ owned_of x → r' ∈ owned F).
  { clear Hx Hp. intros x' r' Hx Hr'. rewrite <- Hroles in Hx. clear Hroles Hr.
    induction F as [|y F IH]; cbn in *; [by apply not_elem_of_nil in Hx|].
    destruct (special y).
    - apply elem_of_cons in Hx as [<-|Hx]; apply elem_of_app; [by left|right; auto].
    - apply elem_of_app. right. auto. }
  assert (Hdel : ∀ r', r' ≠ r → requests (s <| requests := delete r (requests s) |>) !! r'
                                 = requests s !! r').
  { intros r' Hne. cbn. by rewrite lookup_delete_ne. }
  assert (Hd : ∀ r', delivered s r' → r' ∈ owned F →
    delivered (s <| requests := delete r (requests s) |>) r').
  { intros r' [b Hb] Hin. exists b. rewrite Hdel; [done|]. intros ->. apply Hr, elem_of_app. by right. }
  assert (Hh : ∀ r' h c, held s r' h c → r' ∈ pub t →
    held (s <| requests := delete r (requests s) |>) r' h c).
  { intros r' h c (H1 & H2 & H3) Hin. split_and!; [done|done|]. rewrite Hdel; [done|].
    intros ->. apply Hr, elem_of_app. by left. }
  destruct t; cbn in Hok, Hown, Hh |- *; try exact Hok; destruct_and?; split_and?; try done;
    first [apply Hh; [done|by left] | apply Hd; [done|]; eapply Hown; by left | idtac].
Qed.

Lemma fresh_owned F r : Fresh r ∈ F → r ∈ owned F.
Proof.
  induction F as [|y F IH]; cbn; [by intros ?%not_elem_of_nil|].
  intros [<-|H]%elem_of_cons; apply elem_of_app; [left; by left|right; auto].
Qed.

Lemma completed_inv s x r F : completes x r →
  wait_inv s (x :: F) → wait_inv (s <| requests := delete r (requests s) |>) (Idle :: F).
Proof.
  intros Hx [[t Hp] Hserved Hcov Hdata].
  pose proof (owned_frame _ _ _ _ _ Hx Hp) as Hr.
  assert (Hmid : pub t ++ owned (x :: F) ≡ₚ r :: (pub t ++ owned F)).
  { destruct Hx as [-> | ->]; cbn; by rewrite <- Permutation_middle. }
  assert (Hsp : special x = false ∧ x ≠ Enqueuer ∧ x ≠ Worker ∧ ∀ r b, ¬ covers x r b)
    by (destruct Hx as [-> | ->]; split_and!; try done; by intros ??[]).
  destruct Hsp as (Hsp & He & Hw & Hcx).
  assert (Hne : ∀ r', r' ∈ owned F → r' ≠ r).
  { intros r' Hin ->. apply Hr, elem_of_app. by right. }
  split.
  - exists t. pose proof (sit_ok_delete _ _ _ _ _ Hx Hp) as Hok'.
    destruct Hp as [Hok Hroles Hnd Hlive Howned H0 Hf].
    split; [done| | | | | |].
    + cbn in Hroles. by rewrite Hsp in Hroles.
    + rewrite Hmid in Hnd. by apply NoDup_cons in Hnd as [_ ?].
    + intros r'. cbn. destruct (decide (r' = r)) as [->|Hrr].
      * rewrite lookup_delete_eq. split; [by intros [? ?]|done].
      * rewrite lookup_delete_ne by done. rewrite Hlive, Hmid, elem_of_cons. naive_solver.
    + intros r' Hin. cbn. rewrite lookup_delete_ne by (symmetry; by apply Hne).
      apply Howned. cbn. apply elem_of_app. by right.
    + cbn. destruct (decide (r = 0)) as [->|Hrr];
        [apply lookup_delete_eq|by rewrite lookup_delete_ne].
    + intros r' [?|Hin]%elem_of_cons; [done|]. destruct (Hf r') as [b Hb]; [by right|].
      exists b. cbn. rewrite lookup_delete_ne; [done|]. symmetry. by apply Hne, fresh_owned.
  - apply served_keep with s x; try done. by right.
  - apply covered_keep with s x; [done|done|]. intros r' b _ Hc. by destruct (Hcx r' b).
  - by apply data_same with s; try done; apply Hdata.
Qed.

Lemma complete_exec s r o : o ∈ complete_outcomes s r →
  o = (tt, s <| requests := delete r (requests s) |>).
Proof.
  unfold complete_outcomes. destruct (requests s !! r) as [[]|];
    first [by intros ->%list_elem_of_singleton | by intros ?%not_elem_of_nil].
Qed.

Lemma safe_complete x r status : completes x r →
  wsafe (complete_request r status) (λ _ y, y = Idle) x.
Proof.
  intros Hx. unfold complete_request. act_step. apply complete_exec in Hr. injection Hr as -> ->.
  exists Idle. split; [|done]. by apply completed_inv with x.
Qed.

Lemma safe_complete_owned r status :
  wsafe (complete_request r status) (λ _ y, y = Idle) (Owner r).
Proof. apply safe_complete. by left. Qed.

Lemma safe_complete_information r status n :
  wsafe (complete_request_with_information r status n) (λ _ y, y = Idle) (Owner r).
Proof.
  assert (Hx : completes (Owner r) r) by by left.
  unfold complete_request_with_information. act_step. apply complete_exec in Hr. injection Hr as -> ->.
  exists Idle. split; [|done]. by apply completed_inv with (Owner r).
Qed.

Lemma safe_response r status satisfied :
  (status = STATUS_SUCCESS → 0 < satisfied ≤ 3) →
  wsafe (complete_wait_response r status satisfied) (λ _ y, y = Idle) (Owner r).
Proof.
  intros Hsat. unfold complete_wait_response.
  destruct (Z.eqb_spec status STATUS_SUCCESS) as [Hst|Hst]; cbn [negb]; [|apply safe_complete_owned].
  safe_next. load_step. destruct (output_answer (framework s)) as [os ol].
  destruct (negb (os =? STATUS_SUCCESS) || (ol <? size_of_AdaptiveWaitResponse));
    [apply safe_complete_owned|].
  safe_next. load_step. apply safe_complete_information.
Qed.

(** ** Unmarking *)

Lemma proto_set s x y F t r q t' :
  proto s (x :: F) t → r ∈ pub t ++ owned_of x → sit_ok (set_request s r q) t' →
  specials (y :: F) ≡ₚ sit_roles t' →
  pub t' ++ owned_of y ≡ₚ pub t ++ owned_of x →
  (owned_of y = [] ∨ owned_of y = [r] ∧ ownable (Some q)) → (∀ r', y ≠ Fresh r') →
  proto (set_request s r q) (y :: F) t'.
Proof.
  intros Hp Hr Hok Hroles Hperm Hown Hy.
  assert (Hne : ∀ r', r' ∈ owned F → r' ≠ r).
  { intros r' Hin ->. pose proof (p_nodup _ _ _ Hp) as Hnd. cbn in Hnd.
    rewrite (assoc_L (++)) in Hnd. apply NoDup_app in Hnd as (_ & Hd & _). by apply (Hd r). }
  eapply proto_step; [exact Hp|done|done| | | |].
  - cbn. by rewrite !(assoc_L (++)), Hperm.
  - intros r'. cbn. destruct (decide (r' = r)) as [->|Hrr].
    + rewrite lookup_insert_eq. split; [intros _|by eexists].
      apply (p_live _ _ _ Hp). cbn. rewrite (assoc_L (++)). apply elem_of_app. by left.
    + by rewrite lookup_insert_ne.
  - intros r' Hin. cbn in Hin. apply elem_of_app in Hin as [Hin|Hin].
    + destruct Hown as [Hown|[Hown Hq]]; rewrite Hown in Hin; [by apply not_elem_of_nil in Hin|].
      apply list_elem_of_singleton in Hin as ->. cbn. by rewrite lookup_insert_eq.
    + cbn. rewrite lookup_insert_ne by (symmetry; by apply Hne).
      apply (p_owned _ _ _ Hp). cbn. apply elem_of_app. by right.
  - intros r' [H|Hin]%elem_of_cons; [by destruct (Hy r')|].
    destruct (p_fresh _ _ _ Hp r') as [b Hb]; [by right|]. exists b. cbn.
    rewrite lookup_insert_ne; [done|]. symmetry. by apply Hne, fresh_owned.
Qed.

Lemma record_not_pending s R : record s = WAIT_UNMARKING ∨ record s = WAIT_CANCELLED ∨
    registering s ∨ record s = WAIT_FREE → served s R ∧ covered s R.
Proof.
  intros H. assert (record s ≠ WAIT_PENDING ∧ record s ≠ WAIT_SCHEDULED) as [? ?].
  { destruct H as [-> |[-> |[[-> | ->]| ->]]]; done. }
  split; [by apply served_not|by apply covered_not].
Qed.

Ltac not_pending :=
  let Hs := fresh "Hserved" in let Hc := fresh "Hcovered" in
  edestruct record_not_pending as [Hs Hc]; [|split; [|exact Hs|exact Hc|]].

Ltac same_data s := apply data_same with s; try done; match goal with H : data_ok _ |- _ => apply H end.

Lemma other_status_ne st : other_status st ≠ STATUS_CANCELLED ∧ other_status st ≠ STATUS_SUCCESS.
Proof.
  unfold other_status. destruct (Z.eqb_spec st STATUS_SUCCESS), (Z.eqb_spec st STATUS_CANCELLED);
    cbn [orb]; split; done.
Qed.

(** A status that is not [STATUS_CANCELLED] gives the request back. *)
Lemma unmarked_inv s r u F :
  wait_inv s (Unmarker (Some r) :: F) → specials F = [] →
  proto s (Unmarker (Some r) :: F) (SUnmarking r true false u) →
  wait_inv (set_request s r (Delivered false)) (Retirer true false (Some r) :: F).
Proof.
  intros [_ _ _ Hdata] HF Hp. pose proof (p_ok _ _ _ Hp) as [Hrec (Hslot & Hhand & Hreq)].
  not_pending; [by left| |by same_data s].
  exists (SRetiring true false (Some r)).
  eapply proto_set; [exact Hp|by left|split; [by left|done]|by cbn; rewrite HF|done|by right|done].
Qed.

Lemma safe_unmark_call r :
  wsafe (wact (WdfRequestUnmarkCancelable r))
    (λ status y, if status =? STATUS_CANCELLED then y = Unmarked r else y = Retirer true false (Some r))
    (Unmarker (Some r)).
Proof.
  act_step. apply list_elem_of_fmap in Hr as ([st q] & [= -> ->] & Hr).
  pose proof HI as HI0. sit_cases HI; split_ok; name_facts; rewrite Hreq in Hr; cbn in Hr.
  - (* cancellation dispatched, the callback not arrived *)
    one_outcome. exists (Unmarked r). split; [|done].
    not_pending; [by left| |by same_data s].
    exists (SUnmarked r u). eapply proto_set; [exact Hp|by left| |by cbn; rewrite HF|done|by left|done].
    split; [done|]. split_and!; [done|done|]. by cbn; rewrite lookup_insert_eq.
  - (* still cancelable *)
    pose proof (other_status_ne (unmark_error (framework s))) as [Ho _].
    exists (Retirer true false (Some r)).
    outcome Hr; injection Hr as -> ->; (split; [by eapply unmarked_inv|]).
    + done.
    + by rewrite (proj2 (Z.eqb_neq _ _) Ho).
  - (* the callback arrived first *)
    one_outcome. exists (Unmarked r). split; [|done].
    not_pending; [by left| |by same_data s].
    exists (SUnmarkedArrived r). eapply proto_set; [exact Hp|by left| |by cbn; rewrite HF|done|by left|done].
    split; [done|]. split_and!; [done|done|]. by cbn; rewrite lookup_insert_eq.
Qed.

(** The unmarker was told [STATUS_CANCELLED]: who completes is settled by the
    handoff word. *)
Lemma safe_swap_unmarked r :
  wsafe (wact (SwapHandoff WAIT_HANDOFF_UNMARK_CANCELLED))
    (λ previous y, if previous =? WAIT_HANDOFF_CANCEL_ARRIVED
       then y = Retirer true false (Some r) else y = Idle)
    (Unmarked r).
Proof.
  act_step. one_outcome. sit_cases HI; split_ok; name_facts.
  - (* the callback has not run: it completes *)
    exists Idle. rewrite Hhand. split; [|done].
    not_pending; [by left| |by same_data s].
    exists (SGaveUp r u). step_proto Hp; [ |by cbn; rewrite HF|done|done|apply Hp].
    split; [done|]. by split_and!.
  - (* the callback has run: this thread completes *)
    exists (Retirer true false (Some r)). rewrite Hhand. split; [|done].
    not_pending; [by left| |by same_data s].
    exists (SRetiring true false (Some r)).
    step_proto Hp; [split; [by left|done]|by cbn; rewrite HF|done|done|].
    intros r' Hin. cbn in Hin. apply elem_of_cons in Hin as [->|Hin]; [by cbn; rewrite Hreq|].
    by apply (p_owned _ _ _ Hp).
Qed.

Lemma safe_unmark r status satisfied :
  (status = STATUS_SUCCESS → 0 < satisfied ≤ 3) →
  wsafe (unmark_and_complete_wait state r status satisfied) (λ _ y, y = Idle) (Unmarker (Some r)).
Proof.
  intros Hsat. unfold unmark_and_complete_wait.
  safe_next. eapply safe_mono; [apply safe_unmark_call|]. cbv beta. intros st y Hy.
  revert Hy.
  destruct (Z.eqb_spec st STATUS_SUCCESS) as [->|Hst]; [|destruct (Z.eqb_spec st STATUS_CANCELLED)];
    intros Hy.
  - change (y = Retirer true false (Some r)) in Hy. subst y. safe_next. eapply safe_mono; [eapply safe_finish; constructor|].
    intros ? ? ->. by apply safe_response.
  - subst y. safe_next. eapply safe_mono; [apply safe_swap_unmarked|]. cbv beta. intros h y.
    destruct (h =? WAIT_HANDOFF_CANCEL_ARRIVED); intros ->; [|done].
    safe_next. eapply safe_mono; [eapply safe_finish; constructor|]. intros ? ? ->.
    apply safe_complete_owned.
  - subst y. safe_next. eapply safe_mono; [eapply safe_finish; constructor|]. intros ? ? ->.
    apply safe_complete_owned.
Qed.

(** ** Transitions of the record *)

Lemma small_states : small_state WAIT_FREE ∧ small_state WAIT_REGISTERING ∧
  small_state WAIT_PENDING ∧ small_state WAIT_SCHEDULED ∧ small_state WAIT_UNMARKING ∧
  small_state WAIT_TEARDOWN ∧ small_state WAIT_CANCELLED.
Proof. by unfold small_state. Qed.

Lemma safe_transition_loop fuel from to (Q : result Z Z → role → Prop) x :
  (∀ s F, wait_inv s (x :: F) → record s ≠ from →
     ∃ y, wait_inv s (y :: F) ∧ Q (Err (wait_state s)) y) →
  (∀ s F, wait_inv s (x :: F) → record s = from →
     ∃ y, wait_inv (s <| wait_state := moved s to |>) (y :: F) ∧ Q (Ok (moved s to)) y) →
  wsafe (transition_loop fuel from to) Q x.
Proof.
  intros Herr Hok. induction fuel as [|fuel IH]; [done|]. cbn [transition_loop].
  safe_next. act_step. one_outcome.
  destruct (Z.eqb_spec (wait_record_state (wait_state s)) from) as [Hf|Hf]; cbn [negb].
  - exists x. split; [done|]. safe_next. act_step.
    destruct (Z.eqb_spec (wait_state s0) (wait_state s)) as [Hw|Hw].
    + outcome Hr; injection Hr as -> ->; [|by exists x].
      destruct (Hok s0 F0 HI0) as (y & HI' & HQ); [unfold record; by rewrite Hw|].
      unfold moved in HI', HQ. rewrite Hw in HI', HQ. by exists y.
    + one_outcome. by exists x.
  - destruct (Herr s F HI Hf) as (y & HI' & HQ). by exists y.
Qed.

Lemma safe_transition fuel from to (Q : result Z Z → role → Prop) x :
  (∀ s F, wait_inv s (x :: F) → record s ≠ from →
     ∃ y, wait_inv s (y :: F) ∧ Q (Err (wait_state s)) y) →
  (∀ s F, wait_inv s (x :: F) → record s = from →
     ∃ y, wait_inv (s <| wait_state := moved s to |>) (y :: F) ∧ Q (Ok (moved s to)) y) →
  wsafe (transition_wait_record fuel state from to) Q x.
Proof. unfold transition_wait_record. rewrite Hnull. apply safe_transition_loop. Qed.

Lemma moved_satisfied s to : data_ok s → small_state to →
  wait_record_satisfied (moved s to) = wait_record_satisfied (wait_state s).
Proof. intros Hd Ht. apply word_satisfied; [by apply small_fits|apply interest_fits, Hd]. Qed.

Lemma moved_state s to : small_state to → wait_record_state (moved s to) = to.
Proof. intros Ht. apply word_state. by apply small_fits. Qed.

(** [s'] differs from [s] in the record word only. *)
Lemma moved_record s to : small_state to → record (s <| wait_state := moved s to |>) = to.
Proof. apply record_set. Qed.

(** Teardown claims a registration. *)
Lemma tear_down_inv s F : wait_inv s (Idle :: F) → record s = WAIT_REGISTERING →
  wait_inv (s <| wait_state := moved s WAIT_TEARDOWN |>) (Idle :: F).
Proof.
  intros [[t Hp] Hserved Hcov Hdata] Hrec.
  assert (Hrec' : record (s <| wait_state := moved s WAIT_TEARDOWN |>) = WAIT_TEARDOWN)
    by (by apply moved_record).
  not_pending; [right; right; left; by right| |by apply data_moved].
  exists t. step_proto Hp; [ |apply Hp|done|done|apply Hp].
  pose proof (p_ok _ _ _ Hp) as Hok.
  destruct t as [| | | | |r i [] c| | | | | | | |[] z o]; cbn in Hok |- *;
    first [split; [by right|exact (proj2 Hok)] | state_clash].
Qed.

(** A published wait is taken for unmarking. *)
Lemma take_inv s x F : wait_inv s (x :: F) → special x = false → owned_of x = [] → pending s →
  wait_inv (s <| wait_state := moved s WAIT_UNMARKING |>) (Unmarker None :: F).
Proof.
  intros [[t Hp] Hserved Hcov Hdata] Hx Ho Hpend.
  assert (Hrec' : record (s <| wait_state := moved s WAIT_UNMARKING |>) = WAIT_UNMARKING)
    by (by apply moved_record).
  not_pending; [by left| |by apply data_moved].
  pose proof (p_ok _ _ _ Hp) as Hok. pose proof (p_roles _ _ _ Hp) as Hroles.
  cbn [specials] in Hroles. rewrite Hx in Hroles.
  destruct t as [| | | | |r i [] c| | r c | | | | | |[] z o]; cbn in Hok; try state_clash.
  destruct Hok as [_ Hheld].
  exists (SUnmarking r false c false).
  step_proto Hp; [by split| | |done|].
  - cbn. rewrite Hroles. cbn. by destruct c.
  - cbn [owned]. by rewrite Ho.
  - intros r' Hr'. apply (p_owned _ _ _ Hp). cbn [owned]. by rewrite Ho.
Qed.

(** ** The registrant *)

(** WDF accepted the routine and nobody interfered: publish. *)
Lemma publish_inv s r i F : wait_inv s (Registrant r Marked i :: F) →
  record s = WAIT_REGISTERING →
  wait_inv (s <| wait_state := moved s WAIT_PENDING |>) (Rechecker r i :: F).
Proof.
  intros HI Hrec.
  assert (Hrec' : record (s <| wait_state := moved s WAIT_PENDING |>) = WAIT_PENDING)
    by (by apply moved_record).
  assert (Hsit : ∃ c, proto s (Registrant r Marked i :: F) (SMarked r i false c) ∧
    specials F = (if c then [Canceller r false] else []) ∧ data_ok s).
  { sit_cases HI; split_ok; try state_clash; name_facts; eexists; (split; [exact Hp|by split]). }
  destruct Hsit as (c & Hp & HF & Hdata). pose proof (p_ok _ _ _ Hp) as (_ & Hheld & Hi).
  split.
  - exists (SPending r c).
    step_proto Hp; [split; [by left|done]|by cbn; rewrite HF|done|done|apply Hp].
  - apply served_not. by rewrite Hrec'.
  - intros r' b (_ & Hslot & _ & Hb & _). exists (Rechecker r i). split; [by left|]. cbn in *.
    destruct Hheld as (Hs & _ & _). split; congruence.
  - by apply data_moved.
Qed.

Lemma registrant_torn s r i F : wait_inv s (Registrant r Marked i :: F) →
  record s ≠ WAIT_REGISTERING →
  ∃ y, wait_inv s (y :: F) ∧
    ((record s = WAIT_TEARDOWN ∧ y = Registrant r TornDown i) ∨
     (record s ≠ WAIT_TEARDOWN ∧ y = Registrant r Gone i)).
Proof.
  intros HI Hne. pose proof HI as HI0.
  assert (Hgoal : ∀ y, (∃ t, proto s (y :: F) t) → record s ≠ WAIT_PENDING →
    record s ≠ WAIT_SCHEDULED → wait_inv s (y :: F)).
  { intros y Ht Hn1 Hn2. split; [done|by apply served_not|by apply covered_not|apply HI]. }
  assert (Htorn : ∀ c, proto s (Registrant r Marked i :: F) (SMarked r i false c) →
    specials F = (if c then [Canceller r false] else []) → registering s →
    wait_inv s (Registrant r TornDown i :: F) ∧ record s = WAIT_TEARDOWN).
  { intros c Hp HF [Hrec|Hrec]; [done|]. split; [|done].
    apply Hgoal; [|by rewrite Hrec..]. pose proof (p_ok _ _ _ Hp) as (_ & Hheld & Hi).
    exists (SMarked r i true c).
    step_proto Hp; [by split_and!|by cbn; rewrite HF|done|done|apply Hp]. }
  sit_cases HI; split_ok; name_facts.
  - destruct (Htorn true) as [? ?]; [done..|]. exists (Registrant r TornDown i). auto.
  - destruct (Htorn false) as [? ?]; [done..|]. exists (Registrant r TornDown i). auto.
  - exists (Registrant r Gone i). split; [|right; by rewrite Hrec].
    apply Hgoal; [|by rewrite Hrec..]. exists (SGone r Gone i).
    step_proto Hp; [split; [done|by right; right]|by cbn; rewrite HF|done|done|apply Hp].
Qed.

Lemma registrant_gone s r i F : wait_inv s (Registrant r TornDown i :: F) →
  record s ≠ WAIT_TEARDOWN → wait_inv s (Registrant r Gone i :: F).
Proof.
  intros HI Hne. pose proof (i_data _ _ HI) as Hd. sit_cases HI; split_ok; name_facts; try done.
  split; [|apply served_not; by rewrite Hrec|apply covered_not; by rewrite Hrec|done].
  exists (SGone r Gone i).
  step_proto Hp; [split; [done|by right; right]|by cbn; rewrite HF|done|done|apply Hp].
Qed.

Lemma registrant_unmarks s r i F : wait_inv s (Registrant r TornDown i :: F) →
  record s = WAIT_TEARDOWN →
  wait_inv (s <| wait_state := moved s WAIT_UNMARKING |>) (Unmarker (Some r) :: F).
Proof.
  intros HI Hrec.
  assert (Hrec' : record (s <| wait_state := moved s WAIT_UNMARKING |>) = WAIT_UNMARKING)
    by (by apply moved_record).
  assert (Hsit : ∃ c, proto s (Registrant r TornDown i :: F) (SMarked r i true c) ∧
    specials F = (if c then [Canceller r false] else []) ∧ data_ok s).
  { sit_cases HI; split_ok; try state_clash; eexists; (split; [exact Hp|by split]). }
  destruct Hsit as (c & Hp & HF & Hdata). pose proof (p_ok _ _ _ Hp) as (_ & Hheld & Hi).
  not_pending; [by left| |by apply data_moved].
  exists (SUnmarking r true c false).
  step_proto Hp; [by split|by cbn; rewrite HF|done|done|apply Hp].
Qed.

(** ** The cancel callback *)

Lemma cancel_registering_inv s r F : wait_inv s (Canceller r false :: F) → registering s →
  wait_inv (s <| wait_state := moved s WAIT_CANCELLED |>) (Owner r :: F).
Proof.
  intros HI Hreg.
  assert (Hrec' : record (s <| wait_state := moved s WAIT_CANCELLED |>) = WAIT_CANCELLED)
    by (by apply moved_record).
  assert (Hsit : ∃ i t, proto s (Canceller r false :: F) (SMarked r i t true) ∧
    specials F = [Registrant r (if t then TornDown else Marked) i] ∧ data_ok s).
  { sit_cases HI; split_ok; try state_clash; eexists _, _; (split; [exact Hp|by split]). }
  destruct Hsit as (i & t & Hp & HF & Hdata). pose proof (p_ok _ _ _ Hp) as (_ & Hheld & Hi).
  destruct Hheld as (Hs & Hh & Hq).
  not_pending; [by right; left| |by apply data_moved].
  exists (SGone r (if t then TornDown else Marked) i).
  step_proto Hp; [ |by cbn; rewrite HF|done|done|].
  - split; [done|]. destruct t; auto.
  - intros r' Hr'. cbn in Hr'. apply elem_of_cons in Hr' as [->|Hr']; [by cbn; rewrite Hq|].
    by apply (p_owned _ _ _ Hp).
Qed.

Lemma cancel_pending_inv s r F : wait_inv s (Canceller r false :: F) → pending s →
  wait_inv (s <| wait_state := moved s WAIT_CANCELLED |>) (Retirer true false (Some r) :: F).
Proof.
  intros HI Hpend.
  assert (Hrec' : record (s <| wait_state := moved s WAIT_CANCELLED |>) = WAIT_CANCELLED)
    by (by apply moved_record).
  assert (Hsit : proto s (Canceller r false :: F) (SPending r true) ∧ specials F = [] ∧ data_ok s).
  { sit_cases HI; split_ok; try state_clash; name_facts; (split; [exact Hp|by split]). }
  destruct Hsit as (Hp & HF & Hdata). pose proof (p_ok _ _ _ Hp) as (_ & Hs & Hh & Hq).
  not_pending; [by right; left| |by apply data_moved].
  exists (SRetiring true false (Some r)).
  step_proto Hp; [split; [by right|done]|by cbn; rewrite HF|done|done|].
  intros r' Hr'. cbn in Hr'. apply elem_of_cons in Hr' as [->|Hr']; [by cbn; rewrite Hq|].
  by apply (p_owned _ _ _ Hp).
Qed.

(** The callback saw the unmarking; it stays so until the callback acts. *)
Lemma canceller_saw_inv s r F : wait_inv s (Canceller r false :: F) →
  record s = WAIT_UNMARKING → wait_inv s (Canceller r true :: F).
Proof.
  intros HI Hun. pose proof (i_data _ _ HI) as Hd.
  destruct (record_not_pending s (Canceller r true :: F)) as [Hs Hc]; [by left|].
  split; [|done..].
  assert (Hgoal : ∀ t t' L, proto s (Canceller r false :: F) t → specials F = L →
    Canceller r true :: L ≡ₚ sit_roles t' → pub t = pub t' → sit_ok s t' →
    ∃ t, proto s (Canceller r true :: F) t).
  { intros t t' L Hp HF HL Hpub Hok. exists t'.
    step_proto Hp; [done|by cbn; rewrite HF|cbn; by rewrite Hpub|done|apply Hp]. }
  sit_cases HI; split_ok; try state_clash; name_facts.
  - eapply (Hgoal _ (SUnmarking r true true true)); [done..|apply Permutation_swap|done|by split].
  - eapply (Hgoal _ (SUnmarking r false true true)); [done..|apply Permutation_swap|done|by split].
  - eapply (Hgoal _ (SUnmarked r true)); [done..|apply Permutation_swap|done|by split].
  - eapply (Hgoal _ (SGaveUp r true)); [done..|done|done|by split].
Qed.

Lemma canceller_sees s r u F : wait_inv s (Canceller r u :: F) →
  wait_request s = r ∧ r ≠ 0 ∧
  (registering s ∨ pending s ∨ record s = WAIT_UNMARKING).
Proof.
  intros HI.
  assert (Hr : wait_request s = r ∧ requests s !! r = Some CancelDispatched ∧
    (registering s ∨ pending s ∨ record s = WAIT_UNMARKING) ∧ requests s !! 0 = None).
  { sit_cases HI; split_ok; name_facts; pose proof (p_null _ _ _ Hp);
      (split; [done|split; [done|split; [|done]]]); unfold registering in *; auto. }
  destruct Hr as (? & Hq & ? & H0). split_and!; [done| |done]. intros ->. by rewrite H0 in Hq.
Qed.

Lemma safe_swap_canceller r :
  wsafe (wact (SwapHandoff WAIT_HANDOFF_CANCEL_ARRIVED))
    (λ previous y, if previous =? WAIT_HANDOFF_UNMARK_CANCELLED
       then y = Retirer true false (Some r) else y = Idle)
    (Canceller r true).
Proof.
  act_step. one_outcome. sit_cases HI; split_ok; name_facts; rewrite Hhand.
  - exists Idle. split; [|done]. not_pending; [by left| |by same_data s].
    exists (SArrived r true).
    step_proto Hp; [by split_and!|by cbn; rewrite HF|done|done|apply Hp].
  - exists Idle. split; [|done]. not_pending; [by left| |by same_data s].
    exists (SArrived r false).
    step_proto Hp; [by split_and!|by cbn; rewrite HF|done|done|apply Hp].
  - exists Idle. split; [|done]. not_pending; [by left| |by same_data s].
    exists (SUnmarkedArrived r).
    step_proto Hp; [by split_and!|by cbn; rewrite HF|done|done|apply Hp].
  - exists (Retirer true false (Some r)). split; [|done].
    not_pending; [by left| |by same_data s]. exists (SRetiring true false (Some r)).
    step_proto Hp; [split; [by left|done]|by cbn; rewrite HF|done|done|].
    intros r' Hr'. cbn in Hr'. apply elem_of_cons in Hr' as [->|Hr']; [by cbn; rewrite Hreq|].
    by apply (p_owned _ _ _ Hp).
Qed.

Lemma safe_cancel_transition fuel r from : from = WAIT_REGISTERING ∨ from = WAIT_TEARDOWN →
  wsafe (transition_wait_record fuel state from WAIT_CANCELLED)
    (λ o y, y = match o with Ok _ => Owner r | Err _ => Canceller r false end) (Canceller r false).
Proof.
  intros Hfrom. apply safe_transition; intros s F HI Hrec; [by eexists|].
  eexists. split; [|done]. apply cancel_registering_inv; [done|].
  unfold registering. rewrite Hrec. naive_solver.
Qed.

Lemma safe_cancel_pending fuel r from : from = WAIT_PENDING ∨ from = WAIT_SCHEDULED →
  wsafe (transition_wait_record fuel state from WAIT_CANCELLED)
    (λ o y, y = match o with Ok _ => Retirer true false (Some r) | Err _ => Canceller r false end)
    (Canceller r false).
Proof.
  intros Hfrom. apply safe_transition; intros s F HI Hrec; [by eexists|].
  eexists. split; [|done]. apply cancel_pending_inv; [done|].
  unfold pending. rewrite Hrec. naive_solver.
Qed.

Lemma eqb_or x a b : (x =? a) || (x =? b) = true ↔ x = a ∨ x = b.
Proof. rewrite orb_true_iff, !Z.eqb_eq. done. Qed.

Lemma safe_cancel_loop fuel r :
  wsafe (cancel_loop fuel state r) (λ _ y, y = Idle) (Canceller r false).
Proof.
  induction fuel as [|fuel IH]; [done|]. cbn [cancel_loop].
  unfold load_wait_record. rewrite Hnull. safe_next. act_step. one_outcome.
  fold (record s). destruct (canceller_sees _ _ _ _ HI) as (_ & _ & Hrec).
  destruct ((record s =? WAIT_REGISTERING) || (record s =? WAIT_TEARDOWN)) eqn:H1;
    [|destruct ((record s =? WAIT_PENDING) || (record s =? WAIT_SCHEDULED)) eqn:H2;
      [|destruct (Z.eqb_spec (record s) WAIT_UNMARKING) as [Hu|Hu]]].
  - apply eqb_or in H1. exists (Canceller r false). split; [done|].
    safe_next. eapply safe_mono; [by apply safe_cancel_transition|].
    intros [] ? ->; [apply safe_complete_owned|apply IH].
  - apply eqb_or in H2. exists (Canceller r false). split; [done|].
    safe_next. eapply safe_mono; [by apply safe_cancel_pending|].
    intros [] ? ->; [|apply IH]. safe_next. eapply safe_mono; [eapply safe_finish; constructor|].
    intros ? ? ->. apply safe_complete_owned.
  - exists (Canceller r true). split; [by apply canceller_saw_inv|].
    safe_next. eapply safe_mono; [apply safe_swap_canceller|]. cbv beta. intros h y.
    destruct (h =? WAIT_HANDOFF_UNMARK_CANCELLED); intros ->; [|done].
    safe_next. eapply safe_mono; [eapply safe_finish; constructor|]. intros ? ? ->.
    apply safe_complete_owned.
  - exfalso. apply not_true_iff_false in H1, H2. rewrite eqb_or in H1, H2. tauto.
Qed.

Lemma safe_cancel_callback fuel r : r ≠ 0 →
  wsafe (evt_wait_for_change_cancel fuel (Some state) r) (λ _ y, y = Idle) (Canceller r false).
Proof.
  intros Hr. cbn [evt_wait_for_change_cancel]. unfold cancel_wait_from_wdf, wait_request_is_active.
  rewrite (proj2 (Z.eqb_neq _ _) Hr).
  safe_next. safe_next. unfold wait_request_slot. rewrite Hnull. act_step. one_outcome.
  destruct (canceller_sees _ _ _ _ HI) as (-> & _ & _).
  exists (Canceller r false). split; [done|]. rewrite Z.eqb_refl. cbn [negb]. apply safe_cancel_loop.
Qed.

(** ** Teardown and the worker *)

(** The unmarker reads the slot it owns. *)
Lemma unmarker_slot s F : wait_inv s (Unmarker None :: F) →
  wait_request s ≠ 0 ∧ wait_inv s (Unmarker (Some (wait_request s)) :: F).
Proof.
  intros HI. pose proof (i_data _ _ HI) as Hd.
  assert (Hnp : record s = WAIT_UNMARKING) by (by sit_cases HI; split_ok; name_facts).
  destruct (record_not_pending s (Unmarker (Some (wait_request s)) :: F)) as [Hs Hc]; [by left|].
  sit_cases HI; split_ok; name_facts; pose proof (p_null _ _ _ Hp) as H0;
    (split; [intros Hz; rewrite Hslot in Hz; rewrite Hz, H0 in Hreq; done|]);
    (split; [|done..]); rewrite Hslot in *.
  - exists (SUnmarking r true true u).
    step_proto Hp; [by split_and!|by cbn; rewrite HF|done|done|apply Hp].
  - exists (SUnmarking r true false u).
    step_proto Hp; [by split_and!|by cbn; rewrite HF|done|done|apply Hp].
  - exists (SArrived r true).
    step_proto Hp; [by split_and!|by cbn; rewrite HF|done|done|apply Hp].
Qed.

Lemma safe_unmarker_slot :
  wsafe (wait_request_slot state) (λ r y, r ≠ 0 ∧ y = Unmarker (Some r)) (Unmarker None).
Proof.
  unfold wait_request_slot. rewrite Hnull. act_step. one_outcome.
  destruct (unmarker_slot _ _ HI) as [Hr HI']. by eexists.
Qed.

Lemma safe_slot x : wsafe (wait_request_slot state) (λ _ y, y = x) x.
Proof. unfold wait_request_slot. rewrite Hnull. by load_step. Qed.

Lemma safe_tear_down fuel :
  wsafe (transition_wait_record fuel state WAIT_REGISTERING WAIT_TEARDOWN) (λ _ y, y = Idle) Idle.
Proof.
  apply safe_transition; intros s F HI Hrec; (eexists; split; [|done]); [done|].
  by apply tear_down_inv.
Qed.

Lemma safe_take_pending fuel from : from = WAIT_PENDING ∨ from = WAIT_SCHEDULED →
  wsafe (transition_wait_record fuel state from WAIT_UNMARKING)
    (λ o y, y = match o with Ok _ => Unmarker None | Err _ => Idle end) Idle.
Proof.
  intros Hfrom. apply safe_transition; intros s F HI Hrec; (eexists; split; [|done]); [done|].
  apply take_inv with Idle; try done. unfold pending. rewrite Hrec. naive_solver.
Qed.

Lemma safe_teardown fuel expected :
  wsafe (cancel_wait_request_for_teardown fuel state expected) (λ _ y, y = Idle) Idle.
Proof.
  induction fuel as [|fuel IH]; [done|]. cbn [cancel_wait_request_for_teardown].
  rewrite Hnull. unfold load_wait_record. rewrite Hnull. safe_next. load_step. fold (record s).
  destruct (record s =? WAIT_REGISTERING);
    [|destruct ((record s =? WAIT_PENDING) || (record s =? WAIT_SCHEDULED)) eqn:H2; [|done]].
  - safe_next. eapply safe_mono; [apply safe_slot|]. intros published ? ->.
    destruct (negb (expected =? 0) && negb (published =? expected)); [done|].
    safe_next. eapply safe_mono; [apply safe_tear_down|]. intros [] ? ->; [done|apply IH].
  - apply eqb_or in H2. safe_next. eapply safe_mono; [apply safe_slot|]. intros published ? ->.
    destruct ((published =? 0) || _); [done|].
    safe_next. eapply safe_mono; [by apply safe_take_pending|]. intros [] ? ->; [|apply IH].
    safe_next. eapply safe_mono; [apply safe_unmarker_slot|]. intros r ? [Hr ->].
    rewrite (proj2 (Z.eqb_neq _ _) Hr). safe_next.
    eapply safe_mono; [by apply safe_unmark|]. by intros ? ? ->.
Qed.

Lemma safe_stop fuel request : wsafe (evt_io_stop fuel state request) (λ _ y, y = Idle) Idle.
Proof.
  unfold evt_io_stop, wait_request_is_active. safe_next.
  eapply safe_mono with (Q := λ _ y, y = Idle).
  - destruct (request =? 0); [done|]. safe_next. eapply safe_mono; [apply safe_slot|].
    by intros ? ? ->.
  - intros [] ? ->; [|done]. safe_next. eapply safe_mono; [apply safe_teardown|]. by intros ? ? ->.
Qed.

(** ** Readiness *)

Definition mask_of (nonempty room : bool) : Z :=
  Z.lor (if nonempty then ADAPTIVE_INTEREST_READABLE else 0)
    (if room then ADAPTIVE_INTEREST_WRITABLE else 0).

Lemma safe_snapshot x :
  wsafe (readiness_snapshot state) (λ p y, y = x ∧ ∃ n m c i, p = (mask_of n m, c, i)) x.
Proof.
  unfold readiness_snapshot. rewrite Hnull. safe_next. load_step. safe_next. load_step.
  safe_next. eapply safe_mono with (Q := λ _ y, y = x).
  { destruct (negb (capture_lock state =? 0)); [by load_step|done]. }
  intros n ? ->. safe_next. eapply safe_mono with (Q := λ _ y, y = x).
  { destruct (negb (injection_lock state =? 0)); [by load_step|done]. }
  intros m ? ->. split; [done|]. by exists n, m, (capture_generation s), (injection_generation s0).
Qed.

Lemma safe_started x interest :
  wsafe (wait_interest_queues_started state interest) (λ _ y, y = x) x.
Proof.
  unfold wait_interest_queues_started. rewrite Hnull.
  safe_next. eapply safe_mono with (Q := λ _ y, y = x).
  { destruct (Z.land interest ADAPTIVE_INTEREST_READABLE =? 0); [done|by load_step]. }
  intros ? ? ->. safe_next. eapply safe_mono with (Q := λ _ y, y = x).
  { destruct (Z.land interest ADAPTIVE_INTEREST_WRITABLE =? 0); [done|by load_step]. }
  by intros ? ? ->.
Qed.

(** ** The worker *)

Definition works (x : role) : Prop := x = Idle ∨ x = Worker.

Lemma safe_claim_scheduled fuel x : works x →
  wsafe (transition_wait_record fuel state WAIT_SCHEDULED WAIT_UNMARKING)
    (λ o y, match o with
            | Ok w => y = Unmarker None ∧ 0 < wait_record_satisfied w ≤ 3
            | Err _ => y = Idle
            end) x.
Proof.
  intros Hx. assert (Hsp : special x = false ∧ owned_of x = []) by (by destruct Hx as [-> | ->]).
  destruct Hsp as [Hsp Hown]. apply safe_transition; intros s F HI Hrec.
  - exists Idle. split; [|done]. destruct HI as [[t Hp] Hs Hc Hd].
    split; [|by apply served_not| |done].
    + exists t. step_proto Hp; [apply Hp| | |done|].
      * cbn. rewrite <- (p_roles _ _ _ Hp). cbn. by rewrite Hsp.
      * cbn. by rewrite Hown.
      * intros r Hr. apply (p_owned _ _ _ Hp). cbn. by rewrite Hown.
    + apply covered_keep with s x; [done..|]. intros ? ? _. by destruct Hx as [-> | ->].
  - exists (Unmarker None). split; [apply take_inv with x; try done; by right|]. split; [done|].
    rewrite moved_satisfied by (first [apply HI|by unfold small_state]).
    pose proof (i_data _ _ HI) as [_ Hsat Hnz _ _]. specialize (Hnz Hrec).
    unfold interest_ok in Hsat. lia.
Qed.

Lemma land_interest a b : interest_ok a → interest_ok b → interest_ok (Z.land a b).
Proof.
  unfold interest_ok. intros Ha Hb. split; [apply Z.land_nonneg; lia|].
  pose proof (land_le_r a b). lia.
Qed.

Lemma mask_ok n m : interest_ok (mask_of n m).
Proof. unfold interest_ok, mask_of. by destruct n, m. Qed.

Lemma lor_interest a b : 0 < a ≤ 3 → interest_ok b → 0 < Z.lor a b ≤ 3.
Proof.
  unfold interest_ok. intros Ha Hb.
  assert (Hcase : (a = 1 ∨ a = 2 ∨ a = 3) ∧ (b = 0 ∨ b = 1 ∨ b = 2 ∨ b = 3)) by lia.
  destruct Hcase as [[-> |[-> | ->]] [-> |[-> |[-> | ->]]]]; by vm_compute.
Qed.

Lemma safe_take fuel x : works x →
  wsafe (take_scheduled_wait fuel state)
    (λ o y, match o with
            | Some (r, satisfied) => y = Unmarker (Some r) ∧ 0 < satisfied ≤ 3
            | None => y = Idle
            end) x.
Proof.
  intros Hx. unfold take_scheduled_wait. rewrite Hnull. safe_next.
  eapply safe_mono; [by apply safe_claim_scheduled|]. intros [w|w] y Hy; [|by subst].
  destruct Hy as [-> Hw]. safe_next. eapply safe_mono; [apply safe_unmarker_slot|].
  intros r ? [Hr ->]. rewrite (proj2 (Z.eqb_neq _ _) Hr).
  safe_next. act_step. one_outcome. eexists. split; [done|].
  pose proof (d_interest _ (i_data _ _ HI)) as Hi.
  safe_next. eapply safe_mono; [apply safe_snapshot|].
  intros p ? (-> & n & m & c & i & ->). split; [done|].
  apply lor_interest; [done|]. apply land_interest; [apply mask_ok|done].
Qed.

Lemma safe_complete_scheduled r satisfied : 0 < satisfied ≤ 3 →
  wsafe (complete_scheduled_wait_at_passive state r satisfied) (λ _ y, y = Idle) (Unmarker (Some r)).
Proof.
  intros Hsat. unfold complete_scheduled_wait_at_passive. rewrite Hnull.
  safe_next. load_step. safe_next. load_step.
  safe_next. eapply safe_mono with (Q := λ _ y, y = Unmarker (Some r)).
  { destruct (negb (lifecycle s0 =? INSTANCE_OPEN)); [done|].
    safe_next. eapply safe_mono; [apply safe_started|]. by intros ? ? ->. }
  intros [] ? ->; apply safe_unmark; done.
Qed.

Lemma safe_worker fuel x : works x →
  wsafe (read_completion_loop fuel state) (λ _ y, y = Idle) x.
Proof.
  revert x. induction fuel as [|fuel IH]; intros x Hx; [done|]. cbn [read_completion_loop].
  safe_next. eapply safe_mono; [by apply safe_take|]. intros [[r satisfied]|] y Hy.
  - destruct Hy as [-> Hs]. safe_next. eapply safe_mono; [by apply safe_complete_scheduled|].
    intros ? ? ->. apply IH. by left.
  - subst y. safe_next. load_step. destruct (serves_read (framework s)); [apply IH; by left|done].
Qed.

(** ** Claims *)

(** The roles in which [claim_loop] runs, for its condition and request. *)
Inductive claims (c expected : Z) : role → Prop :=
  | claims_idle : claims c expected Idle
  | claims_producer : expected = 0 → claims c expected (Producer c)
  | claims_rechecker : expected ≠ 0 → claims c expected (Rechecker expected c).

Lemma claims_plain c e x : claims c e x →
  special x = false ∧ owned_of x = [] ∧ x ≠ Enqueuer ∧ x ≠ Worker.
Proof. by destruct 1. Qed.

(** Changing between roles that hold nothing. *)
Lemma plain_proto s x y F t :
  special x = false → owned_of x = [] → special y = false → owned_of y = [] →
  proto s (x :: F) t → proto s (y :: F) t.
Proof.
  intros Hx Hox Hy Hoy Hp. eapply proto_step; [exact Hp|apply Hp| | |done| |].
  - rewrite <- (p_roles _ _ _ Hp). cbn. by rewrite Hx, Hy.
  - cbn. by rewrite Hox, Hoy.
  - intros r. cbn. rewrite Hoy. intros Hr. apply (p_owned _ _ _ Hp). cbn. by rewrite Hox.
  - intros r [<-|Hin]%elem_of_cons; [by cbn in Hoy|]. apply (p_fresh _ _ _ Hp). by right.
Qed.

Lemma drop_inv s x c e F : claims c e x → wait_inv s (x :: F) →
  (∀ r b, unclaimed s r b → ¬ covers x r b) → wait_inv s (Idle :: F).
Proof.
  intros Hx [[t Hp] Hs Hc Hd] Hdrop. destruct (claims_plain _ _ _ Hx) as (H1 & H2 & H3 & H4).
  split; [|..|done].
  - exists t. by apply plain_proto with x.
  - apply served_keep with s x; try done. by right.
  - by apply covered_drop with x.
Qed.

Lemma pending_slot s R : wait_inv s R → record s = WAIT_PENDING → wait_request s ≠ 0.
Proof.
  intros [[t Hp] _ _ _] Hrec H0. pose proof (p_ok _ _ _ Hp) as Hok. pose proof (p_null _ _ _ Hp) as Hn.
  destruct t as [| | | | |r i [] c| | r c | | | | | |[] z o]; cbn in Hok; try state_clash.
  destruct Hok as (_ & Hslot & _ & Hq). rewrite Hslot in H0. subst r. by rewrite Hn in Hq.
Qed.

(** On three-bit masks: a bit in both is in the intersection. *)
Lemma mask_meets i c b : interest_ok i → interest_ok c →
  b = ADAPTIVE_INTEREST_READABLE ∨ b = ADAPTIVE_INTEREST_WRITABLE →
  Z.land i b ≠ 0 → Z.land c b ≠ 0 → Z.land i c ≠ 0.
Proof.
  unfold interest_ok. intros Hi Hc Hb.
  assert (Hcase : (i = 0 ∨ i = 1 ∨ i = 2 ∨ i = 3) ∧ (c = 0 ∨ c = 1 ∨ c = 2 ∨ c = 3)) by lia.
  destruct Hcase as [[-> |[-> |[-> | ->]]] [-> |[-> |[-> | ->]]]]; destruct Hb as [-> | ->]; by vm_compute.
Qed.

Lemma ready_bit s b : is_ready s b → b = ADAPTIVE_INTEREST_READABLE ∨ b = ADAPTIVE_INTEREST_WRITABLE.
Proof. intros [[-> _]|[-> _]]; auto. Qed.

Lemma interest_drop s x c e r b : claims c e x → interest_ok c → data_ok s →
  Z.land (wait_interest s) c = 0 → unclaimed s r b → ¬ covers x r b.
Proof.
  intros Hx Hc Hd H0 (_ & _ & Hready & Hib & _). destruct Hx; cbn; [tauto| |].
  - intros ->. done.
  - intros [_ Hcb]. apply (mask_meets (wait_interest s) c b); try done; [apply Hd|by eapply ready_bit].
Qed.

(** A successful claim of a pending wait. *)
Lemma schedule_inv s x c e F m : claims c e x → wait_inv s (x :: F) → record s = WAIT_PENDING →
  0 < m ≤ 3 →
  wait_inv (s <| wait_state := wait_record_word (wait_record_sequence (wait_state s))
                   (Z.lor (wait_record_satisfied (wait_state s)) m) WAIT_SCHEDULED |>)
    (Enqueuer :: F).
Proof.
  intros Hx [[t Hp] Hs Hc Hd] Hrec Hm. set (s' := s <| wait_state := _ |>).
  assert (Hrec' : record s' = WAIT_SCHEDULED) by (by apply record_set).
  destruct (claims_plain _ _ _ Hx) as (H1 & H2 & H3 & H4).
  pose proof (p_ok _ _ _ Hp) as Hok. pose proof (p_roles _ _ _ Hp) as Hroles.
  destruct t as [| | | | |r i [] c0| | r c0 | | | | | |[] z o]; cbn in Hok; try state_clash.
  destruct Hok as [_ Hheld].
  assert (Hlor : 0 < Z.lor m (wait_record_satisfied (wait_state s)) ≤ 3)
    by (apply lor_interest; [done|apply Hd]).
  split.
  - exists (SPending r c0).
    eapply proto_step; [exact Hp|split; [by right|done]| | |done| |].
    + rewrite <- Hroles. cbn. by rewrite H1.
    + cbn. by rewrite H2.
    + intros r'. cbn. intros Hr. apply (p_owned _ _ _ Hp). cbn. by rewrite H2.
    + intros r' [?|Hin]%elem_of_cons; [done|]. apply (p_fresh _ _ _ Hp r'). by right.
  - intros _. right. left. by left.
  - apply covered_not. by rewrite Hrec'.
  - apply data_set; [done|by unfold small_state| |]; rewrite Z.lor_comm;
      [unfold interest_ok; lia|intros _; lia].
Qed.

(** Adding bits to a scheduled wait. *)
Lemma reschedule_inv s F m : wait_inv s (Idle :: F) → record s = WAIT_SCHEDULED → 0 < m ≤ 3 →
  wait_inv (s <| wait_state := wait_record_word (wait_record_sequence (wait_state s))
                   (Z.lor (wait_record_satisfied (wait_state s)) m) WAIT_SCHEDULED |>)
    (Idle :: F).
Proof.
  intros [[t Hp] Hs Hc Hd] Hrec Hm. set (s' := s <| wait_state := _ |>).
  assert (Hrec' : record s' = WAIT_SCHEDULED) by (by apply record_set).
  pose proof (p_ok _ _ _ Hp) as Hok.
  destruct t as [| | | | |r i [] c0| | r c0 | | | | | |[] z o]; cbn in Hok; try state_clash.
  destruct Hok as [_ Hheld].
  assert (Hlor : 0 < Z.lor m (wait_record_satisfied (wait_state s)) ≤ 3)
    by (apply lor_interest; [done|apply Hd]).
  split.
  - exists (SPending r c0).
    step_proto Hp; [split; [by right|done]|apply Hp|done|done|apply Hp].
  - intros _. exact (Hs Hrec).
  - apply covered_not. by rewrite Hrec'.
  - apply data_set; [done|by unfold small_state| |]; rewrite Z.lor_comm;
      [unfold interest_ok; lia|intros _; lia].
Qed.

Context (Hwork : read_work_item state ≠ 0).

Lemma safe_enqueue : wsafe (enqueue_work_item (read_work_item state)) (λ _ y, y = Idle) Enqueuer.
Proof.
  unfold enqueue_work_item. rewrite (proj2 (Z.eqb_neq _ _) Hwork). cbn [negb].
  act_step. one_outcome. exists Idle. split; [|done]. destruct HI as [[t Hp] Hs Hc Hd]. split.
  - exists t. step_proto Hp; [exact (p_ok _ _ _ Hp)|apply Hp|done|done|apply Hp].
  - intros _. by left.
  - by apply covered_keep with s Enqueuer.
  - by same_data s.
Qed.

Lemma safe_claim_loop fuel c e x : claims c e x → interest_ok c →
  wsafe (claim_loop fuel state c e) (λ _ y, y = Idle) x.
Proof.
  intros Hx Hc. revert x Hx. induction fuel as [|fuel IH]; intros x Hx; [done|].
  cbn [claim_loop]. safe_next. act_step. one_outcome. fold (record s).
  (* only a pending record can still need this claim *)
  assert (Hrole : ∃ y, wait_inv s (y :: F) ∧ claims c e y ∧ (record s ≠ WAIT_PENDING → y = Idle)).
  { destruct (decide (record s = WAIT_PENDING)) as [Hp|Hp]; [by exists x|].
    exists Idle. split; [|split; [constructor|done]].
    apply drop_inv with x c e; [done..|]. by intros r b [? _]. }
  destruct Hrole as (y & HI' & Hy & Hidle). exists y. split; [done|]. clear x Hx HI.
  destruct (Z.eqb_spec (record s) WAIT_PENDING) as [Hp|Hp];
    [|rewrite (Hidle Hp) in *; destruct (Z.eqb_spec (record s) WAIT_SCHEDULED) as [Hsch|Hsch]];
    cbn [negb andb]; [..|done].
  - (* pending *)
    safe_next. unfold wait_request_slot. rewrite Hnull. act_step. one_outcome.
    destruct ((wait_request s0 =? 0) || _) eqn:Hslot.
    { exists Idle. split; [|done]. apply drop_inv with y c e; [done..|].
      intros r b Hu Hcov. destruct Hu as (Hrec & Hr & _).
      pose proof (pending_slot _ _ HI Hrec) as Hnz. rewrite (proj2 (Z.eqb_neq _ _) Hnz) in Hslot.
      cbn [orb] in Hslot. apply andb_true_iff in Hslot as [He Hne].
      rewrite negb_true_iff, Z.eqb_neq in He, Hne.
      destruct Hy; cbn in Hcov; [done|done|]. destruct Hcov as [Hcov _]. congruence. }
    exists y. split; [done|]. safe_next. act_step. one_outcome.
    destruct (Z.eqb_spec (Z.land (wait_interest s1) c) 0) as [Hz|Hz].
    { exists Idle. split; [|done]. apply drop_inv with y c e; [done..|].
      intros r b Hu. apply interest_drop with s1 c e; try done. apply HI0. }
    assert (Hm : 0 < Z.land (wait_interest s1) c ≤ 3).
    { pose proof (land_interest (wait_interest s1) c) as Hl. unfold interest_ok in Hl.
      destruct Hl; [apply HI0|done|]. lia. }
    exists y. split; [done|]. fold (record s) in Hp.
    destruct (Z.eqb_spec (wait_record_word (wait_record_sequence (wait_state s))
        (Z.lor (wait_record_satisfied (wait_state s)) (Z.land (wait_interest s1) c)) WAIT_SCHEDULED)
        (wait_state s)) as [Heq|Hneq].
    { exfalso. unfold record in Hp. rewrite <- Heq, word_state in Hp; [done|by apply small_fits]. }
    safe_next. act_step. destruct (Z.eqb_spec (wait_state s2) (wait_state s)) as [Hw|Hw].
    + outcome Hr; injection Hr as -> ->; [|exists y; split; [done|by apply IH]].
      exists Enqueuer. split.
      * rewrite <- Hw. apply schedule_inv with y c e; try done. unfold record. by rewrite Hw.
      * safe_next. eapply safe_mono; [apply safe_enqueue|]. by intros ? ? ->.
    + one_outcome. exists y. split; [done|by apply IH].
  - (* already scheduled: contribute the bits *)
    clear Hy. safe_next. unfold wait_request_slot. rewrite Hnull. load_step.
    destruct ((wait_request s0 =? 0) || _); [done|]. safe_next. act_step. one_outcome.
    exists Idle. split; [done|].
    destruct (Z.eqb_spec (Z.land (wait_interest s1) c) 0) as [Hz|Hz]; [done|].
    assert (Hm : 0 < Z.land (wait_interest s1) c ≤ 3).
    { pose proof (land_interest (wait_interest s1) c) as Hl. unfold interest_ok in Hl.
      destruct Hl; [apply HI0|done|]. lia. }
    destruct (_ =? wait_state s); [done|].
    safe_next. act_step. destruct (Z.eqb_spec (wait_state s2) (wait_state s)) as [Hw|Hw].
    + outcome Hr; injection Hr as -> ->; [|exists Idle; split; [done|apply IH; constructor]].
      exists Idle. split.
      * rewrite <- Hw. apply reschedule_inv; try done. unfold record. by rewrite Hw.
      * done.
    + one_outcome. exists Idle. split; [done|apply IH; constructor].
Qed.

(** [claim_wait_for_passive_completion], whose caller covers [c]. *)
Lemma safe_claim fuel c e x : claims c e x → interest_ok c → c ≠ 0 →
  wsafe (claim_wait_for_passive_completion fuel state c e) (λ _ y, y = Idle) x.
Proof.
  intros Hx Hc Hc0. unfold claim_wait_for_passive_completion. rewrite Hnull.
  rewrite (proj2 (Z.eqb_neq _ _) Hc0). cbn [orb]. safe_next. act_step. one_outcome.
  destruct (adaptive_enabled s) eqn:Ha; cbn [negb].
  - exists x. split; [done|]. by apply safe_claim_loop.
  - exists Idle. split; [|done]. apply drop_inv with x c e; [done..|].
    intros r b (_ & _ & _ & _ & Hdis). pose proof (d_adaptive _ (i_data _ _ HI) Ha). congruence.
Qed.

(** A queue transition takes on the claim together with the readiness. *)
Lemma safe_queue_transition fuel c :
  c = ADAPTIVE_INTEREST_READABLE ∨ c = ADAPTIVE_INTEREST_WRITABLE →
  wsafe (queue_transition fuel state c) (λ _ y, y = Idle) Idle.
Proof.
  intros Hc. unfold queue_transition. safe_next. act_step.
  assert (Hgoal : ∀ s', (∀ b, is_ready s' b → is_ready s b ∨ (b = c ∧ ¬ is_ready s c)) →
    wait_state s' = wait_state s → wait_request s' = wait_request s →
    wait_cancel_handoff s' = wait_cancel_handoff s → wait_interest s' = wait_interest s →
    adaptive_enabled s' = adaptive_enabled s →
    adaptive_interrupted s' = adaptive_interrupted s → requests s' = requests s →
    work_queued s' = work_queued s →
    wait_inv s' (Producer c :: F) ∧ ((∀ b, is_ready s' b → is_ready s b) → wait_inv s' (Idle :: F))).
  { intros s'' Hready H1 H2 H3 H4 H5 H6 H7 H8. destruct HI as [[t Hp] Hs Hcov Hd].
    assert (Hrec : record s'' = record s) by (unfold record; by rewrite H1).
    assert (Hplain : ∀ y, special y = false → owned_of y = [] → ∃ t, proto s'' (y :: F) t).
    { intros y Hy Hoy. exists t. apply (plain_proto s Idle y F t eq_refl eq_refl Hy Hoy) in Hp.
      eapply proto_step; [exact Hp| |apply Hp|done| | |].
      - pose proof (p_ok _ _ _ Hp) as Hok.
        destruct t; cbn in Hok |- *; unfold registering, pending, retired, held, delivered in *;
          rewrite ?Hrec, ?H2, ?H3, ?H4, ?H7; exact Hok.
      - intros r. by rewrite H7.
      - intros r. rewrite H7. apply (p_owned _ _ _ Hp).
      - intros r Hfr. unfold delivered. rewrite H7. by apply (p_fresh _ _ _ Hp). }
    assert (Hserved : ∀ y, y ≠ Enqueuer → y ≠ Worker → served s'' (y :: F)).
    { intros y Hy1 Hy2. apply served_keep with s Idle; [done|by rewrite Hrec|done|]. by right. }
    assert (Hdata : data_ok s'').
    { apply data_same with s; try done. rewrite H4. apply Hd. }
    assert (Hun : ∀ r b, unclaimed s'' r b → is_ready s b → unclaimed s r b).
    { intros r b (U1 & U2 & U3 & U4 & U5) Hb. unfold unclaimed. rewrite <- Hrec, <- H2, <- H4, <- H6.
      done. }
    split.
    - split; [by apply Hplain|by apply Hserved| |done].
      intros r b Hu. pose proof Hu as (_ & _ & Hb & _).
      destruct (Hready b Hb) as [Hb'|[-> _]]; [|exists (Producer c); split; [by left|done]].
      destruct (Hcov r b (Hun _ _ Hu Hb')) as (x & [->|Hx]%elem_of_cons & Hcx); [done|].
      exists x. split; [by right|done].
    - intros Hsame. split; [by apply Hplain|by apply Hserved| |done].
      intros r b Hu. pose proof Hu as (_ & _ & Hb & _).
      destruct (Hcov r b (Hun _ _ Hu (Hsame _ Hb))) as (x & Hx & Hcx). by exists x. }
  assert (Hclaim : wsafe (_ ← claim_wait_for_passive_completion fuel state c 0; mret tt)
    (λ _ y, y = Idle) (Producer c)).
  { safe_next. eapply safe_mono; [apply safe_claim; [by constructor|..]|by intros ? ? ->].
    - destruct Hc as [-> | ->]; by unfold interest_ok.
    - by destruct Hc as [-> | ->]. }
  destruct (Z.eqb_spec c ADAPTIVE_INTEREST_READABLE) as [->|Hne]; one_outcome.
  - destruct (readable s) eqn:Hrd; cbn [negb].
    + exists Idle. split; [|done]. apply Hgoal; try done.
      * intros b Hb. left. destruct Hb as [[-> _]|Hb]; [by left|by right].
      * intros b [[-> _]|Hb]; [by left|by right].
    + exists (Producer ADAPTIVE_INTEREST_READABLE). split; [|done]. apply Hgoal; try done.
      intros b [[-> _]|Hb]; [|left; by right]. right. split; [done|].
      intros [[_ ?]|[? _]]; [congruence|done].
  - destruct Hc as [->| ->]; [done|]. destruct (writable s) eqn:Hrd; cbn [negb].
    + exists Idle. split; [|done]. apply Hgoal; try done.
      * intros b Hb. left. destruct Hb as [Hb|[-> _]]; [by left|by right].
      * intros b [Hb|[-> _]]; [by left|by right].
    + exists (Producer ADAPTIVE_INTEREST_WRITABLE). split; [|done]. apply Hgoal; try done.
      intros b [Hb|[-> _]]; [left; by left|]. right. split; [done|].
      intros [[? _]|[_ ?]]; [done|congruence].
Qed.

(** ** Registration *)

Definition wait_final (x : role) : Prop := x = Idle ∨ ∃ r, x = Rechecker r 0.

Lemma begin_inv s r F : wait_inv s (Fresh r :: F) → record s = WAIT_FREE →
  wait_inv (s <| wait_state := wait_record_word (wait_record_sequence (wait_state s) + 1) 0
                   WAIT_REGISTERING |>) (Registrant r Begun 0 :: F).
Proof.
  intros [[t Hp] Hs Hc Hd] Hrec. set (s' := s <| wait_state := _ |>).
  assert (Hrec' : record s' = WAIT_REGISTERING) by (by apply record_set).
  not_pending; [right; right; left; by left| |by apply data_set].
  pose proof (p_ok _ _ _ Hp) as Hok. pose proof (p_roles _ _ _ Hp) as Hroles.
  destruct t as [| | | | |? ? [] ?| | | | | | | |[] z o]; cbn in Hok; try state_clash.
  exists (SBegun r). step_proto Hp; [|by cbn; rewrite Hroles|done|done|apply Hp].
  split; [by left|]. split; [apply Hok|]. apply (p_fresh _ _ _ Hp). by left.
Qed.

Lemma safe_begin fuel r :
  wsafe (begin_wait_record fuel state)
    (λ b y, y = if b : bool then Registrant r Begun 0 else Fresh r) (Fresh r).
Proof.
  unfold begin_wait_record. rewrite Hnull. induction fuel as [|fuel IH]; [done|]. cbn [begin_loop].
  safe_next. load_step. fold (record s).
  destruct (Z.eqb_spec (record s) WAIT_FREE) as [Hf|Hf]; cbn [negb]; [|done].
  safe_next. act_step. destruct (Z.eqb_spec (wait_state s0) (wait_state s)) as [Hw|Hw].
  - outcome Hr; injection Hr as -> ->; [|by exists (Fresh r)].
    exists (Registrant r Begun 0). split; [|done]. rewrite <- Hw. apply begin_inv; [done|].
    unfold record. by rewrite Hw.
  - one_outcome. by exists (Fresh r).
Qed.

(** The steps of a registrant that keep the record. *)
Lemma registrant_inv s s' x y F t t' :
  wait_inv s (x :: F) → proto s (x :: F) t → specials (y :: F) ≡ₚ sit_roles t' →
  pub t' = pub t → owned_of y = owned_of x → (∀ r, y ≠ Fresh r) →
  registering s → record s' = record s → requests s' = requests s → sit_ok s' t' → data_ok s' →
  wait_inv s' (y :: F).
Proof.
  intros HI Hp Hroles Hpub Hown Hy Hreg Hrec Hreq Hok Hd.
  not_pending; [right; right; left; unfold registering; by rewrite Hrec| |done].
  exists t'. eapply proto_step; [exact Hp|done|done| | | |].
  - cbn. by rewrite Hpub, Hown.
  - intros r. by rewrite Hreq.
  - intros r. cbn. rewrite Hown, Hreq. apply (p_owned _ _ _ Hp).
  - intros r [?|Hin]%elem_of_cons; [by destruct (Hy r)|]. unfold delivered. rewrite Hreq.
    apply (p_fresh _ _ _ Hp). by right.
Qed.

Lemma safe_slot_publish r :
  wsafe (wact (CompareExchangeRequest 0 r))
    (λ o y, match o with Ok _ => y = Registrant r Published 0 | Err _ => False end)
    (Registrant r Begun 0).
Proof.
  act_step. pose proof HI as HI0. sit_cases HI; split_ok; name_facts; try done.
  - rewrite Hslot in Hr. change (0 =? 0) with true in Hr. cbv iota in Hr. one_outcome.
    exists (Registrant r Published 0). split; [|done].
    eapply (registrant_inv s _ _ _ F _ (SPublished r)); try done; [by cbn; rewrite HF| |].
    + split; [done|]. split; [done|]. by eexists.
    + by same_data s.
Qed.

Lemma safe_store_interest r i : interest_ok i →
  wsafe (wact (StoreInterest i)) (λ _ y, y = Registrant r Stored i) (Registrant r Published 0).
Proof.
  intros Hi. act_step. one_outcome. pose proof HI as HI0. sit_cases HI; split_ok; name_facts; try done.
  exists (Registrant r Stored i). split; [|done].
  eapply (registrant_inv s _ _ _ F _ (SStored r i)); try done; [by cbn; rewrite HF| |].
  - split; [done|]. split; [done|]. split; [by eexists|done].
  - by same_data s.
Qed.

Lemma safe_store_generation r i a :
  a = StoreRegistrationCapture i ∨ a = StoreRegistrationInjection i → ∀ j,
  wsafe (wact a) (λ _ y, y = Registrant r Stored j) (Registrant r Stored j).
Proof.
  intros Ha j. destruct Ha as [-> | ->]; act_step; one_outcome; pose proof HI as HI0;
    sit_cases HI; split_ok; name_facts; try done;
    (exists (Registrant r Stored j); split; [|done]);
    (eapply (registrant_inv s _ _ _ F _ (SStored r j)); try done;
      [by cbn; rewrite HF|split; [done|split; [done|split; [by eexists|done]]]|same_data s]).
Qed.

Lemma safe_store_handoff r i :
  wsafe (wact (StoreHandoff WAIT_HANDOFF_NONE)) (λ _ y, y = Registrant r Ready i)
    (Registrant r Stored i).
Proof.
  act_step. one_outcome. pose proof HI as HI0. sit_cases HI; split_ok; name_facts; try done.
  exists (Registrant r Ready i). split; [|done].
  eapply (registrant_inv s _ _ _ F _ (SReady r i)); try done; [by cbn; rewrite HF| |].
  - split; [done|]. split; [done|]. split; [by eexists|]. by split.
  - by same_data s.
Qed.

Lemma safe_fail r p i status : p = Begun ∨ p = Published ∨ p = Stored ∨ p = Ready →
  wsafe (fail_wait state r status) (λ _ y, y = Idle) (Registrant r p i).
Proof.
  intros Hp. unfold fail_wait. safe_next.
  eapply safe_mono; [eapply safe_finish; by constructor|]. intros ? ? ->. apply safe_complete_owned.
Qed.

Lemma safe_mark r i :
  wsafe (wact (WdfRequestMarkCancelableEx r))
    (λ status y, y = if status =? STATUS_SUCCESS then Registrant r Marked i else Registrant r Ready i)
    (Registrant r Ready i).
Proof.
  act_step. apply list_elem_of_fmap in Hr as ([st q] & [= -> ->] & Hr).
  pose proof (i_data _ _ HI) as Hd.
  assert (Hsit : proto s (Registrant r Ready i :: F) (SReady r i) ∧ specials F = []).
  { by sit_cases HI; split_ok; name_facts. }
  destruct Hsit as [Hp HF]. pose proof (p_ok _ _ _ Hp) as (Hreg & Hslot & [b Hreq] & Hint & Hhand).
  assert (Hcov : ∀ R, served (set_request s r q) R ∧ covered (set_request s r q) R).
  { intros R. apply record_not_pending. right. right. by left. }
  assert (Hstay : ∀ b', q = Delivered b' →
    wait_inv (set_request s r q) (Registrant r Ready i :: F)).
  { intros b' ->. split; [|apply Hcov..|by same_data s].
    exists (SReady r i). eapply proto_set; [exact Hp|by left| |by cbn; rewrite HF|done|by right|done].
    split; [done|]. split; [done|]. split; [exists b'; cbn; by rewrite lookup_insert_eq|done]. }
  rewrite Hreq in Hr. destruct b; cbn in Hr.
  - apply list_elem_of_singleton in Hr. injection Hr as -> ->.
    exists (Registrant r Ready i). split; [by eapply Hstay|done].
  - pose proof (other_status_ne (mark_error (framework s))) as [_ Ho].
    outcome Hr; injection Hr as -> ->.
    + exists (Registrant r Marked i). split; [|done]. split; [|apply Hcov..|by same_data s].
      exists (SMarked r i false false).
      eapply proto_set; [exact Hp|by left| |by cbn; rewrite HF|done|by left|done].
      split; [done|]. split; [|done]. split_and!; [done|done|]. cbn. by rewrite lookup_insert_eq.
    + exists (Registrant r Ready i). rewrite (proj2 (Z.eqb_neq _ _) Ho). split; [by eapply Hstay|done].
Qed.

Context (Hcap : capture_lock state ≠ 0) (Hinj : injection_lock state ≠ 0).

Lemma narrow_inv s r c c' F : wait_inv s (Rechecker r c :: F) →
  (∀ b, unclaimed s r b → Z.land c b ≠ 0 → Z.land c' b ≠ 0) → wait_inv s (Rechecker r c' :: F).
Proof.
  intros [[t Hp] Hs Hc Hd] Hn. split; [|..|done].
  - exists t. by apply plain_proto with (Rechecker r c).
  - apply served_keep with s (Rechecker r c); try done. by right.
  - apply covered_keep with s (Rechecker r c); [done|done|]. intros r' b Hu [-> Hb].
    split; [done|]. by apply Hn.
Qed.

Lemma narrow_mask i b n m : interest_ok i →
  b = ADAPTIVE_INTEREST_READABLE ∨ b = ADAPTIVE_INTEREST_WRITABLE →
  (b = ADAPTIVE_INTEREST_READABLE → n = true) → (b = ADAPTIVE_INTEREST_WRITABLE → m = true) →
  Z.land i b ≠ 0 → Z.land (Z.land (mask_of n m) i) b ≠ 0.
Proof.
  unfold interest_ok. intros Hi Hb Hn Hm.
  assert (Hcase : i = 0 ∨ i = 1 ∨ i = 2 ∨ i = 3) by lia.
  destruct Hb as [-> | ->];
    [rewrite Hn by done; destruct m|rewrite Hm by done; destruct n];
    destruct Hcase as [-> |[-> |[-> | ->]]]; by vm_compute.
Qed.

Lemma safe_recheck_snapshot r i : interest_ok i →
  wsafe (readiness_snapshot state)
    (λ p y, ∃ n m c j, p = (mask_of n m, c, j) ∧ y = Rechecker r (Z.land (mask_of n m) i))
    (Rechecker r i).
Proof.
  intros Hi. unfold readiness_snapshot. rewrite Hnull.
  rewrite (proj2 (Z.eqb_neq _ _) Hcap), (proj2 (Z.eqb_neq _ _) Hinj). cbn [negb].
  safe_next. load_step. safe_next. load_step. clear HI HI0.
  safe_next. act_step. one_outcome.
  exists (Rechecker r (Z.land (mask_of (readable s1) true) i)). split.
  { eapply narrow_inv; [done|]. intros b (_ & _ & Hb & _) Hib.
    apply narrow_mask; [done|by eapply ready_bit| |done|done].
    intros ->. by destruct Hb as [[_ ?]|[? _]]. }
  safe_next. act_step. one_outcome.
  exists (Rechecker r (Z.land (mask_of (readable s1) (writable s2)) i)). split.
  - eapply narrow_inv; [done|]. intros b (_ & _ & Hb & _) Hib.
    assert (Hn : b = ADAPTIVE_INTEREST_READABLE → readable s1 = true).
    { intros ->. destruct (readable s1); [done|]. exfalso. apply Hib. unfold interest_ok in Hi.
      assert (Hcase : i = 0 ∨ i = 1 ∨ i = 2 ∨ i = 3) by lia.
      by destruct Hcase as [-> |[-> |[-> | ->]]]. }
    apply narrow_mask; [done|by eapply ready_bit|done| |].
    + intros ->. by destruct Hb as [[? _]|[_ ?]].
    + intros H0. apply Hib. rewrite <- Z.land_assoc, H0. apply Z.land_0_r.
  - by eexists _, _, _, _.
Qed.

Lemma safe_recheck fuel wait r : interest_ok (interest wait) → r ≠ 0 →
  wsafe (recheck_wait fuel state wait r) (λ _, wait_final) (Rechecker r (interest wait)).
Proof.
  intros Hi Hr. unfold recheck_wait. safe_next.
  eapply safe_mono; [by apply safe_recheck_snapshot|]. intros p ? (n & m & c & j & -> & ->).
  safe_next. load_step. safe_next. load_step.
  destruct (Z.eqb_spec (Z.land (mask_of n m) (interest wait)) 0) as [H0|H0]; cbn [negb orb].
  - rewrite H0.
    assert (Hfin : ∀ b : bool, wsafe (if b then _ ← claim_wait_for_passive_completion fuel state 0 r; mret tt
                       else mret tt) (λ _, wait_final) (Rechecker r 0)).
    { intros []; [|right; by eexists]. safe_next. unfold claim_wait_for_passive_completion.
      rewrite Hnull. cbn [orb]. right. by eexists. }
    apply Hfin.
  - safe_next. eapply safe_mono; [apply safe_claim; [by constructor| |done]|].
    + apply land_interest; [apply mask_ok|done].
    + intros ? ? ->. by left.
Qed.

Lemma safe_publish fuel wait r : interest_ok (interest wait) → r ≠ 0 →
  wsafe (publish_wait fuel state wait r) (λ _, wait_final) (Registrant r Marked (interest wait)).
Proof.
  intros Hi Hr. unfold publish_wait. safe_next.
  eapply safe_mono with (Q := λ o y, match o with
    | Ok _ => y = Rechecker r (interest wait)
    | Err w => (wait_record_state w = WAIT_TEARDOWN ∧ y = Registrant r TornDown (interest wait)) ∨
               (wait_record_state w ≠ WAIT_TEARDOWN ∧ y = Registrant r Gone (interest wait))
    end).
  { apply safe_transition; intros s F HI Hrec.
    - by apply registrant_torn.
    - eexists. split; [by apply publish_inv|done]. }
  intros [w|w] y; [intros ->; by apply safe_recheck|]. intros [[Hw ->]|[Hw ->]].
  - rewrite Hw. change (WAIT_TEARDOWN =? WAIT_TEARDOWN) with true. cbv iota. safe_next.
    eapply safe_mono with (Q := λ o y, y = match o with
      | Ok _ => Unmarker (Some r) | Err _ => Registrant r Gone (interest wait) end).
    { apply safe_transition; intros s F HI Hrec; (eexists; split; [|done]).
      - by apply registrant_gone.
      - by apply registrant_unmarks with (interest wait). }
    intros [w2|w2] ? ->.
    + eapply safe_mono; [by apply safe_unmark|]. intros ? ? ->. by left.
    + eapply safe_mono; [eapply safe_finish, retires_gone|]. intros ? ? ->. by left.
  - rewrite (proj2 (Z.eqb_neq _ _) Hw).
    eapply safe_mono; [eapply safe_finish, retires_gone|]. intros ? ? ->. by left.
Qed.

Lemma idle_final x : x = Idle → wait_final x.
Proof. by left. Qed.

Lemma safe_register fuel wait r : interest_ok (interest wait) → r ≠ 0 →
  wsafe (register_wait fuel state wait r) (λ _, wait_final) (Fresh r).
Proof.
  intros Hi Hr.
  assert (Hfail : ∀ p i status, p = Begun ∨ p = Published ∨ p = Stored ∨ p = Ready →
    wsafe (fail_wait state r status) (λ _, wait_final) (Registrant r p i)).
  { intros p i status Hp. eapply safe_mono; [by apply safe_fail|]. intros ? ? ->. by left. }
  unfold register_wait. safe_next. eapply safe_mono; [apply safe_begin|]. intros [] ? ->; cbn [negb].
  2: { eapply safe_mono; [apply safe_complete; by right|]. intros ? ? ->. by left. }
  safe_next. eapply safe_mono; [apply safe_slot_publish|]. intros [] y Hy; [subst y|done].
  safe_next. eapply safe_mono; [apply safe_snapshot|]. intros p ? (-> & n & m & c & j & ->).
  safe_next. eapply safe_mono; [by apply safe_store_interest|]. intros ? ? ->.
  safe_next. eapply safe_mono; [apply (safe_store_generation _ c); by left|]. intros ? ? ->.
  safe_next. eapply safe_mono; [apply (safe_store_generation _ j); by right|]. intros ? ? ->.
  safe_next. eapply safe_mono; [apply safe_store_handoff|]. intros ? ? ->.
  safe_next. load_step. safe_next.
  eapply safe_mono with (Q := λ _ y, y = Registrant r Ready (interest wait)).
  { destruct (negb (lifecycle s =? INSTANCE_OPEN)); [done|]. safe_next. load_step.
    destruct (negb (adaptive_enabled s0)); [done|]. apply safe_started. }
  intros [] ? ->; cbn [negb]; [|apply Hfail; auto].
  safe_next. eapply safe_mono; [apply safe_mark|]. intros status ? ->.
  destruct (Z.eqb_spec status STATUS_CANCELLED) as [->|Hc]; [apply Hfail; auto|].
  destruct (Z.eqb_spec status STATUS_SUCCESS); cbn [negb]; [by apply safe_publish|apply Hfail; auto].
Qed.

(** The accepted interests. *)
Lemma interest_valid i : fits 32 i → Z.land i (not_w 32 ADAPTIVE_INTEREST_SUPPORTED) = 0 →
  interest_ok i.
Proof.
  intros Hi H. apply land_not_w_0 in H; [|done|done|done].
  assert (H3 : Z.land i 3 = i) by exact H. unfold interest_ok, fits in *.
  pose proof (land_le_r i 3). lia.
Qed.

Lemma safe_handle fuel r output_length input_length wait : r ≠ 0 → fits 32 (interest wait) →
  wsafe (handle_wait_for_change fuel state r output_length input_length wait)
    (λ _, wait_final) (Fresh r).
Proof.
  intros Hr Hf.
  assert (Hc : ∀ status, wsafe (complete_request r status) (λ _, wait_final) (Fresh r)).
  { intros status. eapply safe_mono; [apply safe_complete; by right|]. intros ? ? ->. by left. }
  unfold handle_wait_for_change.
  destruct (negb (input_length =? size_of_AdaptiveWaitRequest) || _); [apply Hc|].
  destruct (negb (input_status wait =? STATUS_SUCCESS) || _); [apply Hc|].
  destruct (negb (version wait =? ADAPTIVE_POLLING_PROTOCOL_VERSION) || _ || _) eqn:Hv; [apply Hc|].
  apply orb_false_iff in Hv as [_ Hv]. apply negb_false_iff, Z.eqb_eq in Hv.
  pose proof (interest_valid _ Hf Hv) as Hi.
  safe_next. load_step. safe_next. eapply safe_mono with (Q := λ _ y, y = Fresh r).
  { destruct (negb (lifecycle s =? INSTANCE_OPEN)); [done|]. apply safe_started. }
  intros [] ? ->; cbn [negb]; [|apply Hc]. safe_next. load_step.
  destruct (negb (adaptive_enabled s0)); [apply Hc|]. by apply safe_register.
Qed.

(** ** The framework's steps *)

Lemma same_protocol s s' R :
  wait_inv s R →
  wait_state s' = wait_state s → wait_request s' = wait_request s →
  wait_cancel_handoff s' = wait_cancel_handoff s → wait_interest s' = wait_interest s →
  requests s' = requests s → work_queued s' = work_queued s →
  (∀ b, is_ready s' b → is_ready s b) →
  (record s = WAIT_PENDING → adaptive_interrupted s' = false → adaptive_interrupted s = false) →
  (adaptive_enabled s' = false → adaptive_interrupted s' = true) →
  wait_inv s' R.
Proof.
  intros [[t Hp] Hs Hc Hd] H1 H2 H3 H4 H5 H6 Hr Hdis Ha.
  assert (Hrec : record s' = record s) by (unfold record; by rewrite H1).
  split.
  - exists t. eapply proto_step; [exact Hp| |apply Hp|done| | |].
    + pose proof (p_ok _ _ _ Hp) as Hok.
      destruct t; cbn in Hok |- *; unfold registering, pending, retired, held, delivered in *;
        rewrite ?Hrec, ?H2, ?H3, ?H4, ?H5; exact Hok.
    + intros r. by rewrite H5.
    + intros r. rewrite H5. apply (p_owned _ _ _ Hp).
    + intros r Hin. unfold delivered. rewrite H5. by apply (p_fresh _ _ _ Hp).
  - unfold served. rewrite Hrec, H6. exact Hs.
  - intros r b (U1 & U2 & U3 & U4 & U5). apply Hc. unfold unclaimed.
    rewrite Hrec in U1. rewrite H2 in U2. rewrite H4 in U4. split_and!; auto.
  - destruct Hd as [D1 D2 D3 D4 D5]. split; rewrite ?Hrec, ?H1, ?H4; done.
Qed.

Lemma cancel_requested_inv s r R : wait_inv s R → requests s !! r = Some (Delivered false) →
  wait_inv (set_request s r (Delivered true)) R.
Proof.
  intros [[t Hp] Hs Hc Hd] Hr.
  assert (Hdel : ∀ r', delivered s r' → delivered (set_request s r (Delivered true)) r').
  { intros r' [b Hb]. unfold delivered. cbn. destruct (decide (r' = r)) as [->|Hne].
    - rewrite lookup_insert_eq. by eexists.
    - rewrite lookup_insert_ne by done. by eexists. }
  assert (Hheld : ∀ r' h c, held s r' h c → held (set_request s r (Delivered true)) r' h c).
  { intros r' h c (H1 & H2 & H3). split_and!; [done|done|]. cbn.
    rewrite lookup_insert_ne; [done|]. intros <-. rewrite Hr in H3. by destruct c. }
  split; [|exact Hs|exact Hc|by same_data s].
  exists t. eapply proto_step; [exact Hp| |apply Hp|done| | |].
  - pose proof (p_ok _ _ _ Hp) as Hok. destruct t; cbn in Hok |- *;
      destruct_and?; split_and?; try done; by first [apply Hheld | apply Hdel].
  - intros r'. cbn. destruct (decide (r' = r)) as [->|Hne].
    + rewrite lookup_insert_eq, Hr. split; by eexists.
    + by rewrite lookup_insert_ne.
  - intros r' Hin. cbn. destruct (decide (r' = r)) as [->|Hne].
    + by rewrite lookup_insert_eq.
    + rewrite lookup_insert_ne by done. by apply (p_owned _ _ _ Hp).
  - intros r' Hin. by apply Hdel, (p_fresh _ _ _ Hp).
Qed.

Lemma env_inv s s' R : wait_inv s R → wait_env s s' → wait_inv s' R.
Proof.
  intros HI He. pose proof (i_data _ _ HI) as Hd. destruct He.
  - by apply cancel_requested_inv.
  - apply same_protocol with s; try done; [intros b [[_ ?]|?]; [done|by right]|apply Hd].
  - apply same_protocol with s; try done; [intros b [?|[_ ?]]; [by left|done]|apply Hd].
  - apply same_protocol with s; try done; apply Hd.
  - apply same_protocol with s; try done; cbn.
    + intros Hpend [_ Hi]%orb_false_iff. unfold record in Hpend. rewrite Hpend in Hi.
      by rewrite andb_true_r in Hi.
    + by intros ->.
  - apply same_protocol with s; try done; apply Hd.
  - apply same_protocol with s; try done; apply Hd.
Qed.

(** ** Threads that start *)

Lemma start_plain s x R : special x = false → owned_of x = [] →
  wait_inv s R → wait_inv s (x :: R).
Proof.
  intros Hx Hox [[t Hp] Hs Hc Hd]. split; [|..|done].
  - exists t. eapply proto_step; [exact Hp|apply Hp| | |done| |].
    + cbn. rewrite Hx. apply Hp.
    + cbn. by rewrite Hox.
    + intros r. cbn. rewrite Hox. apply (p_owned _ _ _ Hp).
    + intros r [<-|Hin]%elem_of_cons; [by cbn in Hox|]. by apply (p_fresh _ _ _ Hp).
  - intros Hsch. destruct (Hs Hsch) as [?|[?|?]]; [by left|right; left; by right|right; right; by right].
  - intros r b Hu. destruct (Hc r b Hu) as (y & ? & ?). exists y. split; [by right|done].
Qed.

Lemma start_request s r R : r ≠ 0 → requests s !! r = None → wait_inv s R →
  wait_inv (set_request s r (Delivered false)) (Fresh r :: R).
Proof.
  intros Hr Hn [[t Hp] Hs Hc Hd].
  assert (Hnew : r ∉ pub t ++ owned R).
  { intros Hin. apply (p_live _ _ _ Hp) in Hin. rewrite Hn in Hin. by destruct Hin. }
  assert (Hsome : ∀ r' q, requests s !! r' = Some q →
    requests (set_request s r (Delivered false)) !! r' = Some q).
  { intros r' q Hq. cbn. rewrite lookup_insert_ne; [done|]. intros <-. congruence. }
  split; [|exact (λ H, match Hs H with
    | or_introl a => or_introl a
    | or_intror (or_introl b) => or_intror (or_introl (list_elem_of_further _ _ _ b))
    | or_intror (or_intror c) => or_intror (or_intror (list_elem_of_further _ _ _ c)) end)| |by same_data s].
  - exists t. split.
    + assert (Hdel : ∀ r', delivered s r' → delivered (set_request s r (Delivered false)) r').
      { intros r' [b Hb]. exists b. by apply Hsome. }
      assert (Hheld : ∀ r' h c, held s r' h c → held (set_request s r (Delivered false)) r' h c).
      { intros r' h c (H1 & H2 & H3). split_and!; [done|done|]. by apply Hsome. }
      pose proof (p_ok _ _ _ Hp) as Hok. destruct t; cbn in Hok |- *;
        destruct_and?; split_and?; try done; by first [apply Hheld | apply Hdel].
    + apply Hp.
    + cbn. rewrite <- Permutation_middle. apply NoDup_cons. split; [done|apply Hp].
    + intros r'. cbn. rewrite <- Permutation_middle, elem_of_cons, <- (p_live _ _ _ Hp).
      destruct (decide (r' = r)) as [->|Hne].
      * rewrite lookup_insert_eq. split; [by left|by eexists].
      * rewrite lookup_insert_ne by done. naive_solver.
    + intros r' [->|Hin]%elem_of_cons.
      * cbn. by rewrite lookup_insert_eq.
      * pose proof (p_owned _ _ _ Hp r' Hin) as Ho.
        destruct (requests s !! r') as [q|] eqn:Hq; [|done]. by rewrite (Hsome _ _ Hq).
    + cbn. rewrite lookup_insert_ne by done. apply Hp.
    + intros r' [[= ->]|Hin]%elem_of_cons; unfold delivered.
      * exists false. cbn. by rewrite lookup_insert_eq.
      * destruct (p_fresh _ _ _ Hp r' Hin) as [b Hb]. exists b. by apply Hsome.
  - intros r' b Hu. destruct (Hc r' b Hu) as (y & ? & ?). exists y. split; [by right|done].
Qed.

(** WDF dispatches the cancellation of the published request. *)
Lemma start_cancel s r R : requests s !! r = Some Cancelable → wait_inv s R →
  r ≠ 0 ∧ wait_inv (set_request s r CancelDispatched) (Canceller r false :: R).
Proof.
  intros Hr [[t Hp] Hs Hc Hd]. split.
  { intros ->. by rewrite (p_null _ _ _ Hp) in Hr. }
  assert (Hin : r ∈ pub t).
  { assert (Hin : r ∈ pub t ++ owned R) by (apply (p_live _ _ _ Hp); by rewrite Hr).
    apply elem_of_app in Hin as [?|Hin]; [done|]. apply (p_owned _ _ _ Hp) in Hin.
    by rewrite Hr in Hin. }
  assert (Hsit : ∃ t', sit_ok (set_request s r CancelDispatched) t' ∧
    Canceller r false :: sit_roles t ≡ₚ sit_roles t' ∧ pub t' = pub t).
  { pose proof (p_ok _ _ _ Hp) as Hok.
    assert (Hheld : ∀ h c, held s r h c → c = false ∧ held (set_request s r CancelDispatched) r h true).
    { intros h c (H1 & H2 & H3). split; [rewrite Hr in H3; by destruct c|].
      split_and!; [done|done|]. cbn. by rewrite lookup_insert_eq. }
    destruct t as [| | | | |r1 i t1 c|r1 p i|r1 c|r1 k c u|r1 k|r1 u|r1|r1 u|[] z o]; cbn in Hok, Hin;
      try (by apply not_elem_of_nil in Hin); apply list_elem_of_singleton in Hin as <-;
      split_ok; try (match goal with H : requests s !! r = Some (dispatched true) |- _ =>
        rewrite Hr in H; discriminate H end).
    - assert (Hc' : c = false) by (destruct c; cbn in *; congruence). subst c.
      exists (SMarked r i t1 true). split; [|split; [apply Permutation_swap|done]].
      split; [done|]. split; [|done]. split_and!; [done|done|]. cbn. by rewrite lookup_insert_eq.
    - assert (Hc' : c = false) by (destruct c; cbn in *; congruence). subst c.
      exists (SPending r true). split; [|done].
      split; [done|]. split_and!; [done|done|]. cbn. by rewrite lookup_insert_eq.
    - assert (Hc' : c = false) by (destruct c; cbn in *; congruence). subst c.
      exists (SUnmarking r k true false). split; [|split; [apply Permutation_swap|done]].
      split; [done|]. split_and!; [done|done|]. cbn. by rewrite lookup_insert_eq. }
  destruct Hsit as (t' & Hok' & Hroles' & Hpub).
  assert (Hne : ∀ r', r' ∈ owned R → r' ≠ r).
  { intros r' Hin' ->. pose proof (p_nodup _ _ _ Hp) as Hnd. apply NoDup_app in Hnd as (_ & H & _).
    by apply (H r). }
  split; [|exact (λ H, match Hs H with
    | or_introl a => or_introl a
    | or_intror (or_introl b) => or_intror (or_introl (list_elem_of_further _ _ _ b))
    | or_intror (or_intror c) => or_intror (or_intror (list_elem_of_further _ _ _ c)) end)| |by same_data s].
  - exists t'. eapply proto_step; [exact Hp|done| | | | |].
    + cbn. rewrite (p_roles _ _ _ Hp). exact Hroles'.
    + cbn. by rewrite Hpub.
    + intros r'. cbn. destruct (decide (r' = r)) as [->|Hn].
      * rewrite lookup_insert_eq, Hr. split; by eexists.
      * by rewrite lookup_insert_ne.
    + intros r' Hin'. cbn in Hin' |- *. rewrite lookup_insert_ne by (symmetry; by apply Hne).
      by apply (p_owned _ _ _ Hp).
    + intros r' [?|Hin']%elem_of_cons; [done|]. destruct (p_fresh _ _ _ Hp r' Hin') as [b Hb].
      exists b. cbn. rewrite lookup_insert_ne; [done|]. symmetry. by apply Hne, fresh_owned.
  - intros r' b Hu. destruct (Hc r' b Hu) as (y & ? & ?). exists y. split; [by right|done].
Qed.

Lemma start_worker s R : wait_inv s R →
  wait_inv (s <| work_queued := false |>) (Worker :: R).
Proof.
  intros HI. assert (HI' : wait_inv s (Worker :: R)) by (by apply start_plain).
  destruct HI' as [[t Hp] Hs Hc Hd]. split; [|intros _; right; right; by left|exact Hc|by same_data s].
  exists t. eapply proto_step; [exact Hp|exact (p_ok _ _ _ Hp)|apply Hp|done|done|apply Hp|apply Hp].
Qed.

Lemma spawn_inv s s' p R : wait_inv s R → wait_spawn state s p s' →
  ∃ x, wait_inv s' (R ++ [x]) ∧ wsafe p (λ _, wait_final) x.
Proof.
  intros HI Hsp.
  assert (Hperm : ∀ x s, wait_inv s (x :: R) → wait_inv s (R ++ [x])).
  { intros x s0. apply wait_inv_perm. by rewrite Permutation_app_comm. }
  destruct Hsp as [fuel r ol il wait Hr Hn Hf|fuel c Hc|fuel Hq|fuel|fuel r|fuel r Hr].
  - exists (Fresh r). split; [by apply Hperm, start_request|by apply safe_handle].
  - exists Idle. split; [by apply Hperm, start_plain|].
    eapply safe_mono; [by apply safe_queue_transition|]. intros ? ? ->. by left.
  - exists Worker. split; [by apply Hperm, start_worker|].
    eapply safe_mono; [apply safe_worker; by right|]. intros ? ? ->. by left.
  - exists Idle. split; [by apply Hperm, start_plain|]. safe_next.
    eapply safe_mono; [apply safe_teardown|]. intros ? ? ->. by left.
  - exists Idle. split; [by apply Hperm, start_plain|].
    eapply safe_mono; [apply safe_stop|]. intros ? ? ->. by left.
  - destruct (start_cancel s r R Hr HI) as [Hr0 HI'].
    exists (Canceller r false). split; [by apply Hperm|].
    eapply safe_mono; [by apply safe_cancel_callback|]. intros ? ? ->. by left.
Qed.

(** ** Reachable configurations *)

Abbreviation wait_pool := (pool_ok wait_exec wait_inv wait_allowed wait_final).

Lemma initial_wait_inv f : wait_inv (initial_wait_memory f) [].
Proof.
  split.
  - exists SFree. split; cbn; try done; [constructor|..].
    + intros r. rewrite lookup_empty. split; [by intros [? ?]|by intros ?%not_elem_of_nil].
    + by intros r ?%not_elem_of_nil.
    + by intros r ?%not_elem_of_nil.
  - intros H. by vm_compute in H.
  - intros r b [H _]. by vm_compute in H.
  - split; try done; vm_compute; done.
Qed.

Lemma wait_reachable f C : star (wait_step state) (initial_wait_memory f, []) C →
  ∃ R, wait_pool C R.
Proof.
  intros Hstar. eapply pool_invariant; [..|exact Hstar].
  - intros s s' R. apply env_inv.
  - intros s s' p R. apply spawn_inv.
  - split; [apply initial_wait_inv|constructor].
Qed.

End programs.
