(* ===== verification/WaitTheorems.v ===== *)
(** * Theorems about the adaptive wait

    The properties of [WaitProtocol] for every interleaving of any number of
    registrations, queue transitions, workers, teardowns and cancellations,
    and concrete runs that show the hypotheses can be met. *)

From S2P Require Import Prelude Words DriverConstants Conc WaitRecord WaitProtocol WaitSafety.

(** The handles of an instance after its creation. *)
Record instance_ok (state : instance) : Prop := {
  ok_self : self state ≠ 0;
  ok_capture_lock : capture_lock state ≠ 0;
  ok_injection_lock : injection_lock state ≠ 0;
  ok_read_work_item : read_work_item state ≠ 0;
}.

Definition wait_start (f : answers) : config wait_memory wait_ret := (initial_wait_memory f, []).

Lemma reachable_pool state f C : instance_ok state → star (wait_step state) (wait_start f) C →
  ∃ R, pool_ok wait_exec wait_inv wait_allowed wait_final C R.
Proof.
  intros [Hs Hc Hi Hw]. apply wait_reachable; try done. by apply Z.eqb_neq.
Qed.

(** ** A concrete run *)

Definition example_instance : instance :=
  {| self := 1; capture_lock := 2; injection_lock := 3; read_work_item := 4 |}.

Lemma example_instance_ok : instance_ok example_instance.
Proof. by split. Qed.

Definition example_answers : answers :=
  {| mark_error := 1; unmark_error := 1; output_answer := (0, 4); serves_read := false |}.

Definition example_input : wait_input :=
  {| input_status := 0; actual_input_length := 8; version := 1; interest := 1 |}.

(** After an owner has switched adaptive polling off and another has switched
    it on again, request 7 asks to wait for readability. *)
Definition asked : config wait_memory wait_ret :=
  (set_request (initial_wait_memory example_answers) 7 (Delivered false),
   [handle_wait_for_change 9 example_instance 7 4 8 example_input]).

Lemma asked_reachable : star (wait_step example_instance) (wait_start example_answers) asked.
Proof.
  pose (off := (initial_wait_memory example_answers) <| adaptive_enabled := false |>
                 <| adaptive_interrupted := true |>).
  apply star_snoc with (wait_start example_answers).
  { apply star_snoc with (off, []); [apply star_snoc with (wait_start example_answers); [constructor|]|].
    - apply (step_env _ _ _ (initial_wait_memory example_answers) off []).
      exact (env_adaptive (initial_wait_memory example_answers) false).
    - apply (step_env _ _ _ off (initial_wait_memory example_answers) []).
      exact (env_adaptive off true). }
  apply (step_spawn _ _ _ (initial_wait_memory example_answers) _ [] (handle_wait_for_change 9 example_instance 7 4 8 example_input)).
  by constructor.
Qed.

(** The handler's actions up to its call of [WdfRequestMarkCancelableEx], and
    to its end: the wait is pending. *)
Definition to_mark : list (nat * nat) := replicate 17 (0, 0)%nat.
Definition marking : config wait_memory wait_ret := scheduled wait_exec asked to_mark.
Definition to_pending : list (nat * nat) := replicate 26 (0, 0)%nat.
Definition waiting : config wait_memory wait_ret := scheduled wait_exec asked to_pending.

Lemma marking_reachable : star (wait_step example_instance) (wait_start example_answers) marking.
Proof.
  apply (star_trans _ _ asked); [apply asked_reachable|]. apply scheduled_star.
  vm_compute. reflexivity.
Qed.

Lemma waiting_reachable : star (wait_step example_instance) (wait_start example_answers) waiting.
Proof.
  apply (star_trans _ _ asked); [apply asked_reachable|]. apply scheduled_star.
  vm_compute. reflexivity.
Qed.

Lemma marking_next : next_action marking 0 = Some (WdfRequestMarkCancelableEx 7).
Proof. vm_compute. reflexivity. Qed.

Lemma waiting_finished : Forall finished waiting.2.
Proof.
  assert (H : forallb (λ p : thread unit, match p with Ret _ => true | _ => false end) waiting.2 = true)
    by (vm_compute; reflexivity).
  apply Forall_forall. intros p Hp. rewrite forallb_forall in H.
  specialize (H p (proj1 (list_elem_of_In _ _) Hp)). by destruct p.
Qed.

(** ** Roles and requests *)

Lemma role_special R x : x ∈ R → special x = true → x ∈ specials R.
Proof.
  intros Hx Hs. induction R as [|y R IH]; [by apply not_elem_of_nil in Hx|].
  apply elem_of_cons in Hx as [<-|Hx]; cbn; [rewrite Hs; by left|].
  destruct (special y); [right|]; by apply IH.
Qed.

Lemma role_owned R x r : x ∈ R → r ∈ owned_of x → r ∈ owned R.
Proof.
  intros Hx Hr. induction R as [|y R IH]; [by apply not_elem_of_nil in Hx|].
  apply elem_of_cons in Hx as [<-|Hx]; cbn; apply elem_of_app; [by left|right; by apply IH].
Qed.

Lemma final_roles R : Forall wait_final R → specials R = [] ∧ owned R = [] ∧
  (∀ r b x, x ∈ R → (¬ covers x r b)) ∧ (Enqueuer ∉ R) ∧ (Worker ∉ R).
Proof.
  induction 1 as [|x R Hx _ (IH1 & IH2 & IH3 & IH4 & IH5)].
  - split; [done|]. split; [done|].
    split; [intros r b x Hx; by apply not_elem_of_nil in Hx|]. split; apply not_elem_of_nil.
  - assert (Hnc : ∀ r b, ¬ covers x r b).
    { intros r b. destruct Hx as [->|[r' ->]]; [by intros ?|]. intros [_ H]. by rewrite Z.land_0_l in H. }
    assert (Hs : special x = false ∧ owned_of x = [] ∧ x ≠ Enqueuer ∧ x ≠ Worker)
      by (by destruct Hx as [->|[r' ->]]).
    destruct Hs as (Hs & Ho & He & Hw). cbn. rewrite Hs, Ho. split; [done|]. split; [done|].
    split; [|split; rewrite not_elem_of_cons; by split].
    intros r b y [->|Hy]%elem_of_cons; [apply Hnc|by eapply IH3].
Qed.

(** An owned request can be completed. *)
Lemma complete_allowed s R t r : proto s R t → r ∈ owned R → complete_outcomes s r ≠ [].
Proof.
  intros Hp Hr. pose proof (p_owned _ _ _ Hp r Hr) as Ho. unfold complete_outcomes.
  by destruct (requests s !! r) as [[]|].
Qed.

Lemma special_situation s R t x : proto s R t → x ∈ R → special x = true → x ∈ sit_roles t.
Proof. intros Hp Hx Hs. rewrite <- (p_roles _ _ _ Hp). by apply role_special. Qed.

Lemma mark_allowed s R t r i : proto s R t → Registrant r Ready i ∈ R →
  mark_outcomes s (requests s !! r) ≠ [].
Proof.
  intros Hp Hr. pose proof (special_situation _ _ _ _ Hp Hr eq_refl) as Hx.
  pose proof (p_ok _ _ _ Hp) as Hok.
  destruct t; cbn [sit_roles] in Hx; repeat case_match;
    repeat (apply elem_of_cons in Hx as [Hx|Hx]); try (by apply not_elem_of_nil in Hx);
    try discriminate Hx; injection Hx as <- <-; simplify_eq; cbn in Hok.
  - destruct Hok as (_ & _ & [b ->] & _). by destruct b.
  - by destruct Hok as (_ & [|[|]]); simplify_eq.
Qed.

Lemma unmark_allowed s R t r : proto s R t → Unmarker (Some r) ∈ R →
  unmark_outcomes s (requests s !! r) ≠ [].
Proof.
  intros Hp Hr. pose proof (special_situation _ _ _ _ Hp Hr eq_refl) as Hx.
  pose proof (p_ok _ _ _ Hp) as Hok.
  destruct t; cbn [sit_roles] in Hx; repeat case_match;
    repeat (apply elem_of_cons in Hx as [Hx|Hx]); try (by apply not_elem_of_nil in Hx);
    try discriminate Hx; injection Hx as Hx; unfold known in Hx; repeat case_match;
    simplify_eq; cbn in Hok; destruct Hok as (_ & _ & _ & ->); try done; by case_match.
Qed.

Lemma map_nonempty {A B} (f : A → B) l : l ≠ [] → map f l ≠ [].
Proof. by destruct l. Qed.

(** ** Theorems *)

(** C4: for every interleaving of registrations, queue transitions, workers,
    teardowns and cancellations, every framework call the driver is about to
    make on a wait request is one that WDF allows in that request's state: it
    never completes a request twice, never completes one that is still marked
    cancelable, and never marks or unmarks one it does not hold; and a
    response it writes reports readable, writable or both, never nothing. *)
Theorem wait_requests_respected state f C i a :
  instance_ok state → star (wait_step state) (wait_start f) C →
  next_action C i = Some a →
  wait_exec C.1 a ≠ [] ∧
  (∀ r satisfied, a = WriteResponse r satisfied →
     0 < satisfied ≤ 3 ∧ ∃ q, requests C.1 !! r = Some q ∧ q ≠ Cancelable).
Proof.
  intros Hok Hstar Hnext. destruct (reachable_pool _ _ _ Hok Hstar) as [R HR].
  destruct (next_allowed _ _ _ _ _ _ _ _ HR Hnext) as (x & Hx%list_elem_of_lookup_2 & Ha).
  destruct HR as [[[t Hp] _ _ _] _]. split.
  - destruct a; cbn in Ha |- *; try done; repeat case_match; try done.
    + destruct Ha as [j ->]. apply map_nonempty. by eapply mark_allowed.
    + subst x. apply map_nonempty. by eapply unmark_allowed.
    + eapply complete_allowed; [done|]. eapply role_owned; [done|].
      destruct Ha as [->| ->]; by left.
    + subst x. eapply complete_allowed; [done|]. eapply role_owned; [done|]. by left.
  - intros r sat ->. destruct Ha as [-> Hs]. split; [done|].
    assert (Hr : r ∈ owned R) by (eapply role_owned; [done|by left]).
    pose proof (p_owned _ _ _ Hp r Hr) as Ho.
    destruct (requests C.1 !! r) as [q|]; [|done]. exists q. by destruct q.
Qed.

Lemma wait_requests_respected_witness : wait_exec marking.1 (WdfRequestMarkCancelableEx 7) ≠ [].
Proof.
  apply (wait_requests_respected example_instance example_answers marking 0).
  - apply example_instance_ok.
  - apply marking_reachable.
  - apply marking_next.
Defined.

(** The situation when every thread has returned. *)
Lemma quiet_situation state f C :
  instance_ok state → star (wait_step state) (wait_start f) C → Forall finished C.2 →
  ∃ R t, wait_inv C.1 R ∧ proto C.1 R t ∧ (t = SFree ∨ ∃ r, t = SPending r false) ∧
    owned R = [] ∧ (∀ r b x, x ∈ R → (¬ covers x r b)) ∧ (Enqueuer ∉ R) ∧ (Worker ∉ R).
Proof.
  intros Hok Hstar Hf. destruct (reachable_pool _ _ _ Hok Hstar) as [R HR].
  pose proof (pool_finished _ _ _ _ _ _ HR Hf) as Hfin.
  destruct (final_roles _ Hfin) as (Hs & Ho & Hc & He & Hw).
  destruct HR as [HI _]. destruct (i_proto _ _ HI) as [t Hp]. exists R, t.
  split; [done|]. split; [done|]. split; [|done].
  pose proof (p_roles _ _ _ Hp) as Hr. rewrite Hs in Hr.
  apply Permutation_nil_l in Hr. symmetry in Hr.
  destruct t; cbn in Hr; try (repeat case_match; done); [by left|].
  right. destruct c; [done|]. eauto.
Qed.

(** C27: no request is leaked or forgotten: when every thread has returned,
    either no request is outstanding, the record is free and the slot null, or
    exactly one is, and it is the published one, still cancelable by WDF, with
    the record pending, or scheduled with the passive worker queued. *)
Theorem wait_never_stranded state f C :
  instance_ok state → star (wait_step state) (wait_start f) C → Forall finished C.2 →
  (requests C.1 = ∅ ∧ record C.1 = WAIT_FREE ∧ wait_request C.1 = 0) ∨
  (∃ r, r ≠ 0 ∧ requests C.1 = {[r := Cancelable]} ∧ wait_request C.1 = r ∧
     (record C.1 = WAIT_PENDING ∨ record C.1 = WAIT_SCHEDULED ∧ work_queued C.1 = true)).
Proof.
  intros Hok Hstar Hf.
  destruct (quiet_situation _ _ _ Hok Hstar Hf) as (R & t & HI & Hp & Ht & Ho & _ & He & Hw).
  pose proof (p_ok _ _ _ Hp) as Hsit. pose proof (p_live _ _ _ Hp) as Hl. rewrite Ho in Hl.
  destruct Ht as [->|[r ->]]; cbn in Hsit, Hl.
  - left. split; [|done]. apply map_eq. intros r. rewrite lookup_empty.
    apply eq_None_not_Some. rewrite Hl. apply not_elem_of_nil.
  - right. destruct Hsit as (Hpend & Hreq & _ & Hc). exists r. split; [|split; [|split; [done|]]].
    + intros ->. rewrite (p_null _ _ _ Hp) in Hc. done.
    + apply map_eq. intros r'. destruct (decide (r' = r)) as [->|Hne].
      * rewrite Hc. symmetry. apply lookup_singleton_eq.
      * rewrite lookup_singleton_ne by done. apply eq_None_not_Some. rewrite Hl.
        by intros ?%list_elem_of_singleton.
    + destruct Hpend as [?|Hsch]; [by left|right]. split; [done|].
      by destruct (i_served _ _ HI Hsch) as [?|[?|?]].
Qed.

Lemma wait_never_stranded_witness :
  (requests waiting.1 = ∅ ∧ record waiting.1 = WAIT_FREE ∧ wait_request waiting.1 = 0) ∨
  (∃ r, r ≠ 0 ∧ requests waiting.1 = {[r := Cancelable]} ∧ wait_request waiting.1 = r ∧
     (record waiting.1 = WAIT_PENDING ∨
      record waiting.1 = WAIT_SCHEDULED ∧ work_queued waiting.1 = true)).
Proof.
  apply (wait_never_stranded example_instance example_answers waiting).
  - apply example_instance_ok.
  - apply waiting_reachable.
  - apply waiting_finished.
Defined.

(** C26: no wakeup is lost: when every thread has returned and the wait is
    still pending, nothing its interest asks for is ready, unless adaptive
    polling was off at some time since this wait took the record: the history
    flag [adaptive_interrupted] starts again whenever the record is freed, so
    what an earlier owner did before that does not matter. *)
Theorem no_lost_wakeup state f C :
  instance_ok state → star (wait_step state) (wait_start f) C → Forall finished C.2 →
  record C.1 = WAIT_PENDING → adaptive_interrupted C.1 = false →
  (Z.land (wait_interest C.1) ADAPTIVE_INTEREST_READABLE ≠ 0 → readable C.1 = false) ∧
  (Z.land (wait_interest C.1) ADAPTIVE_INTEREST_WRITABLE ≠ 0 → writable C.1 = false).
Proof.
  intros Hok Hstar Hf Hpend Had.
  destruct (quiet_situation _ _ _ Hok Hstar Hf) as (R & t & HI & _ & _ & _ & Hc & _).
  assert (Hu : ∀ b, is_ready C.1 b → Z.land (wait_interest C.1) b ≠ 0 → False).
  { intros b Hb Hi. destruct (i_covered _ _ HI (wait_request C.1) b) as (x & Hx & Hcx).
    - by repeat split.
    - by destruct (Hc _ _ _ Hx Hcx). }
  split; intros Hi; apply not_true_iff_false; intros Hr;
    (eapply Hu; [|exact Hi]); [left|right]; by split.
Qed.

Lemma no_lost_wakeup_witness : readable waiting.1 = false.
Proof.
  refine (proj1 (no_lost_wakeup example_instance example_answers waiting _ _ _ _ _) _).
  - apply example_instance_ok.
  - apply waiting_reachable.
  - apply waiting_finished.
  - vm_compute. reflexivity.
  - vm_compute. reflexivity.
  - vm_compute. discriminate.
Defined.
