(* ===== verification/BusWire.v ===== *)
(** * The manager wire format ([wintap-bus-driver/src/lib.rs])

    The [repr(C)] structures the bus driver exchanges with a manager client
    through a METHOD_BUFFERED control request, as little-endian byte layouts
    with the offsets and sizes the code's assertions fix (40, 32 and 560
    bytes), and the writes the driver performs in the system buffer.  A write
    outside the buffer is [None]. *)

From S2P Require Import Prelude Words HardwareId.

#[global] Arguments le_bytes : simpl never.
#[global] Arguments read_le : simpl never.

Definition MAX_INTERFACE_CHARS : Z := 260.

Record ManagerRequest := {
  req_version : Z;
  req_operation : Z;
  req_length : Z;
  req_request_id : Z;
  req_adapter_guid : GUID;
  req_cursor : Z;
  requested_mtu : Z;
}.

Record ManagerResponseHeader := {
  hdr_version : Z;
  hdr_operation : Z;
  hdr_length : Z;
  hdr_request_id : Z;
  operation_status : Z;
  record_count : Z;
  next_cursor : Z;
  hdr_reserved : Z;
}.

Record ManagerRecord := {
  adapter_guid : GUID;
  rec_lifecycle : Z;
  rec_terminal_status : Z;
  rec_request_id : Z;
  rec_mtu : Z;
  rec_interface_length : Z;
  rec_padding : Z;
  rec_interface_name : list Z;
}.

#[export] Instance ManagerRecord_eta : Eta ManagerRecord := λ r,
  Build_ManagerRecord (adapter_guid r) (rec_lifecycle r) (rec_terminal_status r)
    (rec_request_id r) (rec_mtu r) (rec_interface_length r) (rec_padding r)
    (rec_interface_name r).

Definition size_of_ManagerRequest : Z := 40.
Definition size_of_ManagerResponseHeader : Z := 32.
Definition size_of_ManagerRecord : Z := 560.

(** ** Layouts *)

Definition guid_bytes (g : GUID) : list Z :=
  le_bytes 4 (Data1 g) ++ le_bytes 2 (Data2 g) ++ le_bytes 2 (Data3 g) ++ Data4 g.

Definition header_bytes (h : ManagerResponseHeader) : list Z :=
  le_bytes 2 (hdr_version h) ++ le_bytes 2 (hdr_operation h) ++ le_bytes 4 (hdr_length h)
  ++ le_bytes 8 (hdr_request_id h) ++ le_bytes 4 (i32_as_u32 (operation_status h))
  ++ le_bytes 4 (record_count h) ++ le_bytes 4 (next_cursor h) ++ le_bytes 4 (hdr_reserved h).

Definition record_bytes (r : ManagerRecord) : list Z :=
  guid_bytes (adapter_guid r) ++ le_bytes 4 (rec_lifecycle r)
  ++ le_bytes 4 (i32_as_u32 (rec_terminal_status r)) ++ le_bytes 8 (rec_request_id r)
  ++ le_bytes 4 (rec_mtu r) ++ le_bytes 2 (rec_interface_length r)
  ++ le_bytes 2 (rec_padding r) ++ concat (le_bytes 2 <$> rec_interface_name r).

(** [input.cast::<ManagerRequest>().read()] *)
Definition read_guid (b : list Z) (o : nat) : GUID :=
  {| Data1 := read_le b o 4; Data2 := read_le b (o + 4) 2; Data3 := read_le b (o + 6) 2;
     Data4 := take 8 (drop (o + 8) b) |}.

Definition read_request (b : list Z) : option ManagerRequest :=
  if len b <? size_of_ManagerRequest then None
  else Some {| req_version := read_le b 0 2; req_operation := read_le b 2 2;
               req_length := read_le b 4 4; req_request_id := read_le b 8 8;
               req_adapter_guid := read_guid b 16; req_cursor := read_le b 32 4;
               requested_mtu := read_le b 36 4 |}.

(** Store [bytes] at [offset] of the buffer. *)
Definition write_bytes (b : list Z) (offset : Z) (bytes : list Z) : option (list Z) :=
  if (0 <=? offset) && (offset + len bytes <=? len b)
  then Some (take (Z.to_nat offset) b ++ bytes ++ drop (Z.to_nat (offset + len bytes)) b)
  else None.

(** ** A client's view: the fields at their documented offsets *)

Definition client_header (b : list Z) : ManagerResponseHeader :=
  {| hdr_version := read_le b 0 2; hdr_operation := read_le b 2 2; hdr_length := read_le b 4 4;
     hdr_request_id := read_le b 8 8; operation_status := as_i32 (read_le b 16 4);
     record_count := read_le b 20 4; next_cursor := read_le b 24 4;
     hdr_reserved := read_le b 28 4 |}.

Fixpoint read_words (b : list Z) (o : nat) (n : nat) : list Z :=
  match n with
  | O => []
  | S n => read_le b o 2 :: read_words b (o + 2) n
  end.

(** The record a client reads at byte [o]. *)
Definition client_record (b : list Z) (o : nat) : ManagerRecord :=
  {| adapter_guid := read_guid b o; rec_lifecycle := read_le b (o + 16) 4;
     rec_terminal_status := as_i32 (read_le b (o + 20) 4);
     rec_request_id := read_le b (o + 24) 8; rec_mtu := read_le b (o + 32) 4;
     rec_interface_length := read_le b (o + 36) 2; rec_padding := read_le b (o + 38) 2;
     rec_interface_name := read_words b (o + 40) 260 |}.

(** ** The widths of the fields *)

Definition fits_i32 (x : Z) : Prop := - 2 ^ 31 ≤ x < 2 ^ 31.

Definition header_words (h : ManagerResponseHeader) : Prop :=
  fits 16 (hdr_version h) ∧ fits 16 (hdr_operation h) ∧ fits 32 (hdr_length h) ∧
  fits 64 (hdr_request_id h) ∧ fits_i32 (operation_status h) ∧ fits 32 (record_count h) ∧
  fits 32 (next_cursor h) ∧ fits 32 (hdr_reserved h).

Definition record_words (r : ManagerRecord) : Prop :=
  guid_words (adapter_guid r) ∧ fits 32 (rec_lifecycle r) ∧ fits_i32 (rec_terminal_status r) ∧
  fits 64 (rec_request_id r) ∧ fits 32 (rec_mtu r) ∧ fits 16 (rec_interface_length r) ∧
  fits 16 (rec_padding r) ∧ length (rec_interface_name r) = 260%nat ∧
  Forall (fits 16) (rec_interface_name r).

Lemma i32_round_trip_signed x : fits_i32 x → as_i32 (i32_as_u32 x) = x ∧ fits 32 (i32_as_u32 x).
Proof.
  unfold fits_i32, as_i32, i32_as_u32, fits. change (2 ^ 31) with 2147483648.
  change (2 ^ 32) with 4294967296. intros Hx.
  destruct (Z.ltb_spec x 0).
  - replace (x mod 4294967296) with (x + 4294967296)
      by (apply (Zmod_unique _ _ (-1)); lia).
    destruct (Z.ltb_spec (x + 4294967296) 2147483648); lia.
  - rewrite Z.mod_small by lia. destruct (Z.ltb_spec x 2147483648); lia.
Qed.

Lemma fits_bytes w n x : w = 8 * Z.of_nat n → fits w x → 0 ≤ x < 256 ^ Z.of_nat n.
Proof.
  intros -> Hx. unfold fits in Hx. rewrite Z.pow_mul_r in Hx by lia. exact Hx.
Qed.

(** ** Reading back what was written *)

Lemma read_le_skip a b o n :
  (length a ≤ o)%nat → read_le (a ++ b) o n = read_le b (o - length a) n.
Proof. intros. unfold read_le. by rewrite drop_app_ge. Qed.

Lemma read_le_here n x post :
  0 ≤ x < 256 ^ Z.of_nat n → read_le (le_bytes n x ++ post) 0 n = x.
Proof. intros. by apply (read_le_app_l []). Qed.

(** Read a field of a concatenation of fixed-size fields. *)
Ltac read_field :=
  repeat (rewrite read_le_skip by (rewrite ?le_bytes_length, ?length_app; lia);
          rewrite ?le_bytes_length; cbn [Nat.sub]);
  apply read_le_here;
  first [by apply fits_bytes with (w := 8) | by apply fits_bytes with (w := 16)
        |by apply fits_bytes with (w := 32) | by apply fits_bytes with (w := 64)].

Lemma header_bytes_len h : len (header_bytes h) = size_of_ManagerResponseHeader.
Proof. unfold header_bytes, len. by rewrite !length_app, !le_bytes_length. Qed.

Lemma client_header_bytes h post :
  header_words h → client_header (header_bytes h ++ post) = h.
Proof.
  destruct h as [v o l q s c n r]. intros (H1 & H2 & H3 & H4 & H5 & H6 & H7 & H8).
  cbn in *. apply i32_round_trip_signed in H5 as [Hs H5].
  unfold client_header, header_bytes. cbn. rewrite <- !app_assoc.
  f_equal; try read_field.
  transitivity (as_i32 (i32_as_u32 s)); [f_equal; read_field|exact Hs].
Qed.

Lemma guid_bytes_length g : guid_words g → length (guid_bytes g) = 16%nat.
Proof.
  intros (_ & _ & _ & H & _). unfold guid_bytes.
  by rewrite !length_app, !le_bytes_length, H.
Qed.

Lemma read_guid_bytes g post : guid_words g → read_guid (guid_bytes g ++ post) 0 = g.
Proof.
  destruct g as [d1 d2 d3 d4]. intros (H1 & H2 & H3 & H4 & H5). cbn in *.
  unfold read_guid, guid_bytes. cbn [Data1 Data2 Data3 Data4]. rewrite <- !app_assoc.
  f_equal; [read_field..|]. cbn [Nat.add].
  rewrite !drop_app_ge by (rewrite !le_bytes_length; lia). rewrite !le_bytes_length.
  change (8 - 4 - 2 - 2)%nat with 0%nat. rewrite drop_0. by apply take_app_length'.
Qed.

Lemma read_guid_skip a b o :
  (length a ≤ o)%nat → read_guid (a ++ b) o = read_guid b (o - length a).
Proof.
  intros. unfold read_guid. rewrite !read_le_skip by lia. rewrite drop_app_ge by lia.
  repeat f_equal; lia.
Qed.

Lemma read_words_skip n : ∀ a b o,
  (length a ≤ o)%nat → read_words (a ++ b) o n = read_words b (o - length a) n.
Proof.
  induction n as [|n IH]; intros a b o Ho; [done|]. cbn [read_words].
  rewrite read_le_skip by lia. f_equal. rewrite IH by lia. f_equal. lia.
Qed.

Lemma read_words_bytes ws post :
  Forall (fits 16) ws →
  read_words (concat (le_bytes 2 <$> ws) ++ post) 0 (length ws) = ws.
Proof.
  induction 1 as [|w ws Hw _ IH]; [done|].
  cbn [fmap list_fmap concat length read_words]. rewrite <- app_assoc.
  f_equal; [apply read_le_here; by apply fits_bytes with (w := 16)|].
  rewrite read_words_skip by (rewrite le_bytes_length; lia). rewrite le_bytes_length.
  exact IH.
Qed.

Lemma concat_le_bytes_length ws :
  length (concat (le_bytes 2 <$> ws)) = (2 * length ws)%nat.
Proof.
  induction ws as [|w ws IH]; [done|]. rewrite fmap_cons. cbn [concat length].
  rewrite length_app, le_bytes_length, IH. lia.
Qed.

Lemma record_bytes_len r : record_words r → len (record_bytes r) = size_of_ManagerRecord.
Proof.
  intros (Hg & _ & _ & _ & _ & _ & _ & Hn & _). unfold record_bytes, len.
  rewrite !length_app, !le_bytes_length, guid_bytes_length by done.
  rewrite concat_le_bytes_length, Hn. done.
Qed.

Lemma client_record_bytes r post :
  record_words r → client_record (record_bytes r ++ post) 0 = r.
Proof.
  destruct r as [g l s q m il p nm]. intros (Hg & H1 & H2 & H3 & H4 & H5 & H6 & Hl & Hn).
  cbn in *. apply i32_round_trip_signed in H2 as [Hs H2].
  unfold client_record, record_bytes. cbn [adapter_guid rec_lifecycle rec_terminal_status
    rec_request_id rec_mtu rec_interface_length rec_padding rec_interface_name].
  rewrite <- !app_assoc. pose proof (guid_bytes_length g Hg) as Hgl.
  rewrite read_guid_bytes by done. cbn [Nat.add].
  rewrite !(read_le_skip (guid_bytes g)) by (rewrite Hgl; lia).
  rewrite read_words_skip by (rewrite Hgl; lia). rewrite Hgl. cbn [Nat.sub].
  f_equal; try read_field.
  - transitivity (as_i32 (i32_as_u32 s)); [f_equal; read_field|exact Hs].
  - repeat (rewrite read_words_skip by (rewrite le_bytes_length; lia);
            rewrite le_bytes_length; cbn [Nat.sub]).
    rewrite <- Hl. by apply read_words_bytes.
Qed.

Lemma client_record_skip a b o :
  (length a ≤ o)%nat → client_record (a ++ b) o = client_record b (o - length a).
Proof.
  intros. unfold client_record. rewrite read_guid_skip, !read_le_skip by lia.
  rewrite read_words_skip by lia. repeat f_equal; lia.
Qed.

(** ** Writes in the buffer *)

Lemma write_bytes_spec pre old post new :
  len new = len old →
  write_bytes (pre ++ old ++ post) (len pre) new = Some (pre ++ new ++ post).
Proof.
  intros Hl. pose proof (len_nonneg pre). pose proof (len_nonneg post). unfold write_bytes.
  rewrite (proj2 (andb_true_iff _ _)) by (rewrite !Z.leb_le, !len_app; lia).
  f_equal. rewrite Hl. unfold len. rewrite <- Nat2Z.inj_add, !Nat2Z.id.
  rewrite take_app_length. do 2 f_equal.
  rewrite app_assoc. by rewrite drop_app_length' by (by rewrite length_app).
Qed.

(** Every in-range write succeeds, keeps the length and splits the buffer. *)
Lemma write_bytes_total b offset new :
  0 ≤ offset → offset + len new ≤ len b →
  ∃ pre old post, b = pre ++ old ++ post ∧ len pre = offset ∧ len old = len new ∧
    write_bytes b offset new = Some (pre ++ new ++ post).
Proof.
  intros Ho Hb. pose proof (len_nonneg new).
  exists (take (Z.to_nat offset) b), (take (Z.to_nat (len new)) (drop (Z.to_nat offset) b)),
    (drop (Z.to_nat (len new)) (drop (Z.to_nat offset) b)).
  assert (b = take (Z.to_nat offset) b ++ take (Z.to_nat (len new)) (drop (Z.to_nat offset) b)
              ++ drop (Z.to_nat (len new)) (drop (Z.to_nat offset) b)) as Hsplit
    by (by rewrite !take_drop).
  split; [done|]. split; [unfold len in *; rewrite length_take; lia|].
  split; [unfold len in *; rewrite length_take, length_drop; lia|].
  unfold write_bytes. rewrite (proj2 (andb_true_iff _ _)) by (rewrite !Z.leb_le; lia).
  rewrite drop_drop. do 4 f_equal. lia.
Qed.

Lemma write_bytes_len b offset new b' :
  write_bytes b offset new = Some b' → len b' = len b.
Proof.
  unfold write_bytes. intros H. split_if_in H; [|done]. bool_reflect. injection H as <-.
  rewrite !len_app. unfold len in *. rewrite length_take, length_drop. lia.
Qed.

(** ** Requests from arbitrary bytes *)

Lemma le_value_fits bs : Forall is_byte bs → fits (8 * len bs) (le_value bs).
Proof.
  unfold is_byte, fits. induction 1 as [|b bs Hb _ IH]; [done|].
  cbn [le_value]. rewrite len_cons. pose proof (len_nonneg bs).
  replace (8 * (1 + len bs)) with (8 + 8 * len bs) by lia. rewrite Z.pow_add_r by lia.
  change (2 ^ 8) with 256 in *. lia.
Qed.

Lemma read_le_fits b o n w :
  Forall is_byte b → w = 8 * Z.of_nat n → fits w (read_le b o n).
Proof.
  intros Hb ->. unfold read_le.
  apply (fits_weaken (8 * len (take n (drop o b)))).
  - unfold len. rewrite length_take. lia.
  - by apply le_value_fits, Forall_take, Forall_drop.
Qed.

Lemma read_guid_words b o :
  Forall is_byte b → (o + 16 ≤ length b)%nat → guid_words (read_guid b o).
Proof.
  intros Hb Ho. unfold guid_words, read_guid. cbn [Data1 Data2 Data3 Data4].
  split_and!; [by apply read_le_fits..| |by apply Forall_take, Forall_drop].
  rewrite length_take, length_drop. lia.
Qed.
