(* ===== verification/Bus.v ===== *)
(** * The virtual bus driver ([wintap-bus-driver/src/lib.rs])

    The registry of TAP children the bus keeps: a singly linked list of
    heap-allocated [ChildNode]s behind a wait lock, the manager requests
    (create, remove, query, enumerate) and the framework callbacks that change
    it.  The memory is a heap of nodes, the [BusState] box, the contexts the
    framework allocated and the system buffer of the request being served.
    Dereferencing a null or freed pointer is undefined. *)

From S2P Require Import Prelude Words HardwareId BusWire Effects.

(** ** Constants *)

Definition STATUS_SUCCESS : Z := 0.
Definition STATUS_PENDING : Z := 0x103.
Definition STATUS_INVALID_PARAMETER : Z := as_i32 0xC000000D.
Definition STATUS_INVALID_DEVICE_REQUEST : Z := as_i32 0xC0000010.
Definition STATUS_INVALID_BUFFER_SIZE : Z := as_i32 0xC0000206.
Definition STATUS_BUFFER_TOO_SMALL : Z := as_i32 0xC0000023.
Definition STATUS_DEVICE_BUSY : Z := as_i32 0xC00000E8.
Definition STATUS_DEVICE_NOT_READY : Z := as_i32 0xC00000A3.
Definition STATUS_INSUFFICIENT_RESOURCES : Z := as_i32 0xC000009A.
Definition STATUS_OBJECT_NAME_NOT_FOUND : Z := as_i32 0xC0000034.
Definition STATUS_UNSUCCESSFUL : Z := as_i32 0xC0000001.

Definition MANAGER_PROTOCOL_VERSION : Z := 2.
Definition MANAGER_OPERATION_CREATE : Z := 1.
Definition MANAGER_OPERATION_REMOVE : Z := 2.
Definition MANAGER_OPERATION_ENUMERATE : Z := 3.
Definition MANAGER_OPERATION_QUERY : Z := 4.
Definition MANAGER_IOCTL : Z := 0x00222004.
Definition MAX_MANAGER_OUTPUT : Z := 64 * 1024.
Definition DEFAULT_MTU : Z := 1500.
Definition MINIMUM_MTU : Z := 1500.
Definition MAXIMUM_MTU : Z := 65521.

Definition LIFECYCLE_ABSENT : Z := 0.
Definition LIFECYCLE_CREATING : Z := 1.
Definition LIFECYCLE_ACTIVE : Z := 2.
Definition LIFECYCLE_REMOVING : Z := 3.
Definition LIFECYCLE_FAILED : Z := 4.

(** ** Memory *)

Record ChildIdentification := { id_guid : GUID; id_mtu : Z }.

Record ChildNode := {
  guid : GUID;
  lifecycle : Z;
  terminal_status : Z;
  request_id : Z;
  mtu : Z;
  pdo : Z;
  interface_length : Z;
  interface_name : list Z;
  next : Z;
}.

#[export] Instance ChildNode_eta : Eta ChildNode := λ n,
  Build_ChildNode (guid n) (lifecycle n) (terminal_status n) (request_id n) (mtu n)
    (pdo n) (interface_length n) (interface_name n) (next n).

Record BusState := { child_list : Z; lock : Z; children : Z }.

#[export] Instance BusState_eta : Eta BusState := λ b,
  Build_BusState (child_list b) (lock b) (children b).

Record ChildPdoContext := {
  ctx_bus_state : Z;
  ctx_bus_device : Z;
  ctx_guid : GUID;
  ctx_mtu : Z;
}.

#[export] Instance ChildPdoContext_eta : Eta ChildPdoContext := λ c,
  Build_ChildPdoContext (ctx_bus_state c) (ctx_bus_device c) (ctx_guid c) (ctx_mtu c).

(** The bus device's context field, the [BusState] box with its address, the
    node heap, the child contexts by address, and the system buffer. *)
Record bus := {
  context_state : Z;
  box : option (Z * BusState);
  heap : gmap Z ChildNode;
  pdo_contexts : gmap Z ChildPdoContext;
  buffer : list Z;
}.

#[export] Instance bus_eta : Eta bus := λ s,
  Build_bus (context_state s) (box s) (heap s) (pdo_contexts s) (buffer s).

(** ** Calls to the framework and to the allocator *)

Inductive context_type := BusContextType | ChildPdoContextType.

Inductive bus_call :=
  | WdfWaitLockAcquire (lock : Z)
  | WdfWaitLockRelease (lock : Z)
  | WdfObjectGetTypedContextWorker (object : Z) (type : context_type)
  | WdfRequestComplete (request status : Z)
  | WdfRequestCompleteWithInformation (request status information : Z)
  | WdfRequestRetrieveInputBuffer (request minimum : Z)
  | WdfRequestRetrieveOutputBuffer (request minimum : Z)
  | WdfIoQueueGetDevice (queue : Z)
  | WdfChildListGetDevice (list : Z)
  | WdfChildListAddOrUpdateChildDescriptionAsPresent (list : Z) (id : ChildIdentification)
  | WdfChildListUpdateChildDescriptionAsMissing (list : Z) (id : ChildIdentification)
  | WdfPdoInitAssignDeviceID (init : Z) (text : list Z)
  | WdfPdoInitAddHardwareID (init : Z) (text : list Z)
  | WdfDeviceCreate (init : Z)
  | WdfObjectDelete (object : Z)
  | WdfObjectReferenceActual (object : Z)
  | WdfObjectDereferenceActual (object : Z)
  | AllocateChildNode
  | AllocateBusState
  | WdfDriverCreate
  | WdfFdoInitSetDefaultChildListConfig (init : Z)
  | WdfDeviceInitAssignSDDLString (init : Z) (text : list Z)
  | WdfDeviceInitAssignName (init : Z) (text : list Z)
  | WdfWaitLockCreate (parent : Z)
  | WdfFdoGetDefaultChildList (device : Z)
  | WdfIoQueueCreate (device : Z)
  | WdfDeviceCreateSymbolicLink (device : Z) (text : list Z).

(** A status, a handle, a status with a length or a handle, or nothing. *)
Definition bus_ret (c : bus_call) : Type :=
  match c with
  | WdfWaitLockRelease _ | WdfRequestComplete _ _ | WdfRequestCompleteWithInformation _ _ _
  | WdfObjectDelete _ | WdfObjectReferenceActual _ | WdfObjectDereferenceActual _
  | WdfFdoInitSetDefaultChildListConfig _ => unit
  | WdfRequestRetrieveInputBuffer _ _ | WdfRequestRetrieveOutputBuffer _ _
  | WdfDeviceCreate _ | WdfWaitLockCreate _ => Z * Z
  | _ => Z
  end.

Abbreviation BM := (M bus bus_ret).
Abbreviation bcall := (do_call (S := bus) (ret := bus_ret)).

(** ** Memory accesses *)

Definition deref_state (state : Z) : BM BusState :=
  s ← get;
  match box s with
  | Some (address, b) => if address =? state then mret b else undefined
  | None => undefined
  end.

Definition assign_state (state : Z) (b : BusState) : BM unit :=
  _ ← deref_state state; s ← get; put (s <| box := Some (state, b) |>).

Definition read_node (p : Z) : BM ChildNode :=
  s ← get; from_option (heap s !! p).

Definition write_node (p : Z) (n : ChildNode) : BM unit :=
  _ ← read_node p; s ← get; put (s <| heap := <[p := n]> (heap s) |>).

(** [drop(Box::from_raw(p))] *)
Definition free_node (p : Z) : BM unit :=
  _ ← read_node p; s ← get; put (s <| heap := delete p (heap s) |>).

Definition store_bytes (offset : Z) (bytes : list Z) : BM unit :=
  s ← get; b ← from_option (write_bytes (buffer s) offset bytes); put (s <| buffer := b |>).

(** ** The lock guard *)

Definition BusStateGuard_acquire (state : Z) : BM bool :=
  if state =? 0 then mret false
  else
    b ← deref_state state;
    if lock b =? 0 then mret false
    else status ← bcall (WdfWaitLockAcquire (lock b)); mret (status =? STATUS_SUCCESS).

Definition BusStateGuard_drop (state : Z) : BM unit :=
  b ← deref_state state; bcall (WdfWaitLockRelease (lock b)).

(** ** Helpers *)

Definition state_from_device (device : Z) : BM (option Z) :=
  context ← bcall (WdfObjectGetTypedContextWorker device BusContextType);
  if context =? 0 then mret None
  else s ← get; mret (if context_state s =? 0 then None else Some (context_state s)).

Definition effective_mtu (requested : Z) : result Z Z :=
  if requested =? 0 then Ok DEFAULT_MTU
  else if (MINIMUM_MTU <=? requested) && (requested <=? MAXIMUM_MTU) then Ok requested
  else Err STATUS_INVALID_PARAMETER.

Definition make_identification (g : GUID) (m : Z) : ChildIdentification :=
  {| id_guid := g; id_mtu := m |}.

(** [while !node.is_null()]: the fuel is one more than the allocated nodes. *)
Fixpoint find_loop (fuel : nat) (node : Z) (g : GUID) : BM Z :=
  match fuel with
  | O => undefined
  | S fuel =>
      if node =? 0 then mret 0
      else
        n ← read_node node;
        if guid_equal (guid n) g then mret node else find_loop fuel (next n) g
  end.

Definition find_child (state : Z) (g : GUID) : BM Z :=
  b ← deref_state state; s ← get; find_loop (S (size (heap s))) (children b) g.

(** [link] is [&mut state.children] or [&mut node.next]. *)
Inductive link := LinkHead | LinkNext (node : Z).

Definition read_link (state : Z) (l : link) : BM Z :=
  match l with
  | LinkHead => b ← deref_state state; mret (children b)
  | LinkNext p => n ← read_node p; mret (next n)
  end.

Definition write_link (state : Z) (l : link) (p : Z) : BM unit :=
  match l with
  | LinkHead => b ← deref_state state; assign_state state (b <| children := p |>)
  | LinkNext q => n ← read_node q; write_node q (n <| next := p |>)
  end.

Fixpoint reclaim_loop (fuel : nat) (state : Z) (l : link) (node : Z) : BM unit :=
  match fuel with
  | O => undefined
  | S fuel =>
      current ← read_link state l;
      if current =? 0 then mret tt
      else if current =? node then
        n ← read_node current;
        write_link state l (next n);; free_node current
      else reclaim_loop fuel state (LinkNext current) node
  end.

Definition reclaim_child (state node : Z) : BM unit :=
  s ← get; reclaim_loop (S (size (heap s))) state LinkHead node.

(** ** Records *)

Definition zero_name : list Z := replicate 260 0.

Definition record_of (n : ChildNode) : ManagerRecord :=
  {| adapter_guid := guid n; rec_lifecycle := lifecycle n;
     rec_terminal_status := terminal_status n; rec_request_id := request_id n;
     rec_mtu := mtu n; rec_interface_length := interface_length n; rec_padding := 0;
     rec_interface_name := interface_name n |}.

Definition zero_guid : GUID :=
  {| Data1 := 0; Data2 := 0; Data3 := 0; Data4 := replicate 8 0 |}.

Definition absent_record (g : GUID) (status id : Z) : ManagerRecord :=
  {| adapter_guid := g; rec_lifecycle := LIFECYCLE_ABSENT; rec_terminal_status := status;
     rec_request_id := id; rec_mtu := 0; rec_interface_length := 0; rec_padding := 0;
     rec_interface_name := zero_name |}.

Definition empty_record : ManagerRecord := absent_record zero_guid STATUS_OBJECT_NAME_NOT_FOUND 0.

(** [zero_record] and [write_record] into the buffer. *)
Definition write_record (offset : Z) (n : ChildNode) : BM unit :=
  store_bytes offset (replicate (Z.to_nat size_of_ManagerRecord) 0);;
  store_bytes offset (record_bytes (record_of n)).

Definition copy_record (offset : Z) (r : ManagerRecord) : BM unit :=
  store_bytes offset (replicate (Z.to_nat size_of_ManagerRecord) 0);;
  store_bytes offset (record_bytes (r <| rec_padding := 0 |>)).

Definition complete (request status : Z) : BM unit := bcall (WdfRequestComplete request status).

Definition complete_with_information (request status information : Z) : BM unit :=
  bcall (WdfRequestCompleteWithInformation request status information).

(** ** State changes under the lock *)

Definition mark_child_failure (state : Z) (g : GUID) (status : Z) : BM unit :=
  guard ← BusStateGuard_acquire state;
  if negb guard then mret tt
  else
    node ← find_child state g;
    (if node =? 0 then mret tt
     else
       n ← read_node node;
       write_node node (n <| lifecycle := LIFECYCLE_FAILED |> <| terminal_status := status |>));;
    BusStateGuard_drop state.

Definition reclaim_removed_child_without_pdo (state : Z) (g : GUID) : BM unit :=
  guard ← BusStateGuard_acquire state;
  if negb guard then mret tt
  else
    node ← find_child state g;
    (if node =? 0 then mret tt
     else
       n ← read_node node;
       if (lifecycle n =? LIFECYCLE_REMOVING) && (pdo n =? 0)
       then reclaim_child state node else mret tt);;
    BusStateGuard_drop state.

Definition child_record_for (state : Z) (g : GUID) : BM (Z * ManagerRecord) :=
  guard ← BusStateGuard_acquire state;
  if negb guard then mret (STATUS_DEVICE_NOT_READY, empty_record)
  else
    node ← find_child state g;
    r ← (if node =? 0 then mret (STATUS_SUCCESS, absent_record g STATUS_SUCCESS 0)
         else
           n ← read_node node;
           (if (lifecycle n =? LIFECYCLE_CREATING) && negb (pdo n =? 0)
            then write_node node (n <| lifecycle := LIFECYCLE_ACTIVE |>
                                    <| terminal_status := STATUS_SUCCESS |>)
            else mret tt);;
           n ← read_node node;
           mret (terminal_status n, record_of n));
    BusStateGuard_drop state;;
    mret r.

(** ** Responses *)

Definition response_buffer (request output_length minimum_length : Z) : BM (result unit Z) :=
  if (output_length <? minimum_length) || (MAX_MANAGER_OUTPUT <? output_length)
  then mret (Err STATUS_BUFFER_TOO_SMALL)
  else
    r ← bcall (WdfRequestRetrieveOutputBuffer request minimum_length);
    let '(status, actual_output_length) := r in
    if negb (status =? STATUS_SUCCESS) then mret (Err status)
    else if (actual_output_length <? minimum_length) || (MAX_MANAGER_OUTPUT <? actual_output_length)
    then mret (Err STATUS_BUFFER_TOO_SMALL)
    else mret (Ok tt).

Definition response_header (r : ManagerRequest) (status count cursor : Z) : ManagerResponseHeader :=
  {| hdr_version := MANAGER_PROTOCOL_VERSION; hdr_operation := req_operation r;
     hdr_length := size_of_ManagerResponseHeader; hdr_request_id := req_request_id r;
     operation_status := status; record_count := count; next_cursor := cursor;
     hdr_reserved := 0 |}.

Definition initialize_response (r : ManagerRequest) (status count cursor : Z) : BM unit :=
  store_bytes 0 (header_bytes (response_header r status count cursor)).

(** The assignment of the header's [length] field in place. *)
Definition set_response_length (n : Z) : BM unit := store_bytes 4 (le_bytes 4 n).

Definition one_record : Z := size_of_ManagerResponseHeader + size_of_ManagerRecord.

(** The tail the create, remove and query handlers share. *)
Definition respond_with_record (request : Z) (r : ManagerRequest)
    (outcome : Z * ManagerRecord) : BM unit :=
  initialize_response r outcome.1 1 0;;
  copy_record size_of_ManagerResponseHeader outcome.2;;
  set_response_length one_record;;
  complete_with_information request STATUS_SUCCESS one_record.

(** An error reported in the header alone. *)
Definition respond_with_status (request : Z) (r : ManagerRequest) (status : Z) : BM unit :=
  initialize_response r status 0 0;;
  complete_with_information request STATUS_SUCCESS size_of_ManagerResponseHeader.

(** ** The manager requests *)

(** The critical section of a create: [true] when the child is now being
    created, [false] when the request has been completed. *)
Definition create_section (state request : Z) (r : ManagerRequest) (m : Z) : BM bool :=
  existing ← find_child state (req_adapter_guid r);
  busy ← (if existing =? 0 then mret false
          else n ← read_node existing; mret (negb (lifecycle n =? LIFECYCLE_ABSENT)) : BM bool);
  if (busy : bool) then respond_with_status request r STATUS_DEVICE_BUSY;; mret false
  else if negb (existing =? 0) then
    n ← read_node existing;
    write_node existing (n <| lifecycle := LIFECYCLE_CREATING |>
      <| terminal_status := STATUS_PENDING |>
      <| request_id := req_request_id r |> <| mtu := m |>);;
    mret true
  else
    b ← deref_state state;
    node ← bcall AllocateChildNode;
    if node =? 0 then
      respond_with_status request r STATUS_INSUFFICIENT_RESOURCES;; mret false
    else
      s ← get;
      put (s <| heap := <[node := {| guid := req_adapter_guid r;
        lifecycle := LIFECYCLE_CREATING; terminal_status := STATUS_PENDING;
        request_id := req_request_id r; mtu := m; pdo := 0; interface_length := 0;
        interface_name := zero_name; next := children b |}]> (heap s) |>);;
      b ← deref_state state;
      assign_state state (b <| children := node |>);;
      mret true.

Definition manager_create (state request : Z) (r : ManagerRequest) (output_length : Z) : BM unit :=
  match effective_mtu (requested_mtu r) with
  | Err status => complete request status
  | Ok m =>
      output ← response_buffer request output_length one_record;
      match output with
      | Err status => complete request status
      | Ok _ =>
          guard ← BusStateGuard_acquire state;
          if negb guard then complete request STATUS_DEVICE_NOT_READY
          else
            created ← create_section state request r m;
            BusStateGuard_drop state;;
            if negb created then mret tt
            else
              b ← deref_state state;
              status ← bcall (WdfChildListAddOrUpdateChildDescriptionAsPresent (child_list b)
                                (make_identification (req_adapter_guid r) m));
              (if negb (status =? STATUS_SUCCESS)
               then mark_child_failure state (req_adapter_guid r) status else mret tt);;
              outcome ← child_record_for state (req_adapter_guid r);
              respond_with_record request r outcome
      end
  end.

(** The critical section of a remove: whether the node had no PDO and its MTU,
    or [None] when the request has been completed. *)
Definition remove_section (state request : Z) (r : ManagerRequest) : BM (option (bool * Z)) :=
  node ← find_child state (req_adapter_guid r);
  absent ← (if node =? 0 then mret true
            else n ← read_node node; mret (lifecycle n =? LIFECYCLE_ABSENT) : BM bool);
  if (absent : bool) then respond_with_status request r STATUS_OBJECT_NAME_NOT_FOUND;; mret None
  else
    n ← read_node node;
    if (lifecycle n =? LIFECYCLE_CREATING) || (lifecycle n =? LIFECYCLE_REMOVING)
    then respond_with_status request r STATUS_DEVICE_BUSY;; mret None
    else
      write_node node (n <| lifecycle := LIFECYCLE_REMOVING |>
        <| terminal_status := STATUS_PENDING |> <| request_id := req_request_id r |>);;
      mret (Some (pdo n =? 0, mtu n)).

Definition manager_remove (state request : Z) (r : ManagerRequest) (output_length : Z) : BM unit :=
  output ← response_buffer request output_length one_record;
  match output with
  | Err status => complete request status
  | Ok _ =>
      guard ← BusStateGuard_acquire state;
      if negb guard then complete request STATUS_DEVICE_NOT_READY
      else
        removing ← remove_section state request r;
        BusStateGuard_drop state;;
        match removing with
        | None => mret tt
        | Some (remove_without_pdo, m) =>
            b ← deref_state state;
            status ← bcall (WdfChildListUpdateChildDescriptionAsMissing (child_list b)
                              (make_identification (req_adapter_guid r) m));
            (if negb (status =? STATUS_SUCCESS)
             then mark_child_failure state (req_adapter_guid r) status
             else if (remove_without_pdo : bool)
             then reclaim_removed_child_without_pdo state (req_adapter_guid r)
             else mret tt);;
            outcome ← child_record_for state (req_adapter_guid r);
            respond_with_record request r outcome
        end
  end.

Definition manager_query (state request : Z) (r : ManagerRequest) (output_length : Z) : BM unit :=
  output ← response_buffer request output_length one_record;
  match output with
  | Err status => complete request status
  | Ok _ =>
      outcome ← child_record_for state (req_adapter_guid r);
      respond_with_record request r outcome
  end.

(** The walk of an enumeration: where it stopped, the index after the last
    visited child and the number of records written. *)
Fixpoint enumerate_loop (fuel : nat) (capacity cursor : Z) (node index returned : Z) :
    BM (Z * Z * Z) :=
  match fuel with
  | O => undefined
  | S fuel =>
      if (node =? 0) || negb (returned <? capacity) then mret (node, index, returned)
      else
        n ← read_node node;
        let include := negb (lifecycle n =? LIFECYCLE_ABSENT) in
        returned' ← (if include && (cursor <=? index) then
                       write_record (size_of_ManagerResponseHeader
                                     + returned * size_of_ManagerRecord) n;;
                       mret (returned + 1)
                     else mret returned);
        enumerate_loop fuel capacity cursor (next n)
          (if include then saturating_add 32 index 1 else index) returned'
  end.

Definition manager_enumerate (state request : Z) (r : ManagerRequest) (output_length : Z) : BM unit :=
  output ← response_buffer request output_length one_record;
  match output with
  | Err status => complete request status
  | Ok _ =>
      let capacity := (output_length - size_of_ManagerResponseHeader) / size_of_ManagerRecord in
      guard ← BusStateGuard_acquire state;
      if negb guard then complete request STATUS_DEVICE_NOT_READY
      else
        b ← deref_state state;
        s ← get;
        walked ← enumerate_loop (S (size (heap s))) capacity (req_cursor r) (children b) 0 0;
        let '(node, index, returned) := walked in
        let next_cursor := if node =? 0 then 0 else index in
        let length := size_of_ManagerResponseHeader + returned * size_of_ManagerRecord in
        initialize_response r STATUS_SUCCESS (wrap 32 returned) next_cursor;;
        set_response_length (wrap 32 length);;
        complete_with_information request STATUS_SUCCESS length;;
        BusStateGuard_drop state
  end.

(** The checks of a request's fields. *)
Definition request_is_invalid (r : ManagerRequest) : bool :=
  let operation := req_operation r in
  negb (req_version r =? MANAGER_PROTOCOL_VERSION)
  || negb (req_length r =? size_of_ManagerRequest)
  || (req_request_id r =? 0)
  || negb ((operation =? MANAGER_OPERATION_CREATE) || (operation =? MANAGER_OPERATION_REMOVE)
           || (operation =? MANAGER_OPERATION_ENUMERATE) || (operation =? MANAGER_OPERATION_QUERY))
  || (negb (operation =? MANAGER_OPERATION_ENUMERATE)
      && (negb (valid_guid (req_adapter_guid r)) || negb (req_cursor r =? 0)))
  || ((operation =? MANAGER_OPERATION_ENUMERATE) && valid_guid (req_adapter_guid r))
  || (negb (operation =? MANAGER_OPERATION_CREATE) && negb (requested_mtu r =? 0)).

Definition evt_manager_device_control (queue request output_length input_length ioctl : Z) :
    BM unit :=
  if negb (ioctl =? MANAGER_IOCTL) then complete request STATUS_INVALID_DEVICE_REQUEST
  else if negb (input_length =? size_of_ManagerRequest)
  then complete request STATUS_INVALID_BUFFER_SIZE
  else
    input ← bcall (WdfRequestRetrieveInputBuffer request size_of_ManagerRequest);
    let '(status, actual_input_length) := input in
    if negb (status =? STATUS_SUCCESS) || negb (actual_input_length =? size_of_ManagerRequest)
    then complete request
           (if status =? STATUS_SUCCESS then STATUS_INVALID_BUFFER_SIZE else status)
    else
      s ← get;
      r ← from_option (read_request (buffer s));
      if request_is_invalid r then complete request STATUS_INVALID_PARAMETER
      else
        device ← bcall (WdfIoQueueGetDevice queue);
        found ← state_from_device device;
        match found with
        | None => complete request STATUS_DEVICE_NOT_READY
        | Some state =>
            if req_operation r =? MANAGER_OPERATION_CREATE
            then manager_create state request r output_length
            else if req_operation r =? MANAGER_OPERATION_REMOVE
            then manager_remove state request r output_length
            else if req_operation r =? MANAGER_OPERATION_ENUMERATE
            then manager_enumerate state request r output_length
            else if req_operation r =? MANAGER_OPERATION_QUERY
            then manager_query state request r output_length
            else complete request STATUS_INVALID_PARAMETER
        end.

(** ** Framework callbacks *)

(** The device names of the manager interface. *)
Definition ADMIN_SDDL : list Z := u16s "D:P(A;;GA;;;BA)" ++ [0].
Definition MANAGER_DEVICE_NAME : list Z := u16s "\Device\WinTapBusMgr" ++ [0; 0].
Definition MANAGER_SYMBOLIC_LINK : list Z := u16s "\DosDevices\Global\WinTapBusMgr" ++ [0].

Definition string_of (text : list Z) : list Z :=
  Printer.unicode_chars (Printer.unicode_string text).

Definition driver_entry : BM Z := bcall WdfDriverCreate.

Definition delete_and_return (object status : Z) : BM Z :=
  bcall (WdfObjectDelete object);; mret status.

Definition evt_bus_device_add (device_init : Z) : BM Z :=
  bcall (WdfFdoInitSetDefaultChildListConfig device_init);;
  status ← bcall (WdfDeviceInitAssignSDDLString device_init (string_of ADMIN_SDDL));
  if negb (status =? STATUS_SUCCESS) then mret status
  else
  status ← bcall (WdfDeviceInitAssignName device_init (string_of MANAGER_DEVICE_NAME));
  if negb (status =? STATUS_SUCCESS) then mret status
  else
  created ← bcall (WdfDeviceCreate device_init);
  let '(status, device) := created in
  if negb (status =? STATUS_SUCCESS) then mret status
  else
  created ← bcall (WdfWaitLockCreate device);
  let '(status, lock) := created in
  if negb (status =? STATUS_SUCCESS) then delete_and_return device status
  else
  child_list ← bcall (WdfFdoGetDefaultChildList device);
  if child_list =? 0 then delete_and_return device STATUS_DEVICE_NOT_READY
  else
  context ← bcall (WdfObjectGetTypedContextWorker device BusContextType);
  if context =? 0 then delete_and_return device STATUS_INSUFFICIENT_RESOURCES
  else
  s ← get;
  put (s <| context_state := 0 |>);;
  state ← bcall AllocateBusState;
  if state =? 0 then delete_and_return device STATUS_INSUFFICIENT_RESOURCES
  else
  s ← get;
  put (s <| box := Some (state, {| child_list := child_list; lock := lock; children := 0 |}) |>
         <| context_state := state |>);;
  status ← bcall (WdfIoQueueCreate device);
  if negb (status =? STATUS_SUCCESS) then delete_and_return device status
  else
  status ← bcall (WdfDeviceCreateSymbolicLink device (string_of MANAGER_SYMBOLIC_LINK));
  (if negb (status =? STATUS_SUCCESS) then bcall (WdfObjectDelete device) else mret tt);;
  mret status.

(** The identification descriptions; [None] is a null pointer. *)
Definition evt_child_identification_compare (first second : option ChildIdentification) : Z :=
  match first, second with
  | Some first, Some second => if guid_equal (id_guid first) (id_guid second) then 1 else 0
  | _, _ => 0
  end.

Definition evt_child_identification_duplicate
    (source destination : option ChildIdentification) : Z * option ChildIdentification :=
  match source, destination with
  | Some source, Some _ => (STATUS_SUCCESS, Some source)
  | _, _ => (STATUS_INVALID_PARAMETER, destination)
  end.

(** One of the four identifier calls, with its failure exit. *)
Definition add_id (state : Z) (g : GUID) (call : BM Z) (continue : BM Z) : BM Z :=
  status ← call;
  if negb (status =? STATUS_SUCCESS) then mark_child_failure state g status;; mret status
  else continue.

Definition read_context (context : Z) : BM ChildPdoContext :=
  s ← get; from_option (pdo_contexts s !! context).

Definition write_context (context : Z) (c : ChildPdoContext) : BM unit :=
  _ ← read_context context; s ← get;
  put (s <| pdo_contexts := <[context := c]> (pdo_contexts s) |>).

Definition evt_child_list_create_device (list : Z)
    (identification : option ChildIdentification) (device_init : Z) : BM Z :=
  match identification with
  | None => mret STATUS_INVALID_PARAMETER
  | Some identification =>
  if device_init =? 0 then mret STATUS_INVALID_PARAMETER
  else
  let g := id_guid identification in
  let m := id_mtu identification in
  if negb (valid_guid g) then mret STATUS_INVALID_PARAMETER
  else
  bus_device ← bcall (WdfChildListGetDevice list);
  found ← state_from_device bus_device;
  match found with
  | None => mret STATUS_DEVICE_NOT_READY
  | Some state =>
  device_id ← from_option (Printer.child_device_id g);
  add_id state g (bcall (WdfPdoInitAssignDeviceID device_init (string_of device_id))) (
  add_id state g (bcall (WdfPdoInitAddHardwareID device_init (string_of device_id))) (
  mtu_id ← from_option (Printer.child_mtu_hardware_id m);
  add_id state g (bcall (WdfPdoInitAddHardwareID device_init (string_of mtu_id))) (
  add_id state g (bcall (WdfPdoInitAddHardwareID device_init
                           (string_of Printer.CHILD_COMPATIBLE_ID))) (
  created ← bcall (WdfDeviceCreate device_init);
  let '(status, new_pdo) := created in
  if negb (status =? STATUS_SUCCESS) then mark_child_failure state g status;; mret status
  else
  context ← bcall (WdfObjectGetTypedContextWorker new_pdo ChildPdoContextType);
  if context =? 0 then
    bcall (WdfObjectDelete new_pdo);;
    mark_child_failure state g STATUS_INSUFFICIENT_RESOURCES;;
    mret STATUS_INSUFFICIENT_RESOURCES
  else
  write_context context {| ctx_bus_state := 0; ctx_bus_device := 0; ctx_guid := g; ctx_mtu := m |};;
  bcall (WdfObjectReferenceActual bus_device);;
  c ← read_context context;
  write_context context (c <| ctx_bus_state := state |> <| ctx_bus_device := bus_device |>);;
  guard ← BusStateGuard_acquire state;
  if negb guard then delete_and_return new_pdo STATUS_DEVICE_NOT_READY
  else
    node ← find_child state g;
    if node =? 0 then
      bcall (WdfObjectDelete new_pdo);; BusStateGuard_drop state;;
      mret STATUS_OBJECT_NAME_NOT_FOUND
    else
      n ← read_node node;
      write_node node (n <| pdo := new_pdo |>);;
      BusStateGuard_drop state;;
      mret STATUS_SUCCESS))))
  end end.

Definition evt_child_pdo_cleanup (object : Z) : BM unit :=
  context ← bcall (WdfObjectGetTypedContextWorker object ChildPdoContextType);
  if context =? 0 then mret tt
  else
  c ← read_context context;
  let state := ctx_bus_state c in
  let bus_device := ctx_bus_device c in
  let g := ctx_guid c in
  write_context context (c <| ctx_bus_state := 0 |> <| ctx_bus_device := 0 |>);;
  guard ← BusStateGuard_acquire state;
  (if negb guard then mret tt
   else
     node ← find_child state g;
     (if node =? 0 then mret tt
      else
        n ← read_node node;
        write_node node (n <| pdo := 0 |> <| interface_name := zero_name |>
                           <| interface_length := 0 |>);;
        n ← read_node node;
        if lifecycle n =? LIFECYCLE_REMOVING then reclaim_child state node
        else if (lifecycle n =? LIFECYCLE_CREATING) || (lifecycle n =? LIFECYCLE_ACTIVE)
        then write_node node (n <| lifecycle := LIFECYCLE_FAILED |>
                                <| terminal_status := STATUS_UNSUCCESSFUL |>)
        else mret tt);;
     BusStateGuard_drop state);;
  if negb (bus_device =? 0) then bcall (WdfObjectDereferenceActual bus_device) else mret tt.

(** The cleanup frees every node, then the box. *)
Fixpoint free_loop (fuel : nat) (node : Z) : BM unit :=
  match fuel with
  | O => undefined
  | S fuel =>
      if node =? 0 then mret tt
      else n ← read_node node; free_node node;; free_loop fuel (next n)
  end.

Definition evt_bus_device_cleanup (object : Z) : BM unit :=
  context ← bcall (WdfObjectGetTypedContextWorker object BusContextType);
  if context =? 0 then mret tt
  else
  s ← get;
  let state := context_state s in
  if state =? 0 then mret tt
  else
  put (s <| context_state := 0 |>);;
  b ← deref_state state;
  s ← get;
  free_loop (S (size (heap s))) (children b);;
  s ← get;
  put (s <| box := None |>).
