(* ===== verification/BusSpec.v ===== *)
(** * Correctness of the bus driver

    The invariant of the child registry, the contract of the framework and of
    the other threads, the specifications of the helpers, and the theorems about
    the manager requests and the framework callbacks of [Bus]. *)

From S2P Require Import Prelude Words HardwareId BusWire Effects Bus.

(** ** What a trace of calls shows *)

(** The status and the information of every completion of [request], the latest
    first. *)
Fixpoint infos (request : Z) (w : world bus_ret) : list (Z * Z) :=
  match w with
  | [] => []
  | ev :: w =>
      match projT1 ev with
      | WdfRequestComplete q status =>
          if q =? request then (status, 0) :: infos request w else infos request w
      | WdfRequestCompleteWithInformation q status n =>
          if q =? request then (status, n) :: infos request w else infos request w
      | _ => infos request w
      end
  end.

(** The run from [w] to [w'] made the call [c], which was answered with [x]. *)
Definition called (w w' : world bus_ret) (c : bus_call) (x : bus_ret c) : Prop :=
  ∃ l, w' = l ++ w ∧ existT c x ∈ l.

(** The status with which a request is refused when the call is answered so. *)
Definition refuses (c : bus_call) : bus_ret c → option Z :=
  match c with
  | WdfRequestRetrieveInputBuffer _ minimum => λ x,
      if negb (x.1 =? STATUS_SUCCESS) then Some x.1
      else if negb (x.2 =? minimum) then Some STATUS_INVALID_BUFFER_SIZE else None
  | WdfRequestRetrieveOutputBuffer _ minimum => λ x,
      if negb (x.1 =? STATUS_SUCCESS) then Some x.1
      else if (x.2 <? minimum) || (MAX_MANAGER_OUTPUT <? x.2) then Some STATUS_BUFFER_TOO_SMALL else None
  | WdfWaitLockAcquire _ => λ x, if negb (x =? STATUS_SUCCESS) then Some STATUS_DEVICE_NOT_READY else None
  | WdfObjectGetTypedContextWorker _ BusContextType => λ x,
      if x =? 0 then Some STATUS_DEVICE_NOT_READY else None
  | _ => λ _, None
  end.

Definition refused_call (w w' : world bus_ret) (status : Z) : Prop :=
  ∃ c x, called w w' c x ∧ refuses c x = Some status.

(** An acquisition that succeeded. *)
Definition acquired (ev : event bus_ret) : bool :=
  match ev with
  | existT c r =>
      match c as c return bus_ret c → bool with
      | WdfWaitLockAcquire _ => λ r, r =? STATUS_SUCCESS
      | _ => λ _, false
      end r
  end.

(** Whether the handler holds the lock after the calls of [w]. *)
Fixpoint held (w : world bus_ret) : bool :=
  match w with
  | [] => false
  | ev :: w =>
      match projT1 ev with
      | WdfWaitLockAcquire _ => acquired ev || held w
      | WdfWaitLockRelease _ => false
      | _ => held w
      end
  end.

(** Calls during which the framework may run a callback of this driver: the
    lock must not be held, since the callback takes it. *)
Definition runs_callbacks (c : bus_call) : bool :=
  match c with
  | WdfChildListAddOrUpdateChildDescriptionAsPresent _ _
  | WdfChildListUpdateChildDescriptionAsMissing _ _
  | WdfObjectDelete _ | WdfObjectDereferenceActual _ => true
  | _ => false
  end.

(** The locking discipline: no acquisition while holding the lock, no release
    without it, no call that runs callbacks under it. *)
Fixpoint disciplined (w : world bus_ret) : bool :=
  match w with
  | [] => true
  | ev :: w =>
      (match projT1 ev with
       | WdfWaitLockAcquire _ => negb (held w)
       | WdfWaitLockRelease _ => held w
       | c => negb (runs_callbacks c && held w)
       end) && disciplined w
  end.

(** ** The registry invariant *)

Fixpoint linked (h : gmap Z ChildNode) (p : Z) (l : list Z) : Prop :=
  match l with
  | [] => p = 0
  | a :: l => p = a ∧ a ≠ 0 ∧ ∃ n, h !! a = Some n ∧ linked h (next n) l
  end.

Record node_ok (n : ChildNode) : Prop := {
  node_words : record_words (record_of n);
  node_guid_valid : valid_guid (guid n) = true;
  node_lifecycle : 0 ≤ lifecycle n ≤ 4;
  node_mtu : MINIMUM_MTU ≤ mtu n ≤ MAXIMUM_MTU;
}.

(** [l] is the list from [p]; it is the whole heap, without repetition, and no
    two children share a GUID. *)
Record list_ok (h : gmap Z ChildNode) (p : Z) (l : list Z) : Prop := {
  list_linked : linked h p l;
  list_nodup : NoDup l;
  list_dom : ∀ a, is_Some (h !! a) ↔ a ∈ l;
  list_nodes : ∀ a n, h !! a = Some n → node_ok n;
  list_guids : ∀ a b n m, h !! a = Some n → h !! b = Some m → guid n = guid m → a = b;
  list_small : Z.of_nat (length l) < 2 ^ 32;
}.

(** Every stored pointer to the box is null or the box. *)
Definition contexts_ok (state : Z) (s : bus) : Prop :=
  (context_state s = 0 ∨ context_state s = state) ∧
  ∀ k c, pdo_contexts s !! k = Some c → ctx_bus_state c = 0 ∨ ctx_bus_state c = state.

Definition bus_inv (state : Z) (s : bus) : Prop :=
  ∃ b l, box s = Some (state, b) ∧ state ≠ 0 ∧ list_ok (heap s) (children b) l ∧
    contexts_ok state s.

(** ** The contract *)

(** What other threads and callbacks may do while a call runs and the lock is
    free: keep the invariant, the box and its handles, the contexts, and leave
    the caller's system buffer alone. *)
Record evolves (s s' : bus) : Prop := {
  evolves_buffer : buffer s' = buffer s;
  evolves_context : context_state s' = context_state s;
  evolves_inv : ∀ state, bus_inv state s → bus_inv state s';
  evolves_box : ∀ state b, box s = Some (state, b) →
    ∃ b', box s' = Some (state, b') ∧ lock b' = lock b ∧ child_list b' = child_list b;
  evolves_contexts : ∀ k, is_Some (pdo_contexts s !! k) → is_Some (pdo_contexts s' !! k);
  evolves_unborn : box s = None →
    box s' = None ∧ heap s' = heap s ∧ pdo_contexts s' = pdo_contexts s;
}.

(** Documented answers: a fresh allocation (the pool cannot hold 2^32 nodes, of
    more than 560 bytes each), a buffer as long as reported, an
    allocated context, a 32-bit status. *)
Definition answer_ok (c : bus_call) : bus → bus_ret c → bus → Prop :=
  match c with
  | AllocateChildNode => λ s r s',
      r = 0 ∨ (heap s' !! r = None ∧ Z.of_nat (size (heap s')) + 1 < 2 ^ 32)
  | WdfRequestRetrieveInputBuffer _ minimum => λ s r s',
      r.1 = STATUS_SUCCESS → minimum ≤ r.2 ≤ len (buffer s')
  | WdfObjectGetTypedContextWorker _ ChildPdoContextType => λ s r s',
      r ≠ 0 → is_Some (pdo_contexts s' !! r)
  | WdfChildListAddOrUpdateChildDescriptionAsPresent _ _
  | WdfChildListUpdateChildDescriptionAsMissing _ _
  | WdfPdoInitAssignDeviceID _ _ | WdfPdoInitAddHardwareID _ _ => λ s r s', fits_i32 r
  | WdfDeviceCreate _ => λ s r s', fits_i32 r.1
  | _ => λ s r s', True
  end.

(** What the other threads did, one call of this handler after the other. *)
Inductive others (e : env bus bus_ret) : bus → bus → Prop :=
  | others_none s : others e s s
  | others_step w c s s' : held w = false → others e (e w c s).2 s' → others e s s'.

Definition bus_contract : contract bus bus_ret := λ w c s r s',
  (if held w then s' = s else evolves s s') ∧ answer_ok c s r s'.

Lemma evolves_refl s : evolves s s.
Proof. constructor; naive_solver. Qed.

Lemma evolves_trans s1 s2 s3 : evolves s1 s2 → evolves s2 s3 → evolves s1 s3.
Proof.
  intros [A1 A2 A3 A4 A5 A6] [B1 B2 B3 B4 B5 B6].
  constructor; [congruence..|eauto| |eauto|].
  - intros st b Hb. destruct (A4 _ _ Hb) as (b1 & H1 & ? & ?).
    destruct (B4 _ _ H1) as (b2 & H2 & ? & ?). exists b2. split_and!; [done|congruence..].
  - intros Hb. destruct (A6 Hb) as (H1 & H2 & H3). destruct (B6 H1) as (? & ? & ?).
    split_and!; congruence.
Qed.

Lemma others_trans e s1 s2 s3 : others e s1 s2 → others e s2 s3 → others e s1 s3.
Proof. induction 1 as [|w c s1 s2 Hw _ IH]; [done|]. intros H. eapply others_step; [exact Hw|auto]. Qed.

Lemma others_call e w c s : held w = false → others e s (e w c s).2.
Proof. intros Hw. eapply others_step; [exact Hw|constructor]. Qed.

Lemma others_evolves e s s' : respects bus_contract e → others e s s' → evolves s s'.
Proof.
  intros He. induction 1 as [|w c s s' Hw _ IH]; [apply evolves_refl|].
  destruct (He w c s) as [Hev _]. rewrite Hw in Hev. by eapply evolves_trans.
Qed.

(** A change of the registry by its owner is one the others may see. *)
Lemma evolves_own state b b' s s' :
  bus_inv state s' → buffer s' = buffer s → context_state s' = context_state s →
  pdo_contexts s' = pdo_contexts s → box s = Some (state, b) → box s' = Some (state, b') →
  lock b' = lock b → child_list b' = child_list b → evolves s s'.
Proof.
  intros Hinv Hbuf Hctx Hpdo Hb Hb' Hlock Hlist. constructor; [done|done|..].
  - intros st (b0 & l & Hb0 & Hrest). rewrite Hb in Hb0. by injection Hb0 as <- _.
  - intros st b0 Hb0. rewrite Hb in Hb0. injection Hb0 as <- <-. by exists b'.
  - intros k. by rewrite Hpdo.
  - by rewrite Hb.
Qed.

(** ** Pure facts about the list *)

Lemma guid_equal_spec g h : guid_equal g h = true ↔ g = h.
Proof.
  unfold guid_equal. rewrite !andb_true_iff, !Z.eqb_eq, bool_decide_eq_true.
  destruct g, h; cbn. naive_solver.
Qed.

Lemma linked_in h l : ∀ p a, linked h p l → a ∈ l → is_Some (h !! a) ∧ a ≠ 0.
Proof.
  induction l as [|x l IH]; intros p a Hl Ha; [by apply not_elem_of_nil in Ha|].
  destruct Hl as (-> & Hx & n & Hn & Hl).
  apply elem_of_cons in Ha as [->|Ha]; [by split|by eapply IH].
Qed.

(** A chain is determined by its nodes' next fields on its own addresses. *)
Lemma linked_ext h h' l : ∀ p,
  (∀ a n, a ∈ l → h !! a = Some n → ∃ n', h' !! a = Some n' ∧ next n' = next n) →
  linked h p l → linked h' p l.
Proof.
  induction l as [|x l IH]; intros p Hext Hl; [done|].
  destruct Hl as (-> & Hx & n & Hn & Hl). split; [done|]. split; [done|].
  destruct (Hext x n) as (n' & Hn' & Heq); [by left|done|].
  exists n'. split; [done|]. rewrite Heq. apply IH; [|done].
  intros a m Ha Hm. apply Hext; [by right|done].
Qed.

Lemma list_ok_size h p l : list_ok h p l → size h = length l.
Proof.
  intros [Hl Hnd Hdom _ _ _]. rewrite <- size_dom.
  assert (dom h = list_to_set l) as ->.
  { apply set_eq. intros a. by rewrite elem_of_dom, Hdom, elem_of_list_to_set. }
  by apply size_list_to_set.
Qed.

(** Changing the data of a node, not its GUID nor its link. *)
Lemma list_ok_update h p l a n n' :
  list_ok h p l → h !! a = Some n → node_ok n' → guid n' = guid n → next n' = next n →
  list_ok (<[a := n']> h) p l.
Proof.
  intros [Hl Hnd Hdom Hok Hg Hsm] Ha Hn' Hguid Hnext. constructor; [|done|..|done].
  - eapply linked_ext; [|exact Hl]. intros b m _ Hm.
    destruct (decide (a = b)) as [<-|Hne].
    + exists n'. rewrite lookup_insert_eq. simplify_eq. done.
    + exists m. by rewrite lookup_insert_ne.
  - intros b. destruct (decide (a = b)) as [<-|Hne].
    + rewrite lookup_insert_eq, <- Hdom, Ha. split; by eexists.
    + by rewrite lookup_insert_ne.
  - intros b m Hm. apply lookup_insert_Some in Hm as [[<- <-]|[_ Hm]]; [done|by eapply Hok].
  - assert (∀ b m, <[a := n']> h !! b = Some m → ∃ m', h !! b = Some m' ∧ guid m' = guid m)
      as Hback.
    { intros b m Hm. apply lookup_insert_Some in Hm as [[<- <-]|[_ Hm]]; [by exists n|by exists m]. }
    intros b c m1 m2 (m1' & H1 & E1)%Hback (m2' & H2 & E2)%Hback Heq.
    eapply Hg; [exact H1|exact H2|]. by rewrite E1, E2.
Qed.

Lemma list_ok_push h p l a n :
  list_ok h p l → a ≠ 0 → h !! a = None → node_ok n → next n = p →
  (∀ b m, h !! b = Some m → guid m ≠ guid n) → Z.of_nat (length l) + 1 < 2 ^ 32 →
  list_ok (<[a := n]> h) a (a :: l).
Proof.
  intros [Hl Hnd Hdom Hok Hg _] Ha Hfresh Hn Hnext Hnew Hsm.
  assert (a ∉ l) as Hal by (rewrite <- Hdom, Hfresh; by intros [? ?]).
  constructor.
  - split; [done|]. split; [done|]. exists n. rewrite lookup_insert_eq. split; [done|].
    rewrite Hnext. eapply linked_ext; [|exact Hl]. intros b m Hb Hm. exists m.
    rewrite lookup_insert_ne; [done|]. intros ->. done.
  - by constructor.
  - intros b. rewrite elem_of_cons, <- Hdom. destruct (decide (a = b)) as [<-|Hne].
    + rewrite lookup_insert_eq. split; [by left|by eexists].
    + rewrite lookup_insert_ne by done. naive_solver.
  - intros b m Hm. apply lookup_insert_Some in Hm as [[<- <-]|[_ Hm]]; [done|by eapply Hok].
  - intros b c m1 m2 H1 H2 Heq.
    apply lookup_insert_Some in H1 as [[<- <-]|[_ H1]];
      apply lookup_insert_Some in H2 as [[<- <-]|[_ H2]]; try done.
    + by destruct (Hnew _ _ H2).
    + by destruct (Hnew _ _ H1).
    + by eapply Hg.
  - cbn. lia.
Qed.

(** Removing a node: its predecessor, if any, is linked past it. *)
Lemma linked_splice h h' q x rest n nq pre : ∀ p,
  linked h p (pre ++ q :: x :: rest) → NoDup (pre ++ q :: x :: rest) →
  h !! x = Some n → h !! q = Some nq →
  (∀ a, a ≠ q → a ≠ x → h' !! a = h !! a) →
  h' !! q = Some (nq <| next := next n |>) →
  linked h' p (pre ++ q :: rest).
Proof.
  induction pre as [|a pre IH]; intros p Hl Hnd Hx Hq Hother Hq'; cbn in Hl, Hnd |- *.
  - destruct Hl as (-> & Hq0 & m & Hm & Hmx & Hx0 & m' & Hm' & Hl).
    rewrite Hq in Hm. injection Hm as <-. rewrite Hx in Hm'. injection Hm' as <-.
    split; [done|]. split; [done|]. eexists. split; [exact Hq'|]. cbn.
    apply NoDup_cons in Hnd as [Hq1 [Hx1 _]%NoDup_cons].
    eapply linked_ext; [|exact Hl]. intros b m Hb Hm. exists m. split; [|done].
    rewrite Hother; [done|..]; intros ->; [apply Hq1; by right|done].
  - destruct Hl as (-> & Ha & m & Hm & Hl). apply NoDup_cons in Hnd as [Ha1 Hnd].
    split; [done|]. split; [done|]. exists m. split; [|by eapply IH].
    rewrite Hother; [done|..]; intros ->; apply Ha1, elem_of_app; right; [by left|].
    right. by left.
Qed.

(** The data of a node, without its link. *)
Definition data (n : ChildNode) : ChildNode := n <| next := 0 |>.

Lemma node_ok_data n n' : data n' = data n → node_ok n → node_ok n'.
Proof. destruct n, n'. cbn. intros [= -> -> -> -> -> -> -> ->] [? ? ? ?]. by constructor. Qed.

Lemma guid_data n n' : data n' = data n → guid n' = guid n.
Proof. destruct n, n'. by intros [=]. Qed.

(** A heap with one node gone and the others' data unchanged. *)
Record removed (h h' : gmap Z ChildNode) (x : Z) : Prop := {
  removed_gone : h' !! x = None;
  removed_data : ∀ a, a ≠ x → data <$> h' !! a = data <$> h !! a;
}.

Lemma list_ok_removed h h' p p' pre x rest :
  list_ok h p (pre ++ x :: rest) → removed h h' x → linked h' p' (pre ++ rest) →
  list_ok h' p' (pre ++ rest).
Proof.
  intros [Hl Hnd Hdom Hok Hg Hsm] [Hgone Hdata] Hl'.
  assert (∀ a n', h' !! a = Some n' → ∃ n, h !! a = Some n ∧ data n' = data n ∧ a ≠ x) as Hback.
  { intros a n' Ha. destruct (decide (a = x)) as [->|Hne]; [by simplify_eq|].
    specialize (Hdata a Hne). rewrite Ha in Hdata. destruct (h !! a) as [n|]; [|done].
    apply (inj Some) in Hdata. by exists n. }
  apply NoDup_app in Hnd as (Hnd1 & Hdisj & [Hx Hnd2]%NoDup_cons).
  constructor; [done|..].
  - apply NoDup_app. split; [done|]. split; [|done]. intros a Ha Hr.
    apply (Hdisj a Ha). by right.
  - intros a. destruct (decide (a = x)) as [->|Hne].
    + rewrite Hgone. split; [by intros [? ?]|]. intros [Ha|Ha]%elem_of_app; [|done].
      exfalso. apply (Hdisj x Ha). by left.
    + specialize (Hdata a Hne). transitivity (is_Some (h !! a)).
      { rewrite <- (fmap_is_Some data (h' !! a)), Hdata. by rewrite fmap_is_Some. }
      rewrite Hdom, !elem_of_app, elem_of_cons. naive_solver.
  - intros a n' (n & Ha & Hd & _)%Hback. eapply node_ok_data; [exact Hd|by eapply Hok].
  - intros a b n' m' (n & Ha & Hd1 & _)%Hback (m & Hb & Hd2 & _)%Hback Heq.
    eapply Hg; [exact Ha|exact Hb|]. by rewrite <- (guid_data _ _ Hd1), <- (guid_data _ _ Hd2).
  - rewrite length_app in Hsm |- *. cbn in Hsm. lia.
Qed.

(** ** Memory accesses *)

Section memory.
Context (e : env bus bus_ret).

Lemma wp_deref_state state b Q s w :
  box s = Some (state, b) → Q b s w → wp e (deref_state state) Q s w.
Proof.
  intros Hb HQ. unfold deref_state. wp_get. rewrite Hb, Z.eqb_refl. by apply wp_ret.
Qed.

Lemma wp_assign_state state b b' Q s w :
  box s = Some (state, b) → Q tt (s <| box := Some (state, b') |>) w →
  wp e (assign_state state b') Q s w.
Proof.
  intros Hb HQ. unfold assign_state. wp_bind. eapply wp_deref_state; [done|].
  wp_get. by apply wp_put.
Qed.

Lemma wp_read_node p n Q s w :
  heap s !! p = Some n → Q n s w → wp e (read_node p) Q s w.
Proof.
  intros Hp HQ. unfold read_node. wp_get. apply wp_from_option. by exists n.
Qed.

Lemma wp_write_node p n n' Q s w :
  heap s !! p = Some n → Q tt (s <| heap := <[p := n']> (heap s) |>) w →
  wp e (write_node p n') Q s w.
Proof.
  intros Hp HQ. unfold write_node. wp_bind. eapply wp_read_node; [done|].
  wp_get. by apply wp_put.
Qed.

Lemma wp_free_node p n Q s w :
  heap s !! p = Some n → Q tt (s <| heap := delete p (heap s) |>) w →
  wp e (free_node p) Q s w.
Proof.
  intros Hp HQ. unfold free_node. wp_bind. eapply wp_read_node; [done|].
  wp_get. by apply wp_put.
Qed.

Lemma wp_store_bytes offset bytes Q s w :
  0 ≤ offset → offset + len bytes ≤ len (buffer s) →
  (∀ pre old post, buffer s = pre ++ old ++ post → len pre = offset → len old = len bytes →
     Q tt (s <| buffer := pre ++ bytes ++ post |>) w) →
  wp e (store_bytes offset bytes) Q s w.
Proof.
  intros Ho Hl HQ. destruct (write_bytes_total (buffer s) offset bytes Ho Hl)
    as (pre & old & post & Hb & Hpre & Hold & Hw).
  unfold store_bytes. wp_get. wp_opt (pre ++ bytes ++ post); [done|].
  apply wp_put. by eapply HQ.
Qed.

(** ** Walking the list *)

Lemma wp_find_loop g Q s w : ∀ fuel p l,
  linked (heap s) p l → (length l < fuel)%nat →
  (∀ r, (r = 0 ∧ (∀ a n, a ∈ l → heap s !! a = Some n → guid n ≠ g)) ∨
        (∃ n, r ∈ l ∧ r ≠ 0 ∧ heap s !! r = Some n ∧ guid n = g) → Q r s w) →
  wp e (find_loop fuel p g) Q s w.
Proof.
  induction fuel as [|fuel IH]; intros p l Hl Hf HQ; [lia|]. cbn [find_loop].
  destruct l as [|a l].
  - cbn in Hl. subst p. apply wp_ret, HQ. left. split; [done|].
    by intros ? ? ?%not_elem_of_nil.
  - destruct Hl as (-> & Ha & n & Hn & Hl). rewrite (proj2 (Z.eqb_neq a 0)) by done.
    wp_bind. eapply wp_read_node; [exact Hn|].
    destruct (guid_equal (guid n) g) eqn:Hg.
    + apply guid_equal_spec in Hg. apply wp_ret, HQ. right. exists n.
      split; [by left|done].
    + eapply IH; [exact Hl|cbn in Hf; lia|]. intros r Hr. apply HQ.
      destruct Hr as [[-> Hno]|(m & Hr & Hr0 & Hm & Hmg)]; [left|right].
      * split; [done|]. intros b m [->|Hb]%elem_of_cons Hm; [|by eapply Hno].
        simplify_eq. intros Heq. apply guid_equal_spec in Heq. congruence.
      * exists m. split; [by right|done].
Qed.

(** What [find_child] returns: null when no child has this GUID, or the child. *)
Definition found (h : gmap Z ChildNode) (g : GUID) (r : Z) : Prop :=
  (r = 0 ∧ ∀ a n, h !! a = Some n → guid n ≠ g) ∨
  (r ≠ 0 ∧ ∃ n, h !! r = Some n ∧ guid n = g).

Lemma wp_find_child state g Q s w :
  bus_inv state s → (∀ r, found (heap s) g r → Q r s w) → wp e (find_child state g) Q s w.
Proof.
  intros (b & l & Hb & Hst & Hl & Hctx) HQ. unfold find_child.
  wp_bind. eapply wp_deref_state; [exact Hb|]. wp_get.
  eapply wp_find_loop; [apply (list_linked _ _ _ Hl)|rewrite (list_ok_size _ _ _ Hl); lia|].
  intros r [[-> Hno]|(n & _ & Hr & Hn & Hg)]; apply HQ; [left|right].
  - split; [done|]. intros a n Hn. eapply Hno; [|exact Hn]. apply (list_dom _ _ _ Hl). by eexists.
  - split; [done|]. by exists n.
Qed.

(** The link the loop is at, after the nodes [pre]. *)
Definition link_after (pre : list Z) (l : link) : Prop :=
  match l with LinkHead => pre = [] | LinkNext q => ∃ pre', pre = pre' ++ [q] end.

Lemma linked_at h pre x rest : ∀ p,
  linked h p (pre ++ x :: rest) → linked h x (x :: rest).
Proof.
  induction pre as [|a pre IH]; intros p Hl.
  - destruct Hl as (-> & Hl). by split.
  - destruct Hl as (_ & _ & n & _ & Hl). by eapply IH.
Qed.

Lemma linked_next h q rest : ∀ p pre n,
  linked h p (pre ++ q :: rest) → h !! q = Some n → linked h (next n) rest.
Proof.
  intros p pre n Hl Hq. apply linked_at in Hl. destruct Hl as (_ & _ & m & Hm & Hl).
  by simplify_eq.
Qed.

Lemma wp_read_link state b p pre rest l Q s w :
  box s = Some (state, b) → children b = p → linked (heap s) p (pre ++ rest) → link_after pre l →
  Q (match rest with x :: _ => x | [] => 0 end) s w → wp e (read_link state l) Q s w.
Proof.
  intros Hb Hp Hl Hlink HQ. destruct l as [|q]; cbn in *.
  - subst pre. wp_bind. eapply wp_deref_state; [exact Hb|]. apply wp_ret. rewrite Hp.
    destruct rest as [|x rest]; cbn in Hl; [by rewrite Hl|]. by destruct Hl as [-> _].
  - destruct Hlink as [pre' ->]. rewrite <- app_assoc in Hl. cbn in Hl.
    pose proof (linked_at _ _ _ _ _ Hl) as (_ & _ & n & Hn & Hr).
    wp_bind. eapply wp_read_node; [exact Hn|]. apply wp_ret.
    destruct rest as [|x rest]; cbn in Hr; [by rewrite Hr|]. by destruct Hr as [-> _].
Qed.

(** Unlinking [x], found behind the link. *)
Lemma wp_unlink state b l0 pre x rest l Q s w :
  box s = Some (state, b) → state ≠ 0 → list_ok (heap s) (children b) (pre ++ x :: rest) →
  link_after pre l → contexts_ok state s →
  l0 = pre ++ x :: rest →
  (∀ s', bus_inv state s' → removed (heap s) (heap s') x → evolves s s' → Q tt s' w) →
  wp e (n ← read_node x; write_link state l (next n);; free_node x) Q s w.
Proof.
  intros Hb Hst Hok Hlink Hctx -> HQ. pose proof (list_linked _ _ _ Hok) as Hl.
  pose proof (list_nodup _ _ _ Hok) as Hnd.
  pose proof (linked_at _ _ _ _ _ Hl) as (_ & Hx0 & n & Hn & Hr).
  wp_bind. eapply wp_read_node; [exact Hn|]. wp_bind. destruct l as [|q]; cbn [write_link link_after] in *.
  - subst pre. wp_bind. eapply wp_deref_state; [exact Hb|].
    eapply wp_assign_state; [exact Hb|]. eapply wp_free_node; [exact Hn|].
    assert (removed (heap s) (delete x (heap s)) x) as Hrem.
    { constructor; [apply lookup_delete_eq|]. intros a Ha. by rewrite lookup_delete_ne. }
    match goal with |- Q _ ?s' _ => assert (bus_inv state s') as Hinv end.
    2: { apply HQ; [exact Hinv|exact Hrem|by eapply evolves_own]. }
    eexists _, rest. cbn. split; [done|]. split; [done|].
    split; [|done]. apply (list_ok_removed (heap s) _ _ _ [] x rest Hok Hrem).
    eapply linked_ext; [|exact Hr]. intros a m Ha Hm. exists m. split; [|done].
    rewrite lookup_delete_ne; [done|]. intros <-. apply NoDup_cons in Hnd. tauto.
  - destruct Hlink as [pre' ->]. rewrite <- app_assoc in Hl, Hnd, Hok. cbn in Hl, Hnd, Hok.
    pose proof (linked_at _ _ _ _ _ Hl) as (_ & Hq0 & nq & Hnq & _).
    assert (q ≠ x) as Hqx.
    { intros ->. apply NoDup_app in Hnd as (_ & _ & Hnd%NoDup_cons).
      destruct Hnd as [Hnd _]. apply Hnd. by left. }
    wp_bind. eapply wp_read_node; [exact Hnq|]. eapply wp_write_node; [exact Hnq|].
    eapply wp_free_node; [cbn; rewrite lookup_insert_ne by done; exact Hn|].
    set (h' := delete x _).
    assert (h' !! q = Some (nq <| next := next n |>)) as Hq'.
    { unfold h'. cbn. rewrite lookup_delete_ne by done. by rewrite lookup_insert_eq. }
    assert (∀ a, a ≠ q → a ≠ x → h' !! a = heap s !! a) as Hother.
    { intros a Haq Hax. unfold h'. cbn. rewrite lookup_delete_ne by done.
      by rewrite lookup_insert_ne. }
    assert (removed (heap s) h' x) as Hrem.
    { constructor; [apply lookup_delete_eq|]. intros a Ha.
      destruct (decide (a = q)) as [->|Haq]; [by rewrite Hq', Hnq|by rewrite Hother]. }
    match goal with |- Q _ ?s' _ => assert (bus_inv state s') as Hinv end.
    2: { apply HQ; [exact Hinv|exact Hrem|by eapply evolves_own]. }
    eexists _, (pre' ++ q :: rest). cbn. split; [exact Hb|]. split; [done|]. split; [|done].
    replace (pre' ++ q :: rest) with ((pre' ++ [q]) ++ rest) by (by rewrite <- app_assoc).
    apply (list_ok_removed (heap s) _ (children b) _ (pre' ++ [q]) x rest);
      [by rewrite <- app_assoc|exact Hrem|].
    rewrite <- app_assoc. by eapply linked_splice.
Qed.

(** [reclaim_child] removes exactly the node it is given. *)
Lemma wp_reclaim_loop state b x Q s w : ∀ fuel pre l post,
  box s = Some (state, b) → state ≠ 0 → list_ok (heap s) (children b) (pre ++ post) →
  contexts_ok state s →
  link_after pre l → (length post < fuel)%nat → x ∈ post →
  (∀ s', bus_inv state s' → removed (heap s) (heap s') x → evolves s s' → Q tt s' w) →
  wp e (reclaim_loop fuel state l x) Q s w.
Proof.
  induction fuel as [|fuel IH]; intros pre l post Hb Hst Hok Hctx Hlink Hf Hx HQ; [lia|].
  cbn [reclaim_loop]. destruct post as [|y post]; [by apply not_elem_of_nil in Hx|].
  pose proof (list_linked _ _ _ Hok) as Hl. wp_bind.
  eapply wp_read_link; [exact Hb|done|exact Hl|exact Hlink|].
  pose proof (linked_at _ _ _ _ _ Hl) as (_ & Hy0 & _).
  rewrite (proj2 (Z.eqb_neq y 0)) by done. destruct (Z.eqb_spec y x) as [->|Hne].
  - by eapply wp_unlink.
  - apply (IH (pre ++ [y]) (LinkNext y) post); try done.
    + by rewrite <- app_assoc.
    + by exists pre.
    + cbn in Hf. lia.
    + apply elem_of_cons in Hx as [->|Hx]; done.
Qed.

Lemma wp_reclaim_child state x n Q s w :
  bus_inv state s → heap s !! x = Some n →
  (∀ s', bus_inv state s' → removed (heap s) (heap s') x → evolves s s' → Q tt s' w) →
  wp e (reclaim_child state x) Q s w.
Proof.
  intros (b & l & Hb & Hst & Hok & Hctx) Hx HQ. unfold reclaim_child. wp_get.
  apply (wp_reclaim_loop state b x Q s w _ [] LinkHead l); try done.
  - rewrite (list_ok_size _ _ _ Hok). lia.
  - apply (list_dom _ _ _ Hok). by eexists.
Qed.

End memory.

(** ** The helpers *)

(** Calls that complete no request and respect the locking discipline. *)
Record silent (w w' : world bus_ret) : Prop := {
  silent_extends : ∃ l, w' = l ++ w;
  silent_infos : ∀ q, infos q w' = infos q w;
  silent_disciplined : disciplined w = true → disciplined w' = true;
}.

Lemma silent_refl w : silent w w.
Proof. constructor; [by exists []|done|done]. Qed.

Lemma silent_trans w1 w2 w3 : silent w1 w2 → silent w2 w3 → silent w1 w3.
Proof.
  intros [[l1 ->] A1 A2] [[l2 ->] B1 B2]. constructor; [exists (l2 ++ l1); by rewrite app_assoc| |by auto].
  intros q. by rewrite B1.
Qed.

(** One call that completes no request and keeps to the discipline. *)
Lemma silent_call w c x :
  (∀ q, infos q (existT c x :: w) = infos q w) → (disciplined w = true → disciplined (existT c x :: w) = true) →
  silent w (existT c x :: w).
Proof. intros Hi Hd. constructor; [by exists [existT c x]|done|done]. Qed.

Lemma called_now w c x : called w (existT c x :: w) c x.
Proof. exists [existT c x]. split; [done|by left]. Qed.

Lemma called_before w0 w w' c x : silent w0 w → called w w' c x → called w0 w' c x.
Proof.
  intros [[l0 ->] _ _] (l & -> & Hl). exists (l ++ l0). split; [by rewrite app_assoc|].
  apply elem_of_app. by left.
Qed.

Lemma called_after w w1 w2 c x : called w w1 c x → (∃ l, w2 = l ++ w1) → called w w2 c x.
Proof.
  intros (l & -> & Hl) [l2 ->]. exists (l2 ++ l). split; [by rewrite app_assoc|]. apply elem_of_app. by right.
Qed.
#[export] Hint Resolve silent_refl evolves_refl : core.

(** Changing a node's data keeps the registry invariant. *)
Lemma inv_update state s a n n' :
  bus_inv state s → heap s !! a = Some n → node_ok n' → guid n' = guid n → next n' = next n →
  bus_inv state (s <| heap := <[a := n']> (heap s) |>) ∧
  evolves s (s <| heap := <[a := n']> (heap s) |>).
Proof.
  intros (b & l & Hb & Hst & Hok & Hctx) Ha Hn Hg Hnext.
  assert (bus_inv state (s <| heap := <[a := n']> (heap s) |>)) as Hinv.
  { exists b, l. split; [done|]. split; [done|]. split; [by eapply list_ok_update|done]. }
  split; [done|]. by eapply (evolves_own state b b).
Qed.

Lemma inv_node state s a n : bus_inv state s → heap s !! a = Some n → node_ok n.
Proof. intros (b & l & _ & _ & Hok & _). apply (list_nodes _ _ _ Hok). Qed.

(** The updates the driver makes to a node. *)
Lemma node_ok_status n l t :
  node_ok n → 0 ≤ l ≤ 4 → fits_i32 t → node_ok (n <| lifecycle := l |> <| terminal_status := t |>).
Proof.
  intros [(H1 & H2 & H3 & H4 & H5 & H6 & H7 & H8 & H9) Hv Hl Hm] Hl' Ht. constructor; cbn; try done.
  unfold record_words; cbn in *. split_and!; try done.
  unfold fits. change (2 ^ 32) with 4294967296. lia.
Qed.

Section helpers.
Context (e : env bus bus_ret) (Hresp : respects bus_contract e) (state : Z).

Lemma wp_exact c Q s w :
  Q (e w c s).1 (e w c s).2 (existT c (e w c s).1 :: w) → wp e (do_call c) Q s w.
Proof. intros HQ. by do 3 eexists. Qed.

(** A call made without the lock. *)
Lemma wp_other c Q s w :
  held w = false →
  (∀ r s', others e s s' → answer_ok c s r s' → Q r s' (existT c r :: w)) →
  wp e (do_call c) Q s w.
Proof.
  intros Hh HQ. apply wp_exact, HQ; [by apply others_call|]. apply (Hresp w c s).
Qed.

Ltac wp_alone :=
  lazymatch goal with
  | |- wp e (do_call ?c) ?Q ?s ?w => refine (wp_other c Q s w _ _); [done|]
  end.

(** Why the lock was not to be had. *)
Definition no_lock (s : bus) (w w' : world bus_ret) : Prop :=
  (∃ b, box s = Some (state, b) ∧ lock b = 0) ∨ refused_call w w' STATUS_DEVICE_NOT_READY.

Lemma called_mono w0 w w1 w2 c x :
  silent w0 w → (∃ l, w2 = l ++ w1) → called w w1 c x → called w0 w2 c x.
Proof. intros Hs Hl Hc. eapply called_after; [|exact Hl]. by eapply called_before. Qed.

Lemma refused_call_mono w0 w w1 w2 status :
  silent w0 w → (∃ l, w2 = l ++ w1) → refused_call w w1 status → refused_call w0 w2 status.
Proof. intros Hs Hl (c & x & Hc & Hx). exists c, x. split; [|done]. by eapply called_mono. Qed.

Lemma no_lock_mono s w0 w w1 w2 :
  silent w0 w → (∃ l, w2 = l ++ w1) → no_lock s w w1 → no_lock s w0 w2.
Proof.
  intros Hs Hl [Hn|Hr]; [by left|right]. by eapply refused_call_mono.
Qed.

Lemma wp_acquire Q s w :
  bus_inv state s → held w = false →
  (∀ g s' w', bus_inv state s' → others e s s' → silent w w' → held w' = g →
     (g = false → no_lock s w w') → Q g s' w') →
  wp e (BusStateGuard_acquire state) Q s w.
Proof.
  intros Hinv Hheld HQ. pose proof Hinv as (b & l & Hb & Hst & Hok & Hctx).
  unfold BusStateGuard_acquire. rewrite (proj2 (Z.eqb_neq state 0)) by done.
  wp_bind. eapply wp_deref_state; [exact Hb|].
  destruct (Z.eqb_spec (lock b) 0).
  { apply wp_ret. apply HQ; [done|constructor|done|done|]. intros _. left. by exists b. }
  wp_bind. wp_alone. intros r s' Ho _. apply wp_ret. apply HQ.
  - by apply (evolves_inv _ _ (others_evolves _ _ _ Hresp Ho)).
  - done.
  - apply silent_call; [done|]. cbn. by rewrite Hheld.
  - cbn. rewrite Hheld. by rewrite orb_false_r.
  - intros Hr. right. eexists _, r. split; [apply called_now|]. cbn. by rewrite Hr.
Qed.

Lemma wp_release Q s w :
  bus_inv state s → held w = true →
  (∀ w', silent w w' → held w' = false → Q tt s w') →
  wp e (BusStateGuard_drop state) Q s w.
Proof.
  intros (b & l & Hb & _) Hheld HQ. unfold BusStateGuard_drop.
  wp_bind. eapply wp_deref_state; [exact Hb|].
  wp_do bus_contract Hresp. intros r s' [Hev _].
  rewrite Hheld in Hev. subst s'. destruct r. apply HQ; [|done].
  apply silent_call; [done|]. cbn. by rewrite Hheld.
Qed.

(** What a helper that takes and releases the lock guarantees. *)
Definition section_post (s : bus) (w : world bus_ret) (s' : bus) (w' : world bus_ret) : Prop :=
  bus_inv state s' ∧ evolves s s' ∧ silent w w' ∧ held w' = false.

Lemma section_post_trans s w s1 w1 s2 w2 :
  evolves s s1 → silent w w1 → section_post s1 w1 s2 w2 → section_post s w s2 w2.
Proof.
  intros He Hs (Hinv & He' & Hs' & Hh). split; [done|].
  split; [by eapply evolves_trans|]. split; [by eapply silent_trans|done].
Qed.

(** The children of the registry by their GUIDs. *)
Definition child (s : bus) (g : GUID) (a : Z) (n : ChildNode) : Prop :=
  heap s !! a = Some n ∧ guid n = g.

Definition childless (s : bus) (g : GUID) : Prop := ∀ a n, heap s !! a = Some n → guid n ≠ g.

Definition set_child (a : Z) (n : ChildNode) (s : bus) : bus := s <| heap := <[a := n]> (heap s) |>.

(** The child of [g], if any, has failed with [status]. *)
Definition failed (g : GUID) (status : Z) (s s' : bus) : Prop :=
  (childless s g ∧ s' = s) ∨
  ∃ a n, child s g a n ∧
    s' = set_child a (n <| lifecycle := LIFECYCLE_FAILED |> <| terminal_status := status |>) s.

(** Other threads came first, then the child was marked, unless the lock was not
    to be had. *)
Definition marked (g : GUID) (status : Z) (s : bus) (w : world bus_ret) (s' : bus) (w' : world bus_ret) : Prop :=
  ∃ s1, others e s s1 ∧ (no_lock s w w' ∧ s' = s1 ∨ failed g status s1 s').

Lemma marked_mono g status s w0 w s' w1 w2 :
  silent w0 w → (∃ l, w2 = l ++ w1) → marked g status s w s' w1 → marked g status s w0 s' w2.
Proof.
  intros Hs Hl (s1 & Ho & Hm). exists s1. split; [done|]. destruct Hm as [[Hn ->]|Hm]; [left|by right].
  split; [by eapply no_lock_mono|done].
Qed.

Lemma wp_mark_child_failure g status s w :
  bus_inv state s → held w = false → fits_i32 status →
  wp e (mark_child_failure state g status) (λ _ s' w', section_post s w s' w' ∧ marked g status s w s' w') s w.
Proof.
  intros Hinv Hheld Hst. unfold mark_child_failure. wp_bind.
  apply wp_acquire; [done|done|]. intros g1 s1 w1 Hinv1 Ho1 Hs1 Hh1 Hn1.
  pose proof (others_evolves _ _ _ Hresp Ho1) as He1. destruct g1; cbn [negb].
  2: { apply wp_ret. split; [by split|]. exists s1. split; [done|left; auto]. }
  wp_bind. eapply wp_find_child; [exact Hinv1|]. intros r Hr. wp_bind.
  assert (∀ s2, bus_inv state s2 → evolves s1 s2 → failed g status s1 s2 →
    wp e (BusStateGuard_drop state) (λ _ s' w', section_post s w s' w' ∧ marked g status s w s' w') s2 w1) as Hexit.
  { intros s2 Hinv2 He2 Hf. apply wp_release; [done|done|]. intros w2 Hs2 Hh2. split; [|exists s1; auto].
    split; [done|]. split; [by eapply evolves_trans|]. split; [by eapply silent_trans|done]. }
  destruct Hr as [[-> Hno]|(Hr & n & Hn & Hg)].
  - apply wp_ret. apply Hexit; [done..|by left].
  - rewrite (proj2 (Z.eqb_neq r 0)) by done. wp_bind. eapply wp_read_node; [exact Hn|].
    eapply wp_write_node; [exact Hn|]. pose proof (inv_node _ _ _ _ Hinv1 Hn) as Hnok.
    edestruct (inv_update state s1 r n) as [Hinv2 He2];
      [done|done|by apply (node_ok_status n LIFECYCLE_FAILED status)|done|done|].
    apply Hexit; [done..|]. right. by exists r, n.
Qed.

(** The child of [g] is freed if it is being removed and has no device. *)
Definition reclaimed (g : GUID) (s s' : bus) : Prop :=
  (childless s g ∧ s' = s) ∨
  ∃ a n, child s g a n ∧
    if (lifecycle n =? LIFECYCLE_REMOVING) && (pdo n =? 0)
    then removed (heap s) (heap s') a ∧ evolves s s' else s' = s.

Definition cleared (g : GUID) (s : bus) (w : world bus_ret) (s' : bus) (w' : world bus_ret) : Prop :=
  ∃ s1, others e s s1 ∧ (no_lock s w w' ∧ s' = s1 ∨ reclaimed g s1 s').

Lemma cleared_mono g s w0 w s' w1 w2 :
  silent w0 w → (∃ l, w2 = l ++ w1) → cleared g s w s' w1 → cleared g s w0 s' w2.
Proof.
  intros Hs Hl (s1 & Ho & Hm). exists s1. split; [done|]. destruct Hm as [[Hn ->]|Hm]; [left|by right].
  split; [by eapply no_lock_mono|done].
Qed.

Lemma wp_reclaim_removed g s w :
  bus_inv state s → held w = false →
  wp e (reclaim_removed_child_without_pdo state g) (λ _ s' w', section_post s w s' w' ∧ cleared g s w s' w') s w.
Proof.
  intros Hinv Hheld. unfold reclaim_removed_child_without_pdo. wp_bind.
  apply wp_acquire; [done|done|]. intros g1 s1 w1 Hinv1 Ho1 Hs1 Hh1 Hn1.
  pose proof (others_evolves _ _ _ Hresp Ho1) as He1. destruct g1; cbn [negb].
  2: { apply wp_ret. split; [by split|]. exists s1. split; [done|left; auto]. }
  wp_bind. eapply wp_find_child; [exact Hinv1|]. intros r Hr. wp_bind.
  assert (∀ s2, bus_inv state s2 → evolves s1 s2 → reclaimed g s1 s2 →
    wp e (BusStateGuard_drop state) (λ _ s' w', section_post s w s' w' ∧ cleared g s w s' w') s2 w1) as Hexit.
  { intros s2 Hinv2 He2 Hf. apply wp_release; [done|done|]. intros w2 Hs2 Hh2. split; [|exists s1; auto].
    split; [done|]. split; [by eapply evolves_trans|]. split; [by eapply silent_trans|done]. }
  destruct Hr as [[-> Hno]|(Hr & n & Hn & Hg)].
  - apply wp_ret. apply Hexit; [done..|by left].
  - rewrite (proj2 (Z.eqb_neq r 0)) by done. wp_bind. eapply wp_read_node; [exact Hn|].
    destruct ((lifecycle n =? LIFECYCLE_REMOVING) && (pdo n =? 0)) eqn:Hgone.
    + eapply wp_reclaim_child; [done|done|]. intros s2 Hinv2 Hrem He2. apply Hexit; [done..|].
      right. exists r, n. split; [done|]. by rewrite Hgone.
    + apply wp_ret. apply Hexit; [done..|]. right. exists r, n. split; [done|]. by rewrite Hgone.
Qed.

(** A child whose device is there becomes active when it is looked at. *)
Definition promoted (n : ChildNode) : ChildNode :=
  if (lifecycle n =? LIFECYCLE_CREATING) && negb (pdo n =? 0)
  then n <| lifecycle := LIFECYCLE_ACTIVE |> <| terminal_status := STATUS_SUCCESS |> else n.

(** The registry's answer about a GUID. *)
Definition snapshot (g : GUID) (s : bus) (outcome : Z * ManagerRecord) (s' : bus) : Prop :=
  (childless s g ∧ outcome = (STATUS_SUCCESS, absent_record g STATUS_SUCCESS 0) ∧ s' = s) ∨
  ∃ a n, child s g a n ∧ outcome = (terminal_status (promoted n), record_of (promoted n)) ∧
    s' = set_child a (promoted n) s.

Definition recorded (g : GUID) (s : bus) (w : world bus_ret) (outcome : Z * ManagerRecord) (s' : bus)
    (w' : world bus_ret) : Prop :=
  ∃ s1, others e s s1 ∧
    (no_lock s w w' ∧ outcome = (STATUS_DEVICE_NOT_READY, empty_record) ∧ s' = s1 ∨ snapshot g s1 outcome s').

Lemma recorded_mono g s w0 w outcome s' w1 w2 :
  silent w0 w → (∃ l, w2 = l ++ w1) → recorded g s w outcome s' w1 → recorded g s w0 outcome s' w2.
Proof.
  intros Hs Hl (s1 & Ho & Hm). exists s1. split; [done|]. destruct Hm as [(Hn & Ho2 & ->)|Hm]; [left|by right].
  split; [by eapply no_lock_mono|done].
Qed.

Lemma wp_child_record_for g s w :
  bus_inv state s → held w = false →
  wp e (child_record_for state g) (λ outcome s' w',
    section_post s w s' w' ∧ recorded g s w outcome s' w') s w.
Proof.
  intros Hinv Hheld. unfold child_record_for. wp_bind.
  apply wp_acquire; [done|done|]. intros g1 s1 w1 Hinv1 Ho1 Hs1 Hh1 Hn1.
  pose proof (others_evolves _ _ _ Hresp Ho1) as He1. destruct g1; cbn [negb].
  2: { apply wp_ret. split; [by split|]. exists s1. split; [done|left; auto]. }
  wp_bind. eapply wp_find_child; [exact Hinv1|]. intros r Hr. wp_bind.
  assert (∀ s2 outcome, bus_inv state s2 → evolves s1 s2 → snapshot g s1 outcome s2 →
    wp e (BusStateGuard_drop state;; mret outcome) (λ outcome s' w',
      section_post s w s' w' ∧ recorded g s w outcome s' w') s2 w1)
    as Hexit.
  { intros s2 outcome Hinv2 He2 Hsnap. wp_bind. apply wp_release; [done|done|].
    intros w2 Hs2 Hh2. apply wp_ret. split; [|exists s1; auto].
    split; [done|]. split; [by eapply evolves_trans|]. split; [by eapply silent_trans|done]. }
  destruct Hr as [[-> Hno]|(Hr & n & Hn & Hg)].
  - apply wp_ret. apply Hexit; [done|done|by left].
  - rewrite (proj2 (Z.eqb_neq r 0)) by done. wp_bind. eapply wp_read_node; [exact Hn|].
    assert (∀ s2, s2 = set_child r (promoted n) s1 → bus_inv state s2 → evolves s1 s2 →
      wp e (n ← read_node r; mret (terminal_status n, record_of n))
        (λ outcome s' w', wp e (BusStateGuard_drop state;; mret outcome) (λ outcome s' w',
           section_post s w s' w' ∧ recorded g s w outcome s' w') s' w') s2 w1) as Hread.
    { intros s2 -> Hinv2 He2. wp_bind. eapply wp_read_node; [apply lookup_insert_eq|]. apply wp_ret.
      apply Hexit; [done|done|]. right. by exists r, n. }
    wp_bind. pose proof (inv_node _ _ _ _ Hinv1 Hn) as Hnok. unfold promoted in Hread.
    destruct ((lifecycle n =? LIFECYCLE_CREATING) && negb (pdo n =? 0)) eqn:Hact.
    + eapply wp_write_node; [exact Hn|].
      set (n' := n <| lifecycle := LIFECYCLE_ACTIVE |> <| terminal_status := STATUS_SUCCESS |>).
      destruct (inv_update state s1 r n n') as [Hinv2 He2]; try done; [by apply node_ok_status|].
      by apply Hread.
    + apply wp_ret, Hread; [|done|done]. unfold set_child. rewrite insert_id by done. by destruct s1.
Qed.

(** ** Replies *)

(** A client reads the header with one record and the record. *)
Definition record_reply (b : list Z) (r : ManagerRequest) (outcome : Z * ManagerRecord) : Prop :=
  client_header b =
    {| hdr_version := MANAGER_PROTOCOL_VERSION; hdr_operation := req_operation r;
       hdr_length := one_record; hdr_request_id := req_request_id r;
       operation_status := outcome.1; record_count := 1; next_cursor := 0;
       hdr_reserved := 0 |} ∧
  client_record b 32 = outcome.2.

Definition status_reply (b : list Z) (r : ManagerRequest) (status : Z) : Prop :=
  client_header b = response_header r status 0 0.

(** The run answered this request once, and no other. *)
Definition completes (request status n : Z) (w w' : world bus_ret) : Prop :=
  (∃ l, w' = l ++ w) ∧
  infos request w' = (status, n) :: infos request w ∧
  (∀ q, q ≠ request → infos q w' = infos q w) ∧
  (disciplined w = true → disciplined w' = true).

Lemma silent_completes request status n w w1 w2 :
  silent w w1 → completes request status n w1 w2 → completes request status n w w2.
Proof.
  intros [[l1 ->] Hi Hd] ([l2 ->] & H1 & H2 & H3). split; [exists (l2 ++ l1); by rewrite app_assoc|].
  split; [by rewrite H1, Hi|]. split; [|by auto]. intros q Hq. by rewrite H2, Hi.
Qed.

Lemma completes_silent request status n w w1 w2 :
  completes request status n w w1 → silent w1 w2 → completes request status n w w2.
Proof.
  intros ([l1 ->] & H1 & H2 & H3) [[l2 ->] Hi Hd]. split; [exists (l2 ++ l1); by rewrite app_assoc|].
  split; [by rewrite Hi, H1|]. split; [|by auto]. intros q Hq. by rewrite Hi, H2.
Qed.

Lemma wp_complete_with_information request status n Q s w :
  bus_inv state s →
  (∀ s' w', bus_inv state s' → buffer s' = buffer s → (if held w then s' = s else others e s s') →
     completes request status n w w' → held w' = held w → Q tt s' w') →
  wp e (complete_with_information request status n) Q s w.
Proof.
  intros Hinv HQ. unfold complete_with_information.
  set (c := WdfRequestCompleteWithInformation request status n).
  refine (wp_exact c _ s w _). destruct (e w c s).1 eqn:Ht. clear Ht.
  destruct (Hresp w c s) as [Hev _]. apply HQ.
  - destruct (held w); [by rewrite Hev|by apply (evolves_inv _ _ Hev)].
  - destruct (held w); [by rewrite Hev|by apply (evolves_buffer _ _ Hev)].
  - destruct (held w) eqn:Hh; [done|by apply others_call].
  - split; [by exists [existT c tt]|]. split; [cbn; by rewrite Z.eqb_refl|]. split; [|done].
    intros q Hq. cbn. by rewrite (proj2 (Z.eqb_neq request q)).
  - done.
Qed.

Lemma wp_complete request status Q s w :
  bus_inv state s →
  (∀ s' w', bus_inv state s' → buffer s' = buffer s → (if held w then s' = s else others e s s') →
     completes request status 0 w w' → held w' = held w → Q tt s' w') →
  wp e (complete request status) Q s w.
Proof.
  intros Hinv HQ. unfold complete.
  set (c := WdfRequestComplete request status).
  refine (wp_exact c _ s w _). destruct (e w c s).1 eqn:Ht. clear Ht.
  destruct (Hresp w c s) as [Hev _]. apply HQ.
  - destruct (held w); [by rewrite Hev|by apply (evolves_inv _ _ Hev)].
  - destruct (held w); [by rewrite Hev|by apply (evolves_buffer _ _ Hev)].
  - destruct (held w) eqn:Hh; [done|by apply others_call].
  - split; [by exists [existT c tt]|]. split; [cbn; by rewrite Z.eqb_refl|]. split; [|done].
    intros q Hq. cbn. by rewrite (proj2 (Z.eqb_neq request q)).
  - done.
Qed.

Lemma bus_inv_buffer s b : bus_inv state s → bus_inv state (s <| buffer := b |>).
Proof. intros (b0 & l & ?). by exists b0, l. Qed.

(** A store at a known place. *)
Lemma wp_store_at offset old new pre post Q s w :
  buffer s = pre ++ old ++ post → len pre = offset → len new = len old →
  Q tt (s <| buffer := pre ++ new ++ post |>) w → wp e (store_bytes offset new) Q s w.
Proof.
  intros Hb <- Hl HQ. unfold store_bytes. wp_get. rewrite Hb, write_bytes_spec by done.
  wp_opt (pre ++ new ++ post); [done|]. by apply wp_put.
Qed.

(** The words of a request, as a client's 40 bytes hold them. *)
Record request_ok (r : ManagerRequest) : Prop := {
  request_operation : fits 16 (req_operation r);
  request_id_fits : fits 64 (req_request_id r);
  request_guid : guid_words (req_adapter_guid r);
  request_cursor : fits 32 (req_cursor r);
}.

Lemma header_ok r status count cursor :
  request_ok r → fits_i32 status → fits 32 count → fits 32 cursor →
  header_words (response_header r status count cursor).
Proof.
  intros [H1 H2 H3 H4] Hs Hc Hn. unfold header_words, response_header. cbn.
  split_and!; done || by vm_compute.
Qed.

Lemma wp_initialize_response r status count cursor Q s w :
  size_of_ManagerResponseHeader ≤ len (buffer s) →
  (∀ tl, len (buffer s) = size_of_ManagerResponseHeader + len tl →
     Q tt (s <| buffer := header_bytes (response_header r status count cursor) ++ tl |>) w) →
  wp e (initialize_response r status count cursor) Q s w.
Proof.
  intros Hl HQ. unfold initialize_response. apply wp_store_bytes; [lia|by rewrite header_bytes_len|].
  intros pre old post Hb Hpre Hold. destruct pre; [|rewrite len_cons in Hpre; pose proof (len_nonneg pre); lia].
  apply HQ. rewrite Hb. cbn. rewrite len_app, Hold, header_bytes_len. done.
Qed.

Lemma wp_set_response_length n h tl Q s w :
  buffer s = header_bytes h ++ tl →
  Q tt (s <| buffer := header_bytes {| hdr_version := hdr_version h;
      hdr_operation := hdr_operation h; hdr_length := n; hdr_request_id := hdr_request_id h;
      operation_status := operation_status h; record_count := record_count h;
      next_cursor := next_cursor h; hdr_reserved := hdr_reserved h |} ++ tl |>) w →
  wp e (set_response_length n) Q s w.
Proof.
  intros Hb HQ. unfold set_response_length, header_bytes in *. cbn in HQ.
  rewrite <- !app_assoc in Hb, HQ.
  eapply (wp_store_at 4 (le_bytes 4 (hdr_length h)) _
           (le_bytes 2 (hdr_version h) ++ le_bytes 2 (hdr_operation h))).
  - rewrite Hb. by rewrite <- !app_assoc.
  - unfold len. by rewrite length_app, !le_bytes_length.
  - unfold len. by rewrite !le_bytes_length.
  - rewrite <- !app_assoc. exact HQ.
Qed.

Definition outcome_ok (outcome : Z * ManagerRecord) : Prop :=
  fits_i32 outcome.1 ∧ record_words outcome.2 ∧ rec_padding outcome.2 = 0.

Lemma zero_guid_words : guid_words zero_guid.
Proof. unfold guid_words. vm_compute. split_and!; try done; repeat constructor; done. Qed.

Lemma zero_name_ok : length zero_name = 260%nat ∧ Forall (fits 16) zero_name.
Proof. split; [done|]. unfold zero_name. by apply Forall_replicate. Qed.

Lemma absent_record_words g status id :
  guid_words g → fits_i32 status → fits 64 id → record_words (absent_record g status id).
Proof.
  intros Hg Hs Hi. destruct zero_name_ok. unfold record_words, absent_record.
  cbn [adapter_guid rec_lifecycle rec_terminal_status rec_request_id rec_mtu
    rec_interface_length rec_padding rec_interface_name]. by split_and!.
Qed.

Lemma snapshot_ok g s outcome s' :
  bus_inv state s → bus_inv state s' → guid_words g → snapshot g s outcome s' → outcome_ok outcome.
Proof.
  intros Hinv Hinv' Hg [(_ & -> & _)|(a & n & _ & -> & ->)].
  - split; [done|]. split; [by apply absent_record_words|done].
  - pose proof (node_words _ (inv_node _ _ _ _ Hinv' (lookup_insert_eq _ _ _))) as Hw.
    split; [|split; [exact Hw|done]]. by destruct Hw as (_ & _ & Hw & _).
Qed.

Lemma not_ready_ok : outcome_ok (STATUS_DEVICE_NOT_READY, empty_record).
Proof.
  split; [done|]. split; [|done]. by apply absent_record_words; [apply zero_guid_words|..].
Qed.

(** What a completed request looks like: its information is within the output
    length, and the buffer is what the client will read. *)
Definition replied (request n : Z) (P : list Z → Prop) (s : bus) (w : world bus_ret)
    (s' : bus) (w' : world bus_ret) : Prop :=
  bus_inv state s' ∧ completes request STATUS_SUCCESS n w w' ∧ held w' = false ∧ P (buffer s') ∧
  others e (s <| buffer := buffer s' |>) s'.

Lemma wp_respond_with_status request r status s w :
  bus_inv state s → held w = true → request_ok r → fits_i32 status →
  size_of_ManagerResponseHeader ≤ len (buffer s) →
  wp e (respond_with_status request r status) (λ _ s' w',
    bus_inv state s' ∧ completes request STATUS_SUCCESS size_of_ManagerResponseHeader w w' ∧
    held w' = true ∧ status_reply (buffer s') r status ∧ s' = s <| buffer := buffer s' |>) s w.
Proof.
  intros Hinv Hh Hr Hs Hl. unfold respond_with_status. wp_bind.
  apply wp_initialize_response; [done|]. intros tl _.
  apply wp_complete_with_information; [by apply bus_inv_buffer|].
  intros s' w' Hinv' Hbuf Ho Hc Hh'. rewrite Hh in Ho. split; [done|]. split; [done|].
  split; [by rewrite Hh'|]. split; [|by rewrite Hbuf, Ho at 1]. unfold status_reply. rewrite Hbuf. cbn [buffer].
  change (buffer (s <| buffer := ?x |>)) with x.
  by apply client_header_bytes, header_ok.
Qed.

Lemma wp_respond_with_record request r outcome s w :
  bus_inv state s → held w = false → request_ok r → outcome_ok outcome →
  one_record ≤ len (buffer s) →
  wp e (respond_with_record request r outcome)
    (λ _, replied request one_record (λ b, record_reply b r outcome) s w) s w.
Proof.
  intros Hinv Hh Hr (Ho1 & Ho2 & Ho3) Hl. unfold respond_with_record, copy_record.
  unfold one_record, size_of_ManagerResponseHeader, size_of_ManagerRecord in *.
  wp_bind. apply wp_initialize_response; [unfold size_of_ManagerResponseHeader; lia|].
  intros tl Htl. unfold size_of_ManagerResponseHeader in Htl.
  set (h := response_header r outcome.1 1 0) in *.
  pose proof (header_bytes_len h) as Hhl. unfold size_of_ManagerResponseHeader in Hhl.
  destruct (write_bytes_total tl 0 (replicate (Z.to_nat 560) 0)) as (p0 & old & post & Htl' & Hp0 & Hold & _);
    [lia|unfold len at 1; rewrite length_replicate; lia|].
  destruct p0; [|rewrite len_cons in Hp0; pose proof (len_nonneg p0); lia]. cbn in Htl'. subst tl.
  assert (len (replicate (Z.to_nat 560) 0) = 560) as H560 by reflexivity.
  assert (outcome.2 <| rec_padding := 0 |> = outcome.2) as ->.
  { destruct (outcome.2) as [? ? ? ? ? ? pad ?]. cbn in *. by subst. }
  pose proof (record_bytes_len _ Ho2) as Hrl. unfold size_of_ManagerRecord in Hrl.
  wp_bind. wp_bind. eapply (wp_store_at 32 old _ (header_bytes h) post); [done|done|done|].
  eapply (wp_store_at 32 (replicate (Z.to_nat 560) 0) _ (header_bytes h) post);
    [done|done|by rewrite Hrl|].
  wp_bind. eapply wp_set_response_length; [done|].
  apply wp_complete_with_information; [by repeat apply bus_inv_buffer|].
  intros s' w' Hinv' Hbuf Ho Hc Hh'. rewrite Hh in Ho. split; [done|]. split; [done|].
  split; [by rewrite Hh'|]. split; [|by rewrite Hbuf]. unfold record_reply. rewrite Hbuf.
  change (buffer (?s <| buffer := ?x |>)) with x. split.
  - rewrite client_header_bytes; [done|]. unfold header_words. cbn.
    destruct Hr as [? ? ? ?]. split_and!; done || by vm_compute.
  - set (h' := {| hdr_version := _ |}).
    pose proof (header_bytes_len h') as Hl'. unfold size_of_ManagerResponseHeader, len in Hl'.
    rewrite client_record_skip by lia.
    replace (32 - length (header_bytes h'))%nat with 0%nat by lia.
    by apply client_record_bytes.
Qed.

(** ** The sections of create and remove *)

(** Why there is no output buffer. *)
Definition no_output (output_length minimum : Z) (w w' : world bus_ret) (status : Z) : Prop :=
  (output_length < minimum ∨ MAX_MANAGER_OUTPUT < output_length) ∧ status = STATUS_BUFFER_TOO_SMALL ∨
  refused_call w w' status.

Lemma wp_response_buffer request output_length minimum Q s w :
  bus_inv state s → held w = false →
  (∀ r s' w', bus_inv state s' → others e s s' → silent w w' → held w' = false →
     match r with
     | Ok _ => minimum ≤ output_length ≤ MAX_MANAGER_OUTPUT
     | Err status => no_output output_length minimum w w' status
     end → Q r s' w') →
  wp e (response_buffer request output_length minimum) Q s w.
Proof.
  intros Hinv Hh HQ. unfold response_buffer.
  destruct ((output_length <? minimum) || (MAX_MANAGER_OUTPUT <? output_length)) eqn:Hlen.
  { apply wp_ret. apply HQ; [done|constructor|done|done|]. left. split; [|done].
    apply orb_true_iff in Hlen as [?|?]; [left|right]; by apply Z.ltb_lt. }
  wp_bind. wp_alone. intros [status actual] s' Ho _.
  pose proof (evolves_inv _ _ (others_evolves _ _ _ Hresp Ho) _ Hinv) as Hinv'.
  assert (∀ st, refuses (WdfRequestRetrieveOutputBuffer request minimum) (status, actual) = Some st →
    no_output output_length minimum w (existT (WdfRequestRetrieveOutputBuffer request minimum)
      ((status, actual) : bus_ret (WdfRequestRetrieveOutputBuffer request minimum)) :: w) st) as Hno.
  { intros st Hst. right. exists (WdfRequestRetrieveOutputBuffer request minimum), (status, actual).
    split; [apply called_now|exact Hst]. }
  bool_reflect. cbn in Hno. destruct (negb _); [|destruct (_ || _)]; apply wp_ret, HQ; try done;
    try (by apply silent_call); first [by apply Hno|lia].
Qed.

Definition new_node (r : ManagerRequest) (m p : Z) : ChildNode :=
  {| guid := req_adapter_guid r; lifecycle := LIFECYCLE_CREATING;
     terminal_status := STATUS_PENDING; request_id := req_request_id r; mtu := m; pdo := 0;
     interface_length := 0; interface_name := zero_name; next := p |}.

Lemma new_node_ok r m p :
  request_ok r → valid_guid (req_adapter_guid r) = true → MINIMUM_MTU ≤ m ≤ MAXIMUM_MTU →
  node_ok (new_node r m p).
Proof.
  intros [H1 H2 H3 H4] Hv Hm. constructor; [|done| |done]; cbn.
  - destruct zero_name_ok. unfold record_words.
    cbn [record_of new_node adapter_guid rec_lifecycle rec_terminal_status rec_request_id rec_mtu
      rec_interface_length rec_padding rec_interface_name guid lifecycle terminal_status
      request_id mtu interface_length interface_name].
    split_and!; try done.
    unfold fits, MINIMUM_MTU, MAXIMUM_MTU in *. change (2 ^ 32) with 4294967296. lia.
  - done.
Qed.

Lemma inv_push s b a n :
  bus_inv state s → box s = Some (state, b) → a ≠ 0 → heap s !! a = None → node_ok n →
  next n = children b → (∀ c m, heap s !! c = Some m → guid m ≠ guid n) →
  Z.of_nat (size (heap s)) + 1 < 2 ^ 32 →
  let s' := s <| heap := <[a := n]> (heap s) |> <| box := Some (state, b <| children := a |>) |> in
  bus_inv state s' ∧ evolves s s'.
Proof.
  intros (b0 & l & Hb0 & Hst & Hok & Hctx) Hb Ha Hfresh Hn Hnext Hnew Hsm s'.
  rewrite (list_ok_size _ _ _ Hok) in Hsm.
  rewrite Hb in Hb0. injection Hb0 as <-.
  assert (bus_inv state s') as Hinv.
  { exists (b <| children := a |>), (a :: l). split; [done|]. split; [done|].
    split; [by eapply list_ok_push|done]. }
  split; [done|]. by eapply (evolves_own state b (b <| children := a |>)).
Qed.

(** The checks a request passed before a handler sees it. *)
Definition checked (r : ManagerRequest) : Prop :=
  request_ok r ∧ valid_guid (req_adapter_guid r) = true.

Lemma node_ok_created n r m :
  node_ok n → request_ok r → MINIMUM_MTU ≤ m ≤ MAXIMUM_MTU →
  node_ok (n <| lifecycle := LIFECYCLE_CREATING |> <| terminal_status := STATUS_PENDING |>
             <| request_id := req_request_id r |> <| mtu := m |>).
Proof.
  intros [(H1 & H2 & H3 & H4 & H5 & H6 & H7 & H8 & H9) Hv Hl Hm] [R1 R2 R3 R4] Hm'.
  constructor; cbn; try done. unfold record_words; cbn in *. split_and!; try done.
  unfold fits, MINIMUM_MTU, MAXIMUM_MTU in *. change (2 ^ 32) with 4294967296. lia.
Qed.

Lemma node_ok_removing n r :
  node_ok n → request_ok r →
  node_ok (n <| lifecycle := LIFECYCLE_REMOVING |> <| terminal_status := STATUS_PENDING |>
             <| request_id := req_request_id r |>).
Proof.
  intros [(H1 & H2 & H3 & H4 & H5 & H6 & H7 & H8 & H9) Hv Hl Hm] [R1 R2 R3 R4].
  by constructor.
Qed.

(** What a create does to the registry: the child of its GUID, which was absent,
    is labelled afresh, or a new child is put in front. *)
Definition created (r : ManagerRequest) (m : Z) (s s' : bus) : Prop :=
  (∃ a n, child s (req_adapter_guid r) a n ∧ lifecycle n = LIFECYCLE_ABSENT ∧
     s' = set_child a (n <| lifecycle := LIFECYCLE_CREATING |> <| terminal_status := STATUS_PENDING |>
                         <| request_id := req_request_id r |> <| mtu := m |>) s) ∨
  (childless s (req_adapter_guid r) ∧ ∃ a b, heap s !! a = None ∧ box s = Some (state, b) ∧
     s' = set_child a (new_node r m (children b)) s <| box := Some (state, b <| children := a |>) |>).

(** Why a create is declined under the lock. *)
Inductive create_declined (r : ManagerRequest) (s : bus) (w w' : world bus_ret) : Z → Prop :=
  | create_busy a n : child s (req_adapter_guid r) a n → lifecycle n ≠ LIFECYCLE_ABSENT →
      create_declined r s w w' STATUS_DEVICE_BUSY
  | create_exhausted : childless s (req_adapter_guid r) → called w w' AllocateChildNode 0 →
      create_declined r s w w' STATUS_INSUFFICIENT_RESOURCES.

(** A request answered under the lock with a status: the registry stays. *)
Definition declined_with (request : Z) (r : ManagerRequest) (status : Z) (s : bus) (w : world bus_ret)
    (s' : bus) (w' : world bus_ret) : Prop :=
  completes request STATUS_SUCCESS size_of_ManagerResponseHeader w w' ∧
  status_reply (buffer s') r status ∧ s' = s <| buffer := buffer s' |>.

Lemma wp_decline {A} request r status (a : A) s w Q :
  bus_inv state s → held w = true → request_ok r → fits_i32 status →
  size_of_ManagerResponseHeader ≤ len (buffer s) →
  (∀ s' w', bus_inv state s' → held w' = true → declined_with request r status s w s' w' → Q a s' w') →
  wp e (respond_with_status request r status;; mret a) Q s w.
Proof.
  intros Hinv Hh Hr Hst Hl HQ. wp_bind. eapply wp_mono; [apply wp_respond_with_status; done|].
  intros [] s' w' (Hinv' & Hc & Hh' & Hrep & Hs'). by apply wp_ret, HQ.
Qed.

Lemma wp_create_section request r m s w :
  bus_inv state s → held w = true → checked r → MINIMUM_MTU ≤ m ≤ MAXIMUM_MTU →
  size_of_ManagerResponseHeader ≤ len (buffer s) →
  wp e (create_section state request r m) (λ done s' w',
    bus_inv state s' ∧ held w' = true ∧
    if done : bool then silent w w' ∧ evolves s s' ∧ created r m s s'
    else ∃ status, declined_with request r status s w s' w' ∧ create_declined r s w w' status) s w.
Proof.
  intros Hinv Hh [Hr Hv] Hm Hl. unfold create_section. wp_bind.
  eapply wp_find_child; [exact Hinv|]. intros p Hp.
  destruct Hp as [[-> Hno]|(Hp & n & Hn & Hg)].
  - (* no such child: allocate a node *)
    wp_bind. apply wp_ret. cbn [Z.eqb negb].
    pose proof Hinv as (b & l & Hb & _).
    wp_bind. eapply wp_deref_state; [exact Hb|]. wp_bind.
    wp_do bus_contract Hresp. intros a s1 [Hs1 Hfresh]. rewrite Hh in Hs1. subst s1.
    assert (silent w (existT AllocateChildNode (a : bus_ret AllocateChildNode) :: w)) as Hsil
      by (by apply silent_call).
    destruct (Z.eqb_spec a 0) as [->|Ha].
    + apply wp_decline; [done..|]. intros s' w' Hinv' Hh' (Hc & Hrep & Hs'). split; [done|]. split; [done|].
      eexists. split; [split; [by eapply silent_completes|done]|]. apply create_exhausted; [done|].
      eapply called_after; [apply called_now|]. by destruct Hc as [? _].
    + destruct Hfresh as [?|[Hfresh Hsm]]; [done|].
      wp_get. wp_put. wp_bind. eapply wp_deref_state; [exact Hb|].
      wp_bind. eapply wp_assign_state; [exact Hb|]. apply wp_ret.
      destruct (inv_push s b a (new_node r m (children b))) as [Hinv' Hev]; try done;
        [by apply new_node_ok|].
      split; [exact Hinv'|]. split; [done|]. split; [done|]. split; [exact Hev|].
      right. split; [exact Hno|]. by exists a, b.
  - rewrite (proj2 (Z.eqb_neq p 0)) by done. wp_bind. wp_bind.
    eapply wp_read_node; [exact Hn|]. apply wp_ret.
    destruct (Z.eqb_spec (lifecycle n) LIFECYCLE_ABSENT) as [Habs|Hbusy]; cbn [negb].
    + wp_bind. eapply wp_read_node; [exact Hn|]. wp_bind. eapply wp_write_node; [exact Hn|].
      apply wp_ret. pose proof (inv_node _ _ _ _ Hinv Hn) as Hnok.
      edestruct (inv_update state s p n) as [Hinv' Hev];
        [done|done|by apply (node_ok_created n r m)|done|done|].
      split; [exact Hinv'|]. split; [done|]. split; [done|]. split; [exact Hev|]. left. by exists p, n.
    + apply wp_decline; [done..|]. intros s' w' Hinv' Hh' Hd. split; [done|]. split; [done|].
      eexists. split; [exact Hd|]. by apply (create_busy _ _ _ _ p n).
Qed.

(** What a remove does to the registry. *)
Definition removing (r : ManagerRequest) (n : ChildNode) (s s' : bus) : Prop :=
  ∃ a, child s (req_adapter_guid r) a n ∧
    (lifecycle n = LIFECYCLE_ACTIVE ∨ lifecycle n = LIFECYCLE_FAILED) ∧
    s' = set_child a (n <| lifecycle := LIFECYCLE_REMOVING |> <| terminal_status := STATUS_PENDING |>
                        <| request_id := req_request_id r |>) s.

Inductive remove_declined (r : ManagerRequest) (s : bus) : Z → Prop :=
  | remove_unknown : (∀ a n, child s (req_adapter_guid r) a n → lifecycle n = LIFECYCLE_ABSENT) →
      remove_declined r s STATUS_OBJECT_NAME_NOT_FOUND
  | remove_busy a n : child s (req_adapter_guid r) a n →
      lifecycle n = LIFECYCLE_CREATING ∨ lifecycle n = LIFECYCLE_REMOVING →
      remove_declined r s STATUS_DEVICE_BUSY.

Lemma wp_remove_section request r s w :
  bus_inv state s → held w = true → checked r →
  size_of_ManagerResponseHeader ≤ len (buffer s) →
  wp e (remove_section state request r) (λ started s' w',
    bus_inv state s' ∧ held w' = true ∧
    match started with
    | Some (without_pdo, m) => silent w w' ∧ evolves s s' ∧
        ∃ n, removing r n s s' ∧ without_pdo = (pdo n =? 0) ∧ m = mtu n
    | None => ∃ status, declined_with request r status s w s' w' ∧ remove_declined r s status
    end) s w.
Proof.
  intros Hinv Hh [Hr Hv] Hl. unfold remove_section. wp_bind.
  eapply wp_find_child; [exact Hinv|]. intros p Hp.
  assert (∀ st (Q : option (bool * Z) → bus → world bus_ret → Prop), fits_i32 st → remove_declined r s st →
    (∀ s' w', bus_inv state s' → held w' = true → declined_with request r st s w s' w' →
       remove_declined r s st → Q None s' w') →
    wp e (respond_with_status request r st;; mret None) Q s w) as Hrefuse.
  { intros st Q Hst Hd HQ. apply wp_decline; [done..|]. intros. by apply HQ. }
  destruct Hp as [[-> Hno]|(Hp & n & Hn & Hg)].
  - wp_bind. apply wp_ret. apply Hrefuse; [done| |eauto 8].
    constructor. intros a k [Hk Hkg]. by destruct (Hno a k Hk).
  - rewrite (proj2 (Z.eqb_neq p 0)) by done. wp_bind. wp_bind.
    eapply wp_read_node; [exact Hn|]. apply wp_ret.
    destruct (Z.eqb_spec (lifecycle n) LIFECYCLE_ABSENT) as [Habs|Hpresent].
    { apply Hrefuse; [done| |eauto 8]. constructor. intros a k [Hk Hkg].
      destruct Hinv as (b & l & _ & _ & Hok & _).
      assert (a = p) as -> by (eapply (list_guids _ _ _ Hok); [done|done|congruence]). by simplify_eq. }
    wp_bind. eapply wp_read_node; [exact Hn|].
    destruct ((lifecycle n =? LIFECYCLE_CREATING) || (lifecycle n =? LIFECYCLE_REMOVING)) eqn:Hbusy.
    { apply Hrefuse; [done| |eauto 8]. apply (remove_busy _ _ p n); [done|].
      apply orb_true_iff in Hbusy as [?|?]; [left|right]; by apply Z.eqb_eq. }
    wp_bind. eapply wp_write_node; [exact Hn|]. apply wp_ret.
    pose proof (inv_node _ _ _ _ Hinv Hn) as Hnok.
    edestruct (inv_update state s p n) as [Hinv' Hev];
      [done|done|by apply (node_ok_removing n r)|done|done|].
    split; [exact Hinv'|]. split; [done|]. split; [done|]. split; [exact Hev|].
    exists n. split; [|done]. exists p. split; [done|]. split; [|done].
    pose proof (node_lifecycle n Hnok). bool_reflect.
    unfold LIFECYCLE_ABSENT, LIFECYCLE_CREATING, LIFECYCLE_ACTIVE, LIFECYCLE_REMOVING,
      LIFECYCLE_FAILED in *. lia.
Qed.

(** ** Enumeration *)

Definition visible (n : ChildNode) : bool := negb (lifecycle n =? LIFECYCLE_ABSENT).

(** The children in list order, and the records of the visible ones. *)
Definition nodes_of (h : gmap Z ChildNode) (l : list Z) : list ChildNode :=
  omap (λ a, h !! a) l.

Definition visible_records (h : gmap Z ChildNode) (l : list Z) : list ManagerRecord :=
  record_of <$> filter (λ n, visible n = true) (nodes_of h l).

Definition records_bytes (rs : list ManagerRecord) : list Z := concat (record_bytes <$> rs).

Lemma records_bytes_app rs qs : records_bytes (rs ++ qs) = records_bytes rs ++ records_bytes qs.
Proof. unfold records_bytes. by rewrite fmap_app, concat_app. Qed.

Lemma records_bytes_len rs :
  Forall record_words rs → len (records_bytes rs) = 560 * len rs.
Proof.
  induction 1 as [|r rs Hr _ IH]; [done|]. unfold records_bytes in *. rewrite fmap_cons.
  cbn [concat]. rewrite len_app, len_cons, record_bytes_len, IH by done.
  unfold size_of_ManagerRecord. lia.
Qed.

(** Writing the next record of the page. *)
Lemma wp_write_record n hd rs tl Q s w :
  node_ok n → Forall record_words rs → buffer s = hd ++ records_bytes rs ++ tl →
  len hd = 32 → 560 ≤ len tl →
  (∀ tl', len tl' = len tl - 560 →
     Q tt (s <| buffer := hd ++ records_bytes (rs ++ [record_of n]) ++ tl' |>) w) →
  wp e (write_record (size_of_ManagerResponseHeader + len rs * size_of_ManagerRecord) n) Q s w.
Proof.
  intros Hn Hrs Hb Hhd Htl HQ. unfold write_record, size_of_ManagerResponseHeader, size_of_ManagerRecord.
  destruct (write_bytes_total tl 0 (replicate (Z.to_nat 560) 0))
    as (p0 & old & post & Htl' & Hp0 & Hold & _);
    [lia|change (len (replicate _ 0)) with 560; lia|].
  destruct p0; [|rewrite len_cons in Hp0; pose proof (len_nonneg p0); lia]. cbn in Htl'. subst tl.
  change (len (replicate _ 0)) with 560 in Hold. rewrite len_app in *.
  assert (len (hd ++ records_bytes rs) = 32 + len rs * 560) as Hpre
    by (rewrite len_app, records_bytes_len by done; lia).
  pose proof (record_bytes_len _ (node_words _ Hn)) as Hrl. unfold size_of_ManagerRecord in Hrl.
  wp_bind. eapply (wp_store_at _ old _ (hd ++ records_bytes rs) post);
    [by rewrite Hb, <- app_assoc|exact Hpre|done|].
  eapply (wp_store_at _ (replicate (Z.to_nat 560) 0) _ (hd ++ records_bytes rs) post);
    [done|exact Hpre|by rewrite Hrl|].
  specialize (HQ post). rewrite records_bytes_app in HQ. unfold records_bytes at 2 in HQ.
  cbn [fmap list_fmap concat] in HQ. rewrite app_nil_r in HQ.
  rewrite <- !app_assoc in HQ |- *. apply HQ. lia.
Qed.

(** The page an enumeration returns: [capacity] visible records from [cursor]. *)
Definition page (capacity cursor : Z) (rs : list ManagerRecord) : list ManagerRecord :=
  take (Z.to_nat capacity) (drop (Z.to_nat cursor) rs).

Lemma nodes_of_cons h a l n : h !! a = Some n → nodes_of h (a :: l) = n :: nodes_of h l.
Proof. intros Hn. unfold nodes_of. cbn. by rewrite Hn. Qed.

Lemma page_snoc capacity cursor rs r :
  0 ≤ cursor →
  page capacity cursor (rs ++ [r]) =
    if (cursor <=? len rs) && (len (page capacity cursor rs) <? capacity)
    then page capacity cursor rs ++ [r] else page capacity cursor rs.
Proof.
  intros Hc. unfold page, len.
  destruct (Z.leb_spec cursor (Z.of_nat (length rs))) as [Hle|Hgt]; cbn [andb].
  - rewrite drop_app_le by lia. rewrite length_take, length_drop.
    destruct (Z.ltb_spec (Z.of_nat (Z.to_nat capacity `min` (length rs - Z.to_nat cursor))) capacity).
    + rewrite !take_ge; [done|..]; rewrite ?length_app, ?length_drop; cbn; lia.
    + rewrite take_app_le; [done|]. rewrite length_drop. lia.
  - rewrite !drop_ge; [done|lia|]. rewrite length_app. cbn. lia.
Qed.

(** The walk, after [seen] nodes whose visible records are [before]. *)
Lemma wp_enumerate_loop capacity cursor Q hd w : ∀ fuel p l s before tl,
  linked (heap s) p l → (length l < fuel)%nat → 0 ≤ cursor → 0 < capacity →
  (∀ a n, heap s !! a = Some n → node_ok n) → Forall record_words before →
  len before + Z.of_nat (length l) < 2 ^ 32 → len before ≤ cursor + capacity →
  buffer s = hd ++ records_bytes (page capacity cursor before) ++ tl → len hd = 32 →
  560 * (capacity - len (page capacity cursor before)) ≤ len tl →
  (∀ all rest tl' node, before ++ visible_records (heap s) l = all ++ rest →
     (node = 0 → rest = []) → (node ≠ 0 → len (page capacity cursor all) = capacity) →
     Forall record_words all → len all ≤ cursor + capacity →
     Q (node, len all, len (page capacity cursor all))
       (s <| buffer := hd ++ records_bytes (page capacity cursor all) ++ tl' |>) w) →
  wp e (enumerate_loop fuel capacity cursor p (len before) (len (page capacity cursor before)))
    Q s w.
Proof.
  induction fuel as [|fuel IH];
    intros p l s before tl Hl Hf Hc Hcap Hok Hwords Hsmall Hbound Hbuf Hhd Htl HQ;
    [lia|].
  cbn [enumerate_loop].
  assert (s = s <| buffer := hd ++ records_bytes (page capacity cursor before) ++ tl |>) as Hs
    by (destruct s; cbn in *; by rewrite Hbuf).
  assert (len (page capacity cursor before) ≤ capacity) as Hle.
  { unfold page, len. rewrite length_take. lia. }
  assert (len (page capacity cursor before) < capacity → len before < cursor + capacity) as Hlt.
  { unfold page, len. rewrite length_take, length_drop. lia. }
  destruct l as [|a l].
  { cbn in Hl. subst p. cbn. apply wp_ret. rewrite Hs at 1.
    apply (HQ before [] tl 0); [|done..]. unfold visible_records, nodes_of. cbn. done. }
  destruct Hl as (-> & Ha & n & Hn & Hl). rewrite (proj2 (Z.eqb_neq a 0)) by done. cbn [orb].
  destruct (Z.ltb_spec (len (page capacity cursor before)) capacity) as [Hroom|Hfull]; cbn [negb].
  2: { apply wp_ret. rewrite Hs at 1. apply (HQ before (visible_records (heap s) (a :: l)) tl a); [done|done|lia|done|done]. }
  wp_bind. eapply wp_read_node; [exact Hn|].
  assert (visible_records (heap s) (a :: l) =
    (if visible n then [record_of n] else []) ++ visible_records (heap s) l) as Hvis.
  { unfold visible_records. rewrite (nodes_of_cons _ _ _ _ Hn), filter_cons.
    destruct (visible n) eqn:Hv; [by rewrite decide_True|by rewrite decide_False]. }
  cbn [length] in Hf, Hsmall. change (negb (lifecycle n =? LIFECYCLE_ABSENT)) with (visible n).
  wp_bind. destruct (visible n) eqn:Hv; cbn [andb].
  - pose proof (node_words _ (Hok _ _ Hn)) as Hnw.
    pose proof (page_snoc capacity cursor before (record_of n) Hc) as Hpage.
    rewrite (proj2 (Z.ltb_lt (len (page capacity cursor before)) capacity)), andb_true_r in Hpage by done.
    assert (saturating_add 32 (len before) 1 = len (before ++ [record_of n])) as ->.
    { unfold saturating_add. rewrite len_app. change (len [record_of n]) with 1. lia. }
    assert (Forall record_words (before ++ [record_of n])) as Hwords'
      by (apply Forall_app; split; [done|by apply Forall_singleton]).
    assert (len (before ++ [record_of n]) + Z.of_nat (length l) < 2 ^ 32) as Hsmall'
      by (rewrite len_app; change (len [record_of n]) with 1; lia).
    destruct (Z.leb_spec cursor (len before)) as [Hin|Hout].
    + wp_bind. eapply (wp_write_record n hd (page capacity cursor before) tl);
        [by eapply Hok|by apply Forall_take, Forall_drop|exact Hbuf|exact Hhd|lia|].
      intros tl' Htl'. apply wp_ret. rewrite <- Hpage.
      assert (len (page capacity cursor before) + 1 =
              len (page capacity cursor (before ++ [record_of n]))) as ->
        by (rewrite Hpage, len_app; done).
      eapply (IH _ l _ (before ++ [record_of n]) tl'); try done.
      * lia.
      * rewrite len_app. change (len [record_of n]) with 1. lia.
      * rewrite Hpage, len_app. change (len [record_of n]) with 1. lia.
      * intros all rest tl2 node Heq. rewrite <- app_assoc in Heq. apply HQ. by rewrite Hvis.
    + apply wp_ret. rewrite <- Hpage.
      eapply (IH _ l s (before ++ [record_of n]) tl); try done.
      * lia.
      * rewrite len_app. change (len [record_of n]) with 1. lia.
      * by rewrite Hpage.
      * by rewrite Hpage.
      * intros all rest tl2 node Heq. rewrite <- app_assoc in Heq. apply HQ. by rewrite Hvis.
  - apply wp_ret. eapply (IH _ l s before tl); try done; [lia|lia|].
    intros all rest tl2 node Heq. apply HQ. by rewrite Hvis.
Qed.

(** ** The requests *)

(** A client reads a page: the header counts the records, and record [i] is at
    its offset. *)
Definition page_reply (b : list Z) (r : ManagerRequest) (rs : list ManagerRecord) (cursor : Z) :
    Prop :=
  client_header b =
    {| hdr_version := MANAGER_PROTOCOL_VERSION; hdr_operation := req_operation r;
       hdr_length := 32 + 560 * len rs; hdr_request_id := req_request_id r;
       operation_status := STATUS_SUCCESS; record_count := len rs; next_cursor := cursor;
       hdr_reserved := 0 |} ∧
  ∀ i x, rs !! i = Some x → client_record b (32 + 560 * i) = x.

(** The visible children of a registry, in list order. *)
Definition registry (s : bus) (rs : list ManagerRecord) : Prop :=
  ∃ b l, box s = Some (state, b) ∧ list_ok (heap s) (children b) l ∧
    rs = visible_records (heap s) l.

(** The end of a create, a remove and a query: the child's record is looked up,
    other threads may come in between, and the client reads the record. *)
Definition reported (r : ManagerRequest) (s : bus) (w : world bus_ret) (s' : bus) (w' : world bus_ret) : Prop :=
  ∃ outcome s1, recorded (req_adapter_guid r) s w outcome s1 w' ∧ record_reply (buffer s') r outcome ∧
    others e (s1 <| buffer := buffer s' |>) s'.

(** What became of the valid request [r] from [s] to [s'], and the number of
    bytes of its reply: what other threads did before, the step under the lock,
    what they did after it, the framework's answer, and so on. *)
Inductive served (r : ManagerRequest) (output_length : Z) (s : bus) (w : world bus_ret) (s' : bus)
    (w' : world bus_ret) : Z → Prop :=
  | served_declined s1 status :
      others e s s1 →
      (req_operation r = MANAGER_OPERATION_CREATE ∧ create_declined r s1 w w' status ∨
       req_operation r = MANAGER_OPERATION_REMOVE ∧ remove_declined r s1 status) →
      status_reply (buffer s') r status → s' = s1 <| buffer := buffer s' |> →
      served r output_length s w s' w' size_of_ManagerResponseHeader
  | served_create m s1 s2 s3 s4 b status :
      req_operation r = MANAGER_OPERATION_CREATE → effective_mtu (requested_mtu r) = Ok m →
      others e s s1 → created r m s1 s2 → others e s2 s3 → box s2 = Some (state, b) →
      called w w' (WdfChildListAddOrUpdateChildDescriptionAsPresent (child_list b)
                     (make_identification (req_adapter_guid r) m)) status →
      (if negb (status =? STATUS_SUCCESS) then marked (req_adapter_guid r) status s3 w s4 w' else s4 = s3) →
      reported r s4 w s' w' → served r output_length s w s' w' one_record
  | served_remove n s1 s2 s3 s4 b status :
      req_operation r = MANAGER_OPERATION_REMOVE →
      others e s s1 → removing r n s1 s2 → others e s2 s3 → box s2 = Some (state, b) →
      called w w' (WdfChildListUpdateChildDescriptionAsMissing (child_list b)
                     (make_identification (req_adapter_guid r) (mtu n))) status →
      (if negb (status =? STATUS_SUCCESS) then marked (req_adapter_guid r) status s3 w s4 w'
       else if pdo n =? 0 then cleared (req_adapter_guid r) s3 w s4 w' else s4 = s3) →
      reported r s4 w s' w' → served r output_length s w s' w' one_record
  | served_query :
      req_operation r = MANAGER_OPERATION_QUERY →
      reported r s w s' w' → served r output_length s w s' w' one_record
  | served_enumerate s1 all cursor :
      req_operation r = MANAGER_OPERATION_ENUMERATE → others e s s1 → registry s1 all →
      let capacity := (output_length - 32) / 560 in
      let rs := page capacity (req_cursor r) all in
      page_reply (buffer s') r rs cursor →
      (cursor = 0 ∧ drop (Z.to_nat (req_cursor r + capacity)) all = [] ∨
       cursor = req_cursor r + capacity ∧ len rs = capacity) →
      s' = s1 <| buffer := buffer s' |> → served r output_length s w s' w' (32 + 560 * len rs).

(** Why a valid request failed, with its status. *)
Inductive unserved (r : ManagerRequest) (output_length : Z) (s : bus) (w w' : world bus_ret) : Z → Prop :=
  | unserved_mtu status :
      req_operation r = MANAGER_OPERATION_CREATE → effective_mtu (requested_mtu r) = Err status →
      unserved r output_length s w w' status
  | unserved_output : output_length < one_record ∨ MAX_MANAGER_OUTPUT < output_length →
      unserved r output_length s w w' STATUS_BUFFER_TOO_SMALL
  | unserved_lock b : box s = Some (state, b) → lock b = 0 →
      unserved r output_length s w w' STATUS_DEVICE_NOT_READY
  | unserved_call status : refused_call w w' status → unserved r output_length s w w' status.

(** The handler ran to its end: the registry is intact, the lock is free, this
    request and no other was completed, once, within the output length. *)
Definition handled (request output_length : Z) (r : ManagerRequest) (s : bus) (w : world bus_ret)
    (s' : bus) (w' : world bus_ret) : Prop :=
  bus_inv state s' ∧ held w' = false ∧
  ∃ status n, completes request status n w w' ∧ 0 ≤ n ≤ output_length ∧
    (n = 0 ∧ unserved r output_length s w w' status ∨
     status = STATUS_SUCCESS ∧ one_record ≤ output_length ≤ MAX_MANAGER_OUTPUT ∧
     served r output_length s w s' w' n).

Lemma reported_mono r s w0 w s' w1 w2 :
  silent w0 w → (∃ l, w2 = l ++ w1) → reported r s w s' w1 → reported r s w0 s' w2.
Proof.
  intros Hs Hl (outcome & s1 & Hr & H). exists outcome, s1. split; [|exact H]. by eapply recorded_mono.
Qed.

Lemma lock_same s s' b : others e s s' → box s' = Some (state, b) → bus_inv state s → lock b = 0 →
  ∃ b', box s = Some (state, b') ∧ lock b' = 0.
Proof.
  intros Ho Hb (b0 & l & Hb0 & _) Hlk. exists b0. split; [done|].
  destruct (evolves_box _ _ (others_evolves _ _ _ Hresp Ho) _ _ Hb0) as (b1 & Hb1 & Hl1 & _). congruence.
Qed.

(** What other threads did before the handler started. *)
Lemma served_before r output_length s0 s w0 w s' w' n :
  bus_inv state s0 → others e s0 s → silent w0 w → served r output_length s w s' w' n → served r output_length s0 w0 s' w' n.
Proof.
  intros Hinv Ho Hs H.
  assert (∃ l : world bus_ret, w' = l ++ w') as Hl by (by exists []).
  destruct H as [s1 status H1 Hd Hrep Hs'|m s1 s2 s3 s4 b status Hop Hm H1 Hc H3 Hb Hcall Hst Hr
    |n s1 s2 s3 s4 b status Hop H1 Hc H3 Hb Hcall Hst Hr|Hop Hr|s1 all cursor Hop H1 Hreg cap rs Hrep Hcur Hs'].
  - eapply served_declined; [by eapply others_trans| |done|done].
    destruct Hd as [[Hop Hd]|Hd]; [left|by right]. split; [done|].
    destruct Hd as [a k Hk Hb|Hno Hcall]; [by eapply create_busy|by apply create_exhausted; [|eapply called_mono]].
  - eapply (served_create _ _ _ _ _ _ m s1 s2 s3 s4 b status); try done;
      [by eapply others_trans|by eapply called_mono| |by eapply reported_mono].
    destruct (negb _); [by eapply marked_mono|done].
  - eapply (served_remove _ _ _ _ _ _ n s1 s2 s3 s4 b status); try done;
      [by eapply others_trans|by eapply called_mono| |by eapply reported_mono].
    destruct (negb _); [by eapply marked_mono|]. destruct (_ =? 0); [by eapply cleared_mono|done].
  - apply served_query; [done|]. destruct Hr as (outcome & s1 & (s2 & H2 & Hx) & Hrest).
    exists outcome, s1. split; [|exact Hrest].
    exists s2. split; [by eapply others_trans|]. destruct Hx as [(Hn & Hx)|Hx]; [left|by right].
    split; [|done]. destruct Hn as [(b & Hb & Hlk)|Hn]; [left|right; by eapply refused_call_mono].
    by eapply lock_same.
  - by eapply served_enumerate; [|eapply others_trans|..].
Qed.

Lemma unserved_before r output_length s0 s w0 w w1 w2 status :
  bus_inv state s0 → others e s0 s → silent w0 w → (∃ l, w2 = l ++ w1) →
  unserved r output_length s w w1 status → unserved r output_length s0 w0 w2 status.
Proof.
  intros Hinv Ho Hs Hl [st Hop Hm|H|b Hb Hlk|st H].
  - by apply unserved_mtu.
  - by apply unserved_output.
  - destruct (lock_same _ _ _ Ho Hb Hinv Hlk) as (b' & Hb' & Hlk'). by eapply unserved_lock.
  - apply unserved_call. by eapply refused_call_mono.
Qed.

Lemma unserved_no_lock r output_length s0 s w0 w w' :
  bus_inv state s0 → others e s0 s → silent w0 w → no_lock s w w' →
  unserved r output_length s0 w0 w' STATUS_DEVICE_NOT_READY.
Proof.
  intros Hinv Ho Hs Hn. assert (∃ l : world bus_ret, w' = l ++ w') as Hl by (by exists []).
  eapply unserved_before; [exact Hinv|exact Ho|exact Hs|exact Hl|].
  destruct Hn as [(b & Hb & Hlk)|Hn]; [by eapply unserved_lock|by apply unserved_call].
Qed.

Lemma unserved_no_output r output_length s w w' status :
  no_output output_length one_record w w' status → unserved r output_length s w w' status.
Proof. intros [[H ->]|H]; [by apply unserved_output|by apply unserved_call]. Qed.

Lemma silent_ext w w' : silent w w' → ∃ l, w' = l ++ w.
Proof. by intros []. Qed.

Lemma wp_failed request output_length r status s0 w0 s w :
  bus_inv state s → held w = false → silent w0 w → 0 ≤ output_length →
  unserved r output_length s0 w0 w status →
  wp e (complete request status) (λ _, handled request output_length r s0 w0) s w.
Proof.
  intros Hinv Hh Hs Hl Hu. apply wp_complete; [done|]. intros s' w' Hinv' _ _ Hc Hh'.
  split; [done|]. split; [by rewrite Hh'|]. exists status, 0.
  split; [by eapply silent_completes|]. split; [lia|]. left. split; [done|].
  destruct Hu as [st Hop Hm|H|b Hb Hlk|st (c & x & H & Hx)];
    [by apply unserved_mtu|by apply unserved_output|by eapply unserved_lock|].
  apply unserved_call. exists c, x. split; [|done]. eapply called_after; [exact H|]. by destruct Hc.
Qed.

(** The shared end of create, remove and query; [s0] and [w0] are where the
    handler started. *)
Lemma wp_report request output_length r s0 w0 s w :
  bus_inv state s → held w = false → silent w0 w → request_ok r →
  one_record ≤ output_length ≤ MAX_MANAGER_OUTPUT → output_length ≤ len (buffer s) →
  (∀ s' w', (∃ l, w' = l ++ w) → reported r s w0 s' w' → served r output_length s0 w0 s' w' one_record) →
  wp e (outcome ← child_record_for state (req_adapter_guid r);
        respond_with_record request r outcome)
    (λ _, handled request output_length r s0 w0) s w.
Proof.
  intros Hinv Hh Hs Hr Ho Hb Hserved. wp_bind. eapply wp_mono; [by apply wp_child_record_for|].
  intros outcome s1 w1 [(Hinv1 & He1 & Hs1 & Hh1) Hout].
  assert (outcome_ok outcome) as Hok.
  { destruct Hout as (s2 & Ho2 & [(_ & -> & _)|Hsnap]); [apply not_ready_ok|].
    eapply snapshot_ok; [|exact Hinv1|apply Hr|exact Hsnap].
    exact (evolves_inv _ _ (others_evolves _ _ _ Hresp Ho2) _ Hinv). }
  eapply wp_mono.
  { apply wp_respond_with_record; try done. rewrite (evolves_buffer _ _ He1). lia. }
  intros [] s2 w2 (Hinv2 & Hc & Hh2 & Hrep & Ho2). split; [done|]. split; [done|].
  exists STATUS_SUCCESS, one_record. split; [eapply silent_completes; [|exact Hc]; by eapply silent_trans|].
  split; [unfold one_record, size_of_ManagerResponseHeader, size_of_ManagerRecord in *; lia|].
  right. split; [done|]. split; [done|]. destruct Hc as ([l2 ->] & _). apply Hserved.
  { destruct (silent_ext _ _ Hs1) as [l1 ->]. exists (l2 ++ l1). by rewrite app_assoc. }
  exists outcome, s1. split; [|done]. eapply recorded_mono; [exact Hs| |exact Hout]. by eexists.
Qed.

Lemma effective_mtu_range req m : effective_mtu req = Ok m → MINIMUM_MTU ≤ m ≤ MAXIMUM_MTU.
Proof.
  unfold effective_mtu, MINIMUM_MTU, MAXIMUM_MTU, DEFAULT_MTU. intros H.
  repeat split_if_in H; [|..|done]; injection H as <-; [lia|]. bool_reflect. lia.
Qed.

(** A section that completed the request itself, then released the lock. *)
Lemma wp_section_exit request output_length r status s0 w0 s1 s w :
  bus_inv state s → held w = true →
  completes request STATUS_SUCCESS size_of_ManagerResponseHeader w0 w →
  one_record ≤ output_length ≤ MAX_MANAGER_OUTPUT → others e s0 s1 → status_reply (buffer s) r status → s = s1 <| buffer := buffer s |> →
  (∀ w', (∃ l, w' = l ++ w) →
     req_operation r = MANAGER_OPERATION_CREATE ∧ create_declined r s1 w0 w' status ∨
     req_operation r = MANAGER_OPERATION_REMOVE ∧ remove_declined r s1 status) →
  wp e (BusStateGuard_drop state) (λ _, handled request output_length r s0 w0) s w.
Proof.
  intros Hinv Hh Hc Ho Hs1 Hrep Hs Hd. apply wp_release; [done|done|]. intros w' Hs' Hh'.
  split; [done|]. split; [done|]. do 2 eexists. split; [by eapply completes_silent|].
  unfold one_record, size_of_ManagerResponseHeader, size_of_ManagerRecord in *.
  split; [lia|]. right. split; [done|]. split; [done|]. eapply served_declined; [exact Hs1|apply Hd; by apply silent_ext|done|done].
Qed.

Lemma unlocked_call (c : bus_call) (x : bus_ret c) w :
  held w = false →
  match c with
  | WdfWaitLockAcquire _ | WdfWaitLockRelease _ | WdfRequestComplete _ _
  | WdfRequestCompleteWithInformation _ _ _ => False
  | _ => True
  end → silent w (existT c x :: w) ∧ held (existT c x :: w) = false.
Proof.
  intros Hh Hc. destruct c; try done; (split; [apply silent_call; cbn; [done|]; by rewrite ?Hh|done]).
Qed.

(** What create and remove do first: an output buffer and the lock, or the
    request fails. *)
Lemma wp_enter request output_length r (body : BM unit) s w :
  bus_inv state s → held w = false → 0 ≤ output_length ≤ len (buffer s) →
  (∀ s1 w1, bus_inv state s1 → others e s s1 → silent w w1 → held w1 = true →
     one_record ≤ output_length ≤ MAX_MANAGER_OUTPUT → len (buffer s1) = len (buffer s) →
     wp e body (λ _, handled request output_length r s w) s1 w1) →
  wp e (output ← response_buffer request output_length one_record;
        match output with
        | Err status => complete request status
        | Ok _ =>
            guard ← BusStateGuard_acquire state;
            if negb guard then complete request STATUS_DEVICE_NOT_READY else body
        end) (λ _, handled request output_length r s w) s w.
Proof.
  intros Hinv Hh Hb Hbody. wp_bind. apply wp_response_buffer; [done|done|].
  intros out s1 w1 Hinv1 Ho1 Hs1 Hh1 Hout. destruct out as [[]|status].
  2: { apply wp_failed; [done|done|done|lia|by apply unserved_no_output]. }
  wp_bind. apply wp_acquire; [done|done|]. intros g s2 w2 Hinv2 Ho2 Hs2 Hh2 Hn.
  pose proof (others_trans _ _ _ _ Ho1 Ho2) as Ho. pose proof (silent_trans _ _ _ Hs1 Hs2) as Hs.
  destruct g; cbn [negb].
  - apply Hbody; try done. by rewrite (evolves_buffer _ _ (others_evolves _ _ _ Hresp Ho)).
  - apply wp_failed; [done|done|done|lia|]. eapply unserved_no_lock; [exact Hinv|exact Ho1|exact Hs1|by apply Hn].
Qed.

Lemma wp_manager_create request r output_length s w :
  bus_inv state s → held w = false → checked r → req_operation r = MANAGER_OPERATION_CREATE →
  0 ≤ output_length ≤ len (buffer s) →
  wp e (manager_create state request r output_length)
    (λ _, handled request output_length r s w) s w.
Proof.
  intros Hinv Hh Hr Hop Hb. pose proof Hr as [Hrok _]. unfold manager_create.
  destruct (effective_mtu (requested_mtu r)) as [m|status] eqn:Hmtu.
  2: { apply wp_failed; [done|done|done|lia|by apply unserved_mtu]. }
  pose proof (effective_mtu_range _ _ Hmtu) as Hm. apply wp_enter; [done..|].
  intros s2 w2 Hinv2 Ho2 Hs2 Hh2 Hone Hl2. wp_bind. eapply wp_mono.
  { apply wp_create_section; try done. rewrite Hl2.
    unfold one_record, size_of_ManagerResponseHeader, size_of_ManagerRecord in *. lia. }
  intros done s3 w3 (Hinv3 & Hh3 & Hpost). destruct done.
  2: { destruct Hpost as (status & (Hc & Hrep & Hs3) & Hd). wp_bind. eapply wp_mono.
       { eapply (wp_section_exit request output_length r status s w s2); try done; [by eapply silent_completes|].
         intros w' Hw'. left. split; [done|].
         destruct Hd as [a k Hk Hbusy|Hno Hcall]; [by eapply create_busy|].
         apply create_exhausted; [done|]. by eapply called_mono. }
       intros [] s4 w4 H4. cbn [negb]. by apply wp_ret. }
  destruct Hpost as (Hs3 & He3 & Hcreated). wp_bind. apply wp_release; [done|done|].
  intros w4 Hs4 Hh4. cbn [negb]. pose proof Hinv3 as (b & l & Hb3 & _).
  wp_bind. eapply wp_deref_state; [exact Hb3|]. wp_bind. wp_alone. intros status s5 Ho5 Hst. cbn in status, Hst.
  pose proof (others_evolves _ _ _ Hresp Ho5) as He5. pose proof (evolves_inv _ _ He5 _ Hinv3) as Hinv5.
  set (c := WdfChildListAddOrUpdateChildDescriptionAsPresent _ _) in *.
  pose proof (called_now w4 c status) as Hcall. destruct (unlocked_call c status w4 Hh4 I) as [Hs5 Hh5].
  set (w5 := existT c status :: w4) in *.
  assert (len (buffer s5) = len (buffer s)) as Hl5
    by (by rewrite (evolves_buffer _ _ He5), (evolves_buffer _ _ He3), Hl2).
  assert (silent w w4) as Hs04 by (do 2 (eapply silent_trans; [eassumption|]); done).
  assert (silent w w5) as Hs05 by (by eapply silent_trans).
  wp_bind. assert (∀ s6 w6, section_post s5 w5 s6 w6 →
    (if negb (status =? STATUS_SUCCESS) then marked (req_adapter_guid r) status s5 w5 s6 w6 else s6 = s5) →
    wp e (outcome ← child_record_for state (req_adapter_guid r);
          respond_with_record request r outcome)
      (λ _, handled request output_length r s w) s6 w6) as Hreport.
  { intros s6 w6 (Hinv6 & He6 & Hs6 & Hh6) Hmark. apply wp_report; try done.
    - by eapply silent_trans.
    - rewrite (evolves_buffer _ _ He6). lia.
    - intros s' w' Hw' Hrep. destruct (silent_ext _ _ Hs6) as [l6 ->].
      eapply (served_create _ _ _ _ _ _ m s2 s3 s5 s6 b status); try done.
      + eapply called_mono; [exact Hs04| |exact Hcall]. destruct Hw' as [l' ->]. exists (l' ++ l6). by rewrite app_assoc.
      + destruct (negb _); [|done]. by eapply marked_mono. }
  destruct (negb (status =? STATUS_SUCCESS)).
  - eapply wp_mono; [by apply wp_mark_child_failure|]. intros [] s6 w6 [H6 Hm6]. by apply Hreport.
  - apply wp_ret, Hreport; [by split_and!|done].
Qed.

Lemma wp_manager_remove request r output_length s w :
  bus_inv state s → held w = false → checked r → req_operation r = MANAGER_OPERATION_REMOVE →
  0 ≤ output_length ≤ len (buffer s) →
  wp e (manager_remove state request r output_length)
    (λ _, handled request output_length r s w) s w.
Proof.
  intros Hinv Hh Hr Hop Hb. pose proof Hr as [Hrok _]. unfold manager_remove. apply wp_enter; [done..|].
  intros s2 w2 Hinv2 Ho2 Hs2 Hh2 Hone Hl2. wp_bind. eapply wp_mono.
  { apply wp_remove_section; try done. rewrite Hl2.
    unfold one_record, size_of_ManagerResponseHeader, size_of_ManagerRecord in *. lia. }
  intros started s3 w3 (Hinv3 & Hh3 & Hpost). destruct started as [[without_pdo m]|].
  2: { destruct Hpost as (status & (Hc & Hrep & Hs3) & Hd). wp_bind. eapply wp_mono.
       { eapply (wp_section_exit request output_length r status s w s2); try done; [by eapply silent_completes|].
         intros w' Hw'. by right. }
       intros [] s4 w4 H4. by apply wp_ret. }
  destruct Hpost as (Hs3 & He3 & n & Hrem & -> & ->). wp_bind. apply wp_release; [done|done|].
  intros w4 Hs4 Hh4. pose proof Hinv3 as (b & l & Hb3 & _).
  wp_bind. eapply wp_deref_state; [exact Hb3|]. wp_bind. wp_alone. intros status s5 Ho5 Hst. cbn in status, Hst.
  pose proof (others_evolves _ _ _ Hresp Ho5) as He5. pose proof (evolves_inv _ _ He5 _ Hinv3) as Hinv5.
  set (c := WdfChildListUpdateChildDescriptionAsMissing _ _) in *.
  pose proof (called_now w4 c status) as Hcall. destruct (unlocked_call c status w4 Hh4 I) as [Hs5 Hh5].
  set (w5 := existT c status :: w4) in *.
  assert (len (buffer s5) = len (buffer s)) as Hl5
    by (by rewrite (evolves_buffer _ _ He5), (evolves_buffer _ _ He3), Hl2).
  assert (silent w w4) as Hs04 by (do 2 (eapply silent_trans; [eassumption|]); done).
  assert (silent w w5) as Hs05 by (by eapply silent_trans).
  wp_bind. assert (∀ s6 w6, section_post s5 w5 s6 w6 →
    (if negb (status =? STATUS_SUCCESS) then marked (req_adapter_guid r) status s5 w5 s6 w6
     else if pdo n =? 0 then cleared (req_adapter_guid r) s5 w5 s6 w6 else s6 = s5) →
    wp e (outcome ← child_record_for state (req_adapter_guid r);
          respond_with_record request r outcome)
      (λ _, handled request output_length r s w) s6 w6) as Hreport.
  { intros s6 w6 (Hinv6 & He6 & Hs6 & Hh6) Hmark. apply wp_report; try done.
    - by eapply silent_trans.
    - rewrite (evolves_buffer _ _ He6). lia.
    - intros s' w' Hw' Hrep. destruct (silent_ext _ _ Hs6) as [l6 ->].
      eapply (served_remove _ _ _ _ _ _ n s2 s3 s5 s6 b status); try done.
      + eapply called_mono; [exact Hs04| |exact Hcall]. destruct Hw' as [l' ->]. exists (l' ++ l6). by rewrite app_assoc.
      + destruct (negb _); [by eapply marked_mono|]. destruct (pdo n =? 0); [by eapply cleared_mono|done]. }
  destruct (negb (status =? STATUS_SUCCESS)); [|destruct (pdo n =? 0)].
  - eapply wp_mono; [by apply wp_mark_child_failure|]. intros [] s6 w6 [H6 Hm6]. by apply Hreport.
  - eapply wp_mono; [by apply wp_reclaim_removed|]. intros [] s6 w6 [H6 Hm6]. by apply Hreport.
  - apply wp_ret, Hreport; [by split_and!|done].
Qed.

Lemma wp_manager_query request r output_length s w :
  bus_inv state s → held w = false → checked r → req_operation r = MANAGER_OPERATION_QUERY →
  0 ≤ output_length ≤ len (buffer s) →
  wp e (manager_query state request r output_length)
    (λ _, handled request output_length r s w) s w.
Proof.
  intros Hinv Hh [Hr _] Hop Hb. unfold manager_query.
  wp_bind. apply wp_response_buffer; [done|done|]. intros out s1 w1 Hinv1 Ho1 Hs1 Hh1 Hout.
  destruct out as [[]|status].
  2: { apply wp_failed; [done|done|done|lia|by apply unserved_no_output]. }
  apply wp_report; try done.
  { rewrite (evolves_buffer _ _ (others_evolves _ _ _ Hresp Ho1)). lia. }
  intros s' w' Hw' Hrep. eapply served_before; [exact Hinv|exact Ho1|apply silent_refl|].
  by apply served_query.
Qed.

Lemma registry_words s all : bus_inv state s → registry s all → Forall record_words all.
Proof.
  intros Hinv (b & l & _ & _ & ->). unfold visible_records. apply Forall_fmap, Forall_forall.
  intros n [_ Hn]%list_elem_of_filter. unfold nodes_of in Hn.
  apply list_elem_of_omap in Hn as (a & _ & Ha). cbn.
  by apply node_words, (inv_node _ _ _ _ Hinv Ha).
Qed.

(** Record [i] of a page, as the client reads it. *)
Lemma client_record_at h rs tl i x :
  Forall record_words rs → rs !! i = Some x →
  client_record (header_bytes h ++ records_bytes rs ++ tl) (32 + 560 * i) = x.
Proof.
  intros Hrs Hi. pose proof (header_bytes_len h) as Hl. unfold size_of_ManagerResponseHeader, len in Hl.
  rewrite client_record_skip by lia.
  replace (32 + 560 * i - length (header_bytes h))%nat with (560 * i)%nat by lia.
  revert i Hi. induction Hrs as [|y rs Hy _ IH]; intros i Hi; [done|].
  unfold records_bytes in *. rewrite fmap_cons. cbn [concat]. rewrite <- app_assoc.
  destruct i as [|i].
  - injection Hi as <-. rewrite Nat.mul_0_r. by apply client_record_bytes.
  - pose proof (record_bytes_len _ Hy) as Hyl. unfold size_of_ManagerRecord, len in Hyl.
    rewrite client_record_skip by lia.
    replace (560 * S i - length (record_bytes y))%nat with (560 * i)%nat by lia. by apply IH.
Qed.

(** The full page is already in the part of the list the walk has seen. *)
Lemma page_app capacity cursor all rest :
  0 ≤ cursor → 0 ≤ capacity → rest = [] ∨ len (page capacity cursor all) = capacity →
  page capacity cursor (all ++ rest) = page capacity cursor all.
Proof.
  intros Hc Hcap [->|Hfull]; [by rewrite app_nil_r|]. unfold page, len in *.
  rewrite length_take, length_drop in Hfull.
  destruct (decide (capacity = 0)) as [->|Hne]; [done|].
  rewrite drop_app_le by lia. rewrite take_app_le; [done|]. rewrite length_drop. lia.
Qed.

(** The reply written around the records of a page. *)
Lemma wp_enumerate_reply request r output_length s0 w0 s1 hd all rs tl cursor n s w :
  req_operation r = MANAGER_OPERATION_ENUMERATE → others e s0 s1 → s = s1 <| buffer := buffer s |> →
  bus_inv state s → held w = true → silent w0 w → request_ok r → fits 32 cursor →
  buffer s = hd ++ records_bytes rs ++ tl → len hd = 32 →
  rs = page ((output_length - 32) / 560) (req_cursor r) all → registry s1 all →
  n = 32 + 560 * len rs → n ≤ output_length → one_record ≤ output_length ≤ MAX_MANAGER_OUTPUT →
  (cursor = 0 ∧ drop (Z.to_nat (req_cursor r + (output_length - 32) / 560)) all = [] ∨
   cursor = req_cursor r + (output_length - 32) / 560 ∧ len rs = (output_length - 32) / 560) →
  wp e (initialize_response r STATUS_SUCCESS (wrap 32 (len rs)) cursor;;
        set_response_length (wrap 32 n);;
        complete_with_information request STATUS_SUCCESS n;;
        BusStateGuard_drop state)
    (λ _, handled request output_length r s0 w0) s w.
Proof.
  intros Hop Ho1 Hs1 Hinv Hh Hs Hr Hcur Hbuf Hhd Hrs Hreg -> Hn [Hone Hmax] Hnext.
  unfold MAX_MANAGER_OUTPUT in Hmax. change (64 * 1024) with 65536 in Hmax. assert (registry s all) as Hreg' by (rewrite Hs1; exact Hreg).
  pose proof (len_nonneg rs). pose proof (registry_words _ _ Hinv Hreg') as Hall.
  assert (Forall record_words rs) as Hrsw by (subst rs; by apply Forall_take, Forall_drop).
  assert (fits 32 (len rs) ∧ fits 32 (32 + 560 * len rs)) as [Hf1 Hf2].
  { unfold fits. change (2 ^ 32) with 4294967296. lia. }
  rewrite !wrap_small by done. set (h := response_header r STATUS_SUCCESS (len rs) cursor).
  wp_bind. unfold initialize_response. fold h.
  eapply (wp_store_at 0 hd _ [] (records_bytes rs ++ tl)); [done|done|by rewrite header_bytes_len|].
  wp_bind. eapply wp_set_response_length; [done|].
  wp_bind. apply wp_complete_with_information; [by repeat apply bus_inv_buffer|].
  intros s' w' Hinv' Hb' Ho Hc Hh'. rewrite Hh in Ho. apply wp_release; [done|by rewrite Hh'|].
  intros w2 Hs2 Hh2. split; [done|]. split; [done|]. exists STATUS_SUCCESS, (32 + 560 * len rs).
  split; [eapply completes_silent; [eapply silent_completes; [exact Hs|exact Hc]|exact Hs2]|].
  split; [lia|]. right. split; [done|]. split; [done|]. subst rs.
  eapply served_enumerate; [exact Hop|exact Ho1|exact Hreg| |exact Hnext|by rewrite Ho; rewrite Hs1 at 1].
  rewrite Hb'. change (buffer (?s <| buffer := ?x |>)) with x.
  split; [|intros i x Hi; by apply client_record_at].
  rewrite client_header_bytes; [done|]. destruct Hr as [? ? ? ?].
  unfold header_words. cbn. split_and!; done || by vm_compute.
Qed.

Lemma visible_records_len h l : (length (visible_records h l) ≤ length l)%nat.
Proof.
  unfold visible_records. rewrite length_fmap.
  etransitivity; [apply length_filter|]. unfold nodes_of.
  induction l as [|a l IH]; [done|]. cbn. destruct (h !! a); cbn; lia.
Qed.

Lemma wp_enumerate_start capacity cursor hd tl all Q s w p l :
  linked (heap s) p l → 0 ≤ cursor → 0 < capacity →
  (∀ a n, heap s !! a = Some n → node_ok n) → Z.of_nat (length l) < 2 ^ 32 →
  buffer s = hd ++ tl → len hd = 32 → 560 * capacity ≤ len tl →
  all = visible_records (heap s) l →
  (∀ tl' node index, let rs := page capacity cursor all in fits 32 index →
     (node = 0 ∧ drop (Z.to_nat (cursor + capacity)) all = [] ∨
      node ≠ 0 ∧ index = cursor + capacity ∧ len rs = capacity) →
     Q (node, index, len rs) (s <| buffer := hd ++ records_bytes rs ++ tl' |>) w) →
  wp e (enumerate_loop (S (length l)) capacity cursor p 0 0) Q s w.
Proof.
  intros Hl Hc Hcap Hok Hsm Hbuf Hhd Htl -> HQ.
  assert (page capacity cursor [] = []) as Hp1 by (unfold page; by rewrite drop_nil, take_nil).
  assert (len (page capacity cursor []) = 0) as H0 by (by rewrite Hp1).
  rewrite <- H0 at 2. change 0 with (len (@nil ManagerRecord)) at 1.
  assert (len (@nil ManagerRecord) = 0) as Hnil by done.
  eapply (wp_enumerate_loop capacity cursor Q hd w _ p l s [] tl);
    rewrite ?Hp1, ?Hnil; try done; try lia.
  intros before rest tl' node Hall Hend Hfull Hwords Hbound. cbn in Hall.
  assert (rest = [] ∨ len (page capacity cursor before) = capacity) as Hor.
  { destruct (decide (node = 0)); [left; auto|right; by apply Hfull]. }
  pose proof (page_app capacity cursor before rest Hc ltac:(lia) Hor) as Hpage.
  rewrite <- Hpage, <- Hall. apply HQ.
  { pose proof (visible_records_len (heap s) l) as Hv. rewrite Hall, length_app in Hv.
    unfold fits, len. lia. }
  cbn zeta. rewrite Hall, Hpage.
  destruct (decide (node = 0)) as [->|Hne]; [left|right].
  - rewrite Hend by done. rewrite app_nil_r. split; [done|]. apply drop_ge. unfold len in Hbound. lia.
  - split; [done|]. split; [|by apply Hfull]. specialize (Hfull Hne).
    unfold page, len in Hfull, Hbound |- *. rewrite length_take, length_drop in Hfull. lia.
Qed.

Lemma wp_manager_enumerate request r output_length s w :
  bus_inv state s → held w = false → request_ok r → req_operation r = MANAGER_OPERATION_ENUMERATE →
  0 ≤ output_length ≤ len (buffer s) →
  wp e (manager_enumerate state request r output_length)
    (λ _, handled request output_length r s w) s w.
Proof.
  intros Hinv Hh Hr Hop Hb. unfold manager_enumerate. apply wp_enter; [done..|].
  intros s2 w2 Hinv2 Ho2 Hs2 Hh2 Hbounds Hl2. pose proof Hbounds as [Hone Hmax].
  unfold one_record, size_of_ManagerResponseHeader, size_of_ManagerRecord, MAX_MANAGER_OUTPUT in Hone, Hmax |- *.
  change (64 * 1024) with 65536 in Hmax. set (capacity := (output_length - 32) / 560).
  pose proof Hinv2 as (b & l & Hbox & Hst & Hok & Hctx).
  wp_bind. eapply wp_deref_state; [exact Hbox|]. wp_get.
  assert (1 ≤ capacity ≤ 116 ∧ 32 + 560 * capacity ≤ output_length) as [Hcap Hfit].
  { unfold capacity. pose proof (Z.mul_div_le (output_length - 32) 560).
    pose proof (Z.div_le_lower_bound (output_length - 32) 560 1).
    pose proof (Z.div_lt_upper_bound (output_length - 32) 560 117). lia. }
  pose proof (request_cursor _ Hr) as [Hcur0 Hcur].
  destruct (write_bytes_total (buffer s2) 0 (replicate 32 0)) as (p0 & hd & tl & Hbuf & Hp0 & Hhd & _);
    [lia|change (len (replicate 32 0)) with 32; lia|].
  destruct p0; [|rewrite len_cons in Hp0; pose proof (len_nonneg p0); lia]. cbn in Hbuf.
  change (len (replicate 32 0)) with 32 in Hhd.
  wp_bind. rewrite (list_ok_size _ _ _ Hok).
  eapply (wp_enumerate_start capacity (req_cursor r) hd tl (visible_records (heap s2) l));
    [apply Hok|done|lia|apply Hok|apply Hok|done|done| |done|].
  { rewrite Hbuf, len_app in Hl2. lia. }
  intros tl' node index rs Hindex Hnext.
  assert (len rs ≤ capacity) as Hrs by (unfold rs, page, len; rewrite length_take; lia).
  eapply (wp_enumerate_reply request r output_length s w s2 hd (visible_records (heap s2) l) rs tl');
    [done|done|done|by apply bus_inv_buffer|done|done|done| |done|done|done| |lia|lia| |].
  - destruct Hnext as [[-> _]|(Hne & -> & _)]; [done|].
    by rewrite (proj2 (Z.eqb_neq node 0)) by done.
  - by exists b, l.
  - exact Hbounds.
  - destruct Hnext as [[-> ?]|(Hne & -> & ?)]; [by left|].
    rewrite (proj2 (Z.eqb_neq node 0)) by done. by right.
Qed.

(** ** The control request *)

Lemma read_request_ok b r :
  Forall is_byte b → read_request b = Some r → request_ok r.
Proof.
  unfold read_request. intros Hb H. split_if_in H; [done|]. injection H as <-. bool_reflect.
  unfold size_of_ManagerRequest, len in *.
  constructor; cbn [req_operation req_request_id req_adapter_guid req_cursor];
    [by apply read_le_fits..|apply read_guid_words; [done|lia]|by apply read_le_fits].
Qed.

Lemma request_checked r :
  request_is_invalid r = false →
  req_operation r = MANAGER_OPERATION_ENUMERATE ∨ valid_guid (req_adapter_guid r) = true.
Proof.
  unfold request_is_invalid. rewrite !orb_false_iff. intros [[[_ H] _] _].
  destruct (Z.eqb_spec (req_operation r) MANAGER_OPERATION_ENUMERATE); [by left|right].
  cbn [negb andb] in H. apply orb_false_iff in H as [H _]. by apply negb_false_iff.
Qed.

Lemma wp_state_from_device device Q s w :
  bus_inv state s → held w = false →
  (∀ found s' w', bus_inv state s' → others e s s' → silent w w' → held w' = false →
     (found = None ∧ (context_state s = 0 ∨ refused_call w w' STATUS_DEVICE_NOT_READY) ∨ found = Some state) →
     Q found s' w') →
  wp e (state_from_device device) Q s w.
Proof.
  intros Hinv Hh HQ. unfold state_from_device. wp_bind. wp_alone. intros context s' Ho _. cbn in context.
  pose proof (others_evolves _ _ _ Hresp Ho) as Hev. pose proof (evolves_inv _ _ Hev _ Hinv) as Hinv'.
  set (c := WdfObjectGetTypedContextWorker device BusContextType) in *.
  destruct (unlocked_call c context w Hh I) as [Hs Hh']. destruct (Z.eqb_spec context 0) as [->|Hc].
  { apply wp_ret, HQ; try done. left. split; [done|]. right. exists c, 0. split; [apply called_now|done]. }
  wp_get. pose proof Hinv' as (b & l & _ & Hst & _ & [[Hx|Hx] _]); rewrite Hx.
  - apply wp_ret, HQ; try done. left. split; [done|]. left. by rewrite <- (evolves_context _ _ Hev).
  - rewrite (proj2 (Z.eqb_neq state 0)) by done. apply wp_ret, HQ; auto.
Qed.

(** Why a control request failed, with its status. *)
Inductive refused (ioctl input_length output_length : Z) (s : bus) (w w' : world bus_ret) : Z → Prop :=
  | refused_ioctl : ioctl ≠ MANAGER_IOCTL → refused ioctl input_length output_length s w w' STATUS_INVALID_DEVICE_REQUEST
  | refused_length : input_length ≠ size_of_ManagerRequest →
      refused ioctl input_length output_length s w w' STATUS_INVALID_BUFFER_SIZE
  | refused_answer status : refused_call w w' status → refused ioctl input_length output_length s w w' status
  | refused_invalid r : read_request (buffer s) = Some r → request_is_invalid r = true →
      refused ioctl input_length output_length s w w' STATUS_INVALID_PARAMETER
  | refused_unready : context_state s = 0 → refused ioctl input_length output_length s w w' STATUS_DEVICE_NOT_READY
  | refused_unserved r status : read_request (buffer s) = Some r → request_is_invalid r = false →
      unserved r output_length s w w' status → refused ioctl input_length output_length s w w' status.

(** The control request was answered: it failed for a reason, or the request in
    its buffer was served. *)
Definition answered (request ioctl input_length output_length : Z) (s : bus) (w : world bus_ret)
    (s' : bus) (w' : world bus_ret) : Prop :=
  bus_inv state s' ∧ held w' = false ∧
  ∃ status n, completes request status n w w' ∧ 0 ≤ n ≤ output_length ∧
    (n = 0 ∧ refused ioctl input_length output_length s w w' status ∨
     status = STATUS_SUCCESS ∧ ioctl = MANAGER_IOCTL ∧ input_length = size_of_ManagerRequest ∧
     one_record ≤ output_length ≤ MAX_MANAGER_OUTPUT ∧
     ∃ r, read_request (buffer s) = Some r ∧ request_is_invalid r = false ∧ served r output_length s w s' w' n).

Lemma handled_answered request ioctl input_length output_length r s0 w0 s w s' w' :
  bus_inv state s0 → others e s0 s → silent w0 w → ioctl = MANAGER_IOCTL →
  input_length = size_of_ManagerRequest → read_request (buffer s0) = Some r → request_is_invalid r = false →
  handled request output_length r s w s' w' → answered request ioctl input_length output_length s0 w0 s' w'.
Proof.
  intros Hinv0 Ho Hs Hio Hil Hr Hok (Hinv & Hh & status & n & Hc & Hn & Hcase). split; [done|]. split; [done|].
  exists status, n. split; [by eapply silent_completes|]. split; [done|].
  destruct Hcase as [[-> Hu]|(-> & Hout & Hsv)]; [left|right]; split; [done| |done|].
  - eapply refused_unserved; [done|done|]. eapply unserved_before; [exact Hinv0|exact Ho|exact Hs|by exists []|exact Hu].
  - do 3 (split; [done|]). exists r. split; [done|]. split; [done|]. by eapply served_before.
Qed.

Lemma wp_refuse request ioctl input_length output_length status s0 w0 s w :
  bus_inv state s → held w = false → silent w0 w → 0 ≤ output_length →
  (∀ w', (∃ l, w' = l ++ w) → refused ioctl input_length output_length s0 w0 w' status) →
  wp e (complete request status) (λ _, answered request ioctl input_length output_length s0 w0) s w.
Proof.
  intros Hinv Hh Hs Hl Hr. apply wp_complete; [done|]. intros s' w' Hinv' _ _ Hc Hh'.
  split; [done|]. split; [by rewrite Hh'|]. exists status, 0.
  split; [by eapply silent_completes|]. split; [lia|]. left. split; [done|]. apply Hr. by destruct Hc.
Qed.

Lemma wp_evt_manager_device_control queue request output_length input_length ioctl s w :
  bus_inv state s → held w = false → Forall is_byte (buffer s) →
  0 ≤ output_length ≤ len (buffer s) →
  wp e (evt_manager_device_control queue request output_length input_length ioctl)
    (λ _, answered request ioctl input_length output_length s w) s w.
Proof.
  intros Hinv Hh Hbytes Hlen. unfold evt_manager_device_control.
  destruct (Z.eqb_spec ioctl MANAGER_IOCTL) as [Hio|Hio]; cbn [negb].
  2: { apply wp_refuse; [done..|lia|]. intros. by apply refused_ioctl. }
  destruct (Z.eqb_spec input_length size_of_ManagerRequest) as [Hil|Hil]; cbn [negb].
  2: { apply wp_refuse; [done..|lia|]. intros. by apply refused_length. }
  wp_bind. wp_alone. intros [status actual] s1 Ho1 Hin.
  pose proof (others_evolves _ _ _ Hresp Ho1) as He1. pose proof (evolves_inv _ _ He1 _ Hinv) as Hinv1.
  set (c := WdfRequestRetrieveInputBuffer request size_of_ManagerRequest) in *.
  destruct (unlocked_call c (status, actual) w Hh I) as [Hs1 Hh1].
  pose proof (called_now w c (status, actual)) as Hcall.
  set (w1 := existT c _ :: w) in *. cbn in Hin.
  destruct (negb (status =? STATUS_SUCCESS) || negb (actual =? size_of_ManagerRequest)) eqn:Hst.
  { apply wp_refuse; [done..|lia|]. intros w' Hw'. apply refused_answer. exists c, (status, actual).
    split; [by eapply called_after|]. unfold c. cbn. destruct (status =? STATUS_SUCCESS); cbn in Hst |- *; [|done].
    by rewrite Hst. }
  bool_reflect. specialize (Hin ltac:(done)). wp_get.
  pose proof (evolves_buffer _ _ He1) as Hb1.
  destruct (read_request (buffer s1)) as [r|] eqn:Hread.
  2: { unfold read_request in Hread. split_if_in Hread; [|done]. bool_reflect. lia. }
  rewrite Hb1 in Hread. pose proof (read_request_ok _ _ Hbytes Hread) as Hr.
  wp_opt r; [done|]. destruct (request_is_invalid r) eqn:Hbad.
  { apply wp_refuse; [done..|lia|]. intros w' Hw'. by eapply refused_invalid. }
  pose proof (request_checked _ Hbad) as Hvalid. wp_bind. wp_alone. intros device s2 Ho2 _. cbn in device.
  pose proof (evolves_inv _ _ (others_evolves _ _ _ Hresp Ho2) _ Hinv1) as Hinv2.
  destruct (unlocked_call (WdfIoQueueGetDevice queue) device w1 Hh1 I) as [Hs2 Hh2].
  set (w2 := existT _ _ :: w1) in *.
  wp_bind. apply wp_state_from_device; [done|done|].
  intros found s3 w3 Hinv3 Ho3 Hs3 Hh3 Hfound.
  pose proof (others_trans _ _ _ _ Ho1 (others_trans _ _ _ _ Ho2 Ho3)) as Ho.
  pose proof (silent_trans _ _ _ Hs1 (silent_trans _ _ _ Hs2 Hs3)) as Hs03.
  destruct Hfound as [[-> Hnone]| ->].
  { apply wp_refuse; [done..|lia|]. intros w' Hw'. destruct Hnone as [Hz|Hz].
    - apply refused_unready. rewrite <- Hz. symmetry.
      apply (evolves_context _ _ (others_evolves _ _ _ Hresp (others_trans _ _ _ _ Ho1 Ho2))).
    - apply refused_answer. exact (refused_call_mono _ _ _ _ _ (silent_trans _ _ _ Hs1 Hs2) Hw' Hz). }
  assert (0 ≤ output_length ≤ len (buffer s3)) as Hlen3
    by (by rewrite (evolves_buffer _ _ (others_evolves _ _ _ Hresp Ho))).
  assert (∀ m, wp e m (λ _, handled request output_length r s3 w3) s3 w3 →
    wp e m (λ _ : unit, answered request ioctl input_length output_length s w) s3 w3) as Hlift.
  { intros m Hm. eapply wp_mono; [exact Hm|]. intros [] s' w'. by apply handled_answered. }
  assert (req_operation r ≠ MANAGER_OPERATION_ENUMERATE → checked r) as Hchecked.
  { intros Hne. split; [done|]. by destruct Hvalid. }
  destruct (Z.eqb_spec (req_operation r) MANAGER_OPERATION_CREATE) as [Hop|Hnc].
  { apply Hlift, wp_manager_create; try done. apply Hchecked. by rewrite Hop. }
  destruct (Z.eqb_spec (req_operation r) MANAGER_OPERATION_REMOVE) as [Hop|Hnr].
  { apply Hlift, wp_manager_remove; try done. apply Hchecked. by rewrite Hop. }
  destruct (Z.eqb_spec (req_operation r) MANAGER_OPERATION_ENUMERATE) as [Hop|Hne].
  { by apply Hlift, wp_manager_enumerate. }
  destruct (Z.eqb_spec (req_operation r) MANAGER_OPERATION_QUERY) as [Hop|Hnq].
  { apply Hlift, wp_manager_query; try done. by apply Hchecked. }
  exfalso. revert Hbad. unfold request_is_invalid.
  repeat match goal with H : req_operation r ≠ _ |- _ => rewrite (proj2 (Z.eqb_neq _ _) H); clear H end.
  by destruct (negb (req_version r =? _)), (negb (req_length r =? _)), (req_request_id r =? 0).
Qed.

(** ** Callbacks *)

Lemma inv_context s k c :
  bus_inv state s → ctx_bus_state c = 0 ∨ ctx_bus_state c = state →
  bus_inv state (s <| pdo_contexts := <[k := c]> (pdo_contexts s) |>).
Proof.
  intros (b & l & Hb & Hst & Hok & [Hc1 Hc2]) Hc. exists b, l. split; [done|].
  split; [done|]. split; [done|]. split; [done|]. cbn. intros k' c' Hk.
  apply lookup_insert_Some in Hk as [[_ <-]|[_ Hk]]; [done|by eapply Hc2].
Qed.

Lemma wp_write_context k c Q s w :
  is_Some (pdo_contexts s !! k) →
  Q tt (s <| pdo_contexts := <[k := c]> (pdo_contexts s) |>) w →
  wp e (write_context k c) Q s w.
Proof.
  intros [c0 Hk] HQ. unfold write_context, read_context. wp_bind. wp_get.
  apply wp_from_option. exists c0. split; [done|]. wp_get. by apply wp_put.
Qed.

Lemma wp_read_context k c Q s w :
  pdo_contexts s !! k = Some c → Q c s w → wp e (read_context k) Q s w.
Proof. intros Hk HQ. unfold read_context. wp_get. apply wp_from_option. by exists c. Qed.

(** A call made without the lock that completes nothing. *)
Lemma wp_unlocked c Q s w :
  bus_inv state s → held w = false →
  match c with
  | WdfWaitLockAcquire _ | WdfWaitLockRelease _ | WdfRequestComplete _ _
  | WdfRequestCompleteWithInformation _ _ _ => False
  | _ => True
  end →
  (∀ r s' w', bus_inv state s' → evolves s s' → silent w w' → held w' = false →
     answer_ok c s r s' → Q r s' w') →
  wp e (do_call c) Q s w.
Proof.
  intros Hinv Hh Hc HQ. wp_do bus_contract Hresp. intros r s' [Hev Hans].
  rewrite Hh in Hev. destruct (unlocked_call c r w Hh Hc) as [Hs Hh'].
  apply HQ; try done. by apply (evolves_inv _ _ Hev).
Qed.

(** One unlocked call of a handler. *)
Ltac wp_outside :=
  lazymatch goal with
  | |- wp e (do_call ?c) ?Q ?s ?w => refine (wp_unlocked c Q s w _ _ I _); [done|done|]
  end.

Definition callback_post (w : world bus_ret) (s' : bus) (w' : world bus_ret) : Prop :=
  bus_inv state s' ∧ silent w w' ∧ held w' = false.

Lemma wp_evt_child_pdo_cleanup object s w :
  bus_inv state s → held w = false →
  wp e (evt_child_pdo_cleanup object) (λ _, callback_post w) s w.
Proof.
  intros Hinv Hh. unfold evt_child_pdo_cleanup.
  wp_bind. wp_outside. intros k s1 w1 Hinv1 He1 Hs1 Hh1 Hk.
  destruct (Z.eqb_spec k 0) as [->|Hk0]; [by apply wp_ret|].
  destruct (Hk Hk0) as [c Hc]. wp_bind. eapply wp_read_context; [exact Hc|].
  wp_bind. apply wp_write_context; [by eexists|].
  set (s2 := s1 <| pdo_contexts := _ |>).
  assert (bus_inv state s2) as Hinv2 by (apply inv_context; [done|by left]).
  assert (ctx_bus_state c = 0 ∨ ctx_bus_state c = state) as Hst.
  { destruct Hinv1 as (b & l & _ & _ & _ & [_ Hx]). by eapply Hx. }
  assert (∀ s3 w3, callback_post w s3 w3 →
    wp e (if negb (ctx_bus_device c =? 0)
          then bcall (WdfObjectDereferenceActual (ctx_bus_device c)) else mret tt)
      (λ _, callback_post w) s3 w3) as Hexit.
  { intros s3 w3 (Hinv3 & Hs3 & Hh3). destruct (negb _); [|by apply wp_ret].
    wp_outside. intros r s4 w4 Hinv4 _ Hs4 Hh4 _.
    split; [done|]. split; [by eapply silent_trans|done]. }
  wp_bind. destruct Hst as [->| ->].
  { apply wp_ret. cbn [negb]. wp_bind. apply wp_ret. by apply Hexit. }
  apply wp_acquire; [done|done|]. intros g s3 w3 Hinv3 He3 Hs3 Hh3 _. wp_bind.
  assert (silent w w3) as Hs03 by (by eapply silent_trans).
  destruct g; cbn [negb]; [|by apply wp_ret, Hexit].
  wp_bind. eapply wp_find_child; [exact Hinv3|]. intros p Hp. wp_bind.
  assert (∀ s4, bus_inv state s4 →
    wp e (BusStateGuard_drop state) (λ (_ : unit) s5 w5,
      wp e (if negb (ctx_bus_device c =? 0)
            then bcall (WdfObjectDereferenceActual (ctx_bus_device c)) else mret tt)
        (λ _, callback_post w) s5 w5) s4 w3) as Hrel.
  { intros s4 Hinv4. apply wp_release; [done|done|]. intros w5 Hs5 Hh5. apply Hexit.
    split; [done|]. split; [by eapply silent_trans|done]. }
  destruct Hp as [[-> _]|(Hp & n & Hn & Hg)]; [by apply wp_ret, Hrel|].
  rewrite (proj2 (Z.eqb_neq p 0)) by done. wp_bind. eapply wp_read_node; [exact Hn|].
  wp_bind. eapply wp_write_node; [exact Hn|].
  set (n' := n <| pdo := 0 |> <| interface_name := zero_name |> <| interface_length := 0 |>).
  pose proof (inv_node _ _ _ _ Hinv3 Hn) as Hnok.
  assert (node_ok n') as Hnok'.
  { destruct zero_name_ok as [Hz1 Hz2].
    destruct Hnok as [(H1 & H2 & H3 & H4 & H5 & H6 & H7 & H8 & H9) Hv Hl Hm].
    by constructor. }
  destruct (inv_update state s3 p n n') as [Hinv4 He4]; try done.
  set (s4 := s3 <| heap := _ |>) in *.
  assert (heap s4 !! p = Some n') as Hn' by apply lookup_insert_eq.
  wp_bind. eapply wp_read_node; [exact Hn'|]. destruct (lifecycle n' =? LIFECYCLE_REMOVING).
  - eapply wp_reclaim_child; [exact Hinv4|exact Hn'|]. intros s5 Hinv5 _ _. by apply Hrel.
  - destruct (_ || _); [|by apply wp_ret, Hrel]. eapply wp_write_node; [exact Hn'|].
    edestruct (inv_update state s4 p n') as [Hinv5 _];
      [exact Hinv4|exact Hn'|by apply (node_ok_status n' LIFECYCLE_FAILED STATUS_UNSUCCESSFUL)
      |done|done|]. by apply Hrel.
Qed.

(** A callback that returns a status; under [waived] the locking discipline is
    not claimed. *)
Definition status_post (waived : Z → Prop) (w : world bus_ret) (status : Z) (s' : bus)
    (w' : world bus_ret) : Prop :=
  bus_inv state s' ∧ held w' = false ∧ (∀ q, infos q w' = infos q w) ∧
  (waived status ∨ (disciplined w = true → disciplined w' = true)).

Lemma status_post_silent (waived : Z → Prop) w0 w status s' w' :
  silent w0 w → status_post waived w status s' w' → status_post waived w0 status s' w'.
Proof.
  intros [_ Hi Hd] (Hinv & Hh & Hi' & Hd'). split; [done|]. split; [done|].
  split; [intros q; by rewrite Hi'|]. destruct Hd' as [?|Hd']; [by left|right; auto].
Qed.

Lemma wp_fail_child waived g status w0 s w :
  bus_inv state s → held w = false → fits_i32 status → silent w0 w →
  wp e (mark_child_failure state g status;; mret status) (status_post waived w0) s w.
Proof.
  intros Hinv Hh Hst Hs. wp_bind. eapply wp_mono; [by apply wp_mark_child_failure|].
  intros [] s' w' [(Hinv' & _ & Hs' & Hh') _]. apply wp_ret.
  destruct (silent_trans _ _ _ Hs Hs') as [_ Hi Hd]. split; [done|]. split; [done|].
  split; [done|by right].
Qed.

(** The four identifier calls. *)
Lemma wp_add_id waived g (call continue : BM Z) w0 s w :
  (∃ init text, call = bcall (WdfPdoInitAssignDeviceID init text) ∨
                call = bcall (WdfPdoInitAddHardwareID init text)) →
  bus_inv state s → held w = false → silent w0 w →
  (∀ s' w', bus_inv state s' → held w' = false → silent w0 w' →
     wp e continue (status_post waived w0) s' w') →
  wp e (add_id state g call continue) (status_post waived w0) s w.
Proof.
  intros (init & text & Hcall) Hinv Hh Hs Hcont. unfold add_id. wp_bind.
  assert (∀ (r : Z) s' w', bus_inv state s' → silent w w' → held w' = false → fits_i32 r →
    wp e (if negb (r =? STATUS_SUCCESS) then mark_child_failure state g r;; mret r else continue)
      (status_post waived w0) s' w') as Hnext.
  { intros r s' w' Hinv' Hs' Hh' Hr.
    assert (silent w0 w') as Hs2 by (by eapply silent_trans).
    destruct (negb _); [by apply wp_fail_child|by apply Hcont]. }
  destruct Hcall as [->| ->]; wp_outside; intros r s' w' Hinv' _ Hs' Hh' Hr; by apply Hnext.
Qed.

Lemma wp_evt_child_list_create_device list identification init s w :
  bus_inv state s → held w = false →
  (∀ i, identification = Some i → guid_words (id_guid i) ∧ fits 32 (id_mtu i)) →
  wp e (evt_child_list_create_device list identification init)
    (status_post (λ status, status = STATUS_OBJECT_NAME_NOT_FOUND) w) s w.
Proof.
  intros Hinv Hh Hid. unfold evt_child_list_create_device.
  set (waived := λ status, status = STATUS_OBJECT_NAME_NOT_FOUND).
  assert (∀ st s' w', bus_inv state s' → held w' = false → silent w w' →
    wp e (mret st) (status_post waived w) s' w') as Hret.
  { intros st s' w' Hinv' Hh' [_ Hi Hd]. apply wp_ret. split; [done|]. split; [done|].
    split; [done|by right]. }
  destruct identification as [i|]; [|by apply Hret].
  destruct (Hid i eq_refl) as [Hg Hm].
  destruct (init =? 0); [by apply Hret|]. destruct (negb _); [by apply Hret|].
  wp_bind. wp_outside. intros bus_device s1 w1 Hinv1 _ Hs1 Hh1 _. cbn in bus_device.
  wp_bind. apply wp_state_from_device; [done|done|].
  intros found s2 w2 Hinv2 _ Hs2 Hh2 Hfound.
  assert (silent w w2) as Hs02 by (by eapply silent_trans).
  destruct Hfound as [[-> _]| ->]; [by apply Hret|].
  rewrite (child_device_id_text _ Hg). wp_opt (written 64 (device_id_chars (id_guid i) ++ [0])).1; [done|].
  apply wp_add_id; [eexists _, _; by left|done|done|done|]. intros s3 w3 Hinv3 Hh3 Hs3.
  apply wp_add_id; [eexists _, _; by right|done|done|done|]. intros s4 w4 Hinv4 Hh4 Hs4.
  destruct (child_mtu_hardware_id_text _ Hm) as (ds & _ & _ & ->).
  wp_opt (written 32 (mtu_id_chars ds ++ [0])).1; [done|].
  apply wp_add_id; [eexists _, _; by right|done|done|done|]. intros s5 w5 Hinv5 Hh5 Hs5.
  apply wp_add_id; [eexists _, _; by right|done|done|done|]. intros s6 w6 Hinv6 Hh6 Hs6.
  wp_bind. wp_outside. intros [status new_pdo] s7 w7 Hinv7 _ Hs7 Hh7 Hst.
  assert (silent w w7) as Hs07 by (by eapply silent_trans).
  destruct (negb (status =? STATUS_SUCCESS)); [by apply wp_fail_child|].
  wp_bind. wp_outside. intros k s8 w8 Hinv8 _ Hs8 Hh8 Hk. cbn in k, Hk.
  assert (silent w w8) as Hs08 by (by eapply silent_trans).
  destruct (Z.eqb_spec k 0) as [->|Hk0].
  { wp_bind. wp_outside. intros [] s9 w9 Hinv9 _ Hs9 Hh9 _.
    apply wp_fail_child; [done|done|done|by eapply silent_trans]. }
  specialize (Hk Hk0). wp_bind. apply wp_write_context; [done|].
  wp_bind. set (s8' := s8 <| pdo_contexts := _ |>).
  assert (bus_inv state s8') as Hinv8' by (apply inv_context; [done|by left]).
  wp_outside. intros [] s9 w9 Hinv9 He9 Hs9 Hh9 _.
  assert (is_Some (pdo_contexts s9 !! k)) as [c Hc].
  { apply (evolves_contexts _ _ He9). cbn. rewrite lookup_insert_eq. by eexists. }
  wp_bind. eapply wp_read_context; [exact Hc|]. wp_bind. apply wp_write_context; [by eexists|].
  set (s9' := s9 <| pdo_contexts := _ |>).
  assert (bus_inv state s9') as Hinv9' by (apply inv_context; [done|by right]).
  assert (silent w w9) as Hs09 by (by eapply silent_trans).
  wp_bind. apply wp_acquire; [done|done|]. intros g s10 w10 Hinv10 _ Hs10 Hh10 _.
  assert (silent w w10) as Hs010 by (by eapply silent_trans).
  destruct g; cbn [negb].
  2: { unfold delete_and_return. wp_bind. wp_outside. intros [] s11 w11 Hinv11 _ Hs11 Hh11 _.
       apply Hret; [done|done|by eapply silent_trans]. }
  wp_bind. eapply wp_find_child; [exact Hinv10|]. intros p Hp.
  destruct Hp as [[-> _]|(Hp & n & Hn & _)].
  - cbn [Z.eqb]. wp_bind. wp_do bus_contract Hresp. intros [] s11 [He11 _].
    rewrite Hh10 in He11. subst s11. wp_bind.
    apply wp_release; [done|done|]. intros w12 Hs12 Hh12. apply wp_ret.
    split; [done|]. split; [done|]. split; [|by left]. intros q.
    rewrite (silent_infos _ _ Hs12). cbn. apply (silent_infos _ _ Hs010).
  - rewrite (proj2 (Z.eqb_neq p 0)) by done. wp_bind. eapply wp_read_node; [exact Hn|].
    wp_bind. eapply wp_write_node; [exact Hn|].
    destruct (inv_update state s10 p n (n <| pdo := new_pdo |>)) as [Hinv11 _]; try done.
    { by destruct (inv_node _ _ _ _ Hinv10 Hn). }
    wp_bind. apply wp_release; [done|done|]. intros w12 Hs12 Hh12.
    apply Hret; [done|done|by eapply silent_trans].
Qed.

(** ** Cleanup of the bus device *)

Lemma wp_free_loop Q s w : ∀ fuel p l s1,
  linked (heap s1) p l → NoDup l → (length l < fuel)%nat →
  (∀ a, is_Some (heap s1 !! a) ↔ a ∈ l) → s1 = s <| heap := heap s1 |> →
  Q tt (s <| heap := ∅ |>) w → wp e (free_loop fuel p) Q s1 w.
Proof.
  induction fuel as [|fuel IH]; intros p l s1 Hl Hnd Hf Hdom Hs HQ; [lia|]. cbn [free_loop].
  destruct l as [|a l].
  - cbn in Hl. subst p. cbn. apply wp_ret.
    assert (heap s1 = ∅) as Hempty.
    { apply map_eq. intros a. rewrite lookup_empty. apply eq_None_not_Some.
      intros Ha%Hdom. by apply not_elem_of_nil in Ha. }
    rewrite Hs, Hempty. done.
  - destruct Hl as (-> & Ha & n & Hn & Hl). rewrite (proj2 (Z.eqb_neq a 0)) by done.
    apply NoDup_cons in Hnd as [Hal Hnd].
    wp_bind. eapply wp_read_node; [exact Hn|]. wp_bind. eapply wp_free_node; [exact Hn|].
    eapply (IH (next n) l); [|exact Hnd|cbn in Hf; lia| | |exact HQ]; cbn.
    + eapply linked_ext; [|exact Hl]. intros b m Hb Hm. exists m. split; [|done].
      rewrite lookup_delete_ne; [done|]. by intros ->.
    + intros b. destruct (decide (a = b)) as [<-|Hne].
      * rewrite lookup_delete_eq. split; [by intros [? ?]|done].
      * rewrite lookup_delete_ne, Hdom, elem_of_cons by done. naive_solver.
    + rewrite Hs. done.
Qed.

Lemma wp_evt_bus_device_cleanup object s w :
  bus_inv state s → held w = false → context_state s = state →
  wp e (evt_bus_device_cleanup object) (λ _ s' w',
    silent w w' ∧ held w' = false ∧
    (bus_inv state s' ∨ (heap s' = ∅ ∧ box s' = None ∧ context_state s' = 0))) s w.
Proof.
  intros Hinv Hh Hctx. unfold evt_bus_device_cleanup.
  wp_bind. wp_outside. intros k s1 w1 Hinv1 He1 Hs1 Hh1 _. cbn in k.
  destruct (k =? 0); [apply wp_ret; split; [done|]; split; [done|by left]|].
  pose proof Hinv1 as (b & l & Hb & Hst & Hok & _). wp_get.
  rewrite (evolves_context _ _ He1), Hctx. rewrite (proj2 (Z.eqb_neq state 0)) by done.
  wp_put. wp_bind. eapply wp_deref_state; [exact Hb|]. wp_get. wp_bind.
  eapply (wp_free_loop _ (s1 <| context_state := 0 |>) _ _ _ l); cbn;
    [apply Hok|apply Hok|rewrite (list_ok_size _ _ _ Hok); lia|apply Hok|done|].
  wp_get. apply wp_put. split; [done|]. split; [done|]. right. done.
Qed.

End helpers.

(** ** Bringing the bus device up *)

(** The devices created and deleted by the calls of a trace, latest first. *)
Fixpoint devices_created (w : world bus_ret) : list Z :=
  match w with
  | [] => []
  | existT c r :: w =>
      match c as c return bus_ret c → list Z with
      | WdfDeviceCreate _ => λ r, if r.1 =? STATUS_SUCCESS then r.2 :: devices_created w
                                  else devices_created w
      | _ => λ _, devices_created w
      end r
  end.

Fixpoint objects_deleted (w : world bus_ret) : list Z :=
  match w with
  | [] => []
  | ev :: w => match projT1 ev with
               | WdfObjectDelete o => o :: objects_deleted w
               | _ => objects_deleted w
               end
  end.

(** Nothing exists yet. *)
Definition unborn (s : bus) : Prop :=
  box s = None ∧ heap s = ∅ ∧ pdo_contexts s = ∅.

Section device_add.
Context (e : env bus bus_ret) (Hresp : respects bus_contract e).

Definition add_post (w : world bus_ret) (status : Z) (s' : bus) (w' : world bus_ret) : Prop :=
  (status = STATUS_SUCCESS →
     ∃ state, bus_inv state s' ∧ context_state s' = state ∧ objects_deleted w' = objects_deleted w) ∧
  (status ≠ STATUS_SUCCESS →
     ∃ ds, devices_created w' = ds ++ devices_created w ∧
           objects_deleted w' = ds ++ objects_deleted w).

Lemma evolves_unborn_state s s' : unborn s → evolves s s' → unborn s'.
Proof.
  intros (Hb & Hh & Hp) He. destruct (evolves_unborn _ _ He Hb) as (? & ? & ?).
  by split_and!; [|congruence..].
Qed.

Lemma wp_born c Q s w :
  unborn s → held w = false →
  (∀ r s', unborn s' → Q r s' (existT c r :: w)) →
  wp e (do_call c) Q s w.
Proof.
  intros Hu Hh HQ. wp_do bus_contract Hresp. intros r s' [He _]. rewrite Hh in He.
  apply HQ. by eapply evolves_unborn_state.
Qed.

(** Deleting the device after a failure. *)
Lemma wp_delete_and_return w0 device status s w :
  status ≠ STATUS_SUCCESS → held w = false →
  devices_created w = device :: devices_created w0 → objects_deleted w = objects_deleted w0 →
  wp e (delete_and_return device status) (add_post w0) s w.
Proof.
  intros Hst Hh Hc Hd. unfold delete_and_return. wp_bind. wp_do bus_contract Hresp.
  intros [] s' _. apply wp_ret. split; [done|]. intros _. exists [device].
  cbn. by rewrite Hc, Hd.
Qed.

(** The registry a new box starts with. *)
Lemma inv_born s state child_list lock :
  unborn s → state ≠ 0 →
  bus_inv state (s <| box := Some (state, {| child_list := child_list; lock := lock; children := 0 |}) |>
                   <| context_state := state |>).
Proof.
  intros (_ & Hh & Hp) Hst. eexists _, []. split; [done|]. split; [done|]. cbn.
  rewrite Hh. split.
  - constructor; cbn; try done.
    + constructor.
    + intros a. rewrite lookup_empty. split; [by intros [? ?]|by intros ?%not_elem_of_nil].
  - split; [by right|]. cbn. by rewrite Hp.
Qed.

Ltac wp_early :=
  lazymatch goal with
  | |- wp e (do_call ?c) ?Q ?s ?w => refine (wp_born c Q s w _ _ _); [assumption|done|]
  end.

Lemma wp_evt_bus_device_add init s w :
  unborn s → held w = false → wp e (evt_bus_device_add init) (add_post w) s w.
Proof.
  intros Hu0 Hh. unfold evt_bus_device_add.
  wp_bind. wp_early. intros [] s1 Hu1.
  assert (∀ status s' w', status ≠ STATUS_SUCCESS → devices_created w' = devices_created w →
    objects_deleted w' = objects_deleted w → wp e (mret status) (add_post w) s' w') as Hfail.
  { intros st s' w' Hst Hc Hd. apply wp_ret. split; [done|]. intros _. by exists []. }
  wp_bind. wp_early. intros st2 s2 Hu2. cbn in st2.
  destruct (Z.eqb_spec st2 STATUS_SUCCESS); cbn [negb]; [|by apply Hfail].
  wp_bind. wp_early. intros st3 s3 Hu3. cbn in st3.
  destruct (Z.eqb_spec st3 STATUS_SUCCESS); cbn [negb]; [|by apply Hfail].
  wp_bind. wp_early. intros [st4 device] s4 Hu4.
  destruct (Z.eqb_spec st4 STATUS_SUCCESS) as [->|Hst4]; cbn [negb].
  2: { apply Hfail; [done| |done]. cbn. by rewrite (proj2 (Z.eqb_neq st4 _)). }
  wp_bind. wp_early. intros [st5 lk] s5 Hu5.
  destruct (Z.eqb_spec st5 STATUS_SUCCESS); cbn [negb]; [|by apply wp_delete_and_return].
  wp_bind. wp_early. intros cl s6 Hu6. cbn in cl.
  destruct (cl =? 0); [by apply wp_delete_and_return|].
  wp_bind. wp_early. intros k s7 Hu7. cbn in k.
  destruct (k =? 0); [by apply wp_delete_and_return|].
  wp_get. wp_put. set (s7' := s7 <| context_state := 0 |>). assert (unborn s7') as Hu7' by done.
  wp_bind. wp_early. intros state s8 Hu8. cbn in state.
  destruct (Z.eqb_spec state 0) as [->|Hst]; [by apply wp_delete_and_return|].
  wp_get. wp_put. pose proof (inv_born s8 state cl lk Hu8 Hst) as Hinv.
  set (s9 := s8 <| box := _ |> <| context_state := state |>) in *.
  wp_bind. wp_do bus_contract Hresp. intros st10 s10 [He10 _]. cbn in st10. cbn [held projT1] in He10.
  rewrite Hh in He10.
  destruct (Z.eqb_spec st10 STATUS_SUCCESS); cbn [negb]; [|by apply wp_delete_and_return].
  wp_bind. wp_do bus_contract Hresp. intros st11 s11 [He11 _]. cbn in st11. cbn [held projT1] in He11.
  rewrite Hh in He11.
  destruct (Z.eqb_spec st11 STATUS_SUCCESS) as [->|Hst11]; cbn [negb]; wp_bind.
  - apply wp_ret, wp_ret. split; [|done]. intros _. exists state.
    split; [by apply (evolves_inv _ _ He11), (evolves_inv _ _ He10)|].
    split; [|done]. by rewrite (evolves_context _ _ He11), (evolves_context _ _ He10).
  - wp_do bus_contract Hresp. intros [] s12 _. apply wp_ret. split; [done|]. intros _.
    by exists [device].
Qed.

End device_add.
