(* ===== verification/BusTheorems.v ===== *)
(** * Theorems about the bus driver

    The properties of the manager interface and of the framework callbacks of
    [Bus], each for every environment that respects [bus_contract]: all answers
    of the framework, all allocation failures and all interleavings with the
    other threads, and a concrete environment that shows the contract can be
    met. *)

From S2P Require Import Prelude Words HardwareId BusWire Effects Bus BusSpec.

(** ** A concrete environment *)

Definition quiet_answer (c : bus_call) : bus → bus_ret c :=
  match c with
  | WdfWaitLockRelease _ | WdfRequestComplete _ _ | WdfRequestCompleteWithInformation _ _ _
  | WdfObjectDelete _ | WdfObjectReferenceActual _ | WdfObjectDereferenceActual _
  | WdfFdoInitSetDefaultChildListConfig _ => λ _, tt
  | WdfRequestRetrieveInputBuffer _ n => λ s, if n <=? len (buffer s) then (0, n) else (1, 0)
  | WdfRequestRetrieveOutputBuffer _ n => λ s, (0, len (buffer s))
  | WdfObjectGetTypedContextWorker _ ChildPdoContextType => λ s,
      match pdo_contexts s !! 64 with Some _ => 64 | None => 0 end
  | WdfObjectGetTypedContextWorker _ BusContextType => λ s, 32
  | AllocateChildNode => λ s,
      if decide (heap s !! 4096 = None ∧ Z.of_nat (size (heap s)) + 1 < 2 ^ 32) then 4096 else 0
  | AllocateBusState => λ _, 1
  | WdfDeviceCreate _ => λ _, (0, 77)
  | WdfWaitLockCreate _ => λ _, (0, 9)
  | WdfIoQueueGetDevice _ | WdfChildListGetDevice _ | WdfFdoGetDefaultChildList _ => λ _, 5
  | _ => λ _, 0
  end.

(** Nothing runs in between, and every call succeeds. *)
Definition quiet_env : env bus bus_ret := λ w c s, (quiet_answer c s, s).

Lemma quiet_env_respects : respects bus_contract quiet_env.
Proof.
  intros w c s. cbn. split; [destruct (held w); [done|apply evolves_refl]|].
  destruct c; cbn; try done.
  - destruct type; cbn; [done|]. destruct (pdo_contexts s !! 64) eqn:Hk; [by rewrite Hk|done].
  - destruct (Z.leb_spec minimum (len (buffer s))); cbn; [lia|done].
  - case_decide as Hd; [right; exact Hd|by left].
Qed.

(** A bus with an empty registry, and a 1,024-byte system buffer. *)
Definition empty_bus : bus :=
  {| context_state := 1; box := Some (1, {| child_list := 5; lock := 9; children := 0 |});
     heap := ∅;
     pdo_contexts := {[64 := {| ctx_bus_state := 0; ctx_bus_device := 0;
                                ctx_guid := zero_guid; ctx_mtu := 0 |}]};
     buffer := replicate 1024 0 |}.

Lemma empty_bus_inv : bus_inv 1 empty_bus.
Proof.
  eexists _, []. split; [done|]. split; [done|]. split.
  - constructor; cbn; try done; [constructor|].
    intros a. rewrite lookup_empty. split; [by intros [? ?]|by intros ?%not_elem_of_nil].
  - split; [by right|]. cbn. intros k c [<- <-]%lookup_singleton_Some. by left.
Qed.

(** The bytes of a create request for [example_guid]. *)
Definition create_request : list Z :=
  le_bytes 2 2 ++ le_bytes 2 1 ++ le_bytes 4 40 ++ le_bytes 8 7 ++ guid_bytes example_guid
  ++ le_bytes 4 0 ++ le_bytes 4 9000.

Definition example_bus : bus :=
  empty_bus <| buffer := create_request ++ replicate 984 0 |>.

Lemma example_bus_inv : bus_inv 1 example_bus.
Proof. apply (bus_inv_buffer 1 empty_bus), empty_bus_inv. Qed.

(** ** The manager interface *)

(** C16: a manager request is completed exactly once, and its answer is that of
    the request in its buffer, whatever its bytes, the framework's answers and the
    other threads do.  Starting from a sound registry without the lock,
    [EvtIoDeviceControl] runs to its end (no null or freed node is dereferenced,
    no write leaves the system buffer, no list walk runs on), completes this
    request once and no other, and either fails it with no information, for one of
    the reasons of [refused] with that reason's status (a wrong control code or
    length, an invalid request, an MTU or an output length out of bounds, a call
    of the framework that failed, a bus that is not ready), or succeeds.  It
    succeeds only for the control code of the protocol and the valid request [r]
    that the bytes of the buffer hold, and then [served] relates the registry and
    the reply, as its client reads it, to [r] and to the registry the request came
    upon: a create declines a present GUID or adds a child with this request's id
    and MTU and announces it, a remove declines an absent or busy GUID or marks the
    child and withdraws it, a query and both of them report the record of this
    GUID, an enumeration returns the page at its cursor, and every header echoes
    this request's id and operation.  Between its own steps only other threads
    change anything.  The registry stays sound (unique, valid GUIDs, MTUs in
    range, an acyclic list that owns every node), the lock is free at the end, is
    never acquired twice, and no call that can run a callback is made under it. *)
Theorem manager_request_answered_once (e : env bus bus_ret) (state : Z)
    (queue request output_length input_length ioctl : Z) (s : bus) (w : world bus_ret)
    (Henv : respects bus_contract e) (Hinv : bus_inv state s) (Hfree : held w = false)
    (Hbytes : Forall is_byte (buffer s)) (Hlen : 0 ≤ output_length ≤ len (buffer s)) :
  wp e (evt_manager_device_control queue request output_length input_length ioctl)
    (λ _ s' w',
      bus_inv state s' ∧ held w' = false ∧
      ∃ status n, completes request status n w w' ∧ 0 ≤ n ≤ output_length ∧
        (n = 0 ∧ refused state ioctl input_length output_length s w w' status ∨
         status = STATUS_SUCCESS ∧ ioctl = MANAGER_IOCTL ∧ input_length = size_of_ManagerRequest ∧
         one_record ≤ output_length ≤ MAX_MANAGER_OUTPUT ∧
         ∃ r, read_request (buffer s) = Some r ∧ request_is_invalid r = false ∧
           served e state r output_length s w s' w' n)) s w.
Proof. by apply wp_evt_manager_device_control. Qed.

Definition example_request : ManagerRequest :=
  {| req_version := 2; req_operation := 1; req_length := 40; req_request_id := 7;
     req_adapter_guid := example_guid; req_cursor := 0; requested_mtu := 9000 |}.

(** A create under calls that all succeed: it is read from the buffer, it is
    valid, and the run serves it. *)
Lemma manager_request_answered_once_witness :
  read_request (buffer example_bus) = Some example_request ∧
  request_is_invalid example_request = false ∧
  wp quiet_env (evt_manager_device_control 3 11 1024 40 MANAGER_IOCTL)
    (λ _ s' w',
      bus_inv 1 s' ∧ held w' = false ∧
      ∃ status n, completes 11 status n [] w' ∧ 0 ≤ n ≤ 1024 ∧
        (n = 0 ∧ refused 1 MANAGER_IOCTL 40 1024 example_bus [] w' status ∨
         status = STATUS_SUCCESS ∧ MANAGER_IOCTL = MANAGER_IOCTL ∧ 40 = size_of_ManagerRequest ∧
         one_record ≤ 1024 ≤ MAX_MANAGER_OUTPUT ∧
         ∃ r, read_request (buffer example_bus) = Some r ∧ request_is_invalid r = false ∧
           served quiet_env 1 r 1024 example_bus [] s' w' n)) example_bus [].
Proof.
  split; [vm_compute; reflexivity|]. split; [vm_compute; reflexivity|].
  apply (manager_request_answered_once quiet_env 1 3 11 1024 40 MANAGER_IOCTL example_bus []
           quiet_env_respects example_bus_inv eq_refl).
  - apply (bool_decide_unpack (Forall is_byte (buffer example_bus))). vm_compute. exact I.
  - vm_compute. split; congruence.
Defined.

(** A create is exclusive.  The critical section of a create, under the
    lock, either declines with [STATUS_DEVICE_BUSY] exactly because a present
    child already has the GUID (or with [STATUS_INSUFFICIENT_RESOURCES] when the
    pool is exhausted), answering the request, or leaves the registry sound with
    this GUID's child in the creating state, labelled with this request's id and
    MTU, no present child having had the GUID before. *)
Theorem create_is_exclusive (e : env bus bus_ret) (state request m : Z) (r : ManagerRequest)
    (s : bus) (w : world bus_ret)
    (Henv : respects bus_contract e) (Hinv : bus_inv state s) (Hheld : held w = true)
    (Hr : checked r) (Hm : MINIMUM_MTU ≤ m ≤ MAXIMUM_MTU)
    (Hlen : size_of_ManagerResponseHeader ≤ len (buffer s)) :
  wp e (create_section state request r m) (λ done s' w',
    bus_inv state s' ∧ held w' = true ∧
    if done : bool then silent w w' ∧ evolves s s' ∧ created state r m s s'
    else ∃ status, declined_with request r status s w s' w' ∧ create_declined r s w w' status) s w.
Proof. by apply wp_create_section. Qed.

Lemma example_request_checked : checked example_request.
Proof.
  split; [|done]. constructor; cbn; try by vm_compute.
  unfold guid_words, is_byte, fits. cbn. split_and!; try lia. repeat constructor; cbn; lia.
Qed.

Definition locked_world : world bus_ret := [existT (WdfWaitLockAcquire 9) 0].

Lemma create_is_exclusive_witness :
  wp quiet_env (create_section 1 11 example_request 9000) (λ done s' w',
    bus_inv 1 s' ∧ held w' = true ∧
    if done : bool
    then silent locked_world w' ∧ evolves example_bus s' ∧
         created 1 example_request 9000 example_bus s'
    else ∃ status, declined_with 11 example_request status example_bus locked_world s' w' ∧
         create_declined example_request example_bus locked_world w' status) example_bus locked_world.
Proof.
  apply (create_is_exclusive quiet_env 1 11 9000 example_request example_bus locked_world
           quiet_env_respects example_bus_inv eq_refl example_request_checked);
    vm_compute; (split; congruence) || congruence.
Defined.

(** ** The framework callbacks *)

(** The child callbacks keep the registry sound under any interleaving:
    creating a child's device and cleaning it up run to their end, return
    without the lock, complete no request, and leave every registry invariant in
    place; the cleanup keeps the locking discipline, and so does the creation
    except when it reports that the child has vanished. *)
Theorem child_callbacks_keep_registry (e : env bus bus_ret) (state list init object : Z)
    (identification : option ChildIdentification) (s : bus) (w : world bus_ret)
    (Henv : respects bus_contract e) (Hinv : bus_inv state s) (Hfree : held w = false)
    (Hid : ∀ i, identification = Some i → guid_words (id_guid i) ∧ fits 32 (id_mtu i)) :
  wp e (evt_child_pdo_cleanup object) (λ _ s' w',
    bus_inv state s' ∧ silent w w' ∧ held w' = false) s w ∧
  wp e (evt_child_list_create_device list identification init) (λ status s' w',
    bus_inv state s' ∧ held w' = false ∧ (∀ q, infos q w' = infos q w) ∧
    (status = STATUS_OBJECT_NAME_NOT_FOUND ∨
     (disciplined w = true → disciplined w' = true))) s w.
Proof.
  split; [by apply wp_evt_child_pdo_cleanup|by apply wp_evt_child_list_create_device].
Qed.

Definition example_identification : ChildIdentification :=
  {| id_guid := example_guid; id_mtu := 9000 |}.

Lemma child_callbacks_keep_registry_witness :
  wp quiet_env (evt_child_pdo_cleanup 77) (λ _ s' w',
    bus_inv 1 s' ∧ silent [] w' ∧ held w' = false) empty_bus [].
Proof.
  apply (child_callbacks_keep_registry quiet_env 1 5 3 77 (Some example_identification) empty_bus []
           quiet_env_respects empty_bus_inv eq_refl).
  intros i [= <-]. split; [apply example_request_checked|vm_compute; split; congruence].
Defined.

(** When the child has vanished, its new device is deleted while the state
    lock is held: in an environment that keeps its contract, on a sound
    registry, [evt_child_list_create_device] calls [WdfObjectDelete] between
    acquiring the lock and releasing it, although the cleanup callback of that
    very device acquires the same lock. *)
Theorem create_device_deletes_under_lock :
  ∃ s' w' before after,
    respects bus_contract quiet_env ∧ bus_inv 1 empty_bus ∧
    evt_child_list_create_device 5 (Some example_identification) 3 quiet_env empty_bus [] =
      Some (STATUS_OBJECT_NAME_NOT_FOUND, s', w') ∧
    w' = after ++ existT (WdfObjectDelete 77) tt :: before ∧
    held before = true ∧ disciplined w' = false.
Proof.
  eexists _, _, _, [existT (WdfWaitLockRelease 9) tt].
  split; [apply quiet_env_respects|]. split; [apply empty_bus_inv|].
  split; [vm_compute; reflexivity|]. split; [vm_compute; reflexivity|].
  split; vm_compute; reflexivity.
Qed.

(** The bus device's cleanup leaves nothing behind: it frees every node of
    the registry and the state itself, each once, and clears the pointer to it. *)
Theorem bus_cleanup_frees_registry (e : env bus bus_ret) (state object : Z) (s : bus)
    (w : world bus_ret)
    (Henv : respects bus_contract e) (Hinv : bus_inv state s) (Hfree : held w = false)
    (Hctx : context_state s = state) :
  wp e (evt_bus_device_cleanup object) (λ _ s' w',
    silent w w' ∧ held w' = false ∧
    (bus_inv state s' ∨ (heap s' = ∅ ∧ box s' = None ∧ context_state s' = 0))) s w.
Proof. by apply wp_evt_bus_device_cleanup. Qed.

Lemma bus_cleanup_frees_registry_witness :
  wp quiet_env (evt_bus_device_cleanup 5) (λ _ s' w',
    silent [] w' ∧ held w' = false ∧
    (bus_inv 1 s' ∨ (heap s' = ∅ ∧ box s' = None ∧ context_state s' = 0))) empty_bus [].
Proof.
  exact (bus_cleanup_frees_registry quiet_env 1 5 empty_bus [] quiet_env_respects empty_bus_inv
           eq_refl eq_refl).
Defined.

(** C33: bringing the bus up is all or nothing: on success the device's context
    points to a sound, empty registry and nothing was deleted; on failure every
    device the call created has been deleted again. *)
Theorem bus_device_add_all_or_nothing (e : env bus bus_ret) (init : Z) (s : bus)
    (w : world bus_ret)
    (Henv : respects bus_contract e) (Hunborn : unborn s) (Hfree : held w = false) :
  wp e (evt_bus_device_add init) (λ status s' w',
    (status = STATUS_SUCCESS →
       ∃ state, bus_inv state s' ∧ context_state s' = state ∧
         objects_deleted w' = objects_deleted w) ∧
    (status ≠ STATUS_SUCCESS →
       ∃ ds, devices_created w' = ds ++ devices_created w ∧
             objects_deleted w' = ds ++ objects_deleted w)) s w.
Proof. by apply wp_evt_bus_device_add. Qed.

Definition unborn_bus : bus :=
  {| context_state := 0; box := None; heap := ∅; pdo_contexts := ∅; buffer := [] |}.

Lemma bus_device_add_all_or_nothing_witness :
  wp quiet_env (evt_bus_device_add 3) (λ status s' w',
    (status = STATUS_SUCCESS →
       ∃ state, bus_inv state s' ∧ context_state s' = state ∧ objects_deleted w' = []) ∧
    (status ≠ STATUS_SUCCESS →
       ∃ ds, devices_created w' = ds ++ [] ∧ objects_deleted w' = ds ++ [])) unborn_bus [].
Proof.
  apply (bus_device_add_all_or_nothing quiet_env 3 unborn_bus [] quiet_env_respects).
  - split_and!; reflexivity.
  - reflexivity.
Defined.
