(* ===== verification/Completion.v ===== *)
(** * Completion identities and status codes of the switch
    ([wintap-switch/src/main.rs])

    An I/O-ring operation carries a 64-bit identity that packs the buffer slot
    (31 bits) and the slot's generation (32 bits); bit 63 marks a
    cancellation.  This file holds the packing, the classification of
    completion statuses, the retry delay, and the errors of the program.

    An error message is its fixed text with the numbers it prints. *)

From S2P Require Import Prelude Words BufferPool Selection.

(** ** Errors *)

Inductive error :=
  | Failure (text : string) (arguments : list Z)
  | SlotFailure (text : string) (e : SlotError)
  | ShutdownFailed (first second : error).

(** ** Statuses *)

Definition S_OK : Z := 0.
Definition S_FALSE : Z := 1.
Definition WAIT_TIMEOUT : Z := as_i32 0x800705B4.
Definition IORING_E_SUBMISSION_QUEUE_FULL : Z := as_i32 0x80460002.
Definition HRESULT_FROM_NT_STATUS_DEVICE_BUSY : Z := as_i32 0x90000011.
Definition HRESULT_FROM_NT_STATUS_NO_MORE_ENTRIES : Z := as_i32 0x9000001A.
Definition STATUS_NO_MORE_ENTRIES : Z := as_i32 0x8000001A.
Definition HRESULT_FROM_WIN32_ERROR_NO_MORE_ITEMS : Z := as_i32 0x80070103.
Definition HRESULT_FROM_WIN32_INVALID_USER_BUFFER : Z := as_i32 0x800706F8.
Definition HRESULT_FROM_WIN32_ERROR_BUSY : Z := as_i32 0x800700AA.

Definition is_device_busy (status : Z) : bool :=
  (status =? HRESULT_FROM_NT_STATUS_DEVICE_BUSY)
  || (status =? HRESULT_FROM_WIN32_INVALID_USER_BUFFER)
  || (status =? HRESULT_FROM_WIN32_ERROR_BUSY).

Definition is_no_more_entries (status : Z) : bool :=
  (status =? HRESULT_FROM_NT_STATUS_NO_MORE_ENTRIES)
  || (status =? STATUS_NO_MORE_ENTRIES)
  || (status =? HRESULT_FROM_WIN32_ERROR_NO_MORE_ITEMS).

Definition check_hr (status : Z) (operation : string) : result unit error :=
  if status =? S_OK then Ok tt else Err (Failure operation [status]).

(** ** Completion identities *)

Definition CANCEL_COMPLETION_MARKER : Z := Z.shiftl 1 63.
Definition SLOT_BITS : Z := 31.
Definition GENERATION_SHIFT : Z := SLOT_BITS.
Definition GENERATION_BITS : Z := 32.
Definition SLOT_MASK : Z := Z.shiftl 1 SLOT_BITS - 1.
Definition GENERATION_MASK : Z := Z.shiftl 1 GENERATION_BITS - 1.

Definition encode_completion (slot generation : Z) : result Z error :=
  if SLOT_MASK <? slot
  then Err (Failure "slot count exceeds completion identity capacity" [])
  else if (generation =? 0) || (GENERATION_MASK <? generation)
  then Err (Failure "slot generation exceeds completion identity capacity" [])
  else Ok (Z.lor slot (wrap 64 (Z.shiftl generation GENERATION_SHIFT))).

Definition decode_completion (value : Z) : result (Z * Z) error :=
  if negb (Z.land value CANCEL_COMPLETION_MARKER =? 0)
  then Err (Failure "completion identity contains cancellation marker" [])
  else
    let slot := Z.land value SLOT_MASK in
    let generation := Z.land (Z.shiftr value GENERATION_SHIFT) GENERATION_MASK in
    if generation =? 0
    then Err (Failure "completion identity contains invalid generation" [])
    else Ok (slot, generation).

(** ** Retry delay, in nanoseconds *)

Definition milliseconds (n : Z) : Z := n * 1000000.
Definition BUSY_RETRY_INITIAL_DELAY : Z := milliseconds 1.
Definition BUSY_RETRY_MAX_DELAY : Z := milliseconds 64.
Definition MAX_BUSY_RETRIES : Z := 8.

(** [Duration::checked_mul]: whole seconds fit 64 bits. *)
Definition duration_checked_mul (d n : Z) : option Z :=
  if d * n <? 2 ^ 64 * 1000000000 then Some (d * n) else None.

Definition busy_retry_delay (retries : Z) : Z :=
  let shift := Z.min (saturating_sub retries 1) 6 in
  Z.min (default BUSY_RETRY_MAX_DELAY
           (duration_checked_mul BUSY_RETRY_INITIAL_DELAY (wrap 32 (Z.shiftl 1 shift))))
    BUSY_RETRY_MAX_DELAY.

(** ** Adaptive wait responses *)

Definition size_of_AdaptiveWaitResponse : Z := 4.

Definition validate_adaptive_wait_response (bytes interest satisfied : Z) : result unit error :=
  if negb (bytes =? size_of_AdaptiveWaitResponse)
     || (satisfied =? 0)
     || negb (Z.land satisfied (not_w 32 interest) =? 0)
  then Err (Failure "WAIT_FOR_CHANGE returned an invalid readiness response" [])
  else Ok tt.

(** ** Lemmas *)

(** The identity of a slot and a generation. *)
Definition identity (slot generation : Z) : Z := slot + generation * 2 ^ 31.

Lemma encode_Ok slot generation value :
  0 ≤ slot → 0 ≤ generation →
  encode_completion slot generation = Ok value ↔
    slot < 2 ^ 31 ∧ 0 < generation < 2 ^ 32 ∧ value = identity slot generation.
Proof.
  intros Hs Hg. unfold encode_completion, identity.
  change SLOT_MASK with (2 ^ 31 - 1). change GENERATION_MASK with (2 ^ 32 - 1).
  change GENERATION_SHIFT with 31.
  destruct (Z.ltb_spec (2 ^ 31 - 1) slot); [split; [done|lia]|].
  destruct (Z.eqb_spec generation 0); cbn [orb]; [split; [done|lia]|].
  destruct (Z.ltb_spec (2 ^ 32 - 1) generation); [split; [done|lia]|].
  rewrite wrap_small by (apply fits_shiftl; [lia|lia|split; [done|];
    change (64 - 31) with 33; change (2 ^ 33) with (2 * 2 ^ 32); lia]).
  rewrite lor_shiftl_add by (done || (unfold fits; lia)).
  split; [intros [= <-]; repeat split; lia|by intros (_ & _ & ->)].
Qed.

Lemma identity_fits slot generation :
  0 ≤ slot < 2 ^ 31 → 0 < generation < 2 ^ 32 → fits 63 (identity slot generation).
Proof.
  intros. unfold fits, identity. change (2 ^ 63) with (2 ^ 32 * 2 ^ 31). nia.
Qed.

(** The marker is one bit above every identity. *)
Lemma marker_land value : fits 63 value → Z.land value CANCEL_COMPLETION_MARKER = 0.
Proof.
  intros Hv. change CANCEL_COMPLETION_MARKER with (Z.shiftl 1 63).
  apply Z.bits_inj'. intros i Hi. rewrite Z.land_spec, Z.bits_0.
  destruct (Z.ltb_spec i 63).
  - rewrite Z.shiftl_spec_low by lia. apply andb_false_r.
  - by rewrite (testbit_fits 63).
Qed.

Lemma marker_lor value : fits 63 value →
  Z.lor CANCEL_COMPLETION_MARKER value = value + 2 ^ 63.
Proof.
  intros Hv. rewrite Z.lor_comm. change CANCEL_COMPLETION_MARKER with (Z.shiftl 1 63).
  rewrite lor_shiftl_add by (done || lia). lia.
Qed.

Lemma marker_set value : fits 63 value →
  Z.land (Z.lor CANCEL_COMPLETION_MARKER value) CANCEL_COMPLETION_MARKER ≠ 0.
Proof.
  intros Hv H. apply (f_equal (λ z, Z.testbit z 63)) in H.
  rewrite Z.land_spec, Z.lor_spec, Z.bits_0 in H. by vm_compute in H.
Qed.

Lemma marker_cleared value : fits 63 value →
  Z.land (Z.lor CANCEL_COMPLETION_MARKER value) (not_w 64 CANCEL_COMPLETION_MARKER) = value.
Proof.
  intros Hv. apply Z.bits_inj'. intros i Hi. rewrite Z.land_spec, Z.lor_spec.
  destruct (Z.ltb_spec i 63) as [Hlt|Hge].
  - rewrite not_w_spec by lia. change CANCEL_COMPLETION_MARKER with (Z.shiftl 1 63).
    rewrite Z.shiftl_spec_low by lia. cbn. apply andb_true_r.
  - rewrite (testbit_fits 63 value) by done. rewrite orb_false_r.
    destruct (Z.eqb_spec i 63) as [->|Hne]; [by vm_compute|].
    rewrite (testbit_fits 64 CANCEL_COMPLETION_MARKER); [done|by vm_compute|lia].
Qed.

Lemma decode_identity slot generation :
  0 ≤ slot < 2 ^ 31 → 0 < generation < 2 ^ 32 →
  decode_completion (identity slot generation) = Ok (slot, generation).
Proof.
  intros Hs Hg. unfold decode_completion.
  rewrite marker_land by (by apply identity_fits). cbn [Z.eqb negb].
  change SLOT_MASK with (Z.ones 31). change GENERATION_MASK with (Z.ones 32).
  change GENERATION_SHIFT with 31.
  rewrite !Z.land_ones, Z.shiftr_div_pow2 by lia. unfold identity.
  rewrite Z.mod_add, Z.div_add by lia. rewrite (Z.div_small slot), (Z.mod_small slot) by done.
  rewrite Z.add_0_l, Z.mod_small by lia.
  by destruct (Z.eqb_spec generation 0); [lia|].
Qed.

Lemma identity_inj s g s' g' :
  0 ≤ s < 2 ^ 31 → 0 ≤ s' < 2 ^ 31 → identity s g = identity s' g' → s = s' ∧ g = g'.
Proof. unfold identity. nia. Qed.

Lemma check_hr_Ok status operation : check_hr status operation = Ok tt ↔ status = S_OK.
Proof. unfold check_hr. by destruct (Z.eqb_spec status S_OK). Qed.

(** ** Theorems *)

(** C30: completion identities are a faithful code.  [encode_completion]
    succeeds exactly for a slot below 2^31 and a generation from 1 to 2^32 - 1;
    then the identity decodes back to that slot and generation, no other pair
    has it, it never carries the cancellation marker, and marking it for a
    cancellation and clearing the mark gives it back. *)
Theorem completion_round_trip (slot generation value : Z) :
  fits 64 slot → fits 64 generation →
  encode_completion slot generation = Ok value →
  decode_completion value = Ok (slot, generation) ∧
  slot ≤ SLOT_MASK ∧ 1 ≤ generation ≤ GENERATION_MASK ∧
  is_ok (decode_completion (Z.lor CANCEL_COMPLETION_MARKER value)) = false ∧
  Z.land (Z.lor CANCEL_COMPLETION_MARKER value) (not_w 64 CANCEL_COMPLETION_MARKER) = value ∧
  (∀ slot' generation', fits 64 slot' → fits 64 generation' →
     encode_completion slot' generation' = Ok value → slot' = slot ∧ generation' = generation).
Proof.
  intros [Hs _] [Hg _] He.
  apply encode_Ok in He as (Hs' & Hg' & ->); [|done..].
  assert (Hf : fits 63 (identity slot generation)) by (by apply identity_fits).
  change SLOT_MASK with (2 ^ 31 - 1). change GENERATION_MASK with (2 ^ 32 - 1).
  split; [by apply decode_identity|]. split; [lia|]. split; [lia|].
  split; [|split; [by apply marker_cleared|]].
  - unfold decode_completion.
    destruct (Z.eqb_spec (Z.land (Z.lor CANCEL_COMPLETION_MARKER (identity slot generation))
      CANCEL_COMPLETION_MARKER) 0) as [H|]; [by destruct (marker_set _ Hf)|done].
  - intros s' g' [Hs0 _] [Hg0 _] He. apply encode_Ok in He as (? & ? & He); [|done..].
    apply identity_inj in He; [|done..]. naive_solver.
Qed.

Lemma completion_round_trip_witness :
  decode_completion (5 + 9 * 2 ^ 31) = Ok (5, 9).
Proof.
  apply (completion_round_trip 5 9 (5 + 9 * 2 ^ 31)); [done|done|]. vm_compute. reflexivity.
Defined.

(** The delay before a busy operation is retried doubles from one
    millisecond and never exceeds 64, for every retry count a 32-bit counter
    can hold. *)
Theorem busy_retry_delay_bounded (retries : Z) :
  1 ≤ retries →
  busy_retry_delay retries = milliseconds (2 ^ Z.min (retries - 1) 6) ∧
  milliseconds 1 ≤ busy_retry_delay retries ≤ milliseconds 64.
Proof.
  intros Hr. unfold busy_retry_delay, saturating_sub. rewrite Z.max_l by lia.
  set (k := Z.min (retries - 1) 6).
  assert (Hk : k = 0 ∨ k = 1 ∨ k = 2 ∨ k = 3 ∨ k = 4 ∨ k = 5 ∨ k = 6) by lia.
  clearbody k. destruct Hk as [->|[->|[->|[->|[->|[->| ->]]]]]]; vm_compute; intuition discriminate.
Qed.

Lemma busy_retry_delay_bounded_witness : milliseconds 1 ≤ busy_retry_delay 5 ≤ milliseconds 64.
Proof. apply (busy_retry_delay_bounded 5). lia. Defined.
