(* ===== verification/Arguments.v ===== *)
(** * The command line of the switch ([wintap-switch/src/main.rs])

    GUID texts, endpoint specifications and the argument loop.  A string is
    the list of its bytes. *)

From S2P Require Import Prelude Words HardwareId BufferPool Selection Completion.

(** ** Text *)

Definition is_ascii_digit (b : Z) : bool := (48 <=? b) && (b <=? 57).
Definition is_ascii_hexdigit (b : Z) : bool :=
  is_ascii_digit b || ((97 <=? b) && (b <=? 102)) || ((65 <=? b) && (b <=? 70)).

Definition lower (b : Z) : Z := if (65 <=? b) && (b <=? 90) then b + 32 else b.
Definition to_ascii_lowercase (s : list Z) : list Z := lower <$> s.

(** [char::to_digit] *)
Definition digit_value (radix b : Z) : option Z :=
  let v := if is_ascii_digit b then Some (b - 48)
           else if (97 <=? b) && (b <=? 122) then Some (b - 87)
           else if (65 <=? b) && (b <=? 90) then Some (b - 55)
           else None in
  d ← v;
  if d <? radix then Some d else None.

Fixpoint digits (w radix acc : Z) (s : list Z) : option Z :=
  match s with
  | [] => Some acc
  | b :: s =>
      d ← digit_value radix b;
      shifted ← checked_mul w acc radix;
      acc ← checked_add w shifted d;
      digits w radix acc s
  end.

Definition PLUS : Z := 43.

(** [uN::from_str_radix]: an optional plus sign, then at least one digit. *)
Definition from_str_radix (w radix : Z) (s : list Z) : option Z :=
  match s with
  | [] => None
  | b :: rest =>
      if (b =? PLUS) && negb (bool_decide (rest = []))
      then digits w radix 0 rest else digits w radix 0 s
  end.

(** [str::split] and [str::split_once] at one character. *)
Fixpoint split (sep : Z) (s : list Z) : list (list Z) :=
  match s with
  | [] => [[]]
  | b :: s =>
      match split sep s with
      | part :: parts => if b =? sep then [] :: part :: parts else (b :: part) :: parts
      | [] => [[b]]
      end
  end.

Fixpoint split_once (sep : Z) (s : list Z) : option (list Z * list Z) :=
  match s with
  | [] => None
  | b :: s =>
      if b =? sep then Some ([], s)
      else '(before, after) ← split_once sep s; Some (b :: before, after)
  end.

Fixpoint starts_with (s prefix : list Z) : bool :=
  match prefix, s with
  | [], _ => true
  | p :: prefix, b :: s => (b =? p) && starts_with s prefix
  | _, [] => false
  end.

(** ** GUIDs *)

Record Guid := { data1 : Z; data2 : Z; data3 : Z; data4 : list Z }.

#[export] Instance Guid_eq_dec : EqDecision Guid.
Proof. solve_decision. Defined.

Definition HYPHEN : Z := 45.

Definition is_guid (value : list Z) : bool :=
  (len value =? 36)
  && forallb (λ p : nat * Z,
       let (index, byte) := p in
       match index with
       | 8%nat | 13%nat | 18%nat | 23%nat => byte =? HYPHEN
       | _ => is_ascii_hexdigit byte
       end) (zip (seq 0 (length value)) value).

(** [u32::try_from] and the like. *)
Definition try_from (w x : Z) : option Z := if x <? 2 ^ w then Some x else None.

Definition guid_fields (part0 part1 part2 part3 part4 : list Z) : option Guid :=
  d1 ← from_str_radix 64 16 part0; d1 ← try_from 32 d1;
  d2 ← from_str_radix 64 16 part1; d2 ← try_from 16 d2;
  d3 ← from_str_radix 64 16 part2; d3 ← try_from 16 d3;
  d4a ← from_str_radix 64 16 part3; d4a ← try_from 16 d4a;
  d4b ← from_str_radix 64 16 part4; d4b ← try_from 64 d4b;
  Some {| data1 := d1; data2 := d2; data3 := d3;
          data4 := [wrap 8 (Z.shiftr d4a 8); wrap 8 d4a;
                    wrap 8 (Z.shiftr d4b 40); wrap 8 (Z.shiftr d4b 32);
                    wrap 8 (Z.shiftr d4b 24); wrap 8 (Z.shiftr d4b 16);
                    wrap 8 (Z.shiftr d4b 8); wrap 8 d4b] |}.

Definition invalid_guid : error := Failure "invalid GUID" [].

Definition parse_guid (value : list Z) : result Guid error :=
  match split HYPHEN value with
  | [part0; part1; part2; part3; part4] =>
      if negb (len part0 =? 8) || negb (len part1 =? 4) || negb (len part2 =? 4)
         || negb (len part3 =? 4) || negb (len part4 =? 12)
      then Err invalid_guid
      else ok_or (guid_fields part0 part1 part2 part3 part4) invalid_guid
  | _ => Err invalid_guid
  end.

(** ** Endpoints *)

Record EndpointConfig := { config_guid : list Z; interface_path : list Z }.

#[export] Instance EndpointConfig_eq_dec : EqDecision EndpointConfig.
Proof. solve_decision. Defined.

(** The bytes of [\\?\]. *)
Definition DEVICE_PREFIX : list Z := [92; 92; 63; 92].

Definition parse_endpoint (value : list Z) : result EndpointConfig error :=
  match split_once 61 value with
  | None => Err (Failure "--endpoint must be <GUID>=<device-interface-path>" [])
  | Some (guid, path) =>
      if negb (is_guid guid) || negb (starts_with path DEVICE_PREFIX)
      then Err (Failure "invalid dynamic endpoint" [])
      else Ok {| config_guid := to_ascii_lowercase guid; interface_path := path |}
  end.

(** ** The argument loop *)

Definition ENDPOINT_COUNT : Z := 2.
Definition DEFAULT_READ_DEPTH : Z := 128.
Definition DEFAULT_WAIT_OPERATIONS : Z := 32.
Definition DEFAULT_COMPLETION_WAIT_MILLISECONDS : Z := 1.
Definition microseconds (n : Z) : Z := n * 1000.
Definition DEFAULT_ADAPTIVE_POLLING_BUDGET : Z := microseconds 100.

Record options := {
  read_depth : Z;
  stats_enabled : bool;
  option_wait_operations : Z;
  option_completion_wait_milliseconds : Z;
  option_polling_budget : Z;
  option_endpoints : list EndpointConfig;
}.

#[export] Instance options_eta : Eta options := λ o,
  Build_options (read_depth o) (stats_enabled o) (option_wait_operations o)
    (option_completion_wait_milliseconds o) (option_polling_budget o) (option_endpoints o).

Definition default_options : options :=
  {| read_depth := DEFAULT_READ_DEPTH; stats_enabled := false;
     option_wait_operations := DEFAULT_WAIT_OPERATIONS;
     option_completion_wait_milliseconds := DEFAULT_COMPLETION_WAIT_MILLISECONDS;
     option_polling_budget := DEFAULT_ADAPTIVE_POLLING_BUDGET; option_endpoints := [] |}.

(** [--help] prints the usage and exits with status 0. *)
Inductive arguments :=
  | Help
  | Parsed (r : result options error).

(** A numeric argument's value as [value.parse()] reads it. *)
Definition parse_number (w : Z) (value : list Z) (text : string) : result Z error :=
  ok_or (from_str_radix w 10 value) (Failure text []).

Definition duplicates (endpoints : list EndpointConfig) (endpoint : EndpointConfig) : bool :=
  existsb (λ existing,
    bool_decide (config_guid existing = config_guid endpoint)
    || bool_decide (interface_path existing = interface_path endpoint)) endpoints.

Definition finish_arguments (o : options) : arguments :=
  if len (option_endpoints o) =? ENDPOINT_COUNT then Parsed (Ok o)
  else Parsed (Err (Failure "exactly 2 GUID-correlated --endpoint values are required"
         [len (option_endpoints o)])).

Definition set_read_depth (o : options) (value : list Z) : result options error :=
  let? n := parse_number 64 value "invalid read depth" in Ok (o <| read_depth := n |>).

Definition set_wait_operations (o : options) (value : list Z) : result options error :=
  let? n := parse_number 32 value "invalid wait operations" in
  Ok (o <| option_wait_operations := n |>).

Definition set_completion_timeout (o : options) (value : list Z) : result options error :=
  let? n := parse_number 32 value "invalid completion timeout" in
  Ok (o <| option_completion_wait_milliseconds := n |>).

Definition set_polling_budget (o : options) (value : list Z) : result options error :=
  let? n := parse_number 64 value "invalid adaptive polling budget" in
  if n =? 0 then Err (Failure "adaptive polling budget must be positive" [])
  else Ok (o <| option_polling_budget := microseconds n |>).

Definition add_endpoint (o : options) (value : list Z) : result options error :=
  let? endpoint := parse_endpoint value in
  if duplicates (option_endpoints o) endpoint
  then Err (Failure "duplicate dynamic endpoint GUID or interface path" [])
  else Ok (o <| option_endpoints := option_endpoints o ++ [endpoint] |>).

(** The arguments that take a value: its effect, and the error without one. *)
Definition valued (argument : list Z) :
    option ((options → list Z → result options error) * string) :=
  if bool_decide (argument = u16s "--read-depth")
  then Some (set_read_depth, "--read-depth requires a value"%string)
  else if bool_decide (argument = u16s "--wait-operations")
  then Some (set_wait_operations, "--wait-operations requires a value"%string)
  else if bool_decide (argument = u16s "--completion-timeout-ms")
  then Some (set_completion_timeout, "--completion-timeout-ms requires a value"%string)
  else if bool_decide (argument = u16s "--adaptive-polling-budget-us")
  then Some (set_polling_budget, "--adaptive-polling-budget-us requires a value"%string)
  else if bool_decide (argument = u16s "--endpoint")
  then Some (add_endpoint, "--endpoint requires <GUID>=<device-interface-path>"%string)
  else None.

Fixpoint parse_loop (o : options) (args : list (list Z)) : arguments :=
  match args with
  | [] => finish_arguments o
  | argument :: args =>
      match valued argument with
      | Some (effect, missing) =>
          match args with
          | [] => Parsed (Err (Failure missing []))
          | value :: args =>
              match effect o value with
              | Ok o => parse_loop o args
              | Err e => Parsed (Err e)
              end
          end
      | None =>
          if bool_decide (argument = u16s "--stats")
          then parse_loop (o <| stats_enabled := true |>) args
          else if bool_decide (argument = u16s "--help") || bool_decide (argument = u16s "-h")
          then Help
          else Parsed (Err (Failure "unknown argument" []))
      end
  end.

(** [args] is what follows the program's name. *)
Definition parse_arguments (args : list (list Z)) : arguments := parse_loop default_options args.

(** ** Lemmas on texts *)

(** The value of a digit string, most significant first. *)
Definition place (radix : Z) (acc d : Z) : Z := acc * radix + d.

Lemma digits_value w radix s : 1 < radix → ∀ acc r, 0 ≤ acc →
  Forall (λ b, ∃ d, digit_value radix b = Some d ∧ 0 ≤ d < radix) s →
  (acc + 1) * radix ^ len s ≤ 2 ^ w →
  digits w radix acc s = Some r ↔
  ∃ ds, mapM (digit_value radix) s = Some ds ∧ r = foldl (place radix) acc ds.
Proof.
  intros Hradix. induction s as [|b s IH]; intros acc r Hacc Hs Hfit.
  - cbn. split; [intros [= <-]; by exists []|by intros (ds & [= <-] & ->)].
  - apply Forall_cons in Hs as [(d & Hd & Hlt) Hs]. cbn [digits mapM]. rewrite Hd. cbn.
    rewrite len_cons, Z.pow_add_r in Hfit by (pose proof (len_nonneg s); lia).
    change (radix ^ 1) with (radix * 1) in Hfit. rewrite Z.mul_1_r in Hfit.
    assert (Hp : 0 < radix ^ len s) by (apply Z.pow_pos_nonneg; [lia|apply len_nonneg]).
    assert (Hle : (acc * radix + d + 1) * radix ^ len s ≤ 2 ^ w) by nia.
    unfold checked_mul. rewrite (proj2 (Z.ltb_lt (acc * radix) (2 ^ w))) by nia. cbn.
    unfold checked_add. rewrite (proj2 (Z.ltb_lt (acc * radix + d) (2 ^ w))) by nia. cbn.
    rewrite IH by (done || nia). split.
    + intros (ds & Hds & ->). exists (d :: ds). by rewrite Hds.
    + intros (ds & Hds & ->).
      destruct (mapM (digit_value radix) s) as [ds'|]; [|done]. injection Hds as <-. by exists ds'.
Qed.

Lemma foldl_place_inj radix ds : 0 < radix → ∀ es acc acc',
  length ds = length es → Forall (λ d, 0 ≤ d < radix) ds → Forall (λ d, 0 ≤ d < radix) es →
  foldl (place radix) acc ds = foldl (place radix) acc' es → acc = acc' ∧ ds = es.
Proof.
  intros Hr. induction ds as [|d ds IH]; intros [|e es] acc acc' Hlen Hd He H; try done.
  apply Forall_cons in Hd as [Hd Hds], He as [He Hes]. cbn in H.
  destruct (IH es _ _ ltac:(by injection Hlen) Hds Hes H) as [Hacc ->].
  unfold place in Hacc. assert (acc = acc') by nia. subst. split; [done|].
  f_equal. lia.
Qed.

Lemma foldl_place_bound radix ds : 0 < radix → ∀ acc, 0 ≤ acc →
  Forall (λ d, 0 ≤ d < radix) ds →
  0 ≤ foldl (place radix) acc ds < (acc + 1) * radix ^ Z.of_nat (length ds).
Proof.
  intros Hr. induction ds as [|d ds IH]; intros acc Hacc Hds.
  - cbn. rewrite Z.mul_1_r. lia.
  - apply Forall_cons in Hds as [Hd Hds]. cbn [foldl length].
    destruct (IH (place radix acc d)) as [Hlo Hhi]; [unfold place; nia|done|].
    split; [done|]. eapply Z.lt_le_trans; [exact Hhi|].
    rewrite Nat2Z.inj_succ, Z.pow_succ_r by lia. unfold place.
    assert (0 < radix ^ Z.of_nat (length ds)) by (apply Z.pow_pos_nonneg; lia). nia.
Qed.

(** Lower-case hexadecimal digits. *)
Definition hex_lower (b : Z) : Prop := 48 ≤ b ≤ 57 ∨ 97 ≤ b ≤ 102.

Lemma hex_lower_digit b : hex_lower b →
  ∃ d, digit_value 16 b = Some d ∧ 0 ≤ d < 16 ∧ b = if d <? 10 then d + 48 else d + 87.
Proof.
  unfold hex_lower, digit_value, is_ascii_digit. intros [H|H].
  - rewrite (proj2 (Z.leb_le 48 b)), (proj2 (Z.leb_le b 57)) by lia. cbn.
    rewrite (proj2 (Z.ltb_lt (b - 48) 16)) by lia. eexists. split; [done|]. split; [lia|].
    rewrite (proj2 (Z.ltb_lt (b - 48) 10)) by lia. lia.
  - rewrite (proj2 (Z.leb_le 48 b)), (proj2 (Z.leb_gt b 57)) by lia. cbn.
    rewrite (proj2 (Z.leb_le 97 b)), (proj2 (Z.leb_le b 122)) by lia. cbn.
    rewrite (proj2 (Z.ltb_lt (b - 87) 16)) by lia. eexists. split; [done|]. split; [lia|].
    rewrite (proj2 (Z.ltb_ge (b - 87) 10)) by lia. lia.
Qed.

Lemma lower_hex b : is_ascii_hexdigit b = true → hex_lower (lower b).
Proof.
  unfold is_ascii_hexdigit, is_ascii_digit, lower, hex_lower. intros H.
  repeat (rewrite orb_true_iff in H || rewrite andb_true_iff in H || rewrite Z.leb_le in H).
  destruct (Z.leb_spec 65 b), (Z.leb_spec b 90); cbn; lia.
Qed.

(** The value of a string of lower-case hexadecimal digits. *)
Definition hex_digits (s : list Z) : list Z :=
  (λ b, default 0 (digit_value 16 b)) <$> s.
Definition hex_value (s : list Z) : Z := foldl (place 16) 0 (hex_digits s).

Lemma hex_mapM s : Forall hex_lower s → mapM (digit_value 16) s = Some (hex_digits s).
Proof.
  induction 1 as [|b s Hb Hs IH]; [done|]. cbn [mapM].
  destruct (hex_lower_digit b Hb) as (d & Hd & _). unfold hex_digits. cbn.
  rewrite Hd. cbn. rewrite IH. done.
Qed.

Lemma hex_digits_range s : Forall hex_lower s → Forall (λ d, 0 ≤ d < 16) (hex_digits s).
Proof.
  induction 1 as [|b s Hb Hs IH]; cbn; constructor; [|done].
  destruct (hex_lower_digit b Hb) as (d & -> & ? & _). done.
Qed.

Lemma hex_digits_inj s t : Forall hex_lower s → Forall hex_lower t →
  hex_digits s = hex_digits t → s = t.
Proof.
  intros Hs. revert t. induction Hs as [|b s Hb Hs IH]; intros t Ht H.
  - by destruct t.
  - destruct t as [|c t]; [done|]. apply Forall_cons in Ht as [Hc Ht]. cbn in H.
    injection H as Hbc H. rewrite (IH t Ht H). f_equal.
    destruct (hex_lower_digit b Hb) as (d & Hd & _ & ->), (hex_lower_digit c Hc) as (d' & Hd' & _ & ->).
    rewrite Hd, Hd' in Hbc. cbn in Hbc. by subst.
Qed.

Lemma hex_value_inj s t : length s = length t → Forall hex_lower s → Forall hex_lower t →
  hex_value s = hex_value t → s = t.
Proof.
  intros Hl Hs Ht H. apply hex_digits_inj; [done..|].
  apply (foldl_place_inj 16) in H as [_ H]; [done|lia| |by apply hex_digits_range..].
  unfold hex_digits. by rewrite !length_fmap.
Qed.

Lemma hex_value_fits s : Forall hex_lower s → fits (4 * len s) (hex_value s).
Proof.
  intros Hs. unfold fits. rewrite Z.pow_mul_r by (pose proof (len_nonneg s); lia).
  change (2 ^ 4) with 16.
  pose proof (foldl_place_bound 16 (hex_digits s) ltac:(lia) 0 ltac:(lia) (hex_digits_range s Hs)) as H.
  assert (length (hex_digits s) = length s) as Hl by apply length_fmap.
  rewrite Hl, Z.mul_1_l in H. exact H.
Qed.

Lemma from_str_radix_hex s : Forall hex_lower s → 0 < len s ≤ 16 →
  from_str_radix 64 16 s = Some (hex_value s).
Proof.
  intros Hs Hl.
  assert (Hd : digits 64 16 0 s = Some (hex_value s)).
  { apply digits_value; [lia|lia| | |].
    - apply (Forall_impl _ _ _ Hs). intros b Hb.
      destruct (hex_lower_digit b Hb) as (d & ? & ? & _). eauto.
    - change (2 ^ 64) with (16 ^ 16). change (0 + 1) with 1. rewrite Z.mul_1_l. apply Z.pow_le_mono_r; lia.
    - exists (hex_digits s). by rewrite hex_mapM. }
  destruct s as [|b s]; [unfold len in Hl; cbn in Hl; lia|].
  unfold from_str_radix. apply Forall_cons in Hs as [Hb _].
  destruct (Z.eqb_spec b PLUS) as [->|Hne]; [|done].
  unfold hex_lower, PLUS in Hb. lia.
Qed.

(** ** The hyphens of a GUID *)

Lemma split_no_sep sep s : Forall (λ b, b ≠ sep) s → split sep s = [s].
Proof.
  induction 1 as [|b s Hb Hs IH]; [done|]. cbn. rewrite IH.
  by destruct (Z.eqb_spec b sep).
Qed.

Lemma split_nonempty sep s : split sep s ≠ [].
Proof. destruct s as [|b s]; cbn; [done|]. by destruct (split sep s), (b =? sep). Qed.

Lemma split_app sep s t : Forall (λ b, b ≠ sep) s → split sep (s ++ sep :: t) = s :: split sep t.
Proof.
  induction 1 as [|b s Hb Hs IH]; cbn.
  - rewrite Z.eqb_refl. pose proof (split_nonempty sep t). by destruct (split sep t).
  - rewrite IH. by destruct (Z.eqb_spec b sep).
Qed.

Definition guid_text (p0 p1 p2 p3 p4 : list Z) : list Z :=
  p0 ++ HYPHEN :: p1 ++ HYPHEN :: p2 ++ HYPHEN :: p3 ++ HYPHEN :: p4.

Record guid_parts (p0 p1 p2 p3 p4 : list Z) : Prop := {
  part_hex : Forall (Forall hex_lower) [p0; p1; p2; p3; p4];
  part_0 : length p0 = 8%nat;
  part_1 : length p1 = 4%nat;
  part_2 : length p2 = 4%nat;
  part_3 : length p3 = 4%nat;
  part_4 : length p4 = 12%nat;
}.

(** An accepted GUID in lower case is five groups of hexadecimal digits. *)
Lemma is_guid_parts value : is_guid value = true →
  ∃ p0 p1 p2 p3 p4, to_ascii_lowercase value = guid_text p0 p1 p2 p3 p4 ∧
    guid_parts p0 p1 p2 p3 p4.
Proof.
  unfold is_guid. intros [Hlen%Z.eqb_eq Hall]%andb_true_iff. unfold len in Hlen.
  do 36 (destruct value as [|? value]; [discriminate Hlen|]).
  destruct value; [clear Hlen|cbn [length] in Hlen; lia].
  cbn [length seq zip zip_with forallb] in Hall.
  repeat (apply andb_true_iff in Hall as [? Hall]).
  repeat match goal with H : (_ =? HYPHEN) = true |- _ => apply Z.eqb_eq in H; subst end.
  repeat match goal with H : is_ascii_hexdigit _ = true |- _ => apply lower_hex in H end.
  unfold to_ascii_lowercase. cbn [fmap list_fmap].
  lazymatch goal with |- ∃ _ _ _ _ _, ?l = _ ∧ _ =>
    exists (take 8 l), (take 4 (drop 9 l)), (take 4 (drop 14 l)), (take 4 (drop 19 l)), (drop 24 l)
  end.
  cbn [take drop]. split; [reflexivity|]. split; [|reflexivity..].
  repeat (apply List.Forall_cons || apply List.Forall_nil); assumption.
Qed.

Lemma hex_lower_not_hyphen s : Forall hex_lower s → Forall (λ b, b ≠ HYPHEN) s.
Proof. intros Hs. apply (Forall_impl _ _ _ Hs). unfold hex_lower, HYPHEN. lia. Qed.

Definition guid_of_parts (p0 p1 p2 p3 p4 : list Z) : Guid :=
  {| data1 := hex_value p0; data2 := hex_value p1; data3 := hex_value p2;
     data4 := let a := hex_value p3 in let b := hex_value p4 in
              [wrap 8 (Z.shiftr a 8); wrap 8 a; wrap 8 (Z.shiftr b 40); wrap 8 (Z.shiftr b 32);
               wrap 8 (Z.shiftr b 24); wrap 8 (Z.shiftr b 16); wrap 8 (Z.shiftr b 8); wrap 8 b] |}.

Lemma try_from_fits w x : fits w x → try_from w x = Some x.
Proof. unfold try_from, fits. intros. by rewrite (proj2 (Z.ltb_lt x (2 ^ w))) by lia. Qed.

Lemma parse_guid_parts p0 p1 p2 p3 p4 : guid_parts p0 p1 p2 p3 p4 →
  parse_guid (guid_text p0 p1 p2 p3 p4) = Ok (guid_of_parts p0 p1 p2 p3 p4).
Proof.
  intros [Hhex H0 H1 H2 H3 H4].
  repeat (apply Forall_cons in Hhex as [? Hhex]).
  assert (∀ p n, Forall hex_lower p → length p = n → (0 < n ≤ 12)%nat →
    from_str_radix 64 16 p = Some (hex_value p) ∧ fits (4 * Z.of_nat n) (hex_value p)) as Hp.
  { intros p n Hp <- Hn. split; [apply from_str_radix_hex; [done|unfold len; lia]|].
    by apply hex_value_fits. }
  unfold parse_guid, guid_text.
  rewrite !split_app by (by apply hex_lower_not_hyphen).
  rewrite split_no_sep by (by apply hex_lower_not_hyphen).
  unfold len. rewrite H0, H1, H2, H3, H4. cbn [Z.eqb negb orb Z.of_nat].
  unfold guid_fields.
  destruct (Hp p0 8%nat) as [-> F0]; [done..|lia|]. destruct (Hp p1 4%nat) as [-> F1]; [done..|lia|].
  destruct (Hp p2 4%nat) as [-> F2]; [done..|lia|]. destruct (Hp p3 4%nat) as [-> F3]; [done..|lia|].
  destruct (Hp p4 12%nat) as [-> F4]; [done..|lia|].
  cbn [mbind option_bind].
  rewrite (try_from_fits 32) by exact F0. cbn [mbind option_bind].
  rewrite (try_from_fits 16 (hex_value p1)) by exact F1. cbn [mbind option_bind].
  rewrite (try_from_fits 16 (hex_value p2)) by exact F2. cbn [mbind option_bind].
  rewrite (try_from_fits 16 (hex_value p3)) by exact F3. cbn [mbind option_bind].
  by rewrite (try_from_fits 64) by (by apply (fits_weaken (4 * Z.of_nat 12))).
Qed.

(** The bytes of a word determine it. *)
Lemma bytes_2_inj a b : fits 16 a → fits 16 b →
  wrap 8 (Z.shiftr a 8) = wrap 8 (Z.shiftr b 8) → wrap 8 a = wrap 8 b → a = b.
Proof.
  unfold fits, wrap. rewrite !Z.shiftr_div_pow2 by lia. change (2 ^ 8) with 256.
  change (2 ^ 16) with 65536. intros.
  rewrite !(Z.mod_small (_ / 256)) in * by (split; [apply Z.div_pos; lia|apply Z.div_lt_upper_bound; lia]).
  pose proof (Z.div_mod a 256 ltac:(lia)). pose proof (Z.div_mod b 256 ltac:(lia)). lia.
Qed.

Lemma byte_step n x y : 0 ≤ n →
  Z.shiftr x (n + 8) = Z.shiftr y (n + 8) → wrap 8 (Z.shiftr x n) = wrap 8 (Z.shiftr y n) →
  Z.shiftr x n = Z.shiftr y n.
Proof.
  intros Hn. rewrite <- !Z.shiftr_shiftr by lia. unfold wrap.
  rewrite !(Z.shiftr_div_pow2 (Z.shiftr _ n)) by lia. intros.
  pose proof (Z.div_mod (Z.shiftr x n) (2 ^ 8) ltac:(lia)).
  pose proof (Z.div_mod (Z.shiftr y n) (2 ^ 8) ltac:(lia)). lia.
Qed.

Lemma shiftr_fits_0 w x : 0 ≤ w → fits w x → Z.shiftr x w = 0.
Proof. intros Hw [? ?]. rewrite Z.shiftr_div_pow2 by done. by apply Z.div_small. Qed.

Lemma bytes_6_inj a b : fits 48 a → fits 48 b →
  wrap 8 (Z.shiftr a 40) = wrap 8 (Z.shiftr b 40) → wrap 8 (Z.shiftr a 32) = wrap 8 (Z.shiftr b 32) →
  wrap 8 (Z.shiftr a 24) = wrap 8 (Z.shiftr b 24) → wrap 8 (Z.shiftr a 16) = wrap 8 (Z.shiftr b 16) →
  wrap 8 (Z.shiftr a 8) = wrap 8 (Z.shiftr b 8) → wrap 8 a = wrap 8 b → a = b.
Proof.
  intros Ha Hb H40 H32 H24 H16 H8 H0.
  assert (E48 : Z.shiftr a 48 = Z.shiftr b 48) by (by rewrite !shiftr_fits_0).
  pose proof (byte_step 40 a b ltac:(lia) E48 H40) as E40.
  pose proof (byte_step 32 a b ltac:(lia) E40 H32) as E32.
  pose proof (byte_step 24 a b ltac:(lia) E32 H24) as E24.
  pose proof (byte_step 16 a b ltac:(lia) E24 H16) as E16.
  pose proof (byte_step 8 a b ltac:(lia) E16 H8) as E8.
  pose proof (byte_step 0 a b ltac:(lia) E8) as E0. rewrite !Z.shiftr_0_r in E0. auto.
Qed.

Lemma guid_of_parts_inj p0 p1 p2 p3 p4 q0 q1 q2 q3 q4 :
  guid_parts p0 p1 p2 p3 p4 → guid_parts q0 q1 q2 q3 q4 →
  guid_of_parts p0 p1 p2 p3 p4 = guid_of_parts q0 q1 q2 q3 q4 →
  guid_text p0 p1 p2 p3 p4 = guid_text q0 q1 q2 q3 q4.
Proof.
  intros [Hp P0 P1 P2 P3 P4] [Hq Q0 Q1 Q2 Q3 Q4] H.
  repeat (apply Forall_cons in Hp as [? Hp]). repeat (apply Forall_cons in Hq as [? Hq]).
  assert (∀ p w n, Forall hex_lower p → length p = n → w = 4 * Z.of_nat n → fits w (hex_value p)) as Hf.
  { intros p w n Hh <- ->. by apply hex_value_fits. }
  unfold guid_of_parts in H. injection H as E0 E1 E2 E3 E4 E5 E6 E7 E8 E9 E10.
  assert (hex_value p3 = hex_value q3) as E by (apply bytes_2_inj; done || by eapply Hf).
  assert (hex_value p4 = hex_value q4) as E' by (apply bytes_6_inj; done || by eapply Hf).
  unfold guid_text. repeat f_equal; apply hex_value_inj; congruence.
Qed.

(** ** Theorems *)

(** C32: an accepted endpoint names one adapter.  The GUID text it stores is the
    argument's in lower case, [parse_guid] accepts it, and two accepted
    endpoints store the same text exactly when they name the same GUID, so the
    duplicate test on texts is a test on GUIDs; the interface path has the
    device prefix. *)
Theorem endpoint_guid_canonical (v1 v2 : list Z) (c1 c2 : EndpointConfig)
    (H1 : parse_endpoint v1 = Ok c1) (H2 : parse_endpoint v2 = Ok c2) :
  starts_with (interface_path c1) DEVICE_PREFIX = true ∧
  len (config_guid c1) = 36 ∧
  ∃ g1 g2, parse_guid (config_guid c1) = Ok g1 ∧ parse_guid (config_guid c2) = Ok g2 ∧
    (g1 = g2 ↔ config_guid c1 = config_guid c2).
Proof.
  assert (∀ v c, parse_endpoint v = Ok c → starts_with (interface_path c) DEVICE_PREFIX = true ∧
    ∃ p0 p1 p2 p3 p4, config_guid c = guid_text p0 p1 p2 p3 p4 ∧ guid_parts p0 p1 p2 p3 p4) as Hc.
  { intros v c. unfold parse_endpoint. destruct (split_once 61 v) as [[g p]|]; [|done].
    destruct (is_guid g) eqn:Hg; cbn [negb orb]; [|done].
    destruct (starts_with p DEVICE_PREFIX) eqn:Hpre; cbn [negb]; [|done].
    intros [= <-]. split; [done|]. by apply is_guid_parts. }
  destruct (Hc _ _ H1) as (Hpre & p0 & p1 & p2 & p3 & p4 & E1 & P1).
  destruct (Hc _ _ H2) as (_ & q0 & q1 & q2 & q3 & q4 & E2 & P2).
  split; [done|]. rewrite E1, E2. split.
  { destruct P1. unfold guid_text, len.
    repeat (rewrite length_app || cbn [length]). lia. }
  eexists _, _. split; [by apply parse_guid_parts|]. split; [by apply parse_guid_parts|].
  split; [by apply guid_of_parts_inj|]. intros He.
  pose proof (parse_guid_parts _ _ _ _ _ P1) as F1. rewrite He, (parse_guid_parts _ _ _ _ _ P2) in F1.
  congruence.
Qed.

Definition example_endpoint : list Z :=
  u16s "25D32EDF-7c8c-4f09-901f-650b232e864d=\\?\a".

Lemma endpoint_guid_canonical_witness :
  ∃ c g, parse_endpoint example_endpoint = Ok c ∧ parse_guid (config_guid c) = Ok g.
Proof.
  destruct (parse_endpoint example_endpoint) as [c|] eqn:Hc; [|vm_compute in Hc; discriminate Hc].
  destruct (endpoint_guid_canonical _ _ _ _ Hc Hc) as (_ & _ & g & _ & Hg & _).
  exists c, g. split; [reflexivity|exact Hg].
Defined.

(** What the loop has accepted so far. *)
Record options_ok (o : options) : Prop := {
  depth_fits : fits 64 (read_depth o);
  wait_fits : fits 32 (option_wait_operations o);
  timeout_fits : fits 32 (option_completion_wait_milliseconds o);
  budget_positive : 0 < option_polling_budget o < 2 ^ 64 * 1000000000;
  endpoints_valid : Forall (λ c, ∃ v, parse_endpoint v = Ok c) (option_endpoints o);
  guids_distinct : NoDup (config_guid <$> option_endpoints o);
  paths_distinct : NoDup (interface_path <$> option_endpoints o);
}.

Lemma digits_fits w radix s : 0 ≤ radix → ∀ acc r, fits w acc → digits w radix acc s = Some r → fits w r.
Proof.
  intros Hr. induction s as [|b s IH]; intros acc r Hacc H; cbn in H; [by simplify_eq|].
  destruct (digit_value radix b) as [d|] eqn:Hd; [|done]. cbn in H.
  unfold checked_mul in H. split_if_in H; [|done]. cbn in H.
  unfold checked_add in H. split_if_in H; [|done]. cbn in H. bool_reflect.
  apply (IH _ _) in H; [done|]. unfold fits in *. split; [|done].
  assert (0 ≤ d); [|nia].
  unfold digit_value, is_ascii_digit in Hd. repeat split_if_in Hd; simplify_eq/=; bool_reflect;
    repeat split_if_in Hd; simplify_eq/=; bool_reflect; lia.
Qed.

Lemma from_str_radix_fits w radix s r : 0 ≤ radix → 0 ≤ w → from_str_radix w radix s = Some r → fits w r.
Proof.
  intros Hr Hw H. assert (fits w 0) by (split; [done|by apply Z.pow_pos_nonneg]).
  unfold from_str_radix in H.
  repeat split_match_in H; try done; by apply digits_fits in H.
Qed.

Lemma parse_number_fits w s text n : 0 ≤ w → parse_number w s text = Ok n → fits w n.
Proof.
  intros Hw. unfold parse_number, ok_or. destruct (from_str_radix w 10 s) eqn:H; [|done].
  intros [= <-]. by apply from_str_radix_fits in H.
Qed.

Lemma no_duplicate endpoints c : duplicates endpoints c = false →
  (config_guid c ∉ config_guid <$> endpoints) ∧ (interface_path c ∉ interface_path <$> endpoints).
Proof.
  intros H. apply not_true_iff_false in H. unfold duplicates in H. rewrite existsb_exists in H.
  split; intros (c' & Heq & Hc')%list_elem_of_fmap; apply H; exists c';
    rewrite <- list_elem_of_In; split; try done.
  - by rewrite (bool_decide_true (config_guid c' = config_guid c)) by congruence.
  - by rewrite (bool_decide_true (interface_path c' = interface_path c)), orb_true_r by congruence.
Qed.

Lemma valued_ok argument effect missing o value o' :
  valued argument = Some (effect, missing) → options_ok o → effect o value = Ok o' → options_ok o'.
Proof.
  intros Hv [D W T B V G P] He. unfold valued in Hv. repeat split_if_in Hv; simplify_eq.
  - unfold set_read_depth in He. split_match_in He; simplify_eq.
    split; try done. by eapply parse_number_fits.
  - unfold set_wait_operations in He. split_match_in He; simplify_eq.
    split; try done. by eapply parse_number_fits.
  - unfold set_completion_timeout in He. split_match_in He; simplify_eq.
    split; try done. by eapply parse_number_fits.
  - unfold set_polling_budget in He. destruct (parse_number _ _ _) as [n|] eqn:Hn; [|done].
    apply parse_number_fits in Hn as [? ?]; [|done].
    destruct (Z.eqb_spec n 0); simplify_eq. split; try done. cbn. unfold microseconds. lia.
  - unfold add_endpoint in He. destruct (parse_endpoint value) as [c|] eqn:Hc; [|done].
    destruct (duplicates (option_endpoints o) c) eqn:Hd; simplify_eq.
    apply no_duplicate in Hd as [? ?].
    split; try done; cbn; rewrite ?fmap_app; try (apply NoDup_app; split_and!; try done;
      [by intros x Hx ->%list_elem_of_singleton|apply NoDup_singleton]).
    apply Forall_app. split; [done|]. constructor; [by eexists|done].
Qed.

Lemma parse_loop_ok n : ∀ args o o', (length args ≤ n)%nat → options_ok o →
  parse_loop o args = Parsed (Ok o') → options_ok o' ∧ len (option_endpoints o') = ENDPOINT_COUNT.
Proof.
  induction n as [|n IH]; intros [|a args] o o' Hn Ho H; cbn in Hn; try lia; cbn [parse_loop] in H;
    try (unfold finish_arguments in H; destruct (Z.eqb_spec (len (option_endpoints o)) ENDPOINT_COUNT);
         by simplify_eq).
  destruct (valued a) as [[effect missing]|] eqn:Hv.
  - destruct args as [|v args]; [done|]. destruct (effect o v) as [o1|] eqn:He; [|done].
    apply (IH args o1 o'); [cbn in Hn; lia|by eapply valued_ok|done].
  - case_bool_decide.
    + apply (IH args (o <| stats_enabled := true |>) o'); [lia|by destruct Ho; split|done].
    + by case_bool_decide; [|case_bool_decide].
Qed.

(** What the run time relies on. *)
Lemma accepted_options args o : parse_arguments args = Parsed (Ok o) →
  (∃ c1 c2, option_endpoints o = [c1; c2]) ∧ fits 64 (read_depth o).
Proof.
  intros Hargs. destruct (parse_loop_ok _ args default_options o (le_n _)) as [[D W T B V G P] Hlen].
  - split; try done; constructor.
  - exact Hargs.
  - split; [|done]. destruct (option_endpoints o) as [|c1 [|c2 [|]]];
      try (unfold len in Hlen; cbn in Hlen; discriminate Hlen); [by eexists _, _|].
    unfold len, ENDPOINT_COUNT in Hlen. cbn in Hlen. lia.
Qed.

(** C31: an accepted command line is usable: whatever the arguments are, when
    [parse_arguments] succeeds there are exactly two endpoints, each a valid
    one, with different GUIDs and different interface paths; every number fits
    the width it is stored in, and the polling budget is positive and a
    representable duration. *)
Theorem accepted_arguments (args : list (list Z)) (o : options)
    (Hargs : parse_arguments args = Parsed (Ok o)) :
  ∃ c1 c2, option_endpoints o = [c1; c2] ∧
    config_guid c1 ≠ config_guid c2 ∧ interface_path c1 ≠ interface_path c2 ∧
    (∃ v1 v2, parse_endpoint v1 = Ok c1 ∧ parse_endpoint v2 = Ok c2) ∧
    fits 64 (read_depth o) ∧ fits 32 (option_wait_operations o) ∧
    fits 32 (option_completion_wait_milliseconds o) ∧
    0 < option_polling_budget o < 2 ^ 64 * 1000000000.
Proof.
  destruct (parse_loop_ok _ args default_options o (le_n _)) as [[D W T B V G P] Hlen].
  - split; try done; constructor.
  - exact Hargs.
  - destruct (option_endpoints o) as [|c1 [|c2 [|]]]; try (unfold len in Hlen; cbn in Hlen; discriminate Hlen).
    + exists c1, c2. apply NoDup_cons in G as [G _]. apply NoDup_cons in P as [P _].
      apply Forall_cons in V as [[v1 V1] V]. apply Forall_cons in V as [[v2 V2] _].
      rewrite list_elem_of_singleton in G, P. split_and!; eauto; lia.
    + unfold len, ENDPOINT_COUNT in Hlen. cbn in Hlen. lia.
Qed.

Definition example_arguments : list (list Z) :=
  [u16s "--endpoint"; example_endpoint; u16s "--read-depth"; u16s "64"; u16s "--endpoint";
   u16s "35d32edf-7c8c-4f09-901f-650b232e864d=\\?\b"; u16s "--stats"].

Lemma accepted_arguments_witness :
  ∃ o, parse_arguments example_arguments = Parsed (Ok o) ∧ 0 < option_polling_budget o.
Proof.
  destruct (parse_arguments example_arguments) as [|[o|]] eqn:Ho;
    [vm_compute in Ho; discriminate Ho| |vm_compute in Ho; discriminate Ho].
  destruct (accepted_arguments _ _ Ho) as (c1 & c2 & _ & _ & _ & _ & _ & _ & _ & Hb).
  exists o. split; [reflexivity|apply Hb].
Defined.
