(* ===== verification/Kernel.v ===== *)
(** * The kernel objects the switch uses ([wintap-switch/src/main.rs])

    The calls of the switch's run time to the operating system, and the part
    of the kernel's state its memory safety depends on: the entries built in
    the I/O ring's submission queue, the entries the kernel has taken and not
    yet reported, the outstanding overlapped requests and the open handles.
    [answer] states the documented effect of every call on that state; results
    and statuses are otherwise arbitrary. *)

From S2P Require Import Prelude Words Completion Arguments.

(** ** Constants *)

Definition INVALID_HANDLE_VALUE : Z := 2 ^ 64 - 1.
Definition IORING_OP_READ : Z := 1.
Definition IORING_OP_WRITE : Z := 5.
Definition IORING_VERSION_3 : Z := 300.
Definition ERROR_SUCCESS : Z := 0.
Definition ERROR_INVALID_FUNCTION : Z := 1.
Definition ERROR_NOT_SUPPORTED : Z := 50.
Definition ERROR_SHARING_VIOLATION : Z := 32.
Definition ERROR_BUSY : Z := 170.
Definition ERROR_IO_PENDING : Z := 997.
Definition ERROR_OPERATION_ABORTED : Z := 995.
Definition ERROR_NOT_FOUND : Z := 1168.
Definition WAIT_OBJECT_0 : Z := 0.
Definition WAIT_TIMEOUT_RESULT : Z := 258.
Definition WAIT_FAILED : Z := 0xffffffff.

(** ** State *)

(** A submission queue entry. *)
Inductive entry :=
  | ReadEntry (handle slot bytes user_data : Z)
  | WriteEntry (handle slot bytes user_data : Z)
  | CancelEntry (handle operation user_data : Z)
  | RegisterEntry (user_data : Z).

#[export] Instance entry_eq_dec : EqDecision entry.
Proof. solve_decision. Defined.

Definition entry_user_data (x : entry) : Z :=
  match x with
  | ReadEntry _ _ _ u | WriteEntry _ _ _ u | CancelEntry _ _ u | RegisterEntry u => u
  end.

(** The registered buffer an entry reads or writes. *)
Definition entry_slot (x : entry) : option Z :=
  match x with
  | ReadEntry _ i _ _ | WriteEntry _ i _ _ => Some i
  | _ => None
  end.

Record kernel := {
  built : list entry;              (* in the submission queue *)
  taken : list entry;              (* submitted, completion not popped *)
  outstanding : gset Z;            (* overlapped waits the kernel still writes, by endpoint *)
  local_outstanding : bool;        (* the overlapped request of a synchronous call *)
  last_error : Z;
  open_handles : gset Z;
  open_rings : gset Z;
}.

#[export] Instance kernel_eta : Eta kernel := λ k,
  Build_kernel (built k) (taken k) (outstanding k) (local_outstanding k) (last_error k)
    (open_handles k) (open_rings k).

Record IoRingCompletion := { user_data : Z; result_code : Z; information : Z }.

(** ** Calls *)

(** The overlapped structure of a call: an endpoint's wait, or a local one. *)
Inductive overlapped := WaitOf (endpoint : Z) | LocalOverlapped.

Inductive os_call :=
  | SubmitIoRing (ring wait_operations milliseconds : Z)
  | PopIoRingCompletion (ring : Z)
  | BuildIoRingReadFile (ring handle slot bytes user_data : Z)
  | BuildIoRingWriteFile (ring handle slot bytes user_data : Z)
  | BuildIoRingCancelRequest (ring handle operation user_data : Z)
  | BuildIoRingRegisterFileHandles (ring : Z) (files : list Z)
  | BuildIoRingRegisterBuffers (ring count : Z)
  | CreateIoRing (version submission_size completion_size : Z)
  | CloseIoRing (ring : Z)
  | QueryIoRingCapabilities
  | IsIoRingOpSupported (ring operation : Z)
  | CreateFileW (path : list Z)
  | CreateEventW
  | CloseHandle (handle : Z)
  | ResetEvent (event : Z)
  | GetLastError
  | DeviceIoControl (handle code input : Z) (o : overlapped)
  | GetOverlappedResult (handle : Z) (o : overlapped) (wait : bool)
  | CancelIoEx (handle : Z) (o : overlapped)
  | WaitForMultipleObjects (handles : list Z) (milliseconds : Z)
  | GetIfTable2
  | FreeMibTable
  | TryReserveExact (count : Z)
  | InstantNow
  | Sleep (nanoseconds : Z)
  | YieldNow
  | LoadStopRequested
  | SetConsoleCtrlHandler (add : bool)
  | Eprintln.

Definition os_ret (c : os_call) : Type :=
  match c with
  | SubmitIoRing _ _ _ | BuildIoRingReadFile _ _ _ _ _ | BuildIoRingWriteFile _ _ _ _ _
  | BuildIoRingCancelRequest _ _ _ _ | BuildIoRingRegisterFileHandles _ _
  | BuildIoRingRegisterBuffers _ _ | IsIoRingOpSupported _ _ | CreateFileW _ | CreateEventW
  | ResetEvent _ | GetLastError | CancelIoEx _ _ | WaitForMultipleObjects _ _ | InstantNow
  | SetConsoleCtrlHandler _ => Z
  | PopIoRingCompletion _ => Z * IoRingCompletion
  | CreateIoRing _ _ _ | QueryIoRingCapabilities => Z * Z
  | DeviceIoControl _ _ _ _ | GetOverlappedResult _ _ _ => Z * Z   (* result, bytes *)
  | GetIfTable2 => Z * option (list (Guid * Z))                    (* rows: GUID and MTU *)
  | TryReserveExact _ | LoadStopRequested => bool
  | CloseIoRing _ | CloseHandle _ | FreeMibTable | Sleep _ | YieldNow | Eprintln => unit
  end.

(** ** Documented effects *)

Definition build (x : entry) (status : Z) (k k' : kernel) : Prop :=
  k' = if status =? S_OK then k <| built := built k ++ [x] |> else k.

(** [SubmitIoRing] takes every entry unless it fails for another reason than
    the time-out of its wait, and only a call that waits can time out. *)
Definition submit (waits status : Z) (k k' : kernel) : Prop :=
  (status = WAIT_TIMEOUT → waits ≠ 0) ∧
  if (status =? S_OK) || (status =? WAIT_TIMEOUT)
  then built k' = [] ∧ taken k' ≡ₚ taken k ++ built k ∧
       k' = k <| built := [] |> <| taken := taken k' |>
  else k' = k.

(** A popped completion reports one of the taken entries, once. *)
Definition pop (r : Z * IoRingCompletion) (k k' : kernel) : Prop :=
  fits 64 (information r.2) ∧
  if r.1 =? S_OK
  then ∃ x, taken k ≡ₚ x :: taken k' ∧ user_data r.2 = entry_user_data x ∧
       k' = k <| taken := taken k' |>
  else k' = k.

Definition outstanding_of (o : overlapped) (k : kernel) : bool :=
  match o with WaitOf i => bool_decide (i ∈ outstanding k) | LocalOverlapped => local_outstanding k end.

Definition set_outstanding (o : overlapped) (b : bool) (k : kernel) : kernel :=
  match o with
  | WaitOf i =>
      k <| outstanding := if b then {[i]} ∪ outstanding k else outstanding k ∖ {[i]} |>
  | LocalOverlapped => k <| local_outstanding := b |>
  end.

(** A request is outstanding exactly when it fails with [ERROR_IO_PENDING]. *)
Definition device_io_control (o : overlapped) (r : Z * Z) (k k' : kernel) : Prop :=
  if negb (r.1 =? 0) then k' = k
  else k' = (if last_error k' =? ERROR_IO_PENDING then set_outstanding o true k else k)
              <| last_error := last_error k' |>.

(** Waiting for the result ends only when the request has. *)
Definition overlapped_result (o : overlapped) (wait : bool) (r : Z * Z) (k k' : kernel) : Prop :=
  k' = (if wait || negb (r.1 =? 0) then set_outstanding o false k else k)
         <| last_error := last_error k' |>.

(** A new handle is none of the open ones. *)
Definition opened (h : Z) (k k' : kernel) : Prop :=
  (h ∉ open_handles k) ∧ k' = k <| open_handles := {[h]} ∪ open_handles k |>.

Definition failed (k k' : kernel) : Prop := k' = k <| last_error := last_error k' |>.

Definition answer (c : os_call) : os_ret c → kernel → kernel → Prop :=
  match c with
  | SubmitIoRing _ n _ => λ r k k', submit n r k k'
  | PopIoRingCompletion _ => λ r k k', pop r k k'
  | BuildIoRingReadFile _ h i n u => λ r k k', build (ReadEntry h i n u) r k k'
  | BuildIoRingWriteFile _ h i n u => λ r k k', build (WriteEntry h i n u) r k k'
  | BuildIoRingCancelRequest _ h o u => λ r k k', build (CancelEntry h o u) r k k'
  | BuildIoRingRegisterFileHandles _ _ | BuildIoRingRegisterBuffers _ _ =>
      λ r k k', build (RegisterEntry 0) r k k'
  | CreateIoRing _ _ _ => λ r k k',
      if r.1 =? S_OK then (r.2 ∉ open_rings k) ∧ k' = k <| open_rings := {[r.2]} ∪ open_rings k |>
      else k' = k
  | CloseIoRing h => λ r k k', k' = k <| open_rings := open_rings k ∖ {[h]} |>
  | CloseHandle h => λ r k k', k' = k <| open_handles := open_handles k ∖ {[h]} |>
  | CreateFileW _ => λ r k k',
      if r =? INVALID_HANDLE_VALUE then failed k k' else opened r k k'
  | CreateEventW => λ r k k', if r =? 0 then failed k k' else opened r k k'
  | GetLastError => λ r k k', r = last_error k ∧ k' = k
  | DeviceIoControl _ _ _ o => λ r k k', device_io_control o r k k'
  | GetOverlappedResult _ o wait => λ r k k', overlapped_result o wait r k k'
  | ResetEvent _ | CancelIoEx _ _ | WaitForMultipleObjects _ _ => λ r k k', failed k k'
  | GetIfTable2 => λ r k k', k' = k ∧
      ∀ rows, r.2 = Some rows → Forall (λ row, fits 32 row.2) rows
  | IsIoRingOpSupported _ _ | QueryIoRingCapabilities | FreeMibTable | TryReserveExact _
  | InstantNow | Sleep _ | YieldNow | LoadStopRequested | SetConsoleCtrlHandler _ | Eprintln =>
      λ r k k', k' = k
  end.
