(* ===== verification/Runtime.v ===== *)
(** * The run time of the switch ([wintap-switch/src/main.rs], [Runtime])

    The I/O-ring engine: every buffer slot has at most one operation in
    flight; a completed read is forwarded to the other endpoint as a write
    from the same buffer, a completed write turns into the next read; on
    shutdown every operation is cancelled and reaped.

    The memory the kernel may write (the registered buffers, the responses of
    overlapped requests) is kept beside the [Runtime] it belongs to.  Reading
    it while the kernel may write it, and freeing it while the kernel may use
    it, is undefined; so is a panic. *)

From S2P Require Import Prelude Words FrameParse Forwarding BufferPool Selection Completion.
From S2P Require Import Arguments Kernel Effects.

(** ** State *)

Record ActiveOperation := {
  completion : SlotCompletion;
  op_handle : Z;
  op_user_data : Z;
  is_write : bool;
  op_length : Z;
  queued : bool;
  submitted : bool;
  busy_retries : Z;
  drain_before_cancellation : bool;
}.

#[export] Instance ActiveOperation_eta : Eta ActiveOperation := λ a,
  Build_ActiveOperation (completion a) (op_handle a) (op_user_data a) (is_write a) (op_length a)
    (queued a) (submitted a) (busy_retries a) (drain_before_cancellation a).

(** The overlapped structure and the response belong to the kernel's side. *)
Record AdaptiveWait := { event : Z; request_interest : Z; pending : bool }.

#[export] Instance AdaptiveWait_eta : Eta AdaptiveWait := λ a,
  Build_AdaptiveWait (event a) (request_interest a) (pending a).

Record Endpoint := {
  id : EndpointId;
  guid : list Z;
  handle : Z;
  adaptive_wait : option AdaptiveWait;
}.

#[export] Instance Endpoint_eta : Eta Endpoint := λ e,
  Build_Endpoint (id e) (guid e) (handle e) (adaptive_wait e).

Record RuntimeStats := {
  enabled : bool;
  started : Z;
  last_report : Z;
  wait_calls : Z;
  signaled_wakes : Z;
  batches : Z;
  completions : Z;
  reads : Z;
  writes : Z;
  empty_reads : Z;
  max_batch : Z;
}.

#[export] Instance RuntimeStats_eta : Eta RuntimeStats := λ s,
  Build_RuntimeStats (enabled s) (started s) (last_report s) (wait_calls s) (signaled_wakes s)
    (batches s) (completions s) (reads s) (writes s) (empty_reads s) (max_batch s).

Record Runtime := {
  ring : Z;
  endpoints : list Endpoint;
  pool : BufferPool;
  active : list (option ActiveOperation);
  cancellations : list (option Z);
  operations_may_be_in_flight : bool;
  submission_queue_size : Z;
  reads_per_endpoint : Z;
  wait_operations : Z;
  completion_wait_milliseconds : Z;
  frame_maximum : Z;
  adaptive_polling : bool;
  polling_budget : Z;
  stats : RuntimeStats;
}.

#[export] Instance Runtime_eta : Eta Runtime := λ r,
  Build_Runtime (ring r) (endpoints r) (pool r) (active r) (cancellations r)
    (operations_may_be_in_flight r) (submission_queue_size r) (reads_per_endpoint r)
    (wait_operations r) (completion_wait_milliseconds r) (frame_maximum r) (adaptive_polling r)
    (polling_budget r) (stats r).

(** The process: the run time, the memory shared with the kernel, the kernel. *)
Record sys := {
  rt : Runtime;
  buffers : list (list Z);
  responses : list Z;              (* [satisfied] of each endpoint's wait response *)
  local_response : Z * Z;          (* version and flags of an enable response *)
  kern : kernel;
}.

#[export] Instance sys_eta : Eta sys := λ s,
  Build_sys (rt s) (buffers s) (responses s) (local_response s) (kern s).

Abbreviation P := (M sys os_ret).
Abbreviation call c := (do_call (S:=sys) (ret:=os_ret) c).

(** What the kernel may do to shared memory while a call runs. *)
Record shared_kept (s s' : sys) : Prop := {
  kept_rt : rt s' = rt s;
  kept_lengths : length <$> buffers s' = length <$> buffers s;
  kept_buffers i : (∀ h n u, ReadEntry h i n u ∉ taken (kern s) ++ built (kern s)) →
    at_index (buffers s') i = at_index (buffers s) i;
  kept_responses : length (responses s') = length (responses s);
}.

Definition os_contract : contract sys os_ret := λ w c s r s',
  shared_kept s s' ∧ answer c r (kern s) (kern s').

(** A computation that need not return: [Running] is a run that goes on, and
    [Aborted] the end of the process by [std::process::abort]. *)
Inductive outcome (A : Type) :=
  | Running
  | Aborted
  | Returned (r : result A error).
Arguments Running {A}.
Arguments Aborted {A}.
Arguments Returned {A} r.

Definition bind_outcome {A B} (f : A → P (outcome B)) (m : P (outcome A)) : P (outcome B) :=
  o ← m;
  match o with
  | Running => mret Running
  | Aborted => mret Aborted
  | Returned (Ok a) => f a
  | Returned (Err e) => mret (Returned (Err e))
  end.

Definition returned {A} (m : P (result A error)) : P (outcome A) := r ← m; mret (Returned r).

Notation "x ←! m ; k" := (bind_outcome (λ x, k) m)
  (at level 20, m at level 100, k at level 200, right associativity,
   format "x  ←!  m ;  '//' k") : rust_scope.

Notation "' x ←! m ; k" := (bind_outcome (λ y, match y with x => k end) m)
  (at level 20, x pattern, m at level 100, k at level 200, right associativity,
   format "' x  ←!  m ;  '//' k") : rust_scope.

(** [loop { body }] for at most [fuel] iterations. *)
Fixpoint forever {A B} (fuel : nat) (body : A → P (outcome (A + B))) (a : A) : P (outcome B) :=
  match fuel with
  | O => mret Running
  | S fuel =>
      r ←! body a;
      match r with
      | inl a => forever fuel body a
      | inr b => mret (Returned (Ok b))
      end
  end.

(** ** Access to the state *)

Definition self : P Runtime := s ← get; mret (rt s).
Definition update (f : Runtime → Runtime) : P unit := s ← get; put (s <| rt := f (rt s) |>).

Definition index {A} (l : list A) (i : Z) : P A := from_option (at_index l i).

(** Assignment through an index; out of range panics. *)
Definition set_index {A} (l : list A) (i : Z) (x : A) : P (list A) :=
  _ ← index l i; mret (<[Z.to_nat i := x]> l).

Definition set_active (i : Z) (a : option ActiveOperation) : P unit :=
  r ← self;
  l ← set_index (active r) i a;
  update (λ r, r <| active := l |>).

Definition set_cancellation (i : Z) (o : option Z) : P unit :=
  r ← self;
  l ← set_index (cancellations r) i o;
  update (λ r, r <| cancellations := l |>).

(** A method of the buffer pool, its error put in a message. *)
Definition pool_call {A} (f : BufferPool → BufferPool * result A SlotError) (text : string) :
    P (result A error) :=
  r ← self;
  let (p, o) := f (pool r) in
  _ ← update (λ r, r <| pool := p |>);
  mret (map_err (SlotFailure text) o).

(** [&self.buffers[slot][..length]]: undefined while the kernel owns the buffer. *)
Definition owns_buffer (k : kernel) (i : Z) : bool :=
  existsb (λ x, bool_decide (entry_slot x = Some i)) (taken k).

Definition read_buffer (i length : Z) : P (list Z) :=
  s ← get;
  if owns_buffer (kern s) i then undefined
  else b ← index (buffers s) i; from_option (slice b 0 length).

(** The last free of all registered buffers. *)
Definition free_buffers : P unit :=
  s ← get;
  if existsb (λ x, bool_decide (is_Some (entry_slot x))) (taken (kern s)) then undefined
  else put (s <| buffers := [] |>).

(** Reading, resetting or freeing the memory of an overlapped request. *)
Definition not_outstanding (o : overlapped) : P unit :=
  s ← get; if outstanding_of o (kern s) then undefined else mret tt.

Definition read_response (i : Z) : P Z :=
  _ ← not_outstanding (WaitOf i); s ← get; index (responses s) i.

Definition reset_response (i : Z) : P unit :=
  _ ← not_outstanding (WaitOf i);
  s ← get;
  l ← set_index (responses s) i 0;
  put (s <| responses := l |>).

Definition hr (operation : string) (m : P Z) : P (result unit error) :=
  status ← m; mret (check_hr status operation).

Definition win32 {A} (text : string) : P (result A error) :=
  e ← call GetLastError; mret (Err (Failure text [e])).

(** ** Statistics *)

Definition STATS_REPORT_INTERVAL : Z := 5 * 1000000000.

Definition update_stats (f : RuntimeStats → RuntimeStats) : P unit :=
  update (λ r, r <| stats := f (stats r) |>).

Definition RuntimeStats_new (enabled : bool) : P RuntimeStats :=
  now ← call InstantNow;
  mret {| enabled := enabled; started := now; last_report := now; wait_calls := 0;
          signaled_wakes := 0; batches := 0; completions := 0; reads := 0; writes := 0;
          empty_reads := 0; max_batch := 0 |}.

Definition record_wait_submission : P unit :=
  update_stats (λ s, s <| wait_calls := wrap 64 (wait_calls s + 1) |>).
Definition record_signaled_wake : P unit :=
  update_stats (λ s, s <| signaled_wakes := wrap 64 (signaled_wakes s + 1) |>).
Definition record_empty_read : P unit :=
  update_stats (λ s, s <| empty_reads := wrap 64 (empty_reads s + 1) |>).

(** [Instant::elapsed] *)
Definition elapsed (since : Z) : P Z := now ← call InstantNow; mret (Z.max (now - since) 0).

(** The averages are printed only. *)
Definition report (force : bool) : P unit :=
  r ← self;
  if negb (enabled (stats r)) then mret tt
  else
    quiet ← (if force then mret false
             else t ← elapsed (last_report (stats r)); mret (t <? STATS_REPORT_INTERVAL));
    if quiet : bool then mret tt
    else
      _ ← elapsed (started (stats r));
      _ ← call Eprintln;
      now ← call InstantNow;
      update_stats (λ s, s <| last_report := now |>).

Definition record_batch (reads_done writes_done : Z) : P unit :=
  let done := wrap 64 (reads_done + writes_done) in
  _ ← update_stats (λ s,
    s <| batches := wrap 64 (batches s + 1) |>
      <| completions := wrap 64 (completions s + done) |>
      <| reads := wrap 64 (reads s + reads_done) |>
      <| writes := wrap 64 (writes s + writes_done) |>
      <| max_batch := Z.max (max_batch s) done |>);
  report false.

(** ** Reads *)

Definition endpoint_for_slot (slot : Z) : P Endpoint :=
  r ← self;
  if reads_per_endpoint r =? 0 then undefined
  else index (endpoints r) (slot / reads_per_endpoint r).

Definition post_read (slot : Z) : P (result unit error) :=
  completion ←? pool_call (λ p, begin_read p slot) "begin read";
  endpoint ← endpoint_for_slot slot;
  r ← self;
  user_data ←? mret (encode_completion slot (completion_generation completion));
  _ ←? hr "BuildIoRingReadFile" (call (BuildIoRingReadFile (ring r) (handle endpoint)
         (wrap 32 slot) (wrap 32 (frame_maximum r)) user_data));
  user_data ←? mret (encode_completion slot (completion_generation completion));
  _ ← set_active slot (Some
        {| completion := completion; op_handle := handle endpoint; op_user_data := user_data;
           is_write := false; op_length := wrap 32 (frame_maximum r); queued := true;
           submitted := false; busy_retries := 0; drain_before_cancellation := false |});
  mret (Ok tt).

Definition mark_submitted (a : ActiveOperation) : ActiveOperation :=
  if queued a && negb (submitted a) then a <| submitted := true |> else a.

Definition submit_pending_operations : P (result unit error) :=
  r ← self;
  _ ←? hr "SubmitIoRing" (call (SubmitIoRing (ring r) 0 0));
  _ ← update (λ r, r <| active := map (option_map mark_submitted) (active r) |>
                     <| operations_may_be_in_flight := true |>);
  mret (Ok tt).

Definition wait_for_completion : P (result bool error) :=
  r ← self;
  status ← call (SubmitIoRing (ring r) (wait_operations r) (completion_wait_milliseconds r));
  if status =? WAIT_TIMEOUT then mret (Ok false)
  else mret (let? _ := check_hr status "SubmitIoRing wait" in Ok true).

(** ** Completions *)

Definition validate_completion (c : IoRingCompletion) : P (result (Z * Z * bool) error) :=
  r ← self;
  '(slot, generation) ←? mret (decode_completion (user_data c));
  if len (active r) <=? slot
  then mret (Err (Failure "completion references invalid slot" [slot]))
  else
    entry ← index (active r) slot;
    match entry with
    | None => mret (Err (Failure "completion references inactive slot" [slot]))
    | Some a =>
        if negb (BufferPool.slot (completion a) =? slot)
           || negb (completion_generation (completion a) =? generation)
           || negb (op_user_data a =? user_data c)
        then mret (Err (Failure "stale or unexpected completion for slot" [slot]))
        else mret (Ok (slot, generation, is_write a))
    end.

Definition retry_busy_operation (slot : Z) : P (result unit error) :=
  r ← self;
  entry ← index (active r) slot;
  match entry with
  | None => mret (Err (Failure "busy completion references inactive slot" [slot]))
  | Some a =>
      if negb (submitted a)
      then mret (Err (Failure "busy completion references inactive operation slot" [slot]))
      else if MAX_BUSY_RETRIES <=? busy_retries a
      then
        _ ←? pool_call (λ p, cancel p (completion a)) "busy retry exhaustion cleanup";
        _ ← set_active slot None;
        mret (Err (Failure "I/O-ring busy retry limit exceeded for slot" [slot]))
      else
        let a' := a <| queued := false |> <| submitted := false |>
                    <| busy_retries := saturating_add 32 (busy_retries a) 1 |> in
        _ ← set_active slot (Some a');
        _ ← call (Sleep (busy_retry_delay (busy_retries a')));
        _ ←? hr (if is_write a then "BuildIoRingWriteFile retry" else "BuildIoRingReadFile retry")
               (if is_write a
                then call (BuildIoRingWriteFile (ring r) (op_handle a) (wrap 32 slot) (op_length a)
                             (op_user_data a))
                else call (BuildIoRingReadFile (ring r) (op_handle a) (wrap 32 slot) (op_length a)
                             (op_user_data a)));
        r ← self;
        entry ← index (active r) slot;
        match entry with
        | None => mret (Err (Failure "busy retry lost operation slot" [slot]))
        | Some a => _ ← set_active slot (Some (a <| queued := true |>)); mret (Ok tt)
        end
  end.

(** The end of a dispatch without a write: the slot is free, and read again. *)
Definition dispatched (c : SlotCompletion) (slot : Z) (text : string) : P (result unit error) :=
  _ ←? pool_call (λ p, complete_dispatch p c) text; post_read slot.

(** The write of a received frame to the first recipient. *)
Definition write_frame (destination : EndpointId) (c : SlotCompletion) (slot generation length : Z) :
    P (result unit error) :=
  r ← self;
  first ← index (endpoints r) 0;
  peer ← (if bool_decide (destination = id first) then mret (handle first)
          else second ← index (endpoints r) 1; mret (handle second));
  _ ←? pool_call (λ p, begin_writes p c 1) "begin write";
  user_data ←? mret (encode_completion slot generation);
  _ ←? hr "BuildIoRingWriteFile"
         (call (BuildIoRingWriteFile (ring r) peer (wrap 32 slot) (wrap 32 length) user_data));
  user_data ←? mret (encode_completion slot generation);
  _ ← set_active slot (Some
        {| completion := c; op_handle := peer; op_user_data := user_data; is_write := true;
           op_length := wrap 32 length; queued := true; submitted := false; busy_retries := 0;
           drain_before_cancellation := false |});
  mret (Ok tt).

(** A completed read: dispatch its frame. *)
Definition dispatch_read (sw : Switch) (c : SlotCompletion) (slot generation length : Z) :
    P (result Switch error) :=
  _ ←? pool_call (λ p, begin_dispatch p c) "read completion";
  endpoint ← endpoint_for_slot slot;
  r ← self;
  if length <=? frame_maximum r then
    frame ← read_buffer slot length;
    '(sw', forwarded) ← from_option (forward sw (id endpoint) frame);
    match forwarded with
    | Err (InvalidFrame _) => _ ←? dispatched c slot "invalid frame"; mret (Ok sw')
    | Err UnknownEndpoint => mret (Err (Failure "forwarding failure" []))
    | Ok recipients =>
        match recipients with
        | destination :: _ => _ ←? write_frame destination c slot generation length; mret (Ok sw')
        | [] => _ ←? dispatched c slot "drop completion"; mret (Ok sw')
        end
    end
  else _ ←? dispatched c slot "invalid frame completion"; mret (Ok sw).

(** The switch after the completion, and which kind of operation it ended:
    [Some true] a read, [Some false] a write, [None] a retried or empty one. *)
Definition process_completion (sw : Switch) (c : IoRingCompletion) :
    P (result (Switch * option bool) error) :=
  '(slot, generation, is_write) ←? validate_completion c;
  let slot_completion := {| BufferPool.slot := slot; completion_generation := generation |} in
  if is_device_busy (result_code c)
  then _ ←? retry_busy_operation slot; mret (Ok (sw, None))
  else
    _ ← set_active slot None;
    r ← self;
    if adaptive_polling r && negb is_write && is_no_more_entries (result_code c)
    then
      _ ←? pool_call (λ p, cancel p slot_completion) "empty adaptive read completion";
      _ ← record_empty_read;
      mret (Ok (sw, None))
    else if negb (result_code c =? S_OK)
    then
      _ ←? pool_call (λ p, cancel p slot_completion) "failed operation completion";
      mret (Err (Failure "I/O-ring operation failed with HRESULT" [result_code c]))
    else if is_write : bool
    then
      _ ←? pool_call (λ p, complete_write p slot_completion) "write completion";
      _ ←? post_read slot;
      mret (Ok (sw, Some false))
    else
      sw ←? dispatch_read sw slot_completion slot generation (information c);
      mret (Ok (sw, Some true)).
