(* ===== verification/RuntimeLoop.v ===== *)
(** * The main loops, shutdown and start of the switch
    ([wintap-switch/src/main.rs], [Runtime::run], [start], [shutdown]) *)

From S2P Require Import Prelude Words FrameParse Forwarding BufferPool Selection Completion.
From S2P Require Import Arguments Kernel Effects Runtime.

(** ** Adaptive waits *)

Definition ADAPTIVE_POLLING_PROTOCOL_VERSION : Z := 1.
Definition TAP_IOCTL_ENABLE_ADAPTIVE_POLLING : Z := 0x00222400.
Definition TAP_IOCTL_WAIT_FOR_CHANGE : Z := 0x00222404.
Definition size_of_AdaptiveEnableResponse : Z := 8.

Definition endpoint_at (i : Z) : P Endpoint := r ← self; index (endpoints r) i.

Definition set_wait (i : Z) (wait : AdaptiveWait) : P unit :=
  r ← self;
  e ← index (endpoints r) i;
  l ← set_index (endpoints r) i (e <| adaptive_wait := Some wait |>);
  update (λ r, r <| endpoints := l |>).

Definition AdaptiveWait_new : P (result AdaptiveWait error) :=
  event ← call CreateEventW;
  if event =? 0 then win32 "CreateEventW failed with error"
  else mret (Ok {| event := event; request_interest := 0; pending := false |}).

Definition backpressured (handle : Z) (a : option ActiveOperation) : bool :=
  match a with
  | Some a => is_write a && (op_handle a =? handle) && negb (busy_retries a =? 0)
  | None => false
  end.

Definition adaptive_interest_for_endpoint (endpoint : Z) : P Z :=
  r ← self;
  e ← index (endpoints r) endpoint;
  mret (Z.lor ADAPTIVE_INTEREST_READABLE
          (if existsb (backpressured (handle e)) (active r) then ADAPTIVE_INTEREST_WRITABLE else 0)).

(** Retire a pending wait whose interest has changed. *)
Definition rearm (i : Z) (e : Endpoint) (wait : AdaptiveWait) : P (result AdaptiveWait error) :=
  cancelled ← call (CancelIoEx (handle e) (WaitOf i));
  _ ←? (if cancelled =? 0 then
          error ← call GetLastError;
          mret (if error =? ERROR_NOT_FOUND then Ok tt
                else Err (Failure "CancelIoEx for WAIT_FOR_CHANGE rearm failed" [error]))
        else mret (Ok tt));
  result ← call (GetOverlappedResult (handle e) (WaitOf i) true);
  _ ←? (if result.1 =? 0 then
          error ← call GetLastError;
          mret (if (error =? ERROR_OPERATION_ABORTED) || (error =? ERROR_NOT_FOUND) then Ok tt
                else Err (Failure "draining WAIT_FOR_CHANGE rearm failed" [error]))
        else mret (Ok tt));
  let wait := wait <| pending := false |> in
  _ ← set_wait i wait;
  mret (Ok wait).

(** The request proper: satisfied at once, or pending. *)
Definition request_wait (i : Z) (e : Endpoint) (wait : AdaptiveWait) (interest : Z) :
    P (result bool error) :=
  completed ← call (DeviceIoControl (handle e) TAP_IOCTL_WAIT_FOR_CHANGE interest (WaitOf i));
  if negb (completed.1 =? 0) then
    satisfied ← read_response i;
    _ ←? mret (validate_adaptive_wait_response completed.2 interest satisfied);
    mret (Ok true)
  else
    error ← call GetLastError;
    if error =? ERROR_IO_PENDING
    then _ ← set_wait i (wait <| pending := true |>); mret (Ok false)
    else mret (Err (Failure "WAIT_FOR_CHANGE failed with Win32 error" [error])).

Definition start_wait (i : Z) (e : Endpoint) (wait : AdaptiveWait) (interest : Z) :
    P (result bool error) :=
  _ ← reset_response i;
  let wait := wait <| request_interest := interest |> in
  _ ← set_wait i wait;
  reset ← call (ResetEvent (event wait));
  if reset =? 0 then win32 "ResetEvent failed with Win32 error"
  else request_wait i e wait interest.

Definition submit_adaptive_wait (i interest : Z) : P (result bool error) :=
  (* the argument of [get_or_insert] is evaluated first, also when unused *)
  fresh ←? AdaptiveWait_new;
  e ← endpoint_at i;
  let wait := default fresh (adaptive_wait e) in
  _ ← set_wait i wait;
  if pending wait && (request_interest wait =? interest) then mret (Ok false)
  else
    wait ←? (if pending wait then rearm i e wait else mret (Ok wait));
    start_wait i e wait interest.

Definition complete_adaptive_wait (i : Z) : P (result unit error) :=
  e ← endpoint_at i;
  wait ← from_option (adaptive_wait e);
  if negb (pending wait) then mret (Ok tt)
  else
    result ← call (GetOverlappedResult (handle e) (WaitOf i) false);
    if result.1 =? 0 then win32 "WAIT_FOR_CHANGE completion failed with Win32 error"
    else
      _ ← set_wait i (wait <| pending := false |>);
      satisfied ← read_response i;
      mret (validate_adaptive_wait_response result.2 (request_interest wait) satisfied).

(** [first_error.get_or_insert_with] *)
Definition or_first (first next : option error) : option error :=
  match first with Some e => Some e | None => next end.

Definition cancel_one (i : Z) (first : option error) : P (option error) :=
  e ← endpoint_at i;
  match adaptive_wait e with
  | Some wait =>
      if negb (pending wait) then mret first
      else
        cancelled ← call (CancelIoEx (handle e) (WaitOf i));
        if cancelled =? 0 then
          error ← call GetLastError;
          mret (if error =? ERROR_NOT_FOUND then first
                else or_first first (Some (Failure "CancelIoEx for WAIT_FOR_CHANGE failed" [error])))
        else mret first
  | None => mret first
  end.

Definition drain_one (i : Z) (first : option error) : P (option error) :=
  e ← endpoint_at i;
  match adaptive_wait e with
  | Some wait =>
      if negb (pending wait) then mret first
      else
        result ← call (GetOverlappedResult (handle e) (WaitOf i) true);
        first ← (if result.1 =? 0 then
                   error ← call GetLastError;
                   mret (if error =? ERROR_OPERATION_ABORTED then first
                         else or_first first (Some (Failure "draining WAIT_FOR_CHANGE failed" [error])))
                 else mret first);
        _ ← set_wait i (wait <| pending := false |>);
        mret first
  | None => mret first
  end.

Definition cancel_adaptive_waits : P (option error) :=
  first ← cancel_one 0 None;
  first ← cancel_one 1 first;
  first ← drain_one 0 first;
  drain_one 1 first.

(** The waits of both endpoints: whether one is satisfied at once, and the
    pending ones with their events. *)
Definition submit_one (i : Z) (acc : bool * list (Z * Z)) : P (result (bool * list (Z * Z)) error) :=
  interest ← adaptive_interest_for_endpoint i;
  ready ←? submit_adaptive_wait i interest;
  if ready : bool then mret (Ok (true, acc.2))
  else
    e ← endpoint_at i;
    wait ← from_option (adaptive_wait e);
    mret (Ok (acc.1, if pending wait then acc.2 ++ [(event wait, i)] else acc.2)).

Definition wait_for_events (fuel : nat) (events : list Z) : P (outcome Z) :=
  forever fuel (λ _,
    r ← self;
    result ← call (WaitForMultipleObjects events (completion_wait_milliseconds r));
    stop ← (if negb (result =? WAIT_TIMEOUT_RESULT) then mret true else call LoadStopRequested);
    if stop : bool then mret (Returned (Ok (inr result)))
    else _ ← report false; mret (Returned (Ok (inl tt)))) tt.

Definition wait_for_adaptive_change (fuel : nat) : P (outcome bool) :=
  acc ←! returned (submit_one 0 (false, []));
  acc ←! returned (submit_one 1 acc);
  let '(immediately_ready, waiting) := acc in
  if immediately_ready : bool then mret (Returned (Ok true))
  else if len waiting =? 0 then mret (Returned (Ok true))
  else
    result ←! wait_for_events fuel waiting.*1;
    if result =? WAIT_FAILED
    then returned (win32 "WaitForMultipleObjects failed with error")
    else if result =? WAIT_TIMEOUT_RESULT then mret (Returned (Ok false))
    else
      match checked_sub result WAIT_OBJECT_0 with
      | Some offset =>
          if offset <? len waiting
          then
            target ← index waiting offset;
            _ ←! returned (complete_adaptive_wait target.2);
            mret (Returned (Ok true))
          else mret (Returned (Err (Failure "WaitForMultipleObjects returned unexpected value" [result])))
      | None =>
          mret (Returned (Err (Failure "WaitForMultipleObjects returned unexpected value" [result])))
      end.

(** ** The loops *)

Definition pop_completion : P (result (option IoRingCompletion) error) :=
  r ← self;
  popped ← call (PopIoRingCompletion (ring r));
  if popped.1 =? S_FALSE then mret (Ok None)
  else _ ←? mret (check_hr popped.1 "PopIoRingCompletion"); mret (Ok (Some popped.2)).

(** The counters of a batch. *)
Record batch := {
  batch_switch : Switch;
  batch_reads : Z;
  batch_writes : Z;
  saw_completion : bool;
  made_progress : bool;
}.

Definition count (b : batch) (sw : Switch) (kind : option bool) : batch :=
  match kind with
  | None => {| batch_switch := sw; batch_reads := batch_reads b; batch_writes := batch_writes b;
               saw_completion := true; made_progress := made_progress b |}
  | Some is_read =>
      {| batch_switch := sw;
         batch_reads := if is_read : bool then batch_reads b + 1 else batch_reads b;
         batch_writes := if is_read : bool then batch_writes b else batch_writes b + 1;
         saw_completion := true; made_progress := true |}
  end.

Definition empty_batch (sw : Switch) : batch :=
  {| batch_switch := sw; batch_reads := 0; batch_writes := 0; saw_completion := false;
     made_progress := false |}.

(** [loop { pop; if none break; process }]: it ends when the completions
    that were in flight are processed. *)
Definition drain_completions (fuel : nat) (b : batch) : P (result batch error) :=
  loop_total fuel (λ b,
    popped ← pop_completion;
    match popped with
    | Err e => mret (inr (Err e))
    | Ok None => mret (inr (Ok b))
    | Ok (Some c) =>
        processed ← process_completion (batch_switch b) c;
        mret (match processed with
              | Err e => inr (Err e)
              | Ok (sw, kind) => inl (count b sw kind)
              end)
    end) b.

(** The fuel of the inner loop: one more than the slots. *)
Definition drain_fuel (r : Runtime) : nat := Datatypes.S (length (active r)).

Definition switch_from_endpoints : P (result Switch error) :=
  r ← self;
  mret (map_err (λ _, Failure "selected endpoint collection" [])
          (from_endpoints (id <$> endpoints r))).

Definition legacy_iteration (sw : Switch) : P (result (Switch + unit) error) :=
  stop ← call LoadStopRequested;
  if stop : bool then _ ← report true; mret (Ok (inr tt))
  else
    popped ←? pop_completion;
    match popped with
    | None =>
        signaled ←? wait_for_completion;
        _ ← record_wait_submission;
        _ ← (if signaled : bool then record_signaled_wake else mret tt);
        _ ← report false;
        mret (Ok (inl sw))
    | Some c =>
        '(sw, kind) ←? process_completion sw c;
        r ← self;
        b ←? drain_completions (drain_fuel r) (count (empty_batch sw) sw kind);
        _ ← record_batch (batch_reads b) (batch_writes b);
        _ ←? submit_pending_operations;
        mret (Ok (inl (batch_switch b)))
    end.

Definition run_until_stopped_legacy (fuel : nat) : P (outcome unit) :=
  sw ←! returned switch_from_endpoints;
  forever fuel (λ sw, returned (legacy_iteration sw)) sw.

Definition post_idle (slot : Z) : P (result unit error) :=
  r ← self;
  entry ← index (active r) slot;
  match entry with
  | None => post_read slot
  | Some _ => mret (Ok tt)
  end.

Definition slots_of (r : Runtime) : list Z := Z.of_nat <$> seq 0 (length (active r)).

Definition post_adaptive_idle_reads : P (result unit error) :=
  r ← self; for_each (slots_of r) post_idle.

Definition adaptive_iteration (fuel : nat) (state : Switch * Z) : P (outcome (Switch * Z + unit)) :=
  let '(sw, idle_since) := state in
  stop ← call LoadStopRequested;
  if stop : bool then _ ← report true; mret (Returned (Ok (inr tt)))
  else
    r ← self;
    b ←! returned (drain_completions (drain_fuel r) (empty_batch sw));
    _ ←! returned (if saw_completion b then
                     _ ←? submit_pending_operations;
                     _ ← record_batch (batch_reads b) (batch_writes b);
                     _ ← report false;
                     mret (Ok tt)
                   else mret (Ok tt));
    let sw := batch_switch b in
    if made_progress b then now ← call InstantNow; mret (Returned (Ok (inl (sw, now))))
    else
      idle ← elapsed idle_since;
      if polling_budget r <=? idle then
        _ ← record_wait_submission;
        signaled ←! wait_for_adaptive_change fuel;
        if signaled : bool then
          _ ← record_signaled_wake;
          _ ←! returned post_adaptive_idle_reads;
          _ ←! returned submit_pending_operations;
          now ← call InstantNow;
          mret (Returned (Ok (inl (sw, now))))
        else mret (Returned (Ok (inl (sw, idle_since))))
      else _ ← call YieldNow; mret (Returned (Ok (inl (sw, idle_since)))).

Definition run_until_stopped_adaptive (fuel : nat) : P (outcome unit) :=
  sw ←! returned switch_from_endpoints;
  now ← call InstantNow;
  forever fuel (adaptive_iteration fuel) (sw, now).

Definition run_until_stopped (fuel : nat) : P (outcome unit) :=
  r ← self;
  if adaptive_polling r then run_until_stopped_adaptive fuel else run_until_stopped_legacy fuel.

(** ** Shutdown *)

Definition retire_unqueued (slot : Z) : P (result unit error) :=
  r ← self;
  entry ← index (active r) slot;
  match entry with
  | None => mret (Ok tt)
  | Some a =>
      if queued a then mret (Ok tt)
      else
        _ ←? pool_call (λ p, cancel p (completion a)) "retire unscheduled operation";
        _ ← set_active slot None;
        mret (Ok tt)
  end.

Definition retire_unqueued_operations : P (result unit error) :=
  r ← self; for_each (slots_of r) retire_unqueued.

Definition mark_drain (a : ActiveOperation) : ActiveOperation :=
  if is_write a && queued a && negb (submitted a)
  then a <| drain_before_cancellation := true |> else a.

(** One pass over the slots: whether a cancellation was queued, and whether
    the submission queue was full. *)
Fixpoint queue_cancellations (slots : list Z) (queued_one : bool) (count : Z) :
    P (result (bool * bool) error) :=
  match slots with
  | [] => mret (Ok (queued_one, false))
  | slot :: slots =>
      r ← self;
      if count =? submission_queue_size r then mret (Ok (queued_one, false))
      else
        entry ← index (active r) slot;
        match entry with
        | None => queue_cancellations slots queued_one count
        | Some a =>
            cancelling ← (if queued a && submitted a
                          then c ← index (cancellations r) slot; mret (bool_decide (is_Some c))
                          else mret false);
            if negb (queued a) || negb (submitted a) || (cancelling : bool)
            then queue_cancellations slots queued_one count
            else
              let operation := op_user_data a in
              status ← call (BuildIoRingCancelRequest (ring r) (op_handle a) operation
                               (Z.lor CANCEL_COMPLETION_MARKER operation));
              if status =? IORING_E_SUBMISSION_QUEUE_FULL then mret (Ok (queued_one, true))
              else
                _ ←? mret (check_hr status "BuildIoRingCancelRequest");
                _ ← set_cancellation slot (Some operation);
                queue_cancellations slots true (count + 1)
        end
  end.

Definition queue_shutdown_cancellations : P (result (bool * bool) error) :=
  r ← self; queue_cancellations (slots_of r) false 0.

Definition submit_cancellation_batch : P (result unit error) :=
  r ← self; hr "SubmitIoRing cancellation batch" (call (SubmitIoRing (ring r) 0 0)).

(** Whether a completion was processed, and the first cancellation error. *)
Definition try_process_shutdown_completion (first : option error) :
    P (result (bool * option error) error) :=
  popped ←? pop_completion;
  match popped with
  | None => mret (Ok (false, first))
  | Some c =>
      if negb (Z.land (user_data c) CANCEL_COMPLETION_MARKER =? 0) then
        let operation := Z.land (user_data c) (not_w 64 CANCEL_COMPLETION_MARKER) in
        '(slot, _) ←? mret (decode_completion operation);
        r ← self;
        if len (active r) <=? slot
        then mret (Err (Failure "cancellation references invalid slot" [slot]))
        else
          current ← index (cancellations r) slot;
          if negb (bool_decide (current = Some operation))
          then mret (Err (Failure "unexpected cancellation completion for slot" [slot]))
          else
            _ ← set_cancellation slot None;
            mret (Ok (true,
              if negb (result_code c =? S_OK)
              then or_first first (Some (Failure "I/O-ring cancellation failed with HRESULT" [result_code c]))
              else first))
      else
        '(slot, generation, _) ←? validate_completion c;
        _ ←? pool_call (λ p, cancel p {| BufferPool.slot := slot; completion_generation := generation |})
               "cancel completion";
        _ ← set_active slot None;
        mret (Ok (true, first))
  end.

Definition wait_for_shutdown_completion (fuel : nat) (first : option error) : P (outcome (option error)) :=
  forever fuel (λ first,
    '(processed, first) ←! returned (try_process_shutdown_completion first);
    if processed : bool then mret (Returned (Ok (inr first)))
    else _ ←! returned wait_for_completion; mret (Returned (Ok (inl first)))) first.

Definition draining (a : option ActiveOperation) : bool :=
  match a with Some a => drain_before_cancellation a | None => false end.

Definition drain_loop (fuel : nat) (first : option error) : P (outcome (option error)) :=
  forever fuel (λ first,
    r ← self;
    if existsb draining (active r)
    then first ←! wait_for_shutdown_completion fuel first; mret (Returned (Ok (inl first)))
    else mret (Returned (Ok (inr first)))) first.

Definition any {A} (l : list (option A)) : bool := existsb (λ o, bool_decide (is_Some o)) l.

Definition cancel_loop (fuel : nat) (first : option error) : P (outcome (option error)) :=
  forever fuel (λ first,
    r ← self;
    if any (active r) || any (cancellations r) then
      '(queued_one, queue_was_full) ←! returned queue_shutdown_cancellations;
      _ ←! returned (if queued_one || queue_was_full then submit_cancellation_batch else mret (Ok tt));
      '(processed, first) ←! returned (try_process_shutdown_completion first);
      _ ←! returned (if negb processed then wait_for_completion else mret (Ok true));
      mret (Returned (Ok (inl first)))
    else mret (Returned (Ok (inr first)))) first.

Definition shutdown (fuel : nat) : P (outcome unit) :=
  first ← cancel_adaptive_waits;
  _ ←! returned retire_unqueued_operations;
  _ ← update (λ r, r <| active := map (option_map mark_drain) (active r) |>);
  _ ←! returned submit_pending_operations;
  first ←! drain_loop fuel first;
  first ←! cancel_loop fuel first;
  _ ← update (λ r, r <| operations_may_be_in_flight := false |>);
  mret (Returned (match first with Some e => Err e | None => Ok tt end)).

Definition both (ran stopped : result unit error) : result unit error :=
  match ran, stopped with
  | Ok _, Ok _ => Ok tt
  | Err e, Ok _ | Ok _, Err e => Err e
  | Err e, Err e' => Err (ShutdownFailed e e')
  end.

(** A result is kept while [shutdown] runs; [shutdown] ends by itself. *)
Definition and_shutdown (fuel : nat) (ran : result unit error) : P (outcome unit) :=
  o ← shutdown fuel;
  mret (match o with
        | Running => Running
        | Aborted => Aborted
        | Returned stopped => Returned (both ran stopped)
        end).

Definition Runtime_run (fuel : nat) : P (outcome unit) :=
  o ← run_until_stopped fuel;
  match o with
  | Running => mret Running
  | Aborted => mret Aborted
  | Returned ran => and_shutdown fuel ran
  end.

(** ** Destruction *)

Definition Endpoint_drop (i : Z) (e : Endpoint) : P unit :=
  _ ← match adaptive_wait e with
      | Some wait => call (CloseHandle (event wait))
      | None => mret tt
      end;
  _ ← call (CloseHandle (handle e));
  not_outstanding (WaitOf i).

Fixpoint drop_endpoints (i : Z) (l : list Endpoint) : P unit :=
  match l with
  | [] => mret tt
  | e :: l => _ ← Endpoint_drop i e; drop_endpoints (i + 1) l
  end.

(** [Runtime::drop], then the fields: false when the process was aborted. *)
Definition Runtime_drop : P bool :=
  r ← self;
  if operations_may_be_in_flight r && any (active r) then mret false
  else
    _ ← call (CloseIoRing (ring r));
    _ ← drop_endpoints 0 (endpoints r);
    _ ← free_buffers;
    mret true.

(** Run [m] and drop the run time after it. *)
Definition dropping {A} (m : P (outcome A)) : P (outcome A) :=
  o ← m;
  match o with
  | Returned r => dropped ← Runtime_drop; mret (if dropped : bool then Returned r else Aborted)
  | o => mret o
  end.
