(* ===== verification/RuntimeStart.v ===== *)
(** * Start and entry point of the switch
    ([wintap-switch/src/main.rs], [Runtime::start], [run], [main]) *)

From S2P Require Import Prelude Words FrameParse Forwarding BufferPool Selection Completion.
From S2P Require Import Arguments Kernel Effects Runtime RuntimeLoop.

(** ** Adapters and endpoints *)

Definition query_adapter_mtu (guid : list Z) : P (result Z error) :=
  g ←? mret (parse_guid guid);
  t ← call GetIfTable2;
  if negb (t.1 =? ERROR_SUCCESS)
  then mret (Err (Failure "GetIfTable2 failed with Win32 error" [t.1]))
  else
    match t.2 with
    | None => mret (Err (Failure "GetIfTable2 returned a null table" []))
    | Some rows =>
        let found := ok_or (snd <$> find (λ row, bool_decide (row.1 = g)) rows)
                       (Failure "adapter GUID was not found in the interface table" []) in
        _ ← call FreeMibTable;
        mret found
    end.

Definition query_capabilities : P (result Z error) :=
  r ← call QueryIoRingCapabilities;
  mret (let? _ := check_hr r.1 "QueryIoRingCapabilities" in Ok r.2).

Record EndpointOpenError := { error_path : list Z; error_code : Z }.

Definition message (e : EndpointOpenError) : error :=
  Failure "CreateFileW failed with Win32 error" [error_code e].

Definition cleanup_is_pending (e : EndpointOpenError) : bool :=
  (error_code e =? ERROR_BUSY) || (error_code e =? ERROR_SHARING_VIOLATION).

Definition open_endpoint (path : list Z) : P (result Z EndpointOpenError) :=
  h ← call (CreateFileW path);
  if h =? INVALID_HANDLE_VALUE
  then e ← call GetLastError; mret (Err {| error_path := path; error_code := e |})
  else mret (Ok h).

Definition new_endpoint (n : Z) (config : EndpointConfig) (h : Z) : Endpoint :=
  {| id := EndpointId_new n; guid := config_guid config; handle := h; adaptive_wait := None |}.

(** When the second open fails the first endpoint is dropped. *)
Definition open_endpoints (first second : EndpointConfig) : P (result (list Endpoint) EndpointOpenError) :=
  h1 ←? open_endpoint (interface_path first);
  let e1 := new_endpoint 1 first h1 in
  r ← open_endpoint (interface_path second);
  match r with
  | Err e => _ ← drop_endpoints 0 [e1]; mret (Err e)
  | Ok h2 => mret (Ok [e1; new_endpoint 2 second h2])
  end.

Definition CLEANUP_REOPEN_ATTEMPTS : Z := 50.
Definition CLEANUP_REOPEN_DELAY : Z := milliseconds 10.

Fixpoint reopen_attempts (attempts : nat) (first second : EndpointConfig) :
    P (result (list Endpoint) error) :=
  match attempts with
  | O => mret (Err (Failure "timed out waiting for endpoint cleanup" [CLEANUP_REOPEN_ATTEMPTS]))
  | S attempts =>
      r ← open_endpoints first second;
      match r with
      | Ok endpoints => mret (Ok endpoints)
      | Err e =>
          if cleanup_is_pending e
          then _ ← call (Sleep CLEANUP_REOPEN_DELAY); reopen_attempts attempts first second
          else mret (Err (message e))
      end
  end.

Definition reopen_legacy_endpoints_after_cleanup (first second : EndpointConfig) :
    P (result (list Endpoint) error) :=
  reopen_attempts (Z.to_nat CLEANUP_REOPEN_ATTEMPTS) first second.

(** ** Negotiation *)

Definition is_adaptive_unsupported (error : Z) : bool :=
  (error =? ERROR_INVALID_FUNCTION) || (error =? ERROR_NOT_SUPPORTED).

(** The bytes returned, or the Win32 error; the overlapped structure is on
    the stack, so it must not be outstanding on return. *)
Definition synchronous_device_control (h code input : Z) : P (result Z Z) :=
  event ← call CreateEventW;
  if event =? 0 then e ← call GetLastError; mret (Err e)
  else
    completed ← call (DeviceIoControl h code input LocalOverlapped);
    result ← (if negb (completed.1 =? 0) then mret (Ok completed.2)
              else
                e ← call GetLastError;
                if negb (e =? ERROR_IO_PENDING) then mret (Err e)
                else
                  r ← call (GetOverlappedResult h LocalOverlapped true);
                  if r.1 =? 0 then e ← call GetLastError; mret (Err e) else mret (Ok r.2));
    _ ← call (CloseHandle event);
    _ ← not_outstanding LocalOverlapped;
    mret result.

Definition negotiate_adaptive_endpoint (e : Endpoint) : P (result AdaptiveEndpointCapability error) :=
  s ← get;
  _ ← put (s <| local_response := (0, 0) |>);
  r ← synchronous_device_control (handle e) TAP_IOCTL_ENABLE_ADAPTIVE_POLLING ADAPTIVE_INTEREST_ALL;
  match r with
  | Ok bytes =>
      if negb (bytes =? size_of_AdaptiveEnableResponse)
      then mret (Err (Failure "adaptive enable returned an invalid response size" []))
      else
        s ← get;
        let '(version, flags) := local_response s in
        _ ← call Eprintln;
        if negb (version =? ADAPTIVE_POLLING_PROTOCOL_VERSION) || negb (flags =? ADAPTIVE_INTEREST_ALL)
        then mret (Ok Incompatible)
        else mret (Ok (Supported version flags))
  | Err error =>
      if is_adaptive_unsupported error
      then _ ← call Eprintln; mret (Ok Unsupported)
      else mret (Err (Failure "adaptive enable failed with Win32 error" [error]))
  end.

Definition is_supported (c : AdaptiveEndpointCapability) : bool :=
  match c with Supported _ _ => true | _ => false end.

Definition negotiate_adaptive_polling (endpoints : list Endpoint) : P (result (bool * bool) error) :=
  e0 ← index endpoints 0;
  first ←? negotiate_adaptive_endpoint e0;
  e1 ← index endpoints 1;
  second ←? negotiate_adaptive_endpoint e1;
  let adaptive := bool_decide (is_Some (select_adaptive_polling [first; second])) in
  mret (Ok (adaptive, negb adaptive && (is_supported first || is_supported second))).

(** ** Start *)

(** Drops on the way out of an error. *)
Definition on_error {A} (cleanup : P unit) (m : P (result A error)) : P (result A error) :=
  r ← m;
  match r with
  | Ok a => mret (Ok a)
  | Err e => _ ← cleanup; mret (Err e)
  end.

Definition require (b : bool) (e : error) : P (result unit error) :=
  mret (if b then Ok tt else Err e).

Definition reserve (count : Z) (text : string) : P (result unit error) :=
  ok ← call (TryReserveExact count);
  require ok (Failure text []).

Definition select_endpoints (first second : EndpointConfig) : P (result (list Endpoint * bool) error) :=
  opened ← open_endpoints first second;
  endpoints ←? mret (map_err message opened);
  '(adaptive, reopen) ←? on_error (drop_endpoints 0 endpoints) (negotiate_adaptive_polling endpoints);
  endpoints ←? (if reopen : bool then
                  _ ← drop_endpoints 0 endpoints;
                  reopen_legacy_endpoints_after_cleanup first second
                else mret (Ok endpoints));
  _ ← call Eprintln;
  mret (Ok (endpoints, adaptive)).

Definition allocate_buffers (total_depth frame_maximum : Z) : P (result unit error) :=
  _ ←? reserve total_depth "buffer pool allocation failed";
  _ ←? require (negb (total_depth * frame_maximum <? frame_maximum))
         (Failure "read depth buffer-size calculation was invalid" []);
  for_each (seq 0 (Z.to_nat total_depth)) (λ _,
    _ ←? reserve frame_maximum "buffer pool allocation failed";
    s ← get;
    _ ← put (s <| buffers := buffers s ++ [replicate (Z.to_nat frame_maximum) 0] |>);
    mret (Ok tt)).

Definition register (ring total_depth : Z) (files : list Z) : P (result unit error) :=
  _ ←? reserve total_depth "buffer registration allocation failed";
  _ ←? require (total_depth <=? u32_max)
         (Failure "registered buffer count exceeds I/O-ring limits" []);
  _ ←? hr "BuildIoRingRegisterFileHandles" (call (BuildIoRingRegisterFileHandles ring files));
  _ ←? hr "BuildIoRingRegisterBuffers" (call (BuildIoRingRegisterBuffers ring total_depth));
  _ ←? hr "SubmitIoRing" (call (SubmitIoRing ring 2 0));
  for_each [0; 1]%Z (λ _,
    popped ← call (PopIoRingCompletion ring);
    _ ←? mret (check_hr popped.1 "PopIoRingCompletion");
    mret (check_hr (result_code popped.2) "I/O-ring registration")).

Definition select_version (ring maximum_version : Z) : P (result unit error) :=
  supports_read ← call (IsIoRingOpSupported ring IORING_OP_READ);
  supports_write ← call (IsIoRingOpSupported ring IORING_OP_WRITE);
  match select_io_ring_version
          {| maximum_version := maximum_version;
             supports_read := negb (supports_read =? 0);
             supports_write := negb (supports_write =? 0);
             supports_read_scatter := false; supports_write_gather := false |} with
  | Err _ => mret (Err (Failure "required I/O-ring capability unavailable" []))
  | Ok V3 => mret (Ok tt)
  | Ok V4 => mret (Err (Failure "v4 scatter/gather requires dedicated validation" []))
  end.

(** From the creation of the ring to its hand-over to the run time. *)
Definition prepare_ring (ring total_depth frame_maximum maximum_version : Z) (files : list Z) :
    P (result BufferPool error) :=
  _ ←? select_version ring maximum_version;
  _ ←? allocate_buffers total_depth frame_maximum;
  _ ←? register ring total_depth files;
  ok ← call (TryReserveExact total_depth);
  pool ←? mret (map_err (SlotFailure "buffer pool allocation failed") (try_new (λ _, ok) total_depth));
  _ ←? reserve total_depth "active operation allocation failed";
  _ ←? reserve total_depth "cancellation tracking allocation failed";
  mret (Ok pool).

Definition check_depth (total_depth wait_operations : Z) : P (result unit error) :=
  _ ←? require (negb ((total_depth =? 0) || negb (total_depth mod ENDPOINT_COUNT =? 0)))
         (Failure "read depth must be a positive even value" []);
  _ ←? require (total_depth <=? SLOT_MASK + 1)
         (Failure "read depth exceeds completion identity capacity" []);
  require (negb ((wait_operations =? 0) || (total_depth <? wait_operations)))
    (Failure "wait operations must be between 1 and read depth" [total_depth]).

Definition check_mtu (first second : EndpointConfig) (total_depth : Z) : P (result Z error) :=
  mtu_a ←? query_adapter_mtu (config_guid first);
  mtu_b ←? query_adapter_mtu (config_guid second);
  _ ←? require (mtu_a =? mtu_b) (Failure "endpoint MTUs differ" [mtu_a; mtu_b]);
  _ ←? require ((1500 <=? mtu_a) && (mtu_a <=? 65521))
         (Failure "endpoint MTU is outside supported limits" [mtu_a]);
  frame_maximum ←? mret (ok_or
    (value ← checked_add 64 mtu_a FRAME_MINIMUM;
     if value <=? FRAME_MAXIMUM then Some value else None)
    (Failure "endpoint MTU exceeds switch frame limits" [mtu_a]));
  _ ←? mret (ok_or (checked_mul 64 total_depth frame_maximum)
               (Failure "read depth buffer-size calculation overflowed" []));
  _ ←? require (total_depth <=? u32_max) (Failure "read depth exceeds I/O-ring limits" []);
  mret (Ok frame_maximum).

Definition create_ring (total_depth : Z) : P (result Z error) :=
  r ← call (CreateIoRing IORING_VERSION_3 total_depth total_depth);
  mret (let? _ := check_hr r.1 "CreateIoRing" in Ok r.2).

(** The first reads; an error drops the run time, after a shutdown when the
    reads could not be submitted. *)
Definition post_first_reads (fuel : nat) : P (outcome unit) :=
  r ← self;
  _ ←! returned (for_each (slots_of r) post_read);
  submitted ← submit_pending_operations;
  match submitted with
  | Ok _ => mret (Returned (Ok tt))
  | Err e => and_shutdown fuel (Err e)
  end.

Definition drop_on_error (m : P (outcome unit)) : P (outcome unit) :=
  o ← m;
  match o with
  | Returned (Err e) => dropped ← Runtime_drop; mret (if dropped : bool then Returned (Err e) else Aborted)
  | o => mret o
  end.

Definition Runtime_start (fuel : nat) (o : options) (first second : EndpointConfig) : P (outcome unit) :=
  let total_depth := read_depth o in
  let reads_per_endpoint := total_depth / ENDPOINT_COUNT in
  _ ←! returned (check_depth total_depth (option_wait_operations o));
  frame_maximum ←! returned (check_mtu first second total_depth);
  maximum_version ←! returned query_capabilities;
  '(endpoints, adaptive) ←! returned (select_endpoints first second);
  ring ←! returned (on_error (drop_endpoints 0 endpoints) (create_ring total_depth));
  pool ←! returned (on_error (_ ← free_buffers; _ ← call (CloseIoRing ring); drop_endpoints 0 endpoints)
            (prepare_ring ring total_depth frame_maximum maximum_version (handle <$> endpoints)));
  stats ← RuntimeStats_new (stats_enabled o);
  _ ← update (λ _,
    {| Runtime.ring := ring; Runtime.endpoints := endpoints; Runtime.pool := pool;
       active := replicate (Z.to_nat total_depth) None;
       cancellations := replicate (Z.to_nat total_depth) None;
       operations_may_be_in_flight := false; submission_queue_size := total_depth;
       Runtime.reads_per_endpoint := reads_per_endpoint;
       wait_operations := option_wait_operations o;
       completion_wait_milliseconds := option_completion_wait_milliseconds o;
       Runtime.frame_maximum := frame_maximum; adaptive_polling := adaptive;
       polling_budget := option_polling_budget o; Runtime.stats := stats |});
  drop_on_error (post_first_reads fuel).

(** ** The program *)

(** Whether the control event stops the switch, and the handler's result. *)
Definition console_handler (control_type : Z) : bool * Z :=
  if (control_type =? 0) || (control_type =? 2) then (true, 1) else (false, 0).

Definition run_switch (fuel : nat) (o : options) (first second : EndpointConfig) : P (outcome unit) :=
  added ← call (SetConsoleCtrlHandler true);
  if added =? 0 then mret (Returned (Err (Failure "SetConsoleCtrlHandler failed" [])))
  else
    _ ←! Runtime_start fuel o first second;
    result ← dropping (Runtime_run fuel);
    match result with
    | Returned r => _ ← call (SetConsoleCtrlHandler false); mret (Returned r)
    | result => mret result
    end.

(** [args] is the command line without the program's name.  [--help] exits. *)
Definition run (fuel : nat) (args : list (list Z)) : P (outcome unit) :=
  match parse_arguments args with
  | Help => mret (Returned (Ok tt))
  | Parsed (Err e) => mret (Returned (Err e))
  | Parsed (Ok o) =>
      first ← index (option_endpoints o) 0;
      second ← index (option_endpoints o) 1;
      run_switch fuel o first second
  end.

(** The exit status, when the process ends by itself.  [args] are the arguments
    that [std::env::args] yields, decoded; that it panics on one that is
    not Unicode, and that printing to a closed stream panics, is not modelled. *)
Definition main (fuel : nat) (args : list (list Z)) : P (option Z) :=
  o ← run fuel args;
  match o with
  | Returned (Ok _) => mret (Some 0)
  | Returned (Err _) => _ ← call Eprintln; mret (Some 1)
  | _ => mret None
  end.
