(* ===== verification/RuntimeShape.v ===== *)
(** * What the kernel holds for the switch

    The correspondence between the run time's tables of active operations and
    of cancellations and the I/O-ring entries that are built and taken: every
    queued operation has one entry, submitted ones among the taken entries and
    the others among the built ones, and every cancellation has one. *)

From S2P Require Import Prelude Words BufferPool Completion Kernel Effects Runtime.

#[local] Open Scope nat_scope.

(** ** Lists indexed by slot *)

Section slotwise.
Context {A B : Type} (f : Z → A → list B).

Definition slotwise (l : list A) : list B :=
  concat (imap (λ i, f (Z.of_nat i)) l).

Lemma slotwise_frame l i x : l !! i = Some x →
  ∃ F, slotwise l ≡ₚ f (Z.of_nat i) x ++ F ∧
    ∀ y, slotwise (<[i := y]> l) ≡ₚ f (Z.of_nat i) y ++ F.
Proof.
  intros Hi. pose proof (lookup_lt_Some _ _ _ Hi) as Hlt.
  exists (concat (imap (λ j, f (Z.of_nat j)) (take i l)) ++
          concat (imap (λ j, f (Z.of_nat (i + S j))) (drop (S i) l))).
  assert (Hy : ∀ y, slotwise (take i l ++ y :: drop (S i) l) ≡ₚ f (Z.of_nat i) y ++
    concat (imap (λ j, f (Z.of_nat j)) (take i l)) ++
    concat (imap (λ j, f (Z.of_nat (i + S j))) (drop (S i) l))).
  { intros y. unfold slotwise. rewrite imap_app, concat_app.
    rewrite length_take_le by lia. cbn. rewrite Nat.add_0_r.
    apply Permutation_app_swap_app. }
  split.
  - rewrite <- (take_drop_middle l i x) at 1 by done. apply Hy.
  - intros y. rewrite insert_take_drop by done. apply Hy.
Qed.

Lemma slotwise_elem l y : y ∈ slotwise l ↔ ∃ i x, l !! i = Some x ∧ y ∈ f (Z.of_nat i) x.
Proof.
  unfold slotwise. rewrite list_elem_of_In, in_concat. split.
  - intros (k & Hk & Hy). apply list_elem_of_In in Hk, Hy.
    apply elem_of_lookup_imap in Hk as (i & x & -> & Hx). eauto.
  - intros (i & x & Hx & Hy). exists (f (Z.of_nat i) x). rewrite <- (list_elem_of_In (imap _ _)), <- (list_elem_of_In (f _ _)).
    split; [|done]. apply elem_of_lookup_imap. eauto.
Qed.

Lemma slotwise_length n l : (∀ i x, (length (f i x) ≤ n)%nat) → (length (slotwise l) ≤ n * length l)%nat.
Proof.
  intros Hf. unfold slotwise.
  assert (H : ∀ h : nat → A → list B, (∀ i x, (length (h i x) ≤ n)%nat) →
    (length (concat (imap h l)) ≤ n * length l)%nat); [|by apply H].
  clear Hf. induction l as [|x l IH]; intros h Hf; cbn; [lia|]. rewrite length_app.
  specialize (IH (h ∘ S) (λ i, Hf (S i))). specialize (Hf O x). lia.
Qed.

Lemma slotwise_nil l : (∀ i x, l !! i = Some x → f (Z.of_nat i) x = []) → slotwise l = [].
Proof.
  intros H. destruct (slotwise l) as [|y k] eqn:E; [done|].
  assert (y ∈ slotwise l) as Hy by (rewrite E; by left).
  apply slotwise_elem in Hy as (i & x & Hx & Hy). rewrite (H i x Hx) in Hy.
  by apply not_elem_of_nil in Hy.
Qed.
End slotwise.

Lemma concat_imap_app {A B} (l : list A) : ∀ (f g h : nat → A → list B),
  (∀ i x, h i x ≡ₚ f i x ++ g i x) → concat (imap h l) ≡ₚ concat (imap f l) ++ concat (imap g l).
Proof.
  induction l as [|x l IH]; intros f g h H; [done|]. cbn.
  rewrite (H 0 x), (IH (f ∘ S) (g ∘ S) (h ∘ S)) by (intros; apply H).
  rewrite <- !(assoc_L (++)). apply Permutation_app_head, Permutation_app_swap_app.
Qed.

(** ** Entries *)

(** A cancellation carries the identity of its operation, marked. *)
Definition is_cancel (x : entry) : Prop :=
  match x with CancelEntry _ op u => u = Z.lor CANCEL_COMPLETION_MARKER op | _ => False end.

Definition operation_of (x : entry) : Z := match x with CancelEntry _ op _ => op | _ => 0%Z end.

Definition rw_entry (i : Z) (a : ActiveOperation) : entry :=
  if is_write a then WriteEntry (op_handle a) i (op_length a) (op_user_data a)
  else ReadEntry (op_handle a) i (op_length a) (op_user_data a).

(** The entry of a slot among the submitted, or among the merely built. *)
Definition slot_entries (sub : bool) (i : Z) (o : option ActiveOperation) : list entry :=
  match o with
  | Some a => if queued a && eqb (submitted a) sub then [rw_entry i a] else []
  | None => []
  end.

Abbreviation entries sub := (slotwise (slot_entries sub)).

(** The operation a slot's cancellation names. *)
Definition cancelled_of (i : Z) (o : option Z) : list Z :=
  match o with Some op => [op] | None => [] end.

Abbreviation cancelled := (slotwise cancelled_of).

Record kshape (A : list (option ActiveOperation)) (C : list (option Z)) (B T : list entry)
    (cb ct : list entry) : Prop := {
  shape_built : B ≡ₚ entries false A ++ cb;
  shape_taken : T ≡ₚ entries true A ++ ct;
  shape_cancels : Forall is_cancel (cb ++ ct);
  shape_cancelled : operation_of <$> cb ++ ct ≡ₚ cancelled C;
}.

Definition kshaped A C B T : Prop := ∃ cb ct, kshape A C B T cb ct.

Lemma rw_slot i a : entry_slot (rw_entry i a) = Some i.
Proof. unfold rw_entry. by destruct (is_write a). Qed.

Lemma rw_user_data i a : entry_user_data (rw_entry i a) = op_user_data a.
Proof. unfold rw_entry. by destruct (is_write a). Qed.

Lemma rw_not_cancel i a : ¬ is_cancel (rw_entry i a).
Proof. unfold rw_entry. destruct (is_write a); intros []. Qed.

Lemma entries_elem sub A x : x ∈ entries sub A ↔
  ∃ i a, A !! i = Some (Some a) ∧ queued a = true ∧ submitted a = sub ∧ x = rw_entry (Z.of_nat i) a.
Proof.
  rewrite slotwise_elem. split.
  - intros (i & [a|] & Hi & Hx); cbn in Hx; [|by apply not_elem_of_nil in Hx].
    destruct (queued a) eqn:Hq; cbn in Hx; [|by apply not_elem_of_nil in Hx].
    destruct (eqb (submitted a) sub) eqn:Hs; [|by apply not_elem_of_nil in Hx].
    apply eqb_prop in Hs. apply list_elem_of_singleton in Hx. eauto 10.
  - intros (i & a & Hi & Hq & <- & ->). exists i, (Some a). split; [done|]. cbn.
    rewrite Hq, eqb_reflx. cbn. by left.
Qed.

#[export] Instance kshaped_perm A C : Proper ((≡ₚ) ==> (≡ₚ) ==> iff) (kshaped A C).
Proof.
  intros B B' HB T T' HT. split; intros (cb & ct & [H1 H2 H3 H4]); exists cb, ct.
  - split; [by rewrite <- HB|by rewrite <- HT|done|done].
  - split; [by rewrite HB|by rewrite HT|done|done].
Qed.

(** A slot changes, with its entries. *)
Lemma kshaped_update A C B T B0 T0 i o o' :
  A !! i = Some o → B ≡ₚ slot_entries false (Z.of_nat i) o ++ B0 →
  T ≡ₚ slot_entries true (Z.of_nat i) o ++ T0 → kshaped A C B T →
  kshaped (<[i := o']> A) C (slot_entries false (Z.of_nat i) o' ++ B0)
    (slot_entries true (Z.of_nat i) o' ++ T0).
Proof.
  intros Hi HB HT (cb & ct & [H1 H2 H3 H4]). exists cb, ct.
  destruct (slotwise_frame (slot_entries false) A i o Hi) as (Fb & Eb & Eb').
  destruct (slotwise_frame (slot_entries true) A i o Hi) as (Ft & Et & Et').
  rewrite Eb, HB, <- (assoc_L (++)) in H1. apply Permutation_app_inv_l in H1.
  rewrite Et, HT, <- (assoc_L (++)) in H2. apply Permutation_app_inv_l in H2.
  split; [| |done|done].
  - by rewrite Eb', H1, (assoc_L (++)).
  - by rewrite Et', H2, (assoc_L (++)).
Qed.

(** What a completion can belong to. *)
Lemma kshaped_taken A C B T x : kshaped A C B T → x ∈ T →
  (∃ i a, A !! i = Some (Some a) ∧ queued a = true ∧ submitted a = true ∧
     x = rw_entry (Z.of_nat i) a) ∨
  (is_cancel x ∧ ∃ i, C !! i = Some (Some (operation_of x))).
Proof.
  intros (cb & ct & [H1 H2 H3 H4]) Hx. rewrite H2 in Hx.
  apply elem_of_app in Hx as [Hx|Hx]; [left; by apply entries_elem|right].
  assert (Hin : x ∈ cb ++ ct) by (apply elem_of_app; by right).
  split; [by rewrite Forall_forall in H3; apply H3|].
  assert (operation_of x ∈ cancelled C) as Hm.
  { rewrite <- H4. apply list_elem_of_fmap. eauto. }
  apply slotwise_elem in Hm as (i & [op|] & Hi & Hm); cbn in Hm;
    [|by apply not_elem_of_nil in Hm]. apply list_elem_of_singleton in Hm as ->. eauto.
Qed.

(** A completed operation leaves no other entry for its buffer. *)
Lemma kshaped_exclusive A C B T i a : kshaped A C B (rw_entry (Z.of_nat i) a :: T) →
  A !! i = Some (Some a) → queued a = true → submitted a = true →
  ∀ y, y ∈ T → entry_slot y ≠ Some (Z.of_nat i).
Proof.
  intros (cb & ct & [H1 H2 H3 H4]) Hi Hq Hs y Hy Hslot.
  destruct (slotwise_frame (slot_entries true) A i _ Hi) as (F & EF & EF').
  rewrite EF in H2. cbn in H2. rewrite Hq, Hs in H2. cbn in H2.
  apply Permutation_cons_inv in H2. rewrite H2 in Hy. apply elem_of_app in Hy as [Hy|Hy].
  - assert (Hy' : y ∈ entries true (<[i := None]> A)) by (rewrite (EF' None); exact Hy).
    apply entries_elem in Hy' as (j & b & Hj & _ & _ & ->). rewrite rw_slot in Hslot.
    injection Hslot as Hij. apply Nat2Z.inj in Hij as ->.
    rewrite list_lookup_insert_eq in Hj by (by eapply lookup_lt_Some). done.
  - rewrite Forall_forall in H3. assert (is_cancel y) as Hc by (apply H3, elem_of_app; by right).
    by destruct y.
Qed.

Lemma kshaped_owned A C B T y : kshaped A C B T → y ∈ T → is_Some (entry_slot y) →
  ∃ i a, A !! i = Some (Some a) ∧ submitted a = true.
Proof.
  intros Hk Hy [j Hj]. destruct (kshaped_taken _ _ _ _ _ Hk Hy) as [(i & a & ? & ? & ? & ?)|[Hc _]];
    [eauto|by destruct y].
Qed.

(** ** Submission *)

Lemma mark_entries A : entries false (map (option_map mark_submitted) A) = [] ∧
  entries true (map (option_map mark_submitted) A) ≡ₚ entries true A ++ entries false A.
Proof.
  split.
  - apply slotwise_nil. intros i o Hi. rewrite list_lookup_fmap in Hi.
    destruct (A !! i) as [[a|]|]; cbn in Hi; simplify_eq; cbn; [|done].
    unfold mark_submitted. destruct (queued a) eqn:Hq, (submitted a) eqn:Hs; cbn; rewrite ?Hq, ?Hs; done.
  - unfold slotwise. change (map (option_map mark_submitted) A) with (option_map mark_submitted <$> A).
    rewrite imap_fmap. apply concat_imap_app. intros i [a|]; [|done]. cbn. unfold mark_submitted.
    destruct (queued a) eqn:Hq, (submitted a) eqn:Hs; cbn; rewrite ?Hq, ?Hs; cbn; done.
Qed.

Lemma kshaped_submit A C B T : kshaped A C B T →
  kshaped (map (option_map mark_submitted) A) C [] (T ++ B).
Proof.
  intros (cb & ct & [H1 H2 H3 H4]). exists [], (ct ++ cb). destruct (mark_entries A) as [E1 E2].
  split; cbn.
  - by rewrite E1.
  - rewrite E2, H1, H2. rewrite <- !(assoc_L (++)). f_equiv.
    rewrite (Permutation_app_comm ct), <- !(assoc_L (++)). f_equiv. apply Permutation_app_comm.
  - by rewrite Permutation_app_comm.
  - by rewrite (Permutation_app_comm ct).
Qed.

(** Entries taken while nothing unsubmitted is queued. *)
Lemma kshaped_take A C B T : kshaped A C B T → entries false A = [] → kshaped A C [] (T ++ B).
Proof.
  intros (cb & ct & [H1 H2 H3 H4]) E. exists [], (ct ++ cb). rewrite E in H1. cbn in H1.
  split; cbn.
  - by rewrite E.
  - by rewrite H2, H1, <- (assoc_L (++)).
  - by rewrite Permutation_app_comm.
  - by rewrite (Permutation_app_comm ct).
Qed.

(** ** Cancellations *)

Lemma kshaped_cancel A C B T i h op : C !! i = Some None → kshaped A C B T →
  kshaped A (<[i := Some op]> C) (B ++ [CancelEntry h op (Z.lor CANCEL_COMPLETION_MARKER op)]) T.
Proof.
  intros Hi (cb & ct & [H1 H2 H3 H4]).
  destruct (slotwise_frame cancelled_of C i None Hi) as (F & EF & EF'). cbn in EF.
  exists (CancelEntry h op (Z.lor CANCEL_COMPLETION_MARKER op) :: cb), ct. split.
  - rewrite H1. rewrite <- (assoc_L (++)). f_equiv. by rewrite Permutation_app_comm.
  - done.
  - by constructor.
  - rewrite EF'. cbn. by rewrite H4, EF.
Qed.

Lemma kshaped_cancelled A C B T x i :
  kshaped A C B (x :: T) → is_cancel x → C !! i = Some (Some (operation_of x)) →
  kshaped A (<[i := None]> C) B T.
Proof.
  intros (cb & ct & [H1 H2 H3 H4]) Hx Hi.
  assert (Hin : x ∈ entries true A ++ ct) by (rewrite <- H2; by left).
  apply elem_of_app in Hin as [Hin|Hin].
  { apply entries_elem in Hin as (j & a & _ & _ & _ & ->). by apply rw_not_cancel in Hx. }
  apply elem_of_Permutation in Hin as [ct' Hct]. exists cb, ct'.
  destruct (slotwise_frame cancelled_of C i _ Hi) as (F & EF & EF').
  rewrite Hct in H2, H3, H4. rewrite <- Permutation_middle in H2, H3, H4. split.
  - done.
  - by apply Permutation_cons_inv in H2.
  - by apply Forall_cons in H3 as [_ H3].
  - rewrite fmap_cons, EF in H4. cbn in H4. apply Permutation_cons_inv in H4.
    by rewrite EF', H4.
Qed.

(** Nothing active and nothing being cancelled: the kernel has no entry. *)
Lemma kshaped_idle A C B T : kshaped A C B T →
  (∀ i o, A !! i = Some o → o = None) → (∀ i o, C !! i = Some o → o = None) → B = [] ∧ T = [].
Proof.
  intros (cb & ct & [H1 H2 H3 H4]) HA HC.
  assert (∀ sub, entries sub A = []) as HE.
  { intros sub. apply slotwise_nil. intros i o Hi. by rewrite (HA i o Hi). }
  assert (cancelled C = []) as HM.
  { apply slotwise_nil. intros i o Hi. by rewrite (HC i o Hi). }
  rewrite HM in H4. apply Permutation_nil_r, fmap_nil_inv, app_nil in H4 as [-> ->].
  rewrite HE in H1, H2. cbn in H1, H2. by apply Permutation_nil_r in H1, H2.
Qed.

(** Without cancellations the kernel has at most one entry for each slot. *)
Lemma kshaped_bound A C B T : kshaped A C B T → (∀ i o, C !! i = Some o → o = None) →
  length T ≤ length A.
Proof.
  intros (cb & ct & [H1 H2 H3 H4]) HC.
  assert (HM : cancelled C = []) by (apply slotwise_nil; intros i o Hi; by rewrite (HC i o Hi)).
  rewrite HM in H4. apply Permutation_nil_r, fmap_nil_inv, app_nil in H4 as [-> ->].
  rewrite app_nil_r in H2. rewrite H2, <- (Nat.mul_1_l (length A)). apply slotwise_length.
  intros i [a|]; cbn; [|lia]. destruct (queued a && _); cbn; lia.
Qed.
