(* ===== verification/RuntimeSpec.v ===== *)
(** * The invariant of the switch's run time

    [inv] holds whenever the run time is at rest or fails: the tables have
    their sizes, active operations carry the pool's current tokens, and the
    kernel holds exactly the entries they account for.  [tidy] adds what holds
    while the switch runs: pool states match the operations.  Every operation
    of [Runtime] is shown to keep them, for every kernel that keeps
    [os_contract]. *)

From S2P Require Import Prelude Words FrameParse Forwarding BufferPool Selection Completion.
From S2P Require Import Arguments Kernel Effects Runtime RuntimeLoop RuntimeShape.

(** ** The invariant *)

(** What does not change during a run.  [g_handles] is the set of open handles
    when it is known exactly, which it is until the first wait. *)
Record geometry := {
  g_ring : Z;
  g_depth : nat;
  g_rpe : Z;
  g_frame : Z;
  g_first : Z;
  g_second : Z;
  g_handles : option (gset Z);
  g_rings : gset Z;
  g_running : bool;      (* no cancellation was queued yet *)
}.

Record geometry_ok (g : geometry) : Prop := {
  geo_rpe : 0 < g_rpe g;
  geo_depth : Z.of_nat (g_depth g) = 2 * g_rpe g;
  geo_small : Z.of_nat (g_depth g) ≤ 2 ^ 31;
  geo_frame : 14 ≤ g_frame g ≤ FRAME_MAXIMUM;
}.

(** An active operation names its slot, with the pool's current generation. *)
Record active_ok (p : BufferPool) (i : nat) (a : ActiveOperation) : Prop := {
  ao_slot : slot (completion a) = Z.of_nat i;
  ao_generation : 0 < completion_generation (completion a) < 2 ^ 32;
  ao_user_data : op_user_data a = identity (Z.of_nat i) (completion_generation (completion a));
  ao_pool : ∃ st, slots p !! i =
    Some {| generation := completion_generation (completion a); state := st |} ∧ st ≠ Free;
  ao_retries : 0 ≤ busy_retries a ≤ MAX_BUSY_RETRIES;
}.

Definition cancel_ok (i : nat) (op : Z) : Prop :=
  ∃ gen, 0 < gen < 2 ^ 32 ∧ op = identity (Z.of_nat i) gen.

Definition slot_generations (p : BufferPool) : Prop :=
  ∀ i s, slots p !! i = Some s → 0 ≤ generation s ≤ u32_max.

Definition known (o : option (gset Z)) (x : gset Z) : Prop :=
  match o with Some y => x = y | None => True end.

Record fixed (g : geometry) (r : Runtime) : Prop := {
  fx_ring : ring r = g_ring g;
  fx_sq : submission_queue_size r = Z.of_nat (g_depth g);
  fx_rpe : reads_per_endpoint r = g_rpe g;
  fx_frame : frame_maximum r = g_frame g;
  fx_endpoints : ∃ e0 e1, endpoints r = [e0; e1] ∧
    id e0 = EndpointId_new 1 ∧ id e1 = EndpointId_new 2 ∧
    handle e0 = g_first g ∧ handle e1 = g_second g;
  fx_waits : g_handles g ≠ None → ∀ ep, ep ∈ endpoints r → adaptive_wait ep = None;
  fx_running : g_running g = true → ∀ i op, cancellations r !! i ≠ Some (Some op);
}.

Record tables (g : geometry) (r : Runtime) : Prop := {
  tb_active : length (active r) = g_depth g;
  tb_cancel : length (cancellations r) = g_depth g;
  tb_pool : length (slots (pool r)) = g_depth g;
  tb_generations : slot_generations (pool r);
  tb_ok i a : active r !! i = Some (Some a) → active_ok (pool r) i a;
  tb_cancel_ok i op : cancellations r !! i = Some (Some op) → cancel_ok i op;
  tb_flag : operations_may_be_in_flight r = false →
    ∀ i a, active r !! i = Some (Some a) → submitted a = false;
}.

(** The kernel's side; [X] are completions popped and not processed yet. *)
Record held (g : geometry) (X : list entry) (r : Runtime) (k : kernel) : Prop := {
  hd_shape : kshaped (active r) (cancellations r) (built k) (X ++ taken k);
  hd_waits i : i ∈ outstanding k →
    ∃ e w, at_index (endpoints r) i = Some e ∧ adaptive_wait e = Some w ∧ pending w = true;
  hd_local : local_outstanding k = false;
  hd_handles : known (g_handles g) (open_handles k);
  hd_rings : open_rings k = g_rings g;
}.

Record inv (g : geometry) (X : list entry) (s : sys) : Prop := {
  i_fixed : fixed g (rt s);
  i_tables : tables g (rt s);
  i_held : held g X (rt s) (kern s);
  i_buffers : length <$> buffers s = replicate (g_depth g) (Z.to_nat (g_frame g));
  i_responses : length (responses s) = 2%nat;
}.

(** The pool state an active operation of a running switch has. *)
Definition state_of (o : option ActiveOperation) : SlotState :=
  match o with
  | None => Free
  | Some a => if is_write a then WritePending 1 else ReadPending
  end.

Definition slot_tidy (r : Runtime) (i : nat) : Prop :=
  ∀ o, active r !! i = Some o →
    (∃ s, slots (pool r) !! i = Some s ∧ state s = state_of o) ∧
    (∀ a, o = Some a → queued a = true ∧ drain_before_cancellation a = false) ∧
    cancellations r !! i = Some None.

Definition tidy (r : Runtime) : Prop := ∀ i, slot_tidy r i.
Definition tidy_but (i : nat) (r : Runtime) : Prop := ∀ j, j ≠ i → slot_tidy r j.

(** Submitted operations. *)
Definition in_flight (r : Runtime) : nat := length (entries true (active r)).

(** ** Steps that leave the kernel's side as it is *)

Record kernel_same (k k' : kernel) : Prop := {
  same_built : built k' = built k;
  same_taken : taken k' = taken k;
  same_outstanding : outstanding k' = outstanding k;
  same_local : local_outstanding k' = local_outstanding k;
  same_handles : open_handles k' = open_handles k;
  same_rings : open_rings k' = open_rings k;
}.

Lemma kernel_same_refl k : kernel_same k k.
Proof. by split. Qed.

Lemma kernel_same_eq k k' : k' = k → kernel_same k k'.
Proof. intros ->. apply kernel_same_refl. Qed.

Lemma kernel_same_failed k k' : failed k k' → kernel_same k k'.
Proof. intros ->. by split. Qed.

#[export] Hint Resolve kernel_same_refl kernel_same_eq kernel_same_failed : core.

Lemma held_same g X r k k' : kernel_same k k' → held g X r k → held g X r k'.
Proof.
  intros [E1 E2 E3 E4 E5 E6] [H1 H2 H3 H4 H5].
  split; rewrite ?E1, ?E2, ?E3, ?E4, ?E5, ?E6; try done.
Qed.

Lemma shared_buffers s s' n m : shared_kept s s' →
  length <$> buffers s = replicate n m → length <$> buffers s' = replicate n m.
Proof. intros H <-. apply H. Qed.

(** A call that changes the kernel's side into [k']. *)
Lemma inv_call g X X' s s' : shared_kept s s' → inv g X s →
  (held g X (rt s) (kern s) → held g X' (rt s) (kern s')) → inv g X' s'.
Proof.
  intros Hk [F T H B R] Hheld. pose proof (kept_rt _ _ Hk) as Er.
  split; rewrite ?Er; [done|done|by apply Hheld|by eapply shared_buffers|].
  by rewrite (kept_responses _ _ Hk).
Qed.

Lemma inv_same g X s s' : shared_kept s s' → kernel_same (kern s) (kern s') → inv g X s → inv g X s'.
Proof. intros Hk Hs HI. eapply inv_call; [done..|]. by apply held_same. Qed.

(** ** Steps of the run time *)

Lemma fixed_same g r r' : fixed g r → ring r' = ring r →
  submission_queue_size r' = submission_queue_size r →
  reads_per_endpoint r' = reads_per_endpoint r → frame_maximum r' = frame_maximum r →
  endpoints r' = endpoints r → cancellations r' = cancellations r → fixed g r'.
Proof. intros [] E1 E2 E3 E4 E5 E6. split; congruence || by rewrite ?E5, ?E6. Qed.

(** One slot of the tables changes. *)
Lemma tables_slot g r r' i o : tables g r → active r' = <[i := o]> (active r) →
  cancellations r' = cancellations r →
  operations_may_be_in_flight r' = operations_may_be_in_flight r →
  length (slots (pool r')) = length (slots (pool r)) →
  (∀ j, j ≠ i → slots (pool r') !! j = slots (pool r) !! j) →
  (∀ s, slots (pool r') !! i = Some s → 0 ≤ generation s ≤ u32_max) →
  (∀ a, o = Some a → active_ok (pool r') i a ∧
     (operations_may_be_in_flight r' = false → submitted a = false)) →
  tables g r'.
Proof.
  intros [T1 T2 T3 T4 T5 T6 T7] EA EC EF EL Hother Hgen Ha.
  assert (Hok : ∀ j a, active r' !! j = Some (Some a) →
    active_ok (pool r') j a ∧ (operations_may_be_in_flight r' = false → submitted a = false)).
  { intros j a Hj. rewrite EA in Hj. destruct (decide (j = i)) as [->|Hne].
    - destruct (decide (i < length (active r))%nat) as [Hlt|Hge].
      + rewrite list_lookup_insert_eq in Hj by done. simplify_eq. by apply Ha.
      + rewrite list_insert_ge in Hj by lia. apply lookup_lt_Some in Hj. lia.
    - rewrite list_lookup_insert_ne in Hj by done. rewrite EF. split; [|intros; by eapply T7].
      destruct (T5 j a Hj) as [A1 A2 A3 A4 A5]. split; try done. by rewrite Hother. }
  split; rewrite ?EC, ?EL; try done.
  - by rewrite EA, length_insert.
  - intros j s Hj. destruct (decide (j = i)) as [->|Hne]; [by apply Hgen|].
    apply (T4 j). by rewrite <- Hother.
  - intros j a Hj. by apply Hok.
  - intros Hf j a Hj. by apply (Hok j a Hj).
Qed.

Lemma inv_update_rt g X X' s r' : inv g X s → fixed g r' → tables g r' →
  (held g X (rt s) (kern s) → held g X' r' (kern s)) → inv g X' (s <| rt := r' |>).
Proof. intros [F T H B R] HF HT HH. split; try done. by apply HH. Qed.

(** The kernel's side does not see the pool, the flag or the counters. *)
Lemma held_rt g X r r' k : held g X r k → active r' = active r →
  cancellations r' = cancellations r → endpoints r' = endpoints r → held g X r' k.
Proof. intros [H1 H2 H3 H4 H5] EA EC EE. by split; rewrite ?EA, ?EC, ?EE. Qed.

(** The kernel's side when one slot changes. *)
Lemma held_slot g X X' r r' k k' i o o' B0 T0 : held g X r k →
  active r !! i = Some o → active r' = <[i := o']> (active r) →
  cancellations r' = cancellations r → endpoints r' = endpoints r →
  outstanding k' = outstanding k → local_outstanding k' = local_outstanding k →
  open_handles k' = open_handles k → open_rings k' = open_rings k →
  built k ≡ₚ slot_entries false (Z.of_nat i) o ++ B0 →
  X ++ taken k ≡ₚ slot_entries true (Z.of_nat i) o ++ T0 →
  built k' ≡ₚ slot_entries false (Z.of_nat i) o' ++ B0 →
  X' ++ taken k' ≡ₚ slot_entries true (Z.of_nat i) o' ++ T0 → held g X' r' k'.
Proof.
  intros [H1 H2 H3 H4 H5] Hi EA EC EE EO EL EH ER HB HT HB' HT'.
  split; rewrite ?EO, ?EL, ?EH, ?ER; try done.
  - rewrite EA, EC, HB', HT'. exact (kshaped_update _ _ _ _ _ _ _ _ _ Hi HB HT H1).
  - intros j Hj. rewrite EE. by apply H2.
Qed.

Lemma slot_tidy_other r r' i j : j ≠ i → active r' = <[i := (default None (active r' !! i))]> (active r) →
  (∀ j, j ≠ i → slots (pool r') !! j = slots (pool r) !! j) →
  cancellations r' = cancellations r → slot_tidy r j → slot_tidy r' j.
Proof.
  intros Hne EA EP EC Ht o Ho. rewrite EA in Ho. rewrite list_lookup_insert_ne in Ho by done.
  rewrite EC, EP by done. by apply Ht.
Qed.

Lemma tidy_slot r i : tidy_but i r → slot_tidy r i → tidy r.
Proof. intros Hb Hi j. destruct (decide (j = i)) as [->|]; [done|by apply Hb]. Qed.

(** ** Rules *)

Section spec.
Context (e : env sys os_ret) (Henv : respects os_contract e).
Context (g : geometry) (Hg : geometry_ok g).

Lemma wp_os c (Q : os_ret c → sys → world os_ret → Prop) s w :
  (∀ r s', shared_kept s s' → answer c r (kern s) (kern s') → Q r s' (existT c r :: w)) →
  wp e (call c) Q s w.
Proof. intros H. apply (wp_call os_contract); [done|]. intros r s' [Hk Ha]. by apply H. Qed.

(** A call whose answer leaves the kernel's side as it is. *)
Lemma wp_quiet c X (Q : os_ret c → sys → world os_ret → Prop) s w :
  inv g X s → (∀ r k k', answer c r k k' → kernel_same k k') →
  (∀ r s' w', inv g X s' → rt s' = rt s → kernel_same (kern s) (kern s') →
     answer c r (kern s) (kern s') → Q r s' w') →
  wp e (call c) Q s w.
Proof.
  intros HI Hc HQ. apply wp_os. intros r s' Hk Ha. apply HQ; [|apply Hk|by apply Hc in Ha|done].
  eapply inv_same; [done| |done]. by apply Hc in Ha.
Qed.

Lemma wp_self {B} (k : Runtime → P B) Q s w : wp e (k (rt s)) Q s w → wp e (self ≫= k) Q s w.
Proof. intros H. apply wp_bind. unfold self. wp_get. by apply wp_ret. Qed.

Lemma wp_update {B} f (k : unit → P B) Q s w :
  wp e (k tt) Q (s <| rt := f (rt s) |>) w → wp e (update f ≫= k) Q s w.
Proof. intros H. apply wp_bind. unfold update. wp_get. by apply wp_put. Qed.

Lemma wp_update_last f (Q : unit → sys → world os_ret → Prop) s w :
  Q tt (s <| rt := f (rt s) |>) w → wp e (update f) Q s w.
Proof. intros H. unfold update. wp_get. by apply wp_put. Qed.

Lemma wp_index {A B} (l : list A) i x (k : A → P B) Q s w :
  at_index l i = Some x → wp e (k x) Q s w → wp e (index l i ≫= k) Q s w.
Proof. intros Hx H. apply wp_bind. unfold index. apply wp_from_option. eauto. Qed.

Lemma wp_set_index {A B} (l : list A) i x y (k : list A → P B) Q s w :
  at_index l i = Some y → wp e (k (<[Z.to_nat i := x]> l)) Q s w →
  wp e (set_index l i x ≫= k) Q s w.
Proof.
  intros Hy H. apply wp_bind. unfold set_index. eapply wp_index; [done|]. by apply wp_ret.
Qed.

Lemma wp_set_active {B} i a y (k : unit → P B) Q s w :
  at_index (active (rt s)) i = Some y →
  wp e (k tt) Q (s <| rt := (rt s) <| active := <[Z.to_nat i := a]> (active (rt s)) |> |>) w →
  wp e (set_active i a ≫= k) Q s w.
Proof.
  intros Hy H. apply wp_bind. unfold set_active. apply wp_self.
  eapply wp_set_index; [done|]. by apply wp_update_last.
Qed.

Lemma wp_set_cancellation {B} i o y (k : unit → P B) Q s w :
  at_index (cancellations (rt s)) i = Some y →
  wp e (k tt) Q (s <| rt := (rt s) <| cancellations := <[Z.to_nat i := o]> (cancellations (rt s)) |> |>) w →
  wp e (set_cancellation i o ≫= k) Q s w.
Proof.
  intros Hy H. apply wp_bind. unfold set_cancellation. apply wp_self.
  eapply wp_set_index; [done|]. by apply wp_update_last.
Qed.

Lemma wp_pool_call {A B} (f : BufferPool → BufferPool * result A SlotError) text
    (k : A → P (result B error)) Q s w p o :
  f (pool (rt s)) = (p, o) →
  match o with
  | Ok a => wp e (k a) Q (s <| rt := (rt s) <| pool := p |> |>) w
  | Err x => Q (Err (SlotFailure text x)) (s <| rt := (rt s) <| pool := p |> |>) w
  end → wp e (bind_ok k (pool_call f text)) Q s w.
Proof.
  intros Hf H. apply wp_bind_ok. unfold pool_call. apply wp_self. rewrite Hf.
  apply wp_update. apply wp_ret. by destruct o.
Qed.

Lemma wp_pure {A B} (r : result A error) (k : A → P (result B error)) Q s w :
  match r with Ok a => wp e (k a) Q s w | Err x => Q (Err x) s w end →
  wp e (bind_ok k (mret r)) Q s w.
Proof. intros H. apply wp_bind_ok. by apply wp_ret. Qed.

(** ** Computations that need not return *)

Lemma wp_returned {A} (m : P (result A error)) Q s w :
  wp e m (λ r, Q (Returned r)) s w → wp e (returned m) Q s w.
Proof.
  intros H. apply wp_bind. eapply wp_mono; [exact H|]. intros r s' w' HQ. by apply wp_ret.
Qed.

Lemma wp_bind_outcome {A B} (m : P (outcome A)) (k : A → P (outcome B)) Q s w :
  wp e m (λ o s' w',
    match o with
    | Running => Q Running s' w'
    | Aborted => Q Aborted s' w'
    | Returned (Ok a) => wp e (k a) Q s' w'
    | Returned (Err x) => Q (Returned (Err x)) s' w'
    end) s w → wp e (bind_outcome k m) Q s w.
Proof.
  intros H. apply wp_bind. eapply wp_mono; [exact H|].
  intros [| |[a|x]] s' w' HQ; [by apply wp_ret..|done|by apply wp_ret].
Qed.

Lemma wp_try {A B} (m : P (result A error)) (k : A → P (outcome B)) Q s w :
  wp e m (λ r s' w',
    match r with
    | Ok a => wp e (k a) Q s' w'
    | Err x => Q (Returned (Err x)) s' w'
    end) s w → wp e (bind_outcome k (returned m)) Q s w.
Proof.
  intros H. apply wp_bind_outcome, wp_returned. eapply wp_mono; [exact H|].
  by intros [a|x] s' w' HQ.
Qed.

(** A loop under an invariant [I].  When the run is [live] the invariant's
    measure decreases, and with enough fuel the loop does not run on. *)
Lemma wp_forever {A B} (live : Prop) (body : A → P (outcome (A + B)))
    (I : A → sys → world os_ret → nat → Prop) (Q : outcome B → sys → world os_ret → Prop) :
  (∀ a s w n, I a s w n → wp e (body a) (λ o s' w',
     match o with
     | Running => Q Running s' w'
     | Aborted => Q Aborted s' w'
     | Returned (Err x) => Q (Returned (Err x)) s' w'
     | Returned (Ok (inr b)) => Q (Returned (Ok b)) s' w'
     | Returned (Ok (inl a')) => ∃ n', (live → (n' < n)%nat) ∧ I a' s' w' n'
     end) s w) →
  (∀ a s w n, I a s w n → ¬ live → Q Running s w) →
  ∀ fuel a s w n, I a s w n → (live → (n < fuel)%nat) → wp e (forever fuel body a) Q s w.
Proof.
  intros Hbody Hrun. induction fuel as [|fuel IH]; intros a s w n HI Hn; cbn.
  - apply wp_ret. apply (Hrun a s w n HI). intros Hl. specialize (Hn Hl). lia.
  - apply wp_bind_outcome. eapply wp_mono; [by apply Hbody|].
    intros [| |[[a'|b]|x]] s' w' H; try done; [|by apply wp_ret].
    destruct H as (n' & Hlt & HI'). apply (IH a' s' w' n' HI'). intros Hl.
    specialize (Hn Hl). specialize (Hlt Hl). lia.
Qed.

Lemma at_index_nat {A} (l : list A) (i : nat) : at_index l (Z.of_nat i) = l !! i.
Proof. by rewrite at_index_lookup, Nat2Z.id by lia. Qed.

End spec.

(** One call of a [wp] goal. *)
Ltac os_call :=
  lazymatch goal with
  | He : respects os_contract ?e |- wp ?e (do_call ?c) ?Q ?s ?w => refine (wp_os e He c Q s w _)
  end.

(** A call that leaves the kernel's side of the invariant [HI] as it is. *)
Ltac quiet_call HI :=
  lazymatch goal with
  | He : respects os_contract ?e |- wp ?e (do_call ?c) ?Q ?s ?w =>
      refine (wp_quiet e He _ c _ Q s w HI _ _); [cbn; intuition eauto|]
  end.
