(* ===== verification/RuntimeOps.v ===== *)
(** * The operations of the run time keep its invariant

    Posting and submitting reads, retrying, and processing one completion. *)

From S2P Require Import Prelude Words FrameParse Forwarding BufferPool Selection Completion.
From S2P Require Import Arguments Kernel Effects Runtime RuntimeLoop RuntimeShape RuntimeSpec.

(** ** Errors

    The messages of the checks that are there to catch the run time's own
    mistakes.  Where the other errors come from is shown in [RuntimeErrors]. *)

Definition internal_messages : list string :=
  ["completion references invalid slot"; "completion references inactive slot";
   "stale or unexpected completion for slot"; "busy completion references inactive slot";
   "busy completion references inactive operation slot"; "busy retry lost operation slot";
   "forwarding failure"; "completion identity contains cancellation marker";
   "completion identity contains invalid generation";
   "slot count exceeds completion identity capacity";
   "slot generation exceeds completion identity capacity";
   "cancellation references invalid slot"; "unexpected cancellation completion for slot";
   "selected endpoint collection"]%string.

(** The pool's only errors are that a slot was read 2^32 - 1 times, and that it
    could not be allocated. *)
Fixpoint external (x : error) : Prop :=
  match x with
  | Failure text _ => text ∉ internal_messages
  | SlotFailure text x =>
      (text = "begin read"%string ∧ x = GenerationExhausted) ∨
      (text = "buffer pool allocation failed"%string ∧ x = AllocationFailed)
  | ShutdownFailed x y => external x ∧ external y
  end.

#[global] Arguments external : simpl never.

Ltac external_message :=
  lazymatch goal with
  | |- external (Failure _ _) => apply (bool_decide_unpack _); vm_compute; exact I
  end.

(** Evaluate projections of updated states. *)
Ltac rt_cbn :=
  cbn [rt buffers responses local_response kern ring endpoints pool active cancellations
       operations_may_be_in_flight submission_queue_size reads_per_endpoint wait_operations
       completion_wait_milliseconds frame_maximum adaptive_polling polling_budget stats
       set_to eta sys_eta Runtime_eta] in *.

Lemma lookup_depth {A} (l : list A) n i : length l = n → (i < n)%nat → is_Some (l !! i).
Proof. intros <-. apply lookup_lt_is_Some_2. Qed.

Lemma check_hr_cases text status : check_hr status text = Ok tt ∧ status = S_OK ∨
  check_hr status text = Err (Failure text [status]) ∧ status ≠ S_OK.
Proof. unfold check_hr. destruct (Z.eqb_spec status S_OK); [by left|by right]. Qed.

Lemma wrap_slot i n : Z.of_nat n ≤ 2 ^ 31 → (i < n)%nat → wrap 32 (Z.of_nat i) = Z.of_nat i.
Proof. intros. apply wrap_small. unfold fits. lia. Qed.

(** The only reason a free slot cannot be read. *)
Lemma begin_read_free p i gen p' x : at_index (slots p) i = Some {| generation := gen; state := Free |} →
  begin_read p i = (p', Err x) → x = GenerationExhausted.
Proof.
  intros Hp. unfold begin_read. rewrite Hp. cbn. rewrite bool_decide_true by done. cbn.
  destruct (checked_add 64 gen 1) as [n|]; cbn; [destruct (n <=? u32_max); cbn|]; congruence.
Qed.

Lemma pool_fits p i s : slot_generations p → slots p !! i = Some s → 0 ≤ generation s ≤ u32_max.
Proof. intros H. apply H. Qed.

Section ops.
Context (e : env sys os_ret) (Henv : respects os_contract e).
Context (g : geometry) (Hg : geometry_ok g).

(** The handle of the endpoint a slot reads from. *)
Definition slot_handle (i : nat) : Z :=
  if Z.of_nat i / g_rpe g =? 0 then g_first g else g_second g.
Definition peer_handle (i : nat) : Z :=
  if Z.of_nat i / g_rpe g =? 0 then g_second g else g_first g.
Definition slot_endpoint (i : nat) : EndpointId :=
  EndpointId_new (if Z.of_nat i / g_rpe g =? 0 then 1 else 2).

Lemma slot_half i : (i < g_depth g)%nat → Z.of_nat i / g_rpe g = 0 ∨ Z.of_nat i / g_rpe g = 1.
Proof.
  intros Hi. destruct Hg as [G1 G2 G3 G4].
  assert (0 ≤ Z.of_nat i / g_rpe g < 2); [|lia].
  split; [by apply Z.div_pos; lia|apply Z.div_lt_upper_bound; lia].
Qed.

Lemma wp_endpoint_for_slot {B} i (k : Endpoint → P B) Q s w :
  fixed g (rt s) → (i < g_depth g)%nat →
  (∀ ep, handle ep = slot_handle i → id ep = slot_endpoint i → wp e (k ep) Q s w) →
  wp e (endpoint_for_slot (Z.of_nat i) ≫= k) Q s w.
Proof.
  intros [F1 F2 F3 F4 (e0 & e1 & F5 & F6 & F7 & F8 & F9) _ _] Hi H. apply wp_bind.
  unfold endpoint_for_slot. apply wp_self. rewrite F3, F5.
  destruct Hg as [G1 _ _ _]. destruct (Z.eqb_spec (g_rpe g) 0); [lia|].
  unfold slot_handle, slot_endpoint in H. unfold index. apply wp_from_option.
  destruct (slot_half i Hi) as [E|E]; rewrite E in *; cbn in *; eauto.
Qed.

(** ** Posting a read *)

(** A slot is free and at rest. *)
Definition slot_free (s : sys) (i : nat) (gen : Z) : Prop :=
  active (rt s) !! i = Some None ∧
  slots (pool (rt s)) !! i = Some {| generation := gen; state := Free |}.

Definition new_read (i : nat) (gen : Z) : ActiveOperation :=
  {| completion := {| slot := Z.of_nat i; completion_generation := gen |};
     op_handle := slot_handle i; op_user_data := identity (Z.of_nat i) gen; is_write := false;
     op_length := g_frame g; queued := true; submitted := false; busy_retries := 0;
     drain_before_cancellation := false |}.

(** Slot [i] has the operation [a] now, built and not submitted. *)
Definition enqueued (i : nat) (a : ActiveOperation) (s s' : sys) : Prop :=
  active (rt s') = <[i := Some a]> (active (rt s)) ∧
  cancellations (rt s') = cancellations (rt s) ∧
  taken (kern s') = taken (kern s) ∧
  built (kern s') = built (kern s) ++ [rw_entry (Z.of_nat i) a] ∧
  (∀ j, j ≠ i → slots (pool (rt s')) !! j = slots (pool (rt s)) !! j) ∧
  (∃ st, slots (pool (rt s')) !! i =
     Some {| generation := completion_generation (completion a); state := st |} ∧
     st = state_of (Some a)).

Lemma active_new_ok p i a gen st :
  completion a = {| slot := Z.of_nat i; completion_generation := gen |} →
  op_user_data a = identity (Z.of_nat i) gen → 0 < gen < 2 ^ 32 →
  slots p !! i = Some {| generation := gen; state := st |} → st ≠ Free →
  0 ≤ busy_retries a ≤ MAX_BUSY_RETRIES → active_ok p i a.
Proof. intros Ha Hu Hgen Hp Hst Hr. split; rewrite ?Ha; cbn; eauto. Qed.

(** An operation that the kernel has no entry for. *)
Definition unscheduled (o : option ActiveOperation) : Prop := ∀ b, o = Some b → queued b = false.

Lemma unscheduled_entries sub i o : unscheduled o → slot_entries sub i o = [].
Proof. intros H. destruct o as [b|]; [|done]. cbn. by rewrite (H b). Qed.

Lemma unscheduled_None : unscheduled None.
Proof. done. Qed.

(** A built entry for slot [i]. *)
Lemma held_build r r' k i a o x : held g [] r k →
  active r !! i = Some o → unscheduled o → active r' = <[i := Some a]> (active r) →
  cancellations r' = cancellations r → endpoints r' = endpoints r →
  queued a = true → submitted a = false → x = rw_entry (Z.of_nat i) a →
  held g [] r' (k <| built := built k ++ [x] |>).
Proof.
  intros Hh Hi Ho EA EC EE Hq Hs ->.
  apply (held_slot g [] [] r r' k _ i o (Some a) (built k) (taken k)); try done;
    rewrite ?(unscheduled_entries _ _ _ Ho); try done; cbn; rewrite ?Hq, ?Hs; cbn;
    [by rewrite Permutation_app_comm|done].
Qed.

Lemma build_Ok k k' x : build x S_OK k k' → k' = k <| built := built k ++ [x] |>.
Proof. done. Qed.

Lemma build_Err k k' x status : status ≠ S_OK → build x status k k' → k' = k.
Proof. unfold build. by destruct (Z.eqb_spec status S_OK). Qed.

Lemma set_slot_other p i s j : (i < length (slots p))%nat → j ≠ i →
  slots (set_slot p (Z.of_nat i) s) !! j = slots p !! j.
Proof. intros Hi Hne. unfold set_slot. cbn. rewrite Nat2Z.id. by apply list_lookup_insert_ne. Qed.

Lemma set_slot_same p i s : (i < length (slots p))%nat →
  slots (set_slot p (Z.of_nat i) s) !! i = Some s.
Proof. intros Hi. unfold set_slot. cbn. rewrite Nat2Z.id. by apply list_lookup_insert_eq. Qed.

Lemma set_slot_length p i s : length (slots (set_slot p i s)) = length (slots p).
Proof. unfold set_slot. cbn. apply length_insert. Qed.

(** The pool changes at a slot without an active operation. *)
Lemma inv_pool X s i s0 : inv g X s → active (rt s) !! i = Some None →
  0 ≤ generation s0 ≤ u32_max →
  inv g X (s <| rt := (rt s) <| pool := set_slot (pool (rt s)) (Z.of_nat i) s0 |> |>).
Proof.
  intros HI Ha Hgen. pose proof (i_tables _ _ _ HI) as Ht.
  assert (Hlt : (i < length (slots (pool (rt s))))%nat).
  { rewrite (tb_pool _ _ Ht), <- (tb_active _ _ Ht). by eapply lookup_lt_Some. }
  apply (inv_update_rt g X X s _ HI).
  - by apply (fixed_same g (rt s)); [apply HI|..].
  - apply (tables_slot g (rt s) _ i None Ht); try done.
    + cbn. by rewrite list_insert_id.
    + cbn. apply length_insert.
    + intros j Hj. by apply set_slot_other.
    + intros s1. cbn. rewrite set_slot_same by done. by intros [= <-].
  - intros Hh. by apply (held_rt _ _ _ _ _ Hh).
Qed.

(** A new operation for the slot, its entry just built. *)
Lemma inv_enqueued i a o st s s' : inv g [] s → shared_kept s s' →
  active (rt s) !! i = Some o → unscheduled o →
  slots (pool (rt s)) !! i = Some {| generation := completion_generation (completion a); state := st |} →
  st = state_of (Some a) → 0 < completion_generation (completion a) →
  slot (completion a) = Z.of_nat i →
  op_user_data a = identity (Z.of_nat i) (completion_generation (completion a)) →
  queued a = true → submitted a = false → 0 ≤ busy_retries a ≤ MAX_BUSY_RETRIES →
  kern s' = (kern s) <| built := built (kern s) ++ [rw_entry (Z.of_nat i) a] |> →
  let s2 := s' <| rt := (rt s) <| active := <[i := Some a]> (active (rt s)) |> |> in
  inv g [] s2 ∧ enqueued i a s s2.
Proof.
  intros [F T H B R] Hk Ha Ho Hp Hst Hgen Hc Hu Hq Hs Hr HK s2.
  pose proof (tb_generations _ _ T i _ Hp) as Hg32. cbn in Hg32. unfold u32_max in Hg32.
  split.
  - split; cbn.
    + by apply (fixed_same g (rt s)).
    + apply (tables_slot g (rt s) _ i (Some a) T); try done; [intros s3; apply (tb_generations _ _ T)|].
      intros b [= <-]. split; [|done]. split; [done|lia|done| |done]. exists st. split; [done|].
      rewrite Hst. cbn. by destruct (is_write a).
    + rewrite HK. by apply (held_build (rt s) _ _ i a o).
    + by eapply shared_buffers.
    + by rewrite (kept_responses _ _ Hk).
  - unfold enqueued, s2. cbn. rewrite HK. cbn. split_and!; eauto.
Qed.

(** Operations enqueued after changes of the same slot's pool state. *)
Lemma enqueued_from i a s s1 s' : enqueued i a s1 s' →
  <[i := Some a]> (active (rt s1)) = <[i := Some a]> (active (rt s)) →
  cancellations (rt s1) = cancellations (rt s) → taken (kern s1) = taken (kern s) →
  built (kern s1) = built (kern s) →
  (∀ j, j ≠ i → slots (pool (rt s1)) !! j = slots (pool (rt s)) !! j) → enqueued i a s s'.
Proof.
  intros (E1 & E2 & E3 & E4 & E5 & E6) F1 F2 F3 F4 F5. unfold enqueued.
  rewrite E1, F1, E2, E3, E4, F2, F3, F4.
  split_and!; try done. intros j Hj. rewrite E5 by done. by apply F5.
Qed.

Lemma wp_post_read i gen s w : inv g [] s → slot_free s i gen →
  wp e (post_read (Z.of_nat i)) (λ r s' w',
    inv g [] s' ∧
    operations_may_be_in_flight (rt s') = operations_may_be_in_flight (rt s) ∧
    match r with
    | Ok _ => enqueued i (new_read i (gen + 1)) s s'
    | Err x => external x
    end) s w.
Proof.
  intros HI [Ha Hp]. pose proof (i_tables _ _ _ HI) as Ht. pose proof (i_fixed _ _ _ HI) as Hf.
  assert (Hi : (i < g_depth g)%nat).
  { rewrite <- (tb_active _ _ Ht). by eapply lookup_lt_Some. }
  assert (Hil : (i < length (slots (pool (rt s))))%nat) by (by rewrite (tb_pool _ _ Ht)).
  pose proof (tb_generations _ _ Ht i _ Hp) as Hgen. cbn in Hgen.
  destruct Hg as [G1 G2 G3 [G4 G5]]. unfold FRAME_MAXIMUM in G5.
  unfold post_read. destruct (begin_read (pool (rt s)) (Z.of_nat i)) as [p o] eqn:Hb.
  eapply wp_pool_call; [exact Hb|]. destruct o as [c|x].
  2:{ pose proof (begin_read_Err _ _ _ _ Hb) as ->. split; [by destruct s as [[]]|].
      split; [done|]. left. split; [done|]. eapply begin_read_free; [|exact Hb]. by rewrite at_index_nat. }
  apply begin_read_Ok in Hb as (s0 & Hs0 & _ & Hmax & -> & ->).
  rewrite at_index_nat, Hp in Hs0. injection Hs0 as <-. cbn in Hmax |- *.
  unfold u32_max in *.
  set (s1 := s <| rt := _ |>).
  assert (HI1 : inv g [] s1) by (apply inv_pool; [done..|cbn; unfold u32_max; lia]).
  eapply wp_endpoint_for_slot; [apply HI1|exact Hi|]. intros ep Hh _. apply wp_self.
  assert (Henc : encode_completion (Z.of_nat i) (gen + 1) = Ok (identity (Z.of_nat i) (gen + 1)))
    by (apply encode_Ok; lia).
  apply wp_pure. rewrite Henc. apply wp_bind_ok. unfold hr. apply wp_bind.
  os_call. intros status s2 Hk2 Hb2. apply wp_ret.
  pose proof (kept_rt _ _ Hk2) as E2.
  destruct (check_hr_cases "BuildIoRingReadFile" status) as [[-> ->]|[-> Hne]].
  2:{ split; [|split; [by rewrite E2|external_message]]. eapply inv_same; [exact Hk2| |exact HI1].
      apply kernel_same_eq. by eapply build_Err. }
  apply build_Ok in Hb2. apply wp_pure.
  assert (Hact : at_index (active (rt s2)) (Z.of_nat i) = Some None)
    by (by rewrite E2, at_index_nat).
  eapply wp_set_active; [exact Hact|]. apply wp_ret. rewrite Nat2Z.id, E2.
  assert (Efm : wrap 32 (frame_maximum (rt s1)) = g_frame g).
  { rewrite (fx_frame _ _ (i_fixed _ _ _ HI1)). apply wrap_small. unfold fits. lia. }
  rewrite Efm, Hh. fold (new_read i (gen + 1)).
  assert (Hp1 : slots (pool (rt s1)) !! i = Some {| generation := gen + 1; state := ReadPending |})
    by (cbn; by apply set_slot_same).
  rewrite (wrap_slot i (g_depth g)), Efm, Hh in Hb2 by done.
  destruct (inv_enqueued i (new_read i (gen + 1)) None ReadPending s1 s2 HI1 Hk2 Ha
    unscheduled_None Hp1) as [HI2 Hq];
    try done; [cbn; lia|].
  split; [done|]. split; [done|]. apply (enqueued_from _ _ s _ _ Hq); try done. intros j Hj. by apply set_slot_other.
Qed.

(** ** Submitting and waiting *)

Definition submitted_rt (r : Runtime) : Runtime :=
  r <| active := map (option_map mark_submitted) (active r) |>
    <| operations_may_be_in_flight := true |>.

Lemma mark_active l i o : map (option_map mark_submitted) l !! i = Some o →
  ∃ o', l !! i = Some o' ∧ o = option_map mark_submitted o'.
Proof.
  intros H. rewrite list_lookup_fmap in H. destruct (l !! i) as [o'|]; [|done].
  injection H as <-. eauto.
Qed.

Lemma mark_submitted_same a :
  completion (mark_submitted a) = completion a ∧ op_user_data (mark_submitted a) = op_user_data a ∧
  is_write (mark_submitted a) = is_write a ∧ queued (mark_submitted a) = queued a ∧
  busy_retries (mark_submitted a) = busy_retries a ∧ op_handle (mark_submitted a) = op_handle a ∧
  op_length (mark_submitted a) = op_length a ∧
  drain_before_cancellation (mark_submitted a) = drain_before_cancellation a ∧
  submitted (mark_submitted a) = queued a || submitted a.
Proof. unfold mark_submitted. by destruct a as [? ? ? ? ? [] [] ? ?]. Qed.

Lemma tables_submitted r : tables g r → tables g (submitted_rt r).
Proof.
  intros [T1 T2 T3 T4 T5 T6 T7]. split; cbn; try done; [by rewrite length_map|].
  intros i a Ha. apply mark_active in Ha as ([b|] & Hb & Hab); [|done]. injection Hab as ->.
  destruct (T5 i b Hb) as [A1 A2 A3 A4 A5].
  destruct (mark_submitted_same b) as (E1 & E2 & E3 & E4 & E5 & _).
  split; by rewrite ?E1, ?E2, ?E5.
Qed.

Lemma tidy_submitted r : tidy r → tidy (submitted_rt r).
Proof.
  intros Ht i o Ho. cbn in Ho. apply mark_active in Ho as (o' & Ho & ->).
  destruct (Ht i o' Ho) as (H1 & H2 & H3). split; [|split; [|done]].
  - destruct H1 as (st & Hst & E). exists st. split; [done|]. rewrite E. destruct o' as [b|]; [|done].
    cbn. by destruct (mark_submitted_same b) as (_ & _ & -> & _).
  - intros a Ha. destruct o' as [b|]; [|done]. injection Ha as <-.
    destruct (mark_submitted_same b) as (_ & _ & _ & -> & _ & _ & _ & -> & _). by apply H2.
Qed.

Lemma wp_submit_pending s w : inv g [] s →
  wp e submit_pending_operations (λ r s' w',
    inv g [] s' ∧ outstanding (kern s') = outstanding (kern s) ∧
    match r with
    | Ok _ => rt s' = submitted_rt (rt s) ∧ built (kern s') = []
    | Err x => rt s' = rt s ∧ external x
    end) s w.
Proof.
  intros HI. unfold submit_pending_operations. apply wp_self. apply wp_bind_ok. unfold hr.
  apply wp_bind. os_call. intros status s1 Hk Ha. apply wp_ret. cbn in Ha. unfold submit in Ha.
  pose proof (kept_rt _ _ Hk) as Er.
  destruct Ha as [Hto Ha].
  destruct (check_hr_cases "SubmitIoRing" status) as [[-> ->]|[-> Hne]].
  - apply wp_update, wp_ret. cbn in Ha. destruct Ha as (B & T & E).
    split; [|by rewrite <- Er; cbn; rewrite E].
    destruct HI as [F Tb H Bf R]. rewrite Er. split; cbn; fold (submitted_rt (rt s)).
    + by apply (fixed_same g (rt s)).
    + by apply tables_submitted.
    + rewrite E. destruct H as [H1 H2 H3 H4 H5]. split; cbn; try done.
      rewrite T. by apply kshaped_submit.
    + by eapply shared_buffers.
    + by rewrite (kept_responses _ _ Hk).
  - rewrite (proj2 (Z.eqb_neq _ _) Hne) in Ha. cbn in Ha.
    destruct (Z.eqb_spec status WAIT_TIMEOUT) as [E|_]; [by apply Hto in E|].
    split; [|split; [by rewrite Ha|split; [done|external_message]]]. eapply inv_same; eauto.
Qed.

(** Nothing is built and not submitted. *)
Definition all_submitted (r : Runtime) : Prop := entries false (active r) = [].

Lemma all_submitted_rt r : all_submitted (submitted_rt r).
Proof. apply mark_entries. Qed.

(** Taking the built entries while no operation waits for submission. *)
Lemma inv_take s s' : inv g [] s → shared_kept s s' → all_submitted (rt s) →
  built (kern s') = [] → taken (kern s') ≡ₚ taken (kern s) ++ built (kern s) →
  kern s' = (kern s) <| built := [] |> <| taken := taken (kern s') |> → inv g [] s'.
Proof.
  intros HI Hk Hall B T E. eapply inv_call; [exact Hk|exact HI|]. intros [H1 H2 H3 H4 H5].
  rewrite E. split; cbn; try done. rewrite T. by apply kshaped_take.
Qed.

Lemma wp_wait_for_completion s w : inv g [] s → all_submitted (rt s) →
  wp e wait_for_completion (λ r s' w',
    inv g [] s' ∧ rt s' = rt s ∧ outstanding (kern s') = outstanding (kern s) ∧
    (built (kern s) = [] → built (kern s') = []) ∧
    match r with Ok _ => True | Err x => external x end) s w.
Proof.
  intros HI Hall. unfold wait_for_completion. apply wp_self, wp_bind. os_call.
  intros status s1 Hk [_ Ha]. pose proof (kept_rt _ _ Hk) as Er.
  assert (HI1 : inv g [] s1).
  { destruct (_ || _); [destruct Ha as (B & T & E); by eapply inv_take|].
    eapply inv_same; eauto. }
  assert (Hout : outstanding (kern s1) = outstanding (kern s) ∧
    (built (kern s) = [] → built (kern s1) = [])).
  { destruct (_ || _); [destruct Ha as (B & T & ->)|rewrite Ha]; done. }
  destruct Hout as [Hout Hb].
  destruct (status =? WAIT_TIMEOUT); [by apply wp_ret|]. apply wp_ret. split_and!; try done.
  destruct (check_hr_cases "SubmitIoRing wait" status) as [[-> _]|[-> _]]; [done|external_message].
Qed.

(** ** Popping *)

Lemma wp_pop s w : inv g [] s →
  wp e pop_completion (λ r s' w', rt s' = rt s ∧ outstanding (kern s') = outstanding (kern s) ∧
    match r with
    | Ok None => inv g [] s' ∧ built (kern s') = built (kern s)
    | Ok (Some c) => ∃ x, inv g [x] s' ∧ user_data c = entry_user_data x ∧ 0 ≤ information c ∧
        taken (kern s) ≡ₚ x :: taken (kern s') ∧ built (kern s') = built (kern s)
    | Err x => inv g [] s' ∧ external x
    end) s w.
Proof.
  intros HI. unfold pop_completion. apply wp_self, wp_bind. os_call.
  intros [status c] s1 Hk [[Hinf _] Ha]. cbn in Ha, Hinf. pose proof (kept_rt _ _ Hk) as Er. cbn.
  destruct (Z.eqb_spec status S_FALSE) as [->|Hf].
  { apply wp_ret. cbn in Ha. rewrite Ha. split_and!; try done. eapply inv_same; eauto. }
  apply wp_pure.
  destruct (check_hr_cases "PopIoRingCompletion" status) as [[-> ->]|[-> Hne]].
  - apply wp_ret. destruct Ha as (x & T & U & E). split; [done|]. split; [by rewrite E|]. exists x.
    rewrite E. split; [|done]. eapply inv_call; [exact Hk|exact HI|]. intros [H1 H2 H3 H4 H5].
    rewrite E. split; cbn; try done. by rewrite <- T.
  - rewrite (proj2 (Z.eqb_neq _ _) Hne) in Ha. rewrite Ha. split; [done|].
    split; [done|]. split; [|external_message]. eapply inv_same; eauto.
Qed.

(** ** Completions *)

Lemma wp_validate {B} X c i a (k : Z * Z * bool → P (result B error)) Q s w :
  inv g X s → active (rt s) !! i = Some (Some a) → user_data c = op_user_data a →
  wp e (k (Z.of_nat i, completion_generation (completion a), is_write a)) Q s w →
  wp e (bind_ok k (validate_completion c)) Q s w.
Proof.
  intros HI Ha Hu H. pose proof (i_tables _ _ _ HI) as Ht.
  destruct (tb_ok _ _ Ht i a Ha) as [A1 A2 A3 A4 A5]. pose proof (lookup_lt_Some _ _ _ Ha) as Hlt.
  destruct Hg as [G1 G2 G3 G4]. rewrite (tb_active _ _ Ht) in Hlt.
  apply wp_bind_ok. unfold validate_completion. apply wp_self. apply wp_pure.
  rewrite Hu, A3, decode_identity by lia.
  destruct (Z.leb_spec (len (active (rt s))) (Z.of_nat i)) as [Hle|_].
  { unfold len in Hle. rewrite (tb_active _ _ Ht) in Hle. lia. }
  eapply wp_index; [by rewrite at_index_nat|]. cbv beta iota.
  rewrite A1, <- A3, !Z.eqb_refl. by apply wp_ret.
Qed.

(** The popped completion's operation leaves the kernel, and its slot goes on
    with [o]. *)
Lemma inv_popped x X i a o s : inv g (x :: X) s → active (rt s) !! i = Some (Some a) →
  queued a = true → submitted a = true → x = rw_entry (Z.of_nat i) a →
  (∀ b, o = Some b → queued b = false ∧ submitted b = false ∧ active_ok (pool (rt s)) i b) →
  inv g X (s <| rt := (rt s) <| active := <[i := o]> (active (rt s)) |> |>).
Proof.
  intros HI Ha Hq Hs -> Ho. pose proof (i_tables _ _ _ HI) as Ht.
  assert (Hnone : ∀ sub, slot_entries sub (Z.of_nat i) o = []).
  { intros sub. destruct o as [b|]; [|done]. cbn. by destruct (Ho b eq_refl) as (-> & _). }
  apply (inv_update_rt g _ X s _ HI).
  - by apply (fixed_same g (rt s)); [apply HI|..].
  - apply (tables_slot g (rt s) _ i o Ht); try done; [intros s0; apply (tb_generations _ _ Ht)|].
    intros b Hb. by destruct (Ho b Hb) as (_ & ? & ?).
  - intros Hh. apply (held_slot g _ X (rt s) _ (kern s) (kern s) i (Some a) o
      (built (kern s)) (X ++ taken (kern s)) Hh Ha); try done; rewrite ?Hnone; cbn; rewrite ?Hq, ?Hs; done.
Qed.

Lemma inv_retired x X i a s : inv g (x :: X) s → active (rt s) !! i = Some (Some a) →
  queued a = true → submitted a = true → x = rw_entry (Z.of_nat i) a →
  inv g X (s <| rt := (rt s) <| active := <[i := None]> (active (rt s)) |> |>).
Proof. intros HI Ha Hq Hs Hx. by apply (inv_popped x X i a). Qed.

Lemma not_owned x i a s : inv g [x] s → active (rt s) !! i = Some (Some a) →
  queued a = true → submitted a = true → x = rw_entry (Z.of_nat i) a →
  owns_buffer (kern s) (Z.of_nat i) = false.
Proof.
  intros HI Ha Hq Hs ->. pose proof (hd_shape _ _ _ _ (i_held _ _ _ HI)) as Hk.
  unfold owns_buffer. apply not_true_is_false. intros H.
  apply existsb_exists in H as (y & Hy & Hslot). apply bool_decide_eq_true in Hslot.
  apply list_elem_of_In in Hy. by eapply (kshaped_exclusive _ _ _ _ _ _ Hk Ha).
Qed.

(** A pool method called with the slot's current token. *)
Lemma wp_with_current {B} i gen st st' next text (k : unit → P (result B error)) Q s w :
  slots (pool (rt s)) !! i = Some {| generation := gen; state := st |} → next st = Some st' →
  wp e (k tt) Q (s <| rt := (rt s) <| pool :=
    set_slot (pool (rt s)) (Z.of_nat i) {| generation := gen; state := st' |} |> |>) w →
  wp e (bind_ok k (pool_call (λ p, with_current p {| slot := Z.of_nat i; completion_generation := gen |} next) text)) Q s w.
Proof.
  intros Hp Hn H. eapply wp_pool_call.
  - apply with_current_Ok. exists {| generation := gen; state := st |}, st'. cbn.
    by rewrite at_index_nat.
  - done.
Qed.

(** The slot's state in the pool with its free successor. *)
Lemma slot_freed s i gen s0 : active (rt s) !! i = Some None →
  slots (pool (rt s)) !! i = Some s0 →
  slot_free (s <| rt := (rt s) <| pool :=
    set_slot (pool (rt s)) (Z.of_nat i) {| generation := gen; state := Free |} |> |>) i gen.
Proof.
  intros Ha Hp. split; [done|]. cbn. apply set_slot_same. by eapply lookup_lt_Some.
Qed.

Lemma wp_post_free i gen text s0 next s w :
  inv g [] s → active (rt s) !! i = Some None →
  slots (pool (rt s)) !! i = Some s0 → generation s0 = gen → next (state s0) = Some Free →
  wp e (bind_ok (λ _, post_read (Z.of_nat i))
    (pool_call (λ p, with_current p {| slot := Z.of_nat i; completion_generation := gen |} next) text))
    (λ r s' w', inv g [] s' ∧
       match r with
       | Ok _ => enqueued i (new_read i (gen + 1)) s s'
       | Err x => external x
       end) s w.
Proof.
  intros HI Ha Hp <- Hn. destruct s0 as [gen st]. cbn in *.
  eapply wp_with_current; [done|done|].
  pose proof (tb_generations _ _ (i_tables _ _ _ HI) i _ Hp) as Hgen. cbn in Hgen.
  pose proof (lookup_lt_Some _ _ _ Hp) as Hlt.
  eapply wp_mono; [apply wp_post_read; [by apply inv_pool|by eapply slot_freed]|].
  intros r s' _ (HI' & _ & Hr). split; [done|]. destruct r as [[]|]; [|done].
  apply (enqueued_from _ _ s _ _ Hr); try done.
  intros j Hj. by apply set_slot_other.
Qed.

Lemma wp_post_free_then {B} i gen text s0 next (k : unit → P (result B error)) Q s w :
  inv g [] s → active (rt s) !! i = Some None →
  slots (pool (rt s)) !! i = Some s0 → generation s0 = gen → next (state s0) = Some Free →
  (∀ s' w', inv g [] s' → enqueued i (new_read i (gen + 1)) s s' → wp e (k tt) Q s' w') →
  (∀ x s' w', inv g [] s' → external x → Q (Err x) s' w') →
  wp e (bind_ok (λ _, bind_ok k (post_read (Z.of_nat i)))
    (pool_call (λ p, with_current p {| slot := Z.of_nat i; completion_generation := gen |} next) text))
    Q s w.
Proof.
  intros HI Ha Hp Hgen Hn HQ HE.
  pose proof (wp_post_free i gen text s0 next s w HI Ha Hp Hgen Hn) as (r & s' & w' & Hm & HI' & Hr).
  unfold bind_ok, mbind, M_bind in Hm. unfold wp, bind_ok at 1, mbind, M_bind.
  destruct (pool_call _ _ e s w) as [[[[[]|x] s1] w1]|]; [|by injection Hm as <- <- <-; eauto 10|done].
  apply wp_bind_ok. exists r, s', w'. split; [done|]. destruct r as [[]|x]; eauto.
Qed.

(** *** Dispatch *)

(** The buffer of a slot that is not being read stays as it is. *)
Definition not_reading (o : option ActiveOperation) : Prop := ∀ a, o = Some a → is_write a = true.

Lemma buffer_kept X i o s s' : inv g X s → active (rt s) !! i = Some o → not_reading o →
  shared_kept s s' → buffers s' !! i = buffers s !! i.
Proof.
  intros HI Ha Ho Hk. rewrite <- !at_index_nat. apply (kept_buffers _ _ Hk). intros h n u Hx.
  destruct (hd_shape _ _ _ _ (i_held _ _ _ HI)) as (cb & ct & [H1 H2 H3 _]).
  assert (∀ sub, ReadEntry h (Z.of_nat i) n u ∉ entries sub (active (rt s))) as He.
  { intros sub Hin. apply entries_elem in Hin as (j & a & Hj & _ & _ & E). unfold rw_entry in E.
    destruct (is_write a) eqn:Hw; [done|]. injection E as _ Eij _ _. apply Nat2Z.inj in Eij as <-.
    rewrite Ha in Hj. injection Hj as ->. rewrite (Ho a eq_refl) in Hw. done. }
  assert (ReadEntry h (Z.of_nat i) n u ∉ cb ++ ct) as Hc.
  { intros Hin. rewrite Forall_forall in H3. by apply H3 in Hin. }
  apply elem_of_app in Hx as [Hx|Hx].
  - assert (ReadEntry h (Z.of_nat i) n u ∈ X ++ taken (kern s)) as Hx' by (apply elem_of_app; by right).
    rewrite H2 in Hx'. apply elem_of_app in Hx' as [Hx'|Hx']; [by eapply He|].
    apply Hc, elem_of_app. by right.
  - rewrite H1 in Hx. apply elem_of_app in Hx as [Hx|Hx]; [by eapply He|]. apply Hc, elem_of_app. by left.
Qed.

Definition new_write (i : nat) (gen length : Z) : ActiveOperation :=
  {| completion := {| slot := Z.of_nat i; completion_generation := gen |};
     op_handle := peer_handle i; op_user_data := identity (Z.of_nat i) gen; is_write := true;
     op_length := length; queued := true; submitted := false; busy_retries := 0;
     drain_before_cancellation := false |}.

Definition members : list EndpointId := [EndpointId_new 1; EndpointId_new 2].

Lemma slot_endpoint_member i : (i < g_depth g)%nat → slot_endpoint i ∈ members.
Proof.
  intros Hi. unfold slot_endpoint, members. destruct (slot_half i Hi) as [->| ->]; cbn; set_solver.
Qed.

(** The only possible recipient is the other endpoint. *)
Lemma recipient_peer i d : (i < g_depth g)%nat → d ≠ slot_endpoint i → d ∈ members →
  d = EndpointId_new (if Z.of_nat i / g_rpe g =? 0 then 2 else 1).
Proof.
  intros Hi. unfold slot_endpoint, members. destruct (slot_half i Hi) as [->| ->]; cbn; set_solver.
Qed.

Lemma wp_write_frame d i gen n s w :
  inv g [] s → active (rt s) !! i = Some None →
  slots (pool (rt s)) !! i = Some {| generation := gen; state := Dispatching |} → 0 < gen →
  0 ≤ n ≤ g_frame g → d ≠ slot_endpoint i → d ∈ members →
  wp e (write_frame d {| slot := Z.of_nat i; completion_generation := gen |} (Z.of_nat i) gen n)
    (λ r s' w', inv g [] s' ∧
       match r with
       | Ok _ => enqueued i (new_write i gen n) s s' ∧ buffers s' !! i = buffers s !! i
       | Err x => external x
       end) s w.
Proof.
  intros HI Ha Hp Hgen Hn Hd Hm. pose proof (i_tables _ _ _ HI) as Ht.
  assert (Hi : (i < g_depth g)%nat) by (rewrite <- (tb_active _ _ Ht); by eapply lookup_lt_Some).
  pose proof (tb_generations _ _ Ht i _ Hp) as Hg32. cbn in Hg32. unfold u32_max in Hg32.
  pose proof (lookup_lt_Some _ _ _ Hp) as Hlt. pose proof Hg as [G1 G2 G3 [G4 G5]].
  unfold FRAME_MAXIMUM in G5.
  destruct (fx_endpoints _ _ (i_fixed _ _ _ HI)) as (e0 & e1 & F5 & F6 & F7 & F8 & F9).
  unfold write_frame. apply wp_self. rewrite F5. eapply wp_index; [done|]. apply wp_bind.
  assert (Hpeer : ∀ Q' : Z → sys → world os_ret → Prop, Q' (peer_handle i) s w → wp e
    (if bool_decide (d = id e0) then mret (handle e0)
     else second ← index [e0; e1] 1; mret (handle second)) Q' s w).
  { intros Q' HQ. pose proof (recipient_peer i d Hi Hd Hm) as Ed. unfold peer_handle in HQ.
    rewrite F6, Ed. destruct (Z.of_nat i / g_rpe g =? 0); cbn.
    - eapply wp_index; [done|]. apply wp_ret. by rewrite F9.
    - apply wp_ret. by rewrite F8. }
  apply Hpeer. clear Hpeer. unfold begin_writes. eapply wp_with_current; [done|done|].
  set (s1 := s <| rt := _ |>). assert (HI1 : inv g [] s1) by (apply inv_pool; cbn; unfold u32_max; done || lia).
  assert (Henc : encode_completion (Z.of_nat i) gen = Ok (identity (Z.of_nat i) gen))
    by (apply encode_Ok; lia).
  apply wp_pure. rewrite Henc. apply wp_bind_ok. unfold hr. apply wp_bind.
  os_call. intros status s2 Hk2 Hb2. apply wp_ret. pose proof (kept_rt _ _ Hk2) as E2.
  destruct (check_hr_cases "BuildIoRingWriteFile" status) as [[-> ->]|[-> Hne]].
  2:{ split; [|external_message]. eapply inv_same; [exact Hk2| |exact HI1].
      apply kernel_same_eq. by eapply build_Err. }
  apply build_Ok in Hb2. apply wp_pure.
  eapply wp_set_active; [by rewrite E2, at_index_nat|]. apply wp_ret. rewrite Nat2Z.id, E2.
  rewrite (wrap_slot i (g_depth g)) in Hb2 by done. rewrite (wrap_small 32 n) in * by (unfold fits; lia).
  fold (new_write i gen n).
  assert (Hp1 : slots (pool (rt s1)) !! i = Some {| generation := gen; state := WritePending 1 |})
    by (cbn; by apply set_slot_same).
  destruct (inv_enqueued i (new_write i gen n) None (WritePending 1) s1 s2 HI1 Hk2 Ha
    unscheduled_None Hp1) as [HI2 Hq]; try done.
  split; [done|]. split; [|by apply (buffer_kept [] i None s1 s2 HI1)].
  apply (enqueued_from _ _ s _ _ Hq); try done. intros j Hj. by apply set_slot_other.
Qed.

Lemma wp_read_buffer {B} i n (k : list Z → P B) Q s w X :
  inv g X s → (i < g_depth g)%nat → owns_buffer (kern s) (Z.of_nat i) = false → 0 ≤ n ≤ g_frame g →
  (∀ b frame, buffers s !! i = Some b → slice b 0 n = Some frame → wp e (k frame) Q s w) →
  wp e (read_buffer (Z.of_nat i) n ≫= k) Q s w.
Proof.
  intros HI Hi Ho Hn H. pose proof (i_buffers _ _ _ HI) as Hb.
  destruct (lookup_lt_is_Some_2 (buffers s) i) as [b Eb].
  { apply (f_equal length) in Hb. rewrite length_fmap, length_replicate in Hb. lia. }
  assert (Hl : length b = Z.to_nat (g_frame g)).
  { apply (f_equal (lookup i)) in Hb. rewrite list_lookup_fmap, Eb in Hb. cbn in Hb.
    rewrite lookup_replicate_2 in Hb by done. congruence. }
  apply wp_bind. unfold read_buffer. wp_get. rewrite Ho. eapply wp_index; [by rewrite at_index_nat|].
  pose proof (slice_spec b 0 n) as Hs. unfold len in Hs.
  specialize (Hs ltac:(lia) ltac:(lia) ltac:(lia)). apply wp_from_option. eauto.
Qed.

(** What a completed read leads to: the frame of [n] bytes goes to the other
    endpoint from the same buffer, or the buffer is read again. *)
Definition dispatched_to (i : nat) (gen n : Z) (sw sw' : Switch) (s s' : sys) : Prop :=
  if n <=? g_frame g then
    ∃ b frame answer, buffers s !! i = Some b ∧ slice b 0 n = Some frame ∧
      forward sw (slot_endpoint i) frame = Some (sw', answer) ∧
      match answer with
      | Ok (_ :: _) => enqueued i (new_write i gen n) s s' ∧ buffers s' !! i = Some b
      | _ => enqueued i (new_read i (gen + 1)) s s'
      end
  else sw' = sw ∧ enqueued i (new_read i (gen + 1)) s s'.

Lemma wp_dispatched sw' i gen text s w (Q : result Switch error → sys → world os_ret → Prop) :
  inv g [] s → active (rt s) !! i = Some None →
  slots (pool (rt s)) !! i = Some {| generation := gen; state := Dispatching |} →
  (∀ r s' w', inv g [] s' →
     match r with
     | Ok x => x = sw' ∧ enqueued i (new_read i (gen + 1)) s s'
     | Err x => external x
     end → Q r s' w') →
  wp e (bind_ok (λ _, mret (Ok sw')) (dispatched {| slot := Z.of_nat i; completion_generation := gen |} (Z.of_nat i) text)) Q s w.
Proof.
  intros HI Ha Hp HQ. apply wp_bind_ok.
  eapply wp_mono; [apply (wp_post_free i gen text {| generation := gen; state := Dispatching |}); done|].
  intros r s' w' [HI' Hr]. destruct r as [[]|x]; [apply wp_ret|]; by apply HQ.
Qed.

Lemma wp_dispatch_read sw i gen n s w :
  inv g [] s → active (rt s) !! i = Some None →
  slots (pool (rt s)) !! i = Some {| generation := gen; state := ReadPending |} → 0 < gen →
  owns_buffer (kern s) (Z.of_nat i) = false → 0 ≤ n → Forwarding.endpoints (switch_endpoints sw) = members →
  wp e (dispatch_read sw {| slot := Z.of_nat i; completion_generation := gen |} (Z.of_nat i) gen n)
    (λ r s' w', inv g [] s' ∧
       match r with
       | Ok sw' => dispatched_to i gen n sw sw' s s'
       | Err x => external x
       end) s w.
Proof.
  intros HI Ha Hp Hgen Ho Hn Hsw. pose proof (i_tables _ _ _ HI) as Ht.
  assert (Hi : (i < g_depth g)%nat) by (rewrite <- (tb_active _ _ Ht); by eapply lookup_lt_Some).
  pose proof (lookup_lt_Some _ _ _ Hp) as Hlt.
  unfold dispatch_read, begin_dispatch. eapply wp_with_current; [done|done|].
  pose proof (tb_generations _ _ Ht i _ Hp) as Hg32. cbn in Hg32.
  set (s1 := s <| rt := _ |>). assert (HI1 : inv g [] s1) by (by apply inv_pool).
  assert (Hp1 : slots (pool (rt s1)) !! i = Some {| generation := gen; state := Dispatching |})
    by (cbn; by apply set_slot_same).
  assert (Hfrom : ∀ a s', enqueued i a s1 s' → enqueued i a s s').
  { intros a s' Hq. apply (enqueued_from _ _ s _ _ Hq); try done. intros j Hj. by apply set_slot_other. }
  eapply wp_endpoint_for_slot; [apply HI1|exact Hi|]. intros ep _ Eid. apply wp_self.
  rewrite (fx_frame _ _ (i_fixed _ _ _ HI1)), Eid. unfold dispatched_to.
  destruct (Z.leb_spec n (g_frame g)) as [Hle|Hgt].
  2:{ eapply wp_dispatched; [done..|]. intros r s' w' HI' Hr. split; [done|].
      destruct r; [|done]. destruct Hr as [-> Hr]. eauto. }
  eapply wp_read_buffer; [exact HI1|done|exact Ho|lia|]. intros b frame Eb Ef.
  destruct (forward_total sw (slot_endpoint i) frame) as [[sw' answer] Efw].
  apply wp_bind, wp_from_option. exists (sw', answer). split; [done|].
  pose proof (slot_endpoint_member i Hi) as Hmem.
  destruct answer as [[|d ds]|[x|]].
  - eapply wp_dispatched; [done..|]. intros r s' w' HI' Hr. split; [done|].
    destruct r; [|done]. destruct Hr as [-> Hr]. exists b, frame, (Ok []). eauto.
  - destruct (forward_members _ _ _ _ _ d Efw) as [Hd1 Hd2]; [by left|]. rewrite Hsw in Hd2.
    apply wp_bind_ok. eapply wp_mono; [by apply wp_write_frame|].
    intros r s' w' [HI' Hr]. destruct r as [[]|x]; [apply wp_ret|done]. split; [done|].
    exists b, frame, (Ok (d :: ds)). destruct Hr as [Hr Hb]. rewrite Hb. eauto 10.
  - eapply wp_dispatched; [done..|]. intros r s' w' HI' Hr. split; [done|].
    destruct r; [|done]. destruct Hr as [-> Hr]. exists b, frame, (Err (InvalidFrame x)). eauto.
  - exfalso. eapply forward_known; [|exact Efw]. by rewrite Hsw.
Qed.

(** *** Retries *)

Definition parked (a : ActiveOperation) : ActiveOperation :=
  a <| queued := false |> <| submitted := false |>
    <| busy_retries := saturating_add 32 (busy_retries a) 1 |>.

Definition retried (a : ActiveOperation) : ActiveOperation := (parked a) <| queued := true |>.

Lemma active_ok_parked p i a : active_ok p i a → busy_retries a < MAX_BUSY_RETRIES →
  active_ok p i (parked a).
Proof.
  intros [A1 A2 A3 A4 A5] Hlt. split; try done. cbn. unfold saturating_add, MAX_BUSY_RETRIES in *. lia.
Qed.

Lemma slots_gen p (i : nat) a : active_ok p i a → ∃ st,
  slots p !! i = Some {| generation := completion_generation (completion a); state := st |} ∧ st ≠ Free.
Proof. by intros []. Qed.

Lemma completion_eta a i : slot (completion a) = Z.of_nat i →
  completion a = {| slot := Z.of_nat i; completion_generation := completion_generation (completion a) |}.
Proof. destruct (completion a). cbn. by intros ->. Qed.

(** Freeing the slot of an operation that left the kernel. *)
Lemma wp_give_up {B} x X i a text (k : unit → P (result B error)) Q s w :
  inv g (x :: X) s → active (rt s) !! i = Some (Some a) → queued a = true → submitted a = true →
  x = rw_entry (Z.of_nat i) a →
  (∀ s', inv g X s' → kern s' = kern s → active (rt s') = <[i := None]> (active (rt s)) →
     cancellations (rt s') = cancellations (rt s) → wp e (k tt) Q s' w) →
  wp e (bind_ok (λ _, set_active (Z.of_nat i) None ≫= k)
    (pool_call (λ p, cancel p (completion a)) text)) Q s w.
Proof.
  intros HI Ha Hq Hs Hx HQ. pose proof (i_tables _ _ _ HI) as Ht.
  pose proof (tb_ok _ _ Ht i a Ha) as Hok. destruct (slots_gen _ _ _ Hok) as (st & Hp & Hst).
  rewrite (completion_eta a i) by apply Hok. unfold cancel.
  eapply wp_with_current; [done|by rewrite bool_decide_false|].
  eapply wp_set_active; [cbn; by rewrite at_index_nat|]. rewrite Nat2Z.id.
  pose proof (inv_retired _ _ _ _ _ HI Ha Hq Hs Hx) as HI1.
  apply HQ; try done. apply (inv_pool _ _ _ _ HI1).
  - apply list_lookup_insert_eq. by eapply lookup_lt_Some.
  - cbn. by apply (tb_generations _ _ Ht i _ Hp).
Qed.

Lemma wp_retry x i a s w : inv g [x] s → active (rt s) !! i = Some (Some a) →
  queued a = true → submitted a = true → x = rw_entry (Z.of_nat i) a → slot_tidy (rt s) i →
  wp e (retry_busy_operation (Z.of_nat i)) (λ r s' w', inv g [] s' ∧
    match r with Ok _ => enqueued i (retried a) s s' | Err x => external x end) s w.
Proof.
  intros HI Ha Hq Hs Hx Htidy. pose proof (i_tables _ _ _ HI) as Ht.
  pose proof (tb_ok _ _ Ht i a Ha) as Hok.
  assert (Hi : (i < g_depth g)%nat) by (rewrite <- (tb_active _ _ Ht); by eapply lookup_lt_Some).
  unfold retry_busy_operation. apply wp_self. eapply wp_index; [by rewrite at_index_nat|].
  cbv beta iota. rewrite Hs. cbn [negb].
  destruct (Z.leb_spec MAX_BUSY_RETRIES (busy_retries a)) as [_|Hlt].
  { eapply wp_give_up; [done..|]. intros s' HI' _ _ _. apply wp_ret. split; [done|external_message]. }
  fold (parked a). eapply wp_set_active; [by rewrite at_index_nat|]. rewrite Nat2Z.id.
  set (s1 := s <| rt := _ |>).
  assert (HI1 : inv g [] s1).
  { apply (inv_popped _ _ _ a (Some (parked a)) _ HI Ha Hq Hs Hx). intros b [= <-].
    split; [done|]. split; [done|]. by apply active_ok_parked. }
  apply wp_bind. quiet_call HI1. intros [] s2 w2 HI2 E2 K2 _.
  apply wp_bind_ok. unfold hr. apply wp_bind.
  assert (Hbuild : ∀ Q : Z → sys → world os_ret → Prop,
    (∀ status s3 w3, shared_kept s2 s3 → build (rw_entry (Z.of_nat i) a) status (kern s2) (kern s3) →
       Q status s3 w3) →
    wp e (if is_write a
          then call (BuildIoRingWriteFile (ring (rt s)) (op_handle a) (wrap 32 (Z.of_nat i)) (op_length a) (op_user_data a))
          else call (BuildIoRingReadFile (ring (rt s)) (op_handle a) (wrap 32 (Z.of_nat i)) (op_length a) (op_user_data a)))
      Q s2 w2).
  { intros Q HQ. unfold rw_entry in HQ. pose proof Hg as [_ _ G3 _].
    rewrite (wrap_slot i (g_depth g)) by done.
    destruct (is_write a); os_call; intros status s3 Hk Hb; by apply HQ. }
  apply Hbuild. clear Hbuild. intros status s3 w3 Hk3 Hb3. apply wp_ret.
  pose proof (kept_rt _ _ Hk3) as E3.
  match goal with |- context [check_hr status ?text] => destruct (check_hr_cases text status) as [[-> ->]|[-> Hne]] end.
  2:{ split; [|by destruct (is_write a); external_message]. eapply inv_same; [exact Hk3| |exact HI2].
      apply kernel_same_eq. by eapply build_Err. }
  apply build_Ok in Hb3. apply wp_self.
  assert (Ha2 : active (rt s2) !! i = Some (Some (parked a))).
  { rewrite E2. cbn. apply list_lookup_insert_eq. by eapply lookup_lt_Some. }
  eapply wp_index; [by rewrite E3, at_index_nat|]. eapply wp_set_active; [by rewrite E3, at_index_nat|].
  apply wp_ret. rewrite Nat2Z.id, E3. fold (retried a).
  destruct (tb_ok _ _ (i_tables _ _ _ HI2) i _ Ha2) as [A1 A2 A3 (st & A4 & _) A5].
  destruct (Htidy _ Ha) as ((s0 & Hs0 & E0) & _).
  assert (Est : st = state_of (Some (retried a))).
  { rewrite E2 in A4. cbn in A4. rewrite A4 in Hs0. injection Hs0 as <-. done. }
  destruct (inv_enqueued i (retried a) (Some (parked a)) st s2 s3 HI2 Hk3 Ha2) as [HI4 Hq4];
    try done; [by intros b [= <-]|by destruct A2|].
  split; [done|]. apply (enqueued_from _ _ s _ _ Hq4).
  - rewrite E2. cbn. apply list_insert_insert_eq.
  - by rewrite E2.
  - by rewrite (same_taken _ _ K2).
  - by rewrite (same_built _ _ K2).
  - intros j _. by rewrite E2.
Qed.

(** *** Processing *)

(** Slot [i] is at rest. *)
Definition idled (i : nat) (s s' : sys) : Prop :=
  active (rt s') = <[i := None]> (active (rt s)) ∧
  cancellations (rt s') = cancellations (rt s) ∧
  taken (kern s') = taken (kern s) ∧ built (kern s') = built (kern s) ∧
  (∀ j, j ≠ i → slots (pool (rt s')) !! j = slots (pool (rt s)) !! j) ∧
  ∃ gen, slots (pool (rt s')) !! i = Some {| generation := gen; state := Free |}.

(** What the completion [c] of operation [a] of slot [i] leads to. *)
Definition processed (i : nat) (a : ActiveOperation) (c : IoRingCompletion) (sw sw' : Switch)
    (kind : option bool) (s s' : sys) : Prop :=
  let gen := completion_generation (completion a) in
  if is_device_busy (result_code c) then kind = None ∧ sw' = sw ∧ enqueued i (retried a) s s'
  else if is_write a then
    result_code c = S_OK ∧ kind = Some false ∧ sw' = sw ∧ enqueued i (new_read i (gen + 1)) s s'
  else if adaptive_polling (rt s) && is_no_more_entries (result_code c)
  then kind = None ∧ sw' = sw ∧ idled i s s'
  else result_code c = S_OK ∧ kind = Some true ∧ dispatched_to i gen (information c) sw sw' s s'.

Lemma tidy_enqueued i a s s' : tidy (rt s) → is_Some (active (rt s) !! i) → enqueued i a s s' →
  queued a = true → drain_before_cancellation a = false → tidy (rt s').
Proof.
  intros Ht [o Ho] (E1 & E2 & _ & _ & E5 & (st & E6 & Est)) Hq Hd j o' Ho'.
  rewrite E1 in Ho'. rewrite E2. destruct (decide (j = i)) as [->|Hne].
  - rewrite list_lookup_insert_eq in Ho' by (by eapply lookup_lt_Some). injection Ho' as <-.
    destruct (Ht i o Ho) as (_ & _ & Hc). split; [eauto|]. split; [|done]. by intros b [= <-].
  - rewrite list_lookup_insert_ne in Ho' by done. rewrite E5 by done. by apply Ht.
Qed.

Lemma tidy_idled i s s' : tidy (rt s) → is_Some (active (rt s) !! i) → idled i s s' → tidy (rt s').
Proof.
  intros Ht [o Ho] (E1 & E2 & _ & _ & E5 & (gen & E6)) j o' Ho'.
  rewrite E1 in Ho'. rewrite E2. destruct (decide (j = i)) as [->|Hne].
  - rewrite list_lookup_insert_eq in Ho' by (by eapply lookup_lt_Some). injection Ho' as <-.
    destruct (Ht i o Ho) as (_ & _ & Hc). split; [eauto|]. by split.
  - rewrite list_lookup_insert_ne in Ho' by done. rewrite E5 by done. by apply Ht.
Qed.

Lemma inv_stats X f s : inv g X s → inv g X (s <| rt := (rt s) <| stats := f (stats (rt s)) |> |>).
Proof.
  intros HI. apply (inv_update_rt g X X s _ HI).
  - by apply (fixed_same g (rt s)); [apply HI|..].
  - by destruct (i_tables _ _ _ HI).
  - intros Hh. by apply (held_rt g X (rt s)).
Qed.

(** The pool's state of a tidy slot. *)
Lemma tidy_pool X i a s : inv g X s → slot_tidy (rt s) i → active (rt s) !! i = Some (Some a) →
  slots (pool (rt s)) !! i =
    Some {| generation := completion_generation (completion a); state := state_of (Some a) |}.
Proof.
  intros HI Ht Ha. destruct (tb_ok _ _ (i_tables _ _ _ HI) i a Ha) as [_ _ _ (st & Hst & _) _].
  destruct (Ht _ Ha) as ((s0 & Hs0 & E0) & _). rewrite Hst in Hs0. injection Hs0 as <-.
  by rewrite Hst, <- E0.
Qed.

(** A running switch only has completions of its operations. *)
Lemma popped_operation x s : inv g [x] s → tidy (rt s) → ∃ i a,
  active (rt s) !! i = Some (Some a) ∧ queued a = true ∧ submitted a = true ∧
  x = rw_entry (Z.of_nat i) a.
Proof.
  intros HI Ht. pose proof (hd_shape _ _ _ _ (i_held _ _ _ HI)) as Hk.
  destruct (kshaped_taken _ _ _ _ x Hk) as [(i & a & Ha & Hq & Hs & Hx)|(_ & i & Hi)];
    [by left|eauto 10|].
  exfalso. pose proof (i_tables _ _ _ HI) as Htb. pose proof (lookup_lt_Some _ _ _ Hi) as Hlt.
  rewrite (tb_cancel _ _ Htb), <- (tb_active _ _ Htb) in Hlt.
  destruct (lookup_lt_is_Some_2 _ _ Hlt) as [o Ho]. destruct (Ht i o Ho) as (_ & _ & Hc). congruence.
Qed.

Lemma wp_process x i a c sw s w : inv g [x] s → tidy (rt s) →
  active (rt s) !! i = Some (Some a) → queued a = true → submitted a = true →
  x = rw_entry (Z.of_nat i) a → user_data c = entry_user_data x → 0 ≤ information c →
  Forwarding.endpoints (switch_endpoints sw) = members →
  wp e (process_completion sw c) (λ r s' w', inv g [] s' ∧
    match r with
    | Ok (sw', kind) => processed i a c sw sw' kind s s'
    | Err x => external x
    end) s w.
Proof.
  intros HI Ht Ha Hq Hs Hx Hu Hn Hsw. pose proof (i_tables _ _ _ HI) as Htb.
  pose proof (lookup_lt_Some _ _ _ Ha) as Hlt.
  pose proof (tidy_pool _ i a s HI (Ht i) Ha) as Hp.
  pose proof (tb_ok _ _ Htb i a Ha) as Hok. set (gen := completion_generation (completion a)) in *.
  unfold process_completion. eapply wp_validate; [done..|by rewrite Hu, Hx, rw_user_data|].
  cbv beta iota zeta. unfold processed. fold gen.
  destruct (is_device_busy (result_code c)).
  { apply wp_bind_ok. eapply wp_mono; [eapply wp_retry; eauto|].
    intros r s' w' [HI' Hr]. destruct r as [[]|]; [apply wp_ret|]; done. }
  eapply wp_set_active; [by rewrite at_index_nat|]. rewrite Nat2Z.id.
  set (s1 := s <| rt := _ |>). pose proof (inv_retired _ _ _ _ _ HI Ha Hq Hs Hx) as HI1. fold s1 in HI1.
  assert (Ha1 : active (rt s1) !! i = Some None) by (by apply list_lookup_insert_eq).
  assert (Hfrom : ∀ b s', enqueued i b s1 s' → enqueued i b s s').
  { intros b s' H. apply (enqueued_from _ _ s _ _ H); try done. cbn. apply list_insert_insert_eq. }
  assert (Hgen : 0 ≤ gen ≤ u32_max) by (apply (tb_generations _ _ Htb i _ Hp)).
  assert (Hfail : ∀ {B} text (k : unit → P (result B error)) Q,
    (∀ s', inv g [] s' → idled i s s' → wp e (k tt) Q s' w) →
    wp e (bind_ok k (pool_call (λ p, cancel p {| slot := Z.of_nat i; completion_generation := gen |}) text)) Q s1 w).
  { intros B text k Q HQ. unfold cancel.
    eapply wp_with_current; [exact Hp|by cbn; destruct (is_write a)|]. apply HQ; [by apply inv_pool|].
    unfold idled. cbn. split_and!; try done; [intros; by apply set_slot_other; [eapply lookup_lt_Some|]|].
    exists gen. apply set_slot_same. by eapply lookup_lt_Some. }
  apply wp_self. change (adaptive_polling (rt s1)) with (adaptive_polling (rt s)).
  change (pool (rt s)) with (pool (rt s1)) in Hp. 
  destruct (is_write a) eqn:Hw.
  - rewrite andb_false_r. cbn [andb negb].
    destruct (Z.eqb_spec (result_code c) S_OK) as [Eok|Hne]; cbn [negb].
    + eapply wp_post_free_then; [done..|by cbn; rewrite Hw| |done].
      intros s' w' HI' Hr. apply wp_ret. eauto 10.
    + apply Hfail. intros s' HI' _. apply wp_ret. split; [done|external_message].
  - rewrite andb_true_r. destruct (adaptive_polling (rt s) && _).
    + apply Hfail. intros s' HI' Hid. unfold record_empty_read, update_stats.
      apply wp_update, wp_ret. split; [by apply inv_stats|]. done.
    + destruct (Z.eqb_spec (result_code c) S_OK) as [Eok|Hne]; cbn [negb].
      * apply wp_bind_ok. eapply wp_mono; [eapply wp_dispatch_read; try done|].
        { by cbn in Hp; rewrite Hw in Hp. }
        { by apply Hok. }
        { by apply (not_owned x i a s). }
        intros r s' w' [HI' Hr]. destruct r as [sw'|]; [apply wp_ret|done]. split; [done|].
        split; [done|]. split; [done|]. unfold dispatched_to in *. destruct (_ <=? _).
        { destruct Hr as (b & frame & answer & ? & ? & ? & Hr). exists b, frame, answer.
          split_and!; [done..|]. destruct answer as [[|]|]; [by apply Hfrom| |by apply Hfrom].
          destruct Hr. split; [by apply Hfrom|done]. }
        { destruct Hr. eauto. }
      * apply Hfail. intros s' HI' _. apply wp_ret. split; [done|external_message].
Qed.

Lemma processed_tidy i a c sw sw' kind s s' :
  tidy (rt s) → active (rt s) !! i = Some (Some a) → processed i a c sw sw' kind s s' →
  Forwarding.endpoints (switch_endpoints sw) = members →
  tidy (rt s') ∧ taken (kern s') = taken (kern s) ∧
  Forwarding.endpoints (switch_endpoints sw') = members.
Proof.
  intros Ht Hi Hp Hsw. destruct (Ht i _ Hi) as (_ & Ha & _). destruct (Ha a eq_refl) as [Hqa Hda].
  assert (Hq : ∀ b, enqueued i b s s' → queued b = true → drain_before_cancellation b = false →
    tidy (rt s') ∧ taken (kern s') = taken (kern s)).
  { intros b Hb H1 H2. split; [by eapply tidy_enqueued|by apply Hb]. }
  unfold processed in Hp. destruct (is_device_busy _).
  { destruct Hp as (_ & -> & Hp). by destruct (Hq _ Hp). }
  destruct (is_write a); [destruct Hp as (_ & _ & -> & Hp); by destruct (Hq _ Hp)|].
  destruct (adaptive_polling _ && _).
  { destruct Hp as (_ & -> & Hp). split; [by eapply tidy_idled|]. split; [by apply Hp|done]. }
  destruct Hp as (_ & _ & Hp). unfold dispatched_to in Hp. destruct (_ <=? _).
  - destruct Hp as (b & frame & ans & _ & _ & Hf & Hp).
    destruct (forward_state _ _ _ _ _ Hf) as [-> _].
    by destruct ans as [[]|]; [destruct (Hq _ Hp)|destruct (Hq _ (proj1 Hp))|destruct (Hq _ Hp)].
  - destruct Hp as [-> Hp]. by destruct (Hq _ Hp).
Qed.

End ops.
