(* ===== verification/RuntimeRun.v ===== *)
(** * The loops of the running switch keep its invariant

    Statistics, draining completions, the legacy and the adaptive loop, and
    the adaptive waits.  The loops need not return; between two iterations the
    switch is [settled]. *)

From S2P Require Import Prelude Words FrameParse Forwarding BufferPool Selection Completion.
From S2P Require Import Arguments Kernel Effects Runtime RuntimeLoop RuntimeShape RuntimeSpec.
From S2P Require Import RuntimeOps.

(** Only statistics changed, and nothing the kernel holds. *)
Definition counted (s s' : sys) : Prop :=
  rt s' = (rt s) <| stats := stats (rt s') |> ∧ kernel_same (kern s) (kern s').

Lemma kernel_same_trans k1 k2 k3 : kernel_same k1 k2 → kernel_same k2 k3 → kernel_same k1 k3.
Proof. intros [] []. split; congruence. Qed.

Lemma counted_refl s : counted s s.
Proof. split; [by destruct (rt s)|done]. Qed.

Lemma counted_trans s1 s2 s3 : counted s1 s2 → counted s2 s3 → counted s1 s3.
Proof.
  intros [E1 K1] [E2 K2]. split; [|by eapply kernel_same_trans]. rewrite E2, E1. done.
Qed.

Lemma counted_call s s' : rt s' = rt s → kernel_same (kern s) (kern s') → counted s s'.
Proof. intros E K. split; [rewrite E; by destruct (rt s)|done]. Qed.

Lemma counted_stats f s : counted s (s <| rt := (rt s) <| stats := f (stats (rt s)) |> |>).
Proof. by split. Qed.

#[export] Hint Resolve counted_refl counted_call counted_stats : core.

Lemma counted_active s s' : counted s s' → active (rt s') = active (rt s).
Proof. by intros [-> _]. Qed.

Lemma counted_tidy s s' : counted s s' → tidy (rt s) → tidy (rt s').
Proof. by intros [-> _]. Qed.

Lemma counted_all_submitted s s' : counted s s' → all_submitted (rt s) → all_submitted (rt s').
Proof. by intros [-> _]. Qed.

Section run.
Context (e : env sys os_ret) (Henv : respects os_contract e).
Context (g : geometry) (Hg : geometry_ok g).

(** ** Statistics *)

Lemma wp_count {B} f (k : unit → P B) Q s w : inv g [] s →
  (∀ s', inv g [] s' → counted s s' → wp e (k tt) Q s' w) →
  wp e (update_stats f ≫= k) Q s w.
Proof. intros HI HQ. apply wp_update. apply HQ; [by apply inv_stats|done]. Qed.

Lemma wp_elapsed t Q s w : inv g [] s →
  (∀ d s' w', inv g [] s' → counted s s' → Q d s' w') → wp e (elapsed t) Q s w.
Proof.
  intros HI HQ. apply wp_bind. quiet_call HI. intros r s' w' HI' E K _. apply wp_ret. auto.
Qed.

Lemma wp_stats_report force Q s w : inv g [] s →
  (∀ s' w', inv g [] s' → counted s s' → Q tt s' w') → wp e (report force) Q s w.
Proof.
  intros HI HQ. unfold report. apply wp_self. destruct (negb _); [apply wp_ret; auto|].
  apply wp_bind.
  assert (Hquiet : ∀ Q' : bool → sys → world os_ret → Prop,
    (∀ b s' w', inv g [] s' → counted s s' → Q' b s' w') →
    wp e (if force then mret false
          else t ← elapsed (last_report (stats (rt s))); mret (t <? STATS_REPORT_INTERVAL)) Q' s w).
  { intros Q' HQ'. destruct force; [apply wp_ret; auto|]. apply wp_bind, wp_elapsed; [done|].
    intros d s' w' HI' Hc. apply wp_ret. auto. }
  apply Hquiet. clear Hquiet. intros [|] s1 w1 HI1 C1; [apply wp_ret; auto|].
  apply wp_bind, wp_elapsed; [done|]. intros _ s2 w2 HI2 C2.
  apply wp_bind. quiet_call HI2. intros [] s3 w3 HI3 E3 K3 _.
  apply wp_bind. quiet_call HI3. intros now s4 w4 HI4 E4 K4 _.
  unfold update_stats. apply wp_update_last. apply HQ; [by apply inv_stats|].
  eapply counted_trans; [exact C1|]. eapply counted_trans; [exact C2|].
  eapply counted_trans; [by apply counted_call|]. by eapply counted_trans; [by apply counted_call|].
Qed.

Lemma wp_record_batch a b Q s w : inv g [] s →
  (∀ s' w', inv g [] s' → counted s s' → Q tt s' w') → wp e (record_batch a b) Q s w.
Proof.
  intros HI HQ. unfold record_batch. apply wp_count; [done|]. intros s1 HI1 C1.
  apply wp_stats_report; [done|]. intros s2 w2 HI2 C2. apply HQ; [done|]. by eapply counted_trans.
Qed.

(** ** Draining completions *)

Lemma taken_bound s : inv g [] s → tidy (rt s) → (length (taken (kern s)) ≤ length (active (rt s)))%nat.
Proof.
  intros HI Ht. eapply (kshaped_bound _ _ _ _ (hd_shape _ _ _ _ (i_held _ _ _ HI))).
  intros i o Hi. pose proof (i_tables _ _ _ HI) as Htb. pose proof (lookup_lt_Some _ _ _ Hi) as Hlt.
  rewrite (tb_cancel _ _ Htb), <- (tb_active _ _ Htb) in Hlt.
  destruct (lookup_lt_is_Some_2 _ _ Hlt) as [o' Ho']. destruct (Ht i o' Ho') as (_ & _ & Hc). congruence.
Qed.

(** A switch that knows the two endpoints. *)
Definition connects (sw : Switch) : Prop := Forwarding.endpoints (switch_endpoints sw) = members.

(** One popped completion is processed. *)
Lemma wp_process_popped x c sw s w : inv g [x] s → tidy (rt s) → connects sw →
  user_data c = entry_user_data x → 0 ≤ information c →
  wp e (process_completion sw c) (λ r s' w', inv g [] s' ∧
    match r with
    | Ok (sw', kind) => tidy (rt s') ∧ connects sw' ∧ taken (kern s') = taken (kern s)
    | Err x => external x
    end) s w.
Proof.
  intros HI Ht Hsw Hu Hn. destruct (popped_operation g x s HI Ht) as (i & a & Ha & Hq & Hs & Hx).
  eapply wp_mono; [by eapply wp_process|]. intros r s' w' [HI' Hr]. split; [done|].
  destruct r as [[sw' kind]|]; [|done].
  destruct (processed_tidy g i a c sw sw' kind s s' Ht Ha Hr Hsw) as (? & ? & ?). done.
Qed.

Lemma wp_drain_completions fuel b s w : inv g [] s → tidy (rt s) → connects (batch_switch b) →
  (length (taken (kern s)) < fuel)%nat →
  wp e (drain_completions fuel b) (λ r s' w', inv g [] s' ∧
    match r with
    | Ok b' => tidy (rt s') ∧ connects (batch_switch b') ∧
        (saw_completion b' = false → active (rt s') = active (rt s))
    | Err x => external x
    end) s w.
Proof.
  intros HI Ht Hsw Hfuel. unfold drain_completions.
  refine (wp_loop_total e _ (λ b s' w' n, inv g [] s' ∧ tidy (rt s') ∧ connects (batch_switch b) ∧
    n = length (taken (kern s')) ∧ (saw_completion b = false → active (rt s') = active (rt s)))
    _ _ fuel b s w (length (taken (kern s))) Hfuel _); [|done].
  clear b w Hfuel HI Ht Hsw. intros b s1 w1 n (HI & Ht & Hsw & -> & Hsaw).
  apply wp_bind. eapply wp_mono; [by apply wp_pop|]. intros r s2 w2 (E & _ & Hr). rewrite <- E in Ht, Hsaw.
  destruct r as [[c|]|x].
  - destruct Hr as (x & HI2 & Hu & Hn & Htk & _). apply wp_bind.
    eapply wp_mono; [by apply (wp_process_popped x)|].
    intros r s3 w3 [HI3 Hr]. apply wp_ret. destruct r as [[sw' kind]|x']; [|done].
    destruct Hr as (Ht3 & Hsw3 & Htk3). exists (length (taken (kern s3))).
    split; [rewrite Htk3, Htk; cbn; lia|]. split; [done|]. split; [done|]. destruct kind; done.
  - destruct Hr; by apply wp_ret.
  - apply wp_ret. done.
Qed.

(** ** The legacy loop *)

(** The state between two iterations. *)
Record settled (s : sys) : Prop := {
  st_inv : inv g [] s;
  st_tidy : tidy (rt s);
  st_submitted : all_submitted (rt s);
}.

Lemma settled_counted s s' : settled s → inv g [] s' → counted s s' → settled s'.
Proof.
  intros [HI Ht Ha] HI' Hc. split; [done|by eapply counted_tidy|by eapply counted_all_submitted].
Qed.

(** What a step of the run leaves: on an error the invariant only. *)
Definition ends {A} (Post : A → sys → Prop) (r : result A error) (s' : sys) : Prop :=
  match r with
  | Ok a => Post a s'
  | Err x => inv g [] s' ∧ external x
  end.

Lemma wp_submit_settles s w : inv g [] s → tidy (rt s) →
  wp e submit_pending_operations (λ r s' w', ends (λ _, settled) r s') s w.
Proof.
  intros HI Ht. eapply wp_mono; [by apply wp_submit_pending|]. intros [[]|x] s' w' (HI' & _ & Hr); cbn.
  - destruct Hr as [Hr _].
    split; [done|rewrite Hr; by apply tidy_submitted|rewrite Hr; apply all_submitted_rt].
  - by destruct Hr.
Qed.

Lemma wp_legacy_iteration sw s w : settled s → connects sw →
  wp e (legacy_iteration sw) (λ r s' w',
    ends (λ o s', match o with inl sw' => settled s' ∧ connects sw' | inr _ => inv g [] s' end) r s') s w.
Proof.
  intros [HI Ht Hall] Hsw. unfold legacy_iteration.
  apply wp_bind. quiet_call HI. intros stop s1 w1 HI1 E1 K1 _. rewrite <- E1 in Ht, Hall.
  destruct stop.
  { apply wp_bind, wp_stats_report; [done|]. intros s2 w2 HI2 _. by apply wp_ret. }
  apply wp_bind_ok. eapply wp_mono; [by apply wp_pop|]. intros r s2 w2 (E2 & _ & Hr). rewrite <- E2 in Ht, Hall.
  destruct r as [[c|]|x]; [| |by destruct Hr].
  - destruct Hr as (x & HI2 & Hu & Hn & _). apply wp_bind_ok.
    eapply wp_mono; [by apply (wp_process_popped x)|]. intros r s3 w3 [HI3 Hr].
    destruct r as [[sw' kind]|]; [|done]. destruct Hr as (Ht3 & Hsw3 & _). apply wp_self.
    apply wp_bind_ok. eapply wp_mono; [apply wp_drain_completions; [done|done|by destruct kind|]|].
    { unfold drain_fuel. pose proof (taken_bound s3 HI3 Ht3). lia. }
    intros r s4 w4 [HI4 Hr]. destruct r as [b|]; [|done]. destruct Hr as (Ht4 & Hsw4 & _).
    apply wp_bind, wp_record_batch; [done|]. intros s5 w5 HI5 C5.
    apply wp_bind_ok. eapply wp_mono; [apply wp_submit_settles; [done|by eapply counted_tidy]|].
    intros [[]|x'] s6 w6 H6; [by apply wp_ret|done].
  - destruct Hr as [HI2 _]. apply wp_bind_ok. eapply wp_mono; [by apply wp_wait_for_completion|].
    intros [signaled|x] s3 w3 (HI3 & E3 & _ & _ & H3); [|done].
    rewrite <- E3 in Ht, Hall. unfold record_wait_submission. apply wp_count; [done|]. intros s4 HI4 C4.
    apply wp_bind.
    assert (Hwake : ∀ Q : unit → sys → world os_ret → Prop,
      (∀ s' w', inv g [] s' → counted s3 s' → Q tt s' w') →
      wp e (if signaled then record_signaled_wake else mret tt) Q s4 w3).
    { intros Q HQ. destruct signaled; [|apply wp_ret; auto]. apply wp_update_last.
      apply HQ; [by apply inv_stats|]. eapply counted_trans; [exact C4|]. done. }
    apply Hwake. intros s5 w5 HI5 C5. apply wp_bind, wp_stats_report; [done|]. intros s6 w6 HI6 C6.
    apply wp_ret. split; [|done]. eapply (settled_counted s3); [by split|done|by eapply counted_trans].
Qed.

End run.
