(* ===== verification/RuntimeWaits.v ===== *)
(** * The adaptive waits of the switch keep the invariant

    A wait is pending while the kernel may write its overlapped structure and
    its response; the switch reads or resets a response only when the request
    has ended. *)

From S2P Require Import Prelude Words FrameParse Forwarding BufferPool Selection Completion.
From S2P Require Import Arguments Kernel Effects Runtime RuntimeLoop RuntimeShape RuntimeSpec.
From S2P Require Import RuntimeOps RuntimeRun.

(** The tables of the operations are as they were. *)
Definition same_tables (r r' : Runtime) : Prop :=
  active r' = active r ∧ cancellations r' = cancellations r ∧ pool r' = pool r.

(** The wait of endpoint [i]. *)
Definition wait_of (s : sys) (i : Z) : option AdaptiveWait :=
  ep ← at_index (endpoints (rt s)) i; adaptive_wait ep.

(** Only waits and statistics change, and no wait goes away. *)
Definition steady (s s' : sys) : Prop :=
  same_tables (rt s) (rt s') ∧ ∀ i, is_Some (wait_of s i) → is_Some (wait_of s' i).

Lemma steady_refl s : steady s s.
Proof. by split. Qed.

Lemma steady_trans s1 s2 s3 : steady s1 s2 → steady s2 s3 → steady s1 s3.
Proof. intros [(A & B & C) H] [(A' & B' & C') H']. split; [|auto]. split_and!; congruence. Qed.

Lemma steady_rt s s' : rt s' = rt s → steady s s'.
Proof. intros E. unfold steady, wait_of. by rewrite E. Qed.

Lemma steady_counted s s' : counted s s' → steady s s'.
Proof. intros [E _]. unfold steady, wait_of. by rewrite E. Qed.

#[export] Hint Resolve steady_refl steady_rt steady_counted : core.

Lemma steady_settled g s s' : settled g s → inv g [] s' → steady s s' → settled g s'.
Proof.
  intros [HI Ht Ha] HI' [(E1 & E2 & E3) _]. split; [done| |].
  - intros i o Ho. rewrite E1 in Ho. rewrite E2, E3. by apply Ht.
  - unfold all_submitted. by rewrite E1.
Qed.

Section waits.
Context (e : env sys os_ret) (Henv : respects os_contract e).
Context (g : geometry) (Hg : geometry_ok g).

(** ** Rules *)

Definition with_wait (s : sys) (i : Z) (ep : Endpoint) (wait : AdaptiveWait) : sys :=
  s <| rt := (rt s) <| endpoints :=
    <[Z.to_nat i := ep <| adaptive_wait := Some wait |>]> (endpoints (rt s)) |> |>.

Lemma wp_set_wait {B} i ep wait (k : unit → P B) Q s w :
  at_index (endpoints (rt s)) i = Some ep → wp e (k tt) Q (with_wait s i ep wait) w →
  wp e (set_wait i wait ≫= k) Q s w.
Proof.
  intros Hi H. apply wp_bind. unfold set_wait. apply wp_self. eapply wp_index; [done|].
  eapply wp_set_index; [done|]. by apply wp_update_last.
Qed.

Lemma wp_endpoint_at {B} i ep (k : Endpoint → P B) Q s w :
  at_index (endpoints (rt s)) i = Some ep → wp e (k ep) Q s w → wp e (endpoint_at i ≫= k) Q s w.
Proof.
  intros Hi H. apply wp_bind. unfold endpoint_at. apply wp_self. unfold index.
  apply wp_from_option. eauto.
Qed.

Lemma at_endpoints X s i : inv g X s → i = 0 ∨ i = 1 → ∃ ep, at_index (endpoints (rt s)) i = Some ep.
Proof.
  intros HI Hi. destruct (fx_endpoints _ _ (i_fixed _ _ _ HI)) as (e0 & e1 & -> & _).
  destruct Hi as [->| ->]; by eexists.
Qed.

Lemma with_wait_at s i ep wait : at_index (endpoints (rt s)) i = Some ep →
  at_index (endpoints (rt (with_wait s i ep wait))) i = Some (ep <| adaptive_wait := Some wait |>).
Proof.
  unfold at_index. cbn. destruct (Z.leb_spec 0 i); [|done]. intros Hi.
  apply list_lookup_insert_eq. by eapply lookup_lt_Some.
Qed.

Lemma with_wait_other s i j ep wait : 0 ≤ i → i ≠ j →
  at_index (endpoints (rt (with_wait s i ep wait))) j = at_index (endpoints (rt s)) j.
Proof.
  unfold at_index. cbn. intros Hi Hne. destruct (Z.leb_spec 0 j); [|done].
  apply list_lookup_insert_ne. lia.
Qed.

Lemma at_index_nonneg {A} (l : list A) i x : at_index l i = Some x → 0 ≤ i.
Proof. unfold at_index. by destruct (Z.leb_spec 0 i). Qed.

Lemma steady_wait s i ep wait : at_index (endpoints (rt s)) i = Some ep →
  steady s (with_wait s i ep wait) ∧ wait_of (with_wait s i ep wait) i = Some wait.
Proof.
  intros Hi. split; [split; [done|]|].
  - intros j Hj. unfold wait_of in *. destruct (decide (i = j)) as [<-|Hne].
    + rewrite (with_wait_at s i ep wait Hi). cbn. by eexists.
    + rewrite with_wait_other; [done|by eapply at_index_nonneg|done].
  - unfold wait_of. by rewrite (with_wait_at s i ep wait Hi).
Qed.

(** A wait exists only when waits may. *)
Lemma has_wait X s i ep wait : inv g X s → at_index (endpoints (rt s)) i = Some ep →
  adaptive_wait ep = Some wait → g_handles g = None.
Proof.
  intros HI Hi Hw. destruct (g_handles g) as [H|] eqn:E; [exfalso|done].
  rewrite (fx_waits _ _ (i_fixed _ _ _ HI)) in Hw; [done|by rewrite E|].
  unfold at_index in Hi. destruct (0 <=? i); [|done]. by eapply list_elem_of_lookup_2.
Qed.

Lemma fixed_endpoints r i ep wait : g_handles g = None → fixed g r →
  at_index (endpoints r) i = Some ep →
  fixed g (r <| endpoints := <[Z.to_nat i := ep <| adaptive_wait := Some wait |>]> (endpoints r) |>).
Proof.
  intros Hleak [F1 F2 F3 F4 (e0 & e1 & F5 & F6 & F7 & F8 & F9) _ F10] Hi.
  split; try done. cbn.
  unfold at_index in Hi. destruct (0 <=? i); [|done]. rewrite F5 in *.
  destruct (Z.to_nat i) as [|[|n]]; cbn in Hi; [injection Hi as <-..|done]; cbn; eauto 10.
Qed.

(** A wait is stored; it must be pending while the kernel owns its memory. *)
Lemma inv_wait X s i ep wait : g_handles g = None → inv g X s → at_index (endpoints (rt s)) i = Some ep →
  (i ∈ outstanding (kern s) → pending wait = true) → inv g X (with_wait s i ep wait).
Proof.
  intros Hleak HI Hi Hp. apply (inv_update_rt g X X s _ HI).
  - by apply fixed_endpoints; [|apply HI|].
  - by destruct (i_tables _ _ _ HI).
  - intros [H1 H2 H3 H4 H5]. split; try done. intros j Hj.
    destruct (decide (i = j)) as [<-|Hne].
    + exists (ep <| adaptive_wait := Some wait |>), wait. split; [|by auto].
      by apply (with_wait_at s i ep wait).
    + destruct (H2 j Hj) as (ep' & wait' & E1 & E2). exists ep', wait'. split; [|done].
      rewrite <- E1. apply (with_wait_other s i j ep wait); [by eapply at_index_nonneg|done].
Qed.

(** A wait that is not pending is not the kernel's. *)
Lemma wait_ours X s i : inv g X s →
  (∀ wait, wait_of s i = Some wait → pending wait = false) → i ∉ outstanding (kern s).
Proof.
  intros HI Hw Hin. destruct (hd_waits _ _ _ _ (i_held _ _ _ HI) i Hin) as (ep & wait & E1 & E2 & E3).
  rewrite (Hw wait) in E3; [done|]. unfold wait_of. by rewrite E1.
Qed.

(** ** Calls *)

(** The end of a request, or the failure to get its result. *)
Lemma inv_result X s s' i (wait : bool) r : inv g X s → shared_kept s s' →
  overlapped_result (WaitOf i) wait r (kern s) (kern s') →
  inv g X s' ∧ (wait || negb (r.1 =? 0) = true → i ∉ outstanding (kern s')).
Proof.
  intros HI Hk E. unfold overlapped_result in E. split.
  - eapply inv_call; [exact Hk|exact HI|]. intros [H1 H2 H3 H4 H5]. rewrite E.
    destruct (_ || _); split; try done. cbn. intros j Hj. apply H2. set_solver.
  - intros Hw. rewrite E, Hw. cbn. set_solver.
Qed.

Lemma wp_result i (wait : bool) h Q s w : inv g [] s →
  (∀ r s' w', inv g [] s' → rt s' = rt s →
     (wait || negb (r.1 =? 0) = true → i ∉ outstanding (kern s')) → Q r s' w') →
  wp e (call (GetOverlappedResult h (WaitOf i) wait)) Q s w.
Proof.
  intros HI HQ. os_call. intros r s' Hk Ha.
  destruct (inv_result _ _ _ _ _ _ HI Hk Ha) as [HI' Hout]. apply HQ; [done|apply Hk|done].
Qed.

Lemma wp_win32 {A} text (Q : result A error → sys → world os_ret → Prop) s w : inv g [] s →
  external (Failure text []) →
  (∀ x s' w', inv g [] s' → external x → Q (Err x) s' w') → wp e (win32 text) Q s w.
Proof.
  intros HI Ht HQ. unfold win32. apply wp_bind. quiet_call HI. intros r s' w' HI' _ _ _. apply wp_ret.
  by apply HQ.
Qed.

Lemma wp_not_outstanding {B} o (k : unit → P B) Q s w : outstanding_of o (kern s) = false →
  wp e (k tt) Q s w → wp e (not_outstanding o ≫= k) Q s w.
Proof. intros Ho H. apply wp_bind. unfold not_outstanding. wp_get. rewrite Ho. by apply wp_ret. Qed.

Lemma wp_read_response {B} i (k : Z → P B) Q s w : inv g [] s → i = 0 ∨ i = 1 →
  i ∉ outstanding (kern s) → (∀ v, wp e (k v) Q s w) → wp e (read_response i ≫= k) Q s w.
Proof.
  intros HI Hi Ho H. apply wp_bind. unfold read_response. apply wp_not_outstanding.
  { cbn. by apply bool_decide_eq_false. }
  wp_get. unfold index. apply wp_from_option. pose proof (i_responses _ _ _ HI) as Hr.
  destruct (at_index_is_Some (responses s) i) as [v Hv]; [unfold len; lia|]. eauto.
Qed.

Lemma wp_reset_response {B} i (k : unit → P B) Q s w : inv g [] s → i = 0 ∨ i = 1 →
  i ∉ outstanding (kern s) →
  (∀ s', inv g [] s' → rt s' = rt s → kern s' = kern s → wp e (k tt) Q s' w) →
  wp e (reset_response i ≫= k) Q s w.
Proof.
  intros HI Hi Ho H. apply wp_bind. unfold reset_response. apply wp_not_outstanding.
  { cbn. by apply bool_decide_eq_false. }
  wp_get. pose proof (i_responses _ _ _ HI) as Hr.
  destruct (at_index_is_Some (responses s) i) as [v Hv]; [unfold len; lia|].
  eapply wp_set_index; [done|]. apply wp_put. apply H; [|done..].
  destruct HI as [F T Hh Hb _]. split; try done. cbn. by rewrite length_insert.
Qed.

(** ** Retiring both waits *)

Definition first_external (first : option error) : Prop := ∀ x, first = Some x → external x.

Lemma wp_cancel_one i first s w : inv g [] s → i = 0 ∨ i = 1 → first_external first →
  wp e (cancel_one i first) (λ first' s' _, inv g [] s' ∧ rt s' = rt s ∧ first_external first') s w.
Proof.
  intros HI Hi Hf. unfold cancel_one.
  destruct (at_endpoints _ _ i HI Hi) as [ep Hep]. eapply wp_endpoint_at; [done|].
  destruct (adaptive_wait ep) as [wait|]; [|by apply wp_ret].
  destruct (negb (pending wait)); [by apply wp_ret|].
  apply wp_bind. quiet_call HI. intros cancelled s1 w1 HI1 E1 _ _.
  destruct (cancelled =? 0); [|by apply wp_ret].
  apply wp_bind. quiet_call HI1. intros err s2 w2 HI2 E2 _ _. apply wp_ret.
  split; [done|]. split; [congruence|]. destruct (err =? ERROR_NOT_FOUND); [done|].
  destruct first; [done|]. intros x [= <-]. external_message.
Qed.

(** The memory of no wait is the kernel's. *)
Definition no_waits (s : sys) : Prop := outstanding (kern s) = ∅.

Lemma wp_drain_one i first s w : inv g [] s → i = 0 ∨ i = 1 → first_external first →
  wp e (drain_one i first) (λ first' s' _, inv g [] s' ∧ steady s s' ∧ first_external first' ∧
    outstanding (kern s') ⊆ outstanding (kern s) ∧ i ∉ outstanding (kern s')) s w.
Proof.
  intros HI Hi Hf. unfold drain_one.
  destruct (at_endpoints _ _ i HI Hi) as [ep Hep]. eapply wp_endpoint_at; [done|].
  assert (Hidle : (∀ wait, adaptive_wait ep = Some wait → pending wait = false) → i ∉ outstanding (kern s)).
  { intros H. apply (wait_ours [] s i HI). intros wait E. apply H. unfold wait_of in E. by rewrite Hep in E. }
  destruct (adaptive_wait ep) as [wait|] eqn:Hwt;
    [|by apply wp_ret; specialize (Hidle ltac:(done)); split_and!].
  destruct (pending wait) eqn:Hp; cbn [negb].
  2:{ apply wp_ret. split_and!; try done. apply Hidle. by intros ? [= <-]. }
  apply wp_bind. os_call. intros r s1 Hk Ha.
  destruct (inv_result _ _ _ i true r HI Hk Ha) as [HI1 Hout]. specialize (Hout eq_refl).
  pose proof (kept_rt _ _ Hk) as E1. cbn in Ha. unfold overlapped_result in Ha. cbn in Ha.
  assert (Hsub : outstanding (kern s1) ⊆ outstanding (kern s)) by (rewrite Ha; cbn; set_solver).
  clear Ha. apply wp_bind.
  eapply wp_mono with (P := λ first' s' _, inv g [] s' ∧ rt s' = rt s ∧ first_external first' ∧
    outstanding (kern s') = outstanding (kern s1)).
  { destruct (r.1 =? 0); [|by apply wp_ret]. apply wp_bind. quiet_call HI1.
    intros err s2 w2 HI2 E2 K2 _. apply wp_ret. split; [done|]. split; [congruence|].
    split; [|by destruct K2]. destruct (err =? ERROR_OPERATION_ABORTED); [done|].
    destruct first; [done|]. intros x [= <-]. external_message. }
  intros first' s2 w2 (HI2 & E2 & Hf2 & Ho2). rewrite <- Ho2 in Hout, Hsub.
  eapply wp_set_wait; [by rewrite E2|]. apply wp_ret.
  destruct (steady_wait s2 i ep (wait <| pending := false |>)) as [St _]; [by rewrite E2|].
  split; [apply inv_wait; [by eapply (has_wait [] s)|done|by rewrite E2|done]|].
  split; [by eapply steady_trans; [apply steady_rt|]|]. done.
Qed.

Lemma wp_cancel_adaptive_waits s w : inv g [] s →
  wp e cancel_adaptive_waits (λ first s' _, inv g [] s' ∧ steady s s' ∧ first_external first ∧
    no_waits s') s w.
Proof.
  intros HI. unfold cancel_adaptive_waits. apply wp_bind.
  eapply wp_mono; [by apply wp_cancel_one; [|left|]|]. intros f1 s1 w1 (HI1 & E1 & Hf1).
  apply wp_bind. eapply wp_mono; [by apply wp_cancel_one; [|right|]|]. intros f2 s2 w2 (HI2 & E2 & Hf2).
  apply wp_bind. eapply wp_mono; [by apply wp_drain_one; [|left|]|].
  intros f3 s3 w3 (HI3 & St3 & Hf3 & Hsub3 & Ho3).
  eapply wp_mono; [by apply wp_drain_one; [|right|]|].
  intros f4 s4 w4 (HI4 & St4 & Hf4 & Hsub4 & Ho4).
  split; [done|]. split; [|split; [done|]].
  - eapply steady_trans; [|exact St4]. eapply steady_trans; [|exact St3]. apply steady_rt. congruence.
  - unfold no_waits. apply set_eq. intros j. split; [|set_solver]. intros Hj.
    destruct (hd_waits _ _ _ _ (i_held _ _ _ HI4) j Hj) as (ep & wait & Ej & _).
    destruct (fx_endpoints _ _ (i_fixed _ _ _ HI4)) as (e0 & e1 & Eep & _). rewrite Eep in Ej.
    assert (j = 0 ∨ j = 1) as [-> | ->]; [|set_solver|done].
    unfold at_index in Ej. destruct (Z.leb_spec 0 j); [|done]. apply lookup_lt_Some in Ej. cbn in Ej. lia.
Qed.

(** How the submission of a wait ends. *)
Definition waited {A} (i : Z) (s : sys) (r : result A error) (s' : sys) : Prop :=
  inv g [] s' ∧ steady s s' ∧
  match r with Ok _ => is_Some (wait_of s' i) | Err x => external x end.

End waits.

Section adaptive.
Context (e : env sys os_ret) (Henv : respects os_contract e).
Context (g : geometry) (Hg : geometry_ok g).
(** Fresh events are closed only with the process. *)
Context (Hleak : g_handles g = None).

(** ** Submitting a wait *)

Lemma wp_AdaptiveWait_new s w : inv g [] s →
  wp e AdaptiveWait_new (λ r s' w', inv g [] s' ∧ rt s' = rt s ∧
    match r with Ok wait => pending wait = false | Err x => external x end) s w.
Proof.
  intros HI. unfold AdaptiveWait_new. apply wp_bind. os_call. intros h s1 Hk Ha.
  pose proof (kept_rt _ _ Hk) as E. cbn in Ha. destruct (h =? 0) eqn:Eh.
  - assert (HI1 : inv g [] s1) by (eapply inv_same; eauto).
    unfold win32. apply wp_bind. quiet_call HI1. intros r s2 w2 HI2 E2 _ _. apply wp_ret.
    split; [done|]. split; [congruence|external_message].
  - apply wp_ret. split; [|done]. destruct Ha as [_ Ea]. eapply inv_call; [exact Hk|exact HI|].
    intros [H1 H2 H3 H4 H5]. rewrite Ea. split; try done. by rewrite Hleak.
Qed.

Lemma wp_rearm i ep0 ep wait s w : inv g [] s → at_index (endpoints (rt s)) i = Some ep →
  wp e (rearm i ep0 wait) (λ r s' w', inv g [] s' ∧ steady s s' ∧
    match r with
    | Ok wait' => pending wait' = false ∧ wait_of s' i = Some wait'
    | Err x => external x
    end) s w.
Proof.
  intros HI Hi. unfold rearm. apply wp_bind. quiet_call HI. intros cancelled s1 w1 HI1 E1 _ _.
  apply wp_bind_ok. eapply wp_mono with (P := λ r s' _, inv g [] s' ∧ rt s' = rt s ∧
    match r with Ok _ => True | Err x => external x end).
  { destruct (cancelled =? 0); [|by apply wp_ret]. apply wp_bind. quiet_call HI1.
    intros err s2 w2 HI2 E2 _ _. apply wp_ret. split; [done|]. split; [congruence|].
    destruct (err =? ERROR_NOT_FOUND); [done|external_message]. }
  intros [[]|x] s2 w2 (HI2 & E2 & Hx); [|by auto].
  apply wp_bind, (wp_result e Henv g Hg); [done|]. intros r s3 w3 HI3 E3 Hout.
  apply wp_bind_ok. eapply wp_mono with (P := λ r s' _, inv g [] s' ∧ rt s' = rt s ∧
    (i ∉ outstanding (kern s')) ∧ match r with Ok _ => True | Err x => external x end).
  { destruct (r.1 =? 0); [|apply wp_ret; specialize (Hout eq_refl); split_and!; done || congruence].
    apply wp_bind. quiet_call HI3. intros err s4 w4 HI4 E4 K4 _. apply wp_ret. split; [done|].
    split; [congruence|]. split; [by rewrite (same_outstanding _ _ K4); apply Hout|].
    split_if; [done|external_message]. }
  intros [[]|y] s4 w4 (HI4 & E4 & Ho4 & Hy); [|by auto].
  eapply wp_set_wait; [by rewrite E4|]. apply wp_ret.
  split; [apply (inv_wait g); [done|done|by rewrite E4|done]|].
  destruct (steady_wait s4 i ep (wait <| pending := false |>)) as [Hs Hw]; [by rewrite E4|].
  split; [|done]. by eapply steady_trans; [by apply steady_rt|].
Qed.

(** The request of a wait is made, and pends. *)
Lemma inv_pended X s s1 s2 i ep wait : inv g X s → shared_kept s s1 → shared_kept s1 s2 →
  kern s1 = (set_outstanding (WaitOf i) true (kern s)) <| last_error := last_error (kern s1) |> →
  kern s2 = kern s1 → at_index (endpoints (rt s)) i = Some ep → pending wait = true →
  inv g X (with_wait s2 i ep wait).
Proof.
  intros HI Hk1 Hk2 E1 E2 Hi Hp. pose proof HI as [F T [H1 H2 H3 H4 H5] B R].
  pose proof (kept_rt _ _ Hk1) as R1. pose proof (kept_rt _ _ Hk2) as R2.
  assert (Er : rt s2 = rt s) by congruence. unfold with_wait. rewrite Er.
  split; cbn; [by apply fixed_endpoints|by destruct T| |by eapply shared_buffers, shared_buffers|].
  2:{ by rewrite (kept_responses _ _ Hk2), (kept_responses _ _ Hk1). }
  rewrite E2, E1. split; try done. cbn. intros j Hj.
  pose proof (with_wait_at s i ep wait Hi) as Hat.
  destruct (decide (i = j)) as [<-|Hne]; [by eauto|].
  destruct (H2 j) as (ep' & wait' & Ej & Ew); [set_solver|]. exists ep', wait'. split; [|done].
  rewrite <- Ej. by apply (with_wait_other s i j ep wait); [eapply at_index_nonneg|].
Qed.

Lemma wp_request i ep0 ep wait interest s w : inv g [] s → i = 0 ∨ i = 1 →
  at_index (endpoints (rt s)) i = Some ep → adaptive_wait ep = Some wait → pending wait = false →
  wp e (request_wait i ep0 wait interest) (λ r s' _, waited g i s r s') s w.
Proof.
  intros HI Hi Hep Hw Hp. unfold request_wait.
  assert (Hwait : wait_of s i = Some wait) by (unfold wait_of; by rewrite Hep).
  assert (Hout : i ∉ outstanding (kern s)).
  { apply (wait_ours g [] s i HI). intros wait' E. rewrite Hwait in E. by injection E as <-. }
  apply wp_bind. os_call. intros completed s1 Hk1 Ha. cbn in Ha. unfold device_io_control in Ha.
  pose proof (kept_rt _ _ Hk1) as R1. destruct (negb (completed.1 =? 0)).
  - assert (HI1 : inv g [] s1) by (eapply inv_same; eauto).
    apply (wp_read_response e g); [done|done|by rewrite Ha|]. intros v. apply wp_pure.
    unfold validate_adaptive_wait_response. split_if.
    + split; [done|]. split; [by apply steady_rt|external_message].
    + apply wp_ret. split; [done|]. split; [by apply steady_rt|]. unfold wait_of. rewrite R1, Hep. by eexists.
  - apply wp_bind. os_call. intros err s2 Hk2 [-> E2]. pose proof (kept_rt _ _ Hk2) as R2.
    destruct (last_error (kern s1) =? ERROR_IO_PENDING).
    + eapply wp_set_wait; [by rewrite R2, R1|]. apply wp_ret.
      destruct (steady_wait s2 i ep (wait <| pending := true |>)) as [Hs Hws]; [by rewrite R2, R1|].
      split; [by eapply inv_pended|]. split; [|by eexists].
      eapply steady_trans; [|exact Hs]. apply steady_rt. congruence.
    + apply wp_ret. split; [|split; [apply steady_rt; congruence|external_message]].
      eapply inv_same; [exact Hk2|by apply kernel_same_eq|]. eapply inv_same; [exact Hk1| |done].
      rewrite Ha. by split.
Qed.

Lemma wp_start_wait i ep0 wait interest s w : inv g [] s → i = 0 ∨ i = 1 →
  wait_of s i = Some wait → pending wait = false →
  wp e (start_wait i ep0 wait interest) (λ r s' _, waited g i s r s') s w.
Proof.
  intros HI Hi Hw Hp. unfold start_wait.
  assert (Hout : i ∉ outstanding (kern s)).
  { apply (wait_ours g [] s i HI). intros ? E. rewrite Hw in E. by injection E as <-. }
  apply (wp_reset_response e g); [done..|]. intros s1 HI1 E1 K1. rewrite <- K1 in Hout.
  destruct (at_endpoints _ _ _ i HI1 Hi) as [ep Hep].
  eapply wp_set_wait; [done|]. set (wait' := wait <| request_interest := interest |>).
  set (s2 := with_wait s1 i ep wait'). assert (HI2 : inv g [] s2) by (by apply (inv_wait g)).
  destruct (steady_wait s1 i ep wait' Hep) as [St2 _].
  assert (St : steady s s2) by (by eapply steady_trans; [apply steady_rt|]).
  apply wp_bind. quiet_call HI2. intros reset s3 w3 HI3 E3 _ _.
  assert (St3 : steady s s3) by (by eapply steady_trans; [|apply steady_rt]).
  destruct (reset =? 0).
  { apply wp_bind. quiet_call HI3. intros err s4 w4 HI4 E4 _ _. apply wp_ret. split; [done|].
    split; [by eapply steady_trans; [|apply steady_rt]|external_message]. }
  pose proof (with_wait_at s1 i ep wait' Hep) as Hep2. fold s2 in Hep2. rewrite <- E3 in Hep2.
  eapply wp_mono; [by eapply wp_request|]. intros r s4 w4 (HI4 & St4 & Hr4).
  split; [done|]. split; [by eapply steady_trans|done].
Qed.

Lemma wp_complete_adaptive_wait i s w : inv g [] s → i = 0 ∨ i = 1 → is_Some (wait_of s i) →
  wp e (complete_adaptive_wait i) (λ r s' _, waited g i s r s') s w.
Proof.
  intros HI Hi [wait Hw]. unfold complete_adaptive_wait.
  destruct (at_endpoints _ _ _ i HI Hi) as [ep Hep]. eapply wp_endpoint_at; [done|].
  apply wp_bind, wp_from_option. exists wait. unfold wait_of in Hw. rewrite Hep in Hw. split; [done|].
  assert (Hs : is_Some (wait_of s i)) by (unfold wait_of; rewrite Hep; by eexists).
  destruct (pending wait); cbn [negb]; [|by apply wp_ret].
  apply wp_bind, (wp_result e Henv g Hg); [done|]. intros r s1 w1 HI1 E1 Hout.
  destruct (r.1 =? 0) eqn:Er.
  { apply wp_bind. quiet_call HI1. intros err s2 w2 HI2 E2 _ _. apply wp_ret. split; [done|].
    split; [apply steady_rt; congruence|external_message]. }
  specialize (Hout eq_refl). eapply wp_set_wait; [by rewrite E1|].
  set (wait' := wait <| pending := false |>). set (s2 := with_wait s1 i ep wait').
  assert (HI2 : inv g [] s2) by (by apply (inv_wait g); [| |rewrite E1|]).
  destruct (steady_wait s1 i ep wait') as [St2 Hw2]; [by rewrite E1|].
  assert (St : steady s s2) by (by eapply steady_trans; [apply steady_rt|]).
  apply (wp_read_response e g); [done..|]. intros v. apply wp_ret. split; [done|]. split; [done|].
  unfold validate_adaptive_wait_response. split_if; [external_message|by eexists].
Qed.

Lemma wp_submit_adaptive_wait i interest s w : inv g [] s → i = 0 ∨ i = 1 →
  wp e (submit_adaptive_wait i interest) (λ r s' _, waited g i s r s') s w.
Proof.
  intros HI Hi. unfold submit_adaptive_wait. apply wp_bind_ok.
  eapply wp_mono; [by apply wp_AdaptiveWait_new|]. intros r s1 w1 (HI1 & E1 & Hf).
  destruct r as [fresh|]; [|by split; [|split; [apply steady_rt|]]].
  destruct (at_endpoints _ _ _ i HI1 Hi) as [ep Hep]. eapply wp_endpoint_at; [done|].
  set (wait := default fresh (adaptive_wait ep)). eapply wp_set_wait; [done|].
  set (s2 := with_wait s1 i ep wait).
  assert (HI2 : inv g [] s2).
  { apply (inv_wait g); [done..|]. intros Ho.
    destruct (hd_waits _ _ _ _ (i_held _ _ _ HI1) i Ho) as (ep' & wait' & Ea & Eb & Ec).
    rewrite Hep in Ea. injection Ea as <-. unfold wait. by rewrite Eb. }
  destruct (steady_wait s1 i ep wait Hep) as [St2 Hw2].
  assert (St : steady s s2) by (by eapply steady_trans; [apply steady_rt|]).
  destruct (pending wait && _); [by apply wp_ret; split; [|split; [|eexists]]|].
  apply wp_bind_ok.
  eapply wp_mono with (P := λ r s' _, inv g [] s' ∧ steady s s' ∧
    match r with
    | Ok wait' => pending wait' = false ∧ wait_of s' i = Some wait'
    | Err x => external x
    end).
  { destruct (pending wait) eqn:Hp; [|by apply wp_ret].
    eapply wp_mono; [by eapply wp_rearm, with_wait_at|]. intros r s3 w3 (HI3 & St3 & Hr).
    split; [done|]. split; [by eapply steady_trans|done]. }
  intros [wait'|x] s3 w3 (HI3 & St3 & Hr); [|by split; [|split]]. destruct Hr as [Hp' Hw'].
  eapply wp_mono; [by eapply wp_start_wait|]. intros r s4 w4 (HI4 & St4 & Hr4).
  split; [done|]. split; [by eapply steady_trans|done].
Qed.

(** ** The adaptive loop *)

(** How a part of the run that need not return ends. *)
Definition concludes {A} (Post : A → sys → Prop) (o : outcome A) (s' : sys) : Prop :=
  match o with
  | Running => True
  | Aborted => False
  | Returned r => ends g Post r s'
  end.

Lemma wp_submit_one i acc s w : inv g [] s → i = 0 ∨ i = 1 →
  wp e (submit_one i acc) (λ r s' _,
    ends g (λ acc' s', inv g [] s' ∧ steady s s' ∧ is_Some (wait_of s' i) ∧
      ∀ p, p ∈ acc'.2 → p ∈ acc.2 ∨ p.2 = i) r s') s w.
Proof.
  intros HI Hi. unfold submit_one. destruct (at_endpoints _ _ _ i HI Hi) as [ep Hep].
  apply wp_bind. unfold adaptive_interest_for_endpoint. apply wp_self. eapply wp_index; [done|].
  apply wp_ret. apply wp_bind_ok. eapply wp_mono; [by apply wp_submit_adaptive_wait|].
  intros [ready|x] s1 w1 (HI1 & St1 & Hr); [|done].
  destruct ready; [apply wp_ret; split_and!; by auto|].
  destruct Hr as [wait Hw]. pose proof Hw as Hw'. unfold wait_of in Hw'.
  destruct (at_index (endpoints (rt s1)) i) as [ep1|] eqn:Hep1; [|done]. cbn in Hw'.
  eapply wp_endpoint_at; [done|]. apply wp_bind, wp_from_option. exists wait. split; [done|].
  apply wp_ret. split_and!; [done|done|by eexists|]. cbn. intros p.
  destruct (pending wait); [|by left]. rewrite elem_of_app, list_elem_of_singleton.
  intros [?| ->]; auto.
Qed.

Lemma wp_wait_for_events fuel evs s w : inv g [] s →
  wp e (wait_for_events fuel evs) (λ o s' _,
    concludes (λ _ s', inv g [] s' ∧ counted s s') o s') s w.
Proof.
  intros HI. unfold wait_for_events.
  apply (wp_forever e False _ (λ _ s' _ _, inv g [] s' ∧ counted s s') _) with (n := O); try done.
  clear w. intros [] s1 w1 n [HI1 C1]. apply wp_self. apply wp_bind. quiet_call HI1.
  intros result s2 w2 HI2 E2 K2 _. apply wp_bind.
  assert (C2 : counted s s2) by (eapply counted_trans; [done|by apply counted_call]).
  eapply wp_mono with (P := λ (_ : bool) s' _, inv g [] s' ∧ counted s s').
  { destruct (negb _); [by apply wp_ret|]. quiet_call HI2. intros stop s3 w3 HI3 E3 K3 _.
    split; [done|]. eapply counted_trans; [done|by apply counted_call]. }
  intros [|] s3 w3 [HI3 C3]; [by apply wp_ret|]. apply wp_bind, (wp_stats_report e Henv g); [done|].
  intros s4 w4 HI4 C4. apply wp_ret. exists O. split; [done|]. split; [done|by eapply counted_trans].
Qed.

Lemma wp_wait_for_adaptive_change fuel s w : inv g [] s →
  wp e (wait_for_adaptive_change fuel) (λ o s' _,
    concludes (λ _ s', inv g [] s' ∧ steady s s') o s') s w.
Proof.
  intros HI. unfold wait_for_adaptive_change.
  apply wp_try. eapply wp_mono; [by apply wp_submit_one; [|left]|].
  intros [acc1|x] s1 w1 H1; [|done]. destruct H1 as (HI1 & St1 & Ha1 & Hp1).
  apply wp_try. eapply wp_mono; [by apply wp_submit_one; [|right]|].
  intros [[ready waiting]|x] s2 w2 H2; [|done]. destruct H2 as (HI2 & St2 & Ha2 & Hp2). cbn in Hp2.
  assert (St : steady s s2) by (by eapply steady_trans).
  assert (Hin : ∀ p, p ∈ waiting → (p.2 = 0 ∨ p.2 = 1) ∧ is_Some (wait_of s2 p.2)).
  { intros p Hp. destruct (Hp2 p Hp) as [Hp'| ->]; [|by auto].
    destruct (Hp1 p Hp') as [Hn| ->]; [by apply not_elem_of_nil in Hn|]. split; [by left|]. by apply St2. }
  destruct ready; [by apply wp_ret|]. destruct (len waiting =? 0); [by apply wp_ret|].
  apply wp_bind_outcome. eapply wp_mono; [by apply wp_wait_for_events|].
  intros [| |[result|x]] s3 w3 H3; try done. destruct H3 as [HI3 C3].
  assert (St3 : steady s2 s3) by auto.
  destruct (result =? WAIT_FAILED).
  { apply wp_returned, (wp_win32 e Henv g); [done|external_message|]. by intros. }
  destruct (result =? WAIT_TIMEOUT_RESULT); [apply wp_ret; split; [done|by eapply steady_trans]|].
  unfold checked_sub. split_if; [apply wp_ret; split; [done|external_message]|].
  destruct (result - WAIT_OBJECT_0 <? len waiting) eqn:Hlt; [|apply wp_ret; split; [done|external_message]].
  bool_reflect. destruct (at_index_is_Some waiting (result - WAIT_OBJECT_0)) as [target Htgt].
  { unfold WAIT_OBJECT_0 in *. lia. }
  eapply wp_index; [done|]. assert (Hint : target ∈ waiting).
  { unfold at_index in Htgt. destruct (0 <=? _); [|done]. by eapply list_elem_of_lookup_2. }
  destruct (Hin target Hint) as [Hi Hw].
  apply wp_try. eapply wp_mono; [by apply wp_complete_adaptive_wait; [|done|apply St3]|].
  intros [[]|x] s4 w4 (HI4 & St4 & Hr4); [|done]. apply wp_ret. split; [done|].
  by do 2 (eapply steady_trans; [done|]).
Qed.

(** *** Reads of idle buffers *)

Lemma wp_post_idle i s w : inv g [] s → tidy (rt s) → (i < g_depth g)%nat →
  wp e (post_idle (Z.of_nat i)) (λ r s' _, ends g (λ _ s', inv g [] s' ∧ tidy (rt s')) r s') s w.
Proof.
  intros HI Ht Hi. unfold post_idle. apply wp_self.
  pose proof (tb_active _ _ (i_tables _ _ _ HI)) as Hlen.
  destruct (lookup_lt_is_Some_2 (active (rt s)) i) as [o Ho]; [lia|].
  eapply wp_index; [by rewrite at_index_nat|]. destruct o as [a|]; [by apply wp_ret|].
  destruct (Ht i None Ho) as ((s0 & Hp & Es) & _). destruct s0 as [gen st]. cbn in Es. subst st.
  eapply wp_mono; [by eapply wp_post_read|]. intros [[]|x] s' w' (HI' & _ & Hr); [|done].
  split; [done|]. by eapply tidy_enqueued.
Qed.

Lemma in_slots_of r i : length (active r) = g_depth g → i ∈ slots_of r →
  ∃ j, i = Z.of_nat j ∧ (j < g_depth g)%nat.
Proof.
  unfold slots_of. intros <- Hi. apply list_elem_of_fmap in Hi as (j & -> & Hj).
  apply elem_of_seq in Hj. exists j. split; [done|lia].
Qed.

Lemma wp_post_adaptive_idle_reads s w : inv g [] s → tidy (rt s) →
  wp e post_adaptive_idle_reads (λ r s' _, ends g (λ _ s', inv g [] s' ∧ tidy (rt s')) r s') s w.
Proof.
  intros HI Ht. unfold post_adaptive_idle_reads. apply wp_self.
  apply (wp_for_each e _ _ (λ l s' w', inv g [] s' ∧ tidy (rt s') ∧
    ∀ i, i ∈ l → ∃ j, i = Z.of_nat j ∧ (j < g_depth g)%nat)).
  - intros i l s1 w1 (HI1 & Ht1 & Hl). destruct (Hl i) as (j & -> & Hj); [by left|].
    eapply wp_mono; [by apply wp_post_idle|]. intros [[]|x] s2 w2 H2; [|done].
    destruct H2 as [HI2 Ht2]. split_and!; try done. intros k Hk. apply Hl. by right.
  - by intros s' w' (HI' & Ht' & _).
  - split_and!; try done. intros i. by apply in_slots_of, (tb_active _ _ (i_tables _ _ _ HI)).
Qed.

(** *** An iteration *)

Lemma wp_after_batch b s w : inv g [] s → tidy (rt s) → (saw_completion b = false → all_submitted (rt s)) →
  wp e (if saw_completion b then
          _ ←? submit_pending_operations;
          _ ← record_batch (batch_reads b) (batch_writes b);
          _ ← report false;
          mret (Ok tt)
        else mret (Ok tt)) (λ r s' _, ends g (λ _, settled g) r s') s w.
Proof.
  intros HI Ht Hsub. destruct (saw_completion b); [|by apply wp_ret; split; [| |apply Hsub]].
  apply wp_bind_ok. eapply wp_mono; [by apply (wp_submit_settles e Henv g)|]. intros [[]|x] s1 w1 H1; [|done].
  apply wp_bind, (wp_record_batch e Henv g); [apply H1|]. intros s2 w2 HI2 C2.
  apply wp_bind, (wp_stats_report e Henv g); [done|]. intros s3 w3 HI3 C3. apply wp_ret.
  eapply settled_counted; [exact H1|done|by eapply counted_trans].
Qed.

Lemma wp_adaptive_iteration fuel sw since s w : settled g s → connects sw →
  wp e (adaptive_iteration fuel (sw, since)) (λ o s' _,
    concludes (λ r s', match r with
                       | inl (sw', _) => settled g s' ∧ connects sw'
                       | inr _ => inv g [] s'
                       end) o s') s w.
Proof.
  intros Hst Hsw. pose proof (st_inv _ _ Hst) as HI. unfold adaptive_iteration.
  apply wp_bind. quiet_call HI. intros stop s1 w1 HI1 E1 K1 _.
  assert (Hst1 : settled g s1) by (by apply (steady_settled g s); auto).
  destruct stop.
  { apply wp_bind, (wp_stats_report e Henv g); [done|]. intros s2 w2 HI2 _. by apply wp_ret. }
  apply wp_self. apply wp_try.
  eapply wp_mono; [apply (wp_drain_completions e Henv g Hg); [done|apply Hst1|done|]|].
  { unfold drain_fuel. pose proof (taken_bound g s1 HI1 (st_tidy _ _ Hst1)). lia. }
  intros [b|x] s2 w2 [HI2 Hr]; [|done]. destruct Hr as (Ht2 & Hsw2 & Hsaw2).
  apply wp_try. eapply wp_mono; [apply wp_after_batch; [done|done|]|].
  { intros E. unfold all_submitted. rewrite (Hsaw2 E). apply Hst1. }
  intros [[]|x] s3 w3 Hst3; [|done]. cbn in Hst3. pose proof (st_inv _ _ Hst3) as HI3.
  destruct (made_progress b).
  { apply wp_bind. quiet_call HI3. intros now s4 w4 HI4 E4 K4 _. apply wp_ret. split; [|done].
    apply (steady_settled g s3); auto. }
  apply wp_bind, (wp_elapsed e Henv g); [done|]. intros idle s4 w4 HI4 C4.
  assert (Hst4 : settled g s4) by (by apply (settled_counted g s3)).
  destruct (_ <=? idle).
  - unfold record_wait_submission. apply (wp_count e g); [done|]. intros s5 HI5 C5.
    assert (Hst5 : settled g s5) by (by apply (settled_counted g s4)).
    apply wp_bind_outcome. eapply wp_mono; [by apply wp_wait_for_adaptive_change|].
    intros [| |[signaled|x]] s6 w6 H6; try done. destruct H6 as [HI6 St6].
    assert (Hst6 : settled g s6) by (by apply (steady_settled g s5)).
    destruct signaled; [|by apply wp_ret].
    unfold record_signaled_wake. apply (wp_count e g); [done|]. intros s7 HI7 C7.
    assert (Hst7 : settled g s7) by (by apply (settled_counted g s6)).
    apply wp_try. eapply wp_mono; [apply wp_post_adaptive_idle_reads; apply Hst7|].
    intros [[]|x] s8 w8 H8; [|done]. destruct H8 as [HI8 Ht8].
    apply wp_try. eapply wp_mono; [by apply (wp_submit_settles e Henv)|].
    intros [[]|x] s9 w9 H9; [|done]. apply wp_bind. quiet_call (st_inv _ _ H9).
    intros now s10 w10 HI10 E10 K10 _. apply wp_ret. split; [|done].
    apply (steady_settled g s9); auto.
  - apply wp_bind. quiet_call HI4. intros [] s5 w5 HI5 E5 K5 _. apply wp_ret. split; [|done].
    apply (steady_settled g s4); auto.
Qed.

(** ** The run *)

Lemma wp_switch_from_endpoints s w : inv g [] s →
  wp e switch_from_endpoints (λ r s' _, s' = s ∧ ∃ sw, r = Ok sw ∧ connects sw) s w.
Proof.
  intros HI. destruct (fx_endpoints _ _ (i_fixed _ _ _ HI)) as (e0 & e1 & E & I0 & I1 & _).
  unfold switch_from_endpoints. apply wp_self, wp_ret. split; [done|]. rewrite E. cbn.
  rewrite I0, I1. eexists. split; [done|]. done.
Qed.

Lemma wp_run_until_stopped fuel s w : settled g s →
  wp e (run_until_stopped fuel) (λ o s' _, concludes (λ _, inv g []) o s') s w.
Proof.
  intros Hst. unfold run_until_stopped. apply wp_self. destruct (adaptive_polling (rt s)).
  - unfold run_until_stopped_adaptive. apply wp_try.
    eapply wp_mono; [apply wp_switch_from_endpoints, Hst|]. intros r s1 w1 [-> (sw & -> & Hsw)].
    apply wp_bind. quiet_call (st_inv _ _ Hst). intros now s2 w2 HI2 E2 _ _.
    apply (wp_forever e False _ (λ st s' _ _, settled g s' ∧ connects st.1) _) with (n := O); try done.
    + intros [sw1 since] s3 w3 n [Hst3 Hsw3]. eapply wp_mono; [by apply wp_adaptive_iteration|].
      intros [| |[[[sw4 since4]|[]]|x]] s4 w4 H4; try done. exists O. split; [done|]. done.
    + split; [|done]. apply (steady_settled g s); auto.
  - unfold run_until_stopped_legacy. apply wp_try.
    eapply wp_mono; [apply wp_switch_from_endpoints, Hst|]. intros r s1 w1 [-> (sw & -> & Hsw)].
    apply (wp_forever e False _ (λ sw s' _ _, settled g s' ∧ connects sw) _) with (n := O); try done.
    intros sw1 s3 w3 n [Hst3 Hsw3]. apply wp_returned.
    eapply wp_mono; [by apply (wp_legacy_iteration e Henv g Hg)|].
    intros [[sw4|[]]|x] s4 w4 H4; try done. exists O. by split.
Qed.

End adaptive.
