(* ===== verification/RuntimeShutdown.v ===== *)
(** * Shutdown and destruction of the switch

    [shutdown] retires the waits, cancels every operation and reaps it.  It
    keeps the invariant for every kernel, and returns when the kernel answers
    promptly ([prompt_answer]); when it succeeds, or fails with an error that
    does not stop it, the kernel holds nothing of the switch.  Destroying the
    run time is then safe, and aborts the process otherwise. *)

From S2P Require Import Prelude Words FrameParse Forwarding BufferPool Selection Completion.
From S2P Require Import Arguments Kernel Effects Runtime RuntimeLoop RuntimeShape RuntimeSpec.
From S2P Require Import RuntimeOps RuntimeRun RuntimeWaits.

(** ** A kernel that makes progress

    Submissions and builds succeed, a completion is reported whenever an entry
    is taken, and a cancellation completes only after its operation. *)

Definition prompt_answer (c : os_call) : os_ret c → kernel → kernel → Prop :=
  match c with
  | SubmitIoRing _ _ _ | BuildIoRingCancelRequest _ _ _ _ => λ r k k', r = S_OK
  | PopIoRingCompletion _ => λ r k k', taken k ≠ [] →
      r.1 = S_OK ∧ ∃ x, taken k ≡ₚ x :: taken k' ∧ user_data r.2 = entry_user_data x ∧
        ∀ h op u, x = CancelEntry h op u →
          ∀ y, y ∈ taken k → is_Some (entry_slot y) → entry_user_data y ≠ op
  | _ => λ r k k', True
  end.

Definition prompt (e : env sys os_ret) : Prop :=
  ∀ w c s, prompt_answer c (e w c s).1 (kern s) (kern (e w c s).2).

(** ** The measure of shutdown *)

(** The completions a slot still waits for, counting a cancellation to come. *)
Definition weight (o : option ActiveOperation) (c : option Z) : nat :=
  match o, c with
  | Some _, _ => 2
  | None, Some _ => 1
  | None, None => 0
  end.

Definition total (A : list (option ActiveOperation)) (C : list (option Z)) : nat :=
  foldr Nat.add O (zip_with weight A C).

Definition remaining (r : Runtime) : nat := total (active r) (cancellations r).

Lemma total_cons a A c C : total (a :: A) (c :: C) = (weight a c + total A C)%nat.
Proof. done. Qed.

Lemma total_active A : ∀ C i o o' c, A !! i = Some o → C !! i = Some c →
  (total (<[i := o']> A) C + weight o c = total A C + weight o' c)%nat.
Proof.
  induction A as [|a A IH]; intros [|d C] [|i] o o' c Ha Hc; cbn in Ha, Hc; simplify_eq.
  - change (<[0%nat := o']> (o :: A)) with (o' :: A). rewrite !total_cons. lia.
  - change (<[S i := o']> (a :: A)) with (a :: <[i := o']> A). rewrite !total_cons.
    specialize (IH C i o o' c Ha Hc). lia.
Qed.

Lemma total_cancel A : ∀ C i o c c', A !! i = Some o → C !! i = Some c →
  (total A (<[i := c']> C) + weight o c = total A C + weight o c')%nat.
Proof.
  induction A as [|a A IH]; intros [|d C] [|i] o c c' Ha Hc; cbn in Ha, Hc; simplify_eq.
  - change (<[0%nat := c']> (c :: C)) with (c' :: C). rewrite !total_cons. lia.
  - change (<[S i := c']> (d :: C)) with (d :: <[i := c']> C). rewrite !total_cons.
    specialize (IH C i o c c' Ha Hc). lia.
Qed.

Lemma total_bound A : ∀ C, (total A C ≤ 2 * length A)%nat.
Proof.
  induction A as [|a A IH]; intros [|c C]; [cbn; lia..|]. rewrite total_cons.
  specialize (IH C). destruct a, c; cbn; lia.
Qed.

#[local] Arguments total : simpl never.

Section shutdown.
Context (e : env sys os_ret) (Henv : respects os_contract e).
Context (g : geometry) (Hg : geometry_ok g).
Context (Hstop : g_running g = false).
(** When the run is [live] the kernel makes progress. *)
Context (live : Prop) (Hlive : live → prompt e).

Lemma wp_os_live c (Q : os_ret c → sys → world os_ret → Prop) s w :
  (∀ r s', shared_kept s s' → answer c r (kern s) (kern s') →
     (live → prompt_answer c r (kern s) (kern s')) → Q r s' (existT c r :: w)) →
  wp e (call c) Q s w.
Proof.
  intros H. exists (e w c s).1, (e w c s).2, (existT c (e w c s).1 :: w). split; [done|].
  destruct (Henv w c s) as [Hk Ha]. apply H; [done|done|]. intros Hl. by apply Hlive.
Qed.

Ltac live_call :=
  lazymatch goal with
  | |- wp ?e (do_call ?c) ?Q ?s ?w => refine (wp_os_live c Q s w _)
  end.

(** ** States of a shutdown *)

(** Every operation is the kernel's; cancellations name the current one. *)
Definition all_in_flight (r : Runtime) : Prop :=
  ∀ i a, active r !! i = Some (Some a) → queued a = true ∧ submitted a = true.

Definition cancels_current (r : Runtime) : Prop :=
  ∀ i a op, active r !! i = Some (Some a) → cancellations r !! i = Some (Some op) →
    op = op_user_data a.

Record reaping (s : sys) : Prop := {
  rp_inv : inv g [] s;
  rp_waits : no_waits s;
  rp_flight : all_in_flight (rt s);
  rp_current : cancels_current (rt s);
}.

(** Everything built is submitted. *)
Definition flushed (s : sys) : Prop := built (kern s) = [].

(** What is left after an error. *)
Definition halted (s : sys) : Prop := inv g [] s ∧ no_waits s.

Lemma reaping_submitted s : reaping s → all_submitted (rt s).
Proof.
  intros H. apply slotwise_nil. intros i [a|] Hi; [|done]. cbn.
  destruct (rp_flight _ H i a Hi) as [-> ->]. done.
Qed.

Definition failing {A} (Post : A → sys → Prop) (r : result A error) (s' : sys) : Prop :=
  match r with
  | Ok a => Post a s'
  | Err x => halted s' ∧ external x ∧ ¬ live
  end.

(** ** Retiring operations the kernel does not have *)

Lemma inv_given_up i a st s : inv g [] s → active (rt s) !! i = Some (Some a) → queued a = false →
  slots (pool (rt s)) !! i = Some {| generation := completion_generation (completion a); state := st |} →
  inv g [] (s <| rt := (rt s)
    <| pool := set_slot (pool (rt s)) (Z.of_nat i)
         {| generation := completion_generation (completion a); state := Free |} |>
    <| active := <[i := None]> (active (rt s)) |> |>).
Proof.
  intros HI Ha Hq Hp. pose proof (i_tables _ _ _ HI) as Ht.
  set (s1 := s <| rt := (rt s) <| active := <[i := None]> (active (rt s)) |> |>).
  assert (HI1 : inv g [] s1).
  { apply (inv_update_rt g [] [] s _ HI).
    - by apply (fixed_same g (rt s)); [apply HI|..].
    - apply (tables_slot g (rt s) _ i None Ht); try done. intros s0. apply (tb_generations _ _ Ht).
    - intros Hh. apply (held_slot g [] [] (rt s) _ (kern s) (kern s) i (Some a) None
        (built (kern s)) (taken (kern s)) Hh Ha); try done; cbn; by rewrite Hq. }
  apply (inv_pool g [] s1 i {| generation := completion_generation (completion a); state := Free |} HI1).
  - apply list_lookup_insert_eq. by eapply lookup_lt_Some.
  - by apply (tb_generations _ _ Ht i _ Hp).
Qed.

(** Slots that are not left to visit have no unqueued operation. *)
Definition retired_but (l : list Z) (r : Runtime) : Prop :=
  ∀ i a, active r !! i = Some (Some a) → Z.of_nat i ∉ l → queued a = true.

Lemma wp_retire_unqueued i l s w : inv g [] s → no_waits s → (i < g_depth g)%nat →
  retired_but (Z.of_nat i :: l) (rt s) →
  wp e (retire_unqueued (Z.of_nat i)) (λ r s' _,
    r = Ok tt ∧ inv g [] s' ∧ no_waits s' ∧ retired_but l (rt s') ∧
    cancellations (rt s') = cancellations (rt s)) s w.
Proof.
  intros HI Hw Hi Hl. unfold retire_unqueued. apply wp_self.
  pose proof (tb_active _ _ (i_tables _ _ _ HI)) as Hlen.
  destruct (lookup_lt_is_Some_2 (active (rt s)) i) as [o Ho]; [lia|].
  assert (Hrest : (∀ a, o = Some a → queued a = true) → retired_but l (rt s)).
  { intros H j a Hj Hn. destruct (decide (j = i)) as [->|Hne].
    - rewrite Ho in Hj. injection Hj as ->. by apply H.
    - apply (Hl j a Hj). intros Hin. apply elem_of_cons in Hin as [E|?]; [|done]. by apply Nat2Z.inj in E. }
  eapply wp_index; [by rewrite at_index_nat|]. destruct o as [a|]; cbv beta iota.
  2:{ apply wp_ret. split_and!; try done. by apply Hrest. }
  destruct (queued a) eqn:Hq.
  { apply wp_ret. split_and!; try done. apply Hrest. by intros ? [= <-]. }
  pose proof (tb_ok _ _ (i_tables _ _ _ HI) i a Ho) as Hok. destruct (slots_gen _ _ _ Hok) as (st & Hp & Hst).
  rewrite (completion_eta a i) by apply Hok. unfold cancel.
  eapply wp_with_current; [done|by rewrite bool_decide_false|].
  eapply wp_set_active; [cbn; by rewrite at_index_nat|]. rewrite Nat2Z.id. apply wp_ret.
  split; [done|]. split; [exact (inv_given_up i a st s HI Ho Hq Hp)|].
  split; [done|]. split; [|done]. intros j b Hj Hn. cbn in Hj.
  destruct (decide (j = i)) as [->|Hne].
  - rewrite list_lookup_insert_eq in Hj by (by eapply lookup_lt_Some). done.
  - rewrite list_lookup_insert_ne in Hj by done. apply (Hl j b Hj). intros Hin.
    apply elem_of_cons in Hin as [E|?]; [|done]. by apply Nat2Z.inj in E.
Qed.

Lemma wp_retire_unqueued_operations s w : inv g [] s → no_waits s →
  wp e retire_unqueued_operations (λ r s' _,
    r = Ok tt ∧ inv g [] s' ∧ no_waits s' ∧ retired_but [] (rt s') ∧
    cancellations (rt s') = cancellations (rt s)) s w.
Proof.
  intros HI Hw. unfold retire_unqueued_operations. apply wp_self.
  pose proof (tb_active _ _ (i_tables _ _ _ HI)) as Hlen.
  apply (wp_for_each e _ _ (λ l s' _, inv g [] s' ∧ no_waits s' ∧ retired_but l (rt s') ∧
    cancellations (rt s') = cancellations (rt s) ∧
    ∀ i, i ∈ l → ∃ j, i = Z.of_nat j ∧ (j < g_depth g)%nat)).
  - intros i l s1 w1 (HI1 & Hw1 & Hr1 & Hc1 & Hl). destruct (Hl i) as (j & -> & Hj); [by left|].
    eapply wp_mono; [by eapply wp_retire_unqueued|]. intros r s2 w2 (-> & HI2 & Hw2 & Hr2 & Hc2).
    split_and!; try done; [congruence|]. intros k Hk. apply Hl. by right.
  - by intros s' w' (HI' & Hw' & Hr' & Hc' & _).
  - split_and!; try done; [|intros i; by apply in_slots_of].
    intros i a Hi Hn. exfalso. apply Hn. unfold slots_of. apply list_elem_of_fmap. exists i.
    split; [done|]. apply elem_of_seq. apply lookup_lt_Some in Hi. lia.
Qed.

(** ** Draining marks *)

Lemma mark_drain_same a :
  completion (mark_drain a) = completion a ∧ op_user_data (mark_drain a) = op_user_data a ∧
  busy_retries (mark_drain a) = busy_retries a ∧ queued (mark_drain a) = queued a ∧
  submitted (mark_drain a) = submitted a ∧
  ∀ i, rw_entry i (mark_drain a) = rw_entry i a.
Proof. unfold mark_drain. by destruct (is_write a && queued a && negb (submitted a)). Qed.

Lemma drain_entries sub A : entries sub (map (option_map mark_drain) A) = entries sub A.
Proof.
  unfold slotwise. change (map (option_map mark_drain) A) with (option_map mark_drain <$> A).
  rewrite imap_fmap. f_equal. apply imap_ext. intros i [a|] _; [|done]. cbn.
  destruct (mark_drain_same a) as (_ & _ & _ & -> & -> & H). by rewrite H.
Qed.

Lemma map_active {f : ActiveOperation → ActiveOperation} l i b :
  map (option_map f) l !! i = Some (Some b) → ∃ a, l !! i = Some (Some a) ∧ b = f a.
Proof.
  intros H. rewrite list_lookup_fmap in H. destruct (l !! i) as [[a|]|]; [|done..].
  injection H as <-. eauto.
Qed.

Lemma inv_mark_drain s : inv g [] s →
  inv g [] (s <| rt := (rt s) <| active := map (option_map mark_drain) (active (rt s)) |> |>).
Proof.
  intros HI. pose proof (i_tables _ _ _ HI) as [T1 T2 T3 T4 T5 T6 T7].
  apply (inv_update_rt g [] [] s _ HI).
  - by apply (fixed_same g (rt s)); [apply HI|..].
  - split; cbn; try done; [by rewrite length_map| |].
    + intros i b Hb. apply map_active in Hb as (a & Ha & ->). destruct (T5 i a Ha) as [A1 A2 A3 A4 A5].
      destruct (mark_drain_same a) as (E1 & E2 & E3 & _). split; by rewrite ?E1, ?E2, ?E3.
    + intros Hf i b Hb. apply map_active in Hb as (a & Ha & ->).
      destruct (mark_drain_same a) as (_ & _ & _ & _ & -> & _). by eapply T7.
  - intros [(cb & ct & [H1 H2 H3 H4]) W L HH R]. split; try done. exists cb, ct. cbn.
    split; rewrite ?drain_entries; done.
Qed.

(** The state in which cancelling begins. *)
Lemma reaping_start s s' : no_waits s' → inv g [] s' → retired_but [] (rt s) →
  (∀ i op, cancellations (rt s) !! i ≠ Some (Some op)) →
  rt s' = submitted_rt ((rt s) <| active := map (option_map mark_drain) (active (rt s)) |>) →
  reaping s'.
Proof.
  intros Hw HI Hr Hc E. split; [done|done| |].
  - intros i b Hb. rewrite E in Hb. cbn in Hb. apply map_active in Hb as (a' & Ha' & ->).
    apply map_active in Ha' as (a & Ha & ->).
    destruct (mark_submitted_same (mark_drain a)) as (_ & _ & _ & -> & _ & _ & _ & _ & ->).
    destruct (mark_drain_same a) as (_ & _ & _ & -> & _).
    by rewrite (Hr i a Ha (not_elem_of_nil _)).
  - intros i a op _ Hop. rewrite E in Hop. by apply Hc in Hop.
Qed.

(** ** Reaping a completion *)

(** What a completion of a shutdown belongs to. *)
Lemma reaped x s : inv g [x] s →
  (∃ i a, active (rt s) !! i = Some (Some a) ∧ queued a = true ∧ submitted a = true ∧
     x = rw_entry (Z.of_nat i) a ∧ Z.land (entry_user_data x) CANCEL_COMPLETION_MARKER = 0) ∨
  (∃ i gen, cancellations (rt s) !! i = Some (Some (operation_of x)) ∧ is_cancel x ∧
     (i < g_depth g)%nat ∧ 0 < gen < 2 ^ 32 ∧ operation_of x = identity (Z.of_nat i) gen ∧
     entry_user_data x = Z.lor CANCEL_COMPLETION_MARKER (operation_of x) ∧
     fits 63 (operation_of x)).
Proof.
  intros HI. pose proof (i_tables _ _ _ HI) as Ht. destruct Hg as [_ _ G3 _].
  destruct (kshaped_taken _ _ _ _ x (hd_shape _ _ _ _ (i_held _ _ _ HI)))
    as [(i & a & Ha & Hq & Hs & Hx)|(Hc & i & Hi)]; [by left|left|right].
  - exists i, a. split_and!; try done. rewrite Hx, rw_user_data.
    destruct (tb_ok _ _ Ht i a Ha) as [A1 A2 -> A4 A5]. pose proof (lookup_lt_Some _ _ _ Ha) as Hlt.
    rewrite (tb_active _ _ Ht) in Hlt. apply marker_land, identity_fits; lia.
  - destruct (tb_cancel_ok _ _ Ht i _ Hi) as (gen & [Hgen1 Hgen2] & E). pose proof (lookup_lt_Some _ _ _ Hi) as Hlt.
    rewrite (tb_cancel _ _ Ht) in Hlt. exists i, gen. split_and!; try done.
    + clear -Hc; by destruct x.
    + rewrite E. apply identity_fits; lia.
Qed.

Lemma inv_uncancelled x i s : inv g [x] s → is_cancel x →
  cancellations (rt s) !! i = Some (Some (operation_of x)) →
  inv g [] (s <| rt := (rt s) <| cancellations := <[i := None]> (cancellations (rt s)) |> |>).
Proof.
  intros HI Hx Hi. pose proof (i_tables _ _ _ HI) as [T1 T2 T3 T4 T5 T6 T7].
  apply (inv_update_rt g _ [] s _ HI).
  - destruct (i_fixed _ _ _ HI). split; try done. by rewrite Hstop.
  - split; cbn; try done; [by rewrite length_insert|]. intros j op Hj.
    destruct (decide (j = i)) as [->|Hne].
    + rewrite list_lookup_insert_eq in Hj by (by eapply lookup_lt_Some). done.
    + rewrite list_lookup_insert_ne in Hj by done. by apply T6.
  - intros [H1 H2 H3 H4 H5]. split; try done. by eapply kshaped_cancelled.
Qed.

(** One attempt: a completion is reaped, or there is none. *)
Definition reaped_one (s : sys) (r : bool * option error) (s' : sys) : Prop :=
  reaping s' ∧ built (kern s') = built (kern s) ∧ first_external r.2 ∧
  (live → r.1 = true) ∧
  if r.1 then live → (remaining (rt s') < remaining (rt s))%nat else rt s' = rt s.

(** Under a prompt kernel something taken is popped, operations first. *)
Definition popped_first (s : sys) (r : result (option IoRingCompletion) error) (s' : sys) : Prop :=
  ∃ c x, r = Ok (Some c) ∧ taken (kern s) ≡ₚ x :: taken (kern s') ∧
    ∀ h op u, x = CancelEntry h op u →
      ∀ y, y ∈ taken (kern s) → is_Some (entry_slot y) → entry_user_data y ≠ op.

Lemma wp_pop_prompt s w : live ∧ taken (kern s) ≠ [] →
  wp e pop_completion (λ r s' _, popped_first s r s') s w.
Proof.
  intros [Hl Ht]. unfold pop_completion. apply wp_self, wp_bind. live_call.
  intros [status c] s1 _ _ Hp. destruct (Hp Hl Ht) as (E & x & T & U & H). cbn in E. subst status.
  cbn. apply wp_pure, wp_ret. by exists c, x.
Qed.

Lemma remaining_active s i o o' c : active (rt s) !! i = Some o → cancellations (rt s) !! i = Some c →
  (weight o' c < weight o c)%nat →
  (total (<[i := o']> (active (rt s))) (cancellations (rt s)) < remaining (rt s))%nat.
Proof. intros Ha Hc Hw. pose proof (total_active _ _ i o o' c Ha Hc). unfold remaining. lia. Qed.

Lemma at_cancel X s i o : inv g X s → active (rt s) !! i = Some o →
  ∃ c, cancellations (rt s) !! i = Some c.
Proof.
  intros HI Ha. apply lookup_lt_is_Some_2. pose proof (i_tables _ _ _ HI) as Ht.
  rewrite (tb_cancel _ _ Ht), <- (tb_active _ _ Ht). by eapply lookup_lt_Some.
Qed.

Lemma at_active X s i c : inv g X s → cancellations (rt s) !! i = Some c →
  ∃ o, active (rt s) !! i = Some o.
Proof.
  intros HI Ha. apply lookup_lt_is_Some_2. pose proof (i_tables _ _ _ HI) as Ht.
  rewrite (tb_active _ _ Ht), <- (tb_cancel _ _ Ht). by eapply lookup_lt_Some.
Qed.

(** An operation is reaped: its slot is free. *)
Lemma wp_reap_operation s s1 x c i a first w :
  reaping s → inv g [x] s1 → rt s1 = rt s → no_waits s1 → built (kern s1) = built (kern s) →
  first_external first → active (rt s) !! i = Some (Some a) → queued a = true → submitted a = true →
  x = rw_entry (Z.of_nat i) a → user_data c = entry_user_data x →
  wp e ('(slot, generation, _) ←? validate_completion c;
        _ ←? pool_call (λ p, cancel p {| BufferPool.slot := slot; completion_generation := generation |})
               "cancel completion";
        _ ← set_active slot None;
        mret (Ok (true, first))) (λ r s' _, failing (reaped_one s) r s') s1 w.
Proof.
  intros Hr HI1 E1 Hw1 Hb1 Hf Ha Hq Hs Hx Hu. rewrite <- E1 in Ha.
  eapply (wp_validate e g); [done|exact HI1|exact Ha|by rewrite Hu, Hx, rw_user_data|]. cbv beta iota.
  rewrite <- (completion_eta a i) by (by apply (tb_ok _ _ (i_tables _ _ _ HI1) i a)).
  eapply (wp_give_up e g); [exact HI1|exact Ha|done..|]. intros s2 HI2 K2 A2 C2. apply wp_ret.
  split; [|split; [by rewrite K2|split; [done|split; [done|]]]].
  - split; [done|by unfold no_waits; rewrite K2| |].
    + intros j b Hj. rewrite A2, E1 in Hj. destruct (decide (j = i)) as [->|Hne].
      * rewrite list_lookup_insert_eq in Hj by (rewrite <- E1; by eapply lookup_lt_Some). done.
      * rewrite list_lookup_insert_ne in Hj by done. by apply (rp_flight _ Hr j).
    + intros j b op Hj Hop. rewrite A2, E1 in Hj. rewrite C2, E1 in Hop.
      destruct (decide (j = i)) as [->|Hne].
      * rewrite list_lookup_insert_eq in Hj by (rewrite <- E1; by eapply lookup_lt_Some). done.
      * rewrite list_lookup_insert_ne in Hj by done. by apply (rp_current _ Hr j).
  - intros _. cbn. unfold remaining at 1. rewrite A2, C2, E1. rewrite E1 in Ha.
    destruct (at_cancel [] s i _ (rp_inv _ Hr) Ha) as [d Hd].
    eapply remaining_active; [done|done|]. destruct d; cbn; lia.
Qed.

(** A cancellation is reaped; under a prompt kernel after its operation. *)
Lemma reaped_cancellation s s1 x i popped r :
  reaping s → inv g [x] s1 → rt s1 = rt s → no_waits s1 → built (kern s1) = built (kern s) →
  first_external r.2 → r.1 = true → is_cancel x → taken (kern s) ≡ₚ x :: taken (kern s1) →
  cancellations (rt s) !! i = Some (Some (operation_of x)) →
  (live → popped_first s popped s1) →
  reaped_one s r (s1 <| rt := (rt s1) <| cancellations := <[i := None]> (cancellations (rt s1)) |> |>).
Proof.
  intros Hr HI1 E1 Hw1 Hb1 Hf Ep Hx Ht Hi Hprompt.
  split; [|split; [done|split; [done|split; [by rewrite Ep|]]]].
  - split; [by apply (inv_uncancelled x); rewrite ?E1|done| |].
    + intros j b Hj. cbn in Hj. rewrite E1 in Hj. by apply (rp_flight _ Hr j).
    + intros j b op Hj Hop. cbn in Hj, Hop. rewrite E1 in Hj, Hop.
      destruct (decide (j = i)) as [->|Hne].
      * rewrite list_lookup_insert_eq in Hop by (by eapply lookup_lt_Some). done.
      * rewrite list_lookup_insert_ne in Hop by done. by apply (rp_current _ Hr j).
  - rewrite Ep. intros Hl. unfold remaining. cbn. rewrite E1.
    destruct (at_active [] s i _ (rp_inv _ Hr) Hi) as [o Ho].
    pose proof (total_cancel _ _ i o _ None Ho Hi) as Htot.
    destruct o as [a|]; [exfalso|cbn in Htot; lia].
    destruct (Hprompt Hl) as (c & x' & _ & Ht' & Hfirst).
    assert (Exx : x' = x).
    { rewrite Ht' in Ht. change ([x'] ++ taken (kern s1) ≡ₚ [x] ++ taken (kern s1)) in Ht.
      apply Permutation_app_inv_r, Permutation_singleton_inj in Ht. done. }
    subst x'. destruct x as [| |h op u|]; try done. cbn in Hi.
    destruct (rp_flight _ Hr i a Ho) as [Hq Hs].
    destruct (hd_shape _ _ _ _ (i_held _ _ _ (rp_inv _ Hr))) as (cb & ct & [_ Hsh _ _]). cbn in Hsh.
    apply (Hfirst h op u eq_refl (rw_entry (Z.of_nat i) a)).
    + rewrite Hsh. apply elem_of_app. left. apply entries_elem. eauto 10.
    + rewrite rw_slot. by eexists.
    + rewrite rw_user_data. symmetry. by apply (rp_current _ Hr i).
Qed.

Lemma wp_try_process first s w : reaping s → first_external first → (live → taken (kern s) ≠ []) →
  wp e (try_process_shutdown_completion first) (λ r s' _, failing (reaped_one s) r s') s w.
Proof.
  intros Hr Hf Hne. pose proof (rp_inv _ Hr) as HI. pose proof Hg as [_ _ G3 _].
  unfold try_process_shutdown_completion. apply wp_bind_ok.
  eapply wp_mono; [eapply wp_and; [by apply (wp_pop e Henv g)|apply wp_pop_prompt]|].
  intros r s1 w1 [(E1 & O1 & H1) Hprompt]. specialize (λ Hl, Hprompt (conj Hl (Hne Hl))) as Hfirst.
  assert (Hw1 : no_waits s1) by (unfold no_waits; rewrite O1; apply Hr).
  destruct r as [[c|]|x].
  - destruct H1 as (x & HI1 & Hu & _ & Ht & Hb). rewrite Hu.
    destruct (reaped x s1 HI1) as [(i & a & Ha & Hq & Hs & Hx & Hm)|(i & gen & Hi & Hx & Hlt & Hgen & Eop & Eu & Hfit)].
    + rewrite Hm. cbn [Z.eqb negb]. rewrite E1 in Ha. by eapply wp_reap_operation.
    + destruct (Z.eqb_spec (Z.land (entry_user_data x) CANCEL_COMPLETION_MARKER) 0) as [E|_].
      { exfalso. rewrite Eu in E. by apply marker_set in E. }
      cbn [negb]. rewrite Eu, marker_cleared by done. apply wp_pure.
      rewrite Eop, decode_identity by lia. apply wp_self.
      destruct (Z.leb_spec (len (active (rt s1))) (Z.of_nat i)) as [Hle|_].
      { unfold len in Hle. rewrite (tb_active _ _ (i_tables _ _ _ HI1)) in Hle. lia. }
      eapply wp_index; [by rewrite at_index_nat|]. rewrite <- Eop, bool_decide_true by done. cbn [negb].
      eapply wp_set_cancellation; [by rewrite at_index_nat|]. rewrite Nat2Z.id. apply wp_ret.
      eapply (reaped_cancellation s s1 x i); try done; [|by rewrite <- E1].
      cbn. destruct (_ =? S_OK); [done|]. cbn. destruct first; [done|]. intros y [= <-]. external_message.
  - destruct H1 as [HI1 Hb]. apply wp_ret. split; [|split_and!; try done].
    + destruct Hr as [R1 R2 R3 R4]. by split; rewrite ?E1.
    + intros Hl. by destruct (Hfirst Hl) as (c & x & ? & _).
  - destruct H1 as [HI1 Hx]. split; [done|]. split; [done|]. intros Hl. by destruct (Hfirst Hl) as (c & y & ? & _).
Qed.

(** ** Progress *)

(** Nothing is active, being cancelled, built or taken. *)
Definition idle (s : sys) : Prop :=
  inv g [] s ∧ no_waits s ∧ built (kern s) = [] ∧ taken (kern s) = [] ∧
  ∀ i o, active (rt s) !! i = Some o → o = None.

Lemma total_zero A : ∀ C, length A = length C → total A C = O →
  (∀ i o, A !! i = Some o → o = None) ∧ (∀ i c, C !! i = Some c → c = None).
Proof.
  induction A as [|a A IH]; intros [|c C] Hl Ht; try done.
  rewrite total_cons in Ht. injection Hl as Hl. destruct (IH C Hl) as [IH1 IH2]; [lia|].
  destruct a, c; cbn in Ht; try lia. split; intros [|i] o Hi; cbn in Hi; by (simplify_eq || eauto).
Qed.

Lemma inv_lengths X s : inv g X s → length (active (rt s)) = length (cancellations (rt s)).
Proof. intros HI. destruct (i_tables _ _ _ HI). congruence. Qed.

Lemma remaining_idle s : reaping s → remaining (rt s) = O → idle s.
Proof.
  intros Hr Hz. pose proof (rp_inv _ Hr) as HI.
  destruct (total_zero _ _ (inv_lengths _ _ HI) Hz) as [HA HC].
  destruct (kshaped_idle _ _ _ _ (hd_shape _ _ _ _ (i_held _ _ _ HI)) HA HC) as [HB HT].
  split; [done|]. split; [apply Hr|]. done.
Qed.

Lemma taken_progress s : reaping s → flushed s → remaining (rt s) ≠ O → taken (kern s) ≠ [].
Proof.
  intros Hr Hfl Hne Ht. apply Hne. pose proof (rp_inv _ Hr) as HI.
  destruct (hd_shape _ _ _ _ (i_held _ _ _ HI)) as (cb & ct & [H1 H2 H3 H4]).
  unfold flushed in Hfl. rewrite Hfl in H1. cbn in H2. rewrite Ht in H2.
  apply Permutation_nil_l in H1, H2. symmetry in H1, H2. apply app_nil in H1 as [_ ->], H2 as [HA ->].
  cbn in H4. apply Permutation_nil_l in H4. symmetry in H4.
  assert (EA : ∀ i o, active (rt s) !! i = Some o → o = None).
  { intros i [a|] Hi; [exfalso|done]. destruct (rp_flight _ Hr i a Hi) as [Hq Hs].
    assert (Hin : rw_entry (Z.of_nat i) a ∈ entries true (active (rt s))) by (apply entries_elem; eauto 10).
    rewrite HA in Hin. by apply not_elem_of_nil in Hin. }
  assert (EC : ∀ i c, cancellations (rt s) !! i = Some c → c = None).
  { intros i [op|] Hi; [exfalso|done].
    assert (Hin : op ∈ cancelled (cancellations (rt s))) by (apply slotwise_elem; exists i, (Some op); split; [done|by left]).
    rewrite H4 in Hin. by apply not_elem_of_nil in Hin. }
  unfold remaining. clear -EA EC HI. pose proof (inv_lengths _ _ HI) as Hl. revert EA EC Hl.
  generalize (active (rt s)) (cancellations (rt s)). intros A.
  induction A as [|a A IH]; intros [|c C] EA EC Hl; try done. rewrite total_cons.
  rewrite (EA O a eq_refl), (EC O c eq_refl), (IH C); [done| | |by injection Hl].
  - intros i o Hi. by apply (EA (S i)).
  - intros i o Hi. by apply (EC (S i)).
Qed.

Lemma remaining_bound s : inv g [] s → (remaining (rt s) ≤ 2 * g_depth g)%nat.
Proof. intros HI. rewrite <- (tb_active _ _ (i_tables _ _ _ HI)). apply total_bound. Qed.

(** ** Waiting and draining *)

Lemma wp_submit_ok n m w s (Q : result unit error → sys → world os_ret → Prop) text : live →
  (∀ s' w', Q (Ok tt) s' w') → wp e (hr text (call (SubmitIoRing (ring (rt s)) n m))) Q s w.
Proof.
  intros Hl HQ. unfold hr. apply wp_bind. live_call. intros status s' _ _ Hp. apply wp_ret.
  rewrite (Hp Hl). apply HQ.
Qed.

Lemma wp_wait_ok s w : live → wp e wait_for_completion (λ r s' _, is_ok r = true) s w.
Proof.
  intros Hl. unfold wait_for_completion. apply wp_self, wp_bind. live_call.
  intros status s' _ _ Hp. rewrite (Hp Hl). by apply wp_ret.
Qed.

Lemma wp_reaping_wait s w : reaping s → flushed s →
  wp e wait_for_completion (λ r s' _, failing (λ _ s', reaping s' ∧ flushed s' ∧ rt s' = rt s) r s') s w.
Proof.
  intros Hr Hfl. eapply wp_mono;
    [eapply wp_and; [apply (wp_wait_for_completion e Henv g); [apply Hr|by apply reaping_submitted]|apply wp_wait_ok]|].
  intros r s1 w1 [(HI1 & E1 & O1 & B1 & Hx) Hok]. unfold flushed in *.
  assert (Hw1 : no_waits s1) by (unfold no_waits; rewrite O1; apply Hr).
  destruct r as [b|x]; cbn.
  - split; [|by auto]. destruct Hr as [R1 R2 R3 R4]. by split; rewrite ?E1.
  - split; [done|]. split; [done|]. intros Hl. by specialize (Hok Hl).
Qed.

(** The end of a part of the shutdown; it runs on only when it may. *)
Definition stops {A} (Post : A → sys → Prop) (o : outcome A) (s' : sys) : Prop :=
  match o with
  | Running => ¬ live
  | Aborted => False
  | Returned r => failing Post r s'
  end.

Context (fuel : nat) (Hfuel : live → (2 * g_depth g < fuel)%nat).

Lemma wp_wait_for_shutdown_completion first s w : reaping s → flushed s → first_external first →
  remaining (rt s) ≠ O →
  wp e (wait_for_shutdown_completion fuel first) (λ o s' _,
    stops (λ first' s', reaping s' ∧ flushed s' ∧ first_external first' ∧
      (live → (remaining (rt s') < remaining (rt s))%nat)) o s') s w.
Proof.
  intros Hr Hfl Hf Hne. unfold wait_for_shutdown_completion.
  apply (wp_forever e live _ (λ first s' _ _, reaping s' ∧ flushed s' ∧ first_external first ∧
    rt s' = rt s) _) with (n := O); [|done|done|intros Hl; specialize (Hfuel Hl); lia].
  clear w first Hf. intros first s1 w1 n (Hr1 & Hfl1 & Hf1 & E1).
  apply wp_try. eapply wp_mono; [apply wp_try_process; [done|done|]|].
  { intros _. apply taken_progress; [done|done|by rewrite E1]. }
  intros [[processed first']|x] s2 w2 H2; [|done]. destruct H2 as (Hr2 & Hb2 & Hf2 & Hp2 & Hm2).
  cbn in Hm2, Hp2, Hf2. assert (Hfl2 : flushed s2) by (unfold flushed; by rewrite Hb2).
  destruct processed.
  - apply wp_ret. split_and!; try done. by rewrite <- E1.
  - apply wp_try. eapply wp_mono; [by apply wp_reaping_wait|].
    intros [b|x] s3 w3 H3; [|done]. destruct H3 as (Hr3 & Hfl3 & E3). apply wp_ret.
    exists O. split; [intros Hl; by specialize (Hp2 Hl)|]. split_and!; try done. congruence.
Qed.

Lemma draining_remaining s : existsb draining (active (rt s)) = true → inv g [] s →
  remaining (rt s) ≠ O.
Proof.
  intros H HI Hz. apply existsb_exists in H as (o & Hin & Hd). apply list_elem_of_In in Hin.
  apply list_elem_of_lookup in Hin as [i Hi].
  destruct (total_zero _ _ (inv_lengths _ _ HI) Hz) as [HA _]. by rewrite (HA i o Hi) in Hd.
Qed.

Lemma wp_drain_loop first s w : reaping s → flushed s → first_external first →
  wp e (drain_loop fuel first) (λ o s' _,
    stops (λ first' s', reaping s' ∧ flushed s' ∧ first_external first') o s') s w.
Proof.
  intros Hr Hfl Hf. unfold drain_loop.
  apply (wp_forever e live _ (λ first s' _ n, reaping s' ∧ flushed s' ∧ first_external first ∧
    n = remaining (rt s')) _) with (n := remaining (rt s)); [|done|done|].
  2:{ intros Hl. specialize (Hfuel Hl). pose proof (remaining_bound s (rp_inv _ Hr)). lia. }
  clear w first Hf. intros first s1 w1 n (Hr1 & Hfl1 & Hf1 & ->). apply wp_self.
  destruct (existsb draining _) eqn:Hd; [|by apply wp_ret].
  apply wp_bind_outcome. eapply wp_mono; [apply wp_wait_for_shutdown_completion; try done|].
  { eapply draining_remaining; [done|apply Hr1]. }
  intros [| |[first'|x]] s2 w2 H2; try done. destruct H2 as (Hr2 & Hfl2 & Hf2 & Hm). apply wp_ret.
  exists (remaining (rt s2)). done.
Qed.

(** ** Cancelling *)

Lemma kernel_cancel k k' h op u status : build (CancelEntry h op u) status k k' →
  outstanding k' = outstanding k ∧ taken k' = taken k ∧
  built k' = if status =? S_OK then built k ++ [CancelEntry h op u] else built k.
Proof. unfold build. intros ->. by destruct (status =? S_OK). Qed.

(** A cancellation of slot [i]'s operation is built. *)
Lemma reaping_cancel s s1 i a : reaping s → shared_kept s s1 →
  active (rt s) !! i = Some (Some a) → cancellations (rt s) !! i = Some None →
  kern s1 = (kern s) <| built := built (kern s) ++
    [CancelEntry (op_handle a) (op_user_data a) (Z.lor CANCEL_COMPLETION_MARKER (op_user_data a))] |> →
  let s2 := s1 <| rt := (rt s1) <| cancellations :=
    <[i := Some (op_user_data a)]> (cancellations (rt s1)) |> |> in
  reaping s2 ∧ remaining (rt s2) = remaining (rt s).
Proof.
  intros Hr Hk Ha Hc K s2. pose proof (kept_rt _ _ Hk) as E1. pose proof (rp_inv _ Hr) as HI.
  pose proof (i_tables _ _ _ HI) as Ht. destruct (tb_ok _ _ Ht i a Ha) as [A1 A2 A3 A4 A5].
  split; [split|].
  - destruct HI as [F T H B R]. unfold s2. rewrite E1. split; cbn.
    + destruct F. split; try done. by rewrite Hstop.
    + destruct T as [T1 T2 T3 T4 T5 T6 T7]. split; cbn; try done; [by rewrite length_insert|].
      intros j op Hj. destruct (decide (j = i)) as [->|Hne].
      * rewrite list_lookup_insert_eq in Hj by (by eapply lookup_lt_Some). injection Hj as <-. by eexists.
      * rewrite list_lookup_insert_ne in Hj by done. by apply T6.
    + rewrite K. destruct H as [H1 H2 H3 H4 H5]. split; try done. by apply kshaped_cancel.
    + by eapply shared_buffers.
    + by rewrite (kept_responses _ _ Hk).
  - unfold no_waits, s2. cbn. rewrite K. apply Hr.
  - intros j b Hj. unfold s2 in Hj. cbn in Hj. rewrite E1 in Hj. by apply (rp_flight _ Hr j).
  - intros j b op Hj Hop. unfold s2 in Hj, Hop. cbn in Hj, Hop. rewrite E1 in Hj, Hop.
    destruct (decide (j = i)) as [->|Hne].
    + rewrite list_lookup_insert_eq in Hop by (by eapply lookup_lt_Some). congruence.
    + rewrite list_lookup_insert_ne in Hop by done. by apply (rp_current _ Hr j).
  - unfold s2, remaining. cbn. rewrite E1.
    pose proof (total_cancel _ _ i _ _ (Some (op_user_data a)) Ha Hc) as Htot. cbn in Htot. lia.
Qed.

Lemma reaping_same s s1 : reaping s → shared_kept s s1 → kern s1 = kern s →
  reaping s1 ∧ remaining (rt s1) = remaining (rt s).
Proof.
  intros [R1 R2 R3 R4] Hk K. pose proof (kept_rt _ _ Hk) as E1. split; [|by rewrite E1].
  split; rewrite ?E1; try done; [eapply inv_same; [done|by apply kernel_same_eq|done]|].
  unfold no_waits. by rewrite K.
Qed.

(** The state while cancellations are queued. *)
Definition queueing (n : nat) (b : bool) (s : sys) : Prop :=
  reaping s ∧ remaining (rt s) = n ∧ (b = false → flushed s).

Lemma wp_queue_cancellations n slots : ∀ b count s w, queueing n b s →
  (∀ i, i ∈ slots → ∃ j, i = Z.of_nat j ∧ (j < g_depth g)%nat) →
  wp e (queue_cancellations slots b count) (λ r s' _,
    failing (λ '(b', full) s', queueing n b' s') r s') s w.
Proof.
  induction slots as [|slot slots IH]; intros b count s w Hq Hin; cbn [queue_cancellations];
    [by apply wp_ret|].
  apply wp_self. destruct (count =? _); [by apply wp_ret|].
  destruct (Hin slot) as (i & -> & Hi); [by left|].
  assert (Hin' : ∀ i, i ∈ slots → ∃ j, i = Z.of_nat j ∧ (j < g_depth g)%nat) by (intros; apply Hin; by right).
  pose proof Hq as (Hr & Hn & Hfl). pose proof (rp_inv _ Hr) as HI.
  destruct (lookup_lt_is_Some_2 (active (rt s)) i) as [o Ho].
  { by rewrite (tb_active _ _ (i_tables _ _ _ HI)). }
  destruct (at_cancel _ _ _ _ HI Ho) as [c Hc].
  eapply wp_index; [by rewrite at_index_nat|]. destruct o as [a|]; [|by apply IH].
  destruct (rp_flight _ Hr i a Ho) as [Eq Es]. rewrite Eq, Es. cbn [andb negb orb].
  apply wp_bind. eapply wp_index; [by rewrite at_index_nat|]. apply wp_ret.
  destruct c as [op|]; [by rewrite bool_decide_true by (by eexists); apply IH|].
  rewrite bool_decide_false by (by intros [? ?]).
  apply wp_bind. live_call. intros status s1 Hk Hb Hp. pose proof (kept_rt _ _ Hk) as E1. cbn in Hb.
  destruct (Z.eqb_spec status IORING_E_SUBMISSION_QUEUE_FULL) as [->|_].
  { apply wp_ret. destruct (reaping_same s s1 Hr Hk Hb) as [Hr1 Hn1].
    split; [done|]. split; [congruence|]. intros E. unfold flushed. rewrite Hb. by apply Hfl. }
  apply wp_pure. destruct (check_hr_cases "BuildIoRingCancelRequest" status) as [[-> ->]|[-> Hne]].
  - apply build_Ok in Hb. eapply wp_set_cancellation; [by rewrite E1, at_index_nat|]. rewrite Nat2Z.id.
    destruct (reaping_cancel s s1 i a Hr Hk Ho Hc Hb) as [Hr2 Hn2].
    apply IH; [|done]. split; [done|]. split; [congruence|done].
  - assert (K1 : kern s1 = kern s) by (by eapply build_Err).
    destruct (reaping_same s s1 Hr Hk K1) as [Hr1 _].
    split; [split; apply Hr1|]. split; [external_message|]. intros Hl. by specialize (Hp Hl).
Qed.

Lemma wp_submit_cancellation_batch s w : reaping s →
  wp e submit_cancellation_batch (λ r s' _,
    failing (λ _ s', reaping s' ∧ flushed s' ∧ remaining (rt s') = remaining (rt s)) r s') s w.
Proof.
  intros Hr. unfold submit_cancellation_batch. apply wp_self. unfold hr. apply wp_bind.
  live_call. intros status s1 Hk [Hto Ha] Hp. apply wp_ret. pose proof (kept_rt _ _ Hk) as E1.
  destruct (check_hr_cases "SubmitIoRing cancellation batch" status) as [[-> ->]|[-> Hne]].
  - cbn in Ha. destruct Ha as (B & T & E). split; [|by rewrite E1]. split.
    + eapply inv_take; try done; [apply Hr|by apply reaping_submitted].
    + unfold no_waits. rewrite E. apply Hr.
    + rewrite E1. apply Hr.
    + rewrite E1. apply Hr.
  - rewrite (proj2 (Z.eqb_neq _ _) Hne) in Ha. cbn in Ha.
    destruct (Z.eqb_spec status WAIT_TIMEOUT) as [E|_]; [by apply Hto in E|].
    destruct (reaping_same s s1 Hr Hk Ha) as [Hr1 _].
    split; [split; apply Hr1|]. split; [external_message|]. intros Hl. by specialize (Hp Hl).
Qed.

Lemma any_remaining s : inv g [] s → any (active (rt s)) || any (cancellations (rt s)) = true →
  remaining (rt s) ≠ O.
Proof.
  intros HI H Hz. destruct (total_zero _ _ (inv_lengths _ _ HI) Hz) as [HA HC].
  apply orb_true_iff in H as [H|H]; apply existsb_exists in H as (o & Hin & Hd);
    apply list_elem_of_In, list_elem_of_lookup in Hin as [i Hi]; apply bool_decide_eq_true in Hd.
  - rewrite (HA i o Hi) in Hd. by destruct Hd.
  - rewrite (HC i o Hi) in Hd. by destruct Hd.
Qed.

Lemma any_none {A} (l : list (option A)) i o : any l = false → l !! i = Some o → o = None.
Proof.
  intros H Hi. destruct o as [a|]; [exfalso|done]. apply not_true_iff_false in H. apply H.
  apply existsb_exists. exists (Some a). split; [|by apply bool_decide_eq_true; eexists].
  by apply list_elem_of_In, list_elem_of_lookup; eexists.
Qed.

Lemma none_idle s : reaping s → any (active (rt s)) || any (cancellations (rt s)) = false → idle s.
Proof.
  intros Hr H. apply orb_false_iff in H as [HA HC]. pose proof (rp_inv _ Hr) as HI.
  destruct (kshaped_idle _ _ _ _ (hd_shape _ _ _ _ (i_held _ _ _ HI))) as [HB HT];
    [by intros i o; apply any_none|by intros i o; apply any_none|].
  split; [done|]. split; [apply Hr|]. split_and!; try done. by intros i o; apply any_none.
Qed.

Lemma wp_cancel_loop first s w : reaping s → flushed s → first_external first →
  wp e (cancel_loop fuel first) (λ o s' _,
    stops (λ first' s', idle s' ∧ first_external first') o s') s w.
Proof.
  intros Hr Hfl Hf. unfold cancel_loop.
  apply (wp_forever e live _ (λ first s' _ n, reaping s' ∧ flushed s' ∧ first_external first ∧
    n = remaining (rt s')) _) with (n := remaining (rt s)); [|done|done|].
  2:{ intros Hl. specialize (Hfuel Hl). pose proof (remaining_bound s (rp_inv _ Hr)). lia. }
  clear w first Hf. intros first s1 w1 n (Hr1 & Hfl1 & Hf1 & ->). apply wp_self.
  destruct (any _ || any _) eqn:Hany; [|apply wp_ret; split; [by apply none_idle|done]].
  pose proof (any_remaining s1 (rp_inv _ Hr1) Hany) as Hne.
  apply wp_try. unfold queue_shutdown_cancellations. apply wp_self.
  eapply wp_mono; [apply (wp_queue_cancellations (remaining (rt s1))); [done|]|].
  { intros i. apply in_slots_of, (tb_active _ _ (i_tables _ _ _ (rp_inv _ Hr1))). }
  intros [[queued_one full]|x] s2 w2 H2; [|done]. destruct H2 as (Hr2 & Hn2 & Hfl2).
  apply wp_try. eapply wp_mono with (P := λ r s' _,
    failing (λ _ s', reaping s' ∧ flushed s' ∧ remaining (rt s') = remaining (rt s1)) r s').
  { destruct (queued_one || full) eqn:Hq.
    - eapply wp_mono; [by apply wp_submit_cancellation_batch|]. intros [[]|x] s3 w3 H3; [|done].
      destruct H3 as (? & ? & ?). split_and!; try done. congruence.
    - apply orb_false_iff in Hq as [-> _]. apply wp_ret. split; [done|]. split; [by apply Hfl2|done]. }
  intros [[]|x] s3 w3 H3; [|done]. destruct H3 as (Hr3 & Hfl3 & Hn3).
  apply wp_try. eapply wp_mono; [apply wp_try_process; [done|done|]|].
  { intros _. apply taken_progress; [done|done|by rewrite Hn3]. }
  intros [[processed first']|x] s4 w4 H4; [|done]. destruct H4 as (Hr4 & Hb4 & Hf4 & Hp4 & Hm4).
  cbn in Hf4, Hp4, Hm4. assert (Hfl4 : flushed s4) by (unfold flushed; by rewrite Hb4).
  apply wp_try. destruct processed; cbn [negb].
  - apply wp_ret, wp_ret. exists (remaining (rt s4)). split; [|done]. intros Hl. rewrite <- Hn3. by apply Hm4.
  - eapply wp_mono; [by apply wp_reaping_wait|]. intros [b|x] s5 w5 H5; [|done].
    destruct H5 as (Hr5 & Hfl5 & E5). apply wp_ret. exists (remaining (rt s5)).
    split; [intros Hl; by specialize (Hp4 Hl)|]. done.
Qed.

(** ** Shutdown *)

Lemma wp_submit_pending_ok s w : live → wp e submit_pending_operations (λ r s' _, r = Ok tt) s w.
Proof.
  intros Hl. unfold submit_pending_operations. apply wp_self, wp_bind_ok, wp_submit_ok; [done|].
  intros s' w'. by apply wp_update, wp_ret.
Qed.

(** How a shutdown ends: nothing is in flight when it succeeds, or when the
    kernel is prompt; otherwise the invariant holds. *)
Definition shut (o : outcome unit) (s' : sys) : Prop :=
  match o with
  | Running => ¬ live
  | Aborted => False
  | Returned r => halted s' ∧ (∀ x, r = Err x → external x) ∧ (r = Ok tt ∨ live → idle s')
  end.

Lemma shut_failed x s' : halted s' → external x → ¬ live → shut (Returned (Err x)) s'.
Proof. intros Hh Hx Hl. split; [done|]. split; [by intros y [= <-]|]. intros [?|?]; done. Qed.

Lemma inv_flag s : idle s → idle (s <| rt := (rt s) <| operations_may_be_in_flight := false |> |>).
Proof.
  intros (HI & Hw & HB & HT & HA). split; [|done]. apply (inv_update_rt g [] [] s _ HI).
  - by apply (fixed_same g (rt s)); [apply HI|..].
  - pose proof (i_tables _ _ _ HI) as [T1 T2 T3 T4 T5 T6 T7]. split; try done.
    intros _ i a Hi. cbn in Hi. by specialize (HA i _ Hi).
  - intros Hh. by apply (held_rt g [] (rt s)).
Qed.

Lemma wp_shutdown s w : inv g [] s → (∀ i op, cancellations (rt s) !! i ≠ Some (Some op)) →
  wp e (shutdown fuel) (λ o s' _, shut o s') s w.
Proof.
  intros HI Hc. unfold shutdown. apply wp_bind.
  eapply wp_mono; [by apply (wp_cancel_adaptive_waits e Henv g)|].
  intros first s1 w1 (HI1 & [(_ & C1 & _) _] & Hf1 & Hw1).
  apply wp_try. eapply wp_mono; [by apply wp_retire_unqueued_operations|].
  intros r s2 w2 (-> & HI2 & Hw2 & Hr2 & C2). apply wp_update.
  pose proof (inv_mark_drain _ HI2) as HI3. set (s3 := s2 <| rt := _ |>) in *.
  apply wp_try. eapply wp_mono;
    [eapply wp_and; [by apply (wp_submit_pending e Henv g)|apply wp_submit_pending_ok]|].
  intros r s4 w4 [(HI4 & O4 & H4) Hok].
  assert (Hw4 : no_waits s4) by (unfold no_waits; by rewrite O4).
  destruct r as [[]|x].
  2:{ destruct H4 as [_ Hx]. apply shut_failed; [done|done|]. intros Hl. by specialize (Hok Hl). }
  destruct H4 as [E4 B4]. assert (Hr4 : reaping s4).
  { apply (reaping_start s2); try done. intros i op. rewrite C2, C1. apply Hc. }
  apply wp_bind_outcome. eapply wp_mono; [by apply wp_drain_loop|].
  intros [| |[first5|x]] s5 w5 H5; try done; [|by destruct H5 as ((? & ?) & ? & ?); apply shut_failed].
  destruct H5 as (Hr5 & Hfl5 & Hf5).
  apply wp_bind_outcome. eapply wp_mono; [by apply wp_cancel_loop|].
  intros [| |[first6|x]] s6 w6 H6; try done; [|by destruct H6 as ((? & ?) & ? & ?); apply shut_failed].
  destruct H6 as [Hi6 Hf6]. apply wp_update, wp_ret.
  pose proof (inv_flag _ Hi6) as Hi7. split; [split; apply Hi7|]. split; [|done].
  destruct first6 as [x|]; [|done]. intros y [= <-]. by apply Hf6.
Qed.

End shutdown.

(** ** From the run to its shutdown *)

Definition stopping (g : geometry) : geometry :=
  {| g_ring := g_ring g; g_depth := g_depth g; g_rpe := g_rpe g; g_frame := g_frame g;
     g_first := g_first g; g_second := g_second g; g_handles := g_handles g;
     g_rings := g_rings g; g_running := false |}.

Lemma stopping_ok g : geometry_ok g → geometry_ok (stopping g).
Proof. by intros []. Qed.

Lemma inv_stopping g X s : inv g X s → inv (stopping g) X s.
Proof. intros [F T H B R]. split; [by destruct F|by destruct T|by destruct H|done|done]. Qed.
