(* ===== verification/RuntimeLife.v ===== *)
(** * The life of the switch: start, run and destruction

    Everything [start] acquires is released when it fails; the run ends in a
    shutdown and the destruction of the run time. *)

From S2P Require Import Prelude Words FrameParse Forwarding BufferPool Selection Completion.
From S2P Require Import Arguments Kernel Effects Runtime RuntimeLoop RuntimeStart RuntimeShape.
From S2P Require Import RuntimeSpec RuntimeOps RuntimeRun RuntimeWaits RuntimeShutdown.

(** ** Handles *)

Definition endpoint_handles (ep : Endpoint) : list Z :=
  match adaptive_wait ep with Some wait => [event wait] | None => [] end ++ [handle ep].

Definition closed (l : list Endpoint) : gset Z := list_to_set (l ≫= endpoint_handles).

(** The sizes of the registered buffers, of the submission queue and of what
    the kernel took. *)
Definition footprint (s : sys) : list nat * nat * nat :=
  (length <$> buffers s, length (built (kern s)), length (taken (kern s))).

(** The process without a run time: what it holds of the kernel's. *)
Record bare (H R : gset Z) (L : list nat * nat * nat) (s : sys) : Prop := {
  br_waits : outstanding (kern s) = ∅;
  br_local : local_outstanding (kern s) = false;
  br_handles : open_handles (kern s) = H;
  br_rings : open_rings (kern s) = R;
  br_memory x : x ∈ taken (kern s) ++ built (kern s) → entry_slot x = None;
  br_responses : length (responses s) = 2%nat;
  br_footprint : footprint s = L;
}.

Lemma bare_step H R L H' R' s s' : shared_kept s s' → bare H R L s →
  outstanding (kern s') = outstanding (kern s) →
  local_outstanding (kern s') = local_outstanding (kern s) →
  open_handles (kern s') = H' → open_rings (kern s') = R' →
  built (kern s') = built (kern s) → taken (kern s') = taken (kern s) → bare H' R' L s'.
Proof.
  intros Hk [B1 B2 B3 B4 B5 B6 B7] E1 E2 E3 E4 E5 E6. pose proof (kept_responses _ _ Hk).
  split; try congruence.
  - by rewrite E5, E6.
  - unfold footprint. rewrite E5, E6, (kept_lengths _ _ Hk). done.
Qed.

Lemma bare_same H R L s s' : shared_kept s s' → kernel_same (kern s) (kern s') →
  bare H R L s → bare H R L s'.
Proof.
  intros Hk [K1 K2 K3 K4 K5 K6] HB. pose proof HB as [B1 B2 B3 B4 B5 B6 B7].
  apply (bare_step H R L _ _ s s' Hk HB); congruence.
Qed.

Section life.
Context (e : env sys os_ret) (Henv : respects os_contract e).

(** ** Destruction *)

(** Only handles were closed. *)
Record closing (C : gset Z) (s s' : sys) : Prop := {
  cl_rt : rt s' = rt s;
  cl_taken : taken (kern s') = taken (kern s);
  cl_built : built (kern s') = built (kern s);
  cl_outstanding : outstanding (kern s') = outstanding (kern s);
  cl_local : local_outstanding (kern s') = local_outstanding (kern s);
  cl_handles : open_handles (kern s') = open_handles (kern s) ∖ C;
  cl_rings : open_rings (kern s') = open_rings (kern s);
  cl_responses : length (responses s') = length (responses s);
  cl_buffers : length <$> buffers s' = length <$> buffers s;
}.

Lemma closing_refl s : closing ∅ s s.
Proof. split; try done. set_solver. Qed.

Lemma closing_trans C D s1 s2 s3 : closing C s1 s2 → closing D s2 s3 → closing (C ∪ D) s1 s3.
Proof. intros [] []. split; try congruence. set_solver. Qed.

Lemma wp_close h Q s w : (∀ s' w', closing {[h]} s s' → Q tt s' w') → wp e (call (CloseHandle h)) Q s w.
Proof.
  intros HQ. os_call. intros [] s' Hk Ha. cbn in Ha. apply HQ. destruct Hk as [K1 K2 K3 K4].
  by split; rewrite ?Ha.
Qed.

Lemma wp_drop_endpoints l : ∀ i s w, outstanding (kern s) = ∅ →
  wp e (drop_endpoints i l) (λ _ s' _, closing (closed l) s s') s w.
Proof.
  induction l as [|ep l IH]; intros i s w Hw; cbn [drop_endpoints]; [apply wp_ret, closing_refl|].
  apply wp_bind. unfold Endpoint_drop. apply wp_bind.
  eapply wp_mono with (P := λ _ s' _, closing
    (list_to_set match adaptive_wait ep with Some wait => [event wait] | None => [] end) s s').
  { destruct (adaptive_wait ep) as [wait|]; [|apply wp_ret, closing_refl].
    apply wp_close. intros s' w' Hc. cbn. by rewrite union_empty_r_L. }
  intros [] s1 w1 C1. apply wp_bind, wp_close. intros s2 w2 C2.
  pose proof (closing_trans _ _ _ _ _ C1 C2) as C12.
  assert (Hw2 : outstanding (kern s2) = ∅) by (by rewrite (cl_outstanding _ _ _ C12)).
  unfold not_outstanding. wp_get. cbn [outstanding_of].
  rewrite bool_decide_false by (rewrite Hw2; apply not_elem_of_empty). apply wp_ret.
  eapply wp_mono; [by apply IH|]. intros [] s3 w3 C3.
  pose proof (closing_trans _ _ _ _ _ C12 C3) as C123.
  replace (closed (ep :: l)) with (list_to_set (C := gset Z) match adaptive_wait ep with Some wait => [event wait] | None => [] end
    ∪ {[handle ep]} ∪ closed l); [done|].
  unfold closed. cbn. unfold endpoint_handles. rewrite !list_to_set_app_L. cbn. by rewrite union_empty_r_L.
Qed.

Lemma wp_free_buffers Q s w : (∀ x, x ∈ taken (kern s) → entry_slot x = None) →
  Q tt (s <| buffers := [] |>) w → wp e free_buffers Q s w.
Proof.
  intros Hx HQ. unfold free_buffers. wp_get.
  destruct (existsb _ _) eqn:E; [exfalso|by apply wp_put].
  apply existsb_exists in E as (x & Hin & Hs). apply list_elem_of_In in Hin.
  apply bool_decide_eq_true in Hs. rewrite (Hx x Hin) in Hs. by destruct Hs.
Qed.

(** What the destruction of the run time leaves, unless it aborts. *)
Definition destroyed (g : geometry) (s s' : sys) : Prop :=
  buffers s' = [] ∧ open_rings (kern s') = g_rings g ∖ {[g_ring g]} ∧
  open_handles (kern s') = open_handles (kern s) ∖ closed (endpoints (rt s)).

(** No submitted operation: the kernel uses no buffer. *)
Lemma unused_buffers g s : inv g [] s →
  (∀ i a, active (rt s) !! i = Some (Some a) → submitted a = false) →
  ∀ x, x ∈ taken (kern s) → entry_slot x = None.
Proof.
  intros HI Ha x Hx. destruct (entry_slot x) eqn:E; [exfalso|done].
  destruct (kshaped_owned _ _ _ _ x (hd_shape _ _ _ _ (i_held _ _ _ HI))) as (i & a & Hi & Hs);
    [done|by eexists|]. by rewrite (Ha i a Hi) in Hs.
Qed.

Lemma wp_Runtime_drop g s w : halted g s →
  wp e Runtime_drop (λ dropped s' _,
    if dropped then destroyed g s s'
    else operations_may_be_in_flight (rt s) && any (active (rt s)) = true) s w.
Proof.
  intros [HI Hw]. unfold Runtime_drop. apply wp_self.
  destruct (operations_may_be_in_flight (rt s) && any (active (rt s))) eqn:Hf; [by apply wp_ret|].
  assert (Hmem : ∀ x, x ∈ taken (kern s) → entry_slot x = None).
  { apply (unused_buffers g s HI). intros i a Ha. apply andb_false_iff in Hf as [Hf|Hf].
    - by eapply (tb_flag _ _ (i_tables _ _ _ HI) Hf).
    - by apply (any_none _ i _ Hf) in Ha. }
  apply wp_bind. os_call. intros [] s1 Hk Ha. cbn in Ha. pose proof (kept_rt _ _ Hk) as E1.
  apply wp_bind. eapply wp_mono; [apply wp_drop_endpoints; by rewrite Ha|]. intros [] s2 w2 C2.
  apply wp_bind, wp_free_buffers; [rewrite (cl_taken _ _ _ C2), Ha; exact Hmem|]. apply wp_ret.
  split; [done|]. cbn. rewrite (cl_rings _ _ _ C2), (cl_handles _ _ _ C2), Ha. cbn.
  rewrite (hd_rings _ _ _ _ (i_held _ _ _ HI)). split; [|done].
  by rewrite (fx_ring _ _ (i_fixed _ _ _ HI)).
Qed.

Lemma idle_dropped g s : idle g s → operations_may_be_in_flight (rt s) && any (active (rt s)) = false.
Proof.
  intros (_ & _ & _ & _ & HA). apply andb_false_iff. right. apply not_true_is_false. intros H.
  apply existsb_exists in H as (o & Hin & Hd). apply list_elem_of_In, list_elem_of_lookup in Hin as [i Hi].
  rewrite (HA i o Hi) in Hd. done.
Qed.

(** ** The run *)

(** The results of run and shutdown together. *)
Lemma both_external ran stopped : (∀ x, ran = Err x → external x) →
  (∀ x, stopped = Err x → external x) → ∀ x, both ran stopped = Err x → external x.
Proof.
  intros H1 H2 x. destruct ran as [[]|a], stopped as [[]|b]; cbn; intros [= <-]; auto.
  split; auto.
Qed.

Lemma both_Ok ran stopped : both ran stopped = Ok tt → stopped = Ok tt.
Proof. by destruct ran as [[]|], stopped as [[]|]. Qed.

Lemma wp_and_shutdown g live fuel ran0 s w : geometry_ok g → g_running g = false →
  (live → prompt e) → (live → (2 * g_depth g < fuel)%nat) → inv g [] s →
  (∀ i op, cancellations (rt s) !! i ≠ Some (Some op)) → (∀ x, ran0 = Err x → external x) →
  wp e (and_shutdown fuel ran0) (λ o s' _,
    shut g live o s' ∧ (o = Returned (Ok tt) → ran0 = Ok tt)) s w.
Proof.
  intros Hg Hs Hlive Hfuel HI Hc Hran. unfold and_shutdown. apply wp_bind.
  eapply wp_mono; [by apply (wp_shutdown e Henv g Hg Hs live)|].
  intros [| |stopped] s1 w1 H1; apply wp_ret; [done..|]. destruct H1 as (Hh & Hx & Hi).
  split; [|by intros [= E]; destruct ran0 as [[]|], stopped as [[]|]].
  split; [done|]. split; [by apply both_external|]. intros [Hb|Hl]; apply Hi; [left|by right].
  by eapply both_Ok.
Qed.

(** The end of a run whose run time is not destroyed yet. *)
Definition ran (g : geometry) (o : outcome unit) (s' : sys) : Prop :=
  match o with
  | Running => True
  | Aborted => False
  | Returned r => halted g s' ∧ (∀ x, r = Err x → external x) ∧ (r = Ok tt → idle g s')
  end.

Lemma wp_Runtime_run g fuel s w : geometry_ok g → g_handles g = None → g_running g = true →
  settled g s → wp e (Runtime_run fuel) (λ o s' _, ran (stopping g) o s') s w.
Proof.
  intros Hg Hleak Hrun Hst. unfold Runtime_run. apply wp_bind.
  eapply wp_mono; [by apply (wp_run_until_stopped e Henv g Hg Hleak)|].
  intros [| |r] s1 w1 H1; [by apply wp_ret|done|].
  assert (HI : inv g [] s1 ∧ (∀ x, r = Err x → external x)).
  { destruct r as [[]|x]; [by split|]. destruct H1. split; [done|]. by intros y [= <-]. }
  destruct HI as [HI Hx].
  eapply wp_mono; [apply (wp_and_shutdown (stopping g) False); try done|].
  - by apply stopping_ok.
  - by apply inv_stopping.
  - apply (fx_running _ _ (i_fixed _ _ _ HI) Hrun).
  - intros [| |r'] s2 w2 [H2 _]; try done. destruct H2 as (? & ? & Hi). split_and!; auto.
Qed.

(** ** Start *)

(** A call that keeps what the process holds. *)
Lemma wp_bare_call c H R L Q s w : bare H R L s → (∀ r k k', answer c r k k' → kernel_same k k') →
  (∀ r s' w', bare H R L s' → answer c r (kern s) (kern s') → Q r s' w') →
  wp e (call c) Q s w.
Proof.
  intros HB Hc HQ. os_call. intros r s' Hk Ha. apply HQ; [|done].
  eapply bare_same; [done| |done]. by apply Hc in Ha.
Qed.

Ltac bare_call HB :=
  lazymatch goal with
  | |- wp ?e (do_call ?c) ?Q ?s ?w =>
      refine (wp_bare_call c _ _ _ Q s w HB _ _); [cbn; intuition eauto|]
  end.

(** How a step of the start ends: an error releases what it acquired. *)
Definition starts {A} (H R : gset Z) (L : list nat * nat * nat) (Post : A → sys → Prop)
    (r : result A error) (s' : sys) : Prop :=
  match r with
  | Ok a => Post a s'
  | Err x => bare H R L s' ∧ external x
  end.

Lemma wp_require {B} H R L b x (k : unit → P (result B error)) Post s w : bare H R L s → external x →
  (b = true → wp e (k tt) (λ r s' _, starts H R L Post r s') s w) →
  wp e (bind_ok k (require b x)) (λ r s' _, starts H R L Post r s') s w.
Proof. intros HB Hx HQ. apply wp_pure. destruct b; [by apply HQ|done]. Qed.

Lemma wp_reserve {B} H R L n text (k : unit → P (result B error)) Post s w : bare H R L s →
  external (Failure text []) →
  (∀ s' w', bare H R L s' → wp e (k tt) (λ r s' _, starts H R L Post r s') s' w') →
  wp e (bind_ok k (reserve n text)) (λ r s' _, starts H R L Post r s') s w.
Proof.
  intros HB Hx HQ. unfold reserve. apply wp_bind_ok, wp_bind. bare_call HB. intros r s' w' HB' _.
  apply wp_ret. destruct r; [by apply HQ|by split].
Qed.

(** *** Adapters *)

Lemma parse_guid_Err v x : parse_guid v = Err x → x = invalid_guid.
Proof. unfold parse_guid, ok_or. intros H. repeat case_match; by simplify_eq. Qed.

Lemma find_row (p : Guid * Z → bool) rows (Q : Z → Prop) row :
  Forall (λ row, Q row.2) rows → find p rows = Some row → Q row.2.
Proof.
  intros HF Hf. apply find_some in Hf as [Hin _]. apply list_elem_of_In in Hin.
  rewrite Forall_forall in HF. by apply HF.
Qed.

Lemma wp_query_adapter_mtu H R L v s w : bare H R L s →
  wp e (query_adapter_mtu v) (λ r s' _,
    starts H R L (λ mtu s', bare H R L s' ∧ fits 32 mtu) r s') s w.
Proof.
  intros HB. unfold query_adapter_mtu. apply wp_pure.
  destruct (parse_guid v) as [g|x] eqn:Hg.
  2:{ split; [done|]. rewrite (parse_guid_Err _ _ Hg). unfold invalid_guid; external_message. }
  apply wp_bind. bare_call HB. intros [status table] s1 w1 HB1 [_ Hrows]. cbn in *.
  destruct (negb _); [apply wp_ret; split; [done|external_message]|].
  destruct table as [rows|]; [|apply wp_ret; split; [done|external_message]].
  apply wp_bind. bare_call HB1. intros [] s2 w2 HB2 _. apply wp_ret.
  destruct (find _ rows) as [row|] eqn:Hf; cbn; [|split; [done|external_message]].
  split; [done|]. by eapply (find_row _ rows (fits 32)); [apply Hrows|].
Qed.

Lemma wp_check_depth H R L depth waits s w : bare H R L s → fits 64 depth →
  wp e (check_depth depth waits) (λ r s' _,
    starts H R L (λ _ s', s' = s ∧ 0 < depth ≤ 2 ^ 31 ∧ depth mod 2 = 0) r s') s w.
Proof.
  intros HB [Hd _]. unfold check_depth. apply wp_require; [done|external_message|]. intros H1.
  apply wp_require; [done|external_message|]. intros H2. apply wp_ret. bool_reflect.
  unfold ENDPOINT_COUNT in *. change (SLOT_MASK + 1) with (2 ^ 31) in H2.
  destruct (negb _); [|by split; [done|external_message]]. split; [done|]. split; [lia|done].
Qed.

Lemma wp_check_mtu H R L first second depth s w : bare H R L s → 0 < depth ≤ 2 ^ 31 →
  wp e (check_mtu first second depth) (λ r s' _,
    starts H R L (λ frame s', bare H R L s' ∧ 1514 ≤ frame ≤ FRAME_MAXIMUM) r s') s w.
Proof.
  intros HB Hd. unfold check_mtu.
  apply wp_bind_ok. eapply wp_mono; [by apply wp_query_adapter_mtu|].
  intros [mtu_a|x] s1 w1 H1; [|done]. destruct H1 as [HB1 Ha].
  apply wp_bind_ok. eapply wp_mono; [by apply wp_query_adapter_mtu|].
  intros [mtu_b|x] s2 w2 H2; [|done]. destruct H2 as [HB2 Hb].
  apply wp_require; [done|external_message|]. intros Heq.
  apply wp_require; [done|external_message|]. intros Hr.
  apply wp_pure. unfold checked_add. unfold FRAME_MINIMUM.
  bool_reflect.
  destruct (_ <? 2 ^ 64); cbn; [|split; [done|external_message]].
  destruct (Z.leb_spec (mtu_a + 14) FRAME_MAXIMUM); cbn; [|split; [done|external_message]].
  apply wp_pure. destruct (checked_mul _ _ _); cbn; [|split; [done|external_message]].
  apply wp_require; [done|external_message|]. intros _. apply wp_ret. split; [done|]. lia.
Qed.

(** *** Endpoints *)

Lemma wp_CreateFileW H R L path Q s w : bare H R L s →
  (∀ s' w', bare H R L s' → Q INVALID_HANDLE_VALUE s' w') →
  (∀ h s' w', (h ∉ H) → h ≠ INVALID_HANDLE_VALUE → bare ({[h]} ∪ H) R L s' → Q h s' w') →
  wp e (call (CreateFileW path)) Q s w.
Proof.
  intros HB HE HQ. os_call. intros h s' Hk Ha. cbn in Ha.
  destruct (Z.eqb_spec h INVALID_HANDLE_VALUE) as [->|Hne].
  - apply HE. eapply bare_same; [done|by apply kernel_same_failed|done].
  - destruct Ha as [Hn Ha]. rewrite (br_handles _ _ _ _ HB) in Hn, Ha. apply HQ; [done|done|].
    apply (bare_step H R L _ _ s s' Hk HB); rewrite Ha; try done. apply HB.
Qed.

Lemma wp_CreateEventW H R L Q s w : bare H R L s →
  (∀ s' w', bare H R L s' → Q 0 s' w') →
  (∀ h s' w', (h ∉ H) → h ≠ 0 → bare ({[h]} ∪ H) R L s' → Q h s' w') →
  wp e (call CreateEventW) Q s w.
Proof.
  intros HB HE HQ. os_call. intros h s' Hk Ha. cbn in Ha.
  destruct (Z.eqb_spec h 0) as [->|Hne].
  - apply HE. eapply bare_same; [done|by apply kernel_same_failed|done].
  - destruct Ha as [Hn Ha]. rewrite (br_handles _ _ _ _ HB) in Hn, Ha. apply HQ; [done|done|].
    apply (bare_step H R L _ _ s s' Hk HB); rewrite Ha; try done. apply HB.
Qed.

Lemma bare_closing C H R L s s' : bare H R L s → closing C s s' → bare (H ∖ C) R L s'.
Proof.
  intros [B1 B2 B3 B4 B5 B6 B7] [C1 C2 C3 C4 C5 C6 C7 C8 C9].
  split; try congruence; [by rewrite C2, C3|]. unfold footprint in *. by rewrite C2, C3, C9.
Qed.

(** Both endpoints, as they are opened. *)
Definition opened_pair (H : gset Z) (eps : list Endpoint) : Prop :=
  ∃ c1 c2 h1 h2, eps = [new_endpoint 1 c1 h1; new_endpoint 2 c2 h2] ∧
    (h1 ∉ H) ∧ (h2 ∉ {[h1]} ∪ H).

Lemma closed_pair c1 c2 h1 h2 : closed [new_endpoint 1 c1 h1; new_endpoint 2 c2 h2] = {[h1; h2]}.
Proof. unfold closed. cbn. set_solver. Qed.

Lemma pair_released H eps : opened_pair H eps → (closed eps ∪ H) ∖ closed eps = H.
Proof.
  intros (c1 & c2 & h1 & h2 & -> & H1 & H2). rewrite closed_pair. set_solver.
Qed.

Lemma wp_open_endpoint H R L path s w : bare H R L s →
  wp e (open_endpoint path) (λ r s' _,
    match r with
    | Ok h => (h ∉ H) ∧ bare ({[h]} ∪ H) R L s'
    | Err _ => bare H R L s'
    end) s w.
Proof.
  intros HB. unfold open_endpoint. apply wp_bind. eapply wp_CreateFileW; [exact HB|..].
  - intros s1 w1 HB1. rewrite Z.eqb_refl. apply wp_bind. bare_call HB1. intros x s2 w2 HB2 _. by apply wp_ret.
  - intros h s1 w1 Hn Hne HB1. rewrite (proj2 (Z.eqb_neq _ _) Hne). by apply wp_ret.
Qed.

Lemma wp_open_endpoints H R L first second s w : bare H R L s →
  wp e (open_endpoints first second) (λ r s' _,
    match r with
    | Ok eps => opened_pair H eps ∧ bare (closed eps ∪ H) R L s'
    | Err _ => bare H R L s'
    end) s w.
Proof.
  intros HB. unfold open_endpoints. apply wp_bind_ok. eapply wp_mono; [by apply wp_open_endpoint|].
  intros [h1|x] s1 w1 H1; [|done]. destruct H1 as [Hn1 HB1]. cbv zeta.
  apply wp_bind. eapply wp_mono; [by apply wp_open_endpoint|].
  intros [h2|x] s2 w2 H2.
  - destruct H2 as [Hn2 HB2]. apply wp_ret. split; [by exists first, second, h1, h2|].
    rewrite closed_pair. replace ({[h1; h2]} ∪ H) with ({[h2]} ∪ ({[h1]} ∪ H)); [done|set_solver].
  - apply wp_bind. eapply wp_mono; [apply wp_drop_endpoints, H2|]. intros [] s3 w3 C3. apply wp_ret.
    pose proof (bare_closing _ _ _ _ _ _ H2 C3) as HB3.
    replace (({[h1]} ∪ H) ∖ closed [new_endpoint 1 first h1]) with H in HB3; [done|].
    unfold closed. cbn. set_solver.
Qed.

(** Dropping both endpoints. *)
Lemma wp_drop_pair H R L eps Q s w : opened_pair H eps → bare (closed eps ∪ H) R L s →
  (∀ s' w', bare H R L s' → Q tt s' w') → wp e (drop_endpoints 0 eps) Q s w.
Proof.
  intros Hp HB HQ. eapply wp_mono; [apply wp_drop_endpoints, HB|]. intros [] s' w' C. apply HQ.
  pose proof (bare_closing _ _ _ _ _ _ HB C) as HB'. by rewrite pair_released in HB'.
Qed.

Lemma wp_reopen_attempts H R L n first second : ∀ s w, bare H R L s →
  wp e (reopen_attempts n first second) (λ r s' _,
    starts H R L (λ eps s', opened_pair H eps ∧ bare (closed eps ∪ H) R L s') r s') s w.
Proof.
  induction n as [|n IH]; intros s w HB; cbn [reopen_attempts].
  - apply wp_ret. split; [done|external_message].
  - apply wp_bind. eapply wp_mono; [by apply wp_open_endpoints|]. intros [eps|x] s1 w1 H1; [by apply wp_ret|].
    destruct (cleanup_is_pending x).
    + apply wp_bind. bare_call H1. intros [] s2 w2 HB2 _. by apply IH.
    + apply wp_ret. split; [done|]. unfold message. external_message.
Qed.

(** *** Negotiation *)

Lemma bare_local H R L s s' (b : bool) : shared_kept s s' →
  kern s' = (set_outstanding LocalOverlapped b (kern s)) <| last_error := last_error (kern s') |> →
  bare H R L s → b = false → bare H R L s'.
Proof.
  intros Hk E HB ->. pose proof HB as [B1 B2 B3 B4 B5 B6 B7].
  apply (bare_step H R L _ _ s s' Hk HB); rewrite E; done.
Qed.

Lemma wp_synchronous_device_control H R L h code input s w : bare H R L s →
  wp e (synchronous_device_control h code input) (λ r s' _, bare H R L s') s w.
Proof.
  intros HB. unfold synchronous_device_control. apply wp_bind. eapply wp_CreateEventW; [exact HB|..].
  { intros s1 w1 HB1. apply wp_bind. bare_call HB1. intros x s2 w2 HB2 _. by apply wp_ret. }
  intros ev s1 w1 Hn Hne HB1. rewrite (proj2 (Z.eqb_neq _ _) Hne).
  apply wp_bind. os_call. intros completed s2 Hk2 Ha2. cbn in Ha2. unfold device_io_control in Ha2.
  apply wp_bind. eapply wp_mono with (P := λ _ s' _, bare ({[ev]} ∪ H) R L s').
  { destruct (negb (completed.1 =? 0)).
    { apply wp_ret. eapply bare_same; [done|by apply kernel_same_eq|done]. }
    apply wp_bind. os_call. intros err s3 Hk3 [-> E3].
    destruct (Z.eqb_spec (last_error (kern s2)) ERROR_IO_PENDING) as [Ep|Ep]; cbn [negb].
    - apply wp_bind. os_call. intros r s4 Hk4 Ha4. cbn in Ha4. unfold overlapped_result in Ha4. cbn in Ha4.
      assert (HB4 : bare ({[ev]} ∪ H) R L s4).
      { pose proof HB1 as [B1 B2 B3 B4 B5 B6 B7]. split.
        - by rewrite Ha4, E3, Ha2.
        - by rewrite Ha4.
        - by rewrite Ha4, E3, Ha2.
        - by rewrite Ha4, E3, Ha2.
        - rewrite Ha4, E3, Ha2. exact B5.
        - by rewrite (kept_responses _ _ Hk4), (kept_responses _ _ Hk3), (kept_responses _ _ Hk2).
        - rewrite <- B7. unfold footprint.
          by rewrite (kept_lengths _ _ Hk4), (kept_lengths _ _ Hk3), (kept_lengths _ _ Hk2), Ha4, E3, Ha2. }
      destruct (r.1 =? 0); [|by apply wp_ret].
      apply wp_bind. bare_call HB4. intros x s5 w5 HB5 _. by apply wp_ret.
    - apply wp_ret. eapply bare_same; [exact Hk3|by apply kernel_same_eq|].
      eapply bare_same; [exact Hk2| |exact HB1]. rewrite Ha2. by split. }
  intros result s3 w3 HB3. apply wp_bind, wp_close. intros s4 w4 C4.
  pose proof (bare_closing _ _ _ _ _ _ HB3 C4) as HB4.
  apply wp_not_outstanding; [apply HB4|]. apply wp_ret.
  by replace H with (({[ev]} ∪ H) ∖ {[ev]}) by set_solver.
Qed.

Lemma bare_put_local H R L s v : bare H R L s → bare H R L (s <| local_response := v |>).
Proof. intros []. by split. Qed.

Lemma wp_negotiate_adaptive_endpoint H R L ep s w : bare H R L s →
  wp e (negotiate_adaptive_endpoint ep) (λ r s' _, starts H R L (λ _, bare H R L) r s') s w.
Proof.
  intros HB. unfold negotiate_adaptive_endpoint. wp_get. wp_put. apply wp_bind.
  eapply wp_mono; [by apply (wp_synchronous_device_control H R L), bare_put_local|].
  intros [bytes|x] s1 w1 HB1.
  - destruct (negb _); [apply wp_ret; split; [done|external_message]|].
    wp_get. destruct (local_response s1) as [version flags]. apply wp_bind. bare_call HB1.
    intros [] s2 w2 HB2 _. destruct (_ || _); by apply wp_ret.
  - destruct (is_adaptive_unsupported x); [|apply wp_ret; split; [done|external_message]].
    apply wp_bind. bare_call HB1. intros [] s2 w2 HB2 _. by apply wp_ret.
Qed.

Lemma wp_negotiate_adaptive_polling H R L eps Hh s w : opened_pair Hh eps → bare H R L s →
  wp e (negotiate_adaptive_polling eps) (λ r s' _, starts H R L (λ _, bare H R L) r s') s w.
Proof.
  intros (c1 & c2 & h1 & h2 & -> & _) HB. unfold negotiate_adaptive_polling.
  eapply wp_index; [done|]. apply wp_bind_ok.
  eapply wp_mono; [by apply wp_negotiate_adaptive_endpoint|]. intros [first|x] s1 w1 H1; [|done].
  eapply wp_index; [done|]. apply wp_bind_ok.
  eapply wp_mono; [by apply wp_negotiate_adaptive_endpoint|]. intros [second|x] s2 w2 H2; [|done].
  by apply wp_ret.
Qed.

(** Cleaning up on the way out of an error. *)
Lemma wp_on_error {A} (cleanup : P unit) (m : P (result A error)) Q s w :
  wp e m (λ r s' w',
    match r with
    | Ok a => Q (Ok a) s' w'
    | Err x => wp e cleanup (λ _ s'' w'', Q (Err x) s'' w'') s' w'
    end) s w → wp e (on_error cleanup m) Q s w.
Proof.
  intros H. unfold on_error. apply wp_bind. eapply wp_mono; [exact H|].
  intros [a|x] s' w' HQ; [by apply wp_ret|]. apply wp_bind. eapply wp_mono; [exact HQ|].
  intros [] s'' w'' HQ'. by apply wp_ret.
Qed.

Lemma wp_select_endpoints H R L first second s w : bare H R L s →
  wp e (select_endpoints first second) (λ r s' _,
    starts H R L (λ p s', opened_pair H p.1 ∧ bare (closed p.1 ∪ H) R L s') r s') s w.
Proof.
  intros HB. unfold select_endpoints. apply wp_bind. eapply wp_mono; [by apply wp_open_endpoints|].
  intros [eps|x] s1 w1 H1; apply wp_pure; cbn [map_err].
  2:{ split; [done|]. unfold message. external_message. }
  destruct H1 as [Hp HB1]. apply wp_bind_ok, wp_on_error.
  eapply wp_mono; [by eapply wp_negotiate_adaptive_polling|]. intros [[adaptive reopen]|x] s2 w2 H2.
  2:{ destruct H2 as [HB2 Hx]. by eapply wp_drop_pair. }
  cbn in H2. apply wp_bind_ok.
  eapply wp_mono with (P := λ r s' _,
    starts H R L (λ eps s', opened_pair H eps ∧ bare (closed eps ∪ H) R L s') r s').
  { destruct reopen; [|by apply wp_ret]. apply wp_bind. eapply wp_drop_pair; [done..|].
    intros s3 w3 HB3. by apply wp_reopen_attempts. }
  intros [eps'|x] s3 w3 H3; [|done]. destruct H3 as [Hp3 HB3].
  apply wp_bind. bare_call HB3. intros [] s4 w4 HB4 _. by apply wp_ret.
Qed.

(** *** The ring and its buffers *)

Lemma wp_create_ring H R L depth s w : bare H R L s →
  wp e (create_ring depth) (λ r s' _,
    starts H R L (λ ring s', (ring ∉ R) ∧ bare H ({[ring]} ∪ R) L s') r s') s w.
Proof.
  intros HB. unfold create_ring. apply wp_bind. os_call. intros [status ring] s' Hk Ha. cbn in Ha.
  apply wp_ret. cbn. destruct (check_hr_cases "CreateIoRing" status) as [[-> ->]|[-> Hne]]; cbn in *.
  - destruct Ha as [Hn Ha]. rewrite (br_rings _ _ _ _ HB) in Hn, Ha. split; [done|].
    apply (bare_step H R L _ _ s s' Hk HB); rewrite Ha; try done. apply HB.
  - rewrite (proj2 (Z.eqb_neq _ _) Hne) in Ha. split; [|external_message].
    eapply bare_same; [done|by apply kernel_same_eq|done].
Qed.

(** What is left after an error once the ring exists. *)
Definition prepares {A} (H R : gset Z) (Post : A → sys → Prop) (r : result A error) (s' : sys) : Prop :=
  match r with
  | Ok a => Post a s'
  | Err x => (∃ L, bare H R L s') ∧ external x
  end.

Lemma prepares_starts {A} H R L (Post : A → sys → Prop) r s' :
  starts H R L Post r s' → prepares H R Post r s'.
Proof. destruct r; [done|]. intros []. split; [by eexists|done]. Qed.

Lemma wp_reserve_prepare {B} H R L n text (k : unit → P (result B error)) Post s w : bare H R L s →
  external (Failure text []) →
  (∀ s' w', bare H R L s' → wp e (k tt) (λ r s' _, prepares H R Post r s') s' w') →
  wp e (bind_ok k (reserve n text)) (λ r s' _, prepares H R Post r s') s w.
Proof.
  intros HB Hx HQ. unfold reserve. apply wp_bind_ok, wp_bind. bare_call HB. intros r s' w' HB' _.
  apply wp_ret. destruct r; [by apply HQ|]. split; [by eexists|done].
Qed.

Lemma wp_select_version H R L ring version s w : bare H R L s →
  wp e (select_version ring version) (λ r s' _, prepares H R (λ _, bare H R L) r s') s w.
Proof.
  intros HB. unfold select_version. apply wp_bind. bare_call HB. intros r s1 w1 HB1 _.
  apply wp_bind. bare_call HB1. intros t s2 w2 HB2 _.
  destruct (select_io_ring_version _) as [[]|]; apply wp_ret; [done|..];
    (split; [by eexists|external_message]).
Qed.

Lemma bare_push H R l n t frame s : bare H R (l, n, t) s →
  bare H R (l ++ [Z.to_nat frame], n, t)
    (s <| buffers := buffers s ++ [replicate (Z.to_nat frame) 0] |>).
Proof.
  intros [B1 B2 B3 B4 B5 B6 B7]. split; try done. unfold footprint in *. cbn. injection B7 as <- <- <-.
  rewrite fmap_app. cbn. by rewrite length_replicate.
Qed.

Lemma wp_allocate_buffers H R n t depth frame s w : bare H R ([], n, t) s →
  wp e (allocate_buffers depth frame) (λ r s' _,
    prepares H R (λ _, bare H R (replicate (Z.to_nat depth) (Z.to_nat frame), n, t)) r s') s w.
Proof.
  intros HB. unfold allocate_buffers. apply (wp_reserve_prepare _ _ _ _ _ _ _ _ _ HB); [external_message|].
  intros s1 w1 HB1. apply wp_pure. destruct (negb _); [|split; [by eexists|external_message]].
  set (N := Z.to_nat depth).
  apply (wp_for_each e _ _ (λ l s' _, bare H R (replicate (N - length l) (Z.to_nat frame), n, t) s' ∧
    (length l ≤ N)%nat)).
  - clear s1 w1 HB1. intros x l s1 w1 [HB1 Hl]. cbn in Hl. apply wp_bind_ok. unfold reserve. apply wp_bind.
    bare_call HB1. intros r s2 w2 HB2 _. apply wp_ret. destruct r; [|split; [by eexists|external_message]].
    wp_get. wp_put. apply wp_ret. split; [|lia]. apply (bare_push _ _ _ _ _ frame) in HB2.
    replace (N - length l)%nat with (N - length (x :: l) + 1)%nat by (cbn; lia).
    by rewrite replicate_add.
  - intros s' w' [HB' _]. cbn in HB'. by rewrite Nat.sub_0_r in HB'.
  - rewrite length_seq, Nat.sub_diag. split; [exact HB1|lia].
Qed.

(** A change of the submission queue that names no buffer. *)
Lemma bare_queue H R l n t n' t' s s' : shared_kept s s' → bare H R (l, n, t) s →
  outstanding (kern s') = outstanding (kern s) →
  local_outstanding (kern s') = local_outstanding (kern s) →
  open_handles (kern s') = open_handles (kern s) → open_rings (kern s') = open_rings (kern s) →
  (∀ x, x ∈ taken (kern s') ++ built (kern s') → entry_slot x = None) →
  length (built (kern s')) = n' → length (taken (kern s')) = t' → bare H R (l, n', t') s'.
Proof.
  intros Hk [B1 B2 B3 B4 B5 B6 B7] E1 E2 E3 E4 E5 E6 E7. pose proof (kept_responses _ _ Hk).
  split; [congruence..|done|congruence|].
  unfold footprint in *. rewrite (kept_lengths _ _ Hk), E6, E7. congruence.
Qed.

Lemma bare_built H R l n t s s' status : shared_kept s s' → bare H R (l, n, t) s →
  build (RegisterEntry 0) status (kern s) (kern s') →
  (status = S_OK → bare H R (l, S n, t) s') ∧ ∃ L, bare H R L s'.
Proof.
  intros Hk HB Ha. pose proof HB as [B1 B2 B3 B4 B5 B6 B7]. unfold footprint in B7. injection B7 as _ Bn Bt.
  unfold build in Ha. destruct (Z.eqb_spec status S_OK) as [->|Hne].
  - assert (HB' : bare H R (l, S n, t) s').
    { apply (bare_queue _ _ _ _ _ _ _ _ _ Hk HB); rewrite Ha; cbn; try done.
      - intros x Hx. rewrite (assoc_L (++)) in Hx. apply elem_of_app in Hx as [Hx|Hx]; [by apply B5|].
        by apply list_elem_of_singleton in Hx as ->.
      - rewrite length_app, Bn. cbn. lia. }
    split; [done|by eexists].
  - split; [done|]. exists (l, n, t). eapply bare_same; [done|by apply kernel_same_eq|done].
Qed.

Lemma bare_submitted H R l n s s' waits status : shared_kept s s' → bare H R (l, n, 0%nat) s →
  submit waits status (kern s) (kern s') →
  (status = S_OK → bare H R (l, 0%nat, n) s') ∧ ∃ L, bare H R L s'.
Proof.
  intros Hk HB [_ Ha]. pose proof HB as [B1 B2 B3 B4 B5 B6 B7]. unfold footprint in B7. injection B7 as _ Bn Bt.
  destruct (_ || _) eqn:E.
  - destruct Ha as (HB0 & HT & Ha).
    assert (HB' : bare H R (l, 0%nat, n) s').
    { apply (bare_queue _ _ _ _ _ _ _ _ _ Hk HB); rewrite ?HB0; try (rewrite Ha; done); [|done|].
      - intros x Hx. rewrite app_nil_r, HT in Hx. by apply B5.
      - rewrite HT, length_app. lia. }
    split; [done|by eexists].
  - split; [intros ->; by cbn in E|]. exists (l, n, 0%nat).
    eapply bare_same; [done|by apply kernel_same_eq|done].
Qed.

Lemma bare_popped H R l t s s' r : shared_kept s s' → bare H R (l, 0%nat, S t) s →
  pop r (kern s) (kern s') →
  (r.1 = S_OK → bare H R (l, 0%nat, t) s') ∧ ∃ L, bare H R L s'.
Proof.
  intros Hk HB [_ Ha]. pose proof HB as [B1 B2 B3 B4 B5 B6 B7]. unfold footprint in B7. injection B7 as _ Bn Bt.
  destruct (Z.eqb_spec r.1 S_OK) as [E|Hne].
  - destruct Ha as (x & HT & _ & Ha).
    assert (HB' : bare H R (l, 0%nat, t) s').
    { apply (bare_queue _ _ _ _ _ _ _ _ _ Hk HB); try (rewrite Ha; done).
      - intros y Hy. apply B5. rewrite HT. rewrite Ha in Hy. cbn in Hy.
        apply elem_of_app in Hy as [Hy|Hy]; apply elem_of_app; [left; by right|by right].
      - rewrite HT in Bt. cbn in Bt. lia. }
    split; [done|by eexists].
  - split; [done|]. exists (l, 0%nat, S t). eapply bare_same; [done|by apply kernel_same_eq|done].
Qed.

Lemma wp_pop_registration H R l t ring s w : bare H R (l, 0%nat, S t) s →
  wp e (popped ← call (PopIoRingCompletion ring);
        _ ←? mret (check_hr popped.1 "PopIoRingCompletion");
        mret (check_hr (result_code popped.2) "I/O-ring registration"))
    (λ r s' _, prepares H R (λ _, bare H R (l, 0%nat, t)) r s') s w.
Proof.
  intros HB. apply wp_bind. os_call. intros popped s1 Hk Ha.
  destruct (bare_popped _ _ _ _ _ _ _ Hk HB Ha) as [Hok Herr]. apply wp_pure.
  destruct (check_hr_cases "PopIoRingCompletion" popped.1) as [[-> E]|[-> _]];
    [|split; [done|external_message]]. specialize (Hok E). apply wp_ret.
  destruct (check_hr_cases "I/O-ring registration" (result_code popped.2)) as [[-> _]|[-> _]];
    [done|split; [done|external_message]].
Qed.

Lemma wp_register H R l ring depth files s w : bare H R (l, 0%nat, 0%nat) s →
  wp e (register ring depth files) (λ r s' _,
    prepares H R (λ _, bare H R (l, 0%nat, 0%nat)) r s') s w.
Proof.
  intros HB. unfold register. apply (wp_reserve_prepare _ _ _ _ _ _ _ _ _ HB); [external_message|].
  intros s1 w1 HB1. apply wp_pure. destruct (_ <=? u32_max); [|split; [by eexists|external_message]].
  apply wp_bind_ok. unfold hr. apply wp_bind. os_call. intros status2 s2 Hk2 Ha2. apply wp_ret.
  destruct (bare_built _ _ _ _ _ _ _ _ Hk2 HB1 Ha2) as [Hok2 Herr2].
  destruct (check_hr_cases "BuildIoRingRegisterFileHandles" status2) as [[-> E2]|[-> _]];
    [|split; [done|external_message]].
  apply wp_bind_ok. apply wp_bind. os_call. intros status3 s3 Hk3 Ha3. apply wp_ret.
  destruct (bare_built _ _ _ _ _ _ _ _ Hk3 (Hok2 E2) Ha3) as [Hok3 Herr3].
  destruct (check_hr_cases "BuildIoRingRegisterBuffers" status3) as [[-> E3]|[-> _]];
    [|split; [done|external_message]].
  apply wp_bind_ok. apply wp_bind. os_call. intros status4 s4 Hk4 Ha4. apply wp_ret.
  destruct (bare_submitted _ _ _ _ _ _ _ _ Hk4 (Hok3 E3) Ha4) as [Hok4 Herr4].
  destruct (check_hr_cases "SubmitIoRing" status4) as [[-> E4]|[-> _]];
    [|split; [done|external_message]].
  apply (wp_for_each e _ _ (λ k s' _, bare H R (l, 0%nat, length k) s')).
  - intros x k s5 w5 HB5. by apply wp_pop_registration.
  - done.
  - by apply Hok4.
Qed.

(** A new pool. *)
Definition fresh_slots (n : nat) : list BufferSlot := replicate n {| generation := 0; state := Free |}.

Lemma wp_prepare_ring H R ring depth frame version files s w : bare H R ([], 0%nat, 0%nat) s →
  wp e (prepare_ring ring depth frame version files) (λ r s' _,
    prepares H R (λ pool s', slots pool = fresh_slots (Z.to_nat depth) ∧
      bare H R (replicate (Z.to_nat depth) (Z.to_nat frame), 0%nat, 0%nat) s') r s') s w.
Proof.
  intros HB. unfold prepare_ring.
  apply wp_bind_ok. eapply wp_mono; [by apply wp_select_version|]. intros [[]|x] s1 w1 HB1; [|done].
  apply wp_bind_ok. eapply wp_mono; [by apply wp_allocate_buffers|]. intros [[]|x] s2 w2 HB2; [|done].
  apply wp_bind_ok. eapply wp_mono; [by apply wp_register|]. intros [[]|x] s3 w3 HB3; [|done].
  cbn in HB3. apply wp_bind. bare_call HB3. intros ok s4 w4 HB4 _. apply wp_pure.
  unfold try_new. destruct ok; cbn [map_err].
  2:{ split; [by eexists|]. by right. }
  apply wp_reserve_prepare with (1 := HB4); [external_message|]. intros s5 w5 HB5.
  apply wp_reserve_prepare with (1 := HB5); [external_message|]. intros s6 w6 HB6. by apply wp_ret.
Qed.

(** *** The new run time *)

(** The geometry of a run time that [start] built. *)
Definition started_geometry (H R : gset Z) (ring depth frame h1 h2 : Z) : geometry :=
  {| g_ring := ring; g_depth := Z.to_nat depth; g_rpe := depth / 2; g_frame := frame;
     g_first := h1; g_second := h2; g_handles := Some ({[h1; h2]} ∪ H);
     g_rings := {[ring]} ∪ R; g_running := true |}.

Lemma started_geometry_ok H R ring depth frame h1 h2 : 0 < depth ≤ 2 ^ 31 → depth mod 2 = 0 →
  14 ≤ frame ≤ FRAME_MAXIMUM → geometry_ok (started_geometry H R ring depth frame h1 h2).
Proof.
  intros Hd Hm Hf. pose proof (Z.div_mod depth 2). split; cbn; rewrite ?Z2Nat.id by lia; lia.
Qed.

(** Free slots that were never read. *)
Definition pristine (l : list Z) (s : sys) : Prop :=
  ∀ i, i ∈ l → ∃ j, i = Z.of_nat j ∧ slot_free s j 0.

Lemma replicate_Some {A} n (x y : A) i : replicate n x !! i = Some y → y = x.
Proof. intros Hi. by apply lookup_replicate in Hi as [-> _]. Qed.

Lemma inv_started H R ring depth frame c1 c2 h1 h2 r s : 0 < depth ≤ 2 ^ 31 → depth mod 2 = 0 →
  bare ({[h1; h2]} ∪ H) ({[ring]} ∪ R) (replicate (Z.to_nat depth) (Z.to_nat frame), 0%nat, 0%nat) s →
  Runtime.ring r = ring → endpoints r = [new_endpoint 1 c1 h1; new_endpoint 2 c2 h2] →
  slots (pool r) = fresh_slots (Z.to_nat depth) → active r = replicate (Z.to_nat depth) None →
  cancellations r = replicate (Z.to_nat depth) None → operations_may_be_in_flight r = false →
  submission_queue_size r = depth → reads_per_endpoint r = depth / 2 →
  Runtime.frame_maximum r = frame →
  inv (started_geometry H R ring depth frame h1 h2) [] (s <| rt := r |>) ∧ tidy r ∧
  pristine (slots_of r) (s <| rt := r |>).
Proof.
  intros Hd Hm [B1 B2 B3 B4 B5 B6 B7] E1 E2 E3 E4 E5 E6 E7 E8 E9. unfold footprint in B7.
  injection B7 as B7 B8 B9. apply length_zero_iff_nil in B8, B9. split; [|split].
  - split; cbn; try done.
    + split; cbn; try done; [by rewrite E7, Z2Nat.id by lia| | |].
      * rewrite E2. by eexists _, _.
      * intros _ ep. rewrite E2. intros Hep. by repeat (apply elem_of_cons in Hep as [->|Hep]; [done|]);
          apply not_elem_of_nil in Hep.
      * intros _ i op Hi. rewrite E5 in Hi. by apply replicate_Some in Hi.
    + split; cbn; rewrite ?E4, ?E5, ?E3; try apply length_replicate.
      * intros i s0 Hi. rewrite E3 in Hi. apply replicate_Some in Hi as ->. done.
      * intros i a Hi. by apply replicate_Some in Hi.
      * intros i op Hi. by apply replicate_Some in Hi.
      * intros _ i a Hi. by apply replicate_Some in Hi.
    + split; cbn; try done; [|by rewrite B1; intros i Hi; apply not_elem_of_empty in Hi].
      rewrite B8, B9, E4, E5. exists [], []. split; cbn; try done.
      * rewrite slotwise_nil; [done|]. intros i o Hi. by apply replicate_Some in Hi as ->.
      * rewrite slotwise_nil; [done|]. intros i o Hi. by apply replicate_Some in Hi as ->.
      * rewrite slotwise_nil; [done|]. intros i o Hi. by apply replicate_Some in Hi as ->.
  - intros i o Hi. rewrite E4 in Hi. pose proof (lookup_lt_Some _ _ _ Hi) as Hlt.
    rewrite length_replicate in Hlt. apply replicate_Some in Hi as ->. rewrite E3, E5.
    unfold fresh_slots. rewrite !lookup_replicate_2 by done. split; [by eexists|]. by split.
  - intros i Hi. unfold slots_of in Hi. apply list_elem_of_fmap in Hi as (j & -> & Hj).
    exists j. split; [done|]. apply elem_of_seq in Hj as [_ Hj]. rewrite E4, length_replicate in Hj.
    split; cbn; [by rewrite E4, lookup_replicate_2|by rewrite E3; unfold fresh_slots; rewrite lookup_replicate_2].
Qed.

Lemma closed_endpoints g s : inv g [] s → g_handles g ≠ None →
  closed (endpoints (rt s)) = {[g_first g; g_second g]}.
Proof.
  intros HI Hk. destruct (i_fixed _ _ _ HI) as [F1 F2 F3 F4 (e0 & e1 & F5 & F6 & F7 & F8 & F9) F10 F11].
  rewrite F5 in F10 |- *. unfold closed. cbn. unfold endpoint_handles.
  rewrite (F10 Hk e0), (F10 Hk e1) by set_solver. cbn. rewrite F8, F9. set_solver.
Qed.

Section started.
Context (g : geometry) (Hg : geometry_ok g).

Lemma no_waits_known s : inv g [] s → g_handles g ≠ None → no_waits s.
Proof.
  intros HI Hk. unfold no_waits. apply set_eq. intros i. split; [|set_solver]. intros Hi. exfalso.
  destruct (hd_waits _ _ _ _ (i_held _ _ _ HI) i Hi) as (ep & wait & Ei & Ew & _).
  apply Hk. by eapply (has_wait g [] s).
Qed.

(** *** The first reads *)

Lemma pristine_enqueued i a l s s' : NoDup (Z.of_nat i :: l) → pristine (Z.of_nat i :: l) s →
  enqueued i a s s' → pristine l s'.
Proof.
  intros Hnd Hp (E1 & _ & _ & _ & E5 & _) x Hx. destruct (Hp x) as (j & -> & Ha & Hs); [by right|].
  apply NoDup_cons in Hnd as [Hn _]. assert (j ≠ i) by (intros ->; done).
  exists j. split; [done|]. split; [by rewrite E1, list_lookup_insert_ne|by rewrite E5].
Qed.

Lemma wp_first_reads s w : inv g [] s → tidy (rt s) → pristine (slots_of (rt s)) s →
  operations_may_be_in_flight (rt s) = false →
  wp e (for_each (slots_of (rt s)) post_read) (λ r s' _, inv g [] s' ∧
    operations_may_be_in_flight (rt s') = false ∧
    match r with Ok _ => tidy (rt s') | Err x => external x end) s w.
Proof.
  intros HI Ht Hp Hf.
  apply (wp_for_each e _ _ (λ l s' _, inv g [] s' ∧ tidy (rt s') ∧ NoDup l ∧ pristine l s' ∧
    operations_may_be_in_flight (rt s') = false)).
  - clear s w HI Ht Hp Hf. intros x l s w (HI & Ht & Hnd & Hp & Hf).
    destruct (Hp x) as (i & -> & Hfree); [by left|].
    eapply wp_mono; [by apply (wp_post_read e Henv g Hg)|]. intros [[]|y] s1 w1 (HI1 & Hf1 & Hr).
    + split_and!; try done.
      * eapply tidy_enqueued; [done| |done..]. destruct Hfree as [-> _]. by eexists.
      * by apply NoDup_cons in Hnd as [_ ?].
      * by eapply pristine_enqueued.
      * congruence.
    + split_and!; try done. congruence.
  - intros s' w' (HI' & Ht' & _ & _ & Hf'). done.
  - split_and!; try done. unfold slots_of. apply NoDup_fmap; [apply _|]. apply NoDup_seq.
Qed.

(** The run time exists and its reads are in flight, or its end is due. *)
Definition begun (live : Prop) (o : outcome unit) (s' : sys) : Prop :=
  match o with
  | Running => ¬ live
  | Aborted => False
  | Returned (Ok _) => settled g s'
  | Returned (Err x) => halted (stopping g) s' ∧ external x ∧
      (live → operations_may_be_in_flight (rt s') && any (active (rt s')) = false)
  end.

Lemma wp_post_first_reads live fuel s w : (live → prompt e) → (live → (2 * g_depth g < fuel)%nat) →
  g_handles g ≠ None → g_running g = true → inv g [] s → tidy (rt s) →
  pristine (slots_of (rt s)) s → operations_may_be_in_flight (rt s) = false →
  wp e (post_first_reads fuel) (λ o s' _, begun live o s') s w.
Proof.
  intros Hlive Hfuel Hk Hrun HI Ht Hp Hf. unfold post_first_reads. apply wp_self, wp_try.
  eapply wp_mono; [by apply wp_first_reads|]. intros r s1 w1 (HI1 & Hf1 & Hr). destruct r as [[]|x].
  2:{ split; [split; [by apply inv_stopping|by apply no_waits_known]|]. split; [done|]. by rewrite Hf1. }
  apply wp_bind. eapply wp_mono; [by apply (wp_submit_pending e Henv g)|].
  intros [[]|x] s2 w2 (HI2 & O2 & H2).
  - apply wp_ret. destruct H2 as [H2 _].
    split; [done|rewrite H2; by apply tidy_submitted|rewrite H2; apply all_submitted_rt].
  - destruct H2 as [E2 Hx]. eapply wp_mono.
    + apply (wp_and_shutdown (stopping g) live); try done; [by apply stopping_ok|by apply inv_stopping| |].
      * apply (fx_running _ _ (i_fixed _ _ _ HI2) Hrun).
      * by intros y [= <-].
    + intros [| |[[]|y]] s3 w3 [H3 Hok]; try done; [by specialize (Hok eq_refl)|].
      destruct H3 as (Hh & Hy & Hi). split; [done|]. split; [by apply Hy|].
      intros Hl. eapply idle_dropped, Hi. by right.
Qed.

(** Dropping the run time when the first reads failed. *)
Definition released (live : Prop) (H R : gset Z) (o : outcome unit) (s' : sys) : Prop :=
  match o with
  | Running | Aborted => ¬ live
  | Returned (Ok _) => settled g s'
  | Returned (Err x) => open_handles (kern s') = H ∧ open_rings (kern s') = R ∧ external x
  end.

Lemma wp_drop_on_error live H R (m : P (outcome unit)) s w :
  g_handles g = Some ({[g_first g; g_second g]} ∪ H) → g_first g ∉ H → g_second g ∉ {[g_first g]} ∪ H →
  g_rings g = {[g_ring g]} ∪ R → g_ring g ∉ R →
  wp e m (λ o s' _, begun live o s') s w →
  wp e (drop_on_error m) (λ o s' _, released live H R o s') s w.
Proof.
  intros Hk H1 H2 Hr H3 Hm. unfold drop_on_error. apply wp_bind. eapply wp_mono; [exact Hm|].
  intros [| |[[]|x]] s1 w1 Hb; [by apply wp_ret|done|by apply wp_ret|]. destruct Hb as (Hh & Hx & Hd).
  apply wp_bind. eapply wp_mono; [by apply (wp_Runtime_drop (stopping g))|].
  intros [] s2 w2 H4; apply wp_ret; [|by intros Hl; rewrite (Hd Hl) in H4].
  destruct H4 as (_ & Er & Eh). destruct Hh as [HI _].
  pose proof (hd_handles _ _ _ _ (i_held _ _ _ HI)) as HH. cbn in HH. rewrite Hk in HH. cbn in HH.
  pose proof (closed_endpoints (stopping g) s1 HI) as Hce. cbn in Hce. specialize (Hce ltac:(by rewrite Hk)).
  split; [rewrite Eh, HH, Hce; set_solver|]. split; [|done]. rewrite Er. cbn. rewrite Hr. set_solver.
Qed.

End started.

(** ** The program *)

(** A fresh process. *)
Definition blank (H R : gset Z) (s : sys) : Prop := bare H R ([], 0%nat, 0%nat) s.

(** How [Runtime::start] ends: with a settled run time, or with everything it
    opened closed again. *)
Definition start_ends (live : Prop) (H R : gset Z) (o : outcome unit) (s' : sys) : Prop :=
  match o with
  | Running | Aborted => ¬ live
  | Returned (Ok _) => ∃ g, geometry_ok g ∧ g_running g = true ∧ settled g s'
  | Returned (Err x) => open_handles (kern s') = H ∧ open_rings (kern s') = R ∧ external x
  end.

Lemma starts_ends {A} live H R L (m : P (result A error)) (k : A → P (outcome unit)) Post s w :
  wp e m (λ r s' _, starts H R L Post r s') s w →
  (∀ a s' w', Post a s' → wp e (k a) (λ o s' _, start_ends live H R o s') s' w') →
  wp e (bind_outcome k (returned m)) (λ o s' _, start_ends live H R o s') s w.
Proof.
  intros Hm HQ. apply wp_try. eapply wp_mono; [exact Hm|]. intros [a|x] s' w' Hr; [by apply HQ|].
  destruct Hr as [[] Hx]. done.
Qed.

Lemma wp_Runtime_start live fuel o first second H R s w : (live → prompt e) →
  (live → (2 * Z.to_nat (read_depth o) < fuel)%nat) → fits 64 (read_depth o) → blank H R s →
  wp e (Runtime_start fuel o first second) (λ out s' _, start_ends live H R out s') s w.
Proof.
  intros Hlive Hfuel Hd HB. unfold Runtime_start. cbv zeta.
  eapply starts_ends; [by apply wp_check_depth|]. intros [] s0 w0 (-> & Hd' & Hm).
  eapply starts_ends; [by apply wp_check_mtu|]. intros frame s1 w1 [HB1 Hframe].
  eapply starts_ends with (Post := λ _, bare H R ([], 0%nat, 0%nat)).
  { unfold query_capabilities. apply wp_bind. bare_call HB1. intros caps s2 w2 HB2 _. apply wp_ret.
    destruct (check_hr_cases "QueryIoRingCapabilities" caps.1) as [[-> _]|[-> _]]; [done|].
    split; [done|external_message]. }
  intros version s2 w2 HB2.
  eapply starts_ends; [by apply wp_select_endpoints|]. intros [eps adaptive] s3 w3 [Hp HB3]. cbn in Hp, HB3.
  eapply starts_ends with (Post := λ ring s', (ring ∉ R) ∧
    bare (closed eps ∪ H) ({[ring]} ∪ R) ([], 0%nat, 0%nat) s').
  { apply wp_on_error. eapply wp_mono; [by apply wp_create_ring|]. intros [ring|x] s4 w4 H4; [done|].
    destruct H4 as [HB4 Hx]. by eapply wp_drop_pair. }
  intros ring s4 w4 [Hring HB4].
  apply wp_try, wp_on_error. eapply wp_mono; [by apply wp_prepare_ring|].
  intros [pool|x] s5 w5 H5.
  2:{ destruct H5 as [[L HB5] Hx]. apply wp_bind, wp_free_buffers.
      { intros y Hy. apply (br_memory _ _ _ _ HB5). apply elem_of_app. by left. }
      apply wp_bind. os_call. intros [] s6 Hk6 Ha6. cbn in Ha6.
      assert (HB6 : ∃ L, bare (closed eps ∪ H) R L s6).
      { exists ([], L.1.2, L.2). destruct HB5 as [B1 B2 B3 B4 B5 B6 B7]. split; rewrite ?Ha6; try done.
        - cbn. rewrite B4. set_solver.
        - by rewrite (kept_responses _ _ Hk6).
        - unfold footprint in *. rewrite (kept_lengths _ _ Hk6), Ha6. cbn. rewrite <- B7. done. }
      destruct HB6 as [L6 HB6]. eapply wp_drop_pair; [done..|]. by intros s7 w7 []. }
  destruct H5 as [Hpool HB5]. apply wp_bind. unfold RuntimeStats_new. apply wp_bind. bare_call HB5.
  intros now s6 w6 HB6 _. apply wp_ret. apply wp_update.
  destruct Hp as (c1 & c2 & h1 & h2 & -> & Hh1 & Hh2). rewrite closed_pair in HB6.
  set (r := {| Runtime.ring := ring; endpoints := _ |}).
  destruct (inv_started H R ring (read_depth o) frame c1 c2 h1 h2 r s6) as (HI & Ht & Hpr); try done.
  pose proof (started_geometry_ok H R ring _ frame h1 h2 Hd' Hm ltac:(lia)) as Hg.
  set (g := started_geometry H R ring (read_depth o) frame h1 h2) in *.
  eapply wp_mono; [apply (wp_drop_on_error g Hg live H R); try done; by apply wp_post_first_reads|].
  intros [| |[[]|x]] s7 w7 H7; try done. by exists g.
Qed.

(** The handles are no longer known exactly once waits are made. *)
Definition forgetting (g : geometry) : geometry :=
  {| g_ring := g_ring g; g_depth := g_depth g; g_rpe := g_rpe g; g_frame := g_frame g;
     g_first := g_first g; g_second := g_second g; g_handles := None;
     g_rings := g_rings g; g_running := g_running g |}.

Lemma forgetting_ok g : geometry_ok g → geometry_ok (forgetting g).
Proof. intros []. by split. Qed.

Lemma inv_forgetting g X s : inv g X s → inv (forgetting g) X s.
Proof. intros [F T H B R]. split; [by destruct F|by destruct T|by destruct H|done|done]. Qed.

Lemma settled_forgetting g s : settled g s → settled (forgetting g) s.
Proof. intros [HI Ht Ha]. split; [by apply inv_forgetting|done|done]. Qed.

(** The end of a run and of its run time. *)
Definition dropped (o : outcome unit) (s' : sys) : Prop :=
  match o with
  | Returned r => buffers s' = [] ∧ ∀ x, r = Err x → external x
  | _ => True
  end.

Lemma wp_run_and_drop g fuel s w : geometry_ok g → g_running g = true → settled g s →
  wp e (dropping (Runtime_run fuel)) (λ o s' _, dropped o s') s w.
Proof.
  intros Hg Hrun Hst. unfold dropping. apply wp_bind.
  eapply wp_mono; [apply (wp_Runtime_run (forgetting g)); try done;
    [by apply forgetting_ok|by apply settled_forgetting]|].
  intros [| |r] s1 w1 H1; [by apply wp_ret|done|]. destruct H1 as (Hh & Hx & _).
  apply wp_bind. eapply wp_mono; [by eapply wp_Runtime_drop|]. intros [] s2 w2 H2; apply wp_ret; [|done].
  split; [by apply H2|done].
Qed.

Lemma wp_run_switch fuel o first second H R s w : fits 64 (read_depth o) → blank H R s →
  wp e (run_switch fuel o first second) (λ out s' _, ∀ x, out = Returned (Err x) → external x) s w.
Proof.
  intros Hd HB. unfold run_switch. apply wp_bind. bare_call HB. intros added s1 w1 HB1 _.
  destruct (added =? 0); [apply wp_ret; intros x [= <-]; external_message|].
  apply wp_bind_outcome. eapply wp_mono; [by apply (wp_Runtime_start False)|].
  intros [| |[[]|x]] s2 w2 H2; try done; [|by destruct H2 as (_ & _ & Hx); intros y [= <-]].
  destruct H2 as (g & Hg & Hrun & Hst). apply wp_bind.
  eapply wp_mono; [by eapply wp_run_and_drop|]. intros [| |r] s3 w3 H3; [by apply wp_ret..|].
  destruct H3 as [_ Hx]. apply wp_bind. os_call. intros removed s4 Hk Ha. apply wp_ret.
  intros x [= ->]. by apply Hx.
Qed.

Lemma wp_run fuel args H R s w : blank H R s →
  wp e (run fuel args) (λ out s' _, ∀ x, out = Returned (Err x) →
    external x ∨ parse_arguments args = Parsed (Err x)) s w.
Proof.
  intros HB. unfold run. destruct (parse_arguments args) as [|[o|x]] eqn:Hargs.
  - by apply wp_ret.
  - destruct (accepted_options _ _ Hargs) as [(c1 & c2 & Ho) Hd]. rewrite Ho.
    eapply wp_index; [done|]. eapply wp_index; [done|].
    eapply wp_mono; [by eapply wp_run_switch|]. intros out s1 w1 Hx x Eo. left. by apply Hx.
  - apply wp_ret. intros y [= <-]. by right.
Qed.

Lemma wp_main fuel args H R s w : blank H R s →
  wp e (main fuel args) (λ code s' _, code = None ∨ code = Some 0 ∨ code = Some 1) s w.
Proof.
  intros HB. unfold main. apply wp_bind. eapply wp_mono; [by eapply wp_run|].
  intros [| |[[]|x]] s1 w1 _; [by apply wp_ret; auto..|]. apply wp_bind. os_call.
  intros [] s2 _ _. apply wp_ret. auto.
Qed.

End life.
