(* ===== verification/RuntimeErrors.v ===== *)
(** * Where the switch's errors come from

    What a call of the trace says about an error, and a calculus that follows
    the program from call to call: every error of [run] is a rejected option, is
    reported by a call since the start that failed, or is one of the checks that
    never fail ([external], proved with the invariant). *)

From S2P Require Import Prelude Words FrameParse Forwarding BufferPool Selection Completion.
From S2P Require Import Arguments Kernel Effects Runtime RuntimeLoop RuntimeStart RuntimeOps.

(** ** Failing calls and the errors that report them *)

Abbreviation trace := (world os_ret).

(** The HRESULT of a call. *)
Definition status_of (c : os_call) : os_ret c → option Z :=
  match c with
  | SubmitIoRing _ _ _ | BuildIoRingReadFile _ _ _ _ _ | BuildIoRingWriteFile _ _ _ _ _
  | BuildIoRingCancelRequest _ _ _ _ | BuildIoRingRegisterFileHandles _ _
  | BuildIoRingRegisterBuffers _ _ => λ status, Some status
  | CreateIoRing _ _ _ | QueryIoRingCapabilities => λ r, Some r.1
  | PopIoRingCompletion _ => λ r, Some r.1
  | _ => λ _, None
  end.

(** The messages that report an HRESULT of a call. *)
Definition status_messages (c : os_call) : list string :=
  match c with
  | SubmitIoRing _ _ _ => ["SubmitIoRing"; "SubmitIoRing wait"; "SubmitIoRing cancellation batch"]
  | BuildIoRingReadFile _ _ _ _ _ => ["BuildIoRingReadFile"; "BuildIoRingReadFile retry"]
  | BuildIoRingWriteFile _ _ _ _ _ => ["BuildIoRingWriteFile"; "BuildIoRingWriteFile retry"]
  | BuildIoRingCancelRequest _ _ _ _ => ["BuildIoRingCancelRequest"]
  | BuildIoRingRegisterFileHandles _ _ => ["BuildIoRingRegisterFileHandles"]
  | BuildIoRingRegisterBuffers _ _ => ["BuildIoRingRegisterBuffers"]
  | CreateIoRing _ _ _ => ["CreateIoRing"]
  | QueryIoRingCapabilities => ["QueryIoRingCapabilities"]
  | PopIoRingCompletion _ => ["PopIoRingCompletion"]
  | _ => []
  end%string.

(** A call that failed and left its error in [GetLastError]. *)
Definition sets_last_error (c : os_call) : os_ret c → bool :=
  match c with
  | CreateEventW => λ event, event =? 0
  | CreateFileW _ => λ handle, handle =? INVALID_HANDLE_VALUE
  | DeviceIoControl _ _ _ _ | GetOverlappedResult _ _ _ => λ r, r.1 =? 0
  | CancelIoEx _ _ | ResetEvent _ => λ r, r =? 0
  | WaitForMultipleObjects _ _ => λ r, r =? WAIT_FAILED
  | _ => λ _, false
  end.

(** The messages that report the last error of a call. *)
Definition last_error_messages (c : os_call) : list string :=
  match c with
  | CreateEventW => ["CreateEventW failed with error"; "adaptive enable failed with Win32 error"]
  | CreateFileW _ => ["CreateFileW failed with Win32 error"]
  | DeviceIoControl _ _ _ _ => ["WAIT_FOR_CHANGE failed with Win32 error"; "adaptive enable failed with Win32 error"]
  | GetOverlappedResult _ _ _ =>
      ["WAIT_FOR_CHANGE completion failed with Win32 error"; "draining WAIT_FOR_CHANGE rearm failed";
       "draining WAIT_FOR_CHANGE failed"; "adaptive enable failed with Win32 error"]
  | CancelIoEx _ _ => ["CancelIoEx for WAIT_FOR_CHANGE rearm failed"; "CancelIoEx for WAIT_FOR_CHANGE failed"]
  | ResetEvent _ => ["ResetEvent failed with Win32 error"]
  | WaitForMultipleObjects _ _ => ["WaitForMultipleObjects failed with error"]
  | _ => []
  end%string.

(** The bytes an I/O control returned. *)
Definition control_bytes (c : os_call) : os_ret c → option Z :=
  match c with
  | DeviceIoControl _ _ _ _ | GetOverlappedResult _ _ _ => λ r, if r.1 =? 0 then None else Some r.2
  | _ => λ _, None
  end.

Definition reserve_messages : list string :=
  ["buffer pool allocation failed"; "buffer registration allocation failed";
   "active operation allocation failed"; "cancellation tracking allocation failed"]%string.

(** The MTU of an adapter, in the interface table a call returned. *)
Definition mtu_row (t : Z * option (list (Guid * Z))) (mtu : Z) : Prop :=
  ∃ rows g, t.2 = Some rows ∧ (g, mtu) ∈ rows.

(** The latest call of the trace, or the latest two, report the error. *)
Inductive reports : trace → error → Prop :=
  | reports_status c r w text status :
      status_of c r = Some status → status ≠ S_OK → text ∈ status_messages c →
      reports (existT c r :: w) (Failure text [status])
  | reports_last_error c r w text code :
      sets_last_error c r = true → text ∈ last_error_messages c →
      reports (existT GetLastError code :: existT c r :: w) (Failure text [code])
  | reports_cleanup path w code :
      code = ERROR_BUSY ∨ code = ERROR_SHARING_VIOLATION →
      reports (existT GetLastError code :: existT (CreateFileW path) INVALID_HANDLE_VALUE :: w)
        (Failure "timed out waiting for endpoint cleanup" [CLEANUP_REOPEN_ATTEMPTS])
  | reports_completion ring status c w text :
      result_code c ≠ S_OK →
      text ∈ ["I/O-ring operation failed with HRESULT"; "I/O-ring cancellation failed with HRESULT";
              "I/O-ring registration"]%string →
      reports (existT (PopIoRingCompletion ring) (status, c) :: w) (Failure text [result_code c])
  | reports_busy ring status c w slot generation :
      is_device_busy (result_code c) = true → decode_completion (user_data c) = Ok (slot, generation) →
      reports (existT (PopIoRingCompletion ring) (status, c) :: w)
        (Failure "I/O-ring busy retry limit exceeded for slot" [slot])
  | reports_memory count w text : text ∈ reserve_messages →
      reports (existT (TryReserveExact count) false :: w) (Failure text [])
  | reports_pool_memory count w :
      reports (existT (TryReserveExact count) false :: w)
        (SlotFailure "buffer pool allocation failed" AllocationFailed)
  | reports_table t w : t.1 ≠ ERROR_SUCCESS →
      reports (existT GetIfTable2 t :: w) (Failure "GetIfTable2 failed with Win32 error" [t.1])
  | reports_no_table t w : t.2 = None →
      reports (existT GetIfTable2 t :: w) (Failure "GetIfTable2 returned a null table" [])
  | reports_no_adapter t rows g w : t.2 = Some rows → (∀ mtu, (g, mtu) ∉ rows) →
      reports (existT GetIfTable2 t :: w) (Failure "adapter GUID was not found in the interface table" [])
  | reports_mtu t mtu w : mtu_row t mtu → ¬ 1500 ≤ mtu ≤ 65521 →
      reports (existT GetIfTable2 t :: w) (Failure "endpoint MTU is outside supported limits" [mtu])
  | reports_mtus t1 t2 mtu1 mtu2 w1 w : mtu_row t1 mtu1 → mtu_row t2 mtu2 → mtu1 ≠ mtu2 →
      reports (existT GetIfTable2 t2 :: w1 ++ existT GetIfTable2 t1 :: w)
        (Failure "endpoint MTUs differ" [mtu1; mtu2])
  | reports_operations ring operation w :
      reports (existT (IsIoRingOpSupported ring operation) 0 :: w)
        (Failure "required I/O-ring capability unavailable" [])
  | reports_version status version w : version < IO_RING_BASELINE_VERSION →
      reports (existT QueryIoRingCapabilities (status, version) :: w)
        (Failure "required I/O-ring capability unavailable" [])
  | reports_enable_size c r bytes w :
      control_bytes c r = Some bytes → bytes ≠ size_of_AdaptiveEnableResponse →
      reports (existT c r :: w) (Failure "adaptive enable returned an invalid response size" [])
  (* the response itself is in memory, not in the trace *)
  | reports_response c r bytes interest satisfied w :
      control_bytes c r = Some bytes →
      validate_adaptive_wait_response bytes interest satisfied ≠ Ok tt →
      reports (existT c r :: w) (Failure "WAIT_FOR_CHANGE returned an invalid readiness response" [])
  | reports_wait handles milliseconds result w :
      result ≠ WAIT_TIMEOUT_RESULT → result ≠ WAIT_FAILED →
      ¬ WAIT_OBJECT_0 ≤ result < WAIT_OBJECT_0 + len handles →
      reports (existT (WaitForMultipleObjects handles milliseconds) result :: w)
        (Failure "WaitForMultipleObjects returned unexpected value" [result])
  | reports_handler w :
      reports (existT (SetConsoleCtrlHandler true) 0 :: w) (Failure "SetConsoleCtrlHandler failed" []).

(** An option [run] rejects. *)
Inductive rejected (o : options) : error → Prop :=
  | rejected_parity : read_depth o = 0 ∨ read_depth o mod 2 ≠ 0 →
      rejected o (Failure "read depth must be a positive even value" [])
  | rejected_depth : 2 ^ 31 < read_depth o →
      rejected o (Failure "read depth exceeds completion identity capacity" [])
  | rejected_waits : option_wait_operations o = 0 ∨ read_depth o < option_wait_operations o →
      rejected o (Failure "wait operations must be between 1 and read depth" [read_depth o]).

(** A slot was read [2^32 - 1] times. *)
Definition exhausted : error := SlotFailure "begin read" GenerationExhausted.

(** A call made since [w0] reports the error. *)
Definition since (w0 w : trace) (x : error) : Prop := ∃ l1 l2, w = l1 ++ l2 ++ w0 ∧ reports l2 x.

(** The origin of an error of a run from [w0] to [w]. *)
Fixpoint due (o : options) (w0 w : trace) (x : error) : Prop :=
  match x with
  | ShutdownFailed y z => due o w0 w y ∧ due o w0 w z
  | _ => rejected o x ∨ since w0 w x ∨ x = exhausted
  end.

(** ** The calculus *)

(** Every run of [m] from the trace [w] ends as [Q] says. *)
Definition tells {A} (m : P A) (Q : A → trace → Prop) (w : trace) : Prop :=
  ∀ e s a s' w', m e s w = Some (a, s', w') → Q a w'.

Lemma tells_mono {A} (m : P A) (Q Q' : A → trace → Prop) w :
  tells m Q w → (∀ a w', Q a w' → Q' a w') → tells m Q' w.
Proof. intros Hm HQ e s a s' w' Hr. eapply HQ, Hm, Hr. Qed.

Lemma tells_ret {A} (a : A) (Q : A → trace → Prop) w : Q a w → tells (mret a) Q w.
Proof. by intros HQ e s a' s' w' [= <- _ <-]. Qed.

Lemma tells_bind {A B} (m : P A) (f : A → P B) Q w :
  tells m (λ a w', tells (f a) Q w') w → tells (m ≫= f) Q w.
Proof.
  intros Hm e s b s' w' Hr. unfold mbind, M_bind in Hr.
  destruct (m e s w) as [[[a s1] w1]|] eqn:E; [|done]. eapply Hm; [exact E|exact Hr].
Qed.

Lemma tells_call c (Q : os_ret c → trace → Prop) w :
  (∀ r, Q r (existT c r :: w)) → tells (call c) Q w.
Proof. by intros HQ e s a s' w' [= <- _ <-]. Qed.

(** Steps that make no call. *)
Definition quiet {A} (m : P A) : Prop := ∀ e s w a s' w', m e s w = Some (a, s', w') → w' = w.

Lemma tells_quiet {A} (m : P A) (Q : A → trace → Prop) w : quiet m → (∀ a, Q a w) → tells m Q w.
Proof. intros Hm HQ e s a s' w' Hr. rewrite (Hm _ _ _ _ _ _ Hr). apply HQ. Qed.

Lemma quiet_ret {A} (a : A) : quiet (mret a : P A).
Proof. by intros e s w a' s' w' [= _ _ <-]. Qed.
Lemma quiet_bind {A B} (m : P A) (f : A → P B) : quiet m → (∀ a, quiet (f a)) → quiet (m ≫= f).
Proof.
  intros Hm Hf e s w b s' w' Hr. unfold mbind, M_bind in Hr.
  destruct (m e s w) as [[[a s1] w1]|] eqn:E; [|done]. rewrite (Hf _ _ _ _ _ _ _ Hr). by eapply Hm.
Qed.
Lemma quiet_get : quiet (get : P sys).
Proof. by intros e s w a s' w' [= _ _ <-]. Qed.
Lemma quiet_put s0 : quiet (put s0 : P unit).
Proof. by intros e s w a s' w' [= _ _ <-]. Qed.
Lemma quiet_undefined {A} : quiet (undefined : P A).
Proof. done. Qed.
Lemma quiet_option {A} (o : option A) : quiet (from_option o : P A).
Proof. destruct o; [apply quiet_ret|done]. Qed.

Ltac quiet_step :=
  first [ apply quiet_ret | apply quiet_get | apply quiet_put | apply quiet_undefined | apply quiet_option
        | apply quiet_bind; [|intros ?]
        | match goal with |- quiet (match ?x with _ => _ end) => destruct x end ].
Ltac quiet :=
  unfold self, update, index, set_index, set_active, set_cancellation, pool_call, read_buffer, free_buffers,
    not_outstanding, read_response, reset_response, update_stats, record_wait_submission, record_signaled_wake,
    record_empty_read, endpoint_for_slot, endpoint_at, set_wait, adaptive_interest_for_endpoint, index;
  repeat quiet_step.

(** Only calls are added to the trace. *)
Definition grows (w w' : trace) : Prop := ∃ l, w' = l ++ w.

Lemma trace_grows_refl w : grows w w.
Proof. by exists []. Qed.
Lemma grows_call w ev : grows w (ev :: w).
Proof. by exists [ev]. Qed.
Lemma grows_calls w ev1 ev2 : grows w (ev1 :: ev2 :: w).
Proof. by exists [ev1; ev2]. Qed.
Lemma grows_trans w1 w2 w3 : grows w1 w2 → grows w2 w3 → grows w1 w3.
Proof. intros [l1 ->] [l2 ->]. exists (l2 ++ l1). by rewrite app_assoc. Qed.
Ltac grow := cbn beta in *; solve [assumption | apply trace_grows_refl | apply grows_call | apply grows_calls | eapply grows_trans; [eassumption|assumption]
  | eapply grows_trans; [eassumption|first [apply grows_call | apply grows_calls]]].

Lemma since_grows w0 w w' x : grows w w' → since w0 w x → since w0 w' x.
Proof. intros [l ->] (l1 & l2 & -> & Hr). exists (l ++ l1), l2. by rewrite <- app_assoc. Qed.

(** The latest calls, all made since [w0], report the error. *)
Lemma since_now w0 w l x : grows w0 w → (∀ l', reports (l ++ l') x) → since w0 (l ++ w) x.
Proof. intros [l0 ->] Hr. exists [], (l ++ l0). split; [by rewrite <- app_assoc|apply Hr]. Qed.

Section calculus.
Context (o : options) (w0 : trace).

Fixpoint blamed (w : trace) (x : error) : Prop :=
  match x with
  | ShutdownFailed y z => blamed w y ∧ blamed w z
  | _ => rejected o x ∨ since w0 w x ∨ x = exhausted ∨ ¬ external x
  end.

Lemma blamed_grows w w' x : grows w w' → blamed w x → blamed w' x.
Proof.
  intros Hg. induction x as [text l|text y|y IHy z IHz]; cbn [blamed]; [..|intuition];
    (intros [?|[?|?]]; [by left|right; left; by eapply since_grows|by right; right]).
Qed.

(** What is left of [blamed] when the run time's own checks do not fail. *)
Lemma blamed_due w x : blamed w x → external x → due o w0 w x.
Proof.
  induction x as [text l|text y|y IHy z IHz]; cbn [blamed due]; [tauto..|].
  intros [Hy Hz] [Ey Ez]. split; auto.
Qed.

Lemma blamed_since w x : since w0 w x → blamed w x.
Proof.
  intros Hs. destruct x as [text l|text y|y z]; [by right; left..|]. destruct Hs as (l1 & l2 & _ & Hr). inversion Hr.
Qed.

Lemma blamed_internal w text l : text ∈ internal_messages → blamed w (Failure text l).
Proof. intros Ht. right. right. right. intros Hx. by apply Hx. Qed.

(** An error is blamed, and so is one in a result, or in an outcome. *)
Definition fine {A} (w : trace) (r : result A error) (w' : trace) : Prop :=
  grows w w' ∧ ∀ x, r = Err x → blamed w' x.
Definition ends_fine {A} (w : trace) (r : outcome A) (w' : trace) : Prop :=
  grows w w' ∧ ∀ x, r = Returned (Err x) → blamed w' x.

Lemma fine_Ok {A} (a : A) w w' : grows w w' → fine w (Ok a) w'.
Proof. by split. Qed.
Lemma fine_Err {A} x w w' : grows w w' → blamed w' x → fine w (Err x : result A error) w'.
Proof. split; [done|]. by intros y [= <-]. Qed.

Lemma fine_later {A} (m : P (result A error)) w w1 : grows w w1 → tells m (fine w1) w1 → tells m (fine w) w1.
Proof. intros Hg Hm. eapply tells_mono; [exact Hm|]. intros r w' [H1 H2]. split; [grow|done]. Qed.
Lemma ends_fine_later {A} (m : P (outcome A)) w w1 : grows w w1 → tells m (ends_fine w1) w1 → tells m (ends_fine w) w1.
Proof. intros Hg Hm. eapply tells_mono; [exact Hm|]. intros r w' [H1 H2]. split; [grow|done]. Qed.

Lemma tells_ok {A B} (m : P (result A error)) (f : A → P (result B error)) Q w :
  tells m (λ r w', match r with Ok a => tells (f a) Q w' | Err x => Q (Err x) w' end) w → tells (bind_ok f m) Q w.
Proof.
  intros Hm. apply tells_bind. eapply tells_mono; [exact Hm|]. intros [a|x] w' H; [done|]. by apply tells_ret.
Qed.

Lemma tells_try {A B} (m : P (outcome A)) (f : A → P (outcome B)) Q w :
  tells m (λ r w', match r with
                   | Running => Q Running w' | Aborted => Q Aborted w'
                   | Returned (Ok a) => tells (f a) Q w' | Returned (Err x) => Q (Returned (Err x)) w'
                   end) w → tells (bind_outcome f m) Q w.
Proof.
  intros Hm. apply tells_bind. eapply tells_mono; [exact Hm|].
  intros [| |[a|x]] w' H; [by apply tells_ret..|done|by apply tells_ret].
Qed.

(** *** One step: the base of the trace moves along *)

Lemma then_quiet {A B} (m : P A) (f : A → P (result B error)) w :
  quiet m → (∀ a, tells (f a) (fine w) w) → tells (m ≫= f) (fine w) w.
Proof. intros Hm Hf. by apply tells_bind, tells_quiet. Qed.
Lemma then_quiet_out {A B} (m : P A) (f : A → P (outcome B)) w :
  quiet m → (∀ a, tells (f a) (ends_fine w) w) → tells (m ≫= f) (ends_fine w) w.
Proof. intros Hm Hf. by apply tells_bind, tells_quiet. Qed.

(** A part that reports nothing. *)
Definition silent {A} (m : P A) : Prop := ∀ w, tells m (λ _ w', grows w w') w.

Lemma silent_quiet {A} (m : P A) : quiet m → silent m.
Proof. intros Hm w. apply tells_quiet; [done|]. intros a. grow. Qed.
Lemma call_silent c : silent (call c).
Proof. intros w. apply tells_call. intros r. grow. Qed.
Lemma silent_bind {A B} (m : P A) (f : A → P B) : silent m → (∀ a, silent (f a)) → silent (m ≫= f).
Proof.
  intros Hm Hf w. apply tells_bind. eapply tells_mono; [apply Hm|]. intros a w1 H1.
  eapply tells_mono; [apply Hf|]. intros b w2 H2. grow.
Qed.

Lemma then_silent {A B} (m : P A) (f : A → P (result B error)) w : silent m → grows w0 w →
  (∀ a w1, grows w w1 → grows w0 w1 → tells (f a) (fine w1) w1) → tells (m ≫= f) (fine w) w.
Proof.
  intros Hm Hg Hf. apply tells_bind. eapply tells_mono; [apply Hm|]. intros a w1 H1.
  apply fine_later; [done|]. apply Hf; [done|]. grow.
Qed.
Lemma then_silent_out {A B} (m : P A) (f : A → P (outcome B)) w : silent m → grows w0 w →
  (∀ a w1, grows w w1 → grows w0 w1 → tells (f a) (ends_fine w1) w1) → tells (m ≫= f) (ends_fine w) w.
Proof.
  intros Hm Hg Hf. apply tells_bind. eapply tells_mono; [apply Hm|]. intros a w1 H1.
  apply ends_fine_later; [done|]. apply Hf; [done|]. grow.
Qed.

Lemma then_call {B} c (f : os_ret c → P (result B error)) w : grows w0 w →
  (∀ r, grows w0 (existT c r :: w) → tells (f r) (fine (existT c r :: w)) (existT c r :: w)) →
  tells (call c ≫= f) (fine w) w.
Proof.
  intros Hg Hf. apply tells_bind, tells_call. intros r. apply fine_later; [grow|]. apply Hf.
  grow.
Qed.
Lemma then_call_out {B} c (f : os_ret c → P (outcome B)) w : grows w0 w →
  (∀ r, grows w0 (existT c r :: w) → tells (f r) (ends_fine (existT c r :: w)) (existT c r :: w)) →
  tells (call c ≫= f) (ends_fine w) w.
Proof.
  intros Hg Hf. apply tells_bind, tells_call. intros r. apply ends_fine_later; [grow|]. apply Hf.
  grow.
Qed.

Lemma then_ok {A B} (m : P (result A error)) (f : A → P (result B error)) w : grows w0 w →
  tells m (fine w) w → (∀ a w1, grows w w1 → grows w0 w1 → tells (f a) (fine w1) w1) →
  tells (bind_ok f m) (fine w) w.
Proof.
  intros Hg Hm Hf. apply tells_ok. eapply tells_mono; [exact Hm|]. intros [a|x] w1 [H1 Hx].
  - apply fine_later; [done|]. apply Hf; [done|]. grow.
  - apply fine_Err; [grow|auto].
Qed.
Lemma then_try {A B} (m : P (outcome A)) (f : A → P (outcome B)) w : grows w0 w →
  tells m (ends_fine w) w → (∀ a w1, grows w w1 → grows w0 w1 → tells (f a) (ends_fine w1) w1) →
  tells (bind_outcome f m) (ends_fine w) w.
Proof.
  intros Hg Hm Hf. apply tells_try. eapply tells_mono; [exact Hm|]. intros [| |[a|x]] w1 [H1 Hx]; [by split..| |].
  - apply ends_fine_later; [done|]. apply Hf; [done|]. grow.
  - split; [done|]. intros y [= <-]. auto.
Qed.

Lemma fine_returned {A} (m : P (result A error)) w : tells m (fine w) w → tells (returned m) (ends_fine w) w.
Proof.
  intros Hm. apply tells_bind. eapply tells_mono; [exact Hm|]. intros r w1 [H1 Hx]. apply tells_ret.
  split; [done|]. intros x [= ->]. auto.
Qed.

(** A computation that makes no call and may fail. *)
Lemma then_pure {A B} (r : result A error) (f : A → P (result B error)) w :
  (∀ x, r = Err x → blamed w x) → (∀ a, r = Ok a → tells (f a) (fine w) w) →
  tells (bind_ok f (mret r)) (fine w) w.
Proof.
  intros Hx Hf. apply tells_ok, tells_ret. destruct r as [a|x]; [by apply Hf|]. apply fine_Err; [grow|auto].
Qed.

Lemma tells_fine_ret {A} (r : result A error) w : (∀ x, r = Err x → blamed w x) → tells (mret r) (fine w) w.
Proof. intros Hx. apply tells_ret. split; [grow|done]. Qed.

(** *** Loops *)

Lemma fine_for_each {A} (l : list A) body w : grows w0 w →
  (∀ x w, grows w0 w → tells (body x) (fine w) w) → tells (for_each l body) (fine w) w.
Proof.
  intros Hg Hb. revert w Hg. induction l as [|x l IH]; intros w Hg; cbn [for_each]; [apply tells_ret, fine_Ok; grow|].
  apply then_ok; [done|by apply Hb|]. intros [] w1 _ H1. by apply IH.
Qed.

Lemma fine_forever {A B} (I : A → trace → Prop) fuel (body : A → P (outcome (A + B))) (Q : B → trace → Prop) a w :
  grows w0 w → I a w →
  (∀ a w, grows w0 w → I a w → tells (body a) (λ r w', ends_fine w r w' ∧
     match r with Returned (Ok (inl a)) => I a w' | Returned (Ok (inr b)) => Q b w' | _ => True end) w) →
  tells (forever fuel body a) (λ r w', ends_fine w r w' ∧
    match r with Returned (Ok b) => Q b w' | _ => True end) w.
Proof.
  intros Hg HI Hb. revert a w Hg HI. induction fuel as [|fuel IH]; intros a w Hg HI; cbn [forever].
  { by apply tells_ret. }
  apply tells_try. eapply tells_mono; [by apply Hb|]. intros [| |[[a1|b]|x]] w1 [[H1 Hx] Hr]; [by repeat split..| | |].
  - eapply tells_mono; [apply IH; [grow|done]|]. intros r w2 [[H2 Hy] HQ]. split; [|done].
    split; [grow|done].
  - by apply tells_ret.
  - split; [|done]. split; [done|]. intros y [= <-]. auto.
Qed.
(** ** The operations of the run time *)

Lemma blamed_slot w text y : text ∉ ["begin read"; "buffer pool allocation failed"]%string →
  blamed w (SlotFailure text y).
Proof. intros Ht. right. right. right. intros [[-> _]|[-> _]]; set_solver. Qed.

Ltac message := apply (bool_decide_unpack _); vm_compute; exact I.
Ltac internal := first [apply blamed_internal; message | apply blamed_slot; message].

Lemma blamed_first w first next : (∀ x, first = Some x → blamed w x) → (∀ x, next = Some x → blamed w x) →
  ∀ x, or_first first next = Some x → blamed w x.
Proof. destruct first; auto. Qed.

Lemma blamed_later {A} (r : A → option error) a w w1 : grows w w1 →
  (∀ x, r a = Some x → blamed w x) → ∀ x, r a = Some x → blamed w1 x.
Proof. intros Hg H x Hx. by eapply blamed_grows, H. Qed.

(** The call just made reports the error. *)
Lemma blamed_call w ev x : grows w0 w → (∀ l, reports (ev :: l) x) → blamed (ev :: w) x.
Proof. intros Hg Hr. apply blamed_since, (since_now _ _ [ev]); [done|]. exact Hr. Qed.
Lemma blamed_last_error w code ev x : grows w0 w → (∀ l, reports (existT GetLastError code :: ev :: l) x) →
  blamed (existT GetLastError code :: ev :: w) x.
Proof. intros Hg Hr. apply blamed_since, (since_now _ _ [_; ev]); [done|]. exact Hr. Qed.

Lemma fine_pool {A} (f : BufferPool → BufferPool * result A SlotError) text w :
  text ∉ ["begin read"; "buffer pool allocation failed"]%string → tells (pool_call f text) (fine w) w.
Proof.
  intros Ht. unfold pool_call. apply then_quiet; [quiet|]. intros r. destruct (f (pool r)) as [p [a|y]];
    (apply then_quiet; [quiet|]); intros []; apply tells_fine_ret; [done|]. intros x [= <-]. by apply blamed_slot.
Qed.

Lemma fine_begin_read slot w : tells (pool_call (λ p, begin_read p slot) "begin read") (fine w) w.
Proof.
  unfold pool_call. apply then_quiet; [quiet|]. intros r. destruct (begin_read (pool r) slot) as [p [a|y]];
    (apply then_quiet; [quiet|]); intros []; apply tells_fine_ret; [done|]. intros x [= <-].
  destruct y; try (right; right; right; intros [[_ ?]|[? _]]; discriminate). right. right. by left.
Qed.

Lemma then_hr {B} c (m : P Z) text (f : unit → P (result B error)) w : grows w0 w →
  (∀ Q, (∀ r status, status_of c r = Some status → Q status (existT c r :: w)) → tells m Q w) →
  text ∈ status_messages c →
  (∀ w1, grows w w1 → grows w0 w1 → tells (f tt) (fine w1) w1) → tells (bind_ok f (hr text m)) (fine w) w.
Proof.
  intros Hg Hm Ht Hf. apply then_ok; [done| |intros [] w1; apply Hf].
  unfold hr. apply tells_bind, Hm. intros r status Hs. apply tells_ret.
  unfold check_hr. destruct (Z.eqb_spec status S_OK); [apply fine_Ok; grow|].
  apply fine_Err; [grow|]. apply blamed_call; [done|]. intros l. by eapply reports_status.
Qed.

Ltac step_call :=
  lazymatch goal with
  | |- tells (@mbind _ _ _ _ ?f (do_call ?c)) (fine ?w) _ => refine (then_call c f w _ _); [assumption|]
  | |- tells (@mbind _ _ _ _ ?f (do_call ?c)) (ends_fine ?w) _ => refine (then_call_out c f w _ _); [assumption|]
  end.

Ltac hr_call c :=
  apply (then_hr c);
  [assumption|let Q := fresh in let HQ := fresh in intros Q HQ; refine (tells_call c Q _ _); intros ?; by apply HQ
  |message|intros ? ? ?].

Lemma fine_encode slot generation w : ∀ x, encode_completion slot generation = Err x → blamed w x.
Proof. intros x. unfold encode_completion. repeat split_if; intros [= <-]; internal. Qed.

Lemma fine_decode value w : ∀ x, decode_completion value = Err x → blamed w x.
Proof. intros x. unfold decode_completion. repeat split_if; intros [= <-]; internal. Qed.

Lemma fine_post_read slot w : grows w0 w → tells (post_read slot) (fine w) w.
Proof.
  intros Hg. unfold post_read. apply then_ok; [done|apply fine_begin_read|]. intros completion w1 _ H1.
  apply then_quiet; [quiet|]. intros endpoint. apply then_quiet; [quiet|]. intros r.
  apply then_pure; [apply fine_encode|]. intros u _.
  hr_call (BuildIoRingReadFile (ring r) (handle endpoint) (wrap 32 slot) (wrap 32 (frame_maximum r)) u).
  apply then_pure; [apply fine_encode|]. intros u' _. apply then_quiet; [quiet|]. intros [].
  by apply tells_fine_ret.
Qed.

Lemma fine_submit w : grows w0 w → tells submit_pending_operations (fine w) w.
Proof.
  intros Hg. unfold submit_pending_operations. apply then_quiet; [quiet|]. intros r.
  hr_call (SubmitIoRing (ring r) 0 0). apply then_quiet; [quiet|]. intros []. by apply tells_fine_ret.
Qed.

Lemma fine_wait w : grows w0 w → tells wait_for_completion (fine w) w.
Proof.
  intros Hg. unfold wait_for_completion. apply then_quiet; [quiet|]. intros r. step_call.
  intros status H1. cbn in status. destruct (status =? WAIT_TIMEOUT); apply tells_fine_ret; [done|].
  intros x. unfold check_hr. destruct (Z.eqb_spec status S_OK); [done|]. intros [= <-].
  apply blamed_call; [done|]. intros l. eapply reports_status; [done|done|message].
Qed.

(** A completion that was just popped. *)
Definition popped (c : IoRingCompletion) (w : trace) : Prop :=
  ∃ ring status w1, w = existT (PopIoRingCompletion ring) (status, c) :: w1 ∧ grows w0 w1.

Lemma blamed_completion c w text : popped c w → result_code c ≠ S_OK →
  text ∈ ["I/O-ring operation failed with HRESULT"; "I/O-ring cancellation failed with HRESULT";
          "I/O-ring registration"]%string → blamed w (Failure text [result_code c]).
Proof.
  intros (ring & status & w1 & -> & Hg) Hc Ht. apply blamed_call; [done|]. intros l. by apply reports_completion.
Qed.

Lemma fine_validate c w : tells (validate_completion c) (λ r w', w' = w ∧
  match r with
  | Ok (slot, generation, _) => decode_completion (user_data c) = Ok (slot, generation)
  | Err x => blamed w x
  end) w.
Proof.
  unfold validate_completion. apply tells_bind, tells_quiet; [quiet|]. intros r. apply tells_ok, tells_ret.
  destruct (decode_completion (user_data c)) as [[slot generation]|x] eqn:Hd; [|split; [done|by eapply fine_decode]].
  destruct (len (active r) <=? slot); [apply tells_ret; split; [done|internal]|].
  apply tells_bind, tells_quiet; [quiet|]. intros [a|]; [|apply tells_ret; split; [done|internal]].
  destruct (_ || _); apply tells_ret; (split; [done|]); [internal|done].
Qed.

Lemma fine_retry slot c w : popped c w → is_device_busy (result_code c) = true →
  (∃ generation, decode_completion (user_data c) = Ok (slot, generation)) →
  grows w0 w → tells (retry_busy_operation slot) (fine w) w.
Proof.
  intros Hp Hb [generation Hd] Hg. unfold retry_busy_operation. apply then_quiet; [quiet|]. intros r.
  apply then_quiet; [quiet|]. intros [a|]; [|apply tells_fine_ret; intros x [= <-]; internal].
  destruct (negb (submitted a)); [apply tells_fine_ret; intros x [= <-]; internal|].
  destruct (MAX_BUSY_RETRIES <=? busy_retries a).
  - apply then_ok; [done|apply fine_pool; message|]. intros [] w1 G1 H1. apply then_quiet; [quiet|]. intros [].
    apply tells_fine_ret. intros x [= <-]. eapply blamed_grows; [exact G1|].
    destruct Hp as (ring & status & w2 & -> & Hg2). apply blamed_call; [done|]. intros l. by eapply reports_busy.
  - apply then_quiet; [quiet|]. intros []. step_call. intros [] H1.
    set (a' := a <| queued := false |> <| submitted := false |>
                 <| busy_retries := saturating_add 32 (busy_retries a) 1 |>).
    assert (∀ w2 k, (∀ w3, grows w0 w3 → tells (k tt) (fine (A := unit) w3) w3) → grows w0 w2 →
      tells (bind_ok k (hr (if is_write a' then "BuildIoRingWriteFile retry"%string else "BuildIoRingReadFile retry"%string)
        (if is_write a'
         then call (BuildIoRingWriteFile (ring r) (op_handle a') (wrap 32 slot) (op_length a') (op_user_data a'))
         else call (BuildIoRingReadFile (ring r) (op_handle a') (wrap 32 slot) (op_length a') (op_user_data a')))))
        (fine w2) w2) as Hbuild.
    { intros w2 k Hk Hg2. destruct (is_write a').
      - hr_call (BuildIoRingWriteFile (ring r) (op_handle a') (wrap 32 slot) (op_length a') (op_user_data a')). auto.
      - hr_call (BuildIoRingReadFile (ring r) (op_handle a') (wrap 32 slot) (op_length a') (op_user_data a')). auto. }
    apply Hbuild; [|done]. intros w3 H3. apply then_quiet; [quiet|]. intros r2. apply then_quiet; [quiet|].
    intros [a2|]; [|apply tells_fine_ret; intros x [= <-]; internal].
    apply then_quiet; [quiet|]. intros []. by apply tells_fine_ret.
Qed.

Lemma fine_dispatched c slot text w : text ∉ ["begin read"; "buffer pool allocation failed"]%string →
  grows w0 w → tells (dispatched c slot text) (fine w) w.
Proof.
  intros Ht Hg. unfold dispatched. apply then_ok; [done|by apply fine_pool|]. intros [] w1 _ H1. by apply fine_post_read.
Qed.

Lemma fine_write_frame destination c slot generation length w : grows w0 w →
  tells (write_frame destination c slot generation length) (fine w) w.
Proof.
  intros Hg. unfold write_frame. apply then_quiet; [quiet|]. intros r. apply then_quiet; [quiet|]. intros first.
  apply then_quiet; [quiet|]. intros peer. apply then_ok; [done|apply fine_pool; message|]. intros [] w1 _ H1.
  apply then_pure; [apply fine_encode|]. intros u _.
  hr_call (BuildIoRingWriteFile (ring r) peer (wrap 32 slot) (wrap 32 length) u).
  apply then_pure; [apply fine_encode|]. intros u' _. apply then_quiet; [quiet|]. intros []. by apply tells_fine_ret.
Qed.

Lemma fine_dispatch_read sw c slot generation length w : grows w0 w →
  tells (dispatch_read sw c slot generation length) (fine w) w.
Proof.
  intros Hg. unfold dispatch_read. apply then_ok; [done|apply fine_pool; message|]. intros [] w1 _ H1.
  apply then_quiet; [quiet|]. intros endpoint. apply then_quiet; [quiet|]. intros r.
  assert (∀ sw' text, text ∉ ["begin read"; "buffer pool allocation failed"]%string →
    tells (_ ←? dispatched c slot text; mret (Ok sw') : P (result Switch error)) (fine w1) w1) as Hdone.
  { intros sw' text Ht. apply then_ok; [done|by apply fine_dispatched|]. intros [] w2 _ _. by apply tells_fine_ret. }
  destruct (length <=? frame_maximum r); [|apply Hdone; message].
  apply then_quiet; [quiet|]. intros frame. apply then_quiet; [quiet|]. intros [sw' [[|destination l]|[]]].
  - apply Hdone; message.
  - apply then_ok; [done|by apply fine_write_frame|]. intros [] w2 _ _. by apply tells_fine_ret.
  - apply Hdone; message.
  - apply tells_fine_ret. intros x [= <-]. internal.
Qed.

Lemma fine_process sw c w : popped c w → grows w0 w → tells (process_completion sw c) (fine w) w.
Proof.
  intros Hp Hg. unfold process_completion. apply tells_ok. eapply tells_mono; [apply fine_validate|].
  intros [[[slot generation] is_write]|x] w1 [-> Hd]; [|apply fine_Err; [grow|done]].
  destruct (is_device_busy (result_code c)) eqn:Hb.
  { apply then_ok; [done|by eapply fine_retry; eauto|]. intros [] w1 _ _. by apply tells_fine_ret. }
  apply then_quiet; [quiet|]. intros []. apply then_quiet; [quiet|]. intros r.
  destruct (adaptive_polling r && negb is_write && is_no_more_entries (result_code c)).
  { apply then_ok; [done|apply fine_pool; message|]. intros [] w1 _ _. apply then_quiet; [quiet|]. intros [].
    by apply tells_fine_ret. }
  destruct (Z.eqb_spec (result_code c) S_OK) as [|Hc]; cbn [negb].
  2: { apply then_ok; [done|apply fine_pool; message|]. intros [] w1 G1 _. apply tells_fine_ret. intros x [= <-].
       eapply blamed_grows; [exact G1|]. apply blamed_completion; [done|done|message]. }
  destruct is_write.
  - apply then_ok; [done|apply fine_pool; message|]. intros [] w1 _ H1.
    apply then_ok; [done|by apply fine_post_read|]. intros [] w2 _ _. by apply tells_fine_ret.
  - apply then_ok; [done|by apply fine_dispatch_read|]. intros sw' w2 _ _. by apply tells_fine_ret.
Qed.

(** ** Adaptive waits *)

(** The call that was just made failed, and is asked for its error. *)
Lemma fine_win32 {A} text c r w : grows w0 w → sets_last_error c r = true → text ∈ last_error_messages c →
  tells (win32 text : P (result A error)) (fine (existT c r :: w)) (existT c r :: w).
Proof.
  intros Hg Hf Ht. unfold win32. apply tells_bind. refine (tells_call GetLastError _ _ _). intros code.
  apply tells_ret, fine_Err; [grow|]. apply blamed_last_error; [done|]. intros l. by apply reports_last_error.
Qed.

(** The error of the failed call, unless it is to be expected. *)
Lemma then_last_error {B} text c r (expected : Z → bool) (f : unit → P (result B error)) w :
  grows w0 w → sets_last_error c r = true → text ∈ last_error_messages c →
  (∀ w1, grows w0 w1 → tells (f tt) (fine w1) w1) →
  tells (bind_ok f (error ← call GetLastError; mret (if expected error then Ok tt else Err (Failure text [error]))))
    (fine (existT c r :: w)) (existT c r :: w).
Proof.
  intros Hg Hf Ht Hk. apply then_ok; [grow| |intros [] w1 _; apply Hk].
  apply tells_bind. refine (tells_call GetLastError _ _ _). intros code. apply tells_ret.
  destruct (expected code); [apply fine_Ok; grow|]. apply fine_Err; [grow|].
  apply blamed_last_error; [done|]. intros l. by apply reports_last_error.
Qed.

Lemma fine_AdaptiveWait_new w : grows w0 w → tells AdaptiveWait_new (fine w) w.
Proof.
  intros Hg. unfold AdaptiveWait_new. step_call. intros event H1. cbn in event.
  destruct (event =? 0) eqn:He; [|by apply tells_fine_ret]. apply fine_win32; [done|done|message].
Qed.

Lemma fine_rearm i e wait w : grows w0 w → tells (rearm i e wait) (fine w) w.
Proof.
  intros Hg. unfold rearm. step_call. intros cancelled H1. cbn in cancelled.
  assert (∀ w, grows w0 w → tells (
    drained ← call (GetOverlappedResult (handle e) (WaitOf i) true);
    _ ←? (if drained.1 =? 0 then
            error ← call GetLastError;
            mret (if (error =? ERROR_OPERATION_ABORTED) || (error =? ERROR_NOT_FOUND) then Ok tt
                  else Err (Failure "draining WAIT_FOR_CHANGE rearm failed" [error]))
          else mret (Ok tt));
    let wait := wait <| pending := false |> in
    _ ← set_wait i wait;
    mret (Ok wait)) (fine w) w) as Hdrain.
  { clear. intros w Hg. step_call. intros drained H1. cbn in drained.
    assert (∀ w1, tells (set_wait i (wait <| pending := false |>);;
      mret (Ok (wait <| pending := false |>)) : P (result AdaptiveWait error)) (fine w1) w1) as Hend.
    { intros w1. apply then_quiet; [quiet|]. intros []. by apply tells_fine_ret. }
    destruct (drained.1 =? 0) eqn:Hr.
    - apply (then_last_error _ _ _ (λ error, (error =? ERROR_OPERATION_ABORTED) || (error =? ERROR_NOT_FOUND)));
        [done|done|message|]. intros w1 _. apply Hend.
    - apply then_pure; [done|]. intros [] _. apply Hend. }
  destruct (cancelled =? 0) eqn:Hc.
  - apply (then_last_error _ _ _ (λ error, error =? ERROR_NOT_FOUND)); [done|done|message|]. exact Hdrain.
  - apply then_pure; [done|]. intros [] _. by apply Hdrain.
Qed.

(** The response of a wait that a control call has just completed. *)
Lemma blamed_response c r bytes interest satisfied w : grows w0 w → control_bytes c r = Some bytes →
  ∀ x, validate_adaptive_wait_response bytes interest satisfied = Err x → blamed (existT c r :: w) x.
Proof.
  intros Hg Hb x Hx. assert (x = Failure "WAIT_FOR_CHANGE returned an invalid readiness response" []) as ->.
  { revert Hx. unfold validate_adaptive_wait_response. split_if; congruence. }
  apply blamed_call; [done|]. intros l. eapply reports_response; [exact Hb|]. by rewrite Hx.
Qed.

Lemma fine_request_wait i e wait interest w : grows w0 w → tells (request_wait i e wait interest) (fine w) w.
Proof.
  intros Hg. unfold request_wait. step_call. intros completed H1. cbn in completed.
  destruct (completed.1 =? 0) eqn:Hc; cbn [negb].
  - apply tells_bind. refine (tells_call GetLastError _ _ _). intros code. cbn in code.
    destruct (code =? ERROR_IO_PENDING).
    + apply tells_bind, tells_quiet; [quiet|]. intros []. apply tells_ret, fine_Ok. grow.
    + apply tells_ret, fine_Err; [grow|]. apply blamed_last_error; [done|]. intros l.
      apply reports_last_error; [done|message].
  - apply then_quiet; [quiet|]. intros satisfied. apply then_pure; [|intros [] _; by apply tells_fine_ret].
    apply blamed_response; [done|]. cbn. by rewrite Hc.
Qed.

Lemma fine_start_wait i e wait interest w : grows w0 w → tells (start_wait i e wait interest) (fine w) w.
Proof.
  intros Hg. unfold start_wait. apply then_quiet; [quiet|]. intros []. apply then_quiet; [quiet|]. intros [].
  step_call. intros reset H1. cbn in reset. destruct (reset =? 0) eqn:Hr; [|by apply fine_request_wait].
  apply fine_win32; [done|done|message].
Qed.

Lemma fine_submit_adaptive_wait i interest w : grows w0 w → tells (submit_adaptive_wait i interest) (fine w) w.
Proof.
  intros Hg. unfold submit_adaptive_wait. apply then_ok; [done|by apply fine_AdaptiveWait_new|]. intros fresh w1 _ H1.
  apply then_quiet; [quiet|]. intros e. apply then_quiet; [quiet|]. intros [].
  destruct (_ && _); [by apply tells_fine_ret|]. apply then_ok; [done| |intros wait w2 _ H2; by apply fine_start_wait].
  destruct (pending _); [by apply fine_rearm|by apply tells_fine_ret].
Qed.

Lemma fine_complete_adaptive_wait i w : grows w0 w → tells (complete_adaptive_wait i) (fine w) w.
Proof.
  intros Hg. unfold complete_adaptive_wait. apply then_quiet; [quiet|]. intros e. apply then_quiet; [quiet|].
  intros wait. destruct (negb (pending wait)); [by apply tells_fine_ret|]. step_call. intros result H1. cbn in result.
  destruct (result.1 =? 0) eqn:Hr; [apply fine_win32; [done|done|message]|].
  apply then_quiet; [quiet|]. intros []. apply then_quiet; [quiet|]. intros satisfied. apply tells_fine_ret.
  apply blamed_response; [done|]. cbn. by rewrite Hr.
Qed.

(** The first error of several steps. *)
Definition fine_first (w : trace) (first : option error) (w' : trace) : Prop :=
  grows w w' ∧ ∀ x, first = Some x → blamed w' x.

Definition first_fine (first : option error) (w : trace) : Prop := ∀ x, first = Some x → blamed w x.

Lemma first_fine_grows first w w1 : grows w w1 → first_fine first w → first_fine first w1.
Proof. intros Hg H x Hx. by eapply blamed_grows, H. Qed.

Lemma fine_cancel_one i first w : grows w0 w → first_fine first w →
  tells (cancel_one i first) (fine_first w) w.
Proof.
  intros Hg Hf. unfold cancel_one. apply tells_bind, tells_quiet; [quiet|]. intros e.
  assert (tells (mret first) (fine_first w) w) as Hend by (apply tells_ret; split; [grow|done]).
  destruct (adaptive_wait e) as [wait|]; [|done]. destruct (negb (pending wait)); [done|].
  apply tells_bind. refine (tells_call (CancelIoEx (handle e) (WaitOf i)) _ _ _). intros cancelled. cbn in cancelled.
  destruct (cancelled =? 0) eqn:Hc.
  2: { apply tells_ret. split; [grow|]. eapply first_fine_grows; [|exact Hf]. grow. }
  apply tells_bind. refine (tells_call GetLastError _ _ _). intros code. apply tells_ret. split; [grow|].
  assert (first_fine first (existT GetLastError code :: existT (CancelIoEx (handle e) (WaitOf i)) cancelled :: w)) as Hf2
    by (eapply first_fine_grows; [|exact Hf]; grow).
  cbn in code. destruct (code =? ERROR_NOT_FOUND); [exact Hf2|]. apply blamed_first; [exact Hf2|]. intros x [= <-].
  apply blamed_last_error; [done|]. intros l. apply reports_last_error; [done|message].
Qed.

Lemma fine_drain_one i first w : grows w0 w → first_fine first w →
  tells (drain_one i first) (fine_first w) w.
Proof.
  intros Hg Hf. unfold drain_one. apply tells_bind, tells_quiet; [quiet|]. intros e.
  assert (tells (mret first) (fine_first w) w) as Hend by (apply tells_ret; split; [grow|done]).
  destruct (adaptive_wait e) as [wait|]; [|done]. destruct (negb (pending wait)); [done|].
  apply tells_bind. refine (tells_call (GetOverlappedResult (handle e) (WaitOf i) true) _ _ _). intros result. cbn in result.
  apply tells_bind. destruct (result.1 =? 0) eqn:Hr.
  2: { apply tells_ret, tells_bind, tells_quiet; [quiet|]. intros []. apply tells_ret. split; [grow|].
       eapply first_fine_grows; [|exact Hf]. grow. }
  apply tells_bind. refine (tells_call GetLastError _ _ _). intros code. cbn in code.
  apply tells_ret, tells_bind, tells_quiet; [quiet|]. intros []. apply tells_ret. split; [grow|].
  assert (first_fine first (existT GetLastError code :: existT (GetOverlappedResult (handle e) (WaitOf i) true) result :: w)) as Hf2
    by (eapply first_fine_grows; [|exact Hf]; grow).
  destruct (code =? ERROR_OPERATION_ABORTED); [exact Hf2|]. apply blamed_first; [exact Hf2|]. intros x [= <-].
  apply blamed_last_error; [done|]. intros l. apply reports_last_error; [done|message].
Qed.

Lemma fine_cancel_adaptive_waits w : grows w0 w → tells cancel_adaptive_waits (fine_first w) w.
Proof.
  intros Hg. unfold cancel_adaptive_waits.
  apply tells_bind. eapply tells_mono; [by apply fine_cancel_one|]. intros f1 w1 [G1 F1]. assert (grows w0 w1) as H1 by grow.
  apply tells_bind. eapply tells_mono; [by apply fine_cancel_one|]. intros f2 w2 [G2 F2]. assert (grows w0 w2) as H2 by grow.
  apply tells_bind. eapply tells_mono; [by apply fine_drain_one|]. intros f3 w3 [G3 F3]. assert (grows w0 w3) as H3 by grow.
  eapply tells_mono; [by apply fine_drain_one|]. intros f4 w4 [G4 F4]. split; [|done].
  apply (grows_trans _ w1); [done|]. apply (grows_trans _ w2); [done|]. grow.
Qed.

Lemma fine_submit_one i acc w : grows w0 w → tells (submit_one i acc) (fine w) w.
Proof.
  intros Hg. unfold submit_one. apply then_quiet; [quiet|]. intros interest.
  apply then_ok; [done|by apply fine_submit_adaptive_wait|]. intros ready w1 _ H1.
  destruct ready; [by apply tells_fine_ret|]. apply then_quiet; [quiet|]. intros e. apply then_quiet; [quiet|].
  intros wait. by apply tells_fine_ret.
Qed.

Lemma silent_elapsed since : silent (elapsed since).
Proof. unfold elapsed. apply silent_bind; [apply (call_silent InstantNow)|]. intros now. apply silent_quiet; quiet. Qed.

Lemma silent_report force : silent (report force).
Proof.
  unfold report. apply silent_bind; [apply silent_quiet; quiet|]. intros r.
  destruct (negb (enabled (stats r))); [apply silent_quiet; quiet|]. apply silent_bind.
  { destruct force; [apply silent_quiet; quiet|]. apply silent_bind; [apply silent_elapsed|].
    intros t. apply silent_quiet; quiet. }
  intros quietly. destruct quietly; [apply silent_quiet; quiet|].
  apply silent_bind; [apply silent_elapsed|]. intros _. apply silent_bind; [apply (call_silent Eprintln)|]. intros [].
  apply silent_bind; [apply (call_silent InstantNow)|]. intros now. apply silent_quiet; quiet.
Qed.

Lemma silent_record_batch reads_done writes_done : silent (record_batch reads_done writes_done).
Proof. unfold record_batch. apply silent_bind; [apply silent_quiet; quiet|]. intros []. apply silent_report. Qed.

(** What a wait for events answers: the answer of the call just made, or a
    time-out. *)
Definition answered (events : list Z) (result : Z) (w' : trace) : Prop :=
  result = WAIT_TIMEOUT_RESULT ∨
  ∃ ms w1, w' = existT (WaitForMultipleObjects events ms) result :: w1 ∧ grows w0 w1.

Lemma fine_wait_for_events fuel events w : grows w0 w →
  tells (wait_for_events fuel events) (λ r w', ends_fine w r w' ∧
    match r with Returned (Ok result) => answered events result w' | _ => True end) w.
Proof.
  intros Hg. unfold wait_for_events. apply (fine_forever (λ _ _, True) _ _ (answered events)); [done|done|].
  clear w Hg. intros [] w Hg _. apply tells_bind, tells_quiet; [quiet|]. intros r. apply tells_bind.
  refine (tells_call (WaitForMultipleObjects events (completion_wait_milliseconds r)) _ _ _). intros result. cbn in result.
  apply tells_bind. destruct (Z.eqb_spec result WAIT_TIMEOUT_RESULT) as [Ht|Ht]; cbn [negb].
  - refine (tells_call LoadStopRequested _ _ _). intros stop. destruct stop.
    + apply tells_ret. split; [split; [grow|done]|]. by left.
    + apply tells_bind. eapply tells_mono; [apply silent_report|]. intros [] w1 G1. apply tells_ret.
      split; [|done]. split; [|done]. cbn beta in G1. eapply grows_trans; [|exact G1]. grow.
  - apply tells_ret, tells_ret. split; [split; [grow|done]|]. right. by eexists _, _.
Qed.

Lemma ends_fine_ret {A} (a : A) w : tells (mret (Returned (Ok a))) (ends_fine w) w.
Proof. apply tells_ret. split; [grow|done]. Qed.

Lemma fine_wait_for_adaptive_change fuel w : grows w0 w → tells (wait_for_adaptive_change fuel) (ends_fine w) w.
Proof.
  intros Hg. unfold wait_for_adaptive_change.
  apply then_try; [done|by apply fine_returned, fine_submit_one|]. intros acc w1 _ H1.
  apply then_try; [done|by apply fine_returned, fine_submit_one|]. intros [ready waiting] w2 _ H2.
  destruct ready; [apply ends_fine_ret|]. destruct (len waiting =? 0); [apply ends_fine_ret|].
  apply tells_try. eapply tells_mono; [by apply fine_wait_for_events|]. intros r w3 [[G3 F3] Ha].
  destruct r as [| |[result|x]]; [by split..| |]. 2: { split; [done|]. intros y [= <-]. auto. }
  assert (grows w0 w3) as H3 by grow. apply ends_fine_later; [done|].
  destruct (Z.eqb_spec result WAIT_FAILED) as [->|Hf].
  { destruct Ha as [?|(ms & w4 & -> & H4)]; [done|]. apply fine_returned, fine_win32; [done|done|message]. }
  destruct (Z.eqb_spec result WAIT_TIMEOUT_RESULT) as [|Ht]; [apply ends_fine_ret|].
  destruct Ha as [?|(ms & w4 & -> & H4)]; [done|].
  assert (¬ WAIT_OBJECT_0 ≤ result < WAIT_OBJECT_0 + len waiting.*1 →
    blamed (existT (WaitForMultipleObjects waiting.*1 ms) result :: w4)
      (Failure "WaitForMultipleObjects returned unexpected value" [result])) as Hbad.
  { intros Hr. apply blamed_call; [done|]. intros l. by apply reports_wait. }
  unfold len in Hbad. rewrite length_fmap in Hbad. fold (len waiting) in Hbad. unfold WAIT_OBJECT_0, checked_sub in *.
  destruct (Z.ltb_spec result 0) as [H0|H0].
  { apply tells_ret. split; [grow|]. intros x [= <-]. apply Hbad. lia. }
  destruct (Z.ltb_spec (result - 0) (len waiting)) as [Hl|Hl].
  2: { apply tells_ret. split; [grow|]. intros x [= <-]. apply Hbad. lia. }
  apply then_quiet_out; [quiet|]. intros target.
  apply then_try; [done|by apply fine_returned, fine_complete_adaptive_wait|]. intros [] w5 _ _. apply ends_fine_ret.
Qed.

(** ** The loops *)

Lemma fine_pop w : grows w0 w → tells pop_completion (λ r w', fine w r w' ∧
  match r with Ok (Some c) => popped c w' | _ => True end) w.
Proof.
  intros Hg. unfold pop_completion. apply tells_bind, tells_quiet; [quiet|]. intros r. apply tells_bind.
  refine (tells_call (PopIoRingCompletion (ring r)) _ _ _). intros [status c]. cbn [fst snd].
  destruct (status =? S_FALSE); [apply tells_ret; split; [apply fine_Ok; grow|done]|].
  apply tells_ok, tells_ret. unfold check_hr. destruct (Z.eqb_spec status S_OK) as [->|Hs].
  - apply tells_ret. split; [apply fine_Ok; grow|]. by eexists _, _, _.
  - split; [|done]. apply fine_Err; [grow|]. apply blamed_call; [done|]. intros l.
    by eapply reports_status; [| |message].
Qed.

Lemma fine_drain_completions fuel b w : grows w0 w → tells (drain_completions fuel b) (fine w) w.
Proof.
  unfold drain_completions. revert b w. induction fuel as [|fuel IH]; intros b w Hg; [done|]. cbn [loop_total].
  apply tells_bind, tells_bind. eapply tells_mono; [by apply fine_pop|]. intros [[c|]|x] w1 [[G1 F1] Hp].
  - apply tells_bind. eapply tells_mono; [apply fine_process; [exact Hp|grow]|]. intros [[sw kind]|x] w2 [G2 F2]; apply tells_ret.
    + apply fine_later; [grow|]. apply IH. apply (grows_trans _ w); [done|]. grow.
    + apply tells_ret, fine_Err; [grow|auto].
  - by apply tells_ret, tells_ret, fine_Ok.
  - apply tells_ret, tells_ret, fine_Err; auto.
Qed.

Lemma fine_switch w : grows w0 w → tells switch_from_endpoints (fine w) w.
Proof.
  intros Hg. unfold switch_from_endpoints. apply then_quiet; [quiet|]. intros r. apply tells_fine_ret.
  destruct (from_endpoints _); cbn [map_err]; [done|]. intros x [= <-]. internal.
Qed.

Lemma fine_legacy_iteration sw w : grows w0 w → tells (legacy_iteration sw) (fine w) w.
Proof.
  intros Hg. unfold legacy_iteration. step_call. intros stop H1. cbn in stop. destruct stop.
  { apply then_silent; [apply silent_report|done|]. intros [] w1 _ _. by apply tells_fine_ret. }
  set (w1 := existT _ _ :: w) in *. apply tells_ok. eapply tells_mono; [by apply fine_pop|].
  intros [[c|]|x] w2 [[G2 F2] Hp]; [..|apply fine_Err; auto]; (apply fine_later; [done|]);
    assert (grows w0 w2) as H2 by grow.
  - apply then_ok; [done|by apply fine_process|]. intros [sw' kind] w3 _ H3. apply then_quiet; [quiet|]. intros r.
    apply then_ok; [done|by apply fine_drain_completions|]. intros b w4 _ H4.
    apply then_silent; [apply silent_record_batch|done|]. intros [] w5 _ H5.
    apply then_ok; [done|by apply fine_submit|]. intros [] w6 _ _. by apply tells_fine_ret.
  - apply then_ok; [done|by apply fine_wait|]. intros signaled w3 _ H3. apply then_quiet; [quiet|]. intros [].
    apply then_quiet; [destruct signaled; quiet|]. intros [].
    apply then_silent; [apply silent_report|done|]. intros [] w4 _ _. by apply tells_fine_ret.
Qed.

(** A loop whose body is fine. *)
Lemma fine_loop {A B} fuel (body : A → P (outcome (A + B))) a w : grows w0 w →
  (∀ a w, grows w0 w → tells (body a) (ends_fine w) w) → tells (forever fuel body a) (ends_fine w) w.
Proof.
  intros Hg Hb. eapply tells_mono; [apply (fine_forever (λ _ _, True) _ _ (λ _ _, True)); [done|done|]|].
  - intros a' w' Hg' _. eapply tells_mono; [by apply Hb|]. intros r w2 Hr. split; [done|]. by destruct r as [| |[[]|]].
  - intros r w' [Hr _]. exact Hr.
Qed.

Lemma fine_legacy fuel w : grows w0 w → tells (run_until_stopped_legacy fuel) (ends_fine w) w.
Proof.
  intros Hg. unfold run_until_stopped_legacy. apply then_try; [done|by apply fine_returned, fine_switch|].
  intros sw w1 _ H1. apply fine_loop; [done|]. intros sw' w2 H2. by apply fine_returned, fine_legacy_iteration.
Qed.

Lemma fine_post_idle_reads w : grows w0 w → tells post_adaptive_idle_reads (fine w) w.
Proof.
  intros Hg. unfold post_adaptive_idle_reads. apply then_quiet; [quiet|]. intros r. apply fine_for_each; [done|].
  intros slot w1 H1. unfold post_idle. apply then_quiet; [quiet|]. intros r1. apply then_quiet; [quiet|].
  intros [a|]; [by apply tells_fine_ret|by apply fine_post_read].
Qed.

Lemma fine_adaptive_iteration fuel state w : grows w0 w → tells (adaptive_iteration fuel state) (ends_fine w) w.
Proof.
  intros Hg. destruct state as [sw idle_since]. unfold adaptive_iteration. step_call. intros stop H1. cbn in stop. destruct stop.
  { apply then_silent_out; [apply silent_report|done|]. intros [] w1 _ _. apply ends_fine_ret. }
  apply then_quiet_out; [quiet|]. intros r.
  apply then_try; [done|by apply fine_returned, fine_drain_completions|]. intros b w2 _ H2.
  apply then_try; [done| |].
  { apply fine_returned. destruct (saw_completion b); [|by apply tells_fine_ret].
    apply then_ok; [done|by apply fine_submit|]. intros [] w3 _ H3.
    apply then_silent; [apply silent_record_batch|done|]. intros [] w4 _ H4.
    apply then_silent; [apply silent_report|done|]. intros [] w5 _ H5. by apply tells_fine_ret. }
  intros [] w3 _ H3. destruct (made_progress b); [step_call; intros now H4; apply ends_fine_ret|].
  apply then_silent_out; [apply silent_elapsed|done|]. intros idle w4 _ H4.
  destruct (polling_budget r <=? idle); [|step_call; intros [] H5; apply ends_fine_ret].
  apply then_quiet_out; [quiet|]. intros [].
  apply then_try; [done|by apply fine_wait_for_adaptive_change|]. intros signaled w5 _ H5.
  destruct signaled; [|apply ends_fine_ret]. apply then_quiet_out; [quiet|]. intros [].
  apply then_try; [done|by apply fine_returned, fine_post_idle_reads|]. intros [] w6 _ H6.
  apply then_try; [done|by apply fine_returned, fine_submit|]. intros [] w7 _ H7.
  step_call. intros now H8. apply ends_fine_ret.
Qed.

Lemma fine_run_until_stopped fuel w : grows w0 w → tells (run_until_stopped fuel) (ends_fine w) w.
Proof.
  intros Hg. unfold run_until_stopped. apply then_quiet_out; [quiet|]. intros r.
  destruct (adaptive_polling r); [|by apply fine_legacy]. unfold run_until_stopped_adaptive.
  apply then_try; [done|by apply fine_returned, fine_switch|]. intros sw w1 _ H1. step_call. intros now H2.
  apply fine_loop; [done|]. intros state w2 H3. by apply fine_adaptive_iteration.
Qed.

(** ** Shutdown *)

Lemma fine_retire w : grows w0 w → tells retire_unqueued_operations (fine w) w.
Proof.
  intros Hg. unfold retire_unqueued_operations. apply then_quiet; [quiet|]. intros r. apply fine_for_each; [done|].
  intros slot w1 H1. unfold retire_unqueued. apply then_quiet; [quiet|]. intros r1. apply then_quiet; [quiet|].
  intros [a|]; [|by apply tells_fine_ret]. destruct (queued a); [by apply tells_fine_ret|].
  apply then_ok; [done|apply fine_pool; message|]. intros [] w2 _ H2. apply then_quiet; [quiet|]. intros [].
  by apply tells_fine_ret.
Qed.

Lemma fine_queue_cancellations slots : ∀ queued_one count w, grows w0 w →
  tells (queue_cancellations slots queued_one count) (fine w) w.
Proof.
  induction slots as [|slot slots IH]; intros queued_one count w Hg; cbn [queue_cancellations]; [by apply tells_fine_ret|].
  apply then_quiet; [quiet|]. intros r. destruct (count =? submission_queue_size r); [by apply tells_fine_ret|].
  apply then_quiet; [quiet|]. intros [a|]; [|by apply IH]. apply then_quiet; [quiet|]. intros cancelling.
  destruct (negb (queued a) || negb (submitted a) || cancelling); [by apply IH|]. step_call. intros status H1. cbn in status.
  destruct (status =? IORING_E_SUBMISSION_QUEUE_FULL); [by apply tells_fine_ret|]. apply then_pure.
  - intros x. unfold check_hr. destruct (Z.eqb_spec status S_OK); [done|]. intros [= <-].
    apply blamed_call; [done|]. intros l. by eapply reports_status; [| |message].
  - intros [] _. apply then_quiet; [quiet|]. intros []. by apply IH.
Qed.

Lemma fine_wait_shutdown first w : grows w0 w → first_fine first w →
  tells (try_process_shutdown_completion first) (λ r w', fine w r w' ∧
    match r with Ok (_, first) => first_fine first w' | _ => True end) w.
Proof.
  intros Hg Hf. unfold try_process_shutdown_completion. apply tells_ok. eapply tells_mono; [by apply fine_pop|].
  intros [[c|]|x] w1 [[G1 F1] Hp].
  2: { apply tells_ret. split; [by apply fine_Ok|]. by eapply first_fine_grows. }
  2: { split; [|done]. apply fine_Err; auto. }
  assert (first_fine first w1) as Hf1 by (by eapply first_fine_grows).
  destruct (negb _).
  - apply tells_ok, tells_ret. destruct (decode_completion _) as [[slot generation]|x] eqn:Hd.
    2: { split; [|done]. apply fine_Err; [done|]. by eapply fine_decode. }
    apply tells_bind, tells_quiet; [quiet|]. intros r. destruct (len (active r) <=? slot).
    { apply tells_ret. split; [|done]. apply fine_Err; [done|internal]. }
    apply tells_bind, tells_quiet; [quiet|]. intros current. destruct (negb _).
    { apply tells_ret. split; [|done]. apply fine_Err; [done|internal]. }
    apply tells_bind, tells_quiet; [quiet|]. intros []. apply tells_ret. split; [by apply fine_Ok|].
    destruct (Z.eqb_spec (result_code c) S_OK); cbn [negb]; [done|]. refine (blamed_first _ _ _ Hf1 _). intros x [= <-].
    apply blamed_completion; [done|done|message].
  - apply tells_ok. eapply tells_mono; [apply fine_validate|]. intros [[[slot generation] b]|x] w2 [-> Hd].
    2: { split; [|done]. by apply fine_Err. }
    apply tells_ok. eapply tells_mono; [apply fine_pool; message|]. intros [[]|x] w2 [G2 F2].
    + apply tells_bind, tells_quiet; [quiet|]. intros []. apply tells_ret. split; [apply fine_Ok; grow|].
      by eapply first_fine_grows.
    + split; [|done]. apply fine_Err; [grow|auto].
Qed.

(** A loop that carries the first error. *)
Definition keeps_first (w : trace) (r : outcome (option error)) (w' : trace) : Prop :=
  ends_fine w r w' ∧ match r with Returned (Ok first) => first_fine first w' | _ => True end.

Lemma fine_first_loop fuel (body : option error → P (outcome (option error + option error))) first w :
  grows w0 w → first_fine first w →
  (∀ first w, grows w0 w → first_fine first w → tells (body first) (λ r w', ends_fine w r w' ∧
     match r with Returned (Ok (inl first)) | Returned (Ok (inr first)) => first_fine first w' | _ => True end) w) →
  tells (forever fuel body first) (keeps_first w) w.
Proof.
  intros Hg Hf Hb. apply (fine_forever first_fine _ _ first_fine); [done|done|].
  intros f w1 H1 F1. by apply Hb.
Qed.

(** One more step of a body that carries the first error. *)
Lemma then_first {A B} (m : P (outcome A)) (f : A → P (outcome B)) (I : B → trace → Prop) w :
  tells m (ends_fine w) w →
  (∀ a w1, grows w w1 → tells (f a) (λ r w', ends_fine w1 r w' ∧
     match r with Returned (Ok b) => I b w' | _ => True end) w1) →
  tells (bind_outcome f m) (λ r w', ends_fine w r w' ∧ match r with Returned (Ok b) => I b w' | _ => True end) w.
Proof.
  intros Hm Hf. apply tells_try. eapply tells_mono; [exact Hm|]. intros [| |[a|x]] w1 [H1 Hx]; [by repeat split..| |].
  - eapply tells_mono; [by apply Hf|]. intros r w2 [[H2 Hy] HI]. split; [|done]. split; [grow|done].
  - split; [|done]. split; [done|]. intros y [= <-]. auto.
Qed.

Definition carried (b : option error + option error) (w : trace) : Prop :=
  match b with inl first | inr first => first_fine first w end.

Lemma carried_ret b w : carried b w →
  tells (mret (Returned (Ok b))) (λ r w', ends_fine w r w' ∧
    match r with Returned (Ok b) => carried b w' | _ => True end) w.
Proof. intros Hb. apply tells_ret. split; [split; [grow|done]|done]. Qed.

Lemma fine_carry_loop fuel body first w : grows w0 w → first_fine first w →
  (∀ first w, grows w0 w → first_fine first w → tells (body first) (λ r w', ends_fine w r w' ∧
     match r with Returned (Ok b) => carried b w' | _ => True end) w) →
  tells (forever fuel body first) (keeps_first w) w.
Proof.
  intros Hg Hf Hb. apply fine_first_loop; [done|done|]. intros f w1 H1 F1.
  eapply tells_mono; [by apply Hb|]. intros [| |[[|]|]] w2 [H2 HI]; by split.
Qed.

Lemma then_processed {B} (first : option error) (f : bool * option error → P (outcome B)) (I : B → trace → Prop) w :
  grows w0 w → first_fine first w →
  (∀ processed first w1, grows w w1 → first_fine first w1 → tells (f (processed, first)) (λ r w', ends_fine w1 r w' ∧
     match r with Returned (Ok b) => I b w' | _ => True end) w1) →
  tells (bind_outcome f (returned (try_process_shutdown_completion first))) (λ r w', ends_fine w r w' ∧
    match r with Returned (Ok b) => I b w' | _ => True end) w.
Proof.
  intros Hg Hf Hk. apply tells_try, tells_bind. eapply tells_mono; [by apply fine_wait_shutdown|].
  intros [[processed first1]|x] w1 [[G1 F1] Hc]; apply tells_ret.
  - eapply tells_mono; [by apply Hk|]. intros r w2 [[H2 Hy] HI]. split; [|done]. split; [grow|done].
  - split; [|done]. split; [done|]. intros y [= <-]. auto.
Qed.

Lemma fine_wait_for_shutdown fuel first w : grows w0 w → first_fine first w →
  tells (wait_for_shutdown_completion fuel first) (keeps_first w) w.
Proof.
  intros Hg Hf. unfold wait_for_shutdown_completion. apply fine_carry_loop; [done|done|]. clear w Hg first Hf.
  intros first w Hg Hf. apply then_processed; [done|done|]. intros processed first1 w1 G1 F1.
  destruct processed; [by apply carried_ret|]. assert (grows w0 w1) as H1 by grow.
  apply then_first; [by apply fine_returned, fine_wait|]. intros signaled w2 G2. apply carried_ret.
  by eapply first_fine_grows.
Qed.

Lemma fine_drain_loop fuel first w : grows w0 w → first_fine first w → tells (drain_loop fuel first) (keeps_first w) w.
Proof.
  intros Hg Hf. unfold drain_loop. apply fine_carry_loop; [done|done|]. clear w Hg first Hf.
  intros first w Hg Hf. apply tells_bind, tells_quiet; [quiet|]. intros r.
  destruct (existsb draining (active r)); [|by apply carried_ret].
  apply tells_try. eapply tells_mono; [by apply fine_wait_for_shutdown|]. intros [| |[first1|x]] w1 [[G1 F1] H1];
    [by repeat split..| |].
  - apply tells_ret. split; [split; [done|done]|done].
  - split; [|done]. split; [done|]. intros y [= <-]. auto.
Qed.

Lemma fine_cancel_loop fuel first w : grows w0 w → first_fine first w → tells (cancel_loop fuel first) (keeps_first w) w.
Proof.
  intros Hg Hf. unfold cancel_loop. apply fine_carry_loop; [done|done|]. clear w Hg first Hf.
  intros first w Hg Hf. apply tells_bind, tells_quiet; [quiet|]. intros r.
  destruct (any (active r) || any (cancellations r)); [|by apply carried_ret]. apply then_first.
  { apply fine_returned. unfold queue_shutdown_cancellations. apply then_quiet; [quiet|]. intros r1.
    by apply fine_queue_cancellations. }
  intros [queued_one full] w1 G1. assert (grows w0 w1) as H1 by grow. apply then_first.
  { apply fine_returned. destruct (queued_one || full); [|by apply tells_fine_ret]. unfold submit_cancellation_batch.
    apply tells_bind, tells_quiet; [quiet|]. intros r1. unfold hr. apply tells_bind.
    refine (tells_call (SubmitIoRing (ring r1) 0 0) _ _ _). intros status. cbn in status. apply tells_ret.
    unfold check_hr. destruct (Z.eqb_spec status S_OK); [apply fine_Ok; grow|]. apply fine_Err; [grow|].
    apply blamed_call; [done|]. intros l. by eapply reports_status; [| |message]. }
  intros [] w2 G2. assert (grows w0 w2) as H2 by grow.
  assert (first_fine first w2) as F2 by (eapply first_fine_grows; [|exact Hf]; grow).
  apply then_processed; [done|done|]. intros processed first1 w3 G3 F3. assert (grows w0 w3) as H3 by grow.
  apply then_first.
  { apply fine_returned. destruct (negb processed); [by apply fine_wait|by apply tells_fine_ret]. }
  intros signaled w4 G4. apply carried_ret. by eapply first_fine_grows.
Qed.

Lemma fine_shutdown fuel w : grows w0 w → tells (shutdown fuel) (ends_fine w) w.
Proof.
  intros Hg. unfold shutdown. apply tells_bind. eapply tells_mono; [by apply fine_cancel_adaptive_waits|].
  intros first w1 [G1 F1]. apply ends_fine_later; [done|]. assert (grows w0 w1) as H1 by grow.
  apply tells_try, tells_bind. eapply tells_mono; [by apply fine_retire|]. intros [[]|x] w2 [G2 F2]; apply tells_ret.
  2: { split; [done|]. intros y [= <-]. auto. }
  apply ends_fine_later; [done|]. assert (grows w0 w2) as H2 by grow. apply then_quiet_out; [quiet|]. intros [].
  apply tells_try, tells_bind. eapply tells_mono; [by apply fine_submit|]. intros [[]|x] w3 [G3 F3]; apply tells_ret.
  2: { split; [done|]. intros y [= <-]. auto. }
  apply ends_fine_later; [done|]. assert (grows w0 w3) as H3 by grow.
  assert (first_fine first w3) as Hf3 by (eapply first_fine_grows; [|exact F1]; grow).
  apply tells_try. eapply tells_mono; [by apply fine_drain_loop|]. intros [| |[f4|x]] w4 [[G4 F4] K4];
    [by split..| |split; [done|]; intros y [= <-]; auto].
  apply ends_fine_later; [done|]. assert (grows w0 w4) as H4 by grow.
  apply tells_try. eapply tells_mono; [by apply fine_cancel_loop|]. intros [| |[f5|x]] w5 [[G5 F5] K5];
    [by split..| |split; [done|]; intros y [= <-]; auto].
  apply ends_fine_later; [done|]. apply then_quiet_out; [quiet|]. intros []. apply tells_ret. split; [grow|].
  intros x Hx. destruct f5 as [y|]; [|done]. injection Hx as <-. by apply K5.
Qed.

Lemma fine_and_shutdown fuel ran w : grows w0 w → (∀ x, ran = Err x → blamed w x) →
  tells (and_shutdown fuel ran) (ends_fine w) w.
Proof.
  intros Hg Hr. unfold and_shutdown. apply tells_bind. eapply tells_mono; [by apply fine_shutdown|].
  intros out w1 [G1 F1]. apply tells_ret. split; [done|]. destruct out as [| |stopped]; [done..|].
  intros x [= Hx]. assert (∀ y, ran = Err y → blamed w1 y) as Hr1 by (intros y Hy; eapply blamed_grows; [exact G1|auto]).
  destruct ran as [[]|y], stopped as [[]|z]; cbn [both] in Hx; try discriminate; injection Hx as <-; auto.
  split; auto.
Qed.

Lemma fine_Runtime_run fuel w : grows w0 w → tells (Runtime_run fuel) (ends_fine w) w.
Proof.
  intros Hg. unfold Runtime_run. apply tells_bind. eapply tells_mono; [by apply fine_run_until_stopped|].
  intros [| |ran] w1 [G1 F1]; [by apply tells_ret..|]. apply ends_fine_later; [done|]. apply fine_and_shutdown; [grow|].
  intros x ->. auto.
Qed.

(** ** Destruction *)

Lemma silent_drop_endpoints l : ∀ i, silent (drop_endpoints i l).
Proof.
  induction l as [|e l IH]; intros i; cbn [drop_endpoints]; [apply silent_quiet; quiet|].
  apply silent_bind; [|intros []; apply IH]. unfold Endpoint_drop. apply silent_bind.
  { destruct (adaptive_wait e) as [wait|]; [apply (call_silent (CloseHandle (event wait)))|apply silent_quiet; quiet]. }
  intros []. apply silent_bind; [apply (call_silent (CloseHandle (handle e)))|]. intros []. apply silent_quiet; quiet.
Qed.

Lemma silent_drop : silent Runtime_drop.
Proof.
  unfold Runtime_drop. apply silent_bind; [apply silent_quiet; quiet|]. intros r.
  destruct (_ && _); [apply silent_quiet; quiet|].
  apply silent_bind; [apply (call_silent (CloseIoRing (ring r)))|]. intros [].
  apply silent_bind; [apply silent_drop_endpoints|]. intros []. apply silent_quiet; quiet.
Qed.

Lemma fine_dropping (m : P (outcome unit)) w : tells m (ends_fine w) w → tells (dropping m) (ends_fine w) w.
Proof.
  intros Hm. unfold dropping. apply tells_bind. eapply tells_mono; [exact Hm|]. intros [| |r] w1 [G1 F1];
    [by apply tells_ret..|]. apply tells_bind. eapply tells_mono; [apply silent_drop|]. intros b w2 G2. apply tells_ret.
  split; [grow|]. intros x Hx. destruct b; [|done]. eapply blamed_grows; [exact G2|]. by apply F1.
Qed.

Lemma fine_on_error {A} cleanup (m : P (result A error)) w : silent cleanup →
  tells m (fine w) w → tells (on_error cleanup m) (fine w) w.
Proof.
  intros Hc Hm. unfold on_error. apply tells_bind. eapply tells_mono; [exact Hm|]. intros [a|x] w1 [G1 F1].
  - by apply tells_ret, fine_Ok.
  - apply tells_bind. eapply tells_mono; [apply Hc|]. intros [] w2 G2. apply tells_ret, fine_Err; [grow|].
    eapply blamed_grows; [exact G2|]. auto.
Qed.

(** ** Start *)

Lemma then_reserve {B} count text (f : unit → P (result B error)) w : grows w0 w → text ∈ reserve_messages →
  (∀ w1, grows w0 w1 → tells (f tt) (fine w1) w1) → tells (bind_ok f (reserve count text)) (fine w) w.
Proof.
  intros Hg Ht Hf. apply then_ok; [done| |intros [] w1 _; apply Hf]. unfold reserve. step_call. intros b H1. cbn in b.
  unfold require. destruct b; apply tells_fine_ret; [done|]. intros x [= <-]. apply blamed_call; [done|].
  intros l. by apply reports_memory.
Qed.

Lemma then_require {B} (b : bool) x (f : unit → P (result B error)) w :
  (b = false → blamed w x) → (b = true → tells (f tt) (fine w) w) → tells (bind_ok f (require b x)) (fine w) w.
Proof.
  intros Hx Hf. unfold require. apply then_pure; destruct b; try done.
  - intros y [= <-]. auto.
  - intros [] _. auto.
Qed.

Lemma fine_query_mtu guid w : (∃ g, parse_guid guid = Ok g) → grows w0 w →
  tells (query_adapter_mtu guid) (λ r w', fine w r w' ∧
    match r with Ok mtu => ∃ t, w' = existT FreeMibTable tt :: existT GetIfTable2 t :: w ∧ mtu_row t mtu | _ => True end) w.
Proof.
  intros [g Hparse] Hg. unfold query_adapter_mtu. rewrite Hparse. apply tells_ok, tells_ret, tells_bind.
  refine (tells_call GetIfTable2 _ _ _). intros [status table]. cbn [fst snd].
  destruct (Z.eqb_spec status ERROR_SUCCESS) as [|Hs]; cbn [negb].
  2: { apply tells_ret. split; [|done]. apply fine_Err; [grow|]. apply blamed_call; [done|]. intros l.
       by apply (reports_table (status, table)). }
  destruct table as [rows|].
  2: { apply tells_ret. split; [|done]. apply fine_Err; [grow|]. apply blamed_call; [done|]. intros l.
       by apply reports_no_table. }
  apply tells_bind. refine (tells_call FreeMibTable _ _ _). intros []. apply tells_ret.
  destruct (find _ rows) as [row|] eqn:Hfind; cbn [fmap option_fmap option_map ok_or].
  - split; [apply fine_Ok; grow|]. exists (status, Some rows). split; [done|]. apply find_some in Hfind as [Hin _].
    exists rows, row.1. split; [done|]. apply list_elem_of_In in Hin. by destruct row.
  - split; [|done]. apply fine_Err; [grow|]. eapply blamed_grows; [apply grows_call|]. apply blamed_call; [done|].
    intros l. apply (reports_no_adapter (status, Some rows) rows g); [done|]. intros mtu Hin.
    apply list_elem_of_In, (find_none _ _ Hfind) in Hin. cbn in Hin. by rewrite bool_decide_eq_false in Hin.
Qed.

(** The depth is one [check_depth] has accepted. *)
Lemma fine_check_mtu first second depth w : (∃ g, parse_guid (config_guid first) = Ok g) →
  (∃ g, parse_guid (config_guid second) = Ok g) → 0 ≤ depth ≤ 2 ^ 31 → grows w0 w →
  tells (check_mtu first second depth) (λ r w', fine w r w' ∧
    match r with Ok frame => 0 ≤ frame | _ => True end) w.
Proof.
  intros Hg1 Hg2 Hd Hg. unfold check_mtu. apply tells_ok. eapply tells_mono; [by apply fine_query_mtu|].
  intros [mtu_a|x] w1 [[G1 F1] Ha]; [|by split]. destruct Ha as (t1 & Hw1 & Hr1). apply tells_ok.
  eapply tells_mono; [apply fine_query_mtu; [done|grow]|]. intros [mtu_b|x] w2 [[G2 F2] Hb].
  2: { split; [|done]. apply fine_Err; [grow|auto]. }
  destruct Hb as (t2 & Hw2 & Hr2). assert (grows w w2) as G by grow. unfold require.
  apply tells_ok, tells_ret. destruct (Z.eqb_spec mtu_a mtu_b) as [Heq|Hne].
  2: { split; [|done]. apply fine_Err; [done|]. subst w2 w1. eapply blamed_grows; [apply grows_call|].
       apply blamed_since, (since_now _ _ [existT GetIfTable2 t2; existT FreeMibTable tt; existT GetIfTable2 t1]); [done|].
       intros l. by apply (reports_mtus t1 t2 mtu_a mtu_b [existT FreeMibTable tt]). }
  apply tells_ok, tells_ret.
  destruct ((1500 <=? mtu_a) && (mtu_a <=? 65521)) eqn:Hlimits.
  2: { split; [|done]. apply fine_Err; [done|]. subst w2 mtu_b. eapply blamed_grows; [apply grows_call|].
       apply blamed_call; [subst w1; grow|]. intros l. apply reports_mtu; [done|]. intros [? ?].
       apply andb_false_iff in Hlimits. lia. }
  apply andb_true_iff in Hlimits as [H1%Z.leb_le H2%Z.leb_le]. unfold checked_add, checked_mul, FRAME_MINIMUM.
  destruct (Z.ltb_spec (mtu_a + 14) (2 ^ 64)); [|lia]. cbn [mbind option_bind].
  unfold FRAME_MAXIMUM. destruct (Z.leb_spec (mtu_a + 14) 65535); [|lia].
  apply tells_ok, tells_ret. cbn [ok_or]. apply tells_ok, tells_ret.
  destruct (Z.ltb_spec (depth * (mtu_a + 14)) (2 ^ 64)); [|change (2 ^ 64) with (2 ^ 31 * 2 ^ 33) in *; nia].
  cbn [ok_or]. apply tells_ok, tells_ret. unfold u32_max.
  destruct (Z.leb_spec depth (2 ^ 32 - 1)); [|change (2 ^ 32) with (2 * 2 ^ 31) in *; lia].
  apply tells_ret. split; [by apply fine_Ok|lia].
Qed.

(** *** Endpoints *)

Definition timed_out : error := Failure "timed out waiting for endpoint cleanup" [CLEANUP_REOPEN_ATTEMPTS].

(** What may be said of an open that failed. *)
Definition open_blamed {A} (w : trace) (r : result A EndpointOpenError) (w' : trace) : Prop :=
  grows w w' ∧ ∀ e, r = Err e → blamed w' (message e) ∧ (cleanup_is_pending e = true → blamed w' timed_out).

Lemma open_blamed_ok {A} w (r : result A EndpointOpenError) w' : open_blamed w r w' → fine w (map_err message r) w'.
Proof.
  intros [Hg He]. split; [done|]. destruct r as [a|y]; [done|]. intros x [= <-]. by apply He.
Qed.

Lemma tells_open_endpoint path w : grows w0 w → tells (open_endpoint path) (open_blamed w) w.
Proof.
  intros Hg. unfold open_endpoint. apply tells_bind. refine (tells_call (CreateFileW path) _ _ _). intros h. cbn in h.
  destruct (Z.eqb_spec h INVALID_HANDLE_VALUE) as [->|]; [|apply tells_ret; split; [grow|done]].
  apply tells_bind. refine (tells_call GetLastError _ _ _). intros code. cbn in code. apply tells_ret. split; [grow|].
  intros e [= <-]. split.
  - apply blamed_last_error; [done|]. intros l. apply reports_last_error; [done|message].
  - intros Hp. apply blamed_last_error; [done|]. intros l. apply reports_cleanup.
    apply orb_true_iff in Hp as [Hp|Hp]; apply Z.eqb_eq in Hp; auto.
Qed.

Lemma tells_open_endpoints first second w : grows w0 w → tells (open_endpoints first second) (open_blamed w) w.
Proof.
  intros Hg. unfold open_endpoints. apply tells_bind. eapply tells_mono; [by apply tells_open_endpoint|].
  intros [h1|e] w1 [G1 F1]; [|by apply tells_ret; split; [|by intros ? [= <-]; apply F1]].
  apply tells_bind. eapply tells_mono; [apply tells_open_endpoint; grow|]. intros [h2|e] w2 [G2 F2].
  - apply tells_ret. split; [grow|done].
  - apply tells_bind. eapply tells_mono; [apply silent_drop_endpoints|]. intros [] w3 G3. apply tells_ret.
    cbn beta in G3. split; [apply (grows_trans _ w2); [grow|done]|]. intros y [= <-]. destruct (F2 e eq_refl) as [H1 H2].
    split; [by eapply blamed_grows|]. intros Hp. eapply blamed_grows; [exact G3|auto].
Qed.

Lemma fine_reopen_attempts first second attempts : ∀ w, grows w0 w → (attempts = O → blamed w timed_out) →
  tells (reopen_attempts attempts first second) (fine w) w.
Proof.
  induction attempts as [|attempts IH]; intros w Hg H0; cbn [reopen_attempts].
  { apply tells_fine_ret. intros x [= <-]. auto. }
  apply tells_bind. eapply tells_mono; [by apply tells_open_endpoints|]. intros [es|e] w1 [G1 F1];
    [by apply tells_ret, fine_Ok|]. apply fine_later; [done|]. destruct (F1 e eq_refl) as [H1 H2].
  assert (grows w0 w1) as Hw1 by grow.
  destruct (cleanup_is_pending e); [|apply tells_fine_ret; by intros x [= <-]].
  step_call. intros [] Hw2. apply IH; [done|]. intros _. eapply blamed_grows; [apply grows_call|]. auto.
Qed.

(** *** Negotiation *)

Definition enable_failed (code : Z) : error := Failure "adaptive enable failed with Win32 error" [code].
Definition enable_size : error := Failure "adaptive enable returned an invalid response size" [].

Definition control_blamed (w : trace) (r : result Z Z) (w' : trace) : Prop :=
  grows w w' ∧
  match r with
  | Ok bytes => bytes ≠ size_of_AdaptiveEnableResponse → blamed w' enable_size
  | Err code => blamed w' (enable_failed code)
  end.

Lemma control_blamed_grows w r w1 w2 : grows w1 w2 → control_blamed w r w1 → control_blamed w r w2.
Proof.
  intros Hg [H1 H2]. split; [grow|]. destruct r; [intros Hb; eapply blamed_grows; [exact Hg|auto]|by eapply blamed_grows].
Qed.

(** The call that failed is asked for its error. *)
Lemma tells_enable_failed c r w w1 : grows w0 w1 → grows w w1 → sets_last_error c r = true →
  "adaptive enable failed with Win32 error"%string ∈ last_error_messages c →
  ∀ code, control_blamed w (Err code) (existT GetLastError code :: existT c r :: w1).
Proof.
  intros Hg Hw Hf Ht code. split; [grow|]. apply blamed_last_error; [done|]. intros l. by apply reports_last_error.
Qed.

Lemma tells_synchronous h code input w : grows w0 w → tells (synchronous_device_control h code input) (control_blamed w) w.
Proof.
  intros Hg. unfold synchronous_device_control. apply tells_bind. refine (tells_call CreateEventW _ _ _).
  intros event. cbn in event. destruct (event =? 0) eqn:He.
  { apply tells_bind. refine (tells_call GetLastError _ _ _). intros x. apply tells_ret.
    apply tells_enable_failed; [done|grow|done|message]. }
  set (w1 := existT CreateEventW _ :: w). assert (grows w w1) as G1 by (apply grows_call).
  assert (grows w0 w1) as H1 by grow. apply tells_bind.
  refine (tells_call (DeviceIoControl h code input LocalOverlapped) _ _ _). intros completed. cbn in completed.
  assert (∀ r w', control_blamed w r w' → tells (
    _ ← call (CloseHandle event); _ ← not_outstanding LocalOverlapped; mret r) (control_blamed w) w') as Hend.
  { clear. intros r w' Hr. apply tells_bind. refine (tells_call (CloseHandle event) _ _ _). intros [].
    apply tells_bind, tells_quiet; [quiet|]. intros []. apply tells_ret.
    eapply control_blamed_grows; [apply grows_call|exact Hr]. }
  apply tells_bind. destruct (completed.1 =? 0) eqn:Hc; cbn [negb].
  2: { apply tells_ret, Hend. split; [grow|]. intros Hb. apply blamed_call; [done|]. intros l.
       eapply (reports_enable_size _ _ completed.2); [cbn; by rewrite Hc|done]. }
  apply tells_bind. refine (tells_call GetLastError _ _ _). intros x. cbn in x.
  destruct (x =? ERROR_IO_PENDING); cbn [negb].
  2: { apply tells_ret, Hend, tells_enable_failed; [done|done|done|message]. }
  set (w2 := existT GetLastError x :: _ :: w1). assert (grows w1 w2) as G2 by (apply grows_calls).
  assert (grows w0 w2) as H2 by grow. assert (grows w w2) as G by grow. apply tells_bind.
  refine (tells_call (GetOverlappedResult h LocalOverlapped true) _ _ _). intros r. cbn in r. destruct (r.1 =? 0) eqn:Hr.
  - apply tells_bind. refine (tells_call GetLastError _ _ _). intros y. cbn in y. apply tells_ret, Hend.
    apply tells_enable_failed; [done|done|done|message].
  - apply tells_ret, Hend. split; [grow|]. intros Hb. apply blamed_call; [done|]. intros l.
    eapply (reports_enable_size _ _ r.2); [cbn; by rewrite Hr|done].
Qed.

Lemma fine_negotiate_endpoint e w : grows w0 w → tells (negotiate_adaptive_endpoint e) (fine w) w.
Proof.
  intros Hg. unfold negotiate_adaptive_endpoint. apply then_quiet; [quiet|]. intros s. apply then_quiet; [quiet|].
  intros []. apply tells_bind. eapply tells_mono; [by apply tells_synchronous|]. intros [bytes|code] w1 [G1 F1];
    (apply fine_later; [done|]); assert (grows w0 w1) as H1 by grow.
  - destruct (Z.eqb_spec bytes size_of_AdaptiveEnableResponse) as [|Hb]; cbn [negb].
    2: { apply tells_fine_ret. intros x [= <-]. auto. }
    apply then_quiet; [quiet|]. intros s2. destruct (local_response s2) as [version flags]. step_call. intros [] H2.
    destruct (_ || _); by apply tells_fine_ret.
  - destruct (is_adaptive_unsupported code); [step_call; intros [] H2; by apply tells_fine_ret|].
    apply tells_fine_ret. by intros x [= <-].
Qed.

Lemma fine_negotiate endpoints w : grows w0 w → tells (negotiate_adaptive_polling endpoints) (fine w) w.
Proof.
  intros Hg. unfold negotiate_adaptive_polling. apply then_quiet; [quiet|]. intros e0.
  apply then_ok; [done|by apply fine_negotiate_endpoint|]. intros c0 w1 _ H1. apply then_quiet; [quiet|]. intros e1.
  apply then_ok; [done|by apply fine_negotiate_endpoint|]. intros c1 w2 _ H2. by apply tells_fine_ret.
Qed.

Lemma fine_select_endpoints first second w : grows w0 w → tells (select_endpoints first second) (fine w) w.
Proof.
  intros Hg. unfold select_endpoints. apply tells_bind. eapply tells_mono; [by apply tells_open_endpoints|].
  intros opened w1 Ho%open_blamed_ok. destruct Ho as [G1 F1]. apply fine_later; [done|].
  assert (grows w0 w1) as H1 by grow. apply then_pure; [done|]. intros endpoints _.
  apply then_ok; [done|apply fine_on_error; [apply silent_drop_endpoints|by apply fine_negotiate]|].
  intros [adaptive reopen] w2 _ H2. apply then_ok; [done| |].
  - destruct reopen; [|by apply tells_fine_ret]. apply then_silent; [apply silent_drop_endpoints|done|].
    intros [] w3 _ H3. by apply fine_reopen_attempts.
  - intros es w3 _ H3. step_call. intros [] H4. by apply tells_fine_ret.
Qed.

(** *** The ring *)

Definition unavailable : error := Failure "required I/O-ring capability unavailable" [].

Lemma fine_query_capabilities w : grows w0 w → tells query_capabilities (λ r w', fine w r w' ∧
  match r with Ok version => version < IO_RING_BASELINE_VERSION → blamed w' unavailable | _ => True end) w.
Proof.
  intros Hg. unfold query_capabilities. apply tells_bind. refine (tells_call QueryIoRingCapabilities _ _ _).
  intros [status version]. apply tells_ret. cbn [fst snd]. unfold check_hr. destruct (Z.eqb_spec status S_OK) as [|Hs].
  - split; [apply fine_Ok; grow|]. intros Hv. apply blamed_call; [done|]. intros l. by apply reports_version.
  - split; [|done]. apply fine_Err; [grow|]. apply blamed_call; [done|]. intros l.
    by eapply reports_status; [| |message].
Qed.

Lemma fine_select_version ring version w : grows w0 w →
  (version < IO_RING_BASELINE_VERSION → blamed w unavailable) → tells (select_version ring version) (fine w) w.
Proof.
  intros Hg Hv. unfold select_version. step_call. intros r1 H1. cbn in r1. step_call. intros r2 H2. cbn in r2.
  unfold select_io_ring_version. cbn [supports_read supports_write maximum_version supports_read_scatter].
  rewrite andb_false_r. cbn [andb].
  destruct (Z.eqb_spec r1 0) as [->|]; cbn [negb orb].
  { apply tells_fine_ret. intros x [= <-]. eapply blamed_grows; [apply grows_call|]. apply blamed_call; [done|].
    intros l. apply reports_operations. }
  destruct (Z.eqb_spec r2 0) as [->|]; cbn [negb orb].
  { apply tells_fine_ret. intros x [= <-]. apply blamed_call; [done|]. intros l. apply reports_operations. }
  destruct (Z.ltb_spec version IO_RING_BASELINE_VERSION) as [Hlt|]; [|by apply tells_fine_ret].
  apply tells_fine_ret. intros x [= <-]. eapply (blamed_grows w); [apply grows_calls|]. by apply Hv.
Qed.

Lemma fine_allocate_buffers depth frame w : grows w0 w → 1 ≤ depth → 0 ≤ frame →
  tells (allocate_buffers depth frame) (fine w) w.
Proof.
  intros Hg Hd Hf. unfold allocate_buffers. apply then_reserve; [done|message|]. intros w1 H1.
  apply then_require; [intros Hx; exfalso|].
  { apply negb_false_iff, Z.ltb_lt in Hx. nia. }
  intros _. apply fine_for_each; [done|]. intros i w2 H2. apply then_reserve; [done|message|]. intros w3 H3.
  apply then_quiet; [quiet|]. intros s. apply then_quiet; [quiet|]. intros []. by apply tells_fine_ret.
Qed.

Lemma fine_register ring depth files w : grows w0 w → depth ≤ 2 ^ 31 → tells (register ring depth files) (fine w) w.
Proof.
  intros Hg Hd. unfold register. apply then_reserve; [done|message|]. intros w1 H1.
  apply then_require; [intros Hx; exfalso|].
  { apply Z.leb_gt in Hx. unfold u32_max in Hx. change (2 ^ 32) with (2 * 2 ^ 31) in Hx. lia. }
  intros _. hr_call (BuildIoRingRegisterFileHandles ring files). hr_call (BuildIoRingRegisterBuffers ring depth).
  hr_call (SubmitIoRing ring 2 0). apply fine_for_each; [done|]. intros i w9 H9. apply tells_bind.
  refine (tells_call (PopIoRingCompletion ring) _ _ _). intros [status c]. cbn [fst snd].
  apply tells_ok, tells_ret. unfold check_hr. destruct (Z.eqb_spec status S_OK) as [|Hs].
  - apply tells_ret. split; [grow|]. intros x. destruct (Z.eqb_spec (result_code c) S_OK); [done|]. intros [= <-].
    apply blamed_completion; [by eexists _, _, _|done|message].
  - apply fine_Err; [grow|]. apply blamed_call; [done|]. intros l. by eapply reports_status; [| |message].
Qed.

Lemma fine_prepare_ring ring depth frame version files w : grows w0 w → 1 ≤ depth ≤ 2 ^ 31 → 0 ≤ frame →
  (version < IO_RING_BASELINE_VERSION → blamed w unavailable) →
  tells (prepare_ring ring depth frame version files) (fine w) w.
Proof.
  intros Hg [Hd1 Hd2] Hf Hv. unfold prepare_ring. apply then_ok; [done|by apply fine_select_version|]. intros [] w1 _ H1.
  apply then_ok; [done|by apply fine_allocate_buffers|]. intros [] w2 _ H2.
  apply then_ok; [done|by apply fine_register|]. intros [] w3 _ H3. step_call. intros ok H4. cbn in ok.
  apply then_pure.
  - unfold try_new. intros x. destruct ok; cbn [map_err]; [done|]. intros [= <-]. apply blamed_call; [done|].
    intros l. apply reports_pool_memory.
  - intros pool _. apply then_reserve; [done|message|]. intros w5 H5. apply then_reserve; [done|message|]. intros w6 H6.
    by apply tells_fine_ret.
Qed.

Lemma fine_create_ring depth w : grows w0 w → tells (create_ring depth) (fine w) w.
Proof.
  intros Hg. unfold create_ring. step_call. intros [status ring] H1. apply tells_fine_ret. cbn [fst snd].
  unfold check_hr. destruct (Z.eqb_spec status S_OK); [done|]. intros x [= <-]. apply blamed_call; [done|].
  intros l. by eapply reports_status; [| |message].
Qed.

Lemma fine_first_reads fuel w : grows w0 w → tells (post_first_reads fuel) (ends_fine w) w.
Proof.
  intros Hg. unfold post_first_reads. apply then_quiet_out; [quiet|]. intros r. apply then_try; [done| |].
  { apply fine_returned, fine_for_each; [done|]. intros slot w1 H1. by apply fine_post_read. }
  intros [] w1 _ H1. apply tells_bind. eapply tells_mono; [by apply fine_submit|]. intros [[]|x] w2 [G2 F2].
  - apply tells_ret. by split.
  - apply ends_fine_later; [done|]. apply fine_and_shutdown; [grow|]. intros y [= <-]. auto.
Qed.

Lemma fine_drop_on_error (m : P (outcome unit)) w : tells m (ends_fine w) w → tells (drop_on_error m) (ends_fine w) w.
Proof.
  intros Hm. unfold drop_on_error. apply tells_bind. eapply tells_mono; [exact Hm|]. intros [| |[[]|x]] w1 [G1 F1];
    [by apply tells_ret..|]. apply tells_bind. eapply tells_mono; [apply silent_drop|]. intros b w2 G2. apply tells_ret.
  split; [grow|]. intros y Hy. destruct b; [|done]. eapply blamed_grows; [exact G2|]. by apply F1.
Qed.

Lemma fine_check_depth w : tells (check_depth (read_depth o) (option_wait_operations o)) (λ r w', w' = w ∧
  match r with
  | Ok _ => 1 ≤ read_depth o ≤ 2 ^ 31 ∨ read_depth o < 0
  | Err x => rejected o x
  end) w.
Proof.
  unfold check_depth, require, ENDPOINT_COUNT. apply tells_ok, tells_ret.
  destruct (Z.eqb_spec (read_depth o) 0) as [H0|H0]; cbn [negb orb].
  { split; [done|]. apply rejected_parity. by left. }
  destruct (Z.eqb_spec (read_depth o mod 2) 0) as [Hp|Hp]; cbn [negb].
  2: { split; [done|]. apply rejected_parity. by right. }
  apply tells_ok, tells_ret. change (SLOT_MASK + 1) with (2 ^ 31).
  destruct (Z.leb_spec (read_depth o) (2 ^ 31)) as [Hd|Hd].
  2: { split; [done|]. by apply rejected_depth. }
  apply tells_ret. split; [done|]. destruct (Z.eqb_spec (option_wait_operations o) 0); cbn [negb orb].
  { apply rejected_waits. by left. }
  destruct (Z.ltb_spec (read_depth o) (option_wait_operations o)); cbn [negb]; [apply rejected_waits; by right|].
  destruct (decide (read_depth o < 0)); [by right|left; lia].
Qed.

(** ** The program *)

Lemma blamed_rejected w x : rejected o x → blamed w x.
Proof. intros Hr. destruct Hr; left; by constructor. Qed.

Lemma fine_start fuel first second w : 0 ≤ read_depth o → (∃ g, parse_guid (config_guid first) = Ok g) →
  (∃ g, parse_guid (config_guid second) = Ok g) → grows w0 w →
  tells (Runtime_start fuel o first second) (ends_fine w) w.
Proof.
  intros Hpos Hg1 Hg2 Hg. unfold Runtime_start. cbv zeta. apply tells_try, tells_bind.
  eapply tells_mono; [apply fine_check_depth|]. intros [[]|x] w1 [-> Hd]; apply tells_ret.
  2: { split; [grow|]. intros y [= <-]. by apply blamed_rejected. }
  assert (1 ≤ read_depth o ≤ 2 ^ 31) as Hdepth by (destruct Hd; [done|lia]).
  apply tells_try, tells_bind. eapply tells_mono; [apply fine_check_mtu; [done|done|lia|done]|].
  intros [frame|x] w1 [[G1 F1] Hf]; apply tells_ret. 2: { split; [done|]. intros y [= <-]. auto. }
  apply ends_fine_later; [done|]. assert (grows w0 w1) as H1 by grow.
  apply tells_try, tells_bind. eapply tells_mono; [by apply fine_query_capabilities|].
  intros [version|x] w2 [[G2 F2] Hv]; apply tells_ret. 2: { split; [done|]. intros y [= <-]. auto. }
  apply ends_fine_later; [done|]. assert (grows w0 w2) as H2 by grow.
  apply then_try; [done|by apply fine_returned, fine_select_endpoints|]. intros [endpoints adaptive] w3 G3 H3.
  apply then_try; [done| |].
  { apply fine_returned, fine_on_error; [apply silent_drop_endpoints|by apply fine_create_ring]. }
  intros ring w4 G4 H4. apply then_try; [done| |].
  { apply fine_returned, fine_on_error.
    - apply silent_bind; [apply silent_quiet; quiet|]. intros [].
      apply silent_bind; [apply (call_silent (CloseIoRing ring))|]. intros []. apply silent_drop_endpoints.
    - apply fine_prepare_ring; [done|done|done|]. intros Hlt. eapply blamed_grows; [|by apply Hv]. grow. }
  intros pool w5 _ H5. apply then_silent_out; [|done|].
  { unfold RuntimeStats_new. apply silent_bind; [apply (call_silent InstantNow)|]. intros now. apply silent_quiet; quiet. }
  intros stats w6 _ H6. apply then_quiet_out; [quiet|]. intros []. by apply fine_drop_on_error, fine_first_reads.
Qed.

Lemma fine_run_switch fuel first second w : 0 ≤ read_depth o → (∃ g, parse_guid (config_guid first) = Ok g) →
  (∃ g, parse_guid (config_guid second) = Ok g) → grows w0 w →
  tells (run_switch fuel o first second) (ends_fine w) w.
Proof.
  intros Hpos Hg1 Hg2 Hg. unfold run_switch. step_call. intros added H1. cbn in added.
  destruct (Z.eqb_spec added 0) as [->|].
  { apply tells_ret. split; [grow|]. intros x [= <-]. apply blamed_call; [done|]. intros l. apply reports_handler. }
  apply then_try; [done|by apply fine_start|]. intros [] w2 _ H2. apply tells_bind.
  eapply tells_mono; [by apply fine_dropping, fine_Runtime_run|]. intros [| |r] w3 [G3 F3]; [by apply tells_ret..|].
  apply tells_bind. refine (tells_call (SetConsoleCtrlHandler false) _ _ _). intros x. apply tells_ret.
  split; [grow|]. intros y Hy. eapply blamed_grows; [apply grows_call|]. by apply F3.
Qed.
End calculus.

(** The GUIDs of an accepted command line can be parsed. *)
Lemma accepted_guids args o first second : parse_arguments args = Parsed (Ok o) → option_endpoints o = [first; second] →
  0 ≤ read_depth o ∧ (∃ g, parse_guid (config_guid first) = Ok g) ∧ (∃ g, parse_guid (config_guid second) = Ok g).
Proof.
  intros Hargs Ho. destruct (parse_loop_ok _ args default_options o (le_n _)) as [[D _ _ _ V _ _] _];
    [split; try done; constructor|exact Hargs|]. split; [apply D|]. rewrite Ho in V.
  assert (∀ c, (∃ v, parse_endpoint v = Ok c) → ∃ g, parse_guid (config_guid c) = Ok g) as Hc.
  { intros c [v Hv]. unfold parse_endpoint in Hv. destruct (split_once 61 v) as [[g p]|]; [|done].
    destruct (is_guid g) eqn:Hg; cbn [negb orb] in Hv; [|done]. split_if_in Hv; [done|]. injection Hv as <-.
    destruct (is_guid_parts _ Hg) as (p0 & p1 & p2 & p3 & p4 & E & Hp). cbn [config_guid]. rewrite E.
    eexists. by apply parse_guid_parts. }
  apply Forall_cons in V as [V1 V]. apply Forall_cons in V as [V2 _]. auto.
Qed.

(** Every error of the program has an origin, or is one of its own checks'. *)
Lemma run_blamed e fuel args o first second s w out s' w' x :
  parse_arguments args = Parsed (Ok o) → option_endpoints o = [first; second] →
  run fuel args e s w = Some (out, s', w') → out = Returned (Err x) → external x → due o w w' x.
Proof.
  intros Hargs Ho Hrun -> Hx. destruct (accepted_guids _ _ _ _ Hargs Ho) as (Hpos & Hg1 & Hg2).
  apply blamed_due; [|done]. revert Hrun. unfold run. rewrite Hargs, Ho. intros Hrun.
  assert (tells (first ← index [first; second] 0; second ← index [first; second] 1; run_switch fuel o first second)
    (ends_fine o w w) w) as Hfine.
  { apply tells_bind, tells_ret, tells_bind, tells_ret, fine_run_switch; first [done|apply trace_grows_refl]. }
  destruct (Hfine _ _ _ _ _ Hrun) as [_ Hblamed]. by apply Hblamed.
Qed.
