(* ===== verification/RuntimeTheorems.v ===== *)
(** * Theorems about the switch's run time

    Statements over every kernel that keeps [os_contract], with witnesses on a
    kernel that answers every call at once. *)

From S2P Require Import Prelude Words FrameParse Forwarding BufferPool Selection Completion.
From S2P Require Import Arguments Kernel Effects Runtime RuntimeLoop RuntimeStart RuntimeShape.
From S2P Require Import RuntimeSpec RuntimeOps RuntimeRun RuntimeWaits RuntimeShutdown.
From S2P Require Import RuntimeLife RuntimeErrors.

(** ** A kernel for the witnesses

    Every call succeeds; completions are reported operations first. *)

Definition names_slot (x : entry) : bool := bool_decide (is_Some (entry_slot x)).

(** The next entry to complete, and the others. *)
Fixpoint pick (l : list entry) : option (entry * list entry) :=
  match l with
  | [] => None
  | x :: l =>
      if names_slot x then Some (x, l)
      else match pick l with
           | Some (y, k) => if names_slot y then Some (y, x :: k) else Some (x, l)
           | None => Some (x, l)
           end
  end.

Lemma pick_perm l x k : pick l = Some (x, k) → l ≡ₚ x :: k.
Proof.
  revert x k. induction l as [|y l IH]; intros x k H; cbn in H; [done|].
  destruct (names_slot y); [by simplify_eq|]. destruct (pick l) as [[z m]|]; [|by simplify_eq].
  destruct (names_slot z); simplify_eq; [|done]. rewrite (IH x m eq_refl). apply Permutation_swap.
Qed.

Lemma pick_first l x k : pick l = Some (x, k) → names_slot x = false →
  ∀ y, y ∈ l → names_slot y = false.
Proof.
  revert x k. induction l as [|z l IH]; intros x k H Hx y Hy; cbn in H; [done|].
  destruct (names_slot z) eqn:Hz; [by simplify_eq; rewrite Hx in Hz|].
  destruct (pick l) as [[u m]|] eqn:Hp.
  - destruct (names_slot u) eqn:Hu; [by simplify_eq; rewrite Hx in Hu|].
    apply elem_of_cons in Hy as [->|Hy]; [done|]. by eapply IH.
  - apply elem_of_cons in Hy as [->|Hy]; [done|]. destruct l as [|v l]; [by apply not_elem_of_nil in Hy|].
    exfalso. cbn in Hp. repeat case_match; done.
Qed.

Lemma pick_None l : pick l = None → l = [].
Proof. destruct l as [|x l]; [done|]. intros H. cbn in H. repeat case_match; done. Qed.

Definition completion_of (x : entry) : IoRingCompletion :=
  {| user_data := entry_user_data x; result_code := S_OK; information := 60 |}.

Definition fresh_handle (k : kernel) : Z := fresh ({[0; INVALID_HANDLE_VALUE]} ∪ open_handles k).

Definition ideal_answer (c : os_call) (k : kernel) : os_ret c * kernel :=
  match c with
  | SubmitIoRing _ _ _ => (S_OK, k <| built := [] |> <| taken := taken k ++ built k |>)
  | PopIoRingCompletion _ =>
      match pick (taken k) with
      | Some (x, l) => ((S_OK, completion_of x), k <| taken := l |>)
      | None => ((S_FALSE, completion_of (RegisterEntry 0)), k)
      end
  | BuildIoRingReadFile _ h i n u => (S_OK, k <| built := built k ++ [ReadEntry h i n u] |>)
  | BuildIoRingWriteFile _ h i n u => (S_OK, k <| built := built k ++ [WriteEntry h i n u] |>)
  | BuildIoRingCancelRequest _ h o u => (S_OK, k <| built := built k ++ [CancelEntry h o u] |>)
  | BuildIoRingRegisterFileHandles _ _ | BuildIoRingRegisterBuffers _ _ =>
      (S_OK, k <| built := built k ++ [RegisterEntry 0] |>)
  | CreateIoRing _ _ _ =>
      let ring := fresh (open_rings k) in ((S_OK, ring), k <| open_rings := {[ring]} ∪ open_rings k |>)
  | CloseIoRing h => (tt, k <| open_rings := open_rings k ∖ {[h]} |>)
  | CloseHandle h => (tt, k <| open_handles := open_handles k ∖ {[h]} |>)
  | CreateFileW _ | CreateEventW =>
      let h := fresh_handle k in (h, k <| open_handles := {[h]} ∪ open_handles k |>)
  | GetLastError => (last_error k, k)
  | DeviceIoControl _ _ _ _ => ((1, 8), k)
  | GetOverlappedResult _ o _ => ((1, 4), set_outstanding o false k)
  | ResetEvent _ | CancelIoEx _ _ | IsIoRingOpSupported _ _ | SetConsoleCtrlHandler _ => (1, k)
  | WaitForMultipleObjects _ _ | InstantNow => (0, k)
  | QueryIoRingCapabilities => ((S_OK, 300), k)
  | GetIfTable2 => ((1, None), k)
  | TryReserveExact _ => (true, k)
  | LoadStopRequested => (true, k)
  | FreeMibTable | Sleep _ | YieldNow | Eprintln => (tt, k)
  end.

Definition ideal : env sys os_ret := λ w c s,
  let r := ideal_answer c (kern s) in (r.1, s <| kern := r.2 |>).

Lemma shared_kept_kern s k : shared_kept s (s <| kern := k |>).
Proof. by split. Qed.

Lemma fresh_handle_spec k : (fresh_handle k ∉ open_handles k) ∧ fresh_handle k ≠ 0 ∧
  fresh_handle k ≠ INVALID_HANDLE_VALUE.
Proof.
  pose proof (is_fresh ({[0; INVALID_HANDLE_VALUE]} ∪ open_handles k)) as H. fold (fresh_handle k) in H.
  set_solver.
Qed.

Lemma ideal_respects : respects os_contract ideal.
Proof.
  intros w c s. split; [apply shared_kept_kern|]. unfold ideal. cbn.
  pose proof (fresh_handle_spec (kern s)) as (F1 & F2 & F3). destruct c; cbn; try done.
  all: try (by destruct (kern s)).
  - (* a popped completion *)
    destruct (pick (taken (kern s))) as [[x l]|] eqn:Hp; [|done]. split; [done|].
    exists x. split; [by apply pick_perm|done].
  - split; [apply is_fresh|done].
  - by rewrite (proj2 (Z.eqb_neq _ _) F3).
  - by rewrite (proj2 (Z.eqb_neq _ _) F2).
  - unfold overlapped_result. cbn. rewrite orb_true_r. by destruct (kern s), o.
Qed.

Lemma ideal_prompt : prompt ideal.
Proof.
  intros w c s. unfold ideal. cbn. destruct c; cbn; try done. intros Ht.
  destruct (pick (taken (kern s))) as [[x l]|] eqn:Hp; [|by apply pick_None in Hp].
  split; [done|]. exists x. split; [by apply pick_perm|]. split; [done|].
  intros h op u -> y Hy Hs. exfalso. pose proof (pick_first _ _ _ Hp eq_refl y Hy) as H.
  unfold names_slot in H. by rewrite bool_decide_true in H.
Qed.

(** A process that has opened nothing. *)
Definition new_kernel : kernel :=
  {| built := []; taken := []; outstanding := ∅; local_outstanding := false; last_error := 0;
     open_handles := ∅; open_rings := ∅ |}.

Definition no_stats : RuntimeStats :=
  {| enabled := false; started := 0; last_report := 0; wait_calls := 0; signaled_wakes := 0;
     batches := 0; completions := 0; reads := 0; writes := 0; empty_reads := 0; max_batch := 0 |}.

(** A run time of two slots with frames of 64 bytes. *)
Definition small_runtime : Runtime :=
  {| ring := 7;
     endpoints := [new_endpoint 1 {| config_guid := []; interface_path := [] |} 11;
                   new_endpoint 2 {| config_guid := []; interface_path := [] |} 12];
     pool := {| slots := fresh_slots 2 |}; active := [None; None]; cancellations := [None; None];
     operations_may_be_in_flight := false; submission_queue_size := 2; reads_per_endpoint := 1;
     wait_operations := 1; completion_wait_milliseconds := 1; frame_maximum := 64;
     adaptive_polling := false; polling_budget := 1000; stats := no_stats |}.

Definition with_kernel (r : Runtime) (bufs : list (list Z)) (k : kernel) : sys :=
  {| rt := r; buffers := bufs; responses := [0; 0]; local_response := (0, 0); kern := k |}.

Definition new_process : sys := with_kernel small_runtime [] new_kernel.

Lemma new_process_blank : blank ∅ ∅ new_process.
Proof. split; try done. intros x Hx. by apply not_elem_of_nil in Hx. Qed.

(** The small run time with its ring and handles open. *)
Definition small_kernel : kernel :=
  new_kernel <| open_handles := {[11; 12]} |> <| open_rings := {[7]} |>.
Definition small_buffers : list (list Z) := replicate 2 (replicate (Z.to_nat 64) 0).
Definition small_process : sys := with_kernel small_runtime small_buffers small_kernel.
Definition small_geometry : geometry := started_geometry ∅ ∅ 7 2 64 11 12.

Lemma small_geometry_ok : geometry_ok small_geometry.
Proof. by apply started_geometry_ok; unfold FRAME_MAXIMUM; try lia. Qed.

Lemma small_process_inv : inv small_geometry [] small_process ∧ tidy small_runtime ∧
  pristine (slots_of small_runtime) small_process.
Proof.
  apply (inv_started ∅ ∅ 7 2 64 {| config_guid := []; interface_path := [] |}
    {| config_guid := []; interface_path := [] |} 11 12 small_runtime
    (with_kernel small_runtime small_buffers small_kernel)); try done; try lia.
  split; try done. intros x Hx. by apply not_elem_of_nil in Hx.
Qed.

(** ** Memory safety of the program *)

(** C2: the switch never reaches undefined behaviour.  For every command line,
    every kernel that keeps [os_contract] and every bound on the number of loop
    iterations, the program runs without reading a registered buffer or a
    response the kernel may still write, without freeing memory the kernel may
    still use, and without a panic; it exits with 0 or 1, aborts, or runs on. *)
Theorem switch_never_undefined (e : env sys os_ret) (fuel : nat) (args : list (list Z))
    (H R : gset Z) (s : sys) (w : world os_ret) :
  respects os_contract e → blank H R s →
  ∃ code s' w', main fuel args e s w = Some (code, s', w') ∧
    (code = None ∨ code = Some 0 ∨ code = Some 1).
Proof. intros He HB. exact (wp_main e He fuel args H R s w HB). Qed.

Lemma switch_never_undefined_witness :
  ∃ code s' w', main 5 example_arguments ideal new_process [] = Some (code, s', w') ∧
    (code = None ∨ code = Some 0 ∨ code = Some 1).
Proof.
  apply (switch_never_undefined ideal 5 example_arguments ∅ ∅ new_process []);
    [apply ideal_respects|apply new_process_blank].
Defined.





(** ** Start *)

(** C29: a failed start leaves nothing open.  [Runtime::start] ends with a run
    time that satisfies the invariant, or with an error and exactly the handles
    and rings that were open before; under a prompt kernel it neither aborts
    nor fails to return. *)
Theorem start_releases (e : env sys os_ret) (fuel : nat) (o : options)
    (first second : EndpointConfig) (H R : gset Z) (s : sys) (w : world os_ret) :
  respects os_contract e → blank H R s → fits 64 (read_depth o) →
  ∃ out s' w', Runtime_start fuel o first second e s w = Some (out, s', w') ∧
    match out with
    | Returned (Ok _) => ∃ g, geometry_ok g ∧ settled g s'
    | Returned (Err x) => open_handles (kern s') = H ∧ open_rings (kern s') = R ∧ external x
    | Running | Aborted => ¬ (prompt e ∧ (2 * Z.to_nat (read_depth o) < fuel)%nat)
    end.
Proof.
  intros He HB Hd.
  destruct (wp_Runtime_start e He (prompt e ∧ (2 * Z.to_nat (read_depth o) < fuel)%nat)
    fuel o first second H R s w) as (out & s' & w' & Hrun & Hend); [by intros [? _]|by intros [_ ?]|done|done|].
  exists out, s', w'. split; [done|]. destruct out as [| |[[]|x]]; [exact Hend..| |exact Hend].
  destruct Hend as (g & ? & _ & ?). by exists g.
Qed.

Lemma start_releases_witness :
  ∃ out s' w', Runtime_start 300 default_options {| config_guid := []; interface_path := [] |}
      {| config_guid := []; interface_path := [] |} ideal new_process [] = Some (out, s', w') ∧
    match out with
    | Returned (Ok _) => ∃ g, geometry_ok g ∧ settled g s'
    | Returned (Err x) => open_handles (kern s') = ∅ ∧ open_rings (kern s') = ∅ ∧ external x
    | Running | Aborted => ¬ (prompt ideal ∧ (2 * Z.to_nat (read_depth default_options) < 300)%nat)
    end.
Proof.
  apply (start_releases ideal 300 default_options _ _ ∅ ∅ new_process []);
    [apply ideal_respects|apply new_process_blank|done].
Defined.

(** ** Completions *)

(** Pop a completion and process it. *)
Definition process_next (sw : Switch) :
    P (option (IoRingCompletion * result (Switch * option bool) error)) :=
  popped ← pop_completion;
  match popped with
  | Ok (Some c) => r ← process_completion sw c; mret (Some (c, r))
  | _ => mret None
  end.

(** C13: what a completion leads to.  In a running switch every completion the
    kernel reports belongs to the current operation [a] of one slot [i], and
    - a busy one is queued again, the same operation with one more retry;
    - a finished write is followed by the next read of the same buffer;
    - a finished read of [information c] bytes has its frame forwarded: when
      the switch gives a recipient, exactly those bytes are written from the
      same buffer, which keeps them, to the other endpoint; when the frame is invalid, too long or
      has no recipient, the buffer is read again;
    - an empty adaptive read leaves the slot idle.
    Nothing else changes, the switch stays ready for the next completion, and
    only failures of the system are reported as errors. *)
Theorem completion_outcome (e : env sys os_ret) (g : geometry) (sw : Switch) (s : sys)
    (w : world os_ret) :
  respects os_contract e → geometry_ok g → inv g [] s → tidy (rt s) → connects sw →
  ∃ answer s' w', process_next sw e s w = Some (answer, s', w') ∧ inv g [] s' ∧
    match answer with
    | Some (c, Ok (sw', kind)) => ∃ i a s1,
        rt s1 = rt s ∧ active (rt s) !! i = Some (Some a) ∧ submitted a = true ∧
        user_data c = op_user_data a ∧ taken (kern s) ≡ₚ rw_entry (Z.of_nat i) a :: taken (kern s1) ∧
        processed g i a c sw sw' kind s1 s' ∧ tidy (rt s') ∧ connects sw'
    | Some (c, Err x) => external x
    | None => rt s' = rt s
    end.
Proof.
  intros He Hg HI Ht Hsw. unfold process_next.
  eapply (wp_bind e). eapply wp_mono; [by apply (wp_pop e He g)|]. intros r s1 w1 (E1 & _ & Hr).
  destruct r as [[c|]|x]; [|by apply wp_ret; destruct Hr|by apply wp_ret; destruct Hr].
  destruct Hr as (x & HI1 & Hu & Hn & Htk & _). rewrite <- E1 in Ht.
  destruct (popped_operation g x s1 HI1 Ht) as (i & a & Ha & Hq & Hs & Hx).
  apply wp_bind. eapply wp_mono; [by eapply (wp_process e He g Hg x i a)|].
  intros r s2 w2 [HI2 Hr]. apply wp_ret. split; [done|]. destruct r as [[sw' kind]|y]; [|done].
  destruct (processed_tidy g i a c sw sw' kind s1 s2 Ht Ha Hr Hsw) as (Ht2 & _ & Hsw2).
  exists i, a, s1. rewrite <- E1, Hu, Hx, rw_user_data. subst x. by split_and!.
Qed.

(** The small run time with both reads in flight. *)
Definition reading_process : option sys :=
  match post_first_reads 1 ideal small_process [] with
  | Some (Returned (Ok tt), s, _) => Some s
  | _ => None
  end.

Lemma reading_settled s : reading_process = Some s → settled small_geometry s.
Proof.
  intros Hs. destruct small_process_inv as (HI & Ht & Hp).
  assert (Hwp : wp ideal (post_first_reads 1) (λ o s' _, begun small_geometry False o s')
    small_process []).
  { apply (wp_post_first_reads ideal ideal_respects small_geometry small_geometry_ok); try assumption;
      first [by intros []|discriminate|reflexivity]. }
  destruct Hwp as (o & s' & w' & Hrun & Hb). unfold reading_process in Hs. rewrite Hrun in Hs.
  destruct o as [| |[[]|]]; [discriminate Hs..| |discriminate Hs]. injection Hs as <-. exact Hb.
Qed.

Definition small_switch : Switch :=
  {| switch_endpoints := {| Forwarding.endpoints := members |};
     fdb := ForwardingDatabase_new |}.

Lemma completion_outcome_witness :
  ∃ s c sw' kind s' w', reading_process = Some s ∧
    process_next small_switch ideal s [] = Some (Some (c, Ok (sw', kind)), s', w') ∧
    kind = Some true ∧ inv small_geometry [] s'.
Proof.
  destruct reading_process as [s|] eqn:Hs; [|vm_compute in Hs; discriminate Hs].
  pose proof (reading_settled s Hs) as [HI Ht _]. exists s.
  destruct (completion_outcome ideal small_geometry small_switch s [] ideal_respects
    small_geometry_ok HI Ht eq_refl) as (answer & s' & w' & Hrun & HI' & _).
  unfold reading_process in Hs. vm_compute in Hs. injection Hs as <-.
  pose proof Hrun as Hrun'. vm_compute in Hrun'. injection Hrun' as <- <- <-.
  eexists _, _, _, _, _. split; [reflexivity|]. split; [exact Hrun|]. split; [reflexivity|exact HI'].
Defined.

(** ** Loops *)

(** Both loops keep the switch settled.  From a settled state an iteration
    of the legacy and of the adaptive loop ends in a settled state, with every
    operation submitted and every pool state matching its operation, or stops,
    or reports a failure of the system. *)
Theorem iterations_keep_settled (e : env sys os_ret) (g : geometry) (fuel : nat) (sw : Switch)
    (idle_since : Z) (s : sys) (w : world os_ret) :
  respects os_contract e → geometry_ok g → g_handles g = None → settled g s → connects sw →
  (∃ r s' w', legacy_iteration sw e s w = Some (r, s', w') ∧
     match r with
     | Ok (inl sw') => settled g s' ∧ connects sw'
     | Ok (inr _) => inv g [] s'
     | Err x => inv g [] s' ∧ external x
     end) ∧
  (∃ o s' w', adaptive_iteration fuel (sw, idle_since) e s w = Some (o, s', w') ∧
     match o with
     | Returned (Ok (inl (sw', _))) => settled g s' ∧ connects sw'
     | Returned (Ok (inr _)) => inv g [] s'
     | Returned (Err x) => inv g [] s' ∧ external x
     | Running => True
     | Aborted => False
     end).
Proof.
  intros He Hg Hleak Hst Hsw. split.
  - destruct (wp_legacy_iteration e He g Hg sw s w Hst Hsw) as (r & s' & w' & Hrun & Hend).
    exists r, s', w'. split; [exact Hrun|]. by destruct r as [[]|].
  - destruct (wp_adaptive_iteration e He g Hg Hleak fuel sw idle_since s w Hst Hsw)
      as (o & s' & w' & Hrun & Hend).
    exists o, s', w'. split; [exact Hrun|]. by destruct o as [| |[[[]|]|]].
Qed.

Lemma iterations_keep_settled_witness :
  ∃ s r s' w', reading_process = Some s ∧
    legacy_iteration small_switch ideal s [] = Some (r, s', w').
Proof.
  destruct reading_process as [s|] eqn:Hs; [|vm_compute in Hs; discriminate Hs].
  destruct (iterations_keep_settled ideal (forgetting small_geometry) 1 small_switch 0 s []
    ideal_respects (forgetting_ok _ small_geometry_ok) eq_refl
    (settled_forgetting _ s (reading_settled s Hs)) eq_refl) as [(r & s' & w' & Hrun & _) _].
  by exists s, r, s', w'.
Defined.

(** ** Shutdown *)

(** C14: shutdown gets every buffer back.  From any state that satisfies the
    invariant, when the kernel answers promptly, [shutdown] returns within
    twice as many rounds as there are slots; then no operation, cancellation or
    wait is outstanding, and the run time can be destroyed without aborting. *)
Theorem shutdown_returns (e : env sys os_ret) (g : geometry) (fuel : nat) (s : sys)
    (w : world os_ret) :
  respects os_contract e → prompt e → geometry_ok g → g_running g = true → inv g [] s →
  (2 * g_depth g < fuel)%nat →
  ∃ r s' w', shutdown fuel e s w = Some (Returned r, s', w') ∧ (∀ x, r = Err x → external x) ∧
    built (kern s') = [] ∧ taken (kern s') = [] ∧ outstanding (kern s') = ∅ ∧
    any (active (rt s')) = false ∧
    ∃ s'' w'', Runtime_drop e s' w' = Some (true, s'', w'') ∧ buffers s'' = [].
Proof.
  intros He Hp Hg Hrun HI Hfuel.
  destruct (wp_shutdown e He (stopping g) (stopping_ok g Hg) eq_refl True (λ _, Hp) fuel (λ _, Hfuel)
    s w (inv_stopping _ _ _ HI) (fx_running _ _ (i_fixed _ _ _ HI) Hrun))
    as (o & s' & w' & Hrun' & Hend).
  destruct o as [| |r]; [by destruct Hend|done|]. destruct Hend as (Hh & Hx & Hi).
  specialize (Hi (or_intror I)). pose proof Hi as (_ & Hw & HB & HT & HA).
  exists r, s', w'. split; [done|]. split; [done|]. split; [done|]. split; [done|]. split; [done|].
  assert (Hany : any (active (rt s')) = false).
  { apply not_true_is_false. intros H. apply existsb_exists in H as (o & Hin & Hd).
    apply list_elem_of_In, list_elem_of_lookup in Hin as [i Hi']. rewrite (HA i o Hi') in Hd. done. }
  split; [done|].
  destruct (wp_Runtime_drop e He (stopping g) s' w' Hh) as (b & s2 & w2 & Hdrop & Hb).
  exists s2, w2. destruct b; [by destruct Hb|]. rewrite Hany, andb_false_r in Hb. done.
Qed.

Lemma shutdown_returns_witness :
  ∃ s r s' w', reading_process = Some s ∧ taken (kern s) ≠ [] ∧
    shutdown 5 ideal s [] = Some (Returned r, s', w') ∧ taken (kern s') = [].
Proof.
  destruct reading_process as [s|] eqn:Hs; [|vm_compute in Hs; discriminate Hs].
  pose proof (reading_settled s Hs) as [HI _ _].
  destruct (shutdown_returns ideal small_geometry 5 s [] ideal_respects ideal_prompt
    small_geometry_ok eq_refl HI) as (r & s' & w' & Hrun & _ & _ & Ht & _); [cbn; lia|].
  exists s, r, s', w'. split; [reflexivity|]. split; [|by split].
  unfold reading_process in Hs. vm_compute in Hs. injection Hs as <-. discriminate.
Defined.

(** The memory of a run time is only freed when the kernel is done with it.
    After the run loop, for whatever reason it ended, [Runtime::run] performs a
    shutdown, and the destruction that follows either frees the buffers while
    the kernel holds no entry for any of them, or aborts the process because
    submitted operations could not be reaped. *)
Theorem run_then_drop (e : env sys os_ret) (g : geometry) (fuel : nat) (s : sys)
    (w : world os_ret) :
  respects os_contract e → geometry_ok g → g_running g = true → settled g s →
  ∃ o s' w', dropping (Runtime_run fuel) e s w = Some (o, s', w') ∧
    match o with
    | Returned r => buffers s' = [] ∧ (∀ x, r = Err x → external x)
    | Running | Aborted => True
    end.
Proof.
  intros He Hg Hrun Hst. destruct (wp_run_and_drop e He g fuel s w Hg Hrun Hst) as (o & s' & w' & H & Hd).
  exists o, s', w'. split; [done|]. by destruct o.
Qed.

Lemma run_then_drop_witness :
  ∃ s o s' w', reading_process = Some s ∧
    dropping (Runtime_run 9) ideal s [] = Some (o, s', w').
Proof.
  destruct reading_process as [s|] eqn:Hs; [|vm_compute in Hs; discriminate Hs].
  destruct (run_then_drop ideal small_geometry 9 s [] ideal_respects small_geometry_ok eq_refl
    (reading_settled s Hs)) as (o & s' & w' & Hrun & _).
  by exists s, o, s', w'.
Defined.

(** ** The event leak *)

(** Submitting a wait that is already pending leaks an event.  The call
    returns at once, but first opens a handle that no endpoint refers to and
    that is never closed. *)
Theorem resubmitted_wait_leaks_event (e : env sys os_ret) (g : geometry) (i interest : Z)
    (wait : AdaptiveWait) (s : sys) (w : world os_ret) :
  respects os_contract e → inv g [] s → i = 0 ∨ i = 1 → wait_of s i = Some wait →
  pending wait = true → request_interest wait = interest →
  ∃ r s' w', submit_adaptive_wait i interest e s w = Some (r, s', w') ∧
    match r with
    | Ok _ => r = Ok false ∧ wait_of s' i = Some wait ∧
        ∃ h, (h ∉ open_handles (kern s)) ∧ open_handles (kern s') = {[h]} ∪ open_handles (kern s)
    | Err _ => open_handles (kern s') = open_handles (kern s)
    end.
Proof.
  intros He HI Hi Hw Hp Hr. unfold submit_adaptive_wait, AdaptiveWait_new.
  apply (wp_bind_ok e), wp_bind. os_call. intros h s1 Hk Ha. pose proof (kept_rt _ _ Hk) as E1.
  cbn in Ha. destruct (h =? 0).
  { unfold win32. apply wp_bind. os_call. intros x s2 Hk2 [_ E2]. apply wp_ret. by rewrite E2, Ha. }
  apply wp_ret. destruct Ha as [Hn Ha].
  unfold wait_of in Hw. destruct (at_index (endpoints (rt s)) i) as [ep|] eqn:Hep; [|done]. cbn in Hw.
  eapply (wp_endpoint_at e); [by rewrite E1|]. rewrite Hw. cbn.
  eapply (wp_set_wait e); [by rewrite E1|]. rewrite Hp, Hr, Z.eqb_refl. apply wp_ret.
  split; [done|]. split; [by apply steady_wait; rewrite E1|]. exists h. split; [done|]. cbn. by rewrite Ha.
Qed.

(** The small run time with a pending wait on its first endpoint. *)
Definition waiting_wait : AdaptiveWait := {| event := 21; request_interest := 1; pending := true |}.
Definition waiting_process : sys :=
  with_wait small_process 0 (new_endpoint 1 {| config_guid := []; interface_path := [] |} 11) waiting_wait.

Lemma resubmitted_wait_leaks_event_witness :
  ∃ r s' w', submit_adaptive_wait 0 1 ideal waiting_process [] = Some (r, s', w') ∧ r = Ok false ∧
    ∃ h, (h ∉ open_handles (kern waiting_process)) ∧
      open_handles (kern s') = {[h]} ∪ open_handles (kern waiting_process).
Proof.
  destruct small_process_inv as (HI & _ & _).
  destruct (resubmitted_wait_leaks_event ideal (forgetting small_geometry) 0 1 waiting_wait
    waiting_process [] ideal_respects) as (r & s' & w' & Hrun & Hr).
  - apply inv_wait; [reflexivity|by apply inv_forgetting|reflexivity|done].
  - by left.
  - reflexivity.
  - reflexivity.
  - reflexivity.
  - exists r, s', w'. split; [exact Hrun|]. destruct r as [b|]; [|vm_compute in Hrun; discriminate Hrun].
    destruct Hr as (-> & _ & Hh). split; [reflexivity|exact Hh].
Defined.
