(* ===== verification/Datapath.v ===== *)
(** * The packet driver's data path: state, framework calls and frame queues
    ([wintap-netadaptercx-driver/src/lib.rs])

    The part of [InstanceState] the packet callbacks and the request handlers
    share, the framework calls they make, and the operations on the two frame
    queues (injection: written by the owner, indicated to the network stack;
    capture: sent by the stack, read by the owner).

    A handler is a program of [Effects].  Before every access to an atomic, and
    while a framework call runs, other threads may change what they share
    ([OtherThreads]).  A frame queue is read and changed only under its spin
    lock; an access without it is undefined, and so are acquiring a lock twice,
    completing a request that the handler does not own, and completing one while
    a spin lock is held.

    [log] is not part of the driver: it records what a handler did, the latest
    first, for the theorems. *)

From S2P Require Import Prelude Words DriverConstants Effects Ring FrameQueue.

(** ** Packets and fragments

    The elements of the rings NetAdapterCx shares with the driver, with the
    fields the code reads and writes.  The bindings, which are generated from
    the NetAdapterCx headers, give the sizes of the elements, the width of the
    [ValidLength] bit field and the Ethernet layer type. *)

Record bindings := {
  size_of_NET_PACKET : Z;
  size_of_NET_FRAGMENT : Z;
  ValidLength_bits : Z;
  NetPacketLayer2TypeEthernet : Z;
}.

Record NET_PACKET_LAYOUT := { Layer2Type : Z; Layer2HeaderLength : Z }.

Definition NET_PACKET_LAYOUT_default : NET_PACKET_LAYOUT :=
  {| Layer2Type := 0; Layer2HeaderLength := 0 |}.

#[export] Instance NET_PACKET_LAYOUT_eta : Eta NET_PACKET_LAYOUT := λ l,
  Build_NET_PACKET_LAYOUT (Layer2Type l) (Layer2HeaderLength l).

Record NET_PACKET := {
  FragmentIndex : Z;
  FragmentCount : Z;
  Ignore : Z;
  Layout : NET_PACKET_LAYOUT;
}.

#[export] Instance NET_PACKET_eta : Eta NET_PACKET := λ p,
  Build_NET_PACKET (FragmentIndex p) (FragmentCount p) (Ignore p) (Layout p).

Record NET_FRAGMENT := { Capacity : Z; ValidLength : Z; Offset : Z }.

#[export] Instance NET_FRAGMENT_eta : Eta NET_FRAGMENT := λ f,
  Build_NET_FRAGMENT (Capacity f) (ValidLength f) (Offset f).

#[export] Instance NET_RING_eta : Eta NET_RING := λ r,
  Build_NET_RING (ElementStride r) (NumberOfElements r) (ElementIndexMask r) (BeginIndex r)
    (EndIndex r) (Buffer r).

(** ** State *)

Record InstanceState := {
  frame_maximum : Z;
  read_queue : Z;
  injection_lock : Z;
  capture_lock : Z;
  frame_pool : Z;
  injection_queue : option FrameQueue;
  capture_queue : option FrameQueue;
  read_work_item : Z;
  legacy_direct_read_lock : Z;
  write_lifetime_lock : Z;
  rx_queue : Z;
  rx_notification_armed : bool;
  pending_reads : Z;
  legacy_direct_read_claims : Z;
  pending_writes : Z;
  adaptive_enabled : bool;
  injection_generation : Z;
  capture_generation : Z;
  owner_generation : Z;
  lifecycle : Z;
  mtu : Z;
  mac_address : list Z;
  adapter : Z;
  state_lock : Z;
  active_packet_filters : Z;
  active_multicast_address_count : Z;
  active_multicast_addresses : list (list Z);
  tx_queue : Z;
  tx_queue_started : bool;
  rx_queue_started : bool;
  control_open : bool;
}.

#[export] Instance InstanceState_eta : Eta InstanceState := λ i,
  Build_InstanceState (frame_maximum i) (read_queue i) (injection_lock i) (capture_lock i)
    (frame_pool i) (injection_queue i) (capture_queue i) (read_work_item i)
    (legacy_direct_read_lock i) (write_lifetime_lock i) (rx_queue i) (rx_notification_armed i)
    (pending_reads i) (legacy_direct_read_claims i) (pending_writes i) (adaptive_enabled i)
    (injection_generation i) (capture_generation i) (owner_generation i) (lifecycle i)
    (mtu i) (mac_address i) (adapter i) (state_lock i) (active_packet_filters i)
    (active_multicast_address_count i) (active_multicast_addresses i) (tx_queue i)
    (tx_queue_started i) (rx_queue_started i) (control_open i).

Inductive queue_name := Injection | Capture.

#[export] Instance queue_name_eq_dec : EqDecision queue_name.
Proof. solve_decision. Defined.

Inductive counter := PendingReads | PendingWrites | LegacyDirectReadClaims.

#[export] Instance counter_eq_dec : EqDecision counter.
Proof. solve_decision. Defined.

(** ** Calls

    The parts of the driver that other files verify are calls here: leases and
    quiesce scopes ([Lease]) and the adaptive wait ([WaitProtocol]). *)

(** The structures passed to NetAdapterCx, with the fields that are set. *)
Record NET_ADAPTER_LINK_STATE := {
  TxLinkSpeed : Z;
  RxLinkSpeed : Z;
  MediaConnectState : Z;
  MediaDuplexState : Z;
  SupportedPauseFunctions : Z;
  AutoNegotiationFlags : Z;
}.

Record NET_ADAPTER_TX_CAPABILITIES := {
  MappingRequirement : Z;
  PayloadBackfill : Z;
  MaximumNumberOfFragments : Z;
  TxFragmentBufferAlignment : Z;
  TxFragmentRingNumberOfElementsHint : Z;
  TxMaximumNumberOfQueues : Z;
  DmaCapabilities : Z;
}.

Record NET_ADAPTER_RX_CAPABILITIES := {
  AllocationMode : Z;
  AttachmentMode : Z;
  RxFragmentRingNumberOfElementsHint : Z;
  MaximumFrameSize : Z;
  RxMaximumNumberOfQueues : Z;
  RxFragmentBufferAlignment : Z;
}.

Inductive dp_call :=
  | OtherThreads
  | SpuriousFailure                         (* of [compare_exchange_weak] *)
  | AcquireLease (n : queue_name)
  | ReleaseLease (n : queue_name)
  | ClaimWaitForPassiveCompletion (interest : Z)
  | ServeScheduledWait
  | WdfSpinLockAcquire (lock : Z)
  | WdfSpinLockRelease (lock : Z)
  | WdfWaitLockAcquire (lock : Z) (immediate : bool)
  | WdfWaitLockRelease (lock : Z)
  | WdfMemory                               (* how the memory calls answer *)
  | WdfMemoryDelete (memory : Z)
  | WdfRequestRetrieveInputBuffer (request minimum : Z)
  | WdfRequestRetrieveOutputBuffer (request minimum : Z)
  | WdfRequestComplete (request status : Z)
  | WdfRequestCompleteWithInformation (request status information : Z)
  | WdfRequestForwardToIoQueue (request queue : Z)
  | WdfIoQueueRetrieveNextRequest (queue : Z)
  | WdfWorkItemEnqueue (work_item : Z)
  | NetRxQueueNotifyMoreReceivedPacketsAvailable (queue : Z)
  | KeGetCurrentIrql
  | DbgPrintEx
  (* life cycle *)
  | QuiesceDatapathCallbacks (closer : Z)
  | ResumeDatapathCallbacks (closer : Z)
  | CancelWaitForTeardown
  | WaitRequestIsActive (request : Z)
  | CancelWaitRequestForTeardown (request : Z)
  | HandleWaitForChange (request output_length input_length : Z)
  | WdfWorkItemFlush (work_item : Z)
  | WdfIoQueuePurgeSynchronously (queue : Z)
  | WdfIoQueueStart (queue : Z)
  | NetAdapterSetLinkLayerCapabilities (adapter max_tx max_rx : Z)
  | NetAdapterSetLinkLayerMtuSize (adapter mtu : Z)
  | NetAdapterSetPermanentLinkLayerAddress (adapter length : Z) (address : list Z)
  | NetAdapterSetCurrentLinkLayerAddress (adapter length : Z) (address : list Z)
  | NetAdapterSetLinkState (adapter : Z) (state : NET_ADAPTER_LINK_STATE)
  | NetAdapterSetDataPathCapabilities (adapter : Z) (tx : NET_ADAPTER_TX_CAPABILITIES)
      (rx : NET_ADAPTER_RX_CAPABILITIES)
  | NetAdapterSetReceiveFilterCapabilities (adapter supported maximum : Z)
  | NetAdapterStart (adapter : Z)
  | NetAdapterStop (adapter : Z)
  | NetPacketQueueCreate (is_transmit : bool)
  | NetPacketQueueGetRingCollection (is_transmit : bool) (queue : Z)
  | NetPacketQueueGetExtension (is_transmit : bool) (queue : Z).

(** What a handler did. *)
Inductive note :=
  | Queued (n : queue_name) (o : queue_op) (out : queue_out)
  | Created (f : Frame)
  | Freed (f : Frame)
  | AdmissionTaken (c : counter)
  | AdmissionReturned (c : counter)
  | Completed (request status information : Z) (output : list Z)
  | Forwarded (request queue : Z)
  | Called (c : dp_call).                    (* a life-cycle call *)

(** The instance, the rings of the packet queue whose callback runs, the
    buffers of requests, and what this thread holds. *)
Record dev := {
  st : InstanceState;
  extension : NET_EXTENSION;
  packet_ring : option NET_RING;
  fragment_ring : option NET_RING;
  packets : gmap Z NET_PACKET;          (* by address *)
  fragments : gmap Z NET_FRAGMENT;      (* by address *)
  virtual_addresses : gmap Z Z;         (* [NET_FRAGMENT_VIRTUAL_ADDRESS] by address *)
  payload : gmap Z Z;                   (* the bytes of the fragments' buffers *)
  inputs : gmap Z (list Z);
  outputs : gmap Z (list Z);
  owned : gset Z;
  held : gset Z;                        (* spin locks *)
  guards : gset Z;                      (* wait locks *)
  log : list note;
}.

#[export] Instance dev_eta : Eta dev := λ s,
  Build_dev (st s) (extension s) (packet_ring s) (fragment_ring s) (packets s) (fragments s)
    (virtual_addresses s) (payload s) (inputs s) (outputs s) (owned s) (held s) (guards s) (log s).

Definition dp_ret (c : dp_call) : Type :=
  match c with
  | OtherThreads | ReleaseLease _ | ClaimWaitForPassiveCompletion _ | WdfSpinLockAcquire _
  | WdfSpinLockRelease _ | WdfWaitLockRelease _ | WdfMemoryDelete _ | WdfRequestComplete _ _
  | WdfRequestCompleteWithInformation _ _ _ | WdfWorkItemEnqueue _
  | NetRxQueueNotifyMoreReceivedPacketsAvailable _ | DbgPrintEx
  | QuiesceDatapathCallbacks _ | ResumeDatapathCallbacks _ | CancelWaitForTeardown
  | HandleWaitForChange _ _ _ | WdfWorkItemFlush _ | WdfIoQueuePurgeSynchronously _
  | WdfIoQueueStart _ | NetAdapterSetLinkLayerCapabilities _ _ _ | NetAdapterSetLinkLayerMtuSize _ _
  | NetAdapterSetPermanentLinkLayerAddress _ _ _ | NetAdapterSetCurrentLinkLayerAddress _ _ _
  | NetAdapterSetLinkState _ _ | NetAdapterSetDataPathCapabilities _ _ _
  | NetAdapterSetReceiveFilterCapabilities _ _ _ | NetAdapterStop _ => unit
  | SpuriousFailure | AcquireLease _ | ServeScheduledWait | WaitRequestIsActive _
  | CancelWaitRequestForTeardown _ => bool
  | WdfWaitLockAcquire _ _ | WdfRequestForwardToIoQueue _ _ | KeGetCurrentIrql
  | NetAdapterStart _ => Z
  | WdfRequestRetrieveInputBuffer _ _ | WdfRequestRetrieveOutputBuffer _ _
  | WdfIoQueueRetrieveNextRequest _ | NetPacketQueueCreate _ => Z * Z
  | NetPacketQueueGetRingCollection _ _ => option (option NET_RING * option NET_RING)
  | NetPacketQueueGetExtension _ _ => NET_EXTENSION
  | WdfMemory => wdf_memory
  end.

Abbreviation D := (M dev dp_ret).
Abbreviation call c := (do_call (S:=dev) (ret:=dp_ret) c).

(** ** Shared memory *)

Definition config {A} (f : InstanceState → A) : D A := s ← get; mret (f (st s)).

Definition record (n : note) : D unit := s ← get; put (s <| log := n :: log s |>).

Definition load {A} (f : InstanceState → A) : D A := _ ← call OtherThreads; config f.

Definition modify (f : InstanceState → InstanceState) : D unit :=
  _ ← call OtherThreads; s ← get; put (s <| st := f (st s) |>).

Definition counter_of (c : counter) (i : InstanceState) : Z :=
  match c with
  | PendingReads => pending_reads i
  | PendingWrites => pending_writes i
  | LegacyDirectReadClaims => legacy_direct_read_claims i
  end.

Definition set_counter (c : counter) (v : Z) (i : InstanceState) : InstanceState :=
  match c with
  | PendingReads => i <| pending_reads := v |>
  | PendingWrites => i <| pending_writes := v |>
  | LegacyDirectReadClaims => i <| legacy_direct_read_claims := v |>
  end.

Definition compare_exchange_weak (c : counter) (current new : Z) : D (result Z Z) :=
  spurious ← call SpuriousFailure;
  s ← get;
  let observed := counter_of c (st s) in
  if (observed =? current) && negb spurious
  then _ ← put (s <| st := set_counter c new (st s) |>); mret (Ok observed)
  else mret (Err observed).

(** [None]: still trying when the fuel is used up. *)
Fixpoint try_admit_loop (fuel : nat) (c : counter) (limit current : Z) : D (option bool) :=
  match fuel with
  | O => mret None
  | S fuel =>
      if limit <=? current then mret (Some false)
      else
        r ← compare_exchange_weak c current (current + 1);
        match r with
        | Ok _ => _ ← record (AdmissionTaken c); mret (Some true)
        | Err observed => try_admit_loop fuel c limit observed
        end
  end.

Definition try_admit (fuel : nat) (c : counter) (limit : Z) : D (option bool) :=
  current ← load (counter_of c); try_admit_loop fuel c limit current.

(** [fetch_update] with [checked_sub(1)]: zero stays. *)
Definition release_request (c : counter) : D unit :=
  _ ← modify (λ i, set_counter c (default (counter_of c i) (checked_sub (counter_of c i) 1)) i);
  record (AdmissionReturned c).

(** ** Locks *)

Definition spin_acquire (lock : Z) : D unit :=
  s ← get;
  if decide (lock ∈ held s) then undefined
  else _ ← call (WdfSpinLockAcquire lock); s ← get; put (s <| held := {[lock]} ∪ held s |>).

Definition spin_release (lock : Z) : D unit :=
  s ← get;
  if decide (lock ∈ held s)
  then _ ← put (s <| held := held s ∖ {[lock]} |>); call (WdfSpinLockRelease lock)
  else undefined.

(** A critical section. *)
Definition with_lock {A} (lock : Z) (m : D A) : D A :=
  _ ← spin_acquire lock; r ← m; _ ← spin_release lock; mret r.

(** Whether the guard was acquired. *)
Definition guard_acquire (lock : Z) (immediate : bool) : D bool :=
  if lock =? 0 then mret false
  else
    s ← get;
    if decide (lock ∈ guards s) then undefined
    else
      status ← call (WdfWaitLockAcquire lock immediate);
      if status =? STATUS_SUCCESS
      then s ← get; _ ← put (s <| guards := {[lock]} ∪ guards s |>); mret true
      else mret false.

Definition guard_release (lock : Z) : D unit :=
  s ← get;
  if decide (lock ∈ guards s)
  then _ ← put (s <| guards := guards s ∖ {[lock]} |>); call (WdfWaitLockRelease lock)
  else undefined.

(** ** Frames *)

Definition new_frame (make : wdf_memory → option (result Frame QueueError)) :
    D (result Frame QueueError) :=
  api ← call WdfMemory;
  r ← from_option (make api);
  match r with
  | Ok f => _ ← record (Created f); mret (Ok f)
  | Err e => mret (Err e)
  end.

(** The memory calls of [Frame::new] and [Frame::from_bytes] are answered by the
    [wdf_memory] they run with. *)
Definition Frame_new_call (pool : Z) : D (result Frame QueueError) :=
  new_frame (λ api, Some (snd (Frame_new api pool))).

Definition Frame_from_bytes_call (pool : Z) (bytes : list Z) : D (result Frame QueueError) :=
  new_frame (λ api, snd <$> from_bytes api pool bytes).

(** A frame goes out of scope. *)
Definition drop_frame (f : Frame) : D unit :=
  _ ← from_option (Frame_drop f);
  _ ← (if memory f =? 0 then mret tt else call (WdfMemoryDelete (memory f)));
  record (Freed f).

Fixpoint drop_frames (l : list Frame) : D unit :=
  match l with [] => mret tt | f :: l => _ ← drop_frame f; drop_frames l end.

(** ** The queues *)

Definition queue_lock (n : queue_name) (i : InstanceState) : Z :=
  match n with Injection => injection_lock i | Capture => capture_lock i end.

Definition queue_of (n : queue_name) (i : InstanceState) : option FrameQueue :=
  match n with Injection => injection_queue i | Capture => capture_queue i end.

Definition set_queue (n : queue_name) (q : FrameQueue) (i : InstanceState) : InstanceState :=
  match n with
  | Injection => i <| injection_queue := Some q |>
  | Capture => i <| capture_queue := Some q |>
  end.

Definition locked_queue (n : queue_name) : D (option FrameQueue) :=
  s ← get;
  if decide (queue_lock n (st s) ∈ held s) then mret (queue_of n (st s)) else undefined.

(** A call of a method of the queue; [None] when there is no queue. *)
Definition queue_call (n : queue_name) (o : queue_op) : D (option queue_out) :=
  q ← locked_queue n;
  match q with
  | None => mret None
  | Some q =>
      r ← from_option (queue_step q o);
      s ← get;
      _ ← put (s <| st := set_queue n r.1 (st s) |> <| log := Queued n o r.2 :: log s |>);
      _ ← drop_frames (dropped r.2);
      mret (Some r.2)
  end.

Definition generation_of (n : queue_name) (i : InstanceState) : Z :=
  match n with Injection => injection_generation i | Capture => capture_generation i end.

Definition bump_generation (n : queue_name) : D unit :=
  modify (λ i, match n with
               | Injection => i <| injection_generation := wrap 64 (injection_generation i + 1) |>
               | Capture => i <| capture_generation := wrap 64 (capture_generation i + 1) |>
               end).

Definition claim_wait_for_passive_completion (interest : Z) : D unit :=
  call (ClaimWaitForPassiveCompletion interest).

Definition enqueue_existing_injection_frame (frame : Frame) : D (result unit QueueError) :=
  lock ← config injection_lock;
  if lock =? 0 then _ ← drop_frame frame; mret (Err Closed)
  else
    result ← with_lock lock (
      out ← queue_call Injection (QEnqueue frame);
      match out with
      | Some out => mret (answer out)
      | None => _ ← drop_frame frame; mret (Err Closed)
      end);
    _ ← (if is_ok result then bump_generation Injection else mret tt);
    mret result.

Definition enqueue_injection_frame (bytes : list Z) : D (result unit QueueError) :=
  lock ← config injection_lock;
  if lock =? 0 then mret (Err Closed)
  else
    capacity ← with_lock lock (
      q ← locked_queue Injection;
      mret (match q with Some q => check_capacity q (len bytes) | None => Err Closed end));
    _ ←? mret capacity;
    pool ← config frame_pool;
    frame ←? Frame_from_bytes_call pool bytes;
    enqueue_existing_injection_frame frame.

Definition enqueue_existing_capture_frame (frame : Frame) : D (result unit QueueError) :=
  lock ← config capture_lock;
  if lock =? 0 then _ ← drop_frame frame; mret (Err Closed)
  else
    '(out, was_empty) ← with_lock lock (
      q ← locked_queue Capture;
      out ← queue_call Capture (QEnqueue frame);
      mret (out, match q with Some q => queue_is_empty q | None => false end));
    let result := match out with Some out => answer out | None => Err Closed end in
    _ ← (if is_ok result then
           _ ← bump_generation Capture;
           if was_empty : bool then claim_wait_for_passive_completion ADAPTIVE_INTEREST_READABLE
           else mret tt
         else mret tt);
    _ ← (if out is Some _ then mret tt else drop_frame frame);
    mret result.

(** The frame, and whether the queue was open and full before. *)
Definition dequeue_injection_frame : D (option Frame * bool) :=
  lock ← config injection_lock;
  if lock =? 0 then mret (None, false)
  else
    '(frame, was_full_transition) ← with_lock lock (
      q ← locked_queue Injection;
      let was_full := match q with
                      | Some q => bool_decide (queue_state q = QOpen)
                                  && (queue_len q =? FRAME_QUEUE_LIMIT)
                      | None => false
                      end in
      out ← queue_call Injection QDequeue;
      let frame := match out with Some out => handed_out out | None => None end in
      mret (frame, bool_decide (is_Some frame) && was_full));
    _ ← (if frame is Some _ then bump_generation Injection else mret tt);
    mret (frame, was_full_transition).

Definition dequeue_capture_frame : D (option Frame) :=
  lock ← config capture_lock;
  if lock =? 0 then mret None
  else
    frame ← with_lock lock (
      out ← queue_call Capture QDequeue;
      mret (match out with Some out => handed_out out | None => None end));
    _ ← (if frame is Some _ then bump_generation Capture else mret tt);
    mret frame.

(** The instance is open, for the owner it had before. *)
Definition owned_by (owner : Z) : D bool :=
  open ← load lifecycle;
  if open =? INSTANCE_OPEN then current ← load owner_generation; mret (current =? owner)
  else mret false.

Definition requeue_injection_frame (frame : Frame) (owner : Z) : D unit :=
  current ← owned_by owner;
  if current : bool then _ ← enqueue_existing_injection_frame frame; mret tt
  else drop_frame frame.

Definition requeue_capture_frame_and_schedule_wait (frame : Frame) (owner : Z) : D unit :=
  granted ← call (AcquireLease Capture);
  if negb granted then drop_frame frame
  else
    current ← owned_by owner;
    _ ← (if current : bool then _ ← enqueue_existing_capture_frame frame; mret tt
         else drop_frame frame);
    call (ReleaseLease Capture).

Definition has_queued_injection_frame : D bool :=
  lock ← config injection_lock;
  if lock =? 0 then mret false
  else
    with_lock lock (
      q ← locked_queue Injection;
      mret (match q with Some q => negb (queue_is_empty q) | None => false end)).

(** One queue of [clear_frame_queues] and [reopen_frame_queues]. *)
Definition reset_queue (n : queue_name) (o : queue_op) : D unit :=
  lock ← config (queue_lock n);
  if lock =? 0 then mret tt
  else
    _ ← with_lock lock (queue_call n o);
    bump_generation n.

Definition clear_frame_queues : D unit :=
  _ ← reset_queue Injection QClose; reset_queue Capture QClose.

Definition reopen_frame_queues : D unit :=
  _ ← reset_queue Injection QReopen; reset_queue Capture QReopen.

(** ** Requests *)

(** What both completions do: the request is answered and its buffers are gone. *)
Definition finish_request (request status information : Z) (completion : D unit) : D unit :=
  s ← get;
  if decide (request ∈ owned s ∧ held s = ∅) then
    _ ← put (s <| owned := owned s ∖ {[request]} |>
               <| inputs := delete request (inputs s) |> <| outputs := delete request (outputs s) |>
               <| log := Completed request status information
                    (take (Z.to_nat information) (default [] (outputs s !! request))) :: log s |>);
    completion
  else undefined.

Definition complete_request (request status : Z) : D unit :=
  finish_request request status 0 (call (WdfRequestComplete request status)).

Definition complete_request_with_information (request status information : Z) : D unit :=
  finish_request request status information
    (call (WdfRequestCompleteWithInformation request status information)).

(** A copy into the output buffer of a request, from [offset] on. *)
Definition write_output (request offset : Z) (bytes : list Z) : D unit :=
  s ← get;
  b ← from_option (outputs s !! request);
  if (0 <=? offset) && (offset + len bytes <=? len b)
  then put (s <| outputs := <[request := splice b offset bytes]> (outputs s) |>)
  else undefined.

Definition forward_request (request target_queue : Z) : D bool :=
  if target_queue =? 0 then _ ← complete_request request STATUS_NOT_SUPPORTED; mret false
  else
    status ← call (WdfRequestForwardToIoQueue request target_queue);
    if negb (status =? STATUS_SUCCESS) then
      _ ← call DbgPrintEx;
      _ ← complete_request request status;
      mret false
    else
      s ← get;
      if decide (request ∈ owned s) then
        _ ← put (s <| owned := owned s ∖ {[request]} |>
                   <| inputs := delete request (inputs s) |>
                   <| outputs := delete request (outputs s) |>
                   <| log := Forwarded request target_queue :: log s |>);
        mret true
      else undefined.

Definition enqueue_work_item (work_item : Z) : D unit :=
  if work_item =? 0 then mret tt else call (WdfWorkItemEnqueue work_item).

Definition take_rx_notification : D Z :=
  _ ← call OtherThreads;
  s ← get;
  _ ← put (s <| st := (st s) <| rx_notification_armed := false |> |>);
  mret (if rx_notification_armed (st s) then rx_queue (st s) else 0).

Definition notify_more_received_packets (queue : Z) : D unit :=
  call (NetRxQueueNotifyMoreReceivedPacketsAvailable queue).
