(* ===== verification/DatapathPaths.v ===== *)
(** * The packet driver's data path: packet callbacks and request handlers
    ([wintap-netadaptercx-driver/src/lib.rs])

    Receive injection, transmit capture, direct delivery to a pending read, the
    read and write handlers, the passive worker, and the other packet-queue
    callbacks.  Dereferencing an address that holds no packet, fragment or
    virtual address, and reading or writing a byte outside a mapped buffer, are
    undefined. *)

From S2P Require Import Prelude Words DriverConstants Effects Ring FrameQueue Datapath.

(** ** The rings *)

Section paths.
Context (B : bindings).

(** [packet_at] and the reference made of its result. *)
Definition packet_ref (s : dev) (index : Z) : option (option (Z * NET_PACKET)) :=
  match packet_at (size_of_NET_PACKET B) (packet_ring s) index with
  | None => Some None
  | Some address => packet ← packets s !! address; Some (Some (address, packet))
  end.

Definition fragment_ref (s : dev) (index : Z) : option (option (Z * NET_FRAGMENT)) :=
  match fragment_at (size_of_NET_FRAGMENT B) (fragment_ring s) index with
  | None => Some None
  | Some address => fragment ← fragments s !! address; Some (Some (address, fragment))
  end.

Definition virtual_address_ref (s : dev) (index : Z) : option (option Z) :=
  match fragment_virtual_address (extension s) index with
  | None => Some None
  | Some address => va ← virtual_addresses s !! address; Some (Some va)
  end.

Definition set_packet (address : Z) (p : NET_PACKET) : D unit :=
  s ← get; put (s <| packets := <[address := p]> (packets s) |>).

Definition set_fragment (address : Z) (f : NET_FRAGMENT) : D unit :=
  s ← get; put (s <| fragments := <[address := f]> (fragments s) |>).

Definition set_packet_begin (index : Z) : D unit :=
  s ← get;
  r ← from_option (packet_ring s);
  put (s <| packet_ring := Some (r <| BeginIndex := index |>) |>).

Definition set_fragment_begin (index : Z) : D unit :=
  s ← get;
  r ← from_option (fragment_ring s);
  put (s <| fragment_ring := Some (r <| BeginIndex := index |>) |>).

(** The bytes at [address, address + n). *)
Definition read_payload (s : dev) (address n : Z) : option (list Z) :=
  mapM (λ i, payload s !! (address + i)) (Z.of_nat <$> seq 0 (Z.to_nat n)).

Fixpoint insert_bytes (address : Z) (bytes : list Z) (m : gmap Z Z) : gmap Z Z :=
  match bytes with
  | [] => m
  | b :: bytes => <[address := b]> (insert_bytes (address + 1) bytes m)
  end.

Definition write_payload (address : Z) (bytes : list Z) : D unit :=
  s ← get;
  _ ← from_option (read_payload s address (len bytes));
  put (s <| payload := insert_bytes address bytes (payload s) |>).

(** ** Receive: injection into the packet ring *)

(** One iteration; true: go on. *)
Definition inject_one (owner : Z) : D bool :=
  s ← get;
  ring ← from_option (packet_ring s);
  fring ← from_option (fragment_ring s);
  let packet_begin := BeginIndex ring in
  let fragment_begin := BeginIndex fring in
  if (packet_begin =? EndIndex ring) || (fragment_begin =? EndIndex fring) then mret false
  else
    '(frame, injection_was_full) ← dequeue_injection_frame;
    match frame with
    | None => mret false
    | Some frame =>
        let put_back := (_ ← requeue_injection_frame frame owner; mret false) in
        s ← get;
        packet ← from_option (packet_ref s packet_begin);
        match packet with
        | None => put_back
        | Some (packet_address, packet) =>
            fragment ← from_option (fragment_ref s fragment_begin);
            match fragment with
            | None => put_back
            | Some (fragment_address, fragment) =>
                address ← from_option (virtual_address_ref s fragment_begin);
                match address with
                | None => put_back
                | Some va =>
                    if va =? 0 then put_back
                    else
                      let fragment := fragment <| Offset := 0 |> in
                      _ ← set_fragment fragment_address fragment;
                      bytes ← from_option (as_bytes frame);
                      if Capacity fragment <? len bytes then put_back
                      else
                        _ ← write_payload va bytes;
                        _ ← set_fragment fragment_address
                              (fragment <| ValidLength := wrap (ValidLength_bits B) (len bytes) |>);
                        _ ← set_packet packet_address
                              {| FragmentIndex := fragment_begin; FragmentCount := 1; Ignore := 0;
                                 Layout := NET_PACKET_LAYOUT_default
                                   <| Layer2Type := NetPacketLayer2TypeEthernet B |>
                                   <| Layer2HeaderLength := FRAME_MINIMUM |> |};
                        next_packet ← from_option (increment_index ring packet_begin);
                        next_fragment ← from_option
                          (if next_packet is Some _ then increment_index fring fragment_begin
                           else Some None);
                        match next_packet, next_fragment with
                        | Some next_packet, Some next_fragment =>
                            _ ← set_packet_begin next_packet;
                            _ ← set_fragment_begin next_fragment;
                            _ ← (if injection_was_full : bool
                                 then claim_wait_for_passive_completion ADAPTIVE_INTEREST_WRITABLE
                                 else mret tt);
                            _ ← drop_frame frame;
                            mret true
                        | _, _ => _ ← drop_frame frame; mret false
                        end
                end
            end
        end
    end.

(** A body that says whether to go on. *)
Definition repeat_while (fuel : nat) (body : D bool) : D unit :=
  loop_total fuel (λ _, b ← body; mret (if b : bool then inl tt else inr tt)) tt.

(** One more than the packet ring has elements. *)
Definition ring_fuel (s : dev) : nat :=
  match packet_ring s with
  | Some ring => Datatypes.S (Z.to_nat (NumberOfElements ring))
  | None => 1
  end.

Definition inject_receive_frames : D unit :=
  s ← get;
  match packet_ring s, fragment_ring s with
  | Some _, Some _ =>
      state ← load lifecycle;
      if negb (state =? INSTANCE_OPEN) then mret tt
      else
        owner ← load owner_generation;
        repeat_while (ring_fuel s) (inject_one owner)
  | _, _ => mret tt
  end.

(** ** Transmit: capture from the packet ring *)

(** The total length with this fragment added, when the fragment is valid. *)
Definition validate_fragment (fragment : NET_FRAGMENT) (va total_length frame_maximum : Z) :
    option Z :=
  if va =? 0 then None
  else if (Offset fragment <=? Capacity fragment)
       && (ValidLength fragment <=? Capacity fragment - Offset fragment)
       && (ValidLength fragment <=? frame_maximum)
       && (total_length <=? frame_maximum - ValidLength fragment)
  then Some (total_length + ValidLength fragment)
  else None.

(** [for _ in 0..fragment_count]: the total length when every fragment is valid. *)
Fixpoint validate_fragments (s : dev) (frame_maximum : Z) (count : nat) (index total_length : Z) :
    option (option Z) :=
  match count with
  | O => Some (Some total_length)
  | Datatypes.S count =>
      fring ← fragment_ring s;
      fragment ← fragment_ref s index;
      match fragment with
      | None => Some None
      | Some (_, fragment) =>
          va ← virtual_address_ref s index;
          match va with
          | None => Some None
          | Some va =>
              match validate_fragment fragment va total_length frame_maximum with
              | None => Some None
              | Some total_length =>
                  next ← increment_index fring index;
                  match next with
                  | None => Some None
                  | Some next => validate_fragments s frame_maximum count next total_length
                  end
              end
          end
      end
  end.

(** The bytes of one fragment, [None] when the walk cannot go on; and the next index. *)
Definition fragment_bytes (s : dev) (index : Z) : option (option (list Z * option Z)) :=
  fring ← fragment_ring s;
  fragment ← fragment_ref s index;
  match fragment with
  | None => Some None
  | Some (_, fragment) =>
      va ← virtual_address_ref s index;
      match va with
      | None => Some None
      | Some va =>
          bytes ← read_payload s (va + Offset fragment) (ValidLength fragment);
          next ← increment_index fring index;
          Some (Some (bytes, next))
      end
  end.

(** The copy into a frame: the frame, the offset reached, and success. *)
Fixpoint copy_fragments (s : dev) (count : nat) (frame : Frame) (index offset : Z) :
    option (Frame * Z * bool) :=
  match count with
  | O => Some (frame, offset, true)
  | Datatypes.S count =>
      part ← fragment_bytes s index;
      match part with
      | None => Some (frame, offset, false)
      | Some (bytes, next) =>
          copied ← copy_from_slice frame offset bytes;
          match copied with
          | (frame, Err _) => Some (frame, offset, false)
          | (frame, Ok _) =>
              offset ← checked_add usize_bits offset (len bytes);
              match next with
              | None => Some (frame, offset, false)
              | Some next => copy_fragments s count frame next offset
              end
          end
      end
  end.

(** The copy into the output buffer of a read: the offset reached, and success. *)
Fixpoint copy_to_output (request : Z) (count : nat) (index offset : Z) : D (Z * bool) :=
  match count with
  | O => mret (offset, true)
  | Datatypes.S count =>
      s ← get;
      part ← from_option (fragment_bytes s index);
      match part with
      | None => mret (offset, false)
      | Some (bytes, next) =>
          _ ← write_output request offset bytes;
          offset ← from_option (checked_add usize_bits offset (len bytes));
          match next with
          | None => mret (offset, false)
          | Some next => copy_to_output request count next offset
          end
      end
  end.

Definition release_legacy_direct_read_claim : D unit := release_request LegacyDirectReadClaims.

(** A pending read was retrieved: fill and complete it. *)
Definition fill_read (request fragment_begin : Z) (count : nat) (total_length : Z) : D bool :=
  let failed status :=
    (_ ← complete_request request status; _ ← release_legacy_direct_read_claim; mret false) in
  output ← call (WdfRequestRetrieveOutputBuffer request total_length);
  let '(status, output_length) := output in
  if negb (status =? STATUS_SUCCESS) then failed status
  else if output_length <? total_length then failed STATUS_BUFFER_TOO_SMALL
  else
    '(output_offset, done) ← copy_to_output request count fragment_begin 0;
    if negb done then failed STATUS_DEVICE_NOT_READY
    else
      _ ← from_option (if output_offset =? total_length then Some tt else None);  (* debug_assert *)
      _ ← complete_request_with_information request STATUS_SUCCESS output_offset;
      _ ← release_legacy_direct_read_claim;
      mret true.

(** A request taken from a queue belongs to the handler. *)
Definition retrieve_next_request (queue : Z) : D (Z * Z) :=
  next ← call (WdfIoQueueRetrieveNextRequest queue);
  _ ← (if next.1 =? STATUS_SUCCESS
       then s ← get; put (s <| owned := {[next.2]} ∪ owned s |>) else mret tt);
  mret next.

Definition claim_direct_read (read_queue fragment_begin : Z) (count : nat)
    (total_length owner : Z) : D bool :=
  adaptive ← load adaptive_enabled;
  if adaptive : bool then mret false
  else
    open ← load lifecycle;
    if negb (open =? INSTANCE_OPEN) then mret false
    else
      current ← load owner_generation;
      if negb (current =? owner) then mret false
      else
        next ← retrieve_next_request read_queue;
        if negb (next.1 =? STATUS_SUCCESS) then mret false
        else
          _ ← release_request PendingReads;
          _ ← modify (λ i, i <| legacy_direct_read_claims := wrap 64 (legacy_direct_read_claims i + 1) |>);
          _ ← record (AdmissionTaken LegacyDirectReadClaims);
          fill_read next.2 fragment_begin count total_length.

Definition deliver_transmit_packet_to_read (read_queue fragment_begin : Z) (count : nat)
    (total_length owner : Z) : D bool :=
  lock ← config legacy_direct_read_lock;
  guard ← guard_acquire lock true;
  if negb guard then mret false
  else
    delivered ← claim_direct_read read_queue fragment_begin count total_length owner;
    _ ← guard_release lock;
    mret delivered.

Definition at_passive_level : D bool := irql ← call KeGetCurrentIrql; mret (irql =? 0).

(** The packet and its fragments go back to NetAdapterCx; true: go on. *)
Definition advance_both (packet_begin fragment_begin fragment_count : Z) : D bool :=
  s ← get;
  ring ← from_option (packet_ring s);
  fring ← from_option (fragment_ring s);
  next_packet ← from_option (increment_index ring packet_begin);
  match next_packet with
  | None => mret false
  | Some next_packet =>
      match advance_index fring fragment_begin fragment_count with
      | None => mret false
      | Some next_fragment =>
          _ ← set_packet_begin next_packet;
          _ ← set_fragment_begin next_fragment;
          mret true
      end
  end.

(** A packet without usable fragments is skipped. *)
Definition skip_packet (address : Z) (packet : NET_PACKET) (packet_begin : Z) : D bool :=
  _ ← set_packet address (packet <| Ignore := 1 |>);
  s ← get;
  ring ← from_option (packet_ring s);
  next_packet ← from_option (increment_index ring packet_begin);
  match next_packet with
  | None => mret false
  | Some next_packet => _ ← set_packet_begin next_packet; mret true
  end.

(** Copy the packet's fragments into [frame] and queue it: whether the frame
    was queued for a legacy read, and the frame when it is still there. *)
Definition queue_captured (address : Z) (packet : NET_PACKET) (frame : Frame) (count : nat)
    (total_length owner : Z) : D (bool * list Frame) :=
  s ← get;
  '(frame, offset, copied) ← from_option (copy_fragments s count frame (FragmentIndex packet) 0);
  if (copied : bool) && (offset =? total_length) then
    let frame := set_length frame total_length in
    current ← owned_by owner;
    if current : bool then
      adaptive ← load adaptive_enabled;
      queued ← enqueue_existing_capture_frame frame;
      mret (is_ok queued && negb adaptive, [])
    else
      _ ← set_packet address (packet <| Ignore := 1 |>);
      mret (false, [frame])
  else mret (false, [frame]).

(** Delivery to a read that is pending, at passive level and in legacy mode only. *)
Definition deliver_at_once (packet : NET_PACKET) (read_queue total_length owner : Z) : D bool :=
  adaptive ← load adaptive_enabled;
  passive ← (if adaptive : bool then mret false else at_passive_level);
  if passive : bool
  then deliver_transmit_packet_to_read read_queue (FragmentIndex packet)
         (Z.to_nat (FragmentCount packet)) total_length owner
  else mret false.

(** The packet is done; [queued]: a frame was queued for a legacy read. *)
Definition finish_packet (packet : NET_PACKET) (packet_begin : Z) (queued : bool) : D (bool * bool) :=
  more ← advance_both packet_begin (FragmentIndex packet) (FragmentCount packet);
  mret (more, queued).

(** A frame for the packet. *)
Definition capture_in_frame (address : Z) (packet : NET_PACKET) (packet_begin : Z)
    (pool total_length owner : Z) : D (bool * bool) :=
  frame ← Frame_new_call pool;
  match frame with
  | Err _ =>
      _ ← call DbgPrintEx;
      s ← get;
      found ← from_option (packet_ref s packet_begin);
      _ ← (match found with
           | Some (address, packet) => set_packet address (packet <| Ignore := 1 |>)
           | None => mret tt
           end);
      finish_packet packet packet_begin false
  | Ok frame =>
      '(queued, left_over) ← queue_captured address packet frame
         (Z.to_nat (FragmentCount packet)) total_length owner;
      r ← finish_packet packet packet_begin queued;
      _ ← drop_frames left_over;
      mret r
  end.

(** A valid packet: delivered to a pending read, or captured.  The first answer
    is whether to go on, the second whether a frame was queued for a legacy
    read. *)
Definition capture_packet (address : Z) (packet : NET_PACKET) (packet_begin : Z)
    (read_queue pool total_length owner : Z) : D (bool * bool) :=
  delivered ← deliver_at_once packet read_queue total_length owner;
  if delivered : bool then finish_packet packet packet_begin false
  else if pool =? 0 then _ ← call DbgPrintEx; mret (false, false)
  else capture_in_frame address packet packet_begin pool total_length owner.

(** One iteration. *)
Definition capture_one (read_queue frame_maximum pool owner : Z) : D (bool * bool) :=
  s ← get;
  ring ← from_option (packet_ring s);
  fring ← from_option (fragment_ring s);
  let packet_begin := BeginIndex ring in
  if packet_begin =? EndIndex ring then mret (false, false)
  else
    found ← from_option (packet_ref s packet_begin);
    match found with
    | None => mret (false, false)
    | Some (address, packet) =>
        if FragmentCount packet =? 0
        then more ← skip_packet address packet packet_begin; mret (more, false)
        else if (FragmentIndex packet =? EndIndex fring)
                || (NumberOfElements fring <? FragmentCount packet)
        then more ← skip_packet address packet packet_begin; mret (more, false)
        else
          total ← from_option (validate_fragments s frame_maximum
                    (Z.to_nat (FragmentCount packet)) (FragmentIndex packet) 0);
          match total with
          | Some total_length =>
              if (FRAME_MINIMUM <=? total_length) && (total_length <=? frame_maximum)
              then capture_packet address packet packet_begin read_queue pool total_length owner
              else
                _ ← set_packet address (packet <| Ignore := 1 |>);
                more ← advance_both packet_begin (FragmentIndex packet) (FragmentCount packet);
                mret (more, false)
          | None =>
              _ ← set_packet address (packet <| Ignore := 1 |>);
              more ← advance_both packet_begin (FragmentIndex packet) (FragmentCount packet);
              mret (more, false)
          end
    end.

Definition capture_transmit_packets (read_queue read_work_item frame_maximum pool : Z) : D unit :=
  s ← get;
  match packet_ring s, fragment_ring s with
  | Some _, Some _ =>
      state ← load lifecycle;
      if negb (state =? INSTANCE_OPEN) then mret tt
      else
        owner ← load owner_generation;
        queued ← loop_total (ring_fuel s) (λ queued,
                   r ← capture_one read_queue frame_maximum pool owner;
                   let queued := queued || r.2 in
                   mret (if r.1 : bool then inl queued else inr queued)) false;
        if queued : bool then enqueue_work_item read_work_item else mret tt
  | _, _ => mret tt
  end.

(** ** The other packet-queue callbacks *)

(** The queue's context: absent, or its direction and whether it has an
    instance; the rings and the extension are the device's. *)
Definition evt_packet_queue_advance (context : option (bool * bool)) : D unit :=
  match context with
  | Some (is_transmit, true) =>
      let n := if is_transmit : bool then Capture else Injection in
      granted ← call (AcquireLease n);
      if negb granted then mret tt
      else
        _ ← (if is_transmit : bool then
               read_queue ← config read_queue;
               work_item ← config read_work_item;
               frame_maximum ← config frame_maximum;
               pool ← config frame_pool;
               capture_transmit_packets read_queue work_item frame_maximum pool
             else inject_receive_frames);
        call (ReleaseLease n)
  | _ => mret tt
  end.

Definition evt_packet_queue_set_notification_enabled (context : option (bool * bool))
    (enabled : Z) : D unit :=
  match context with
  | Some (false, true) =>
      _ ← modify (λ i, i <| rx_notification_armed := negb (enabled =? 0) |>);
      if enabled =? 0 then mret tt
      else
        waiting ← has_queued_injection_frame;
        if waiting : bool then
          queue ← take_rx_notification;
          if queue =? 0 then mret tt else notify_more_received_packets queue
        else mret tt
  | _ => mret tt
  end.

(** The receive packets not yet returned are marked as to be ignored. *)
Definition ignore_one (index : Z) : D (Z + unit) :=
  s ← get;
  ring ← from_option (packet_ring s);
  if index =? EndIndex ring then mret (inr tt)
  else
    found ← from_option (packet_ref s index);
    match found with
    | None => mret (inr tt)
    | Some (address, packet) =>
        _ ← set_packet address (packet <| Ignore := 1 |>);
        next ← from_option (increment_index ring index);
        mret (match next with Some next => inl next | None => inr tt end)
    end.

Definition return_ring (ring : option NET_RING) : option NET_RING :=
  match ring with Some r => Some (r <| BeginIndex := EndIndex r |>) | None => None end.

Definition evt_packet_queue_cancel (context : option (bool * bool)) : D unit :=
  match context with
  | Some (is_transmit, true) =>
      s ← get;
      _ ← (match packet_ring s with
           | Some ring =>
               if negb is_transmit then loop_total (ring_fuel s) ignore_one (BeginIndex ring)
               else mret tt
           | None => mret tt
           end);
      s ← get;
      _ ← put (s <| packet_ring := return_ring (packet_ring s) |>
                 <| fragment_ring := return_ring (fragment_ring s) |>);
      if negb is_transmit then modify (λ i, i <| rx_notification_armed := false |>) else mret tt
  | _ => mret tt
  end.

End paths.

(** ** Requests of the owner *)

(** [frame] is borrowed; the status tells whether the request was completed. *)
Definition complete_captured_frame_to_read (request : Z) (frame : Frame) : D Z :=
  bytes ← from_option (as_bytes frame);
  output ← call (WdfRequestRetrieveOutputBuffer request (len bytes));
  let '(status, output_length) := output in
  if negb (status =? STATUS_SUCCESS) then mret status
  else if output_length <? len bytes then mret STATUS_BUFFER_TOO_SMALL
  else
    _ ← write_output request 0 bytes;
    _ ← complete_request_with_information request STATUS_SUCCESS (len bytes);
    mret STATUS_SUCCESS.

(** A captured frame for a request: delivered, or requeued and the request
    completed with the error. *)
Definition serve_read (request : Z) (frame : Frame) (owner : Z) : D unit :=
  status ← complete_captured_frame_to_read request frame;
  if negb (status =? STATUS_SUCCESS) then
    _ ← requeue_capture_frame_and_schedule_wait frame owner;
    complete_request request status
  else drop_frame frame.

Definition read_at_once (request owner : Z) : D unit :=
  frame ← dequeue_capture_frame;
  match frame with
  | Some frame => serve_read request frame owner
  | None => complete_request request STATUS_NO_MORE_ENTRIES
  end.

(** The request was admitted. *)
Definition read_or_wait (request owner : Z) : D unit :=
  frame ← dequeue_capture_frame;
  match frame with
  | Some frame => _ ← release_request PendingReads; serve_read request frame owner
  | None =>
      target ← config read_queue;
      forwarded ← forward_request request target;
      if negb forwarded then release_request PendingReads else mret tt
  end.

(** [found]: [instance_from_io_queue] found the instance.  The result is [None]
    while the handler is still trying to be admitted. *)
Definition evt_io_read (fuel : nat) (found : bool) (request : Z) : D (option unit) :=
  if negb found then _ ← complete_request request STATUS_DEVICE_NOT_READY; mret (Some tt)
  else
    granted ← call (AcquireLease Capture);
    if negb granted then _ ← complete_request request STATUS_DEVICE_NOT_READY; mret (Some tt)
    else
      let leave m := (_ ← m; _ ← call (ReleaseLease Capture); mret (Some tt)) in
      open ← load lifecycle;
      if negb (open =? INSTANCE_OPEN) then leave (complete_request request STATUS_DEVICE_NOT_READY)
      else
        owner ← load owner_generation;
        adaptive ← load adaptive_enabled;
        if adaptive : bool then leave (read_at_once request owner)
        else
          admitted ← try_admit fuel PendingReads PENDING_READ_LIMIT;
          match admitted with
          | None => mret None
          | Some false => leave (complete_request request STATUS_DEVICE_BUSY)
          | Some true => leave (read_or_wait request owner)
          end.

Definition queue_error_status (e : QueueError) : Z :=
  match e with
  | Full => STATUS_DEVICE_BUSY
  | Closed => STATUS_DEVICE_NOT_READY
  | InvalidFrameLength => STATUS_INVALID_BUFFER_SIZE
  | InsufficientResources => STATUS_INSUFFICIENT_RESOURCES
  end.

(** The write was admitted. *)
Definition write_admitted (request frame_maximum : Z) : D unit :=
  input ← call (WdfRequestRetrieveInputBuffer request FRAME_MINIMUM);
  let '(status, input_length) := input in
  if negb (status =? STATUS_SUCCESS) then
    _ ← release_request PendingWrites; complete_request request status
  else if frame_maximum <? input_length then
    _ ← release_request PendingWrites; complete_request request STATUS_INVALID_BUFFER_SIZE
  else
    s ← get;
    buffer ← from_option (inputs s !! request);
    bytes ← from_option (slice buffer 0 input_length);
    queued ← enqueue_injection_frame bytes;
    notification_queue ←
      match queued with
      | Ok _ =>
          queue ← take_rx_notification;
          _ ← release_request PendingWrites;
          _ ← complete_request_with_information request STATUS_SUCCESS input_length;
          mret queue
      | Err e =>
          _ ← release_request PendingWrites;
          _ ← complete_request request (queue_error_status e);
          mret 0
      end;
    if notification_queue =? 0 then mret tt else notify_more_received_packets notification_queue.

Definition evt_io_write (fuel : nat) (found : bool) (request length : Z) : D (option unit) :=
  if negb found then _ ← complete_request request STATUS_DEVICE_NOT_READY; mret (Some tt)
  else
    lock ← config write_lifetime_lock;
    guard ← guard_acquire lock false;
    if negb guard then _ ← complete_request request STATUS_DEVICE_NOT_READY; mret (Some tt)
    else
      let leave m := (_ ← m; _ ← guard_release lock; mret (Some tt)) in
      open ← load lifecycle;
      if negb (open =? INSTANCE_OPEN) then leave (complete_request request STATUS_DEVICE_NOT_READY)
      else if length =? 0 then leave (complete_request request STATUS_SUCCESS)
      else
        maximum ← config frame_maximum;
        if negb ((FRAME_MINIMUM <=? length) && (length <=? maximum))
        then leave (complete_request request STATUS_INVALID_PARAMETER)
        else
          admitted ← try_admit fuel PendingWrites PENDING_WRITE_LIMIT;
          match admitted with
          | None => mret None
          | Some false => leave (complete_request request STATUS_DEVICE_BUSY)
          | Some true => leave (write_admitted request maximum)
          end.

(** ** The passive worker *)

(** One read served under the lease; true: go on. *)
Definition complete_one_read : D bool :=
  open ← load lifecycle;
  if negb (open =? INSTANCE_OPEN) then mret false
  else
    owner ← load owner_generation;
    queue ← config read_queue;
    next ← retrieve_next_request queue;
    if negb (next.1 =? STATUS_SUCCESS) then mret false
    else
      frame ← dequeue_capture_frame;
      match frame with
      | None =>
          target ← config read_queue;
          forwarded ← forward_request next.2 target;
          _ ← (if negb forwarded then release_request PendingReads else mret tt);
          mret false
      | Some frame =>
          _ ← release_request PendingReads;
          _ ← serve_read next.2 frame owner;
          mret true
      end.

(** [None]: still at work when the fuel is used up. *)
Fixpoint read_completion_loop (fuel : nat) : D (option unit) :=
  match fuel with
  | O => mret None
  | Datatypes.S fuel =>
      served ← call ServeScheduledWait;
      if served : bool then read_completion_loop fuel
      else
        granted ← call (AcquireLease Capture);
        if negb granted then mret (Some tt)
        else
          more ← complete_one_read;
          _ ← call (ReleaseLease Capture);
          if more : bool then read_completion_loop fuel else mret (Some tt)
  end.

Definition evt_read_completion_work_item (fuel : nat) (found : bool) : D (option unit) :=
  if negb found then mret (Some tt) else read_completion_loop fuel.
