(* ===== verification/DatapathSpec.v ===== *)
(** * The packet driver's data path: contract and specifications

    What the framework and the other threads may do, and what every primitive
    and every queue operation of [Datapath] does then. *)

From S2P Require Import Prelude Words DriverConstants Effects Ring FrameQueue Datapath DatapathPaths.

(** ** Well-formed instances *)

Definition queue_ok (q : FrameQueue) : Prop := ∃ sq, repr q sq.

(** The receive filter: a table of 64 Ethernet addresses, of which the first ones
    count and the others are zero. *)
Record filter_ok (i : InstanceState) : Prop := {
  fo_count : 0 ≤ active_multicast_address_count i ≤ len (active_multicast_addresses i);
  fo_table : len (active_multicast_addresses i) = 64;
  fo_addresses : Forall (λ a, len a = 6) (active_multicast_addresses i);
  fo_unused : drop (Z.to_nat (active_multicast_address_count i)) (active_multicast_addresses i)
    = replicate (Z.to_nat (64 - active_multicast_address_count i)) (replicate 6 0);
}.

Record inst_ok (i : InstanceState) : Prop := {
  io_queues n q : queue_of n i = Some q → queue_ok q;
  io_reads : 0 ≤ pending_reads i ≤ PENDING_READ_LIMIT;
  io_writes : 0 ≤ pending_writes i ≤ PENDING_WRITE_LIMIT;
  io_filter : filter_ok i;
}.

(** Fixed when the device starts. *)
Record config_same (i i' : InstanceState) : Prop := {
  cs_maximum : frame_maximum i' = frame_maximum i;
  cs_read_queue : read_queue i' = read_queue i;
  cs_lock n : queue_lock n i' = queue_lock n i;
  cs_pool : frame_pool i' = frame_pool i;
  cs_work_item : read_work_item i' = read_work_item i;
  cs_direct_lock : legacy_direct_read_lock i' = legacy_direct_read_lock i;
  cs_lifetime_lock : write_lifetime_lock i' = write_lifetime_lock i;
  cs_mtu : mtu i' = mtu i;
  cs_mac : mac_address i' = mac_address i;
  cs_state_lock : state_lock i' = state_lock i;
  cs_queue n : is_Some (queue_of n i') ↔ is_Some (queue_of n i);
}.

Lemma config_refl i : config_same i i.
Proof. by split. Qed.

Lemma config_trans i1 i2 i3 : config_same i1 i2 → config_same i2 i3 → config_same i1 i3.
Proof.
  intros [] []. split; intros; first [congruence | etrans; eauto].
Qed.

#[export] Hint Resolve config_refl : core.

(** ** The contract

    Other threads change the instance only, keep it well formed, and change a
    queue, or what the state lock guards, only while this thread does not hold
    the lock. *)

Definition state_guarded (i : InstanceState) : Z * Z * Z * Z * Z * list (list Z) :=
  (adapter i, tx_queue i, rx_queue i, active_packet_filters i, active_multicast_address_count i,
   active_multicast_addresses i).

Record interferes (s s' : dev) : Prop := {
  in_rest : s' = s <| st := st s' |>;
  in_config : config_same (st s) (st s');
  in_ok : inst_ok (st s) → inst_ok (st s');
  in_locked n : queue_lock n (st s) ∈ held s → queue_of n (st s') = queue_of n (st s);
  in_guarded : state_lock (st s) ∈ held s → state_guarded (st s') = state_guarded (st s);
}.

(** A request that was not given to this thread before. *)
Definition fresh_request (q : Z) (s : dev) : Prop :=
  (q ∉ owned s) ∧ inputs s !! q = None ∧ outputs s !! q = None.

Definition dp_answer (c : dp_call) : dp_ret c → dev → dev → Prop :=
  match c with
  | WdfRequestRetrieveInputBuffer q n => λ r s s',
      if r.1 =? STATUS_SUCCESS
      then ∃ b, len b = r.2 ∧ (∀ b', inputs s !! q = Some b' → b' = b) ∧
             interferes (s <| inputs := <[q := b]> (inputs s) |>) s'
      else interferes s s'
  | WdfRequestRetrieveOutputBuffer q n => λ r s s',
      if r.1 =? STATUS_SUCCESS
      then ∃ b, len b = r.2 ∧ interferes (s <| outputs := <[q := b]> (outputs s) |>) s'
      else interferes s s'
  | WdfIoQueueRetrieveNextRequest _ => λ r s s',
      interferes s s' ∧ (r.1 = STATUS_SUCCESS → fresh_request r.2 s)
  | WdfMemory => λ r s s', interferes s s' ∧ buffers_are_whole r
  | _ => λ r s s', interferes s s'
  end.

(** Other threads do not complete a request this thread owns; the driver's own
    [evt_io_stop] could, if WDF called it for a request the worker took from the
    manual queue. *)
Definition dp_contract : contract dev dp_ret := λ w c s r s', dp_answer c r s s'.

(** ** New frames *)

Lemma Frame_new_ok api pool f :
  buffers_are_whole api → snd (Frame_new api pool) = Ok f → frame_ok f ∧ length f = 0.
Proof.
  intros Hw H. destruct (Frame_new api pool) as [calls r] eqn:Hn. cbn in H. subst r.
  destruct (Frame_new_Ok _ _ _ _ Hn Hw) as (_ & _ & _ & Hl & Hd).
  unfold frame_ok, FRAME_MAXIMUM in *. by rewrite Hl.
Qed.

Lemma from_bytes_total api pool input :
  buffers_are_whole api →
  ∃ r, snd <$> from_bytes api pool input = Some r ∧
    ∀ f, r = Ok f → as_bytes f = Some input ∧ frame_ok f.
Proof.
  intros Hw. unfold from_bytes. destruct (_ && _) eqn:Hl; cbn [negb]; [|by eexists].
  bool_reflect. unfold FRAME_MINIMUM, FRAME_MAXIMUM in *.
  destruct (Frame_new api pool) as [calls [f|e]] eqn:Hn; [|by eexists].
  destruct (Frame_new_Ok _ _ _ _ Hn Hw) as (_ & _ & _ & _ & Hd). unfold FRAME_MAXIMUM in *.
  unfold copy_from_slice, FRAME_MAXIMUM.
  rewrite (proj2 (orb_false_iff _ _)) by (rewrite !Z.ltb_ge; lia).
  rewrite slice_spec by lia. cbn. eexists. split; [done|]. intros _ [= <-]. split.
  - unfold as_bytes. cbn. apply slice_splice. lia.
  - split; cbn; unfold FRAME_MAXIMUM; [lia|]. rewrite len_splice by lia. done.
Qed.

(** ** What a piece of a handler did: [l] are its notes, the latest first. *)

Record acts (l : list note) (s s' : dev) : Prop := {
  ac_rest : s' = s <| st := st s' |> <| log := l ++ log s |>;
  ac_config : config_same (st s) (st s');
  ac_ok : inst_ok (st s');
}.

Lemma acts_refl s : inst_ok (st s) → acts [] s s.
Proof. intros. split; [by destruct s|done|done]. Qed.

Lemma acts_trans l1 l2 s1 s2 s3 : acts l1 s1 s2 → acts l2 s2 s3 → acts (l2 ++ l1) s1 s3.
Proof.
  intros [E1 C1 K1] [E2 C2 K2]. split; [|by eapply config_trans|done].
  rewrite E2, E1. cbn. by rewrite app_assoc.
Qed.

Lemma acts_trans_nil l s1 s2 s3 : acts [] s1 s2 → acts l s2 s3 → acts l s1 s3.
Proof. intros H1 H2. pose proof (acts_trans _ _ _ _ _ H1 H2) as H. by rewrite app_nil_r in H. Qed.

Lemma acts_interferes s s' : inst_ok (st s) → interferes s s' → acts [] s s'.
Proof. intros Hok [E C K _]. split; [|done|auto]. rewrite E at 1. by destruct s. Qed.

Lemma acts_note x s : inst_ok (st s) → acts [x] s (s <| log := x :: log s |>).
Proof. intros. split; [by destruct s|done|done]. Qed.

(** The instance changed as one access changes it. *)
Lemma acts_update i s : config_same (st s) i → inst_ok i → acts [] s (s <| st := i |>).
Proof. intros. split; [by destruct s|done|done]. Qed.

(** The parts of the state a piece leaves alone. *)
Lemma acts_held l s s' : acts l s s' → held s' = held s.
Proof. by intros [-> _ _]. Qed.
Lemma acts_guards l s s' : acts l s s' → guards s' = guards s.
Proof. by intros [-> _ _]. Qed.
Lemma acts_owned l s s' : acts l s s' → owned s' = owned s.
Proof. by intros [-> _ _]. Qed.
Lemma acts_outputs l s s' : acts l s s' → outputs s' = outputs s.
Proof. by intros [-> _ _]. Qed.
Lemma acts_inputs l s s' : acts l s s' → inputs s' = inputs s.
Proof. by intros [-> _ _]. Qed.
Lemma acts_log l s s' : acts l s s' → log s' = l ++ log s.
Proof. by intros [-> _ _]. Qed.

Section dp_spec.
Context (e : env dev dp_ret) (Henv : respects dp_contract e).

(** ** Calls that only let other threads run *)

Definition silent (c : dp_call) : bool :=
  match c with
  | WdfRequestRetrieveInputBuffer _ _ | WdfRequestRetrieveOutputBuffer _ _
  | WdfIoQueueRetrieveNextRequest _ | WdfMemory => false
  | _ => true
  end.

Lemma wp_silent c (Q : dp_ret c → dev → world dp_ret → Prop) s w :
  silent c = true → inst_ok (st s) →
  (∀ r s' w', interferes s s' → acts [] s s' → Q r s' w') → wp e (call c) Q s w.
Proof.
  intros Hc Hok HQ. apply (wp_call dp_contract); [done|]. intros r s' Ha.
  assert (interferes s s') as Hi by (by destruct c). by apply HQ, acts_interferes.
Qed.

Ltac silent :=
  lazymatch goal with
  | |- wp _ (do_call ?c) ?Q ?s ?w => refine (wp_silent c Q s w eq_refl _ _)
  end.

Lemma wp_config {A} (f : InstanceState → A) Q s w :
  Q (f (st s)) s w → wp e (config f) Q s w.
Proof. intros. unfold config. apply wp_bind, wp_get, wp_ret. done. Qed.

Lemma wp_record x (Q : unit → dev → world dp_ret → Prop) s w :
  inst_ok (st s) → (∀ s', acts [x] s s' → Q tt s' w) → wp e (record x) Q s w.
Proof. intros Hok HQ. unfold record. apply wp_bind, wp_get, wp_put. by apply HQ, acts_note. Qed.

Lemma wp_load {A} (f : InstanceState → A) (Q : A → dev → world dp_ret → Prop) s w :
  inst_ok (st s) → (∀ s' w', acts [] s s' → Q (f (st s')) s' w') → wp e (load f) Q s w.
Proof.
  intros Hok HQ. unfold load. apply wp_bind. silent; [done|]. intros _ s' w' _ Ha.
  apply wp_config. by apply HQ.
Qed.

Lemma wp_modify (f : InstanceState → InstanceState) (Q : unit → dev → world dp_ret → Prop) s w :
  inst_ok (st s) → (∀ i, inst_ok i → config_same i (f i) ∧ inst_ok (f i)) →
  (∀ s' w', acts [] s s' → Q tt s' w') → wp e (modify f) Q s w.
Proof.
  intros Hok Hf HQ. unfold modify. apply wp_bind. silent; [done|]. intros _ s' w' _ Ha.
  apply wp_bind, wp_get, wp_put. apply HQ. eapply acts_trans_nil; [exact Ha|].
  destruct (Hf (st s') (ac_ok _ _ _ Ha)). by apply acts_update.
Qed.

(** ** Counters *)

Lemma set_counter_config c v i : config_same i (set_counter c v i).
Proof. by destruct c; split; intros; try destruct n. Qed.

Definition limit_of (c : counter) : option Z :=
  match c with
  | PendingReads => Some PENDING_READ_LIMIT
  | PendingWrites => Some PENDING_WRITE_LIMIT
  | LegacyDirectReadClaims => None
  end.

Lemma set_counter_ok c v i :
  inst_ok i → (∀ l, limit_of c = Some l → 0 ≤ v ≤ l) → inst_ok (set_counter c v i).
Proof.
  intros [Hq Hr Hw Hf] Hv. destruct c; split; cbn; try done; try (by apply Hv); try (by destruct Hf);
    intros [] q; apply (Hq _ q).
Qed.

Lemma counter_bounds c l i : inst_ok i → limit_of c = Some l → 0 ≤ counter_of c i ≤ l.
Proof. intros [] Hl. destruct c; cbn in *; by simplify_eq. Qed.

(** No thread interferes with a compare-exchange, and none fails spuriously. *)
Definition uncontended : Prop := ∀ w s, e w SpuriousFailure s = (false, s).

Lemma wp_compare_exchange c current new (Q : result Z Z → dev → world dp_ret → Prop) s w :
  inst_ok (st s) →
  (∀ s' w', acts [] s s' → counter_of c (st s') = current →
     Q (Ok current) (s' <| st := set_counter c new (st s') |>) w') →
  (∀ s' w', acts [] s s' → (uncontended → current ≠ counter_of c (st s)) →
     Q (Err (counter_of c (st s'))) s' w') →
  wp e (compare_exchange_weak c current new) Q s w.
Proof.
  intros Hok HO HE. unfold compare_exchange_weak. apply wp_bind.
  exists (e w SpuriousFailure s).1, (e w SpuriousFailure s).2. eexists. split; [done|].
  assert (acts [] s (e w SpuriousFailure s).2) as A by (apply acts_interferes; [done|apply (Henv w SpuriousFailure s)]).
  apply wp_bind, wp_get. destruct (_ && _) eqn:Hcas; bool_reflect.
  - subst current. by apply wp_bind, wp_put, wp_ret, HO.
  - apply wp_ret, HE; [done|]. intros Hun ->. rewrite Hun, Z.eqb_refl in Hcas. by destruct Hcas.
Qed.

Lemma wp_try_admit fuel c limit (Q : option bool → dev → world dp_ret → Prop) s w :
  inst_ok (st s) → limit_of c = Some limit →
  (∀ r s' w', acts (if decide (r = Some true) then [AdmissionTaken c] else []) s s' →
     (uncontended → (0 < fuel)%nat → r ≠ None) → Q r s' w') →
  wp e (try_admit fuel c limit) Q s w.
Proof.
  intros Hok Hl HQ. unfold try_admit. apply wp_bind, wp_load; [done|]. intros s1 w1 A1.
  assert (∀ fuel' s1 w1 current, acts [] s s1 →
    (uncontended → (0 < fuel)%nat → (0 < fuel')%nat ∧ current = counter_of c (st s1)) →
    wp e (try_admit_loop fuel' c limit current) Q s1 w1) as Hloop.
  2: { by apply Hloop. }
  clear s1 w1 A1. intros fuel'. induction fuel' as [|fuel' IH]; intros s1 w1 current A1 Hcur; cbn.
  { apply wp_ret, HQ; [exact A1|]. intros Hun Hf. destruct (Hcur Hun Hf). lia. }
  destruct (Z.leb_spec limit current); [by apply wp_ret, HQ|].
  apply wp_bind, wp_compare_exchange; [apply A1| |]; intros s2 w2 A2;
    pose proof (acts_trans_nil _ _ _ _ A1 A2) as A3.
  - intros Hcas. assert (0 ≤ counter_of c (st s2)) as Hc by (by eapply counter_bounds; [apply A3|]).
    assert (acts [] s (s2 <| st := set_counter c (current + 1) (st s2) |>)) as A4.
    { eapply acts_trans_nil; [exact A3|]. apply acts_update; [apply set_counter_config|].
      apply set_counter_ok; [apply A3|]. intros l Hl'. rewrite Hl in Hl'. injection Hl' as <-. lia. }
    apply wp_bind, wp_record; [apply A4|]. intros s5 A5. apply wp_ret, HQ; [|done].
    exact (acts_trans _ [_] _ _ _ A4 A5).
  - intros Hne. apply IH; [exact A3|]. intros Hun Hf. destruct (Hcur Hun Hf) as [_ E].
    by destruct (Hne Hun).
Qed.

Lemma wp_release_request c (Q : unit → dev → world dp_ret → Prop) s w :
  inst_ok (st s) → (∀ s' w', acts [AdmissionReturned c] s s' → Q tt s' w') →
  wp e (release_request c) Q s w.
Proof.
  intros Hok HQ. unfold release_request. apply wp_bind, wp_modify; [done| |].
  { intros i Hi. split; [apply set_counter_config|]. apply set_counter_ok; [done|].
    intros l Hl. pose proof (counter_bounds c l i Hi Hl). unfold checked_sub.
    destruct (Z.ltb_spec (counter_of c i) 1); cbn; lia. }
  intros s1 w1 A1. apply wp_record; [apply A1|]. intros s2 A2. apply HQ.
  exact (acts_trans [] [_] _ _ _ A1 A2).
Qed.

(** ** Locks *)

Lemma wp_with_lock {A} lock (m : D A) (Q : A → dev → world dp_ret → Prop) s w :
  lock ∉ held s → inst_ok (st s) →
  (∀ s1 w1, acts [] s s1 →
     wp e m (λ r s2 w2, ∃ l, acts l (s1 <| held := {[lock]} ∪ held s |>) s2 ∧
       ∀ s3 w3, acts l s s3 → Q r s3 w3) (s1 <| held := {[lock]} ∪ held s |>) w1) →
  wp e (with_lock lock m) Q s w.
Proof.
  intros Hl Hok Hm. unfold with_lock, spin_acquire, spin_release.
  apply wp_bind, wp_bind, wp_get. rewrite decide_False by done.
  apply wp_bind. silent; [done|]. intros _ s1 w1 _ A1. apply wp_bind, wp_get, wp_put.
  rewrite (acts_held _ _ _ A1). apply wp_bind. eapply wp_mono; [by apply Hm|].
  intros r s2 w2 (l & A2 & HQ). apply wp_bind, wp_bind, wp_get.
  pose proof (acts_held _ _ _ A2) as Hh. cbn in Hh.
  rewrite decide_True by (rewrite Hh; set_solver).
  assert (A3 : acts l s (s2 <| held := held s2 ∖ {[lock]} |>)).
  { eapply (acts_trans_nil l); [exact A1|]. destruct A2 as [E C K]. split; [|done|done].
    rewrite E. cbn. replace (({[lock]} ∪ held s) ∖ {[lock]}) with (held s) by set_solver.
    by rewrite <- (acts_held _ _ _ A1). }
  apply wp_bind, wp_put. silent; [apply A3|]. intros _ s3 w3 _ A4. apply wp_ret, HQ.
  exact (acts_trans l [] _ _ _ A3 A4).
Qed.

(** ** Frames and queues *)

Lemma wp_drop_frame f (Q : unit → dev → world dp_ret → Prop) s w :
  frame_ok f → inst_ok (st s) → (∀ s' w', acts [Freed f] s s' → Q tt s' w') →
  wp e (drop_frame f) Q s w.
Proof.
  intros Hf Hok HQ. unfold drop_frame.
  assert (∃ d, Frame_drop f = Some d) as [d Hd].
  { unfold Frame_drop. destruct (_ =? 0); [by eexists|].
    destruct (as_bytes_ok f Hf) as (b & Hb & _). unfold as_bytes in Hb. rewrite Hb. by eexists. }
  apply wp_bind, wp_from_option. exists d. split; [done|]. apply wp_bind.
  assert (∀ s1 w1, acts [] s s1 → wp e (record (Freed f)) Q s1 w1) as Hrec.
  { intros s1 w1 A1. apply wp_record; [apply A1|]. intros s2 A2. apply HQ.
    exact (acts_trans [] [_] _ _ _ A1 A2). }
  destruct (_ =? 0); [by apply wp_ret, Hrec, acts_refl|].
  silent; [done|]. intros _ s1 w1 _ A1. by apply Hrec.
Qed.

Lemma wp_drop_frames fs (Q : unit → dev → world dp_ret → Prop) s w :
  Forall frame_ok fs → inst_ok (st s) →
  (∀ s' w', acts (rev (Freed <$> fs)) s s' → Q tt s' w') → wp e (drop_frames fs) Q s w.
Proof.
  intros Hfs. revert s w Q. induction Hfs as [|f fs Hf Hfs IH]; intros s w Q Hok HQ; cbn.
  { by apply wp_ret, HQ, acts_refl. }
  apply wp_bind, wp_drop_frame; [done..|]. intros s1 w1 A1. apply IH; [apply A1|].
  intros s2 w2 A2. apply HQ. exact (acts_trans _ _ _ _ _ A1 A2).
Qed.

Lemma set_queue_config n q i : is_Some (queue_of n i) → config_same i (set_queue n q i).
Proof.
  intros H. destruct n; split; try done; intros [|]; try done; split; intros; try done; by eexists.
Qed.

Lemma set_queue_ok n q i : inst_ok i → queue_ok q → inst_ok (set_queue n q i).
Proof.
  intros [Hq ?? Hf] H. destruct n; split; try done; try (by destruct Hf); intros [|] q' Hq'; cbn in Hq'; simplify_eq; try done;
    first [by apply (Hq Injection) | by apply (Hq Capture)].
Qed.

Lemma wp_locked_queue n (Q : option FrameQueue → dev → world dp_ret → Prop) s w :
  queue_lock n (st s) ∈ held s → Q (queue_of n (st s)) s w → wp e (locked_queue n) Q s w.
Proof.
  intros Hl HQ. unfold locked_queue. apply wp_bind, wp_get. rewrite decide_True by done. by apply wp_ret.
Qed.

(** What a queue method answers, and which notes its call leaves. *)
Definition queue_notes (n : queue_name) (o : queue_op) (out : queue_out) : list note :=
  rev (Freed <$> dropped out) ++ [Queued n o out].

Definition queue_answer (n : queue_name) (o : queue_op) (i : InstanceState) (out : queue_out) : Prop :=
  ∃ q sq, queue_of n i = Some q ∧ repr q sq ∧ out = (spec_step (limit q) (byte_limit q) sq o).2.

Lemma dropped_ok q sq o :
  repr q sq → op_frames_ok o →
  Forall frame_ok (dropped (spec_step (limit q) (byte_limit q) sq o).2).
Proof.
  intros Hr Ho. pose proof (repr_frames _ _ Hr). destruct o; cbn; try done.
  destruct (spec_accepts _ _ sq frame); cbn; [by constructor|done].
Qed.

Lemma wp_queue_call n o (Q : option queue_out → dev → world dp_ret → Prop) s w :
  queue_lock n (st s) ∈ held s → inst_ok (st s) → op_frames_ok o →
  (queue_of n (st s) = None → Q None s w) →
  (∀ out s' w', queue_answer n o (st s) out → acts (queue_notes n o out) s s' → Q (Some out) s' w') →
  wp e (queue_call n o) Q s w.
Proof.
  intros Hl Hok Ho HN HS. unfold queue_call. apply wp_bind, wp_locked_queue; [done|].
  destruct (queue_of n (st s)) as [q|] eqn:Hq; [|by apply wp_ret, HN].
  destruct (io_queues _ Hok n q Hq) as [sq Hr].
  destruct (queue_step_spec q sq o Hr Ho) as (q' & Hstep & Hr' & Hlim & Hblim).
  set (out := (spec_step (limit q) (byte_limit q) sq o).2) in *.
  apply wp_bind, wp_from_option. exists (q', out). split; [done|].
  apply wp_bind, wp_get, wp_bind, wp_put, wp_bind. cbn [fst snd].
  assert (A1 : acts [Queued n o out] s (s <| st := set_queue n q' (st s) |>
                 <| log := Queued n o out :: log s |>)).
  { split; [by destruct s|apply set_queue_config; by rewrite Hq|].
    apply set_queue_ok; [done|]. by eexists. }
  apply wp_drop_frames; [by apply dropped_ok|apply A1|]. intros s2 w2 A2. apply wp_ret, HS.
  - exists q, sq. done.
  - exact (acts_trans _ _ _ _ _ A1 A2).
Qed.

Lemma wp_new_frame make (Q : result Frame QueueError → dev → world dp_ret → Prop) s w :
  inst_ok (st s) →
  (∀ api, buffers_are_whole api → ∃ r, make api = Some r ∧ ∀ s' w',
     acts (match r with Ok f => [Created f] | Err _ => [] end) s s' → Q r s' w') →
  wp e (new_frame make) Q s w.
Proof.
  intros Hok Hm. unfold new_frame. apply wp_bind. wp_do dp_contract Henv.
  intros api s1 [Hi Hw]. pose proof (acts_interferes _ _ Hok Hi) as A1.
  destruct (Hm api Hw) as (r & Hr & HQ). apply wp_bind, wp_from_option. exists r. split; [done|].
  destruct r as [f|x].
  - apply wp_bind, wp_record; [apply A1|]. intros s2 A2. apply wp_ret, HQ.
    exact (acts_trans [] [_] _ _ _ A1 A2).
  - by apply wp_ret, HQ.
Qed.

(** ** The queues *)

Definition idle (s : dev) : Prop := inst_ok (st s) ∧ held s = ∅.

Lemma idle_acts l s s' : idle s → acts l s s' → idle s'.
Proof. intros [_ Hh] A. split; [apply A|by rewrite (acts_held _ _ _ A)]. Qed.

(** What queueing a frame leaves in the log: it is in the queue, or freed. *)
Definition enqueue_notes (n : queue_name) (f : Frame) (r : result unit QueueError)
    (l : list note) : Prop :=
  match r with
  | Ok _ => l = [Queued n (QEnqueue f) {| answer := Ok tt; handed_out := None; dropped := [] |}]
  | Err x => l = [Freed f] ∨
      l = [Freed f; Queued n (QEnqueue f) {| answer := Err x; handed_out := None; dropped := [f] |}]
  end.

Definition dequeue_notes (n : queue_name) (o : option Frame) (l : list note) : Prop :=
  match o with
  | Some f => frame_ok f ∧
      l = [Queued n QDequeue {| answer := Ok tt; handed_out := Some f; dropped := [] |}]
  | None => l = [] ∨
      l = [Queued n QDequeue {| answer := Ok tt; handed_out := None; dropped := [] |}]
  end.

(** The frame is in a queue again, or freed. *)
Definition disposed (n : queue_name) (f : Frame) (l : list note) : Prop :=
  ∃ r, enqueue_notes n f r l.

Lemma disposed_freed n f : disposed n f [Freed f].
Proof. exists (Err Closed). by left. Qed.

#[local] Hint Resolve disposed_freed : core.

Lemma enqueue_answer n f i out :
  queue_answer n (QEnqueue f) i out →
  enqueue_notes n f (answer out) (queue_notes n (QEnqueue f) out).
Proof.
  intros (q & sq & _ & _ & ->). cbn. destruct (spec_accepts _ _ sq f); cbn; [by right|done].
Qed.

Lemma dequeue_answer n i out :
  queue_answer n QDequeue i out → dequeue_notes n (handed_out out) (queue_notes n QDequeue out).
Proof.
  intros (q & sq & _ & Hr & ->). cbn. pose proof (repr_frames _ _ Hr) as Hf.
  destruct (sq_frames sq) as [|f fs]; cbn; [by right|].
  by apply Forall_cons in Hf as [Hf _].
Qed.

Lemma wp_bump_generation n (Q : unit → dev → world dp_ret → Prop) s w :
  inst_ok (st s) → (∀ s' w', acts [] s s' → Q tt s' w') → wp e (bump_generation n) Q s w.
Proof.
  intros Hok HQ. unfold bump_generation. apply wp_modify; [done| |done].
  intros i [Hq Hr Hw Hf]. destruct n; (split; [by split|split; [|done|done|by destruct Hf]]); intros []; first
    [apply (Hq Injection) | apply (Hq Capture)].
Qed.

Lemma wp_claim_wait interest (Q : unit → dev → world dp_ret → Prop) s w :
  inst_ok (st s) → (∀ s' w', acts [] s s' → Q tt s' w') →
  wp e (claim_wait_for_passive_completion interest) Q s w.
Proof.
  intros Hok HQ. unfold claim_wait_for_passive_completion. silent; [done|].
  intros [] s' w' _ A. by apply HQ.
Qed.

(** The lock of a queue is taken around [m], which sees the queue. *)
Lemma wp_queue_section {A} n (m : D A) (Q : A → dev → world dp_ret → Prop) s w :
  idle s →
  (∀ s1 w1, inst_ok (st s1) → queue_lock n (st s1) ∈ held s1 →
     wp e m (λ r s2 w2, ∃ l, acts l s1 s2 ∧ ∀ s3 w3, acts l s s3 → Q r s3 w3) s1 w1) →
  wp e (with_lock (queue_lock n (st s)) m) Q s w.
Proof.
  intros [Hok Hh] Hm. apply wp_with_lock; [by rewrite Hh|done|]. intros s1 w1 A1. apply Hm.
  - apply A1.
  - cbn. rewrite (cs_lock _ _ (ac_config _ _ _ A1)). set_solver.
Qed.

Lemma wp_enqueue_injection f (Q : result unit QueueError → dev → world dp_ret → Prop) s w :
  idle s → frame_ok f →
  (∀ r l s' w', acts l s s' → enqueue_notes Injection f r l → Q r s' w') →
  wp e (enqueue_existing_injection_frame f) Q s w.
Proof.
  intros Hs Hf HQ. unfold enqueue_existing_injection_frame. apply wp_bind, wp_config.
  destruct (injection_lock (st s) =? 0).
  { apply wp_bind, wp_drop_frame; [done|apply Hs|]. intros s1 w1 A1. apply wp_ret.
    eapply HQ; [exact A1|by left]. }
  apply wp_bind, (wp_queue_section Injection); [done|]. intros s1 w1 Hok1 Hl1.
  apply wp_bind, wp_queue_call; [done..| |].
  - intros _. apply wp_bind, wp_drop_frame; [done..|]. intros s2 w2 A2. apply wp_ret.
    exists [Freed f]. split; [done|]. intros s3 w3 A3. apply wp_bind. cbn. apply wp_ret, wp_ret.
    eapply HQ; [exact A3|by left].
  - intros out s2 w2 Hout A2. apply wp_ret. eexists. split; [exact A2|]. intros s3 w3 A3.
    apply wp_bind. pose proof (enqueue_answer _ _ _ _ Hout) as Hn.
    destruct (answer out); cbn [is_ok].
    + apply wp_bump_generation; [apply A3|]. intros s4 w4 A4. apply wp_ret.
      eapply HQ; [exact (acts_trans _ [] _ _ _ A3 A4)|done].
    + apply wp_ret, wp_ret. by eapply HQ.
Qed.

Lemma wp_enqueue_capture f (Q : result unit QueueError → dev → world dp_ret → Prop) s w :
  idle s → frame_ok f →
  (∀ r l s' w', acts l s s' → enqueue_notes Capture f r l → Q r s' w') →
  wp e (enqueue_existing_capture_frame f) Q s w.
Proof.
  intros Hs Hf HQ. unfold enqueue_existing_capture_frame. apply wp_bind, wp_config.
  destruct (capture_lock (st s) =? 0).
  { apply wp_bind, wp_drop_frame; [done|apply Hs|]. intros s1 w1 A1. apply wp_ret.
    eapply HQ; [exact A1|by left]. }
  apply wp_bind, (wp_queue_section Capture); [done|]. intros s1 w1 Hok1 Hl1.
  apply wp_bind, wp_locked_queue; [done|]. apply wp_bind, wp_queue_call; [done..| |].
  - intros ->. apply wp_ret. exists []. split; [by apply acts_refl|]. intros s3 w3 A3.
    apply wp_bind. cbn. apply wp_ret, wp_bind, wp_drop_frame; [done|apply A3|].
    intros s4 w4 A4. apply wp_ret. eapply HQ; [exact (acts_trans_nil _ _ _ _ A3 A4)|by left].
  - intros out s2 w2 Hout A2. apply wp_ret. eexists. split; [exact A2|]. intros s3 w3 A3.
    pose proof (enqueue_answer _ _ _ _ Hout) as Hn.
    assert (∀ s4 w4, acts [] s3 s4 → wp e (_ ← mret tt; mret (answer out)) Q s4 w4) as Hend.
    { intros s4 w4 A4. apply wp_bind, wp_ret, wp_ret.
      eapply HQ; [exact (acts_trans _ [] _ _ _ A3 A4)|done]. }
    apply wp_bind. destruct (answer out); cbn [is_ok]; [|by apply wp_ret, Hend, acts_refl, A3].
    apply wp_bind, wp_bump_generation; [apply A3|]. intros s4 w4 A4.
    split_if; [|by apply wp_ret, Hend]. apply wp_claim_wait; [apply A4|].
    intros s5 w5 A5. apply Hend. exact (acts_trans_nil _ _ _ _ A4 A5).
Qed.

(** After the critical section of a dequeue: the generation moves. *)
Lemma wp_dequeued {B} n (frame : option Frame) (b : B) (Q : B → dev → world dp_ret → Prop) l s s1 w :
  acts l s s1 → (∀ s' w', acts l s s' → Q b s' w') →
  wp e (_ ← (if frame is Some _ then bump_generation n else mret tt); mret b) Q s1 w.
Proof.
  intros A1 HQ. apply wp_bind. destruct frame; [|by apply wp_ret, wp_ret, HQ].
  apply wp_bump_generation; [apply A1|]. intros s2 w2 A2. apply wp_ret, HQ.
  exact (acts_trans _ [] _ _ _ A1 A2).
Qed.

Lemma wp_dequeue_injection (Q : option Frame * bool → dev → world dp_ret → Prop) s w :
  idle s →
  (∀ r l s' w', acts l s s' → dequeue_notes Injection r.1 l → Q r s' w') →
  wp e dequeue_injection_frame Q s w.
Proof.
  intros Hs HQ. unfold dequeue_injection_frame. apply wp_bind, wp_config.
  destruct (_ =? 0).
  { apply wp_ret. eapply HQ; [by apply acts_refl, Hs|by left]. }
  apply wp_bind, (wp_queue_section Injection); [done|]. intros s1 w1 Hok1 Hl1.
  apply wp_bind, wp_locked_queue; [done|]. apply wp_bind, wp_queue_call; [done..| |].
  - intros _. apply wp_ret. exists []. split; [by apply acts_refl|]. intros s3 w3 A3.
    apply wp_bind, wp_ret, wp_ret. eapply HQ; [exact A3|by left].
  - intros out s2 w2 Hout A2. apply wp_ret. eexists. split; [exact A2|]. intros s3 w3 A3.
    refine (wp_dequeued Injection (handed_out out) _ Q _ _ _ _ A3 _). intros. eapply HQ; [done|]. cbn. by eapply dequeue_answer.
Qed.

Lemma wp_dequeue_capture (Q : option Frame → dev → world dp_ret → Prop) s w :
  idle s →
  (∀ r l s' w', acts l s s' → dequeue_notes Capture r l → Q r s' w') →
  wp e dequeue_capture_frame Q s w.
Proof.
  intros Hs HQ. unfold dequeue_capture_frame. apply wp_bind, wp_config.
  destruct (_ =? 0).
  { apply wp_ret. eapply HQ; [by apply acts_refl, Hs|by left]. }
  apply wp_bind, (wp_queue_section Capture); [done|]. intros s1 w1 Hok1 Hl1.
  apply wp_bind, wp_queue_call; [done..| |].
  - intros _. apply wp_ret. exists []. split; [by apply acts_refl|]. intros s3 w3 A3.
    apply wp_bind, wp_ret, wp_ret. eapply HQ; [exact A3|by left].
  - intros out s2 w2 Hout A2. apply wp_ret. eexists. split; [exact A2|]. intros s3 w3 A3.
    refine (wp_dequeued Capture (handed_out out) _ Q _ _ _ _ A3 _). intros. eapply HQ; [done|]. by eapply dequeue_answer.
Qed.

Lemma wp_owned_by owner (Q : bool → dev → world dp_ret → Prop) s w :
  inst_ok (st s) → (∀ r s' w', acts [] s s' → Q r s' w') → wp e (owned_by owner) Q s w.
Proof.
  intros Hok HQ. unfold owned_by. apply wp_bind, wp_load; [done|]. intros s1 w1 A1.
  destruct (_ =? INSTANCE_OPEN); [|by apply wp_ret, HQ].
  apply wp_bind, wp_load; [apply A1|]. intros s2 w2 A2. apply wp_ret, HQ.
  exact (acts_trans_nil _ _ _ _ A1 A2).
Qed.

(** Requeued when the owner is still there, freed otherwise. *)
Lemma wp_dispose n f (current : bool) (enqueue : D (result unit QueueError))
    (Q : unit → dev → world dp_ret → Prop) s w :
  inst_ok (st s) → frame_ok f →
  (∀ Q', (∀ r l s' w', acts l s s' → enqueue_notes n f r l → Q' r s' w') → wp e enqueue Q' s w) →
  (∀ l s' w', acts l s s' → disposed n f l → Q tt s' w') →
  wp e (if current then _ ← enqueue; mret tt else drop_frame f) Q s w.
Proof.
  intros Hok Hf He HQ. destruct current.
  - apply wp_bind, He. intros r l s1 w1 A1 Hl. apply wp_ret. eapply HQ; [exact A1|by exists r].
  - apply wp_drop_frame; [done..|]. intros s1 w1 A1. by eapply HQ.
Qed.

Lemma wp_requeue_injection f owner (Q : unit → dev → world dp_ret → Prop) s w :
  idle s → frame_ok f →
  (∀ l s' w', acts l s s' → disposed Injection f l → Q tt s' w') →
  wp e (requeue_injection_frame f owner) Q s w.
Proof.
  intros Hs Hf HQ. unfold requeue_injection_frame. apply wp_bind, wp_owned_by; [apply Hs|].
  intros current s1 w1 A1. pose proof (idle_acts _ _ _ Hs A1) as Hs1.
  apply (wp_dispose Injection); [apply Hs1|done| |].
  - intros Q' HQ'. by apply wp_enqueue_injection.
  - intros l s2 w2 A2. apply HQ. exact (acts_trans_nil _ _ _ _ A1 A2).
Qed.

Lemma wp_requeue_capture f owner (Q : unit → dev → world dp_ret → Prop) s w :
  idle s → frame_ok f →
  (∀ l s' w', acts l s s' → disposed Capture f l → Q tt s' w') →
  wp e (requeue_capture_frame_and_schedule_wait f owner) Q s w.
Proof.
  intros Hs Hf HQ. unfold requeue_capture_frame_and_schedule_wait.
  apply wp_bind. silent; [apply Hs|]. intros granted s1 w1 _ A1.
  pose proof (idle_acts _ _ _ Hs A1) as Hs1. destruct granted; cbn [negb].
  - apply wp_bind, wp_owned_by; [apply Hs1|]. intros current s2 w2 A2.
    pose proof (idle_acts _ _ _ Hs1 A2) as Hs2. pose proof (acts_trans_nil _ _ _ _ A1 A2) as A12.
    apply wp_bind, (wp_dispose Capture); [apply Hs2|done| |].
    + intros Q' HQ'. by apply wp_enqueue_capture.
    + intros l s3 w3 A3 Hl. silent; [apply A3|]. intros [] s4 w4 _ A4. eapply HQ; [|exact Hl].
      exact (acts_trans _ [] _ _ _ (acts_trans_nil _ _ _ _ A12 A3) A4).
  - apply wp_drop_frame; [done|apply Hs1|]. intros s2 w2 A2.
    eapply HQ; [exact (acts_trans_nil _ _ _ _ A1 A2)|done].
Qed.

End dp_spec.
