(* ===== verification/DatapathRequests.v ===== *)
(** * The packet driver's data path: requests

    Completing, forwarding and serving reads and writes: every request the
    driver is given is answered exactly once, no frame is lost, and admissions
    are returned. *)

From S2P Require Import Prelude Words DriverConstants Effects Ring FrameQueue Datapath DatapathPaths DatapathSpec.

(** ** A request that the handler owns *)

(** The state without the request and its buffers. *)
Definition answered (q : Z) (s : dev) : dev :=
  s <| owned := owned s ∖ {[q]} |> <| inputs := delete q (inputs s) |>
    <| outputs := delete q (outputs s) |>.

(** Pieces of a handler that still owns [q]: they may also fill its buffers. *)
Record serves (q : Z) (l : list note) (s s' : dev) : Prop := {
  sv_state : ∃ s0, s0 = s <| inputs := inputs s0 |> <| outputs := outputs s0 |> ∧
               delete q (inputs s0) = delete q (inputs s) ∧
               (∀ b, inputs s !! q = Some b → inputs s0 !! q = Some b) ∧
               delete q (outputs s0) = delete q (outputs s) ∧ acts l s0 s';
}.

Lemma serves_acts q l s s' : acts l s s' → serves q l s s'.
Proof. intros A. split. exists s. split_and!; try done. by destruct s. Qed.

Lemma serves_then_acts q l1 l2 s1 s2 s3 :
  serves q l1 s1 s2 → acts l2 s2 s3 → serves q (l2 ++ l1) s1 s3.
Proof.
  intros [(s0 & E & Ei & Hi & Eo & A1)] A2. split. exists s0. split_and!; try done.
  by eapply acts_trans.
Qed.

Lemma serves_owned q l s s' : serves q l s s' → owned s' = owned s.
Proof. intros [(s0 & E & _ & _ & _ & A)]. by rewrite (acts_owned _ _ _ A), E. Qed.
Lemma serves_held q l s s' : serves q l s s' → held s' = held s.
Proof. intros [(s0 & E & _ & _ & _ & A)]. by rewrite (acts_held _ _ _ A), E. Qed.
Lemma serves_guards q l s s' : serves q l s s' → guards s' = guards s.
Proof. intros [(s0 & E & _ & _ & _ & A)]. by rewrite (acts_guards _ _ _ A), E. Qed.
Lemma serves_inst q l s s' : serves q l s s' → inst_ok (st s').
Proof. intros [(s0 & E & _ & _ & _ & A)]. apply A. Qed.
Lemma serves_idle q l s s' : idle s → serves q l s s' → idle s'.
Proof. intros [_ Hh] H. split; [by eapply serves_inst|by rewrite (serves_held _ _ _ _ H)]. Qed.
Lemma serves_input q l s s' b : serves q l s s' → inputs s !! q = Some b → inputs s' !! q = Some b.
Proof. intros [(s0 & E & _ & Hi & _ & A)] Hb. rewrite (acts_inputs _ _ _ A). auto. Qed.

Lemma serves_trans q l1 l2 s1 s2 s3 :
  serves q l1 s1 s2 → serves q l2 s2 s3 → serves q (l2 ++ l1) s1 s3.
Proof.
  intros [(s0 & E & Ei & Hi & Eo & A1)] [(s0' & E' & Ei' & Hi' & Eo' & A2)]. split.
  exists (s1 <| inputs := inputs s0' |> <| outputs := outputs s0' |>).
  rewrite (acts_inputs _ _ _ A1) in Ei', Hi'. rewrite (acts_outputs _ _ _ A1) in Eo'.
  split_and!; [done|by rewrite <- Ei|by auto|by rewrite <- Eo|].
  destruct A1 as [F1 C1 K1], A2 as [F2 C2 K2]. rewrite E in C1. rewrite E' in C2.
  split; [|exact (config_trans _ _ _ C1 C2)|done]. rewrite F2, E', F1, E. cbn. by rewrite app_assoc.
Qed.

(** The handler answers the request in the end. *)
Lemma serves_answered q l1 l2 s1 s2 s3 :
  serves q l1 s1 s2 → acts l2 (answered q s2) s3 → acts (l2 ++ l1) (answered q s1) s3.
Proof.
  intros [(s0 & E & Ei & _ & Eo & A1)] A2. eapply acts_trans; [|exact A2].
  destruct A1 as [E1 C K]. split; [|by rewrite E in C|done].
  rewrite E1, E. unfold answered. cbn. by rewrite Ei, Eo.
Qed.

Lemma acts_answered q l1 l2 s1 s2 s3 :
  acts l1 s1 s2 → acts l2 (answered q s2) s3 → acts (l2 ++ l1) (answered q s1) s3.
Proof. intros A. apply serves_answered. by apply serves_acts. Qed.

Lemma serves_output q b l s s' :
  acts l (s <| outputs := <[q := b]> (outputs s) |>) s' → serves q l s s'.
Proof.
  intros A. split. exists (s <| outputs := <[q := b]> (outputs s) |>). split_and!; try done.
  cbn. by rewrite delete_insert_eq.
Qed.

Lemma serves_input_buffer q b l s s' :
  (∀ b', inputs s !! q = Some b' → b' = b) →
  acts l (s <| inputs := <[q := b]> (inputs s) |>) s' → serves q l s s'.
Proof.
  intros Hb A. split. exists (s <| inputs := <[q := b]> (inputs s) |>). split_and!; try done.
  - cbn. by rewrite delete_insert_eq.
  - cbn. intros b' Hb'. rewrite lookup_insert_eq. f_equal. symmetry. by apply Hb.
Qed.

(** A guarded piece that answers the request. *)
Lemma acts_guarded l lock s s1 s2 s3 :
  lock ∉ guards s →
  acts [] (s <| guards := {[lock]} ∪ guards s |>) s1 → acts l s1 s2 →
  acts [] (s2 <| guards := guards s2 ∖ {[lock]} |>) s3 → acts l s s3.
Proof.
  intros Hl [E1 C1 K1] [E2 C2 K2] [E3 C3 K3]. split; [|by eapply config_trans, config_trans|done].
  rewrite E3, E2, E1. cbn. replace (({[lock]} ∪ guards s) ∖ {[lock]}) with (guards s) by set_solver.
  by destruct s.
Qed.

(** The request retrieved is answered again: nothing more is owned. *)
Lemma answered_retrieved q s :
  fresh_request q s → answered q (s <| owned := {[q]} ∪ owned s |>) = s.
Proof.
  intros (Hq & Hi & Ho). unfold answered. cbn. rewrite !delete_id by done.
  replace (({[q]} ∪ owned s) ∖ {[q]}) with (owned s) by set_solver. by destruct s.
Qed.

Section requests.
Context (e : env dev dp_ret) (Henv : respects dp_contract e).

Ltac silent :=
  lazymatch goal with
  | |- wp _ (do_call ?c) ?Q ?s ?w => refine (wp_silent e Henv c Q s w eq_refl _ _)
  end.

(** ** Answers *)

Lemma wp_finish q status n (m : D unit) Q s w :
  idle s → q ∈ owned s →
  (∀ Q' s1 w1, inst_ok (st s1) → (∀ s2 w2, acts [] s1 s2 → Q' tt s2 w2) → wp e m Q' s1 w1) →
  (∀ s' w', acts [Completed q status n (take (Z.to_nat n) (default [] (outputs s !! q)))]
              (answered q s) s' → Q tt s' w') →
  wp e (finish_request q status n m) Q s w.
Proof.
  intros [Hok Hh] Hq Hm HQ. unfold finish_request. apply wp_bind, wp_get.
  rewrite decide_True by done. apply wp_bind, wp_put, Hm; [done|]. intros s2 w2 A2. apply HQ.
  eapply (acts_trans [_] []); [|exact A2]. by apply (acts_note _ (answered q s)).
Qed.

Lemma wp_complete_request q status (Q : unit → dev → world dp_ret → Prop) s w :
  idle s → q ∈ owned s →
  (∀ s' w', acts [Completed q status 0 []] (answered q s) s' → Q tt s' w') →
  wp e (complete_request q status) Q s w.
Proof.
  intros Hs Hq HQ. apply (wp_finish q status 0); [done..| |exact HQ].
  intros Q' s1 w1 Hok HQ'. silent; [done|]. intros [] s2 w2 _ A2. by apply HQ'.
Qed.

Lemma wp_complete_with q status n (Q : unit → dev → world dp_ret → Prop) s w :
  idle s → q ∈ owned s →
  (∀ s' w', acts [Completed q status n (take (Z.to_nat n) (default [] (outputs s !! q)))]
              (answered q s) s' → Q tt s' w') →
  wp e (complete_request_with_information q status n) Q s w.
Proof.
  intros Hs Hq HQ. apply (wp_finish q status n); [done..| |exact HQ].
  intros Q' s1 w1 Hok HQ'. silent; [done|]. intros [] s2 w2 _ A2. by apply HQ'.
Qed.

(** Forwarded, or completed with a failure. *)
Definition forward_notes (q target : Z) (r : bool) (l : list note) : Prop :=
  if r then l = [Forwarded q target]
  else ∃ status, status ≠ STATUS_SUCCESS ∧ l = [Completed q status 0 []].

Lemma wp_forward q target (Q : bool → dev → world dp_ret → Prop) s w :
  idle s → q ∈ owned s →
  (∀ r l s' w', acts l (answered q s) s' → forward_notes q target r l → Q r s' w') →
  wp e (forward_request q target) Q s w.
Proof.
  intros Hs Hq HQ. unfold forward_request. split_if.
  { apply wp_bind, wp_complete_request; [done..|]. intros s1 w1 A1. apply wp_ret.
    eapply HQ; [exact A1|]. by exists STATUS_NOT_SUPPORTED. }
  apply wp_bind. silent; [apply Hs|]. intros status s1 w1 _ A1.
  pose proof (idle_acts _ _ _ Hs A1) as Hs1.
  assert (Hq1 : q ∈ owned s1) by (by rewrite (acts_owned _ _ _ A1)).
  destruct (Z.eqb_spec status STATUS_SUCCESS) as [|Hne]; cbn [negb].
  - apply wp_bind, wp_get. rewrite decide_True by done. apply wp_bind, wp_put, wp_ret.
    apply (HQ true [Forwarded q target]); [|done].
    eapply (acts_answered q [] [_]); [exact A1|]. apply (acts_note _ (answered q s1)), Hs1.
  - apply wp_bind. silent; [apply Hs1|]. intros _ s2 w2 _ A2.
    pose proof (idle_acts _ _ _ Hs1 A2) as Hs2.
    apply wp_bind, wp_complete_request; [done|by rewrite (acts_owned _ _ _ A2)|].
    intros s3 w3 A3. apply wp_ret. eapply HQ; [|by exists status].
    eapply (acts_answered q [] [_]); [exact (acts_trans_nil _ _ _ _ A1 A2)|exact A3].
Qed.

(** ** Reads *)

Lemma wp_retrieve_output q n (Q : Z * Z → dev → world dp_ret → Prop) s w :
  idle s →
  (∀ r s' w', serves q [] s s' →
     (r.1 = STATUS_SUCCESS → ∃ b, outputs s' !! q = Some b ∧ len b = r.2) → Q r s' w') →
  wp e (call (WdfRequestRetrieveOutputBuffer q n)) Q s w.
Proof.
  intros [Hok Hh] HQ. wp_do dp_contract Henv. cbn. intros r s' Ha.
  destruct (Z.eqb_spec r.1 STATUS_SUCCESS) as [E|E].
  - destruct Ha as (b & Hb & Hi).
    apply acts_interferes in Hi as A; [|done].
    apply HQ; [by eapply serves_output|]. intros _. exists b. split; [|done].
    rewrite (acts_outputs _ _ _ A). cbn. by rewrite lookup_insert_eq.
  - apply HQ; [by apply serves_acts, acts_interferes|done].
Qed.

(** A copy that fits. *)
Lemma wp_write_output q offset bytes b (Q : unit → dev → world dp_ret → Prop) s w :
  inst_ok (st s) → outputs s !! q = Some b → 0 ≤ offset → offset + len bytes ≤ len b →
  (∀ s', serves q [] s s' → outputs s' !! q = Some (splice b offset bytes) → Q tt s' w) →
  wp e (write_output q offset bytes) Q s w.
Proof.
  intros Hok Hb Ho Hl HQ. unfold write_output. apply wp_bind, wp_get.
  apply wp_bind, wp_from_option. exists b. split; [done|].
  rewrite (proj2 (andb_true_iff _ _)) by (rewrite !Z.leb_le; lia).
  apply wp_put, HQ; [|by apply lookup_insert_eq]. eapply serves_output.
  by apply (acts_refl (s <| outputs := <[q := splice b offset bytes]> (outputs s) |>)).
Qed.

Lemma take_splice (b bytes : list Z) :
  len bytes ≤ len b → take (Z.to_nat (len bytes)) (splice b 0 bytes) = bytes.
Proof.
  intros. pose proof (slice_splice b bytes H) as Hs. rewrite slice_spec in Hs.
  - rewrite Z.sub_0_r in Hs. change (Z.to_nat 0) with 0%nat in Hs. rewrite drop_0 in Hs. congruence.
  - lia.
  - apply len_nonneg.
  - rewrite len_splice; pose proof (len_nonneg bytes); lia.
Qed.

Lemma wp_complete_captured q f bytes (Q : Z → dev → world dp_ret → Prop) s w :
  idle s → q ∈ owned s → as_bytes f = Some bytes →
  (∀ s' w', acts [Completed q STATUS_SUCCESS (len bytes) bytes] (answered q s) s' →
     Q STATUS_SUCCESS s' w') →
  (∀ status s' w', status ≠ STATUS_SUCCESS → serves q [] s s' → Q status s' w') →
  wp e (complete_captured_frame_to_read q f) Q s w.
Proof.
  intros Hs Hq Hb HS HF. unfold complete_captured_frame_to_read.
  apply wp_bind, wp_from_option. exists bytes. split; [done|].
  apply wp_bind. apply wp_retrieve_output; [done|]. intros [status n] s1 w1 A1 Hout. cbn in Hout.
  destruct (Z.eqb_spec status STATUS_SUCCESS) as [E|E]; cbn [negb]; [|by apply wp_ret, HF].
  destruct (Hout E) as (b & Hb1 & Hn). split_if; [by apply wp_ret, HF|]. bool_reflect.
  apply wp_bind, (wp_write_output q 0 bytes b); [by eapply serves_inst|done|lia|lia|].
  intros s2 A2 Hb2. pose proof (serves_trans _ [] [] _ _ _ A1 A2) as A3. cbn in A3.
  apply wp_bind, wp_complete_with; [by eapply serves_idle|by rewrite (serves_owned _ _ _ _ A3)|].
  intros s3 w3 A4. apply wp_ret. rewrite Hb2 in A4. cbn [option.from_option id] in A4.
  rewrite take_splice in A4 by lia. apply HS.
  exact (serves_answered q [] _ _ _ _ A3 A4).
Qed.

(** A read served with the captured frame [f]. *)
Definition read_served (q : Z) (f : Frame) (l : list note) : Prop :=
  (∃ bytes, as_bytes f = Some bytes ∧
     l = [Freed f; Completed q STATUS_SUCCESS (len bytes) bytes]) ∨
  (∃ status l', status ≠ STATUS_SUCCESS ∧ l = Completed q status 0 [] :: l' ∧ disposed Capture f l').

Lemma wp_serve_read q f owner (Q : unit → dev → world dp_ret → Prop) s w :
  idle s → q ∈ owned s → frame_ok f →
  (∀ l s' w', acts l (answered q s) s' → read_served q f l → Q tt s' w') →
  wp e (serve_read q f owner) Q s w.
Proof.
  intros Hs Hq Hf HQ. unfold serve_read. destruct (as_bytes_ok f Hf) as (bytes & Hb & _).
  apply wp_bind, (wp_complete_captured q f bytes); try done.
  - intros s1 w1 A1. rewrite Z.eqb_refl. cbn [negb].
    apply wp_drop_frame; [done|done|apply A1|]. intros s2 w2 A2.
    eapply HQ; [exact (acts_trans _ _ _ _ _ A1 A2)|]. left. by exists bytes.
  - intros status s1 w1 Hst A1. rewrite (proj2 (Z.eqb_neq _ _)) by done. cbn [negb].
    pose proof (serves_idle _ _ _ _ Hs A1) as Hs1.
    apply wp_bind, wp_requeue_capture; [done..|]. intros l s2 w2 A2 Hl.
    pose proof (serves_then_acts _ _ _ _ _ _ A1 A2) as A12. rewrite app_nil_r in A12.
    apply wp_complete_request; [exact (serves_idle _ _ _ _ Hs A12)|by rewrite (serves_owned _ _ _ _ A12)|].
    intros s3 w3 A3. eapply HQ; [exact (serves_answered _ _ _ _ _ _ A12 A3)|].
    right. by exists status, l.
Qed.

(** Every way a read can end; the latest note comes first. *)
Inductive read_outcome (q : Z) : list note → Prop :=
  | read_refused status :
      status = STATUS_DEVICE_NOT_READY ∨ status = STATUS_DEVICE_BUSY →
      read_outcome q [Completed q status 0 []]
  | read_empty l :
      dequeue_notes Capture None l →
      read_outcome q (Completed q STATUS_NO_MORE_ENTRIES 0 [] :: l)
  | read_adaptive f l l' :
      dequeue_notes Capture (Some f) l → read_served q f l' → read_outcome q (l' ++ l)
  | read_legacy f l l' :
      dequeue_notes Capture (Some f) l → read_served q f l' →
      read_outcome q (l' ++ [AdmissionReturned PendingReads] ++ l ++ [AdmissionTaken PendingReads])
  | read_waits target l :
      dequeue_notes Capture None l →
      read_outcome q ([Forwarded q target] ++ l ++ [AdmissionTaken PendingReads])
  | read_not_forwarded status l :
      status ≠ STATUS_SUCCESS → dequeue_notes Capture None l →
      read_outcome q ([AdmissionReturned PendingReads; Completed q status 0 []] ++ l ++ [AdmissionTaken PendingReads]).

Lemma wp_read_at_once q owner (Q : unit → dev → world dp_ret → Prop) s w :
  idle s → q ∈ owned s →
  (∀ l s' w', acts l (answered q s) s' → read_outcome q l → Q tt s' w') →
  wp e (read_at_once q owner) Q s w.
Proof.
  intros Hs Hq HQ. unfold read_at_once. apply wp_bind, wp_dequeue_capture; [done..|].
  intros [f|] l s1 w1 A1 Hl; pose proof (idle_acts _ _ _ Hs A1) as Hs1;
    (assert (q ∈ owned s1) by (by rewrite (acts_owned _ _ _ A1))).
  - apply wp_serve_read; [done|done|apply Hl|]. intros l' s2 w2 A2 Hl'.
    eapply HQ; [exact (acts_answered _ _ _ _ _ _ A1 A2)|]. by eapply read_adaptive.
  - apply wp_complete_request; [done..|]. intros s2 w2 A2.
    eapply HQ; [exact (acts_answered _ _ _ _ _ _ A1 A2)|]. by apply read_empty.
Qed.

Lemma wp_read_or_wait q owner (Q : unit → dev → world dp_ret → Prop) s0 s w :
  idle s → q ∈ owned s → acts [AdmissionTaken PendingReads] s0 s →
  (∀ l s' w', acts l (answered q s0) s' → read_outcome q l → Q tt s' w') →
  wp e (read_or_wait q owner) Q s w.
Proof.
  intros Hs Hq A0 HQ. unfold read_or_wait. apply wp_bind, wp_dequeue_capture; [done..|].
  intros o l s1 w1 A1 Hl. pose proof (idle_acts _ _ _ Hs A1) as Hs1.
  assert (Hq1 : q ∈ owned s1) by (by rewrite (acts_owned _ _ _ A1)).
  pose proof (acts_trans _ _ _ _ _ A0 A1) as A01. destruct o as [f|].
  - apply wp_bind, wp_release_request; [done|apply Hs1|]. intros s2 w2 A2.
    pose proof (acts_trans _ _ _ _ _ A01 A2) as A02.
    apply wp_serve_read; [exact (idle_acts _ _ _ Hs1 A2)|by rewrite (acts_owned _ _ _ A2)|apply Hl|].
    intros l' s3 w3 A3 Hl'. eapply HQ; [exact (acts_answered _ _ _ _ _ _ A02 A3)|].
    by eapply read_legacy.
  - apply wp_bind, wp_config, wp_bind, wp_forward; [done..|]. intros r l' s2 w2 A2 Hl'.
    pose proof (acts_answered _ _ _ _ _ _ A01 A2) as A02. destruct r; cbn [negb].
    + apply wp_ret. eapply HQ; [exact A02|]. cbn in Hl'. subst l'. by apply read_waits.
    + destruct Hl' as (status & Hst & ->). apply wp_release_request; [done|apply A2|].
      intros s3 w3 A3. eapply HQ; [exact (acts_trans _ _ _ _ _ A02 A3)|].
      by apply (read_not_forwarded q status l).
Qed.

(** A handler's end, under its lease. *)
Lemma wp_leave n (m : D unit) (Q : option unit → dev → world dp_ret → Prop) s w :
  wp e m (λ _ s1 w1, inst_ok (st s1) ∧ ∀ s2 w2, acts [] s1 s2 → Q (Some tt) s2 w2) s w →
  wp e (_ ← m; _ ← call (ReleaseLease n); mret (Some tt)) Q s w.
Proof.
  intros Hm. apply wp_bind. eapply wp_mono; [exact Hm|]. intros [] s1 w1 [Hok HQ].
  apply wp_bind. silent; [done|]. intros _ s2 w2 _ A2. by apply wp_ret, HQ.
Qed.

Lemma wp_evt_io_read fuel found q (Q : option unit → dev → world dp_ret → Prop) s w :
  idle s → q ∈ owned s → (¬ (uncontended e ∧ (0 < fuel)%nat) → ∀ s' w', Q None s' w') →
  (∀ l s' w', acts l (answered q s) s' → read_outcome q l → Q (Some tt) s' w') →
  wp e (evt_io_read fuel found q) Q s w.
Proof.
  intros Hs Hq HN HQ. unfold evt_io_read.
  assert (∀ s1, acts [] s s1 → idle s1 ∧ q ∈ owned s1) as Hkeep.
  { intros s1 A1. split; [exact (idle_acts _ _ _ Hs A1)|by rewrite (acts_owned _ _ _ A1)]. }
  assert (∀ status s1 w1, acts [] s s1 →
    status = STATUS_DEVICE_NOT_READY ∨ status = STATUS_DEVICE_BUSY →
    wp e (complete_request q status) (λ _ s2 _, acts [Completed q status 0 []] (answered q s) s2) s1 w1)
    as Hrefuse.
  { intros status s1 w1 A1 Hst. destruct (Hkeep s1 A1).
    apply wp_complete_request; [done..|]. intros s2 w2 A2. exact (acts_answered _ _ _ _ _ _ A1 A2). }
  destruct found; cbn [negb].
  2: { apply wp_bind. eapply wp_mono; [apply (Hrefuse STATUS_DEVICE_NOT_READY); [by apply acts_refl, Hs|by left]|].
       intros [] s1 w1 A1. apply wp_ret. eapply HQ; [exact A1|]. apply read_refused. by left. }
  apply wp_bind. silent; [apply Hs|]. intros granted s1 w1 _ A1. destruct granted; cbn [negb].
  2: { apply wp_bind. eapply wp_mono; [apply (Hrefuse STATUS_DEVICE_NOT_READY); [done|by left]|].
       intros [] s2 w2 A2. apply wp_ret. eapply HQ; [exact A2|]. apply read_refused. by left. }
  assert (∀ l s2, acts l (answered q s) s2 → read_outcome q l →
    inst_ok (st s2) ∧ ∀ s3 w3, acts [] s2 s3 → Q (Some tt) s3 w3) as Hend.
  { intros l s2 A2 Hl. split; [apply A2|]. intros s3 w3 A3. eapply HQ; [|exact Hl].
    exact (acts_trans _ [] _ _ _ A2 A3). }
  apply wp_bind, wp_load; [done|apply A1|]. intros s2 w2 A2.
  pose proof (acts_trans_nil _ _ _ _ A1 A2) as A12. destruct (_ =? INSTANCE_OPEN); cbn [negb].
  2: { apply wp_leave. eapply wp_mono; [apply Hrefuse; [exact A12|by left]|].
       intros [] s3 w3 A3. eapply Hend; [exact A3|]. apply read_refused. by left. }
  apply wp_bind, wp_load; [done|apply A2|]. intros s3 w3 A3.
  apply wp_bind, wp_load; [done|apply A3|]. intros s4 w4 A4.
  pose proof (acts_trans_nil _ _ _ _ A12 (acts_trans_nil _ _ _ _ A3 A4)) as A14.
  destruct (Hkeep s4 A14) as [Hs4 Hq4]. split_if.
  - apply wp_leave, wp_read_at_once; [done..|]. intros l s5 w5 A5 Hl.
    eapply Hend; [exact (acts_answered _ [] _ _ _ _ A14 A5)|]. by rewrite app_nil_r.
  - apply wp_bind, (wp_try_admit e Henv _ _ PENDING_READ_LIMIT); [apply Hs4|done|]. intros r s5 w5 A5 Hr.
    pose proof (acts_trans_nil _ _ _ _ A14 A5) as A15. destruct r as [[]|]; cbn in A15.
    + apply wp_leave. eapply wp_read_or_wait; [| |exact A15|].
      * exact (idle_acts _ _ _ Hs A15).
      * by rewrite (acts_owned _ _ _ A15).
      * intros l s6 w6 A6 Hl. by eapply Hend.
    + apply wp_leave. eapply wp_mono; [apply (Hrefuse STATUS_DEVICE_BUSY); [exact A15|by right]|].
      intros [] s6 w6 A6. eapply Hend; [exact A6|]. apply read_refused. by right.
    + apply wp_ret, HN. intros []. by apply Hr.
Qed.

(** ** Writes *)

(** What is left when the bytes were not queued. *)
Definition unqueued (l : list note) : Prop :=
  l = [] ∨ ∃ f x l', frame_ok f ∧ l = l' ++ [Created f] ∧ enqueue_notes Injection f (Err x) l'.

Definition queued_bytes (bytes : list Z) (l : list note) : Prop :=
  ∃ f, as_bytes f = Some bytes ∧ frame_ok f ∧
    l = [Queued Injection (QEnqueue f) {| answer := Ok tt; handed_out := None; dropped := [] |}; Created f].

Lemma wp_enqueue_bytes bytes (Q : result unit QueueError → dev → world dp_ret → Prop) s w :
  idle s →
  (∀ r l s' w', acts l s s' → (if is_ok r then queued_bytes bytes l else unqueued l) → Q r s' w') →
  wp e (enqueue_injection_frame bytes) Q s w.
Proof.
  intros Hs HQ. unfold enqueue_injection_frame. apply wp_bind, wp_config.
  assert (∀ x s1 w1, acts [] s s1 → Q (Err x) s1 w1) as Hfail.
  { intros x s1 w1 A1. eapply HQ; [exact A1|]. by left. }
  split_if; [by apply wp_ret, Hfail, acts_refl, Hs|].
  apply wp_bind, (wp_queue_section e Henv Injection); [done|]. intros s1 w1 Hok1 Hl1.
  apply wp_bind, wp_locked_queue; [done|]. apply wp_ret. exists [].
  split; [by apply acts_refl|]. intros s2 w2 A2.
  apply wp_bind_ok, wp_ret. destruct (match queue_of _ _ with Some _ => _ | None => _ end); [|by apply Hfail].
  apply wp_bind, wp_config, wp_bind_ok, wp_new_frame; [done|apply A2|]. intros api Hw.
  destruct (from_bytes_total api (frame_pool (st s2)) bytes Hw) as (r & Hr & Hf).
  exists r. split; [done|]. intros s3 w3 A3. pose proof (acts_trans_nil _ _ _ _ A2 A3) as A13.
  destruct r as [f|x]; [|by apply Hfail]. destruct (Hf f eq_refl) as [Hb Hfo].
  apply wp_enqueue_injection; [done|exact (idle_acts _ _ _ Hs A13)|done|].
  intros r l s4 w4 A4 Hl. eapply HQ; [exact (acts_trans _ _ _ _ _ A13 A4)|].
  destruct r as [[]|x]; cbn [is_ok].
  - cbn in Hl. subst l. by exists f.
  - right. by exists f, x, l.
Qed.

(** Every way a write of [b] can end. *)
Inductive write_outcome (q : Z) (b : list Z) : list note → Prop :=
  | write_refused status :
      status = STATUS_DEVICE_NOT_READY ∨ status = STATUS_INVALID_PARAMETER ∨
      status = STATUS_DEVICE_BUSY →
      write_outcome q b [Completed q status 0 []]
  | write_empty : write_outcome q b [Completed q STATUS_SUCCESS 0 []]
  | write_failed status l :
      status ≠ STATUS_SUCCESS → unqueued l →
      write_outcome q b ([Completed q status 0 []; AdmissionReturned PendingWrites] ++ l ++ [AdmissionTaken PendingWrites])
  | write_accepted output l :
      queued_bytes b l →
      write_outcome q b ([Completed q STATUS_SUCCESS (len b) output; AdmissionReturned PendingWrites] ++ l
                           ++ [AdmissionTaken PendingWrites]).

Lemma wp_retrieve_input q n b (Q : Z * Z → dev → world dp_ret → Prop) s w :
  idle s → inputs s !! q = Some b →
  (∀ r s' w', serves q [] s s' → (r.1 = STATUS_SUCCESS → r.2 = len b) → Q r s' w') →
  wp e (call (WdfRequestRetrieveInputBuffer q n)) Q s w.
Proof.
  intros [Hok Hh] Hb HQ. wp_do dp_contract Henv. cbn. intros r s' Ha.
  destruct (Z.eqb_spec r.1 STATUS_SUCCESS) as [E|E].
  - destruct Ha as (b' & Hn & Hsame & Hi). pose proof (Hsame b Hb) as <-.
    apply acts_interferes in Hi as A; [|done].
    apply HQ; [by eapply serves_input_buffer|done].
  - apply HQ; [by apply serves_acts, acts_interferes|done].
Qed.

Lemma wp_take_rx_notification (Q : Z → dev → world dp_ret → Prop) s w :
  inst_ok (st s) → (∀ r s' w', acts [] s s' → Q r s' w') → wp e take_rx_notification Q s w.
Proof.
  intros Hok HQ. unfold take_rx_notification. apply wp_bind. silent; [done|]. intros _ s1 w1 _ A1.
  apply wp_bind, wp_get, wp_bind, wp_put, wp_ret, HQ. eapply acts_trans_nil; [exact A1|].
  pose proof (ac_ok _ _ _ A1) as [Hq Hr Hw Hf]. apply acts_update.
  - split; try done; by intros [].
  - split; [|done|done|by destruct Hf]. intros []; [apply (Hq Injection)|apply (Hq Capture)].
Qed.

Lemma wp_notify queue (Q : unit → dev → world dp_ret → Prop) s w :
  inst_ok (st s) → (∀ s' w', acts [] s s' → Q tt s' w') →
  wp e (if queue =? 0 then mret tt else notify_more_received_packets queue) Q s w.
Proof.
  intros Hok HQ. split_if; [by apply wp_ret, HQ, acts_refl|].
  unfold notify_more_received_packets. silent; [done|]. intros [] s1 w1 _ A1. by apply HQ.
Qed.

Lemma queue_error_status_failure x : queue_error_status x ≠ STATUS_SUCCESS.
Proof. by destruct x. Qed.

Lemma wp_write_admitted q b maximum (Q : unit → dev → world dp_ret → Prop) s0 s w :
  idle s → q ∈ owned s → inputs s !! q = Some b → acts [AdmissionTaken PendingWrites] s0 s →
  (∀ l s' w', acts l (answered q s0) s' → write_outcome q b l → Q tt s' w') →
  wp e (write_admitted q maximum) Q s w.
Proof.
  intros Hs Hq Hb A0 HQ. unfold write_admitted.
  apply wp_bind, (wp_retrieve_input q FRAME_MINIMUM b); [done..|].
  intros [status n] s1 w1 A1 Hn. cbn in Hn.
  pose proof (serves_idle _ _ _ _ Hs A1) as Hs1.
  assert (Hq1 : q ∈ owned s1) by (by rewrite (serves_owned _ _ _ _ A1)).
  pose proof (serves_trans _ _ _ _ _ _ (serves_acts q _ _ _ A0) A1) as A01.
  assert (∀ status l s2 w2, serves q (l ++ [AdmissionTaken PendingWrites]) s0 s2 → idle s2 →
    q ∈ owned s2 → status ≠ STATUS_SUCCESS → unqueued l →
    wp e (_ ← release_request PendingWrites; complete_request q status) Q s2 w2) as Hfail.
  { intros st' l s2 w2 A2 Hs2 Hq2 Hst Hl. apply wp_bind, wp_release_request; [done|apply Hs2|].
    intros s3 w3 A3. apply wp_complete_request; [exact (idle_acts _ _ _ Hs2 A3)|by rewrite (acts_owned _ _ _ A3)|].
    intros s4 w4 A4.
    eapply HQ; [exact (serves_answered _ _ _ _ _ _ (serves_then_acts _ _ _ _ _ _ A2 A3) A4)|].
    by apply (write_failed q b st' l). }
  destruct (Z.eqb_spec status STATUS_SUCCESS) as [E|E]; cbn [negb].
  2: { eapply (Hfail status []); [exact A01|done|done|done|by left]. }
  specialize (Hn E). subst n. split_if.
  { eapply (Hfail _ []); [exact A01|done|done|done|by left]. }
  apply wp_bind, wp_get, wp_bind, wp_from_option. exists b.
  split; [exact (serves_input _ _ _ _ _ A1 Hb)|].
  apply wp_bind, wp_from_option. exists b. split.
  { rewrite slice_spec by (pose proof (len_nonneg b); lia). rewrite Z.sub_0_r.
    change (Z.to_nat 0) with 0%nat. rewrite drop_0. unfold len. by rewrite Nat2Z.id, firstn_all. }
  apply wp_bind, wp_enqueue_bytes; [done|]. intros r l s2 w2 A2 Hl.
  pose proof (idle_acts _ _ _ Hs1 A2) as Hs2.
  assert (Hq2 : q ∈ owned s2) by (by rewrite (acts_owned _ _ _ A2)).
  pose proof (serves_then_acts _ _ _ _ _ _ A01 A2) as A02.
  destruct r as [[]|x]; cbn [is_ok] in Hl.
  - apply wp_bind, wp_bind, wp_take_rx_notification; [apply Hs2|]. intros queue s3 w3 A3.
    apply wp_bind, wp_release_request; [done|apply A3|]. intros s4 w4 A4.
    pose proof (acts_trans_nil _ _ _ _ A3 A4) as A24.
    apply wp_bind, wp_complete_with; [exact (idle_acts _ _ _ Hs2 A24)|by rewrite (acts_owned _ _ _ A24)|].
    intros s5 w5 A5. apply wp_ret, wp_notify; [apply A5|]. intros s6 w6 A6.
    eapply HQ; [exact (serves_answered _ _ _ _ _ _ (serves_then_acts _ _ _ _ _ _ A02 A24)
                         (acts_trans _ [] _ _ _ A5 A6))|].
    by apply write_accepted.
  - apply wp_bind, wp_bind, wp_release_request; [done|apply Hs2|]. intros s3 w3 A3.
    apply wp_bind, wp_complete_request; [exact (idle_acts _ _ _ Hs2 A3)|by rewrite (acts_owned _ _ _ A3)|].
    intros s4 w4 A4. apply wp_ret, wp_ret.
    eapply HQ; [exact (serves_answered _ _ _ _ _ _ (serves_then_acts _ _ _ _ _ _ A02 A3) A4)|].
    apply (write_failed q b (queue_error_status x) l); [apply queue_error_status_failure|done].
Qed.

(** ** Guards *)

Lemma wp_guard_acquire lock immediate (Q : bool → dev → world dp_ret → Prop) s w :
  inst_ok (st s) → lock ∉ guards s →
  (∀ s' w', acts [] s s' → Q false s' w') →
  (∀ s' w', acts [] (s <| guards := {[lock]} ∪ guards s |>) s' → Q true s' w') →
  wp e (guard_acquire lock immediate) Q s w.
Proof.
  intros Hok Hl HF HT. unfold guard_acquire. split_if; [by apply wp_ret, HF, acts_refl|].
  apply wp_bind, wp_get. rewrite decide_False by done. apply wp_bind. silent; [done|].
  intros status s1 w1 _ A1. split_if; [|by apply wp_ret, HF].
  apply wp_bind, wp_get, wp_bind, wp_put, wp_ret, HT. rewrite (acts_guards _ _ _ A1).
  destruct A1 as [E C K]. split; [|done|done]. rewrite E at 1. done.
Qed.

Lemma wp_guard_release lock (Q : unit → dev → world dp_ret → Prop) s w :
  inst_ok (st s) → lock ∈ guards s →
  (∀ s' w', acts [] (s <| guards := guards s ∖ {[lock]} |>) s' → Q tt s' w') →
  wp e (guard_release lock) Q s w.
Proof.
  intros Hok Hl HQ. unfold guard_release. apply wp_bind, wp_get. rewrite decide_True by done.
  apply wp_bind, wp_put. silent; [done|]. intros [] s1 w1 _ A1. by apply HQ.
Qed.

Lemma wp_evt_io_write fuel found q length b (Q : option unit → dev → world dp_ret → Prop) s w :
  idle s → q ∈ owned s → inputs s !! q = Some b → write_lifetime_lock (st s) ∉ guards s →
  (¬ (uncontended e ∧ (0 < fuel)%nat) → ∀ s' w', Q None s' w') →
  (∀ l s' w', acts l (answered q s) s' → write_outcome q b l → Q (Some tt) s' w') →
  wp e (evt_io_write fuel found q length) Q s w.
Proof.
  intros Hs Hq Hb Hg HN HQ. unfold evt_io_write.
  assert (∀ s1 w1, acts [] s s1 →
    wp e (_ ← complete_request q STATUS_DEVICE_NOT_READY; mret (Some tt)) Q s1 w1) as Hrefuse.
  { intros s1 w1 A1. apply wp_bind, wp_complete_request;
      [exact (idle_acts _ _ _ Hs A1)|by rewrite (acts_owned _ _ _ A1)|].
    intros s2 w2 A2. apply wp_ret. eapply HQ; [exact (acts_answered _ [] _ _ _ _ A1 A2)|].
    apply write_refused. by left. }
  destruct found; cbn [negb]; [|by apply Hrefuse, acts_refl, Hs].
  apply wp_bind, wp_config, wp_bind. set (lock := write_lifetime_lock (st s)) in *.
  apply wp_guard_acquire; [apply Hs|done|by intros; apply Hrefuse|]. intros s1 w1 A1. cbn [negb].
  set (sg := s <| guards := {[lock]} ∪ guards s |>) in *.
  assert (Hsg : idle sg) by done.
  assert (∀ (m : D unit) s2 w2, wp e m (λ _ s3 _, ∃ l, acts l (answered q sg) s3 ∧ write_outcome q b l) s2 w2 →
    wp e (_ ← m; _ ← guard_release lock; mret (Some tt)) Q s2 w2) as Hleave.
  { intros m s2 w2 Hm. apply wp_bind. eapply wp_mono; [exact Hm|].
    intros [] s3 w3 (l & A3 & Hl). apply wp_bind, wp_guard_release; [apply A3| |].
    { rewrite (acts_guards _ _ _ A3). cbn. set_solver. }
    intros s4 w4 A4. apply wp_ret. eapply HQ; [|exact Hl].
    eapply (acts_guarded l lock (answered q s)); [done| |exact A3|exact A4].
    by apply (acts_refl (answered q sg)), Hs. }
  assert (∀ status s2 w2, acts [] sg s2 → write_outcome q b [Completed q status 0 []] →
    wp e (complete_request q status) (λ _ s3 _, ∃ l, acts l (answered q sg) s3 ∧ write_outcome q b l) s2 w2)
    as Hcomplete.
  { intros status s2 w2 A2 Hout. apply wp_complete_request;
      [exact (idle_acts _ _ _ Hsg A2)|by rewrite (acts_owned _ _ _ A2)|].
    intros s3 w3 A3. eexists. split; [exact (acts_answered _ [] _ _ _ _ A2 A3)|]. by rewrite app_nil_r. }
  apply wp_bind, wp_load; [done|apply A1|]. intros s2 w2 A2.
  pose proof (acts_trans_nil _ _ _ _ A1 A2) as A12. destruct (_ =? INSTANCE_OPEN); cbn [negb].
  2: { apply Hleave, Hcomplete; [done|]. apply write_refused. by left. }
  split_if; [apply Hleave, Hcomplete; [done|apply write_empty]|].
  apply wp_bind, wp_config. destruct (_ && _); cbn [negb].
  2: { apply Hleave, Hcomplete; [done|]. apply write_refused. by right; left. }
  apply wp_bind, (wp_try_admit e Henv _ _ PENDING_WRITE_LIMIT); [apply A2|done|]. intros r s3 w3 A3 Hr.
  pose proof (acts_trans_nil _ _ _ _ A12 A3) as A13. destruct r as [[]|]; cbn in A13.
  - apply Hleave. eapply (wp_write_admitted q b); [| | |exact A13|].
    + exact (idle_acts _ _ _ Hsg A13).
    + by rewrite (acts_owned _ _ _ A13).
    + by rewrite (acts_inputs _ _ _ A13).
    + intros l s4 w4 A4 Hl. by exists l.
  - apply Hleave, Hcomplete; [done|]. apply write_refused. by right; right.
  - apply wp_ret, HN. intros []. by apply Hr.
Qed.

(** ** The passive worker *)

Lemma wp_retrieve_next queue (Q : Z * Z → dev → world dp_ret → Prop) s w :
  inst_ok (st s) →
  (∀ r s' w', r.1 ≠ STATUS_SUCCESS → acts [] s s' → Q r s' w') →
  (∀ r s' w', r.1 = STATUS_SUCCESS → (e w (WdfIoQueueRetrieveNextRequest queue) s).1 = r →
     fresh_request r.2 s → acts [] (s <| owned := {[r.2]} ∪ owned s |>) s' → Q r s' w') →
  wp e (retrieve_next_request queue) Q s w.
Proof.
  intros Hok HF HS. unfold retrieve_next_request. apply wp_bind.
  destruct (e w (WdfIoQueueRetrieveNextRequest queue) s) as [r s1] eqn:Heq. exists r, s1. eexists.
  split; [by unfold do_call; rewrite Heq|].
  pose proof (Henv w (WdfIoQueueRetrieveNextRequest queue) s) as [Hi Hr]. rewrite Heq in Hi, Hr.
  cbn [fst snd] in Hi, Hr. pose proof (acts_interferes _ _ Hok Hi) as A1. apply wp_bind.
  destruct (Z.eqb_spec r.1 STATUS_SUCCESS) as [E|E]; [|by apply wp_ret, wp_ret, HF].
  apply wp_bind, wp_get, wp_put, wp_ret, HS; [done|done|by apply Hr|]. rewrite (acts_owned _ _ _ A1).
  destruct A1 as [E1 C K]. split; [|done|done]. rewrite E1 at 1. by destruct s.
Qed.

(** One read the worker served, or gave back. *)
Inductive read_round (q : Z) : list note → Prop :=
  | round_served f l l' :
      dequeue_notes Capture (Some f) l → read_served q f l' →
      read_round q (l' ++ [AdmissionReturned PendingReads] ++ l)
  | round_waits target l :
      dequeue_notes Capture None l → read_round q ([Forwarded q target] ++ l)
  | round_failed status l :
      status ≠ STATUS_SUCCESS → dequeue_notes Capture None l →
      read_round q ([AdmissionReturned PendingReads; Completed q status 0 []] ++ l).

(** The requests completed, and that the manual queue gave a request out. *)
Fixpoint completed (l : list note) : Z :=
  match l with
  | [] => 0
  | Completed _ _ _ _ :: l => 1 + completed l
  | _ :: l => completed l
  end.

Lemma completed_app l k : completed (l ++ k) = completed l + completed k.
Proof. induction l as [|[] l IH]; cbn in *; lia. Qed.

Definition gave (s : dev) : Prop := ∃ w1 s1 queue,
  log s1 = log s ∧ (e w1 (WdfIoQueueRetrieveNextRequest queue) s1).1.1 = STATUS_SUCCESS.

Lemma completed_dequeue n o l : dequeue_notes n o l → completed l = 0.
Proof. destruct o; cbn; [by intros [_ ->]|by intros [-> | ->]]. Qed.

Lemma completed_served q f l : read_served q f l → completed l = 1.
Proof.
  intros [(b & _ & ->)|(status & l' & _ & -> & [r Hl])]; [done|]. cbn. enough (completed l' = 0) by lia.
  destruct r; cbn in Hl; [by subst|by destruct Hl as [-> | ->]].
Qed.

(** All the reads the worker served. *)
Inductive worked : list note → Prop :=
  | worked_none : worked []
  | worked_more q l l' : worked l → read_round q l' → worked (l' ++ l).

Lemma wp_complete_one_read (Q : bool → dev → world dp_ret → Prop) s w :
  idle s →
  (∀ (b : bool) l s' w', acts l s s' → l = [] ∨ (∃ q, read_round q l) →
     (b = true → gave s ∧ completed l = 1) → Q b s' w') →
  wp e complete_one_read Q s w.
Proof.
  intros Hs HQ. unfold complete_one_read. apply wp_bind, wp_load; [done|apply Hs|]. intros s1 w1 A1.
  split_if; [apply wp_ret; eapply HQ; [exact A1|by left|done]|].
  apply wp_bind, wp_load; [done|apply A1|]. intros s2 w2 A2.
  pose proof (acts_trans_nil _ _ _ _ A1 A2) as A12. pose proof (idle_acts _ _ _ Hs A12) as Hs2.
  apply wp_bind, wp_config, wp_bind, wp_retrieve_next; [apply Hs2|..].
  { intros r s3 w3 Hr A3. rewrite (proj2 (Z.eqb_neq _ _)) by done. apply wp_ret.
    eapply HQ; [exact (acts_trans_nil _ _ _ _ A12 A3)|by left|done]. }
  intros [st' q] s3 w3 Hr Hgave Hfresh A3. cbn in Hr, Hfresh, A3 |- *.
  assert (gave s) as Hg.
  { eexists _, s2, _. split; [by rewrite (acts_log _ _ _ A12)|]. by rewrite Hgave. }
   rewrite Hr, Z.eqb_refl. cbn [negb].
  set (sq := s2 <| owned := {[q]} ∪ owned s2 |>) in *.
  assert (Hsq : idle sq) by done. pose proof (idle_acts _ _ _ Hsq A3) as Hs3.
  assert (Hq3 : q ∈ owned s3) by (rewrite (acts_owned _ _ _ A3); cbn; set_solver).
  assert (Hback : ∀ l s4, acts l (answered q sq) s4 → acts l s s4).
  { intros l s4 A4. unfold sq in A4. rewrite answered_retrieved in A4 by done.
    exact (acts_trans_nil _ _ _ _ A12 A4). }
  apply wp_bind, wp_dequeue_capture; [done..|]. intros o l s4 w4 A4 Hl.
  pose proof (acts_trans_nil _ _ _ _ A3 A4) as A34. pose proof (idle_acts _ _ _ Hs3 A4) as Hs4.
  assert (Hq4 : q ∈ owned s4) by (by rewrite (acts_owned _ _ _ A4)). destruct o as [f|].
  - apply wp_bind, wp_release_request; [done|apply Hs4|]. intros s5 w5 A5.
    apply wp_bind, wp_serve_read; [exact (idle_acts _ _ _ Hs4 A5)|by rewrite (acts_owned _ _ _ A5)|apply Hl|].
    intros l' s6 w6 A6 Hl'. apply wp_ret. eapply HQ.
    + apply Hback. exact (acts_answered _ _ _ _ _ _ (acts_trans _ _ _ _ _ A34 A5) A6).
    + right. exists q. by eapply round_served.
    + intros _. split; [done|]. rewrite !completed_app, (completed_served _ _ _ Hl'), (completed_dequeue _ _ _ Hl).
      done.
  - apply wp_bind, wp_config, wp_bind, wp_forward; [done..|]. intros r l' s5 w5 A5 Hl'.
    pose proof (acts_answered _ _ _ _ _ _ A34 A5) as A35. apply wp_bind. destruct r; cbn [negb].
    + apply wp_ret, wp_ret. eapply HQ; [by apply Hback| |done]. right. exists q. cbn in Hl'. subst l'.
      by apply round_waits.
    + destruct Hl' as (status & Hst & ->). apply wp_release_request; [done|apply A5|].
      intros s6 w6 A6. apply wp_ret. eapply HQ; [apply Hback; exact (acts_trans _ _ _ _ _ A35 A6)| |done].
      right. exists q. by apply (round_failed q status l).
Qed.

(** No adaptive wait is scheduled, and at most [n] reads are pending. *)
Definition drains (n : Z) : Prop :=
  (∀ w s, (e w ServeScheduledWait s).1 = false) ∧ (∀ s, gave s → completed (log s) < n).

Lemma wp_evt_read_completion_work_item n fuel found (Q : option unit → dev → world dp_ret → Prop) s w :
  idle s → (¬ (drains n ∧ Z.max 0 (n - completed (log s)) < Z.of_nat fuel) → ∀ s' w', Q None s' w') →
  (∀ l s' w', acts l s s' → worked l → Q (Some tt) s' w') →
  wp e (evt_read_completion_work_item fuel found) Q s w.
Proof.
  intros Hs HN HQ. unfold evt_read_completion_work_item.
  destruct found; cbn [negb]; [|apply wp_ret; eapply HQ; [by apply acts_refl, Hs|constructor]].
  cut (∀ fuel' l s1 w1, acts l s s1 → worked l →
    (drains n ∧ Z.max 0 (n - completed (log s)) < Z.of_nat fuel →
     Z.max 0 (n - completed (log s1)) < Z.of_nat fuel') → wp e (read_completion_loop fuel') Q s1 w1).
  { intros H. apply (H fuel []); [by apply acts_refl, Hs|constructor|lia]. }
  intros fuel'. induction fuel' as [|fuel' IH]; intros l s1 w1 A Hl Hf; cbn.
  { apply wp_ret, HN. intros H. specialize (Hf H). lia. }
  apply wp_bind. exists (e w1 ServeScheduledWait s1).1, (e w1 ServeScheduledWait s1).2. eexists. split; [done|].
  assert (acts [] s1 (e w1 ServeScheduledWait s1).2) as A2.
  { apply acts_interferes; [apply A|apply (Henv w1 ServeScheduledWait s1)]. }
  pose proof (acts_trans _ [] _ _ _ A A2) as A02. destruct (e w1 ServeScheduledWait s1).1 eqn:Hserved.
  { eapply IH; [exact A02|done|]. intros [[H1 _] _]. by rewrite H1 in Hserved. }
  apply wp_bind. silent; [apply A2|]. intros granted s3 w3 _ A3.
  pose proof (acts_trans _ [] _ _ _ A02 A3) as A03. cbn in A03.
  destruct granted; cbn [negb]; [|by apply wp_ret; eapply HQ].
  apply wp_bind, wp_complete_one_read; [exact (idle_acts _ _ _ Hs A03)|].
  intros more l' s4 w4 A4 Hl' Hmore. apply wp_bind. silent; [apply A4|]. intros _ s5 w5 _ A5.
  pose proof (acts_trans _ [] _ _ _ (acts_trans _ _ _ _ _ A03 A4) A5) as A05. cbn in A05.
  assert (worked (l' ++ l)) as Hw.
  { destruct Hl' as [->|[q Hq]]; [done|]. by eapply worked_more. }
  destruct more; [|apply wp_ret; by eapply HQ]. eapply IH; [exact A05|done|]. intros H.
  destruct (Hmore eq_refl) as [Hg Hone]. pose proof (Hf H) as Hf'. destruct H as [[_ Hd] _].
  specialize (Hd _ Hg). rewrite (acts_log _ _ _ A03), completed_app in Hd.
  rewrite (acts_log _ _ _ A05), !completed_app, Hone.
  rewrite (acts_log _ _ _ A), completed_app in Hf'. lia.
Qed.

(** ** Clearing and reopening the queues *)

Definition reset_notes (n : queue_name) (o : queue_op) (l : list note) : Prop :=
  l = [] ∨ ∃ q sq out, repr q sq ∧ out = (spec_step (limit q) (byte_limit q) sq o).2 ∧
    l = queue_notes n o out.

Lemma wp_reset_queue n o (Q : unit → dev → world dp_ret → Prop) s w :
  idle s → op_frames_ok o →
  (∀ l s' w', acts l s s' → reset_notes n o l → Q tt s' w') →
  wp e (reset_queue n o) Q s w.
Proof.
  intros Hs Ho HQ. unfold reset_queue. apply wp_bind, wp_config.
  split_if; [apply wp_ret; eapply HQ; [by apply acts_refl, Hs|by left]|].
  apply wp_bind, (wp_queue_section e Henv n); [done|]. intros s1 w1 Hok1 Hl1.
  assert (∀ l s2 w2, acts l s s2 → reset_notes n o l → wp e (bump_generation n) Q s2 w2) as Hend.
  { intros l s2 w2 A2 Hl. apply wp_bump_generation; [done|apply A2|]. intros s3 w3 A3.
    eapply HQ; [exact (acts_trans _ [] _ _ _ A2 A3)|done]. }
  apply wp_queue_call; [done..| |].
  - intros _. exists []. split; [by apply acts_refl|]. intros s3 w3 A3. eapply Hend; [done|by left].
  - intros out s2 w2 (q & sq & _ & Hr & Hout) A2. eexists. split; [exact A2|]. intros s3 w3 A3.
    eapply Hend; [done|]. right. by exists q, sq, out.
Qed.

(** ** Notification of received packets *)

Lemma wp_has_queued_injection_frame (Q : bool → dev → world dp_ret → Prop) s w :
  idle s → (∀ r s' w', acts [] s s' → Q r s' w') → wp e has_queued_injection_frame Q s w.
Proof.
  intros Hs HQ. unfold has_queued_injection_frame. apply wp_bind, wp_config.
  split_if; [by apply wp_ret, HQ, acts_refl, Hs|].
  apply (wp_queue_section e Henv Injection); [done|]. intros s1 w1 Hok1 Hl1.
  apply wp_bind, wp_locked_queue; [done|]. apply wp_ret. exists [].
  split; [by apply acts_refl|]. intros s2 w2. apply HQ.
Qed.

Lemma wp_disarm (armed : bool) (Q : unit → dev → world dp_ret → Prop) s w :
  inst_ok (st s) → (∀ s' w', acts [] s s' → Q tt s' w') →
  wp e (modify (λ i, i <| rx_notification_armed := armed |>)) Q s w.
Proof.
  intros Hok HQ. apply wp_modify; [done|done| |done].
  intros i [Hq ? ? Hf]. split; [by split; intros; try destruct n|]. split; [|done|done|by destruct Hf].
  intros []; [apply (Hq Injection)|apply (Hq Capture)].
Qed.

Lemma wp_set_notification_enabled context enabled (Q : unit → dev → world dp_ret → Prop) s w :
  idle s → (∀ s' w', acts [] s s' → Q tt s' w') →
  wp e (evt_packet_queue_set_notification_enabled context enabled) Q s w.
Proof.
  intros Hs HQ. pose proof (acts_refl s (proj1 Hs)) as A0.
  destruct context as [[[] []]|]; cbn; try by apply wp_ret, HQ.
  apply wp_bind, wp_disarm; [apply Hs|]. intros s1 w1 A1. split_if; [by apply wp_ret, HQ|].
  apply wp_bind, wp_has_queued_injection_frame; [exact (idle_acts _ _ _ Hs A1)|]. intros r s2 w2 A2.
  pose proof (acts_trans_nil _ _ _ _ A1 A2) as A12. destruct r; [|by apply wp_ret, HQ].
  apply wp_bind, wp_take_rx_notification; [apply A2|]. intros queue s3 w3 A3.
  apply wp_notify; [apply A3|]. intros s4 w4 A4. apply HQ.
  exact (acts_trans_nil _ _ _ _ A12 (acts_trans_nil _ _ _ _ A3 A4)).
Qed.

End requests.
