(* ===== verification/DatapathRings.v ===== *)
(** * The packet driver's data path: the packet and fragment rings

    The rings a packet callback walks: where their elements are, how far a walk
    goes, and what the receive and the transmit callback do to them. *)

From S2P Require Import Prelude Words DriverConstants Effects Ring FrameQueue Datapath DatapathPaths DatapathSpec.
From S2P Require Import DatapathRequests.

(** ** Ring headers *)

Record ring_ok (size : Z) (r : NET_RING) : Prop := {
  ro_words : ring_words r;
  ro_valid : ring_is_valid r = true;
  ro_power : ∃ k, 0 ≤ k ∧ NumberOfElements r = 2 ^ k;
  ro_stride : size ≤ ElementStride r;
  ro_begin : 0 ≤ BeginIndex r < NumberOfElements r;
  ro_end : 0 ≤ EndIndex r < NumberOfElements r;
}.

(** The header with another begin index. *)
Definition begin_at (r : NET_RING) (i : Z) : NET_RING := r <| BeginIndex := i |>.

(** One element further. *)
Definition next_begin (r : NET_RING) : NET_RING :=
  begin_at r ((BeginIndex r + 1) mod NumberOfElements r).

(** The index [k] elements after the first. *)
Definition nth_index (r : NET_RING) (k : Z) : Z := (BeginIndex r + k) mod NumberOfElements r.

(** The number of elements from begin to end. *)
Definition distance (r : NET_RING) : Z := (EndIndex r - BeginIndex r) mod NumberOfElements r.

Definition element_address (r : NET_RING) (i : Z) : Z := Buffer r + i * ElementStride r.

Section ring.
Context (size : Z) (r : NET_RING) (Hr : ring_ok size r).

Lemma ring_size : 0 < NumberOfElements r ≤ 2 ^ 32.
Proof. pose proof (ro_words _ _ Hr) as (_ & [_ H] & _). pose proof (ro_begin _ _ Hr). lia. Qed.

Lemma element_at_index i :
  0 ≤ i < NumberOfElements r → element_at (Some r) i size = Some (element_address r i).
Proof.
  intros Hi. pose proof ring_size. rewrite element_at_value; [|apply Hr|unfold fits; lia].
  rewrite (ro_valid _ _ Hr). destruct (ro_power _ _ Hr) as (k & Hk & Hp).
  pose proof (ro_valid _ _ Hr) as Hv. apply ring_valid_spec in Hv as (_ & Hm & _).
  rewrite (index_in_mask_pow2 r i k (ro_words _ _ Hr) Hp Hk Hm Hi).
  rewrite (proj2 (Z.leb_le _ _) (ro_stride _ _ Hr)). done.
Qed.

(** An index the mask refuses has no element. *)
Lemma element_at_outside i :
  fits 32 i → NumberOfElements r ≤ i → element_at (Some r) i size = None.
Proof.
  intros Hi Hn. rewrite (element_at_value r i size (ro_words _ _ Hr) Hi).
  pose proof (ro_valid _ _ Hr) as Hv. apply ring_valid_spec in Hv as (_ & Hm & _).
  destruct (index_in_mask r i) eqn:Hmask; [|by rewrite andb_false_r].
  destruct (index_in_mask_le r i (ro_words _ _ Hr) Hi Hmask) as [_ Hle]. lia.
Qed.

Lemma advance_index_outside i n :
  fits 32 i → NumberOfElements r ≤ i → advance_index r i n = None.
Proof.
  intros Hi Hn. unfold advance_index. pose proof (ro_valid _ _ Hr) as Hv.
  apply ring_valid_spec in Hv as (_ & Hm & _).
  destruct (index_in_mask r i) eqn:Hmask; [|by rewrite orb_true_r].
  destruct (index_in_mask_le r i (ro_words _ _ Hr) Hi Hmask) as [_ Hle]. lia.
Qed.

Lemma increment_index_mod i :
  0 ≤ i < NumberOfElements r → increment_index r i = Some (Some ((i + 1) mod NumberOfElements r)).
Proof.
  intros Hi. destruct (ro_power _ _ Hr) as (k & Hk & Hp).
  apply (ring_indices_wrap r k i 0 (ro_words _ _ Hr) (ro_valid _ _ Hr)); done || unfold fits; lia.
Qed.

Lemma advance_index_mod i n :
  0 ≤ i < NumberOfElements r → fits 32 n →
  advance_index r i n = Some ((i + n) mod NumberOfElements r).
Proof.
  intros Hi Hn. destruct (ro_power _ _ Hr) as (k & Hk & Hp).
  by apply (ring_indices_wrap r k i n (ro_words _ _ Hr) (ro_valid _ _ Hr)).
Qed.

Lemma element_address_inj i j :
  element_address r i = element_address r j → i = j.
Proof.
  unfold element_address. pose proof (ro_valid _ _ Hr) as Hv. apply ring_valid_spec in Hv as (_ & _ & Hs).
  intros H. apply (Z.mul_cancel_r _ _ (ElementStride r)); lia.
Qed.

Lemma distance_bounds : 0 ≤ distance r < NumberOfElements r.
Proof. pose proof ring_size. apply Z.mod_pos_bound. lia. Qed.

Lemma distance_zero : distance r = 0 ↔ BeginIndex r = EndIndex r.
Proof.
  pose proof (ro_begin _ _ Hr). pose proof (ro_end _ _ Hr). unfold distance. split.
  - intros H2. apply Z.mod_divide in H2 as [z Hz]; [|lia].
    assert (z = 0) as -> by nia. lia.
  - intros ->. by rewrite Z.sub_diag.
Qed.

Lemma nth_index_bounds k : 0 ≤ nth_index r k < NumberOfElements r.
Proof. pose proof ring_size. apply Z.mod_pos_bound. lia. Qed.

Lemma nth_index_inj j k :
  0 ≤ j < NumberOfElements r → 0 ≤ k < NumberOfElements r → nth_index r j = nth_index r k → j = k.
Proof.
  intros Hj Hk H. unfold nth_index in H.
  assert (((BeginIndex r + j) - (BeginIndex r + k)) mod NumberOfElements r = 0) as Hd.
  { rewrite Zminus_mod, H, Z.sub_diag. done. }
  replace (BeginIndex r + j - (BeginIndex r + k)) with (j - k) in Hd by lia.
  apply Z.mod_divide in Hd as [z Hz]; [|lia]. assert (z = 0) as -> by nia. lia.
Qed.

(** The walk by one. *)
Lemma begin_next_ok :
  ring_ok size (begin_at r ((BeginIndex r + 1) mod NumberOfElements r)).
Proof.
  pose proof ring_size. destruct Hr. split; cbn; try done. apply Z.mod_pos_bound. lia.
Qed.

Lemma distance_next :
  BeginIndex r ≠ EndIndex r →
  distance (begin_at r ((BeginIndex r + 1) mod NumberOfElements r)) = distance r - 1.
Proof.
  intros Hne. pose proof ring_size. pose proof distance_bounds as Hb.
  assert (distance r ≠ 0) as Hd by (by rewrite distance_zero).
  unfold distance in *. cbn. rewrite Zminus_mod_idemp_r.
  replace (EndIndex r - (BeginIndex r + 1)) with (EndIndex r - BeginIndex r - 1) by lia.
  rewrite <- Zminus_mod_idemp_l. apply Z.mod_small. lia.
Qed.

End ring.

(** The headers met on a walk of [k] elements. *)
Definition walked (r : NET_RING) (k : Z) : NET_RING := begin_at r (nth_index r k).

Lemma walked_0 size r : ring_ok size r → walked r 0 = r.
Proof.
  intros Hr. unfold walked, nth_index. rewrite Z.add_0_r, Z.mod_small by apply (ro_begin _ _ Hr).
  by destruct r.
Qed.

Lemma walked_ok size r k : ring_ok size r → ring_ok size (walked r k).
Proof. intros Hr. pose proof (nth_index_bounds size r Hr k). destruct Hr. by split. Qed.

Lemma walked_succ r k :
  begin_at (walked r k) ((BeginIndex (walked r k) + 1) mod NumberOfElements (walked r k)) =
  walked r (k + 1).
Proof.
  unfold walked, nth_index, begin_at. cbn. by rewrite Zplus_mod_idemp_l, Z.add_assoc.
Qed.

Lemma walked_nth r k j : nth_index (walked r k) j = nth_index r (k + j).
Proof. unfold nth_index. cbn. unfold nth_index. by rewrite Zplus_mod_idemp_l, Z.add_assoc. Qed.

Lemma walked_distance size r k :
  ring_ok size r → 0 ≤ k ≤ distance r → distance (walked r k) = distance r - k.
Proof.
  intros Hr Hk. unfold distance at 1, walked, nth_index. cbn. rewrite Zminus_mod_idemp_r.
  replace (EndIndex r - (BeginIndex r + k)) with (EndIndex r - BeginIndex r - k) by lia.
  rewrite <- Zminus_mod_idemp_l. fold (distance r).
  pose proof (distance_bounds size r Hr). apply Z.mod_small. lia.
Qed.

(** ** What the rings refer to *)

Record ring_memory := {
  m_extension : NET_EXTENSION;
  m_packet_ring : option NET_RING;
  m_fragment_ring : option NET_RING;
  m_packets : gmap Z NET_PACKET;
  m_fragments : gmap Z NET_FRAGMENT;
  m_addresses : gmap Z Z;
  m_payload : gmap Z Z;
}.

#[export] Instance ring_memory_eta : Eta ring_memory := λ m,
  Build_ring_memory (m_extension m) (m_packet_ring m) (m_fragment_ring m) (m_packets m)
    (m_fragments m) (m_addresses m) (m_payload m).

Definition memory_of (s : dev) : ring_memory := {|
  m_extension := extension s; m_packet_ring := packet_ring s; m_fragment_ring := fragment_ring s;
  m_packets := packets s; m_fragments := fragments s; m_addresses := virtual_addresses s;
  m_payload := payload s |}.

Definition with_memory (m : ring_memory) (s : dev) : dev :=
  s <| extension := m_extension m |> <| packet_ring := m_packet_ring m |>
    <| fragment_ring := m_fragment_ring m |> <| packets := m_packets m |>
    <| fragments := m_fragments m |> <| virtual_addresses := m_addresses m |>
    <| payload := m_payload m |>.

Lemma memory_of_with m s : memory_of (with_memory m s) = m.
Proof. by destruct m. Qed.

Lemma with_memory_self s : with_memory (memory_of s) s = s.
Proof. by destruct s. Qed.

(** A piece of a callback: its notes, and what it made of the rings. *)
Definition does (l : list note) (m : ring_memory) (s s' : dev) : Prop := acts l (with_memory m s) s'.

Lemma acts_memory l s s' : acts l s s' → memory_of s' = memory_of s.
Proof. by intros [-> _ _]. Qed.

Lemma does_acts l m s s' : memory_of s = m → acts l s s' → does l m s s'.
Proof. intros <-. unfold does. by rewrite with_memory_self. Qed.

Lemma does_memory l m s s' : does l m s s' → memory_of s' = m.
Proof. intros A. rewrite (acts_memory _ _ _ A). apply memory_of_with. Qed.

Lemma acts_with_memory l m s s' : acts l s s' → acts l (with_memory m s) (with_memory m s').
Proof. intros [E C K]. split; [by rewrite E|done|done]. Qed.

Lemma does_trans l1 l2 m1 m2 s s1 s2 :
  does l1 m1 s s1 → does l2 m2 s1 s2 → does (l2 ++ l1) m2 s s2.
Proof. intros A1 A2. eapply acts_trans; [|exact A2]. exact (acts_with_memory _ m2 _ _ A1). Qed.

Lemma does_then l1 l2 m s s1 s2 : does l1 m s s1 → acts l2 s1 s2 → does (l2 ++ l1) m s s2.
Proof. apply acts_trans. Qed.

Lemma does_after l1 l2 m s s1 s2 : acts l1 s s1 → does l2 m s1 s2 → does (l2 ++ l1) m s s2.
Proof. intros A1 A2. by eapply does_trans; [by eapply does_acts|]. Qed.

Lemma does_idle l m s s' : idle s → does l m s s' → idle s'.
Proof. intros Hs A. exact (idle_acts l (with_memory m s) s' Hs A). Qed.

Lemma does_inst l m s s' : does l m s s' → inst_ok (st s').
Proof. by intros []. Qed.

Lemma does_owned l m s s' : does l m s s' → owned s' = owned s.
Proof. intros A. by rewrite (acts_owned _ _ _ A). Qed.

Lemma does_put m s : inst_ok (st s) → does [] m s (with_memory m s).
Proof. intros. by apply acts_refl. Qed.

(** ** Payload *)

Fixpoint bytes_at (mem : gmap Z Z) (a : Z) (n : nat) : option (list Z) :=
  match n with
  | O => Some []
  | Datatypes.S n => b ← mem !! a; rest ← bytes_at mem (a + 1) n; Some (b :: rest)
  end.

Definition mapped (mem : gmap Z Z) (a n : Z) : Prop := ∀ k, a ≤ k < a + n → is_Some (mem !! k).

Lemma read_payload_at s a n : read_payload s a n = bytes_at (payload s) a (Z.to_nat n).
Proof.
  unfold read_payload. cut (∀ k c, mapM (λ i, payload s !! (a + i)) (Z.of_nat <$> seq k c) =
    bytes_at (payload s) (a + Z.of_nat k) c).
  { intros H. rewrite H. f_equal. lia. }
  intros k c. revert k. induction c as [|c IH]; intros k; [done|]. cbn.
  replace (a + Z.of_nat k + 1) with (a + Z.of_nat (Datatypes.S k)) by lia. by rewrite <- IH.
Qed.

Lemma mapped_bytes mem a n :
  0 ≤ n → mapped mem a n → ∃ b, bytes_at mem a (Z.to_nat n) = Some b ∧ len b = n.
Proof.
  intros Hn. rewrite <- (Z2Nat.id n Hn). generalize (Z.to_nat n). clear n Hn.
  intros n. rewrite Nat2Z.id. revert a. induction n as [|n IH]; intros a Hm; cbn; [by eexists|].
  destruct (Hm a) as [b ->]; [lia|]. destruct (IH (a + 1)) as (rest & -> & Hl).
  - intros k Hk. apply Hm. lia.
  - exists (b :: rest). split; [done|]. rewrite len_cons, Hl. lia.
Qed.

Lemma lookup_insert_bytes_outside mem a b k :
  ¬ (a ≤ k < a + len b) → insert_bytes a b mem !! k = mem !! k.
Proof.
  revert a. induction b as [|x b IH]; intros a Hk; cbn; [done|]. rewrite len_cons in Hk.
  pose proof (len_nonneg b). rewrite lookup_insert_ne by lia. apply IH. lia.
Qed.

Lemma bytes_at_ext mem mem' a n :
  (∀ k, a ≤ k < a + Z.of_nat n → mem' !! k = mem !! k) → bytes_at mem' a n = bytes_at mem a n.
Proof.
  revert a. induction n as [|n IH]; intros a H; cbn; [done|]. rewrite H by lia.
  destruct (mem !! a); [|done]. cbn. rewrite IH; [done|]. intros k Hk. apply H. lia.
Qed.

Lemma bytes_at_insert mem a b : bytes_at (insert_bytes a b mem) a (Datatypes.length b) = Some b.
Proof.
  revert a. induction b as [|x b IH]; intros a; cbn; [done|]. rewrite lookup_insert_eq. cbn.
  rewrite (bytes_at_ext (insert_bytes (a + 1) b mem)).
  - by rewrite IH.
  - intros k Hk. apply lookup_insert_ne. lia.
Qed.

Lemma mapped_insert mem a b a' n : mapped mem a' n → mapped (insert_bytes a b mem) a' n.
Proof.
  intros H k Hk. specialize (H k Hk). clear Hk. revert a. induction b as [|x b IH]; intros a; [done|].
  cbn. destruct (decide (a = k)) as [->|]; [by rewrite lookup_insert_eq|by rewrite lookup_insert_ne].
Qed.

(** ** Well-formed rings *)

Section rings.
Context (B : bindings).

(** The buffer of fragment [i]. *)
Definition buffer (m : ring_memory) (i : Z) : option Z :=
  a ← fragment_virtual_address (m_extension m) i; m_addresses m !! a.

Record packet_ok (k : NET_PACKET) : Prop := {
  po_index : fits 32 (FragmentIndex k);
  po_count : fits 16 (FragmentCount k);
}.

Record fragment_ok (g : NET_FRAGMENT) : Prop := {
  fo_capacity : 0 ≤ Capacity g;
  fo_offset : 0 ≤ Offset g;
  fo_valid : 0 ≤ ValidLength g;
}.

(** The headers are [p] and [f]; every element is there, and every buffer. *)
Record rings_ok (m : ring_memory) (p f : NET_RING) : Prop := {
  mo_packet_ring : m_packet_ring m = Some p;
  mo_fragment_ring : m_fragment_ring m = Some f;
  mo_p : ring_ok (size_of_NET_PACKET B) p;
  mo_f : ring_ok (size_of_NET_FRAGMENT B) f;
  mo_packets i : 0 ≤ i < NumberOfElements p →
    ∃ k, m_packets m !! element_address p i = Some k ∧ packet_ok k;
  mo_fragments i : 0 ≤ i < NumberOfElements f →
    ∃ g, m_fragments m !! element_address f i = Some g ∧ fragment_ok g;
  mo_addresses i a : 0 ≤ i < NumberOfElements f →
    fragment_virtual_address (m_extension m) i = Some a → is_Some (m_addresses m !! a);
  mo_buffers i g va : 0 ≤ i < NumberOfElements f →
    m_fragments m !! element_address f i = Some g → buffer m i = Some va → va ≠ 0 →
    mapped (m_payload m) va (Capacity g);
}.

(** No two fragments share a byte. *)
Definition buffers_apart (m : ring_memory) (f : NET_RING) : Prop :=
  ∀ i j g h va vb,
    0 ≤ i < NumberOfElements f → 0 ≤ j < NumberOfElements f → i ≠ j →
    m_fragments m !! element_address f i = Some g → m_fragments m !! element_address f j = Some h →
    buffer m i = Some va → buffer m j = Some vb → va ≠ 0 → vb ≠ 0 →
    va + Capacity g ≤ vb ∨ vb + Capacity h ≤ va.

(** The dereferences of the callbacks. *)
Lemma packet_ref_ok s p f i :
  rings_ok (memory_of s) p f → 0 ≤ i < NumberOfElements p →
  ∃ k, packets s !! element_address p i = Some k ∧ packet_ok k ∧
    packet_ref B s i = Some (Some (element_address p i, k)).
Proof.
  intros [Hp _ Hpo _ Hk _ _ _] Hi. destruct (Hk i Hi) as (k & Hl & Hok). cbn in Hp, Hl.
  exists k. split_and!; [done..|]. unfold packet_ref, packet_at. rewrite Hp.
  rewrite (element_at_index _ _ Hpo i Hi). cbn. by rewrite Hl.
Qed.

Lemma fragment_ref_ok s p f i :
  rings_ok (memory_of s) p f → 0 ≤ i < NumberOfElements f →
  ∃ g, fragments s !! element_address f i = Some g ∧ fragment_ok g ∧
    fragment_ref B s i = Some (Some (element_address f i, g)).
Proof.
  intros [_ Hf _ Hfo _ Hg _ _] Hi. destruct (Hg i Hi) as (g & Hl & Hok). cbn in Hf, Hl.
  exists g. split_and!; [done..|]. unfold fragment_ref, fragment_at. rewrite Hf.
  rewrite (element_at_index _ _ Hfo i Hi). cbn. by rewrite Hl.
Qed.

(** Out of range, no fragment is dereferenced. *)
Lemma fragment_ref_outside s p f i :
  rings_ok (memory_of s) p f → fits 32 i → NumberOfElements f ≤ i →
  fragment_ref B s i = Some None.
Proof.
  intros [_ Hf _ Hfo _ _ _ _] Hi Hn. cbn in Hf. unfold fragment_ref, fragment_at. rewrite Hf.
  by rewrite (element_at_outside _ _ Hfo i Hi Hn).
Qed.

Lemma virtual_address_ref_ok s p f i :
  rings_ok (memory_of s) p f → 0 ≤ i < NumberOfElements f →
  virtual_address_ref s i = Some (buffer (memory_of s) i).
Proof.
  intros Hr Hi. unfold virtual_address_ref, buffer. cbn.
  destruct (fragment_virtual_address (extension s) i) as [a|] eqn:Ha; [|done]. cbn.
  destruct (mo_addresses _ _ _ Hr i a Hi Ha) as [va Hva]. cbn in Hva. by rewrite Hva.
Qed.

(** ** What keeps the rings well formed *)

Lemma rings_packet m p f i k :
  rings_ok m p f → packet_ok k →
  rings_ok (m <| m_packets := <[element_address p i := k]> (m_packets m) |>) p f.
Proof.
  intros [Hp Hf Hpo Hfo Hk Hg Ha Hb] Hok. split; try done. cbn. intros j Hj.
  destruct (decide (element_address p i = element_address p j)) as [->|].
  - exists k. by rewrite lookup_insert_eq.
  - rewrite lookup_insert_ne by done. by apply Hk.
Qed.

(** The fragment at [i] changed within its buffer. *)
Lemma rings_fragment m p f i g g' :
  rings_ok m p f → m_fragments m !! element_address f i = Some g →
  fragment_ok g' → Capacity g' = Capacity g →
  rings_ok (m <| m_fragments := <[element_address f i := g']> (m_fragments m) |>) p f.
Proof.
  intros [Hp Hf Hpo Hfo Hk Hg Ha Hb] Hl Hok Hc. split; try done; cbn.
  - intros j Hj. destruct (decide (element_address f i = element_address f j)) as [->|].
    + exists g'. by rewrite lookup_insert_eq.
    + rewrite lookup_insert_ne by done. by apply Hg.
  - intros j h va Hj Hh. destruct (decide (element_address f i = element_address f j)) as [E|].
    + rewrite E, lookup_insert_eq in Hh. injection Hh as <-. rewrite Hc. apply Hb; [done|].
      by rewrite <- E.
    + rewrite lookup_insert_ne in Hh by done. by apply Hb.
Qed.

Lemma rings_payload m p f a b :
  rings_ok m p f → rings_ok (m <| m_payload := insert_bytes a b (m_payload m) |>) p f.
Proof.
  intros [Hp Hf Hpo Hfo Hk Hg Ha Hb]. split; try done. cbn. intros. apply mapped_insert. by eapply Hb.
Qed.

Lemma rings_begin_packet m p f i :
  rings_ok m p f → 0 ≤ i < NumberOfElements p →
  rings_ok (m <| m_packet_ring := Some (begin_at p i) |>) (begin_at p i) f.
Proof. intros [Hp Hf [] Hfo Hk Hg Ha Hb] Hi. by split. Qed.

Lemma rings_begin_fragment m p f i :
  rings_ok m p f → 0 ≤ i < NumberOfElements f →
  rings_ok (m <| m_fragment_ring := Some (begin_at f i) |>) p (begin_at f i).
Proof. intros [Hp Hf Hpo [] Hk Hg Ha Hb] Hi. by split. Qed.

(** ** The stores of the callbacks *)

Section stores.
Context (e : env dev dp_ret).

Lemma wp_set_packet a k m (Q : unit → dev → world dp_ret → Prop) s w :
  inst_ok (st s) → memory_of s = m →
  (∀ s', does [] (m <| m_packets := <[a := k]> (m_packets m) |>) s s' → Q tt s' w) →
  wp e (set_packet a k) Q s w.
Proof. intros Hok <- HQ. apply wp_bind, wp_get, wp_put, HQ. exact (does_put _ _ Hok). Qed.

Lemma wp_set_fragment a g m (Q : unit → dev → world dp_ret → Prop) s w :
  inst_ok (st s) → memory_of s = m →
  (∀ s', does [] (m <| m_fragments := <[a := g]> (m_fragments m) |>) s s' → Q tt s' w) →
  wp e (set_fragment a g) Q s w.
Proof. intros Hok <- HQ. apply wp_bind, wp_get, wp_put, HQ. exact (does_put _ _ Hok). Qed.

Lemma wp_set_packet_begin i p m (Q : unit → dev → world dp_ret → Prop) s w :
  inst_ok (st s) → memory_of s = m → m_packet_ring m = Some p →
  (∀ s', does [] (m <| m_packet_ring := Some (begin_at p i) |>) s s' → Q tt s' w) →
  wp e (set_packet_begin i) Q s w.
Proof.
  intros Hok <- Hp HQ. apply wp_bind, wp_get, wp_bind, wp_from_option. exists p. split; [done|].
  apply wp_put, HQ. exact (does_put _ _ Hok).
Qed.

Lemma wp_set_fragment_begin i f m (Q : unit → dev → world dp_ret → Prop) s w :
  inst_ok (st s) → memory_of s = m → m_fragment_ring m = Some f →
  (∀ s', does [] (m <| m_fragment_ring := Some (begin_at f i) |>) s s' → Q tt s' w) →
  wp e (set_fragment_begin i) Q s w.
Proof.
  intros Hok <- Hp HQ. apply wp_bind, wp_get, wp_bind, wp_from_option. exists f. split; [done|].
  apply wp_put, HQ. exact (does_put _ _ Hok).
Qed.

Lemma wp_write_payload a b m (Q : unit → dev → world dp_ret → Prop) s w :
  inst_ok (st s) → memory_of s = m → mapped (m_payload m) a (len b) →
  (∀ s', does [] (m <| m_payload := insert_bytes a b (m_payload m) |>) s s' → Q tt s' w) →
  wp e (write_payload a b) Q s w.
Proof.
  intros Hok <- Hm HQ. apply wp_bind, wp_get, wp_bind, wp_from_option.
  destruct (mapped_bytes _ _ _ (len_nonneg b) Hm) as (old & Hold & _). exists old.
  rewrite read_payload_at. split; [done|]. apply wp_put, HQ. exact (does_put _ _ Hok).
Qed.

End stores.

End rings.
