(* ===== verification/DatapathReceive.v ===== *)
(** * The packet driver's data path: receive

    [inject_receive_frames] against what it promises: the frames the owner
    wrote appear in the receive ring in the order of the queue, byte for byte,
    each in a packet of one fragment, and both rings move by one per frame. *)

From S2P Require Import Prelude Words DriverConstants Effects Ring FrameQueue Datapath DatapathPaths DatapathSpec.
From S2P Require Import DatapathRequests DatapathRings.

Section receive.
Context (B : bindings).

(** A packet as it is indicated. *)
Definition received_packet (i : Z) : NET_PACKET := {|
  FragmentIndex := i; FragmentCount := 1; Ignore := 0;
  Layout := {| Layer2Type := NetPacketLayer2TypeEthernet B; Layer2HeaderLength := FRAME_MINIMUM |} |}.

Definition received_fragment (g : NET_FRAGMENT) (b : list Z) : NET_FRAGMENT := {|
  Capacity := Capacity g; ValidLength := wrap (ValidLength_bits B) (len b); Offset := 0 |}.

(** The rings after a frame with the bytes [b] was indicated. *)
Definition indicate (p f : NET_RING) (g : NET_FRAGMENT) (va : Z) (b : list Z) (m : ring_memory) :
    ring_memory := {|
  m_extension := m_extension m;
  m_packet_ring := Some (next_begin p);
  m_fragment_ring := Some (next_begin f);
  m_packets := <[element_address p (BeginIndex p) := received_packet (BeginIndex f)]> (m_packets m);
  m_fragments := <[element_address f (BeginIndex f) := received_fragment g b]> (m_fragments m);
  m_addresses := m_addresses m;
  m_payload := insert_bytes va b (m_payload m) |}.

(** There is room for one more frame with the bytes [b]. *)
Record room (m : ring_memory) (p f : NET_RING) (g : NET_FRAGMENT) (va : Z) (b : list Z) : Prop := {
  rm_packet : BeginIndex p ≠ EndIndex p;
  rm_fragment : BeginIndex f ≠ EndIndex f;
  rm_element : m_fragments m !! element_address f (BeginIndex f) = Some g;
  rm_buffer : buffer m (BeginIndex f) = Some va;
  rm_address : va ≠ 0;
  rm_capacity : len b ≤ Capacity g;
}.

(** One iteration. *)
Inductive inject_outcome (m : ring_memory) (p f : NET_RING) : bool → list note → ring_memory → Prop :=
  | inject_idle l : dequeue_notes Injection None l → inject_outcome m p f false l m
  | inject_returned fr l l' m' :
      dequeue_notes Injection (Some fr) l → disposed Injection fr l' →
      m' = m ∨ (∃ g, m_fragments m !! element_address f (BeginIndex f) = Some g ∧
                 m' = m <| m_fragments := <[element_address f (BeginIndex f) := g <| Offset := 0 |>]>
                             (m_fragments m) |>) →
      inject_outcome m p f false (l' ++ l) m'
  | inject_indicated fr b g va l :
      dequeue_notes Injection (Some fr) l → as_bytes fr = Some b → room m p f g va b →
      inject_outcome m p f true ([Freed fr] ++ l) (indicate p f g va b m).

Section one.
Context (e : env dev dp_ret) (Henv : respects dp_contract e).

Lemma wp_inject_one owner m p f (Q : bool → dev → world dp_ret → Prop) s w :
  idle s → memory_of s = m → rings_ok B m p f →
  (∀ b l m' s' w', does l m' s s' → inject_outcome m p f b l m' → Q b s' w') →
  wp e (inject_one B owner) Q s w.
Proof.
  intros Hs Hm Hr HQ. pose proof Hr as [Hp Hf Hpo Hfo _ _ _ Hbuf].
  assert (packet_ring s = Some p) as Hp' by (by rewrite <- Hm in Hp).
  assert (fragment_ring s = Some f) as Hf' by (by rewrite <- Hm in Hf).
  pose proof (ro_begin _ _ Hpo) as Hpb. pose proof (ro_begin _ _ Hfo) as Hfb.
  unfold inject_one. apply wp_bind, wp_get, wp_bind, wp_from_option. exists p. split; [done|].
  apply wp_bind, wp_from_option. exists f. split; [done|].
  destruct (_ || _) eqn:Hend.
  { apply wp_ret. eapply HQ; [apply (does_acts _ _ _ _ Hm), acts_refl, Hs|]. apply inject_idle. by left. }
  bool_reflect. apply wp_bind, wp_dequeue_injection; [done..|]. intros [o full] l s1 w1 A1 Hl. cbn in Hl.
  pose proof (idle_acts _ _ _ Hs A1) as Hs1.
  assert (memory_of s1 = m) as Hm1 by (by rewrite (acts_memory _ _ _ A1)).
  destruct o as [fr|].
  2: { apply wp_ret. eapply HQ; [exact (does_acts _ _ _ _ Hm A1)|]. by apply inject_idle. }
  assert (frame_ok fr) as Hfr by apply Hl.
  assert (∀ m' s2 w2, does l m' s s2 → m' = m ∨ (∃ g, m_fragments m !! element_address f (BeginIndex f) = Some g ∧
                 m' = m <| m_fragments := <[element_address f (BeginIndex f) := g <| Offset := 0 |>]>
                             (m_fragments m) |>) →
    wp e (_ ← requeue_injection_frame fr owner; mret false) Q s2 w2) as Hgive.
  { intros m' s2 w2 A2 Hm'. apply wp_bind, wp_requeue_injection; [done|exact (does_idle _ _ _ _ Hs A2)|done|].
    intros l' s3 w3 A3 Hl'. apply wp_ret. eapply HQ; [exact (does_then _ _ _ _ _ _ A2 A3)|].
    by eapply inject_returned. }
  apply wp_bind, wp_get.
  rewrite <- Hm1 in Hr.
  destruct (packet_ref_ok B _ _ _ _ Hr Hpb) as (k & Hk & Hkok & Href).
  apply wp_bind, wp_from_option. eexists. split; [exact Href|]. cbn beta iota.
  destruct (fragment_ref_ok B _ _ _ _ Hr Hfb) as (g & Hg & Hgok & Hgref).
  apply wp_bind, wp_from_option. eexists. split; [exact Hgref|]. cbn beta iota.
  apply wp_bind, wp_from_option. eexists. split; [exact (virtual_address_ref_ok B _ _ _ _ Hr Hfb)|].
  rewrite Hm1. cbn beta iota.
  assert (m_fragments m !! element_address f (BeginIndex f) = Some g) as Hgm by (by rewrite <- Hm1).
  pose proof (does_acts _ _ _ _ Hm A1) as D1.
  destruct (buffer m (BeginIndex f)) as [va|] eqn:Hva; [|by eapply Hgive; [|left]].
  destruct (Z.eqb_spec va 0) as [|Hnz]; [by eapply Hgive; [|left]|].
  apply wp_bind, (wp_set_fragment e _ _ m); [apply Hs1|done|]. intros s2 D2.
  pose proof (does_trans _ _ _ _ _ _ _ D1 D2) as D12. cbn [app] in D12.
  pose proof (does_memory _ _ _ _ D2) as Hm2.
  destruct (as_bytes_ok fr Hfr) as (b & Hb & Hlb).
  apply wp_bind, wp_from_option. exists b. split; [done|]. cbn [Capacity set_to].
  split_if; [eapply Hgive; [exact D12|right; by exists g]|]. bool_reflect.
  apply wp_bind, (wp_write_payload e va b _ _ _ _ (does_inst _ _ _ _ D2) Hm2).
  { cbn. intros j Hj. apply (Hbuf (BeginIndex f) g va); [done..|]. cbn in *. lia. }
  intros s3 D3. apply wp_bind, (wp_set_fragment e _ _ _ _ _ _ (does_inst _ _ _ _ D3) (does_memory _ _ _ _ D3)).
  intros s4 D4. apply wp_bind, (wp_set_packet e _ _ _ _ _ _ (does_inst _ _ _ _ D4) (does_memory _ _ _ _ D4)).
  intros s5 D5. rewrite (increment_index_mod _ _ Hpo _ Hpb), (increment_index_mod _ _ Hfo _ Hfb).
  apply wp_bind, wp_ret, wp_bind, wp_ret. cbn beta iota.
  apply wp_bind, (wp_set_packet_begin e _ p _ _ _ _ (does_inst _ _ _ _ D5) (does_memory _ _ _ _ D5) Hp).
  intros s6 D6.
  apply wp_bind, (wp_set_fragment_begin e _ f _ _ _ _ (does_inst _ _ _ _ D6) (does_memory _ _ _ _ D6) Hf).
  intros s7 D7.
  pose proof (does_trans _ _ _ _ _ _ _ D12 (does_trans _ _ _ _ _ _ _ D3 (does_trans _ _ _ _ _ _ _ D4
    (does_trans _ _ _ _ _ _ _ D5 (does_trans _ _ _ _ _ _ _ D6 D7))))) as D17. cbn [app] in D17.
  match type of D17 with does _ ?x _ _ => replace x with (indicate p f g va b m) in D17 end.
  2: { unfold indicate. cbn. f_equal. by rewrite insert_insert_eq. }
  assert (∀ s8 w8, acts [] s7 s8 → wp e (_ ← drop_frame fr; mret true) Q s8 w8) as Hdone.
  { intros s8 w8 A8. apply wp_bind, wp_drop_frame; [done|done|apply A8|]. intros s9 w9 A9. apply wp_ret.
    eapply HQ; [exact (does_then _ _ _ _ _ _ D17 (acts_trans_nil _ _ _ _ A8 A9))|].
    by apply inject_indicated. }
  apply wp_bind. destruct full; [|by apply wp_ret, Hdone, acts_refl, (does_inst _ _ _ _ D17)].
  apply wp_claim_wait; [done|exact (does_inst _ _ _ _ D17)|]. intros s8 w8 A8. by apply Hdone.
Qed.

End one.

(** ** All frames of a callback *)

(** Frame [j] of the callback, with the bytes [b], is in the rings. *)
Definition indicated (m : ring_memory) (p f : NET_RING) (j : Z) (b : list Z) : Prop :=
  m_packets m !! element_address p (nth_index p j) = Some (received_packet (nth_index f j)) ∧
  ∃ g va, m_fragments m !! element_address f (nth_index f j) = Some (received_fragment g b) ∧
    buffer m (nth_index f j) = Some va ∧ va ≠ 0 ∧ len b ≤ Capacity g ∧
    bytes_at (m_payload m) va (Datatypes.length b) = Some b.

(** The rings after the frames [fs]. *)
Record received (m0 : ring_memory) (p f : NET_RING) (fs : list (list Z)) (m : ring_memory) : Prop := {
  rc_rings : rings_ok B m (walked p (len fs)) (walked f (len fs));
  rc_packets : len fs ≤ distance p;
  rc_fragments : len fs ≤ distance f;
  rc_extension : m_extension m = m_extension m0;
  rc_addresses : m_addresses m = m_addresses m0;
  rc_apart : buffers_apart m f;
  rc_frames j b : fs !! j = Some b → indicated m p f (Z.of_nat j) b;
  rc_rest a : (∀ j, 0 ≤ j < len fs → a ≠ element_address p (nth_index p j)) →
    m_packets m !! a = m_packets m0 !! a;
}.

Lemma received_nil m p f : rings_ok B m p f → buffers_apart m f → received m p f [] m.
Proof.
  intros Hr Ha. pose proof (distance_bounds _ _ (mo_p _ _ _ _ Hr)).
  pose proof (distance_bounds _ _ (mo_f _ _ _ _ Hr)). split; try done; try (unfold len; cbn; lia).
  change (len []) with 0. by rewrite (walked_0 _ _ (mo_p _ _ _ _ Hr)), (walked_0 _ _ (mo_f _ _ _ _ Hr)).
Qed.

(** Buffers depend on the capacities only. *)
Lemma buffers_apart_fragment m f i g g' :
  buffers_apart m f → m_fragments m !! element_address f i = Some g → Capacity g' = Capacity g →
  buffers_apart (m <| m_fragments := <[element_address f i := g']> (m_fragments m) |>) f.
Proof.
  intros Ha Hl Hc. assert (∀ x h, (<[element_address f i := g']> (m_fragments m)) !! x = Some h →
    ∃ h', m_fragments m !! x = Some h' ∧ Capacity h' = Capacity h) as Hold.
  { intros x h. destruct (decide (element_address f i = x)) as [<-|].
    - rewrite lookup_insert_eq. intros [= <-]. by exists g.
    - rewrite lookup_insert_ne by done. by exists h. }
  intros x y h k va vb Hx Hy Hne Hh Hk Hva Hvb Hnza Hnzb. cbn in Hh, Hk.
  destruct (Hold _ _ Hh) as (h' & Hh' & <-). destruct (Hold _ _ Hk) as (k' & Hk' & <-).
  by eapply (Ha x y).
Qed.

Lemma wrap_nonneg w x : 0 ≤ x → 0 ≤ wrap w x.
Proof.
  intros Hx. unfold wrap. destruct (Z_lt_le_dec w 0).
  - by rewrite Z.pow_neg_r, Z.mod_0_r.
  - apply Z.mod_pos_bound. lia.
Qed.

Lemma rings_indicate m p f g va b :
  rings_ok B m p f → room m p f g va b →
  rings_ok B (indicate p f g va b m) (next_begin p) (next_begin f).
Proof.
  intros Hr [_ _ Hg Hva Hnz Hc]. pose proof (ro_begin _ _ (mo_p _ _ _ _ Hr)) as Hpb.
  pose proof (ro_begin _ _ (mo_f _ _ _ _ Hr)) as Hfb.
  assert (fragment_ok (received_fragment g b)) as Hok.
  { destruct (mo_fragments _ _ _ _ Hr _ Hfb) as (g' & Hg' & []). rewrite Hg in Hg'.
    injection Hg' as <-. split; cbn; [done|done|]. apply wrap_nonneg, len_nonneg. }
  assert (packet_ok (received_packet (BeginIndex f))) as Hpk.
  { pose proof (ring_size _ _ (mo_f _ _ _ _ Hr)). split; unfold fits; cbn; lia. }
  pose proof (rings_fragment _ _ _ _ _ _ _ Hr Hg Hok eq_refl) as H1.
  pose proof (rings_payload _ _ _ _ va b H1) as H2.
  pose proof (rings_packet _ _ _ _ (BeginIndex p) _ H2 Hpk) as H3.
  pose proof (ring_size _ _ (mo_p _ _ _ _ Hr)). pose proof (ring_size _ _ (mo_f _ _ _ _ Hr)).
  pose proof (rings_begin_packet _ _ _ _ ((BeginIndex p + 1) mod NumberOfElements p) H3) as H4.
  pose proof (rings_begin_fragment _ _ _ _ ((BeginIndex f + 1) mod NumberOfElements f)
    (H4 ltac:(by apply Z.mod_pos_bound; lia))) as H5.
  exact (H5 ltac:(by apply Z.mod_pos_bound; lia)).
Qed.

Section frames.
Context (p f : NET_RING) (Hpo : ring_ok (size_of_NET_PACKET B) p).
Context (Hfo : ring_ok (size_of_NET_FRAGMENT B) f).

(** A frame that was indicated stays as it is. *)
Lemma indicated_later m j k g va b b' :
  buffers_apart m f → room m (walked p k) (walked f k) g va b' → 0 ≤ j < k →
  k < NumberOfElements p → k < NumberOfElements f →
  indicated m p f j b → indicated (indicate (walked p k) (walked f k) g va b' m) p f j b.
Proof.
  intros Ha [_ _ Hg Hva Hnz Hc] Hj Hkp Hkf (Hpk & h & vb & Hh & Hvb & Hnzb & Hlb & Hbytes).
  assert (nth_index p k ≠ nth_index p j) as Hpne.
  { intros E. apply nth_index_inj in E; lia. }
  assert (nth_index f k ≠ nth_index f j) as Hfne.
  { intros E. apply nth_index_inj in E; lia. }
  split; cbn.
  - rewrite lookup_insert_ne; [done|]. intros E. by apply (element_address_inj _ _ Hpo) in E.
  - exists h, vb. split_and!; try done.
    + rewrite lookup_insert_ne; [done|]. intros E. by apply (element_address_inj _ _ Hfo) in E.
    + rewrite <- Hbytes. apply bytes_at_ext. intros x Hx. apply lookup_insert_bytes_outside.
      pose proof (nth_index_bounds _ _ Hfo k). pose proof (nth_index_bounds _ _ Hfo j).
      unfold len in *. cbn in *.
      destruct (Ha (nth_index f k) (nth_index f j) g (received_fragment h b) va vb); try done; cbn in *; lia.
Qed.

Lemma received_indicate m0 fs m g va b :
  received m0 p f fs m → room m (walked p (len fs)) (walked f (len fs)) g va b →
  received m0 p f (fs ++ [b]) (indicate (walked p (len fs)) (walked f (len fs)) g va b m).
Proof.
  intros [Hr Hkp Hkf He Ha Hap Hfs Hrest] Hroom. pose proof (len_nonneg fs) as Hn.
  assert (len (fs ++ [b]) = len fs + 1) as Hlen by (rewrite len_app; done).
  pose proof (walked_distance _ p (len fs) Hpo ltac:(lia)) as Hdp.
  pose proof (walked_distance _ f (len fs) Hfo ltac:(lia)) as Hdf.
  pose proof (distance_bounds _ _ (mo_p _ _ _ _ Hr)) as Hbp.
  pose proof (distance_bounds _ _ (mo_f _ _ _ _ Hr)) as Hbf.
  pose proof (distance_bounds _ _ Hpo) as Hbp0. pose proof (distance_bounds _ _ Hfo) as Hbf0.
  assert (distance (walked p (len fs)) ≠ 0) as Hp0.
  { rewrite (distance_zero _ _ (mo_p _ _ _ _ Hr)). apply Hroom. }
  assert (distance (walked f (len fs)) ≠ 0) as Hf0.
  { rewrite (distance_zero _ _ (mo_f _ _ _ _ Hr)). apply Hroom. }
  split; rewrite ?Hlen; try lia; try done.
  - rewrite <- (walked_succ p), <- (walked_succ f). by apply rings_indicate.
  - by apply (buffers_apart_fragment m f _ g (received_fragment g b) Hap (rm_element _ _ _ _ _ _ Hroom)).
  - intros j c Hj. apply lookup_app_Some in Hj as [Hj|[Hj Hc]].
    + apply lookup_lt_Some in Hj as Hlt. apply indicated_later; [done..| | | |by apply Hfs];
        unfold len in *; lia.
    + apply list_lookup_singleton_Some in Hc as [Hz <-].
      assert (Z.of_nat j = len fs) as -> by (unfold len; lia). split; cbn.
      * by rewrite lookup_insert_eq.
      * exists g, va. rewrite lookup_insert_eq. split_and!; try done; try apply Hroom. apply bytes_at_insert.
  - intros a Hne. cbn. rewrite lookup_insert_ne; [apply Hrest; intros; apply Hne; lia|].
    intros E. apply (Hne (len fs)); [lia|done].
Qed.

(** The offset of a fragment that was not used. *)
Lemma received_offset m0 fs m g :
  received m0 p f fs m → len fs < NumberOfElements f →
  m_fragments m !! element_address f (nth_index f (len fs)) = Some g →
  received m0 p f fs (m <| m_fragments :=
    <[element_address f (nth_index f (len fs)) := g <| Offset := 0 |>]> (m_fragments m) |>).
Proof.
  intros [Hr Hkp Hkf He Ha Hap Hfs Hrest] Hlt Hg. split; try done.
  - destruct (mo_fragments _ _ _ _ Hr (nth_index f (len fs)) (nth_index_bounds _ _ Hfo _))
      as (g' & Hg' & []).
    assert (g' = g) as -> by (enough (Some g' = Some g) by congruence; by rewrite <- Hg, <- Hg').
    assert (fragment_ok (g <| Offset := 0 |>)) as Hok by (by split).
    exact (rings_fragment _ _ _ _ (nth_index f (len fs)) g _ Hr Hg Hok eq_refl).
  - by apply (buffers_apart_fragment _ _ _ g).
  - intros j b Hj. destruct (Hfs j b Hj) as (Hpk & h & vb & Hh & H). split; [done|]. exists h, vb.
    split; [|done]. cbn. rewrite lookup_insert_ne; [done|]. intros E.
    apply (element_address_inj _ _ Hfo) in E. apply lookup_lt_Some in Hj.
    apply nth_index_inj in E; unfold len in *; lia.
Qed.

End frames.

(** ** The callback *)

(** The notes of a callback that indicated [fs]: each was dequeued, and freed
    when its bytes were in the ring. *)
Inductive injected : list (list Z) → list note → Prop :=
  | injected_nil : injected [] []
  | injected_snoc fs l fr b l' :
      injected fs l → dequeue_notes Injection (Some fr) l' → as_bytes fr = Some b →
      injected (fs ++ [b]) (([Freed fr] ++ l') ++ l).

(** It ends when there is no frame, or gives the last one back. *)
Inductive receive_notes (fs : list (list Z)) : list note → Prop :=
  | receive_stop l l' :
      injected fs l → dequeue_notes Injection None l' → receive_notes fs (l' ++ l)
  | receive_return l fr l' l'' :
      injected fs l → dequeue_notes Injection (Some fr) l' → disposed Injection fr l'' →
      receive_notes fs ((l'' ++ l') ++ l).

Section callback.
Context (e : env dev dp_ret) (Henv : respects dp_contract e).

Lemma receive_nothing : receive_notes [] [].
Proof. apply (receive_stop [] [] []); [constructor|by left]. Qed.

Lemma wp_inject_receive_frames p f (Q : unit → dev → world dp_ret → Prop) s w :
  idle s → rings_ok B (memory_of s) p f → buffers_apart (memory_of s) f →
  (∀ fs l m s' w', does l m s s' → received (memory_of s) p f fs m → receive_notes fs l → Q tt s' w') →
  wp e (inject_receive_frames B) Q s w.
Proof.
  intros Hs Hr Hap HQ. pose proof (mo_p _ _ _ _ Hr) as Hpo. pose proof (mo_f _ _ _ _ Hr) as Hfo.
  pose proof (received_nil _ _ _ Hr Hap) as Hrec. pose proof Hr as [Hp Hf _ _ _ _ _ _].
  cbn in Hp, Hf. unfold inject_receive_frames. apply wp_bind, wp_get. rewrite Hp, Hf.
  apply wp_bind, wp_load; [done|apply Hs|]. intros s1 w1 A1.
  split_if; [apply wp_ret; eapply HQ; [exact (does_acts _ _ _ _ eq_refl A1)|exact Hrec|apply receive_nothing]|].
  apply wp_bind, wp_load; [done|apply A1|]. intros s2 w2 A2. unfold repeat_while.
  apply (wp_loop_total e _ (λ _ s3 _ n, ∃ l fs m, does l m s s3 ∧ received (memory_of s) p f fs m ∧
    injected fs l ∧ n = Z.to_nat (distance p - len fs))) with (n := Z.to_nat (distance p)).
  - intros [] s3 w3 n (l & fs & m & D & Hm & Hl & ->). pose proof (rc_rings _ _ _ _ _ Hm) as Hrm.
    pose proof (distance_bounds _ _ Hfo).
    apply wp_bind, (wp_inject_one e Henv _ m (walked p (len fs)) (walked f (len fs)));
      [exact (does_idle _ _ _ _ Hs D)|exact (does_memory _ _ _ _ D)|exact Hrm|].
    intros b l' m' s4 w4 D4 Ho. apply wp_ret. pose proof (does_trans _ _ _ _ _ _ _ D D4) as D'.
    destruct Ho as [l' Hl'|fr l' l'' m' Hl' Hl'' Hm'|fr b g va l' Hl' Hb Hroom].
    + eapply HQ; [exact D'|exact Hm|by apply receive_stop].
    + eapply HQ; [exact D'| |by eapply receive_return]. destruct Hm' as [->|(g & Hg & ->)]; [done|].
      apply (received_offset _ _ Hfo); [done|pose proof (rc_fragments _ _ _ _ _ Hm); lia|exact Hg].
    + exists (Z.to_nat (distance p - len (fs ++ [b]))).
      pose proof (received_indicate _ _ Hpo Hfo _ _ _ _ _ _ Hm Hroom) as Hm'. split.
      * pose proof (rc_packets _ _ _ _ _ Hm'). rewrite len_app in *. change (len [b]) with 1 in *. lia.
      * eexists _, _, _. split; [exact D'|]. split; [exact Hm'|]. split; [|done]. by apply injected_snoc.
  - pose proof (distance_bounds _ _ Hpo). unfold ring_fuel. rewrite Hp. lia.
  - exists [], [], (memory_of s). split_and!; [|done|constructor|by rewrite Z.sub_0_r].
    exact (does_acts _ _ _ _ eq_refl (acts_trans_nil _ _ _ _ A1 A2)).
Qed.

Lemma wp_advance_receive p f (Q : unit → dev → world dp_ret → Prop) s w :
  idle s → rings_ok B (memory_of s) p f → buffers_apart (memory_of s) f →
  (∀ fs l m s' w', does l m s s' → received (memory_of s) p f fs m → receive_notes fs l → Q tt s' w') →
  wp e (evt_packet_queue_advance B (Some (false, true))) Q s w.
Proof.
  intros Hs Hr Hap HQ. cbn. apply wp_bind.
  refine (wp_silent e Henv (AcquireLease Injection) _ _ _ eq_refl (proj1 Hs) _).
  intros granted s1 w1 _ A1. pose proof (acts_memory _ _ _ A1) as Hm1. destruct granted; cbn [negb].
  2: { apply wp_ret. eapply HQ; [exact (does_acts _ _ _ _ eq_refl A1)|by apply received_nil|apply receive_nothing]. }
  apply wp_bind, (wp_inject_receive_frames p f); rewrite ?Hm1; [exact (idle_acts _ _ _ Hs A1)|done|done|].
  intros fs l m s2 w2 D2 Hrec Hl.
  refine (wp_silent e Henv (ReleaseLease Injection) _ _ _ eq_refl (does_inst _ _ _ _ D2) _).
  intros [] s3 w3 _ A3. eapply HQ; [|exact Hrec|exact Hl].
  pose proof (does_then _ _ _ _ _ _ (does_after _ _ _ _ _ _ A1 D2) A3) as D. cbn [app] in D.
  by rewrite app_nil_r in D.
Qed.

End callback.

(** ** Cancel *)

(** The first [k] packets are marked as to be ignored; nothing else changed. *)
Record ignored (m0 : ring_memory) (p : NET_RING) (k : Z) (m : ring_memory) : Prop := {
  ig_rest : m = m0 <| m_packets := m_packets m |>;
  ig_done j : 0 ≤ j < k →
    m_packets m !! element_address p (nth_index p j) =
    set_to Ignore 1 <$> m_packets m0 !! element_address p (nth_index p j);
  ig_other a : (∀ j, 0 ≤ j < k → a ≠ element_address p (nth_index p j)) →
    m_packets m !! a = m_packets m0 !! a;
}.

(** Both rings are returned to NetAdapterCx. *)
Definition returned (p f : NET_RING) (m : ring_memory) : ring_memory :=
  m <| m_packet_ring := Some (p <| BeginIndex := EndIndex p |>) |>
    <| m_fragment_ring := Some (f <| BeginIndex := EndIndex f |>) |>.

Section cancel.
Context (e : env dev dp_ret) (Henv : respects dp_contract e).
Context (m0 : ring_memory) (p f : NET_RING) (Hr0 : rings_ok B m0 p f).

Lemma ignored_rings k m : ignored m0 p k m → 0 ≤ k ≤ NumberOfElements p → rings_ok B m p f.
Proof.
  intros [-> Hd Ho] Hk. pose proof (mo_p _ _ _ _ Hr0) as Hpo. destruct Hr0 as [Hp Hf _ Hfo Hpk Hg Ha Hb].
  split; try done. cbn in *. intros i Hi. destruct (Hpk i Hi) as (x & Hx & [Hx1 Hx2]).
  assert (∃ j, 0 ≤ j < NumberOfElements p ∧ nth_index p j = i) as (j & Hj & <-).
  { exists ((i - BeginIndex p) mod NumberOfElements p). pose proof (ring_size _ _ Hpo).
    split; [apply Z.mod_pos_bound; lia|]. unfold nth_index. rewrite Zplus_mod_idemp_r.
    replace (BeginIndex p + (i - BeginIndex p)) with i by lia. by apply Z.mod_small. }
  destruct (Z_lt_le_dec j k).
  - rewrite Hd, Hx by lia. eexists. by split.
  - exists x. split; [|done]. rewrite Ho; [done|]. intros j' Hj' E.
    apply (element_address_inj _ _ Hpo), nth_index_inj in E; lia.
Qed.

Lemma ignored_step k m x :
  ignored m0 p k m → 0 ≤ k < NumberOfElements p →
  m_packets m !! element_address p (nth_index p k) = Some x →
  ignored m0 p (k + 1) (m <| m_packets := <[element_address p (nth_index p k) := x <| Ignore := 1 |>]> (m_packets m) |>).
Proof.
  intros [Hm Hd Ho] Hk Hx. pose proof (mo_p _ _ _ _ Hr0) as Hpo. split; cbn.
  - exact (f_equal (λ r, r <| m_packets := _ |>) Hm).
  - intros j Hj. destruct (decide (j = k)) as [->|].
    + rewrite lookup_insert_eq, <- Ho, Hx; [done|]. intros j Hj' E.
      apply (element_address_inj _ _ Hpo), nth_index_inj in E; lia.
    + rewrite lookup_insert_ne; [apply Hd; lia|]. intros E.
      apply (element_address_inj _ _ Hpo), nth_index_inj in E; lia.
  - intros a Ha. rewrite lookup_insert_ne; [apply Ho; intros; apply Ha; lia|]. intros E.
    by apply (Ha k); [lia|].
Qed.

Lemma wp_ignore_packets (Q : unit → dev → world dp_ret → Prop) s w :
  inst_ok (st s) → memory_of s = m0 →
  (∀ m s' w', does [] m s s' → ignored m0 p (distance p) m → Q tt s' w') →
  wp e (loop_total (ring_fuel s) (ignore_one B) (BeginIndex p)) Q s w.
Proof.
  intros Hok Hm HQ. pose proof (mo_p _ _ _ _ Hr0) as Hpo. pose proof (distance_bounds _ _ Hpo) as Hdb.
  apply (wp_loop_total e _ (λ i s1 _ n, ∃ k m, does [] m s s1 ∧ ignored m0 p k m ∧ 0 ≤ k ≤ distance p ∧
    i = nth_index p k ∧ n = Z.to_nat (distance p - k))) with (n := Z.to_nat (distance p)).
  - intros i s1 w1 n (k & m & D & Hig & Hk & -> & ->).
    pose proof (ignored_rings _ _ Hig ltac:(lia)) as Hr. pose proof (does_memory _ _ _ _ D) as Hm1.
    unfold ignore_one. apply wp_bind, wp_get, wp_bind, wp_from_option. exists p.
    split; [exact (eq_trans (f_equal m_packet_ring Hm1) (mo_packet_ring _ _ _ _ Hr))|].
    pose proof (walked_distance _ _ _ Hpo Hk) as Hwd.
    pose proof (distance_zero _ _ (walked_ok _ _ k Hpo)) as Hwz. rewrite Hwd in Hwz.
    destruct (Z.eqb_spec (nth_index p k) (EndIndex p)) as [E|Hne].
    + apply wp_ret. eapply HQ; [exact D|]. apply Hwz in E. by replace (distance p) with k by lia.
    + assert (distance p - k ≠ 0) as Hlt by (intros E; by apply Hwz in E).
      rewrite <- Hm1 in Hr.
      destruct (packet_ref_ok B _ _ _ _ Hr (nth_index_bounds _ _ Hpo k)) as (x & Hx & _ & Href).
      apply wp_bind, wp_from_option. eexists. split; [exact Href|]. cbn beta iota.
      assert (m_packets m !! element_address p (nth_index p k) = Some x) as Hx' by (by rewrite <- Hm1).
      apply wp_bind, (wp_set_packet e _ _ m); [exact (does_inst _ _ _ _ D)|done|]. intros s2 D2.
      rewrite (increment_index_mod _ _ Hpo _ (nth_index_bounds _ _ Hpo k)). apply wp_bind, wp_ret, wp_ret.
      exists (Z.to_nat (distance p - (k + 1))). split; [lia|]. eexists (k + 1), _.
      split; [exact (does_trans _ _ _ _ _ _ _ D D2)|]. split; [apply ignored_step; [done|lia|done]|].
      split; [lia|]. split; [|done]. unfold nth_index. rewrite Zplus_mod_idemp_l. f_equal. lia.
  - unfold ring_fuel. pose proof (mo_packet_ring _ _ _ _ Hr0) as Hp. rewrite <- Hm in Hp. cbn in Hp.
    rewrite Hp. lia.
  - exists 0, m0. split; [exact (does_acts _ _ _ _ Hm (acts_refl _ Hok))|]. split.
    { split; [by destruct m0|lia|done]. }
    split; [lia|]. split; [|by rewrite Z.sub_0_r]. unfold nth_index. rewrite Z.add_0_r.
    symmetry. apply Z.mod_small, (ro_begin _ _ Hpo).
Qed.

Lemma wp_packet_queue_cancel (transmit : bool) (Q : unit → dev → world dp_ret → Prop) s w :
  inst_ok (st s) → memory_of s = m0 →
  (∀ m s' w', does [] (returned p f m) s s' → ignored m0 p (if transmit then 0 else distance p) m → Q tt s' w') →
  wp e (evt_packet_queue_cancel B (Some (transmit, true))) Q s w.
Proof.
  intros Hok Hm HQ. cbn. pose proof (mo_packet_ring _ _ _ _ Hr0) as Hp.
  assert (packet_ring s = Some p) as Hp' by (by rewrite <- Hm in Hp).
  apply wp_bind, wp_get, wp_bind. rewrite Hp'.
  assert (∀ m s1 w1, does [] m s s1 → ignored m0 p (if transmit then 0 else distance p) m → wp e (
    s ← get;
    _ ← put (s <| packet_ring := return_ring (packet_ring s) |>
               <| fragment_ring := return_ring (fragment_ring s) |>);
    if negb transmit then modify (λ i, i <| rx_notification_armed := false |>) else mret tt) Q s1 w1) as Hend.
  { intros m s1 w1 D Hig. pose proof (does_memory _ _ _ _ D) as Hm1.
    assert (packet_ring s1 = Some p) as Hp1.
    { pose proof (f_equal m_packet_ring Hm1) as E. cbn in E. rewrite E, (ig_rest _ _ _ _ Hig). exact Hp. }
    assert (fragment_ring s1 = Some f) as Hf1.
    { pose proof (f_equal m_fragment_ring Hm1) as E. cbn in E. rewrite E, (ig_rest _ _ _ _ Hig).
      exact (mo_fragment_ring _ _ _ _ Hr0). }
    apply wp_bind, wp_get, wp_bind, wp_put. rewrite Hp1, Hf1. cbn [return_ring].
    assert (does [] (returned p f m) s1 (s1 <| packet_ring := Some (p <| BeginIndex := EndIndex p |>) |>
               <| fragment_ring := Some (f <| BeginIndex := EndIndex f |>) |>)) as D2.
    { rewrite <- Hm1. exact (does_put _ _ (does_inst _ _ _ _ D)). }
    pose proof (does_trans _ _ _ _ _ _ _ D D2) as D3. destruct transmit; cbn [negb]; [by apply wp_ret; eapply HQ|].
    apply wp_disarm; [done|exact (does_inst _ _ _ _ D3)|].
    intros s3 w3 A3. eapply HQ; [exact (does_then _ _ _ _ _ _ D3 A3)|done]. }
  destruct transmit; cbn [negb].
  - apply wp_ret. apply (Hend m0); [exact (does_acts _ _ _ _ Hm (acts_refl _ Hok))|].
    split; [by destruct m0|lia|done].
  - by apply wp_ignore_packets.
Qed.

End cancel.

End receive.
