(* ===== verification/DatapathTransmit.v ===== *)
(** * The packet driver's data path: transmit

    [capture_transmit_packets]: each packet the stack sends is taken from the
    ring in order and its bytes, gathered from its fragments, are delivered to a
    pending read or queued for the owner, or the packet is dropped; no fragment
    outside its buffer is read. *)

From S2P Require Import Prelude Words DriverConstants Effects Ring FrameQueue Datapath DatapathPaths DatapathSpec.
From S2P Require Import DatapathRequests DatapathRings.

(** ** Copying in parts *)

Lemma splice_splice (l b c : list Z) o :
  0 ≤ o → o + len b + len c ≤ len l →
  splice (splice l o b) (o + len b) c = splice l o (b ++ c).
Proof.
  intros Ho Hl. unfold splice, len in *. rewrite !length_app.
  assert (Datatypes.length (take (Z.to_nat o) l) = Z.to_nat o) as Ht by (rewrite length_take; lia).
  rewrite take_app_ge by lia. rewrite Ht, take_app_le by lia.
  rewrite (take_ge b) by lia. rewrite drop_app_ge by lia. rewrite Ht, drop_app_ge by lia.
  rewrite drop_drop, <- !app_assoc. do 3 f_equal. f_equal. lia.
Qed.

Lemma splice_nil (l : list Z) o : splice l o [] = l.
Proof. unfold splice. change (len []) with 0. rewrite Z.add_0_r. cbn. apply take_drop. Qed.

Section transmit.
Context (B : bindings).

(** ** The bytes of a packet *)

Definition fragment_data (m : ring_memory) (f : NET_RING) (i : Z) : option (list Z) :=
  g ← m_fragments m !! element_address f i;
  va ← buffer m i;
  bytes_at (m_payload m) (va + Offset g) (Z.to_nat (ValidLength g)).

Fixpoint packet_data (m : ring_memory) (f : NET_RING) (i : Z) (count : nat) : option (list Z) :=
  match count with
  | O => Some []
  | Datatypes.S count =>
      b ← fragment_data m f i;
      rest ← packet_data m f ((i + 1) mod NumberOfElements f) count;
      Some (b ++ rest)
  end.

(** Every fragment of the packet lies in its buffer. *)
Fixpoint sendable (m : ring_memory) (f : NET_RING) (i : Z) (count : nat) : Prop :=
  match count with
  | O => True
  | Datatypes.S count =>
      0 ≤ i < NumberOfElements f ∧
      (∃ g va, m_fragments m !! element_address f i = Some g ∧ buffer m i = Some va ∧ va ≠ 0 ∧
         Offset g + ValidLength g ≤ Capacity g) ∧
      sendable m f ((i + 1) mod NumberOfElements f) count
  end.

Section data.
Context (s : dev) (p f : NET_RING) (Hr : rings_ok B (memory_of s) p f).

Let Hfo : ring_ok (size_of_NET_FRAGMENT B) f := mo_f _ _ _ _ Hr.

Lemma fragment_bytes_ok i count :
  sendable (memory_of s) f i (Datatypes.S count) →
  ∃ b, fragment_data (memory_of s) f i = Some b ∧
    fragment_bytes B s i = Some (Some (b, Some ((i + 1) mod NumberOfElements f))) ∧
    ∃ g, fragments s !! element_address f i = Some g ∧ len b = ValidLength g.
Proof.
  intros (Hi & (g & va & Hg & Hva & Hnz & Hc) & _).
  destruct (fragment_ref_ok B _ _ _ _ Hr Hi) as (g' & Hg' & [Hcap Hoff Hval] & Href).
  assert (g' = g) as -> by (cbn in Hg; congruence).
  destruct (mapped_bytes (payload s) (va + Offset g) (ValidLength g) Hval) as (b & Hb & Hlb).
  { intros k Hk. apply (mo_buffers _ _ _ _ Hr i g va); [done..|]. lia. }
  exists b. unfold fragment_data. rewrite Hg. cbn. rewrite Hva. cbn. split; [done|]. split; [|by exists g].
  unfold fragment_bytes. pose proof (mo_fragment_ring _ _ _ _ Hr) as Hf. cbn in Hf. rewrite Hf. cbn.
  rewrite Href. cbn. rewrite (virtual_address_ref_ok B _ _ _ _ Hr Hi), Hva. cbn.
  rewrite read_payload_at, Hb. cbn. by rewrite (increment_index_mod _ _ Hfo i Hi).
Qed.

Lemma packet_data_ok count : ∀ i,
  sendable (memory_of s) f i count → ∃ b, packet_data (memory_of s) f i count = Some b.
Proof.
  induction count as [|count IH]; intros i Hs; [by eexists|].
  destruct (fragment_bytes_ok i count Hs) as (b & Hb & _). destruct Hs as (_ & _ & Hs).
  destruct (IH _ Hs) as [rest Hrest]. cbn. rewrite Hb. cbn. rewrite Hrest. by eexists.
Qed.

(** The validation accepts exactly the packets whose fragments lie in their
    buffers and fit. *)
Lemma validate_fragments_ok maximum count : ∀ i acc,
  fits 32 i → 0 ≤ acc ≤ maximum →
  ∃ r, validate_fragments B s maximum count i acc = Some r ∧
    match r with
    | Some total => sendable (memory_of s) f i count ∧ total ≤ maximum ∧
        ∃ b, packet_data (memory_of s) f i count = Some b ∧ total = acc + len b
    | None => sendable (memory_of s) f i count →
        ∀ b, packet_data (memory_of s) f i count = Some b → maximum < acc + len b
    end.
Proof.
  induction count as [|count IH]; intros i acc Hi Hacc; cbn [validate_fragments].
  { eexists. split; [done|]. split; [done|]. split; [lia|]. exists []. split; [done|].
    change (len []) with 0. lia. }
  pose proof (mo_fragment_ring _ _ _ _ Hr) as Hf. cbn in Hf. rewrite Hf. cbn [mbind option_bind].
  destruct (Z_lt_le_dec i (NumberOfElements f)) as [Hlt|Hge].
  2: { rewrite (fragment_ref_outside B _ _ _ _ Hr Hi Hge). eexists. split; [done|]. intros (? & _). lia. }
  assert (0 ≤ i < NumberOfElements f) as Hin by (unfold fits in Hi; lia).
  destruct (fragment_ref_ok B _ _ _ _ Hr Hin) as (g & Hg & [Hcap Hoff Hval] & Href).
  rewrite Href, (virtual_address_ref_ok B _ _ _ _ Hr Hin). cbn [mbind option_bind].
  pose proof (ring_size _ _ Hfo) as Hn. pose proof (Z.mod_pos_bound (i + 1) (NumberOfElements f) ltac:(lia)).
  assert (sendable (memory_of s) f i (Datatypes.S count) → ∃ va, buffer (memory_of s) i = Some va ∧ va ≠ 0 ∧
    Offset g + ValidLength g ≤ Capacity g ∧ ∀ b, packet_data (memory_of s) f i (Datatypes.S count) = Some b →
    ∃ rest, packet_data (memory_of s) f ((i + 1) mod NumberOfElements f) count = Some rest ∧
      len b = ValidLength g + len rest) as Hsend.
  { intros Hs. pose proof Hs as (_ & (g' & va & Hg' & Hva & Hnz & Hc) & _). cbn in Hg'.
    assert (g' = g) as -> by congruence. exists va. split; [done|]. split; [done|]. split; [done|]. intros b Hb.
    destruct (fragment_bytes_ok i count Hs) as (c & Hc' & _ & g' & Hg2 & Hlc).
    assert (g' = g) as -> by congruence. cbn in Hb. rewrite Hc' in Hb. cbn in Hb.
    destruct (packet_data _ _ _ count) as [rest|]; [|done]. injection Hb as <-. exists rest.
    split; [done|]. rewrite len_app. lia. }
  destruct (buffer (memory_of s) i) as [va|] eqn:Hva.
  2: { eexists. split; [done|]. intros Hs. by destruct (Hsend Hs) as (? & ? & _). }
  destruct (validate_fragment g va acc maximum) as [acc'|] eqn:Hv; unfold validate_fragment in Hv.
  2: { eexists. split; [done|]. intros Hs b Hb. destruct (Hsend Hs) as (va' & [= <-] & Hnz & Hc & Hlen).
    destruct (Hlen b Hb) as (rest & _ & ->). pose proof (len_nonneg rest).
    rewrite (proj2 (Z.eqb_neq _ _) Hnz) in Hv.
    destruct (Z.leb_spec (Offset g) (Capacity g)), (Z.leb_spec (ValidLength g) (Capacity g - Offset g)),
      (Z.leb_spec (ValidLength g) maximum), (Z.leb_spec acc (maximum - ValidLength g)); done || lia. }
  split_if_in Hv; [done|]. split_if_in Hv; [|done]. injection Hv as <-. bool_reflect.
  rewrite (increment_index_mod _ _ Hfo i Hin). cbn [mbind option_bind].
  destruct (IH ((i + 1) mod NumberOfElements f) (acc + ValidLength g)) as (r & -> & Hrest); [unfold fits; lia|lia|].
  eexists. split; [done|]. destruct r as [t|].
  - destruct Hrest as (Hs & Ht & rest & Hd & ->).
    assert (sendable (memory_of s) f i (Datatypes.S count)) as Hs'.
    { split; [done|]. split; [|done]. exists g, va. split_and!; try done. lia. }
    split; [exact Hs'|]. split; [done|]. destruct (packet_data_ok _ _ Hs') as [b Hb].
    destruct (Hsend Hs') as (_ & _ & _ & _ & Hlen). destruct (Hlen b Hb) as (rest' & Hrest & Hlb).
    assert (rest' = rest) as -> by congruence. exists b. split; [exact Hb|]. lia.
  - intros Hs b Hb. destruct (Hsend Hs) as (_ & _ & _ & _ & Hlen).
    destruct (Hlen b Hb) as (rest & Hd & ->). destruct Hs as (_ & _ & Hs). specialize (Hrest Hs rest Hd). lia.
Qed.

(** The copy into a frame. *)
Lemma copy_fragments_ok count : ∀ frame i offset b,
  sendable (memory_of s) f i count → packet_data (memory_of s) f i count = Some b →
  frame_ok frame → 0 ≤ offset ≤ FRAME_MAXIMUM →
  ∃ d o r, copy_fragments B s count frame i offset = Some (frame <| data := d |>, o, r) ∧
    len d = FRAME_MAXIMUM ∧
    (r = true → o = offset + len b ∧ o ≤ FRAME_MAXIMUM ∧ d = splice (data frame) offset b).
Proof.
  induction count as [|count IH]; intros frame i offset b Hs Hb Hf Ho; cbn.
  { cbn in Hb. injection Hb as <-. exists (data frame), offset, true.
    split_and!; [by destruct frame|apply Hf|]. intros _. rewrite splice_nil. change (len []) with 0.
    split_and!; [lia|lia|done]. }
  destruct (fragment_bytes_ok i count Hs) as (c & Hc & -> & _). cbn in Hb. rewrite Hc in Hb. cbn in Hb.
  destruct (packet_data _ _ _ count) as [rest|] eqn:Hrest; [|done]. injection Hb as <-. cbn.
  pose proof (len_nonneg c) as Hlc. unfold copy_from_slice. split_if.
  { cbn. exists (data frame), offset, false. split_and!; [by destruct frame|apply Hf|done]. }
  bool_reflect. destruct Hf as [Hfl Hfd].
  rewrite slice_spec by lia. cbn. unfold checked_add. unfold FRAME_MAXIMUM, usize_bits in *.
  rewrite (proj2 (Z.ltb_lt _ _)) by lia. cbn.
  assert (len (splice (data frame) offset c) = 65535) as Hls by (rewrite len_splice; lia).
  destruct (IH (frame <| data := splice (data frame) offset c |>) ((i + 1) mod NumberOfElements f)
    (offset + len c) rest) as (d & o & r & Heq & Hld & Hd); [apply Hs|done|by split|lia|].
  rewrite Heq. exists d, o, r. split_and!; [done|done|]. intros ->. destruct (Hd eq_refl) as (-> & Hle & ->).
  rewrite len_app. split_and!; [lia|lia|]. cbn. apply splice_splice; [lia|]. pose proof (len_nonneg rest). lia.
Qed.

End data.

(** ** One packet *)

(** An attempt to hand the packet to a pending read at once. *)
Definition direct_notes (b : list Z) (delivered : bool) (l : list note) : Prop :=
  if delivered
  then ∃ q, l = [AdmissionReturned LegacyDirectReadClaims; Completed q STATUS_SUCCESS (len b) b;
                 AdmissionTaken LegacyDirectReadClaims; AdmissionReturned PendingReads]
  else l = [] ∨ ∃ q status, status ≠ STATUS_SUCCESS ∧
         l = [AdmissionReturned LegacyDirectReadClaims; Completed q status 0 [];
              AdmissionTaken LegacyDirectReadClaims; AdmissionReturned PendingReads].

(** What becomes of a packet with the bytes [b]: a pending read gets them, the
    owner's queue gets them in a frame or refuses it, the frame is dropped, or
    there is no memory for one. *)
Inductive packet_notes (b : list Z) : list note → Prop :=
  | packet_delivered d : direct_notes b true d → packet_notes b d
  | packet_queued d f0 f r l :
      direct_notes b false d → memory f = memory f0 → as_bytes f = Some b →
      enqueue_notes Capture f r l → packet_notes b (l ++ [Created f0] ++ d)
  | packet_dropped d f0 f :
      direct_notes b false d → memory f = memory f0 → packet_notes b ([Freed f; Created f0] ++ d)
  | packet_lost d : direct_notes b false d → packet_notes b d.

Lemma serves_memory q l s s' : serves q l s s' → memory_of s' = memory_of s.
Proof. intros [(s0 & E & _ & _ & _ & A)]. rewrite (acts_memory _ _ _ A), E. done. Qed.

Section callback.
Context (e : env dev dp_ret) (Henv : respects dp_contract e).

Ltac silent :=
  lazymatch goal with
  | |- wp _ (do_call ?c) ?Q ?s ?w => refine (wp_silent e Henv c Q s w eq_refl _ _)
  end.

Lemma wp_copy_to_output q p f m count (Q : Z * bool → dev → world dp_ret → Prop) : ∀ i offset b o s w,
  inst_ok (st s) → memory_of s = m → rings_ok B m p f →
  sendable m f i count → packet_data m f i count = Some b →
  outputs s !! q = Some o → 0 ≤ offset → offset + len b ≤ len o → fits usize_bits (offset + len b) →
  (∀ s' w', serves q [] s s' → outputs s' !! q = Some (splice o offset b) → Q (offset + len b, true) s' w') →
  wp e (copy_to_output B q count i offset) Q s w.
Proof.
  induction count as [|count IH]; intros i offset b o s w Hok Hm Hr Hs Hb Ho Hof Hfit Hu HQ; cbn.
  { cbn in Hb. injection Hb as <-. change (len []) with 0 in *. rewrite Z.add_0_r in *. apply wp_ret, HQ.
    - by apply serves_acts, acts_refl.
    - by rewrite splice_nil. }
  apply wp_bind, wp_get. assert (rings_ok B (memory_of s) p f) as Hrs by (by rewrite Hm).
  destruct (fragment_bytes_ok s p f Hrs i count ltac:(by rewrite Hm)) as (c & Hc & Hcb & _).
  rewrite Hm in Hc. cbn in Hb. rewrite Hc in Hb. cbn in Hb.
  destruct (packet_data _ _ _ count) as [rest|] eqn:Hrest; [|done]. injection Hb as <-.
  rewrite len_app in *. pose proof (len_nonneg c). pose proof (len_nonneg rest).
  apply wp_bind, wp_from_option. eexists. split; [exact Hcb|]. cbn beta iota.
  apply wp_bind, (wp_write_output e q offset c o); [done|done|lia|lia|].
  intros s1 A1 Ho1. apply wp_bind, wp_from_option. exists (offset + len c).
  unfold checked_add, fits in *. rewrite (proj2 (Z.ltb_lt _ _)) by lia. split; [done|].
  apply (IH _ _ rest (splice o offset c)); [by eapply serves_inst|by rewrite (serves_memory _ _ _ _ A1)|
    done|apply Hs|done|done|lia|rewrite len_splice; lia|lia|].
  intros s2 w2 A2 Ho2. rewrite splice_splice in Ho2 by lia.
  rewrite <- Z.add_assoc. apply HQ; [exact (serves_trans _ [] [] _ _ _ A1 A2)|done].
Qed.

Lemma wp_fill_read q p f m i count b (Q : bool → dev → world dp_ret → Prop) s w :
  idle s → q ∈ owned s → memory_of s = m → rings_ok B m p f →
  sendable m f i count → packet_data m f i count = Some b → fits usize_bits (len b) →
  (∀ l s' w', acts l (answered q s) s' →
     l = [AdmissionReturned LegacyDirectReadClaims; Completed q STATUS_SUCCESS (len b) b] → Q true s' w') →
  (∀ status s' w', acts [AdmissionReturned LegacyDirectReadClaims; Completed q status 0 []] (answered q s) s' →
     status ≠ STATUS_SUCCESS → Q false s' w') →
  wp e (fill_read B q i count (len b)) Q s w.
Proof.
  intros Hs Hq Hm Hr Hsend Hb Hfit HT HF. unfold fill_read.
  apply wp_bind, wp_retrieve_output; [done..|]. intros [status n] s1 w1 A1 Hout. cbn in Hout.
  pose proof (serves_idle _ _ _ _ Hs A1) as Hs1.
  assert (∀ status, status ≠ STATUS_SUCCESS →
    wp e (_ ← complete_request q status; _ ← release_legacy_direct_read_claim; mret false) Q s1 w1) as Hfail.
  { intros status' Hne. apply wp_bind, wp_complete_request; [done|done|by rewrite (serves_owned _ _ _ _ A1)|].
    intros s2 w2 A2. apply wp_bind, wp_release_request; [done|apply A2|]. intros s3 w3 A3.
    apply wp_ret. eapply (HF status'); [|done]. exact (serves_answered _ [] _ _ _ _ A1 (acts_trans _ _ _ _ _ A2 A3)). }
  destruct (Z.eqb_spec status STATUS_SUCCESS) as [E|E]; cbn [negb]; [|by apply Hfail].
  destruct (Hout E) as (o & Ho & Hlo). split_if; [by apply Hfail|]. bool_reflect.
  apply wp_bind, (wp_copy_to_output q p f m count _ i 0 b o); try done.
  { by eapply serves_inst. } { by rewrite (serves_memory _ _ _ _ A1). } { lia. }
  intros s2 w2 A2 Ho2. cbn [negb]. rewrite Z.add_0_l.
  pose proof (serves_trans _ [] [] _ _ _ A1 A2) as A12. cbn [app] in A12.
  apply wp_bind, wp_from_option. exists tt. rewrite Z.eqb_refl. split; [done|].
  apply wp_bind, wp_complete_with; [done|exact (serves_idle _ _ _ _ Hs A12)|
    by rewrite (serves_owned _ _ _ _ A12)|].
  intros s3 w3 A3. rewrite Ho2 in A3. cbn [option.from_option id] in A3. rewrite take_splice in A3 by lia.
  apply wp_bind, wp_release_request; [done|apply A3|]. intros s4 w4 A4. apply wp_ret.
  eapply HT; [|done]. exact (serves_answered _ [] _ _ _ _ A12 (acts_trans _ _ _ _ _ A3 A4)).
Qed.

Lemma wp_claim_direct_read queue p f m i count b owner (Q : bool → dev → world dp_ret → Prop) s w :
  idle s → memory_of s = m → rings_ok B m p f →
  sendable m f i count → packet_data m f i count = Some b → fits usize_bits (len b) →
  (∀ r l s' w', acts l s s' → direct_notes b r l → Q r s' w') →
  wp e (claim_direct_read B queue i count (len b) owner) Q s w.
Proof.
  intros Hs Hm Hr Hsend Hb Hfit HQ. unfold claim_direct_read.
  assert (∀ s1 w1, acts [] s s1 → Q false s1 w1) as Hno.
  { intros s1 w1 A1. eapply HQ; [exact A1|by left]. }
  apply wp_bind, wp_load; [done|apply Hs|]. intros s1 w1 A1. split_if; [by apply wp_ret, Hno|].
  apply wp_bind, wp_load; [done|apply A1|]. intros s2 w2 A2. pose proof (acts_trans_nil _ _ _ _ A1 A2) as A12.
  split_if; [by apply wp_ret, Hno|].
  apply wp_bind, wp_load; [done|apply A2|]. intros s3 w3 A3. pose proof (acts_trans_nil _ _ _ _ A12 A3) as A13.
  split_if; [by apply wp_ret, Hno|].
  apply wp_bind, wp_retrieve_next; [done|apply A3|..].
  { intros r s4 w4 Hne A4. rewrite (proj2 (Z.eqb_neq _ _) Hne). apply wp_ret, Hno.
    exact (acts_trans_nil _ _ _ _ A13 A4). }
  intros [status q] s4 w4 Hst _ Hfresh A4. cbn in Hst, Hfresh, A4 |- *. rewrite Hst, Z.eqb_refl. cbn [negb].
  set (sq := s3 <| owned := {[q]} ∪ owned s3 |>) in *.
  apply wp_bind, wp_release_request; [done|apply A4|]. intros s5 w5 A5.
  apply wp_bind, wp_modify; [done|apply A5| |].
  { intros x Hx. split; [by split; intros; try destruct n|]. by apply (set_counter_ok LegacyDirectReadClaims). }
  intros s6 w6 A6. apply wp_bind, wp_record; [apply A6|]. intros s7 A7.
  pose proof (acts_trans _ _ _ _ _ (acts_trans _ [] _ _ _ (acts_trans [] _ _ _ _ A4 A5) A6) A7) as A47.
  cbn [app] in A47.
  assert (idle s7) as Hs7.
  { exact (idle_acts _ sq _ (idle_acts _ _ _ Hs A13) A47). }
  assert (∀ l s8, acts l (answered q s7) s8 →
    acts (l ++ [AdmissionTaken LegacyDirectReadClaims; AdmissionReturned PendingReads]) s s8) as Hback.
  { intros l s8 A8. pose proof (acts_answered _ _ _ _ _ _ A47 A8) as A. unfold sq in A.
    rewrite answered_retrieved in A by done. exact (acts_trans_nil _ _ _ _ A13 A). }
  apply (wp_fill_read q p f m); try done.
  - rewrite (acts_owned _ _ _ A47). cbn. set_solver.
  - rewrite (acts_memory _ _ _ A47). by rewrite <- Hm, <- (acts_memory _ _ _ A13).
  - intros l s8 w8 A8 ->. eapply HQ; [by apply Hback|]. by exists q.
  - intros st' s8 w8 A8 Hne. eapply HQ; [by apply Hback|]. right. by exists q, st'.
Qed.

Lemma wp_deliver queue p f m i count b owner (Q : bool → dev → world dp_ret → Prop) s w :
  idle s → memory_of s = m → rings_ok B m p f → legacy_direct_read_lock (st s) ∉ guards s →
  sendable m f i count → packet_data m f i count = Some b → fits usize_bits (len b) →
  (∀ r l s' w', acts l s s' → direct_notes b r l → Q r s' w') →
  wp e (deliver_transmit_packet_to_read B queue i count (len b) owner) Q s w.
Proof.
  intros Hs Hm Hr Hg Hsend Hb Hfit HQ. unfold deliver_transmit_packet_to_read.
  apply wp_bind, wp_config, wp_bind. set (lock := legacy_direct_read_lock (st s)) in *.
  apply wp_guard_acquire; [exact Henv|apply Hs|done| |].
  { intros s1 w1 A1. cbn [negb]. apply wp_ret. eapply HQ; [exact A1|by left]. }
  intros s1 w1 A1. cbn [negb]. set (sg := s <| guards := {[lock]} ∪ guards s |>) in *.
  assert (idle sg) as Hsg by done.
  apply wp_bind, (wp_claim_direct_read queue p f m); try done.
  { exact (idle_acts _ _ _ Hsg A1). } { by rewrite (acts_memory _ _ _ A1). }
  intros r l s2 w2 A2 Hl. apply wp_bind, wp_guard_release; [done|apply A2| |].
  { rewrite (acts_guards _ _ _ A2), (acts_guards _ _ _ A1). cbn. set_solver. }
  intros s3 w3 A3. apply wp_ret. eapply HQ; [|exact Hl].
  by eapply (acts_guarded l lock s).
Qed.

(** The packet at [a] marked as to be ignored. *)
Definition mark (m : ring_memory) (a : Z) (k : NET_PACKET) : ring_memory :=
  m <| m_packets := <[a := k <| Ignore := 1 |>]> (m_packets m) |>.

(** The packet at the begin of the ring and its fragments are returned. *)
Definition advance (m : ring_memory) (p f : NET_RING) (i c : Z) : ring_memory :=
  m <| m_packet_ring := Some (next_begin p) |>
    <| m_fragment_ring := Some (begin_at f ((i + c) mod NumberOfElements f)) |>.

Lemma rings_mark m p f i k : rings_ok B m p f → packet_ok k → rings_ok B (mark m (element_address p i) k) p f.
Proof. intros Hr [Hi Hc]. apply rings_packet; [done|]. by split. Qed.

Lemma rings_advance m p f i c :
  rings_ok B m p f →
  rings_ok B (advance m p f i c) (next_begin p) (begin_at f ((i + c) mod NumberOfElements f)).
Proof.
  intros Hr. pose proof (ring_size _ _ (mo_p _ _ _ _ Hr)). pose proof (ring_size _ _ (mo_f _ _ _ _ Hr)).
  pose proof (rings_begin_packet _ _ _ _ ((BeginIndex p + 1) mod NumberOfElements p) Hr) as H1.
  pose proof (rings_begin_fragment _ _ _ _ ((i + c) mod NumberOfElements f)
    (H1 ltac:(by apply Z.mod_pos_bound; lia))) as H2.
  exact (H2 ltac:(by apply Z.mod_pos_bound; lia)).
Qed.

Lemma wp_advance_both m p f i c (Q : bool → dev → world dp_ret → Prop) s w :
  inst_ok (st s) → memory_of s = m → rings_ok B m p f → fits 32 i → fits 16 c →
  (i < NumberOfElements f → ∀ s' w', does [] (advance m p f i c) s s' → Q true s' w') →
  (NumberOfElements f ≤ i → Q false s w) →
  wp e (advance_both (BeginIndex p) i c) Q s w.
Proof.
  intros Hok Hm Hr Hi Hc HT HF. pose proof (mo_packet_ring _ _ _ _ Hr) as Hp.
  pose proof (mo_fragment_ring _ _ _ _ Hr) as Hf. pose proof (mo_p _ _ _ _ Hr) as Hpo.
  pose proof (mo_f _ _ _ _ Hr) as Hfo. unfold advance_both. apply wp_bind, wp_get, wp_bind, wp_from_option.
  exists p. split; [by rewrite <- Hm in Hp|]. apply wp_bind, wp_from_option.
  exists f. split; [by rewrite <- Hm in Hf|].
  rewrite (increment_index_mod _ _ Hpo _ (ro_begin _ _ Hpo)). apply wp_bind, wp_ret.
  destruct (Z_lt_le_dec i (NumberOfElements f)) as [Hlt|Hge].
  2: { rewrite (advance_index_outside _ _ Hfo i c Hi Hge). by apply wp_ret, HF. }
  rewrite (advance_index_mod _ _ Hfo i c) by (unfold fits in *; lia).
  apply wp_bind, (wp_set_packet_begin e _ p m); [done..|]. intros s1 D1.
  apply wp_bind, (wp_set_fragment_begin e _ f _ _ _ _ (does_inst _ _ _ _ D1) (does_memory _ _ _ _ D1) Hf).
  intros s2 D2. apply wp_ret, (HT Hlt). exact (does_trans _ _ _ _ _ _ _ D1 D2).
Qed.

Lemma wp_skip_packet m p f k (Q : bool → dev → world dp_ret → Prop) s w :
  inst_ok (st s) → memory_of s = m → rings_ok B m p f →
  (∀ s' w', does [] ((mark m (element_address p (BeginIndex p)) k) <| m_packet_ring := Some (next_begin p) |>)
     s s' → Q true s' w') →
  wp e (skip_packet (element_address p (BeginIndex p)) k (BeginIndex p)) Q s w.
Proof.
  intros Hok Hm Hr HQ. pose proof (mo_packet_ring _ _ _ _ Hr) as Hp. pose proof (mo_p _ _ _ _ Hr) as Hpo.
  unfold skip_packet. apply wp_bind, (wp_set_packet e _ _ m); [done..|]. intros s1 D1.
  apply wp_bind, wp_get, wp_bind, wp_from_option. exists p.
  split; [exact (eq_trans (f_equal m_packet_ring (does_memory _ _ _ _ D1)) Hp)|].
  rewrite (increment_index_mod _ _ Hpo _ (ro_begin _ _ Hpo)). apply wp_bind, wp_ret.
  apply wp_bind, (wp_set_packet_begin e _ p _ _ _ _ (does_inst _ _ _ _ D1) (does_memory _ _ _ _ D1) Hp).
  intros s2 D2. apply wp_ret, HQ. exact (does_trans _ _ _ _ _ _ _ D1 D2).
Qed.

Lemma wp_queue_captured a k f0 m p f i count b owner (Q : bool * list Frame → dev → world dp_ret → Prop) s w :
  idle s → memory_of s = m → rings_ok B m p f → frame_ok f0 → FragmentIndex k = i →
  sendable m f i count → packet_data m f i count = Some b →
  (∀ r l f' r' s' w', does l m s s' → memory f' = memory f0 → as_bytes f' = Some b →
     enqueue_notes Capture f' r' l → Q (r, []) s' w') →
  (∀ f' m' s' w', does [] m' s s' → m' = m ∨ m' = mark m a k → memory f' = memory f0 → frame_ok f' →
     Q (false, [f']) s' w') →
  wp e (queue_captured B a k f0 count (len b) owner) Q s w.
Proof.
  intros Hs Hm Hr Hf0 Hki Hsend Hb HQ HL. unfold queue_captured. apply wp_bind, wp_get.
  assert (rings_ok B (memory_of s) p f) as Hrs by (by rewrite Hm).
  destruct (copy_fragments_ok s p f Hrs count f0 i 0 b) as (d & o & r & Hcopy & Hd & Hr'); rewrite ?Hm; try done.
  apply wp_bind, wp_from_option. eexists. rewrite Hki. split; [exact Hcopy|]. cbn beta iota.
  assert (frame_ok (f0 <| data := d |>)) as Hfd by (split; [apply Hf0|done]).
  pose proof (does_acts _ _ _ _ Hm (acts_refl _ (proj1 Hs))) as D0.
  destruct (_ && _) eqn:Hdone; [|by apply wp_ret; eapply HL; [exact D0|left|..]]. bool_reflect.
  destruct (Hr' ltac:(done)) as (_ & Hle & ->). pose proof (len_nonneg b).
  set (f' := set_length _ _). assert (as_bytes f' = Some b) as Hb'.
  { unfold as_bytes, f'. cbn. apply slice_splice. destruct Hf0 as [_ ->]. lia. }
  assert (frame_ok f') as Hf' by (split; cbn; [lia|done]).
  apply wp_bind, wp_owned_by; [done|apply Hs|]. intros current s1 w1 A1. destruct current.
  - apply wp_bind, wp_load; [done|apply A1|]. intros s2 w2 A2. pose proof (acts_trans_nil _ _ _ _ A1 A2) as A12.
    apply wp_bind, wp_enqueue_capture; [done|exact (idle_acts _ _ _ Hs A12)|done|].
    intros r' l s3 w3 A3 Hl. apply wp_ret. eapply (HQ _ l f' r'); [|done..].
    exact (does_acts _ _ _ _ Hm (acts_trans_nil _ _ _ _ A12 A3)).
  - assert (memory_of s1 = m) as Hm1 by (by rewrite (acts_memory _ _ _ A1)).
    apply wp_bind, (wp_set_packet e _ _ m); [apply A1|done|]. intros s2 D2. apply wp_ret.
    eapply HL; [exact (does_trans _ _ _ _ _ _ _ (does_acts _ _ _ _ Hm A1) D2)|by right|done|done].
Qed.

(** From here on, the packet at the begin of the ring. *)
Section packet.
Context (m : ring_memory) (p f : NET_RING) (Hr : rings_ok B m p f).
Context (k : NET_PACKET) (Hk : m_packets m !! element_address p (BeginIndex p) = Some k).
Context (Hok : packet_ok k).

Abbreviation a := (element_address p (BeginIndex p)).
Abbreviation i := (FragmentIndex k).
Abbreviation n := (FragmentCount k).

Lemma wp_deliver_at_once queue b owner (Q : bool → dev → world dp_ret → Prop) s w :
  idle s → memory_of s = m → legacy_direct_read_lock (st s) ∉ guards s →
  sendable m f i (Z.to_nat n) → packet_data m f i (Z.to_nat n) = Some b → fits usize_bits (len b) →
  (∀ r l s' w', acts l s s' → direct_notes b r l → Q r s' w') →
  wp e (deliver_at_once B k queue (len b) owner) Q s w.
Proof.
  intros Hs Hm Hg Hsend Hb Hfit HQ. unfold deliver_at_once.
  apply wp_bind, wp_load; [done|apply Hs|]. intros s1 w1 A1. apply wp_bind.
  assert (∀ passive s2 w2, acts [] s1 s2 →
    wp e (if passive : bool then deliver_transmit_packet_to_read B queue i (Z.to_nat n) (len b) owner
          else mret false) Q s2 w2) as Hrest.
  { intros passive s2 w2 A2. pose proof (acts_trans_nil _ _ _ _ A1 A2) as A12.
    destruct passive; [|by apply wp_ret; eapply HQ; [exact A12|left]].
    apply (wp_deliver queue p f m); try done; [exact (idle_acts _ _ _ Hs A12)|
      by rewrite (acts_memory _ _ _ A12)| |].
    - by rewrite (acts_guards _ _ _ A12), (cs_direct_lock _ _ (ac_config _ _ _ A12)).
    - intros r l s3 w3 A3. apply HQ. exact (acts_trans_nil _ _ _ _ A12 A3). }
  split_if; [by apply wp_ret, (Hrest false), acts_refl, A1|]. unfold at_passive_level. apply wp_bind.
  silent; [apply A1|]. intros irql s2 w2 _ A2. by apply wp_ret, (Hrest (irql =? 0)).
Qed.

Lemma wp_finish_packet l m' queued (Q : bool * bool → dev → world dp_ret → Prop) s s1 w :
  does l m' s s1 → m' = m ∨ m' = mark m a k → i < NumberOfElements f →
  (∀ s' w', does l (advance m' p f i n) s s' → Q (true, queued) s' w') →
  wp e (finish_packet k (BeginIndex p) queued) Q s1 w.
Proof.
  intros D1 Hm' Hlt HQ. destruct Hok as [Hi Hn].
  assert (rings_ok B m' p f) as Hr' by (destruct Hm' as [-> | ->]; [done|by apply rings_mark]).
  apply wp_bind, (wp_advance_both m' p f); try done;
    [exact (does_inst _ _ _ _ D1)|exact (does_memory _ _ _ _ D1)| |lia].
  intros _ s2 w2 D2. apply wp_ret, HQ. exact (does_trans _ _ _ _ _ _ _ D1 D2).
Qed.

Lemma wp_capture_in_frame pool b d owner (Q : bool * bool → dev → world dp_ret → Prop) s0 s w :
  idle s0 → acts d s0 s → direct_notes b false d → memory_of s0 = m → i < NumberOfElements f →
  sendable m f i (Z.to_nat n) → packet_data m f i (Z.to_nat n) = Some b →
  (∀ queued l m' s' w', m' = m ∨ m' = mark m a k → packet_notes b l →
     does l (advance m' p f i n) s0 s' → Q (true, queued) s' w') →
  wp e (capture_in_frame B a k (BeginIndex p) pool (len b) owner) Q s w.
Proof.
  intros Hs0 A3 Hd Hm Hlt Hsend Hb HQ. unfold capture_in_frame.
  apply wp_bind, wp_new_frame; [done|apply A3|]. intros api Hw. eexists. split; [done|].
  intros s4 w4 A4. pose proof (acts_trans _ _ _ _ _ A3 A4) as A34.
  destruct (snd (Frame_new api pool)) as [f0|x] eqn:Hnew; cbn [app] in A34.
  - destruct (Frame_new_ok _ _ _ Hw Hnew) as [Hf0 _].
    assert (memory_of s4 = m) as Hm4 by (by rewrite (acts_memory _ _ _ A34)).
    apply wp_bind, (wp_queue_captured a k f0 m p f i); try done; [exact (idle_acts _ _ _ Hs0 A34)|..].
    + intros r l f' r' s5 w5 D5 Hmem Hb' Hl. apply wp_bind.
      eapply wp_finish_packet; [exact (does_after _ _ _ _ _ _ A34 D5)|by left|done|]. intros s6 w6 D6.
      apply wp_bind, wp_ret, wp_ret. eapply (HQ r _ m); [by left|by eapply packet_queued|exact D6].
    + intros f' m' s5 w5 D5 Hm' Hmem Hf'. apply wp_bind.
      eapply wp_finish_packet; [exact (does_after _ _ _ _ _ _ A34 D5)|done|done|]. intros s6 w6 D6.
      apply wp_bind, wp_bind, wp_drop_frame; [done|done|exact (does_inst _ _ _ _ D6)|]. intros s7 w7 A7.
      apply wp_ret, wp_ret. eapply HQ; [done|by eapply (packet_dropped _ d f0 f')|].
      exact (does_then _ _ _ _ _ _ D6 A7).
  - apply wp_bind. silent; [apply A4|]. intros _ s5 w5 _ A5.
    pose proof (acts_trans _ [] _ _ _ A34 A5) as A35. cbn [app] in A35.
    assert (memory_of s5 = m) as Hm5 by (by rewrite (acts_memory _ _ _ A35)).
    apply wp_bind, wp_get, wp_bind, wp_from_option. assert (rings_ok B (memory_of s5) p f) as Hr5 by (by rewrite Hm5).
    destruct (packet_ref_ok B _ _ _ _ Hr5 (ro_begin _ _ (mo_p _ _ _ _ Hr))) as (k' & Hk' & _ & Href).
    assert (k' = k) as -> by (rewrite <- Hm5 in Hk; cbn in Hk; congruence).
    eexists. split; [exact Href|]. cbn beta iota.
    apply wp_bind, (wp_set_packet e _ _ m); [apply A5|done|]. intros s6 D6.
    pose proof (does_trans _ _ _ _ _ _ _ (does_acts _ _ _ _ Hm A35) D6) as D. cbn [app] in D.
    eapply wp_finish_packet; [exact D|by right|done|]. intros s7 w7 D7.
    eapply HQ; [by right|by apply packet_lost|exact D7].
Qed.

Lemma wp_capture_packet queue pool b owner (Q : bool * bool → dev → world dp_ret → Prop) s w :
  idle s → memory_of s = m → legacy_direct_read_lock (st s) ∉ guards s → i < NumberOfElements f →
  sendable m f i (Z.to_nat n) → packet_data m f i (Z.to_nat n) = Some b → fits usize_bits (len b) →
  (∀ queued l m' s' w', m' = m ∨ m' = mark m a k → packet_notes b l →
     does l (advance m' p f i n) s s' → Q (true, queued) s' w') →
  (pool = 0 → ∀ d s' w', acts d s s' → direct_notes b false d → Q (false, false) s' w') →
  wp e (capture_packet B a k (BeginIndex p) queue pool (len b) owner) Q s w.
Proof.
  intros Hs Hm Hg Hlt Hsend Hb Hfit HQ HP. apply wp_bind, wp_deliver_at_once; [done..|].
  intros r d s1 w1 A1 Hd. destruct r.
  { eapply (wp_finish_packet d m); [exact (does_acts _ _ _ _ Hm A1)|by left|done|]. intros s2 w2 D2.
    eapply (HQ _ _ m); [by left|by apply packet_delivered|exact D2]. }
  destruct (Z.eqb_spec pool 0) as [Hz|Hnz]; [|by eapply wp_capture_in_frame].
  apply wp_bind. silent; [apply A1|]. intros _ s2 w2 _ A2. apply wp_ret, (HP Hz d); [|done].
  exact (acts_trans _ [] _ _ _ A1 A2).
Qed.

End packet.

(** ** One iteration *)

(** A packet that can be sent, with the bytes [b]. *)
Record usable (maximum : Z) (m : ring_memory) (f : NET_RING) (k : NET_PACKET) (b : list Z) : Prop := {
  us_count : 0 < FragmentCount k ≤ NumberOfElements f;
  us_index : FragmentIndex k ≠ EndIndex f;
  us_fragments : sendable m f (FragmentIndex k) (Z.to_nat (FragmentCount k));
  us_data : packet_data m f (FragmentIndex k) (Z.to_nat (FragmentCount k)) = Some b;
  us_length : FRAME_MINIMUM ≤ len b ≤ maximum;
}.

(** What is done with packet [k]; [marked]: it is marked as to be ignored. *)
Inductive packet_report (maximum : Z) (m : ring_memory) (f : NET_RING) (k : NET_PACKET) :
    bool → list note → Prop :=
  | report_ignored : (∀ b, ¬ usable maximum m f k b) → packet_report maximum m f k true []
  | report_sent b marked l :
      usable maximum m f k b → packet_notes b l → packet_report maximum m f k marked l.

(** The rings after it. *)
Record moved (m : ring_memory) (p f : NET_RING) (k : NET_PACKET) (marked : bool) (m' : ring_memory)
    (f' : NET_RING) : Prop := {
  mv_memory : m' = (if marked then mark m (element_address p (BeginIndex p)) k else m)
    <| m_packet_ring := Some (next_begin p) |> <| m_fragment_ring := Some f' |>;
  mv_ring : ∃ i, f' = begin_at f i;
  mv_rings : rings_ok B m' (next_begin p) f';
}.

Lemma moved_advance m p f k (marked : bool) m' :
  rings_ok B m p f → packet_ok k →
  m' = (if marked then mark m (element_address p (BeginIndex p)) k else m) →
  moved m p f k marked (advance m' p f (FragmentIndex k) (FragmentCount k))
    (begin_at f ((FragmentIndex k + FragmentCount k) mod NumberOfElements f)).
Proof.
  intros Hr Hk ->. split; [done|by eexists|]. apply rings_advance. destruct marked; [by apply rings_mark|done].
Qed.

Lemma moved_skip m p f k :
  rings_ok B m p f → packet_ok k →
  moved m p f k true ((mark m (element_address p (BeginIndex p)) k) <| m_packet_ring := Some (next_begin p) |>) f.
Proof.
  intros Hr Hk. pose proof (ring_size _ _ (mo_p _ _ _ _ Hr)). split.
  - pose proof (mo_fragment_ring _ _ _ _ Hr) as Hf. unfold mark. destruct m. cbn in Hf. by rewrite Hf.
  - exists (BeginIndex f). by destruct f.
  - apply rings_begin_packet; [by apply rings_mark|]. apply Z.mod_pos_bound. lia.
Qed.

(** The ring is stuck at a packet whose fragments do not exist. *)
Lemma usable_index maximum m f k b : usable maximum m f k b → FragmentIndex k < NumberOfElements f.
Proof.
  intros [Hc _ Hs _ _]. destruct (Z.to_nat (FragmentCount k)) eqn:Hn; [lia|]. destruct Hs as (? & _). lia.
Qed.

Section iteration.
Context (maximum : Z) (Hmax : fits usize_bits maximum).
Context (m : ring_memory) (p f : NET_RING) (Hr : rings_ok B m p f).

Abbreviation a := (element_address p (BeginIndex p)).

(** A packet that is not sent: marked, and returned with its fragments. *)
Lemma wp_ignore_packet k (Q : bool * bool → dev → world dp_ret → Prop) s w :
  inst_ok (st s) → memory_of s = m → packet_ok k → (∀ b, ¬ usable maximum m f k b) →
  (∀ marked queued l m' f' s' w', packet_report maximum m f k marked l → moved m p f k marked m' f' →
     does l m' s s' → Q (true, queued) s' w') →
  (∀ s' w', NumberOfElements f ≤ FragmentIndex k → does [] (mark m a k) s s' → Q (false, false) s' w') →
  wp e (_ ← set_packet a (k <| Ignore := 1 |>);
        more ← advance_both (BeginIndex p) (FragmentIndex k) (FragmentCount k);
        mret (more, false)) Q s w.
Proof.
  intros Hok Hm Hk Hno HQ HS. apply wp_bind, (wp_set_packet e _ _ m); [done..|]. intros s1 D1.
  assert (rings_ok B (mark m a k) p f) as Hr' by (by apply rings_mark). destruct Hk as [Hi Hc].
  apply wp_bind, (wp_advance_both (mark m a k) p f); try done;
    [exact (does_inst _ _ _ _ D1)|exact (does_memory _ _ _ _ D1)|..].
  - intros _ s2 w2 D2. apply wp_ret. eapply (HQ true); [by apply report_ignored|by apply (moved_advance m p f k true)|].
    exact (does_trans _ _ _ _ _ _ _ D1 D2).
  - intros Hge. by apply wp_ret, HS.
Qed.

Lemma wp_capture_one queue pool owner (Q : bool * bool → dev → world dp_ret → Prop) s w :
  idle s → memory_of s = m → legacy_direct_read_lock (st s) ∉ guards s →
  (BeginIndex p = EndIndex p → Q (false, false) s w) →
  (∀ k marked queued l m' f' s' w', BeginIndex p ≠ EndIndex p → m_packets m !! a = Some k →
     packet_report maximum m f k marked l → moved m p f k marked m' f' → does l m' s s' →
     Q (true, queued) s' w') →
  (∀ k s' w', m_packets m !! a = Some k → NumberOfElements f ≤ FragmentIndex k →
     does [] (mark m a k) s s' → Q (false, false) s' w') →
  (∀ k b d s' w', m_packets m !! a = Some k → pool = 0 → usable maximum m f k b →
     acts d s s' → direct_notes b false d → Q (false, false) s' w') →
  wp e (capture_one B queue maximum pool owner) Q s w.
Proof.
  intros Hs Hm Hg HE HQ HS HP. unfold capture_one. pose proof (mo_p _ _ _ _ Hr) as Hpo.
  assert (rings_ok B (memory_of s) p f) as Hrs by (by rewrite Hm).
  apply wp_bind, wp_get, wp_bind, wp_from_option. exists p. split; [apply (mo_packet_ring _ _ _ _ Hrs)|].
  apply wp_bind, wp_from_option. exists f. split; [apply (mo_fragment_ring _ _ _ _ Hrs)|].
  destruct (Z.eqb_spec (BeginIndex p) (EndIndex p)) as [|Hne]; [by apply wp_ret, HE|].
  destruct (packet_ref_ok B _ _ _ _ Hrs (ro_begin _ _ Hpo)) as (k & Hk & Hkok & Href).
  assert (m_packets m !! a = Some k) as Hk' by (by rewrite <- Hm).
  apply wp_bind, wp_from_option. eexists. split; [exact Href|]. cbn beta iota.
  assert ((∀ b, ¬ usable maximum m f k b) →
    wp e (more ← skip_packet a k (BeginIndex p); mret (more, false)) Q s w) as Hskip.
  { intros Hno. apply wp_bind, (wp_skip_packet m p f); [apply Hs|done..|]. intros s1 w1 D1. apply wp_ret.
    eapply HQ; [done|exact Hk'|by apply report_ignored|by apply moved_skip|exact D1]. }
  assert ((∀ b, ¬ usable maximum m f k b) → wp e (_ ← set_packet a (k <| Ignore := 1 |>);
        more ← advance_both (BeginIndex p) (FragmentIndex k) (FragmentCount k);
        mret (more, false)) Q s w) as Hignore.
  { intros Hno. apply wp_ignore_packet; [apply Hs|done|done|done| |].
    - intros marked queued l m' f' s1 w1 Hrep Hmv. by apply (HQ k marked queued l m' f').
    - intros s1 w1 Hge. by apply (HS k). }
  destruct (Z.eqb_spec (FragmentCount k) 0) as [Hz|Hnz].
  { apply Hskip. intros b []. lia. }
  split_if; bool_reflect.
  { apply Hskip. intros b []. destruct Heqb; bool_reflect; [done|lia]. }
  pose proof Hkok as [Hki Hkc].
  destruct (Z.leb_spec 0 maximum) as [Hmax0|]; [|unfold fits in Hmax; lia].
  destruct (validate_fragments_ok s p f Hrs maximum (Z.to_nat (FragmentCount k)) (FragmentIndex k) 0
    Hki ltac:(lia)) as (r & Hv & Hspec). rewrite Hm in Hspec.
  apply wp_bind, wp_from_option. exists r. split; [exact Hv|]. destruct r as [total|].
  - destruct Hspec as (Hsend & Ht & b & Hb & ->). rewrite Z.add_0_l in *. split_if; bool_reflect.
    + assert (usable maximum m f k b) as Hus.
      { split; try done; [unfold fits in Hkc; lia]. }
      apply (wp_capture_packet m p f); try done; [by eapply usable_index|pose proof (len_nonneg b); unfold fits in *; lia| |].
      * intros queued l m' s1 w1 Hm' Hl D1.
        assert (∃ marked : bool, m' = if marked then mark m a k else m) as [marked Hmk]
          by (destruct Hm' as [-> | ->]; [by exists false|by exists true]).
        eapply (HQ k marked); [done|done|by eapply report_sent|by apply moved_advance|exact D1].
      * intros Hz d s1 w1 A1 Hd. by eapply (HP k b d).
    + apply Hignore. intros b' [_ _ _ Hb' Hl]. assert (b' = b) as -> by congruence. lia.
  - apply Hignore. intros b [_ _ Hsend Hb Hl]. specialize (Hspec Hsend b Hb). lia.
Qed.

End iteration.

End callback.

(** ** All packets of a callback *)

(** What the reader of a packet looks at is the same. *)
Record same_payload (m m' : ring_memory) : Prop := {
  sp_extension : m_extension m' = m_extension m;
  sp_fragments : m_fragments m' = m_fragments m;
  sp_addresses : m_addresses m' = m_addresses m;
  sp_payload : m_payload m' = m_payload m;
}.

Lemma sendable_same m m' f i : same_payload m m' →
  ∀ count j, sendable m' (begin_at f i) j count ↔ sendable m f j count.
Proof.
  intros [He Hg Ha Hp] count. induction count as [|count IH]; intros j; [done|]. cbn.
  unfold buffer. rewrite He, Hg, Ha. change (element_address (begin_at f i) j) with (element_address f j).
  by rewrite IH.
Qed.

Lemma packet_data_same m m' f i : same_payload m m' →
  ∀ count j, packet_data m' (begin_at f i) j count = packet_data m f j count.
Proof.
  intros [He Hg Ha Hp] count. induction count as [|count IH]; intros j; [done|]. cbn.
  unfold fragment_data, buffer. rewrite He, Hg, Ha, Hp.
  change (element_address (begin_at f i) j) with (element_address f j). by rewrite IH.
Qed.

Lemma usable_same maximum m m' f i k b :
  same_payload m m' → usable maximum m' (begin_at f i) k b ↔ usable maximum m f k b.
Proof.
  intros Hsame. split; intros [Hc Hi Hs Hd Hl]; split; try done.
  - by apply (sendable_same _ _ _ _ Hsame) in Hs.
  - by rewrite (packet_data_same _ _ _ _ Hsame) in Hd.
  - by apply (sendable_same _ _ _ _ Hsame).
  - by rewrite (packet_data_same _ _ _ _ Hsame).
Qed.

Lemma packet_report_same maximum m m' f i k marked l :
  same_payload m m' → packet_report maximum m' (begin_at f i) k marked l → packet_report maximum m f k marked l.
Proof.
  intros Hsame [Hno|b mk l' Hus Hl].
  - apply report_ignored. intros b Hb. by apply (Hno b), (usable_same _ m m').
  - eapply report_sent; [by apply (usable_same _ m m') in Hus|done].
Qed.

Section callback.
Context (maximum pool : Z) (Hmax : fits usize_bits maximum).
Context (m0 : ring_memory) (p f : NET_RING) (Hr0 : rings_ok B m0 p f).

Definition maybe_ignored (marked : bool) (k : NET_PACKET) : NET_PACKET :=
  if marked then k <| Ignore := 1 |> else k.

(** The packets of [ls] were handled, in the order of the ring, each with the
    notes listed. *)
Record transmitted (ls : list (list note)) (m : ring_memory) : Prop := {
  tm_rings : ∃ i, rings_ok B m (walked p (len ls)) (begin_at f i);
  tm_length : len ls ≤ distance p;
  tm_same : same_payload m0 m;
  tm_ahead a : (∀ j, 0 ≤ j < len ls → a ≠ element_address p (nth_index p j)) →
    m_packets m !! a = m_packets m0 !! a;
  tm_done j l : ls !! j = Some l → ∃ k marked,
    m_packets m0 !! element_address p (nth_index p (Z.of_nat j)) = Some k ∧
    m_packets m !! element_address p (nth_index p (Z.of_nat j)) = Some (maybe_ignored marked k) ∧
    packet_report maximum m0 f k marked l;
}.

(** How a callback ends: at the end of the ring, without a frame pool, or at a
    packet whose fragments do not exist. *)
Inductive captured : list note → ring_memory → Prop :=
  | captured_all ls m : transmitted ls m → len ls = distance p → captured (concat (rev ls)) m
  | captured_no_pool ls m k b d :
      transmitted ls m → pool = 0 → m_packets m0 !! element_address p (nth_index p (len ls)) = Some k →
      usable maximum m0 f k b → direct_notes b false d → captured (d ++ concat (rev ls)) m
  | captured_stuck ls m k :
      transmitted ls m → m_packets m0 !! element_address p (nth_index p (len ls)) = Some k →
      NumberOfElements f ≤ FragmentIndex k →
      captured (concat (rev ls)) (mark m (element_address p (nth_index p (len ls))) k).

Lemma transmitted_nil : transmitted [] m0.
Proof.
  pose proof (distance_bounds _ _ (mo_p _ _ _ _ Hr0)). split; try done; try (unfold len; cbn; lia).
  exists (BeginIndex f). change (len []) with 0. rewrite (walked_0 _ _ (mo_p _ _ _ _ Hr0)).
  replace (begin_at f (BeginIndex f)) with f by (by destruct f). done.
Qed.

Lemma tm_packet ls m :
  transmitted ls m →
  m_packets m !! element_address p (nth_index p (len ls)) =
  m_packets m0 !! element_address p (nth_index p (len ls)) ∨ distance p < len ls.
Proof.
  intros Hm. left. apply (tm_ahead _ _ Hm). intros j Hj E.
  pose proof (mo_p _ _ _ _ Hr0) as Hpo. pose proof (distance_bounds _ _ Hpo). pose proof (tm_length _ _ Hm).
  apply (element_address_inj _ _ Hpo), nth_index_inj in E; lia.
Qed.

Lemma transmitted_step ls m k marked l m' i f' :
  transmitted ls m → rings_ok B m (walked p (len ls)) (begin_at f i) →
  BeginIndex (walked p (len ls)) ≠ EndIndex p →
  m_packets m !! element_address p (nth_index p (len ls)) = Some k →
  packet_report maximum m (begin_at f i) k marked l →
  moved m (walked p (len ls)) (begin_at f i) k marked m' f' → transmitted (ls ++ [l]) m'.
Proof.
  intros [_ Hlen Hsame Hahead Hdone] Hr Hne Hk Hrep [-> [i' ->] Hrings].
  pose proof (mo_p _ _ _ _ Hr0) as Hpo. pose proof (distance_bounds _ _ Hpo) as Hdb.
  pose proof (len_nonneg ls) as Hl0. assert (len (ls ++ [l]) = len ls + 1) as Hl1 by (by rewrite len_app).
  pose proof (walked_distance _ p (len ls) Hpo ltac:(lia)) as Hdp.
  pose proof (distance_bounds _ _ (mo_p _ _ _ _ Hr)) as Hbp.
  assert (distance (walked p (len ls)) ≠ 0) as Hd0 by (by rewrite (distance_zero _ _ (mo_p _ _ _ _ Hr))).
  assert (∀ x, (if marked then mark m (element_address p (nth_index p (len ls))) k else m).(m_packets) !! x =
    if decide (x = element_address p (nth_index p (len ls))) then Some (maybe_ignored marked k)
    else m_packets m !! x) as Hlook.
  { intros x. destruct marked; cbn; case_decide as Hx; subst; try done;
      [by rewrite lookup_insert_eq|by rewrite lookup_insert_ne]. }
  assert (m_packets m !! element_address p (nth_index p (len ls)) =
    m_packets m0 !! element_address p (nth_index p (len ls))) as Hk0.
  { apply Hahead. intros j Hj E. apply (element_address_inj _ _ Hpo), nth_index_inj in E; lia. }
  split; rewrite ?Hl1.
  - exists i'. by rewrite <- walked_succ.
  - lia.
  - destruct Hsame. by destruct marked; split.
  - intros x Hx. cbn. rewrite Hlook, decide_False by (apply Hx; lia). apply Hahead. intros j Hj. apply Hx. lia.
  - intros j l' Hj. cbn. setoid_rewrite Hlook. apply lookup_app_Some in Hj as [Hj|[Hj Hl]].
    + apply lookup_lt_Some in Hj as Hlt. destruct (Hdone j l' Hj) as (k' & mk & H1 & H2 & H3).
      exists k', mk. rewrite decide_False; [done|]. intros E.
      apply (element_address_inj _ _ Hpo), nth_index_inj in E; unfold len in *; lia.
    + apply list_lookup_singleton_Some in Hl as [Hz <-].
      assert (Z.of_nat j = len ls) as -> by (unfold len; lia). exists k, marked.
      rewrite decide_True by done. split; [by rewrite <- Hk0|]. split; [done|].
      by eapply packet_report_same.
Qed.

Section run.
Context (e : env dev dp_ret) (Henv : respects dp_contract e).

Lemma wp_capture_loop queue owner queued0 (Q : bool → dev → world dp_ret → Prop) s w :
  idle s → memory_of s = m0 → legacy_direct_read_lock (st s) ∉ guards s →
  (∀ queued l m s' w', does l m s s' → captured l m → Q queued s' w') →
  wp e (loop_total (ring_fuel s) (λ queued,
          r ← capture_one B queue maximum pool owner;
          let queued := queued || r.2 in
          mret (if r.1 : bool then inl queued else inr queued)) queued0) Q s w.
Proof.
  intros Hs Hm Hg HQ. pose proof (mo_p _ _ _ _ Hr0) as Hpo.
  apply (wp_loop_total e _ (λ _ s1 _ n, ∃ ls m, does (concat (rev ls)) m s s1 ∧ transmitted ls m ∧
    n = Z.to_nat (distance p - len ls))) with (n := Z.to_nat (distance p)).
  - intros queued s1 w1 n (ls & m & D & Htm & ->). destruct (tm_rings _ _ Htm) as [i Hr].
    pose proof (tm_length _ _ Htm) as Hlen. pose proof (distance_bounds _ _ Hpo) as Hdb.
    pose proof (len_nonneg ls) as Hl0.
    destruct (tm_packet _ _ Htm) as [Hpk|]; [|lia].
    apply wp_bind, (wp_capture_one e Henv maximum Hmax m (walked p (len ls)) (begin_at f i) Hr);
      [exact (does_idle _ _ _ _ Hs D)|exact (does_memory _ _ _ _ D)| | | | |].
    + rewrite (acts_guards _ _ _ D). cbn. by rewrite (cs_direct_lock _ _ (ac_config _ _ _ D)).
    + intros E. apply wp_ret. eapply HQ; [exact D|]. apply captured_all; [done|].
      apply (distance_zero _ _ (mo_p _ _ _ _ Hr)) in E.
      rewrite (walked_distance _ _ _ Hpo) in E by lia. lia.
    + intros k marked q l m' f' s2 w2 Hne Hk Hrep Hmv D2. apply wp_ret. cbn [fst].
      assert (transmitted (ls ++ [l]) m') as Htm' by (by eapply transmitted_step).
      exists (Z.to_nat (distance p - len (ls ++ [l]))). split.
      * pose proof (tm_length _ _ Htm'). rewrite len_app in *. change (len [l]) with 1 in *. lia.
      * exists (ls ++ [l]), m'. split; [|done]. rewrite rev_app_distr. cbn.
        exact (does_trans _ _ _ _ _ _ _ D D2).
    + intros k s2 w2 Hk Hge D2. apply wp_ret. eapply HQ; [exact (does_trans _ _ _ _ _ _ _ D D2)|].
      apply captured_stuck; [done| |done]. rewrite <- Hpk. exact Hk.
    + intros k b d s2 w2 Hk Hz Hus A2 Hd. apply wp_ret. eapply HQ; [exact (does_then _ _ _ _ _ _ D A2)|].
      eapply captured_no_pool; [done|done| |by apply (usable_same _ _ _ _ _ _ _ (tm_same _ _ Htm)) in Hus|done].
      rewrite <- Hpk. exact Hk.
  - pose proof (distance_bounds _ _ Hpo). unfold ring_fuel.
    pose proof (mo_packet_ring _ _ _ _ Hr0) as Hp. rewrite <- Hm in Hp. cbn in Hp. rewrite Hp. lia.
  - exists [], m0. split; [|split; [apply transmitted_nil|by rewrite Z.sub_0_r]].
    exact (does_acts _ _ _ _ Hm (acts_refl _ (proj1 Hs))).
Qed.

End run.
End callback.

(** ** The callback *)

Section advance.
Context (e : env dev dp_ret) (Henv : respects dp_contract e).

Ltac silent :=
  lazymatch goal with
  | |- wp _ (do_call ?c) ?Q ?s ?w => refine (wp_silent e Henv c Q s w eq_refl _ _)
  end.

(** Nothing is done when the instance is closed or closing. *)
Definition advanced (maximum pool : Z) (m0 : ring_memory) (p f : NET_RING) (l : list note)
    (m : ring_memory) : Prop :=
  (l = [] ∧ m = m0) ∨ captured maximum pool m0 p f l m.

Lemma wp_capture_transmit queue work_item maximum pool m p f (Q : unit → dev → world dp_ret → Prop) s w :
  fits usize_bits maximum → idle s → memory_of s = m → rings_ok B m p f →
  legacy_direct_read_lock (st s) ∉ guards s →
  (∀ l m' s' w', does l m' s s' → advanced maximum pool m p f l m' → Q tt s' w') →
  wp e (capture_transmit_packets B queue work_item maximum pool) Q s w.
Proof.
  intros Hmax Hs Hm Hr Hg HQ. unfold capture_transmit_packets. apply wp_bind, wp_get.
  assert (packet_ring s = Some p) as Hp by (by pose proof (mo_packet_ring _ _ _ _ Hr) as H; rewrite <- Hm in H).
  assert (fragment_ring s = Some f) as Hf by (by pose proof (mo_fragment_ring _ _ _ _ Hr) as H; rewrite <- Hm in H).
  rewrite Hp, Hf. apply wp_bind, wp_load; [done|apply Hs|]. intros s1 w1 A1.
  split_if; [apply wp_ret; eapply HQ; [exact (does_acts _ _ _ _ Hm A1)|by left]|].
  apply wp_bind, wp_load; [done|apply A1|]. intros s2 w2 A2.
  pose proof (acts_trans_nil _ _ _ _ A1 A2) as A12.
  assert (ring_fuel s = ring_fuel s2) as Hfuel.
  { unfold ring_fuel. by rewrite (f_equal m_packet_ring (acts_memory _ _ _ A12) : packet_ring s2 = packet_ring s). }
  rewrite Hfuel. apply wp_bind, (wp_capture_loop maximum pool Hmax m p f Hr e Henv);
    [exact (idle_acts _ _ _ Hs A12)|by rewrite (acts_memory _ _ _ A12)| |].
  { by rewrite (acts_guards _ _ _ A12), (cs_direct_lock _ _ (ac_config _ _ _ A12)). }
  intros queued l m' s3 w3 D3 Hl. pose proof (does_after _ _ _ _ _ _ A12 D3) as D. rewrite app_nil_r in D.
  unfold enqueue_work_item. destruct queued; [split_if|]; try by apply wp_ret; eapply HQ; [exact D|right].
  silent; [exact (does_inst _ _ _ _ D)|]. intros [] s4 w4 _ A4.
  eapply HQ; [exact (does_then _ _ _ _ _ _ D A4)|by right].
Qed.

Lemma wp_advance_transmit m p f (Q : unit → dev → world dp_ret → Prop) s w :
  fits usize_bits (frame_maximum (st s)) → idle s → memory_of s = m → rings_ok B m p f →
  legacy_direct_read_lock (st s) ∉ guards s →
  (∀ l m' s' w', does l m' s s' → advanced (frame_maximum (st s)) (frame_pool (st s)) m p f l m' → Q tt s' w') →
  wp e (evt_packet_queue_advance B (Some (true, true))) Q s w.
Proof.
  intros Hmax Hs Hm Hr Hg HQ. cbn. apply wp_bind. silent; [apply Hs|]. intros granted s1 w1 _ A1.
  destruct granted; cbn [negb]; [|apply wp_ret; eapply HQ; [exact (does_acts _ _ _ _ Hm A1)|by left]].
  apply wp_bind, wp_bind, wp_config, wp_bind, wp_config, wp_bind, wp_config, wp_bind, wp_config.
  pose proof (ac_config _ _ _ A1) as Hc. rewrite (cs_maximum _ _ Hc), (cs_pool _ _ Hc).
  apply (wp_capture_transmit _ _ _ _ m p f); [done|exact (idle_acts _ _ _ Hs A1)|
    by rewrite (acts_memory _ _ _ A1)|done| |].
  { by rewrite (acts_guards _ _ _ A1), (cs_direct_lock _ _ Hc). }
  intros l m' s2 w2 D2 Hl. silent; [exact (does_inst _ _ _ _ D2)|]. intros [] s3 w3 _ A3.
  pose proof (does_then _ _ _ _ _ _ (does_after _ _ _ _ _ _ A1 D2) A3) as D. rewrite app_nil_r in D.
  by eapply HQ.
Qed.

End advance.

End transmit.
