(* ===== verification/DatapathTheorems.v ===== *)
(** * The packet driver's data path: theorems

    Accounts over what the handlers did: every request is answered once, every
    frame a handler held is handed over or freed, every admission is returned;
    and what the rings look like after a packet callback. *)

From S2P Require Import Prelude Words DriverConstants Effects Ring FrameQueue Datapath DatapathPaths DatapathSpec.
From S2P Require Import DatapathRequests DatapathRings DatapathReceive DatapathTransmit.

(** ** Accounts *)

Section account.
Context (value : note → Z).

Fixpoint tally (l : list note) : Z :=
  match l with [] => 0 | x :: l => value x + tally l end.

Lemma tally_app l k : tally (l ++ k) = tally l + tally k.
Proof. induction l as [|x l IH]; cbn in *; lia. Qed.

Lemma tally_cons x l : tally (x :: l) = value x + tally l.
Proof. done. Qed.

Lemma tally_zero l : (∀ x, x ∈ l → value x = 0) → tally l = 0.
Proof.
  induction l as [|x l IH]; intros H; [done|]. rewrite tally_cons, H by set_solver.
  rewrite IH; [done|]. set_solver.
Qed.

Lemma tally_concat ls : (∀ l, l ∈ ls → tally l = 0) → tally (concat (rev ls)) = 0.
Proof.
  induction ls as [|l ls IH]; intros H; [done|]. cbn. rewrite concat_app, tally_app, IH by set_solver.
  cbn. rewrite app_nil_r, H; [done|]. set_solver.
Qed.

End account.

Definition one (P : Prop) `{Decision P} : Z := if decide P then 1 else 0.

(** The frames with memory [h] a handler gains and loses. *)
Fixpoint frames_held (h : Z) (l : list Frame) : Z :=
  match l with [] => 0 | f :: l => one (memory f = h) + frames_held h l end.

Definition frame_flow (h : Z) (x : note) : Z :=
  match x with
  | Created f => one (memory f = h)
  | Freed f => - one (memory f = h)
  | Queued _ o out =>
      frames_held h (option_list (handed_out out) ++ dropped out)
      - (match o with QEnqueue f => one (memory f = h) | _ => 0 end)
  | _ => 0
  end.

(** Answers to request [q]. *)
Definition answers (q : Z) (x : note) : Z :=
  match x with
  | Completed q' _ _ _ | Forwarded q' _ => one (q' = q)
  | _ => 0
  end.

(** Admissions of [c] that are kept. *)
Definition admissions (c : counter) (x : note) : Z :=
  match x with
  | AdmissionTaken c' => one (c' = c)
  | AdmissionReturned c' => - one (c' = c)
  | _ => 0
  end.

Definition completions (x : note) : Z := match x with Completed _ _ _ _ => 1 | _ => 0 end.

Lemma one_true (P : Prop) `{Decision P} : P → one P = 1.
Proof. intros. unfold one. by rewrite decide_True. Qed.
Lemma one_false (P : Prop) `{Decision P} : ¬ P → one P = 0.
Proof. intros. unfold one. by rewrite decide_False. Qed.

(** Evaluate an account on notes that are known. *)
Ltac account :=
  repeat (rewrite tally_app || rewrite tally_cons); cbn;
  rewrite ?one_true by done; rewrite ?one_false by done; try lia.

(** ** The accounts of the pieces *)

Lemma flow_enqueue h n f r l : enqueue_notes n f r l → tally (frame_flow h) l = - one (memory f = h).
Proof. destruct r; cbn; [intros ->; account|intros [-> | ->]; account]. Qed.

Lemma flow_dequeue h n o l :
  dequeue_notes n o l → tally (frame_flow h) l = frames_held h (option_list o).
Proof. destruct o; cbn; [intros [_ ->]; account|intros [-> | ->]; account]. Qed.

Lemma flow_disposed h n f l : disposed n f l → tally (frame_flow h) l = - one (memory f = h).
Proof. intros [r Hr]. by eapply flow_enqueue. Qed.

(** Queue operations answer no request and keep no admission. *)
Definition queue_note (x : note) : Prop :=
  match x with Queued _ _ _ | Created _ | Freed _ => True | _ => False end.

Lemma queue_notes_silent value l :
  (∀ x, queue_note x → value x = 0) → Forall queue_note l → tally value l = 0.
Proof. intros Hv Hl. apply tally_zero. intros x Hx. apply Hv. by eapply Forall_forall in Hl. Qed.

Lemma enqueue_queue_notes n f r l : enqueue_notes n f r l → Forall queue_note l.
Proof. destruct r; cbn; [intros ->; by repeat constructor|intros [-> | ->]; by repeat constructor]. Qed.

Lemma dequeue_queue_notes n o l : dequeue_notes n o l → Forall queue_note l.
Proof. destruct o; cbn; [intros [_ ->]; by repeat constructor|intros [-> | ->]; by repeat constructor]. Qed.

Lemma disposed_queue_notes n f l : disposed n f l → Forall queue_note l.
Proof. intros [r Hr]. by eapply enqueue_queue_notes. Qed.

Lemma answers_silent q x : queue_note x → answers q x = 0.
Proof. by destruct x. Qed.
Lemma admissions_silent c x : queue_note x → admissions c x = 0.
Proof. by destruct x. Qed.
Lemma completions_silent x : queue_note x → completions x = 0.
Proof. by destruct x. Qed.

(** Both accounts of a read that was served with a frame. *)
Lemma flow_served h q f l : read_served q f l → tally (frame_flow h) l = - one (memory f = h).
Proof.
  intros [(b & _ & ->)|(status & l' & _ & -> & Hl)]; [account|].
  rewrite tally_cons, (flow_disposed _ _ _ _ Hl). cbn. lia.
Qed.

Lemma served_requests value q f l :
  (∀ x, queue_note x → value x = 0) → read_served q f l →
  ∃ status n b, tally value l = value (Completed q status n b).
Proof.
  intros Hv [(b & _ & ->)|(status & l' & _ & -> & Hl)].
  - eexists _, _, _. cbn. rewrite Hv by done. rewrite Z.add_0_r. done.
  - eexists _, _, _. rewrite tally_cons, (queue_notes_silent _ l'); [by rewrite Z.add_0_r|done|].
    by eapply disposed_queue_notes.
Qed.

Definition forwards (x : note) : Z := match x with Forwarded _ _ => 1 | _ => 0 end.

Lemma forwards_silent x : queue_note x → forwards x = 0.
Proof. by destruct x. Qed.

Create HintDb account.
#[local] Hint Resolve answers_silent admissions_silent completions_silent forwards_silent
  enqueue_queue_notes dequeue_queue_notes disposed_queue_notes : account.

(** The account of a queue operation, and of a read that was served. *)
Ltac quiet_notes :=
  repeat match goal with
  | H : dequeue_notes _ _ ?l |- context [tally (frame_flow ?h) ?l] => rewrite (flow_dequeue h _ _ _ H)
  | H : disposed _ _ ?l |- context [tally (frame_flow ?h) ?l] => rewrite (flow_disposed h _ _ _ H)
  | H : enqueue_notes _ _ _ ?l |- context [tally (frame_flow ?h) ?l] => rewrite (flow_enqueue h _ _ _ _ H)
  | H : read_served _ _ ?l |- context [tally (frame_flow ?h) ?l] => rewrite (flow_served h _ _ _ H)
  | |- context [tally ?v ?l] => rewrite (queue_notes_silent v l) by eauto with account
  | H : read_served _ _ ?l |- context [tally ?v ?l] =>
      let E := fresh "E" in
      destruct (served_requests v _ _ _ ltac:(eauto with account) H) as (? & ? & ? & E); rewrite E; clear E
  end.

Ltac accounts :=
  repeat (rewrite tally_app || rewrite tally_cons); quiet_notes; cbn;
  rewrite ?one_true by done; rewrite ?one_false by done; try lia.

(** What every handler of requests leaves: [kept] admissions of [c], and one
    answer to each request of [qs]. *)
Record balanced (qs : list Z) (c : counter) (kept : Z) (l : list note) : Prop := {
  ba_answers q : tally (answers q) l = foldr (λ q' n, one (q' = q) + n) 0 qs;
  ba_frames h : tally (frame_flow h) l = 0;
  ba_kept : tally (admissions c) l = kept;
  ba_other c' : c' ≠ c → tally (admissions c') l = 0;
}.

Lemma read_balanced q l : read_outcome q l → balanced [q] PendingReads (tally forwards l) l.
Proof. intros []; split; intros; accounts. Qed.

Lemma write_balanced q b l : write_outcome q b l → balanced [q] PendingWrites 0 l.
Proof.
  intros [st Hst| |st l' Hst [->|(f & x & l2 & Hf & -> & Hl)]|o l' (f & Hb & Hf & ->)]; split; intros; accounts.
Qed.

Lemma round_balanced q l : read_round q l → balanced [q] PendingReads (- tally completions l) l.
Proof. intros []; split; intros; accounts. Qed.

Lemma worked_balanced l : worked l → ∃ qs, balanced qs PendingReads (- tally completions l) l.
Proof.
  induction 1 as [|q l l' _ [qs [H1 H2 H3 H4]] [K1 K2 K3 K4]%round_balanced].
  - exists []. by split.
  - exists (q :: qs). split; intros; rewrite ?tally_app; cbn in *.
    + rewrite K1, H1. lia.
    + by rewrite K2, H2.
    + lia.
    + by rewrite K4, H4.
Qed.

(** ** The packet callbacks *)

Lemma flow_injected h fs l : injected fs l → tally (frame_flow h) l = 0.
Proof. induction 1; [done|]. accounts. Qed.

Lemma flow_receive h fs l : receive_notes fs l → tally (frame_flow h) l = 0.
Proof. intros [l' l'' Hi Hl|l' fr l2 l3 Hi Hl Hd]; rewrite !tally_app, (flow_injected _ _ _ Hi); accounts. Qed.

Lemma flow_direct h b r l : direct_notes b r l → tally (frame_flow h) l = 0.
Proof. destruct r; cbn; [intros (q & ->); done|intros [->|(q & st & _ & ->)]; done]. Qed.

Lemma flow_packet h b l : packet_notes b l → tally (frame_flow h) l = 0.
Proof.
  intros [d Hd|d f0 f r l' Hd Hm Hb Hl|d f0 f Hd Hm|d Hd]; rewrite ?tally_app, (flow_direct _ _ _ _ Hd);
    accounts; rewrite Hm; lia.
Qed.

Lemma flow_transmitted B maximum m0 p f ls m h :
  transmitted B maximum m0 p f ls m → tally (frame_flow h) (concat (rev ls)) = 0.
Proof.
  intros Hm. apply tally_concat. intros l [j Hj]%list_elem_of_lookup.
  destruct (tm_done _ _ _ _ _ _ _ Hm j l Hj) as (k & marked & _ & _ & [_|b mk l' _ Hl]); [done|].
  by eapply flow_packet.
Qed.

Lemma flow_advanced B maximum pool m0 p f l m h :
  advanced B maximum pool m0 p f l m → tally (frame_flow h) l = 0.
Proof.
  intros [[-> _]|[ls m' Hm|ls m' k b d Hm _ _ _ Hd|ls m' k Hm]]; [done|..]; rewrite ?tally_app;
    rewrite (flow_transmitted _ _ _ _ _ _ _ _ Hm); [done| |done]. by rewrite (flow_direct _ _ _ _ Hd).
Qed.

(** The requests a callback completed are answered once each, and their
    admissions are returned. *)
Record settled (l : list note) : Prop := {
  se_kept : tally (admissions PendingReads) l = - tally completions l;
  se_claims : tally (admissions LegacyDirectReadClaims) l = 0;
}.

Lemma settled_app l k : settled l → settled k → settled (l ++ k).
Proof. intros [H1 H2] [K1 K2]. split; rewrite !tally_app; lia. Qed.

Lemma settled_direct b r l : direct_notes b r l → settled l.
Proof.
  destruct r; cbn; [intros (q & ->)|intros [->|(q & st & _ & ->)]]; by split.
Qed.

Lemma settled_quiet l : Forall queue_note l → settled l.
Proof. intros Hl. split; rewrite !(queue_notes_silent _ l); eauto with account. Qed.

Lemma settled_packet b l : packet_notes b l → settled l.
Proof.
  intros [d Hd|d f0 f r l' Hd Hm Hb Hl|d f0 f Hd Hm|d Hd]; pose proof (settled_direct _ _ _ Hd); try done.
  - apply settled_app; [by eapply settled_quiet, enqueue_queue_notes|].
    apply settled_app; [apply settled_quiet; by repeat constructor|done].
  - apply settled_app; [apply settled_quiet; by repeat constructor|done].
Qed.

Lemma settled_transmitted B maximum m0 p f ls m :
  transmitted B maximum m0 p f ls m → settled (concat (rev ls)).
Proof.
  intros Hm. assert (Forall settled ls) as Hls.
  { apply Forall_lookup. intros j l Hj.
    destruct (tm_done _ _ _ _ _ _ _ Hm j l Hj) as (k & marked & _ & _ & [_|b mk l' _ Hl]); [by split|].
    by eapply settled_packet. }
  clear Hm. induction Hls as [|l ls Hl _ IH]; [by split|]. cbn. rewrite concat_app. cbn.
  rewrite app_nil_r. by apply settled_app.
Qed.

Lemma settled_advanced B maximum pool m0 p f l m : advanced B maximum pool m0 p f l m → settled l.
Proof.
  intros [[-> _]|[ls m' Hm|ls m' k b d Hm _ _ _ Hd|ls m' k Hm]]; [by split|..];
    pose proof (settled_transmitted _ _ _ _ _ _ _ Hm); [done| |done].
  apply settled_app; [by eapply settled_direct|done].
Qed.

(** ** Clearing and reopening *)

Lemma flow_freed h fs : tally (frame_flow h) (rev (Freed <$> fs)) = - frames_held h fs.
Proof. induction fs as [|f fs IH]; [done|]. cbn. rewrite tally_app, IH. cbn. lia. Qed.

Lemma flow_queue_notes h n o out :
  o = QClose ∨ o = QReopen ∨ o = QBeginClose → handed_out out = None →
  tally (frame_flow h) (queue_notes n o out) = 0.
Proof.
  intros Ho Hh. unfold queue_notes. rewrite tally_app, flow_freed. cbn. rewrite Hh.
  destruct Ho as [->|[-> | ->]]; cbn; lia.
Qed.

Lemma flow_reset h n o l :
  o = QClose ∨ o = QReopen → reset_notes n o l → tally (frame_flow h) l = 0.
Proof.
  intros Ho [->|(q & sq & out & _ & -> & ->)]; [done|]. apply flow_queue_notes; [tauto|].
  by destruct Ho as [-> | ->].
Qed.

(** ** An example: a quiet framework and a small device *)

Definition quiet_framework : env dev dp_ret := λ w c,
  match c return dev → dp_ret c * dev with
  | SpuriousFailure => λ s, (false, s)
  | AcquireLease _ => λ s, (true, s)
  | ServeScheduledWait | WaitRequestIsActive _ | CancelWaitRequestForTeardown _ => λ s, (false, s)
  | WdfWaitLockAcquire _ _ | WdfRequestForwardToIoQueue _ _ | NetAdapterStart _ => λ s, (STATUS_SUCCESS, s)
  | KeGetCurrentIrql => λ s, (2, s)
  | WdfRequestRetrieveInputBuffer q _ => λ s,
      match inputs s !! q with
      | Some b => ((STATUS_SUCCESS, len b), s <| inputs := <[q := b]> (inputs s) |>)
      | None => ((STATUS_INVALID_PARAMETER, 0), s)
      end
  | WdfRequestRetrieveOutputBuffer q n => λ s,
      let b := replicate (Z.to_nat n) 0 in
      ((STATUS_SUCCESS, len b), s <| outputs := <[q := b]> (outputs s) |>)
  | WdfIoQueueRetrieveNextRequest _ => λ s, ((STATUS_NO_MORE_ENTRIES, 0), s)
  | WdfMemory => λ s, (example_api, s)
  | NetPacketQueueCreate _ => λ s, ((STATUS_SUCCESS, 63), s)
  | NetPacketQueueGetRingCollection _ _ => λ s, (Some (packet_ring s, fragment_ring s), s)
  | NetPacketQueueGetExtension _ _ => λ s, (extension s, s)
  | OtherThreads | ReleaseLease _ | ClaimWaitForPassiveCompletion _ | WdfSpinLockAcquire _
  | WdfSpinLockRelease _ | WdfWaitLockRelease _ | WdfMemoryDelete _ | WdfRequestComplete _ _
  | WdfRequestCompleteWithInformation _ _ _ | WdfWorkItemEnqueue _
  | NetRxQueueNotifyMoreReceivedPacketsAvailable _ | DbgPrintEx
  | QuiesceDatapathCallbacks _ | ResumeDatapathCallbacks _ | CancelWaitForTeardown
  | HandleWaitForChange _ _ _ | WdfWorkItemFlush _ | WdfIoQueuePurgeSynchronously _
  | WdfIoQueueStart _ | NetAdapterSetLinkLayerCapabilities _ _ _ | NetAdapterSetLinkLayerMtuSize _ _
  | NetAdapterSetPermanentLinkLayerAddress _ _ _ | NetAdapterSetCurrentLinkLayerAddress _ _ _
  | NetAdapterSetLinkState _ _ | NetAdapterSetDataPathCapabilities _ _ _
  | NetAdapterSetReceiveFilterCapabilities _ _ _ | NetAdapterStop _ => λ s, (tt, s)
  end.

Lemma interferes_refl s : interferes s s.
Proof. split; [by destruct s|done..]. Qed.

Lemma quiet_framework_respects : respects dp_contract quiet_framework.
Proof.
  intros w c s. destruct c; try exact (interferes_refl _); cbn.
  - split; [apply interferes_refl|]. intros m p size [= <- <-] _. unfold len, stale_bytes.
    cbn [example_api]. by rewrite length_replicate.
  - destruct (inputs s !! request) as [b|] eqn:Hb; cbn; [|apply interferes_refl].
    exists b. split; [done|]. split; [|apply interferes_refl]. intros b' [= ->]. done.
  - eexists. split; [done|]. apply interferes_refl.
  - split; [apply interferes_refl|done].
Qed.

Lemma quiet_uncontended : uncontended quiet_framework.
Proof. done. Qed.

Definition example_bindings : bindings := {|
  size_of_NET_PACKET := 24; size_of_NET_FRAGMENT := 24; ValidLength_bits := 26;
  NetPacketLayer2TypeEthernet := 1 |}.

Definition example_instance : InstanceState := {|
  frame_maximum := 1514; read_queue := 11; injection_lock := 21; capture_lock := 22;
  frame_pool := 31; injection_queue := Some example_queue; capture_queue := Some example_queue;
  read_work_item := 41; legacy_direct_read_lock := 51; write_lifetime_lock := 52; rx_queue := 61;
  rx_notification_armed := false; pending_reads := 0; legacy_direct_read_claims := 0;
  pending_writes := 0; adaptive_enabled := false; injection_generation := 0;
  capture_generation := 0; owner_generation := 1; lifecycle := INSTANCE_OPEN;
  mtu := 1500; mac_address := [2; 16; 32; 48; 64; 80]; adapter := 71; state_lock := 23;
  active_packet_filters := 0; active_multicast_address_count := 0;
  active_multicast_addresses := replicate 64 (replicate 6 0); tx_queue := 62;
  tx_queue_started := true; rx_queue_started := true; control_open := true |}.

Definition example_packets : NET_RING := {|
  ElementStride := 64; NumberOfElements := 4; ElementIndexMask := 3; BeginIndex := 3; EndIndex := 1;
  Buffer := 4096 |}.

Definition example_fragments : NET_RING := {|
  ElementStride := 32; NumberOfElements := 4; ElementIndexMask := 3; BeginIndex := 0; EndIndex := 2;
  Buffer := 8192 |}.

Definition example_packet (i : Z) : NET_PACKET := {|
  FragmentIndex := i; FragmentCount := 1; Ignore := 0; Layout := NET_PACKET_LAYOUT_default |}.

Definition example_fragment : NET_FRAGMENT := {| Capacity := 64; ValidLength := 20; Offset := 4 |}.

Definition example_dev : dev := {|
  st := example_instance;
  extension := {| Enabled := 1; Reserved0 := 12288; Reserved1 := 8 |};
  packet_ring := Some example_packets; fragment_ring := Some example_fragments;
  packets := {[4096 := example_packet 2; 4160 := example_packet 3; 4224 := example_packet 0;
               4288 := example_packet 1]};
  fragments := {[8192 := example_fragment; 8224 := example_fragment; 8256 := example_fragment;
                 8288 := example_fragment]};
  virtual_addresses := {[12288 := 16384; 12296 := 16448; 12304 := 16512; 12312 := 16576]};
  payload := insert_bytes 16384 (replicate 256 7) ∅;
  inputs := {[5 := replicate 20 9]}; outputs := ∅; owned := {[5]}; held := ∅; guards := ∅; log := [];
|}.

Lemma example_queue_ok : queue_ok example_queue.
Proof.
  exists {| sq_frames := []; sq_state := QOpen |}.
  by apply (try_new_repr (λ _, true) 2 100 example_queue eq_refl).
Qed.

Lemma example_idle : idle example_dev.
Proof.
  split; [|done]. split; [intros [] q [= <-]; apply example_queue_ok|done..|].
  split; [done..| |done]. by apply Forall_replicate.
Qed.

Lemma insert_bytes_mapped a b mem n : n = len b → mapped (insert_bytes a b mem) a n.
Proof.
  intros -> k Hk. revert a Hk. induction b as [|x b IH]; intros a Hk.
  { change (len []) with 0 in Hk. lia. }
  rewrite len_cons in Hk. cbn. destruct (decide (a = k)) as [->|]; [by rewrite lookup_insert_eq|].
  rewrite lookup_insert_ne by done. apply IH. lia.
Qed.

(** The indices of a ring of four. *)
Lemma below_four i : 0 ≤ i < 4 → i = 0 ∨ i = 1 ∨ i = 2 ∨ i = 3.
Proof. lia. Qed.

Lemma example_rings : rings_ok example_bindings (memory_of example_dev) example_packets example_fragments.
Proof.
  split; try done.
  - split; try done; try (split_and!; done). by exists 2.
  - split; try done; try (split_and!; done). by exists 2.
  - intros i [->|[->|[-> | ->]]]%below_four; eexists; (split; [reflexivity|by split]).
  - intros i [->|[->|[-> | ->]]]%below_four; eexists; (split; [reflexivity|by split]).
  - intros i a [->|[->|[-> | ->]]]%below_four [= <-]; by eexists.
  - intros i g va Hi Hg Hva _ k Hk. apply (insert_bytes_mapped 16384 (replicate 256 7) ∅ 256 eq_refl).
    apply below_four in Hi as [->|[->|[-> | ->]]]; vm_compute in Hg, Hva; simplify_eq; cbn in Hk; lia.
Qed.

Lemma example_maximum : fits usize_bits 1514.
Proof. unfold fits, usize_bits. lia. Qed.

Lemma example_apart : buffers_apart (memory_of example_dev) example_fragments.
Proof.
  intros i j g h va vb Hi Hj Hne Hg Hh Hva Hvb _ _.
  apply below_four in Hi as [->|[->|[-> | ->]]]; apply below_four in Hj as [->|[->|[-> | ->]]]; try done;
    vm_compute in Hg, Hh, Hva, Hvb; simplify_eq; cbn; lia.
Qed.

(** ** Requests *)

(** C9: a read is answered exactly once.  Whatever the framework answers and
    other threads do within the contract, [evt_io_read] never reaches undefined
    behaviour: no lock is taken twice, no frame buffer is overrun, no request is
    completed that is not owned or under a spin lock.  When it returns - which
    one attempt at admission guarantees if no other thread interferes - the
    request was completed or forwarded exactly once and no other request was
    touched; every frame it took from the capture queue was delivered or put
    back or freed; and its admission is kept exactly when the request waits in
    the manual queue.  [read_outcome] lists every way it can end, with the bytes
    of the captured frame in the completed buffer. *)
Theorem read_answered_once (e : env dev dp_ret) (fuel : nat) (found : bool) (q : Z) (s : dev)
    (w : world dp_ret) (Henv : respects dp_contract e) (Hs : idle s) (Hq : q ∈ owned s) :
  wp e (evt_io_read fuel found q) (λ r s' _,
    (uncontended e → (0 < fuel)%nat → r = Some tt) ∧
    (r = Some tt → ∃ l, acts l (answered q s) s' ∧ read_outcome q l ∧
       balanced [q] PendingReads (tally forwards l) l)) s w.
Proof.
  apply wp_evt_io_read; [done..| |].
  - intros Hn s' w'. split; [|done]. intros Hun Hf. by destruct Hn.
  - intros l s' w' A Hl. split; [done|]. intros _. exists l. split_and!; [done..|]. by apply read_balanced.
Qed.

Lemma read_answered_once_witness :
  ∃ s' w', evt_io_read 1 true 5 quiet_framework example_dev [] = Some (Some tt, s', w') ∧
    ∃ l, acts l (answered 5 example_dev) s' ∧ tally (answers 5) l = 1.
Proof.
  destruct (read_answered_once quiet_framework 1 true 5 example_dev [] quiet_framework_respects example_idle
    ltac:(vm_compute; done)) as (r & s' & w' & Hrun & Hret & Hpost).
  pose proof (Hret quiet_uncontended ltac:(lia)). subst r. exists s', w'. split; [exact Hrun|].
  destruct (Hpost eq_refl) as (l & A & _ & Hl). exists l. split; [exact A|]. apply (ba_answers _ _ _ _ Hl).
Defined.

(** C20: a write is answered exactly once, and succeeds exactly with its bytes
    queued.  [evt_io_write] runs without undefined behaviour under every
    environment of the contract; when it returns, the request was completed
    exactly once, the pending-write admission was returned, and every frame
    created was queued or freed.  [write_outcome] lists the ways it can end: a
    success of a nonempty write reports the length of the input and leaves
    exactly the input's bytes, in one frame, in the injection queue; a failure
    leaves no frame. *)
Theorem write_answered_once (e : env dev dp_ret) (fuel : nat) (found : bool) (q n : Z) (b : list Z)
    (s : dev) (w : world dp_ret) (Henv : respects dp_contract e) (Hs : idle s) (Hq : q ∈ owned s)
    (Hb : inputs s !! q = Some b) (Hguard : write_lifetime_lock (st s) ∉ guards s) :
  wp e (evt_io_write fuel found q n) (λ r s' _,
    (uncontended e → (0 < fuel)%nat → r = Some tt) ∧
    (r = Some tt → ∃ l, acts l (answered q s) s' ∧ write_outcome q b l ∧
       balanced [q] PendingWrites 0 l)) s w.
Proof.
  apply (wp_evt_io_write e Henv fuel found q n b _ s w Hs Hq Hb Hguard).
  - intros Hn s' w'. split; [|done]. intros Hun Hf. by destruct Hn.
  - intros l s' w' A Hl. split; [done|]. intros _. exists l. split_and!; [done..|].
    by eapply write_balanced.
Qed.

Lemma write_answered_once_witness :
  ∃ s' w', evt_io_write 1 true 5 20 quiet_framework example_dev [] = Some (Some tt, s', w') ∧
    ∃ l, acts l (answered 5 example_dev) s' ∧ tally (admissions PendingWrites) l = 0.
Proof.
  destruct (write_answered_once quiet_framework 1 true 5 20 (replicate 20 9) example_dev [] quiet_framework_respects
    example_idle (proj2 (elem_of_singleton 5 5) eq_refl) eq_refl (not_elem_of_empty 52)) as (r & s' & w' & Hrun & Hret & Hpost).
  pose proof (Hret quiet_uncontended ltac:(lia)). subst r. exists s', w'. split; [exact Hrun|].
  destruct (Hpost eq_refl) as (l & A & _ & Hl). exists l. split; [exact A|]. apply (ba_kept _ _ _ _ Hl).
Defined.

(** C21: the passive worker serves each pending read once and comes to an end.
    Every request it takes from the manual queue is completed with a captured
    frame or given back to the queue, once, and its admission is returned
    exactly when it is completed; no frame is lost.  If no adaptive wait is
    scheduled and the queue stops giving requests out after [n] completions,
    [n + 1] rounds are enough for it to return. *)
Theorem worker_serves_each_read (e : env dev dp_ret) (n : Z) (fuel : nat) (found : bool) (s : dev)
    (w : world dp_ret) (Henv : respects dp_contract e) (Hs : idle s) :
  wp e (evt_read_completion_work_item fuel found) (λ r s' _,
    (drains e n → 0 ≤ n - completed (log s) < Z.of_nat fuel → r = Some tt) ∧
    (r = Some tt → ∃ l qs, acts l s s' ∧ worked l ∧
       balanced qs PendingReads (- tally completions l) l)) s w.
Proof.
  apply (wp_evt_read_completion_work_item e Henv n); [done|..].
  - intros Hn s' w'. split; [|done]. intros Hd Hf. destruct Hn. split; [done|lia].
  - intros l s' w' A Hl. split; [done|]. intros _. destruct (worked_balanced l Hl) as [qs Hqs].
    by exists l, qs.
Qed.

Lemma quiet_drains : drains quiet_framework 0.
Proof. split; [done|]. by intros s (w1 & s1 & queue & _ & H). Qed.

Lemma worker_serves_each_read_witness :
  ∃ s' w', evt_read_completion_work_item 1 true quiet_framework example_dev [] = Some (Some tt, s', w') ∧
    ∃ l qs, acts l example_dev s' ∧ balanced qs PendingReads (- tally completions l) l.
Proof.
  destruct (worker_serves_each_read quiet_framework 0 1 true example_dev [] quiet_framework_respects example_idle)
    as (r & s' & w' & Hrun & Hret & Hpost).
  pose proof (Hret quiet_drains ltac:(cbn; lia)). subst r. exists s', w'. split; [exact Hrun|].
  destruct (Hpost eq_refl) as (l & qs & A & _ & Hl). by exists l, qs.
Defined.

(** ** Packet callbacks *)

(** C11: receive delivers the owner's frames in order and intact.  With
    well-formed rings, [evt_packet_queue_advance] of the receive queue returns
    without undefined behaviour, and for the frames [fs] it took from the
    injection queue and indicated: frame [j] is in packet [begin + j] as one
    fragment, [begin + j], whose buffer holds its bytes and whose valid length
    is its length (the bit field is wide enough), earlier frames are not
    overwritten, no other packet is touched, both begin indices moved by the
    number of frames and never beyond the end; a last frame without room is put
    back or freed. *)
Theorem receive_in_order (B : bindings) (e : env dev dp_ret) (p f : NET_RING) (s : dev) (w : world dp_ret)
    (Henv : respects dp_contract e) (Hs : idle s) (Hrings : rings_ok B (memory_of s) p f)
    (Hapart : buffers_apart (memory_of s) f) (Hbits : 16 ≤ ValidLength_bits B) :
  wp e (evt_packet_queue_advance B (Some (false, true))) (λ _ s' _, ∃ fs l m,
    does l m s s' ∧ received B (memory_of s) p f fs m ∧ receive_notes fs l ∧
    (∀ h, tally (frame_flow h) l = 0) ∧
    Forall (λ b, wrap (ValidLength_bits B) (len b) = len b) fs) s w.
Proof.
  apply (wp_advance_receive B e Henv p f); [done..|]. intros fs l m s' w' D Hr Hl. exists fs, l, m.
  split; [done|]. split; [done|]. split; [done|]. split; [intros h; by eapply flow_receive|].
  assert (∀ fs l, injected fs l → Forall (λ b, wrap (ValidLength_bits B) (len b) = len b) fs) as Hall.
  { intros fs' l'. induction 1 as [|fs1 l1 fr b l2 _ IH [Hfr _] Hb]; [done|]. apply Forall_app. split; [done|].
    apply Forall_singleton. destruct (as_bytes_ok fr Hfr) as (b' & Hb' & Hlb).
    assert (b' = b) as -> by congruence. destruct Hfr as [Hfr _]. unfold FRAME_MAXIMUM in Hfr.
    unfold wrap. apply Z.mod_small. rewrite Hlb.
    pose proof (Z.pow_le_mono_r 2 16 (ValidLength_bits B) ltac:(lia) Hbits). lia. }
  by destruct Hl as [l1 l2 Hi _|l1 fr l2 l3 Hi _ _]; eapply Hall.
Qed.

Lemma receive_in_order_witness :
  ∃ s' w', evt_packet_queue_advance example_bindings (Some (false, true)) quiet_framework example_dev []
    = Some (tt, s', w') ∧
    ∃ fs l m, does l m example_dev s' ∧
      received example_bindings (memory_of example_dev) example_packets example_fragments fs m.
Proof.
  destruct (receive_in_order example_bindings quiet_framework example_packets example_fragments example_dev []
    quiet_framework_respects example_idle example_rings example_apart ltac:(cbn; lia))
    as ([] & s' & w' & Hrun & fs & l & m & D & Hr & _). exists s', w'. split; [exact Hrun|]. exists fs, l, m. exact (conj D Hr).
Defined.

(** C10: transmit handles every packet in order and sends exactly its bytes.
    With well-formed rings, [evt_packet_queue_advance] of the transmit queue
    returns without undefined behaviour and reads no byte outside the buffers of
    the packets' fragments.  Either nothing was done (the instance is closing),
    or the packets from the begin index on were handled in ring order up to the
    end (or up to a packet whose fragments do not exist, or to the first packet
    when there is no frame pool).  A packet whose fragments do not fit their
    buffers or the frame limits is marked as to be ignored; the bytes of any
    other packet, gathered from its fragments, complete a pending read or are
    queued for the owner as one frame, or the frame is freed.  No frame is lost,
    and every read completed at once returns its admission and its claim. *)
Theorem transmit_in_order (B : bindings) (e : env dev dp_ret) (p f : NET_RING) (s : dev) (w : world dp_ret)
    (Henv : respects dp_contract e) (Hs : idle s) (Hrings : rings_ok B (memory_of s) p f)
    (Hmaximum : fits usize_bits (frame_maximum (st s)))
    (Hguard : legacy_direct_read_lock (st s) ∉ guards s) :
  wp e (evt_packet_queue_advance B (Some (true, true))) (λ _ s' _, ∃ l m,
    does l m s s' ∧ advanced B (frame_maximum (st s)) (frame_pool (st s)) (memory_of s) p f l m ∧
    (∀ h, tally (frame_flow h) l = 0) ∧ settled l) s w.
Proof.
  apply (wp_advance_transmit B e Henv (memory_of s) p f); [done..|]. intros l m s' w' D Hl. exists l, m.
  split; [done|]. split; [done|]. split; [intros h; by eapply flow_advanced|by eapply settled_advanced].
Qed.

Lemma transmit_in_order_witness :
  ∃ s' w', evt_packet_queue_advance example_bindings (Some (true, true)) quiet_framework example_dev []
    = Some (tt, s', w') ∧
    ∃ l m, does l m example_dev s' ∧
      advanced example_bindings 1514 31 (memory_of example_dev) example_packets example_fragments l m.
Proof.
  destruct (transmit_in_order example_bindings quiet_framework example_packets example_fragments example_dev []
    quiet_framework_respects example_idle example_rings example_maximum (not_elem_of_empty 51))
    as ([] & s' & w' & Hrun & l & m & D & Ha & _). exists s', w'. split; [exact Hrun|]. exists l, m. exact (conj D Ha).
Defined.

(** C40: a cancelled packet queue gives everything back.  [evt_packet_queue_cancel]
    returns; both rings are empty afterwards, each begin index at its end index;
    of the receive ring exactly the packets that were not yet returned are
    marked as to be ignored, and a transmit ring's packets are left as they
    are; no frame, request or admission is touched. *)
Theorem cancel_returns_rings (B : bindings) (e : env dev dp_ret) (transmit : bool) (p f : NET_RING)
    (s : dev) (w : world dp_ret) (Henv : respects dp_contract e) (Hs : inst_ok (st s))
    (Hrings : rings_ok B (memory_of s) p f) :
  wp e (evt_packet_queue_cancel B (Some (transmit, true))) (λ _ s' _, ∃ m,
    does [] (returned p f m) s s' ∧
    ignored (memory_of s) p (if transmit then 0 else distance p) m) s w.
Proof. apply (wp_packet_queue_cancel B e Henv (memory_of s) p f); [done..|]. intros m s' w' D Hi. by exists m. Qed.

Lemma cancel_returns_rings_witness :
  ∃ s' w', evt_packet_queue_cancel example_bindings (Some (false, true)) quiet_framework example_dev []
    = Some (tt, s', w') ∧
    ∃ m, does [] (returned example_packets example_fragments m) example_dev s' ∧
      ignored (memory_of example_dev) example_packets 2 m.
Proof.
  destruct (cancel_returns_rings example_bindings quiet_framework false example_packets example_fragments
    example_dev [] quiet_framework_respects (proj1 example_idle) example_rings) as ([] & s' & w' & Hrun & m & D & Hi).
  exists s', w'. split; [exact Hrun|]. exists m. exact (conj D Hi).
Defined.

(** ** All handlers *)

Inductive handler :=
  | HandleRead (found : bool) (request : Z)
  | HandleWrite (found : bool) (request length : Z)
  | HandleReads (found : bool)                          (* the passive worker *)
  | HandleAdvance (context : option (bool * bool))
  | HandleCancel (context : option (bool * bool))
  | HandleNotification (context : option (bool * bool)) (enabled : Z)
  | ClearQueues
  | ReopenQueues.

Definition finished (m : D unit) : D (option unit) := _ ← m; mret (Some tt).

Definition run_handler (B : bindings) (fuel : nat) (h : handler) : D (option unit) :=
  match h with
  | HandleRead found q => evt_io_read fuel found q
  | HandleWrite found q n => evt_io_write fuel found q n
  | HandleReads found => evt_read_completion_work_item fuel found
  | HandleAdvance context => finished (evt_packet_queue_advance B context)
  | HandleCancel context => finished (evt_packet_queue_cancel B context)
  | HandleNotification context enabled =>
      finished (evt_packet_queue_set_notification_enabled context enabled)
  | ClearQueues => finished clear_frame_queues
  | ReopenQueues => finished reopen_frame_queues
  end.

(** What the framework promises when it calls a handler. *)
Definition rings_ready (B : bindings) (s : dev) : Prop :=
  ∃ p f, rings_ok B (memory_of s) p f ∧ buffers_apart (memory_of s) f.

Definition handler_ready (B : bindings) (h : handler) (s : dev) : Prop :=
  idle s ∧ guards s = ∅ ∧
  match h with
  | HandleRead _ q => q ∈ owned s
  | HandleWrite _ q _ => q ∈ owned s ∧ is_Some (inputs s !! q)
  | HandleAdvance _ => rings_ready B s ∧ fits usize_bits (frame_maximum (st s))
  | HandleCancel _ => rings_ready B s
  | _ => True
  end.

(** Nothing is held, and the frames and locks balance. *)
Definition left_clean (s s' : dev) : Prop :=
  inst_ok (st s') ∧ held s' = ∅ ∧ guards s' = ∅ ∧
  ∃ l, log s' = l ++ log s ∧ ∀ h, tally (frame_flow h) l = 0.

Lemma clean_acts l s s0 s' :
  idle s → guards s = ∅ → held s0 = held s → guards s0 = guards s → log s0 = log s →
  acts l s0 s' → (∀ h, tally (frame_flow h) l = 0) → left_clean s s'.
Proof.
  intros [_ Hh] Hg E1 E2 E3 A Hl. split; [apply A|]. rewrite (acts_held _ _ _ A), (acts_guards _ _ _ A), E1, E2.
  split; [done|]. split; [done|]. exists l. by rewrite (acts_log _ _ _ A), E3.
Qed.

Lemma wp_finished e (m : D unit) (P : dev → Prop) s w :
  wp e m (λ _ s' _, P s') s w → wp e (finished m) (λ r s' _, r = Some tt → P s') s w.
Proof. intros H. apply wp_bind. eapply wp_mono; [exact H|]. intros [] s' w' HP. by apply wp_ret. Qed.

Lemma wp_reset_both e o (Henv : respects dp_contract e) s w :
  o = QClose ∨ o = QReopen → idle s →
  wp e (_ ← reset_queue Injection o; reset_queue Capture o)
    (λ _ s' _, ∃ l, acts l s s' ∧ ∀ h, tally (frame_flow h) l = 0) s w.
Proof.
  intros Ho Hs. assert (op_frames_ok o) as Hok by (by destruct Ho as [-> | ->]).
  apply wp_bind, (wp_reset_queue e Henv); [done..|]. intros l1 s1 w1 A1 H1.
  apply (wp_reset_queue e Henv); [exact (idle_acts _ _ _ Hs A1)|done|]. intros l2 s2 w2 A2 H2.
  exists (l2 ++ l1). split; [exact (acts_trans _ _ _ _ _ A1 A2)|]. intros h.
  by rewrite tally_app, (flow_reset _ _ _ _ Ho H1), (flow_reset _ _ _ _ Ho H2).
Qed.

(** C19: no handler of the data path loses a frame, keeps a lock or breaks a
    queue.  Called as the framework promises, and under every environment of the
    contract, each of the eight handlers runs without undefined behaviour, and
    when it has returned no spin lock and no guard is held, both queues are well
    formed, and for every memory handle the frames it created or took from a
    queue are exactly those it queued or freed: no frame leaks and none is freed
    twice. *)
Theorem handlers_conserve_frames (B : bindings) (e : env dev dp_ret) (fuel : nat) (h : handler)
    (s : dev) (w : world dp_ret) (Henv : respects dp_contract e) (Hready : handler_ready B h s) :
  wp e (run_handler B fuel h) (λ r s' _, r = Some tt → left_clean s s') s w.
Proof.
  destruct Hready as (Hs & Hg & Hh).
  assert (∀ lock, lock ∉ guards s) as Hlock by (intros lock; rewrite Hg; apply not_elem_of_empty).
  assert (∀ l m s', does l m s s' → (∀ x, tally (frame_flow x) l = 0) → left_clean s s') as Hdoes.
  { intros l m s' D. by apply (clean_acts l s (with_memory m s)). }
  assert (∀ l s', acts l s s' → (∀ x, tally (frame_flow x) l = 0) → left_clean s s') as Hacts.
  { intros l s'. by apply clean_acts. }
  destruct h; cbn [run_handler] in *; try apply wp_finished.
  - apply (wp_evt_io_read e Henv); [done..|]. intros l s' w' A Hl _.
    apply (clean_acts l s (answered request s)); try done. apply (ba_frames _ _ _ _ (read_balanced _ _ Hl)).
  - destruct Hh as [Hq [b Hb]]. apply (wp_evt_io_write e Henv fuel found request length b); [done..|].
    intros l s' w' A Hl _. apply (clean_acts l s (answered request s)); try done.
    apply (ba_frames _ _ _ _ (write_balanced _ _ _ Hl)).
  - apply (wp_evt_read_completion_work_item e Henv 0); [done..|]. intros l s' w' A Hl _.
    destruct (worked_balanced l Hl) as [qs Hqs]. by eapply Hacts, ba_frames.
  - destruct Hh as [(p & f & Hr & Ha) Hm]. destruct context as [[[] []]|]; cbn;
      try by apply wp_ret, (Hacts []); [apply acts_refl, Hs|].
    + apply (wp_advance_transmit B e Henv (memory_of s) p f); [done..|]. intros l m s' w' D Hl.
      eapply Hdoes; [exact D|]. intros x. by eapply flow_advanced.
    + apply (wp_advance_receive B e Henv p f); [done..|]. intros fs l m s' w' D _ Hl.
      eapply Hdoes; [exact D|]. intros x. by eapply flow_receive.
  - destruct Hh as (p & f & Hr & _). destruct context as [[transmit []]|]; cbn;
      try by apply wp_ret, (Hacts []); [apply acts_refl, Hs|].
    apply (wp_packet_queue_cancel B e Henv (memory_of s) p f); [done|apply Hs|done|]. intros m s' w' D _.
    by eapply Hdoes.
  - apply (wp_set_notification_enabled e Henv); [done|]. intros s' w' A. by eapply Hacts.
  - eapply wp_mono; [apply (wp_reset_both e QClose Henv); [by left|done]|]. intros _ s' w' (l & A & Hl). by eapply Hacts.
  - eapply wp_mono; [apply (wp_reset_both e QReopen Henv); [by right|done]|]. intros _ s' w' (l & A & Hl). by eapply Hacts.
Qed.

Lemma handlers_conserve_frames_witness :
  ∃ s' w', run_handler example_bindings 1 (HandleAdvance (Some (true, true))) quiet_framework example_dev []
    = Some (Some tt, s', w') ∧ left_clean example_dev s'.
Proof.
  assert (handler_ready example_bindings (HandleAdvance (Some (true, true))) example_dev) as Hready.
  { split; [exact example_idle|]. split; [done|]. split; [|exact example_maximum].
    exists example_packets, example_fragments. exact (conj example_rings example_apart). }
  destruct (handlers_conserve_frames example_bindings quiet_framework 1 (HandleAdvance (Some (true, true)))
    example_dev [] quiet_framework_respects Hready) as (r & s' & w' & Hrun & Hpost).
  assert (r = Some tt) as ->.
  { revert Hrun. cbn [run_handler]. unfold finished, mbind, M_bind.
    destruct (evt_packet_queue_advance _ _ _ _ _) as [[[[] s1] w1]|]; [|discriminate].
    intros Hrun. injection Hrun as <- _ _. reflexivity. }
  exists s', w'. split; [exact Hrun|exact (Hpost eq_refl)].
Defined.
