(* ===== verification/DatapathDirections.v ===== *)
(** * Which calls a packet callback makes

    A logic for the calls of a program: [makes P m R] says that every run of [m]
    that ends makes only calls in [P] and gives a result in [R].  It follows the
    program's structure, whatever the environment answers.  With it, the
    callbacks of the two packet queues are shown to keep to the lock and the
    lease of their own direction. *)

From S2P Require Import Prelude Words DriverConstants Effects Ring FrameQueue Datapath DatapathPaths DatapathSpec.
From S2P Require Import DatapathRings DatapathReceive DatapathTransmit DatapathTheorems.

(** What the calls below are about; none of it changes while the device is
    there. *)
Definition own_objects (i : InstanceState) : Z * Z * Z * Z * Z :=
  (injection_lock i, capture_lock i, legacy_direct_read_lock i, read_queue i, read_work_item i).

Lemma own_objects_same i i' : config_same i i' → own_objects i' = own_objects i.
Proof.
  intros [_ Hq Hl _ Hw Hd _ _ _ _ _]. pose proof (Hl Injection) as Hi. pose proof (Hl Capture) as Hc.
  cbn in Hi, Hc. unfold own_objects. congruence.
Qed.

Lemma own_objects_queue n q i : own_objects (set_queue n q i) = own_objects i.
Proof. by destruct n. Qed.

Lemma own_objects_counter c v i : own_objects (set_counter c v i) = own_objects i.
Proof. by destruct c. Qed.

Section logic.
Context (e : env dev dp_ret) (Henv : respects dp_contract e).
Context (i : InstanceState) (P : dp_call → Prop).

Definition makes {A} (m : D A) (R : A → Prop) : Prop :=
  ∀ s w a s' w', own_objects (st s) = own_objects i → m e s w = Some (a, s', w') →
    own_objects (st s') = own_objects i ∧ R a ∧ ∃ l, w' = l ++ w ∧ Forall (λ x, P (projT1 x)) l.

Lemma makes_ret {A} (a : A) (R : A → Prop) : R a → makes (mret a) R.
Proof. intros HR s w a' s' w' Hs [= <- <- <-]. split; [done|]. split; [done|]. by exists []. Qed.

Lemma makes_bind {A B} (m : D A) (f : A → D B) (R : A → Prop) (R' : B → Prop) :
  makes m R → (∀ a, R a → makes (f a) R') → makes (m ≫= f) R'.
Proof.
  intros Hm Hf s w b s' w' Hs H. unfold mbind, M_bind in H.
  destruct (m e s w) as [[[a s1] w1]|] eqn:Hrun; [|done].
  destruct (Hm s w a s1 w1 Hs Hrun) as (Hs1 & HR & l1 & -> & H1).
  destruct (Hf a HR s1 _ b s' w' Hs1 H) as (Hs2 & HR' & l2 & -> & H2).
  split; [done|]. split; [done|]. exists (l2 ++ l1). split; [by rewrite app_assoc|by apply Forall_app].
Qed.

(** A step whose result does not matter. *)
Lemma makes_then {A B} (m : D A) (f : A → D B) (R : B → Prop) :
  makes m (λ _, True) → (∀ a, makes (f a) R) → makes (m ≫= f) R.
Proof. intros Hm Hf. eapply makes_bind; [exact Hm|]. intros a _. apply Hf. Qed.

Lemma makes_weaken {A} (m : D A) (R R' : A → Prop) : makes m R → (∀ a, R a → R' a) → makes m R'.
Proof. intros Hm HR s w a s' w' Hs H. destruct (Hm s w a s' w' Hs H) as (? & ? & ?). auto. Qed.

Lemma makes_undefined {A} (R : A → Prop) : makes undefined R.
Proof. done. Qed.

Lemma makes_get (R : dev → Prop) : (∀ s, own_objects (st s) = own_objects i → R s) → makes get R.
Proof. intros HR s w a s' w' Hs [= <- <- <-]. split; [done|]. split; [by apply HR|]. by exists []. Qed.

Lemma makes_put s (R : unit → Prop) : own_objects (st s) = own_objects i → R tt → makes (put s) R.
Proof. intros Hs HR s1 w [] s' w' _ [= <- <-]. split; [done|]. split; [done|]. by exists []. Qed.

Lemma makes_from_option {A} (o : option A) (R : A → Prop) : (∀ a, o = Some a → R a) → makes (from_option o) R.
Proof. intros HR. destruct o; [by apply makes_ret, HR|apply makes_undefined]. Qed.

Lemma call_keeps c w s : own_objects (st s) = own_objects i → own_objects (st (e w c s).2) = own_objects i.
Proof.
  intros Hs. rewrite <- Hs. pose proof (Henv w c s) as Ha. unfold dp_contract in Ha.
  assert (∀ s0, st s0 = st s → interferes s0 (e w c s).2 → own_objects (st (e w c s).2) = own_objects (st s)) as Hi.
  { intros s0 <- [_ Hc _ _ _]. by apply own_objects_same. }
  destruct c; cbn in Ha; try (by eapply Hi); try (destruct Ha; by eapply Hi).
  - destruct (_ =? _); [destruct Ha as (b & _ & _ & Ha)|]; (eapply Hi; [|exact Ha]); done.
  - destruct (_ =? _); [destruct Ha as (b & _ & Ha)|]; (eapply Hi; [|exact Ha]); done.
Qed.

Lemma makes_call c (R : dp_ret c → Prop) : P c → (∀ w s, R (e w c s).1) → makes (call c) R.
Proof.
  intros Hc HR s w a s' w' Hs [= <- <- <-]. split; [by apply call_keeps|]. split; [done|].
  exists [existT c (e w c s).1]. split; [done|]. by apply Forall_singleton.
Qed.

Lemma makes_config {A} (f : InstanceState → A) (R : A → Prop) :
  (∀ i', own_objects i' = own_objects i → R (f i')) → makes (config f) R.
Proof.
  intros HR. unfold config. eapply makes_bind; [apply (makes_get (λ s, own_objects (st s) = own_objects i)); done|].
  intros s Hs. by apply makes_ret, HR.
Qed.

Lemma makes_get_then {B} (f : dev → D B) R :
  (∀ s, own_objects (st s) = own_objects i → makes (f s) R) → makes (get ≫= f) R.
Proof. apply makes_bind. by apply makes_get. Qed.

Lemma makes_config_then {A B} (f : InstanceState → A) (k : A → D B) R :
  (∀ i', own_objects i' = own_objects i → makes (k (f i')) R) → makes (config f ≫= k) R.
Proof.
  intros Hk. eapply (makes_bind _ _ (λ a, ∃ i', own_objects i' = own_objects i ∧ a = f i')).
  - apply makes_config. intros i' Hi. by exists i'.
  - intros a (i' & Hi & ->). by apply Hk.
Qed.

Lemma makes_load {A} (f : InstanceState → A) : P OtherThreads → makes (load f) (λ _, True).
Proof. intros HP. apply makes_then; [by apply makes_call|]. intros _. by apply makes_config. Qed.

Lemma makes_modify f : P OtherThreads → (∀ i, own_objects (f i) = own_objects i) → makes (modify f) (λ _, True).
Proof.
  intros HP Hf. apply makes_then; [by apply makes_call|]. intros _. apply makes_get_then. intros s Hs.
  apply makes_put; [|done]. cbn. by rewrite Hf.
Qed.

Lemma makes_loop {A B} fuel (body : A → D (A + B)) a :
  (∀ a, makes (body a) (λ _, True)) → makes (loop_total fuel body a) (λ _, True).
Proof.
  intros Hb. revert a. induction fuel as [|fuel IH]; intros a; [apply makes_undefined|].
  apply makes_then; [apply Hb|]. intros [a'|b]; [apply IH|by apply makes_ret].
Qed.

End logic.

(** ** The calls of one direction *)

(** Above passive level. *)
Definition elevated (e : env dev dp_ret) : Prop := ∀ w s, (e w KeGetCurrentIrql s).1 ≠ 0.

(** A call the callback of the queue's direction [n] may make: it uses the lease
    and the spin lock of its own frame queue, claims the wait for its own
    interest, and of the locks that make a thread sleep only tries the
    direct-read guard of the transmit direction.  Requests are a matter of the
    transmit direction, and at passive level only. *)
Definition within_direction (n : queue_name) (i : InstanceState) (high : Prop) (c : dp_call) : Prop :=
  match c with
  | OtherThreads | WdfMemory | WdfMemoryDelete _ | KeGetCurrentIrql | DbgPrintEx => True
  | AcquireLease n' | ReleaseLease n' => n' = n
  | WdfSpinLockAcquire lock | WdfSpinLockRelease lock => lock = queue_lock n i
  | ClaimWaitForPassiveCompletion interest =>
      interest = match n with Injection => ADAPTIVE_INTEREST_WRITABLE | Capture => ADAPTIVE_INTEREST_READABLE end
  | WdfWaitLockAcquire lock immediate =>
      n = Capture ∧ lock = legacy_direct_read_lock i ∧ immediate = true ∧ ¬ high
  | WdfWaitLockRelease lock => n = Capture ∧ lock = legacy_direct_read_lock i ∧ ¬ high
  | WdfIoQueueRetrieveNextRequest queue => n = Capture ∧ queue = read_queue i ∧ ¬ high
  | WdfRequestRetrieveOutputBuffer _ _ | WdfRequestComplete _ _
  | WdfRequestCompleteWithInformation _ _ _ => n = Capture ∧ ¬ high
  | WdfWorkItemEnqueue work_item => n = Capture ∧ work_item = read_work_item i
  | _ => False
  end.

Section direction.
Context (e : env dev dp_ret) (Henv : respects dp_contract e) (i : InstanceState) (high : Prop).

Abbreviation keeps n m := (makes e i (within_direction n i high) m (λ _, True)).

Ltac same_objects :=
  cbn; try rewrite own_objects_queue; try rewrite own_objects_counter;
  lazymatch goal with
  | H : own_objects (st ?s) = own_objects ?i |- own_objects (st ?s) = own_objects ?i => exact H
  | |- _ => congruence
  end.

(** One step of the program. *)
Ltac walk :=
  intros; cbn beta iota zeta;
  lazymatch goal with
  | |- makes _ _ _ (mret _) _ => by apply makes_ret
  | |- makes _ _ _ undefined _ => apply makes_undefined
  | |- makes _ _ _ (get ≫= _) _ => apply makes_get_then
  | |- makes _ _ _ (config _ ≫= _) _ => apply makes_config_then
  | |- makes _ _ _ (load _) _ => by apply makes_load
  | |- makes _ _ _ (_ ≫= _) _ => apply makes_then
  | |- makes _ _ _ (put _) _ => apply makes_put; [by same_objects|done]
  | |- makes _ _ _ (from_option _) _ => by apply makes_from_option
  | |- makes _ _ _ (do_call ?c) _ => refine (makes_call e Henv i _ c _ _ (λ _ _, I))
  | |- makes _ _ _ (match ?x with _ => _ end) _ => destruct x
  | |- within_direction _ _ _ _ => cbn; unfold own_objects in *; split_and?; solve [done|congruence]
  end.
Ltac walks := repeat first [progress intros | solve [eauto with makes] | walk].

Create HintDb makes.
#[local] Hint Extern 0 (makes _ _ _ _ _) => eassumption : makes.

Lemma keeps_record n x : keeps n (record x).
Proof. unfold record. walks. Qed.

Lemma keeps_modify n f : (∀ i, own_objects (f i) = own_objects i) → keeps n (modify f).
Proof. intros Hf. by apply makes_modify. Qed.

Lemma keeps_drop_frame n f : keeps n (drop_frame f).
Proof. pose proof keeps_record. unfold drop_frame. walks. Qed.
#[local] Hint Resolve keeps_record keeps_drop_frame : makes.

Lemma keeps_drop_frames n l : keeps n (drop_frames l).
Proof. induction l; cbn; walks. Qed.
#[local] Hint Resolve keeps_drop_frames : makes.

Lemma keeps_with_lock {A} n (m : D A) i' :
  own_objects i' = own_objects i → keeps n m → keeps n (with_lock (queue_lock n i') m).
Proof.
  intros Hi Hm. assert (queue_lock n i' = queue_lock n i) as -> by (destruct n; unfold own_objects in Hi; cbn; congruence).
  unfold with_lock, spin_acquire, spin_release. walks.
Qed.

Lemma keeps_queue_call n n' o : keeps n (queue_call n' o).
Proof. unfold queue_call, locked_queue. walks. Qed.
#[local] Hint Resolve keeps_queue_call : makes.

Lemma keeps_locked_queue n n' : keeps n (locked_queue n').
Proof. unfold locked_queue. walks. Qed.
#[local] Hint Resolve keeps_locked_queue : makes.

Lemma keeps_bump_generation n n' : keeps n (bump_generation n').
Proof. apply makes_modify; [done..|]. by destruct n'. Qed.
#[local] Hint Resolve keeps_bump_generation : makes.

Ltac walk_locked :=
  first
    [ progress intros | solve [eauto with makes]
    | lazymatch goal with
      | H : own_objects ?i' = own_objects i |- makes _ _ (within_direction ?n _ _) (with_lock (_ ?i') ?m) _ =>
          refine (keeps_with_lock n m i' H _)
      end
    | walk ].
Ltac walks_locked := repeat walk_locked.

Lemma keeps_enqueue_injection f : keeps Injection (enqueue_existing_injection_frame f).
Proof. unfold enqueue_existing_injection_frame. walks_locked. Qed.

Lemma keeps_dequeue_injection : keeps Injection dequeue_injection_frame.
Proof. unfold dequeue_injection_frame. walks_locked. Qed.

Lemma keeps_enqueue_capture f : keeps Capture (enqueue_existing_capture_frame f).
Proof. unfold enqueue_existing_capture_frame, claim_wait_for_passive_completion. walks_locked. Qed.
#[local] Hint Resolve keeps_enqueue_injection keeps_dequeue_injection keeps_enqueue_capture : makes.

Lemma keeps_load {A} n (f : InstanceState → A) : keeps n (load f).
Proof. by apply makes_load. Qed.
#[local] Hint Resolve keeps_load : makes.

Lemma keeps_owned_by n owner : keeps n (owned_by owner).
Proof. unfold owned_by. walks. Qed.
#[local] Hint Resolve keeps_owned_by : makes.

Lemma keeps_requeue_injection f owner : keeps Injection (requeue_injection_frame f owner).
Proof. unfold requeue_injection_frame. walks. Qed.
#[local] Hint Resolve keeps_requeue_injection : makes.

Section rings.
Context (B : bindings).

Lemma keeps_set_packet n a p : keeps n (set_packet a p).
Proof. unfold set_packet. walks. Qed.

Lemma keeps_set_fragment n a f : keeps n (set_fragment a f).
Proof. unfold set_fragment. walks. Qed.

Lemma keeps_set_packet_begin n x : keeps n (set_packet_begin x).
Proof. unfold set_packet_begin. walks. Qed.

Lemma keeps_set_fragment_begin n x : keeps n (set_fragment_begin x).
Proof. unfold set_fragment_begin. walks. Qed.

Lemma keeps_write_payload n a b : keeps n (write_payload a b).
Proof. unfold write_payload. walks. Qed.
#[local] Hint Resolve keeps_set_packet keeps_set_fragment keeps_set_packet_begin keeps_set_fragment_begin
  keeps_write_payload : makes.

Lemma keeps_inject_one owner : keeps Injection (inject_one B owner).
Proof. unfold inject_one, claim_wait_for_passive_completion. walks. Qed.

Lemma keeps_inject : keeps Injection (inject_receive_frames B).
Proof.
  unfold inject_receive_frames, repeat_while. pose proof keeps_inject_one. walks.
  apply makes_loop. walks.
Qed.

(** *** Transmit *)

Lemma keeps_release_request n c : keeps n (release_request c).
Proof. unfold release_request. walk; [apply keeps_modify; intros; apply own_objects_counter|]. walks. Qed.

Lemma keeps_write_output n q offset b : keeps n (write_output q offset b).
Proof. unfold write_output. walks. Qed.
#[local] Hint Resolve keeps_release_request keeps_write_output : makes.

Lemma keeps_copy_to_output n q count index offset : keeps n (copy_to_output B q count index offset).
Proof. revert index offset. induction count; intros; cbn [copy_to_output]; walks. Qed.
#[local] Hint Resolve keeps_copy_to_output : makes.

Lemma keeps_new_frame n make : keeps n (new_frame make).
Proof. unfold new_frame. walks. Qed.
#[local] Hint Resolve keeps_new_frame : makes.

Section passive.
Context (Hlow : ¬ high).

Lemma keeps_complete q status : keeps Capture (complete_request q status).
Proof. unfold complete_request, finish_request. walks. Qed.

Lemma keeps_complete_with q status n : keeps Capture (complete_request_with_information q status n).
Proof. unfold complete_request_with_information, finish_request. walks. Qed.
#[local] Hint Resolve keeps_complete keeps_complete_with : makes.

Lemma keeps_fill_read q index count total : keeps Capture (fill_read B q index count total).
Proof. unfold fill_read, release_legacy_direct_read_claim. walks. Qed.
#[local] Hint Resolve keeps_fill_read : makes.

Lemma keeps_claim_direct_read queue index count total owner :
  queue = read_queue i → keeps Capture (claim_direct_read B queue index count total owner).
Proof.
  intros ->. unfold claim_direct_read, retrieve_next_request.
  assert (∀ f, (∀ j, own_objects (f j) = own_objects j) → keeps Capture (modify f)) as Hm by (intros; by apply keeps_modify).
  walks.
Qed.
#[local] Hint Resolve keeps_claim_direct_read : makes.

Lemma keeps_deliver queue index count total owner :
  queue = read_queue i → keeps Capture (deliver_transmit_packet_to_read B queue index count total owner).
Proof. intros. unfold deliver_transmit_packet_to_read, guard_acquire, guard_release. walks. Qed.

End passive.

Context (Hhigh : high → elevated e).

Lemma at_passive_low : makes e i (within_direction Capture i high) at_passive_level (λ b, b = true → ¬ high).
Proof.
  unfold at_passive_level. eapply makes_bind.
  - refine (makes_call e Henv i _ KeGetCurrentIrql (λ r, r = 0 → ¬ high) I _). intros w s Hr Hh. by apply (Hhigh Hh w s).
  - intros r Hr. apply makes_ret. intros H%Z.eqb_eq. auto.
Qed.

Lemma keeps_deliver_at_once k queue total owner :
  queue = read_queue i → keeps Capture (deliver_at_once B k queue total owner).
Proof.
  intros Hq. unfold deliver_at_once. walk; [walks|]. intros adaptive.
  apply (makes_bind _ _ _ _ _ (λ b, b = true → ¬ high)).
  - destruct adaptive; [by apply makes_ret|apply at_passive_low].
  - intros [] Hb; [|walks]. apply keeps_deliver; auto.
Qed.
#[local] Hint Resolve keeps_deliver_at_once : makes.

Lemma keeps_advance_both n a b c : keeps n (advance_both a b c).
Proof. unfold advance_both. walks. Qed.

Lemma keeps_skip_packet n a k b : keeps n (skip_packet a k b).
Proof. unfold skip_packet. walks. Qed.
#[local] Hint Resolve keeps_advance_both keeps_skip_packet : makes.

Lemma keeps_queue_captured a k f count total owner : keeps Capture (queue_captured B a k f count total owner).
Proof. unfold queue_captured. walks. Qed.
#[local] Hint Resolve keeps_queue_captured : makes.

Lemma keeps_capture_in_frame a k b pool total owner : keeps Capture (capture_in_frame B a k b pool total owner).
Proof. unfold capture_in_frame, finish_packet, Frame_new_call. walks. Qed.
#[local] Hint Resolve keeps_capture_in_frame : makes.

Lemma keeps_capture_one queue maximum pool owner :
  queue = read_queue i → keeps Capture (capture_one B queue maximum pool owner).
Proof. intros Hq. unfold capture_one, capture_packet, finish_packet. walks. Qed.

Lemma keeps_capture queue item maximum pool :
  queue = read_queue i → item = read_work_item i → keeps Capture (capture_transmit_packets B queue item maximum pool).
Proof.
  intros Hq Hw. unfold capture_transmit_packets, enqueue_work_item. walks.
  apply makes_loop. intros queued. pose proof (keeps_capture_one queue maximum pool) as Hone. walks.
Qed.

Lemma keeps_advance (transmit : bool) :
  keeps (if transmit then Capture else Injection) (evt_packet_queue_advance B (Some (transmit, true))).
Proof.
  unfold evt_packet_queue_advance. pose proof keeps_inject. pose proof keeps_capture.
  destruct transmit; walks. apply keeps_capture; unfold own_objects in *; congruence.
Qed.

End rings.
End direction.

(** C12: the two directions of the data path keep out of each other's way.
    [evt_packet_queue_advance] of one direction returns, and among all the calls
    it made on the way there is no acquisition of a lock but the spin lock of
    its own frame queue and, in the transmit direction, an attempt at the
    direct-read guard that does not wait; it takes its own lease only and claims
    the adaptive wait for its own interest only.  The receive direction never
    touches a request; the transmit direction retrieves and completes reads
    only when it is called at passive level. *)
Theorem directions_isolated (B : bindings) (e : env dev dp_ret) (transmit : bool) (p f : NET_RING)
    (s : dev) (w : world dp_ret) (Henv : respects dp_contract e) (Hs : idle s)
    (Hrings : rings_ok B (memory_of s) p f) (Hapart : buffers_apart (memory_of s) f)
    (Hmaximum : fits usize_bits (frame_maximum (st s)))
    (Hguard : legacy_direct_read_lock (st s) ∉ guards s) :
  wp e (evt_packet_queue_advance B (Some (transmit, true))) (λ _ _ w', ∃ l, w' = l ++ w ∧
    Forall (λ x, within_direction (if transmit then Capture else Injection) (st s) (elevated e) (projT1 x)) l) s w.
Proof.
  assert (∃ s' w', evt_packet_queue_advance B (Some (transmit, true)) e s w = Some (tt, s', w')) as (s' & w' & Hrun).
  { destruct transmit.
    - destruct (wp_advance_transmit B e Henv (memory_of s) p f (λ _ _ _, True) s w) as ([] & s' & w' & H & _); eauto.
    - destruct (wp_advance_receive B e Henv p f (λ _ _ _, True) s w) as ([] & s' & w' & H & _); eauto. }
  exists tt, s', w'. split; [exact Hrun|].
  by destruct (keeps_advance e Henv (st s) (elevated e) B id transmit s w tt s' w' eq_refl Hrun) as (_ & _ & Hl).
Qed.

(** At dispatch level, on the example's rings: no call on a request. *)
Lemma directions_isolated_witness :
  elevated quiet_framework ∧
  ∃ s' w', evt_packet_queue_advance example_bindings (Some (true, true)) quiet_framework example_dev []
    = Some (tt, s', w') ∧
    Forall (λ x, within_direction Capture example_instance (elevated quiet_framework) (projT1 x)) w'.
Proof.
  split; [done|].
  destruct (directions_isolated example_bindings quiet_framework true example_packets example_fragments example_dev []
    quiet_framework_respects example_idle example_rings example_apart example_maximum (not_elem_of_empty 51))
    as ([] & s' & w' & Hrun & l & -> & Hl). exists s', (l ++ []). split; [exact Hrun|]. rewrite app_nil_r. exact Hl.
Defined.
