(* ===== verification/Lifecycle.v ===== *)
(** * The packet driver's life cycle: power, hardware, owner and adapter callbacks
    ([wintap-netadaptercx-driver/src/lib.rs])

    Everything that opens and closes the data path: D0 entry and exit, prepare
    and release hardware with the adapter's configuration, the creation, start
    and stop of packet queues, the receive filter, and the owner's file and
    control requests.

    The handlers are programs over the same state and calls as [Datapath]; the
    quiesce scopes ([Lease]) and the adaptive wait ([WaitProtocol]) are calls.
    [with_state] is an [InstanceStateGuard]: the fields it guards are undefined
    to touch without the lock.  Two rules of the source's comments are part of
    the model: a call that may wait is undefined while a spin lock is held, and
    so is closing the admissions while a wait lock is held, since a leased
    callback may wait for it.  Every life-cycle call is recorded in [log]. *)

From S2P Require Import Prelude Words DriverConstants Effects Ring FrameQueue Datapath DatapathPaths.

(** ** Constants *)

Definition MAXIMUM_MULTICAST_ADDRESSES : Z := 64.
Definition ETHERNET_ADDRESS_LENGTH : Z := 6.

(** Values of the NetAdapterCx headers, from the generated bindings. *)
Record adapter_constants := {
  MediaConnectStateConnected : Z;
  MediaDuplexStateFull : Z;
  PauseFunctionTypeUnsupported : Z;
  AutoNegotiationFlagNone : Z;
  MemoryMappingRequirementNone : Z;
  AllocationModeSystem : Z;
  AttachmentModeSystem : Z;
  PacketFilterFlagDirected : Z;
  PacketFilterFlagBroadcast : Z;
  PacketFilterFlagMulticast : Z;
  PacketFilterFlagAllMulticast : Z;
  PacketFilterFlagPromiscuous : Z;
}.

(** ** Calls *)

(** A call at [PASSIVE_LEVEL]. *)
Definition passive {A} (m : D A) : D A :=
  s ← get; if decide (held s = ∅) then m else undefined.

Definition announce (c : dp_call) : D (dp_ret c) := _ ← record (Called c); do_call c.

Definition quiesce_datapath_callbacks (closer : Z) : D unit :=
  s ← get;
  if decide (held s = ∅ ∧ guards s = ∅) then announce (QuiesceDatapathCallbacks closer)
  else undefined.

Definition resume_datapath_callbacks (closer : Z) : D unit :=
  announce (ResumeDatapathCallbacks closer).

Definition cancel_wait_for_teardown : D unit := passive (announce CancelWaitForTeardown).

Definition purge_queue (queue : Z) : D unit :=
  if queue =? 0 then mret tt else passive (announce (WdfIoQueuePurgeSynchronously queue)).

Definition resume_manual_queue (queue : Z) : D unit :=
  if queue =? 0 then mret tt else announce (WdfIoQueueStart queue).

Definition flush_work_item (work_item : Z) : D unit :=
  if work_item =? 0 then mret tt else passive (announce (WdfWorkItemFlush work_item)).

(** ** The state lock *)

(** [None]: there is no lock. *)
Definition with_state {A} (m : D A) : D (option A) :=
  lock ← config state_lock;
  if lock =? 0 then mret None else r ← with_lock lock m; mret (Some r).

Definition locked_state {A} (f : InstanceState → A) : D A :=
  s ← get;
  if decide (state_lock (st s) ∈ held s) then mret (f (st s)) else undefined.

Definition update_state (f : InstanceState → InstanceState) : D unit :=
  s ← get;
  if decide (state_lock (st s) ∈ held s) then put (s <| st := f (st s) |>) else undefined.

Definition store_lifecycle (v : Z) : D unit := modify (λ i, i <| lifecycle := v |>).

(** Whether it was [current]. *)
Definition compare_exchange_lifecycle (current new : Z) : D bool :=
  _ ← call OtherThreads;
  s ← get;
  if lifecycle (st s) =? current
  then _ ← put (s <| st := (st s) <| lifecycle := new |> |>); mret true
  else mret false.

(** Both wait locks, in the order every teardown takes them; [None]: one was not
    acquired. *)
Definition with_guards {A} (m : D A) : D (option A) :=
  direct ← config legacy_direct_read_lock;
  acquired ← passive (guard_acquire direct false);
  if negb acquired then mret None
  else
    lifetime ← config write_lifetime_lock;
    acquired ← passive (guard_acquire lifetime false);
    r ← (if acquired : bool then r ← m; _ ← guard_release lifetime; mret (Some r)
         else mret None);
    _ ← guard_release direct;
    mret r.

(** ** Packet queues *)

Definition evt_packet_queue_start (context : option (bool * bool)) : D unit :=
  match context with
  | Some (is_transmit, true) =>
      if is_transmit : bool then modify (λ i, i <| tx_queue_started := true |>)
      else modify (λ i, i <| rx_queue_started := true |>)
  | _ => mret tt
  end.

Definition evt_packet_queue_stop (context : option (bool * bool)) : D unit :=
  match context with
  | Some (is_transmit, true) =>
      _ ← (if is_transmit : bool then modify (λ i, i <| tx_queue_started := false |>)
           else
             _ ← modify (λ i, i <| rx_queue_started := false |>);
             modify (λ i, i <| rx_notification_armed := false |>));
      _ ← cancel_wait_for_teardown;
      work_item ← config read_work_item;
      flush_work_item work_item
  | _ => mret tt
  end.

Record QueueContext := {
  is_transmit : bool;
  rings : option NET_RING * option NET_RING;
  fragment_extension : NET_EXTENSION;
  context_frame_maximum : Z;
  context_frame_pool : Z;
}.

(** [adapter_found]: the adapter's context names an instance; [context_found]:
    the queue has a context.  The context as it is written, if it is. *)
Definition create_packet_queue (adapter_found context_found transmit : bool) :
    D (Z * option QueueContext) :=
  created ← call (NetPacketQueueCreate transmit);
  _ ← call DbgPrintEx;
  let '(status, packet_queue) := created in
  if negb (status =? STATUS_SUCCESS) then mret (status, None)
  else if negb adapter_found then mret (STATUS_DEVICE_NOT_READY, None)
  else if negb context_found then mret (STATUS_INSUFFICIENT_RESOURCES, None)
  else
    found ← call (NetPacketQueueGetRingCollection transmit packet_queue);
    extension ← call (NetPacketQueueGetExtension transmit packet_queue);
    match found with
    | None => mret (STATUS_DEVICE_NOT_READY, None)
    | Some collection =>
        limits ← with_state (
          maximum ← locked_state frame_maximum;
          pool ← locked_state frame_pool;
          _ ← update_state (λ i, if transmit then i <| tx_queue := packet_queue |>
                                 else i <| rx_queue := packet_queue |>);
          mret (maximum, pool));
        match limits with
        | None => mret (STATUS_DEVICE_NOT_READY, None)
        | Some (maximum, pool) =>
            mret (status, Some {| is_transmit := transmit; rings := collection;
              fragment_extension := extension; context_frame_maximum := maximum;
              context_frame_pool := pool |})
        end
    end.

(** ** The receive filter *)

Record NET_ADAPTER_LINK_LAYER_ADDRESS := { Length : Z; Address : list Z }.

(** What the getters of a [NETRECEIVEFILTER] return. *)
Record receive_filter := {
  packet_filter : Z;
  multicast_address_count : Z;
  multicast_address_list : option (list NET_ADAPTER_LINK_LAYER_ADDRESS);
}.

(** [table[index + k] = l[k]] for every [k]; an index out of range panics. *)
Fixpoint store_addresses (index : nat) (l table : list (list Z)) : option (list (list Z)) :=
  match l with
  | [] => Some table
  | a :: l =>
      if decide (index < Datatypes.length table)%nat
      then store_addresses (Datatypes.S index) l (<[index := a]> table)
      else None
  end.

Definition zero_address : list Z := replicate (Z.to_nat ETHERNET_ADDRESS_LENGTH) 0.

Definition update_receive_filter_state (packet_filters : Z) (multicast_addresses : list (list Z))
    (i : InstanceState) : option InstanceState :=
  let n := Datatypes.length multicast_addresses in
  table ← store_addresses 0 multicast_addresses (active_multicast_addresses i);
  table ← store_addresses n (replicate (Z.to_nat MAXIMUM_MULTICAST_ADDRESSES - n) zero_address) table;
  Some (i <| active_packet_filters := packet_filters |>
          <| active_multicast_address_count := Z.of_nat n |>
          <| active_multicast_addresses := table |>).

Definition clear_receive_filter_state (i : InstanceState) : option InstanceState :=
  update_receive_filter_state 0 [] i.

(** The first [count] addresses of the list, six bytes each. *)
Definition copy_addresses (l : list NET_ADAPTER_LINK_LAYER_ADDRESS) (count : nat) :
    option (list (list Z)) :=
  mapM (λ index,
    address ← l !! index;
    if ETHERNET_ADDRESS_LENGTH <=? len (Address address)
    then Some (take (Z.to_nat ETHERNET_ADDRESS_LENGTH) (Address address)) else None) (seq 0 count).

(** An update that can panic, under the state lock. *)
Definition try_update_state (f : InstanceState → option InstanceState) : D unit :=
  s ← get;
  if decide (state_lock (st s) ∈ held s)
  then i ← from_option (f (st s)); put (s <| st := i |>)
  else undefined.

Definition publish_filter (found : bool) (packet_filters : Z) (addresses : list (list Z)) : D unit :=
  if negb found then mret tt
  else _ ← with_state (try_update_state (update_receive_filter_state packet_filters addresses)); mret tt.

Definition evt_set_receive_filter (found : bool) (filter : receive_filter) : D unit :=
  let requested := multicast_address_count filter in
  let count := Z.min requested MAXIMUM_MULTICAST_ADDRESSES in
  _ ← (if requested =? count then mret tt else call DbgPrintEx);
  if count =? 0 then publish_filter found (packet_filter filter) []
  else
    match multicast_address_list filter with
    | None => _ ← call DbgPrintEx; publish_filter found (packet_filter filter) []
    | Some l =>
        addresses ← from_option (copy_addresses l (Z.to_nat count));
        publish_filter found (packet_filter filter) addresses
    end.

(** ** Power *)

(** The read queue, its work item, and whether the owner polls adaptively. *)
Definition read_side : D (option (Z * Z * bool)) :=
  with_state (
    read_queue ← locked_state read_queue;
    work_item ← locked_state read_work_item;
    adaptive ← load adaptive_enabled;
    mret (read_queue, work_item, adaptive)).

Definition purge_manual_reads (adaptive : bool) (queue : Z) : D unit :=
  if adaptive then mret tt else purge_queue queue.

Definition clear_pending : D unit :=
  _ ← modify (λ i, i <| pending_reads := 0 |>); modify (λ i, i <| pending_writes := 0 |>).

Definition evt_device_d0_entry (found : bool) : D Z :=
  if negb found then mret STATUS_SUCCESS
  else
    side ← with_state (
      queue ← locked_state read_queue;
      adaptive ← load adaptive_enabled;
      mret (queue, adaptive));
    match side with
    | None => mret STATUS_DEVICE_NOT_READY
    | Some (queue, adaptive) =>
        _ ← (if adaptive : bool then mret tt else resume_manual_queue queue);
        _ ← reopen_frame_queues;
        published ← with_state (store_lifecycle INSTANCE_OPEN);
        match published with
        | None => mret STATUS_DEVICE_NOT_READY
        | Some _ => _ ← resume_datapath_callbacks DATAPATH_CLOSED_POWER; mret STATUS_SUCCESS
        end
    end.

Definition d0_exit_guarded : D Z :=
  side ← read_side;
  match side with
  | None => mret STATUS_DEVICE_NOT_READY
  | Some (queue, work_item, adaptive) =>
      _ ← cancel_wait_for_teardown;
      _ ← flush_work_item work_item;
      _ ← purge_manual_reads adaptive queue;
      _ ← clear_frame_queues;
      cleared ← with_state (
        _ ← clear_pending; modify (λ i, i <| rx_notification_armed := false |>));
      mret (if cleared is Some _ then STATUS_SUCCESS else STATUS_DEVICE_NOT_READY)
  end.

Definition evt_device_d0_exit (found : bool) : D Z :=
  if negb found then mret STATUS_SUCCESS
  else
    stored ← with_state (store_lifecycle INSTANCE_SUSPENDED);
    match stored with
    | None => mret STATUS_DEVICE_NOT_READY
    | Some _ =>
        _ ← quiesce_datapath_callbacks DATAPATH_CLOSED_POWER;
        status ← with_guards d0_exit_guarded;
        mret (default STATUS_DEVICE_NOT_READY status)
    end.

(** ** Hardware *)

Section hardware.
Context (C : adapter_constants).

Definition connected : NET_ADAPTER_LINK_STATE := {|
  TxLinkSpeed := 1000000000;
  RxLinkSpeed := 1000000000;
  MediaConnectState := MediaConnectStateConnected C;
  MediaDuplexState := MediaDuplexStateFull C;
  SupportedPauseFunctions := PauseFunctionTypeUnsupported C;
  AutoNegotiationFlags := AutoNegotiationFlagNone C |}.

(** [None]: an index of the address is out of range. *)
Definition link_layer_address (mac : list Z) : option (list Z) :=
  if ETHERNET_ADDRESS_LENGTH <=? len mac
  then Some (take (Z.to_nat ETHERNET_ADDRESS_LENGTH) mac ++ replicate 26 0) else None.

Definition configure_adapter_link_state (adapter : Z) (mac_address : list Z) (mtu : Z) : D unit :=
  _ ← announce (NetAdapterSetLinkLayerCapabilities adapter 1000000000 1000000000);
  _ ← announce (NetAdapterSetLinkLayerMtuSize adapter (wrap 32 mtu));
  address ← from_option (link_layer_address mac_address);
  _ ← announce (NetAdapterSetPermanentLinkLayerAddress adapter 6 address);
  _ ← announce (NetAdapterSetCurrentLinkLayerAddress adapter 6 address);
  announce (NetAdapterSetLinkState adapter connected).

Definition tx_capabilities : NET_ADAPTER_TX_CAPABILITIES := {|
  MappingRequirement := MemoryMappingRequirementNone C;
  PayloadBackfill := 0;
  MaximumNumberOfFragments := u64_max;
  TxFragmentBufferAlignment := 1;
  TxFragmentRingNumberOfElementsHint := 0;
  TxMaximumNumberOfQueues := 1;
  DmaCapabilities := 0 |}.

Definition rx_capabilities (frame_maximum : Z) : NET_ADAPTER_RX_CAPABILITIES := {|
  AllocationMode := AllocationModeSystem C;
  AttachmentMode := AttachmentModeSystem C;
  RxFragmentRingNumberOfElementsHint := 0;
  MaximumFrameSize := frame_maximum;
  RxMaximumNumberOfQueues := 1;
  RxFragmentBufferAlignment := 1 |}.

Definition supported_packet_filters : Z :=
  Z.lor (Z.lor (Z.lor (Z.lor (PacketFilterFlagDirected C) (PacketFilterFlagBroadcast C))
    (PacketFilterFlagMulticast C)) (PacketFilterFlagAllMulticast C)) (PacketFilterFlagPromiscuous C).

Definition evt_device_prepare_hardware (found : bool) : D Z :=
  if negb found then mret STATUS_DEVICE_NOT_READY
  else
    config ← with_state (
      _ ← store_lifecycle INSTANCE_CLOSING;
      adapter ← locked_state adapter;
      mac ← locked_state mac_address;
      mtu ← locked_state mtu;
      maximum ← locked_state frame_maximum;
      mret (adapter, mac, mtu, maximum));
    match config with
    | None => mret STATUS_DEVICE_NOT_READY
    | Some (adapter, mac, mtu, maximum) =>
        if adapter =? 0 then mret STATUS_INSUFFICIENT_RESOURCES
        else
          _ ← configure_adapter_link_state adapter mac mtu;
          _ ← announce (NetAdapterSetDataPathCapabilities adapter tx_capabilities
                          (rx_capabilities maximum));
          _ ← call DbgPrintEx;
          _ ← announce (NetAdapterSetReceiveFilterCapabilities adapter supported_packet_filters
                          MAXIMUM_MULTICAST_ADDRESSES);
          _ ← call DbgPrintEx;
          _ ← resume_datapath_callbacks DATAPATH_CLOSED_HARDWARE;
          _ ← call DbgPrintEx;
          status ← announce (NetAdapterStart adapter);
          _ ← call DbgPrintEx;
          mret status
    end.

End hardware.

Definition release_hardware_guarded (queue work_item : Z) (adaptive : bool) : D Z :=
  _ ← cancel_wait_for_teardown;
  _ ← flush_work_item work_item;
  _ ← purge_manual_reads adaptive queue;
  _ ← flush_work_item work_item;
  _ ← clear_frame_queues;
  released ← with_state (
    _ ← try_update_state clear_receive_filter_state;
    _ ← clear_pending;
    _ ← update_state (λ i, i <| tx_queue := 0 |>);
    _ ← update_state (λ i, i <| rx_queue := 0 |>);
    _ ← modify (λ i, i <| tx_queue_started := false |>);
    _ ← modify (λ i, i <| rx_queue_started := false |>);
    _ ← modify (λ i, i <| rx_notification_armed := false |>);
    _ ← update_state (λ i, i <| adapter := 0 |>);
    store_lifecycle INSTANCE_CLOSED);
  mret (if released is Some _ then STATUS_SUCCESS else STATUS_DEVICE_NOT_READY).

Definition evt_device_release_hardware (found : bool) : D Z :=
  if negb found then mret STATUS_DEVICE_NOT_READY
  else
    side ← with_state (
      _ ← store_lifecycle INSTANCE_CLOSING;
      adapter ← locked_state adapter;
      queue ← locked_state read_queue;
      work_item ← locked_state read_work_item;
      adaptive ← load adaptive_enabled;
      mret (adapter, queue, work_item, adaptive));
    match side with
    | None => mret STATUS_DEVICE_NOT_READY
    | Some (adapter, queue, work_item, adaptive) =>
        _ ← (if adapter =? 0 then mret tt else passive (announce (NetAdapterStop adapter)));
        _ ← quiesce_datapath_callbacks DATAPATH_CLOSED_HARDWARE;
        status ← with_guards (release_hardware_guarded queue work_item adaptive);
        mret (default STATUS_DEVICE_NOT_READY status)
    end.

(** ** The owner *)

Definition evt_file_create (found : bool) (request : Z) : D unit :=
  if negb found then complete_request request STATUS_DEVICE_NOT_READY
  else
    _ ← call OtherThreads;
    s ← get;
    if control_open (st s) then complete_request request STATUS_DEVICE_BUSY
    else
      _ ← put (s <| st := (st s) <| control_open := true |> |>);
      complete_request request STATUS_SUCCESS.

Definition evt_file_close : D unit := mret tt.

(** Under both wait locks; true: the owner closer was released here. *)
Definition cleanup_guarded (owns_lifecycle : bool) : D bool :=
  side ← read_side;
  match side with
  | None => mret false
  | Some (queue, work_item, adaptive) =>
      _ ← cancel_wait_for_teardown;
      _ ← flush_work_item work_item;
      _ ← purge_manual_reads adaptive queue;
      _ ← clear_frame_queues;
      should_resume ← with_state (
        should_resume ←
          (if owns_lifecycle then
             now ← load lifecycle;
             if now =? INSTANCE_OWNER_CLOSING
             then adapter ← locked_state adapter; mret (negb (adapter =? 0))
             else mret false
           else mret false);
        _ ← clear_pending;
        _ ← modify (λ i, i <| adaptive_enabled := false |>);
        _ ← modify (λ i, i <| control_open := false |>);
        mret should_resume);
      match should_resume with
      | Some true =>
          _ ← reopen_frame_queues;
          resumed ← with_state (compare_exchange_lifecycle INSTANCE_OWNER_CLOSING INSTANCE_OPEN);
          if (resumed : option bool) is Some true then
            _ ← resume_datapath_callbacks DATAPATH_CLOSED_OWNER;
            _ ← resume_manual_queue queue;
            mret true
          else mret false
      | _ => mret false
      end
  end.

Definition evt_file_cleanup (found : bool) : D unit :=
  if negb found then mret tt
  else
    owns ← with_state (
      _ ← modify (λ i, i <| owner_generation := wrap 64 (owner_generation i + 1) |>);
      compare_exchange_lifecycle INSTANCE_OPEN INSTANCE_OWNER_CLOSING);
    match owns with
    | None => mret tt
    | Some owns_lifecycle =>
        _ ← quiesce_datapath_callbacks DATAPATH_CLOSED_OWNER;
        released ← with_guards (cleanup_guarded owns_lifecycle);
        if default false released then mret tt
        else resume_datapath_callbacks DATAPATH_CLOSED_OWNER
    end.

(** ** Control requests *)

Definition le_u32 (b : list Z) (offset : nat) : Z := read_le b offset 4.

(** The version and flags of an [AdaptiveEnableRequest]. *)
Definition enable_supported (version flags : Z) : bool :=
  (version =? ADAPTIVE_POLLING_PROTOCOL_VERSION) && negb (flags =? 0)
  && (Z.land flags (not_w 32 ADAPTIVE_INTEREST_SUPPORTED) =? 0).

(** Under the direct-read guard: the status, success if it was enabled. *)
Definition try_enable_adaptive : D Z :=
  enabled ← with_state (
    now ← load lifecycle;
    if negb (now =? INSTANCE_OPEN) then mret STATUS_DEVICE_NOT_READY
    else
      adaptive ← load adaptive_enabled;
      reads ← (if adaptive : bool then mret 1 else load pending_reads);
      claims ← (if reads =? 0 then load legacy_direct_read_claims else mret 1);
      if negb (claims =? 0) then mret STATUS_DEVICE_BUSY
      else _ ← modify (λ i, i <| adaptive_enabled := true |>); mret STATUS_SUCCESS);
  mret (default STATUS_DEVICE_NOT_READY enabled).

Definition handle_enable_adaptive_polling (request output_length input_length : Z) : D unit :=
  if negb ((input_length =? size_of_AdaptiveEnableRequest)
           && (output_length =? size_of_AdaptiveEnableResponse))
  then complete_request request STATUS_INVALID_BUFFER_SIZE
  else
    '(status, actual) ← call (WdfRequestRetrieveInputBuffer request size_of_AdaptiveEnableRequest);
    if negb (status =? STATUS_SUCCESS) || negb (actual =? size_of_AdaptiveEnableRequest)
    then complete_request request (if status =? STATUS_SUCCESS then STATUS_INVALID_BUFFER_SIZE else status)
    else
      s ← get;
      input ← from_option (inputs s !! request);
      let flags := le_u32 input 4 in
      if negb (enable_supported (le_u32 input 0) flags)
      then complete_request request STATUS_NOT_SUPPORTED
      else
        '(status, actual) ←
          call (WdfRequestRetrieveOutputBuffer request size_of_AdaptiveEnableResponse);
        if negb (status =? STATUS_SUCCESS) || (actual <? size_of_AdaptiveEnableResponse)
        then complete_request request (if status =? STATUS_SUCCESS then STATUS_BUFFER_TOO_SMALL else status)
        else
          lock ← config legacy_direct_read_lock;
          acquired ← guard_acquire lock true;
          if negb acquired then complete_request request STATUS_DEVICE_BUSY
          else
            status ← try_enable_adaptive;
            _ ← (if status =? STATUS_SUCCESS then
                   _ ← write_output request 0
                         (le_bytes 4 ADAPTIVE_POLLING_PROTOCOL_VERSION ++ le_bytes 4 flags);
                   complete_request_with_information request STATUS_SUCCESS
                     size_of_AdaptiveEnableResponse
                 else complete_request request status);
            guard_release lock.

(** The adaptive wait takes the request over. *)
Definition handle_wait_for_change (request output_length input_length : Z) : D unit :=
  s ← get;
  if decide (request ∈ owned s) then
    _ ← put (s <| owned := owned s ∖ {[request]} |> <| inputs := delete request (inputs s) |>
               <| outputs := delete request (outputs s) |>);
    announce (HandleWaitForChange request output_length input_length)
  else undefined.

Definition evt_io_device_control (found : bool) (request output_length input_length ioctl : Z) : D unit :=
  if negb found then complete_request request STATUS_DEVICE_NOT_READY
  else if ioctl =? TAP_IOCTL_ENABLE_ADAPTIVE_POLLING
  then handle_enable_adaptive_polling request output_length input_length
  else if ioctl =? TAP_IOCTL_WAIT_FOR_CHANGE
  then handle_wait_for_change request output_length input_length
  else complete_request request STATUS_INVALID_DEVICE_REQUEST.

(** A request of the control queue belongs to the adaptive wait: it is not owned
    here, and not touched. *)
Definition evt_io_stop (found : bool) (queue request : Z) : D unit :=
  if negb found then complete_request request STATUS_CANCELLED
  else
    manual ← config read_queue;
    if queue =? manual then
      _ ← release_request PendingReads;
      complete_request request STATUS_CANCELLED
    else
      active ← call (WaitRequestIsActive request);
      if active : bool then _ ← call (CancelWaitRequestForTeardown request); mret tt else mret tt.
