(* ===== verification/LifecycleSpec.v ===== *)
(** * The packet driver's life cycle: what the handlers do

    Every handler of [Lifecycle] under every environment of the contract of
    [DatapathSpec]: the calls it makes and the frames it frees, in order, on
    every path. *)

From S2P Require Import Prelude Words DriverConstants Effects Ring FrameQueue Datapath DatapathPaths DatapathSpec DatapathRequests Lifecycle.

(** The two wait locks are different objects. *)
Definition locks_distinct (i : InstanceState) : Prop :=
  legacy_direct_read_lock i ≠ write_lifetime_lock i.

(** A handler of the life cycle starts with no lock held. *)
Definition at_rest (s : dev) : Prop := idle s ∧ guards s = ∅ ∧ locks_distinct (st s).

Lemma at_rest_acts l s s' : at_rest s → acts l s s' → at_rest s'.
Proof.
  intros (Hs & Hg & Hl) A. split; [by eapply idle_acts|]. split; [by rewrite (acts_guards _ _ _ A)|].
  unfold locks_distinct. by rewrite (cs_direct_lock _ _ (ac_config _ _ _ A)), (cs_lifetime_lock _ _ (ac_config _ _ _ A)).
Qed.

(** ** The receive filter *)

Lemma store_addresses_spec index l table :
  (index + Datatypes.length l ≤ Datatypes.length table)%nat →
  store_addresses index l table = Some (take index table ++ l ++ drop (index + Datatypes.length l) table).
Proof.
  revert index table. induction l as [|a l IH]; intros index table Hl; cbn in Hl |- *.
  { rewrite Nat.add_0_r, take_drop. done. }
  rewrite decide_True by lia. rewrite IH by (rewrite length_insert; lia). f_equal.
  rewrite (take_S_r _ index a) by (rewrite list_lookup_insert_eq by lia; done).
  rewrite take_insert_ge by lia. rewrite drop_insert_lt by lia. rewrite <- app_assoc. cbn.
  by replace (index + Datatypes.S (Datatypes.length l))%nat with (Datatypes.S (index + Datatypes.length l)) by lia.
Qed.

(** The table after an update: the new addresses, and zeros behind them. *)
Definition filter_table (l : list (list Z)) : list (list Z) :=
  l ++ replicate (Z.to_nat MAXIMUM_MULTICAST_ADDRESSES - Datatypes.length l) zero_address.

Lemma update_receive_filter_state_spec filters l i :
  len (active_multicast_addresses i) = 64 → len l ≤ 64 →
  update_receive_filter_state filters l i = Some (i <| active_packet_filters := filters |>
    <| active_multicast_address_count := len l |> <| active_multicast_addresses := filter_table l |>).
Proof.
  unfold len. intros Ht Hl. unfold update_receive_filter_state.
  rewrite store_addresses_spec by lia. cbn.
  change (Z.to_nat MAXIMUM_MULTICAST_ADDRESSES) with 64%nat.
  rewrite store_addresses_spec.
  2: { rewrite !length_app, length_drop, length_replicate. lia. }
  cbn. do 2 f_equal. rewrite take_0, app_nil_l, length_replicate, take_app_length,
    drop_ge by (rewrite length_app, length_drop; lia).
  by rewrite app_nil_r.
Qed.

Lemma filter_table_ok filters l i :
  len l ≤ 64 → Forall (λ a, len a = 6) l →
  filter_ok (i <| active_packet_filters := filters |> <| active_multicast_address_count := len l |>
               <| active_multicast_addresses := filter_table l |>).
Proof.
  unfold len. intros Hl Ha. unfold filter_table. change (Z.to_nat MAXIMUM_MULTICAST_ADDRESSES) with 64%nat.
  split; cbn; unfold len.
  - rewrite length_app, length_replicate. lia.
  - rewrite length_app, length_replicate. lia.
  - apply Forall_app. split; [done|]. by apply Forall_replicate.
  - rewrite Nat2Z.id, drop_app_length. f_equal. lia.
Qed.

Lemma copy_addresses_ok l count addresses :
  copy_addresses l count = Some addresses →
  Datatypes.length addresses = count ∧ Forall (λ a, len a = 6) addresses ∧
  addresses = (λ a, take 6 (Address a)) <$> take count l.
Proof.
  unfold copy_addresses. intros H%mapM_Some. split_and!.
  - by rewrite <- (Forall2_length _ _ _ H), length_seq.
  - apply Forall_forall. intros a Ha. apply list_elem_of_lookup in Ha as [k Hk].
    destruct (Forall2_lookup_r _ _ _ _ _ H Hk) as (j & _ & Hj). cbn in Hj.
    destruct (l !! j) as [b|]; cbn in Hj; [|done]. split_if_in Hj; [|done]. bool_reflect.
    injection Hj as <-. unfold len in *. rewrite length_take. unfold ETHERNET_ADDRESS_LENGTH in *. lia.
  - apply list_eq. intros k. rewrite list_lookup_fmap.
    destruct (addresses !! k) as [a|] eqn:Hk.
    + destruct (Forall2_lookup_r _ _ _ _ _ H Hk) as (j & Hseq & Hj). apply lookup_seq in Hseq as [-> Hlt].
      cbn in Hj. rewrite lookup_take_lt by lia. destruct (l !! k) as [b|]; cbn in Hj |- *; [|done].
      split_if_in Hj; [|done]. by injection Hj as <-.
    + apply lookup_ge_None in Hk. rewrite <- (Forall2_length _ _ _ H), length_seq in Hk.
      by rewrite lookup_take_ge by lia.
Qed.

(** A list that is long enough can be copied. *)
Lemma copy_addresses_total l count :
  (count ≤ Datatypes.length l)%nat → Forall (λ a, len (Address a) = 32) l →
  ∃ addresses, copy_addresses l count = Some addresses.
Proof.
  intros Hl Ha. apply mapM_is_Some. apply Forall_forall. intros k Hk. apply elem_of_seq in Hk.
  destruct (lookup_lt_is_Some_2 l k ltac:(lia)) as [a Hla]. cbn. rewrite Hla. cbn.
  rewrite (Forall_lookup_1 _ _ _ _ Ha Hla). by eexists.
Qed.

(** ** What a teardown leaves, the latest note first *)

Definition flush_calls (work_item : Z) : list note :=
  if work_item =? 0 then [] else [Called (WdfWorkItemFlush work_item)].

Definition purge_calls (adaptive : bool) (queue : Z) : list note :=
  if adaptive || (queue =? 0) then [] else [Called (WdfIoQueuePurgeSynchronously queue)].

Definition start_calls (queue : Z) : list note :=
  if queue =? 0 then [] else [Called (WdfIoQueueStart queue)].

(** Both queues reset, injection first. *)
Definition both_reset (o : queue_op) (l : list note) : Prop :=
  ∃ l1 l2, reset_notes Injection o l1 ∧ reset_notes Capture o l2 ∧ l = l2 ++ l1.

(** The wait is cancelled, the worker flushed, waiting reads purged unless the
    owner polls, both queues closed. *)
Definition torn_down (i : InstanceState) (adaptive : bool) (l : list note) : Prop :=
  ∃ l', both_reset QClose l' ∧
    l = l' ++ purge_calls adaptive (read_queue i) ++ flush_calls (read_work_item i)
          ++ [Called CancelWaitForTeardown].

Inductive entry_outcome (found : bool) (i : InstanceState) : Z → list note → Prop :=
  | entry_ignored : found = false → entry_outcome found i STATUS_SUCCESS []
  | entry_failed : state_lock i = 0 → entry_outcome found i STATUS_DEVICE_NOT_READY []
  | entry_opened (adaptive : bool) l :
      both_reset QReopen l →
      entry_outcome found i STATUS_SUCCESS (Called (ResumeDatapathCallbacks DATAPATH_CLOSED_POWER) :: l
        ++ (if adaptive then [] else start_calls (read_queue i))).

Inductive exit_outcome (found : bool) (i : InstanceState) : Z → list note → Prop :=
  | exit_ignored : found = false → exit_outcome found i STATUS_SUCCESS []
  | exit_failed : state_lock i = 0 → exit_outcome found i STATUS_DEVICE_NOT_READY []
  | exit_unguarded :
      exit_outcome found i STATUS_DEVICE_NOT_READY [Called (QuiesceDatapathCallbacks DATAPATH_CLOSED_POWER)]
  | exit_closed adaptive l :
      torn_down i adaptive l →
      exit_outcome found i STATUS_SUCCESS (l ++ [Called (QuiesceDatapathCallbacks DATAPATH_CLOSED_POWER)]).

Inductive cleanup_outcome (i : InstanceState) : list note → Prop :=
  | cleanup_ignored : cleanup_outcome i []
  | cleanup_unguarded :
      cleanup_outcome i [Called (ResumeDatapathCallbacks DATAPATH_CLOSED_OWNER);
                         Called (QuiesceDatapathCallbacks DATAPATH_CLOSED_OWNER)]
  | cleanup_closed adaptive l :
      torn_down i adaptive l →
      cleanup_outcome i ([Called (ResumeDatapathCallbacks DATAPATH_CLOSED_OWNER)] ++ l
        ++ [Called (QuiesceDatapathCallbacks DATAPATH_CLOSED_OWNER)])
  | cleanup_overtaken adaptive l l' :
      torn_down i adaptive l → both_reset QReopen l' →
      cleanup_outcome i ([Called (ResumeDatapathCallbacks DATAPATH_CLOSED_OWNER)] ++ (l' ++ l)
        ++ [Called (QuiesceDatapathCallbacks DATAPATH_CLOSED_OWNER)])
  | cleanup_reopened adaptive l l' :
      torn_down i adaptive l → both_reset QReopen l' →
      cleanup_outcome i ((start_calls (read_queue i)
        ++ [Called (ResumeDatapathCallbacks DATAPATH_CLOSED_OWNER)]) ++ (l' ++ l)
        ++ [Called (QuiesceDatapathCallbacks DATAPATH_CLOSED_OWNER)]).

Definition stop_calls (adapter : Z) : list note :=
  if adapter =? 0 then [] else [Called (NetAdapterStop adapter)].

Inductive release_outcome (i : InstanceState) : Z → list note → Prop :=
  | release_ignored : release_outcome i STATUS_DEVICE_NOT_READY []
  | release_unguarded adapter :
      release_outcome i STATUS_DEVICE_NOT_READY
        (Called (QuiesceDatapathCallbacks DATAPATH_CLOSED_HARDWARE) :: stop_calls adapter)
  | release_closed adapter adaptive l :
      both_reset QClose l →
      release_outcome i STATUS_SUCCESS
        ((l ++ flush_calls (read_work_item i) ++ purge_calls adaptive (read_queue i)
           ++ flush_calls (read_work_item i) ++ [Called CancelWaitForTeardown])
         ++ Called (QuiesceDatapathCallbacks DATAPATH_CLOSED_HARDWARE) :: stop_calls adapter).

(** The calls that configure an adapter, in the order they are made. *)
Definition configuration (C : adapter_constants) (adapter mtu maximum : Z) (address : list Z) : list dp_call :=
  [NetAdapterSetLinkLayerCapabilities adapter 1000000000 1000000000;
   NetAdapterSetLinkLayerMtuSize adapter (wrap 32 mtu);
   NetAdapterSetPermanentLinkLayerAddress adapter 6 address;
   NetAdapterSetCurrentLinkLayerAddress adapter 6 address;
   NetAdapterSetLinkState adapter (connected C);
   NetAdapterSetDataPathCapabilities adapter (tx_capabilities C) (rx_capabilities C maximum);
   NetAdapterSetReceiveFilterCapabilities adapter (supported_packet_filters C)
     MAXIMUM_MULTICAST_ADDRESSES].

Inductive prepare_outcome (C : adapter_constants) (i : InstanceState) : Z → list note → Prop :=
  | prepare_ignored : prepare_outcome C i STATUS_DEVICE_NOT_READY []
  | prepare_no_adapter : prepare_outcome C i STATUS_INSUFFICIENT_RESOURCES []
  | prepare_started adapter address status :
      adapter ≠ 0 → link_layer_address (mac_address i) = Some address →
      prepare_outcome C i status
        ([Called (NetAdapterStart adapter);
          Called (ResumeDatapathCallbacks DATAPATH_CLOSED_HARDWARE)]
         ++ rev (Called <$> configuration C adapter (mtu i) (frame_maximum i) address)).

(** A store of one field that neither the configuration nor the queues depend on. *)
Ltac harmless :=
  let Hq := fresh in let Hf := fresh in
  intros ? [Hq ? ? Hf]; split;
    [split; intros; try done; match goal with n : queue_name |- _ => by destruct n end
    |split; cbn; [intros []; [apply (Hq Injection)|apply (Hq Capture)]
                 |first [done|by split]|first [done|by split]|by destruct Hf]].

Section lifecycle_spec.
Context (e : env dev dp_ret) (Henv : respects dp_contract e).

Ltac silent :=
  lazymatch goal with
  | |- wp _ (do_call ?c) ?Q ?s ?w => refine (wp_silent e Henv c Q s w eq_refl _ _)
  end.

(** ** Calls *)

Lemma wp_announce c (Q : dp_ret c → dev → world dp_ret → Prop) s w :
  silent c = true → inst_ok (st s) → (∀ r s' w', acts [Called c] s s' → Q r s' w') →
  wp e (announce c) Q s w.
Proof.
  intros Hc Hok HQ. unfold announce. apply wp_bind, wp_record; [done|]. intros s1 A1.
  apply (wp_silent e Henv); [done|apply A1|]. intros r s2 w2 _ A2. apply HQ.
  exact (acts_trans _ [] _ _ _ A1 A2).
Qed.

Ltac announce :=
  lazymatch goal with
  | |- wp _ (announce ?c) ?Q ?s ?w => refine (wp_announce c Q s w eq_refl _ _)
  end.

Lemma wp_passive {A} (m : D A) Q s w : held s = ∅ → wp e m Q s w → wp e (passive m) Q s w.
Proof. intros Hh Hm. unfold passive. apply wp_bind, wp_get. by rewrite decide_True. Qed.

Lemma wp_quiesce closer (Q : unit → dev → world dp_ret → Prop) s w :
  idle s → guards s = ∅ →
  (∀ s' w', acts [Called (QuiesceDatapathCallbacks closer)] s s' → Q tt s' w') →
  wp e (quiesce_datapath_callbacks closer) Q s w.
Proof.
  intros [Hok Hh] Hg HQ. unfold quiesce_datapath_callbacks. apply wp_bind, wp_get.
  rewrite decide_True by done. announce; [done|]. intros [] s1 w1. apply HQ.
Qed.

Lemma wp_resume closer (Q : unit → dev → world dp_ret → Prop) s w :
  inst_ok (st s) →
  (∀ s' w', acts [Called (ResumeDatapathCallbacks closer)] s s' → Q tt s' w') →
  wp e (resume_datapath_callbacks closer) Q s w.
Proof. intros Hok HQ. unfold resume_datapath_callbacks. announce; [done|]. intros [] s1 w1. apply HQ. Qed.

Lemma wp_cancel_wait (Q : unit → dev → world dp_ret → Prop) s w :
  idle s → (∀ s' w', acts [Called CancelWaitForTeardown] s s' → Q tt s' w') →
  wp e cancel_wait_for_teardown Q s w.
Proof. intros [Hok Hh] HQ. apply wp_passive; [done|]. announce; [done|]. intros [] s1 w1. apply HQ. Qed.

Lemma wp_flush work_item (Q : unit → dev → world dp_ret → Prop) s w :
  idle s → (∀ s' w', acts (flush_calls work_item) s s' → Q tt s' w') →
  wp e (flush_work_item work_item) Q s w.
Proof.
  intros [Hok Hh] HQ. unfold flush_work_item, flush_calls in *.
  split_if; [by apply wp_ret, HQ, acts_refl|].
  apply wp_passive; [done|]. announce; [done|]. intros [] s1 w1. apply HQ.
Qed.

Lemma wp_start queue (Q : unit → dev → world dp_ret → Prop) s w :
  inst_ok (st s) → (∀ s' w', acts (start_calls queue) s s' → Q tt s' w') →
  wp e (resume_manual_queue queue) Q s w.
Proof.
  intros Hok HQ. unfold resume_manual_queue, start_calls in *.
  split_if; [by apply wp_ret, HQ, acts_refl|].
  announce; [done|]. intros [] s1 w1. apply HQ.
Qed.

Lemma wp_purge adaptive queue (Q : unit → dev → world dp_ret → Prop) s w :
  idle s → (∀ s' w', acts (purge_calls adaptive queue) s s' → Q tt s' w') →
  wp e (purge_manual_reads adaptive queue) Q s w.
Proof.
  intros [Hok Hh] HQ. unfold purge_manual_reads, purge_queue, purge_calls in *.
  destruct adaptive; [by apply wp_ret, HQ, acts_refl|]. cbn [orb] in HQ.
  split_if; [by apply wp_ret, HQ, acts_refl|].
  apply wp_passive; [done|]. announce; [done|]. intros [] s1 w1. apply HQ.
Qed.

Lemma wp_both_reset o (Q : unit → dev → world dp_ret → Prop) s w :
  idle s → op_frames_ok o → (∀ l s' w', acts l s s' → both_reset o l → Q tt s' w') →
  wp e (_ ← reset_queue Injection o; reset_queue Capture o) Q s w.
Proof.
  intros Hs Ho HQ. apply wp_bind, (wp_reset_queue e Henv); [done..|]. intros l1 s1 w1 A1 H1.
  apply (wp_reset_queue e Henv); [exact (idle_acts _ _ _ Hs A1)|done|]. intros l2 s2 w2 A2 H2.
  eapply HQ; [exact (acts_trans _ _ _ _ _ A1 A2)|]. by exists l1, l2.
Qed.

(** ** The state lock *)

(** A critical section of the state lock that leaves no notes. *)
Lemma wp_with_state {A} (m : D A) (Q : option A → dev → world dp_ret → Prop) s w :
  idle s →
  (state_lock (st s) = 0 → Q None s w) →
  (∀ s1 w1, state_lock (st s) ≠ 0 → inst_ok (st s1) → config_same (st s) (st s1) →
     state_lock (st s1) ∈ held s1 →
     wp e m (λ r s2 w2, acts [] s1 s2 ∧ ∀ s3 w3, acts [] s s3 → Q (Some r) s3 w3) s1 w1) →
  wp e (with_state m) Q s w.
Proof.
  intros [Hok Hh] HN Hm. unfold with_state. apply wp_bind, wp_config. split_if; [bool_reflect; by apply wp_ret, HN|].
  apply wp_bind, (wp_with_lock e Henv); [by rewrite Hh|done|]. intros s1 w1 A1.
  assert (config_same (st s) (st s1)) as Hc by apply A1.
  eapply wp_mono; [apply Hm; [by bool_reflect|apply A1|exact Hc|]|].
  { cbn. rewrite (cs_state_lock _ _ Hc). set_solver. }
  intros r s2 w2 [A2 HQ]. exists []. split; [exact A2|]. intros s3 w3 A3. by apply wp_ret, HQ.
Qed.

Lemma wp_locked_state {A} (f : InstanceState → A) Q s w :
  state_lock (st s) ∈ held s → Q (f (st s)) s w → wp e (locked_state f) Q s w.
Proof. intros Hl HQ. unfold locked_state. apply wp_bind, wp_get. rewrite decide_True by done. by apply wp_ret. Qed.

Lemma wp_update_state f (Q : unit → dev → world dp_ret → Prop) s w :
  state_lock (st s) ∈ held s → config_same (st s) (f (st s)) → inst_ok (f (st s)) →
  (∀ s', acts [] s s' → Q tt s' w) → wp e (update_state f) Q s w.
Proof.
  intros Hl Hc Hok HQ. unfold update_state. apply wp_bind, wp_get. rewrite decide_True by done.
  apply wp_put, HQ. by apply acts_update.
Qed.

Lemma wp_try_update_state f i (Q : unit → dev → world dp_ret → Prop) s w :
  state_lock (st s) ∈ held s → f (st s) = Some i → config_same (st s) i → inst_ok i →
  (∀ s', acts [] s s' → Q tt s' w) → wp e (try_update_state f) Q s w.
Proof.
  intros Hl Hf Hc Hok HQ. unfold try_update_state. apply wp_bind, wp_get. rewrite decide_True by done.
  apply wp_bind, wp_from_option. exists i. split; [done|]. apply wp_put, HQ. by apply acts_update.
Qed.

(** The lock stays held. *)
Lemma locked_acts l s s' : state_lock (st s) ∈ held s → acts l s s' → state_lock (st s') ∈ held s'.
Proof. intros H A. by rewrite (cs_state_lock _ _ (ac_config _ _ _ A)), (acts_held _ _ _ A). Qed.

Lemma wp_compare_exchange_lifecycle current new (Q : bool → dev → world dp_ret → Prop) s w :
  inst_ok (st s) → (∀ r s' w', acts [] s s' → Q r s' w') →
  wp e (compare_exchange_lifecycle current new) Q s w.
Proof.
  intros Hok HQ. unfold compare_exchange_lifecycle. apply wp_bind. silent; [done|]. intros _ s1 w1 _ A1.
  apply wp_bind, wp_get. split_if; [|by apply wp_ret, HQ].
  apply wp_bind, wp_put, wp_ret, HQ. eapply acts_trans_nil; [exact A1|].
  apply acts_update; [by split; intros; try done; destruct n|]. destruct (ac_ok _ _ _ A1) as [Hq ?? Hf].
  split; [|done|done|by destruct Hf]. intros []; [apply (Hq Injection)|apply (Hq Capture)].
Qed.

Lemma wp_store_lifecycle v (Q : unit → dev → world dp_ret → Prop) s w :
  inst_ok (st s) → (∀ s' w', acts [] s s' → Q tt s' w') → wp e (store_lifecycle v) Q s w.
Proof. intros Hok HQ. apply wp_modify; [done|done|harmless|done]. Qed.

Lemma wp_clear_pending (Q : unit → dev → world dp_ret → Prop) s w :
  inst_ok (st s) → (∀ s' w', acts [] s s' → Q tt s' w') → wp e clear_pending Q s w.
Proof.
  intros Hok HQ. apply wp_bind, wp_modify; [done|done|harmless|]. intros s1 w1 A1.
  apply wp_modify; [done|apply A1|harmless|]. intros s2 w2 A2. apply HQ. exact (acts_trans_nil _ _ _ _ A1 A2).
Qed.

(** ** Both wait locks *)

Lemma wp_with_guards {A} (m : D A) (Q : option A → dev → world dp_ret → Prop) s w :
  at_rest s →
  (∀ s' w', acts [] s s' → Q None s' w') →
  (∀ s1 w1, idle s1 → config_same (st s) (st s1) →
     wp e m (λ r s2 w2, ∃ l, acts l s1 s2 ∧ ∀ s3 w3, acts l s s3 → Q (Some r) s3 w3) s1 w1) →
  wp e (with_guards m) Q s w.
Proof.
  intros (Hs & Hg & Hne) HN Hm. unfold with_guards. apply wp_bind, wp_config, wp_bind.
  set (direct := legacy_direct_read_lock (st s)) in *. apply wp_passive; [apply Hs|].
  apply wp_guard_acquire; [done|apply Hs|by rewrite Hg|by intros; apply wp_ret, HN|]. intros s1 w1 A1. cbn [negb].
  set (sg := s <| guards := {[direct]} ∪ guards s |>) in *. assert (idle sg) as Hsg by done.
  pose proof (idle_acts _ _ _ Hsg A1) as Hs1. apply wp_bind, wp_config, wp_bind.
  assert (write_lifetime_lock (st s1) = write_lifetime_lock (st s)) as -> by apply (cs_lifetime_lock _ _ (ac_config _ _ _ A1)).
  set (lifetime := write_lifetime_lock (st s)) in *. apply wp_passive; [apply Hs1|].
  assert (∀ l r s2 w2, acts l sg s2 → (∀ s3 w3, acts l s s3 → Q r s3 w3) →
    wp e (_ ← guard_release direct; mret r) Q s2 w2) as Hleave.
  { intros l r s2 w2 A2 HQ. apply wp_bind, wp_guard_release; [done|apply A2| |].
    { rewrite (acts_guards _ _ _ A2). cbn. set_solver. }
    intros s3 w3 A3. apply wp_ret, HQ. eapply (acts_guarded l direct s); [by rewrite Hg| |exact A2|exact A3].
    by apply acts_refl, Hsg. }
  apply wp_guard_acquire; [done|apply Hs1| | |].
  { rewrite (acts_guards _ _ _ A1). cbn. rewrite Hg. set_solver. }
  { intros s2 w2 A2. apply wp_bind, wp_ret. apply (Hleave []); [exact (acts_trans_nil _ _ _ _ A1 A2)|done]. }
  intros s2 w2 A2. set (sgg := s1 <| guards := {[lifetime]} ∪ guards s1 |>) in *.
  assert (idle sgg) as Hsgg by (split; apply Hs1). cbn [mret].
  apply wp_bind, wp_bind.
  eapply wp_mono; [apply Hm; [exact (idle_acts _ _ _ Hsgg A2)|]|].
  { eapply config_trans; [apply A1|apply A2]. }
  intros r s3 w3 (l & A3 & HQ). apply wp_bind, wp_guard_release; [done|apply A3| |].
  { rewrite (acts_guards _ _ _ A3), (acts_guards _ _ _ A2). cbn. set_solver. }
  intros s4 w4 A4. apply wp_ret. apply (Hleave l (Some r)); [|exact HQ].
  eapply (acts_trans_nil l); [exact A1|].
  eapply (acts_guarded l lifetime s1); [|exact A2|exact A3|exact A4].
  rewrite (acts_guards _ _ _ A1). cbn. rewrite Hg. set_solver.
Qed.

Lemma wp_read_side (Q : option (Z * Z * bool) → dev → world dp_ret → Prop) s w :
  idle s → state_lock (st s) ≠ 0 →
  (∀ adaptive s' w', acts [] s s' →
     Q (Some (read_queue (st s), read_work_item (st s), adaptive)) s' w') →
  wp e read_side Q s w.
Proof.
  intros Hs Hl HQ. apply wp_with_state; [done|by intros|]. intros s1 w1 _ Hok1 Hc1 Hl1.
  apply wp_bind, wp_locked_state; [done|]. apply wp_bind, wp_locked_state; [done|].
  apply wp_bind, wp_load; [done..|]. intros s2 w2 A2. apply wp_ret. split; [done|].
  rewrite (cs_read_queue _ _ Hc1), (cs_work_item _ _ Hc1). intros s3 w3. apply HQ.
Qed.

Lemma wp_tear_down_reads {A} queue work_item adaptive (k : D A)
    (Q : A → dev → world dp_ret → Prop) s w :
  idle s →
  (∀ s' w', acts (purge_calls adaptive queue ++ flush_calls work_item ++ [Called CancelWaitForTeardown]) s s' →
     wp e k Q s' w') →
  wp e (_ ← cancel_wait_for_teardown; _ ← flush_work_item work_item;
        _ ← purge_manual_reads adaptive queue; k) Q s w.
Proof.
  intros Hs HQ. apply wp_bind, wp_cancel_wait; [done|]. intros s1 w1 A1.
  pose proof (idle_acts _ _ _ Hs A1) as Hs1. apply wp_bind, wp_flush; [done|]. intros s2 w2 A2.
  pose proof (idle_acts _ _ _ Hs1 A2) as Hs2. apply wp_bind, wp_purge; [done|]. intros s3 w3 A3.
  apply HQ. exact (acts_trans _ _ _ _ _ (acts_trans _ _ _ _ _ A1 A2) A3).
Qed.

End lifecycle_spec.
