(* ===== verification/LifecycleHandlers.v ===== *)
(** * The packet driver's life cycle: the outcome of every handler

    Power, hardware and owner callbacks, control requests and packet-queue
    creation, each under every environment of the contract. *)

From S2P Require Import Prelude Words DriverConstants Effects Ring FrameQueue Datapath DatapathPaths DatapathSpec DatapathRequests Lifecycle LifecycleSpec.

Section handlers.
Context (e : env dev dp_ret) (Henv : respects dp_contract e).

Ltac silent :=
  lazymatch goal with
  | |- wp _ (do_call ?c) ?Q ?s ?w => refine (wp_silent e Henv c Q s w eq_refl _ _)
  end.

Ltac announce :=
  lazymatch goal with
  | |- wp _ (announce ?c) ?Q ?s ?w => refine (wp_announce e Henv c Q s w eq_refl _ _)
  end.

(** What another thread cannot change between two pieces. *)
Lemma state_lock_same l s s' : acts l s s' → state_lock (st s') = state_lock (st s).
Proof. intros A. apply (cs_state_lock _ _ (ac_config _ _ _ A)). Qed.
Lemma read_queue_same l s s' : acts l s s' → read_queue (st s') = read_queue (st s).
Proof. intros A. apply (cs_read_queue _ _ (ac_config _ _ _ A)). Qed.
Lemma work_item_same l s s' : acts l s s' → read_work_item (st s') = read_work_item (st s).
Proof. intros A. apply (cs_work_item _ _ (ac_config _ _ _ A)). Qed.

(** A section of the state lock that only stores. *)
Lemma wp_state_store {A} (m : D A) (Q : option A → dev → world dp_ret → Prop) s w :
  idle s → state_lock (st s) ≠ 0 →
  (∀ Q' s1 w1, inst_ok (st s1) → state_lock (st s1) ∈ held s1 →
     (∀ r s2 w2, acts [] s1 s2 → Q' r s2 w2) → wp e m Q' s1 w1) →
  (∀ r s' w', acts [] s s' → Q (Some r) s' w') → wp e (with_state m) Q s w.
Proof.
  intros Hs Hl Hm HQ. apply (wp_with_state e Henv); [done|by intros|]. intros s1 w1 _ Hok1 _ Hl1.
  apply Hm; [done..|]. intros r s2 w2 A2. split; [done|]. intros s3 w3. apply HQ.
Qed.

(** ** Power *)

(** D0 entry from the reopening of the queues on. *)
Lemma wp_publish_open l (Q : Z → dev → world dp_ret → Prop) s0 s w :
  idle s → state_lock (st s) ≠ 0 → acts l s0 s →
  (∀ l' s' w', acts (Called (ResumeDatapathCallbacks DATAPATH_CLOSED_POWER) :: l' ++ l) s0 s' →
     both_reset QReopen l' → Q STATUS_SUCCESS s' w') →
  wp e (_ ← reopen_frame_queues; published ← with_state (store_lifecycle INSTANCE_OPEN);
        match published with
        | None => mret STATUS_DEVICE_NOT_READY
        | Some _ => _ ← resume_datapath_callbacks DATAPATH_CLOSED_POWER; mret STATUS_SUCCESS
        end) Q s w.
Proof.
  intros Hs Hl A HQ. apply wp_bind, (wp_both_reset e Henv); [done..|]. intros l1 s1 w1 A1 H1.
  apply wp_bind, wp_state_store; [exact (idle_acts _ _ _ Hs A1)|by rewrite (state_lock_same _ _ _ A1)| |].
  { intros Q' s2 w2 Hok2 _ HQ'. apply (wp_store_lifecycle e Henv); [done|]. intros. by apply HQ'. }
  intros _ s2 w2 A2. apply wp_bind, (wp_resume e Henv); [apply A2|]. intros s3 w3 A3. apply wp_ret.
  eapply HQ; [|exact H1].
  exact (acts_trans _ [_] _ _ _ (acts_trans _ _ _ _ _ A (acts_trans _ [] _ _ _ A1 A2)) A3).
Qed.

Lemma wp_d0_entry found (Q : Z → dev → world dp_ret → Prop) s w :
  idle s → (∀ r l s' w', acts l s s' → entry_outcome found (st s) r l → Q r s' w') →
  wp e (evt_device_d0_entry found) Q s w.
Proof.
  intros Hs HQ. unfold evt_device_d0_entry. destruct found; cbn [negb].
  2: { apply wp_ret. eapply HQ; [apply acts_refl, Hs|by constructor]. }
  apply wp_bind, (wp_with_state e Henv); [done| |].
  { intros Hl. apply wp_ret. eapply HQ; [apply acts_refl, Hs|by constructor]. }
  intros s1 w1 Hl Hok1 Hc1 Hl1. apply wp_bind, wp_locked_state; [done|].
  apply wp_bind, (wp_load e Henv); [done|]. intros s2 w2 A2. apply wp_ret. split; [done|].
  generalize (adaptive_enabled (st s2)). intros adaptive s3 w3 A3. rewrite (cs_read_queue _ _ Hc1).
  apply wp_bind. destruct adaptive.
  - apply wp_ret, (wp_publish_open [] Q s); [exact (idle_acts _ _ _ Hs A3)|by rewrite (state_lock_same _ _ _ A3)|done|].
    intros l s4 w4 A4 H4. eapply HQ; [exact A4|]. by apply (entry_opened _ _ true).
  - apply (wp_start e Henv); [apply A3|]. intros s4 w4 A4. pose proof (acts_trans_nil _ _ _ _ A3 A4) as A34.
    apply (wp_publish_open (start_calls (read_queue (st s))) Q s); [exact (idle_acts _ _ _ Hs A34)|by rewrite (state_lock_same _ _ _ A34)|exact A34|].
    intros l s5 w5 A5 H5. eapply HQ; [exact A5|]. by apply (entry_opened _ _ false).
Qed.

(** The guarded part of a teardown, up to the closed queues. *)
Lemma wp_close_down {A} (k : D A) (Q : A → dev → world dp_ret → Prop) i adaptive s w :
  idle s → config_same i (st s) →
  (∀ l s' w', acts l s s' → torn_down i adaptive l → wp e k Q s' w') →
  wp e (_ ← cancel_wait_for_teardown; _ ← flush_work_item (read_work_item i);
        _ ← purge_manual_reads adaptive (read_queue i); _ ← clear_frame_queues; k) Q s w.
Proof.
  intros Hs Hc Hk. apply (wp_tear_down_reads e Henv); [done|]. intros s1 w1 A1.
  apply wp_bind, (wp_both_reset e Henv); [exact (idle_acts _ _ _ Hs A1)|done|]. intros l s2 w2 A2 H2.
  eapply Hk; [exact (acts_trans _ _ _ _ _ A1 A2)|]. by exists l.
Qed.

Lemma wp_d0_exit_guarded i (Q : Z → dev → world dp_ret → Prop) s w :
  idle s → config_same i (st s) → state_lock i ≠ 0 →
  (∀ adaptive l s' w', acts l s s' → torn_down i adaptive l → Q STATUS_SUCCESS s' w') →
  wp e d0_exit_guarded Q s w.
Proof.
  intros Hs Hc Hl HQ. unfold d0_exit_guarded.
  assert (state_lock (st s) ≠ 0) as Hl' by (by rewrite (cs_state_lock _ _ Hc)).
  apply wp_bind, (wp_read_side e Henv); [done..|]. intros adaptive s1 w1 A1.
  rewrite (cs_read_queue _ _ Hc), (cs_work_item _ _ Hc).
  pose proof (idle_acts _ _ _ Hs A1) as Hs1.
  apply (wp_close_down _ _ i adaptive); [done|by eapply config_trans; [|apply A1]|]. intros l s2 w2 A2 H2.
  pose proof (acts_trans_nil _ _ _ _ A1 A2) as A12.
  apply wp_bind, wp_state_store; [exact (idle_acts _ _ _ Hs1 A2)|by rewrite (state_lock_same _ _ _ A12)| |].
  { intros Q' s3 w3 Hok3 _ HQ'. apply wp_bind, (wp_clear_pending e Henv); [done|]. intros s4 w4 A4.
    apply (wp_modify e Henv); [apply A4|harmless|]. intros s5 w5 A5.
    apply HQ'. exact (acts_trans_nil _ _ _ _ A4 A5). }
  intros _ s3 w3 A3. apply wp_ret. eapply HQ; [|exact H2]. exact (acts_trans _ [] _ _ _ A12 A3).
Qed.

Lemma wp_d0_exit found (Q : Z → dev → world dp_ret → Prop) s w :
  at_rest s → (∀ r l s' w', acts l s s' → exit_outcome found (st s) r l → Q r s' w') →
  wp e (evt_device_d0_exit found) Q s w.
Proof.
  intros Hs HQ. unfold evt_device_d0_exit. destruct found; cbn [negb].
  2: { apply wp_ret. eapply HQ; [apply acts_refl, Hs|by constructor]. }
  apply wp_bind, (wp_with_state e Henv); [apply Hs| |].
  { intros Hl. apply wp_ret. eapply HQ; [apply acts_refl, Hs|by constructor]. }
  intros s1 w1 Hl Hok1 _ Hl1. apply (wp_store_lifecycle e Henv); [done|]. intros s2 w2 A2. split; [done|].
  intros s3 w3 A3. pose proof (at_rest_acts _ _ _ Hs A3) as Hs3.
  apply wp_bind, (wp_quiesce e Henv); [apply Hs3|apply Hs3|]. intros s4 w4 A4.
  pose proof (acts_trans_nil _ _ _ _ A3 A4) as A34. pose proof (at_rest_acts _ _ _ Hs A34) as Hs4.
  apply wp_bind, (wp_with_guards e Henv); [done| |].
  { intros s5 w5 A5. apply wp_ret. eapply HQ; [exact (acts_trans _ [] _ _ _ A34 A5)|constructor]. }
  intros s5 w5 Hs5 Hc5. apply (wp_d0_exit_guarded (st s)); [done|by eapply config_trans; [apply A34|]|done|].
  intros adaptive l s6 w6 A6 H6. exists l. split; [exact A6|]. intros s7 w7 A7. apply wp_ret.
  eapply HQ; [exact (acts_trans _ _ _ _ _ A34 A7)|]. by eapply exit_closed.
Qed.

(** ** The owner's cleanup *)

Lemma wp_should_resume (owns : bool) (Q : bool → dev → world dp_ret → Prop) s w :
  inst_ok (st s) → state_lock (st s) ∈ held s → (∀ r s' w', acts [] s s' → Q r s' w') →
  wp e (should_resume ←
          (if owns then
             now ← load lifecycle;
             if now =? INSTANCE_OWNER_CLOSING
             then adapter ← locked_state adapter; mret (negb (adapter =? 0))
             else mret false
           else mret false);
        _ ← clear_pending;
        _ ← modify (λ i, i <| adaptive_enabled := false |>);
        _ ← modify (λ i, i <| control_open := false |>);
        mret should_resume) Q s w.
Proof.
  intros Hok Hl HQ.
  assert (∀ (r : bool) s1 w1, acts [] s s1 → wp e (_ ← clear_pending;
    _ ← modify (λ i, i <| adaptive_enabled := false |>);
    _ ← modify (λ i, i <| control_open := false |>); mret r) Q s1 w1) as Hend.
  { intros r s1 w1 A1. apply wp_bind, (wp_clear_pending e Henv); [apply A1|]. intros s2 w2 A2.
    apply wp_bind, (wp_modify e Henv); [apply A2|harmless|]. intros s3 w3 A3.
    apply wp_bind, (wp_modify e Henv); [apply A3|harmless|]. intros s4 w4 A4. apply wp_ret, HQ.
    exact (acts_trans_nil _ _ _ _ A1 (acts_trans_nil _ _ _ _ A2 (acts_trans_nil _ _ _ _ A3 A4))). }
  apply wp_bind. destruct owns; [|by apply wp_ret, Hend, acts_refl].
  apply wp_bind, (wp_load e Henv); [done|]. intros s1 w1 A1. split_if; [|by apply wp_ret, Hend].
  apply wp_bind, wp_locked_state; [by eapply locked_acts|]. by apply wp_ret, Hend.
Qed.

(** What the guarded part of a cleanup leaves, and whether it released the owner
    closer. *)
Definition cleaned (i : InstanceState) (released : bool) (l : list note) : Prop :=
  ∃ adaptive l1, torn_down i adaptive l1 ∧
    if released
    then ∃ l2, both_reset QReopen l2 ∧
      l = (start_calls (read_queue i) ++ [Called (ResumeDatapathCallbacks DATAPATH_CLOSED_OWNER)]) ++ l2 ++ l1
    else l = l1 ∨ ∃ l2, both_reset QReopen l2 ∧ l = l2 ++ l1.

Lemma wp_cleanup_guarded owns i (Q : bool → dev → world dp_ret → Prop) s w :
  idle s → config_same i (st s) → state_lock i ≠ 0 →
  (∀ r l s' w', acts l s s' → cleaned i r l → Q r s' w') →
  wp e (cleanup_guarded owns) Q s w.
Proof.
  intros Hs Hc Hl HQ. unfold cleanup_guarded.
  assert (state_lock (st s) ≠ 0) as Hl' by (by rewrite (cs_state_lock _ _ Hc)).
  apply wp_bind, (wp_read_side e Henv); [done..|]. intros adaptive s1 w1 A1.
  rewrite (cs_read_queue _ _ Hc), (cs_work_item _ _ Hc). pose proof (idle_acts _ _ _ Hs A1) as Hs1.
  apply (wp_close_down _ _ i adaptive); [done|by eapply config_trans; [|apply A1]|]. intros l s2 w2 A2 H2.
  pose proof (acts_trans_nil _ _ _ _ A1 A2) as A12. pose proof (idle_acts _ _ _ Hs1 A2) as Hs2.
  assert (state_lock (st s2) ≠ 0) as Hl2 by (by rewrite (state_lock_same _ _ _ A12)).
  apply wp_bind, wp_state_store; [done..| |].
  { intros Q' s3 w3 Hok3 Hl3 HQ'. by apply wp_should_resume. }
  intros should s3 w3 A3. pose proof (acts_trans _ [] _ _ _ A12 A3) as A13. pose proof (idle_acts _ _ _ Hs2 A3) as Hs3.
  destruct should; [|apply wp_ret; eapply HQ; [exact A13|]; exists adaptive, l; split; [done|by left]].
  apply wp_bind, (wp_both_reset e Henv); [done..|]. intros l' s4 w4 A4 H4.
  pose proof (acts_trans _ _ _ _ _ A13 A4) as A14. pose proof (idle_acts _ _ _ Hs3 A4) as Hs4.
  apply wp_bind, wp_state_store; [done|by rewrite (state_lock_same _ _ _ A14)| |].
  { intros Q' s5 w5 Hok5 _ HQ'. by apply (wp_compare_exchange_lifecycle e Henv). }
  intros resumed s5 w5 A5. pose proof (acts_trans _ [] _ _ _ A14 A5) as A15. destruct resumed.
  - apply wp_bind, (wp_resume e Henv); [apply A5|]. intros s6 w6 A6.
    apply wp_bind, (wp_start e Henv); [apply A6|]. intros s7 w7 A7. apply wp_ret.
    eapply HQ; [exact (acts_trans _ _ _ _ _ A15 (acts_trans _ _ _ _ _ A6 A7))|].
    exists adaptive, l. split; [done|]. by exists l'.
  - apply wp_ret. eapply HQ; [exact A15|]. exists adaptive, l. split; [done|]. right. by exists l'.
Qed.

Lemma wp_file_cleanup found (Q : unit → dev → world dp_ret → Prop) s w :
  at_rest s → (∀ l s' w', acts l s s' → cleanup_outcome (st s) l → Q tt s' w') →
  wp e (evt_file_cleanup found) Q s w.
Proof.
  intros Hs HQ. unfold evt_file_cleanup. destruct found; cbn [negb].
  2: { apply wp_ret. eapply HQ; [apply acts_refl, Hs|constructor]. }
  apply wp_bind, (wp_with_state e Henv); [apply Hs| |].
  { intros Hl. apply wp_ret. eapply HQ; [apply acts_refl, Hs|by constructor]. }
  intros s1 w1 Hl Hok1 _ Hl1. apply wp_bind, (wp_modify e Henv); [done|harmless|]. intros s2 w2 A2.
  apply (wp_compare_exchange_lifecycle e Henv); [apply A2|]. intros owns s2' w2' A2'.
  split; [exact (acts_trans_nil _ _ _ _ A2 A2')|].
  intros s3 w3 A3. pose proof (at_rest_acts _ _ _ Hs A3) as Hs3.
  apply wp_bind, (wp_quiesce e Henv); [apply Hs3|apply Hs3|]. intros s4 w4 A4.
  pose proof (acts_trans_nil _ _ _ _ A3 A4) as A34. pose proof (at_rest_acts _ _ _ Hs A34) as Hs4.
  assert (∀ l s5 w5, acts l s4 s5 →
    cleanup_outcome (st s) ([Called (ResumeDatapathCallbacks DATAPATH_CLOSED_OWNER)] ++ l
        ++ [Called (QuiesceDatapathCallbacks DATAPATH_CLOSED_OWNER)]) →
    wp e (resume_datapath_callbacks DATAPATH_CLOSED_OWNER) Q s5 w5) as Hclose.
  { intros l s5 w5 A5 Hout. apply (wp_resume e Henv); [apply A5|]. intros s6 w6 A6.
    eapply HQ; [|exact Hout]. exact (acts_trans _ [_] _ _ _ (acts_trans _ _ _ _ _ A34 A5) A6). }
  apply wp_bind, (wp_with_guards e Henv); [done| |].
  { intros s5 w5 A5. apply (Hclose []); [done|apply cleanup_unguarded]. }
  intros s5 w5 Hs5 Hc5.
  apply (wp_cleanup_guarded owns (st s)); [done|by eapply config_trans; [apply A34|]|done|].
  intros released l s6 w6 A6 (adaptive & l1 & H1 & H2). exists l. split; [exact A6|]. intros s7 w7 A7.
  destruct released; cbn [default].
  - destruct H2 as (l2 & H2 & ->). apply wp_ret. eapply HQ; [exact (acts_trans _ _ _ _ _ A34 A7)|].
    rewrite <- app_assoc. by eapply cleanup_reopened.
  - apply (Hclose l); [exact A7|]. destruct H2 as [-> | (l2 & H2 & ->)];
      [by eapply cleanup_closed|by eapply cleanup_overtaken].
Qed.

(** ** Hardware *)

Lemma wp_release_guarded i adaptive (Q : Z → dev → world dp_ret → Prop) s w :
  idle s → config_same i (st s) → state_lock i ≠ 0 →
  (∀ l s' w', acts (l ++ flush_calls (read_work_item i) ++ purge_calls adaptive (read_queue i)
       ++ flush_calls (read_work_item i) ++ [Called CancelWaitForTeardown]) s s' →
     both_reset QClose l → Q STATUS_SUCCESS s' w') →
  wp e (release_hardware_guarded (read_queue i) (read_work_item i) adaptive) Q s w.
Proof.
  intros Hs Hc Hl HQ. unfold release_hardware_guarded.
  apply (wp_tear_down_reads e Henv); [done|]. intros s1 w1 A1. pose proof (idle_acts _ _ _ Hs A1) as Hs1.
  apply wp_bind, (wp_flush e Henv); [done|]. intros s2 w2 A2. pose proof (acts_trans _ _ _ _ _ A1 A2) as A12.
  apply wp_bind, (wp_both_reset e Henv); [exact (idle_acts _ _ _ Hs1 A2)|done|]. intros l s3 w3 A3 H3.
  pose proof (acts_trans _ _ _ _ _ A12 A3) as A13. pose proof (idle_acts _ _ _ Hs A13) as Hs3.
  apply wp_bind, wp_state_store; [done|by rewrite (state_lock_same _ _ _ A13), (cs_state_lock _ _ Hc)| |].
  - intros Q' s4 w4 Hok4 Hl4 HQ'.
    apply wp_bind. eapply wp_try_update_state; [done|exact (update_receive_filter_state_spec 0 [] _ (fo_table _ (io_filter _ Hok4)) ltac:(done))| | |].
    { by split; intros; try done; destruct n. }
    { destruct Hok4 as [Hq ???]. split; [intros []; [apply (Hq Injection)|apply (Hq Capture)]|done|done|].
      by apply filter_table_ok. }
    intros s5 A5. apply wp_bind, (wp_clear_pending e Henv); [apply A5|]. intros s6 w6 A6.
    pose proof (acts_trans_nil _ _ _ _ A5 A6) as A46.
    assert (∀ f (k : D unit) s7 w7, acts [] s4 s7 → (∀ i, inst_ok i → config_same i (f i) ∧ inst_ok (f i)) →
      (∀ s8, acts [] s4 s8 → wp e k Q' s8 w7) → wp e (_ ← update_state f; k) Q' s7 w7) as Hset.
    { intros f k s7 w7 A7 Hf Hk. destruct (Hf _ (ac_ok _ _ _ A7)).
      apply wp_bind, wp_update_state; [by eapply locked_acts|done..|]. intros s8 A8.
      apply Hk. exact (acts_trans_nil _ _ _ _ A7 A8). }
    assert (∀ f (k : D unit) s7 w7, acts [] s4 s7 → (∀ i, inst_ok i → config_same i (f i) ∧ inst_ok (f i)) →
      (∀ s8 w8, acts [] s4 s8 → wp e k Q' s8 w8) → wp e (_ ← modify f; k) Q' s7 w7) as Hmod.
    { intros f k s7 w7 A7 Hf Hk. apply wp_bind, (wp_modify e Henv); [apply A7|done|]. intros s8 w8 A8.
      apply Hk. exact (acts_trans_nil _ _ _ _ A7 A8). }
    apply Hset; [done|harmless|]. intros s7 A7. apply Hset; [done|harmless|]. intros s8 A8.
    apply Hmod; [done|harmless|]. intros s9 w9 A9. apply Hmod; [done|harmless|]. intros s10 w10 A10.
    apply Hmod; [done|harmless|]. intros s11 w11 A11. apply Hset; [done|harmless|]. intros s12 A12'.
    apply (wp_store_lifecycle e Henv); [apply A12'|]. intros s13 w13 A13'.
    apply HQ'. exact (acts_trans_nil _ _ _ _ A12' A13').
  - intros _ s4 w4 A4. apply wp_ret. eapply HQ; [|exact H3]. exact (acts_trans _ [] _ _ _ A13 A4).
Qed.

Lemma wp_release_hardware found (Q : Z → dev → world dp_ret → Prop) s w :
  at_rest s → (∀ r l s' w', acts l s s' → release_outcome (st s) r l → Q r s' w') →
  wp e (evt_device_release_hardware found) Q s w.
Proof.
  intros Hs HQ. unfold evt_device_release_hardware. destruct found; cbn [negb].
  2: { apply wp_ret. eapply HQ; [apply acts_refl, Hs|constructor]. }
  apply wp_bind, (wp_with_state e Henv); [apply Hs| |].
  { intros Hl. apply wp_ret. eapply HQ; [apply acts_refl, Hs|by constructor]. }
  intros s1 w1 Hl Hok1 Hc1 Hl1. apply wp_bind, (wp_store_lifecycle e Henv); [done|]. intros s2 w2 A2.
  pose proof (locked_acts _ _ _ Hl1 A2) as Hl2.
  do 3 (apply wp_bind, wp_locked_state; [done|]).
  apply wp_bind, (wp_load e Henv); [apply A2|]. intros s3 w3 A3. apply wp_ret.
  split; [exact (acts_trans_nil _ _ _ _ A2 A3)|]. intros s4 w4 A4.
  generalize (adapter (st s2)), (adaptive_enabled (st s3)). intros adapter adaptive.
  rewrite (read_queue_same _ _ _ A2), (work_item_same _ _ _ A2), (cs_read_queue _ _ Hc1), (cs_work_item _ _ Hc1).
  pose proof (at_rest_acts _ _ _ Hs A4) as Hs4.
  apply wp_bind. assert (∀ s5 w5, acts (stop_calls adapter) s s5 →
    wp e (_ ← quiesce_datapath_callbacks DATAPATH_CLOSED_HARDWARE;
          status ← with_guards (release_hardware_guarded (read_queue (st s)) (read_work_item (st s)) adaptive);
          mret (default STATUS_DEVICE_NOT_READY status)) Q s5 w5) as Hrest.
  { intros s5 w5 A5. pose proof (at_rest_acts _ _ _ Hs A5) as Hs5.
    apply wp_bind, (wp_quiesce e Henv); [apply Hs5|apply Hs5|]. intros s6 w6 A6.
    pose proof (acts_trans _ _ _ _ _ A5 A6) as A56. pose proof (at_rest_acts _ _ _ Hs A56) as Hs6.
    apply wp_bind, (wp_with_guards e Henv); [done| |].
    { intros s7 w7 A7. apply wp_ret. eapply HQ; [exact (acts_trans _ [] _ _ _ A56 A7)|constructor]. }
    intros s7 w7 Hs7 Hc7. apply (wp_release_guarded (st s)); [done|by eapply config_trans; [apply A56|]|done|].
    intros l s8 w8 A8 H8. eexists. split; [exact A8|]. intros s9 w9 A9. apply wp_ret.
    eapply HQ; [exact (acts_trans _ _ _ _ _ A56 A9)|]. by apply release_closed. }
  unfold stop_calls in Hrest. split_if; [by apply wp_ret, Hrest|].
  apply wp_passive; [apply Hs4|]. announce; [apply Hs4|]. intros _ s5 w5 A5.
  apply Hrest. exact (acts_trans_nil _ _ _ _ A4 A5).
Qed.

Lemma wp_printed {A} (k : D A) l (Q : A → dev → world dp_ret → Prop) s0 s w :
  acts l s0 s → (∀ s' w', acts l s0 s' → wp e k Q s' w') → wp e (_ ← call DbgPrintEx; k) Q s w.
Proof.
  intros A1 Hk. apply wp_bind. silent; [apply A1|]. intros _ s1 w1 _ A2. apply Hk.
  exact (acts_trans _ [] _ _ _ A1 A2).
Qed.

(** One announced call after the notes of [H]. *)
Ltac announced H :=
  apply wp_bind; announce; [apply H|];
  let A := fresh "A" in let H' := fresh "A" in
  intros ? ? ? A; pose proof (acts_trans _ [_] _ _ _ H A) as H'; clear H A; rename H' into H.

Lemma wp_configure C adapter mac mtu address (Q : unit → dev → world dp_ret → Prop) l s0 s w :
  acts l s0 s → link_layer_address mac = Some address →
  (∀ s' w', acts (rev (Called <$> take 5 (configuration C adapter mtu 0 address)) ++ l) s0 s' → Q tt s' w') →
  wp e (configure_adapter_link_state C adapter mac mtu) Q s w.
Proof.
  intros A Ha HQ. unfold configure_adapter_link_state. announced A. announced A.
  apply wp_bind, wp_from_option. exists address. split; [done|]. announced A. announced A.
  announce; [apply A|]. intros [] s1 w1 A1. apply HQ. exact (acts_trans _ [_] _ _ _ A A1).
Qed.

Lemma wp_prepare_hardware C found (Q : Z → dev → world dp_ret → Prop) s w :
  idle s → len (mac_address (st s)) = 6 →
  (∀ r l s' w', acts l s s' → prepare_outcome C (st s) r l → Q r s' w') →
  wp e (evt_device_prepare_hardware C found) Q s w.
Proof.
  intros Hs Hmac HQ. unfold evt_device_prepare_hardware. destruct found; cbn [negb].
  2: { apply wp_ret. eapply HQ; [apply acts_refl, Hs|constructor]. }
  apply wp_bind, (wp_with_state e Henv); [apply Hs| |].
  { intros Hl. apply wp_ret. eapply HQ; [apply acts_refl, Hs|by constructor]. }
  intros s1 w1 _ Hok1 Hc1 Hl1. apply wp_bind, (wp_store_lifecycle e Henv); [done|]. intros s2 w2 A2.
  pose proof (locked_acts _ _ _ Hl1 A2) as Hl2.
  assert (config_same (st s) (st s2)) as Hc2 by (by eapply config_trans; [|apply A2]).
  do 4 (apply wp_bind, wp_locked_state; [done|]). apply wp_ret. split; [done|]. intros s3 w3 A.
  generalize (adapter (st s2)). intros adapter. rewrite (cs_mac _ _ Hc2), (cs_mtu _ _ Hc2), (cs_maximum _ _ Hc2).
  destruct (Z.eqb_spec adapter 0) as [|Hne].
  { apply wp_ret. eapply HQ; [exact A|constructor]. }
  assert (∃ address, link_layer_address (mac_address (st s)) = Some address) as [address Ha].
  { unfold link_layer_address. rewrite Hmac. by eexists. }
  apply wp_bind, (wp_configure C _ _ _ address _ [] s); [exact A|exact Ha|]. intros s4 w4 A4. clear A.
  announced A4. apply (wp_printed _ _ _ _ _ _ A4). clear A4. intros s5 w5 A4.
  announced A4. apply (wp_printed _ _ _ _ _ _ A4). clear A4. intros s6 w6 A4.
  unfold resume_datapath_callbacks.
  announced A4. apply (wp_printed _ _ _ _ _ _ A4). clear A4. intros s7 w7 A4.
  apply wp_bind. announce; [apply A4|]. intros status s8 w8 A8.
  pose proof (acts_trans _ [_] _ _ _ A4 A8) as A9. apply (wp_printed _ _ _ _ _ _ A9).
  intros s9 w9 A10. apply wp_ret. eapply HQ; [exact A10|].
  exact (prepare_started C (st s) adapter address status Hne Ha).
Qed.

(** ** The receive filter *)

Lemma wp_publish_filter found filters addresses (Q : unit → dev → world dp_ret → Prop) s w :
  idle s → len addresses ≤ 64 → Forall (λ a, len a = 6) addresses →
  (∀ s' w', acts [] s s' → Q tt s' w') → wp e (publish_filter found filters addresses) Q s w.
Proof.
  intros Hs Hn Ha HQ. unfold publish_filter. destruct found; cbn [negb]; [|by apply wp_ret, HQ, acts_refl, Hs].
  apply wp_bind, (wp_with_state e Henv); [done|intros; by apply wp_ret, HQ, acts_refl, Hs|].
  intros s1 w1 _ Hok1 _ Hl1. eapply wp_try_update_state; [done| | | |].
  { exact (update_receive_filter_state_spec filters addresses _ (fo_table _ (io_filter _ Hok1)) Hn). }
  { by split; intros; try done; destruct n. }
  { destruct Hok1 as [Hq ???]. split; [intros []; [apply (Hq Injection)|apply (Hq Capture)]|done|done|].
    by apply filter_table_ok. }
  intros s2 A2. split; [done|]. intros s3 w3 A3. by apply wp_ret, HQ.
Qed.

(** A list that NetAdapterCx gives has as many addresses as it says. *)
Definition filter_complete (f : receive_filter) : Prop :=
  0 ≤ multicast_address_count f ∧
  ∀ l, multicast_address_list f = Some l →
    multicast_address_count f = len l ∧ Forall (λ a, len (Address a) = 32) l.

Lemma wp_set_receive_filter found f (Q : unit → dev → world dp_ret → Prop) s w :
  idle s → filter_complete f → (∀ s' w', acts [] s s' → Q tt s' w') →
  wp e (evt_set_receive_filter found f) Q s w.
Proof.
  intros Hs [Hcount Hlist] HQ. unfold evt_set_receive_filter.
  assert (∀ k s1 w1, acts [] s s1 → (∀ s2 w2, acts [] s s2 → wp e k Q s2 w2) →
    wp e (_ ← (if multicast_address_count f =? Z.min (multicast_address_count f) MAXIMUM_MULTICAST_ADDRESSES
               then mret tt else call DbgPrintEx); k) Q s1 w1) as Hprint.
  { intros k s1 w1 A1 Hk. split_if; [by apply wp_bind, wp_ret, Hk|]. by apply (wp_printed _ [] _ s). }
  apply Hprint; [by apply acts_refl, Hs|]. intros s1 w1 A1.
  assert (∀ addresses s2 w2, acts [] s s2 → len addresses ≤ 64 → Forall (λ a, len a = 6) addresses →
    wp e (publish_filter found (packet_filter f) addresses) Q s2 w2) as Hpublish.
  { intros addresses s2 w2 A2 Hn Ha. apply wp_publish_filter; [exact (idle_acts _ _ _ Hs A2)|done..|].
    intros s3 w3 A3. apply HQ. exact (acts_trans_nil _ _ _ _ A2 A3). }
  split_if; [by apply Hpublish|]. bool_reflect.
  destruct (multicast_address_list f) as [l|] eqn:Hf.
  2: { apply (wp_printed _ [] _ s); [done|]. intros s2 w2 A2. by apply Hpublish. }
  destruct (Hlist l eq_refl) as [Hl Hall]. unfold MAXIMUM_MULTICAST_ADDRESSES in *. unfold len in Hl.
  destruct (copy_addresses_total l (Z.to_nat (Z.min (multicast_address_count f) 64)) ltac:(lia) Hall) as [addresses Hc].
  apply wp_bind, wp_from_option. exists addresses. split; [done|].
  destruct (copy_addresses_ok _ _ _ Hc) as (Hn & Ha & _).
  apply Hpublish; [done|unfold len; lia|done].
Qed.

(** ** Packet queues *)

Lemma wp_packet_queue_start context (Q : unit → dev → world dp_ret → Prop) s w :
  idle s → (∀ s' w', acts [] s s' → Q tt s' w') → wp e (evt_packet_queue_start context) Q s w.
Proof.
  intros Hs HQ. unfold evt_packet_queue_start.
  destruct context as [[[] []]|]; try by apply wp_ret, HQ, acts_refl, Hs.
  all: apply (wp_modify e Henv); [apply Hs|harmless|done].
Qed.

(** The calls of a stop. *)
Definition stop_outcome (i : InstanceState) (l : list note) : Prop :=
  l = [] ∨ l = flush_calls (read_work_item i) ++ [Called CancelWaitForTeardown].

Lemma wp_packet_queue_stop context (Q : unit → dev → world dp_ret → Prop) s w :
  idle s → (∀ l s' w', acts l s s' → stop_outcome (st s) l → Q tt s' w') →
  wp e (evt_packet_queue_stop context) Q s w.
Proof.
  intros Hs HQ. unfold evt_packet_queue_stop.
  assert (∀ s1 w1, acts [] s s1 →
    wp e (_ ← cancel_wait_for_teardown; work_item ← config read_work_item; flush_work_item work_item) Q s1 w1) as Hend.
  { intros s1 w1 A1. pose proof (idle_acts _ _ _ Hs A1) as Hs1.
    apply wp_bind, (wp_cancel_wait e Henv); [done|]. intros s2 w2 A2. pose proof (acts_trans_nil _ _ _ _ A1 A2) as A12.
    apply wp_bind, wp_config. rewrite (work_item_same _ _ _ A12).
    apply (wp_flush e Henv); [exact (idle_acts _ _ _ Hs1 A2)|]. intros s3 w3 A3.
    eapply HQ; [exact (acts_trans _ _ _ _ _ A12 A3)|by right]. }
  destruct context as [[[] []]|]; try by (apply wp_ret; eapply HQ; [apply acts_refl, Hs|by left]).
  - apply wp_bind, (wp_modify e Henv); [apply Hs|harmless|done].
  - apply wp_bind, wp_bind, (wp_modify e Henv); [apply Hs|harmless|]. intros s1 w1 A1.
    apply (wp_modify e Henv); [apply A1|harmless|]. intros s2 w2 A2. apply Hend. exact (acts_trans_nil _ _ _ _ A1 A2).
Qed.

Lemma wp_create_packet_queue adapter_found context_found transmit
    (Q : Z * option QueueContext → dev → world dp_ret → Prop) s w :
  idle s →
  (∀ status s' w', acts [] s s' → Q (status, None) s' w') →
  (∀ collection extension s' w', acts [] s s' → state_lock (st s) ≠ 0 →
     Q (STATUS_SUCCESS, Some {| is_transmit := transmit; rings := collection;
          fragment_extension := extension; context_frame_maximum := frame_maximum (st s);
          context_frame_pool := frame_pool (st s) |}) s' w') →
  wp e (create_packet_queue adapter_found context_found transmit) Q s w.
Proof.
  intros Hs HN HS. unfold create_packet_queue. apply wp_bind. silent; [apply Hs|].
  intros [status packet_queue] s1 w1 _ A1. apply (wp_printed _ _ _ _ _ _ A1). clear A1. intros s2 w2 A.
  destruct (Z.eqb_spec status STATUS_SUCCESS) as [->|]; cbn [negb]; [|by apply wp_ret, HN].
  destruct adapter_found, context_found; cbn [negb]; try by apply wp_ret, HN.
  apply wp_bind. silent; [apply A|]. intros found s3 w3 _ A3. pose proof (acts_trans_nil _ _ _ _ A A3) as A13.
  apply wp_bind. silent; [apply A3|]. intros extension s4 w4 _ A4. pose proof (acts_trans_nil _ _ _ _ A13 A4) as A14.
  destruct found as [collection|]; [|by apply wp_ret, HN].
  apply wp_bind, (wp_with_state e Henv); [exact (idle_acts _ _ _ Hs A14)|intros; by apply wp_ret, HN|].
  intros s5 w5 Hl Hok5 Hc5 Hl5.
  apply wp_bind, wp_locked_state; [done|]. apply wp_bind, wp_locked_state; [done|].
  assert (∀ i, inst_ok i → config_same i (if transmit then i <| tx_queue := packet_queue |> else i <| rx_queue := packet_queue |>)
    ∧ inst_ok (if transmit then i <| tx_queue := packet_queue |> else i <| rx_queue := packet_queue |>)) as Hf
    by (destruct transmit; harmless).
  destruct (Hf _ Hok5). apply wp_bind, wp_update_state; [done..|].
  intros s6 A6. apply wp_ret. split; [done|]. intros s7 w7 A7. apply wp_ret.
  pose proof (ac_config _ _ _ A14) as Hc4.
  rewrite (cs_maximum _ _ Hc5), (cs_maximum _ _ Hc4), (cs_pool _ _ Hc5), (cs_pool _ _ Hc4).
  apply HS; [exact (acts_trans_nil _ _ _ _ A14 A7)|]. by rewrite <- (state_lock_same _ _ _ A14).
Qed.

(** ** The owner's requests *)

Lemma wp_file_create found q (Q : unit → dev → world dp_ret → Prop) s w :
  idle s → q ∈ owned s →
  (∀ status s' w', acts [Completed q status 0 []] (answered q s) s' →
     status ∈ [STATUS_DEVICE_NOT_READY; STATUS_DEVICE_BUSY; STATUS_SUCCESS] → Q tt s' w') →
  wp e (evt_file_create found q) Q s w.
Proof.
  intros Hs Hq HQ. unfold evt_file_create.
  assert (∀ status s1 w1, acts [] s s1 → status ∈ [STATUS_DEVICE_NOT_READY; STATUS_DEVICE_BUSY; STATUS_SUCCESS] →
    wp e (complete_request q status) Q s1 w1) as Hend.
  { intros status s1 w1 A1 Hst. apply (wp_complete_request e Henv); [exact (idle_acts _ _ _ Hs A1)|by rewrite (acts_owned _ _ _ A1)|].
    intros s2 w2 A2. eapply HQ; [exact (acts_answered _ [] _ _ _ _ A1 A2)|done]. }
  destruct found; cbn [negb]; [|apply Hend; [apply acts_refl, Hs|set_solver]].
  apply wp_bind. silent; [apply Hs|]. intros _ s1 w1 _ A1. apply wp_bind, wp_get.
  destruct (control_open (st s1)); [apply Hend; [done|set_solver]|].
  apply wp_bind, wp_put, Hend; [|set_solver]. eapply acts_trans_nil; [exact A1|].
  assert (∀ i, inst_ok i → config_same i (i <| control_open := true |>) ∧ inst_ok (i <| control_open := true |>)) as Hf by harmless.
  destruct (Hf _ (ac_ok _ _ _ A1)). by apply acts_update.
Qed.

(** How a request to poll adaptively ends: refused, or accepted with the version
    and the flags that were asked for. *)
Inductive enable_outcome (q : Z) (b : list Z) : list note → Prop :=
  | enable_refused status : status ≠ STATUS_SUCCESS → enable_outcome q b [Completed q status 0 []]
  | enable_accepted :
      len b = 8 → enable_supported (le_u32 b 0) (le_u32 b 4) = true →
      enable_outcome q b [Completed q STATUS_SUCCESS 8
        (le_bytes 4 ADAPTIVE_POLLING_PROTOCOL_VERSION ++ le_bytes 4 (le_u32 b 4))].

Lemma wp_try_enable (Q : Z → dev → world dp_ret → Prop) s w :
  idle s → (∀ r s' w', acts [] s s' → Q r s' w') → wp e try_enable_adaptive Q s w.
Proof.
  intros Hs HQ. unfold try_enable_adaptive.
  apply wp_bind, (wp_with_state e Henv); [done|intros; by apply wp_ret, HQ, acts_refl, Hs|].
  intros s1 w1 _ Hok1 _ _.
  assert (∀ r s2 w2, acts [] s1 s2 → wp e (mret r) (λ r s2 w2, acts [] s1 s2 ∧
    ∀ s3 w3, acts [] s s3 → wp e (mret (default STATUS_DEVICE_NOT_READY (Some r))) Q s3 w3) s2 w2) as Hend.
  { intros r s2 w2 A2. apply wp_ret. split; [done|]. intros s3 w3 A3. by apply wp_ret, HQ. }
  apply wp_bind, (wp_load e Henv); [done|]. intros s2 w2 A2. split_if; [by apply Hend|].
  apply wp_bind, (wp_load e Henv); [apply A2|]. intros s3 w3 A3. pose proof (acts_trans_nil _ _ _ _ A2 A3) as A13.
  assert (∀ claims s4 w4, acts [] s1 s4 → wp e (if negb (claims =? 0) then mret STATUS_DEVICE_BUSY
      else _ ← modify (λ i, i <| adaptive_enabled := true |>); mret STATUS_SUCCESS)
    (λ r s2 w2, acts [] s1 s2 ∧
      ∀ s3 w3, acts [] s s3 → wp e (mret (default STATUS_DEVICE_NOT_READY (Some r))) Q s3 w3) s4 w4) as Htry.
  { intros claims s4 w4 A4. split_if; [by apply Hend|].
    apply wp_bind, (wp_modify e Henv); [apply A4|harmless|]. intros s5 w5 A5. apply Hend.
    exact (acts_trans_nil _ _ _ _ A4 A5). }
  assert (∀ reads s4 w4, acts [] s1 s4 →
    wp e (claims ← (if reads =? 0 then load legacy_direct_read_claims else mret 1);
          if negb (claims =? 0) then mret STATUS_DEVICE_BUSY
          else _ ← modify (λ i, i <| adaptive_enabled := true |>); mret STATUS_SUCCESS)
    (λ r s2 w2, acts [] s1 s2 ∧
      ∀ s3 w3, acts [] s s3 → wp e (mret (default STATUS_DEVICE_NOT_READY (Some r))) Q s3 w3) s4 w4) as Hclaims.
  { intros reads s4 w4 A4. apply wp_bind. split_if; [|by apply wp_ret, Htry].
    apply (wp_load e Henv); [apply A4|]. intros s5 w5 A5. apply Htry. exact (acts_trans_nil _ _ _ _ A4 A5). }
  apply wp_bind. destruct (adaptive_enabled (st s3)); [by apply wp_ret, Hclaims|].
  apply (wp_load e Henv); [apply A13|]. intros s4 w4 A4. apply Hclaims. exact (acts_trans_nil _ _ _ _ A13 A4).
Qed.

(** A guarded piece that answers the request. *)
Lemma wp_leave_guard q lock (m : D unit) (P : list note → Prop) (Q : unit → dev → world dp_ret → Prop) s s1 w1 :
  inst_ok (st s) → guards s = ∅ → acts [] (s <| guards := {[lock]} ∪ guards s |>) s1 →
  wp e m (λ _ s2 _, ∃ l, acts l (answered q (s <| guards := {[lock]} ∪ guards s |>)) s2 ∧ P l) s1 w1 →
  (∀ l s2 w2, acts l (answered q s) s2 → P l → Q tt s2 w2) →
  wp e (_ ← m; guard_release lock) Q s1 w1.
Proof.
  intros Hok Hg A1 Hm HQ. apply wp_bind. eapply wp_mono; [exact Hm|]. intros [] s2 w2 (l & A2 & Hl).
  apply wp_guard_release; [done|apply A2| |].
  { rewrite (acts_guards _ _ _ A2). cbn. set_solver. }
  intros s3 w3 A3. eapply HQ; [|exact Hl].
  eapply (acts_guarded l lock (answered q s)); [cbn; by rewrite Hg| |exact A2|exact A3].
  replace ((answered q s) <| guards := {[lock]} ∪ guards (answered q s) |>)
    with (answered q (s <| guards := {[lock]} ∪ guards s |>)) by done.
  by apply acts_refl.
Qed.

Lemma wp_enable_polling q n m b (Q : unit → dev → world dp_ret → Prop) s w :
  idle s → guards s = ∅ → q ∈ owned s → inputs s !! q = Some b →
  (∀ l s' w', acts l (answered q s) s' → enable_outcome q b l → Q tt s' w') →
  wp e (handle_enable_adaptive_polling q n m) Q s w.
Proof.
  intros Hs Hg Hq Hb HQ. unfold handle_enable_adaptive_polling.
  assert (∀ status s1 w1, serves q [] s s1 → status ≠ STATUS_SUCCESS → wp e (complete_request q status) Q s1 w1) as Hend.
  { intros status s1 w1 A1 Hst.
    apply (wp_complete_request e Henv); [by eapply serves_idle|by rewrite (serves_owned _ _ _ _ A1)|].
    intros s2 w2 A2. eapply HQ; [exact (serves_answered _ [] _ _ _ _ A1 A2)|by constructor]. }
  split_if; [by apply Hend; [apply serves_acts, acts_refl, Hs|]|].
  apply wp_bind, (wp_retrieve_input e Henv q _ b); [done..|]. intros [status actual] s1 w1 A1 Hn. cbn in Hn.
  split_if.
  { apply Hend; [done|]. destruct (Z.eqb_spec status STATUS_SUCCESS); done. }
  bool_reflect. destruct (Z.eqb_spec status STATUS_SUCCESS) as [->|]; [|done].
  destruct (Z.eqb_spec actual size_of_AdaptiveEnableRequest) as [->|]; [|done].
  apply wp_bind, wp_get, wp_bind, wp_from_option. exists b. split; [by eapply serves_input|].
  destruct (enable_supported (le_u32 b 0) (le_u32 b 4)) eqn:Hsup; cbn [negb]; [|by apply Hend].
  apply wp_bind, (wp_retrieve_output e Henv); [by eapply serves_idle|]. intros [status actual] s2 w2 A2 Hout.
  cbn in Hout. pose proof (serves_trans _ [] [] _ _ _ A1 A2) as A12. cbn in A12.
  split_if.
  { apply Hend; [done|]. destruct (Z.eqb_spec status STATUS_SUCCESS); done. }
  bool_reflect. destruct (Z.eqb_spec status STATUS_SUCCESS) as [->|]; [|done].
  destruct (Hout eq_refl) as (o & Ho & Hlen). clear Hout.
  pose proof (serves_idle _ _ _ _ Hs A12) as Hs2.
  apply wp_bind, wp_config. set (lock := legacy_direct_read_lock (st s2)).
  assert (guards s2 = ∅) as Hg2 by (by rewrite (serves_guards _ _ _ _ A12)).
  apply wp_bind, wp_guard_acquire; [done|apply Hs2|by rewrite Hg2| |]; cbn [negb].
  { intros s3 w3 A3. apply Hend; [|done]. exact (serves_then_acts _ _ [] _ _ _ A12 A3). }
  intros s3 w3 A3. set (sg := s2 <| guards := {[lock]} ∪ guards s2 |>) in *.
  assert (idle sg) as Hsg by (split; apply Hs2).
  apply wp_assoc.
  eapply (wp_leave_guard q lock _ (enable_outcome q b) _ s2); [apply Hs2|done|exact A3| |].
  2: { intros l s4 w4 A4 Hl. eapply HQ; [|exact Hl].
       pose proof (serves_answered _ _ _ _ _ _ A12 A4) as A. by rewrite app_nil_r in A. }
  apply wp_bind, wp_try_enable; [exact (idle_acts _ _ _ Hsg A3)|]. intros status s4 w4 A4.
  pose proof (acts_trans_nil _ _ _ _ A3 A4) as A34. pose proof (idle_acts _ _ _ Hsg A34) as Hs4.
  assert (q ∈ owned s4) as Hq4.
  { rewrite (acts_owned _ _ _ A34). cbn. by rewrite (serves_owned _ _ _ _ A12). }
  destruct (Z.eqb_spec status STATUS_SUCCESS) as [->|Hne].
  - apply wp_bind, (wp_write_output e q 0 _ o); [apply Hs4|by rewrite (acts_outputs _ _ _ A34)|done| |].
    { unfold len in *. rewrite length_app, !le_bytes_length. unfold size_of_AdaptiveEnableResponse in *. lia. }
    intros s5 A5 Ho5. apply (wp_complete_with e Henv); [by eapply serves_idle|by rewrite (serves_owned _ _ _ _ A5)|].
    intros s6 w6 A6. rewrite Ho5 in A6. cbn [option.from_option id] in A6.
    eexists. split.
    + eapply (serves_answered q [] [_]); [|exact A6].
      exact (serves_trans _ [] [] _ _ _ (serves_acts _ _ _ _ A34) A5).
    + assert (len (le_bytes 4 ADAPTIVE_POLLING_PROTOCOL_VERSION ++ le_bytes 4 (le_u32 b 4)) = 8) as E8
        by (unfold len; by rewrite length_app, !le_bytes_length).
      assert (size_of_AdaptiveEnableResponse = 8) as E by done. rewrite E. rewrite <- E8 at 2.
      rewrite take_splice by (rewrite E8; lia). apply enable_accepted; [by rewrite <- (Hn eq_refl)|done].
  - apply (wp_complete_request e Henv); [done..|]. intros s5 w5 A5. eexists.
    split; [exact (acts_answered _ [] _ _ _ _ A34 A5)|by constructor].
Qed.

(** A control request is answered here, or belongs to the adaptive wait. *)
Inductive control_outcome (q n m : Z) (b : list Z) : list note → Prop :=
  | control_refused status : status ≠ STATUS_SUCCESS → control_outcome q n m b [Completed q status 0 []]
  | control_enable l : enable_outcome q b l → control_outcome q n m b l
  | control_wait : control_outcome q n m b [Called (HandleWaitForChange q n m)].

Lemma wp_device_control found q n m ioctl b (Q : unit → dev → world dp_ret → Prop) s w :
  idle s → guards s = ∅ → q ∈ owned s → inputs s !! q = Some b →
  (∀ l s' w', acts l (answered q s) s' → control_outcome q n m b l → Q tt s' w') →
  wp e (evt_io_device_control found q n m ioctl) Q s w.
Proof.
  intros Hs Hg Hq Hb HQ. unfold evt_io_device_control.
  assert (∀ status, status ≠ STATUS_SUCCESS → wp e (complete_request q status) Q s w) as Hend.
  { intros status Hst. apply (wp_complete_request e Henv); [done..|]. intros s2 w2 A2.
    eapply HQ; [exact A2|by constructor]. }
  destruct found; cbn [negb]; [|by apply Hend].
  split_if.
  { eapply wp_enable_polling; [done..|]. intros l s1 w1 A1 Hl. eapply HQ; [exact A1|by constructor]. }
  split_if; [|by apply Hend].
  unfold handle_wait_for_change. apply wp_bind, wp_get. rewrite decide_True by done.
  apply wp_bind, wp_put. announce; [apply Hs|]. intros [] s1 w1 A1.
  eapply HQ; [exact A1|apply control_wait].
Qed.

(** Stopping a request of the manual queue completes it; one of the control queue
    is left to the adaptive wait. *)
Lemma wp_io_stop found queue q (Q : unit → dev → world dp_ret → Prop) s w :
  idle s → (found = false ∨ queue = read_queue (st s) → q ∈ owned s) →
  (∀ l s' w', acts l (answered q s) s' →
     l = [Completed q STATUS_CANCELLED 0 []] ∨
     l = [Completed q STATUS_CANCELLED 0 []; AdmissionReturned PendingReads] → Q tt s' w') →
  (∀ s' w', acts [] s s' → queue ≠ read_queue (st s) → Q tt s' w') →
  wp e (evt_io_stop found queue q) Q s w.
Proof.
  intros Hs Hq HC HW. unfold evt_io_stop. destruct found; cbn [negb].
  2: { apply (wp_complete_request e Henv); [done|by apply Hq; left|]. intros s1 w1 A1. eapply HC; [exact A1|by left]. }
  apply wp_bind, wp_config. destruct (Z.eqb_spec queue (read_queue (st s))) as [E|E].
  - apply wp_bind, (wp_release_request e Henv); [apply Hs|]. intros s1 w1 A1.
    apply (wp_complete_request e Henv); [exact (idle_acts _ _ _ Hs A1)|rewrite (acts_owned _ _ _ A1); apply Hq; by right|].
    intros s2 w2 A2. eapply HC; [exact (acts_answered _ [_] [_] _ _ _ A1 A2)|by right].
  - apply wp_bind. silent; [apply Hs|]. intros active s1 w1 _ A1. destruct active; [|by apply wp_ret, HW].
    apply wp_bind. silent; [apply A1|]. intros _ s2 w2 _ A2. apply wp_ret, HW; [|done].
    exact (acts_trans_nil _ _ _ _ A1 A2).
Qed.

End handlers.
