(* ===== verification/LifecyclePower.v ===== *)
(** * The packet driver's life cycle: the power state machine

    The life-cycle callbacks against an abstract machine of five phases.  Other
    threads may move frames, requests and counters while a callback runs, but
    not open or close anything ([undisturbed]): the framework runs these
    callbacks one after another. *)

From S2P Require Import Prelude Words DriverConstants Effects Ring FrameQueue Datapath DatapathPaths DatapathSpec DatapathRequests Lifecycle LifecycleSpec LifecycleHandlers.

(** ** What the machine sees of the driver *)

Record view := {
  v_equipped : bool;
  v_lifecycle : Z;
  v_adapter : Z;
  v_owner : bool;
  v_adaptive : bool;
  v_injection : option QueueState;
  v_capture : option QueueState;
  v_filter : Z * Z * list (list Z);   (* the receive filter *)
  v_closed : gset Z;                  (* the closers that are set *)
}.

#[export] Instance view_eta : Eta view := λ v,
  Build_view (v_equipped v) (v_lifecycle v) (v_adapter v) (v_owner v) (v_adaptive v)
    (v_injection v) (v_capture v) (v_filter v) (v_closed v).

(** Every lock and both queues were created. *)
Definition equipped (i : InstanceState) : bool :=
  negb (state_lock i =? 0) && negb (injection_lock i =? 0) && negb (capture_lock i =? 0)
  && negb (legacy_direct_read_lock i =? 0) && negb (write_lifetime_lock i =? 0)
  && bool_decide (is_Some (injection_queue i)) && bool_decide (is_Some (capture_queue i)).

Definition closers_after (x : note) (closed : gset Z) : gset Z :=
  match x with
  | Called (QuiesceDatapathCallbacks c) => {[c]} ∪ closed
  | Called (ResumeDatapathCallbacks c) => closed ∖ {[c]}
  | _ => closed
  end.

(** The closers set after the notes of [l], the latest first. *)
Fixpoint closers_of (l : list note) (closed : gset Z) : gset Z :=
  match l with [] => closed | x :: l => closers_after x (closers_of l closed) end.

(** [closed]: the closers that were set before the log starts. *)
Definition view_of (closed : gset Z) (s : dev) : view := {|
  v_equipped := equipped (st s);
  v_lifecycle := lifecycle (st s);
  v_adapter := adapter (st s);
  v_owner := control_open (st s);
  v_adaptive := adaptive_enabled (st s);
  v_injection := queue_state <$> injection_queue (st s);
  v_capture := queue_state <$> capture_queue (st s);
  v_filter := (active_packet_filters (st s), active_multicast_address_count (st s),
               active_multicast_addresses (st s));
  v_closed := closers_of (log s) closed |}.

(** ** Phases and callbacks *)

Inductive phase := Unprepared | Prepared | Working | LowPower | Released.

Inductive callback := PrepareHardware | D0Entry | D0Exit | ReleaseHardware | FileCleanup.

(** The order in which the framework runs the power callbacks; an owner's file is
    cleaned up at any time. *)
Inductive transition : phase → callback → phase → Prop :=
  | t_prepare : transition Unprepared PrepareHardware Prepared
  | t_entry : transition Prepared D0Entry Working
  | t_exit : transition Working D0Exit LowPower
  | t_resume : transition LowPower D0Entry Working
  | t_release : transition LowPower ReleaseHardware Released
  | t_release_unstarted : transition Prepared ReleaseHardware Released
  | t_prepare_again : transition Released PrepareHardware Released
  | t_cleanup p : transition p FileCleanup p.

Record realises (p : phase) (v : view) : Prop := {
  re_equipped : v_equipped v = true;
  re_lifecycle :
    match p with
    | Unprepared | Working => v_lifecycle v = INSTANCE_OPEN
    | Prepared => v_lifecycle v = INSTANCE_CLOSING
    | LowPower => v_lifecycle v = INSTANCE_SUSPENDED
    | Released => v_lifecycle v = INSTANCE_CLOSED ∨ v_lifecycle v = INSTANCE_CLOSING
    end;
  re_adapter : v_adapter v = 0 ↔ p = Released;
  re_queues :
    match p with
    | Prepared => True
    | Unprepared | Working => v_injection v = Some QOpen ∧ v_capture v = Some QOpen
    | LowPower | Released => v_injection v = Some QClosed ∧ v_capture v = Some QClosed
    end;
  re_closed :
    match p with
    | Unprepared => v_closed v = {[DATAPATH_CLOSED_HARDWARE]}
    | Prepared | Working => v_closed v = ∅
    | LowPower => v_closed v = {[DATAPATH_CLOSED_POWER]}
    | Released => DATAPATH_CLOSED_HARDWARE ∈ v_closed v ∧ DATAPATH_CLOSED_OWNER ∉ v_closed v
    end;
}.

Definition run_callback (C : adapter_constants) (c : callback) : D Z :=
  match c with
  | PrepareHardware => evt_device_prepare_hardware C true
  | D0Entry => evt_device_d0_entry true
  | D0Exit => evt_device_d0_exit true
  | ReleaseHardware => evt_device_release_hardware true
  | FileCleanup => _ ← evt_file_cleanup true; mret STATUS_SUCCESS
  end.

(** ** Following the view through a program *)

Section follow.
Context (closed : gset Z) (e : env dev dp_ret).

Abbreviation view_of := (view_of closed).

Record undisturbed : Prop := {
  un_view w c s : view_of (e w c s).2 = view_of s;
  un_waits w lock s : (e w (WdfWaitLockAcquire lock false) s).1 = STATUS_SUCCESS;
}.

Context (Hund : undisturbed).

(** Every run of [m] from a state with view [v] ends as [Q] says. *)
Definition leads {A} (m : D A) (v : view) (Q : A → view → Prop) : Prop :=
  ∀ s w a s' w', view_of s = v → m e s w = Some (a, s', w') → Q a (view_of s').

Lemma wp_leads {A} (m : D A) P Q s w :
  wp e m P s w → leads m (view_of s) Q → wp e m (λ a s' w', P a s' w' ∧ Q a (view_of s')) s w.
Proof.
  intros (a & s' & w' & Hm & HP) HQ. exists a, s', w'. split; [done|]. split; [done|]. by eapply HQ.
Qed.

Lemma leads_ret {A} (a : A) v (Q : A → view → Prop) : Q a v → leads (mret a) v Q.
Proof. by intros HQ s w a' s' w' <- [= -> -> ->]. Qed.

Lemma leads_bind {A B} (m : D A) (f : A → D B) v Q :
  leads m v (λ a v', leads (f a) v' Q) → leads (m ≫= f) v Q.
Proof.
  intros Hm s w b s' w' Hv H. unfold mbind, M_bind in H.
  destruct (m e s w) as [[[a s1] w1]|] eqn:Hrun; [|done]. by eapply (Hm _ _ _ _ _ Hv Hrun).
Qed.

Lemma leads_mono {A} (m : D A) v (P Q : A → view → Prop) :
  leads m v P → (∀ a v', P a v' → Q a v') → leads m v Q.
Proof. intros Hm HPQ s w a s' w' Hv H. by eapply HPQ, Hm. Qed.

Lemma leads_undefined {A} v Q : leads (undefined : D A) v Q.
Proof. by intros s w a s' w' _ H. Qed.

Lemma leads_from_option {A} (o : option A) v (Q : A → view → Prop) :
  (∀ a, o = Some a → Q a v) → leads (from_option o) v Q.
Proof. intros HQ. destruct o as [a|]; [by apply leads_ret, HQ|apply leads_undefined]. Qed.

Lemma leads_call c v (Q : dp_ret c → view → Prop) : (∀ r, Q r v) → leads (call c) v Q.
Proof. intros HQ s w r s' w' Hv [= <- <- _]. rewrite (un_view Hund), Hv. apply HQ. Qed.

Ltac calls :=
  lazymatch goal with
  | |- leads (do_call ?c) ?v ?Q => refine (leads_call c v Q _)
  end.

Lemma leads_get {A} (f : dev → D A) v Q :
  (∀ s, view_of s = v → leads (f s) v Q) → leads (s ← get; f s) v Q.
Proof. intros Hf s w a s' w' Hv H. exact (Hf s Hv s w a s' w' Hv H). Qed.

Lemma leads_put {A} s0 (k : D A) v v' Q :
  view_of s0 = v' → leads k v' Q → leads (_ ← put s0; k) v Q.
Proof. intros H0 Hk s w a s' w' Hv H. exact (Hk s0 w a s' w' H0 H). Qed.

Lemma leads_put_last s0 v (Q : unit → view → Prop) : Q tt (view_of s0) → leads (put s0) v Q.
Proof. by intros HQ s w a s' w' Hv [= <- <- <-]. Qed.

Lemma leads_config {A} (f : InstanceState → A) v (Q : A → view → Prop) :
  (∀ s, view_of s = v → Q (f (st s)) v) → leads (config f) v Q.
Proof. intros HQ. unfold config. apply leads_get. intros s Hs. by apply leads_ret, HQ. Qed.

Lemma leads_load {A} (f : InstanceState → A) v (Q : A → view → Prop) :
  (∀ s, view_of s = v → Q (f (st s)) v) → leads (load f) v Q.
Proof. intros HQ. unfold load. apply leads_bind; calls. intros _. by apply leads_config. Qed.

(** A store that moves the view by [g]. *)
Definition stores (f : InstanceState → InstanceState) (g : view → view) : Prop :=
  ∀ s, view_of (s <| st := f (st s) |>) = g (view_of s).

Lemma leads_modify f g v (Q : unit → view → Prop) : stores f g → Q tt (g v) → leads (modify f) v Q.
Proof.
  intros Hf HQ. unfold modify. apply leads_bind; calls. intros _. apply leads_get. intros s Hs.
  apply leads_put_last. by rewrite Hf, Hs.
Qed.

Lemma leads_update_state f g v (Q : unit → view → Prop) :
  stores f g → Q tt (g v) → leads (update_state f) v Q.
Proof.
  intros Hf HQ. unfold update_state. apply leads_get. intros s Hs.
  destruct (decide _); [|apply leads_undefined]. apply leads_put_last. by rewrite Hf, Hs.
Qed.

Lemma leads_locked_state {A} (f : InstanceState → A) v (Q : A → view → Prop) :
  (∀ s, view_of s = v → Q (f (st s)) v) → leads (locked_state f) v Q.
Proof.
  intros HQ. unfold locked_state. apply leads_get. intros s Hs.
  destruct (decide _); [|apply leads_undefined]. by apply leads_ret, HQ.
Qed.

Lemma leads_record x v (Q : unit → view → Prop) :
  Q tt (v <| v_closed := closers_after x (v_closed v) |>) → leads (record x) v Q.
Proof. intros HQ. unfold record. apply leads_get. intros s <-. by apply leads_put_last. Qed.

Lemma leads_announce c v (Q : dp_ret c → view → Prop) :
  (∀ r, Q r (v <| v_closed := closers_after (Called c) (v_closed v) |>)) → leads (announce c) v Q.
Proof. intros HQ. apply leads_bind, leads_record; calls; apply HQ. Qed.

Lemma leads_passive {A} (m : D A) v Q : leads m v Q → leads (passive m) v Q.
Proof.
  intros Hm. unfold passive. apply leads_get. intros s _. destruct (decide _); [done|apply leads_undefined].
Qed.

Lemma leads_with_lock {A} lock (m : D A) v Q : leads m v Q → leads (with_lock lock m) v Q.
Proof.
  intros Hm. unfold with_lock, spin_acquire, spin_release. apply leads_bind, leads_get. intros s Hs.
  destruct (decide _); [apply leads_undefined|]. apply leads_bind; calls. intros _.
  apply leads_get. intros s1 Hs1. apply leads_put_last. change (view_of (s1 <| held := _ |>)) with (view_of s1).
  rewrite Hs1. apply leads_bind. eapply leads_mono; [exact Hm|]. intros r v' HQ.
  apply leads_bind, leads_get. intros s2 Hs2. destruct (decide _); [|apply leads_undefined].
  eapply leads_put; [exact Hs2|]. calls. intros _. by apply leads_ret.
Qed.

Lemma equipped_locks i : equipped i = true →
  state_lock i ≠ 0 ∧ injection_lock i ≠ 0 ∧ capture_lock i ≠ 0 ∧ legacy_direct_read_lock i ≠ 0 ∧
  write_lifetime_lock i ≠ 0 ∧ is_Some (injection_queue i) ∧ is_Some (capture_queue i).
Proof.
  unfold equipped. intros H. repeat (apply andb_true_iff in H as [H ?]).
  repeat match goal with
         | E : bool_decide _ = true |- _ => apply bool_decide_eq_true in E
         | E : negb _ = true |- _ => apply negb_true_iff, Z.eqb_neq in E
         end. done.
Qed.

Lemma view_equipped s v : view_of s = v → v_equipped v = true → equipped (st s) = true.
Proof. by intros <-. Qed.

Lemma leads_with_state {A} (m : D A) v (Q : option A → view → Prop) :
  v_equipped v = true → leads m v (λ r, Q (Some r)) → leads (with_state m) v Q.
Proof.
  intros Hq Hm. unfold with_state. apply leads_bind, leads_config. intros s Hs.
  destruct (equipped_locks _ (view_equipped _ _ Hs Hq)) as (Hl & _).
  rewrite (proj2 (Z.eqb_neq _ _) Hl). apply leads_bind, leads_with_lock.
  eapply leads_mono; [exact Hm|]. intros r v' HQ. by apply leads_ret.
Qed.

Lemma leads_guard_release lock v (Q : unit → view → Prop) : Q tt v → leads (guard_release lock) v Q.
Proof.
  intros HQ. unfold guard_release. apply leads_get. intros s Hs. destruct (decide _); [|apply leads_undefined].
  eapply leads_put; [exact Hs|]. by calls; intros [].
Qed.

(** A wait lock is acquired in the end. *)
Lemma leads_guard_acquire lock v (Q : bool → view → Prop) :
  lock ≠ 0 → Q true v → leads (guard_acquire lock false) v Q.
Proof.
  intros Hl HQ. unfold guard_acquire. rewrite (proj2 (Z.eqb_neq _ _) Hl). apply leads_get. intros s Hs.
  destruct (decide _); [apply leads_undefined|]. apply leads_bind.
  intros s1 w1 r s2 w2 Hv Hrun. assert (r = STATUS_SUCCESS ∧ view_of s2 = v) as [-> ->].
  { injection Hrun as <- <- _. split; [apply (un_waits Hund)|]. rewrite <- Hv. exact (un_view Hund w1 (WdfWaitLockAcquire lock false) s1). }
  rewrite Z.eqb_refl.
  apply leads_get. intros s3 Hs3. eapply leads_put; [exact Hs3|]. by apply leads_ret.
Qed.

Lemma leads_with_guards {A} (m : D A) v (Q : option A → view → Prop) :
  v_equipped v = true → leads m v (λ r, Q (Some r)) → leads (with_guards m) v Q.
Proof.
  intros Hq Hm. unfold with_guards. apply leads_bind, leads_config. intros s Hs.
  destruct (equipped_locks _ (view_equipped _ _ Hs Hq)) as (_ & _ & _ & Hd & _).
  apply leads_bind, leads_passive, leads_guard_acquire; [done|]. cbn [negb].
  apply leads_bind, leads_config. intros s1 Hs1.
  destruct (equipped_locks _ (view_equipped _ _ Hs1 Hq)) as (_ & _ & _ & _ & Hw & _).
  apply leads_bind, leads_passive, leads_guard_acquire; [done|].
  apply leads_bind, leads_bind. eapply leads_mono; [exact Hm|]. intros r v' HQ.
  apply leads_bind, leads_guard_release, leads_ret, leads_bind, leads_guard_release. by apply leads_ret.
Qed.

(** ** The frame queues *)

Definition set_view (n : queue_name) (q : QueueState) (v : view) : view :=
  match n with Injection => v <| v_injection := Some q |> | Capture => v <| v_capture := Some q |> end.

Lemma view_frees l s : view_of (s <| log := rev (Freed <$> l) ++ log s |>) = view_of s.
Proof.
  unfold LifecyclePower.view_of. cbn. f_equal. induction l as [|f l IH] using rev_ind; [done|].
  rewrite fmap_app, rev_app_distr. cbn. done.
Qed.

Lemma leads_drop_frames fs v (Q : unit → view → Prop) : Q tt v → leads (drop_frames fs) v Q.
Proof.
  revert v. induction fs as [|f fs IH]; intros v HQ; cbn; [by apply leads_ret|].
  apply leads_bind. unfold drop_frame. apply leads_bind, leads_from_option. intros _ _. apply leads_bind.
  assert (leads (record (Freed f)) v (λ _ v', leads (drop_frames fs) v' Q)) as Hrec.
  { apply leads_record. cbn [closers_after]. replace (v <| v_closed := v_closed v |>) with v by (by destruct v). by apply IH. }
  destruct (_ =? 0); [by apply leads_ret|]. by calls.
Qed.

(** The state a close or a reopen leaves. *)
Definition reset_state (o : queue_op) : QueueState :=
  match o with QReopen => QOpen | _ => QClosed end.

Lemma queue_reset_state q o r : o = QClose ∨ o = QReopen → queue_step q o = Some r → queue_state r.1 = reset_state o.
Proof.
  intros Ho H. destruct Ho as [-> | ->]; unfold queue_step, close, reopen in H;
    destruct (clear_frames q) as [cleared|]; try done; by injection H as <-.
Qed.

Lemma view_set_queue n q s x :
  closers_after x = id → is_Some (queue_of n (st s)) →
  view_of (s <| st := set_queue n q (st s) |> <| log := x :: log s |>) = set_view n (queue_state q) (view_of s).
Proof.
  intros Hx [q0 Hq]. unfold LifecyclePower.view_of, set_view, equipped.
  destruct n; cbn in Hq |- *; by rewrite Hx, Hq.
Qed.

Lemma leads_reset_queue n o v (Q : unit → view → Prop) :
  o = QClose ∨ o = QReopen → v_equipped v = true → Q tt (set_view n (reset_state o) v) →
  leads (reset_queue n o) v Q.
Proof.
  intros Ho Hq HQ. unfold reset_queue. apply leads_bind, leads_config. intros s Hs.
  assert (∀ s, view_of s = v → queue_lock n (st s) ≠ 0 ∧ is_Some (queue_of n (st s))) as Hn.
  { intros s' Hs'. destruct (equipped_locks _ (view_equipped _ _ Hs' Hq)) as (_ & ? & ? & _ & _ & ? & ?). by destruct n. }
  rewrite (proj2 (Z.eqb_neq _ _) (proj1 (Hn s Hs))). apply leads_bind, leads_with_lock.
  unfold queue_call, locked_queue. apply leads_bind, leads_get. intros s1 Hs1.
  destruct (decide _); [|apply leads_undefined]. apply leads_ret.
  destruct (Hn s1 Hs1) as [_ [q Hq1]]. rewrite Hq1. apply leads_bind, leads_from_option. intros r Hr.
  apply leads_get. intros s2 Hs2. eapply leads_put; [by apply view_set_queue; [|apply (Hn s2 Hs2)]|].
  rewrite (queue_reset_state _ _ _ Ho Hr), Hs2. apply leads_bind, leads_drop_frames, leads_ret.
  unfold bump_generation. eapply (leads_modify _ id); [|exact HQ].
  intros s3. by destruct n.
Qed.

Definition set_both (q : QueueState) (v : view) : view :=
  v <| v_injection := Some q |> <| v_capture := Some q |>.

Lemma leads_both_reset {A} o (k : D A) v Q :
  o = QClose ∨ o = QReopen → v_equipped v = true → leads k (set_both (reset_state o) v) Q →
  leads (_ ← (_ ← reset_queue Injection o; reset_queue Capture o); k) v Q.
Proof.
  intros Ho Hq Hk. apply leads_bind, leads_bind, leads_reset_queue; [done..|].
  apply leads_reset_queue; [done|done|]. exact Hk.
Qed.

(** ** The callbacks *)

Definition store_closed (f : gset Z → gset Z) (v : view) : view := v <| v_closed := f (v_closed v) |>.

Lemma leads_store_lifecycle x v (Q : unit → view → Prop) :
  Q tt (v <| v_lifecycle := x |>) → leads (store_lifecycle x) v Q.
Proof. intros HQ. by apply (leads_modify _ (λ v, v <| v_lifecycle := x |>)). Qed.

Lemma leads_clear_pending {A} (k : D A) v Q : leads k v Q → leads (_ ← clear_pending; k) v Q.
Proof.
  intros Hk. apply leads_bind, leads_bind. eapply (leads_modify _ id); [done|].
  eapply (leads_modify _ id); [done|exact Hk].
Qed.

(** A call that moves no closer. *)
Lemma leads_plain c v (Q : dp_ret c → view → Prop) :
  closers_after (Called c) = id → (∀ r, Q r v) → leads (announce c) v Q.
Proof. intros Hc HQ. apply leads_announce. intros r. rewrite Hc. destruct v; apply HQ. Qed.

Ltac plain :=
  lazymatch goal with
  | |- leads (announce ?c) ?v ?Q => refine (leads_plain c v Q eq_refl _)
  end.

Lemma leads_flush w v (Q : unit → view → Prop) : Q tt v → leads (flush_work_item w) v Q.
Proof.
  intros HQ. unfold flush_work_item. split_if; [by apply leads_ret|]. apply leads_passive. plain. by intros [].
Qed.

Lemma leads_start q v (Q : unit → view → Prop) : Q tt v → leads (resume_manual_queue q) v Q.
Proof. intros HQ. unfold resume_manual_queue. split_if; [by apply leads_ret|]. plain. by intros []. Qed.

Lemma leads_purge adaptive q v (Q : unit → view → Prop) : Q tt v → leads (purge_manual_reads adaptive q) v Q.
Proof.
  intros HQ. unfold purge_manual_reads, purge_queue. destruct adaptive; [by apply leads_ret|].
  split_if; [by apply leads_ret|]. apply leads_passive. plain. by intros [].
Qed.

Lemma leads_cancel_wait v (Q : unit → view → Prop) : Q tt v → leads cancel_wait_for_teardown v Q.
Proof. intros HQ. apply leads_passive. plain. by intros []. Qed.

Lemma leads_quiesce c v (Q : unit → view → Prop) :
  Q tt (store_closed (union {[c]}) v) → leads (quiesce_datapath_callbacks c) v Q.
Proof.
  intros HQ. unfold quiesce_datapath_callbacks. apply leads_get. intros s Hs.
  destruct (decide _); [|apply leads_undefined].
  refine (leads_announce (QuiesceDatapathCallbacks c) v Q _). by intros [].
Qed.

Lemma leads_resume c v (Q : unit → view → Prop) :
  Q tt (store_closed (λ closed, closed ∖ {[c]}) v) → leads (resume_datapath_callbacks c) v Q.
Proof. intros HQ. refine (leads_announce (ResumeDatapathCallbacks c) v Q _). by intros []. Qed.

Lemma leads_close_down {A} w q adaptive (k : D A) v Q :
  v_equipped v = true → leads k (set_both QClosed v) Q →
  leads (_ ← cancel_wait_for_teardown; _ ← flush_work_item w; _ ← purge_manual_reads adaptive q;
         _ ← clear_frame_queues; k) v Q.
Proof.
  intros Hq Hk. apply leads_bind, leads_cancel_wait, leads_bind, leads_flush, leads_bind, leads_purge.
  apply (leads_both_reset QClose); [by left|done..].
Qed.

Lemma leads_read_side v (Q : option (Z * Z * bool) → view → Prop) :
  v_equipped v = true → (∀ x, Q (Some x) v) → leads read_side v Q.
Proof.
  intros Hq HQ. apply leads_with_state; [done|]. apply leads_bind, leads_locked_state. intros s _.
  apply leads_bind, leads_locked_state. intros s1 _. apply leads_bind, leads_load. intros s2 _.
  apply leads_ret, HQ.
Qed.

Definition entry_view (v : view) : view :=
  store_closed (λ closed, closed ∖ {[DATAPATH_CLOSED_POWER]}) (set_both QOpen v <| v_lifecycle := INSTANCE_OPEN |>).

Lemma leads_d0_entry v :
  v_equipped v = true → leads (evt_device_d0_entry true) v (λ r v', r = STATUS_SUCCESS ∧ v' = entry_view v).
Proof.
  intros Hq. unfold evt_device_d0_entry. cbn [negb]. apply leads_bind, leads_with_state; [done|].
  apply leads_bind, leads_locked_state. intros s _. apply leads_bind, leads_load. intros s1 _. apply leads_ret.
  apply leads_bind. eapply (leads_mono _ _ (λ _ v', v' = v)).
  { destruct (adaptive_enabled (st s1)); [by apply leads_ret|by apply leads_start]. }
  intros _ _ ->. apply (leads_both_reset QReopen); [by right|done|].
  apply leads_bind, leads_with_state; [done|]. apply leads_store_lifecycle.
  apply leads_bind, leads_resume, leads_ret. done.
Qed.

Definition exit_view (v : view) : view :=
  set_both QClosed (store_closed (union {[DATAPATH_CLOSED_POWER]}) (v <| v_lifecycle := INSTANCE_SUSPENDED |>)).

Lemma leads_d0_exit v :
  v_equipped v = true → leads (evt_device_d0_exit true) v (λ r v', r = STATUS_SUCCESS ∧ v' = exit_view v).
Proof.
  intros Hq. unfold evt_device_d0_exit. cbn [negb]. apply leads_bind, leads_with_state; [done|].
  apply leads_store_lifecycle, leads_bind, leads_quiesce, leads_bind, leads_with_guards; [done|].
  apply leads_bind, leads_read_side; [done|]. intros [[q w] adaptive].
  apply leads_close_down; [done|]. apply leads_bind, leads_with_state; [done|].
  apply leads_clear_pending. eapply (leads_modify _ id); [done|]. apply leads_ret, leads_ret. done.
Qed.

Definition prepare_view (v : view) : view :=
  let v := v <| v_lifecycle := INSTANCE_CLOSING |> in
  if v_adapter v =? 0 then v else store_closed (λ closed, closed ∖ {[DATAPATH_CLOSED_HARDWARE]}) v.

Lemma leads_prepare C v :
  v_equipped v = true → leads (evt_device_prepare_hardware C true) v
    (λ r v', (v_adapter v = 0 → r = STATUS_INSUFFICIENT_RESOURCES) ∧ v' = prepare_view v).
Proof.
  intros Hq. unfold evt_device_prepare_hardware. cbn [negb]. apply leads_bind, leads_with_state; [done|].
  apply leads_bind, leads_store_lifecycle. apply leads_bind, leads_locked_state. intros s Hs.
  do 3 (apply leads_bind, leads_locked_state; intros ? _). apply leads_ret.
  assert (adapter (st s) = v_adapter v) as -> by (by apply (f_equal v_adapter) in Hs).
  unfold prepare_view. cbn. destruct (Z.eqb_spec (v_adapter v) 0) as [E|E]; [by apply leads_ret|].
  assert (∀ (k : D Z) v' Q, leads k v' Q → leads (_ ← call DbgPrintEx; k) v' Q) as Hprint.
  { intros k v' Q Hk. apply leads_bind. calls. by intros _. }
  unfold configure_adapter_link_state. apply leads_bind. do 2 (apply leads_bind; plain; intros _).
  apply leads_bind, leads_from_option. intros address _. do 2 (apply leads_bind; plain; intros _).
  plain. intros _. apply leads_bind. plain. intros _. apply Hprint, leads_bind. plain. intros _.
  apply Hprint, leads_bind, leads_resume. apply Hprint, leads_bind. plain. intros status.
  apply Hprint, leads_ret. done.
Qed.

Definition release_view (v : view) : view :=
  (set_both QClosed (store_closed (union {[DATAPATH_CLOSED_HARDWARE]}) v))
    <| v_filter := (0, 0, filter_table []) |> <| v_adapter := 0 |> <| v_lifecycle := INSTANCE_CLOSED |>.

Lemma leads_release v :
  v_equipped v = true → len (v_filter v).2 = 64 →
  leads (evt_device_release_hardware true) v (λ r v', r = STATUS_SUCCESS ∧ v' = release_view v).
Proof.
  intros Hq Htable. unfold evt_device_release_hardware. cbn [negb]. apply leads_bind, leads_with_state; [done|].
  apply leads_bind, leads_store_lifecycle. do 3 (apply leads_bind, leads_locked_state; intros ? _).
  apply leads_bind, leads_load. intros s3 _. apply leads_ret, leads_bind.
  set (v1 := v <| v_lifecycle := INSTANCE_CLOSING |>). eapply (leads_mono _ _ (λ _ v', v' = v1)).
  { split_if; [by apply leads_ret|]. apply leads_passive. plain. by intros []. }
  intros _ _ ->. apply leads_bind, leads_quiesce, leads_bind, leads_with_guards; [done|].
  unfold release_hardware_guarded. apply leads_bind, leads_cancel_wait, leads_bind, leads_flush.
  apply leads_bind, leads_purge, leads_bind, leads_flush.
  apply (leads_both_reset QClose); [by left|done|]. apply leads_bind, leads_with_state; [done|].
  apply leads_bind. unfold try_update_state. apply leads_get. intros s4 Hs4.
  destruct (decide _); [|apply leads_undefined]. apply leads_bind, leads_from_option. intros i Hi.
  apply leads_put_last. cbn [reset_state] in Hs4.
  assert (view_of (s4 <| st := i |>) = (set_both QClosed (store_closed (union {[DATAPATH_CLOSED_HARDWARE]}) v1))
    <| v_filter := (0, 0, filter_table []) |>) as ->.
  { assert (len (active_multicast_addresses (st s4)) = 64) as Ht by (by apply (f_equal v_filter) in Hs4; cbn in Hs4; rewrite <- Hs4 in Htable).
    pose proof (update_receive_filter_state_spec 0 [] _ Ht ltac:(done)) as Hu.
    unfold clear_receive_filter_state in Hi. rewrite Hu in Hi. injection Hi as <-. by rewrite <- Hs4. }
  apply leads_clear_pending. do 2 (apply leads_bind; eapply (leads_update_state _ id); [done|]).
  do 3 (apply leads_bind; eapply (leads_modify _ id); [done|]).
  apply leads_bind. eapply (leads_update_state _ (λ v, v <| v_adapter := 0 |>)); [done|].
  apply leads_store_lifecycle, leads_ret, leads_ret. done.
Qed.

Lemma leads_compare_exchange current new v (Q : bool → view → Prop) :
  Q (v_lifecycle v =? current)
    (if v_lifecycle v =? current then v <| v_lifecycle := new |> else v) →
  leads (compare_exchange_lifecycle current new) v Q.
Proof.
  intros HQ. unfold compare_exchange_lifecycle. apply leads_bind. calls. intros _. apply leads_get. intros s <-.
  change (lifecycle (st s)) with (v_lifecycle (view_of s)).
  destruct (_ =? _); [|by apply leads_ret]. eapply leads_put; [done|]. by apply leads_ret.
Qed.

(** The owner is gone; [b]: the driver was open and reopens for the next one. *)
Definition cleanup_view (v : view) : view :=
  let v' := store_closed (λ closed, ({[DATAPATH_CLOSED_OWNER]} ∪ closed) ∖ {[DATAPATH_CLOSED_OWNER]})
              (v <| v_owner := false |> <| v_adaptive := false |>) in
  if negb (v_lifecycle v =? INSTANCE_OPEN) then set_both QClosed v'
  else if v_adapter v =? 0 then set_both QClosed v' <| v_lifecycle := INSTANCE_OWNER_CLOSING |>
  else set_both QOpen v'.

(** The guarded part of a cleanup that does not own the life cycle, or whose
    adapter is gone, leaves everything closed. *)
Definition cleared_view (v : view) : view := set_both QClosed v <| v_owner := false |> <| v_adaptive := false |>.

Lemma leads_cleanup_guarded owns v :
  v_equipped v = true →
  leads (cleanup_guarded owns) v (λ released v',
    if owns && (v_lifecycle v =? INSTANCE_OWNER_CLOSING) && negb (v_adapter v =? 0)
    then released = true ∧
      v' = store_closed (λ closed, closed ∖ {[DATAPATH_CLOSED_OWNER]}) (set_both QOpen (cleared_view v))
             <| v_lifecycle := INSTANCE_OPEN |>
    else released = false ∧ v' = cleared_view v).
Proof.
  intros Hq. unfold cleanup_guarded. apply leads_bind, leads_read_side; [done|]. intros [[q w] adaptive].
  apply leads_close_down; [done|]. apply leads_bind, leads_with_state; [done|].
  apply leads_bind. eapply (leads_mono _ _ (λ should v', v' = set_both QClosed v ∧
    should = owns && (v_lifecycle v =? INSTANCE_OWNER_CLOSING) && negb (v_adapter v =? 0))).
  { destruct owns; [|by apply leads_ret]. apply leads_bind, leads_load. intros s Hs.
    apply (f_equal v_lifecycle) in Hs. cbn in Hs. rewrite Hs. cbn [andb].
    destruct (_ =? _); [|by apply leads_ret]. apply leads_bind, leads_locked_state. intros s1 Hs1.
    apply (f_equal v_adapter) in Hs1. cbn in Hs1. rewrite Hs1. by apply leads_ret. }
  intros should _ [-> ->]. apply leads_clear_pending.
  apply leads_bind, (leads_modify _ (λ v, v <| v_adaptive := false |>)); [done|].
  apply leads_bind, (leads_modify _ (λ v, v <| v_owner := false |>)); [done|]. apply leads_ret.
  destruct (owns && _ && _) eqn:Hb; [|by apply leads_ret].
  apply (leads_both_reset QReopen); [by right|done|]. apply leads_bind, leads_with_state; [done|].
  apply leads_compare_exchange. cbn. apply andb_true_iff in Hb as [Hb _]. apply andb_true_iff in Hb as [_ Hb].
  rewrite Hb. apply leads_bind, leads_resume, leads_bind, leads_start, leads_ret. done.
Qed.

Lemma leads_cleanup v :
  v_equipped v = true → leads (evt_file_cleanup true) v (λ _ v', v' = cleanup_view v).
Proof.
  intros Hq. unfold evt_file_cleanup. cbn [negb]. apply leads_bind, leads_with_state; [done|].
  apply leads_bind, (leads_modify _ id); [done|]. apply leads_compare_exchange. cbn [id].
  set (owns := v_lifecycle v =? INSTANCE_OPEN).
  apply leads_bind, leads_quiesce, leads_bind, leads_with_guards; [by destruct owns|].
  eapply leads_mono; [apply leads_cleanup_guarded; by destruct owns|].
  intros released v' H. unfold cleanup_view. fold owns. revert H. unfold owns.
  destruct (Z.eqb_spec (v_lifecycle v) INSTANCE_OPEN) as [E|E]; cbn.
  - destruct (Z.eqb_spec (v_adapter v) 0); cbn; intros [-> ->]; [by apply leads_resume|].
    apply leads_ret. unfold cleared_view, set_both, store_closed. cbn. rewrite <- E. by destruct v.
  - intros [-> ->]. by apply leads_resume.
Qed.

(** ** The receive filter and the owner *)

Lemma leads_publish_filter filters addresses v :
  v_equipped v = true → len (v_filter v).2 = 64 → len addresses ≤ 64 →
  leads (publish_filter true filters addresses) v
    (λ _ v', v' = v <| v_filter := (filters, len addresses, filter_table addresses) |>).
Proof.
  intros Hq Htable Hn. unfold publish_filter. cbn [negb]. apply leads_bind, leads_with_state; [done|].
  unfold try_update_state. apply leads_get. intros s Hs.
  destruct (decide _); [|apply leads_undefined]. apply leads_bind, leads_from_option. intros i Hi.
  apply leads_put_last, leads_ret.
  assert (len (active_multicast_addresses (st s)) = 64) as Ht by (by apply (f_equal v_filter) in Hs; cbn in Hs; rewrite <- Hs in Htable).
  rewrite (update_receive_filter_state_spec _ _ _ Ht Hn) in Hi. injection Hi as <-. by rewrite <- Hs.
Qed.

(** The addresses a filter leaves: the first 64, six bytes each. *)
Definition filter_addresses (f : receive_filter) : list (list Z) :=
  match multicast_address_list f with
  | Some l => (λ a, take 6 (Address a)) <$> take 64 l
  | None => []
  end.

Lemma leads_set_receive_filter f v :
  v_equipped v = true → len (v_filter v).2 = 64 → filter_complete f →
  leads (evt_set_receive_filter true f) v (λ _ v',
    v' = v <| v_filter := (packet_filter f, len (filter_addresses f), filter_table (filter_addresses f)) |>).
Proof.
  intros Hq Htable [Hcount Hlist]. unfold evt_set_receive_filter, filter_addresses.
  apply leads_bind. eapply (leads_mono _ _ (λ _ v', v' = v)).
  { split_if; [by apply leads_ret|by calls]. }
  intros _ _ ->. unfold MAXIMUM_MULTICAST_ADDRESSES. split_if; bool_reflect.
  - destruct (multicast_address_list f) as [l|] eqn:Hf; [|by apply leads_publish_filter].
    destruct (Hlist l eq_refl) as [Hl _]. unfold len in Hl. destruct l; [|cbn in Hl; lia].
    by apply leads_publish_filter.
  - destruct (multicast_address_list f) as [l|] eqn:Hf.
    2: { apply leads_bind. calls. intros _. by apply leads_publish_filter. }
    destruct (Hlist l eq_refl) as [Hl _]. unfold len in Hl.
    apply leads_bind, leads_from_option. intros addresses Hc.
    destruct (copy_addresses_ok _ _ _ Hc) as (Hn & _ & Ha).
    assert (addresses = (λ a, take 6 (Address a)) <$> take 64 l) as <-.
    { rewrite Ha. f_equal. destruct (decide (multicast_address_count f ≤ 64)).
      - rewrite !take_ge by lia. done.
      - f_equal. lia. }
    apply leads_publish_filter; [done..|]. unfold len. lia.
Qed.

End follow.
