(* ===== verification/LifecycleTheorems.v ===== *)
(** * The packet driver's life cycle: theorems

    Teardown and bring-up of the data path under every environment of the
    contract, the power state machine, the owner, the receive filter and the
    control requests; and what goes wrong when callbacks overlap. *)

From S2P Require Import Prelude Words DriverConstants Effects Ring FrameQueue Datapath DatapathPaths DatapathSpec DatapathRequests DatapathRings DatapathReceive DatapathTransmit DatapathTheorems Lifecycle LifecycleSpec LifecycleHandlers LifecyclePower.

(** ** Accounts *)

Definition closing (k : Z) (x : note) : Z :=
  match x with
  | Called (QuiesceDatapathCallbacks k') => one (k' = k)
  | Called (ResumeDatapathCallbacks k') => - one (k' = k)
  | _ => 0
  end.

Lemma closing_app k l1 l2 : tally (closing k) (l1 ++ l2) = tally (closing k) l1 + tally (closing k) l2.
Proof. apply tally_app. Qed.

Lemma closing_reset k n o l : reset_notes n o l → tally (closing k) l = 0.
Proof.
  intros [-> | (q & sq & out & _ & _ & ->)]; [done|]. unfold queue_notes. rewrite closing_app. cbn.
  induction (dropped out) as [|f fs IH]; [done|]. cbn. rewrite closing_app. cbn in *. lia.
Qed.

Lemma closing_both k o l : both_reset o l → tally (closing k) l = 0.
Proof. intros (l1 & l2 & H1 & H2 & ->). by rewrite closing_app, (closing_reset _ _ _ _ H1), (closing_reset _ _ _ _ H2). Qed.

Lemma flow_both h o l : o = QClose ∨ o = QReopen → both_reset o l → tally (frame_flow h) l = 0.
Proof. intros Ho (l1 & l2 & H1 & H2 & ->). by rewrite tally_app, (flow_reset _ _ _ _ Ho H1), (flow_reset _ _ _ _ Ho H2). Qed.

Lemma flush_quiet h w : tally (frame_flow h) (flush_calls w) = 0 ∧ tally (closing h) (flush_calls w) = 0.
Proof. unfold flush_calls. by split_if. Qed.
Lemma purge_quiet h b q : tally (frame_flow h) (purge_calls b q) = 0 ∧ tally (closing h) (purge_calls b q) = 0.
Proof. unfold purge_calls. by split_if. Qed.
Lemma start_quiet h q : tally (frame_flow h) (start_calls q) = 0 ∧ tally (closing h) (start_calls q) = 0.
Proof. unfold start_calls. by split_if. Qed.
Lemma stop_quiet h a : tally (frame_flow h) (stop_calls a) = 0 ∧ tally (closing h) (stop_calls a) = 0.
Proof. unfold stop_calls. by split_if. Qed.

Lemma torn_down_quiet h i b l : torn_down i b l → tally (frame_flow h) l = 0 ∧ tally (closing h) l = 0.
Proof.
  intros (l' & Hl' & ->). rewrite !tally_app, (flow_both h _ _ (or_introl eq_refl) Hl'), (closing_both h _ _ Hl').
  by rewrite !(proj1 (purge_quiet h _ _)), !(proj2 (purge_quiet h _ _)), !(proj1 (flush_quiet h _)), !(proj2 (flush_quiet h _)).
Qed.

(** ** Every callback *)

Definition callback_outcome (C : adapter_constants) (c : callback) (i : InstanceState) (r : Z) (l : list note) : Prop :=
  match c with
  | PrepareHardware => prepare_outcome C i r l
  | D0Entry => entry_outcome true i r l
  | D0Exit => exit_outcome true i r l
  | ReleaseHardware => release_outcome i r l
  | FileCleanup => cleanup_outcome i l
  end.

(** The closer a callback leaves set (1), released (-1), or as it was. *)
Definition closing_net (c : callback) (r k n : Z) : Prop :=
  match c with
  | FileCleanup => n = 0
  | D0Exit => 0 ≤ n ≤ one (k = DATAPATH_CLOSED_POWER) ∧ (r = STATUS_SUCCESS → n = one (k = DATAPATH_CLOSED_POWER))
  | ReleaseHardware =>
      0 ≤ n ≤ one (k = DATAPATH_CLOSED_HARDWARE) ∧ (r = STATUS_SUCCESS → n = one (k = DATAPATH_CLOSED_HARDWARE))
  | D0Entry => - one (k = DATAPATH_CLOSED_POWER) ≤ n ≤ 0 ∧ (r = STATUS_SUCCESS → n = - one (k = DATAPATH_CLOSED_POWER))
  | PrepareHardware =>
      - one (k = DATAPATH_CLOSED_HARDWARE) ≤ n ≤ 0 ∧ (r = STATUS_SUCCESS → n = - one (k = DATAPATH_CLOSED_HARDWARE))
  end.

(** No queue is closed before the callbacks of the data path were drained. *)
Definition quiesced_first (l : list note) : Prop :=
  ∀ l1 n out l2, l = l1 ++ Queued n QClose out :: l2 →
    ∃ k, Called (QuiesceDatapathCallbacks k) ∈ l2.

Lemma quiesced_split k l rest :
  (∀ n out, Queued n QClose out ∉ rest) → quiesced_first (l ++ Called (QuiesceDatapathCallbacks k) :: rest).
Proof.
  intros Hrest l1 n out l2 E. exists k.
  revert l1 E. induction l as [|x l IH]; intros l1 E; cbn in E.
  - destruct l1 as [|y l1]; simplify_eq/=. exfalso. apply (Hrest n out). set_solver.
  - destruct l1 as [|y l1]; simplify_eq/=; [set_solver|]. by eapply IH.
Qed.

Lemma stop_no_close a n out : Queued n QClose out ∉ stop_calls a.
Proof. unfold stop_calls. split_if; set_solver. Qed.

Lemma no_close_quiesced l : (∀ n out, Queued n QClose out ∉ l) → quiesced_first l.
Proof. intros Hl l1 n out l2 ->. exfalso. apply (Hl n out). set_solver. Qed.

Lemma reopen_no_close l : both_reset QReopen l → ∀ n out, Queued n QClose out ∉ l.
Proof.
  intros (l1 & l2 & H1 & H2 & ->) n out. assert (∀ m l, reset_notes m QReopen l → Queued n QClose out ∉ l) as H.
  { intros m l [-> | (q & sq & o & _ & _ & ->)]; [set_solver|]. unfold queue_notes.
    intros [Hin|[=]%list_elem_of_singleton]%elem_of_app.
    apply list_elem_of_In, in_rev, list_elem_of_In, list_elem_of_fmap in Hin as (? & ? & _). done. }
  intros [Hin|Hin]%elem_of_app; [exact (H _ _ H2 Hin)|exact (H _ _ H1 Hin)].
Qed.

Lemma start_no_close q n out : Queued n QClose out ∉ start_calls q.
Proof. unfold start_calls. split_if; set_solver. Qed.

Lemma one_bounds (P : Prop) `{Decision P} : 0 ≤ one P ≤ 1.
Proof. unfold one. by destruct (decide P). Qed.

Lemma one_iff (P P' : Prop) `{Decision P} `{Decision P'} : (P ↔ P') → one P = one P'.
Proof. intros E. unfold one. destruct (decide P), (decide P'); tauto. Qed.

(** The accounts of a list of calls, resets and closers. *)
Ltac account h :=
  repeat first [rewrite tally_app | rewrite (proj1 (flush_quiet h _)) | rewrite (proj2 (flush_quiet h _))
    | rewrite (proj1 (purge_quiet h _ _)) | rewrite (proj2 (purge_quiet h _ _))
    | rewrite (proj1 (start_quiet h _)) | rewrite (proj2 (start_quiet h _))
    | rewrite (proj1 (stop_quiet h _)) | rewrite (proj2 (stop_quiet h _))
    | match goal with
      | H : torn_down _ _ ?l |- context [tally (frame_flow h) ?l] => rewrite (proj1 (torn_down_quiet h _ _ _ H))
      | H : torn_down _ _ ?l |- context [tally (closing h) ?l] => rewrite (proj2 (torn_down_quiet h _ _ _ H))
      | H : both_reset QClose ?l |- context [tally (frame_flow h) ?l] => rewrite (flow_both h _ _ (or_introl eq_refl) H)
      | H : both_reset QReopen ?l |- context [tally (frame_flow h) ?l] => rewrite (flow_both h _ _ (or_intror eq_refl) H)
      | H : both_reset _ ?l |- context [tally (closing h) ?l] => rewrite (closing_both h _ _ H)
      end | progress cbn [tally frame_flow closing]].

Ltac account_all :=
  split_and!;
    [let h := fresh "h" in intros h; account h; try lia
    |let h := fresh "h" in intros h; account h;
     rewrite ?(one_iff (DATAPATH_CLOSED_POWER = h) (h = DATAPATH_CLOSED_POWER)) by done;
     rewrite ?(one_iff (DATAPATH_CLOSED_HARDWARE = h) (h = DATAPATH_CLOSED_HARDWARE)) by done;
     pose proof (one_bounds (h = DATAPATH_CLOSED_POWER));
     pose proof (one_bounds (h = DATAPATH_CLOSED_HARDWARE));
     first [lia|split; [lia|intros E; first [discriminate E|lia]]]
    |].

(** No close among these notes. *)
Ltac no_close :=
  intros ? ?; repeat first [apply not_elem_of_nil | apply not_elem_of_cons; split; [discriminate|]
    | apply not_elem_of_app; split | apply stop_no_close | apply start_no_close | by apply reopen_no_close].

Lemma prepare_accounts C i r l : prepare_outcome C i r l →
  (∀ h, tally (frame_flow h) l = 0) ∧ (∀ k, closing_net PrepareHardware r k (tally (closing k) l)) ∧ quiesced_first l.
Proof.
  intros [| |adapter address status _ _]; cbn [closing_net configuration fmap list_fmap rev app];
    account_all; by apply no_close_quiesced; no_close.
Qed.

Lemma entry_accounts i r l : entry_outcome true i r l →
  (∀ h, tally (frame_flow h) l = 0) ∧ (∀ k, closing_net D0Entry r k (tally (closing k) l)) ∧ quiesced_first l.
Proof.
  intros [|?|adaptive l' Hl]; cbn [closing_net]; [done|account_all; by apply no_close_quiesced; no_close|].
  destruct adaptive; account_all; apply no_close_quiesced; no_close.
Qed.

Lemma exit_accounts i r l : exit_outcome true i r l →
  (∀ h, tally (frame_flow h) l = 0) ∧ (∀ k, closing_net D0Exit r k (tally (closing k) l)) ∧ quiesced_first l.
Proof.
  intros [|?| |adaptive l' Hl]; cbn [closing_net]; [done|account_all..];
    try (by apply no_close_quiesced; no_close). apply quiesced_split. no_close.
Qed.

Lemma release_accounts i r l : release_outcome i r l →
  (∀ h, tally (frame_flow h) l = 0) ∧ (∀ k, closing_net ReleaseHardware r k (tally (closing k) l)) ∧ quiesced_first l.
Proof.
  intros [|adapter|adapter adaptive l' Hl]; cbn [closing_net]; account_all;
    try (by apply no_close_quiesced; no_close). apply quiesced_split. no_close.
Qed.

Lemma cleanup_accounts i r l : cleanup_outcome i l →
  (∀ h, tally (frame_flow h) l = 0) ∧ (∀ k, closing_net FileCleanup r k (tally (closing k) l)) ∧ quiesced_first l.
Proof.
  intros [| |adaptive l1 H1|adaptive l1 l2 H1 H2|adaptive l1 l2 H1 H2]; cbn [closing_net]; account_all;
    try (by apply no_close_quiesced; no_close);
    rewrite ?app_assoc; apply quiesced_split; no_close.
Qed.

Lemma callback_accounts C c i r l :
  callback_outcome C c i r l →
  (∀ h, tally (frame_flow h) l = 0) ∧ (∀ k, closing_net c r k (tally (closing k) l)) ∧ quiesced_first l.
Proof.
  destruct c; cbn [callback_outcome]; [apply prepare_accounts|apply entry_accounts|apply exit_accounts
    |apply release_accounts|apply cleanup_accounts].
Qed.

Lemma wp_run_callback C c e (Q : Z → dev → world dp_ret → Prop) s w :
  respects dp_contract e → at_rest s → len (mac_address (st s)) = 6 →
  (∀ r l s' w', acts l s s' → callback_outcome C c (st s) r l → Q r s' w') →
  wp e (run_callback C c) Q s w.
Proof.
  intros Henv Hs Hmac HQ. destruct c; cbn [run_callback callback_outcome] in *.
  - by apply (wp_prepare_hardware e Henv); [apply Hs|..].
  - by apply (wp_d0_entry e Henv); [apply Hs|].
  - by apply (wp_d0_exit e Henv).
  - by apply (wp_release_hardware e Henv).
  - apply wp_bind, (wp_file_cleanup e Henv); [done|]. intros l s' w' A Hl. by apply wp_ret, (HQ _ l).
Qed.

(** C6: every callback that opens or closes the data path runs to its end under
    every environment of the contract, and leaves nothing behind.  It never
    takes a lock twice, never waits under a spin lock, never drains the packet
    callbacks while it holds a wait lock, and never touches what the state lock
    guards without it.  When it returns, no lock is held and every frame it took
    from a queue was freed exactly once.  Its calls are exactly those
    [callback_outcome] lists for the path it took: in particular no queue is
    closed before the packet callbacks were shut out and drained; a clean-up
    releases the owner closer it set on every path, early returns included; D0
    exit and release hardware keep their closer, which D0 entry and prepare
    hardware release. *)
Theorem teardown_balanced (C : adapter_constants) (c : callback) (e : env dev dp_ret) (s : dev)
    (w : world dp_ret) (Henv : respects dp_contract e) (Hs : at_rest s)
    (Hmac : len (mac_address (st s)) = 6) :
  wp e (run_callback C c) (λ r s' _, left_clean s s' ∧ ∃ l, acts l s s' ∧
    callback_outcome C c (st s) r l ∧ (∀ k, closing_net c r k (tally (closing k) l)) ∧ quiesced_first l) s w.
Proof.
  apply wp_run_callback; [done..|]. intros r l s' w' A Hl. destruct (callback_accounts _ _ _ _ _ Hl) as (Hf & Hk & Hq).
  split; [|exists l; done]. by apply (clean_acts l s s s'); [apply Hs|apply Hs|..].
Qed.

Definition example_constants : adapter_constants := {|
  MediaConnectStateConnected := 1; MediaDuplexStateFull := 2; PauseFunctionTypeUnsupported := 1;
  AutoNegotiationFlagNone := 0; MemoryMappingRequirementNone := 0; AllocationModeSystem := 1;
  AttachmentModeSystem := 1; PacketFilterFlagDirected := 1; PacketFilterFlagBroadcast := 8;
  PacketFilterFlagMulticast := 2; PacketFilterFlagAllMulticast := 4; PacketFilterFlagPromiscuous := 32 |}.

Lemma example_at_rest : at_rest example_dev.
Proof. split; [exact example_idle|]. split; [reflexivity|]. discriminate. Qed.

Lemma teardown_balanced_witness :
  ∃ r s' w', run_callback example_constants D0Exit quiet_framework example_dev [] = Some (r, s', w') ∧
    left_clean example_dev s'.
Proof.
  destruct (teardown_balanced example_constants D0Exit quiet_framework example_dev [] quiet_framework_respects
    example_at_rest eq_refl) as (r & s' & w' & Hrun & Hclean & _).
  exists r, s', w'. exact (conj Hrun Hclean).
Defined.

(** ** The power state machine *)

Inductive path : phase → list callback → phase → Prop :=
  | path_end p : path p [] p
  | path_step p c p' cs p'' : transition p c p' → path p' cs p'' → path p (c :: cs) p''.

Fixpoint run_callbacks (C : adapter_constants) (cs : list callback) : D unit :=
  match cs with [] => mret tt | c :: cs => _ ← run_callback C c; run_callbacks C cs end.

(** What each callback does to the view. *)
Definition next_view (c : callback) (v : view) : view :=
  match c with
  | PrepareHardware => prepare_view v
  | D0Entry => entry_view v
  | D0Exit => exit_view v
  | ReleaseHardware => release_view v
  | FileCleanup => cleanup_view v
  end.

Lemma closers_distinct :
  DATAPATH_CLOSED_OWNER ≠ DATAPATH_CLOSED_POWER ∧ DATAPATH_CLOSED_OWNER ≠ DATAPATH_CLOSED_HARDWARE ∧
  DATAPATH_CLOSED_POWER ≠ DATAPATH_CLOSED_HARDWARE.
Proof. done. Qed.

Lemma realises_cleanup p v : realises p v → realises p (cleanup_view v).
Proof.
  intros [Hq Hl Ha Hs Hc]. destruct closers_distinct as (Hop & Hoh & Hph). unfold cleanup_view.
  assert (∀ X : gset Z, DATAPATH_CLOSED_OWNER ∉ X →
    ({[DATAPATH_CLOSED_OWNER]} ∪ X) ∖ {[DATAPATH_CLOSED_OWNER]} = X) as Hid by set_solver.
  assert (DATAPATH_CLOSED_OWNER ∉ v_closed v) as Hown by (destruct p; rewrite ?Hc; set_solver).
  assert (v_lifecycle v = INSTANCE_OPEN → v_adapter v ≠ 0) as Hopen.
  { intros E E0. apply Ha in E0 as ->. rewrite E in Hl. by destruct Hl. }
  destruct (Z.eqb_spec (v_lifecycle v) INSTANCE_OPEN) as [E|E]; cbn [negb].
  - destruct (Z.eqb_spec (v_adapter v) 0); [by destruct (Hopen E)|].
    split; cbn; rewrite ?Hid by done; try done. destruct p; try done; rewrite E in Hl; try done. by destruct Hl.
  - split; cbn; rewrite ?Hid by done; try done. by destruct p.
Qed.

Lemma realises_next p c p' v : transition p c p' → realises p v → realises p' (next_view c v).
Proof.
  intros Ht Hp. destruct closers_distinct as (Hop & Hoh & Hph).
  destruct Ht; cbn [next_view]; [| | | | | | |by apply realises_cleanup]; destruct Hp as [Hq Hl Ha Hs Hc].
  - unfold prepare_view. cbn. destruct (Z.eqb_spec (v_adapter v) 0) as [E|E]; [by apply Ha in E|].
    split; cbn; try done; rewrite ?Hc; set_solver.
  - split; cbn; try done; [by split; intros E; [apply Ha in E|]|rewrite Hc; set_solver].
  - split; cbn; try done; [by split; intros E; [apply Ha in E|]|rewrite Hc; set_solver].
  - split; cbn; try done; [by split; intros E; [apply Ha in E|]|rewrite Hc; set_solver].
  - split; cbn; try done; [by left|rewrite Hc; set_solver].
  - split; cbn; try done; [by left|rewrite Hc; set_solver].
  - unfold prepare_view. cbn. rewrite (proj2 (Z.eqb_eq _ _)) by (by apply Ha).
    split; cbn; try done. by right.
Qed.

Lemma wp_step C c e closed s w :
  respects dp_contract e → undisturbed closed e → at_rest s → len (mac_address (st s)) = 6 →
  v_equipped (view_of closed s) = true →
  wp e (run_callback C c) (λ _ s' _, (∃ l, acts l s s') ∧ view_of closed s' = next_view c (view_of closed s)) s w.
Proof.
  intros Henv Hund Hs Hmac Hq.
  apply (wp_leads closed e _ (λ _ s' _, ∃ l, acts l s s') (λ _ v', v' = next_view c (view_of closed s))).
  { apply wp_run_callback; [done..|]. intros r l s' w' A _. by exists l. }
  destruct c; cbn [run_callback next_view].
  - eapply leads_mono; [by apply (leads_prepare closed e Hund)|]. by intros r v' [_ ->].
  - eapply leads_mono; [by apply (leads_d0_entry closed e Hund)|]. by intros r v' [_ ->].
  - eapply leads_mono; [by apply (leads_d0_exit closed e Hund)|]. by intros r v' [_ ->].
  - eapply leads_mono; [apply (leads_release closed e Hund); [done|]|by intros r v' [_ ->]].
    apply (fo_table _ (io_filter _ (proj1 (proj1 Hs)))).
  - apply leads_bind. eapply leads_mono; [by apply (leads_cleanup closed e Hund)|]. intros _ v' ->. by apply leads_ret.
Qed.

(** The callbacks of a path, one after another. *)
Lemma run_path (C : adapter_constants) (closed : gset Z) (cs : list callback) (p p' : phase)
    (e : env dev dp_ret) (s : dev) (w : world dp_ret) (Henv : respects dp_contract e)
    (Hund : undisturbed closed e) (Hs : at_rest s) (Hmac : len (mac_address (st s)) = 6)
    (Hp : realises p (view_of closed s)) (Hpath : path p cs p') :
  wp e (run_callbacks C cs) (λ _ s' _, realises p' (view_of closed s') ∧ at_rest s') s w.
Proof.
  revert s w Hs Hmac Hp. induction Hpath as [p|p c p1 cs p' Ht _ IH]; intros s w Hs Hmac Hp; cbn.
  { by apply wp_ret. }
  apply wp_bind. eapply wp_mono; [apply (wp_step C c e closed); try done; apply Hp|].
  intros r s1 w1 [[l A] Hv]. apply IH; [by eapply at_rest_acts| |].
  - by rewrite (cs_mac _ _ (ac_config _ _ _ A)).
  - rewrite Hv. by eapply realises_next.
Qed.

(** C5: the life cycle refines a power state machine, when its callbacks run one
    after another.  Run in the order the framework prescribes, from a phase the
    driver is in, and with whole clean-ups of the owner's file anywhere in
    between, the callbacks take the driver through exactly the phases of the
    machine: it is open for requests, with both queues open and packet callbacks
    admitted, exactly while it works; in low power and after release the queues
    are closed and the callbacks are shut out; a clean-up leaves the phase as it
    was.  Meanwhile the data path does whatever its contract allows, except what
    [undisturbed] excludes: while a callback runs, nothing else changes the life
    cycle, the owner, the adaptive flag, the adapter, the receive filter, the state
    of the two queues or the closers, and no wait for a lock fails.  Callbacks that
    overlap are not covered, and the refinement fails for them:
    [cleanup_overtaken_by_power] is a clean-up during which a D0 exit and a D0
    entry run. *)
Theorem power_refinement (C : adapter_constants) (closed : gset Z) (cs : list callback) (p p' : phase)
    (e : env dev dp_ret) (s : dev) (w : world dp_ret) (Henv : respects dp_contract e)
    (Hund : undisturbed closed e) (Hs : at_rest s) (Hmac : len (mac_address (st s)) = 6)
    (Hp : realises p (view_of closed s)) (Hpath : path p cs p') :
  wp e (run_callbacks C cs) (λ _ s' _, realises p' (view_of closed s') ∧ at_rest s') s w.
Proof. by apply (run_path C closed cs p p'). Qed.

Lemma quiet_undisturbed closed : undisturbed closed quiet_framework.
Proof.
  split; [|done]. intros w c s. destruct c; try reflexivity. cbn. by destruct (inputs s !! request).
Qed.

Lemma example_working : realises Working (view_of ∅ example_dev).
Proof. by split; try split. Qed.

Lemma power_refinement_witness :
  ∃ s' w', run_callbacks example_constants [FileCleanup; D0Exit; D0Entry; D0Exit; ReleaseHardware]
    quiet_framework example_dev [] = Some (tt, s', w') ∧ realises Released (view_of ∅ s').
Proof.
  assert (path Working [FileCleanup; D0Exit; D0Entry; D0Exit; ReleaseHardware] Released) as Hpath.
  { repeat (eapply path_step; [constructor|]). apply path_end. }
  destruct (power_refinement example_constants ∅ _ Working Released quiet_framework example_dev []
    quiet_framework_respects (quiet_undisturbed ∅) example_at_rest eq_refl example_working Hpath)
    as ([] & s' & w' & Hrun & Hp & _).
  exists s', w'. exact (conj Hrun Hp).
Defined.

(** A released device does not start again.  Release hardware forgets the
    adapter, which is created once, when the device is added; so the later
    prepare hardware that the comment on the hardware closer counts on fails
    with [STATUS_INSUFFICIENT_RESOURCES] before it releases the closer, and the
    device stays released. *)
Theorem restart_fails (C : adapter_constants) (closed : gset Z) (e : env dev dp_ret) (s : dev)
    (w : world dp_ret) (Henv : respects dp_contract e) (Hund : undisturbed closed e) (Hs : at_rest s)
    (Hmac : len (mac_address (st s)) = 6) (Hp : realises Released (view_of closed s)) :
  wp e (evt_device_prepare_hardware C true) (λ r s' _,
    r = STATUS_INSUFFICIENT_RESOURCES ∧ realises Released (view_of closed s') ∧
    DATAPATH_CLOSED_HARDWARE ∈ v_closed (view_of closed s')) s w.
Proof.
  pose proof (wp_leads closed e _ (λ _ _ _, True) _ s w
    (wp_run_callback C PrepareHardware e (λ _ _ _, True) s w Henv Hs Hmac ltac:(done))
    (leads_prepare closed e Hund C _ (re_equipped _ _ Hp))) as H.
  eapply wp_mono; [exact H|]. intros r s' w' (_ & Hr & Hv). cbn beta in Hv.
  pose proof (realises_next _ _ _ _ t_prepare_again Hp) as Hn. cbn [next_view] in Hn. rewrite <- Hv in Hn.
  split; [apply Hr, (re_adapter _ _ Hp); done|]. split; [done|]. apply (re_closed _ _ Hn).
Qed.

(** A device whose hardware was released. *)
Definition released_dev : dev :=
  match run_callbacks example_constants [D0Exit; ReleaseHardware] quiet_framework example_dev [] with
  | Some (_, s, _) => s <| log := [] |>
  | None => example_dev
  end.

Definition released_closers : gset Z := {[DATAPATH_CLOSED_POWER; DATAPATH_CLOSED_HARDWARE]}.

Lemma released_dev_state : released_dev = example_dev <| st := st released_dev |>.
Proof. vm_compute. reflexivity. Qed.

Lemma released_at_rest : at_rest released_dev.
Proof.
  assert (∃ s' w', run_callbacks example_constants [D0Exit; ReleaseHardware] quiet_framework example_dev []
    = Some (tt, s', w') ∧ at_rest s') as (s' & w' & Hrun & Hs).
  { cbn [run_callbacks].
    destruct (wp_run_callback example_constants D0Exit quiet_framework (λ _ s' _, at_rest s' ∧ len (mac_address (st s')) = 6)
      example_dev [] quiet_framework_respects example_at_rest eq_refl) as (r1 & s1 & w1 & H1 & Hs1 & Hm1).
    { intros r l s' w' A _. split; [exact (at_rest_acts _ _ _ example_at_rest A)|].
      rewrite (cs_mac _ _ (ac_config _ _ _ A)). reflexivity. }
    destruct (wp_run_callback example_constants ReleaseHardware quiet_framework (λ _ s' _, at_rest s')
      s1 w1 quiet_framework_respects Hs1 Hm1) as (r2 & s2 & w2 & H2 & Hs2).
    { intros r l s' w' A _. exact (at_rest_acts _ _ _ Hs1 A). }
    exists s2, w2. split; [|exact Hs2]. unfold mbind, M_bind. rewrite H1, H2. reflexivity. }
  unfold released_dev. rewrite Hrun. exact Hs.
Qed.

Lemma released_realises : realises Released (view_of released_closers released_dev).
Proof.
  split; try (vm_compute; reflexivity).
  - left. vm_compute. reflexivity.
  - split; [reflexivity|]. intros _. vm_compute. reflexivity.
  - split; vm_compute; reflexivity.
  - change (v_closed (view_of released_closers released_dev)) with (closers_of (log released_dev) released_closers).
    rewrite released_dev_state. cbn. destruct closers_distinct as (? & ? & ?). unfold released_closers. set_solver.
Qed.

Lemma restart_fails_witness :
  ∃ s' w', evt_device_prepare_hardware example_constants true quiet_framework released_dev []
    = Some (STATUS_INSUFFICIENT_RESOURCES, s', w') ∧
    DATAPATH_CLOSED_HARDWARE ∈ v_closed (view_of released_closers s').
Proof.
  assert (len (mac_address (st released_dev)) = 6) as Hmac by (vm_compute; reflexivity).
  destruct (restart_fails example_constants released_closers quiet_framework released_dev []
    quiet_framework_respects (quiet_undisturbed _) released_at_rest Hmac released_realises)
    as (r & s' & w' & Hrun & Hr & _ & Hc).
  subst r. exists s', w'. exact (conj Hrun Hc).
Defined.

(** ** The receive filter *)

(** C23: the receive filter is the one the network stack set, cut to what the
    driver has room for.  For every list NetAdapterCx hands out,
    [evt_set_receive_filter] runs without reading or writing out of bounds and,
    when the state lock is released, the flags are the filter's, the count is
    the number of addresses or 64 if there are more, the table starts with the
    first six bytes of that many addresses in order, and every entry behind them
    is zero, whatever was there before. *)
Theorem receive_filter_set (closed : gset Z) (e : env dev dp_ret) (f : receive_filter) (s : dev)
    (w : world dp_ret) (Henv : respects dp_contract e) (Hund : undisturbed closed e) (Hs : idle s)
    (Hf : filter_complete f) (Heq : equipped (st s) = true) :
  wp e (evt_set_receive_filter true f) (λ _ s' _, acts [] s s' ∧ filter_ok (st s') ∧
    active_packet_filters (st s') = packet_filter f ∧
    active_multicast_address_count (st s') = len (filter_addresses f) ∧
    active_multicast_addresses (st s') = filter_table (filter_addresses f)) s w.
Proof.
  pose proof (wp_leads closed e _ (λ _ s' _, acts [] s s') _ s w
    (wp_set_receive_filter e Henv true f _ s w Hs Hf (λ s' w' A, A))
    (leads_set_receive_filter closed e Hund f (view_of closed s) Heq (fo_table _ (io_filter _ (proj1 Hs))) Hf)) as H.
  eapply wp_mono; [exact H|]. intros [] s' w' [A Hv]. cbn beta in Hv. apply (f_equal v_filter) in Hv. cbn in Hv.
  injection Hv as E1 E2 E3. split; [exact A|]. split; [apply (io_filter _ (ac_ok _ _ _ A))|done].
Qed.

Definition example_filter : receive_filter := {|
  packet_filter := 11; multicast_address_count := 2;
  multicast_address_list := Some [
    {| Length := 6; Address := [1; 0; 94; 0; 0; 1] ++ replicate 26 0 |};
    {| Length := 6; Address := [51; 51; 0; 0; 0; 1] ++ replicate 26 0 |}] |}.

Lemma receive_filter_set_witness :
  ∃ s' w', evt_set_receive_filter true example_filter quiet_framework example_dev [] = Some (tt, s', w') ∧
    active_multicast_address_count (st s') = 2 ∧
    take 2 (active_multicast_addresses (st s')) = [[1; 0; 94; 0; 0; 1]; [51; 51; 0; 0; 0; 1]].
Proof.
  assert (filter_complete example_filter) as Hf.
  { split; [discriminate|]. intros l [= <-]. split; [reflexivity|]. repeat constructor. }
  destruct (receive_filter_set ∅ quiet_framework example_filter example_dev [] quiet_framework_respects
    (quiet_undisturbed ∅) example_idle Hf eq_refl) as ([] & s' & w' & Hrun & _ & _ & _ & Hn & Ha).
  exists s', w'. split; [exact Hrun|]. rewrite Hn, Ha. split; reflexivity.
Defined.

(** ** The owner *)

(** The driver has one owner at a time.  An open of the device is answered
    once: with success if there is no owner, which makes the caller the owner,
    and otherwise with [STATUS_DEVICE_BUSY], which changes nothing; when the
    owner's file has been cleaned up there is no owner, and polling is off. *)
Theorem one_owner (closed : gset Z) (e : env dev dp_ret) (q : Z) (s : dev) (w : world dp_ret)
    (Henv : respects dp_contract e) (Hund : undisturbed closed e) (Hs : at_rest s) (Hq : q ∈ owned s)
    (Heq : equipped (st s) = true) :
  wp e (evt_file_create true q) (λ _ s' _,
    acts [Completed q (if control_open (st s) then STATUS_DEVICE_BUSY else STATUS_SUCCESS) 0 []] (answered q s) s' ∧
    view_of closed s' = (view_of closed s) <| v_owner := true |>) s w ∧
  wp e (evt_file_cleanup true) (λ _ s' _,
    control_open (st s') = false ∧ adaptive_enabled (st s') = false) s w.
Proof.
  split.
  - unfold evt_file_create. cbn [negb]. apply wp_bind.
    exists (e w OtherThreads s).1, (e w OtherThreads s).2. eexists. split; [reflexivity|].
    set (s1 := (e w OtherThreads s).2).
    assert (acts [] s s1) as A1 by (apply acts_interferes; [apply Hs|apply (Henv w OtherThreads s)]).
    assert (view_of closed s1 = view_of closed s) as Hv1 by apply (un_view _ _ Hund w OtherThreads s).
    assert (control_open (st s1) = control_open (st s)) as Ho by (by apply (f_equal v_owner) in Hv1).
    apply wp_bind, wp_get. rewrite Ho.
    assert (∀ status s2 w2, acts [] s s2 → view_of closed s2 = (view_of closed s) <| v_owner := true |> →
      wp e (complete_request q status) (λ _ s' _, acts [Completed q status 0 []] (answered q s) s' ∧
        view_of closed s' = (view_of closed s) <| v_owner := true |>) s2 w2) as Hend.
    { intros status s2 w2 A2 Hv2.
      assert (leads closed e (complete_request q status) (view_of closed s2) (λ _ v', v' = view_of closed s2)) as Hl.
      { unfold complete_request, finish_request. apply leads_get. intros s3 Hs3.
        destruct (decide _); [|apply leads_undefined]. eapply leads_put; [exact Hs3|].
        refine (leads_call closed e Hund (WdfRequestComplete q status) _ _ _). by intros []. }
      eapply wp_mono; [exact (wp_leads closed e _ _ _ s2 w2 (wp_complete_request e Henv q status
        (λ _ s' _, acts [Completed q status 0 []] (answered q s) s') s2 w2
        (idle_acts _ _ _ (proj1 Hs) A2) ltac:(by rewrite (acts_owned _ _ _ A2))
        (λ s' w' A, acts_answered _ [] _ _ _ _ A2 A)) Hl)|].
      intros [] s3 w3 [A3 Hv3]. split; [exact A3|]. by rewrite Hv3. }
    destruct (control_open (st s)) eqn:Hopen.
    + apply Hend; [exact A1|]. rewrite Hv1. apply (f_equal v_owner) in Hv1. unfold view_of at 1. cbn. unfold view_of.
      by rewrite Hopen.
    + apply wp_bind, wp_put, Hend.
      * eapply acts_trans_nil; [exact A1|].
        assert (∀ i, inst_ok i → config_same i (i <| control_open := true |>) ∧ inst_ok (i <| control_open := true |>)) as Hf by harmless.
        destruct (Hf _ (ac_ok _ _ _ A1)). by apply acts_update.
      * by rewrite <- Hv1.
  - eapply wp_mono; [exact (wp_leads closed e _ _ _ s w (wp_file_cleanup e Henv true (λ _ _ _, True) s w Hs ltac:(done))
      (leads_cleanup closed e Hund (view_of closed s) Heq))|].
    intros [] s' w' [_ Hv]. cbn beta in Hv.
    assert (v_owner (view_of closed s') = false ∧ v_adaptive (view_of closed s') = false) as H; [|exact H].
    rewrite Hv. unfold cleanup_view. by repeat destruct (_ =? _).
Qed.

Lemma one_owner_witness :
  (∃ s' w', evt_file_create true 5 quiet_framework example_dev [] = Some (tt, s', w') ∧
    list.head (log s') = Some (Completed 5 STATUS_DEVICE_BUSY 0 [])) ∧
  ∃ s' w', evt_file_cleanup true quiet_framework example_dev [] = Some (tt, s', w') ∧ control_open (st s') = false.
Proof.
  destruct (one_owner ∅ quiet_framework 5 example_dev [] quiet_framework_respects (quiet_undisturbed ∅)
    example_at_rest (proj2 (elem_of_singleton 5 5) eq_refl) eq_refl)
    as [([] & s1 & w1 & H1 & A1 & _) ([] & s2 & w2 & H2 & Ho & _)].
  split; [exists s1, w1|exists s2, w2]; (split; [assumption|]); [|exact Ho].
  rewrite (acts_log _ _ _ A1). reflexivity.
Defined.

(** ** Control requests *)

(** C22: a control request is answered once, or handed over once to the adaptive
    wait.  Under every environment of the contract [evt_io_device_control] reads
    and writes inside the request's buffers only, takes the direct-read guard
    without waiting and returns it; an unknown request fails; a request to poll
    adaptively succeeds only if its eight bytes ask for version 1 and a nonempty
    subset of the two interests, and then returns exactly version 1 and those
    flags. *)
Theorem control_answered_once (e : env dev dp_ret) (found : bool) (q output_length input_length ioctl : Z)
    (b : list Z) (s : dev) (w : world dp_ret) (Henv : respects dp_contract e) (Hs : at_rest s)
    (Hq : q ∈ owned s) (Hb : inputs s !! q = Some b) :
  wp e (evt_io_device_control found q output_length input_length ioctl) (λ _ s' _, ∃ l,
    acts l (answered q s) s' ∧ control_outcome q output_length input_length b l ∧
    held s' = ∅ ∧ guards s' = ∅) s w.
Proof.
  apply (wp_device_control e Henv) with (b := b); try done; [apply Hs|apply Hs|].
  intros l s' w' A Hl. exists l. split; [done|]. split; [done|].
  rewrite (acts_held _ _ _ A), (acts_guards _ _ _ A). cbn. split; apply Hs.
Qed.

Definition enable_dev : dev :=
  example_dev <| st := example_instance <| adaptive_enabled := false |> |>
    <| inputs := {[5 := [1; 0; 0; 0; 3; 0; 0; 0]]} |>.

Lemma control_answered_once_witness :
  ∃ s' w' l, evt_io_device_control true 5 8 8 TAP_IOCTL_ENABLE_ADAPTIVE_POLLING quiet_framework enable_dev []
    = Some (tt, s', w') ∧
    log s' = l ∧ control_outcome 5 8 8 [1; 0; 0; 0; 3; 0; 0; 0] l.
Proof.
  destruct (control_answered_once quiet_framework true 5 8 8 TAP_IOCTL_ENABLE_ADAPTIVE_POLLING
    [1; 0; 0; 0; 3; 0; 0; 0] enable_dev [] quiet_framework_respects example_at_rest
    (proj2 (elem_of_singleton 5 5) eq_refl) eq_refl) as ([] & s' & w' & Hrun & l & A & Hl & _).
  exists s', w', l. split; [exact Hrun|]. split; [|exact Hl].
  rewrite (acts_log _ _ _ A). apply app_nil_r.
Defined.

(** Other threads leave the instance alone. *)
Definition still (e : env dev dp_ret) : Prop := ∀ w c s, st (e w c s).2 = st s.

Definition enable_status (i : InstanceState) : Z :=
  if negb (lifecycle i =? INSTANCE_OPEN) then STATUS_DEVICE_NOT_READY
  else if adaptive_enabled i || negb (pending_reads i =? 0) || negb (legacy_direct_read_claims i =? 0)
  then STATUS_DEVICE_BUSY else STATUS_SUCCESS.

Section still.
Context (e : env dev dp_ret) (Hstill : still e).

(** Runs of [m] from [i] end as [Q] says. *)
Definition ends {A} (m : D A) (i : InstanceState) (Q : A → InstanceState → Prop) : Prop :=
  ∀ s w a s' w', st s = i → m e s w = Some (a, s', w') → Q a (st s').

Lemma ends_ret {A} (a : A) i (Q : A → InstanceState → Prop) : Q a i → ends (mret a) i Q.
Proof. by intros HQ s w a' s' w' <- [= -> -> ->]. Qed.

Lemma ends_bind {A B} (m : D A) (f : A → D B) i Q :
  ends m i (λ a i', ends (f a) i' Q) → ends (m ≫= f) i Q.
Proof.
  intros Hm s w b s' w' Hi H. unfold mbind, M_bind in H.
  destruct (m e s w) as [[[a s1] w1]|] eqn:Hrun; [|done]. exact (Hm s w a s1 w1 Hi Hrun s1 w1 b s' w' eq_refl H).
Qed.

Lemma ends_call c i (Q : dp_ret c → InstanceState → Prop) : (∀ r, Q r i) → ends (call c) i Q.
Proof. intros HQ s w r s' w' Hi [= <- <- _]. rewrite Hstill, Hi. apply HQ. Qed.

Lemma ends_load {A} (f : InstanceState → A) i (Q : A → InstanceState → Prop) : Q (f i) i → ends (load f) i Q.
Proof.
  intros HQ. unfold load. apply ends_bind. refine (ends_call OtherThreads i _ _). intros _.
  intros s w a s' w' <- [= <- <- _]. done.
Qed.

Lemma ends_modify f i (Q : unit → InstanceState → Prop) : Q tt (f i) → ends (modify f) i Q.
Proof.
  intros HQ. unfold modify. apply ends_bind. refine (ends_call OtherThreads i _ _). intros _.
  intros s w a s' w' <- [= <- <- _]. done.
Qed.

Lemma ends_with_state {A} (m : D A) i (Q : option A → InstanceState → Prop) :
  state_lock i ≠ 0 → ends m i (λ r, Q (Some r)) → ends (with_state m) i Q.
Proof.
  intros Hl Hm. unfold with_state. apply ends_bind. intros s w lock s1 w1 Hs [= <- <- _].
  rewrite Hs, (proj2 (Z.eqb_neq _ _) Hl). set (lock := state_lock i). apply ends_bind.
  unfold with_lock, spin_acquire, spin_release. apply ends_bind.
  intros s2 w2 [] s3 w3 Hs2 H. unfold mbind at 1, M_bind, get in H. cbn in H.
  destruct (decide _); [done|].
  assert (st s3 = i) as -> by (injection H as <- _; rewrite <- Hs2; exact (Hstill w2 (WdfSpinLockAcquire lock) s2)).
  clear H. apply ends_bind. intros s4 w4 r s5 w5 Hs4 Hrun. specialize (Hm s4 w4 r s5 w5 Hs4 Hrun). cbn beta in Hm.
  apply ends_bind. intros s6 w6 [] s7 w7 Hs6 H. unfold mbind at 1, M_bind, get in H. cbn in H.
  destruct (decide _); [|done].
  assert (st s7 = st s5) as -> by (injection H as _ <- _; rewrite <- Hs6; exact (Hstill w6 (WdfSpinLockRelease lock) _)).
  by apply ends_ret, ends_ret.
Qed.

Lemma ends_try_enable i :
  state_lock i ≠ 0 →
  ends try_enable_adaptive i (λ r i', r = enable_status i ∧
    i' = if r =? STATUS_SUCCESS then i <| adaptive_enabled := true |> else i).
Proof.
  intros Hl. unfold try_enable_adaptive, enable_status. apply ends_bind, ends_with_state; [done|].
  apply ends_bind, ends_load. destruct (_ =? INSTANCE_OPEN); cbn [negb]; [|by apply ends_ret, ends_ret].
  apply ends_bind, ends_load. apply ends_bind. destruct (adaptive_enabled i) eqn:Ha.
  { apply ends_ret, ends_bind, ends_ret, ends_ret, ends_ret. done. }
  apply ends_load, ends_bind. cbn [orb]. destruct (Z.eqb_spec (pending_reads i) 0).
  - apply ends_load. cbn [negb orb]. destruct (_ =? 0); cbn [negb]; [|by apply ends_ret, ends_ret].
    by apply ends_bind, ends_modify, ends_ret, ends_ret.
  - by apply ends_ret, ends_ret, ends_ret.
Qed.

End still.

(** Polling excludes waiting reads.  Under the direct-read guard the driver
    turns adaptive polling on if and only if it is open, polling is off, no read
    waits or is being admitted, and no transmitted frame is being delivered to
    one; otherwise it answers "not ready" or "busy" as [enable_status] says and
    changes nothing. *)
Theorem polling_exclusive (e : env dev dp_ret) (s : dev) (w : world dp_ret)
    (Henv : respects dp_contract e) (Hstill : still e) (Hs : idle s) (Hl : state_lock (st s) ≠ 0) :
  wp e try_enable_adaptive (λ r s' _, r = enable_status (st s) ∧
    st s' = if r =? STATUS_SUCCESS then (st s) <| adaptive_enabled := true |> else st s) s w.
Proof.
  destruct (wp_try_enable e Henv (λ _ _ _, True) s w Hs ltac:(done)) as (r & s' & w' & Hrun & _).
  exists r, s', w'. split; [exact Hrun|]. exact (ends_try_enable e Hstill (st s) Hl s w r s' w' eq_refl Hrun).
Qed.

Lemma quiet_still : still quiet_framework.
Proof. intros w c s. destruct c; try reflexivity. cbn. by destruct (inputs s !! request). Qed.

Lemma polling_exclusive_witness :
  (∃ s' w', try_enable_adaptive quiet_framework enable_dev [] = Some (STATUS_SUCCESS, s', w') ∧
    adaptive_enabled (st s') = true) ∧
  ∃ s' w', try_enable_adaptive quiet_framework (example_dev <| st := example_instance <| pending_reads := 1 |> |>) []
    = Some (STATUS_DEVICE_BUSY, s', w').
Proof.
  destruct (polling_exclusive quiet_framework enable_dev [] quiet_framework_respects quiet_still example_idle
    ltac:(discriminate)) as (r & s' & w' & Hrun & Hr & Hs').
  split; [|eexists _, _; vm_compute; reflexivity].
  change (enable_status (st enable_dev)) with STATUS_SUCCESS in Hr. subst r.
  exists s', w'. split; [exact Hrun|]. rewrite Hs'. reflexivity.
Defined.

(** ** Callbacks that overlap *)

#[local] Instance config_same_dec i i' : Decision (config_same i i').
Proof.
  refine (cast_if (decide (
    (frame_maximum i' = frame_maximum i ∧ read_queue i' = read_queue i ∧
     injection_lock i' = injection_lock i ∧ capture_lock i' = capture_lock i ∧
     frame_pool i' = frame_pool i ∧ read_work_item i' = read_work_item i) ∧
    (legacy_direct_read_lock i' = legacy_direct_read_lock i ∧
     write_lifetime_lock i' = write_lifetime_lock i ∧ mtu i' = mtu i ∧ mac_address i' = mac_address i ∧
     state_lock i' = state_lock i) ∧
    ((is_Some (injection_queue i') ↔ is_Some (injection_queue i)) ∧
     (is_Some (capture_queue i') ↔ is_Some (capture_queue i)))))).
  - abstract (split; try tauto; intros []; cbn; tauto).
  - abstract (intros [? ? Hl ? ? ? ? ? ? ? Hq]; pose proof (Hl Injection); pose proof (Hl Capture);
      pose proof (Hq Injection); pose proof (Hq Capture); cbn in *; tauto).
Defined.

(** The device goes to low power and comes back. *)
Definition power_cycle (s : dev) : dev :=
  match (_ ← evt_device_d0_exit true; evt_device_d0_entry true) quiet_framework s [] with
  | Some (_, s', _) => if decide (config_same (st s) (st s')) then s <| st := st s' |> else s
  | None => s
  end.

(** It does so while a clean-up waits for the packet callbacks to drain. *)
Definition overtaking : env dev dp_ret := λ w c,
  match c return dev → dp_ret c * dev with
  | QuiesceDatapathCallbacks k => λ s,
      if decide (k = DATAPATH_CLOSED_OWNER ∧ held s = ∅ ∧ guards s = ∅ ∧ locks_distinct (st s))
      then (tt, power_cycle s) else (tt, s)
  | c => quiet_framework w c
  end.

Lemma power_cycle_ok s :
  held s = ∅ → guards s = ∅ → locks_distinct (st s) → interferes s (power_cycle s).
Proof.
  intros Hh Hg Hl. unfold power_cycle.
  destruct ((_ ← evt_device_d0_exit true; evt_device_d0_entry true) quiet_framework s []) as [[[r s'] w']|] eqn:Hrun;
    [|apply interferes_refl].
  destruct (decide _) as [Hc|]; [|apply interferes_refl].
  split; cbn; [by destruct s|done| |by rewrite Hh; set_solver|by rewrite Hh; set_solver].
  intros Hok. assert (at_rest s) as Hs by done.
  assert (wp quiet_framework (_ ← evt_device_d0_exit true; evt_device_d0_entry true) (λ _ s' _, inst_ok (st s')) s [])
    as (r2 & s2 & w2 & Hrun2 & Hok2).
  { apply wp_bind, (wp_d0_exit _ quiet_framework_respects); [done|]. intros r1 l1 s1 w1 A1 _.
    apply (wp_d0_entry _ quiet_framework_respects); [exact (idle_acts _ _ _ (proj1 Hs) A1)|].
    intros r2 l2 s2 w2 A2 _. apply A2. }
  rewrite Hrun in Hrun2. by injection Hrun2 as _ <- _.
Qed.

Lemma overtaking_respects : respects dp_contract overtaking.
Proof.
  intros w c s. destruct c; try exact (quiet_framework_respects w _ s). cbn.
  destruct (decide _) as [(_ & Hh & Hg & Hl)|]; [by apply power_cycle_ok|apply interferes_refl].
Qed.

(** The next owner opens the device and writes a frame. *)
Definition next_owner (s : dev) : D unit :=
  _ ← put (s <| owned := {[8; 9]} |> <| inputs := {[9 := replicate 20 1]} |> <| log := [] |>);
  _ ← evt_file_create true 8; _ ← evt_io_write 1 true 9 20; mret tt.

(** The requests that were completed, with their statuses, the latest first. *)
Definition statuses (l : list note) : list (Z * Z) :=
  omap (λ x, match x with Completed q status _ _ => Some (q, status) | _ => None end) l.

(** Whether the run ends as the theorem says. *)
Definition stuck_open (r : option (unit * dev * world dp_ret)) : bool :=
  match r with
  | Some (_, s, _) =>
      bool_decide (lifecycle (st s) = INSTANCE_OPEN) && bool_decide (control_open (st s) = false)
      && bool_decide (queue_state <$> injection_queue (st s) = Some QClosed)
      && bool_decide (queue_state <$> capture_queue (st s) = Some QClosed)
      && bool_decide (v_closed (view_of ∅ s) = ∅)
      && match next_owner s quiet_framework s [] with
         | Some (_, s2, _) =>
             bool_decide (statuses (log s2) = [(9, STATUS_DEVICE_NOT_READY); (8, STATUS_SUCCESS)])
         | None => false
         end
  | None => false
  end.

(** C39: a clean-up that is overtaken by a power cycle leaves the device open
    with closed queues.  D0 exit and D0 entry may run while a clean-up waits for
    the packet callbacks; D0 entry then publishes the device as open, and the
    clean-up goes on to purge the waiting reads and to close both queues, but
    does not reopen them, since the life cycle is no longer the one it set.
    Nothing else reopens them before the next power cycle or clean-up: the next
    owner's open succeeds, and its writes fail with [STATUS_DEVICE_NOT_READY].
    So the phases of [power_refinement] need callbacks that do not overlap. *)
Theorem cleanup_overtaken_by_power :
  respects dp_contract overtaking ∧ realises Working (view_of ∅ example_dev) ∧
  ∃ s' w', evt_file_cleanup true overtaking example_dev [] = Some (tt, s', w') ∧
    lifecycle (st s') = INSTANCE_OPEN ∧ control_open (st s') = false ∧
    queue_state <$> injection_queue (st s') = Some QClosed ∧
    queue_state <$> capture_queue (st s') = Some QClosed ∧ v_closed (view_of ∅ s') = ∅ ∧
    ∃ s2 w2, next_owner s' quiet_framework s' [] = Some (tt, s2, w2) ∧
      statuses (log s2) = [(9, STATUS_DEVICE_NOT_READY); (8, STATUS_SUCCESS)].
Proof.
  split; [exact overtaking_respects|]. split; [exact example_working|].
  assert (stuck_open (evt_file_cleanup true overtaking example_dev []) = true) as H by (vm_compute; reflexivity).
  unfold stuck_open in H. destruct (evt_file_cleanup _ _ _ _) as [[[[] s'] w']|]; [|discriminate].
  exists s', w'. split; [reflexivity|]. repeat (apply andb_true_iff in H as [H ?]).
  destruct (next_owner _ _ _ _) as [[[[] s2] w2]|]; [|discriminate].
  repeat match goal with E : bool_decide _ = true |- _ => apply bool_decide_eq_true in E end.
  split_and!; [assumption..|]. exists s2, w2. split; [reflexivity|assumption].
Qed.

(** A device with a captured frame, no request of the driver, and other threads
    that are quiet. *)
Definition captured_dev : dev :=
  match queue_step example_queue (QEnqueue (example_frame 3)) with
  | Some (q, _) => example_dev <| st := example_instance <| capture_queue := Some q |> |> <| owned := ∅ |>
                     <| inputs := ∅ |>
  | None => example_dev
  end.

Definition is_retrieval (x : event dp_ret) : bool :=
  match projT1 x with WdfIoQueueRetrieveNextRequest _ => true | _ => false end.
