(* ===== verification/BringUp.v ===== *)
(** * The packet driver's bring-up ([wintap-netadaptercx-driver/src/lib.rs])

    [driver_entry], [evt_driver_device_add] with [create_tap_device] and
    [create_adapter], the look-ups of the instance from a framework object, and
    the clean-up of the device.

    The memory is the heap of [InstanceState] boxes, the objects of the framework
    that are alive, and the [instance] field of each object's context.  A call on
    an object that is not alive, and an access through a null, freed or foreign
    pointer, is undefined.  A context is named by its object, null is 0.  Debug
    output is left out. *)

From S2P Require Import Prelude Words DriverConstants HardwareId Effects Ring FrameQueue Datapath WaitRecord Lifecycle.

(** ** What is registered with the framework *)

(** The functions of the driver that the framework calls. *)
Inductive handler :=
  | Evt_driver_device_add
  | Evt_device_d0_entry
  | Evt_device_d0_exit
  | Evt_device_prepare_hardware
  | Evt_device_release_hardware
  | Evt_file_create
  | Evt_file_close
  | Evt_file_cleanup
  | Evt_instance_context_destroy
  | Evt_io_device_control
  | Evt_io_stop
  | Evt_io_read
  | Evt_io_write
  | Evt_read_completion_work_item
  | Evt_create_tx_queue
  | Evt_create_rx_queue.

Record WDF_PNPPOWER_EVENT_CALLBACKS := {
  EvtDeviceD0Entry : option handler;
  EvtDeviceD0Exit : option handler;
  EvtDevicePrepareHardware : option handler;
  EvtDeviceReleaseHardware : option handler;
}.

Record WDF_FILEOBJECT_CONFIG := {
  EvtDeviceFileCreate : option handler;
  EvtFileClose : option handler;
  EvtFileCleanup : option handler;
}.

Inductive WDF_IO_QUEUE_DISPATCH_TYPE :=
  WdfIoQueueDispatchSequential | WdfIoQueueDispatchParallel | WdfIoQueueDispatchManual.

Inductive WDF_EXECUTION_LEVEL := WdfExecutionLevelInheritFromParent | WdfExecutionLevelPassive.

Inductive WDF_SYNCHRONIZATION_SCOPE :=
  WdfSynchronizationScopeInheritFromParent | WdfSynchronizationScopeQueue.

Inductive WDF_TRI_STATE := WdfFalse | WdfTrue | WdfUseDefault.

(** The configuration of a queue, and the two attributes that are set.  A field
    that the code leaves to [WDF_IO_QUEUE_CONFIG::default()] is zero: no callback,
    and [WdfFalse] for [PowerManaged], so that WDF does not stop the queues of
    the driver when the device leaves D0. *)
Record WDF_IO_QUEUE_CONFIG := {
  DispatchType : WDF_IO_QUEUE_DISPATCH_TYPE;
  PowerManaged : WDF_TRI_STATE;
  DefaultQueue : bool;
  AllowZeroLengthRequests : bool;
  NumberOfPresentedRequests : Z;
  EvtIoRead : option handler;
  EvtIoWrite : option handler;
  EvtIoDeviceControl : option handler;
  EvtIoStop : option handler;
  EvtIoCanceledOnQueue : option handler;
  queue_attributes : option (WDF_EXECUTION_LEVEL * WDF_SYNCHRONIZATION_SCOPE);
}.

(** ** State *)

(** [InstanceState]: the fields of [Datapath]; the identity; the admission words
    ([Lease]); the adaptive wait ([WaitProtocol]). *)
Record Instance := {
  shared : InstanceState;
  instance_guid : GUID;
  pnp_device : Z;
  rx_callback_leases : Z;
  tx_callback_leases : Z;
  wait_state : Z;
  wait_request : Z;
  wait_cancel_handoff : Z;
  wait_interest : Z;
  wait_registration_capture_generation : Z;
  wait_registration_injection_generation : Z;
}.

#[export] Instance Instance_eta : Eta Instance := λ i,
  Build_Instance (shared i) (instance_guid i) (pnp_device i) (rx_callback_leases i)
    (tx_callback_leases i) (wait_state i) (wait_request i) (wait_cancel_handoff i) (wait_interest i)
    (wait_registration_capture_generation i) (wait_registration_injection_generation i).

(** An object of the framework: the object it is deleted with, and its
    [EvtCleanupCallback]. *)
Record object := { parent : Z; cleanup : option handler }.

Record boot := {
  instances : gmap Z Instance;      (* the boxes *)
  objects : gmap Z object;          (* the live objects *)
  contexts : gmap Z Z;              (* the instance field of each object's context *)
  adapter_inits : gmap Z Z;         (* [NETADAPTER_INIT]s, with their devices *)
  released : list Frame;            (* frames freed with their instance *)
}.

#[export] Instance boot_eta : Eta boot := λ s,
  Build_boot (instances s) (objects s) (contexts s) (adapter_inits s) (released s).

(** ** Calls *)

Inductive context_type := DeviceContextType | AdapterContextType | WorkItemContextType.

Inductive boot_call :=
  | WdfDriverCreate (device_add : handler)
  | NetDeviceInitConfig (device_init : Z)
  | WdfDeviceInitSetPnpPowerEventCallbacks (device_init : Z) (callbacks : WDF_PNPPOWER_EVENT_CALLBACKS)
  | WdfDeviceInitSetFileObjectConfig (device_init : Z) (config : WDF_FILEOBJECT_CONFIG)
  | WdfDeviceCreate (device_init : Z) (cleanup : handler)
  | WdfDeviceCreateDeviceInterface (device : Z) (class : GUID)
  | WdfDeviceQueryProperty (device size : Z)
  | WdfObjectGetTypedContextWorker (object : Z) (type : context_type)
  | WdfObjectDelete (object : Z)
  | AllocateInstanceState
  | AllocateFrames (limit : Z)
  | WdfLookasideListCreate (parent size tag : Z)
  | WdfSpinLockCreate (parent : Z)
  | WdfWaitLockCreate (parent : Z)
  | WdfIoQueueCreate (device : Z) (config : WDF_IO_QUEUE_CONFIG)
  | WdfDeviceConfigureRequestDispatching (device queue : Z)   (* of device controls *)
  | WdfWorkItemCreate (parent : Z) (function : handler)
  | WdfIoQueueGetDevice (queue : Z)
  | NetAdapterInitAllocate (device : Z)
  | NetAdapterInitSetDatapathCallbacks (adapter_init : Z) (create_tx create_rx : handler)
  | NetAdapterCreate (adapter_init : Z)
  | NetAdapterInitFree (adapter_init : Z).

(** A status, a status with a new handle, a pointer, or nothing. *)
Definition boot_ret (c : boot_call) : Type :=
  match c with
  | WdfDeviceInitSetPnpPowerEventCallbacks _ _ | WdfDeviceInitSetFileObjectConfig _ _
  | WdfObjectDelete _ | NetAdapterInitSetDatapathCallbacks _ _ _ | NetAdapterInitFree _ => unit
  | WdfDeviceCreate _ _ | WdfLookasideListCreate _ _ _ | WdfSpinLockCreate _ | WdfWaitLockCreate _
  | WdfIoQueueCreate _ _ | WdfWorkItemCreate _ _ | NetAdapterCreate _ => Z * Z
  | WdfDeviceQueryProperty _ _ => Z * list Z * Z
  | AllocateFrames _ => bool
  | _ => Z
  end.

Abbreviation B := (M boot boot_ret).

(** The objects a call uses. *)
Definition uses (c : boot_call) : list Z :=
  match c with
  | WdfDeviceCreateDeviceInterface o _ | WdfDeviceQueryProperty o _
  | WdfObjectGetTypedContextWorker o _ | WdfObjectDelete o | WdfLookasideListCreate o _ _
  | WdfSpinLockCreate o | WdfWaitLockCreate o | WdfIoQueueCreate o _ | WdfWorkItemCreate o _
  | WdfIoQueueGetDevice o | NetAdapterInitAllocate o => [o]
  | WdfDeviceConfigureRequestDispatching device queue => [device; queue]
  | _ => []
  end.

(** The [NETADAPTER_INIT]s a call uses. *)
Definition uses_init (c : boot_call) : list Z :=
  match c with
  | NetAdapterInitSetDatapathCallbacks init _ _ | NetAdapterCreate init | NetAdapterInitFree init => [init]
  | _ => []
  end.

Definition bcall (c : boot_call) : B (boot_ret c) :=
  s ← get;
  if decide (Forall (λ o, is_Some (objects s !! o)) (uses c) ∧
             Forall (λ i, is_Some (adapter_inits s !! i)) (uses_init c))
  then do_call c else undefined.

(** ** Memory accesses *)

Definition deref (state : Z) : B Instance := s ← get; from_option (instances s !! state).

Definition assign (state : Z) (f : Instance → Instance) : B unit :=
  i ← deref state; s ← get; put (s <| instances := <[state := f i]> (instances s) |>).

Definition update_shared (state : Z) (f : InstanceState → InstanceState) : B unit :=
  assign state (λ i, i <| shared := f (shared i) |>).

Definition context_instance (context : Z) : B Z := s ← get; from_option (contexts s !! context).

Definition set_context_instance (context state : Z) : B unit :=
  _ ← context_instance context; s ← get; put (s <| contexts := <[context := state]> (contexts s) |>).

(** ** From an object to the instance *)

Definition object_context (object : Z) (type : context_type) : B Z :=
  bcall (WdfObjectGetTypedContextWorker object type).

Definition instance_in_context (object : Z) (type : context_type) : B (option Z) :=
  context ← object_context object type;
  if context =? 0 then mret None
  else instance ← context_instance context; mret (if instance =? 0 then None else Some instance).

Definition instance_from_device (device : Z) : B (option Z) :=
  instance_in_context device DeviceContextType.

Definition instance_from_pnp_device (device : Z) : B (option Z) := instance_from_device device.

Definition instance_from_adapter (adapter : Z) : B (option Z) :=
  instance_in_context adapter AdapterContextType.

Definition instance_from_io_queue (queue : Z) : B (option Z) :=
  device ← bcall (WdfIoQueueGetDevice queue); instance_from_device device.

Definition instance_from_work_item (work_item : Z) : B (option Z) :=
  instance_in_context work_item WorkItemContextType.

(** ** The instance *)

Definition new_shared (mtu frame_maximum : Z) (mac_address : list Z) : InstanceState := {|
  Datapath.frame_maximum := frame_maximum;
  read_queue := 0;
  injection_lock := 0;
  capture_lock := 0;
  frame_pool := 0;
  injection_queue := None;
  capture_queue := None;
  read_work_item := 0;
  legacy_direct_read_lock := 0;
  write_lifetime_lock := 0;
  rx_queue := 0;
  rx_notification_armed := false;
  pending_reads := 0;
  legacy_direct_read_claims := 0;
  pending_writes := 0;
  adaptive_enabled := false;
  injection_generation := 0;
  capture_generation := 0;
  owner_generation := 0;
  lifecycle := INSTANCE_OPEN;
  Datapath.mtu := mtu;
  Datapath.mac_address := mac_address;
  adapter := 0;
  state_lock := 0;
  active_packet_filters := 0;
  active_multicast_address_count := 0;
  active_multicast_addresses := replicate (Z.to_nat MAXIMUM_MULTICAST_ADDRESSES) zero_address;
  tx_queue := 0;
  tx_queue_started := false;
  rx_queue_started := false;
  control_open := false |}.

(** [None]: a panic. *)
Definition InstanceState_new (guid : GUID) (mtu : Z) : option Instance :=
  frame_maximum ← checked_add usize_bits mtu FRAME_MINIMUM;
  mac_address ← Parser.mac_address_from_guid guid;
  Some {| shared := new_shared mtu frame_maximum mac_address;
          instance_guid := guid;
          pnp_device := 0;
          rx_callback_leases := DATAPATH_CLOSED_HARDWARE;
          tx_callback_leases := DATAPATH_CLOSED_HARDWARE;
          wait_state := wait_record_word 0 0 WAIT_FREE;
          wait_request := 0;
          wait_cancel_handoff := WAIT_HANDOFF_NONE;
          wait_interest := 0;
          wait_registration_capture_generation := 0;
          wait_registration_injection_generation := 0 |}.

Definition allocate_instance_state (guid : GUID) (mtu : Z) : B Z :=
  state ← bcall AllocateInstanceState;
  if state =? 0 then mret 0
  else
    i ← from_option (InstanceState_new guid mtu);
    s ← get;
    _ ← put (s <| instances := <[state := i]> (instances s) |>);
    mret state.

(** Dropping the box drops both queues, and so the frames in them. *)
Definition drop_instance (i : Instance) : option (list Frame) :=
  injected ← match injection_queue (shared i) with Some q => FrameQueue_drop q | None => Some [] end;
  captured ← match capture_queue (shared i) with Some q => FrameQueue_drop q | None => Some [] end;
  Some (injected ++ captured).

Definition release_context (context : Z) (s : boot) : option boot :=
  state ← contexts s !! context;
  if state =? 0 then Some s
  else
    i ← instances s !! state;
    frames ← drop_instance i;
    Some (s <| contexts := <[context := 0]> (contexts s) |>
            <| instances := delete state (instances s) |>
            <| released := released s ++ frames |>).

Definition evt_instance_context_destroy (object : Z) : B unit :=
  context ← object_context object DeviceContextType;
  if context =? 0 then mret tt
  else s ← get; s' ← from_option (release_context context s); put s'.

(** ** The device *)

Definition POOL_TAG : Z := read_le [87; 84; 70; 82] 0 4.   (* "WTFR" *)

Definition delete_device {A} (device status : Z) : B (result A Z) :=
  _ ← bcall (WdfObjectDelete device); mret (Err status).

(** The new handle; a failure deletes the device. *)
Definition or_delete (device : Z) (m : B (Z * Z)) : B (result Z Z) :=
  '(status, handle) ← m;
  if negb (status =? STATUS_SUCCESS) then delete_device device status else mret (Ok handle).

Definition create_frame_pool (device : Z) : B (result Z Z) :=
  '(status, frame_pool) ← bcall (WdfLookasideListCreate device FRAME_STORAGE_SIZE POOL_TAG);
  mret (if negb (status =? STATUS_SUCCESS) then Err status else Ok frame_pool).

Definition create_frame_queue (device queue_byte_limit : Z) : B (result FrameQueue Z) :=
  available ← bcall (AllocateFrames FRAME_QUEUE_LIMIT);
  match FrameQueue_try_new (λ _, available) FRAME_QUEUE_LIMIT queue_byte_limit with
  | Ok queue => mret (Ok queue)
  | Err _ => delete_device device STATUS_INSUFFICIENT_RESOURCES
  end.

Definition control_queue_config : WDF_IO_QUEUE_CONFIG := {|
  DispatchType := WdfIoQueueDispatchParallel;
  PowerManaged := WdfFalse;
  DefaultQueue := false;
  AllowZeroLengthRequests := true;
  NumberOfPresentedRequests := 2 ^ 32 - 1;
  EvtIoRead := None;
  EvtIoWrite := None;
  EvtIoDeviceControl := Some Evt_io_device_control;
  EvtIoStop := Some Evt_io_stop;
  EvtIoCanceledOnQueue := None;
  queue_attributes := Some (WdfExecutionLevelPassive, WdfSynchronizationScopeQueue) |}.

Definition create_control_queue (device : Z) : B (result unit Z) :=
  control_queue ←? or_delete device (bcall (WdfIoQueueCreate device control_queue_config));
  status ← bcall (WdfDeviceConfigureRequestDispatching device control_queue);
  if negb (status =? STATUS_SUCCESS) then delete_device device status else mret (Ok tt).

Definition default_queue_config : WDF_IO_QUEUE_CONFIG := {|
  DispatchType := WdfIoQueueDispatchSequential;
  PowerManaged := WdfFalse;
  DefaultQueue := true;
  AllowZeroLengthRequests := true;
  NumberOfPresentedRequests := 0;
  EvtIoRead := Some Evt_io_read;
  EvtIoWrite := Some Evt_io_write;
  EvtIoDeviceControl := None;
  EvtIoStop := None;
  EvtIoCanceledOnQueue := None;
  queue_attributes := Some (WdfExecutionLevelPassive, WdfSynchronizationScopeInheritFromParent) |}.

Definition create_default_queue (device : Z) : B (result Z Z) :=
  or_delete device (bcall (WdfIoQueueCreate device default_queue_config)).

Definition create_read_work_item (device state : Z) : B (result Z Z) :=
  work_item ←? or_delete device (bcall (WdfWorkItemCreate device Evt_read_completion_work_item));
  context ← object_context work_item WorkItemContextType;
  if context =? 0 then delete_device device STATUS_INSUFFICIENT_RESOURCES
  else
    _ ← set_context_instance context state;
    _ ← update_shared state (λ i, i <| read_work_item := work_item |>);
    mret (Ok work_item).

Definition read_queue_config : WDF_IO_QUEUE_CONFIG := {|
  DispatchType := WdfIoQueueDispatchManual;
  PowerManaged := WdfFalse;
  DefaultQueue := false;
  AllowZeroLengthRequests := true;
  NumberOfPresentedRequests := 0;
  EvtIoRead := None;
  EvtIoWrite := None;
  EvtIoDeviceControl := None;
  EvtIoStop := Some Evt_io_stop;
  EvtIoCanceledOnQueue := None;
  queue_attributes := None |}.

Definition create_read_queue (device : Z) : B (result Z Z) :=
  or_delete device (bcall (WdfIoQueueCreate device read_queue_config)).

Definition spin_lock (device : Z) : B (result Z Z) := or_delete device (bcall (WdfSpinLockCreate device)).
Definition wait_lock (device : Z) : B (result Z Z) := or_delete device (bcall (WdfWaitLockCreate device)).

Definition try_create_tap_device (device state : Z) : B (result unit Z) :=
  i ← deref state;
  match checked_mul usize_bits FRAME_QUEUE_LIMIT (frame_maximum (shared i)) with
  | None => delete_device device STATUS_INSUFFICIENT_RESOURCES
  | Some queue_byte_limit =>
      frame_pool ←? create_frame_pool device;
      injection_queue ←? create_frame_queue device queue_byte_limit;
      capture_queue ←? create_frame_queue device queue_byte_limit;
      injection_lock ←? spin_lock device;
      capture_lock ←? spin_lock device;
      state_lock ←? spin_lock device;
      write_lifetime_lock ←? wait_lock device;
      legacy_direct_read_lock ←? wait_lock device;
      _ ←? create_control_queue device;
      _ ←? create_default_queue device;
      read_work_item ←? create_read_work_item device state;
      read_queue ←? create_read_queue device;
      _ ← update_shared state (λ i,
        i <| Datapath.read_queue := read_queue |>
          <| Datapath.injection_lock := injection_lock |>
          <| Datapath.capture_lock := capture_lock |>
          <| Datapath.frame_pool := frame_pool |>
          <| Datapath.state_lock := state_lock |>
          <| Datapath.legacy_direct_read_lock := legacy_direct_read_lock |>
          <| Datapath.write_lifetime_lock := write_lifetime_lock |>
          <| Datapath.injection_queue := Some injection_queue |>
          <| Datapath.capture_queue := Some capture_queue |>
          <| Datapath.read_work_item := read_work_item |>);
      mret (Ok tt)
  end.

Definition create_tap_device (device state : Z) : B Z :=
  r ← try_create_tap_device device state;
  mret (match r with Ok _ => STATUS_SUCCESS | Err status => status end).

(** ** The adapter *)

Definition create_adapter (device state : Z) : B Z :=
  adapter_init ← bcall (NetAdapterInitAllocate device);
  if adapter_init =? 0 then mret STATUS_INSUFFICIENT_RESOURCES
  else
    _ ← bcall (NetAdapterInitSetDatapathCallbacks adapter_init Evt_create_tx_queue Evt_create_rx_queue);
    '(status, adapter) ← bcall (NetAdapterCreate adapter_init);
    _ ← bcall (NetAdapterInitFree adapter_init);
    if negb (status =? STATUS_SUCCESS) then mret status
    else
      _ ← update_shared state (λ i, i <| Datapath.adapter := adapter |>);
      context ← object_context adapter AdapterContextType;
      if context =? 0 then mret STATUS_INSUFFICIENT_RESOURCES
      else _ ← set_context_instance context state; mret STATUS_SUCCESS.

(** ** Device add *)

Definition TAP_INTERFACE_CLASS : GUID := {|
  Data1 := 0x25d32edf; Data2 := 0x7c8c; Data3 := 0x4f09;
  Data4 := [0x90; 0x1f; 0x65; 0x0b; 0x23; 0x2e; 0x86; 0x4d] |}.

Definition pnp_callbacks : WDF_PNPPOWER_EVENT_CALLBACKS := {|
  EvtDeviceD0Entry := Some Evt_device_d0_entry;
  EvtDeviceD0Exit := Some Evt_device_d0_exit;
  EvtDevicePrepareHardware := Some Evt_device_prepare_hardware;
  EvtDeviceReleaseHardware := Some Evt_device_release_hardware |}.

Definition file_config : WDF_FILEOBJECT_CONFIG := {|
  EvtDeviceFileCreate := Some Evt_file_create;
  EvtFileClose := Some Evt_file_close;
  EvtFileCleanup := Some Evt_file_cleanup |}.

Definition delete_and_return (device status : Z) : B Z :=
  _ ← bcall (WdfObjectDelete device); mret status.

Definition child_properties (device : Z) : B (result (GUID * Z) Z) :=
  answer ← bcall (WdfDeviceQueryProperty device 256);
  from_option (Parser.child_properties_from_hardware_id (λ _, answer)).

Definition evt_driver_device_add (device_init : Z) : B Z :=
  status ← bcall (NetDeviceInitConfig device_init);
  if negb (status =? STATUS_SUCCESS) then mret status
  else
  _ ← bcall (WdfDeviceInitSetPnpPowerEventCallbacks device_init pnp_callbacks);
  _ ← bcall (WdfDeviceInitSetFileObjectConfig device_init file_config);
  '(status, device) ← bcall (WdfDeviceCreate device_init Evt_instance_context_destroy);
  if negb (status =? STATUS_SUCCESS) then mret status
  else
  status ← bcall (WdfDeviceCreateDeviceInterface device TAP_INTERFACE_CLASS);
  if negb (status =? STATUS_SUCCESS) then delete_and_return device status
  else
  context ← object_context device DeviceContextType;
  if context =? 0 then delete_and_return device STATUS_INSUFFICIENT_RESOURCES
  else
  properties ← child_properties device;
  match properties with
  | Err status => delete_and_return device status
  | Ok (guid, mtu) =>
      state ← allocate_instance_state guid mtu;
      if state =? 0 then delete_and_return device STATUS_INSUFFICIENT_RESOURCES
      else
      _ ← set_context_instance context state;
      _ ← assign state (λ i, i <| pnp_device := device |>);
      status ← create_tap_device device state;
      if negb (status =? STATUS_SUCCESS) then mret status else create_adapter device state
  end.

Definition driver_entry : B Z :=
  status ← bcall (WdfDriverCreate Evt_driver_device_add);
  mret (if negb (status =? STATUS_SUCCESS) then status else STATUS_SUCCESS).
