(* ===== verification/BringUpSpec.v ===== *)
(** * The packet driver's bring-up: contract and rules

    What the framework does when the driver creates and deletes objects, and
    what each step of [BringUp] leaves behind. *)

From S2P Require Import Prelude Words DriverConstants HardwareId Effects Ring FrameQueue Datapath DatapathSpec WaitRecord Lifecycle LifecycleSpec BringUp.

(** ** The contract *)

Definition add_object (h : Z) (o : object) (s : boot) : boot := s <| objects := <[h := o]> (objects s) |>.
Definition add_context (h : Z) (s : boot) : boot := s <| contexts := <[h := 0]> (contexts s) |>.

(** A new handle, perhaps with a context, which starts zeroed; or an error. *)
Definition creates (o : object) (with_context : bool) (r : Z * Z) (s s' : boot) : Prop :=
  if r.1 =? STATUS_SUCCESS
  then r.2 ≠ 0 ∧ objects s !! r.2 = None ∧
       (s' = add_object r.2 o s ∨ with_context = true ∧ s' = add_context r.2 (add_object r.2 o s))
  else s' = s.

Definition child (device : Z) : object := {| parent := device; cleanup := None |}.

(** Without the object, its children and their contexts. *)
Definition forget (o : Z) (s : boot) : boot :=
  let live := filter (λ x : Z * object, x.1 ≠ o ∧ parent x.2 ≠ o) (objects s) in
  s <| objects := live |>
    <| contexts := filter (λ x : Z * Z, is_Some (live !! x.1)) (contexts s) |>.

(** The clean-up callback as the framework runs it ([destroy_is_cleanup]). *)
Definition run_cleanup (o : Z) (s : boot) : option boot :=
  match objects s !! o ≫= cleanup with
  | Some Evt_instance_context_destroy =>
      if decide (is_Some (contexts s !! o)) then release_context o s else Some s
  | _ => Some s
  end.

Definition deleted (o : Z) (s : boot) : option boot := forget o <$> run_cleanup o s.

Definition boot_answer (c : boot_call) : boot_ret c → boot → boot → Prop :=
  match c with
  | WdfDeviceCreate _ f => creates {| parent := 0; cleanup := Some f |} true
  | WdfLookasideListCreate device _ _ | WdfSpinLockCreate device | WdfWaitLockCreate device
  | WdfIoQueueCreate device _ => creates (child device) false
  | WdfWorkItemCreate device _ => creates (child device) true
  | NetAdapterCreate init => λ r s, creates (child (default 0 (adapter_inits s !! init))) true r s
  | WdfDeviceQueryProperty _ size => λ r s s', s' = s ∧ (0 ≤ size → len r.1.2 = size / 2) ∧ 0 ≤ r.2
  | WdfObjectGetTypedContextWorker o _ => λ r s s',
      s' = s ∧ r = if decide (is_Some (contexts s !! o)) then o else 0
  | WdfObjectDelete o => λ _ s s', match deleted o s with Some s1 => s' = s1 | None => True end
  | AllocateInstanceState => λ r s s', s' = s ∧ (r = 0 ∨ instances s !! r = None)
  | WdfIoQueueGetDevice queue => λ r s s', s' = s ∧ ∀ o, objects s !! queue = Some o → r = parent o
  | NetAdapterInitAllocate device => λ r s s',
      if r =? 0 then s' = s
      else adapter_inits s !! r = None ∧ s' = s <| adapter_inits := <[r := device]> (adapter_inits s) |>
  | NetAdapterInitFree init => λ _ s s', s' = s <| adapter_inits := delete init (adapter_inits s) |>
  | _ => λ _ s s', s' = s
  end.

Definition boot_contract : contract boot boot_ret := λ w c s r s', boot_answer c r s s'.

(** ** The identity of a child *)

Lemma guid_of_digits_data4 digits g : Parser.guid_of_digits digits = Some g → len (Data4 g) = 8.
Proof.
  unfold Parser.guid_of_digits. intros H.
  repeat match type of H with
  | mbind _ ?x = Some _ => destruct x; [|discriminate]; cbn [mbind option_bind] in H
  end. by injection H as <-.
Qed.

Lemma parse_guid_loop_data4 chars : ∀ digits n g,
  Parser.parse_guid_loop chars digits n = Some (Some g) → len (Data4 g) = 8.
Proof.
  induction chars as [|c chars IH]; intros digits n g H; cbn [Parser.parse_guid_loop] in H; [done|].
  destruct (c =? 125).
  { destruct (negb _); [done|]. destruct (Parser.guid_of_digits digits) eqn:Hg; [|done].
    cbn in H. simplify_eq. by eapply guid_of_digits_data4. }
  destruct (c =? 45); [by eapply IH|]. destruct (Parser.hex_nibble c); [|done].
  destruct (n =? len digits); [done|]. destruct (at_index digits n); [|done]. by eapply IH.
Qed.

Lemma parse_child_guid_data4 id g :
  Parser.parse_child_guid_from_hardware_id id = Some (Some g) → len (Data4 g) = 8.
Proof.
  unfold Parser.parse_child_guid_from_hardware_id. destruct (negb _); [done|].
  destruct (slice _ _ _); [|done]. apply parse_guid_loop_data4.
Qed.

Lemma scan_ids_data4 fuel : ∀ ids n offset guid mtu g m,
  (∀ g, guid = Some g → len (Data4 g) = 8) →
  Parser.scan_ids fuel ids n offset guid mtu = Some (Ok (Some g, m)) → len (Data4 g) = 8.
Proof.
  induction fuel as [|fuel IH]; intros ids n offset guid mtu g m Hg H; cbn [Parser.scan_ids] in H; [done|].
  destruct (negb _); [simplify_eq; by apply Hg|]. destruct (slice ids offset n); [|done].
  cbn [mbind option_bind] in H. destruct (Printer.position_zero _) as [k|]; [|done].
  destruct (k =? 0); [simplify_eq; by apply Hg|]. destruct (slice ids offset _) as [id|]; [|done].
  cbn [mbind option_bind] in H. destruct (Parser.parse_child_guid_from_hardware_id id) as [parsed|] eqn:Hp; [|done].
  cbn [mbind option_bind] in H.
  assert (∀ g, match parsed with Some g => Some g | None => guid end = Some g → len (Data4 g) = 8) as Hg'.
  { intros g' Hg'. destruct parsed; simplify_eq; [by eapply parse_child_guid_data4|by apply Hg]. }
  destruct (Parser.starts_with _ _); [|by eapply IH].
  destruct (Parser.parse_child_mtu_from_hardware_id id) as [[v|]|]; [|done..]. by eapply IH.
Qed.

Lemma child_properties_data4 query g mtu :
  Parser.child_properties_from_hardware_id query = Some (Ok (g, mtu)) → len (Data4 g) = 8.
Proof.
  unfold Parser.child_properties_from_hardware_id. destruct (query _) as [[status ids] n].
  destruct (negb _); [done|]. destruct (negb _); [done|].
  destruct (Parser.scan_ids _ _ _ _ _ _) as [[[[g'|] m]|]|] eqn:Hs; cbn; [|destruct m; done|done|done].
  intros H. assert (g' = g) as -> by (destruct m; by injection H).
  refine (scan_ids_data4 _ _ _ _ _ _ _ _ _ Hs). by intros.
Qed.

Lemma scan_ids_error fuel : ∀ ids n offset guid mtu status,
  Parser.scan_ids fuel ids n offset guid mtu = Some (Err status) → status ≠ STATUS_SUCCESS.
Proof.
  induction fuel as [|fuel IH]; intros ids n offset guid mtu status H; cbn [Parser.scan_ids] in H; [done|].
  destruct (negb _); [done|]. destruct (slice ids offset n); [|done]. cbn [mbind option_bind] in H.
  destruct (Printer.position_zero _) as [k|]; [|by injection H as <-].
  destruct (k =? 0); [done|]. destruct (slice ids offset _) as [id|]; [|done].
  cbn [mbind option_bind] in H. destruct (Parser.parse_child_guid_from_hardware_id id); [|done].
  cbn [mbind option_bind] in H. destruct (Parser.starts_with _ _); [|by eapply IH].
  destruct (Parser.parse_child_mtu_from_hardware_id id) as [[v|]|]; [by eapply IH|by injection H as <-|done].
Qed.

Lemma child_properties_error query status :
  Parser.child_properties_from_hardware_id query = Some (Err status) → status ≠ STATUS_SUCCESS.
Proof.
  unfold Parser.child_properties_from_hardware_id. destruct (query _) as [[st ids] n].
  destruct (Z.eqb_spec st Parser.STATUS_SUCCESS); cbn [negb]; [|by intros [= <-]].
  destruct (negb _); [by intros [= <-]|].
  destruct (Parser.scan_ids _ _ _ _ _ _) as [[[[g|] [m|]]|]|] eqn:Hs; cbn; try (by intros [= <-]).
  intros [= <-]. by eapply scan_ids_error.
Qed.

Lemma mac_address_total g : len (Data4 g) = 8 →
  ∃ mac, Parser.mac_address_from_guid g = Some mac ∧ len mac = 6.
Proof.
  unfold len. intros H. unfold Parser.mac_address_from_guid, at_index.
  destruct (Data4 g) as [|b0 [|b1 [|b2 [|b3 [|b4 l]]]]]; try done. cbn. by eexists.
Qed.

Lemma mac_of_guid g mac : guid_words g → Parser.mac_address_from_guid g = Some mac →
  mac = 2 :: take 5 (Data4 g) ∧ len mac = 6.
Proof.
  intros (_ & _ & _ & Hl & _). unfold len in Hl. unfold Parser.mac_address_from_guid, at_index.
  destruct (Data4 g) as [|b0 [|b1 [|b2 [|b3 [|b4 l]]]]]; try done. cbn. by intros [= <-].
Qed.

(** ** What bringing a device up has left behind *)

(** No object of the framework refers to one that does not exist. *)
Record tidy (s : boot) : Prop := {
  ti_parents h o : objects s !! h = Some o → parent o = 0 ∨ is_Some (objects s !! parent o);
  ti_contexts h : is_Some (contexts s !! h) → is_Some (objects s !! h);
}.

Definition device_object : object := {| parent := 0; cleanup := Some Evt_instance_context_destroy |}.

(** [device] was created in [s0], and its children [hs]; nothing else changed but
    for the instance in [boxes].  The contexts of [cs] name [state]. *)
Record owns (s0 : boot) (device state : Z) (boxes : gmap Z Instance) (hs cs : list Z) (s : boot) : Prop := {
  ow_device : device ≠ 0 ∧ objects s !! device = Some device_object ∧ objects s0 !! device = None;
  ow_children h : h ∈ hs → h ≠ 0 ∧ objects s !! h = Some (child device) ∧ objects s0 !! h = None;
  ow_distinct : NoDup (device :: hs);
  ow_objects h : h ∉ device :: hs → objects s !! h = objects s0 !! h;
  ow_contexts h : h ∉ device :: hs → contexts s !! h = contexts s0 !! h;
  ow_named h : h ∈ cs → h ∈ device :: hs ∧ contexts s !! h = Some state;
  ow_instances : instances s = boxes;
  ow_inits : adapter_inits s = adapter_inits s0;
  ow_released : released s = released s0;
}.

Section owns.
Context (s0 : boot) (Hs0 : tidy s0).

Lemma owns_live device state boxes hs cs s h :
  owns s0 device state boxes hs cs s → h ∈ device :: hs → is_Some (objects s !! h).
Proof.
  intros [Hd Hc _ _ _ _ _ _ _] [->|Hh]%elem_of_cons; [by destruct Hd as (_ & -> & _)|by destruct (Hc h Hh) as (_ & -> & _)].
Qed.

(** One more child. *)
Lemma owns_child device state boxes hs cs s h with_context s' :
  owns s0 device state boxes hs cs s → h ≠ 0 → objects s !! h = None →
  s' = add_object h (child device) s ∨ with_context = true ∧ s' = add_context h (add_object h (child device) s) →
  owns s0 device state boxes (h :: hs) cs s'.
Proof.
  intros Hs Hh Hnone Hs'. assert (h ∉ device :: hs) as Hfresh.
  { intros Hin. destruct (owns_live _ _ _ _ _ _ _ Hs Hin) as [? E]. by rewrite E in Hnone. }
  pose proof Hs as [Hd Hc Hnd Ho Hx Hn Hi Ha Hr].
  assert (objects s' = <[h := child device]> (objects s)) as Eo by (by destruct Hs' as [->|[_ ->]]).
  assert (∀ h', h' ≠ h → contexts s' !! h' = contexts s !! h') as Ex.
  { intros h' Hne. destruct Hs' as [->|[_ ->]]; [done|]. cbn. by rewrite lookup_insert_ne. }
  assert (∀ h', h' ∈ device :: hs → objects s' !! h' = objects s !! h') as Eo'.
  { intros h' Hin. rewrite Eo, lookup_insert_ne; [done|]. intros <-. done. }
  split.
  - destruct Hd as (? & ? & ?). rewrite Eo' by set_solver. done.
  - intros h' [->|Hin]%elem_of_cons.
    + rewrite Eo, lookup_insert_eq, <- (Ho h Hfresh). done.
    + rewrite Eo' by set_solver. by apply Hc.
  - apply NoDup_cons in Hnd as [Hdn Hnd]. rewrite !NoDup_cons. set_solver.
  - intros h' Hin. rewrite Eo, lookup_insert_ne by set_solver. apply Ho. set_solver.
  - intros h' Hin. rewrite Ex by set_solver. apply Hx. set_solver.
  - intros h' Hin. destruct (Hn h' Hin) as [Hin' <-]. split; [set_solver|]. apply Ex. by intros ->.
  - by destruct Hs' as [->|[_ ->]].
  - by destruct Hs' as [->|[_ ->]].
  - by destruct Hs' as [->|[_ ->]].
Qed.

(** One more context names the instance. *)
Lemma owns_named device state boxes hs cs s h :
  owns s0 device state boxes hs cs s → h ∈ device :: hs →
  owns s0 device state boxes hs (h :: cs) (s <| contexts := <[h := state]> (contexts s) |>).
Proof.
  intros [Hd Hc Hnd Ho Hx Hn Hi Ha Hr] Hin. split; cbn; try done.
  - intros h' Hout. rewrite lookup_insert_ne by set_solver. by apply Hx.
  - intros h' [->|Hin']%elem_of_cons; [by rewrite lookup_insert_eq|].
    destruct (decide (h = h')) as [->|Hne]; [by rewrite lookup_insert_eq|].
    rewrite lookup_insert_ne by done. by apply Hn.
Qed.

Lemma owns_boxes device state boxes boxes' hs cs s :
  owns s0 device state boxes hs cs s → owns s0 device state boxes' hs cs (s <| instances := boxes' |>).
Proof. intros [Hd Hc Hnd Ho Hx Hn Hi Ha Hr]. by split. Qed.

(** The instance box of a device may start anywhere. *)
Lemma owns_state device state state' boxes hs s :
  owns s0 device state boxes hs [] s → owns s0 device state' boxes hs [] s.
Proof. intros [Hd Hc Hnd Ho Hx Hn Hi Ha Hr]. split; try done. set_solver. Qed.

(** A new device. *)
Lemma created_device status device s :
  creates device_object true (status, device) s0 s →
  (status ≠ STATUS_SUCCESS ∧ s = s0) ∨
  (status = STATUS_SUCCESS ∧ owns s0 device 0 (instances s0) [] [] s ∧
   (contexts s !! device = None ∨ contexts s !! device = Some 0)).
Proof.
  unfold creates. cbn [fst snd]. destruct (Z.eqb_spec status STATUS_SUCCESS) as [->|]; [|by left].
  intros (Hd & Hnone & Hs). right. split; [done|].
  assert (contexts s0 !! device = None) as Hctx.
  { apply eq_None_not_Some. intros [? E]%(ti_contexts _ Hs0). by rewrite E in Hnone. }
  destruct Hs as [->|[_ ->]]; (split; [|cbn; rewrite ?lookup_insert_eq; auto]); split; cbn; try done.
  all: try (by rewrite lookup_insert_eq). all: try (by apply not_elem_of_nil). all: try (by intros ? ?%not_elem_of_nil).
  all: try (by intros h Hh; rewrite lookup_insert_ne by set_solver).
  all: by apply NoDup_singleton.
Qed.

(** Without the device, everything is as it was. *)
Lemma forget_owns device state hs cs s :
  owns s0 device state (instances s0) hs cs s → forget device s = s0.
Proof.
  intros [(Hd0 & Hd & Hdn) Hc Hnd Ho Hx Hn Hi Ha Hr].
  assert (filter (λ x : Z * object, x.1 ≠ device ∧ parent x.2 ≠ device) (objects s) = objects s0) as Eo.
  { apply map_eq. intros h. destruct (decide (h ∈ device :: hs)) as [Hin|Hin].
    - trans (@None object); [|apply elem_of_cons in Hin as [->|Hin]; [by rewrite Hdn|by destruct (Hc h Hin) as (_ & _ & ->)]].
      apply map_lookup_filter_None_2. right. intros o E [Hne Hp]. cbn in *.
      apply elem_of_cons in Hin as [E1|Hin]; [done|]. destruct (Hc h Hin) as (_ & E' & _). by simplify_eq.
    - destruct (objects s0 !! h) as [o|] eqn:E.
      + apply map_lookup_filter_Some_2; [by rewrite Ho|]. cbn. split; [set_solver|]. intros Hp.
        destruct (ti_parents s0 Hs0 h o E) as [Hp'|[o' Ho']]; [congruence|]. rewrite Hp, Hdn in Ho'. done.
      + apply map_lookup_filter_None_2. left. by rewrite Ho. }
  unfold forget. rewrite Eo. destruct s0 as [si so sc sa sr], s as [si' so' sc' sa' sr']. cbn in *. subst si' sa' sr'.
  assert (∀ sc'', sc'' = sc → {| instances := si; objects := so; contexts := sc''; adapter_inits := sa; released := sr |}
    = {| instances := si; objects := so; contexts := sc; adapter_inits := sa; released := sr |}) as Hcong by (by intros ? ->).
  apply Hcong. apply map_eq. intros h. destruct (sc !! h) as [v|] eqn:E.
  - assert (is_Some (so !! h)) as Hh by (apply (ti_contexts _ Hs0); cbn; by rewrite E).
    apply map_lookup_filter_Some_2; [|done]. rewrite <- E. apply Hx.
    intros [->|Hin]%elem_of_cons; destruct Hh as [? Hh]; [by rewrite Hh in Hdn|].
    destruct (Hc h Hin) as (_ & _ & E'). by rewrite Hh in E'.
  - apply map_lookup_filter_None_2. destruct (so !! h) as [o|] eqn:E'; [left|right].
    + rewrite Hx; [done|]. intros [->|Hin]%elem_of_cons; [by rewrite E' in Hdn|].
      destruct (Hc h Hin) as (_ & _ & E2). by rewrite E' in E2.
    + cbn. rewrite E'. by intros ? _ [? ?].
Qed.

(** Deleting the device frees its instance, if it has one. *)
Lemma deleted_owns_bare device state hs s :
  owns s0 device state (instances s0) hs [] s →
  contexts s !! device = None ∨ contexts s !! device = Some 0 →
  deleted device s = Some s0.
Proof.
  intros Hs Hctx. pose proof (forget_owns _ _ _ _ _ Hs) as Hf. pose proof Hs as [(_ & Hd & _) _ _ _ _ _ _ _ _].
  unfold deleted, run_cleanup. rewrite Hd. cbn. destruct (decide _); [|cbn; by rewrite Hf].
  unfold release_context. destruct Hctx as [E|E]; rewrite E; [by rewrite E in i; destruct i|]. cbn. by rewrite Hf.
Qed.

Lemma deleted_owns device state i hs cs s :
  owns s0 device state (<[state := i]> (instances s0)) hs cs s → device ∈ cs → state ≠ 0 →
  instances s0 !! state = None → drop_instance i = Some [] →
  deleted device s = Some s0.
Proof.
  intros Hs Hcs Hstate Hfree Hdrop. pose proof Hs as [(_ & Hd & _) _ _ _ _ Hn Hi _ _].
  unfold deleted, run_cleanup. rewrite Hd. cbn. destruct (Hn device Hcs) as [_ E].
  rewrite decide_True by (by rewrite E). unfold release_context. rewrite E. cbn [mbind option_bind].
  rewrite (proj2 (Z.eqb_neq _ _)) by done. rewrite Hi, lookup_insert_eq. cbn [mbind option_bind].
  rewrite Hdrop. cbn [mbind option_bind fmap option_fmap option_map]. f_equal.
  apply (forget_owns device 0 hs []). destruct Hs as [Hd' Hc Hnd Ho Hx _ _ Ha Hr].
  split; cbn; try done.
  - intros h Hout. rewrite lookup_insert_ne by set_solver. by apply Hx.
  - set_solver.
  - by rewrite delete_insert_id.
  - by rewrite app_nil_r.
Qed.

End owns.

(** ** Frame queues of a new instance *)

Definition new_queue (byte_limit : Z) : FrameQueue := {|
  frames := replicate (Z.to_nat FRAME_QUEUE_LIMIT) None; head := 0; qlength := 0;
  limit := FRAME_QUEUE_LIMIT; byte_limit := byte_limit; bytes := 0; qstate := QOpen |}.

Lemma new_queue_repr n : 0 ≤ n < 2 ^ 64 → repr (new_queue n) {| sq_frames := []; sq_state := QOpen |}.
Proof.
  intros Hn. assert (FrameQueue_try_new (λ _, true) FRAME_QUEUE_LIMIT n = Ok (new_queue n)) as H by done.
  apply try_new_repr in H; [apply H|done|done].
Qed.

Lemma new_queue_drop n : 0 ≤ n < 2 ^ 64 → FrameQueue_drop (new_queue n) = Some [].
Proof.
  intros Hn. destruct (clear_frames_spec _ _ (new_queue_repr n Hn)) as (q & Hc & _).
  unfold FrameQueue_drop. by rewrite Hc.
Qed.

(** ** Rules *)

Section rules.
Context (e : env boot boot_ret) (Henv : respects boot_contract e).

(** [r] is the answer of this environment. *)
Lemma wp_bcall_answer c (Q : boot_ret c → boot → world boot_ret → Prop) s w :
  Forall (λ o, is_Some (objects s !! o)) (uses c) →
  Forall (λ i, is_Some (adapter_inits s !! i)) (uses_init c) →
  (∀ r s' w', r = (e w c s).1 → boot_answer c r s s' → Q r s' w') → wp e (bcall c) Q s w.
Proof.
  intros Ho Hi HQ. unfold bcall. apply wp_bind, wp_get. rewrite decide_True by done.
  exists (e w c s).1, (e w c s).2. eexists. split; [done|]. apply HQ; [done|apply (Henv w c s)].
Qed.

Lemma wp_bcall c (Q : boot_ret c → boot → world boot_ret → Prop) s w :
  Forall (λ o, is_Some (objects s !! o)) (uses c) →
  Forall (λ i, is_Some (adapter_inits s !! i)) (uses_init c) →
  (∀ r s' w', boot_answer c r s s' → Q r s' w') → wp e (bcall c) Q s w.
Proof. intros Ho Hi HQ. apply wp_bcall_answer; [done..|]. intros r s' w' _. apply HQ. Qed.

(** A call that uses nothing, or the device only. *)
Ltac bcall_ok :=
  lazymatch goal with
  | |- wp _ (bcall ?c) ?Q ?s ?w => refine (wp_bcall c Q s w _ _ _); [by repeat constructor..|]
  end.

Lemma wp_deref state i (Q : Instance → boot → world boot_ret → Prop) s w :
  instances s !! state = Some i → Q i s w → wp e (deref state) Q s w.
Proof. intros E HQ. unfold deref. apply wp_bind, wp_get. rewrite E. by apply wp_ret. Qed.

Lemma wp_assign state f i (Q : unit → boot → world boot_ret → Prop) s w :
  instances s !! state = Some i → Q tt (s <| instances := <[state := f i]> (instances s) |>) w →
  wp e (assign state f) Q s w.
Proof. intros E HQ. unfold assign. apply wp_bind, (wp_deref state i); [done|]. by apply wp_bind, wp_get, wp_put. Qed.

Lemma wp_set_context context v state (Q : unit → boot → world boot_ret → Prop) s w :
  contexts s !! context = Some v → Q tt (s <| contexts := <[context := state]> (contexts s) |>) w →
  wp e (set_context_instance context state) Q s w.
Proof.
  intros E HQ. unfold set_context_instance, context_instance.
  apply wp_bind, wp_bind, wp_get. rewrite E. apply wp_ret, wp_bind, wp_get, wp_put. done.
Qed.

Lemma wp_object_context o type (Q : Z → boot → world boot_ret → Prop) s w :
  is_Some (objects s !! o) →
  (∀ w', contexts s !! o = None → Q 0 s w') →
  (∀ v w', contexts s !! o = Some v → Q o s w') →
  wp e (object_context o type) Q s w.
Proof.
  intros Ho HN HS. unfold object_context. bcall_ok. intros r s' w' [-> ->].
  destruct (contexts s !! o) as [v|] eqn:E; [rewrite decide_True by done; by eapply HS|].
  rewrite decide_False by (by intros []). by apply HN.
Qed.

(** *** A device that is being built *)

Section device.
Context (s0 : boot) (Hs0 : tidy s0) (device state : Z) (Hstate : state ≠ 0)
  (Hfree : instances s0 !! state = None).

(** The instance [i] with the objects [hs]; no frame is in its queues. *)
Record built (i : Instance) (hs cs : list Z) (s : boot) : Prop := {
  bt_owns : owns s0 device state (<[state := i]> (instances s0)) hs cs s;
  bt_named : device ∈ cs;
  bt_empty : drop_instance i = Some [];
}.

Lemma built_device i hs cs s : built i hs cs s → is_Some (objects s !! device).
Proof. intros [Hs _ _]. by destruct (ow_device _ _ _ _ _ _ _ Hs) as (_ & -> & _). Qed.

Lemma built_instance i hs cs s : built i hs cs s → instances s !! state = Some i.
Proof. intros [Hs _ _]. rewrite (ow_instances _ _ _ _ _ _ _ Hs). apply lookup_insert_eq. Qed.

Lemma built_deleted i hs cs s : built i hs cs s → deleted device s = Some s0.
Proof. intros [Hs Hn He]. by eapply deleted_owns. Qed.

Lemma built_assign i i' hs cs s :
  built i hs cs s → drop_instance i' = Some [] →
  built i' hs cs (s <| instances := <[state := i']> (instances s) |>).
Proof.
  intros [Hs Hn He] He'. split; [|done|done]. rewrite (ow_instances _ _ _ _ _ _ _ Hs), insert_insert_eq.
  by eapply owns_boxes.
Qed.

Lemma wp_delete_device {A} status i hs cs (Q : result A Z → boot → world boot_ret → Prop) s w :
  built i hs cs s → (∀ w', Q (Err status) s0 w') → wp e (delete_device device status) Q s w.
Proof.
  intros Hs HQ. unfold delete_device. apply wp_bind.
  pose proof (built_device _ _ _ _ Hs). bcall_ok. intros [] s' w' Ha. cbn [boot_answer] in Ha.
  rewrite (built_deleted _ _ _ _ Hs) in Ha. subst s'. apply wp_ret, HQ.
Qed.

(** [m] creates a child of the device. *)
Definition makes (with_context : bool) (m : B (Z * Z)) : Prop :=
  ∀ (Q : Z * Z → boot → world boot_ret → Prop) s w, is_Some (objects s !! device) →
    (∀ r s' w', creates (child device) with_context r s s' → Q r s' w') → wp e m Q s w.

Lemma makes_spin_lock : makes false (bcall (WdfSpinLockCreate device)).
Proof. intros Q s w Ho HQ. bcall_ok. exact HQ. Qed.
Lemma makes_wait_lock : makes false (bcall (WdfWaitLockCreate device)).
Proof. intros Q s w Ho HQ. bcall_ok. exact HQ. Qed.
Lemma makes_queue config : makes false (bcall (WdfIoQueueCreate device config)).
Proof. intros Q s w Ho HQ. bcall_ok. exact HQ. Qed.
Lemma makes_pool size tag : makes false (bcall (WdfLookasideListCreate device size tag)).
Proof. intros Q s w Ho HQ. bcall_ok. exact HQ. Qed.
Lemma makes_work_item f : makes true (bcall (WdfWorkItemCreate device f)).
Proof. intros Q s w Ho HQ. bcall_ok. exact HQ. Qed.

Lemma creates_built i hs cs with_context r s s' :
  built i hs cs s → creates (child device) with_context r s s' →
  if r.1 =? STATUS_SUCCESS then built i (r.2 :: hs) cs s' else s' = s.
Proof.
  intros [Hs Hn He]. unfold creates. destruct (_ =? _); [|done]. intros (Hr & Hnone & Hs').
  split; [|done|done]. by eapply owns_child.
Qed.

Lemma wp_or_delete with_context m i hs cs (Q : result Z Z → boot → world boot_ret → Prop) s w :
  makes with_context m → built i hs cs s →
  (∀ status w', status ≠ STATUS_SUCCESS → Q (Err status) s0 w') →
  (∀ h s' w', built i (h :: hs) cs s' → Q (Ok h) s' w') →
  wp e (or_delete device m) Q s w.
Proof.
  intros Hm Hs HE HO. unfold or_delete. apply wp_bind, Hm; [by eapply built_device|].
  intros [status h] s' w' Hc. pose proof (creates_built _ _ _ _ _ _ _ Hs Hc) as H. cbn [fst snd] in H.
  destruct (Z.eqb_spec status STATUS_SUCCESS); cbn [negb]; [by apply wp_ret, HO|].
  subst s'. eapply wp_delete_device; [exact Hs|]. intros. by apply HE.
Qed.

Lemma wp_create_frame_pool i hs cs (Q : result Z Z → boot → world boot_ret → Prop) s w :
  built i hs cs s →
  (∀ status w', status ≠ STATUS_SUCCESS → Q (Err status) s w') →
  (∀ h s' w', built i (h :: hs) cs s' → Q (Ok h) s' w') →
  wp e (create_frame_pool device) Q s w.
Proof.
  intros Hs HE HO. unfold create_frame_pool. apply wp_bind, makes_pool; [by eapply built_device|].
  intros [status h] s' w' Hc. pose proof (creates_built _ _ _ _ _ _ _ Hs Hc) as H. cbn [fst snd] in H.
  apply wp_ret. destruct (Z.eqb_spec status STATUS_SUCCESS); cbn [negb]; [by apply HO|]. subst s'. by apply HE.
Qed.

Lemma wp_create_frame_queue n i hs cs (Q : result FrameQueue Z → boot → world boot_ret → Prop) s w :
  built i hs cs s →
  (∀ w', Q (Err STATUS_INSUFFICIENT_RESOURCES) s0 w') →
  (∀ w', Q (Ok (new_queue n)) s w') →
  wp e (create_frame_queue device n) Q s w.
Proof.
  intros Hs HE HO. unfold create_frame_queue. apply wp_bind. bcall_ok. intros available s' w' ->.
  unfold FrameQueue_try_new. change (FRAME_QUEUE_LIMIT * 16 <? 2 ^ 63) with true. cbn in available.
  destruct available; cbn [andb]; [apply wp_ret, HO|]. by eapply wp_delete_device.
Qed.

Lemma wp_create_control_queue i hs cs (Q : result unit Z → boot → world boot_ret → Prop) s w :
  built i hs cs s →
  (∀ status w', status ≠ STATUS_SUCCESS → Q (Err status) s0 w') →
  (∀ h s' w', built i (h :: hs) cs s' → Q (Ok tt) s' w') →
  wp e (create_control_queue device) Q s w.
Proof.
  intros Hs HE HO. unfold create_control_queue.
  apply wp_bind_ok, (wp_or_delete false _ i hs cs); [apply makes_queue|done|done|].
  intros h s1 w1 Hs1. apply wp_bind.
  assert (is_Some (objects s1 !! h)) as Hh.
  { apply (owns_live _ _ _ _ _ _ _ _ (bt_owns _ _ _ _ Hs1)). set_solver. }
  pose proof (built_device _ _ _ _ Hs1). bcall_ok. intros status s2 w2 ->. cbn in status.
  destruct (Z.eqb_spec status STATUS_SUCCESS); cbn [negb]; [by apply wp_ret, (HO h)|].
  eapply wp_delete_device; [exact Hs1|]. intros. by apply HE.
Qed.

Lemma wp_create_read_work_item i hs cs (Q : result Z Z → boot → world boot_ret → Prop) s w :
  built i hs cs s →
  (∀ status w', status ≠ STATUS_SUCCESS → Q (Err status) s0 w') →
  (∀ h s' w', built (i <| shared := (shared i) <| read_work_item := h |> |>) (h :: hs) (h :: cs) s' →
     Q (Ok h) s' w') →
  wp e (create_read_work_item device state) Q s w.
Proof.
  intros Hs HE HO. unfold create_read_work_item.
  apply wp_bind_ok, (wp_or_delete true _ i hs cs); [apply makes_work_item|done|done|].
  intros h s1 w1 Hs1. pose proof (bt_owns _ _ _ _ Hs1) as Ho1.
  assert (h ∈ device :: h :: hs) as Hin by set_solver.
  assert (h ≠ 0) as Hh0 by (apply (ow_children _ _ _ _ _ _ _ Ho1); set_solver).
  apply wp_bind, wp_object_context; [exact (owns_live _ _ _ _ _ _ _ _ Ho1 Hin)|..].
  - intros w2 _. rewrite Z.eqb_refl. eapply wp_delete_device; [exact Hs1|]. intros. by apply HE.
  - intros v w2 Hv. rewrite (proj2 (Z.eqb_neq h 0)) by done.
    apply wp_bind, (wp_set_context h v); [done|]. apply wp_bind. unfold update_shared.
    set (s2 := s1 <| contexts := _ |>).
    assert (built i (h :: hs) (h :: cs) s2) as Hs2.
    { split; [by apply owns_named|apply elem_of_cons; right; apply Hs1|apply Hs1]. }
    eapply wp_assign; [by eapply built_instance|]. apply wp_ret, HO.
    eapply built_assign; [exact Hs2|]. apply Hs1.
Qed.

(** *** The whole device *)

Record handles := {
  h_pool : Z; h_injection_lock : Z; h_capture_lock : Z; h_state_lock : Z; h_lifetime_lock : Z;
  h_direct_lock : Z; h_control_queue : Z; h_default_queue : Z; h_work_item : Z; h_read_queue : Z;
}.

Definition children (h : handles) : list Z :=
  [h_read_queue h; h_work_item h; h_default_queue h; h_control_queue h; h_direct_lock h;
   h_lifetime_lock h; h_state_lock h; h_capture_lock h; h_injection_lock h; h_pool h].

Definition queue_bytes (i : Instance) : Z := FRAME_QUEUE_LIMIT * frame_maximum (shared i).

Definition equip (h : handles) (i : Instance) : Instance :=
  i <| shared := (shared i) <| read_queue := h_read_queue h |>
         <| injection_lock := h_injection_lock h |> <| capture_lock := h_capture_lock h |>
         <| frame_pool := h_pool h |> <| state_lock := h_state_lock h |>
         <| legacy_direct_read_lock := h_direct_lock h |>
         <| write_lifetime_lock := h_lifetime_lock h |>
         <| injection_queue := Some (new_queue (queue_bytes i)) |>
         <| capture_queue := Some (new_queue (queue_bytes i)) |>
         <| read_work_item := h_work_item h |> |>.

Lemma equip_drop h i : 0 ≤ queue_bytes i < 2 ^ 64 → drop_instance (equip h i) = Some [].
Proof. intros Hn. unfold drop_instance. cbn -[FrameQueue_drop]. by rewrite new_queue_drop. Qed.

Lemma wp_create_tap_device i (Q : Z → boot → world boot_ret → Prop) s w :
  built i [] [device] s → 0 ≤ queue_bytes i < 2 ^ 64 →
  (∀ status s' w', status ≠ STATUS_SUCCESS → s' = s0 ∨ deleted device s' = Some s0 → Q status s' w') →
  (∀ h s' w', built (equip h i) (children h) [h_work_item h; device] s' → Q STATUS_SUCCESS s' w') →
  wp e (create_tap_device device state) Q s w.
Proof.
  intros Hs Hn HE HO. unfold create_tap_device. apply wp_bind.
  assert (∀ status w', status ≠ STATUS_SUCCESS →
    wp e (mret (match (Err status : result unit Z) with Ok _ => STATUS_SUCCESS | Err status => status end)) Q s0 w')
    as HE0 by (intros; apply wp_ret, HE; [done|by left]).
  unfold try_create_tap_device. apply wp_bind, (wp_deref state i); [by eapply built_instance|].
  unfold checked_mul. fold (queue_bytes i). destruct (Z.ltb_spec (queue_bytes i) (2 ^ usize_bits)); [|unfold usize_bits in *; lia].
  apply wp_bind_ok. eapply wp_create_frame_pool; [exact Hs|..].
  { intros status w1 Hst. apply wp_ret, HE; [done|]. right. by eapply built_deleted. }
  intros pool s1 w1 Hs1. apply wp_bind_ok. eapply wp_create_frame_queue; [exact Hs1|by intros; apply HE0|]. intros w2.
  apply wp_bind_ok. eapply wp_create_frame_queue; [exact Hs1|by intros; apply HE0|]. intros w3.
  apply wp_bind_ok. eapply wp_or_delete; [apply makes_spin_lock|exact Hs1|exact HE0|]. intros il s4 w4 Hs4.
  apply wp_bind_ok. eapply wp_or_delete; [apply makes_spin_lock|exact Hs4|exact HE0|]. intros cl s5 w5 Hs5.
  apply wp_bind_ok. eapply wp_or_delete; [apply makes_spin_lock|exact Hs5|exact HE0|]. intros sl s6 w6 Hs6.
  apply wp_bind_ok. eapply wp_or_delete; [apply makes_wait_lock|exact Hs6|exact HE0|]. intros wl s7 w7 Hs7.
  apply wp_bind_ok. eapply wp_or_delete; [apply makes_wait_lock|exact Hs7|exact HE0|]. intros dl s8 w8 Hs8.
  apply wp_bind_ok. eapply wp_create_control_queue; [exact Hs8|exact HE0|]. intros cq s9 w9 Hs9.
  apply wp_bind_ok. eapply wp_or_delete; [apply makes_queue|exact Hs9|exact HE0|]. intros dq s10 w10 Hs10.
  apply wp_bind_ok. eapply wp_create_read_work_item; [exact Hs10|exact HE0|]. intros wi s11 w11 Hs11.
  apply wp_bind_ok. eapply wp_or_delete; [apply makes_queue|exact Hs11|exact HE0|]. intros rq s12 w12 Hs12.
  apply wp_bind. unfold update_shared. eapply wp_assign; [by eapply built_instance|].
  apply wp_ret, wp_ret. set (h := Build_handles pool il cl sl wl dl cq dq wi rq).
  apply (HO h). eapply (built_assign _ (equip h i)); [exact Hs12|]. by apply equip_drop.
Qed.

Lemma creates_inits o with_context r m s s' :
  creates o with_context r (s <| adapter_inits := m |>) s' →
  adapter_inits s' = m ∧ creates o with_context r s (s' <| adapter_inits := adapter_inits s |>).
Proof.
  unfold creates. cbn. destruct (_ =? _).
  - intros (Hr & Hn & [->|[-> ->]]); (split; [done|]); (split; [done|]); (split; [done|]); destruct s; [by left|by right].
  - intros ->. split; [done|]. by destruct s.
Qed.

Lemma wp_create_adapter i hs cs (Q : Z → boot → world boot_ret → Prop) s w :
  built i hs cs s →
  (∀ status s' w', status ≠ STATUS_SUCCESS → deleted device s' = Some s0 → Q status s' w') →
  (∀ a s' w', built (i <| shared := (shared i) <| adapter := a |> |>) (a :: hs) (a :: cs) s' →
     Q STATUS_SUCCESS s' w') →
  wp e (create_adapter device state) Q s w.
Proof.
  intros Hs HE HO. unfold create_adapter. apply wp_bind. pose proof (built_device _ _ _ _ Hs).
  bcall_ok. intros init s1 w1 Ha. cbn in init. cbn [boot_answer] in Ha.
  destruct (Z.eqb_spec init 0) as [->|Hinit]; [|destruct Ha as [Hnone ->]].
  { subst s1. apply wp_ret, HE; [done|by eapply built_deleted]. }
  assert (is_Some (adapter_inits (s <| adapter_inits := <[init := device]> (adapter_inits s) |>) !! init)) as Hi.
  { cbn. rewrite lookup_insert_eq. by eexists. }
  apply wp_bind. bcall_ok. intros [] s2 w2 ->. apply wp_bind. bcall_ok. intros [status a] s3 w3 Hc.
  cbn [boot_answer] in Hc. cbn [adapter_inits set_to] in Hc. rewrite lookup_insert_eq in Hc. cbn [default] in Hc.
  apply creates_inits in Hc as [Hm Hc]. apply wp_bind.
  assert (is_Some (adapter_inits s3 !! init)) as Hi3 by (rewrite Hm, lookup_insert_eq; by eexists).
  bcall_ok. intros [] s4 w4 ->. rewrite Hm, delete_insert_id by done.
  pose proof (creates_built _ _ _ _ _ _ _ Hs Hc) as Hs4. cbn [fst snd] in Hs4.
  set (s4 := s3 <| adapter_inits := adapter_inits s |>) in *.
  destruct (Z.eqb_spec status STATUS_SUCCESS); cbn [negb].
  2: { rewrite Hs4. apply wp_ret, HE; [done|by eapply built_deleted]. }
  unfold update_shared. apply wp_bind. eapply wp_assign; [by eapply built_instance|].
  match goal with |- wp _ _ _ ?s _ => set (s5 := s) end.
  assert (built (i <| shared := (shared i) <| adapter := a |> |>) (a :: hs) cs s5) as Hs5.
  { eapply built_assign; [exact Hs4|]. apply Hs4. }
  pose proof (bt_owns _ _ _ _ Hs5) as Ho5. assert (a ∈ device :: a :: hs) as Hin by set_solver.
  apply wp_bind, wp_object_context; [exact (owns_live _ _ _ _ _ _ _ _ Ho5 Hin)|..].
  - intros w5 _. rewrite Z.eqb_refl. apply wp_ret, HE; [done|by eapply built_deleted].
  - intros v w5 Hv. rewrite (proj2 (Z.eqb_neq a 0)) by (apply (ow_children _ _ _ _ _ _ _ Ho5); set_solver).
    apply wp_bind, (wp_set_context a v); [done|]. apply wp_ret, (HO a).
    split; [by apply owns_named|apply elem_of_cons; right; apply Hs5|apply Hs5].
Qed.

End device.
End rules.
