(* ===== verification/BringUpFailures.v ===== *)
(** * The packet driver's bring-up: what makes it fail

    A device is added unless a call of the framework or an allocation fails:
    a Hoare triple that holds up to a failed call, its rules, and the triple of
    each step of [BringUp]. *)

From S2P Require Import Prelude Words DriverConstants HardwareId Effects Ring FrameQueue Datapath Lifecycle BringUp.

(** An answer that is a failure: a status other than success, a null pointer, an
    allocation that did not succeed. *)
Definition fails (c : boot_call) : boot_ret c → bool :=
  match c with
  | WdfDriverCreate _ | NetDeviceInitConfig _ | WdfDeviceCreateDeviceInterface _ _
  | WdfDeviceConfigureRequestDispatching _ _ => λ status, negb (status =? STATUS_SUCCESS)
  | WdfDeviceCreate _ _ | WdfLookasideListCreate _ _ _ | WdfSpinLockCreate _ | WdfWaitLockCreate _
  | WdfIoQueueCreate _ _ | WdfWorkItemCreate _ _ | NetAdapterCreate _ => λ r, negb (r.1 =? STATUS_SUCCESS)
  | WdfObjectGetTypedContextWorker _ _ | AllocateInstanceState | NetAdapterInitAllocate _ => λ p, p =? 0
  | AllocateFrames _ => negb
  | _ => λ _, false
  end.

(** A call of the run from [w] to [w'] failed. *)
Definition call_failed (w w' : world boot_ret) : Prop :=
  ∃ l, w' = l ++ w ∧ ∃ c r, existT c r ∈ l ∧ fails c r = true.

Section blames.
Context (e : env boot boot_ret) (w0 : world boot_ret).

(** [P] holds, unless a call since [w0] has failed. *)
Definition holds (P : boot → Prop) (s : boot) (w : world boot_ret) : Prop :=
  call_failed w0 w ∨ (∃ l, w = l ++ w0) ∧ P s.

Definition blames {A} (P : boot → Prop) (m : B A) (Q : A → boot → Prop) : Prop :=
  ∀ s w a s' w', holds P s w → m e s w = Some (a, s', w') → holds (Q a) s' w'.

Lemma holds_mono (P Q : boot → Prop) s s' w : (P s → Q s') → holds P s w → holds Q s' w.
Proof. intros H [Hf|[Hl Hp]]; [by left|right; auto]. Qed.

Lemma blames_ret {A} (P : boot → Prop) (a : A) (Q : A → boot → Prop) :
  (∀ s, P s → Q a s) → blames P (mret a) Q.
Proof. intros H s w a' s' w' Hp [= <- <- <-]. eapply holds_mono; [|exact Hp]. apply H. Qed.

Lemma blames_bind {A C} (P : boot → Prop) (m : B A) (R : A → boot → Prop) (f : A → B C) Q :
  blames P m R → (∀ a, blames (R a) (f a) Q) → blames P (m ≫= f) Q.
Proof.
  intros Hm Hf s w c s' w' Hp Hr. unfold mbind, M_bind in Hr.
  destruct (m e s w) as [[[a s1] w1]|] eqn:E; [|done]. eapply Hf; [|exact Hr]. by eapply Hm.
Qed.

Lemma blames_bind_ok {A C} (P : boot → Prop) (m : B (result A Z)) (R : A → boot → Prop) (f : A → B (result C Z)) Q :
  blames P m (λ r s, ∃ a, r = Ok a ∧ R a s) → (∀ a, blames (R a) (f a) (λ r s, ∃ c, r = Ok c ∧ Q c s)) →
  blames P (bind_ok f m) (λ r s, ∃ c, r = Ok c ∧ Q c s).
Proof.
  intros Hm Hf. eapply blames_bind; [exact Hm|]. intros [a|x].
  - intros s w c s' w' Hp. apply Hf. eapply holds_mono; [|exact Hp]. by intros (a' & [= <-] & ?).
  - apply blames_ret. by intros s (a & ? & _).
Qed.

Lemma blames_if {A} (b : bool) (P : boot → Prop) (m1 m2 : B A) Q :
  (b = true → blames P m1 Q) → (b = false → blames P m2 Q) → blames P (if b then m1 else m2) Q.
Proof. destruct b; auto. Qed.

Lemma blames_get {A} (P : boot → Prop) (f : boot → B A) Q :
  (∀ s0, blames (λ s, s = s0 ∧ P s) (f s0) Q) → blames P (s ← get; f s) Q.
Proof.
  intros Hf s w a s' w' Hp Hr. eapply (Hf s); [|exact Hr]. eapply holds_mono; [|exact Hp]. done.
Qed.

Lemma blames_put (P : boot → Prop) s1 (Q : unit → boot → Prop) :
  (∀ s, P s → Q tt s1) → blames P (put s1) Q.
Proof. intros H s w a s' w' Hp [= <- <- <-]. eapply holds_mono; [|exact Hp]. apply H. Qed.

Lemma blames_option {A} (o : option A) (P : boot → Prop) (Q : A → boot → Prop) :
  (∀ a s, o = Some a → P s → Q a s) → blames P (from_option o) Q.
Proof. intros H. destruct o; [apply blames_ret; eauto|done]. Qed.

Lemma blames_call c (φ : Prop) (ψ : boot_ret c → Prop) (P : boot → Prop) :
  (∀ s, P s → φ) → (∀ w s, φ → fails c (e w c s).1 = false → ψ (e w c s).1) →
  blames P (bcall c) (λ r _, ψ r).
Proof.
  intros HP Hψ s w r s' w' Hp Hr. unfold bcall, mbind, M_bind, get in Hr. case_decide; [|done].
  injection Hr as <- <- <-. assert (∀ l, w = l ++ w0 → existT c (e w c s).1 :: w = (existT c (e w c s).1 :: l) ++ w0) as Hw
    by (by intros l ->).
  destruct Hp as [(l & Hl & c' & r' & Hin & Hf)|[[l Hl] Hp]].
  - left. exists (existT c (e w c s).1 :: l). split; [auto|]. exists c', r'. split; [by right|done].
  - destruct (fails c (e w c s).1) eqn:Hf.
    + left. eexists. split; [by apply Hw|]. exists c, (e w c s).1. split; [by left|done].
    + right. split; [eexists; by apply Hw|eauto].
Qed.

Lemma blames_pre {A} (P P' : boot → Prop) (m : B A) Q :
  blames P' m Q → (∀ s, P s → P' s) → blames P m Q.
Proof. intros Hm HP s w a s' w' Hp. apply Hm. eapply holds_mono; [|exact Hp]. apply HP. Qed.

Lemma blames_post {A} (P : boot → Prop) (m : B A) (Q Q' : A → boot → Prop) :
  blames P m Q → (∀ a s, Q a s → Q' a s) → blames P m Q'.
Proof. intros Hm HQ s w a s' w' Hp Hr. eapply holds_mono; [apply HQ|]. by eapply Hm. Qed.

(** A call whose answers matter only by their failing. *)
Lemma blames_call_ok c (P : boot → Prop) : blames P (bcall c) (λ r _, fails c r = false).
Proof. by eapply (blames_call c True). Qed.

(** A call that keeps a fact that does not depend on the memory. *)
Lemma blames_call_keep c (φ : Prop) : blames (λ _, φ) (bcall c) (λ _ _, φ).
Proof. by eapply (blames_call c φ (λ _, φ)). Qed.

Ltac call_ok :=
  lazymatch goal with |- blames ?P (bcall ?c) _ => exact (blames_call_ok c P) end.
Ltac call_keep φ :=
  lazymatch goal with |- blames _ (bcall ?c) _ => exact (blames_call_keep c φ) end.

(** ** The steps of device add

    Each ends well, up to a failed call; a deletion never comes up. *)

Lemma blames_delete_device {A} device status Q : blames (λ _, False) (delete_device (A := A) device status) Q.
Proof. unfold delete_device. eapply blames_bind; [call_keep False|]. intros []. by apply blames_ret. Qed.

Lemma blames_delete_and_return device status Q : blames (λ _, False) (delete_and_return device status) Q.
Proof. unfold delete_and_return. eapply blames_bind; [call_keep False|]. intros []. by apply blames_ret. Qed.

(** The branch of a failed answer, which is out of reach. *)
Lemma blames_if_not {A} (b : bool) (P P' : boot → Prop) (m1 m2 : B A) Q :
  blames (λ _, False) m1 Q → (b = false → blames P' m2 Q) → (∀ s, P s → b = false ∧ P' s) →
  blames P (if b then m1 else m2) Q.
Proof.
  intros H1 H2 HP. apply blames_if; intros Hb.
  - eapply blames_pre; [exact H1|]. intros s Hs. by destruct (HP _ Hs) as [? _]; congruence.
  - eapply blames_pre; [by apply H2|]. intros s Hs. by apply HP.
Qed.

Definition well {A} (r : result A Z) (_ : boot) : Prop := ∃ a, r = Ok a ∧ True.

Lemma blames_or_delete device m (P : boot → Prop) :
  blames P m (λ r _, negb (r.1 =? STATUS_SUCCESS) = false) → blames P (or_delete device m) well.
Proof.
  intros Hm. unfold or_delete. eapply blames_bind; [exact Hm|]. intros [status h]. cbn [fst].
  apply (blames_if_not _ _ (λ _, True)); [apply blames_delete_device| |done].
  intros _. apply blames_ret. intros s _. by exists h.
Qed.

Lemma blames_frame_pool device P : blames P (create_frame_pool device) well.
Proof.
  unfold create_frame_pool. eapply blames_bind; [call_ok|]. intros [status pool].
  apply blames_ret. intros s Hs. cbn [fails fst] in Hs. rewrite Hs. by exists pool.
Qed.

Lemma blames_frame_queue device n P : blames P (create_frame_queue device n) well.
Proof.
  unfold create_frame_queue. eapply blames_bind; [call_ok|]. intros available. cbn in available.
  unfold FrameQueue_try_new. change (FRAME_QUEUE_LIMIT * 16 <? 2 ^ 63) with true.
  destruct available; cbn [andb]; [apply blames_ret; intros; by eexists|].
  eapply blames_pre; [apply blames_delete_device|]. done.
Qed.

Lemma blames_control_queue device P : blames P (create_control_queue device) well.
Proof.
  unfold create_control_queue. apply (blames_bind_ok _ _ (λ _ _, True)).
  { apply blames_or_delete; call_ok. }
  intros queue. eapply blames_bind; [call_ok|]. intros status.
  apply (blames_if_not _ _ (λ _, True)); [apply blames_delete_device| |done].
  intros _. apply blames_ret. intros s _. by exists tt.
Qed.

Lemma blames_set_context (P Q : boot → Prop) context state :
  (∀ s c, P s → Q (s <| contexts := c |>)) → blames P (set_context_instance context state) (λ _, Q).
Proof.
  intros HPQ. unfold set_context_instance, context_instance.
  eapply (blames_bind _ _ (λ _, P)); [apply blames_get; intros s0; apply blames_option; by intros a s _ [_ ?]|].
  intros _. apply blames_get. intros s0. apply blames_put. intros s [-> ?]. by apply HPQ.
Qed.

Lemma blames_assign (P Q : boot → Prop) state f :
  (∀ s i, P s → instances s !! state = Some i → Q (s <| instances := <[state := f i]> (instances s) |>)) →
  blames P (assign state f) (λ _, Q).
Proof.
  intros HPQ. unfold assign, deref.
  eapply (blames_bind _ _ (λ i s, P s ∧ instances s !! state = Some i)).
  { apply blames_get. intros s0. apply blames_option. by intros i s Hi [-> ?]. }
  intros i. apply blames_get. intros s0. apply blames_put. intros s (-> & ? & ?). by apply HPQ.
Qed.

Lemma blames_work_item device state P : blames P (create_read_work_item device state) well.
Proof.
  unfold create_read_work_item. apply (blames_bind_ok _ _ (λ _ _, True)).
  { apply blames_or_delete; call_ok. }
  intros item. unfold object_context. eapply blames_bind; [call_ok|]. intros context.
  apply (blames_if_not _ _ (λ _, True)); [apply blames_delete_device| |done]. intros _.
  eapply blames_bind; [by apply (blames_set_context _ (λ _, True))|]. intros []. unfold update_shared.
  eapply blames_bind; [by apply (blames_assign _ (λ _, True))|]. intros []. apply blames_ret. by exists item.
Qed.

(** The instance is in memory, and the bytes of its queues fit a word. *)
Definition sized (state : Z) (s : boot) : Prop :=
  ∃ i, instances s !! state = Some i ∧ FRAME_QUEUE_LIMIT * frame_maximum (shared i) < 2 ^ usize_bits.

Lemma blames_create_tap_device device state :
  blames (sized state) (create_tap_device device state) (λ status _, status = STATUS_SUCCESS).
Proof.
  unfold create_tap_device. eapply (blames_bind _ _ well); [|intros r; apply blames_ret; by intros s (a & -> & _)].
  unfold try_create_tap_device. eapply (blames_bind _ _ (λ i _, FRAME_QUEUE_LIMIT * frame_maximum (shared i) < 2 ^ usize_bits)).
  { unfold deref. apply blames_get. intros s0. apply blames_option. intros i s Hi [-> (i' & Hi' & Hs)]. congruence. }
  intros i. unfold checked_mul. destruct (Z.ltb_spec (FRAME_QUEUE_LIMIT * frame_maximum (shared i)) (2 ^ usize_bits)).
  2: { eapply blames_pre; [apply blames_delete_device|]. cbn. lia. }
  do 12 (eapply blames_bind_ok;
    [first [apply blames_frame_pool|apply blames_frame_queue|apply blames_control_queue|apply blames_work_item
           |apply blames_or_delete; call_ok]|]; intros ?).
  eapply blames_bind; [by apply (blames_assign _ (λ _, True))|]. intros []. apply blames_ret. by exists tt.
Qed.

Lemma blames_create_adapter device state P :
  blames P (create_adapter device state) (λ status _, status = STATUS_SUCCESS).
Proof.
  unfold create_adapter. eapply blames_bind; [call_ok|]. intros init.
  apply (blames_if_not _ _ (λ _, True)); [by apply blames_ret| |done]. intros _.
  eapply blames_bind; [call_keep True|]. intros [].
  eapply blames_bind; [call_ok|]. intros [status adapter]. cbn [fails fst].
  eapply blames_bind; [call_keep (negb (status =? STATUS_SUCCESS) = false)|]. intros [].
  apply (blames_if_not _ _ (λ _, True)); [by apply blames_ret| |done]. intros _.
  eapply blames_bind; [by apply (blames_assign _ (λ _, True))|]. intros []. unfold object_context.
  eapply blames_bind; [call_ok|]. intros context.
  apply (blames_if_not _ _ (λ _, True)); [by apply blames_ret| |done]. intros _.
  eapply blames_bind; [by apply (blames_set_context _ (λ _, True))|]. intros []. by apply blames_ret.
Qed.

(** ** Device add *)

(** The identifiers of a child are read back, and its MTU is within bounds. *)
Context (ids : Z * list Z * Z) (guid : GUID) (mtu : Z).
Context (Hids : ∀ w device s, (e w (WdfDeviceQueryProperty device 256) s).1 = ids).
Context (Hread : Parser.child_properties_from_hardware_id (λ _, ids) = Some (Ok (guid, mtu))).
Context (Hmtu : 0 ≤ mtu ≤ Parser.MAXIMUM_MTU).

Lemma new_sized i : InstanceState_new guid mtu = Some i → frame_maximum (shared i) = mtu + 14.
Proof.
  unfold InstanceState_new, checked_add, FRAME_MINIMUM. destruct (_ <? _); [|done].
  cbn [mbind option_bind]. by destruct (Parser.mac_address_from_guid guid) as [mac|]; [intros [= <-]|].
Qed.

Lemma blames_device_add init P : blames P (evt_driver_device_add init) (λ status _, status = STATUS_SUCCESS).
Proof.
  unfold evt_driver_device_add. eapply blames_bind; [call_ok|]. intros status.
  apply (blames_if_not _ _ (λ _, True)); [by apply blames_ret| |done]. intros _.
  eapply blames_bind; [call_keep True|]. intros [].
  eapply blames_bind; [call_keep True|]. intros [].
  eapply blames_bind; [call_ok|]. intros [status1 device]. cbn [fails fst].
  apply (blames_if_not _ _ (λ _, True)); [by apply blames_ret| |done]. intros _.
  eapply blames_bind; [call_ok|]. intros status2.
  apply (blames_if_not _ _ (λ _, True)); [apply blames_delete_and_return| |done]. intros _.
  unfold object_context. eapply blames_bind; [call_ok|]. intros context.
  apply (blames_if_not _ _ (λ _, True)); [apply blames_delete_and_return| |done]. intros _.
  eapply (blames_bind _ _ (λ r _, r = Ok (guid, mtu))).
  { unfold child_properties. eapply blames_bind.
    { refine (blames_call (WdfDeviceQueryProperty device 256) True (λ r : Z * list Z * Z, r = ids) _ _ _); [done|]. intros w s _ _. apply Hids. }
    intros answer. apply blames_option. intros r s Hr ->. congruence. }
  intros [[g m]|status3].
  2: { eapply blames_pre; [apply blames_delete_and_return|]. done. }
  eapply (blames_bind _ _ (λ state s, (state =? 0) = false ∧ sized state s)).
  { unfold allocate_instance_state. eapply (blames_bind _ _ (λ state _, (state =? 0) = false ∧ (g, m) = (guid, mtu))).
    { apply (blames_call AllocateInstanceState ((g, m) = (guid, mtu))
        (λ state : Z, (state =? 0) = false ∧ (g, m) = (guid, mtu))); [by intros _ [= -> ->]|]. by intros w s ? Hf. }
    intros state. apply (blames_if_not _ _ (λ _, (state =? 0) = false ∧ (g, m) = (guid, mtu))).
    { by apply blames_ret. } 2: { by intros s [? ?]. }
    intros Hs. eapply (blames_bind _ _ (λ i _, frame_maximum (shared i) = mtu + 14)).
    { apply blames_option. intros i s Hi [_ [= -> ->]]. by apply new_sized. }
    intros i. apply blames_get. intros s0. eapply (blames_bind _ _ (λ _, sized state)).
    { apply blames_put. intros s [_ Hi]. exists i. split; [apply lookup_insert_eq|]. rewrite Hi.
      unfold Parser.MAXIMUM_MTU, FRAME_QUEUE_LIMIT, usize_bits in *. lia. }
    intros []. apply blames_ret. auto. }
  intros state. apply (blames_if_not _ _ (sized state)); [apply blames_delete_and_return| |by intros s [? ?]]. intros _.
  eapply blames_bind; [by apply (blames_set_context _ (sized state))|]. intros [].
  eapply blames_bind.
  { apply (blames_assign _ (sized state)). intros s i (i' & Hi' & Hb) Hi. eexists. split; [apply lookup_insert_eq|].
    cbn. congruence. }
  intros []. eapply blames_bind; [apply blames_create_tap_device|]. intros status4.
  apply (blames_if_not _ _ (λ _, True)); [by apply blames_ret| |by intros s ->].
  intros _. apply blames_create_adapter.
Qed.
End blames.

(** A child is added unless a call fails. *)
Lemma device_add_succeeds (e : env boot boot_ret) (ids : Z * list Z * Z) guid mtu init s w status s' w' :
  (∀ w device s, (e w (WdfDeviceQueryProperty device 256) s).1 = ids) →
  Parser.child_properties_from_hardware_id (λ _, ids) = Some (Ok (guid, mtu)) →
  0 ≤ mtu ≤ Parser.MAXIMUM_MTU →
  evt_driver_device_add init e s w = Some (status, s', w') → status = STATUS_SUCCESS ∨ call_failed w w'.
Proof.
  intros Hids Hread Hmtu Hrun.
  destruct (blames_device_add e w ids guid mtu Hids Hread Hmtu init (λ _, True) s w status s' w') as [?|[_ ?]];
    [right; split; [by exists []|done]|done|by right|by left].
Qed.
