(* ===== verification/BringUpTheorems.v ===== *)
(** * The packet driver's bring-up: theorems

    Device add is all or nothing, and what it hands over is where the other
    components start: the data path and its life cycle, the leases, the adaptive
    wait.  The device's clean-up frees the instance once. *)

From S2P Require Import Prelude Words DriverConstants HardwareId Effects Conc Lease WaitRecord WaitProtocol Ring FrameQueue Datapath DatapathPaths DatapathSpec DatapathRequests Lifecycle LifecycleSpec LifecycleHandlers LifecyclePower DatapathTheorems LifecycleTheorems BringUp BringUpSpec BringUpFailures.

(** ** A new instance *)

(** The locks, queues and objects an instance refers to. *)
Definition instance_handles (i : InstanceState) : list Z :=
  [Datapath.adapter i; Datapath.read_queue i; Datapath.read_work_item i; Datapath.legacy_direct_read_lock i;
   Datapath.write_lifetime_lock i; Datapath.state_lock i; Datapath.capture_lock i; Datapath.injection_lock i;
   Datapath.frame_pool i].

(** The instance of [device], complete and unused. *)
Record complete (guid : GUID) (mtu device : Z) (i : Instance) : Prop := {
  co_device : pnp_device i = device;
  co_guid : instance_guid i = guid;
  co_mtu : Datapath.mtu (shared i) = mtu;
  co_maximum : frame_maximum (shared i) = mtu + 14;
  co_mac : Parser.mac_address_from_guid guid = Some (Datapath.mac_address (shared i));
  co_handles : NoDup (0 :: instance_handles (shared i));
  co_ready (d : dev) : st d = shared i → held d = ∅ → guards d = ∅ → log d = [] →
    at_rest d ∧ realises Unprepared (view_of {[DATAPATH_CLOSED_HARDWARE]} d);
  co_leases : {| Lease.rx_callback_leases := rx_callback_leases i;
                 Lease.tx_callback_leases := tx_callback_leases i |} = initial_leases;
  co_wait f : (wait_state i, wait_request i, wait_cancel_handoff i, wait_interest i,
               wait_registration_capture_generation i, wait_registration_injection_generation i) =
    let m := initial_wait_memory f in
    (WaitProtocol.wait_state m, WaitProtocol.wait_request m, WaitProtocol.wait_cancel_handoff m,
     WaitProtocol.wait_interest m, WaitProtocol.wait_registration_capture_generation m,
     WaitProtocol.wait_registration_injection_generation m);
}.

Lemma new_instance guid mtu :
  len (Data4 guid) = 8 → 0 ≤ mtu ≤ 65521 →
  ∃ mac, Parser.mac_address_from_guid guid = Some mac ∧ len mac = 6 ∧
    InstanceState_new guid mtu = Some {| shared := new_shared mtu (mtu + 14) mac;
      instance_guid := guid; pnp_device := 0;
      rx_callback_leases := DATAPATH_CLOSED_HARDWARE;
      tx_callback_leases := DATAPATH_CLOSED_HARDWARE;
      wait_state := wait_record_word 0 0 WAIT_FREE; wait_request := 0;
      wait_cancel_handoff := WAIT_HANDOFF_NONE; wait_interest := 0;
      wait_registration_capture_generation := 0; wait_registration_injection_generation := 0 |}.
Proof.
  intros Hg Hm. destruct (mac_address_total guid Hg) as (mac & Hmac & Hl). exists mac.
  split; [done|]. split; [done|]. unfold InstanceState_new, checked_add, FRAME_MINIMUM.
  destruct (Z.ltb_spec (mtu + 14) (2 ^ usize_bits)); [|unfold usize_bits in *; lia]. cbn [mbind option_bind].
  by rewrite Hmac.
Qed.

(** What bring-up makes of it. *)
Definition finished (h : handles) (device a : Z) (i : Instance) : Instance :=
  let j := equip h (i <| pnp_device := device |>) in
  j <| shared := (shared j) <| Datapath.adapter := a |> |>.

Lemma finished_complete guid mtu mac h device a i :
  InstanceState_new guid mtu = Some i → Parser.mac_address_from_guid guid = Some mac → len mac = 6 →
  0 ≤ mtu ≤ 65521 → NoDup (a :: children h) → (∀ x, x ∈ a :: children h → x ≠ 0) →
  complete guid mtu device (finished h device a i).
Proof.
  intros Hi Hmac Hl Hm Hnd Hnz.
  unfold InstanceState_new, checked_add, FRAME_MINIMUM in Hi.
  destruct (Z.ltb_spec (mtu + 14) (2 ^ usize_bits)); [|unfold usize_bits in *; lia]. cbn [mbind option_bind] in Hi.
  rewrite Hmac in Hi. injection Hi as <-. unfold finished. destruct h as [pool il cl sl wl dl cq dq wi rq].
  unfold children in Hnd, Hnz. cbn [h_read_queue h_work_item h_default_queue h_control_queue h_direct_lock
    h_lifetime_lock h_state_lock h_capture_lock h_injection_lock h_pool] in Hnd, Hnz.
  assert (∀ x, x ∈ [a; rq; wi; dq; cq; dl; wl; sl; cl; il; pool] → (x =? 0) = false) as Hz.
  { intros x Hx. apply Z.eqb_neq, Hnz, Hx. }
  set (n := 256 * (mtu + 14)). assert (0 ≤ n < 2 ^ 64) as Hn by lia.
  split; try reflexivity; cbn; try done.
  - unfold instance_handles. cbn. apply (sublist_NoDup _ (0 :: [a; rq; wi; dq; cq; dl; wl; sl; cl; il; pool])).
    + apply NoDup_cons. split; [|done]. intros Hin. by apply (Hnz 0).
    + repeat first [apply sublist_nil | apply sublist_skip | apply sublist_cons].
  - intros d Hst Hheld Hguards Hlog.
    assert (inst_ok (st d)) as Hok.
    { rewrite Hst. split; cbn; try done.
      - intros [] q [= <-]; eexists; by apply new_queue_repr.
      - split; cbn; [unfold len; rewrite length_replicate; cbn; lia|done|by repeat constructor|done]. }
    split.
    + split; [by split|]. split; [done|]. unfold locks_distinct. rewrite Hst. cbn. intros ->.
      do 5 apply NoDup_cons in Hnd as [_ Hnd]. apply NoDup_cons in Hnd as [Hnd _]. set_solver.
    + split; unfold view_of; rewrite ?Hst, ?Hlog; cbn.
      * unfold equipped. cbn. by rewrite !Hz by set_solver.
      * done.
      * split; [|done]. intros ->. by destruct (Hnz 0 ltac:(set_solver)).
      * done.
      * done.
Qed.

(** ** Device add *)

Definition finds (e : env boot boot_ret) (m : B (option Z)) (state : Z) (s : boot) : Prop :=
  ∀ w, wp e m (λ r s' _, r = Some state ∧ s' = s) s w.

(** Every callback finds the instance from the object it is called with. *)
Definition found_everywhere (e : env boot boot_ret) (device state : Z) (i : Instance) (s : boot) : Prop :=
  finds e (instance_from_device device) state s ∧
  finds e (instance_from_pnp_device device) state s ∧
  finds e (instance_from_adapter (Datapath.adapter (shared i))) state s ∧
  finds e (instance_from_work_item (Datapath.read_work_item (shared i))) state s ∧
  finds e (instance_from_io_queue (Datapath.read_queue (shared i))) state s.

Section device_add.
Context (e : env boot boot_ret) (Henv : respects boot_contract e).

Lemma finds_context o type state s :
  is_Some (objects s !! o) → contexts s !! o = Some state → o ≠ 0 → state ≠ 0 →
  finds e (instance_in_context o type) state s.
Proof.
  intros Ho Hc Ho0 Hs0 w. unfold instance_in_context. apply wp_bind, (wp_object_context e Henv); [done|by rewrite Hc|].
  intros v w' _. rewrite (proj2 (Z.eqb_neq o 0)) by done. unfold context_instance.
  apply wp_bind, wp_bind, wp_get. rewrite Hc. apply wp_ret, wp_ret. by rewrite (proj2 (Z.eqb_neq state 0)).
Qed.

Lemma finds_queue queue device state s :
  objects s !! queue = Some (child device) → finds e (instance_from_device device) state s →
  finds e (instance_from_io_queue queue) state s.
Proof.
  intros Hq Hf w. unfold instance_from_io_queue. apply wp_bind.
  refine (wp_bcall e Henv (WdfIoQueueGetDevice queue) _ s w _ _ _); [repeat constructor; by rewrite Hq|constructor|].
  intros r s' w' [-> Hr]. rewrite (Hr _ Hq). apply Hf.
Qed.

Lemma built_found s0 device state i h a s :
  state ≠ 0 → built s0 device state i (a :: children h) [a; h_work_item h; device] s →
  Datapath.adapter (shared i) = a → Datapath.read_work_item (shared i) = h_work_item h →
  Datapath.read_queue (shared i) = h_read_queue h → found_everywhere e device state i s.
Proof.
  intros Hstate [Hs _ _] Ea Ew Er. unfold found_everywhere. rewrite Ea, Ew, Er.
  assert (∀ o, o ∈ [a; h_work_item h; device] → ∀ type, finds e (instance_in_context o type) state s) as Hf.
  { intros o Ho type. destruct (ow_named _ _ _ _ _ _ _ Hs o Ho) as [Hin Hc].
    apply finds_context; [by eapply owns_live|done| |done].
    apply elem_of_cons in Hin as [->|Hin]; [apply (ow_device _ _ _ _ _ _ _ Hs)|by apply (ow_children _ _ _ _ _ _ _ Hs)]. }
  split_and!; try (apply Hf; set_solver).
  apply (finds_queue _ device); [|apply Hf; set_solver].
  apply (ow_children _ _ _ _ _ _ _ Hs). set_solver.
Qed.

(** The outcome of device add, [ids] being the device's hardware identifiers. *)
Definition added (s0 : boot) (ids : Z * list Z * Z) (status : Z) (s : boot) : Prop :=
  (status ≠ STATUS_SUCCESS → s = s0 ∨ ∃ device, deleted device s = Some s0) ∧
  (status = STATUS_SUCCESS → ∃ guid mtu device state i,
     Parser.child_properties_from_hardware_id (λ _, ids) = Some (Ok (guid, mtu)) ∧
     complete guid mtu device i ∧ instances s = <[state := i]> (instances s0) ∧
     found_everywhere e device state i s ∧ deleted device s = Some s0).

Lemma wp_device_add_instance s0 ids guid mtu device (Q : Z → boot → world boot_ret → Prop) s w :
  tidy s0 → Parser.child_properties_from_hardware_id (λ _, ids) = Some (Ok (guid, mtu)) →
  len (Data4 guid) = 8 → 1500 ≤ mtu ≤ 65521 →
  owns s0 device 0 (instances s0) [] [] s → contexts s !! device = Some 0 →
  (∀ status s' w', added s0 ids status s' → Q status s' w') →
  wp e (state ← allocate_instance_state guid mtu;
        if state =? 0 then delete_and_return device STATUS_INSUFFICIENT_RESOURCES
        else
          _ ← set_context_instance device state;
          _ ← assign state (λ i, i <| pnp_device := device |>);
          status ← create_tap_device device state;
          if negb (status =? STATUS_SUCCESS) then mret status else create_adapter device state) Q s w.
Proof.
  intros Hs0 Hids Hg Hm Hs Hctx HQ. pose proof (ow_device _ _ _ _ _ _ _ Hs) as (Hd0 & Hd & _).
  unfold allocate_instance_state. apply wp_bind, wp_bind.
  refine (wp_bcall e Henv AllocateInstanceState _ s w _ _ _); [constructor..|].
  intros state s1 w1 [-> Hfree]. cbn in state. destruct (Z.eqb_spec state 0) as [->|Hstate].
  { apply wp_ret. cbn [Z.eqb]. unfold delete_and_return. apply wp_bind.
    refine (wp_bcall e Henv (WdfObjectDelete device) _ s w1 _ _ _); [by repeat constructor|constructor|].
    intros [] s2 w2 Ha. cbn [boot_answer] in Ha.
    rewrite (deleted_owns_bare s0 Hs0 device 0 [] s Hs (or_intror Hctx)) in Ha. subst s2.
    apply wp_ret, HQ. split; [by left|done]. }
  destruct Hfree as [|Hfree]; [done|].
  rewrite (ow_instances _ _ _ _ _ _ _ Hs) in Hfree.
  destruct (new_instance guid mtu Hg ltac:(lia)) as (mac & Hmac & Hl & Hnew). rewrite Hnew. set (i := Build_Instance _ _ _ _ _ _ _ _ _ _ _) in *.
  apply wp_bind, wp_ret, wp_bind, wp_get, wp_bind, wp_put, wp_ret. rewrite (proj2 (Z.eqb_neq state 0)) by done.
  set (s2 := s <| instances := _ |>). apply wp_bind, (wp_set_context e device 0); [done|].
  set (s3 := s2 <| contexts := _ |>).
  assert (built s0 device state i [] [device] s3) as Hs3.
  { split; [|set_solver|done]. unfold s3. apply (owns_named s0 Hs0); [|apply elem_of_cons; by left]. unfold s2.
    rewrite (ow_instances _ _ _ _ _ _ _ Hs). eapply owns_boxes, owns_state; done. }
  apply wp_bind. eapply wp_assign; [by eapply built_instance|].
  set (s4 := s3 <| instances := _ |>).
  assert (built s0 device state (i <| pnp_device := device |>) [] [device] s4) as Hs4 by (by eapply built_assign).
  assert (0 ≤ queue_bytes (i <| pnp_device := device |>) < 2 ^ 64) as Hn.
  { unfold queue_bytes, FRAME_QUEUE_LIMIT. cbn. lia. }
  apply wp_bind. eapply (wp_create_tap_device e Henv s0 Hs0 device state Hstate Hfree); [exact Hs4|exact Hn|..].
  - intros status s5 w5 Hst Hgone. rewrite (proj2 (Z.eqb_neq status _)) by done. apply wp_ret, HQ.
    split; [|done]. intros _. destruct Hgone; [by left|right; by exists device].
  - intros h s5 w5 Hs5. cbn [Z.eqb negb STATUS_SUCCESS].
    eapply (wp_create_adapter e Henv s0 Hs0 device state Hstate Hfree); [exact Hs5|..].
    + intros status s6 w6 Hst Hgone. apply HQ. split; [|done]. intros _. right. by exists device.
    + intros a s6 w6 Hs6. apply HQ. split; [done|]. intros _. change (_ <| shared := _ |>) with (finished h device a i) in Hs6.
      pose proof (bt_owns _ _ _ _ _ _ _ Hs6) as Ho6.
      exists guid, mtu, device, state, (finished h device a i). split; [done|]. split.
      { eapply finished_complete; [exact Hnew|exact Hmac|done|lia| |].
        - pose proof (ow_distinct _ _ _ _ _ _ _ Ho6) as Hnd. by apply NoDup_cons in Hnd as [_ Hnd].
        - intros x Hx. by apply (ow_children _ _ _ _ _ _ _ Ho6). }
      split; [apply (ow_instances _ _ _ _ _ _ _ Ho6)|]. split; [by eapply built_found|].
      eapply built_deleted; [done|done|done|exact Hs6].
Qed.

Lemma wp_device_add ids init (Q : Z → boot → world boot_ret → Prop) s0 w :
  tidy s0 → (∀ w device s, (e w (WdfDeviceQueryProperty device 256) s).1 = ids) →
  (∀ status s' w', added s0 ids status s' → Q status s' w') →
  wp e (evt_driver_device_add init) Q s0 w.
Proof.
  intros Hs0 Hids HQ. unfold evt_driver_device_add.
  assert (∀ status w', status ≠ STATUS_SUCCESS → wp e (mret status) Q s0 w') as Hfail.
  { intros status w' Hst. apply wp_ret, HQ. split; [by left|done]. }
  apply wp_bind. refine (wp_bcall e Henv (NetDeviceInitConfig init) _ s0 w _ _ _); [constructor..|].
  intros st1 s1 w1 ->. cbn in st1. destruct (Z.eqb_spec st1 STATUS_SUCCESS); cbn [negb]; [|by apply Hfail].
  apply wp_bind. refine (wp_bcall e Henv (WdfDeviceInitSetPnpPowerEventCallbacks init _) _ s0 w1 _ _ _); [constructor..|].
  intros [] s2 w2 ->. apply wp_bind.
  refine (wp_bcall e Henv (WdfDeviceInitSetFileObjectConfig init _) _ s0 w2 _ _ _); [constructor..|].
  intros [] s3 w3 ->. apply wp_bind.
  refine (wp_bcall e Henv (WdfDeviceCreate init _) _ s0 w3 _ _ _); [constructor..|].
  intros [status device] s w4 Hc. destruct (created_device s0 Hs0 status device s Hc) as [[Hst ->]|(-> & Hs & Hctx)].
  { rewrite (proj2 (Z.eqb_neq status _)) by done. by apply Hfail. }
  cbn [Z.eqb negb STATUS_SUCCESS]. pose proof (ow_device _ _ _ _ _ _ _ Hs) as (Hd0 & Hd & _).
  assert (∀ status w', status ≠ STATUS_SUCCESS → wp e (delete_and_return device status) Q s w') as Hdelete.
  { intros status w' Hst. unfold delete_and_return. apply wp_bind.
    refine (wp_bcall e Henv (WdfObjectDelete device) _ s w' _ _ _); [by repeat constructor|constructor|].
    intros [] s5 w5 Ha. cbn [boot_answer] in Ha.
    rewrite (deleted_owns_bare s0 Hs0 device 0 [] s Hs Hctx) in Ha. subst s5. by apply Hfail. }
  apply wp_bind. refine (wp_bcall e Henv (WdfDeviceCreateDeviceInterface device _) _ s w4 _ _ _); [by repeat constructor|constructor|].
  intros st5 s5 w5 ->. cbn in st5. destruct (Z.eqb_spec st5 STATUS_SUCCESS); cbn [negb]; [|by apply Hdelete].
  apply wp_bind, (wp_object_context e Henv); [done|intros w6 _; rewrite Z.eqb_refl; by apply Hdelete|].
  intros v w6 Hv. destruct Hctx as [Hctx|Hctx]; [by rewrite Hctx in Hv|].
  rewrite (proj2 (Z.eqb_neq device 0)) by done. apply wp_bind. unfold child_properties. apply wp_bind.
  refine (wp_bcall_answer e Henv (WdfDeviceQueryProperty device 256) _ s w6 _ _ _); [by repeat constructor|constructor|].
  intros answer s7 w7 -> [-> [Hlen Hpos]]. rewrite Hids in *.
  destruct (child_properties_total (λ _, ids)) as (r & Hr & Hm).
  { intros st chars n E. rewrite E in *. cbn in Hlen, Hpos. split; [by apply Hlen|done]. }
  rewrite Hr. apply wp_ret. destruct r as [[guid mtu]|status].
  - eapply (wp_device_add_instance s0 ids guid mtu); try done; [by eapply child_properties_data4|by eapply Hm].
  - apply Hdelete. intros ->. by eapply child_properties_error.
Qed.

End device_add.

(** C24: bringing a device up is all or nothing.  Whatever identifiers the device
    has and whichever call fails, [evt_driver_device_add] runs without touching
    an object, a context or an instance that does not exist.  If it fails, the
    memory is as it was, or the device it left behind takes everything with it
    when the framework deletes it.  If it succeeds, the identifiers are those of
    a child, the device has one complete instance, all of whose objects exist
    and are different, every callback finds that instance from the object it is
    called with, and the device's deletion releases everything.  A complete
    instance is in the state the other components start in: its data path in
    the phase [Unprepared], its leases [initial_leases], its wait as in
    [initial_wait_memory]. *)
Theorem device_add_complete (e : env boot boot_ret) (init : Z) (ids : Z * list Z * Z) (s0 : boot)
    (w : world boot_ret) (Henv : respects boot_contract e) (Hs0 : tidy s0)
    (Hids : ∀ w device s, (e w (WdfDeviceQueryProperty device 256) s).1 = ids) :
  wp e (evt_driver_device_add init) (λ status s _, added e s0 ids status s) s0 w.
Proof. by apply (wp_device_add e Henv ids). Qed.

(** An environment that always succeeds. *)
Definition above {A} (m : gmap Z A) : Z := foldr Z.max 0 (map_to_list m).*1 + 1.

Lemma above_fresh {A} (m : gmap Z A) : above m ≠ 0 ∧ m !! above m = None.
Proof.
  unfold above. assert (∀ l : list Z, 0 ≤ foldr Z.max 0 l ∧ ∀ x, x ∈ l → x ≤ foldr Z.max 0 l) as H.
  { induction l as [|y l [IH1 IH2]]; cbn; [by split; [|intros ? ?%not_elem_of_nil]|]. split; [lia|].
    intros x [->|Hx]%elem_of_cons; [lia|]. specialize (IH2 x Hx). lia. }
  destruct (H (map_to_list m).*1) as [H0 Hm]. split; [lia|]. apply eq_None_not_Some. intros [x Hx].
  apply elem_of_map_to_list in Hx. specialize (Hm _ (list_elem_of_fmap_2 fst _ _ Hx)). cbn in Hm. lia.
Qed.

Definition create_quietly (o : object) (with_context : bool) (s : boot) : (Z * Z) * boot :=
  let h := above (objects s) in
  let s' := add_object h o s in
  ((STATUS_SUCCESS, h), if with_context then add_context h s' else s').

Definition quiet_boot (ids : Z * list Z * Z) : env boot boot_ret := λ w c,
  match c return boot → boot_ret c * boot with
  | WdfDeviceCreate _ f => create_quietly {| parent := 0; cleanup := Some f |} true
  | WdfLookasideListCreate device _ _ => create_quietly (child device) false
  | WdfSpinLockCreate device => create_quietly (child device) false
  | WdfWaitLockCreate device => create_quietly (child device) false
  | WdfIoQueueCreate device _ => create_quietly (child device) false
  | WdfWorkItemCreate device _ => create_quietly (child device) true
  | NetAdapterCreate init => λ s, create_quietly (child (default 0 (adapter_inits s !! init))) true s
  | WdfDeviceQueryProperty _ size => λ s,
      (if size =? 256 then ids else (STATUS_SUCCESS, replicate (Z.to_nat (size / 2)) 0, 0), s)
  | WdfObjectGetTypedContextWorker o _ => λ s, (if decide (is_Some (contexts s !! o)) then o else 0, s)
  | WdfObjectDelete o => λ s, (tt, default s (deleted o s))
  | AllocateInstanceState => λ s, (above (instances s), s)
  | AllocateFrames _ => λ s, (true, s)
  | WdfIoQueueGetDevice queue => λ s, (default 0 (parent <$> objects s !! queue), s)
  | NetAdapterInitAllocate device => λ s,
      let h := above (adapter_inits s) in (h, s <| adapter_inits := <[h := device]> (adapter_inits s) |>)
  | NetAdapterInitFree init => λ s, (tt, s <| adapter_inits := delete init (adapter_inits s) |>)
  | WdfDeviceInitSetPnpPowerEventCallbacks _ _ => λ s, (tt, s)
  | WdfDeviceInitSetFileObjectConfig _ _ => λ s, (tt, s)
  | NetAdapterInitSetDatapathCallbacks _ _ _ => λ s, (tt, s)
  | WdfDriverCreate _ => λ s, (STATUS_SUCCESS, s)
  | NetDeviceInitConfig _ => λ s, (STATUS_SUCCESS, s)
  | WdfDeviceCreateDeviceInterface _ _ => λ s, (STATUS_SUCCESS, s)
  | WdfDeviceConfigureRequestDispatching _ _ => λ s, (STATUS_SUCCESS, s)
  end.

Lemma creates_quietly o with_context s :
  creates o with_context (create_quietly o with_context s).1 s (create_quietly o with_context s).2.
Proof.
  destruct (above_fresh (objects s)) as [H0 Hn]. unfold creates, create_quietly. cbn [fst snd].
  rewrite Z.eqb_refl. split; [done|]. split; [done|]. destruct with_context; [by right|by left].
Qed.

(** The identifiers of a child, as the bus publishes them. *)
Definition example_ids : Z * list Z * Z :=
  let ids := default [] (published_ids example_guid 9000) in
  (STATUS_SUCCESS, ids ++ replicate (Z.to_nat (128 - len ids)) 0, 2 * len ids).

Lemma quiet_boot_respects ids : len ids.1.2 = 128 → 0 ≤ ids.2 → respects boot_contract (quiet_boot ids).
Proof.
  intros Hlen Hpos w c s. destruct c; try done; try (by apply creates_quietly).
  - change (boot_answer (WdfDeviceQueryProperty device size)
      (if size =? 256 then ids else (STATUS_SUCCESS, replicate (Z.to_nat (size / 2)) 0, 0)) s s).
    destruct (Z.eqb_spec size 256) as [->|]; split; try done. split; cbn; [|done]. intros H.
    unfold len. rewrite length_replicate. assert (0 ≤ size / 2) by (by apply Z.div_pos). lia.
  - cbn. by destruct (deleted object s).
  - split; [done|]. right. apply above_fresh.
  - split; [done|]. intros o Ho. cbn. by rewrite Ho.
  - cbn. destruct (above_fresh (adapter_inits s)) as [H0 Hn].
    change (if above (adapter_inits s) =? 0 then s <| adapter_inits := <[above (adapter_inits s) := device]> (adapter_inits s) |> = s
      else adapter_inits s !! above (adapter_inits s) = None ∧
        s <| adapter_inits := <[above (adapter_inits s) := device]> (adapter_inits s) |> =
        s <| adapter_inits := <[above (adapter_inits s) := device]> (adapter_inits s) |>).
    by rewrite (proj2 (Z.eqb_neq _ _)).
Qed.

Definition empty_boot : boot :=
  {| instances := ∅; objects := ∅; contexts := ∅; adapter_inits := ∅; released := [] |}.

Lemma empty_tidy : tidy empty_boot.
Proof. split; [done|]. by intros h [? ?]. Qed.

Lemma example_boot_respects : respects boot_contract (quiet_boot example_ids).
Proof.
  apply quiet_boot_respects; apply Z.eqb_eq || apply Z.leb_le; vm_compute; reflexivity.
Qed.

(** The status of a run. *)
Definition succeeds (r : option (Z * boot * world boot_ret)) : bool :=
  match r with Some (status, s, _) => (status =? STATUS_SUCCESS) && bool_decide (size (instances s) = 1%nat) | None => false end.

Lemma example_add_succeeds : succeeds (evt_driver_device_add 1 (quiet_boot example_ids) empty_boot []) = true.
Proof. vm_compute. reflexivity. Qed.

Lemma succeeds_run r : succeeds r = true → ∃ s w, r = Some (STATUS_SUCCESS, s, w).
Proof.
  destruct r as [[[status s] w]|]; cbn [succeeds]; [|discriminate].
  intros [->%Z.eqb_eq _]%andb_true_iff. by exists s, w.
Qed.

Lemma device_add_complete_witness :
  ∃ s w guid mtu device state i, evt_driver_device_add 1 (quiet_boot example_ids) empty_boot [] = Some (STATUS_SUCCESS, s, w) ∧
    complete guid mtu device i ∧ instances s = {[state := i]} ∧ deleted device s = Some empty_boot.
Proof.
  destruct (device_add_complete (quiet_boot example_ids) 1 example_ids empty_boot [] example_boot_respects empty_tidy
    ltac:(reflexivity)) as (status & s & w & Hrun & _ & Hok).
  destruct (succeeds_run _ example_add_succeeds) as (s2 & w2 & Hrun2).
  assert (status = STATUS_SUCCESS) as -> by (rewrite Hrun in Hrun2; injection Hrun2 as ->; reflexivity).
  destruct (Hok eq_refl) as (guid & mtu & device & state & i & _ & Hi & Hs & _ & Hd).
  exists s, w, guid, mtu, device, state, i. split; [exact Hrun|]. split; [exact Hi|]. split; [exact Hs|exact Hd].
Defined.

(** ** From the bus to a working device *)

(** C7: a child of the bus driver becomes a device that works.  Take any GUID and
    any MTU the bus driver accepts, and the hardware identifiers it formats for
    them, followed by anything in the property's buffer.  The packet driver's
    [evt_driver_device_add] adds that child: it succeeds unless a call of the
    framework or an allocation it made failed ([call_failed]).  When it succeeds,
    its instance has the child's MTU plus the 14 bytes of an Ethernet header as
    its frame limit and the MAC address made of the GUID; and from the data path's
    state with that instance, with no lock held, every sequence of power, hardware
    and owner callbacks the framework may run takes the device through the phases
    of the power state machine: after prepare hardware and D0 entry it works.  As
    for the refinement itself, the callbacks of the sequence run one after
    another, and nothing else changes the phase while one of them runs
    ([undisturbed]). *)
Theorem published_device_works (C : adapter_constants) (g : GUID) (mtu : Z) (ids rest : list Z)
    (e : env boot boot_ret) (e2 : env dev dp_ret) (init : Z) (s0 : boot) (w : world boot_ret)
    (Hg : guid_words g) (Hmtu : Parser.DEFAULT_MTU ≤ mtu ≤ Parser.MAXIMUM_MTU)
    (Hids : published_ids g mtu = Some ids) (Hrest : len (ids ++ rest) = 128)
    (Henv : respects boot_contract e) (Hs0 : tidy s0)
    (Hquery : ∀ w device s, (e w (WdfDeviceQueryProperty device 256) s).1 = (0, ids ++ rest, 2 * len ids))
    (Henv2 : respects dp_contract e2) (Hund : undisturbed {[DATAPATH_CLOSED_HARDWARE]} e2) :
  wp e (evt_driver_device_add init) (λ status s w', (status = STATUS_SUCCESS ∨ call_failed w w') ∧
    (status = STATUS_SUCCESS →
    ∃ device state i, instances s = <[state := i]> (instances s0) ∧ found_everywhere e device state i s ∧
      frame_maximum (shared i) = mtu + 14 ∧ Datapath.mac_address (shared i) = 2 :: take 5 (Data4 g) ∧
      ∀ cs p d w2, path Unprepared cs p → st d = shared i → held d = ∅ → guards d = ∅ → log d = [] →
        wp e2 (run_callbacks C cs) (λ _ d' _,
          realises p (view_of {[DATAPATH_CLOSED_HARDWARE]} d')) d w2)) s0 w.
Proof.
  destruct (published_read_back g mtu Hg Hmtu) as (ids' & Hids' & _ & Hback). rewrite Hids in Hids'. injection Hids' as <-.
  specialize (Hback (λ _, (0, ids ++ rest, 2 * len ids)) rest Hrest eq_refl).
  destruct (wp_device_add e Henv _ init _ s0 w Hs0 Hquery (λ _ _ _ H, H)) as (status & s & w' & Hrun & _ & Hok).
  exists status, s, w'. split; [done|]. split.
  { eapply (device_add_succeeds e _ g mtu); [exact Hquery|exact Hback| |exact Hrun].
    unfold Parser.DEFAULT_MTU in Hmtu. lia. }
  intros Hst. destruct (Hok Hst) as (g' & mtu' & device & state & i & Hread & Hi & Hs & Hf & _).
  rewrite Hback in Hread. injection Hread as <- <-.
  exists device, state, i. split; [done|]. split; [done|].
  destruct Hi as [_ _ _ Hmax Hmac _ Hready _ _]. split; [done|].
  destruct (mac_of_guid g (Datapath.mac_address (shared i)) Hg Hmac) as [Em El]. split; [done|].
  intros cs p d w2 Hpath Hd Hh Hgu Hl. destruct (Hready d Hd Hh Hgu Hl) as [Hrest' Hp].
  assert (len (Datapath.mac_address (st d)) = 6) as Hlen by (rewrite Hd; exact El).
  eapply wp_mono; [exact (run_path C _ cs Unprepared p e2 d w2 Henv2 Hund Hrest' Hlen Hp Hpath)|].
  intros [] d' w3 [Hp' _]. exact Hp'.
Qed.

(** The data path's state of the instance. *)
Definition dev_of (i : InstanceState) : dev := example_dev <| st := i |> <| log := [] |>.

Lemma example_guid_words : guid_words example_guid.
Proof. unfold guid_words, is_byte, fits. cbn. split_and!; try lia. repeat constructor; cbn; lia. Qed.

Lemma published_device_works_witness :
  ∃ s w state i, evt_driver_device_add 1 (quiet_boot example_ids) empty_boot [] = Some (STATUS_SUCCESS, s, w) ∧
    instances s = {[state := i]} ∧ frame_maximum (shared i) = 9014 ∧
    Datapath.mac_address (shared i) = [2; 1; 2; 3; 4; 5] ∧
    ∃ d' w', run_callbacks example_constants [PrepareHardware; D0Entry] quiet_framework (dev_of (shared i)) []
      = Some (tt, d', w') ∧ lifecycle (st d') = INSTANCE_OPEN.
Proof.
  destruct (published_ids example_guid 9000) as [ids|] eqn:Hids; [|exfalso; revert Hids; vm_compute; discriminate].
  assert (example_ids = (0, ids ++ replicate (Z.to_nat (128 - len ids)) 0, 2 * len ids)) as Hex
    by (unfold example_ids; rewrite Hids; reflexivity).
  assert (len (ids ++ replicate (Z.to_nat (128 - len ids)) 0) = 128) as Hlen.
  { assert (len example_ids.1.2 = 128) as H by (apply Z.eqb_eq; vm_compute; reflexivity). rewrite Hex in H. exact H. }
  destruct (published_device_works example_constants example_guid 9000 ids (replicate (Z.to_nat (128 - len ids)) 0)
    (quiet_boot example_ids) quiet_framework 1 empty_boot [] example_guid_words ltac:(unfold Parser.DEFAULT_MTU, Parser.MAXIMUM_MTU; lia)
    Hids Hlen example_boot_respects empty_tidy ltac:(intros; exact Hex) quiet_framework_respects (quiet_undisturbed _))
    as (status & s & w & Hrun & _ & Hok).
  destruct (succeeds_run _ example_add_succeeds) as (s2 & w2 & Hrun2).
  assert (status = STATUS_SUCCESS) as -> by (rewrite Hrun in Hrun2; injection Hrun2 as ->; reflexivity).
  destruct (Hok eq_refl) as (device & state & i & Hs & _ & Hmax & Hmac & Hpower).
  exists s, w, state, i. split; [exact Hrun|]. split; [exact Hs|]. split; [exact Hmax|]. split; [exact Hmac|].
  destruct (Hpower [PrepareHardware; D0Entry] Working (dev_of (shared i)) []) as ([] & d' & w' & Hd & Hp); try reflexivity.
  { eapply path_step; [constructor|]. eapply path_step; [constructor|]. constructor. }
  exists d', w'. split; [exact Hd|]. exact (re_lifecycle _ _ Hp).
Defined.

(** ** The end of an instance *)

(** C25: an instance is freed once, with its frames.  When the framework cleans a
    device up, [evt_instance_context_destroy] frees the instance its context
    names together with every frame of its two queues, each once and in order,
    and clears the context; cleaning up again changes nothing.  This is what the
    contract assumes of a deletion ([run_cleanup]). *)
Theorem instance_destroyed_once (e : env boot boot_ret) (device state : Z) (i : Instance)
    (injection capture : FrameQueue) (injected captured : spec_queue) (s : boot) (w : world boot_ret)
    (Henv : respects boot_contract e) (Hdevice : objects s !! device = Some device_object) (Hd0 : device ≠ 0)
    (Hcontext : contexts s !! device = Some state) (Hstate : state ≠ 0) (Hi : instances s !! state = Some i)
    (Hinjection : injection_queue (shared i) = Some injection) (Hcapture : capture_queue (shared i) = Some capture)
    (Hinjected : repr injection injected) (Hcaptured : repr capture captured) :
  wp e (evt_instance_context_destroy device) (λ _ s' w',
    s' = s <| contexts := <[device := 0]> (contexts s) |> <| instances := delete state (instances s) |>
           <| released := released s ++ sq_frames injected ++ sq_frames captured |> ∧
    run_cleanup device s = Some s' ∧
    wp e (evt_instance_context_destroy device) (λ _ s'' _, s'' = s') s' w') s w.
Proof.
  assert (drop_instance i = Some (sq_frames injected ++ sq_frames captured)) as Hdrop.
  { unfold drop_instance, FrameQueue_drop. rewrite Hinjection, Hcapture.
    destruct (clear_frames_spec _ _ Hinjected) as (q1 & -> & _). destruct (clear_frames_spec _ _ Hcaptured) as (q2 & -> & _). done. }
  assert (release_context device s = Some (s <| contexts := <[device := 0]> (contexts s) |>
    <| instances := delete state (instances s) |> <| released := released s ++ sq_frames injected ++ sq_frames captured |>))
    as Hrelease.
  { unfold release_context. rewrite Hcontext. cbn [mbind option_bind]. rewrite (proj2 (Z.eqb_neq _ _)) by done.
    rewrite Hi. cbn [mbind option_bind]. by rewrite Hdrop. }
  unfold evt_instance_context_destroy. apply wp_bind, (wp_object_context e Henv); [by rewrite Hdevice|by rewrite Hcontext|].
  intros v w1 _. rewrite (proj2 (Z.eqb_neq device 0)) by done. apply wp_bind, wp_get. rewrite Hrelease.
  apply wp_bind, wp_ret, wp_put. set (s' := s <| contexts := _ |> <| instances := _ |> <| released := _ |>).
  assert (contexts s' !! device = Some 0) as Hc' by (cbn; by rewrite lookup_insert_eq).
  split; [done|]. split.
  - unfold run_cleanup. rewrite Hdevice. cbn. rewrite decide_True by (by rewrite Hcontext). exact Hrelease.
  - apply wp_bind, (wp_object_context e Henv); [by cbn; rewrite Hdevice|by rewrite Hc'|].
    intros v2 w2 _. rewrite (proj2 (Z.eqb_neq device 0)) by done. apply wp_bind, wp_get.
    unfold release_context. rewrite Hc'. cbn [mbind option_bind Z.eqb]. by apply wp_bind, wp_ret, wp_put.
Qed.

(** A device with two frames in its capture queue. *)
Definition busy_instance : InstanceState :=
  match queue_step example_queue (QEnqueue (example_frame 3)) with
  | Some (q, _) => example_instance <| injection_queue := Some example_queue |> <| capture_queue := Some q |>
  | None => example_instance
  end.

Definition busy_boot : boot := {|
  instances := {[5 := {| shared := busy_instance; instance_guid := example_guid; pnp_device := 3;
    rx_callback_leases := 0; tx_callback_leases := 0; wait_state := 0; wait_request := 0;
    wait_cancel_handoff := 0; wait_interest := 0; wait_registration_capture_generation := 0;
    wait_registration_injection_generation := 0 |}]};
  objects := {[3 := device_object]}; contexts := {[3 := 5]}; adapter_inits := ∅; released := [] |}.

Lemma busy_queue : ∃ q, capture_queue busy_instance = Some q ∧
  repr q {| sq_frames := [example_frame 3]; sq_state := QOpen |}.
Proof.
  assert (repr example_queue {| sq_frames := []; sq_state := QOpen |}) as Hr
    by (by apply (try_new_repr (λ _, true) 2 100 example_queue eq_refl)).
  destruct (queue_step_spec example_queue _ (QEnqueue (example_frame 3)) Hr) as (q & Hq & Hrq & _).
  { by split; [|vm_compute]. }
  unfold busy_instance. rewrite Hq. exists q. split; [done|]. exact Hrq.
Qed.

Lemma instance_destroyed_once_witness :
  ∃ s' w', evt_instance_context_destroy 3 (quiet_boot example_ids) busy_boot [] = Some (tt, s', w') ∧
    released s' = [example_frame 3] ∧ instances s' = ∅.
Proof.
  destruct busy_queue as (q & Hq & Hrq).
  destruct (instance_destroyed_once (quiet_boot example_ids) 3 5 _ example_queue q {| sq_frames := []; sq_state := QOpen |}
    {| sq_frames := [example_frame 3]; sq_state := QOpen |} busy_boot [] example_boot_respects eq_refl ltac:(lia) eq_refl
    ltac:(lia) eq_refl eq_refl Hq (proj1 (try_new_repr (λ _, true) 2 100 example_queue eq_refl ltac:(lia) ltac:(lia))) Hrq)
    as ([] & s' & w' & Hrun & -> & _).
  eexists _, w'. split; [exact Hrun|]. split; reflexivity.
Defined.
