(* ===== verification/Bootstrap.v ===== *)
(** * The build bootstrap

    [wintap-wdk-bootstrap] (crates/wintap-wdk-bootstrap/src/lib.rs) restores
    the pinned driver kit before a crate is built.  Cargo runs the build
    scripts of several crates at the same time, as separate processes; they
    share the file system, and a lock file keeps two of them from restoring at
    once.  The scripts of [netadaptercx-sys], of both drivers and of [wdk-sys]
    are modelled from their start to their exit, as programs of [Conc] over
    the file system.

    A panic is an [Err] of [failure]: Cargo builds build scripts with
    unwinding, so the lock of a panicking script is dropped.  The restore
    script's own steps (scripts/restore-dependencies.ps1) are part of the
    process that waits for it; NuGet is a parameter. *)

From S2P Require Import Prelude Conc.

#[local] Open Scope string_scope.

(** ** Paths and the file system *)

(** A path is the list of its components. *)
Abbreviation path := (list string).

(** Rust's [Path::join], with a relative component. *)
Definition join (p : path) (c : string) : path := (p ++ [c])%list.

(** [Path::ancestors]: the path, its parent and so on to the root. *)
Fixpoint prefixes (p : path) : list path :=
  match p with
  | [] => [[]]
  | c :: p => [] :: ((c ::.) <$> prefixes p)
  end.
Definition ancestors (p : path) : list path := reverse (prefixes p).

Definition lower_ascii (a : Ascii.ascii) : Ascii.ascii :=
  let n := Ascii.N_of_ascii a in
  if (65 <=? n)%N && (n <=? 90)%N then Ascii.ascii_of_N (n + 32) else a.

Definition to_ascii_lowercase (s : string) : string :=
  String.string_of_list_ascii (lower_ascii <$> String.list_ascii_of_string s).

(** ** Constants *)

Definition WDK_NUGET_VERSION : string := "10.0.28000.2526".
Definition SDK_VERSION : string := "10.0.28000.0".
Definition NETADAPTERCX_VERSION : string := "2.5".

(** ** How a build script ends *)

Inductive failure :=
  | UnsupportedArchitecture (arch : string)
  | ArchitectureRequired
  | RepositoryMoved
  | PackageRootNotCreated
  | LockNotAcquired
  | RestoreTimedOut
  | PowerShellNotStarted
  | RestoreFailed
  | LockNotRemoved
  | Aborted                       (* a panic while unwinding *)
  | WdkIncomplete
  | Unreachable
  | UnsupportedVersion (version : string)
  | ManifestDirRequired
  | MissingPackage (id : string)
  | MissingInclude (dir : path)
  | MissingStubLibrary (dir : path)
  | OutDirRequired
  | BindingsNotGenerated
  | BindingsNotWritten
  | TracingNotInitialized
  | WdkBuildFailed.

#[export] Instance failure_eq_dec : EqDecision failure.
Proof. solve_decision. Defined.

Abbreviation exit := (result unit failure).

(** ** The shared state and the atomic actions *)

(** [fs] is the set of the keys of the existing files and directories. *)
Record build := { fs : gset path; exits : list exit }.

#[export] Instance eta_build : Eta build := λ s, {| fs := fs s; exits := exits s |}.

Inductive open_error := AlreadyExists | OtherError.

(** What the scripts call that is outside the repository. *)
Inductive external_call :=
  | InitializeTracing
  | ConfigureLibraryBuild
  | ConfigureBinaryBuild
  | GenerateBindings (include_dirs : list path)
  | WriteBindings (out_dir : path).

Inductive build_act :=
  | Exists (p : path)
  | IsDir (p : path)
  | CreateDirAll (p : path)
  | CreateNew (p : path)
  | RemoveFile (p : path)
  | SleepSecond
  | StartPowerShell (arch version : string) (output : path)
  | GetNuget
  | NewItem (p : path)
  | NugetRun (id version : string) (output : path)
  | SetWdkContentRoot (root : path)
  | External (c : external_call)
  | Exit (e : exit).

Definition build_ret (a : build_act) : Type :=
  match a with
  | Exists _ | IsDir _ | GetNuget | NewItem _ | External _ => bool
  | CreateDirAll _ | RemoveFile _ => result unit unit
  | CreateNew _ => result unit open_error
  | StartPowerShell _ _ _ => result bool unit
  | NugetRun _ _ _ => option Z
  | SleepSecond | SetWdkContentRoot _ | Exit _ => unit
  end.

Abbreviation script := (prog build_ret).

Section file_system.

(** [name_key] maps a file name to what the file system compares; the file
    systems of Windows ignore case.  [nuget id version output s] lists what a
    running [nuget install] may do next to the file system [s]: go on
    ([None]) or exit with a code. *)
Context (name_key : string → string)
        (nuget : string → string → path → gset path → list (option Z * gset path)).

(** In a calm build no file operation fails but for the reason the file
    system has, and nobody else adds files. *)
Context (calm : bool).

Definition key (p : path) : path := name_key <$> p.

Definition exists_in (s : build) (p : path) : bool := bool_decide (key p ∈ fs s).

Definition add_directories (p : path) (s : build) : build :=
  s <| fs := list_to_set (prefixes (key p)) ∪ fs s |>.

Definition faulty {A} (l : list A) : list A := if calm then [] else l.

Definition build_exec (s : build) (a : build_act) : list (build_ret a * build) :=
  match a with
  | Exists p =>
      (* an error of the look-up is [false] *)
      if exists_in s p then (true, s) :: faulty [(false, s)] else [(false, s)]
  | IsDir p => if exists_in s p then [(true, s); (false, s)] else [(false, s)]
  | CreateDirAll p =>
      (Ok tt, add_directories p s)
      :: faulty ((λ q, (Err tt, add_directories q s)) <$> prefixes p)
  | CreateNew p =>
      if exists_in s p then (Err AlreadyExists, s) :: faulty [(Err OtherError, s)]
      else if exists_in s (removelast p)
      then (Ok tt, s <| fs := {[key p]} ∪ fs s |>) :: faulty [(Err OtherError, s)]
      else [(Err OtherError, s)]
  | RemoveFile p =>
      if exists_in s p
      then (Ok tt, s <| fs := fs s ∖ {[key p]} |>) :: faulty [(Err tt, s)]
      else [(Err tt, s)]
  | StartPowerShell _ _ _ => [(Ok true, s); (Ok false, s); (Err tt, s)]
  | GetNuget => [(true, s); (false, s)]
  | NewItem p => [(true, add_directories p s); (false, s)]
  | NugetRun id version output =>
      (λ m, (m.1, s <| fs := m.2 |>)) <$> nuget id version output (fs s)
  | External _ => [(true, s); (false, s)]
  | SleepSecond | SetWdkContentRoot _ => [(tt, s)]
  | Exit e => [(tt, s <| exits := (exits s ++ [e])%list |>)]
  end.

End file_system.

(** ** Programs that can fail *)

Definition bind_ok {A B} (p : script (result A failure)) (f : A → script (result B failure)) :
    script (result B failure) :=
  r ← p; match r with Ok a => f a | Err e => mret (Err e) end.

Notation "'try' x := p 'in' k" := (bind_ok p (λ x, k))
  (at level 10, x pattern, p at level 200, k at level 200,
   format "'try'  x  :=  p  'in' '//' k") : rust_scope.

Definition done_ok {A} (a : A) : script (result A failure) := mret (Ok a).
Definition fail {A} (e : failure) : script (result A failure) := mret (Err e).

(** [panic!] unless the value is there. *)
Definition expect {A} (o : option A) (e : failure) : script (result A failure) :=
  mret (ok_or o e).

(** ** crates/wintap-wdk-bootstrap/src/lib.rs *)

(** [bootstrap_dir] is [env!("CARGO_MANIFEST_DIR")] of the bootstrap crate. *)
Definition repo_root (bootstrap_dir : path) : option path := ancestors bootstrap_dir !! 2%nat.

(** The variable is [None] when it is unset or not Unicode. *)
Definition package_architecture (target_arch : option string) : result string failure :=
  match target_arch with
  | Some "x86_64" => Ok "x64"
  | Some "aarch64" => Ok "ARM64"
  | Some other => Err (UnsupportedArchitecture other)
  | None => Err ArchitectureRequired
  end.

Definition library_architecture (architecture : string) : option string :=
  match architecture with
  | "x64" => Some "x64"
  | "ARM64" => Some "arm64"
  | _ => None
  end.

(** The paths a complete kit has. *)
Definition wdk_paths (root : path) (library_architecture : string) : list path :=
  [(root ++ ["Include"; SDK_VERSION; "km"; "crt"])%list;
   (root ++ ["Include"; SDK_VERSION; "km"; "ntddk.h"])%list;
   (root ++ ["Include"; "wdf"; "kmdf"; "1.33"])%list;
   (root ++ ["Lib"; SDK_VERSION; "km"; library_architecture])%list].

Fixpoint all_exist (paths : list path) : script bool :=
  match paths with
  | [] => mret true
  | p :: paths =>
      there ← act1 (Exists p);
      if there : bool then all_exist paths else mret false
  end.

Definition is_complete_wdk_root (root : path) (architecture : string) :
    script (result bool failure) :=
  match library_architecture architecture with
  | Some library_architecture =>
      complete ← all_exist (wdk_paths root library_architecture);
      done_ok complete
  | None => fail Unreachable
  end.

Section restore.
(** How often a running NuGet is looked at. *)
Context (fuel : nat).

Fixpoint nuget_install (n : nat) (id version : string) (output : path) : script Z :=
  match n with
  | O => Diverge
  | S n =>
      r ← act1 (NugetRun id version output);
      match r with
      | Some code => mret code
      | None => nuget_install n id version output
      end
  end.

Definition wdk_package (arch : string) : string := "Microsoft.Windows.WDK." +:+ arch.
Definition sdk_base_package : string := "Microsoft.Windows.SDK.CPP".
Definition sdk_package (arch : string) : string := "Microsoft.Windows.SDK.CPP." +:+ arch.

(** scripts/restore-dependencies.ps1; whether it exits with 0. *)
Definition restore_dependencies (architecture version : string) (output : path) : script bool :=
  found ← act1 GetNuget;
  if negb found then mret false else
  made ← act1 (NewItem output);
  if negb made then mret false else
  code ← nuget_install fuel (wdk_package architecture) version output;
  if negb (code =? 0)%Z then mret false else
  code ← nuget_install fuel sdk_base_package version output;
  if negb (code =? 0)%Z then mret false else
  code ← nuget_install fuel (sdk_package architecture) version output;
  if negb (code =? 0)%Z then mret false else
  mret true.

Definition restore_packages (package_root : path) (architecture : string) :
    script (result unit failure) :=
  started ← act1 (StartPowerShell architecture WDK_NUGET_VERSION package_root);
  match started with
  | Err _ => fail PowerShellNotStarted
  | Ok runs =>
      success ← (if runs : bool
                 then restore_dependencies architecture WDK_NUGET_VERSION package_root
                 else mret false);
      if success : bool then done_ok tt else fail RestoreFailed
  end.

Definition lock_path_of (package_root : path) : path :=
  join package_root ".wintap-wdk-restore.lock".

Fixpoint acquire_attempts (n : nat) (lock_path : path) : script (result path failure) :=
  match n with
  | O => fail RestoreTimedOut
  | S n =>
      opened ← act1 (CreateNew lock_path);
      match opened with
      | Ok _ => done_ok lock_path
      | Err AlreadyExists =>
          _ ← act1 SleepSecond;
          acquire_attempts n lock_path
      | Err OtherError => fail LockNotAcquired
      end
  end.

Definition acquire_restore_lock (package_root : path) : script (result path failure) :=
  made ← act1 (CreateDirAll package_root);
  match made with
  | Err _ => fail PackageRootNotCreated
  | Ok _ => acquire_attempts 600 (lock_path_of package_root)
  end.

(** The scope of a [RestoreLock]: it is dropped when the scope's work returns
    and when it panics; a panic of the drop during unwinding aborts. *)
Definition with_restore_lock (lock : path) (work : script (result unit failure)) :
    script (result unit failure) :=
  worked ← work;
  removed ← act1 (RemoveFile lock);
  match worked, removed with
  | Ok _, Ok _ => done_ok tt
  | Ok _, Err _ => fail LockNotRemoved
  | Err e, Ok _ => fail e
  | Err _, Err _ => fail Aborted
  end.

Definition package_root_of (repo_root : path) : path := (repo_root ++ ["out"; "packages"])%list.

Definition wdk_root_of (repo_root : path) (architecture : string) : path :=
  join (join (package_root_of repo_root)
    (wdk_package architecture +:+ "." +:+ WDK_NUGET_VERSION)) "c".

(** The body of the lock's scope. *)
Definition restore_if_incomplete (package_root wdk_root : path) (architecture : string) :
    script (result unit failure) :=
  try complete := is_complete_wdk_root wdk_root architecture in
  if complete : bool then done_ok tt else restore_packages package_root architecture.

Definition configure (bootstrap_dir : path) (target_arch : option string) :
    script (result path failure) :=
  try repo_root := expect (repo_root bootstrap_dir) RepositoryMoved in
  try architecture := mret (package_architecture target_arch) in
  let package_root := package_root_of repo_root in
  let wdk_root := wdk_root_of repo_root architecture in
  try complete := is_complete_wdk_root wdk_root architecture in
  try _ := (if complete : bool then done_ok tt else
              try lock := acquire_restore_lock package_root in
              with_restore_lock lock
                (restore_if_incomplete package_root wdk_root architecture)) in
  try complete := is_complete_wdk_root wdk_root architecture in
  if negb complete then fail WdkIncomplete else
  _ ← act1 (SetWdkContentRoot wdk_root);
  done_ok wdk_root.

(** ** The environment of a build script's process *)

Record process := {
  CARGO_CFG_TARGET_ARCH : option string;
  CARGO_MANIFEST_DIR : option path;
  WINTAP_WDK_VERSION : option string;
  OUT_DIR : option path;
}.

(** ** crates/netadaptercx-sys/build.rs *)

Definition package_root (p : process) : result path failure :=
  match CARGO_MANIFEST_DIR p with
  | None => Err ManifestDirRequired
  | Some manifest_dir =>
      match ancestors manifest_dir !! 2%nat with
      | None => Err RepositoryMoved
      | Some repo_root => Ok (package_root_of repo_root)
      end
  end.

Definition find_package (root : path) (id version : string) : script (option path) :=
  let flat := join root (id +:+ "." +:+ version) in
  there ← act1 (Exists flat);
  if there : bool then mret (Some flat) else
  let nested := join (join root (to_ascii_lowercase id)) version in
  there ← act1 (Exists nested);
  if there : bool then mret (Some nested) else
  let nested_original_case := join (join root id) version in
  there ← act1 (Exists nested_original_case);
  if there : bool then mret (Some nested_original_case) else
  mret None.

(** [find_package(..).unwrap_or_else(|| panic!(..)).join("c")] *)
Definition require_package (root : path) (id version : string) : script (result path failure) :=
  found ← find_package root id version;
  mret (match found with
        | Some p => Ok (join p "c")
        | None => Err (MissingPackage id)
        end).

Record Roots := { wdk : path; sdk : path; sdk_arch : path }.

Definition locate_roots (p : process) (version arch : string) : script (result Roots failure) :=
  try package_root := mret (package_root p) in
  try arch_package := mret (match arch with
                            | "x86_64" => Ok "x64"
                            | "aarch64" => Ok "ARM64"
                            | _ => Err Unreachable
                            end) in
  try wdk := require_package package_root (wdk_package arch_package) version in
  try sdk := require_package package_root sdk_base_package version in
  try sdk_arch := require_package package_root (sdk_package arch_package) version in
  done_ok {| wdk := wdk; sdk := sdk; sdk_arch := sdk_arch |}.

Definition include_dirs_of (roots : Roots) : list path :=
  let wdk_include := (wdk roots ++ ["Include"; SDK_VERSION])%list in
  let sdk_include := (sdk roots ++ ["Include"; SDK_VERSION])%list in
  [join wdk_include "km";
   join wdk_include "shared";
   (wdk_include ++ ["km"; "netcx"; "kmdf"; "adapter"; NETADAPTERCX_VERSION])%list;
   (wdk roots ++ ["Include"; "wdf"; "kmdf"; "1.33"])%list;
   join sdk_include "shared";
   (sdk_include ++ ["shared"; "netcx"; "shared"; "1.0"])%list;
   join sdk_include "um";
   join (sdk_arch roots) "um";
   join (sdk_arch roots) "ucrt"].

Fixpoint require_includes (dirs : list path) : script (result unit failure) :=
  match dirs with
  | [] => done_ok tt
  | dir :: dirs =>
      there ← act1 (Exists dir);
      if there : bool then require_includes dirs else fail (MissingInclude dir)
  end.

Definition netadaptercx_main (bootstrap_dir : path) (p : process) : script (result unit failure) :=
  try _ := configure bootstrap_dir (CARGO_CFG_TARGET_ARCH p) in
  let arch := default "x86_64" (CARGO_CFG_TARGET_ARCH p) in
  try _ := mret (match arch with
                 | "x86_64" | "aarch64" => Ok tt
                 | other => Err (UnsupportedArchitecture other)
                 end) in
  let wdk_version := default WDK_NUGET_VERSION (WINTAP_WDK_VERSION p) in
  if negb (bool_decide (wdk_version = WDK_NUGET_VERSION)) then fail (UnsupportedVersion wdk_version) else
  try roots := locate_roots p wdk_version arch in
  try _ := require_includes (include_dirs_of roots) in
  generated ← act1 (External (GenerateBindings (include_dirs_of roots)));
  if negb generated then fail BindingsNotGenerated else
  try out_dir := expect (OUT_DIR p) OutDirRequired in
  written ← act1 (External (WriteBindings out_dir));
  if negb written then fail BindingsNotWritten else done_ok tt.

(** ** The other build scripts *)

(** crates/wintap-bus-driver/build.rs *)
Definition bus_driver_main (bootstrap_dir : path) (p : process) : script (result unit failure) :=
  try _ := configure bootstrap_dir (CARGO_CFG_TARGET_ARCH p) in
  configured ← act1 (External ConfigureBinaryBuild);
  if configured : bool then done_ok tt else fail WdkBuildFailed.

(** crates/wintap-netadaptercx-driver/build.rs *)
Definition driver_main (bootstrap_dir : path) (p : process) : script (result unit failure) :=
  try wdk_root := configure bootstrap_dir (CARGO_CFG_TARGET_ARCH p) in
  configured ← act1 (External ConfigureBinaryBuild);
  if negb configured then fail WdkBuildFailed else
  let arch := default "x86_64" (CARGO_CFG_TARGET_ARCH p) in
  try lib_arch := mret (match arch with
                        | "x86_64" => Ok "x64"
                        | "aarch64" => Ok "arm64"
                        | other => Err (UnsupportedArchitecture other)
                        end) in
  let netadapter_lib :=
    (wdk_root ++ ["Lib"; "10.0.28000.0"; "km"; lib_arch; "netcx"; "kmdf"; "adapter"; "2.5"])%list in
  is_dir ← act1 (IsDir netadapter_lib);
  if negb is_dir then fail (MissingStubLibrary netadapter_lib) else done_ok tt.

(** crates/wdk-sys/build.rs, up to the generation of the bindings, which is
    the body of [configure_wdk_library_build_and_then]. *)
Definition wdk_sys_main (bootstrap_dir : path) (p : process) : script (result unit failure) :=
  traced ← act1 (External InitializeTracing);
  if negb traced then fail TracingNotInitialized else
  try _ := configure bootstrap_dir (CARGO_CFG_TARGET_ARCH p) in
  configured ← act1 (External ConfigureLibraryBuild);
  if configured : bool then done_ok tt else fail WdkBuildFailed.

Inductive crate := NetadapterCxSys | BusDriver | NetadapterDriver | WdkSys.

Definition main_of (c : crate) : path → process → script (result unit failure) :=
  match c with
  | NetadapterCxSys => netadaptercx_main
  | BusDriver => bus_driver_main
  | NetadapterDriver => driver_main
  | WdkSys => wdk_sys_main
  end.

(** A process runs its crate's [main] and exits. *)
Definition build_script (c : crate) (bootstrap_dir : path) (p : process) : script unit :=
  r ← main_of c bootstrap_dir p;
  _ ← act1 (Exit r);
  mret tt.

End restore.
