(* ===== verification/BootstrapSafety.v ===== *)
(** * Build scripts in parallel: the invariant

    Every build script has a ghost role: whether it holds the restore lock,
    which paths it has seen, and, while it holds the lock, which path of the
    kit it saw missing.  The invariant says that the lock file exists exactly
    when it is stale or one script has it, that seen paths stay, and that a
    path the holder of the lock saw missing is still missing.  Every build
    script is shown [safe] for it, whatever the other scripts do. *)

From S2P Require Import Prelude Conc Bootstrap.

#[local] Open Scope list_scope.

(** ** Paths *)

Lemma elem_of_prefixes p q : p ∈ prefixes q ↔ p `prefix_of` q.
Proof.
  revert p. induction q as [|c q IH]; intros p; cbn.
  - rewrite list_elem_of_singleton. split; [by intros ->|]. intros H. by apply prefix_nil_inv.
  - rewrite elem_of_cons, list_elem_of_fmap. split.
    + intros [->|(p' & -> & Hp)]; [apply prefix_nil|]. apply prefix_cons. by apply IH.
    + intros [l Hl]. destruct p as [|d p]; [by left|right]. cbn in Hl. simplify_eq.
      eexists. split; [done|]. apply IH. by eexists.
Qed.

Lemma prefixes_snoc q a : prefixes (q ++ [a]) = prefixes q ++ [q ++ [a]].
Proof. induction q as [|c q IH]; cbn; [done|]. by rewrite IH, fmap_app. Qed.

Lemma ancestors_snoc q a : ancestors (q ++ [a]) = (q ++ [a]) :: ancestors q.
Proof. unfold ancestors. by rewrite prefixes_snoc, reverse_snoc. Qed.

Lemma ancestors_2 p a b : ancestors (p ++ [a; b]) !! 2%nat = Some p.
Proof.
  rewrite (app_assoc p [a] [b] : p ++ [a; b] = _), !ancestors_snoc. cbn.
  destruct p as [|c p _] using rev_ind; [done|]. by rewrite ancestors_snoc.
Qed.

(** ** The system *)

(** Whether a process that ends this way leaves its lock file behind. *)
Definition leaves_lock (e : failure) : bool :=
  match e with LockNotRemoved | Aborted => true | _ => false end.

Inductive lock_role := Free | Held (missing : option path) | Left.

Inductive role :=
  | Running (l : lock_role) (known : list path)
  | Exited (e : exit).

Definition occupies (x : role) : bool :=
  match x with
  | Running Free _ => false
  | Running _ _ => true
  | Exited (Ok _) => false
  | Exited (Err e) => leaves_lock e
  end.

Fixpoint occupants (R : list role) : Z :=
  match R with [] => 0 | x :: R => Z.b2z (occupies x) + occupants R end.

Lemma occupants_insert R i x y : R !! i = Some x →
  occupants (<[i := y]> R) = occupants R - Z.b2z (occupies x) + Z.b2z (occupies y).
Proof.
  revert i. induction R as [|z R IH]; intros [|i] Hi; cbn in *; simplify_eq; [lia|].
  rewrite IH by done. lia.
Qed.

Lemma occupants_app R R' : occupants (R ++ R') = occupants R + occupants R'.
Proof. induction R; cbn; lia. Qed.

Lemma occupants_nonneg R : 0 ≤ occupants R.
Proof. induction R as [|x R IH]; cbn; [lia|]. destruct (occupies x); cbn; lia. Qed.

Lemma occupants_pos R i x : R !! i = Some x → occupies x = true → 1 ≤ occupants R.
Proof.
  revert i. induction R as [|z R IH]; intros [|i] Hi Hx; cbn in *; simplify_eq.
  - rewrite Hx. pose proof (occupants_nonneg R). cbn. lia.
  - specialize (IH i Hi Hx). destruct (occupies z); cbn; lia.
Qed.

Lemma occupants_two R i j x y : R !! i = Some x → R !! j = Some y →
  occupies x = true → occupies y = true → i ≠ j → 2 ≤ occupants R.
Proof.
  revert i j. induction R as [|z R IH]; intros [|i] [|j] Hi Hj Hx Hy Hne; cbn in *;
    simplify_eq; try done.
  - rewrite Hx. pose proof (occupants_pos R j y Hj Hy). cbn. lia.
  - rewrite Hy. pose proof (occupants_pos R i x Hi Hx). cbn. lia.
  - pose proof (IH i j Hi Hj Hx Hy). destruct (occupies z); cbn; lia.
Qed.

Section safety.
Context (name_key : string → string)
        (nuget : string → string → path → gset path → list (option Z * gset path))
        (calm stale : bool) (repo : path).

Abbreviation key := (key name_key).

Definition packages : path := package_root_of repo.
Definition lock_file : path := lock_path_of packages.

(** What exists has its ancestors. *)
Definition rooted (F : gset path) : Prop := ∀ p q, (p ++ q) ∈ F → p ∈ F.

(** More files, none of them the lock file or below it. *)
Definition grows (F F' : gset path) : Prop :=
  F ⊆ F' ∧ rooted F' ∧ ∀ q, (key lock_file ++ q) ∈ F' → (key lock_file ++ q) ∈ F.

(** The packages the scripts install. *)
Definition pinned (id : string) : Prop :=
  ∃ arch, id ∈ [wdk_package arch; sdk_base_package; sdk_package arch].

(** Installing one of them only adds files, and not the lock. *)
Definition nuget_adds : Prop := ∀ id F r F', pinned id →
  (r, F') ∈ nuget id WDK_NUGET_VERSION packages F → rooted F → grows F F'.

(** A failure that would be the scripts' own fault. *)
Definition internal (e : failure) : Prop :=
  e = Unreachable ∨ e = RepositoryMoved ∨
  calm = true ∧ ∃ arch, e = MissingPackage (wdk_package arch).

(** A path of the kit, and no directory that leads to it. *)
Definition deep (p : path) : Prop :=
  ¬ key p `prefix_of` key packages ∧ ¬ key p `prefix_of` key lock_file.

Definition has_lock (s : build) : bool := bool_decide (key lock_file ∈ fs s).

Record boot_inv (s : build) (R : list role) : Prop := {
  inv_rooted : rooted (fs s);
  inv_leaf q : q ≠ [] → (key lock_file ++ q) ∉ fs s;
  inv_lock : Z.b2z stale + occupants R = Z.b2z (has_lock s);
  inv_known i l known p : R !! i = Some (Running l known) → p ∈ known →
    key p ∈ fs s ∧ key p ≠ key lock_file;
  inv_missing i known p : calm = true → R !! i = Some (Running (Held (Some p)) known) →
    (key p ∉ fs s) ∧ deep p;
  inv_exits e : e ∈ exits s ↔ Exited e ∈ R;
  inv_errors e : Err e ∈ exits s → ¬ internal e;
}.

(** One script changes its role with the memory. *)
Lemma inv_step s s' R i x y :
  boot_inv s R → R !! i = Some x →
  rooted (fs s') →
  (∀ q, q ≠ [] → (key lock_file ++ q) ∉ fs s') →
  (∀ p, p ∈ fs s → p ≠ key lock_file → p ∈ fs s') →
  Z.b2z (has_lock s') - Z.b2z (has_lock s) = Z.b2z (occupies y) - Z.b2z (occupies x) →
  (occupies x = true ∨ ∀ p, deep p → key p ∉ fs s → key p ∉ fs s') →
  (∀ l known p, y = Running l known → p ∈ known → key p ∈ fs s' ∧ key p ≠ key lock_file) →
  (∀ known p, calm = true → y = Running (Held (Some p)) known → (key p ∉ fs s') ∧ deep p) →
  (∀ e, e ∈ exits s' ↔ e ∈ exits s ∨ y = Exited e) →
  (∀ e, x = Exited e → y = Exited e) →
  (∀ e, y = Exited (Err e) → ¬ internal e) →
  boot_inv s' (<[i := y]> R).
Proof.
  intros HI Hi Hr Hleaf Hkeep Hlock Hoth Hknown Hmiss Hex Hexx Herr.
  assert (Hl : (i < length R)%nat) by (by eapply lookup_lt_Some).
  split.
  - done.
  - done.
  - rewrite (occupants_insert _ _ x) by done. pose proof (inv_lock _ _ HI). lia.
  - intros j l known p. destruct (decide (i = j)) as [<-|Hne].
    + rewrite list_lookup_insert_eq by done. intros [= ->]. by eapply Hknown.
    + rewrite list_lookup_insert_ne by done. intros Hj Hp.
      destruct (inv_known _ _ HI j l known p Hj Hp). auto.
  - intros j known p Hc. destruct (decide (i = j)) as [<-|Hne].
    + rewrite list_lookup_insert_eq by done. intros [= ->]. by eapply Hmiss.
    + rewrite list_lookup_insert_ne by done. intros Hj.
      destruct (inv_missing _ _ HI j known p Hc Hj) as [Hp Hd]. split; [|done].
      destruct Hoth as [Hx|Hoth]; [|by apply Hoth].
      exfalso. pose proof (occupants_two R i j _ _ Hi Hj Hx eq_refl Hne).
      pose proof (inv_lock _ _ HI). destruct stale, (has_lock s); cbn in *; lia.
  - intros e. rewrite Hex, (inv_exits _ _ HI), !list_elem_of_lookup. split.
    + intros [[j Hj]| ->].
      * destruct (decide (i = j)) as [<-|Hne].
        -- exists i. rewrite list_lookup_insert_eq by done. simplify_eq. f_equal. by apply Hexx.
        -- exists j. by rewrite list_lookup_insert_ne.
      * exists i. by rewrite list_lookup_insert_eq.
    + intros [j Hj]. destruct (decide (i = j)) as [<-|Hne].
      * rewrite list_lookup_insert_eq in Hj by done. simplify_eq. by right.
      * rewrite list_lookup_insert_ne in Hj by done. left. by exists j.
  - intros e [He| ->]%Hex; [by eapply inv_errors|by apply Herr].
Qed.

Lemma grows_refl F : rooted F → grows F F.
Proof. intros Hr. by split_and!. Qed.

(** A step that only adds files. *)
Lemma inv_grow s s' R i l k l' k' :
  boot_inv s R → R !! i = Some (Running l k) →
  grows (fs s) (fs s') → exits s' = exits s →
  occupies (Running l' k') = occupies (Running l k) →
  (occupies (Running l k) = true ∨ ∀ p, deep p → key p ∉ fs s → key p ∉ fs s') →
  (∀ p, p ∈ k' → p ∈ k ∨ key p ∈ fs s' ∧ key p ≠ key lock_file) →
  (∀ p, calm = true → l' = Held (Some p) → (key p ∉ fs s') ∧ deep p) →
  boot_inv s' (<[i := Running l' k']> R).
Proof.
  intros HI Hi (Hsub & Hr & Hlk) He Hocc Hoth Hk Hm.
  assert (Hlock : has_lock s' = has_lock s).
  { unfold has_lock. apply bool_decide_ext. split; [|apply Hsub]. intros H.
    specialize (Hlk []). rewrite app_nil_r in Hlk. auto. }
  apply (inv_step s s' R i (Running l k)); try done.
  - intros q Hq Hin. by apply (inv_leaf _ _ HI q), Hlk.
  - intros p Hp _. by apply Hsub.
  - rewrite Hlock, Hocc. lia.
  - intros ? known p [= _ <-] Hp. destruct (Hk p Hp) as [Hin|]; [|done].
    destruct (inv_known _ _ HI i l k p Hi Hin). auto.
  - intros known p Hc [= -> _]. by apply Hm.
  - intros e. rewrite He. split; [by left|by intros [?|[=]]].
Qed.

(** A step that changes no file. *)
Lemma inv_still s R i l k l' k' :
  boot_inv s R → R !! i = Some (Running l k) →
  occupies (Running l' k') = occupies (Running l k) →
  (∀ p, p ∈ k' → p ∈ k ∨ key p ∈ fs s ∧ key p ≠ key lock_file) →
  (∀ p, calm = true → l' = Held (Some p) → (key p ∉ fs s) ∧ deep p) →
  boot_inv s (<[i := Running l' k']> R).
Proof.
  intros HI Hi Ho Hk Hm. apply (inv_grow s s R i l k); try done; [|by right].
  apply grows_refl, (inv_rooted _ _ HI).
Qed.

(** ** The actions *)

Definition kit (arch : string) (p : path) : Prop :=
  ∃ la, library_architecture arch = Some la ∧ p ∈ wdk_paths (wdk_root_of repo arch) la.

(** What a script may be about to do in a role. *)
Definition boot_allowed (a : build_act) (x : role) : Prop :=
  match a with
  | StartPowerShell arch version output =>
      ∃ p k, x = Running (Held (Some p)) k ∧ kit arch p
  | GetNuget | NewItem _ | NugetRun _ _ _ | RemoveFile _ => ∃ m k, x = Running (Held m) k
  | SetWdkContentRoot root =>
      ∃ l k arch, x = Running l k ∧ root = wdk_root_of repo arch ∧
        (∃ la, library_architecture arch = Some la) ∧ ∀ p, kit arch p → p ∈ k
  | _ => True
  end.

Abbreviation bsafe :=
  (safe (build_exec name_key nuget calm) boot_inv boot_allowed).

Ltac pick_outcome H := repeat (apply elem_of_cons in H as [H|H]); [..|by apply not_elem_of_nil in H].

Lemma in_faulty {A} (a : A) (l : list A) : a ∈ faulty calm l → calm = false ∧ a ∈ l.
Proof. unfold faulty. destruct calm; [by intros ?%not_elem_of_nil|done]. Qed.

(** Actions that change no file, for a script that keeps its role. *)
Lemma safe_boot_pure (a : build_act) (Q : build_ret a → role → Prop) l k :
  (∀ s r s', (r, s') ∈ build_exec name_key nuget calm s a → s' = s) →
  boot_allowed a (Running l k) → (∀ r, Q r (Running l k)) → bsafe (act1 a) Q (Running l k).
Proof.
  intros Ha Hw Hk. apply safe_act; [done|]. intros s R i Hi HI r s' Hr.
  apply Ha in Hr as ->. exists (Running l k). split; [by rewrite list_insert_id|]. apply Hk.
Qed.

Definition saw_missing (l : lock_role) (p : path) : lock_role :=
  match l with Held _ => Held (Some p) | _ => l end.

Lemma key_app p q : key (p ++ q) = key p ++ key q.
Proof. apply fmap_app. Qed.

(** Looking a path up; a deep path seen missing is remembered. *)
Lemma safe_exists p l k : deep p →
  bsafe (act1 (Exists p))
    (λ b y, if b : bool then y = Running l (p :: k)
            else y = Running (saw_missing l p) k ∧ (calm = true → ∀ q, (p ++ q) ∉ k))
    (Running l k).
Proof.
  intros Hd. apply safe_act; [done|]. intros s R i Hi HI b s' Hr. cbn in Hr. unfold exists_in in Hr.
  assert (Hkl : key p ≠ key lock_file).
  { intros Heq. destruct Hd as [_ []]. by rewrite Heq. }
  case_bool_decide as Hin.
  - apply elem_of_cons in Hr as [Hr|[Hc Hr]%in_faulty].
    + simplify_eq. exists (Running l (p :: k)). split; [|done].
      apply (inv_still s R i l k); try done.
      * intros q [->|Hq]%elem_of_cons; [by right|by left].
      * intros q Hc ->. by eapply (inv_missing _ _ HI).
    + pick_outcome Hr. simplify_eq. exists (Running (saw_missing l p) k). split.
      * apply (inv_still s R i l k); try done; [by destruct l| |congruence].
        intros q Hq. by left.
      * split; [done|congruence].
  - pick_outcome Hr. simplify_eq. exists (Running (saw_missing l p) k). split.
    + apply (inv_still s R i l k); try done; [by destruct l|by left|].
      intros q Hc Hq. destruct l as [| |]; cbn in Hq; simplify_eq. done.
    + split; [done|]. intros _ q Hq. destruct (inv_known _ _ HI i l k _ Hi Hq) as [Hk _].
      rewrite key_app in Hk. by apply (inv_rooted _ _ HI) in Hk.
Qed.

(** Looking any path up; a script that saw a path below it finds it. *)
Lemma safe_exists_any p l k :
  bsafe (act1 (Exists p))
    (λ b y, y = Running l k ∧ (b = false → calm = true → ∀ q, (p ++ q) ∉ k)) (Running l k).
Proof.
  apply safe_act; [done|]. intros s R i Hi HI b s' Hr. cbn in Hr. unfold exists_in in Hr.
  exists (Running l k). rewrite list_insert_id by done.
  case_bool_decide as Hin; [apply elem_of_cons in Hr as [Hr|[Hc Hr]%in_faulty]|];
    try pick_outcome Hr; simplify_eq; (split; [done|split; [done|]]); try congruence.
  intros _ _ q Hq. destruct (inv_known _ _ HI i l k _ Hi Hq) as [Hk _].
  rewrite key_app in Hk. by apply (inv_rooted _ _ HI) in Hk.
Qed.

Lemma deep_long p : (length packages + 1 < length p)%nat → deep p.
Proof.
  intros Hp. split; intros Hpre%prefix_length; revert Hpre; unfold Bootstrap.key; rewrite !length_fmap.
  - lia.
  - unfold lock_file, lock_path_of, join. rewrite length_app. cbn. lia.
Qed.

Lemma kit_deep arch p : kit arch p → deep p.
Proof.
  intros (la & _ & Hp). apply deep_long. unfold wdk_paths, wdk_root_of, join in Hp.
  repeat (apply elem_of_cons in Hp as [->|Hp]); [..|by apply not_elem_of_nil in Hp];
    rewrite !length_app; cbn; unfold packages; lia.
Qed.

(** ** Looking for the kit *)

Lemma safe_all_exist arch la paths l k :
  library_architecture arch = Some la →
  (∀ p, p ∈ paths → p ∈ wdk_paths (wdk_root_of repo arch) la) →
  bsafe (all_exist paths)
    (λ b y, ∃ k', k ⊆ k' ∧
       if b : bool then y = Running l k' ∧ ∀ p, p ∈ paths → p ∈ k'
       else ∃ p, kit arch p ∧ y = Running (saw_missing l p) k')
    (Running l k).
Proof.
  intros Hla. revert k. induction paths as [|p paths IH]; intros k Hp; cbn [all_exist].
  - exists k. split; [done|]. split; [done|]. by intros ? ?%not_elem_of_nil.
  - assert (Hkit : kit arch p) by (exists la; split; [done|]; apply Hp; by left).
    safe_next. eapply safe_mono; [apply safe_exists, (kit_deep arch), Hkit|].
    intros b y Hb. destruct b.
    + subst y. eapply safe_mono.
      { apply IH. intros q Hq. apply Hp. by right. }
      intros b y (k' & Hk & Hb). exists k'. split; [set_solver|]. destruct b.
      * destruct Hb as [-> Hb]. split; [done|]. intros q [->|Hq]%elem_of_cons; [set_solver|auto].
      * done.
    + destruct Hb as [-> _]. exists k. split; [done|]. by exists p.
Qed.

Lemma safe_is_complete arch la l k : library_architecture arch = Some la →
  bsafe (is_complete_wdk_root (wdk_root_of repo arch) arch)
    (λ r y, ∃ b k', r = Ok b ∧ k ⊆ k' ∧
       if b : bool then y = Running l k' ∧ ∀ p, kit arch p → p ∈ k'
       else ∃ p, kit arch p ∧ y = Running (saw_missing l p) k')
    (Running l k).
Proof.
  intros Hla. unfold is_complete_wdk_root. rewrite Hla. safe_next.
  eapply safe_mono; [by apply (safe_all_exist arch la)|].
  intros b y (k' & Hk & Hb). exists b, k'. split_and!; [done|done|].
  destruct b; [|done]. destruct Hb as [-> Hb]. split; [done|].
  intros p (la' & Hla' & Hp). simplify_eq. by apply Hb.
Qed.

(** ** The lock *)

Lemma key_prefix p q : p `prefix_of` q → key p `prefix_of` key q.
Proof. intros [l ->]. rewrite key_app. apply prefix_app_r. done. Qed.

Lemma lock_below_packages : key lock_file = key packages ++ [name_key ".wintap-wdk-restore.lock"].
Proof. apply key_app. Qed.

Lemma rooted_prefix F p q : rooted F → p `prefix_of` q → q ∈ F → p ∈ F.
Proof. intros Hr [l ->]. apply Hr. Qed.

Lemma grows_directories F q : rooted F → q `prefix_of` packages →
  grows F (list_to_set (prefixes (key q)) ∪ F).
Proof.
  intros Hr Hq. split_and!.
  - set_solver.
  - intros p l. rewrite !elem_of_union, !elem_of_list_to_set, !elem_of_prefixes. intros [H|H].
    + left. etrans; [|done]. by apply prefix_app_r.
    + right. by eapply Hr.
  - intros l. rewrite elem_of_union, elem_of_list_to_set, elem_of_prefixes. intros [H|H]; [|done].
    exfalso. apply key_prefix in Hq. apply (transitivity H), prefix_length in Hq.
    rewrite lock_below_packages, !length_app in Hq. cbn in Hq. lia.
Qed.

Lemma deep_not_directory F q p : q `prefix_of` packages → deep p → key p ∉ F →
  key p ∉ (list_to_set (prefixes (key q)) ∪ F : gset path).
Proof.
  intros Hq%key_prefix [Hd _] Hp.
  rewrite elem_of_union, elem_of_list_to_set, elem_of_prefixes. intros [H|H]; [|done].
  apply Hd. by etrans.
Qed.

(** Creating directories above the packages. *)
Lemma inv_directories s R i l k l' q :
  boot_inv s R → R !! i = Some (Running l k) → q `prefix_of` packages →
  l' = match l with Held _ => Held None | _ => l end →
  boot_inv (add_directories name_key q s) (<[i := Running l' k]> R).
Proof.
  intros HI Hi Hq ->. apply (inv_grow s _ R i l k); try done.
  - apply grows_directories; [apply (inv_rooted _ _ HI)|done].
  - by destruct l.
  - right. intros p Hd Hp. by apply deep_not_directory.
  - by left.
  - intros p _ Hl. by destruct l.
Qed.

Lemma safe_create_dir_all k :
  bsafe (act1 (CreateDirAll packages)) (λ _ y, y = Running Free k) (Running Free k).
Proof.
  apply safe_act; [done|]. intros s R i Hi HI r s' Hr. cbn in Hr.
  exists (Running Free k). split; [|done].
  apply elem_of_cons in Hr as [Hr|[_ (q & Hr & Hq)%list_elem_of_fmap]%in_faulty]; simplify_eq.
  - by apply (inv_directories s R i Free).
  - apply (inv_directories s R i Free); [done..| |done]. by apply elem_of_prefixes.
Qed.

Lemma safe_create_new k :
  bsafe (act1 (CreateNew lock_file))
    (λ r y, y = Running (match r with Ok _ => Held None | Err _ => Free end) k) (Running Free k).
Proof.
  apply safe_act; [done|]. intros s R i Hi HI r s' Hr. cbn in Hr. unfold exists_in in Hr.
  assert (Hsame : boot_inv s (<[i := Running Free k]> R)) by (by rewrite list_insert_id).
  exists (Running (match r with Ok _ => Held None | Err _ => Free end) k). split; [|done].
  case_bool_decide as Hin;
    [apply elem_of_cons in Hr as [Hr|[Hc Hr]%in_faulty]; try pick_outcome Hr; by simplify_eq|].
  case_bool_decide as Hpar; [|pick_outcome Hr; by simplify_eq].
  apply elem_of_cons in Hr as [Hr|[Hc Hr]%in_faulty]; [|pick_outcome Hr; by simplify_eq].
  simplify_eq. unfold lock_file, lock_path_of, join in Hpar. rewrite removelast_last in Hpar.
  apply (inv_step s _ R i (Running Free k)); try done; cbn.
  - intros p q. rewrite !elem_of_union, !elem_of_singleton. intros [Heq|H].
    + destruct q as [|c q _] using rev_ind; [left; by rewrite app_nil_r in Heq|right].
      rewrite lock_below_packages, app_assoc in Heq. apply app_inj_tail in Heq as [Heq _].
      apply (inv_rooted _ _ HI p q). by rewrite Heq.
    + right. by apply (inv_rooted _ _ HI) in H.
  - intros q Hq. rewrite elem_of_union, elem_of_singleton. intros [Heq|H].
    + rewrite <- (app_nil_r (key lock_file)) in Heq at 2. by apply app_inv_head in Heq.
    + by apply (inv_leaf _ _ HI q).
  - set_solver.
  - unfold has_lock. cbn. rewrite bool_decide_true, bool_decide_false by set_solver. done.
  - right. intros p [_ Hd] Hp. rewrite elem_of_union, elem_of_singleton.
    intros [Heq|?]; [|done]. apply Hd. by rewrite Heq.
  - intros l known p [= _ <-] Hp. destruct (inv_known _ _ HI i Free k p Hi Hp). set_solver.
  - intros e. split; [by left|by intros [?|[=]]].
Qed.

Lemma safe_remove_lock m k :
  bsafe (act1 (RemoveFile lock_file))
    (λ r y, y = Running (match r with Ok _ => Free | Err _ => Left end) k) (Running (Held m) k).
Proof.
  apply safe_act; [by eexists _, _|]. intros s R i Hi HI r s' Hr. cbn in Hr. unfold exists_in in Hr.
  assert (Hleft : boot_inv s (<[i := Running Left k]> R)).
  { apply (inv_still s R i (Held m) k); try done. by left. }
  exists (Running (match r with Ok _ => Free | Err _ => Left end) k). split; [|done].
  case_bool_decide as Hin; [|pick_outcome Hr; by simplify_eq].
  apply elem_of_cons in Hr as [Hr|[Hc Hr]%in_faulty]; [|pick_outcome Hr; by simplify_eq].
  simplify_eq. apply (inv_step s _ R i (Running (Held m) k)); try done; cbn.
  - intros p q. rewrite !elem_of_difference, !not_elem_of_singleton. intros [H Hne].
    split; [by apply (inv_rooted _ _ HI) in H|]. intros ->.
    apply (inv_leaf _ _ HI q); [|done]. intros ->. by rewrite app_nil_r in Hne.
  - intros q Hq. rewrite elem_of_difference. intros [H _]. by apply (inv_leaf _ _ HI q).
  - set_solver.
  - unfold has_lock. cbn. rewrite bool_decide_false, bool_decide_true by set_solver. done.
  - by left.
  - intros l known p [= _ <-] Hp. destruct (inv_known _ _ HI i (Held m) k p Hi Hp). set_solver.
  - intros e. split; [by left|by intros [?|[=]]].
Qed.

(** ** Restoring *)

Context (Hnuget : nuget_adds).

Definition held (k : list path) (y : role) : Prop := ∃ m, y = Running (Held m) k.

Lemma safe_held_pure (a : build_act) k y :
  (∀ s r s', (r, s') ∈ build_exec name_key nuget calm s a → s' = s) →
  (∀ m, boot_allowed a (Running (Held m) k)) →
  held k y → bsafe (act1 a) (λ _, held k) y.
Proof. intros Ha Hw [m ->]. apply safe_boot_pure; [done|apply Hw|]. intros _. by exists m. Qed.

Lemma safe_new_item k y : held k y → bsafe (act1 (NewItem packages)) (λ _, held k) y.
Proof.
  intros [m ->]. apply safe_act; [by eexists _, _|]. intros s R i Hi HI r s' Hr. cbn in Hr.
  pick_outcome Hr; simplify_eq.
  - exists (Running (Held None) k). split; [|by exists None].
    by apply (inv_directories s R i (Held m)).
  - exists (Running (Held m) k). split; [by rewrite list_insert_id|by exists m].
Qed.

Lemma safe_nuget_run id k y : pinned id → held k y →
  bsafe (act1 (NugetRun id WDK_NUGET_VERSION packages)) (λ _, held k) y.
Proof.
  intros Hid [m ->]. apply safe_act; [by eexists _, _|]. intros s R i Hi HI r s' Hr. cbn in Hr.
  apply list_elem_of_fmap in Hr as ([c F'] & Hr & HF). cbn in Hr. simplify_eq.
  exists (Running (Held None) k). split; [|by exists None].
  apply (inv_grow s _ R i (Held m) k); try done.
  - eapply Hnuget; [done..|]. apply (inv_rooted _ _ HI).
  - by left.
  - by left.
Qed.

Lemma safe_nuget_install n id k y : pinned id → held k y →
  bsafe (nuget_install n id WDK_NUGET_VERSION packages) (λ _, held k) y.
Proof.
  intros Hid. revert y. induction n as [|n IH]; intros y Hy; cbn [nuget_install]; [done|].
  safe_next. eapply safe_mono; [by apply safe_nuget_run|]. intros [code|] y' Hy'; [done|by apply IH].
Qed.

Ltac held_pure :=
  safe_next; eapply safe_mono;
  [apply safe_held_pure; [intros ? ? ? Hr; cbn in Hr; by pick_outcome Hr; simplify_eq
                         |intros ?; by eexists _, _|eassumption]|].

Lemma pinned_in arch id :
  id ∈ [wdk_package arch; sdk_base_package; sdk_package arch] → pinned id.
Proof. intros Hid. by exists arch. Qed.

Ltac held_step lemma := safe_next; eapply safe_mono; [apply lemma|]; cbn beta.

Lemma safe_restore_dependencies fuel arch k y : held k y →
  bsafe (restore_dependencies fuel arch WDK_NUGET_VERSION packages) (λ _, held k) y.
Proof.
  intros Hy. unfold restore_dependencies. held_pure. intros [] y1 H1; cbn [negb]; [|done].
  held_step safe_new_item; [eassumption|]. intros [] y2 H2; cbn [negb]; [|done].
  held_step safe_nuget_install; [apply (pinned_in arch); set_solver|eassumption|].
  intros c3 y3 H3. destruct (c3 =? 0); cbn [negb]; [|done].
  held_step safe_nuget_install; [apply (pinned_in arch); set_solver|eassumption|].
  intros c4 y4 H4. destruct (c4 =? 0); cbn [negb]; [|done].
  held_step safe_nuget_install; [apply (pinned_in arch); set_solver|eassumption|].
  intros c5 y5 H5. by destruct (c5 =? 0).
Qed.

Lemma safe_restore_packages fuel arch p k : kit arch p →
  bsafe (restore_packages fuel packages arch)
    (λ r y, held k y ∧ (r = Ok tt ∨ r = Err PowerShellNotStarted ∨ r = Err RestoreFailed))
    (Running (Held (Some p)) k).
Proof.
  intros Hp. unfold restore_packages. safe_next. apply safe_boot_pure.
  - intros ? ? ? Hr. cbn in Hr. by pick_outcome Hr; simplify_eq.
  - by exists p, k.
  - assert (Hh : held k (Running (Held (Some p)) k)) by (by exists (Some p)).
    intros [runs|[]]; [|apply safe_ret; auto].
    safe_next. eapply safe_mono with (Q := λ _, held k).
    + destruct runs; [by apply safe_restore_dependencies|done].
    + intros [] y Hy; apply safe_ret; auto.
Qed.

(** ** [configure] *)

(** A script that failed: without the lock, unless it could not remove it. *)
Definition failed (e : failure) (y : role) : Prop :=
  ¬ internal e ∧ ∃ k, y = Running (if leaves_lock e then Left else Free) k.

Definition post {A} (P : A → role → Prop) (r : result A failure) (y : role) : Prop :=
  match r with Ok a => P a y | Err e => failed e y end.

Lemma safe_bind_ok {A B} (p : script (result A failure)) (f : A → script (result B failure))
    (P : A → role → Prop) (Q : B → role → Prop) x :
  bsafe p (post P) x → (∀ a y, P a y → bsafe (f a) (post Q) y) →
  bsafe (bind_ok p f) (post Q) x.
Proof.
  intros Hp Hf. unfold bind_ok. safe_next. eapply safe_mono; [exact Hp|].
  intros [a|e] y Hy; [by apply Hf|exact Hy].
Qed.

Lemma safe_failure {A} (e : failure) (P : A → role → Prop) k :
  ¬ internal e → leaves_lock e = false → bsafe (fail e) (post P) (Running Free k).
Proof. intros He Hl. split; [done|]. exists k. by rewrite Hl. Qed.

(** Most failures are not the scripts' own. *)
Definition blames_script (e : failure) : bool :=
  match e with Unreachable | RepositoryMoved | MissingPackage _ => true | _ => false end.

Lemma not_internal e : blames_script e = false → ¬ internal e.
Proof. intros He [->|[->|(_ & arch & ->)]]; done. Qed.

#[local] Hint Resolve not_internal : core.

Lemma safe_acquire_attempts n k :
  bsafe (acquire_attempts n lock_file)
    (post (λ lock y, lock = lock_file ∧ y = Running (Held None) k)) (Running Free k).
Proof.
  induction n as [|n IH]; cbn [acquire_attempts]; [by apply safe_failure; auto|].
  safe_next. eapply safe_mono; [apply safe_create_new|]. intros [[]|[|]] y ->.
  - done.
  - safe_next. apply safe_boot_pure; [|done|by intros _; apply IH].
    intros ? ? ? Hr. cbn in Hr. by pick_outcome Hr; simplify_eq.
  - by apply safe_failure; auto.
Qed.

Lemma safe_acquire_lock k :
  bsafe (acquire_restore_lock packages)
    (post (λ lock y, lock = lock_file ∧ y = Running (Held None) k)) (Running Free k).
Proof.
  unfold acquire_restore_lock. safe_next. eapply safe_mono; [apply safe_create_dir_all|].
  intros [[]|[]] y ->; [apply safe_acquire_attempts|by apply safe_failure; auto].
Qed.

Lemma safe_restore_if_incomplete fuel arch la k : library_architecture arch = Some la →
  bsafe (restore_if_incomplete fuel packages (wdk_root_of repo arch) arch)
    (λ r y, (∃ k', held k' y) ∧ match r with Ok _ => True | Err e => blames_script e = false ∧ leaves_lock e = false end)
    (Running (Held None) k).
Proof.
  intros Hla. unfold restore_if_incomplete, bind_ok. safe_next.
  eapply safe_mono; [by apply (safe_is_complete arch la)|].
  intros ? y (b & k' & -> & _ & Hb). destruct b.
  - destruct Hb as [-> _]. split; [|done]. by exists k', None.
  - destruct Hb as (p & Hp & ->). eapply safe_mono; [by apply safe_restore_packages|].
    intros r y [Hy Hr]. split; [by exists k'|]. by destruct Hr as [->|[->| ->]].
Qed.

Lemma safe_with_restore_lock work x :
  bsafe work (λ r y, (∃ k, held k y) ∧
    match r with Ok _ => True | Err e => blames_script e = false ∧ leaves_lock e = false end) x →
  bsafe (with_restore_lock lock_file work) (post (λ _ y, ∃ k, y = Running Free k)) x.
Proof.
  intros Hw. unfold with_restore_lock. safe_next. eapply safe_mono; [exact Hw|].
  intros r y [(k & m & ->) Hr]. safe_next. eapply safe_mono; [apply safe_remove_lock|].
  intros removed y' ->. destruct r as [[]|e], removed as [[]|[]].
  - by exists k.
  - split; [auto|]. by exists k.
  - destruct Hr as [He Hl]. by apply safe_failure; auto.
  - split; [auto|]. by exists k.
Qed.

Definition bootstrap_crate : path := repo ++ ["crates"; "wintap-wdk-bootstrap"].

(** The kit was seen complete, and stays so. *)
Definition configured (target_arch : option string) (root : path) (y : role) : Prop :=
  ∃ arch k, package_architecture target_arch = Ok arch ∧ root = wdk_root_of repo arch ∧
    y = Running Free k ∧ ∀ p, kit arch p → p ∈ k.

Lemma architecture_known target_arch arch : package_architecture target_arch = Ok arch →
  ∃ la, library_architecture arch = Some la.
Proof.
  unfold package_architecture. intros H. destruct target_arch as [t|]; [|done].
  assert (arch = "x64" ∨ arch = "ARM64") as [->| ->]; [|by eexists..].
  revert H. repeat case_match; intros; simplify_eq; auto.
Qed.

Lemma safe_configure fuel target_arch k :
  bsafe (configure fuel bootstrap_crate target_arch) (post (configured target_arch)) (Running Free k).
Proof.
  unfold configure, expect, repo_root, bootstrap_crate. rewrite ancestors_2.
  refine (safe_bind_ok _ _ (λ a y, a = repo ∧ y = Running Free k) _ _ _ _); [done|].
  intros ? ? [-> ->].
  refine (safe_bind_ok _ _ (λ a y, package_architecture target_arch = Ok a ∧ y = Running Free k) _ _ _ _).
  { apply safe_ret. destruct (package_architecture target_arch) as [a|e] eqn:Ha; [done|].
    apply safe_failure; revert Ha; unfold package_architecture; repeat case_match;
      intros; simplify_eq; auto. }
  intros arch ? [Ha ->]. destruct (architecture_known _ _ Ha) as [la Hla].
  refine (safe_bind_ok _ _ (λ b y, ∃ k', y = Running Free k') _ _ _ _).
  { eapply safe_mono; [by apply (safe_is_complete arch la)|].
    intros ? y (b & k' & -> & _ & Hb). exists k'. destruct b; [by destruct Hb|].
    by destruct Hb as (p & _ & ->). }
  intros b ? [k1 ->].
  refine (safe_bind_ok _ _ (λ _ y, ∃ k', y = Running Free k') _ _ _ _).
  { destruct b; [by exists k1|].
    refine (safe_bind_ok _ _ _ _ _ (safe_acquire_lock k1) _). intros ? ? [-> ->].
    apply safe_with_restore_lock. by apply (safe_restore_if_incomplete fuel arch la). }
  intros _ ? [k2 ->].
  refine (safe_bind_ok _ _ (λ b y, ∃ k', y = Running Free k' ∧ (b = true → ∀ p, kit arch p → p ∈ k')) _ _ _ _).
  { eapply safe_mono; [by apply (safe_is_complete arch la)|].
    intros ? y (b' & k' & -> & _ & Hb). exists k'. destruct b'; [by destruct Hb|].
    by destruct Hb as (p & _ & ->). }
  intros complete ? (k3 & -> & Hk). destruct complete; cbn [negb]; [|by apply safe_failure; auto].
  safe_next. apply safe_boot_pure.
  - intros ? ? ? Hr. cbn in Hr. by pick_outcome Hr; simplify_eq.
  - exists Free, k3, arch. split_and!; [done|done|by exists la|by apply Hk].
  - intros _. apply safe_ret. exists arch, k3. auto.
Qed.

(** ** The build scripts *)

(** Cargo gives a script its crate's directory. *)
Definition process_ok (p : process) : Prop :=
  ∃ name, CARGO_MANIFEST_DIR p = Some (repo ++ ["crates"; name]).

Lemma architecture_cases target_arch arch : package_architecture target_arch = Ok arch →
  (target_arch = Some "x86_64" ∧ arch = "x64") ∨ (target_arch = Some "aarch64" ∧ arch = "ARM64").
Proof. unfold package_architecture. repeat case_match; intros; simplify_eq; auto. Qed.

Definition unlocked {A} (_ : A) (y : role) : Prop := ∃ k, y = Running Free k.

Ltac unchanged := let Hr := fresh in intros ? ? ? Hr; cbn in Hr; repeat case_bool_decide; by pick_outcome Hr; simplify_eq.

Lemma safe_find_package id version k :
  bsafe (find_package packages id version)
    (λ r y, y = Running Free k ∧
       (r = None → calm = true → ∀ q, (packages ++ [(id +:+ "." +:+ version)%string] ++ q) ∉ k))
    (Running Free k).
Proof.
  unfold find_package. safe_next. eapply safe_mono; [apply safe_exists_any|].
  intros b y [-> Hb]. destruct b; [done|].
  safe_next. eapply safe_mono; [apply safe_exists_any|]. intros b y [-> _]. destruct b; [done|].
  safe_next. eapply safe_mono; [apply safe_exists_any|]. intros b y [-> _]. destruct b; [done|].
  split; [done|]. intros _ Hc q. specialize (Hb eq_refl Hc q). unfold join in Hb.
  by rewrite <- app_assoc in Hb.
Qed.

Lemma safe_require_package id version k :
  (∀ arch, id ≠ wdk_package arch) ∨
    (∃ q, (packages ++ [(id +:+ "." +:+ version)%string] ++ q) ∈ k) →
  bsafe (require_package packages id version) (post (λ _ y, y = Running Free k)) (Running Free k).
Proof.
  intros Hid. unfold require_package. safe_next. eapply safe_mono; [apply safe_find_package|].
  intros [p|] y [-> Hn]; [done|]. apply safe_ret. split; [|by exists k].
  intros [?|[?|(Hc & arch & [= Heq])]]; [done..|]. destruct Hid as [Hid|[q Hq]].
  - by eapply Hid.
  - by eapply Hn.
Qed.

Lemma safe_locate_roots p arch package k : process_ok p →
  package_architecture (Some arch) = Ok package → (∀ q, kit package q → q ∈ k) →
  bsafe (locate_roots p WDK_NUGET_VERSION arch) (post (λ _ y, y = Running Free k)) (Running Free k).
Proof.
  intros [name Hp] Ha Hk. unfold locate_roots, package_root. rewrite Hp, ancestors_2.
  refine (safe_bind_ok _ _ (λ a y, a = packages ∧ y = Running Free k) _ _ _ _); [done|].
  intros ? ? [-> ->].
  refine (safe_bind_ok _ _ (λ a y, a = package ∧ y = Running Free k) _ _ _ _).
  { apply safe_ret. by destruct (architecture_cases _ _ Ha) as [[[= ->] ->]|[[= ->] ->]]. }
  intros ? ? [-> ->]. destruct (architecture_known _ _ Ha) as [la Hla].
  refine (safe_bind_ok _ _ (λ _ y, y = Running Free k) _ _ _ _).
  { apply safe_require_package. right. exists ["c"; "Include"; SDK_VERSION; "km"; "crt"].
    apply Hk. exists la. split; [done|]. apply elem_of_cons. left.
    unfold wdk_root_of, join, packages. by rewrite <- !app_assoc. }
  intros ? ? ->. refine (safe_bind_ok _ _ (λ _ y, y = Running Free k) _ _ _ _).
  { apply safe_require_package. by left. }
  intros ? ? ->. refine (safe_bind_ok _ _ (λ _ y, y = Running Free k) _ _ _ _).
  { apply safe_require_package. by left. }
  by intros ? ? ->.
Qed.

Lemma safe_require_includes dirs k :
  bsafe (require_includes dirs) (post unlocked) (Running Free k).
Proof.
  induction dirs as [|d dirs IH]; cbn [require_includes]; [by exists k|].
  safe_next. eapply safe_mono; [apply safe_exists_any|]. intros b y [-> _].
  destruct b; [done|by apply safe_failure; auto].
Qed.

(** An external call, then the rest or a failure. *)
Lemma safe_external {A} c (f : bool → script (result A failure)) P k :
  (∀ b, bsafe (f b) P (Running Free k)) → bsafe (act1 (External c) ≫= f) P (Running Free k).
Proof. intros Hf. safe_next. apply safe_boot_pure; [unchanged|done|exact Hf]. Qed.

Lemma safe_netadaptercx fuel p : process_ok p →
  bsafe (netadaptercx_main fuel bootstrap_crate p) (post unlocked) (Running Free []).
Proof.
  intros Hp. unfold netadaptercx_main.
  refine (safe_bind_ok _ _ _ _ _ (safe_configure _ _ _) _).
  intros ? ? (package & k & Ha & -> & -> & Hk).
  assert (∃ arch, CARGO_CFG_TARGET_ARCH p = Some arch) as [arch Harch].
  { destruct (architecture_cases _ _ Ha) as [[-> _]|[-> _]]; eauto. }
  rewrite Harch in *. cbn [default].
  refine (safe_bind_ok _ _ (λ _ y, y = Running Free k) _ _ _ _).
  { apply safe_ret. by destruct (architecture_cases _ _ Ha) as [[[= ->] ->]|[[= ->] ->]]. }
  intros _ ? ->. case_bool_decide as Hv; cbn [negb]; [|by apply safe_failure; auto].
  rewrite Hv. refine (safe_bind_ok _ _ _ _ _ (safe_locate_roots _ _ _ _ Hp Ha Hk) _).
  intros roots ? ->. refine (safe_bind_ok _ _ _ _ _ (safe_require_includes _ _) _).
  intros _ ? [k' ->]. apply safe_external. intros []; cbn [negb]; [|by apply safe_failure; auto].
  refine (safe_bind_ok _ _ (λ _ y, y = Running Free k') _ _ _ _).
  { unfold expect. destruct (OUT_DIR p); [done|]. by apply safe_failure; auto. }
  intros out ? ->. apply safe_external. intros []; cbn [negb]; [by exists k'|by apply safe_failure; auto].
Qed.

Lemma safe_driver fuel p : bsafe (driver_main fuel bootstrap_crate p) (post unlocked) (Running Free []).
Proof.
  unfold driver_main. refine (safe_bind_ok _ _ _ _ _ (safe_configure _ _ _) _).
  intros root ? (package & k & Ha & -> & -> & _). apply safe_external.
  intros []; cbn [negb]; [|by apply safe_failure; auto].
  refine (safe_bind_ok _ _ (λ _ y, y = Running Free k) _ _ _ _).
  { apply safe_ret. by destruct (architecture_cases _ _ Ha) as [[-> ->]|[-> ->]]. }
  intros lib ? ->. safe_next. apply safe_boot_pure; [|done|].
  - intros s r s' Hr. cbn in Hr. destruct (exists_in name_key s _); by pick_outcome Hr; simplify_eq.
  - intros []; cbn [negb]; [by exists k|by apply safe_failure; auto].
Qed.

Lemma safe_main fuel c p : process_ok p →
  bsafe (main_of fuel c bootstrap_crate p) (post unlocked) (Running Free []).
Proof.
  intros Hp. destruct c; cbn [main_of].
  - by apply safe_netadaptercx.
  - unfold bus_driver_main. refine (safe_bind_ok _ _ _ _ _ (safe_configure _ _ _) _).
    intros ? ? (? & k & _ & _ & -> & _). apply safe_external.
    intros []; [by exists k|by apply safe_failure; auto].
  - by apply safe_driver.
  - unfold wdk_sys_main. apply safe_external. intros []; cbn [negb]; [|by apply safe_failure; auto].
    refine (safe_bind_ok _ _ _ _ _ (safe_configure _ _ _) _).
    intros ? ? (? & k & _ & _ & -> & _). apply safe_external.
    intros []; [by exists k|by apply safe_failure; auto].
Qed.

Definition exited (x : role) : Prop := match x with Exited _ => True | _ => False end.

Lemma safe_build_script fuel c p : process_ok p →
  bsafe (build_script fuel c bootstrap_crate p) (λ _, exited) (Running Free []).
Proof.
  intros Hp. unfold build_script. safe_next. eapply safe_mono; [by apply safe_main|].
  intros r y Hy. safe_next. apply safe_act; [done|]. intros s R i Hi HI [] s' Hr. cbn in Hr.
  pick_outcome Hr. simplify_eq. exists (Exited r). split; [|done].
  assert (∃ l k, y = Running l k ∧ occupies (Exited r) = occupies y ∧ ∀ e, r = Err e → ¬ internal e)
    as (l & k & -> & Ho & He).
  { destruct r as [[]|e]; [destruct Hy as [k ->]|destruct Hy as [He [k ->]]]; eexists _, _;
      (split; [done|]); [done|]. split; [cbn; by destruct (leaves_lock e)|]. by intros ? [= <-]. }
  apply (inv_step s _ R i (Running l k)); try done; cbn [fs exits].
  - apply (inv_rooted _ _ HI).
  - apply (inv_leaf _ _ HI).
  - rewrite Ho. unfold has_lock. cbn -[occupies]. lia.
  - by right.
  - intros e. cbn. rewrite elem_of_app, list_elem_of_singleton. naive_solver.
  - intros e [= ->]. by apply He.
Qed.

(** ** All build scripts together *)

(** Outside a calm build somebody else may add files. *)
Definition boot_env (s s' : build) : Prop :=
  calm = false ∧ grows (fs s) (fs s') ∧ exits s' = exits s.

Definition boot_spawn (s : build) (p : script unit) (s' : build) : Prop :=
  s' = s ∧ ∃ fuel c pr, process_ok pr ∧ p = build_script fuel c bootstrap_crate pr.

Definition boot_step : config build build_ret → config build build_ret → Prop :=
  step (build_exec name_key nuget calm) boot_env boot_spawn.

(** A build begins with some files, and perhaps with a stale lock. *)
Record boot_start (s : build) : Prop := {
  start_rooted : rooted (fs s);
  start_leaf q : q ≠ [] → (key lock_file ++ q) ∉ fs s;
  start_lock : has_lock s = stale;
  start_exits : exits s = [];
}.

Abbreviation boot_pool :=
  (pool_ok (build_exec name_key nuget calm) boot_inv boot_allowed exited).

Lemma boot_start_inv s : boot_start s → boot_inv s [].
Proof.
  intros [Hr Hleaf Hl He]. split; try done.
  - rewrite Hl. cbn. lia.
  - intros e. by rewrite He, !elem_of_nil.
  - intros e. by rewrite He, elem_of_nil.
Qed.

Lemma boot_env_inv s s' R : boot_inv s R → boot_env s s' → boot_inv s' R.
Proof.
  intros HI (Hc & (Hsub & Hr & Hlk) & He). split.
  - done.
  - intros q Hq Hin. by apply (inv_leaf _ _ HI q), Hlk.
  - rewrite (inv_lock _ _ HI). f_equal. apply bool_decide_ext.
    split; [apply Hsub|]. intros H. specialize (Hlk []). rewrite app_nil_r in Hlk. auto.
  - intros i l known p Hi Hp. destruct (inv_known _ _ HI i l known p Hi Hp).
    split; [|done]. by apply Hsub.
  - congruence.
  - intros e. rewrite He. apply (inv_exits _ _ HI).
  - intros e. rewrite He. apply (inv_errors _ _ HI).
Qed.

Lemma boot_spawn_inv s R : boot_inv s R → boot_inv s (R ++ [Running Free []]).
Proof.
  intros HI.
  assert (Hin : ∀ i l k, (R ++ [Running Free []]) !! i = Some (Running l k) →
            R !! i = Some (Running l k) ∨ (l = Free ∧ k = [])).
  { intros i l k [?|[_ H]]%lookup_app_Some; [by left|].
    apply list_lookup_singleton_Some in H as [_ [= -> ->]]. by right. }
  split; try apply HI.
  - rewrite occupants_app. cbn. rewrite Z.add_0_r. apply (inv_lock _ _ HI).
  - intros i l known q [Hi|[_ ->]]%Hin Hq; [by eapply inv_known|by apply elem_of_nil in Hq].
  - intros i known q Hc [Hi|[? _]]%Hin; [by eapply inv_missing|done].
  - intros e. rewrite (inv_exits _ _ HI), elem_of_app, list_elem_of_singleton. naive_solver.
Qed.

Lemma boot_reachable s C : boot_start s → star boot_step (s, []) C → ∃ R, boot_pool C R.
Proof.
  intros Hs Hstar. eapply pool_invariant; [..|exact Hstar].
  - intros s1 s2 R. apply boot_env_inv.
  - intros s1 s2 p R HI (-> & fuel & c & pr & Hp & ->). exists (Running Free []).
    split; [by apply boot_spawn_inv|by apply safe_build_script].
  - split; [by apply boot_start_inv|constructor].
Qed.

End safety.
