(* ===== verification/BootstrapTheorems.v ===== *)
(** * The build bootstrap: theorems

    What the restore lock guarantees to build scripts that run in parallel,
    what a configured script can rely on, and what the completeness check of
    the kit leaves out: it does not look at the SDK packages the same restore
    installs. *)

From S2P Require Import Prelude Conc Bootstrap BootstrapSafety.

#[local] Open Scope list_scope.

(** The steps of a restore. *)
Definition restoring (a : build_act) : Prop :=
  match a with
  | StartPowerShell _ _ _ | GetNuget | NewItem _ | NugetRun _ _ _ => True
  | _ => False
  end.

Section parallel.
Context (name_key : string → string)
        (nuget : string → string → path → gset path → list (option Z * gset path))
        (calm : bool) (repo : path) (Hnuget : nuget_adds name_key nuget repo).

Abbreviation key := (key name_key).
Abbreviation has_lock := (has_lock name_key repo).
Abbreviation boot_start s := (boot_start name_key (has_lock s) repo s).
Abbreviation boot_step := (boot_step name_key nuget calm repo).

Lemma restoring_held a x : restoring a → boot_allowed repo a x → ∃ m k, x = Running (Held m) k.
Proof. destruct a; cbn; try done. intros _ (p & k & -> & _). by eexists _, _. Qed.

(** C34: Restores exclude each other, and restore only what is missing.  With
    build scripts of any crates, architectures and environments starting at
    any time, a script that is about to take a step of a restore is the only
    one, the lock file exists and is not one that was left behind before the
    build; and if no file operation fails for another reason and nobody else
    adds files, the kit really is incomplete when PowerShell is started. *)
Theorem restores_exclusive (s : build) (C : config build build_ret) (i : nat) (a : build_act) :
  boot_start s → star boot_step (s, []) C →
  next_action C i = Some a → restoring a →
  has_lock s = false ∧ has_lock C.1 = true ∧
  (∀ j b, next_action C j = Some b → restoring b → j = i) ∧
  ∀ arch version output, calm = true → a = StartPowerShell arch version output →
    ∃ p, kit repo arch p ∧ key p ∉ fs C.1.
Proof using Hnuget.
  intros Hs Hstar Hi Ha. destruct (boot_reachable _ _ _ _ _ Hnuget _ _ Hs Hstar) as [R HR].
  destruct (next_allowed _ _ _ _ _ _ _ _ HR Hi) as (x & Hx & Hax).
  destruct (restoring_held _ _ Ha Hax) as (m & k & ->). pose proof (proj1 HR) as HI.
  pose proof (occupants_pos R i _ Hx eq_refl) as Hpos. pose proof (inv_lock _ _ _ _ _ _ HI) as Hl.
  split; [by destruct (has_lock s), (has_lock C.1); cbn in *; first [done|lia]|].
  split; [by destruct (has_lock s), (has_lock C.1); cbn in *; first [done|lia]|].
  split.
  - intros j b Hj Hb. destruct (next_allowed _ _ _ _ _ _ _ _ HR Hj) as (y & Hy & Hay).
    destruct (restoring_held _ _ Hb Hay) as (m' & k' & ->).
    destruct (decide (j = i)) as [|Hne]; [done|exfalso].
    pose proof (occupants_two R j i _ _ Hy Hx eq_refl eq_refl Hne).
    destruct (has_lock s), (has_lock C.1); cbn in *; lia.
  - intros arch version output Hc ->. destruct Hax as (p & k' & [= -> ->] & Hp). exists p.
    split; [done|]. by destruct (inv_missing _ _ _ _ _ _ HI i k' p Hc Hx).
Qed.

(** A configured script has the whole kit.  When a build script sets
    WDKContentRoot, the directory is the pinned package of a supported
    architecture and all four paths of the kit exist in it, whatever the
    other scripts did meanwhile.  No script ends in a failure of its own: it
    reaches no [unreachable!], finds the repository root, and, if file
    operations only fail for the reasons the file system has, never misses
    the WDK package that [configure] found complete. *)
Theorem configured_kit_complete (s : build) (C : config build build_ret) :
  boot_start s → star boot_step (s, []) C →
  (∀ i root, next_action C i = Some (SetWdkContentRoot root) →
     ∃ arch la, root = wdk_root_of repo arch ∧ library_architecture arch = Some la ∧
       ∀ p, p ∈ wdk_paths root la → key p ∈ fs C.1) ∧
  (∀ e, Err e ∈ exits C.1 →
     e ≠ Unreachable ∧ e ≠ RepositoryMoved ∧
     (calm = true → ∀ arch, e ≠ MissingPackage (wdk_package arch))).
Proof using Hnuget.
  intros Hs Hstar. destruct (boot_reachable _ _ _ _ _ Hnuget _ _ Hs Hstar) as [R HR].
  pose proof (proj1 HR) as HI. split.
  - intros i root Hi. destruct (next_allowed _ _ _ _ _ _ _ _ HR Hi) as (x & Hx & Hax).
    destruct Hax as (l & k & arch & -> & -> & [la Hla] & Hk). exists arch, la.
    split_and!; [done..|]. intros p Hp. apply (inv_known _ _ _ _ _ _ HI i l k p Hx).
    apply Hk. by exists la.
  - intros e He. pose proof (inv_errors _ _ _ _ _ _ HI e He) as Hn. unfold internal in Hn.
    split_and!; [by intros ->; auto..|]. intros Hc arch ->. apply Hn. eauto.
Qed.

(** The restore lock is released on every path.  When all scripts have
    exited, the lock file exists exactly if it was there before the build or
    a script failed to remove it. *)
Theorem restore_lock_released (s : build) (C : config build build_ret) :
  boot_start s → star boot_step (s, []) C → Forall finished C.2 →
  has_lock C.1 = true ↔
    has_lock s = true ∨ ∃ e, Err e ∈ exits C.1 ∧ leaves_lock e = true.
Proof using Hnuget.
  intros Hs Hstar Hf. destruct (boot_reachable _ _ _ _ _ Hnuget _ _ Hs Hstar) as [R HR].
  pose proof (pool_finished _ _ _ _ _ _ HR Hf) as Hex. pose proof (proj1 HR) as HI.
  pose proof (inv_lock _ _ _ _ _ _ HI) as Hl. pose proof (occupants_nonneg R) as H0.
  assert (Hocc : occupants R ≠ 0 ↔ ∃ e, Err e ∈ exits C.1 ∧ leaves_lock e = true).
  { split.
    - intros Hne. clear Hl Hf HR. assert (∃ x, x ∈ R ∧ occupies x = true) as (x & Hx & Ho).
      { clear -Hne. induction R as [|x R IH]; cbn in *; [done|].
        destruct (occupies x) eqn:Ho; cbn in *.
        - exists x. split; [by left|done].
        - destruct IH as (y & Hy & Ho'); [lia|]. exists y. split; [by right|done]. }
      rewrite Forall_forall in Hex. specialize (Hex x Hx). destruct x as [|[[]|e]]; try done.
      exists e. split; [|done]. by apply (inv_exits _ _ _ _ _ _ HI).
    - intros (e & He%(inv_exits _ _ _ _ _ _ HI) & Hle).
      apply list_elem_of_lookup in He as [i Hi]. pose proof (occupants_pos R i _ Hi Hle). lia. }
  rewrite <- Hocc. destruct (has_lock s), (has_lock C.1); cbn in *; intuition (try done; lia).
Qed.

End parallel.

(** ** The wait for the lock ends *)

(** The program returns after at most [n] actions, whatever their answers. *)
Fixpoint ends_within {A} (n : nat) (p : script A) : Prop :=
  match p with
  | Ret _ => True
  | Act _ k => match n with O => False | S n => ∀ r, ends_within n (k r) end
  | Diverge => False
  end.

Lemma acquire_attempts_end n lock : ends_within (2 * n) (acquire_attempts n lock).
Proof.
  induction n as [|n IH]; [done|]. replace (2 * S n)%nat with (S (S (2 * n))) by lia.
  intros [[]|[|]]; [done| |done]. intros []. exact IH.
Qed.

(** A stale lock does not hang the build: acquiring the lock takes at most one
    action to create the directory and 600 attempts, each followed by a
    second's sleep, whatever other scripts do. *)
Theorem acquisition_ends (package_root : path) :
  ends_within 1201 (acquire_restore_lock package_root).
Proof.
  intros [[]|[]]; cbn; [|done]. apply (acquire_attempts_end 600).
Qed.

(** ** What the completeness check leaves out *)

Section partial_restore.
Context (name_key : string → string)
        (nuget : string → string → path → gset path → list (option Z * gset path))
        (repo : path) (target package la : string).
Context (Htarget : package_architecture (Some target) = Ok package)
        (Hla : library_architecture package = Some la).

Abbreviation key := (key name_key).
Abbreviation root := (wdk_root_of repo package).

(** The WDK package is there, the base SDK package is not. *)
Record wdk_only (F : gset path) : Prop := {
  wdk_rooted : rooted F;
  wdk_there p : p ∈ wdk_paths root la → key p ∈ F;
  sdk_flat : key (join (packages repo) (sdk_base_package +:+ "." +:+ WDK_NUGET_VERSION)) ∉ F;
  sdk_nested : key (join (join (packages repo) (to_ascii_lowercase sdk_base_package)) WDK_NUGET_VERSION) ∉ F;
  sdk_original : key (join (join (packages repo) sdk_base_package) WDK_NUGET_VERSION) ∉ F;
}.

(** The scripts of [netadaptercx-sys] for the one architecture. *)
Definition netadaptercx_spawn (s : build) (p : script unit) (s' : build) : Prop :=
  s' = s ∧ ∃ fuel name out, p = build_script fuel NetadapterCxSys (bootstrap_crate repo)
    {| CARGO_CFG_TARGET_ARCH := Some target; CARGO_MANIFEST_DIR := Some (repo ++ ["crates"; name]);
       WINTAP_WDK_VERSION := None; OUT_DIR := out |}.

Context (F : gset path) (HF : wdk_only F).

Definition partial_inv (s : build) (R : list unit) : Prop :=
  fs s = F ∧ ∀ e, e ∈ exits s → e = Err (MissingPackage sdk_base_package).

(** No script starts a restore. *)
Definition partial_allowed (a : build_act) (x : unit) : Prop := ¬ restoring a.

Abbreviation psafe := (safe (build_exec name_key nuget true) partial_inv partial_allowed).

Lemma partial_exists p (Q : bool → unit → Prop) x :
  Q (bool_decide (key p ∈ F)) tt → psafe (act1 (Exists p)) Q x.
Proof.
  intros HQ. apply safe_act; [by intros []|]. intros s R i Hi HI b s' Hr. cbn in Hr.
  destruct HI as [HF' He]. unfold exists_in in Hr. rewrite HF' in Hr. exists tt.
  case_bool_decide; apply list_elem_of_singleton in Hr; simplify_eq; done.
Qed.

Lemma partial_all_exist paths x : (∀ p, p ∈ paths → key p ∈ F) →
  psafe (all_exist paths) (λ b _, b = true) x.
Proof.
  destruct x. intros Hp. induction paths as [|p paths IH]; cbn [all_exist]; [done|]. safe_next.
  apply partial_exists. rewrite bool_decide_true by (apply Hp; by left). apply IH.
  intros q Hq. apply Hp. by right.
Qed.

(** A step that succeeds with a known value. *)
Lemma partial_bind {A B} (p : script (result A failure)) (f : A → script (result B failure)) a Q x :
  psafe p (λ r _, r = Ok a) x → (∀ y, psafe (f a) Q y) → psafe (bind_ok p f) Q x.
Proof.
  intros Hp Hf. unfold bind_ok. safe_next. eapply safe_mono; [exact Hp|]. intros ? y ->. apply Hf.
Qed.

Lemma partial_configure fuel x :
  psafe (configure fuel (bootstrap_crate repo) (Some target)) (λ r _, r = Ok root) x.
Proof.
  assert (Hc : ∀ x, psafe (is_complete_wdk_root root package) (λ r _, r = Ok true) x).
  { intros y. unfold is_complete_wdk_root. rewrite Hla. safe_next.
    eapply safe_mono; [apply partial_all_exist, (wdk_there _ HF)|]. by intros ? ? ->. }
  unfold configure, expect, repo_root, bootstrap_crate. rewrite ancestors_2, Htarget.
  apply (partial_bind _ _ repo); [done|]. intros ?.
  apply (partial_bind _ _ package); [done|]. intros ?.
  apply (partial_bind _ _ true); [apply Hc|]. intros ?.
  apply (partial_bind _ _ tt); [done|]. intros ?.
  apply (partial_bind _ _ true); [apply Hc|]. intros ?. cbn [negb]. safe_next.
  apply safe_act; [by intros []|]. intros s R i Hi HI [] s' Hr. cbn in Hr.
  apply list_elem_of_singleton in Hr. simplify_eq. by exists tt.
Qed.

Lemma partial_wdk x :
  psafe (require_package (packages repo) (wdk_package package) WDK_NUGET_VERSION)
    (λ r _, r = Ok root) x.
Proof.
  unfold require_package, find_package. safe_next. safe_next. apply partial_exists.
  rewrite bool_decide_true; [done|].
  assert (Hin : key (root ++ ["Include"; SDK_VERSION; "km"; "crt"]) ∈ F)
    by (apply (wdk_there _ HF); by left).
  rewrite key_app in Hin. apply (wdk_rooted _ HF) in Hin. unfold wdk_root_of, join in Hin.
  rewrite key_app in Hin. by apply (wdk_rooted _ HF) in Hin.
Qed.

Lemma partial_sdk x :
  psafe (require_package (packages repo) sdk_base_package WDK_NUGET_VERSION)
    (λ r _, r = Err (MissingPackage sdk_base_package)) x.
Proof.
  unfold require_package, find_package. safe_next. safe_next.
  apply partial_exists. rewrite bool_decide_false by apply (sdk_flat _ HF). safe_next.
  apply partial_exists. rewrite bool_decide_false by apply (sdk_nested _ HF). safe_next.
  apply partial_exists. by rewrite bool_decide_false by apply (sdk_original _ HF).
Qed.

Lemma partial_main fuel name out x :
  psafe (netadaptercx_main fuel (bootstrap_crate repo)
    {| CARGO_CFG_TARGET_ARCH := Some target; CARGO_MANIFEST_DIR := Some (repo ++ ["crates"; name]);
       WINTAP_WDK_VERSION := None; OUT_DIR := out |})
    (λ r _, r = Err (MissingPackage sdk_base_package)) x.
Proof.
  unfold netadaptercx_main. cbn [CARGO_CFG_TARGET_ARCH WINTAP_WDK_VERSION default].
  apply (partial_bind _ _ root); [apply partial_configure|]. intros ?.
  assert (Ht : (target = "x86_64" ∧ package = "x64") ∨ (target = "aarch64" ∧ package = "ARM64")).
  { by destruct (architecture_cases _ _ Htarget) as [[[= ->] ->]|[[= ->] ->]]; auto. }
  apply (partial_bind _ _ tt); [by destruct Ht as [[-> _]|[-> _]]|]. intros ?.
  rewrite bool_decide_true by done. cbn [negb]. unfold locate_roots, package_root.
  cbn [CARGO_MANIFEST_DIR]. rewrite ancestors_2. unfold bind_ok at 1. safe_next.
  eapply safe_mono with (Q := λ r _, r = Err (MissingPackage sdk_base_package));
    [|by intros ? ? ->].
  apply (partial_bind _ _ (packages repo)); [done|]. intros ?.
  apply (partial_bind _ _ package); [by destruct Ht as [[-> ->]|[-> ->]]|]. intros ?.
  apply (partial_bind _ _ root); [apply partial_wdk|]. intros z. unfold bind_ok at 1. safe_next.
  eapply safe_mono; [apply partial_sdk|]. by intros ? ? ->.
Qed.

End partial_restore.

(** C38: A restore that stopped after the WDK package is never repaired.  Once
    the WDK package is complete and the base SDK package is missing, every
    build script of netadaptercx-sys, however many run and whenever, fails
    with the missing SDK package; none of them starts a restore, although
    the restore script would install the package. *)
Theorem partial_restore_never_repaired (name_key : string → string)
    (nuget : string → string → path → gset path → list (option Z * gset path))
    (repo : path) (target package la : string) (s : build) (C : config build build_ret) :
  package_architecture (Some target) = Ok package → library_architecture package = Some la →
  wdk_only name_key repo package la (fs s) → exits s = [] →
  star (step (build_exec name_key nuget true) (λ _ _, False) (netadaptercx_spawn repo target)) (s, []) C →
  fs C.1 = fs s ∧ (∀ e, e ∈ exits C.1 → e = Err (MissingPackage sdk_base_package)) ∧
  ∀ i a, next_action C i = Some a → ¬ restoring a.
Proof.
  intros Ht Hla HF He Hstar.
  assert (∃ R, pool_ok (build_exec name_key nuget true) (partial_inv (fs s)) partial_allowed (λ _, True) C R)
    as [R HR].
  { eapply pool_invariant; [..|exact Hstar].
    - done.
    - intros s1 s2 p R HI (-> & fuel & name & out & ->). exists tt.
      split; [done|]. unfold build_script. safe_next.
      eapply safe_mono; [eapply partial_main; eassumption|]. intros ? y ->. safe_next.
      apply safe_act; [by intros []|]. intros s3 R3 i Hi [HF3 He3] [] s4 Hr. cbn in Hr.
      apply list_elem_of_singleton in Hr. simplify_eq. exists tt. split; [|done].
      split; [done|]. cbn. intros e [?|He4%list_elem_of_singleton]%elem_of_app; [by apply He3|done].
    - split; [|constructor]. split; [done|]. cbn. rewrite He. by intros e ?%elem_of_nil. }
  destruct (proj1 HR) as [HFC HeC]. split_and!; [done..|].
  intros i a Hi. by destruct (next_allowed _ _ _ _ _ _ _ _ HR Hi) as (x & _ & Ha).
Qed.

(** ** A build of two crates *)

Definition example_repo : path := ["C:"; "wintap"].

(** The file system of the example abbreviates the names that occur, which
    keeps the evaluation short, and ignores the case of all others. *)
Definition example_names : list string :=
  ["C:"; "wintap"; "out"; "packages"; ".wintap-wdk-restore.lock"; "crates"; "c"; "Include";
   SDK_VERSION; WDK_NUGET_VERSION; "km"; "crt"; "ntddk.h"; "wdf"; "kmdf"; "1.33"; "Lib"; "x64";
   wdk_package "x64" +:+ "." +:+ WDK_NUGET_VERSION;
   sdk_base_package +:+ "." +:+ WDK_NUGET_VERSION;
   sdk_package "x64" +:+ "." +:+ WDK_NUGET_VERSION].

Fixpoint abbreviation (n : nat) (names : list string) (name : string) : string :=
  match names with
  | [] => to_ascii_lowercase name
  | name' :: names =>
      if bool_decide (name = name') then String (Ascii.ascii_of_nat n) ""
      else abbreviation (S n) names name
  end.
Definition example_name : string → string := abbreviation 97 example_names.
Definition example_key (p : path) : path := key example_name p.

(** A NuGet that puts one missing file after the other in place. *)
Definition installed (id : string) : path :=
  example_key (join (packages example_repo) (id +:+ "." +:+ WDK_NUGET_VERSION)).

Definition example_files (id : string) : list path :=
  if bool_decide (id = wdk_package "x64")
  then example_key <$> wdk_paths (wdk_root_of example_repo "x64") "x64"
  else if bool_decide (id = sdk_base_package) then [join (installed id) "c"]
  else if bool_decide (id = sdk_package "x64") then [join (installed id) "c"]
  else [].

Definition example_nuget (id version : string) (output : path) (F : gset path) :
    list (option Z * gset path) :=
  match find (λ p, negb (bool_decide (p ∈ F))) (example_files id) with
  | Some p => [(None, list_to_set (prefixes p) ∪ F)]
  | None => [(Some 0, F)]
  end.

Lemma example_nuget_adds : nuget_adds example_name example_nuget example_repo.
Proof.
  intros id F r F' _ Hin Hr. unfold example_nuget in Hin.
  destruct (find _ (example_files id)) as [p|] eqn:Hf;
    apply list_elem_of_singleton in Hin as [= -> ->]; [|by split_and!].
  apply find_some in Hf as [Hp%list_elem_of_In _].
  assert (Hlock : ∀ q, q ∈ example_files id → ¬ example_key (lock_file example_repo) `prefix_of` q).
  { intros q Hq. unfold example_files in Hq.
    repeat case_bool_decide; subst; try by apply elem_of_nil in Hq.
    all: revert q Hq; apply Forall_forall; vm_compute;
      repeat (apply List.Forall_cons; [by intros [? [=]]|]); apply List.Forall_nil. }
  split_and!.
  - set_solver.
  - intros q l. rewrite !elem_of_union, !elem_of_list_to_set, !elem_of_prefixes. intros [H|H].
    + left. etrans; [|done]. by apply prefix_app_r.
    + right. by eapply Hr.
  - intros l. rewrite elem_of_union, elem_of_list_to_set, elem_of_prefixes. intros [H|H]; [|done].
    exfalso. apply (Hlock p Hp). etrans; [|done]. by apply prefix_app_r.
Qed.

Definition example_process (name : string) : process :=
  {| CARGO_CFG_TARGET_ARCH := Some "x86_64";
     CARGO_MANIFEST_DIR := Some (example_repo ++ ["crates"; name]);
     WINTAP_WDK_VERSION := None; OUT_DIR := Some (example_repo ++ ["target"]) |}.

Definition example_scripts : list (script unit) :=
  [build_script 9 WdkSys (bootstrap_crate example_repo) (example_process "wdk-sys");
   build_script 9 NetadapterCxSys (bootstrap_crate example_repo) (example_process "netadaptercx-sys")].

(** Nothing is restored yet. *)
Definition example_build : build :=
  {| fs := list_to_set (prefixes (example_key (join example_repo "crates"))); exits := [] |}.

Abbreviation example_exec := (build_exec example_name example_nuget true).
Abbreviation example_step := (boot_step example_name example_nuget true example_repo).

Definition after (schedule : list (nat * nat)) : config build build_ret :=
  scheduled example_exec (example_build, example_scripts) schedule.

Lemma example_start :
  boot_start example_name (has_lock example_name example_repo example_build)
    example_repo example_build.
Proof.
  split; [| |done..].
  - intros p q. cbn [fs example_build]. rewrite !elem_of_list_to_set, !elem_of_prefixes.
    intros H. etrans; [|done]. by apply prefix_app_r.
  - intros q Hq. cbn [fs example_build]. rewrite elem_of_list_to_set, elem_of_prefixes.
    intros [l Hl]. vm_compute in Hl. by destruct q.
Qed.

Lemma example_reachable schedule :
  runs example_exec (example_build, example_scripts) schedule = true →
  star example_step (example_build, []) (after schedule).
Proof.
  intros Hr. apply (star_trans _ _ (example_build, example_scripts)).
  - apply (star_snoc _ _ (example_build, [build_script 9 WdkSys (bootstrap_crate example_repo)
                                            (example_process "wdk-sys")])).
    + apply (star_snoc _ _ (example_build, [])); [done|].
      apply (step_spawn _ _ _ example_build _ []). split; [done|].
      exists 9%nat, WdkSys, (example_process "wdk-sys"). split; [by eexists|done].
    + apply (step_spawn _ _ _ example_build _ [_]). split; [done|].
      exists 9%nat, NetadapterCxSys, (example_process "netadaptercx-sys").
      split; [by eexists|done].
  - by apply scheduled_star.
Qed.

(** The first script takes the lock and is about to start PowerShell; then it
    restores the WDK package; then the rest, and ends. *)
Definition to_restore : list (nat * nat) := repeat (0, 0)%nat 5.
Definition to_wdk : list (nat * nat) := repeat (0, 0)%nat 12.
Definition to_configured : list (nat * nat) := repeat (0, 0)%nat 22.
Definition to_exit : list (nat * nat) := repeat (0, 0)%nat 25.

Lemma restores_exclusive_witness :
  has_lock example_name example_repo (after to_restore).1 = true ∧
  ∃ p, kit example_repo "x64" p ∧ key example_name p ∉ fs (after to_restore).1.
Proof.
  destruct (restores_exclusive example_name example_nuget true example_repo
    example_nuget_adds example_build (after to_restore) 0%nat
    (StartPowerShell "x64" WDK_NUGET_VERSION (packages example_repo)))
    as (_ & Hl & _ & Hmiss).
  - apply example_start.
  - apply example_reachable. vm_compute. reflexivity.
  - vm_compute. reflexivity.
  - exact I.
  - split; [exact Hl|]. by eapply Hmiss.
Defined.

Lemma configured_kit_complete_witness :
  next_action (after to_configured) 0 = Some (SetWdkContentRoot (wdk_root_of example_repo "x64")) ∧
  ∃ arch, wdk_root_of example_repo "x64" = wdk_root_of example_repo arch.
Proof.
  assert (Hn : next_action (after to_configured) 0
               = Some (SetWdkContentRoot (wdk_root_of example_repo "x64")))
    by (vm_compute; reflexivity).
  split; [exact Hn|].
  destruct (configured_kit_complete example_name example_nuget true example_repo
    example_nuget_adds example_build (after to_configured)) as [Hc _].
  - apply example_start.
  - apply example_reachable. vm_compute. reflexivity.
  - destruct (Hc _ _ Hn) as (arch & la & Heq & _). by exists arch.
Defined.

(** Both scripts run one after the other and succeed or fail. *)
Definition all_done : config build build_ret := after (to_exit ++ repeat (1, 0)%nat 15).

Lemma restore_lock_released_witness :
  has_lock example_name example_repo all_done.1 = true → False.
Proof.
  intros Hl. assert (Hf : Forall finished all_done.2)
    by (vm_compute; repeat constructor).
  assert (Hr : runs example_exec (example_build, example_scripts) (to_exit ++ repeat (1, 0)%nat 15) = true)
    by (vm_compute; reflexivity).
  apply (restore_lock_released example_name example_nuget true example_repo
    example_nuget_adds example_build all_done example_start (example_reachable _ Hr) Hf) in Hl.
  destruct Hl as [Hl|(e & He & Hl)].
  - vm_compute in Hl. discriminate Hl.
  - assert (Hall : Forall (λ x, match x with Ok _ => True | Err e => leaves_lock e = false end) (exits all_done.1))
      by (vm_compute; repeat constructor).
    rewrite Forall_forall in Hall. specialize (Hall _ He). cbn beta iota in Hall. rewrite Hall in Hl. discriminate Hl.
Defined.

(** ** The race *)

(** The first script has installed the WDK package and goes on to the SDK
    packages; the second finds the kit complete, does not wait for the lock,
    and runs to its end; then the first finishes. *)
Definition race : list (nat * nat) := to_wdk ++ repeat (1, 0)%nat 14 ++ repeat (0, 0)%nat 13.

(** A build fails while its restore is under way: the script of
    netadaptercx-sys ends with the missing SDK package, the other script then
    completes the restore.  Neither did anything wrong, and no operation
    failed. *)
Theorem restore_race : ∃ C,
  star example_step (example_build, []) C ∧ Forall finished C.2 ∧
  exits C.1 = [Err (MissingPackage sdk_base_package); Ok tt].
Proof.
  exists (after race). split; [|split].
  - apply example_reachable. vm_compute. reflexivity.
  - vm_compute. repeat constructor.
  - vm_compute. reflexivity.
Qed.

(** The build in which the first restore stops after the WDK package. *)
Definition stopped_restore : build := {| fs := fs (after to_wdk).1; exits := [] |}.

Lemma stopped_wdk_only : wdk_only example_name example_repo "x64" "x64" (fs stopped_restore).
Proof.
  split.
  - destruct (boot_reachable _ _ true _ _ example_nuget_adds _ (after to_wdk) example_start) as [R [HI _]].
    + apply example_reachable. vm_compute. reflexivity.
    + apply (inv_rooted _ _ _ _ _ _ HI).
  - assert (Hall : forallb (λ p, bool_decide (key example_name p ∈ fs stopped_restore))
                     (wdk_paths (wdk_root_of example_repo "x64") "x64") = true)
      by (vm_compute; reflexivity).
    intros p Hp%list_elem_of_In.
    exact (bool_decide_eq_true_1 _ (proj1 (List.forallb_forall _ _) Hall p Hp)).
  - eapply bool_decide_eq_false_1. vm_compute. reflexivity.
  - eapply bool_decide_eq_false_1. vm_compute. reflexivity.
  - eapply bool_decide_eq_false_1. vm_compute. reflexivity.
Qed.

Definition stopped_script : script unit :=
  build_script 0 NetadapterCxSys (bootstrap_crate example_repo) (example_process "netadaptercx-sys").

Definition stopped_end : config build build_ret :=
  scheduled example_exec (stopped_restore, [stopped_script]) (repeat (0, 0)%nat 14).

Lemma partial_restore_never_repaired_witness :
  exits stopped_end.1 ≠ [] ∧ ∀ e, e ∈ exits stopped_end.1 → e = Err (MissingPackage sdk_base_package).
Proof.
  split; [vm_compute; discriminate|].
  apply (partial_restore_never_repaired example_name example_nuget example_repo "x86_64" "x64" "x64"
    stopped_restore stopped_end); [reflexivity..|exact stopped_wdk_only|reflexivity|].
  apply (star_trans _ _ (stopped_restore, [stopped_script])).
  - apply (star_snoc _ _ (stopped_restore, [])); [constructor|].
    apply (step_spawn _ _ _ stopped_restore _ []). split; [reflexivity|].
    exists 0%nat, "netadaptercx-sys", (Some (example_repo ++ ["target"])). reflexivity.
  - apply scheduled_star. vm_compute. reflexivity.
Defined.
