(* ===== verification/LifecycleEnable.v ===== *)
(** * When the packet driver accepts a request to poll adaptively

    Under an environment in which other threads leave the instance alone and
    the framework grants the buffers and the guard, the answer of
    [handle_enable_adaptive_polling] is a function of the instance. *)

From S2P Require Import Prelude Words DriverConstants Effects Datapath DatapathSpec DatapathRequests DatapathTheorems Lifecycle LifecycleSpec LifecycleHandlers LifecyclePower LifecycleTheorems.

(** Nobody else is at work, and the framework grants what the handler asks for. *)
Record granting (e : env dev dp_ret) : Prop := {
  gr_still : still e;
  gr_input w q n s b : inputs s !! q = Some b →
    (e w (WdfRequestRetrieveInputBuffer q n) s).1 = (STATUS_SUCCESS, len b);
  gr_output w q n s :
    (e w (WdfRequestRetrieveOutputBuffer q n) s).1.1 = STATUS_SUCCESS ∧
    n ≤ (e w (WdfRequestRetrieveOutputBuffer q n) s).1.2;
  gr_guard w lock immediate s : (e w (WdfWaitLockAcquire lock immediate) s).1 = STATUS_SUCCESS;
}.

Section granted.
Context (e : env dev dp_ret) (Henv : respects dp_contract e) (Hgrant : granting e).

(** What the runs of [m] from the instance [i] and the notes [l] lead to. *)
Definition goes {A} (m : D A) (s : dev) (Q : A → dev → Prop) : Prop :=
  ∀ w a s' w', m e s w = Some (a, s', w') → Q a s'.

Definition same_account (s s' : dev) : Prop := st s' = st s ∧ log s' = log s ∧ held s' = held s.

Lemma goes_ret {A} (a : A) s (Q : A → dev → Prop) : Q a s → goes (mret a) s Q.
Proof. by intros HQ w a' s' w' [= -> -> _]. Qed.

Lemma goes_bind {A B} (m : D A) (f : A → D B) s Q :
  goes m s (λ a s', goes (f a) s' Q) → goes (m ≫= f) s Q.
Proof.
  intros Hm w b s' w' H. unfold mbind, M_bind in H.
  destruct (m e s w) as [[[a s1] w1]|] eqn:Hrun; [|done]. exact (Hm w a s1 w1 Hrun w1 b s' w' H).
Qed.

Lemma goes_get s (Q : dev → dev → Prop) : Q s s → goes get s Q.
Proof. by intros HQ w a s' w' [= <- <- _]. Qed.

Lemma goes_put s1 s (Q : unit → dev → Prop) : Q tt s1 → goes (put s1) s Q.
Proof. by intros HQ w [] s' w' [= <- _]. Qed.

Lemma goes_undefined {A} s (Q : A → dev → Prop) : goes undefined s Q.
Proof. done. Qed.

Lemma goes_from_option {A} (o : option A) s (Q : A → dev → Prop) :
  (∀ a, o = Some a → Q a s) → goes (from_option o) s Q.
Proof. intros HQ. destruct o; [by apply goes_ret, HQ|apply goes_undefined]. Qed.

Lemma goes_call c s (Q : dp_ret c → dev → Prop) :
  (∀ w s', same_account s s' → dp_answer c (e w c s).1 s s' → Q (e w c s).1 s') → goes (call c) s Q.
Proof.
  intros HQ w r s' w' [= <- <- _]. pose proof (Henv w c s) as Ha. apply HQ; [|done]. split; [apply (gr_still _ Hgrant)|].
  assert (∀ s0, log s0 = log s ∧ held s0 = held s → interferes s0 (e w c s).2 →
    log (e w c s).2 = log s ∧ held (e w c s).2 = held s) as Hlog by (by intros s0 [<- <-] [-> _ _ _ _]).
  unfold dp_contract in Ha. destruct c; cbn in Ha; try (by eapply Hlog); try (destruct Ha; by eapply Hlog).
  - destruct (_ =? _); [destruct Ha as (b & _ & _ & Ha)|]; (eapply Hlog; [|exact Ha]); done.
  - destruct (_ =? _); [destruct Ha as (b & _ & Ha)|]; (eapply Hlog; [|exact Ha]); done.
Qed.

Lemma same_trans s1 s2 s3 : same_account s1 s2 → same_account s2 s3 → same_account s1 s3.
Proof. intros (? & ? & ?) (? & ? & ?). split_and!; congruence. Qed.

Lemma goes_config {A} (f : InstanceState → A) s (Q : A → dev → Prop) : Q (f (st s)) s → goes (config f) s Q.
Proof. intros HQ. unfold config. by apply goes_bind, goes_get, goes_ret. Qed.

Lemma goes_acquire lock immediate s (Q : bool → dev → Prop) :
  lock ≠ 0 → (∀ s', same_account s s' → Q true s') → goes (guard_acquire lock immediate) s Q.
Proof.
  intros Hl HQ. unfold guard_acquire. rewrite (proj2 (Z.eqb_neq _ _) Hl). apply goes_bind, goes_get.
  destruct (decide _); [apply goes_undefined|]. apply goes_bind.
  refine (goes_call (WdfWaitLockAcquire lock immediate) s _ _). intros w s1 A1 _. cbn beta.
  rewrite (gr_guard _ Hgrant). cbn. by apply goes_bind, goes_get, goes_bind, goes_put, goes_ret, HQ.
Qed.

Lemma goes_release lock s (Q : unit → dev → Prop) :
  (∀ s', same_account s s' → Q tt s') → goes (guard_release lock) s Q.
Proof.
  intros HQ. unfold guard_release. apply goes_bind, goes_get. destruct (decide _); [|apply goes_undefined].
  apply goes_bind, goes_put. refine (goes_call (WdfWaitLockRelease lock) _ _ _). intros w s1 A1 _.
  destruct (e w _ _).1. by apply HQ.
Qed.

(** A completed request leaves its note. *)
Definition noted (q status : Z) (s s' : dev) : Prop :=
  ∃ information output, log s' = Completed q status information output :: log s.

Lemma goes_finish q status n completion s (Q : unit → dev → Prop) :
  (∀ s1 Q', (∀ s2, same_account s1 s2 → Q' tt s2) → goes completion s1 Q') →
  (∀ s', noted q status s s' → Q tt s') → goes (finish_request q status n completion) s Q.
Proof.
  intros Hc HQ. unfold finish_request. apply goes_bind, goes_get. destruct (decide _); [|apply goes_undefined].
  apply goes_bind, goes_put, Hc. intros s2 (_ & Hl & _). apply HQ. unfold noted. rewrite Hl. by do 2 eexists.
Qed.

Lemma goes_write_output q offset bytes s (Q : unit → dev → Prop) :
  (∀ s', same_account s s' → Q tt s') → goes (write_output q offset bytes) s Q.
Proof.
  intros HQ. unfold write_output. apply goes_bind, goes_get, goes_bind, goes_from_option. intros b _.
  destruct (_ && _); [|apply goes_undefined]. by apply goes_put, HQ.
Qed.

Lemma goes_try_enable s (Q : Z → dev → Prop) :
  idle s → state_lock (st s) ≠ 0 →
  (∀ s', log s' = log s → Q (enable_status (st s)) s') → goes try_enable_adaptive s Q.
Proof.
  intros Hs Hl HQ w r s' w' Hrun.
  destruct (ends_try_enable e (gr_still _ Hgrant) (st s) Hl s w r s' w' eq_refl Hrun) as [-> _].
  destruct (wp_try_enable e Henv (λ _ s' _, log s' = log s) s w Hs) as (r2 & s2 & w2 & Hrun2 & Hlog).
  { intros r s1 w1 A. by rewrite (acts_log _ _ _ A). }
  rewrite Hrun in Hrun2. injection Hrun2 as _ -> _. by apply HQ.
Qed.

Lemma same_idle s s' : same_account s s' → idle s → idle s'.
Proof. intros (Hst & _ & Hh) [Hok Hheld]. split; congruence. Qed.

Lemma goes_complete q status s : goes (complete_request q status) s (λ _ s', noted q status s s').
Proof.
  unfold complete_request. apply goes_finish; [|done]. intros s1 Q HQ.
  refine (goes_call (WdfRequestComplete q status) s1 Q _). intros w s2 A _. destruct (e w _ _).1. by apply HQ.
Qed.

Lemma goes_complete_with q status n s :
  goes (complete_request_with_information q status n) s (λ _ s', noted q status s s').
Proof.
  unfold complete_request_with_information. apply goes_finish; [|done]. intros s1 Q HQ.
  refine (goes_call (WdfRequestCompleteWithInformation q status n) s1 Q _). intros w s2 A _.
  destruct (e w _ _).1. by apply HQ.
Qed.

(** What is done under the guard. *)
Lemma goes_enable_guarded q bytes n lock s0 s :
  same_account s0 s → idle s0 → state_lock (st s0) ≠ 0 →
  goes (status ← try_enable_adaptive;
        _ ← (if status =? STATUS_SUCCESS then
               _ ← write_output q 0 bytes; complete_request_with_information q STATUS_SUCCESS n
             else complete_request q status);
        guard_release lock) s (λ _ s', noted q (enable_status (st s0)) s0 s').
Proof.
  intros A Hs Hl. apply goes_bind, goes_try_enable; [exact (same_idle _ _ A Hs)|by rewrite (proj1 A)|].
  destruct A as (Hst & Hlog & _). intros s1 Hlog1. rewrite Hst. apply goes_bind.
  assert (∀ (m : D unit), goes m s1 (λ _ s2, noted q (enable_status (st s0)) s1 s2) →
    goes m s1 (λ a s2, goes (guard_release lock) s2 (λ _ s3, noted q (enable_status (st s0)) s0 s3))) as Hend.
  { intros m Hm w a s2 w' Hrun. destruct (Hm w a s2 w' Hrun) as (i & o & Hlog2).
    apply goes_release. intros s3 (_ & Hlog3 & _). exists i, o. by rewrite Hlog3, Hlog2, Hlog1, Hlog. }
  apply Hend. destruct (Z.eqb_spec (enable_status (st s0)) STATUS_SUCCESS) as [E|E]; [|apply goes_complete].
  rewrite E. apply goes_bind, goes_write_output. intros s2 (_ & Hlog2 & _) w a s3 w' Hrun.
  destruct (goes_complete_with q STATUS_SUCCESS n s2 w a s3 w' Hrun) as (i & o & Hlog3).
  exists i, o. by rewrite Hlog3, Hlog2.
Qed.

(** A request for version 1 and supported interests is answered as the instance
    says. *)
Lemma enable_granted q b s :
  at_rest s → equipped (st s) = true → inputs s !! q = Some b → len b = size_of_AdaptiveEnableRequest →
  enable_supported (le_u32 b 0) (le_u32 b 4) = true →
  goes (handle_enable_adaptive_polling q size_of_AdaptiveEnableResponse size_of_AdaptiveEnableRequest) s
    (λ _ s', noted q (enable_status (st s)) s s').
Proof.
  intros (Hs & _ & _) Heq Hb Hlen Hsup. destruct (equipped_locks _ Heq) as (Hlock & _ & _ & Hdirect & _).
  unfold handle_enable_adaptive_polling. rewrite !Z.eqb_refl. cbn [negb andb].
  apply goes_bind. refine (goes_call (WdfRequestRetrieveInputBuffer q _) s _ _). intros w s1 A1 Ha.
  rewrite (gr_input _ Hgrant _ _ _ _ b Hb) in Ha |- *. cbn in Ha.
  destruct Ha as (b' & _ & Hsame & Hi). pose proof (Hsame b Hb) as <-.
  rewrite Hlen, !Z.eqb_refl. cbn [negb orb].
  apply goes_bind, goes_get, goes_bind, goes_from_option. intros b' Hb'.
  assert (b' = b) as ->. { rewrite (in_rest _ _ Hi) in Hb'. cbn in Hb'. rewrite lookup_insert_eq in Hb'. congruence. }
  rewrite Hsup. cbn [negb]. apply goes_bind.
  refine (goes_call (WdfRequestRetrieveOutputBuffer q _) s1 _ _). intros w2 s2 A2 _. cbn beta.
  destruct (gr_output _ Hgrant w2 q size_of_AdaptiveEnableResponse s1) as [Hst Hsize].
  destruct (e w2 _ s1).1 as [status actual]. cbn in Hst, Hsize. subst status. rewrite Z.eqb_refl.
  rewrite (proj2 (Z.ltb_ge _ _)) by lia. cbn [negb orb]. pose proof (same_trans _ _ _ A1 A2) as A12.
  apply goes_bind, goes_config, goes_bind, goes_acquire; [by rewrite (proj1 A12)|]. intros s3 A3. cbn [negb].
  apply goes_enable_guarded; [exact (same_trans _ _ _ A12 A3)|done|done].
Qed.

End granted.

Lemma quiet_grants : granting quiet_framework.
Proof. split; [exact quiet_still| | |done]; intros; cbn; [by rewrite H|]. unfold len. rewrite length_replicate. lia. Qed.
