(* ===== verification/ControlProtocol.v ===== *)
(** * The control protocol between the switch and the packet driver

    The switch ([wintap-switch]) asks the packet driver to poll adaptively; the
    two programs are built separately and share no code: each defines the layout
    of the request and of the response, the control codes, the version and the
    interests for itself.  Here the models of both sides are put together: the
    bytes the switch sends are the input of the driver's handler, and what the
    driver completes the request with is what the switch's call returns. *)

From S2P Require Import Prelude Words NtStatus Selection Completion Arguments Kernel Effects Runtime RuntimeLoop RuntimeStart RuntimeShape RuntimeSpec RuntimeOps RuntimeRun RuntimeWaits RuntimeLife RuntimeTheorems.
From S2P Require DriverConstants Conc WaitRecord WaitProtocol Datapath DatapathSpec LifecycleSpec LifecyclePower Lifecycle LifecycleHandlers LifecycleTheorems LifecycleEnable.

(** ** The structures of the switch *)

(** The switch's [AdaptiveEnableRequest] and [AdaptiveEnableResponse] are
    [repr(C)]: two little-endian words each. *)
Definition AdaptiveEnableRequest_bytes (version flags : Z) : list Z :=
  le_bytes 4 version ++ le_bytes 4 flags.

Definition AdaptiveEnableResponse_of (b : list Z) : Z * Z := (read_le b 0 4, read_le b 4 4).

Definition switch_enable_request : list Z :=
  AdaptiveEnableRequest_bytes ADAPTIVE_POLLING_PROTOCOL_VERSION ADAPTIVE_INTEREST_ALL.

(** ** Replies *)

(** What a request is completed with. *)
Record reply := { reply_status : Z; reply_information : Z; reply_output : list Z }.

(** [rp] is what the packet driver in the state [s] answers the switch's request
    with: its control callback runs under the environment [e] of the driver's
    contract and completes the request so. *)
Definition driver_replies (e : env Datapath.dev Datapath.dp_ret) (s : Datapath.dev) (rp : reply) : Prop :=
  ∃ q w s' w',
    respects DatapathSpec.dp_contract e ∧ LifecycleSpec.at_rest s ∧ q ∈ Datapath.owned s ∧
    Datapath.inputs s !! q = Some switch_enable_request ∧
    Lifecycle.evt_io_device_control true q size_of_AdaptiveEnableResponse
      (len switch_enable_request) TAP_IOCTL_ENABLE_ADAPTIVE_POLLING e s w = Some (tt, s', w') ∧
    Datapath.log s' = Datapath.Completed q (reply_status rp) (reply_information rp) (reply_output rp)
                        :: Datapath.log s.

Definition accepted (rp : reply) : bool := reply_status rp =? DriverConstants.STATUS_SUCCESS.

(** A reply carries a success only with the version and the interests the
    switch wants, and otherwise nothing. *)
Lemma driver_replies_spec e s rp : driver_replies e s rp →
  if accepted rp
  then reply_information rp = size_of_AdaptiveEnableResponse ∧
       AdaptiveEnableResponse_of (reply_output rp) = (ADAPTIVE_POLLING_PROTOCOL_VERSION, ADAPTIVE_INTEREST_ALL)
  else reply_information rp = 0.
Proof.
  intros (q & w & s' & w' & Henv & (Hs & Hg & Hl) & Hq & Hb & Hrun & Hlog).
  unfold Lifecycle.evt_io_device_control in Hrun. cbn [negb] in Hrun.
  change (TAP_IOCTL_ENABLE_ADAPTIVE_POLLING =? DriverConstants.TAP_IOCTL_ENABLE_ADAPTIVE_POLLING)
    with true in Hrun. cbn iota in Hrun.
  destruct (LifecycleHandlers.wp_enable_polling e Henv q size_of_AdaptiveEnableResponse
    (len switch_enable_request) switch_enable_request
    (λ _ s' _, ∃ l, Datapath.log s' = l ++ Datapath.log s ∧
      LifecycleHandlers.enable_outcome q switch_enable_request l) s w Hs Hg Hq Hb)
    as ([] & s1 & w1 & Hrun1 & l & Hl1 & Hout).
  { intros l s1 w1 A Hl1. exists l. split; [|done]. by rewrite (DatapathSpec.acts_log _ _ _ A). }
  rewrite Hrun1 in Hrun. injection Hrun as -> ->. rewrite Hlog in Hl1.
  destruct Hout as [status Hne|Hlen Hsup]; cbn in Hl1; injection Hl1 as Hst Hi Ho; unfold accepted; rewrite Hst.
  - by rewrite (proj2 (Z.eqb_neq _ _) Hne).
  - rewrite Z.eqb_refl, Hi, Ho. done.
Qed.

(** A driver that is left alone accepts exactly when its instance is open, does
    not poll already, and has no read pending. *)
Lemma driver_replies_status e s rp :
  LifecycleEnable.granting e → LifecyclePower.equipped (Datapath.st s) = true → driver_replies e s rp →
  reply_status rp = LifecycleTheorems.enable_status (Datapath.st s).
Proof.
  intros Hgrant Heq (q & w & s' & w' & Henv & Hs & Hq & Hb & Hrun & Hlog).
  destruct (LifecycleEnable.enable_granted e Henv Hgrant q switch_enable_request s Hs Heq Hb eq_refl eq_refl
    w tt s' w' Hrun) as (n & o & Hlog2).
  rewrite Hlog in Hlog2. by injection Hlog2.
Qed.

(** The driver always answers. *)
Lemma driver_replies_exists e s q (w : world Datapath.dp_ret) :
  respects DatapathSpec.dp_contract e → LifecycleSpec.at_rest s → q ∈ Datapath.owned s →
  Datapath.inputs s !! q = Some switch_enable_request → ∃ rp, driver_replies e s rp.
Proof.
  intros Henv Hs Hq Hb.
  assert (wp e (Lifecycle.evt_io_device_control true q size_of_AdaptiveEnableResponse (len switch_enable_request)
    TAP_IOCTL_ENABLE_ADAPTIVE_POLLING) (λ _ s' _, ∃ i n o,
      Datapath.log s' = Datapath.Completed q i n o :: Datapath.log s) s w) as ([] & s' & w' & Hrun & i & n & o & Hlog).
  { unfold Lifecycle.evt_io_device_control. cbn [negb].
    change (TAP_IOCTL_ENABLE_ADAPTIVE_POLLING =? DriverConstants.TAP_IOCTL_ENABLE_ADAPTIVE_POLLING)
      with true. cbn iota.
    eapply (LifecycleHandlers.wp_enable_polling e Henv); [apply Hs|apply Hs|done|exact Hb|].
    intros l s1 w1 A Hl. pose proof (DatapathSpec.acts_log _ _ _ A) as E. destruct Hl; by do 3 eexists. }
  exists {| reply_status := i; reply_information := n; reply_output := o |}. by exists q, w, s', w'.
Qed.

(** ** The I/O manager *)

Section io_manager.
(** [RtlNtStatusToDosError]. *)
Context (win32 : Z → Z).

(** The caller of a request for [h] sees the reply: on success the number of
    bytes and their contents, otherwise the error. *)
Definition completes (rp : reply) (result bytes : Z) (s' : sys) : Prop :=
  if result =? 0
  then NT_SUCCESS (reply_status rp) = false ∧ last_error (kern s') = win32 (reply_status rp)
  else NT_SUCCESS (reply_status rp) = true ∧ bytes = reply_information rp ∧
       local_response s' = AdaptiveEnableResponse_of (reply_output rp).

Definition delivered (rp : Z → option reply) (c : os_call) : os_ret c → sys → sys → Prop :=
  match c with
  | DeviceIoControl h code input LocalOverlapped => λ r s s', ∀ p, rp h = Some p →
      code = TAP_IOCTL_ENABLE_ADAPTIVE_POLLING → input = ADAPTIVE_INTEREST_ALL →
      (r.1 = 0 ∧ last_error (kern s') = ERROR_IO_PENDING) ∨ completes p r.1 r.2 s'
  | GetOverlappedResult h LocalOverlapped true => λ r s s', ∀ p, rp h = Some p → completes p r.1 r.2 s'
  | _ => λ r s s', local_response s' = local_response s
  end.

(** The endpoints [h] are served by drivers that reply [rp h], and events can
    be created. *)
Record served (rp : Z → option reply) (e : env sys os_ret) : Prop := {
  served_delivered w c s : delivered rp c (e w c s).1 s (e w c s).2;
  served_events w s : (e w CreateEventW s).1 ≠ 0;
}.

(** What the switch makes of a reply. *)
Definition verdict (rp : reply) : result AdaptiveEndpointCapability error :=
  if accepted rp
  then Ok (Supported ADAPTIVE_POLLING_PROTOCOL_VERSION ADAPTIVE_INTEREST_ALL)
  else if NT_SUCCESS (reply_status rp)
  then Err (Failure "adaptive enable returned an invalid response size" [])
  else if is_adaptive_unsupported (win32 (reply_status rp)) then Ok Unsupported
  else Err (Failure "adaptive enable failed with Win32 error" [win32 (reply_status rp)]).

Context (e : env sys os_ret) (Henv : respects os_contract e).
Context (rp : Z → option reply) (Hserved : served rp e).

(** A call with all that is known of its answer. *)
Lemma wp_served c Q s w :
  (∀ s', delivered rp c (e w c s).1 s s' → answer c (e w c s).1 (kern s) (kern s') →
     Q (e w c s).1 s' (existT c (e w c s).1 :: w)) →
  wp e (do_call (S:=sys) (ret:=os_ret) c) Q s w.
Proof.
  intros HQ. exists (e w c s).1, (e w c s).2. eexists. split; [reflexivity|].
  apply HQ; [apply (served_delivered _ _ Hserved)|apply (Henv w c s)].
Qed.

#[local] Ltac served :=
  lazymatch goal with
  | |- wp ?e (do_call ?c ≫= _) ?Q ?s ?w => apply wp_bind; refine (wp_served c _ s w _)
  end.

Definition reply_result (p : reply) : result Z Z :=
  if NT_SUCCESS (reply_status p) then Ok (reply_information p) else Err (win32 (reply_status p)).

Lemma completes_spec p r b s : completes p r b s →
  if r =? 0 then NT_SUCCESS (reply_status p) = false ∧ reply_result p = Err (last_error (kern s))
  else NT_SUCCESS (reply_status p) = true ∧ reply_result p = Ok b ∧
       local_response s = AdaptiveEnableResponse_of (reply_output p).
Proof.
  unfold completes, reply_result. destruct (r =? 0).
  - intros [-> ->]. done.
  - intros (-> & -> & ->). done.
Qed.

Lemma wp_synchronous_reply h p Q s w :
  rp h = Some p → local_outstanding (kern s) = false →
  (∀ s' w', local_outstanding (kern s') = false →
     (NT_SUCCESS (reply_status p) = true → local_response s' = AdaptiveEnableResponse_of (reply_output p)) →
     Q (reply_result p) s' w') →
  wp e (synchronous_device_control h TAP_IOCTL_ENABLE_ADAPTIVE_POLLING ADAPTIVE_INTEREST_ALL) Q s w.
Proof.
  intros Hp Ho HQ. unfold synchronous_device_control. served. intros s1 _ A1.
  assert (local_outstanding (kern s1) = false) as Ho1.
  { cbn in A1. destruct (_ =? 0); [rewrite A1; exact Ho|]. destruct A1 as [_ ->]. exact Ho. }
  set (ev := (e w CreateEventW s).1).
  rewrite (proj2 (Z.eqb_neq _ _) (served_events _ _ Hserved w s) : (ev =? 0) = false).
  (* what is left once the result is known *)
  assert (∀ r s2 w2, r = reply_result p → local_outstanding (kern s2) = false →
    (NT_SUCCESS (reply_status p) = true → local_response s2 = AdaptiveEnableResponse_of (reply_output p)) →
    wp e (_ ← do_call (S:=sys) (ret:=os_ret) (CloseHandle ev); _ ← not_outstanding LocalOverlapped; mret r) Q s2 w2)
    as Hend.
  { intros r s2 w2 -> Ho2 Hr2. served. intros s3 D3 A3. cbn in D3, A3.
    assert (local_outstanding (kern s3) = false) as Ho3 by (rewrite A3; exact Ho2).
    apply wp_not_outstanding; [exact Ho3|]. apply wp_ret. apply HQ; [exact Ho3|]. by rewrite D3. }
  served. intros s2 D2 A2. set (c := (e _ _ s1).1) in *. clearbody c. cbn in D2, A2.
  specialize (D2 p Hp eq_refl eq_refl). unfold device_io_control in A2. apply wp_bind.
  destruct (Z.eqb_spec c.1 0) as [Hc|Hc]; cbn [negb] in *.
  2: { apply wp_ret. destruct D2 as [[? _]|D2]; [done|]. apply completes_spec in D2.
       rewrite (proj2 (Z.eqb_neq _ _) Hc) in D2. destruct D2 as (_ & Hr & Hl). apply Hend; [by rewrite Hr|by rewrite A2|done]. }
  served. intros s3 D3 [-> A3]. cbn in D3.
  destruct (Z.eqb_spec (last_error (kern s2)) ERROR_IO_PENDING) as [Ep|Ep]; cbn [negb].
  - served. intros s4 D4 A4. set (g := (e _ _ s3).1) in *. clearbody g. cbn in D4, A4.
    specialize (D4 p Hp). apply completes_spec in D4. unfold overlapped_result in A4. cbn in A4.
    assert (local_outstanding (kern s4) = false) as Ho4 by (by rewrite A4).
    destruct (g.1 =? 0).
    + destruct D4 as (Hn & Hr). served. intros s5 D5 [-> A5]. apply wp_ret, Hend.
      * by rewrite Hr.
      * by rewrite A5.
      * by rewrite Hn.
    + destruct D4 as (Hn & Hr & Hl). by apply wp_ret, Hend.
  - apply wp_ret. destruct D2 as [[_ ?]|D2]; [done|]. apply completes_spec in D2.
    rewrite Hc in D2. destruct D2 as (Hn & Hr). apply Hend.
    + by rewrite Hr.
    + rewrite A3, A2. exact Ho1.
    + by rewrite Hn.
Qed.

Lemma wp_negotiate_reply ep p Q s w :
  rp (handle ep) = Some p → (∃ ed sd, driver_replies ed sd p) → local_outstanding (kern s) = false →
  (∀ s' w', local_outstanding (kern s') = false → Q (verdict p) s' w') →
  wp e (negotiate_adaptive_endpoint ep) Q s w.
Proof.
  intros Hp (ed & sd & Hd) Ho HQ. apply driver_replies_spec in Hd. unfold negotiate_adaptive_endpoint. wp_get. wp_put.
  apply wp_bind. apply (wp_synchronous_reply (handle ep) p); [done|exact Ho|]. intros s1 w1 Ho1 Hl.
  unfold reply_result, verdict in *. unfold accepted in *.
  assert (∀ (r : result AdaptiveEndpointCapability error) s2 w2, local_outstanding (kern s2) = false →
    (∀ s3 w3, local_outstanding (kern s3) = false → Q r s3 w3) →
    wp e (_ ← do_call (S:=sys) (ret:=os_ret) Eprintln; mret r) Q s2 w2) as Hprint.
  { intros r s2 w2 Ho2 Hr. served. intros s3 _ A3. cbn in A3. apply wp_ret, Hr. by rewrite A3. }
  destruct (Z.eqb_spec (reply_status p) DriverConstants.STATUS_SUCCESS) as [Hst|Hst].
  - destruct Hd as [Hi Hout]. rewrite Hst in *. cbn in Hl |- *. rewrite Hi, Z.eqb_refl. cbn [negb].
    wp_get. rewrite (Hl eq_refl), Hout. cbn iota beta. rewrite !Z.eqb_refl. cbn [negb orb].
    served. intros s3 _ A3. cbn in A3. apply wp_ret, HQ. by rewrite A3.
  - destruct (NT_SUCCESS (reply_status p)).
    + rewrite Hd. apply wp_ret, HQ, Ho1.
    + destruct (is_adaptive_unsupported (win32 (reply_status p))); [by apply Hprint|]. by apply wp_ret, HQ.
Qed.

Lemma wp_negotiation e0 e1 p0 p1 s w :
  rp (handle e0) = Some p0 → rp (handle e1) = Some p1 →
  (∃ ed sd, driver_replies ed sd p0) → (∃ ed sd, driver_replies ed sd p1) → local_outstanding (kern s) = false →
  wp e (negotiate_adaptive_polling [e0; e1]) (λ r _ _,
    (r = Ok (true, false) ↔ accepted p0 = true ∧ accepted p1 = true) ∧
    (∀ adaptive reopen, r = Ok (adaptive, reopen) → reopen = xorb (accepted p0) (accepted p1))) s w.
Proof.
  intros Hp0 Hp1 Hd0 Hd1 Ho. unfold negotiate_adaptive_polling. eapply wp_index; [done|]. apply wp_bind_ok.
  apply (wp_negotiate_reply e0 p0); [done..|]. intros s1 w1 Ho1.
  assert (∀ c, (if accepted p0 then c = Supported ADAPTIVE_POLLING_PROTOCOL_VERSION ADAPTIVE_INTEREST_ALL
                else c = Unsupported) →
    wp e (e1 ← index [e0; e1] 1; second ←? negotiate_adaptive_endpoint e1;
          mret (Ok (bool_decide (is_Some (select_adaptive_polling [c; second])),
            negb (bool_decide (is_Some (select_adaptive_polling [c; second]))) &&
            (is_supported c || is_supported second)))) (λ r _ _,
    (r = Ok (true, false) ↔ accepted p0 = true ∧ accepted p1 = true) ∧
    (∀ adaptive reopen, r = Ok (adaptive, reopen) → reopen = xorb (accepted p0) (accepted p1))) s1 w1) as Hsecond.
  { intros c Hc. eapply wp_index; [done|]. apply wp_bind_ok.
    apply (wp_negotiate_reply e1 p1); [done..|]. intros s2 w2 Ho2. unfold verdict.
    destruct (accepted p0), (accepted p1); subst c; repeat case_match; simplify_eq;
      first [apply wp_ret; naive_solver|naive_solver]. }
  unfold verdict. destruct (accepted p0) eqn:A0; [by apply Hsecond|].
  destruct (NT_SUCCESS _); [split; [split; [done|by intros []]|done]|].
  destruct (is_adaptive_unsupported _); [by apply Hsecond|split; [split; [done|by intros []]|done]].
Qed.

End io_manager.

(** C8: the two programs agree on adaptive polling.  Each endpoint's driver
    answers the bytes the switch sends in some run of its control callback, and
    the I/O manager brings the answer back, at once or later.  Then the switch's
    negotiation never finds an incompatible driver, and
    - it polls adaptively exactly when both drivers accepted;
    - otherwise, if it goes on, it opens the endpoints again exactly when one
      of the drivers accepted, so none is left polling for a switch that reads;
    - drivers left alone by others accept exactly when they are open, do not
      poll already, and have no read pending. *)
Theorem negotiation_agrees (win32 : Z → Z) (e : env sys os_ret) (rp : Z → option reply)
    (d0 d1 : env Datapath.dev Datapath.dp_ret) (s0 s1 : Datapath.dev)
    (e0 e1 : Endpoint) (p0 p1 : reply) (s : sys) (w : world os_ret)
    (Henv : respects os_contract e) (Hserved : served win32 rp e)
    (Hp0 : rp (handle e0) = Some p0) (Hp1 : rp (handle e1) = Some p1)
    (Hd0 : driver_replies d0 s0 p0) (Hd1 : driver_replies d1 s1 p1)
    (Ho : local_outstanding (kern s) = false) :
  wp e (negotiate_adaptive_polling [e0; e1]) (λ r _ _,
    (r = Ok (true, false) ↔ accepted p0 = true ∧ accepted p1 = true) ∧
    (∀ adaptive reopen, r = Ok (adaptive, reopen) → reopen = xorb (accepted p0) (accepted p1)) ∧
    (LifecycleEnable.granting d0 → LifecyclePower.equipped (Datapath.st s0) = true →
     LifecycleEnable.granting d1 → LifecyclePower.equipped (Datapath.st s1) = true →
     (r = Ok (true, false) ↔
        LifecycleTheorems.enable_status (Datapath.st s0) = DriverConstants.STATUS_SUCCESS ∧
        LifecycleTheorems.enable_status (Datapath.st s1) = DriverConstants.STATUS_SUCCESS))) s w.
Proof.
  eapply wp_mono; [by eapply (wp_negotiation win32 e Henv rp Hserved e0 e1 p0 p1); eauto|].
  intros r _ _ [Hr Hreopen]. split; [done|]. split; [done|]. intros G0 E0 G1 E1. rewrite Hr. unfold accepted.
  by rewrite (driver_replies_status d0 s0 p0), (driver_replies_status d1 s1 p1), !Z.eqb_eq.
Qed.

(** ** An example: two idle drivers *)

Definition acceptance : reply :=
  {| reply_status := DriverConstants.STATUS_SUCCESS; reply_information := 8;
     reply_output := [1; 0; 0; 0; 3; 0; 0; 0] |}.

Lemma idle_driver_accepts :
  driver_replies DatapathTheorems.quiet_framework LifecycleTheorems.enable_dev acceptance.
Proof.
  exists 5, [].
  assert (option_map (λ x, Datapath.log x.1.2)
    (Lifecycle.evt_io_device_control true 5 size_of_AdaptiveEnableResponse (len switch_enable_request)
      TAP_IOCTL_ENABLE_ADAPTIVE_POLLING DatapathTheorems.quiet_framework LifecycleTheorems.enable_dev [])
    = Some [Datapath.Completed 5 DriverConstants.STATUS_SUCCESS 8 [1; 0; 0; 0; 3; 0; 0; 0]]) as H
    by (vm_compute; reflexivity).
  destruct (Lifecycle.evt_io_device_control _ _ _ _ _ _ _ []) as [[[[] s2] w2]|]; [|discriminate H].
  exists s2, w2. injection H as H. split_and!;
    [exact DatapathTheorems.quiet_framework_respects|exact LifecycleTheorems.example_at_rest|
     exact (proj2 (elem_of_singleton 5 5) eq_refl)|reflexivity..|rewrite H; reflexivity].
Qed.

(** Both endpoints answer at once with an acceptance. *)
Definition accepting : env sys os_ret := λ w c,
  match c return sys → os_ret c * sys with
  | DeviceIoControl _ _ _ LocalOverlapped => λ s, ((1, 8), s <| local_response := (1, 3) |>)
  | GetOverlappedResult _ LocalOverlapped true => λ s,
      ((1, 8), s <| local_response := (1, 3) |> <| kern := set_outstanding LocalOverlapped false (kern s) |>)
  | c => ideal w c
  end.

Lemma accepting_respects : respects os_contract accepting.
Proof.
  intros w c s. destruct c; try exact (ideal_respects w _ s).
  - destruct o; [exact (ideal_respects w _ s)|]. by split.
  - destruct o; [exact (ideal_respects w _ s)|]. destruct wait; [|exact (ideal_respects w _ s)].
    split; [by split|]. unfold answer, overlapped_result. cbn. by destruct (kern s).
Qed.

Lemma accepting_served : served (λ status, status) (λ _, Some acceptance) accepting.
Proof.
  split; [|intros w s; exact (proj1 (proj2 (fresh_handle_spec (kern s))))].
  intros w c s. destruct c; try reflexivity.
  - destruct o; [reflexivity|]. intros p [= <-] _ _. right. done.
  - destruct o; [reflexivity|]. destruct wait; [|reflexivity]. intros p [= <-]. done.
Qed.

Lemma negotiation_agrees_witness : ∃ s' w',
  negotiate_adaptive_polling (endpoints small_runtime) accepting small_process [] = Some (Ok (true, false), s', w').
Proof.
  destruct (negotiation_agrees (λ status, status) accepting (λ _, Some acceptance)
    DatapathTheorems.quiet_framework DatapathTheorems.quiet_framework
    LifecycleTheorems.enable_dev LifecycleTheorems.enable_dev
    (new_endpoint 1 {| config_guid := []; interface_path := [] |} 11)
    (new_endpoint 2 {| config_guid := []; interface_path := [] |} 12) acceptance acceptance small_process []
    accepting_respects accepting_served eq_refl eq_refl idle_driver_accepts idle_driver_accepts eq_refl)
    as (r & s' & w' & Hrun & _ & _ & Hfree).
  exists s', w'. rewrite (proj2 (Hfree LifecycleEnable.quiet_grants eq_refl LifecycleEnable.quiet_grants eq_refl)
    (conj eq_refl eq_refl)) in Hrun. exact Hrun.
Defined.

(** ** Statuses of reads and writes *)

(** The I/O ring reports a failed operation as the status with the facility
    bit of NT statuses. *)
Definition HRESULT_FROM_NT (status : Z) : Z := as_i32 (Z.lor (wrap 32 status) 0x10000000).

(** The statuses the packet driver completes reads and writes with, its own and
    WDF's for a cancelled request. *)
Definition driver_statuses : list Z :=
  [DriverConstants.STATUS_SUCCESS; DriverConstants.STATUS_DEVICE_NOT_READY;
   DriverConstants.STATUS_INSUFFICIENT_RESOURCES; DriverConstants.STATUS_INVALID_PARAMETER;
   DriverConstants.STATUS_INVALID_BUFFER_SIZE; DriverConstants.STATUS_BUFFER_TOO_SMALL;
   DriverConstants.STATUS_NOT_SUPPORTED; DriverConstants.STATUS_NO_MORE_ENTRIES;
   DriverConstants.STATUS_DEVICE_BUSY; DriverConstants.STATUS_CANCELLED;
   DriverConstants.STATUS_INVALID_DEVICE_REQUEST].

(** The switch takes exactly the driver's "busy" for busy and its "nothing to
    read" for empty. *)
Theorem statuses_understood status : status ∈ driver_statuses →
  is_device_busy (HRESULT_FROM_NT status) = (status =? DriverConstants.STATUS_DEVICE_BUSY) ∧
  is_no_more_entries (HRESULT_FROM_NT status) = (status =? DriverConstants.STATUS_NO_MORE_ENTRIES).
Proof.
  revert status. apply Forall_forall. unfold driver_statuses.
  repeat (apply Forall_cons; split; [split; vm_compute; reflexivity|]). by apply Forall_nil.
Qed.

Import Conc.

(** ** Requests to wait

    The switch's [AdaptiveWaitRequest], two words again, and what the driver
    reads of it. *)

Definition AdaptiveWaitRequest_bytes (version interest : Z) : list Z :=
  le_bytes 4 version ++ le_bytes 4 interest.

Definition wait_input_of (b : list Z) : WaitProtocol.wait_input :=
  {| WaitProtocol.input_status := DriverConstants.STATUS_SUCCESS;
     WaitProtocol.actual_input_length := len b;
     WaitProtocol.version := read_le b 0 4; WaitProtocol.interest := read_le b 4 4 |}.

(** The interests of an endpoint: always readability, and writability while a
    write to it is backpressured ([adaptive_interest_for_endpoint]). *)
Definition switch_interest (backpressured : bool) : Z :=
  Z.lor ADAPTIVE_INTEREST_READABLE (if backpressured then ADAPTIVE_INTEREST_WRITABLE else 0).

(** The driver refuses none of the switch's wait requests for its form: what is
    left of its handler asks only for the state of the device. *)
Theorem wait_request_understood fuel state request b :
  let wait := wait_input_of (AdaptiveWaitRequest_bytes ADAPTIVE_POLLING_PROTOCOL_VERSION (switch_interest b)) in
  WaitProtocol.interest wait = switch_interest b ∧
  WaitProtocol.handle_wait_for_change fuel state request DriverConstants.size_of_AdaptiveWaitResponse
    (len (AdaptiveWaitRequest_bytes ADAPTIVE_POLLING_PROTOCOL_VERSION (switch_interest b))) wait =
  (current ← WaitProtocol.wact WaitProtocol.LoadLifecycle;
   ready ← (if negb (current =? DriverConstants.INSTANCE_OPEN) then mret false
            else WaitProtocol.wait_interest_queues_started state (switch_interest b));
   if negb (ready : bool)
   then WaitProtocol.complete_request request DriverConstants.STATUS_DEVICE_NOT_READY
   else
     enabled ← WaitProtocol.wact WaitProtocol.LoadAdaptive;
     if negb (enabled : bool)
     then WaitProtocol.complete_request request DriverConstants.STATUS_INVALID_DEVICE_REQUEST
     else WaitProtocol.register_wait fuel state wait request).
Proof. by destruct b. Qed.
