(* ===== verification/Relay.v ===== *)
(** * A frame on its way through the three programs

    The packet driver of one endpoint completes the switch's read with a
    captured frame or a packet of its transmit ring, the I/O ring brings the completion and the bytes to the
    switch, the switch forwards the frame and has the same buffer written to
    the other endpoint, and that endpoint's driver queues the bytes for
    injection.  The models of both sides are put together here; what is
    assumed is what the I/O ring does between them. *)

From S2P Require Import Prelude Words Forwarding BufferPool Selection Completion Arguments Kernel Effects Runtime RuntimeLoop RuntimeStart RuntimeShape RuntimeSpec RuntimeOps RuntimeRun RuntimeWaits RuntimeLife RuntimeTheorems ControlProtocol.
From S2P Require DriverConstants FrameQueue Datapath DatapathPaths DatapathSpec DatapathRings DatapathRequests DatapathTransmit DatapathTheorems LifecycleTheorems.

(** ** The reading driver

    A read is answered by [evt_io_read] itself, by the passive worker if it
    waited, or by the transmit callback that delivers a packet to it. *)

(** The frame [f] was taken from the capture queue. *)
Definition taken_from_queue (f : FrameQueue.Frame) (l : list Datapath.note) : Prop :=
  Datapath.Queued Datapath.Capture FrameQueue.QDequeue
    {| FrameQueue.answer := Ok tt; FrameQueue.handed_out := Some f; FrameQueue.dropped := [] |} ∈ l.

(** [bytes] is what the network stack sent: the bytes of a frame that was
    captured before, or those of the [j]-th packet of the transmit ring of the
    state [s]. *)
Inductive frame_source (s : Datapath.dev) (bytes : list Z) (l : list Datapath.note) : Prop :=
  | from_queue f : taken_from_queue f l → FrameQueue.as_bytes f = Some bytes → frame_source s bytes l
  | from_packet B rp rf j k :
      DatapathRings.rings_ok B (DatapathRings.memory_of s) rp rf → 0 ≤ j < DatapathRings.distance rp →
      Datapath.packets s !! DatapathRings.element_address rp (DatapathRings.nth_index rp j) = Some k →
      DatapathTransmit.usable (Datapath.frame_maximum (Datapath.st s)) (DatapathRings.memory_of s) rf k bytes →
      frame_source s bytes l.

(** [p] answers a read: a callback of the packet driver runs in the state [s]
    under an environment of the driver's contract, leaves the notes [l], and completes a
    request with [p]. *)
Inductive read_replies (s : Datapath.dev) (p : reply) (l : list Datapath.note) : Prop :=
  | replies_read (e : env Datapath.dev Datapath.dp_ret) fuel q w s' w' :
      respects DatapathSpec.dp_contract e → DatapathSpec.idle s → q ∈ Datapath.owned s →
      DatapathPaths.evt_io_read fuel true q e s w = Some (Some tt, s', w') →
      Datapath.log s' = l ++ Datapath.log s →
      Datapath.Completed q (reply_status p) (reply_information p) (reply_output p) ∈ l → read_replies s p l
  | replies_worker (e : env Datapath.dev Datapath.dp_ret) fuel q w s' w' :
      respects DatapathSpec.dp_contract e → DatapathSpec.idle s →
      DatapathPaths.evt_read_completion_work_item fuel true e s w = Some (Some tt, s', w') →
      Datapath.log s' = l ++ Datapath.log s →
      Datapath.Completed q (reply_status p) (reply_information p) (reply_output p) ∈ l → read_replies s p l
  | replies_transmit B (e : env Datapath.dev Datapath.dp_ret) q rp rf w s' w' :
      respects DatapathSpec.dp_contract e → DatapathSpec.idle s →
      DatapathRings.rings_ok B (DatapathRings.memory_of s) rp rf →
      fits usize_bits (Datapath.frame_maximum (Datapath.st s)) →
      Datapath.legacy_direct_read_lock (Datapath.st s) ∉ Datapath.guards s →
      DatapathPaths.evt_packet_queue_advance B (Some (true, true)) e s w = Some (tt, s', w') →
      Datapath.log s' = l ++ Datapath.log s →
      Datapath.Completed q (reply_status p) (reply_information p) (reply_output p) ∈ l → read_replies s p l.

(** One goal for each note of a list that [H] says a note is in. *)
#[local] Ltac each_note H :=
  repeat first
    [ apply not_elem_of_nil in H; contradiction
    | apply elem_of_app in H as [H|H]
    | apply elem_of_cons in H as [H|H]; [try discriminate H|] ].

Lemma no_completion_enqueued n f r l q st i o : DatapathSpec.enqueue_notes n f r l →
  Datapath.Completed q st i o ∉ l.
Proof. intros H Hin. destruct r as [[]|x]; cbn in H; [subst|destruct H; subst]; each_note Hin. Qed.

Lemma no_completion_dequeued n o l q st i b : DatapathSpec.dequeue_notes n o l →
  Datapath.Completed q st i b ∉ l.
Proof. intros H Hin. destruct o; cbn in H; [destruct H as [_ ->]|destruct H as [->| ->]]; each_note Hin. Qed.

Definition success_in (q i : Z) (o : list Z) (l : list Datapath.note) : Prop :=
  Datapath.Completed q DriverConstants.STATUS_SUCCESS i o ∈ l.

Lemma served_reply q q' f l l0 i o :
  DatapathSpec.dequeue_notes Datapath.Capture (Some f) l0 → DatapathRequests.read_served q f l →
  success_in q' i o l → taken_from_queue f l0 ∧ FrameQueue.as_bytes f = Some o ∧ i = len o.
Proof.
  intros [_ ->] [(bytes & Hb & ->)|(status & l' & Hne & -> & [r Hd])] Hin; unfold success_in in Hin; each_note Hin.
  - injection Hin as _ -> ->. split; [by left|]. done.
  - by injection Hin as _ <-.
  - by apply (no_completion_enqueued _ _ _ _ _ _ _ _ Hd) in Hin.
Qed.

(** A source of a part of the notes is one of all. *)
Lemma frame_source_mono s bytes l l' : (∀ x, x ∈ l → x ∈ l') → frame_source s bytes l → frame_source s bytes l'.
Proof. intros Hl [f Hf Hb|B rp rf j k Hr Hj Hk Hu]; [eapply from_queue|eapply from_packet]; unfold taken_from_queue in *; eauto. Qed.

Lemma outcome_reply s q l i o : DatapathRequests.read_outcome q l → success_in q i o l →
  frame_source s o l ∧ i = len o.
Proof.
  intros Hread Hin. unfold success_in in Hin.
  destruct Hread as [status Hst|l Hd|f l l' Hd Hl|f l l' Hd Hl|target l Hd|status l Hst Hd]; each_note Hin.
  all: try (by apply (no_completion_dequeued _ _ _ _ _ _ _ Hd) in Hin).
  - injection Hin as <- _ _. by destruct Hst.
  - destruct (served_reply _ _ _ _ _ _ _ Hd Hl Hin) as (Ht & Hb & Hi). split; [|done].
    eapply from_queue; [|done]. apply elem_of_app. by right.
  - destruct (served_reply _ _ _ _ _ _ _ Hd Hl Hin) as (Ht & Hb & Hi). split; [|done].
    eapply from_queue; [|done]. unfold taken_from_queue. rewrite !elem_of_app. tauto.
  - by injection Hin as <- _ _.
Qed.

Lemma worked_reply s q l i o : DatapathRequests.worked l → success_in q i o l → frame_source s o l ∧ i = len o.
Proof.
  induction 1 as [|q' l l' Hw IH Hr]; intros Hin; unfold success_in in Hin; each_note Hin.
  - destruct Hr as [f l1 l2 Hd Hl|target l1 Hd|status l1 Hst Hd]; each_note Hin.
    all: try (by apply (no_completion_dequeued _ _ _ _ _ _ _ Hd) in Hin).
    + destruct (served_reply _ _ _ _ _ _ _ Hd Hl Hin) as (Ht & Hb & Hi). split; [|done].
      eapply from_queue; [|done]. unfold taken_from_queue. rewrite !elem_of_app. tauto.
    + by injection Hin as _ <-.
  - destruct (IH Hin) as [Hs Hi]. split; [|done]. eapply frame_source_mono; [|exact Hs].
    intros x Hx. apply elem_of_app. by right.
Qed.

Lemma direct_reply b r q d i o : DatapathTransmit.direct_notes b r d → success_in q i o d →
  r = true ∧ o = b ∧ i = len b.
Proof.
  intros Hd Hin. unfold success_in in Hin. destruct r; cbn in Hd.
  - destruct Hd as [q' ->]. each_note Hin. by injection Hin as _ -> ->.
  - destruct Hd as [->|(q' & status & Hne & ->)]; each_note Hin. by injection Hin as _ <-.
Qed.

Lemma packet_reply b q l i o : DatapathTransmit.packet_notes b l → success_in q i o l → o = b ∧ i = len b.
Proof.
  intros Hp Hin. unfold success_in in Hin.
  destruct Hp as [d Hd|d f0 f r l Hd _ _ He|d f0 f Hd _|d Hd]; each_note Hin.
  all: try (by destruct (direct_reply _ _ _ _ _ _ Hd Hin) as (E & ? & ?)).
  by apply (no_completion_enqueued _ _ _ _ _ _ _ _ He) in Hin.
Qed.

Lemma advanced_reply B s pool p f l m q i o :
  DatapathRings.rings_ok B (DatapathRings.memory_of s) p f →
  DatapathTransmit.advanced B (Datapath.frame_maximum (Datapath.st s)) pool (DatapathRings.memory_of s) p f l m → success_in q i o l → frame_source s o l ∧ i = len o.
Proof.
  intros Hr0.
  assert (∀ ls m l', DatapathTransmit.transmitted B (Datapath.frame_maximum (Datapath.st s)) (DatapathRings.memory_of s)
      p f ls m → success_in q i o (concat (rev ls)) →
    frame_source s o l' ∧ i = len o) as Hall.
  { intros ls m1 l' Ht Hin. unfold success_in in Hin. rewrite list_elem_of_In in Hin.
    apply in_concat in Hin as (x & Hx & Hin). rewrite <- in_rev, <- list_elem_of_In in Hx.
    rewrite <- list_elem_of_In in Hin. apply list_elem_of_lookup in Hx as [j Hj].
    pose proof (lookup_lt_Some _ _ _ Hj) as Hlt. pose proof (DatapathTransmit.tm_length _ _ _ _ _ _ _ Ht) as Hlen.
    destruct (DatapathTransmit.tm_done _ _ _ _ _ _ _ Ht j x Hj) as (k & marked & Hk & _ & Hr).
    destruct Hr as [|b mk l2 Hus Hl2]; [by apply not_elem_of_nil in Hin|].
    destruct (packet_reply _ _ _ _ _ Hl2 Hin) as [-> ->]. split; [|done].
    eapply from_packet; [exact Hr0| |exact Hk|exact Hus]. unfold len in Hlen. lia. }
  intros [[-> _]|H] Hin; [by apply not_elem_of_nil in Hin|].
  destruct H as [ls m1 Ht Hd|ls m1 k b d Ht Hp Hk Hu Hd|ls m1 k Ht Hk Hi]; [by eapply Hall| |by eapply Hall].
  apply elem_of_app in Hin as [Hin|Hin]; [|by eapply Hall].
  by destruct (direct_reply _ _ _ _ _ _ Hd Hin) as (E & ? & ?).
Qed.

(** A successful read carries the bytes of one frame of the network stack, and
    their number. *)
Lemma read_replies_spec s p l : read_replies s p l → reply_status p = DriverConstants.STATUS_SUCCESS →
  frame_source s (reply_output p) l ∧ reply_information p = len (reply_output p).
Proof.
  intros [e fuel q w s' w' Henv Hs Hq Hrun Hlog Hin|e fuel q w s' w' Henv Hs Hrun Hlog Hin
         |B e q rp rf w s' w' Henv Hs Hr Hm Hg Hrun Hlog Hin] Hok; rewrite Hok in Hin.
  - destruct (DatapathRequests.wp_evt_io_read e Henv fuel true q (λ r s' _, r = Some tt → ∃ l,
      Datapath.log s' = l ++ Datapath.log s ∧ DatapathRequests.read_outcome q l) s w Hs Hq)
      as (r & s1 & w1 & Hrun1 & Hout); [done| |].
    { intros l1 s1 w1 A Hl1 _. exists l1. split; [by rewrite (DatapathSpec.acts_log _ _ _ A)|done]. }
    rewrite Hrun in Hrun1. injection Hrun1 as <- <- <-. destruct (Hout eq_refl) as (l1 & Hlog1 & Hread).
    rewrite Hlog in Hlog1. apply app_inv_tail in Hlog1 as <-. by eapply outcome_reply.
  - destruct (DatapathRequests.wp_evt_read_completion_work_item e Henv 0 fuel true (λ r s' _, r = Some tt → ∃ l,
      Datapath.log s' = l ++ Datapath.log s ∧ DatapathRequests.worked l) s w Hs)
      as (r & s1 & w1 & Hrun1 & Hout); [done| |].
    { intros l1 s1 w1 A Hl1 _. exists l1. split; [by rewrite (DatapathSpec.acts_log _ _ _ A)|done]. }
    rewrite Hrun in Hrun1. injection Hrun1 as <- <- <-. destruct (Hout eq_refl) as (l1 & Hlog1 & Hread).
    rewrite Hlog in Hlog1. apply app_inv_tail in Hlog1 as <-. by eapply worked_reply.
  - destruct (DatapathTransmit.wp_advance_transmit B e Henv (DatapathRings.memory_of s) rp rf (λ _ s' _, ∃ l m,
      Datapath.log s' = l ++ Datapath.log s ∧ DatapathTransmit.advanced B (Datapath.frame_maximum (Datapath.st s))
        (Datapath.frame_pool (Datapath.st s)) (DatapathRings.memory_of s) rp rf l m) s w)
      as (r & s1 & w1 & Hrun1 & l1 & m1 & Hlog1 & Hadv); [done..| |].
    { intros l1 m1 s1 w1 D Hl1. exists l1, m1. split; [exact (DatapathSpec.acts_log _ _ _ D)|done]. }
    rewrite Hrun in Hrun1. injection Hrun1 as <- <-. rewrite Hlog in Hlog1. apply app_inv_tail in Hlog1 as <-.
    by eapply advanced_reply.
Qed.

(** ** The I/O ring *)

Lemma HRESULT_from_error status : HRESULT_FROM_NT status ≠ S_OK.
Proof.
  unfold HRESULT_FROM_NT, as_i32, S_OK. assert (fits 32 (wrap 32 status)) as Hw by (by apply wrap_fits).
  pose proof (fits_lor 32 _ 0x10000000 ltac:(lia) Hw ltac:(done)) as [H0 H1].
  destruct (Z.eqb_spec (Z.lor (wrap 32 status) 0x10000000) 0) as [E|E].
  - apply Z.lor_eq_0_iff in E as [_ E]. done.
  - split_if; bool_reflect; lia.
Qed.

(** The next completion the ring reports belongs to the read [a] of slot [i],
    which was answered with [p]: it carries the number of bytes, and the bytes
    are in the slot's buffer; or it carries the error. *)
Record ring_completes (p : reply) (e : env sys os_ret) (s : sys) (w : world os_ret) (i : nat)
    (a : ActiveOperation) : Prop := {
  rc_popped : (e w (PopIoRingCompletion (ring (rt s))) s).1.1 = S_OK;
  rc_operation : user_data (e w (PopIoRingCompletion (ring (rt s))) s).1.2 = op_user_data a;
  rc_information : information (e w (PopIoRingCompletion (ring (rt s))) s).1.2 = reply_information p;
  rc_result : result_code (e w (PopIoRingCompletion (ring (rt s))) s).1.2 =
    if reply_status p =? DriverConstants.STATUS_SUCCESS then S_OK else HRESULT_FROM_NT (reply_status p);
  rc_bytes : reply_status p = DriverConstants.STATUS_SUCCESS →
    ∃ b, buffers (e w (PopIoRingCompletion (ring (rt s))) s).2 !! i = Some b ∧
      slice b 0 (len (reply_output p)) = Some (reply_output p);
}.

Section switch.
Context (e : env sys os_ret) (Henv : respects os_contract e).
Context (g : geometry) (Hg : geometry_ok g).

(** A pop with all that is known of its answer. *)
Lemma wp_pop_exactly s w :
  inv g [] s → (e w (PopIoRingCompletion (ring (rt s))) s).1.1 = S_OK →
  wp e pop_completion (λ r s' w', r = Ok (Some (e w (PopIoRingCompletion (ring (rt s))) s).1.2) ∧
    s' = (e w (PopIoRingCompletion (ring (rt s))) s).2 ∧ rt s' = rt s ∧
    ∃ x, inv g [x] s' ∧ user_data (e w (PopIoRingCompletion (ring (rt s))) s).1.2 = entry_user_data x ∧
      0 ≤ information (e w (PopIoRingCompletion (ring (rt s))) s).1.2 ∧
      taken (kern s) ≡ₚ x :: taken (kern s') ∧ built (kern s') = built (kern s)) s w.
Proof.
  intros HI Hpop. destruct (wp_pop e Henv g s w HI) as (r & s' & w' & Hrun & Hrt & _ & Hr).
  exists r, s', w'. split; [done|]. unfold pop_completion, self, mbind, M_bind, get, do_call in Hrun.
  cbn [rt mret M_ret fst snd] in Hrun. destruct (e w (PopIoRingCompletion (ring (rt s))) s) as [[status c] s1].
  cbn in Hpop, Hrun |- *. subst status. cbn in Hrun. injection Hrun as <- <- _. done.
Qed.

(** The operation of a slot is known by its identity. *)
Lemma same_operation X s i j a b : inv g X s →
  active (rt s) !! i = Some (Some a) → active (rt s) !! j = Some (Some b) →
  op_user_data a = op_user_data b → i = j ∧ a = b.
Proof.
  intros HI Ha Hb E. pose proof (i_tables _ _ _ HI) as Ht. destruct Hg as [_ _ G3 _].
  pose proof (lookup_lt_Some _ _ _ Ha) as Hi. pose proof (lookup_lt_Some _ _ _ Hb) as Hj.
  rewrite (tb_active _ _ Ht) in Hi, Hj.
  rewrite (ao_user_data _ _ _ (tb_ok _ _ Ht i a Ha)), (ao_user_data _ _ _ (tb_ok _ _ Ht j b Hb)) in E.
  apply identity_inj in E as [E _]; [|lia..]. apply Nat2Z.inj in E as <-. split; [done|]. congruence.
Qed.

(** The switch's side of a relay: what becomes of the read [a] of slot [i]
    that was answered with [p]. *)
Definition relayed (p : reply) (i : nat) (a : ActiveOperation) (sw sw' : Switch) (kind : option bool)
    (s1 s' : sys) : Prop :=
  if reply_status p =? DriverConstants.STATUS_SUCCESS
  then kind = Some true ∧ ∃ answer,
    forward sw (slot_endpoint g i) (reply_output p) = Some (sw', answer) ∧
    ∀ recipient rest, answer = Ok (recipient :: rest) →
      recipient ≠ slot_endpoint g i ∧ recipient ∈ members ∧
      built (kern s') = built (kern s1) ++
        [WriteEntry (peer_handle g i) (Z.of_nat i) (reply_information p) (op_user_data a)] ∧
      ∀ s2, shared_kept s' s2 → ∃ b, buffers s2 !! i = Some b ∧
        slice b 0 (reply_information p) = Some (reply_output p)
  else kind = None ∧ sw' = sw ∧ (enqueued i (retried a) s1 s' ∨ idled i s1 s').

Lemma processed_relayed p i a c sw sw' kind s1 s' :
  inv g [] s' → connects sw → is_write a = false → active_ok (pool (rt s1)) i a → (i < length (active (rt s1)))%nat →
  reply_information p = len (reply_output p) ∨ reply_status p ≠ DriverConstants.STATUS_SUCCESS →
  information c = reply_information p →
  result_code c = (if reply_status p =? DriverConstants.STATUS_SUCCESS then S_OK else HRESULT_FROM_NT (reply_status p)) →
  (reply_status p = DriverConstants.STATUS_SUCCESS → ∃ b, buffers s1 !! i = Some b ∧ length b = Z.to_nat (g_frame g) ∧
     slice b 0 (len (reply_output p)) = Some (reply_output p)) →
  processed g i a c sw sw' kind s1 s' → relayed p i a sw sw' kind s1 s'.
Proof.
  intros HI Hsw Hw Hok Hlt Hinf Hc Hres Hb Hp. unfold processed in Hp. unfold relayed.
  destruct (Z.eqb_spec (reply_status p) DriverConstants.STATUS_SUCCESS) as [Est|Est].
  - destruct Hinf as [Hinf|]; [|done]. destruct (Hb Est) as (b & Hb1 & Hlen & Hsl). rewrite Hres in Hp.
    change (is_device_busy S_OK) with false in Hp. change (is_no_more_entries S_OK) with false in Hp.
    rewrite Hw, andb_false_r in Hp. destruct Hp as (_ & Hk & Hp). split; [done|].
    unfold dispatched_to in Hp. rewrite Hc, Hinf in Hp.
    assert (len (reply_output p) ≤ g_frame g) as Hle.
    { pose proof (slice_length _ _ _ _ Hsl) as E. unfold slice in Hsl. split_if_in Hsl; [|done]. bool_reflect.
      destruct Hg as [_ _ _ [G4 _]]. unfold len in *. lia. }
    rewrite (proj2 (Z.leb_le _ _) Hle) in Hp. destruct Hp as (b' & frame & answer & Hb' & Hf & Hfw & Hp).
    rewrite Hb1 in Hb'. injection Hb' as <-. rewrite Hsl in Hf. injection Hf as <-.
    exists answer. split; [done|]. intros recipient rest ->. destruct Hp as [Hq Hkeep].
    destruct (forward_members _ _ _ _ _ recipient Hfw) as [Hd1 Hd2]; [by left|]. rewrite Hsw in Hd2.
    split; [done|]. split; [done|]. pose proof Hq as (Hact & _ & _ & Hbuilt & _). split.
    + rewrite Hbuilt, Hinf, (ao_user_data _ _ _ Hok). done.
    + intros s2 Hk2. exists b. rewrite Hinf. split; [|done].
      rewrite (buffer_kept g [] i (Some (new_write g i (completion_generation (completion a)) (len (reply_output p)))) s' s2 HI); [done| |by intros ? [= <-]|done].
      rewrite Hact. by apply list_lookup_insert_eq.
  - rewrite Hw in Hp. destruct (is_device_busy (result_code c)); [naive_solver|].
    destruct (adaptive_polling _ && _); [naive_solver|]. destruct Hp as [Hp _]. exfalso.
    rewrite Hres in Hp. by apply HRESULT_from_error in Hp.
Qed.

Lemma wp_process_relayed sd l p sw s w i a : inv g [] s → tidy (rt s) → connects sw →
  read_replies sd p l → active (rt s) !! i = Some (Some a) → is_write a = false → ring_completes p e s w i a →
  wp e (process_next sw) (λ o s' w', ∃ r, o = Some ((e w (PopIoRingCompletion (ring (rt s))) s).1.2, r) ∧
    inv g [] s' ∧ match r with
      | Err x => external x
      | Ok (sw', kind) => relayed p i a sw sw' kind (e w (PopIoRingCompletion (ring (rt s))) s).2 s'
      end) s w.
Proof.
  intros HI Ht Hsw Hread Ha Hw [Hpop Hop Hinf Hres Hbytes].
  unfold process_next. apply wp_bind. eapply wp_mono; [by apply wp_pop_exactly|].
  intros r s1 w1 (-> & Es1 & E1 & x & HI1 & Hu & Hn & _ & Hb1). rewrite <- E1 in Ht, Ha.
  destruct (popped_operation g x s1 HI1 Ht) as (j & b & Hb & Hq & Hs & Hx).
  destruct (same_operation _ s1 i j a b HI1 Ha Hb) as [<- <-].
  { by rewrite <- Hop, Hu, Hx, rw_user_data. }
  apply wp_bind. eapply wp_mono; [by eapply (wp_process e Henv g Hg x i a)|].
  intros r s2 w2 [HI2 Hr]. apply wp_ret. exists r. split; [done|]. split; [done|].
  destruct r as [[sw' kind]|y]; [|done]. rewrite <- Es1.
  pose proof (lookup_lt_Some _ _ _ Ha) as Hlt.
  apply (processed_relayed p i a (e w (PopIoRingCompletion (ring (rt s))) s).1.2); try done.
  - exact (tb_ok _ _ (i_tables _ _ _ HI1) i a Ha).
  - destruct (decide (reply_status p = DriverConstants.STATUS_SUCCESS)) as [E|]; [left|by right].
    by destruct (read_replies_spec _ _ _ Hread E) as [_ ?].
  - intros Hok. destruct (Hbytes Hok) as (bb & Hbb & Hsl). rewrite <- Es1 in Hbb. exists bb.
    split; [done|]. split; [|done]. pose proof (i_buffers _ _ _ HI1) as Hlen. apply (f_equal (lookup i)) in Hlen.
    rewrite list_lookup_fmap, Hbb in Hlen. cbn in Hlen.
    rewrite lookup_replicate_2 in Hlen; [by injection Hlen|]. by rewrite <- (tb_active _ _ (i_tables _ _ _ HI1)).
Qed.
End switch.

(** The bytes the kernel writes for an entry of [n] bytes from slot [i]. *)
Definition written_bytes (s : sys) (i : nat) (n : Z) (input : list Z) : Prop :=
  ∃ b, buffers s !! i = Some b ∧ slice b 0 n = Some input.

(** C3: a frame passes through the three programs unchanged.  A packet driver
    answers the switch's read with [p], in [evt_io_read], in its worker or in
    the transmit callback; the I/O ring reports the completion, with the bytes
    in the buffer of the read's slot.  A successful read carries the bytes of a
    frame of the capture queue or of a packet of the transmit ring.  The switch
    hands exactly these bytes to its forwarding; if they have a recipient, which
    is never the endpoint they came from, it adds one write of those bytes, from
    the same buffer, to the other endpoint; whatever the kernel does to memory
    meanwhile, the other endpoint's driver is given the same bytes, and ends its
    [evt_io_write] with exactly these bytes queued for injection, or with an
    error.  A read that fails is repeated or its slot left idle, and the
    forwarding table is as before. *)
Theorem frame_relayed (sd : Datapath.dev) (l : list Datapath.note) (p : reply)
    (e : env sys os_ret) (g : geometry) (sw : Switch) (s : sys) (w : world os_ret) (i : nat) (a : ActiveOperation) (Henv : respects os_contract e) (Hg : geometry_ok g) (HI : inv g [] s)
    (Ht : tidy (rt s)) (Hsw : connects sw) (Hread : read_replies sd p l)
    (Ha : active (rt s) !! i = Some (Some a)) (Hw : is_write a = false) (Hring : ring_completes p e s w i a) :
  ∃ c r s1 s' w', s1 = (e w (PopIoRingCompletion (ring (rt s))) s).2 ∧
    process_next sw e s w = Some (Some (c, r), s', w') ∧ inv g [] s' ∧
    match r with
    | Err x => external x
    | Ok (sw', kind) =>
        relayed g p i a sw sw' kind s1 s' ∧
        (reply_status p = DriverConstants.STATUS_SUCCESS →
         frame_source sd (reply_output p) l ∧
         ∀ recipient rest s2 input,
           forward sw (slot_endpoint g i) (reply_output p) = Some (sw', Ok (recipient :: rest)) →
           shared_kept s' s2 → written_bytes s2 i (reply_information p) input →
         ∀ (d2 : env Datapath.dev Datapath.dp_ret) fuel q sd2 w2,
           respects DatapathSpec.dp_contract d2 → DatapathSpec.idle sd2 → q ∈ Datapath.owned sd2 →
           Datapath.inputs sd2 !! q = Some input →
           Datapath.write_lifetime_lock (Datapath.st sd2) ∉ Datapath.guards sd2 →
           wp d2 (DatapathPaths.evt_io_write fuel true q (reply_information p)) (λ r s3 _, r = Some tt →
             ∃ l2, Datapath.log s3 = l2 ++ Datapath.log sd2 ∧
               DatapathRequests.write_outcome q (reply_output p) l2) sd2 w2)
    end.
Proof.
  destruct (wp_process_relayed e Henv g Hg sd l p sw s w i a HI Ht Hsw Hread Ha Hw Hring)
    as (o & s' & w' & Hrun & r & -> & HI' & Hr).
  do 5 eexists. split; [reflexivity|]. split; [exact Hrun|]. split; [done|].
  destruct r as [[sw' kind]|x]; [|done]. split; [exact Hr|]. intros Hok.
  destruct (read_replies_spec _ _ _ Hread Hok) as [Hf Hinf]. split; [done|].
  intros recipient rest s2 input Hfw Hk (b & Hb & Hin) d2 fuel q sd2 w2 Hd2 Hs2 Hq Hi Hlock.
  unfold relayed in Hr. rewrite Hok, Z.eqb_refl in Hr. destruct Hr as (_ & answer & Hfw' & Hr).
  rewrite Hfw in Hfw'. injection Hfw' as <-. destruct (Hr recipient rest eq_refl) as (_ & _ & _ & Hkeep).
  destruct (Hkeep s2 Hk) as (b' & Hb' & Hsl). rewrite Hb in Hb'. injection Hb' as <-.
  rewrite Hin in Hsl. injection Hsl as ->.
  eapply (DatapathRequests.wp_evt_io_write d2 Hd2 fuel true q _ (reply_output p)); [done..| |].
  - done.
  - intros l2 s3 w3 A Hl2 _. exists l2. split; [by rewrite (DatapathSpec.acts_log _ _ _ A)|done].
Qed.

(** ** An example: a frame from the first endpoint to the second *)

#[local] Existing Instance Datapath.dev_eta.

Definition reading_dev : Datapath.dev :=
  LifecycleTheorems.captured_dev <| Datapath.owned := {[5]} |>.

Definition example_bytes : list Z := replicate 14 3.

Definition read_reply : reply :=
  {| reply_status := DriverConstants.STATUS_SUCCESS; reply_information := 14; reply_output := example_bytes |}.

Lemma reading_dev_idle : DatapathSpec.idle reading_dev.
Proof.
  unfold reading_dev, LifecycleTheorems.captured_dev.
  destruct (FrameQueue.try_new_repr (λ _, true) 2 100 FrameQueue.example_queue eq_refl ltac:(lia) ltac:(lia)) as [Hr _].
  destruct (FrameQueue.queue_step_spec FrameQueue.example_queue _
    (FrameQueue.QEnqueue (FrameQueue.example_frame 3)) Hr) as (q & -> & Hrq & _).
  { by split; [|vm_compute]. }
  split; [|done]. split; [|done..|]; [|split; [done..| |done]; by apply Forall_replicate].
  intros [] q' [= <-]; [apply DatapathTheorems.example_queue_ok|]. by eexists.
Qed.

Definition is_reply (p : reply) (x : Datapath.note) : bool :=
  match x with
  | Datapath.Completed 5 st n o =>
      (st =? reply_status p) && (n =? reply_information p) && bool_decide (o = reply_output p)
  | _ => false
  end.

Lemma reading_dev_replies : ∃ l, read_replies reading_dev read_reply l.
Proof.
  assert (match DatapathPaths.evt_io_read 1 true 5 DatapathTheorems.quiet_framework reading_dev [] with
          | Some (Some tt, s', _) => existsb (is_reply read_reply) (Datapath.log s')
          | _ => false
          end = true) as H by (vm_compute; reflexivity).
  destruct (DatapathPaths.evt_io_read _ _ _ _ _ _) as [[[[[]|] s'] w']|] eqn:Hrun; [|discriminate H..].
  exists (Datapath.log s').
  apply (replies_read reading_dev _ _ DatapathTheorems.quiet_framework 1 5 [] s' w');
    [exact DatapathTheorems.quiet_framework_respects|exact reading_dev_idle|
     exact (proj2 (elem_of_singleton 5 5) eq_refl)|exact Hrun|symmetry; apply app_nil_r|]. apply existsb_exists in H as (x & Hx & H). apply list_elem_of_In in Hx.
  destruct x as [| | | | |q st n o| |]; try discriminate H.
  assert (q = 5) as ->. { revert H. unfold is_reply. by repeat case_match. }
  unfold is_reply in H. apply andb_true_iff in H as [H Ho]. apply andb_true_iff in H as [Hst Hn].
  apply Z.eqb_eq in Hst, Hn. apply bool_decide_eq_true in Ho. by subst.
Qed.

(** The kernel fills the buffer of a read it reports. *)
Definition fill (x : entry) (b : list (list Z)) : list (list Z) :=
  match x with
  | ReadEntry _ i _ _ =>
      if 0 <=? i then alter (λ l, take (length l) (example_bytes ++ drop 14 l)) (Z.to_nat i) b else b
  | _ => b
  end.

Definition relaying : env sys os_ret := λ w c,
  match c return sys → os_ret c * sys with
  | PopIoRingCompletion _ => λ s,
      match pick (taken (kern s)) with
      | Some (x, l) =>
          ((S_OK, {| user_data := entry_user_data x; result_code := S_OK; information := 14 |}),
           s <| kern := (kern s) <| taken := l |> |> <| buffers := fill x (buffers s) |>)
      | None => ((S_FALSE, completion_of (RegisterEntry 0)), s)
      end
  | c => ideal w c
  end.

Lemma fill_kept x b (i : nat) : (∀ h n u, x ≠ ReadEntry h (Z.of_nat i) n u) → fill x b !! i = b !! i.
Proof.
  intros Hx. destruct x as [h j n u| | |]; cbn; try done. destruct (Z.leb_spec 0 j); [|done].
  rewrite list_lookup_alter_ne; [done|]. intros <-. apply (Hx h n u). by rewrite Z2Nat.id.
Qed.

Lemma fill_lengths x b : length <$> fill x b = length <$> b.
Proof.
  destruct x as [h j n u| | |]; cbn; try done. destruct (0 <=? j); [|done]. apply list_eq. intros i.
  rewrite !list_lookup_fmap. destruct (decide (i = Z.to_nat j)) as [->|]; [|by rewrite list_lookup_alter_ne].
  rewrite list_lookup_alter_eq. destruct (b !! Z.to_nat j) as [l|]; [|done]. apply (f_equal Some).
  rewrite length_take. cbn [length]. rewrite length_drop. lia.
Qed.

Lemma relaying_respects : respects os_contract relaying.
Proof.
  intros w c s. destruct c; try exact (ideal_respects w _ s). cbn.
  destruct (pick (taken (kern s))) as [[x l]|] eqn:Hp; [|by split].
  pose proof (pick_perm _ _ _ Hp) as Hperm. split.
  - split; [done|apply fill_lengths| |done]. intros i Hi. cbn. unfold at_index.
    destruct (Z.leb_spec 0 i); [|done]. apply fill_kept. intros h n u ->.
    rewrite Z2Nat.id in Hperm by done. apply (Hi h n u). rewrite Hperm. apply elem_of_app. left. by left.
  - cbn. split; [done|]. exists x. done.
Qed.

(** The frame is multicast, so it goes to the second endpoint. *)
Lemma frame_relayed_witness : ∃ s c sw' s' w',
  reading_process = Some s ∧
  process_next small_switch relaying s [] = Some (Some (c, Ok (sw', Some true)), s', w') ∧
  ∃ u, built (kern s') = [WriteEntry 12 0 14 u].
Proof.
  destruct reading_process as [s|] eqn:Hs; [|vm_compute in Hs; discriminate Hs].
  pose proof (reading_settled s Hs) as [HI Ht _]. exists s.
  destruct reading_dev_replies as [l Hl].
  unfold reading_process in Hs. vm_compute in Hs. injection Hs as <-.
  edestruct (frame_relayed reading_dev l read_reply relaying small_geometry
    small_switch) as (c & r & s1 & s' & w' & Es1 & Hrun & _ & Hr);
    [exact relaying_respects|exact small_geometry_ok|exact HI|exact Ht|reflexivity|exact Hl|
     instantiate (2 := 0%nat); reflexivity|reflexivity| |].
  { split; [reflexivity..|]. intros _. eexists. split; reflexivity. }
  pose proof Hrun as Hrun'. vm_compute in Hrun'. injection Hrun' as <- <- <- <-.
  eexists _, _, _, _. split; [reflexivity|]. split; [exact Hrun|].
  eexists. reflexivity.
Defined.
