(* ===== verification/ReadRace.v ===== *)
(** * A read that waits beside a queued frame

    In the legacy mode [evt_io_read] first looks for a captured frame and then,
    when there is none, forwards the read to the manual queue.  A transmit
    callback queues a frame and schedules the passive worker, which takes reads
    from the manual queue.  Nothing makes the look and the forwarding one step:
    the read queues have no synchronisation scope, the work item is not
    serialised with them, and NetAdapterCx calls the transmit callback on its
    own.  This file has the interleaving in which the frame is missed. *)

From S2P Require Import Prelude Words DriverConstants Effects Ring FrameQueue Datapath DatapathPaths DatapathSpec.
From S2P Require Import DatapathRings DatapathRequests DatapathTransmit DatapathTheorems Lifecycle LifecycleSpec LifecycleTheorems.

#[local] Existing Instance LifecycleTheorems.config_same_dec.

(** The transmit queue's thread: it has the two packets of the example's ring,
    no request and no lock, and shares the instance. *)
Definition transmit_thread (i : InstanceState) : dev :=
  example_dev <| st := i |> <| owned := ∅ |> <| inputs := ∅ |>.

Definition packets_captured : D unit := evt_packet_queue_advance example_bindings (Some (true, true)).

(** The packets are captured, and the worker they schedule runs to its end. *)
Definition captured_meanwhile (s : dev) : dev :=
  match (_ ← packets_captured; evt_read_completion_work_item 1 true) quiet_framework (transmit_thread (st s)) [] with
  | Some (Some tt, s', _) => if decide (config_same (st s) (st s')) then s <| st := st s' |> else s
  | _ => s
  end.

(** They do so between the look and the forwarding. *)
Definition capturing : env dev dp_ret := λ w c,
  match c return dev → dp_ret c * dev with
  | WdfRequestForwardToIoQueue _ _ => λ s,
      if decide (held s = ∅ ∧ frame_maximum (st s) = 1514) then (STATUS_SUCCESS, captured_meanwhile s)
      else (STATUS_SUCCESS, s)
  | c => quiet_framework w c
  end.

Lemma wp_packets_captured i (Q : unit → dev → world dp_ret → Prop) w :
  inst_ok i → frame_maximum i = 1514 → (∀ s' w', idle s' → Q tt s' w') →
  wp quiet_framework packets_captured Q (transmit_thread i) w.
Proof.
  intros Hi Hm HQ. assert (idle (transmit_thread i)) as Hs by done.
  pose proof (not_elem_of_empty (C:=gset Z) (legacy_direct_read_lock i)) as Hg.
  assert (fits usize_bits (frame_maximum (st (transmit_thread i)))) as Hf by (cbn; by rewrite Hm).
  refine (wp_advance_transmit example_bindings quiet_framework quiet_framework_respects (memory_of example_dev)
    example_packets example_fragments Q (transmit_thread i) w Hf Hs eq_refl example_rings Hg _).
  intros l m s' w' D _. apply HQ. exact (does_idle _ _ _ _ Hs D).
Qed.

Lemma captured_meanwhile_ok s : held s = ∅ → frame_maximum (st s) = 1514 → interferes s (captured_meanwhile s).
Proof.
  intros Hh Hm. unfold captured_meanwhile.
  destruct ((_ ← packets_captured; evt_read_completion_work_item 1 true) quiet_framework (transmit_thread (st s)) [])
    as [[[[[]|] s'] w']|] eqn:Hrun; try apply interferes_refl.
  destruct (decide _) as [Hc|]; [|apply interferes_refl].
  split; cbn; [by destruct s|done| |by rewrite Hh; set_solver|by rewrite Hh; set_solver].
  intros Hok. assert (wp quiet_framework (_ ← packets_captured; evt_read_completion_work_item 1 true)
    (λ r s' _, r = Some tt → inst_ok (st s')) (transmit_thread (st s)) []) as (r2 & s2 & w2 & Hrun2 & Hok2).
  { apply wp_bind, wp_packets_captured; [done..|]. intros s1 w1 Hs1.
    apply (wp_evt_read_completion_work_item _ quiet_framework_respects 0); [done|done|].
    intros l2 s2 w2 A2 _ _. apply A2. }
  rewrite Hrun in Hrun2. injection Hrun2 as <- <- _. by apply Hok2.
Qed.

Lemma capturing_respects : respects dp_contract capturing.
Proof.
  intros w c s. destruct c; try exact (quiet_framework_respects w _ s). cbn.
  destruct (decide _) as [[Hh Hm]|]; [by apply captured_meanwhile_ok|apply interferes_refl].
Qed.

(** Whether the capture queue has frames. *)
Definition frames_wait (i : InstanceState) : bool :=
  match capture_queue i with Some q => negb (queue_is_empty q) | None => false end.

Definition enqueued (work_item : Z) (w : world dp_ret) : bool :=
  existsb (λ x, match projT1 x with WdfWorkItemEnqueue i => i =? work_item | _ => false end) w.

(** A framework whose manual queue holds read 5, with callers at the level
    [irql]. *)
Definition holding_read (irql : Z) : env dev dp_ret := λ w c,
  match c return dev → dp_ret c * dev with
  | KeGetCurrentIrql => λ s, (irql, s)
  | WdfIoQueueRetrieveNextRequest _ => λ s,
      if decide (existsb is_retrieval w = false ∧ (5 ∉ owned s) ∧ inputs s !! 5 = None ∧ outputs s !! 5 = None)
      then ((STATUS_SUCCESS, 5), s) else ((STATUS_NO_MORE_ENTRIES, 5), s)
  | c => quiet_framework w c
  end.

Lemma holding_read_respects irql : respects dp_contract (holding_read irql).
Proof.
  intros w c s. destruct c; try exact (quiet_framework_respects w _ s); [|apply interferes_refl].
  unfold dp_contract. cbn. destruct (decide _) as [(_ & Hfresh)|]; split; try apply interferes_refl; [done|].
  by intros [=].
Qed.

#[local] Instance Frame_eq_dec : EqDecision Frame.
Proof. solve_decision. Defined.

#[local] Instance queue_state_eq_dec : EqDecision QueueState.
Proof. solve_decision. Defined.

#[local] Instance FrameQueue_eq_dec : EqDecision FrameQueue.
Proof. solve_decision. Defined.

#[local] Instance InstanceState_eq_dec : EqDecision InstanceState.
Proof. solve_decision. Defined.

(** The instance the transmit callback and then the worker leave, when they
    start with [i], the callback queues frames, and the worker finds no read. *)
Definition captured_and_unserved (i i' : InstanceState) : Prop :=
  ∃ s1 w1 s2 w2, packets_captured quiet_framework (transmit_thread i) [] = Some (tt, s1, w1) ∧
    enqueued (read_work_item i) w1 = true ∧
    evt_read_completion_work_item 1 true quiet_framework s1 w1 = Some (Some tt, s2, w2) ∧ statuses (log s2) = [] ∧
    st s2 = i'.

(** What a run that has such steps is checked for. *)
Definition captured_check (i i' : InstanceState) : bool :=
  match packets_captured quiet_framework (transmit_thread i) [] with
  | Some (_, s1, w1) =>
      enqueued (read_work_item i) w1 &&
      match evt_read_completion_work_item 1 true quiet_framework s1 w1 with
      | Some (Some _, s2, _) => bool_decide (statuses (log s2) = []) && bool_decide (st s2 = i')
      | _ => false
      end
  | None => false
  end.

Lemma captured_check_spec i i' : captured_check i i' = true → captured_and_unserved i i'.
Proof.
  unfold captured_check. destruct (packets_captured _ _ _) as [[[[] s1] w1]|] eqn:H1; [|discriminate].
  intros [Hw H]%andb_true_iff. destruct (evt_read_completion_work_item _ _ _ _ _) as [[[[[]|] s2] w2]|] eqn:H2;
    [|discriminate..].
  apply andb_true_iff in H as [Hl%bool_decide_eq_true Hi%bool_decide_eq_true]. by exists s1, w1, s2, w2.
Qed.

(** A run that completes exactly the waiting read, and whether a frame is left. *)
Definition answers_read {A} (r : option (A * dev * world dp_ret)) (left_over scheduled : bool) : bool :=
  match r with
  | Some (_, s, w) =>
      bool_decide (statuses (log s) = [(5, STATUS_SUCCESS)]) && eqb (frames_wait (st s)) left_over
      && eqb (enqueued 41 w) scheduled
  | None => false
  end.

Lemma answers_read_spec {A} (r : option (A * dev * world dp_ret)) left_over scheduled :
  answers_read r left_over scheduled = true →
  ∃ a s w, r = Some (a, s, w) ∧ statuses (log s) = [(5, STATUS_SUCCESS)] ∧ frames_wait (st s) = left_over ∧
    enqueued 41 w = scheduled.
Proof.
  destruct r as [[[a s] w]|]; cbn [answers_read]; [|discriminate]. intros [[H1 H2]%andb_true_iff H3]%andb_true_iff.
  apply bool_decide_eq_true in H1. apply eqb_prop in H2, H3. by exists a, s, w.
Qed.

(** The last thing that was done was to forward request [q] to the queue [target]. *)
Definition just_forwarded (q target : Z) (l : list note) : bool :=
  match l with Forwarded q' target' :: _ => (q' =? q) && (target' =? target) | _ => false end.

Definition missed_check (r : option (option unit * dev * world dp_ret)) : bool :=
  match r with
  | Some (Some _, s, _) =>
      just_forwarded 5 11 (log s) && (lifecycle (st s) =? INSTANCE_OPEN)
      && frames_wait (st s) && captured_check (example_instance <| pending_reads := 1 |>) (st s)
      && answers_read (evt_read_completion_work_item 3 true (holding_read 2) (transmit_thread (st s)) []) false false
      && answers_read (packets_captured (holding_read 0) (transmit_thread (st s)) []) true false
  | _ => false
  end.

Lemma missed_check_run : missed_check (evt_io_read 1 true 5 capturing example_dev []) = true.
Proof. vm_compute. reflexivity. Qed.

(** C36: a read can be left waiting beside a queued frame.  Between the look into
    the capture queue, which is empty, and the forwarding of the read to the
    manual queue, the transmit callback captures a packet and schedules the
    passive worker, and the worker runs: it finds no read, ends, and the read
    then waits although the device is open and a frame is queued.  Nothing is
    scheduled any more: the worker would complete the read with that frame, but
    it only runs again when another packet is queued; and a packet sent at
    passive level is delivered to the waiting read directly, so that it
    overtakes the queued frame, which stays where it is. *)
Theorem read_waits_beside_frame :
  respects dp_contract capturing ∧
  ∃ s' w', evt_io_read 1 true 5 capturing example_dev [] = Some (Some tt, s', w') ∧
    just_forwarded 5 11 (log s') = true ∧ lifecycle (st s') = INSTANCE_OPEN ∧ frames_wait (st s') = true ∧
    captured_and_unserved (example_instance <| pending_reads := 1 |>) (st s') ∧
    (∃ r s3 w3, evt_read_completion_work_item 3 true (holding_read 2) (transmit_thread (st s')) [] = Some (r, s3, w3) ∧
       statuses (log s3) = [(5, STATUS_SUCCESS)] ∧ frames_wait (st s3) = false ∧ enqueued 41 w3 = false) ∧
    ∃ r s4 w4, packets_captured (holding_read 0) (transmit_thread (st s')) [] = Some (r, s4, w4) ∧
      statuses (log s4) = [(5, STATUS_SUCCESS)] ∧ frames_wait (st s4) = true ∧ enqueued 41 w4 = false.
Proof.
  split; [exact capturing_respects|]. pose proof missed_check_run as H. unfold missed_check in H.
  destruct (evt_io_read _ _ _ _ _ _) as [[[[[]|] s'] w']|]; [|discriminate..]. exists s', w'. split; [reflexivity|].
  repeat (apply andb_true_iff in H as [H ?]). split; [exact H|]. split; [by apply Z.eqb_eq|]. split; [assumption|].
  split; [by apply captured_check_spec|]. split; by apply answers_read_spec.
Qed.
