(* ===== verification/ReadCancel.v ===== *)
(** * Waiting reads that are cancelled

    A read that finds no frame is forwarded to the manual queue and keeps its
    admission there.  From then on the framework owns it.  When its sender
    cancels it, the framework calls the handler that the queue was created with
    for this ([EvtIoCanceledOnQueue]), or, without one, completes the request
    itself.  This file joins the read handler, the manual queue and the
    configuration the driver gives it, and follows any sequence of arriving and
    cancelled reads. *)

From S2P Require Import Prelude Words DriverConstants Effects FrameQueue Datapath DatapathPaths DatapathSpec.
From S2P Require Import DatapathTheorems BringUp.

(** ** The manual queue *)

(** The read queues as the framework and the driver keep them: the instance, the
    calls made so far, the reads in the manual queue, and the reads that ended,
    with their statuses. *)
Record session := {
  driver : dev;
  calls : world dp_ret;
  waiting : list Z;
  ended : list (Z * Z);
}.

#[export] Instance session_eta : Eta session := λ K,
  Build_session (driver K) (calls K) (waiting K) (ended K).

Inductive happening :=
  | ReadArrives (request : Z)       (* at the default queue *)
  | ReadCancelled (request : Z).    (* by its sender, in the manual queue *)

Definition forwarded_to (queue : Z) (x : note) : option Z :=
  match x with
  | Forwarded request target => if target =? queue then Some request else None
  | _ => None
  end.

Definition completion (x : note) : option (Z * Z) :=
  match x with Completed request status _ _ => Some (request, status) | _ => None end.

Section session.
Context (e : env dev dp_ret) (fuel : nat).
(** What the framework would run for a queued request that is cancelled, had the
    queue a handler for it. *)
Context (callback : handler → Z → D (option unit)).

(** The framework gives [request] to a handler of the driver.  What the handler
    forwards to the manual queue waits there. *)
Definition deliver (m : D (option unit)) (request : Z) (K : session) : option session :=
  match m e ((driver K) <| owned := {[request]} |> <| log := [] |>) (calls K) with
  | Some (Some tt, s, w) =>
      Some {| driver := s; calls := w;
              waiting := waiting K ++ omap (forwarded_to (read_queue (st s))) (log s);
              ended := ended K ++ omap completion (log s) |}
  | _ => None
  end.

Definition happen (K : session) (h : happening) : option session :=
  match h with
  | ReadArrives request =>
      if decide (request ∈ waiting K) then None
      else deliver (evt_io_read fuel true request) request K
  | ReadCancelled request =>
      if decide (request ∈ waiting K) then
        let K := K <| waiting := filter (λ r, r ≠ request) (waiting K) |> in
        match EvtIoCanceledOnQueue read_queue_config with
        | Some handler => deliver (callback handler request) request K
        | None => Some (K <| ended := ended K ++ [(request, STATUS_CANCELLED)] |>)
        end
      else None
  end.

Fixpoint happens (K : session) (history : list happening) : option session :=
  match history with
  | [] => Some K
  | h :: history => K ← happen K h; happens K history
  end.

End session.

Definition is_arrival (h : happening) : bool := if h is ReadArrives _ then true else false.

(** ** A driver whose reads find no frame *)

(** No other thread touches the instance, leases are granted and forwarding
    succeeds. *)
Record alone (e : env dev dp_ret) : Prop := {
  al_others w s : e w OtherThreads s = (tt, s);
  al_spurious w s : e w SpuriousFailure s = (false, s);
  al_lease n w s : e w (AcquireLease n) s = (true, s);
  al_leave n w s : e w (ReleaseLease n) s = (tt, s);
  al_acquire l w s : e w (WdfSpinLockAcquire l) s = (tt, s);
  al_release l w s : e w (WdfSpinLockRelease l) s = (tt, s);
  al_forward r q w s : e w (WdfRequestForwardToIoQueue r q) s = (STATUS_SUCCESS, s);
  al_complete r x w s : e w (WdfRequestComplete r x) s = (tt, s);
}.

(** An open instance in legacy mode with no captured frame and [n] admissions. *)
Record listening (n : Z) (s : dev) : Prop := {
  li_open : lifecycle (st s) = INSTANCE_OPEN;
  li_legacy : adaptive_enabled (st s) = false;
  li_lock : capture_lock (st s) ≠ 0;
  li_queue : read_queue (st s) ≠ 0;
  li_empty : ∃ q, capture_queue (st s) = Some q ∧ qlength q = 0;
  li_held : held s = ∅;
  li_pending : pending_reads (st s) = n;
}.

Lemma wp_answer e c r s w (Q : dp_ret c → dev → world dp_ret → Prop) :
  e w c s = (r, s) → Q r s (existT c r :: w) → wp e (call c) Q s w.
Proof. intros He HQ. exists r, s, (existT c r :: w). unfold do_call. by rewrite He. Qed.

Section reads.
Context (e : env dev dp_ret) (Hal : alone e).

Lemma wp_reads {A} (f : InstanceState → A) (Q : A → dev → world dp_ret → Prop) s w :
  (∀ w', Q (f (st s)) s w') → wp e (load f) Q s w.
Proof.
  intros HQ. apply wp_bind. refine (wp_answer _ _ _ _ _ _ (al_others e Hal _ _) _).
  apply wp_bind, wp_get, wp_ret, HQ.
Qed.

(** The capture queue is empty: the look leaves the instance as it was. *)
Lemma wp_no_frame n (Q : option Frame → dev → world dp_ret → Prop) s w :
  listening n s →
  (∀ out w', Q None (s <| held := ∅ |> <| log := Queued Capture QDequeue out :: log s |>) w') →
  wp e dequeue_capture_frame Q s w.
Proof.
  intros [_ _ Hlock _ (q & Hq & Hlen) Hheld _] HQ. destruct s as [i x p f ps fs va pl ins outs own h g l].
  cbn in Hlock, Hq, Hheld, HQ. subst h. unfold dequeue_capture_frame.
  apply wp_bind, wp_bind, wp_get, wp_ret. cbn [st]. rewrite (proj2 (Z.eqb_neq _ _) Hlock).
  apply wp_bind, wp_bind, wp_bind, wp_get. cbn [held]. destruct (decide _) as [Hin|_]; [by apply not_elem_of_empty in Hin|].
  apply wp_bind. refine (wp_answer _ _ _ _ _ _ (al_acquire e Hal _ _ _) _). apply wp_bind, wp_get, wp_put.
  apply wp_bind, wp_bind, wp_bind, wp_bind, wp_get. cbn. destruct (decide _) as [_|Hin]; [|by exfalso; apply Hin; set_solver].
  apply wp_ret. rewrite Hq. unfold dequeue. rewrite Hlen. cbn.
  apply wp_bind, wp_ret, wp_bind, wp_get, wp_bind, wp_put, wp_bind, wp_ret, wp_ret, wp_ret.
  apply wp_bind, wp_bind, wp_get. cbn. destruct (decide _) as [_|Hin]; [|by exfalso; apply Hin; set_solver].
  apply wp_bind, wp_put. refine (wp_answer _ _ _ _ _ _ (al_release e Hal _ _ _) _).
  apply wp_ret, wp_bind, wp_ret, wp_ret.
  replace (({[capture_lock i]} ∪ ∅) ∖ {[capture_lock i]}) with (∅ : gset Z) by set_solver.
  replace (i <| capture_queue := Some q |>) with i by (by destruct i; cbn in *; subst).
  apply HQ.
Qed.

(** A read with [n] admissions held, up to the compare-exchange. *)
Lemma wp_read_admission fuel n q (Q : option unit → dev → world dp_ret → Prop) s w :
  listening n s →
  (∀ w', wp e (try_admit_loop fuel PendingReads PENDING_READ_LIMIT n ≫= λ admitted : option bool,
     match admitted with
     | None => mret None
     | Some false => _ ← complete_request q STATUS_DEVICE_BUSY; _ ← call (ReleaseLease Capture); mret (Some tt)
     | Some true =>
         _ ← read_or_wait q (owner_generation (st s)); _ ← call (ReleaseLease Capture); mret (Some tt)
     end) Q s w') →
  wp e (evt_io_read fuel true q) Q s w.
Proof.
  intros Hs HQ. unfold evt_io_read. cbn [negb]. apply wp_bind.
  refine (wp_answer _ _ _ _ _ _ (al_lease e Hal _ _ _) _). cbn [negb]. apply wp_bind, wp_reads. intros w1.
  rewrite (li_open _ _ Hs). cbn [Z.eqb INSTANCE_OPEN negb].
  apply wp_bind, wp_reads. intros w2. apply wp_bind, wp_reads. intros w3. rewrite (li_legacy _ _ Hs).
  unfold try_admit. apply wp_regroup, wp_bind, wp_reads. intros w4.
  cbn [counter_of]. rewrite (li_pending _ _ Hs). apply HQ.
Qed.

(** The read is admitted and waits. *)
Lemma wp_read_waits fuel n q (Q : option unit → dev → world dp_ret → Prop) s w :
  listening n s → n < PENDING_READ_LIMIT → q ∈ owned s → log s = [] →
  (∀ s' w', listening (n + 1) s' → omap (forwarded_to (read_queue (st s'))) (log s') = [q] →
     omap completion (log s') = [] → Q (Some tt) s' w') →
  wp e (evt_io_read (S fuel) true q) Q s w.
Proof.
  intros Hs Hn Hq Hlog HQ. apply (wp_read_admission _ n); [done|]. intros w4. cbn [try_admit_loop].
  rewrite (proj2 (Z.leb_gt _ _) Hn). apply wp_bind, wp_bind. unfold compare_exchange_weak.
  apply wp_bind. refine (wp_answer _ _ _ _ _ _ (al_spurious e Hal _ _) _).
  apply wp_bind, wp_get. cbn [counter_of]. rewrite (li_pending _ _ Hs), Z.eqb_refl. cbn [andb negb].
  apply wp_bind, wp_put, wp_ret, wp_bind. unfold record. apply wp_bind, wp_get, wp_put, wp_ret.
  match goal with |- context [wp e _ _ ?s'] => set (s1 := s') end.
  assert (Hs1 : listening (n + 1) s1) by (by destruct Hs). assert (Hq1 : q ∈ owned s1) by done.
  assert (Hlog1 : log s1 = [AdmissionTaken PendingReads]) by (cbn; by rewrite Hlog). clearbody s1.
  apply wp_bind. unfold read_or_wait. apply wp_bind, (wp_no_frame _ _ _ _ Hs1). intros out w5.
  apply wp_bind, wp_bind, wp_get, wp_ret, wp_bind. unfold forward_request.
  match goal with |- context [read_queue (st ?s') =? 0] => change (read_queue (st s')) with (read_queue (st s1)) end.
  rewrite (proj2 (Z.eqb_neq _ _) (li_queue _ _ Hs1)). apply wp_bind.
  refine (wp_answer _ _ _ _ _ _ (al_forward e Hal _ _ _ _) _). rewrite Z.eqb_refl. cbn [negb].
  apply wp_bind, wp_get. destruct (decide _) as [_|Hin]; [|by exfalso; apply Hin].
  apply wp_bind, wp_put, wp_ret, wp_ret, wp_bind.
  refine (wp_answer _ _ _ _ _ _ (al_leave e Hal _ _ _) _). apply wp_ret, HQ.
  - by destruct Hs1.
  - cbn. by rewrite Z.eqb_refl, Hlog1.
  - cbn. by rewrite Hlog1.
Qed.

(** All admissions are taken. *)
Lemma wp_read_busy fuel q (Q : option unit → dev → world dp_ret → Prop) s w :
  listening PENDING_READ_LIMIT s → q ∈ owned s → log s = [] →
  (∀ s' w', listening PENDING_READ_LIMIT s' → omap (forwarded_to (read_queue (st s'))) (log s') = [] →
     omap completion (log s') = [(q, STATUS_DEVICE_BUSY)] → Q (Some tt) s' w') →
  wp e (evt_io_read (S fuel) true q) Q s w.
Proof.
  intros Hs Hq Hlog HQ. apply (wp_read_admission _ PENDING_READ_LIMIT); [done|]. intros w4. cbn [try_admit_loop].
  rewrite Z.leb_refl. apply wp_bind, wp_ret, wp_bind. unfold complete_request, finish_request.
  apply wp_bind, wp_get. destruct (decide _) as [_|Hin]; [|exfalso; apply Hin; by split; [|apply Hs]].
  apply wp_bind, wp_put. refine (wp_answer _ _ _ _ _ _ (al_complete e Hal _ _ _ _) _).
  apply wp_bind. refine (wp_answer _ _ _ _ _ _ (al_leave e Hal _ _ _) _). apply wp_ret, HQ.
  - by destruct Hs.
  - cbn. by rewrite Hlog.
  - cbn. by rewrite Hlog.
Qed.

End reads.

(** ** Sessions *)

Definition fresh_session (s : dev) : session := {| driver := s; calls := []; waiting := []; ended := [] |}.

Definition arrivals (history : list happening) : Z := len (filter (λ h, is_arrival h = true) history).
Definition cancellations (history : list happening) : Z := len (filter (λ h, is_arrival h = false) history).

Section sessions.
Context (e : env dev dp_ret) (Hal : alone e) (fuel : nat) (callback : handler → Z → D (option unit)).

Lemma listening_handed n q s : listening n s → listening n (s <| owned := {[q]} |> <| log := [] |>).
Proof. by intros []. Qed.

Lemma read_arrives n q K :
  listening n (driver K) → n < PENDING_READ_LIMIT → q ∉ waiting K →
  ∃ K', happen e (S fuel) callback K (ReadArrives q) = Some K' ∧ listening (n + 1) (driver K') ∧
    waiting K' = waiting K ++ [q] ∧ ended K' = ended K.
Proof.
  intros Hs Hn Hq. destruct (wp_read_waits e Hal fuel n q (λ r s' _, r = Some tt ∧ listening (n + 1) s' ∧
    omap (forwarded_to (read_queue (st s'))) (log s') = [q] ∧ omap completion (log s') = [])
    ((driver K) <| owned := {[q]} |> <| log := [] |>) (calls K)) as (r & s' & w' & Hrun & -> & Hs' & Hw & He);
    [by apply listening_handed|done|exact (proj2 (elem_of_singleton q q) eq_refl)|done|done|].
  cbn [happen]. rewrite decide_False by done. unfold deliver. rewrite Hrun. eexists. split; [done|].
  cbn. by rewrite Hw, He, app_nil_r.
Qed.

Lemma read_refused_arrival q K :
  listening PENDING_READ_LIMIT (driver K) → q ∉ waiting K →
  ∃ K', happen e (S fuel) callback K (ReadArrives q) = Some K' ∧ listening PENDING_READ_LIMIT (driver K') ∧
    waiting K' = waiting K ∧ ended K' = ended K ++ [(q, STATUS_DEVICE_BUSY)].
Proof.
  intros Hs Hq. destruct (wp_read_busy e Hal fuel q (λ r s' _, r = Some tt ∧ listening PENDING_READ_LIMIT s' ∧
    omap (forwarded_to (read_queue (st s'))) (log s') = [] ∧ omap completion (log s') = [(q, STATUS_DEVICE_BUSY)])
    ((driver K) <| owned := {[q]} |> <| log := [] |>) (calls K)) as (r & s' & w' & Hrun & -> & Hs' & Hw & He);
    [by apply listening_handed|exact (proj2 (elem_of_singleton q q) eq_refl)|done|done|].
  cbn [happen]. rewrite decide_False by done. unfold deliver. rewrite Hrun. eexists. split; [done|].
  cbn. by rewrite Hw, He, app_nil_r.
Qed.

(** What every session keeps: an admission for each waiting and each cancelled
    read. *)
Record counted (a c : Z) (K : session) : Prop := {
  co_listening : listening (Z.min PENDING_READ_LIMIT a) (driver K);
  co_sum : Z.min PENDING_READ_LIMIT a = len (waiting K) + c;
  co_nodup : NoDup (waiting K);
}.

Lemma next_arrival a c q K : counted a c K → q ∉ waiting K →
  ∃ K', happen e (S fuel) callback K (ReadArrives q) = Some K' ∧ counted (a + 1) c K' ∧
    if a <? PENDING_READ_LIMIT then waiting K' = waiting K ++ [q] ∧ ended K' = ended K
    else waiting K' = waiting K ∧ ended K' = ended K ++ [(q, STATUS_DEVICE_BUSY)].
Proof.
  intros [Hs Hsum Hnd] Hq. destruct (Z.ltb_spec a PENDING_READ_LIMIT) as [Ha|Ha].
  - rewrite Z.min_r in Hs, Hsum by lia. destruct (read_arrives _ q K Hs Ha Hq) as (K' & Hrun & Hs' & Hw & He).
    exists K'. split; [done|]. split; [|done]. split; rewrite ?Hw.
    + by rewrite Z.min_r by lia.
    + rewrite Z.min_r by lia. unfold len in *. rewrite length_app. cbn. lia.
    + apply NoDup_app. split; [done|]. split; [|apply NoDup_singleton].
      by intros x Hx ->%list_elem_of_singleton.
  - rewrite Z.min_l in Hs, Hsum by lia. destruct (read_refused_arrival q K Hs Hq) as (K' & Hrun & Hs' & Hw & He).
    exists K'. split; [done|]. split; [|done]. split; rewrite ?Hw; [by rewrite Z.min_l by lia| |done].
    by rewrite Z.min_l by lia.
Qed.

Lemma filter_absent (q : Z) (l : list Z) : q ∉ l → filter (λ r, r ≠ q) l = l.
Proof.
  induction l as [|x l IH]; [done|]. intros [Hx Hl]%not_elem_of_cons.
  rewrite filter_cons_True by congruence. by rewrite IH.
Qed.

Lemma length_filter_ne (q : Z) (l : list Z) : NoDup l → q ∈ l → len (filter (λ r, r ≠ q) l) = len l - 1.
Proof.
  intros Hnd Hq. induction Hnd as [|x l Hx Hnd IH]; [by apply not_elem_of_nil in Hq|].
  apply elem_of_cons in Hq as [->|Hq].
  - rewrite filter_cons_False by (intros H; by apply H). rewrite filter_absent by done. rewrite len_cons. lia.
  - rewrite filter_cons_True by (by intros ->). rewrite !len_cons, IH by done. lia.
Qed.

Lemma next_happening a c h K K' : counted a c K → happen e (S fuel) callback K h = Some K' →
  if is_arrival h then counted (a + 1) c K' else counted a (c + 1) K'.
Proof.
  intros HK Hrun. destruct h as [q|q]; cbn [is_arrival].
  - destruct (decide (q ∈ waiting K)) as [Hq|Hq].
    + cbn [happen] in Hrun. by rewrite decide_True in Hrun.
    + destruct (next_arrival a c q K HK Hq) as (K2 & Hrun2 & HK2 & _). by simplify_eq.
  - cbn [happen] in Hrun. destruct (decide _) as [Hq|Hq]; [|done]. injection Hrun as <-.
    destruct HK as [Hs Hsum Hnd]. split; cbn; [done| |by apply NoDup_filter].
    rewrite length_filter_ne by done. lia.
Qed.

Lemma history_counted history : ∀ a c K K', counted a c K → happens e (S fuel) callback K history = Some K' →
  counted (a + arrivals history) (c + cancellations history) K'.
Proof.
  unfold arrivals, cancellations, len.
  induction history as [|h history IH]; intros a c K K' HK Hrun; cbn [happens] in Hrun.
  - injection Hrun as <-. cbn. by rewrite !Z.add_0_r.
  - destruct (happen e (S fuel) callback K h) as [K1|] eqn:Hh; [|done].
    pose proof (next_happening a c h K K1 HK Hh) as HK1. rewrite !filter_cons.
    destruct (is_arrival h); [rewrite decide_True, decide_False by done|rewrite decide_False, decide_True by done];
      cbn [Datatypes.length]; specialize (IH _ _ _ _ HK1 Hrun).
    + by replace (a + _) with (a + 1 + Z.of_nat (Datatypes.length (filter (λ h, is_arrival h = true) history))) by lia.
    + by replace (c + _) with (c + 1 + Z.of_nat (Datatypes.length (filter (λ h, is_arrival h = false) history))) by lia.
Qed.

End sessions.

(** ** The read limit *)

(** C35: reads that are cancelled while they wait use up the read limit.  Take an
    open instance in the legacy mode with no captured frame and no other thread
    at work, and any sequence of arriving and cancelled reads.  The manual queue
    has the configuration the driver creates it with, and no
    [EvtIoCanceledOnQueue] in it: whatever handler there might be for a queued
    read that is cancelled ([callback]), none runs when a waiting read is
    cancelled: the framework completes it, and the driver and its calls stay as
    they were.  So the admissions taken are those of the waiting reads and of all
    the reads cancelled so far; they are as many as reads arrived, up to 256; and
    from the 257th arrival on a read fails with [STATUS_DEVICE_BUSY], however few
    wait. *)
Theorem cancelled_reads_exhaust_admissions (e : env dev dp_ret) (fuel : nat)
    (callback : handler → Z → D (option unit)) (s : dev) (history : list happening) (K : session) :
  alone e → listening 0 s → happens e (S fuel) callback (fresh_session s) history = Some K →
  pending_reads (st (driver K)) = len (waiting K) + cancellations history ∧
  pending_reads (st (driver K)) = Z.min PENDING_READ_LIMIT (arrivals history) ∧
  (∀ q, q ∉ waiting K → ∃ K', happen e (S fuel) callback K (ReadArrives q) = Some K' ∧
    if arrivals history <? PENDING_READ_LIMIT
    then waiting K' = waiting K ++ [q] ∧ ended K' = ended K
    else waiting K' = waiting K ∧ ended K' = ended K ++ [(q, STATUS_DEVICE_BUSY)]) ∧
  (∀ q, q ∈ waiting K → ∃ K', happen e (S fuel) callback K (ReadCancelled q) = Some K' ∧
    driver K' = driver K ∧ calls K' = calls K ∧ ended K' = ended K ++ [(q, STATUS_CANCELLED)]).
Proof.
  intros Hal Hs Hrun.
  assert (counted 0 0 (fresh_session s)) as H0 by (split; [exact Hs|done|constructor]).
  pose proof (history_counted e Hal fuel callback history 0 0 _ _ H0 Hrun) as HK.
  pose proof (li_pending _ _ (co_listening _ _ _ HK)) as Hp. pose proof (co_sum _ _ _ HK) as Hsum.
  split; [lia|]. split; [done|]. split; intros q Hq.
  - destruct (next_arrival e Hal fuel callback _ _ q K HK Hq) as (K' & Hrun' & _ & Hend). by exists K'.
  - cbn [happen]. rewrite decide_True by done. by eexists.
Qed.

(** 256 reads arrive and are cancelled, one after another. *)
Definition read_and_cancel (q : Z) : list happening := [ReadArrives q; ReadCancelled q].
Definition cancelled_reads : list happening := flat_map read_and_cancel (Z.of_nat <$> seq 1 256).

Definition no_callback : handler → Z → D (option unit) := λ _ _, undefined.

Definition cancelled_session : option session :=
  happens quiet_framework 1 no_callback (fresh_session example_dev) cancelled_reads.

Lemma quiet_alone : alone quiet_framework.
Proof. by split. Qed.

Lemma example_listening : listening 0 example_dev.
Proof. split; try done. by eexists. Qed.

Lemma nothing_waits :
  match cancelled_session with Some K => bool_decide (waiting K = []) | None => false end = true.
Proof. vm_compute. reflexivity. Qed.

Lemma cancelled_reads_exhaust_admissions_witness :
  ∃ K K', cancelled_session = Some K ∧ waiting K = [] ∧
    happen quiet_framework 1 no_callback K (ReadArrives 257) = Some K' ∧
    waiting K' = [] ∧ ended K' = ended K ++ [(257, STATUS_DEVICE_BUSY)].
Proof.
  pose proof nothing_waits as H. destruct cancelled_session as [K|] eqn:Hrun; [|discriminate H].
  apply bool_decide_eq_true in H.
  destruct (cancelled_reads_exhaust_admissions quiet_framework 0 no_callback example_dev cancelled_reads K
    quiet_alone example_listening Hrun) as (_ & _ & Hnext & _).
  destruct (Hnext 257) as (K' & Hrun' & Hend); [rewrite H; apply not_elem_of_nil|].
  assert ((arrivals cancelled_reads <? PENDING_READ_LIMIT) = false) as Ha by (vm_compute; reflexivity).
  rewrite Ha in Hend. destruct Hend as [Hw He]. exists K, K'. rewrite Hw. by split_and!.
Defined.
